(* ===== verification/_CoqProject ===== *)
-Q . S2P
Prelude.v
Collections.v
LegacyText.v
ListItem.v
WorkList.v
Transforms.v
AppendIndex.v
Ordering.v
Session.v
Workbench.v
RenameModel.v
Journal.v
Effects.v
Schedule.v
Codec.v
CodecCorrect.v
Executor.v
Reading.v
MemoryBackend.v
ExecutorSafety.v
ScheduleCorrect.v
Tracking.v
Transaction.v
Cancellation.v
Recovery.v
RecoveryState.v
RecoverySafety.v
Lifetime.v
Planner.v
PlannerLogic.v
PlannerCorrect.v
PlanGuarantees.v
Admission.v
AdmissionSort.v
AdmissionCorrect.v
AdmissionTree.v
AdmissionGuarantees.v
Preferences.v
PreferencesCorrect.v
PreferenceWriter.v
PreferenceWriterCorrect.v
ApplyProgress.v
IconRequests.v
Preview.v
PreviewCorrect.v
PreviewGuarantees.v
ConfirmationDisplay.v
ConfirmationCorrect.v
ConfirmationGuarantees.v
CommandCatalog.v
Layout.v
MainLayout.v
MainLayoutCorrect.v
Columns.v
PromptLayout.v
Activation.v
FileJournal.v
FileJournalCorrect.v
FileJournalGuarantees.v
DurableExecution.v
Startup.v
WindowsNative.v
WindowsBackend.v
NativeSystem.v
WindowsBackendCorrect.v
NativeVolume.v
WindowsGuarantees.v
Appearance.v
Presentation.v
FocusNavigation.v
IconCache.v
AppState.v
Workers.v
RecoveryUi.v
Dispatch.v
Selection.v
Workflow.v
WorkflowCorrect.v
WorkflowGuarantees.v
