(* ===== verification/Prelude.v ===== *)
(** * DarkReNamer: a verification library

    DarkReNamer is a bulk renamer for Windows.  The user collects rows in a list
    workbench, edits proposed names, has a plan made from them, confirms it, and
    has it executed under a write-ahead journal; an execution that was killed is
    rolled back from its journal the next time the program starts.  This library
    models the two crates that decide what happens to the user's files, down to the
    bytes of the journal file and up to the window that starts, confirms and takes
    over every piece of work, with the admission of files into the list, the
    protocols between the program's threads and the geometry of its window, and
    proves that they do what they promise.

    ** Parts of the program and where they are modelled

    Crate [darknamer-core] (src/crates/darknamer-core/src):
    - LegacyText: UTF-16 text, path slices and digit runs of lib.rs, and
      [validate_windows_leaf_name] of windows_leaf_name.rs.
    - ListItem: [LegacyListItem], planned paths, [PlannedChangeKind].
    - WorkList: [LegacyList] with its cached totals, source revision and identity,
      the staging loops, removal, manual edits, recorded moves, parents.
    - Transforms: the sixteen proposal commands, import and export.
    - AppendIndex: [LegacyAppendIndex] and the append family.
    - Ordering: sorting with its in-place permutation, and moving rows.

    Crate [darknamer-app] (src/crates/darknamer-app/src/rename):
    - RenameModel: the data of model.rs, [RenameBackend] of ports.rs.
    - Journal: journal.rs (records, strict replay, [MemoryJournal]) and the journal
      traits of ports.rs.
    - Effects: programs over adapter calls, their runs and their interruptions.
    - Schedule: schedule.rs.     - Executor: executor.rs.
    - Recovery: recovery.rs.     - Planner: planner.rs.
    - Codec: the byte format of file_journal.rs.
    - FileJournal: the adapter of file_journal.rs, its directory and its open files;
      FileJournalCorrect and FileJournalGuarantees hold its lemmas and theorems.
    - DurableExecution: the executor and the recovery run over that adapter.
    - MemoryBackend: memory.rs.  - Activation: activation.rs.
    - WindowsNative: the handle-relative primitives of windows_native.rs, and
      WindowsBackend: [RenameBackend] over them, all of windows_backend.rs.
      NativeSystem states what the system calls do; WindowsBackendCorrect and
      WindowsGuarantees hold the proofs, NativeVolume a volume that satisfies the
      laws.

    Around the transaction (src/crates/darknamer-app/src):
    - Admission: admission.rs, from dropped or listed paths to rows; AdmissionSort,
      AdmissionCorrect and AdmissionTree hold its lemmas.
    - Preferences: the record formats of windows/preferences.rs.
    - PreferenceWriter: [CoalescingWriter] of windows/preferences.rs and
      [WriterStatus] of windows/preference_lifecycle.rs.
    - ApplyProgress: apply_progress.rs with its publisher in windows/worker.rs.
    - IconRequests: icon_requests.rs.
    - Startup: how windows/safe_runtime.rs opens the journals an earlier run left.
    - Preview: the issues and filters of preview.rs and the incremental refresh of
      windows/list_view.rs; PreviewCorrect and PreviewGuarantees.
    - ConfirmationDisplay: confirmation_display.rs; ConfirmationCorrect and
      ConfirmationGuarantees.
    - CommandCatalog: the command table of command_catalog.rs.
    - Layout, MainLayout, Columns, PromptLayout: the geometry of ui_layout.rs and
      window_placement.rs; MainLayoutCorrect.
    - Appearance: appearance_model.rs.  Presentation: the policies of lib.rs between
      the model and the window.  FocusNavigation: focus_navigation.rs.  IconCache:
      icon_cache.rs.

    The window (src/crates/darknamer-app/src/windows.rs and windows/):
    - AppState: the window's locks, workers, sessions and kept journals (windows.rs).
    - Workers: the planning, applying and adding threads and the close of the window
      (worker.rs).  RecoveryUi: kept journals (recovery_ui.rs).  Dispatch: commands,
      prompts, file dialogs and imports (command_dispatch.rs).  Selection: the
      selected rows across a sort.
    - Workflow: the message loop over all of these, one [step] per dispatched event,
      with threads and modal dialogs in flight; WorkflowCorrect holds its invariant
      and WorkflowGuarantees its theorems.  It runs the operations of WorkList,
      Transforms, Planner, Executor, Recovery and FileJournal themselves.

    Prelude (below) has the result type, the state-and-error monad [SE], machine
    integers and generic lemmas; Collections has ordered keys, sorted association
    lists for BTreeMap and BTreeSet, stable sorting and binary search.

    ** How the definitions correspond to the code

    - A u16 or byte is a [Z]; a [LegacyText] is its list of units.  A usize is a [Z]
      with the checked, saturating and wrapping operations the code uses at 64 bits;
      an index into a vector is a [nat] and an index that would panic is an error.
    - A method that changes [&mut self] and may fail runs in [SE]: the state reached
      is kept when an error is returned.  The answers of [try_reserve] and the fresh
      [Arc] identities are a heap threaded with the list (WorkList).
    - Code that acts through traits (scheduler, executor, recovery) is a [prog] over
      the calls of the traits, in the order the source makes them.  [run] gives a
      program the meaning of adapters; [interrupted] are the states a crash between
      two calls leaves behind.
    - Traits are classes ([RenameBackend], [JournalStore], [AuthorizedJournal],
      [ExecutionControl]) and their documented contracts are classes of laws
      ([RenameBackendLaws], [ObservingBackend], [JournalStoreLaws],
      [AuthorizedJournalLaws]).  The in-memory adapters of the program are instances
      of both, so every theorem over the laws has a concrete instance.
    - The planner only reads its backend, which is an argument; the cancellation
      closure is the list of its answers, one consumed by each poll.
    - A function over Win32 is a [prog] over its system calls.  [NativeSystem] is a
      world in which other processes may act before every call, as far as the
      handles that are open allow: a handle stays on its entry, and a name whose
      entry is open without sharing its deletion keeps naming it.  Of the program's
      own calls only the rename moves an entry.  Handles are closed when an operation
      returns.
    - The window is a state machine.  An event is a message the loop dispatches or
      the end of a thread; it carries what the user, the system and the calls of the
      thread answered.  A dialog is a stack entry with a message loop of its own, so
      events come between its opening and its return.  That another program changed
      the filesystem is the event [FilesChanged].  The close may be finished at any
      time after it was asked for: [prepare_window_close] asks again.
    - Two threads that share a lock or a channel are a state with a list of actions
      in any order, one action per section under the lock or per message operation,
      and a trace of what the client sees (PreferenceWriter, ApplyProgress).
    - A panic of a worker thread that is caught ([catch_unwind]) is an action or event
      of the model (PreferenceWriter, Workflow).  Only development and test builds
      unwind; the release profile aborts the process, so a run of a release build has
      none of these and ends where it is aborted.
    - An open file is its bytes, a cursor, the name it is linked at and its delete
      disposition, with a script of the system's answers to the calls to come.  A
      call that fails may have had a part of its effect, and a process killed inside
      a call leaves what a failing call can leave.  Writes reach the file in the
      order they were made (FileJournal).
    - A width or a coordinate is a [Z] with the saturating and wrapping operations
      of i32 written out (Layout).
    - Functions of the standard library or of the system that the source only calls
      (the Unicode lower-casing table, the comparators handed in by the interface)
      are arguments.

    ** What the theorems show

    - Execution and recovery (ExecutorSafety, ScheduleCorrect, Transaction,
      Cancellation, Tracking, RecoveryState, RecoverySafety, Lifetime).  Against any
      lawful adapters and at every point where the process can stop, the filesystem
      is the start state after the first [k] moves of the schedule and the journal
      accounts for [k], one prepared move aside.  The schedule moves every row to its
      destination, through cycles too, without ever meeting an occupied path.  What
      the executor and the recovery report is what happened.  Recovery never panics,
      is never blocked by a journal the executor wrote, may be killed and repeated,
      and with adapters that do not refuse it restores the filesystem.  Together:
      whenever the journal is clean the filesystem is as before or fully renamed
      ([atomic_rename]), the specification the two refine.
    - Planning (PlannerLogic, PlannerCorrect, PlanGuarantees).  A returned plan has
      the invariants the executor needs, so a planned request that is executed to
      completion has moved every entry where it asked; cancellation only cancels; the
      ancestor walk ends within its bound for paths without empty components.
    - Journal and codec (Journal, CodecCorrect).  A journal that replays as clean
      accounts for every step; decoding inverts encoding; a torn journal is inspected
      to exactly its complete frames; the capacity preflight is exact.
    - Journal files (FileJournalCorrect, FileJournalGuarantees, DurableExecution,
      Startup).  Whatever the system answers and wherever the process stops, the
      file holds every acknowledged record, at most the one in flight after them,
      and at most a torn frame behind those; reopening finds them.  A successful
      append leaves exactly the encoding of the records, and only a journal with
      nothing left to settle is deleted.  With the transaction on top: from the disk
      alone a reopened journal and the filesystem agree.  A runtime that starts
      beside something unsettled or unreadable stays pending.
    - Windows adapter (WindowsGuarantees).  Whatever other processes do, a rename
      refuses without a change or makes exactly the authorised move, and a failure
      reported as not applied changed nothing; an observation was true at a moment
      during the call.
    - Workbench (Session, Workbench).  Every reachable list keeps its cached totals
      exact and within their budgets, as long as moves are recorded only of rows whose
      planned path joins a parent and the proposed name (recording another breaks the
      planned-path total), and an index that calls itself current is right;
      every command changes exactly the rows it reports, to the values of a
      reference definition; sorting, moving, removal, parents, manual edits, import
      and export do what they are specified to do, failures included.
    - Admission (AdmissionGuarantees).  A collection stays within its bounds of
      count, bytes and depth whatever the adapter answers, admits nothing twice and
      no reparse point; over a filesystem that does not change it lists exactly the
      forest below the roots; its cancellable merge sort is the stable sort.
    - Settings (PreferencesCorrect, PreferenceWriterCorrect).  Records are canonical
      and one changed byte is always noticed.  In every interleaving saves happen in
      the order of requests, a stopped writer lost nothing but superseded snapshots,
      joining returns, and an acknowledgement means the newest snapshot is saved.
    - Interface (Activation, ApplyProgress, IconRequests).  Plan requests, reports
      applied to rows, cleanup; no progress is lost to coalesced wakes; the slots of
      icon requests stay bounded and every request is answered once.
    - Preview and confirmation (PreviewGuarantees, ConfirmationGuarantees).  The
      issues shown are exactly those of a reference definition over all rows, and
      the refresh after an edit equals the full one; an uncut text of the
      confirmation identifies its name, and a cut is always disclosed.
    - Window (CommandCatalog, MainLayoutCorrect, Columns, PromptLayout).  The table
      of commands is consistent; rails, list and status line tile the client area;
      the columns fill their width and a resize keeps; a prompt fits its bounds.
    - Workflow (WorkflowGuarantees).  In every session, whatever is dispatched and
      answered: at most one worker or dialog that changes the list is at work and the
      locks say which; an apply starts only from a confirmed dialog and executes the
      plan made of the rows as they are; no event but an apply or a confirmed
      recovery moves a file; a list that an apply unlocked stands for a settled disk;
      and the window is destroyed only when nothing runs.
    - Presentation (Presentation, Appearance, FocusNavigation, IconCache, Selection).
      The summary of a plan partitions its rows, sizes are rounded as documented,
      focus moves visit every control and undo each other, an appearance survives its
      packing and a cancelled dialog keeps the original, the icon cache is bounded,
      and the selected rows follow a sort.

    ** Bounds and fuel

    - The ancestor walk of the planner has the source's own bound of 256 steps, and
      the search for a temporary name its 32 candidates.
    - [merge_loop], [merge_passes] and [collect_loop] of Admission are given the number
      of slots, of doublings and of candidates they can use up; running out is an
      error that [sort_paths_is_stable_sort] and [admission_sound] exclude.  A writer
      needs at most ten worker steps to end after a shutdown.
    - [schedule_loop] and [close_cycle] take at most one step per row of the plan and
      are given that many, the latter one more for its test at the end; running out
      would be the error [ScheduleInvalid], which build_schedule_arrives excludes.  [inspect_frames] and [decode_journal_records] take at least a
      header of bytes per step, so the length of the input is enough.

    - [grow_all] of PromptLayout is given the height that is available: each of its
      passes spends a pixel of it.

    ** What the laws leave out

    The backend law for a move says that every other path keeps its occupant.  A real
    directory takes its contents with it; the plans for which this matters are
    refused by the planner's overlap checks ([plan_sound]), and within the laws a
    directory is one entry.  The laws give no liveness to adapters: where a result
    needs an adapter that does not refuse, the hypothesis says so.  Above the
    adapter other processes are not modelled: between two calls the filesystem
    changes only by the program's own moves, and a foreign change shows itself as a
    refused or uncertain call; inside the Windows adapter they are (NativeSystem).

    The journal file is modelled for a process that is killed, not for a machine that
    loses power between a write and its flush: that a successful [sync_all] reaches
    the disk is the system's promise, and the order of unsynchronised writes is not
    varied.

    ** Not modelled

    - Text export, directory enumeration and the token query of windows_native.rs,
      and the security descriptors of private_state.rs.  What the journal asks of
      its files is the script of answers in FileJournal.  The theorems on the
      Windows adapter are about directory entries and handles; they do not derive
      the laws of [RenameBackend], which speak of path texts: two texts can name one
      directory, and a directory takes the paths below it along.
    - The native side of the window: creation, painting, subclassing and geometry of
      controls, list-view notifications, accessibility.  Of the workflow: messages and
      progress texts, timing evidence, the clipboard, when settings are saved, the
      emergency path after a message loop that failed, and the answers of the workers'
      thread creation beyond success and failure.
    - Temporary files and replacement of the settings files, the language
      diagnostics, and the composition of the three writers at close.
    - The geometry of the appearance dialog, of chrome, buttons and scroll bars.
    - Message texts and localisation (i18n.rs), Display implementations, test
      failpoints, and the scripts. *)

From Stdlib Require Export ZArith Lia String Ascii.
From stdpp Require Export prelude option numbers sorting strings list.

#[global] Open Scope Z_scope.
Declare Scope dr_scope.
Delimit Scope dr_scope with dr.
#[global] Open Scope dr_scope.

(** ** Results: Rust's [Result<A, E>] *)

Inductive result (E A : Type) : Type :=
| Ok (a : A)
| Err (e : E).
Arguments Ok {E A} _.
Arguments Err {E A} _.

#[export] Instance result_ret E : MRet (result E) := fun A a => Ok a.
#[export] Instance result_bind E : MBind (result E) := fun A B f m =>
  match m with Ok a => f a | Err e => Err e end.
#[export] Instance result_fmap E : FMap (result E) := fun A B f m =>
  match m with Ok a => Ok (f a) | Err e => Err e end.
#[export] Instance result_eq_dec E A `{EqDecision E, EqDecision A} :
  EqDecision (result E A).
Proof. solve_decision. Defined.

Lemma Ok_inj {E A} (a b : A) : @Ok E A a = Ok b -> a = b.
Proof. by intros [= ->]. Qed.

(** [Option::ok_or] and [Result::map_err]. *)
Definition ok_or {E A} (e : E) (o : option A) : result E A :=
  match o with Some a => Ok a | None => Err e end.
Definition map_err {E F A} (f : E -> F) (r : result E A) : result F A :=
  match r with Ok a => Ok a | Err e => Err (f e) end.

Lemma ok_or_Ok {E A} (e : E) (o : option A) a : ok_or e o = Ok a -> o = Some a.
Proof. destruct o; simpl; congruence. Qed.

(** ** A state and error monad: the code mutates [S] and may return early
    with an error; the state reached at the error is kept. *)

Definition SE (S E A : Type) : Type := S -> result E A * S.

#[export] Instance SE_ret S E : MRet (SE S E) := fun A a s => (Ok a, s).
#[export] Instance SE_bind S E : MBind (SE S E) := fun A B f m s =>
  match m s with
  | (Ok a, s') => f a s'
  | (Err e, s') => (Err e, s')
  end.

Definition SE_throw {S E A} (e : E) : SE S E A := fun s => (Err e, s).
Definition SE_get {S E} : SE S E S := fun s => (Ok s, s).
Definition SE_put {S E} (s' : S) : SE S E unit := fun _ => (Ok tt, s').
(** A pure fallible computation inside the monad (the [?] operator). *)
Definition SE_lift {S E A} (r : result E A) : SE S E A := fun s => (r, s).

Lemma SE_bind_Ok {S E A B} (m : SE S E A) (f : A -> SE S E B) s b s' :
  (m ≫= f) s = (Ok b, s') ->
  exists a s1, m s = (Ok a, s1) /\ f a s1 = (Ok b, s').
Proof.
  unfold mbind, SE_bind. destruct (m s) as [[a|e] s1]; [eauto|discriminate].
Qed.

Lemma SE_bind_Err {S E A B} (m : SE S E A) (f : A -> SE S E B) s e s' :
  (m ≫= f) s = (Err e, s') ->
  m s = (Err e, s') \/
  exists a s1, m s = (Ok a, s1) /\ f a s1 = (Err e, s').
Proof.
  unfold mbind, SE_bind.
  destruct (m s) as [[a|e1] s1]; intros H; [right; eauto|left; congruence].
Qed.

Lemma SE_bind_step {S E A B} (m : SE S E A) (f : A -> SE S E B) s a s1 :
  m s = (Ok a, s1) -> (m ≫= f) s = f a s1.
Proof. intros H. unfold mbind, SE_bind. by rewrite H. Qed.

Lemma result_bind_Ok {E A B} (m : result E A) (f : A -> result E B) b :
  m ≫= f = Ok b -> exists a, m = Ok a /\ f a = Ok b.
Proof. destruct m as [a|e]; [eauto|discriminate]. Qed.

(** ** Machine integers.  A [usize] is 64 bits wide on the supported target
    ([x86_64-pc-windows-msvc]). *)

Definition usize_max : Z := 2 ^ 64 - 1.
Definition u64_max : Z := 2 ^ 64 - 1.
Definition u32_max : Z := 2 ^ 32 - 1.

Definition checked_add (a b : Z) : option Z :=
  if a + b <=? usize_max then Some (a + b) else None.
Definition checked_sub (a b : Z) : option Z :=
  if b <=? a then Some (a - b) else None.
Definition checked_mul (a b : Z) : option Z :=
  if a * b <=? usize_max then Some (a * b) else None.
Definition saturating_add (a b : Z) : Z := Z.min (a + b) usize_max.
Definition saturating_sub (a b : Z) : Z := Z.max (a - b) 0.
Definition saturating_mul (a b : Z) : Z := Z.min (a * b) usize_max.
(** Plain [+] and [-] on [usize] wrap in the release profile, which leaves
    [overflow-checks] off. *)
Definition usize_add (a b : Z) : Z := (a + b) mod 2 ^ 64.
Definition usize_sub (a b : Z) : Z := (a - b) mod 2 ^ 64.

Definition in_usize (a : Z) : Prop := 0 <= a <= usize_max.

Lemma checked_add_Some a b c :
  checked_add a b = Some c -> c = a + b /\ a + b <= usize_max.
Proof. unfold checked_add. case_match; naive_solver lia. Qed.

Lemma checked_add_ok a b : a + b <= usize_max -> checked_add a b = Some (a + b).
Proof. intros H. unfold checked_add. case_match; [done|lia]. Qed.

Lemma checked_sub_Some a b c : checked_sub a b = Some c -> c = a - b /\ b <= a.
Proof. unfold checked_sub. case_match; naive_solver lia. Qed.

Lemma checked_sub_ok a b : b <= a -> checked_sub a b = Some (a - b).
Proof. intros H. unfold checked_sub. case_match; [done|lia]. Qed.

Lemma checked_mul_Some a b c :
  checked_mul a b = Some c -> c = a * b /\ a * b <= usize_max.
Proof. unfold checked_mul. case_match; naive_solver lia. Qed.

Lemma checked_mul_ok a b : a * b <= usize_max -> checked_mul a b = Some (a * b).
Proof. intros H. unfold checked_mul. case_match; [done|lia]. Qed.

Lemma usize_sub_small a b : 0 <= b <= a -> a <= usize_max -> usize_sub a b = a - b.
Proof. unfold usize_sub, usize_max. intros. apply Z.mod_small. lia. Qed.

Lemma usize_add_small a b :
  0 <= a -> 0 <= b -> a + b <= usize_max -> usize_add a b = a + b.
Proof. unfold usize_add, usize_max. intros. apply Z.mod_small. lia. Qed.

(** Lengths as machine quantities. *)
Definition zlen {A} (l : list A) : Z := Z.of_nat (length l).

Lemma zlen_nil {A} : zlen (@nil A) = 0.
Proof. done. Qed.
Lemma zlen_cons {A} (x : A) l : zlen (x :: l) = 1 + zlen l.
Proof. unfold zlen. simpl. lia. Qed.
Lemma zlen_app {A} (l k : list A) : zlen (l ++ k) = zlen l + zlen k.
Proof. unfold zlen. rewrite length_app. lia. Qed.
Lemma zlen_nonneg {A} (l : list A) : 0 <= zlen l.
Proof. unfold zlen. lia. Qed.

(** [option] accumulates with [?] as in [checked_add(..)?.checked_add(..)]. *)

Definition b2z (b : bool) : Z := if b then 1 else 0.

(** ** Slices: [Iterator::position] and [Iterator::rposition] *)

Section positions.
Context {A : Type} (p : A -> bool).

Fixpoint position (l : list A) : option nat :=
  match l with
  | [] => None
  | x :: l' => if p x then Some 0%nat else S <$> position l'
  end.

Fixpoint rposition (l : list A) : option nat :=
  match l with
  | [] => None
  | x :: l' =>
      match rposition l' with
      | Some i => Some (S i)
      | None => if p x then Some 0%nat else None
      end
  end.

Lemma position_None l : position l = None <-> Forall (fun x => p x = false) l.
Proof.
  induction l as [|x l IH]; simpl; [done|].
  rewrite Forall_cons. destruct (p x) eqn:Hp.
  - split; [done|]. by intros [? _].
  - rewrite fmap_None. tauto.
Qed.

Lemma position_Some l i :
  position l = Some i <->
  exists x, l = take i l ++ x :: drop (S i) l /\ p x = true /\ (i < length l)%nat /\
            Forall (fun y => p y = false) (take i l).
Proof.
  revert i. induction l as [|x l IH]; intros i; simpl.
  { split; [done|]. intros (? & ? & ? & ? & ?). lia. }
  destruct (p x) eqn:Hp.
  - split.
    + intros [= <-]. exists x. simpl. rewrite drop_0. split_and!; [done|done|lia|done].
    + intros (y & Heq & Hy & Hlt & Hall). destruct i as [|i]; [done|].
      simpl in *. apply Forall_cons in Hall as [??]. congruence.
  - rewrite fmap_Some. split.
    + intros (j & Hj & ->). apply IH in Hj as (y & Heq & Hy & Hlt & Hall).
      exists y. simpl. split_and!; [by f_equal|done|lia|by constructor].
    + intros (y & Heq & Hy & Hlt & Hall). destruct i as [|i]; simpl in *.
      { injection Heq as <-. congruence. }
      exists i. split; [|done]. apply IH. injection Heq as Heq. exists y.
      apply Forall_cons in Hall as [??]. split_and!; [done|done|lia|done].
Qed.

Lemma rposition_None l : rposition l = None <-> Forall (fun x => p x = false) l.
Proof.
  induction l as [|x l IH]; simpl; [done|].
  rewrite Forall_cons, <-IH.
  destruct (rposition l), (p x) eqn:Hp; split; try done; by intros [??].
Qed.

Lemma rposition_split pre x post :
  p x = true -> Forall (fun y => p y = false) post ->
  rposition (pre ++ x :: post) = Some (length pre).
Proof.
  intros Hx Hpost. induction pre as [|y pre IH]; simpl.
  - apply rposition_None in Hpost. by rewrite Hpost, Hx.
  - by rewrite IH.
Qed.

Lemma rposition_Some l i :
  rposition l = Some i ->
  exists x, l = take i l ++ x :: drop (S i) l /\ p x = true /\ (i < length l)%nat /\
            Forall (fun y => p y = false) (drop (S i) l).
Proof.
  revert i. induction l as [|x l IH]; intros i; simpl; [done|].
  destruct (rposition l) as [j|] eqn:Hj.
  - intros [= <-]. destruct (IH j eq_refl) as (y & Heq & Hy & Hlt & Hall).
    exists y. simpl. split_and!; [by f_equal|done|lia|done].
  - destruct (p x) eqn:Hp; [|done]. intros [= <-]. exists x.
    rewrite drop_0. split_and!; [done|done|lia|by apply rposition_None].
Qed.

Lemma rposition_lt l i : rposition l = Some i -> (i < length l)%nat.
Proof. intros (? & _ & _ & ? & _)%rposition_Some. done. Qed.

Lemma position_lt l i : position l = Some i -> (i < length l)%nat.
Proof. intros (? & _ & _ & ? & _)%position_Some. done. Qed.

Lemma rposition_app_None pre post :
  Forall (fun y => p y = false) post -> rposition (pre ++ post) = rposition pre.
Proof.
  intros Hpost. induction pre as [|x pre IH]; simpl.
  - by apply rposition_None.
  - by rewrite IH.
Qed.
End positions.

(** Maximal blocks of a slice between separators: [slice::split]. *)
Fixpoint split_units {A} (p : A -> bool) (l : list A) : list (list A) :=
  match l with
  | [] => [[]]
  | x :: l' =>
      if p x then [] :: split_units p l'
      else match split_units p l' with
           | [] => [[x]]
           | b :: bs => (x :: b) :: bs
           end
  end.

(** [<[T]>::starts_with]. *)
Fixpoint starts_with (l needle : list Z) {struct needle} : bool :=
  match needle, l with
  | [], _ => true
  | _ :: _, [] => false
  | n :: needle', x :: l' => (x =? n) && starts_with l' needle'
  end.

Lemma starts_with_spec l needle :
  starts_with l needle = true <-> l = needle ++ drop (length needle) l.
Proof.
  revert l. induction needle as [|n needle IH]; intros l; simpl.
  - by rewrite drop_0.
  - destruct l as [|x l]; simpl; [split; discriminate|].
    rewrite andb_true_iff, Z.eqb_eq, IH. split.
    + intros [-> H]. by f_equal.
    + intros H. injection H as -> H. done.
Qed.

(** [repeat_n] of a unit. *)
Definition repeat_n {A} (x : A) (n : Z) : list A := replicate (Z.to_nat n) x.

(** A property every step of a fold keeps. *)
Lemma fold_left_inv {A B} (P : A -> Prop) (Q : B -> Prop) (f : A -> B -> A) l a :
  (forall a b, P a -> Q b -> P (f a b)) -> Forall Q l -> P a -> P (fold_left f l a).
Proof.
  intros Hf Hl. revert a. induction Hl as [|b l Hb Hl IH]; intros a Ha; simpl; auto.
Qed.

Lemma elem_of_reverse_rev {A} (x : A) l : x ∈ rev l <-> x ∈ l.
Proof. by rewrite !list_elem_of_In, <-in_rev. Qed.
