(* ===== verification/Collections.v ===== *)
(** * Collections: the standard-library collections the program uses

    Ordered keys (Rust's derived [Ord]), [BTreeMap] and [BTreeSet] as sorted
    association lists and lists, [sort_by] and [binary_search_by]. *)

From S2P Require Import Prelude.

(** ** Ordered keys *)

Class Ordered (K : Type) := compare : K -> K -> comparison.
#[export] Hint Mode Ordered ! : typeclass_instances.

Class OrderedLaws (K : Type) `{Ordered K} : Prop := {
  compare_eq_iff : forall a b : K, compare a b = Eq <-> a = b;
  compare_opp : forall a b : K, compare b a = CompOpp (compare a b);
  compare_lt_trans : forall a b c : K,
    compare a b = Lt -> compare b c = Lt -> compare a c = Lt
}.

#[export] Instance Z_ordered : Ordered Z := Z.compare.
#[export] Instance nat_ordered : Ordered nat := Nat.compare.

(** Tuples and structs compare field by field. *)
Definition then_with (c d : comparison) : comparison :=
  match c with Eq => d | _ => c end.

#[export] Instance prod_ordered K L `{Ordered K, Ordered L} : Ordered (K * L) :=
  fun a b => then_with (compare a.1 b.1) (compare a.2 b.2).

(** Slices compare lexicographically. *)
Fixpoint list_compare {K} `{Ordered K} (a b : list K) : comparison :=
  match a, b with
  | [], [] => Eq
  | [], _ :: _ => Lt
  | _ :: _, [] => Gt
  | x :: a', y :: b' => then_with (compare x y) (list_compare a' b')
  end.
#[export] Instance list_ordered K `{Ordered K} : Ordered (list K) := list_compare.

#[export] Instance Z_ordered_laws : OrderedLaws Z.
Proof.
  split; unfold compare, Z_ordered.
  - intros. apply Z.compare_eq_iff.
  - intros. apply Z.compare_antisym.
  - intros a b c. rewrite !Z.compare_lt_iff. lia.
Qed.

#[export] Instance nat_ordered_laws : OrderedLaws nat.
Proof.
  split; unfold compare, nat_ordered.
  - intros. apply Nat.compare_eq_iff.
  - intros. apply Nat.compare_antisym.
  - intros a b c. rewrite !Nat.compare_lt_iff. lia.
Qed.

Section ordered_facts.
Context {K : Type} `{OrderedLaws K}.

Lemma compare_refl (a : K) : compare a a = Eq.
Proof. by apply compare_eq_iff. Qed.

Lemma compare_gt_iff (a b : K) : compare a b = Gt <-> compare b a = Lt.
Proof. rewrite (compare_opp a b). destruct (compare a b); simpl; naive_solver. Qed.

Lemma compare_lt_irrefl (a : K) : compare a a <> Lt.
Proof. rewrite compare_refl. done. Qed.
End ordered_facts.

#[export] Instance prod_ordered_laws K L `{OrderedLaws K, OrderedLaws L} :
  OrderedLaws (K * L).
Proof.
  split; unfold compare, prod_ordered.
  - intros [a1 a2] [b1 b2]; simpl. rewrite pair_eq, <-!compare_eq_iff.
    destruct (compare a1 b1); simpl; naive_solver.
  - intros [a1 a2] [b1 b2]; simpl. rewrite (compare_opp a1 b1), (compare_opp a2 b2).
    by destruct (compare a1 b1).
  - intros [a1 a2] [b1 b2] [c1 c2]; simpl.
    destruct (compare a1 b1) eqn:E1; simpl; [|intros _|done].
    + apply compare_eq_iff in E1 as ->.
      destruct (compare b1 c1); simpl; [|done|done]. apply compare_lt_trans.
    + destruct (compare b1 c1) eqn:E2; simpl; [|intros _|done].
      * apply compare_eq_iff in E2 as ->. by rewrite E1.
      * by rewrite (compare_lt_trans _ _ _ E1 E2).
Qed.

#[export] Instance list_ordered_laws K `{OrderedLaws K} : OrderedLaws (list K).
Proof.
  split; unfold compare, list_ordered.
  - intros a. induction a as [|x a IH]; intros [|y b]; simpl; [done|done|done|].
    transitivity (x = y /\ a = b); [|naive_solver].
    rewrite <-compare_eq_iff, <-IH. destruct (compare x y); simpl; naive_solver.
  - intros a. induction a as [|x a IH]; intros [|y b]; simpl; [done|done|done|].
    rewrite (compare_opp x y), IH. by destruct (compare x y).
  - intros a. induction a as [|x a IH]; intros [|y b] [|z c]; simpl; try done.
    destruct (compare x y) eqn:E1; simpl; [|intros _|done].
    + apply compare_eq_iff in E1 as ->.
      destruct (compare y z); simpl; [apply IH|done|done].
    + destruct (compare y z) eqn:E2; simpl; [|intros _|done].
      * apply compare_eq_iff in E2 as ->. by rewrite E1.
      * by rewrite (compare_lt_trans _ _ _ E1 E2).
Qed.

(** ** [BTreeSet]: a strictly increasing list *)

Definition BTreeSet (K : Type) : Type := list K.

Section btreeset.
Context {K : Type} `{OrderedLaws K}.
Implicit Types (s : BTreeSet K) (x y : K).

Fixpoint bs_contains x (s : list K) : bool :=
  match s with
  | [] => false
  | y :: s' => match compare x y with Eq => true | _ => bs_contains x s' end
  end.

(** [insert]: a present element is left alone. *)
Fixpoint bs_insert x (s : list K) : list K :=
  match s with
  | [] => [x]
  | y :: s' =>
      match compare x y with
      | Lt => x :: y :: s'
      | Eq => y :: s'
      | Gt => y :: bs_insert x s'
      end
  end.

Fixpoint bs_remove x (s : list K) : list K :=
  match s with
  | [] => []
  | y :: s' => match compare x y with Eq => s' | _ => y :: bs_remove x s' end
  end.

Definition bs_extend (l : list K) s : BTreeSet K :=
  fold_left (fun acc x => bs_insert x acc) l s.
(** [difference]. *)
Definition bs_difference (s t : BTreeSet K) : BTreeSet K :=
  List.filter (fun x => negb (bs_contains x t)) s.

Definition bs_sorted (s : list K) : Prop :=
  StronglySorted (fun x y => compare x y = Lt) s.

Lemma bs_contains_spec x s : bs_contains x s = true <-> x ∈ s.
Proof.
  induction s as [|y s IH]; simpl.
  - split; [done|]. by intros ?%not_elem_of_nil.
  - rewrite elem_of_cons, <-compare_eq_iff, <-IH.
    destruct (compare x y); naive_solver.
Qed.

Lemma elem_of_bs_insert x y s : y ∈ bs_insert x s <-> y = x \/ y ∈ s.
Proof.
  induction s as [|z s IH]; simpl; [set_solver|].
  destruct (compare x z) eqn:E; [|set_solver|set_solver].
  apply compare_eq_iff in E as ->. set_solver.
Qed.

Lemma bs_insert_sorted x s : bs_sorted s -> bs_sorted (bs_insert x s).
Proof.
  induction s as [|z s IH]; simpl; intros Hs; [by repeat constructor|].
  apply StronglySorted_inv in Hs as Hs'. destruct Hs' as [Hs1 Hz].
  destruct (compare x z) eqn:E; [done| |].
  - constructor; [done|]. constructor; [done|].
    eapply Forall_impl; [exact Hz|]. intros y. by apply compare_lt_trans.
  - constructor; [by apply IH|]. apply Forall_forall. intros y.
    rewrite elem_of_bs_insert, Forall_forall in *. intros [->|Hy]; [|by apply Hz].
    by apply compare_gt_iff.
Qed.

Lemma bs_sorted_NoDup s : bs_sorted s -> NoDup s.
Proof.
  induction 1 as [|x s _ IH Hx]; constructor; [|done].
  intros Hin. rewrite Forall_forall in Hx.
  by apply (compare_lt_irrefl x), Hx.
Qed.

Lemma elem_of_bs_remove x y s :
  bs_sorted s -> y ∈ bs_remove x s <-> y <> x /\ y ∈ s.
Proof.
  intros Hs. apply bs_sorted_NoDup in Hs.
  induction Hs as [|z s Hz Hs IH]; simpl; [set_solver|].
  destruct (compare x z) eqn:E.
  - apply compare_eq_iff in E as ->. set_solver.
  - assert (x <> z) by (intros ->; by rewrite compare_refl in E). set_solver.
  - assert (x <> z) by (intros ->; by rewrite compare_refl in E). set_solver.
Qed.

Lemma bs_remove_sorted x s : bs_sorted s -> bs_sorted (bs_remove x s).
Proof.
  intros Hs. induction Hs as [|z s Hs IH Hz]; simpl; [constructor|].
  destruct (compare x z); [done| |]; constructor; try done;
    rewrite Forall_forall in *; intros y Hy; apply Hz;
    by apply elem_of_bs_remove in Hy as [_ ?].
Qed.

(** Sets with the same members are equal: the sorted list is canonical. *)
Lemma bs_ext s t : bs_sorted s -> bs_sorted t -> (forall x, x ∈ s <-> x ∈ t) -> s = t.
Proof.
  intros Hs. revert t. induction Hs as [|x s Hs IH Hx]; intros t Ht Hext.
  - destruct t as [|y t]; [done|]. destruct (Hext y) as [_ Hy]. set_solver.
  - destruct Ht as [|y t Ht Hy]; [destruct (Hext x); set_solver|].
    rewrite Forall_forall in Hx, Hy.
    assert (x = y) as <-.
    { destruct (compare x y) eqn:E; [by apply compare_eq_iff|exfalso..].
      - assert (x ∈ y :: t) as [->|Hin]%elem_of_cons by set_solver.
        + by rewrite compare_refl in E.
        + pose proof (Hy _ Hin) as E2. pose proof (compare_lt_trans _ _ _ E E2) as E3.
          by rewrite compare_refl in E3.
      - apply compare_gt_iff in E. assert (y ∈ x :: s) as [->|Hin]%elem_of_cons by set_solver.
        + by rewrite compare_refl in E.
        + pose proof (Hx _ Hin) as E2. pose proof (compare_lt_trans _ _ _ E E2) as E3.
          by rewrite compare_refl in E3. }
    f_equal. apply IH; [done|]. intros z.
    assert (x ∉ s). { intros Hin. apply (compare_lt_irrefl x), Hx, Hin. }
    assert (x ∉ t). { intros Hin. apply (compare_lt_irrefl x), Hy, Hin. }
    specialize (Hext z). set_solver.
Qed.

Lemma bs_filter_sorted (p : K -> bool) s : bs_sorted s -> bs_sorted (List.filter p s).
Proof.
  intros Hs. induction Hs as [|x s Hs IH Hx]; simpl; [constructor|].
  destruct (p x); [|done]. constructor; [done|].
  rewrite Forall_forall in *. intros y [Hy _]%list_elem_of_In%filter_In.
  by apply Hx, list_elem_of_In.
Qed.

Lemma elem_of_bs_difference x s t : x ∈ bs_difference s t <-> x ∈ s /\ x ∉ t.
Proof.
  unfold bs_difference. rewrite list_elem_of_In, filter_In, <-list_elem_of_In.
  rewrite negb_true_iff, <-not_true_iff_false, bs_contains_spec. done.
Qed.

Lemma bs_extend_sorted l s : bs_sorted s -> bs_sorted (bs_extend l s).
Proof.
  unfold bs_extend. revert s.
  induction l as [|x l IH]; intros s Hs; simpl; [done|]. by apply IH, bs_insert_sorted.
Qed.

Lemma elem_of_bs_extend x l s : x ∈ bs_extend l s <-> x ∈ l \/ x ∈ s.
Proof.
  unfold bs_extend. revert s. induction l as [|y l IH]; intros s; simpl; [set_solver|].
  rewrite IH, elem_of_bs_insert, elem_of_cons. tauto.
Qed.
End btreeset.

(** ** [BTreeMap]: an association list with strictly increasing keys *)

Definition BTreeMap (K V : Type) : Type := list (K * V).

Section btreemap.
Context {K : Type} `{OrderedLaws K} {V : Type}.
Implicit Types (m : list (K * V)) (k : K) (v : V).

Fixpoint bm_get k m : option V :=
  match m with
  | [] => None
  | (k', v') :: m' =>
      match compare k k' with Eq => Some v' | _ => bm_get k m' end
  end.

(** [insert] replaces the value of a present key. *)
Fixpoint bm_insert k v m : list (K * V) :=
  match m with
  | [] => [(k, v)]
  | (k', v') :: m' =>
      match compare k k' with
      | Lt => (k, v) :: (k', v') :: m'
      | Eq => (k, v) :: m'
      | Gt => (k', v') :: bm_insert k v m'
      end
  end.

Fixpoint bm_remove k m : list (K * V) :=
  match m with
  | [] => []
  | (k', v') :: m' =>
      match compare k k' with Eq => m' | _ => (k', v') :: bm_remove k m' end
  end.

(** [entry(k).or_insert(v)]. *)
Definition bm_or_insert k v m : BTreeMap K V :=
  match bm_get k m with Some _ => m | None => bm_insert k v m end.

Definition bm_values (m : BTreeMap K V) : list V := map snd m.
Definition bm_contains_key k m : bool :=
  match bm_get k m with Some _ => true | None => false end.

Definition bm_sorted (m : list (K * V)) : Prop :=
  StronglySorted (fun a b => compare a.1 b.1 = Lt) m.

Lemma bm_get_insert_eq k v m : bm_get k (bm_insert k v m) = Some v.
Proof.
  induction m as [|[k' v'] m IH]; simpl; [by rewrite compare_refl|].
  destruct (compare k k') eqn:E; simpl; [by rewrite compare_refl..|].
  by rewrite E.
Qed.

Lemma bm_get_insert_ne k k' v m :
  k <> k' -> bm_get k (bm_insert k' v m) = bm_get k m.
Proof.
  intros Hne.
  assert (forall A (a b : A), (match compare k k' with Eq => a | _ => b end) = b) as Hk.
  { intros. destruct (compare k k') eqn:E; [|done|done].
    by apply compare_eq_iff in E. }
  induction m as [|[k2 v2] m IH]; simpl; [by rewrite Hk|].
  destruct (compare k' k2) eqn:E; simpl.
  - apply compare_eq_iff in E as ->. by rewrite !Hk.
  - by rewrite Hk.
  - by rewrite IH.
Qed.

Lemma bm_get_insert k k' v m :
  bm_get k (bm_insert k' v m) =
  match compare k k' with Eq => Some v | _ => bm_get k m end.
Proof.
  destruct (compare k k') eqn:E.
  - apply compare_eq_iff in E as ->. apply bm_get_insert_eq.
  - apply bm_get_insert_ne. intros ->. by rewrite compare_refl in E.
  - apply bm_get_insert_ne. intros ->. by rewrite compare_refl in E.
Qed.

Lemma bm_insert_keys k v m x :
  x ∈ map fst (bm_insert k v m) <-> x = k \/ x ∈ map fst m.
Proof.
  induction m as [|[k' v'] m IH]; simpl; [set_solver|].
  destruct (compare k k') eqn:E; simpl; [|set_solver|set_solver].
  apply compare_eq_iff in E as ->. set_solver.
Qed.

Lemma bm_get_None k m : bm_get k m = None <-> k ∉ map fst m.
Proof.
  induction m as [|[k' v'] m IH]; simpl; [set_solver|].
  rewrite not_elem_of_cons, <-IH, <-compare_eq_iff.
  destruct (compare k k'); naive_solver.
Qed.

Lemma bm_get_elem k v m : bm_get k m = Some v -> (k, v) ∈ m.
Proof.
  induction m as [|[k' v'] m IH]; simpl; [done|].
  destruct (compare k k') eqn:E; [|set_solver|set_solver].
  apply compare_eq_iff in E as ->. intros [= ->]. set_solver.
Qed.

Lemma bm_sorted_keys m : bm_sorted m <-> bs_sorted (map fst m).
Proof.
  induction m as [|[k v] m IH]; simpl; [split; constructor|].
  split; intros [Hm Hk]%StronglySorted_inv; (constructor; [by apply IH|]).
  - by rewrite Forall_map.
  - by rewrite Forall_map in Hk.
Qed.

Lemma bm_insert_sorted k v m : bm_sorted m -> bm_sorted (bm_insert k v m).
Proof.
  induction m as [|[k' v'] m IH]; simpl; intros Hm; [by repeat constructor|].
  apply StronglySorted_inv in Hm as Hm'. destruct Hm' as [Hm1 Hk].
  destruct (compare k k') eqn:E.
  - apply compare_eq_iff in E as ->. by constructor.
  - constructor; [done|]. constructor; [done|].
    eapply Forall_impl; [exact Hk|]. intros y. simpl. by apply compare_lt_trans.
  - constructor; [by apply IH|]. apply Forall_forall. intros [x y] Hin.
    assert (x ∈ map fst (bm_insert k v m)) as Hx.
    { apply list_elem_of_In, (in_map fst), list_elem_of_In in Hin. done. }
    apply bm_insert_keys in Hx as [->|Hx]; [by apply compare_gt_iff|].
    simpl. rewrite Forall_forall in Hk.
    apply list_elem_of_In, in_map_iff in Hx as ([x' y'] & <- & ?%list_elem_of_In).
    by apply (Hk (x', y')).
Qed.

Lemma bm_get_remove k k' m :
  bm_sorted m -> bm_get k (bm_remove k' m) = match compare k k' with Eq => None | _ => bm_get k m end.
Proof.
  induction 1 as [|[k2 v2] m Hm IH Hk]; simpl; [by destruct (compare k k')|].
  rewrite Forall_forall in Hk. destruct (compare k' k2) eqn:E; simpl.
  - apply compare_eq_iff in E as ->. destruct (compare k k2) eqn:E; [|done|done].
    apply compare_eq_iff in E as ->. apply bm_get_None. intros Hin.
    apply list_elem_of_In, in_map_iff in Hin as ([x y] & Hx & Hin%list_elem_of_In).
    simpl in Hx. subst x. by apply Hk, compare_lt_irrefl in Hin.
  - rewrite IH. destruct (compare k k') eqn:E1; [|done|done].
    apply compare_eq_iff in E1 as ->. by rewrite E.
  - rewrite IH. destruct (compare k k') eqn:E1; [|done|done].
    apply compare_eq_iff in E1 as ->. by rewrite E.
Qed.
Lemma elem_of_bm_remove k m x : x ∈ bm_remove k m -> x ∈ m.
Proof. induction m as [|[k' v'] m IH]; simpl; [done|]. destruct (compare k k'); set_solver. Qed.
Lemma bm_remove_sorted k m : bm_sorted m -> bm_sorted (bm_remove k m).
Proof.
  induction 1 as [|[k' v'] m Hm IH Hk]; simpl; [constructor|].
  destruct (compare k k'); [done|constructor; [done|]..];
    rewrite Forall_forall in *; intros x Hx; by apply Hk, (elem_of_bm_remove k).
Qed.

Lemma bm_get_elem_sorted k v m : bm_sorted m -> (k, v) ∈ m -> bm_get k m = Some v.
Proof.
  induction 1 as [|[k' v'] m Hm IH Hk]; simpl; [by intros ?%not_elem_of_nil|].
  intros [[= -> ->]|Hin]%elem_of_cons; [by rewrite compare_refl|].
  rewrite Forall_forall in Hk. pose proof (Hk _ Hin) as E. simpl in E.
  apply compare_gt_iff in E. by rewrite E, IH.
Qed.

Lemma bm_ext_keys m1 m2 :
  bm_sorted m1 -> map fst m1 = map fst m2 ->
  (forall k, bm_get k m1 = bm_get k m2) -> m1 = m2.
Proof.
  intros H1. revert m2. induction H1 as [|[k v] m1 H1 IH Hk]; intros [|[k' v'] m2];
    simpl; try done.
  intros [= <- Hkeys] Hext. assert (v = v') as <-.
  { specialize (Hext k). rewrite compare_refl in Hext. by injection Hext. }
  f_equal. apply IH; [done|]. intros x. specialize (Hext x).
  destruct (compare x k) eqn:E; [|done|done].
  apply compare_eq_iff in E as ->. transitivity (@None V); [|symmetry]; apply bm_get_None.
  - intros ([? ?] & Heq & Hin%list_elem_of_In)%list_elem_of_In%in_map_iff.
    rewrite Forall_forall in Hk. apply Hk in Hin. simpl in *. subst.
    by apply compare_lt_irrefl in Hin.
  - rewrite <-Hkeys.
    intros ([? ?] & Heq & Hin%list_elem_of_In)%list_elem_of_In%in_map_iff.
    rewrite Forall_forall in Hk. apply Hk in Hin. simpl in *. subst.
    by apply compare_lt_irrefl in Hin.
Qed.

(** Maps with the same lookups are equal: the sorted list is canonical. *)
Lemma bm_ext m1 m2 :
  bm_sorted m1 -> bm_sorted m2 -> (forall k, bm_get k m1 = bm_get k m2) -> m1 = m2.
Proof.
  intros H1 H2 Hext. apply bm_ext_keys; [done| |done].
  apply bs_ext; [by apply bm_sorted_keys..|]. intros x.
  rewrite <-!bs_contains_spec. pose proof (bm_get_None x m1) as E1.
  pose proof (bm_get_None x m2) as E2. rewrite Hext, E2, <-!bs_contains_spec in E1.
  destruct (bs_contains x (map fst m1)), (bs_contains x (map fst m2)); naive_solver.
Qed.
End btreemap.

(** ** [binary_search_by] and [partition_point]

    [f x] is the position of [x] relative to the wanted key. *)

Section binary_search.
Context {A : Type} (f : A -> comparison).

(** The loop halves [size]; [fuel] bounds the iterations and the length of
    the slice is always enough. *)
Fixpoint bsearch_loop (fuel : nat) (l : list A) (base size : nat) : nat :=
  match fuel with
  | O => base
  | S fuel =>
      if (size <=? 1)%nat then base
      else
        let half := (size / 2)%nat in
        let mid := (base + half)%nat in
        let base' := match f <$> l !! mid with Some Gt => base | _ => mid end in
        bsearch_loop fuel l base' (size - half)
  end.

Definition binary_search_by (l : list A) : result nat nat :=
  match l with
  | [] => Err 0%nat
  | _ =>
      let base := bsearch_loop (length l) l 0 (length l) in
      match f <$> l !! base with
      | Some Eq => Ok base
      | Some Lt => Err (S base)
      | _ => Err base
      end
  end.

(** The slice is ordered with respect to [f]: first [Lt], then [Eq], then [Gt]. *)
Definition f_monotone (l : list A) : Prop :=
  forall i j x y, (i <= j)%nat -> l !! i = Some x -> l !! j = Some y ->
    (f y = Lt -> f x = Lt) /\ (f x = Gt -> f y = Gt).

Lemma bsearch_loop_spec fuel l base size :
  (size <= S fuel)%nat -> (1 <= size)%nat -> (base + size <= length l)%nat ->
  f_monotone l ->
  (base = 0%nat \/ exists x, l !! base = Some x /\ f x <> Gt) ->
  (forall j y, (base + size <= j)%nat -> l !! j = Some y -> f y = Gt) ->
  forall b, b = bsearch_loop fuel l base size ->
  (b < length l)%nat /\
  (b = 0%nat \/ exists x, l !! b = Some x /\ f x <> Gt) /\
  (forall j y, (b < j)%nat -> l !! j = Some y -> f y = Gt).
Proof.
  revert base size.
  induction fuel as [|fuel IH]; intros base size Hf Hs Hb Hm H0 Hj b; cbn [bsearch_loop].
  { intros ->. split_and!; [lia|done|]. intros j y ?. apply Hj. lia. }
  destruct (Nat.leb_spec size 1) as [Hle|Hgt].
  { intros ->. split_and!; [lia|done|]. intros j y ?. apply Hj. lia. }
  assert (1 <= size / 2)%nat by (apply (Nat.div_le_lower_bound size 2 1); lia).
  assert (size / 2 < size)%nat by (apply Nat.div_lt; lia).
  pose proof (Nat.Div0.mul_div_le size 2).
  destruct (lookup_lt_is_Some_2 l (base + size / 2)) as [x Hx]; [lia|].
  cbv zeta. rewrite Hx. cbn [fmap option_fmap option_map]. destruct (f x) eqn:Ex.
  1,2: (apply IH; [lia|lia|lia|done| |];
        [right; exists x; split; [done|by rewrite Ex]
        |intros j y ?; apply Hj; lia]).
  apply IH; [lia|lia|lia|done|done|].
  intros j y Hlt Hy. destruct (Hm (base + size / 2)%nat j x y) as [_ Hgt2]; auto. lia.
Qed.

Lemma binary_search_Ok l i :
  binary_search_by l = Ok i -> exists x, l !! i = Some x /\ f x = Eq.
Proof.
  unfold binary_search_by. destruct l as [|a l']; [done|].
  set (l := a :: l'). set (b := bsearch_loop _ _ _ _).
  destruct (l !! b) as [x|] eqn:Hx; simpl; [|done].
  destruct (f x) eqn:Ex; [|done|done]. intros [= <-]. eauto.
Qed.

Lemma binary_search_Err l i :
  f_monotone l -> binary_search_by l = Err i ->
  (i <= length l)%nat /\
  (forall j y, (j < i)%nat -> l !! j = Some y -> f y = Lt) /\
  (forall j y, (i <= j)%nat -> l !! j = Some y -> f y = Gt).
Proof.
  intros Hm. unfold binary_search_by. destruct l as [|a l'].
  { intros [= <-]. simpl. split_and!; [lia|lia|done]. }
  set (l := a :: l') in *.
  set (b := bsearch_loop _ _ _ _).
  destruct (bsearch_loop_spec (length l) l 0 (length l)) with (b := b) as (Hb & H0 & Hj);
    [lia|unfold l; simpl; lia|lia|done|by left| |done|].
  { intros j y ? ?%lookup_lt_Some. lia. }
  clearbody b l.
  destruct (lookup_lt_is_Some_2 l b) as [x Hx]; [done|]. rewrite Hx. simpl.
  destruct (f x) eqn:Ex; [done| |]; intros [= <-].
  - split_and!; [lia| |intros j y ?; apply Hj; lia].
    intros j y Hlt Hy. destruct (Hm j b y x) as [H1 _]; auto. lia.
  - assert (b = 0%nat) as ->.
    { destruct H0 as [?|(z & Hz & Hne)]; [done|]. congruence. }
    split_and!; [lia|lia|]. intros j y Hle Hy.
    destruct (Hm 0%nat j x y) as [_ H2]; auto.
Qed.

Lemma binary_search_found l :
  f_monotone l -> (exists i, binary_search_by l = Ok i) <-> Exists (fun x => f x = Eq) l.
Proof.
  intros Hm. split.
  - intros [i (x & Hx & Ex)%binary_search_Ok]. apply Exists_exists. exists x.
    split; [by eapply list_elem_of_lookup_2|done].
  - intros (x & [j Hj]%list_elem_of_lookup & Ex)%Exists_exists.
    destruct (binary_search_by l) as [i|i] eqn:E; [eauto|exfalso].
    apply binary_search_Err in E as (_ & H1 & H2); [|done].
    destruct (decide (j < i)%nat) as [Hlt|Hge].
    + by rewrite (H1 _ _ Hlt Hj) in Ex.
    + rewrite (H2 j x) in Ex; [done|lia|done].
Qed.
End binary_search.

(** [partition_point(pred)] is [binary_search_by] on a predicate. *)
Definition partition_point {A} (pred : A -> bool) (l : list A) : nat :=
  match binary_search_by (fun x => if pred x then Lt else Gt) l with
  | Ok i | Err i => i
  end.

Lemma partition_point_spec {A} (pred : A -> bool) (l : list A) :
  (forall i j x y, (i <= j)%nat -> l !! i = Some x -> l !! j = Some y ->
     pred y = true -> pred x = true) ->
  (partition_point pred l <= length l)%nat /\
  (forall j y, (j < partition_point pred l)%nat -> l !! j = Some y -> pred y = true) /\
  (forall j y, (partition_point pred l <= j)%nat -> l !! j = Some y -> pred y = false).
Proof.
  intros Hm. unfold partition_point.
  destruct (binary_search_by _ l) as [i|i] eqn:E.
  - apply binary_search_Ok in E as (x & _ & Ex). by destruct (pred x).
  - apply binary_search_Err in E as (Hle & H1 & H2).
    + split_and!; [done|..]; intros j y Hj Hy;
        [specialize (H1 _ _ Hj Hy)|specialize (H2 _ _ Hj Hy)]; by destruct (pred y).
    + intros a b x y Hab Hx Hy. specialize (Hm a b x y Hab Hx Hy).
      destruct (pred x), (pred y); naive_solver.
Qed.

(** ** Slices and writes *)

Definition slice {A} (from to : nat) (l : list A) : list A := take (to - from) (drop from l).
Definition write_at {A} (at_ : nat) (new l : list A) : list A :=
  take at_ l ++ new ++ drop (at_ + length new) l.

Lemma slice_cons {A} from to (l : list A) x :
  (from < to)%nat -> l !! from = Some x -> slice from to l = x :: slice (S from) to l.
Proof.
  intros Hlt Hx. unfold slice. rewrite (drop_S _ _ _ Hx).
  by replace (to - from)%nat with (S (to - S from)) by lia.
Qed.
Lemma slice_empty {A} from to (l : list A) : (to <= from)%nat -> slice from to l = [].
Proof. intros Hle. unfold slice. by replace (to - from)%nat with 0%nat by lia. Qed.
Lemma write_at_cons {A} at_ x (new l : list A) :
  (at_ < length l)%nat -> write_at (S at_) new (<[at_ := x]> l) = write_at at_ (x :: new) l.
Proof.
  intros Hlt. unfold write_at. rewrite (take_S_r _ _ x) by by apply list_lookup_insert_eq.
  rewrite take_insert_ge by done. rewrite drop_insert_lt by (simpl; lia).
  rewrite <-app_assoc. simpl. by rewrite Nat.add_succ_r.
Qed.
Lemma write_at_nil {A} at_ (l : list A) : write_at at_ [] l = l.
Proof. unfold write_at. simpl. by rewrite Nat.add_0_r, take_drop. Qed.
Lemma write_at_app {A} at_ (new1 new2 l : list A) :
  (at_ + length new1 <= length l)%nat ->
  write_at (at_ + length new1) new2 (write_at at_ new1 l) = write_at at_ (new1 ++ new2) l.
Proof.
  intros Hle. unfold write_at at 1 3.
  assert (length (take at_ l ++ new1) = (at_ + length new1)%nat) as Hlen
    by (rewrite length_app, length_take; lia).
  assert (write_at at_ new1 l = (take at_ l ++ new1) ++ drop (at_ + length new1) l) as ->
    by (unfold write_at; by rewrite app_assoc).
  rewrite take_app_length' by done.
  rewrite drop_app_ge by (rewrite Hlen; lia). rewrite Hlen, drop_drop, <-!app_assoc, length_app.
  do 3 f_equal. f_equal. lia.
Qed.
Lemma length_write_at {A} at_ (new l : list A) :
  (at_ + length new <= length l)%nat -> length (write_at at_ new l) = length l.
Proof. intros Hle. unfold write_at. rewrite !length_app, length_take, length_drop. lia. Qed.
Lemma length_slice {A} from to (l : list A) :
  (to <= length l)%nat -> length (slice from to l) = (to - from)%nat.
Proof. intros Hle. unfold slice. rewrite length_take, length_drop. lia. Qed.

(** ** Sorting

    [sort_by] is stable, so its result is fixed by the comparator when that is
    a total preorder; [sort_unstable_by] returns some sorted permutation and is
    modelled by the same function.  No theorem uses more of an unstable sort
    than that it is a sorted permutation. *)

Class TotalPreorder {A} (cmp : A -> A -> comparison) : Prop := {
  cmp_refl : forall x, cmp x x = Eq;
  cmp_opp : forall x y, cmp y x = CompOpp (cmp x y);
  cmp_trans : forall x y z, cmp x y <> Gt -> cmp y z <> Gt -> cmp x z <> Gt
}.

#[export] Instance ordered_preorder K `{OrderedLaws K} : TotalPreorder (compare (K:=K)).
Proof.
  split; [apply compare_refl|apply compare_opp|]. intros x y z Hxy Hyz Hxz.
  destruct (compare x y) eqn:E1; [|destruct (compare y z) eqn:E2; try done|done].
  - apply compare_eq_iff in E1 as ->. done.
  - apply compare_eq_iff in E2 as ->. congruence.
  - pose proof (compare_lt_trans _ _ _ E1 E2). congruence.
Qed.

Fixpoint insert_by {A} (cmp : A -> A -> comparison) (x : A) (l : list A) : list A :=
  match l with
  | [] => [x]
  | y :: l' => match cmp y x with Lt => y :: insert_by cmp x l' | _ => x :: y :: l' end
  end.
Definition sort_by {A} (cmp : A -> A -> comparison) (l : list A) : list A :=
  foldr (insert_by cmp) [] l.

Definition sorted_by {A} (cmp : A -> A -> comparison) (l : list A) : Prop :=
  StronglySorted (fun x y => cmp x y <> Gt) l.

Section sorting.
Context {A : Type} (cmp : A -> A -> comparison).

Lemma insert_by_perm x l : insert_by cmp x l ≡ₚ x :: l.
Proof.
  induction l as [|y l IH]; simpl; [done|].
  destruct (cmp y x); [done| |done]. rewrite IH. apply Permutation_swap.
Qed.

Lemma sort_by_perm l : sort_by cmp l ≡ₚ l.
Proof. induction l as [|x l IH]; simpl; [done|]. by rewrite insert_by_perm, IH. Qed.

Lemma length_sort_by l : length (sort_by cmp l) = length l.
Proof. apply Permutation_length, sort_by_perm. Qed.

Context `{!TotalPreorder cmp}.

Lemma cmp_not_lt x y : cmp x y <> Lt -> cmp y x <> Gt.
Proof. rewrite (cmp_opp (cmp:=cmp) x y). by destruct (cmp x y). Qed.

Lemma cmp_lt_trans x y z : cmp x y = Lt -> cmp y z <> Gt -> cmp x z = Lt.
Proof.
  intros H1 H2. destruct (cmp x z) eqn:E; [exfalso|done|exfalso].
  - assert (cmp z x <> Gt) as Hzx by (rewrite (cmp_opp (cmp:=cmp) x z), E; done).
    pose proof (cmp_trans y z x H2 Hzx) as Hyx. rewrite (cmp_opp (cmp:=cmp) x y), H1 in Hyx. done.
  - assert (cmp x y <> Gt) as H1' by (by rewrite H1). by apply (cmp_trans x y z H1' H2).
Qed.

Lemma cmp_le_lt_trans x y z : cmp x y <> Gt -> cmp y z = Lt -> cmp x z = Lt.
Proof.
  intros H1 H2. destruct (cmp x z) eqn:E; [exfalso|done|exfalso].
  - assert (cmp z x <> Gt) as Hzx by (rewrite (cmp_opp (cmp:=cmp) x z), E; done).
    pose proof (cmp_trans z x y Hzx H1) as Hzy. rewrite (cmp_opp (cmp:=cmp) y z), H2 in Hzy. done.
  - assert (cmp y z <> Gt) as H2' by (by rewrite H2). by apply (cmp_trans x y z H1 H2').
Qed.

Lemma insert_by_sorted x l : sorted_by cmp l -> sorted_by cmp (insert_by cmp x l).
Proof.
  induction 1 as [|y l Hl IH Hy]; simpl; [by repeat constructor|].
  destruct (cmp y x) eqn:E.
  2: { constructor; [done|]. rewrite insert_by_perm. constructor; [by rewrite E|done]. }
  all: assert (cmp x y <> Gt) by (apply cmp_not_lt; by rewrite E);
    constructor; [by constructor|]; constructor; [done|];
    eapply Forall_impl; [exact Hy|]; intros z; by apply cmp_trans.
Qed.

Lemma sort_by_sorted l : sorted_by cmp (sort_by cmp l).
Proof. induction l as [|x l IH]; simpl; [constructor|by apply insert_by_sorted]. Qed.

(** Sorting a sorted list is the identity: the sort is stable. *)
Lemma sort_by_id l : sorted_by cmp l -> sort_by cmp l = l.
Proof.
  induction 1 as [|x l Hl IH Hx]; simpl; [done|]. rewrite IH.
  destruct l as [|y l]; simpl; [done|]. apply Forall_cons in Hx as [Hxy _].
  rewrite (cmp_opp (cmp:=cmp) x y). by destruct (cmp x y).
Qed.

(** A strictly sorted permutation is unique. *)
Lemma strictly_sorted_unique l1 l2 :
  StronglySorted (fun x y => cmp x y = Lt) l1 ->
  StronglySorted (fun x y => cmp x y = Lt) l2 -> l1 ≡ₚ l2 -> l1 = l2.
Proof.
  intros H1. revert l2. induction H1 as [|x l1 H1 IH Hx]; intros l2 H2 HP.
  { symmetry. by apply Permutation_nil. }
  destruct H2 as [|y l2 H2 Hy]; [by apply Permutation_nil_r in HP|].
  rewrite Forall_forall in Hx, Hy.
  assert (x = y) as <-.
  { assert (x ∈ y :: l2) as Hin1 by (rewrite <-HP; set_solver).
    assert (y ∈ x :: l1) as Hin2 by (rewrite HP; set_solver).
    apply elem_of_cons in Hin1 as [?|Hin1]; [done|].
    apply elem_of_cons in Hin2 as [?|Hin2]; [done|]. exfalso.
    pose proof (Hx _ Hin2) as E1. pose proof (Hy _ Hin1) as E2.
    rewrite (cmp_opp (cmp:=cmp) x y), E1 in E2. done. }
  f_equal. apply IH; [done|]. by apply Permutation_cons_inv in HP.
Qed.
End sorting.

Lemma sorted_by_lookup {A} (cmp : A -> A -> comparison) l i j x y :
  sorted_by cmp l -> (i < j)%nat -> l !! i = Some x -> l !! j = Some y -> cmp x y <> Gt.
Proof.
  intros Hs. revert i j. induction Hs as [|z l Hl IH Hz]; intros [|i] [|j] Hij; simpl;
    try done; try lia.
  - intros [= ->] Hj. rewrite Forall_forall in Hz. by apply Hz, list_elem_of_lookup_2 with j.
  - intros Hi Hj. apply (IH i j); [lia|done|done].
Qed.

Lemma sorted_by_app {A} (cmp : A -> A -> comparison) l k :
  sorted_by cmp (l ++ k) <->
  sorted_by cmp l /\ sorted_by cmp k /\ (forall x y, x ∈ l -> y ∈ k -> cmp x y <> Gt).
Proof.
  induction l as [|z l IH]; simpl.
  - split; [|by intros (_ & ? & _)]. intros H. split_and!; [constructor|done|set_solver].
  - split.
    + intros [(H1 & H2 & H3)%IH Hz]%StronglySorted_inv. apply Forall_app in Hz as [Hz1 Hz2].
      rewrite Forall_forall in Hz2. split_and!; [by constructor|done|].
      intros x y [->|?]%elem_of_cons ?; [by apply Hz2|by apply H3].
    + intros ([H1 Hz]%StronglySorted_inv & H2 & H3). constructor.
      * apply IH. split_and!; [done|done|]. intros. apply H3; [by right|done].
      * apply Forall_app. split; [done|]. apply Forall_forall. intros y ?.
        apply H3; [by left|done].
Qed.

(** Sorting positions by what they hold, and reading the result, sorts. *)
Lemma sort_by_map {A B} (cmp : B -> B -> comparison) (f : A -> B) l :
  map f (sort_by (fun x y => cmp (f x) (f y)) l) = sort_by cmp (map f l).
Proof.
  induction l as [|x l IH]; simpl; [done|]. rewrite <-IH. clear IH.
  induction (sort_by _ l) as [|y s IH]; simpl; [done|].
  destruct (cmp (f y) (f x)); simpl; [done| |done]. by rewrite IH.
Qed.
Lemma sort_by_ext {A} (c1 c2 : A -> A -> comparison) l :
  (forall x y, x ∈ l -> y ∈ l -> c1 x y = c2 x y) -> sort_by c1 l = sort_by c2 l.
Proof.
  induction l as [|x l IH]; intros Heq; simpl; [done|].
  rewrite IH by (intros; apply Heq; by right).
  assert (Forall (fun y => y ∈ x :: l) (sort_by c2 l)) as Hin.
  { apply Forall_forall. intros y Hy. rewrite sort_by_perm in Hy. by right. }
  clear IH. induction Hin as [|y s Hy Hin IHs]; simpl; [done|].
  rewrite (Heq y x Hy) by left. destruct (c2 y x); [done| |done]. by rewrite IHs.
Qed.

(** ** Merging *)

(** The stable merge: the left run wins ties. *)
Fixpoint merge_by {A} (cmp : A -> A -> comparison) (l1 : list A) : list A -> list A :=
  fix merge_right (l2 : list A) : list A :=
    match l1, l2 with
    | [], _ => l2
    | _, [] => l1
    | x :: l1', y :: l2' =>
        match cmp x y with Gt => y :: merge_right l2' | _ => x :: merge_by cmp l1' l2 end
    end.

Section merging.
Context {A : Type} (cmp : A -> A -> comparison).

Lemma merge_by_nil_l l : merge_by cmp [] l = l.
Proof. by destruct l. Qed.
Lemma merge_by_nil_r l : merge_by cmp l [] = l.
Proof. by destruct l. Qed.
Lemma merge_by_cons x l1 y l2 :
  merge_by cmp (x :: l1) (y :: l2) =
  match cmp x y with Gt => y :: merge_by cmp (x :: l1) l2 | _ => x :: merge_by cmp l1 (y :: l2) end.
Proof. done. Qed.

Lemma merge_by_perm l1 l2 : merge_by cmp l1 l2 ≡ₚ l1 ++ l2.
Proof.
  revert l2. induction l1 as [|x l1 IH1]; intros l2; [by rewrite merge_by_nil_l|].
  induction l2 as [|y l2 IH2]; [by rewrite merge_by_nil_r, app_nil_r|].
  rewrite merge_by_cons. destruct (cmp x y); [by rewrite IH1|by rewrite IH1|].
  rewrite IH2. apply Permutation_middle.
Qed.
Lemma length_merge_by l1 l2 : length (merge_by cmp l1 l2) = (length l1 + length l2)%nat.
Proof. by rewrite (Permutation_length (merge_by_perm _ _)), length_app. Qed.

Context `{!TotalPreorder cmp}.

Lemma insert_by_cons x y l :
  insert_by cmp x (y :: l) =
  match cmp y x with Lt => y :: insert_by cmp x l | _ => x :: y :: l end.
Proof. done. Qed.

Lemma merge_by_insert x l1 l2 :
  merge_by cmp (insert_by cmp x l1) l2 = insert_by cmp x (merge_by cmp l1 l2).
Proof.
  assert (forall a b, cmp a b = CompOpp (cmp b a)) as Hopp by (intros; apply cmp_opp).
  revert l2. induction l1 as [|a l1 IH1]; intros l2.
  { rewrite merge_by_nil_l. cbn [insert_by]. induction l2 as [|y l2 IH2]; [done|].
    rewrite merge_by_cons, merge_by_nil_l, insert_by_cons, (Hopp y x), IH2.
    by destruct (cmp x y). }
  induction l2 as [|y l2 IH2]; [by rewrite !merge_by_nil_r|].
  rewrite insert_by_cons, !merge_by_cons in *. destruct (cmp a x) eqn:Hax.
  2: { rewrite merge_by_cons. destruct (cmp a y) eqn:Hay; rewrite insert_by_cons.
    1,2: by rewrite Hax, IH1.
    assert (cmp y x = Lt) as ->; [|by rewrite IH2].
    apply (cmp_lt_trans cmp y a x); [by rewrite Hopp, Hay|by rewrite Hax]. }
  all: assert (cmp x a <> Gt) as Hxa by (by rewrite Hopp, Hax);
    rewrite merge_by_cons; destruct (cmp x y) eqn:Hxy; rewrite ?merge_by_cons.
  all: try (assert (cmp y x = Lt) as Hyx by (by rewrite Hopp, Hxy);
    rewrite (Hopp a y), (cmp_lt_trans cmp y x a Hyx Hxa); simpl CompOpp; cbn match;
    by rewrite insert_by_cons, Hyx, IH2).
  all: destruct (cmp a y); rewrite insert_by_cons, ?Hax; try done; by rewrite (Hopp y x), Hxy.
Qed.

(** Merging two sorted runs sorts their concatenation. *)
Lemma merge_by_sort l1 l2 : merge_by cmp (sort_by cmp l1) (sort_by cmp l2) = sort_by cmp (l1 ++ l2).
Proof.
  induction l1 as [|x l1 IH]; [apply merge_by_nil_l|]. simpl. by rewrite merge_by_insert, IH.
Qed.
End merging.
