(* ===== verification/LegacyText.v ===== *)
(** * LegacyText: UTF-16 text, path slices and leaf names

    [LegacyText] of [crates/darknamer-core/src/lib.rs], the path helpers at the
    end of that file, and [validate_windows_leaf_name] of
    [windows_leaf_name.rs].  A [u16] is a [Z]; slices are lists. *)

From S2P Require Import Prelude Collections.

(** ** UTF-16 text *)

Abbreviation LegacyText := (list Z).

Definition MAX_WINDOWS_LEAF_NAME_UTF16_UNITS : Z := 255.
Definition MAX_PROPOSED_NAME_UTF16_UNITS : Z := MAX_WINDOWS_LEAF_NAME_UTF16_UNITS.
Definition MAX_TOTAL_PROPOSED_NAME_UTF16_UNITS : Z := 2 * 1024 * 1024.
Definition MAX_DESTINATION_PARENT_UTF16_UNITS : Z := 32767.
Definition MAX_TOTAL_DESTINATION_PARENT_UTF16_UNITS : Z := 2 * 1024 * 1024.
Definition MAX_TOTAL_PLANNED_PATH_UTF16_UNITS : Z := 2 * 1024 * 1024.

Definition BACKSLASH : Z := 92.
Definition SLASH : Z := 47.
Definition COLON : Z := 58.
Definition DOT : Z := 46.
Definition SPACE : Z := 32.
Definition UNDERSCORE : Z := 95.
Definition CR : Z := 13.
Definition LF : Z := 10.
Definition DIGIT_0 : Z := 48.
Definition DIGIT_9 : Z := 57.

(** [From<&str>]: the units of an ASCII literal. *)
Definition text (s : string) : LegacyText :=
  map (fun a => Z.of_nat (nat_of_ascii a)) (list_ascii_of_string s).

Definition is_empty (t : LegacyText) : bool := bool_decide (t = []).
Definition truncate_units (t : LegacyText) (length : nat) : LegacyText := take length t.

(** ** Case folding: [lowercase_units] over [char::decode_utf16].  The Unicode
    table [char::to_lowercase] is an argument. *)

(** [char::encode_utf16]. *)
Definition encode_utf16 (c : Z) : list Z :=
  if c <? 65536 then [c]
  else [55296 + Z.shiftr (c - 65536) 10; 56320 + Z.land (c - 65536) 1023].

Definition is_surrogate (u : Z) : bool := (55296 <=? u) && (u <=? 57343).
Definition is_low_surrogate (u : Z) : bool := (56320 <=? u) && (u <=? 57343).
Definition combine_surrogates (high low : Z) : Z :=
  Z.lor (Z.shiftl (Z.land high 1023) 10) (Z.land low 1023) + 65536.

(** [String::from_utf16_lossy]: the scalars, an unpaired surrogate replaced. *)
Definition REPLACEMENT_CHARACTER : Z := 65533.
Fixpoint to_string_lossy (units : list Z) : list Z :=
  match units with
  | [] => []
  | u :: rest =>
      if negb (is_surrogate u) then u :: to_string_lossy rest
      else if is_low_surrogate u then REPLACEMENT_CHARACTER :: to_string_lossy rest
      else
        match rest with
        | v :: rest' =>
            if is_low_surrogate v then combine_surrogates u v :: to_string_lossy rest'
            else REPLACEMENT_CHARACTER :: to_string_lossy rest
        | [] => [REPLACEMENT_CHARACTER]
        end
  end.

Section case_folding.
Variable to_lowercase : Z -> list Z.

Definition lower_char (c : Z) : list Z := to_lowercase c ≫= encode_utf16.

(** An unpaired surrogate is copied; a pair is lowered as one scalar. *)
Fixpoint lowercase_units (units : list Z) : list Z :=
  match units with
  | [] => []
  | u :: rest =>
      if negb (is_surrogate u) then lower_char u ++ lowercase_units rest
      else if is_low_surrogate u then u :: lowercase_units rest
      else
        match rest with
        | v :: rest' =>
            if is_low_surrogate v
            then lower_char (combine_surrogates u v) ++ lowercase_units rest'
            else u :: lowercase_units rest
        | [] => [u]
        end
  end.

Definition case_insensitive_cmp (a b : LegacyText) : comparison :=
  compare (lowercase_units a) (lowercase_units b).

(** Texts equal up to case compare equal, so this is a preorder of texts. *)
#[export] Instance case_insensitive_preorder : TotalPreorder case_insensitive_cmp.
Proof.
  split; unfold case_insensitive_cmp; intros *;
    [apply compare_refl|apply compare_opp|apply (cmp_trans (cmp:=compare))].
Qed.
End case_folding.

(** ** Path slices *)

Definition is_path_separator (unit : Z) : bool :=
  (unit =? BACKSLASH) || (unit =? SLASH).

Definition last_is (p : Z -> bool) (l : list Z) : bool :=
  match last l with Some u => p u | None => false end.

(** Everything before the last backslash; a drive or path root keeps it. *)
Definition source_parent_units (path : LegacyText) : list Z :=
  match rposition (Z.eqb BACKSLASH) path with
  | None => []
  | Some index =>
      let preserves_root_separator :=
        (index =? 0)%nat || last_is (Z.eqb COLON) (take index path) in
      take (index + (if preserves_root_separator then 1 else 0)) path
  end.

Definition path_root (path : LegacyText) : LegacyText := source_parent_units path.

Definition path_name (path : LegacyText) : LegacyText :=
  match rposition (Z.eqb BACKSLASH) path with
  | None => path
  | Some index => drop (S index) path
  end.

(** 1 unless the parent already ends in a separator. *)
Definition destination_separator_units (parent : list Z) : Z :=
  match last parent with
  | None => 1
  | Some unit => if is_path_separator unit then 0 else 1
  end.

Definition checked_planned_path_units (parent : list Z) (proposed_name_units : Z) : option Z :=
  match checked_add (zlen parent) (destination_separator_units parent) with
  | None => None
  | Some units => checked_add units proposed_name_units
  end.

Definition normalized_destination_parent_len (parent : list Z) : nat * bool :=
  let trimmed_len :=
    match rposition (fun unit => negb (is_path_separator unit)) parent with
    | None => 0%nat
    | Some index => S index
    end in
  if (trimmed_len =? length parent)%nat then (trimmed_len, false)
  else
    let preserves_root_separator :=
      (trimmed_len =? 0)%nat || last_is (Z.eqb COLON) (take trimmed_len parent) in
    ((trimmed_len + (if preserves_root_separator then 1 else 0))%nat,
     preserves_root_separator).

(** The last component of a parent, when it has one. *)
Definition parent_folder_units (root_path : LegacyText) : option (list Z) :=
  let start :=
    match rposition (Z.eqb BACKSLASH) root_path with
    | None => 0%nat
    | Some index => S index
    end in
  if (0 <? start)%nat && (start <? length root_path)%nat
  then Some (drop start root_path) else None.

(** ** Text import and export *)

(** [char::from_u32(unit).is_some_and(char::is_whitespace)]: the Unicode
    [White_Space] scalars, all below [0x10000]. *)
Definition is_trim_unit (unit : Z) : bool :=
  ((9 <=? unit) && (unit <=? 13)) || (unit =? 32) || (unit =? 133) || (unit =? 160)
  || (unit =? 5760) || ((8192 <=? unit) && (unit <=? 8202)) || (unit =? 8232)
  || (unit =? 8233) || (unit =? 8239) || (unit =? 8287) || (unit =? 12288).

Definition trim_units (units : list Z) : option (list Z) :=
  let first :=
    match position (fun unit => negb (is_trim_unit unit)) units with
    | None => length units
    | Some index => index
    end in
  let last :=
    match rposition (fun unit => negb (is_trim_unit unit)) units with
    | None => first
    | Some index => S index
    end in
  if (first <? last)%nat then Some (take (last - first) (drop first units)) else None.

Definition trimmed_import_unit_slices (t : LegacyText) : list (list Z) :=
  omap trim_units (split_units (Z.eqb LF) t).

Definition parse_import_lines (t : LegacyText) : list LegacyText :=
  trimmed_import_unit_slices t.

Fixpoint export_lines (lines : list LegacyText) : LegacyText :=
  match lines with
  | [] => []
  | line :: lines' => line ++ [CR; LF] ++ export_lines lines'
  end.

(** ** Digit runs *)

Definition is_ascii_digit (unit : Z) : bool := (DIGIT_0 <=? unit) && (unit <=? DIGIT_9).

(** The last maximal run of digits, as its first and last position. *)
Definition last_digit_run (units : list Z) : option (nat * nat) :=
  match rposition is_ascii_digit units with
  | None => None
  | Some run_end =>
      let start :=
        match rposition (fun unit => negb (is_ascii_digit unit)) (take (S run_end) units) with
        | None => 0%nat
        | Some index => S index
        end in
      Some (start, run_end)
  end.

(** The first run; one that reaches the end of the slice is not reported. *)
Definition first_digit_run (units : list Z) : option (nat * nat) :=
  match position is_ascii_digit units with
  | None => None
  | Some start =>
      match position (fun unit => negb (is_ascii_digit unit)) (drop start units) with
      | None => None
      | Some relative_end => Some (start, (start + relative_end - 1)%nat)
      end
  end.

(** ** Windows leaf names ([windows_leaf_name.rs]) *)

Inductive WindowsLeafNameError : Type :=
| Empty | ContainsNul | ContainsSeparator | DotComponent | InvalidCharacter
| ReservedDeviceName | TrailingDotOrSpace | TooLong.
#[export] Instance WindowsLeafNameError_eq_dec : EqDecision WindowsLeafNameError.
Proof. solve_decision. Defined.

Definition ascii_upper (unit : Z) : Z :=
  if (97 <=? unit) && (unit <=? 122) then unit - 32 else unit.

Definition matches_ascii_ignore_case (units expected : list Z) : bool :=
  (length units =? length expected)%nat &&
  forallb (fun p => ascii_upper p.1 =? ascii_upper p.2) (zip units expected).

Definition is_numbered_device (stem prefix : list Z) : bool :=
  (length stem =? 4)%nat && matches_ascii_ignore_case (take 3 stem) prefix &&
  match stem !! 3%nat with
  | Some value =>
      ((49 <=? value) && (value <=? 57)) || (value =? 185) || (value =? 178) || (value =? 179)
  | None => false
  end.

Definition is_reserved_device_name (units : list Z) : bool :=
  let stem_end :=
    match position (Z.eqb DOT) units with None => length units | Some i => i end in
  let stem := take stem_end units in
  matches_ascii_ignore_case stem (text "CON")
  || matches_ascii_ignore_case stem (text "PRN")
  || matches_ascii_ignore_case stem (text "AUX")
  || matches_ascii_ignore_case stem (text "NUL")
  || matches_ascii_ignore_case stem (text "CLOCK$")
  || is_numbered_device stem (text "COM")
  || is_numbered_device stem (text "LPT").

(** The characters Win32 forbids besides separators. *)
Definition is_invalid_unit (unit : Z) : bool :=
  (unit <? 32) || (unit =? 60) || (unit =? 62) || (unit =? 58) || (unit =? 34)
  || (unit =? 124) || (unit =? 63) || (unit =? 42).

Definition validate_windows_leaf_name (name : LegacyText) : result WindowsLeafNameError unit :=
  if bool_decide (name = []) then Err Empty
  else if MAX_WINDOWS_LEAF_NAME_UTF16_UNITS <? zlen name then Err TooLong
  else if bool_decide (name = [DOT]) || bool_decide (name = [DOT; DOT]) then Err DotComponent
  else if existsb (Z.eqb 0) name then Err ContainsNul
  else if existsb is_path_separator name then Err ContainsSeparator
  else if existsb is_invalid_unit name then Err InvalidCharacter
  else if last_is (fun unit => (unit =? DOT) || (unit =? SPACE)) name
       then Err TrailingDotOrSpace
  else if is_reserved_device_name name then Err ReservedDeviceName
  else Ok tt.

(** ** Facts about trimming, import and export *)

Definition blank (l : list Z) : Prop := Forall (fun u => is_trim_unit u = true) l.
(** Text that trimming leaves alone. *)
Definition trimmed (t : list Z) : Prop :=
  t <> [] /\ (forall u, head t = Some u -> is_trim_unit u = false) /\
  (forall u, last t = Some u -> is_trim_unit u = false).

Lemma blank_position l post :
  blank l -> (forall u, head post = Some u -> is_trim_unit u = false) ->
  position (fun u => negb (is_trim_unit u)) (l ++ post) =
  match post with [] => None | _ => Some (length l) end.
Proof.
  intros Hl Hp. induction Hl as [|u l Hu Hl IH]; simpl.
  - destruct post as [|u post]; simpl; [done|]. by rewrite (Hp u).
  - rewrite Hu. simpl. rewrite IH. by destruct post.
Qed.

(** Trimming removes exactly the blank ends. *)
Lemma trim_units_around pre t post :
  blank pre -> blank post -> trimmed t -> trim_units (pre ++ t ++ post) = Some t.
Proof.
  intros Hpre Hpost (Hne & Hhead & Hlast). unfold trim_units.
  rewrite blank_position; [|done|intros u Hu; apply Hhead; by destruct t].
  destruct (t ++ post) as [|x tp] eqn:Etp; [by destruct t|]. rewrite <-Etp. clear Etp.
  destruct t as [|y t' _] using rev_ind; [done|].
  assert (is_trim_unit y = false) as Hy by (apply Hlast; by rewrite last_snoc).
  replace (pre ++ (t' ++ [y]) ++ post) with ((pre ++ t') ++ y :: post)
    by (by rewrite <-!app_assoc).
  rewrite rposition_split; [|by rewrite Hy|].
  2: { eapply Forall_impl; [exact Hpost|]. intros u Hu. simpl. by rewrite Hu. }
  rewrite length_app.
  replace (length pre <? S (length pre + length t'))%nat with true
    by (symmetry; apply Nat.ltb_lt; lia).
  rewrite <-app_assoc, drop_app_length.
  replace (S (length pre + length t') - length pre)%nat with (length (t' ++ [y]))
    by (rewrite length_app; simpl; lia).
  replace (t' ++ y :: post) with ((t' ++ [y]) ++ post) by (by rewrite <-app_assoc).
  by rewrite take_app_length.
Qed.

Lemma split_units_block {A} (p : A -> bool) block x rest :
  Forall (fun u => p u = false) block -> p x = true ->
  split_units p (block ++ x :: rest) = block :: split_units p rest.
Proof.
  intros Hb Hx. induction Hb as [|u block Hu Hb IH]; simpl; [by rewrite Hx|].
  by rewrite Hu, IH.
Qed.

(** Exported lines read back as the same lines when every line is trimmed text
    without a line feed. *)
Lemma parse_export_lines lines :
  Forall (fun t => trimmed t /\ LF ∉ t) lines -> parse_import_lines (export_lines lines) = lines.
Proof.
  unfold parse_import_lines, trimmed_import_unit_slices.
  induction 1 as [|t lines [Ht Hlf] Hlines IH]; [done|].
  cbn [export_lines].
  replace (t ++ [CR; LF] ++ export_lines lines) with ((t ++ [CR]) ++ LF :: export_lines lines)
    by (by rewrite <-app_assoc).
  rewrite split_units_block.
  - cbn [omap list_omap]. pose proof (trim_units_around [] t [CR]) as Htrim. simpl in Htrim.
    rewrite Htrim; [|constructor|by repeat constructor|done]. f_equal. exact IH.
  - apply Forall_app. split; [|by repeat constructor]. apply Forall_forall. intros u Hu.
    apply Z.eqb_neq. intros <-. done.
  - done.
Qed.

(** ** Facts about leaf names *)

Definition valid_unit (u : Z) : Prop :=
  u <> 0 /\ is_path_separator u = false /\ is_invalid_unit u = false.

Lemma existsb_false {A} (p : A -> bool) l : existsb p l = false <-> Forall (fun u => p u = false) l.
Proof.
  induction l as [|u l IH]; simpl; [done|]. rewrite orb_false_iff, Forall_cons, IH. done.
Qed.

Lemma validate_windows_leaf_name_Ok name :
  validate_windows_leaf_name name = Ok tt <->
  name <> [] /\ zlen name <= MAX_WINDOWS_LEAF_NAME_UTF16_UNITS /\
  name <> [DOT] /\ name <> [DOT; DOT] /\ Forall valid_unit name /\
  (forall u, last name = Some u -> u <> DOT /\ u <> SPACE) /\
  is_reserved_device_name name = false.
Proof.
  unfold validate_windows_leaf_name.
  case_bool_decide; [naive_solver|].
  destruct (Z.ltb_spec MAX_WINDOWS_LEAF_NAME_UTF16_UNITS (zlen name)); [naive_solver lia|].
  do 2 (case_bool_decide; simpl; [naive_solver|]).
  destruct (existsb (Z.eqb 0) name) eqn:E0.
  { split; [done|]. intros (_ & _ & _ & _ & Hv & _).
    apply existsb_exists in E0 as (u & Hu%list_elem_of_In & <-%Z.eqb_eq).
    rewrite Forall_forall in Hv. by destruct (Hv _ Hu). }
  destruct (existsb is_path_separator name) eqn:E1.
  { split; [done|]. intros (_ & _ & _ & _ & Hv & _).
    apply existsb_exists in E1 as (u & Hu%list_elem_of_In & Hs).
    rewrite Forall_forall in Hv. destruct (Hv _ Hu) as (_ & ? & _). congruence. }
  destruct (existsb is_invalid_unit name) eqn:E2.
  { split; [done|]. intros (_ & _ & _ & _ & Hv & _).
    apply existsb_exists in E2 as (u & Hu%list_elem_of_In & Hs).
    rewrite Forall_forall in Hv. destruct (Hv _ Hu) as (_ & _ & ?). congruence. }
  apply existsb_false in E0, E1, E2.
  assert (Forall valid_unit name) as Hvalid.
  { apply Forall_forall. intros u Hu. rewrite Forall_forall in E0, E1, E2.
    split_and!; [|by apply E1|by apply E2]. specialize (E0 _ Hu). by apply Z.eqb_neq in E0. }
  destruct (last_is _ name) eqn:E3; unfold last_is in E3.
  { split; [done|]. intros (_ & _ & _ & _ & _ & Hl & _).
    destruct (last name) as [u|]; [|done]. destruct (Hl u eq_refl).
    apply orb_true_iff in E3 as [?%Z.eqb_eq|?%Z.eqb_eq]; done. }
  assert (forall u, last name = Some u -> u <> DOT /\ u <> SPACE) as Hl.
  { intros u Hu. rewrite Hu in E3. apply orb_false_iff in E3 as [?%Z.eqb_neq ?%Z.eqb_neq]. done. }
  destruct (is_reserved_device_name name); naive_solver.
Qed.

(** An extension does not rescue a reserved stem, and reservation ignores case. *)
Lemma reserved_with_extension stem extension :
  DOT ∉ stem ->
  is_reserved_device_name (stem ++ DOT :: extension) = is_reserved_device_name stem.
Proof.
  intros Hd. unfold is_reserved_device_name.
  assert (Forall (fun u => (DOT =? u) = false) stem) as Hs.
  { apply Forall_forall. intros u Hu. apply Z.eqb_neq. by intros <-. }
  assert (position (Z.eqb DOT) (stem ++ DOT :: extension) = Some (length stem)) as ->.
  { clear Hd. induction Hs as [|u stem Hu Hs IH]; cbn [app position length]; [done|]. by rewrite Hu, IH. }
  assert (position (Z.eqb DOT) stem = None) as -> by (by apply position_None).
  by rewrite take_app_length, firstn_all.
Qed.

(** ** Facts about digit runs *)

Definition digits (l : list Z) : Prop := Forall (fun u => is_ascii_digit u = true) l.
Definition no_digits (l : list Z) : Prop := Forall (fun u => is_ascii_digit u = false) l.

Lemma last_digit_run_Some pre d run post :
  last_is is_ascii_digit pre = false -> digits (run ++ [d]) -> no_digits post ->
  last_digit_run (pre ++ (run ++ [d]) ++ post) =
  Some (length pre, (length pre + length run)%nat).
Proof.
  intros Hpre Hrun Hpost. unfold last_digit_run.
  apply Forall_app in Hrun as [Hrun Hd%Forall_inv].
  replace (pre ++ (run ++ [d]) ++ post) with ((pre ++ run) ++ d :: post) by (by rewrite <-!app_assoc).
  rewrite rposition_split by done. rewrite length_app. f_equal. f_equal.
  replace (take (S (length pre + length run)) ((pre ++ run) ++ d :: post))
    with (pre ++ run ++ [d]).
  2: { replace ((pre ++ run) ++ d :: post) with ((pre ++ run ++ [d]) ++ post)
         by (by rewrite <-!app_assoc).
       rewrite take_app_le, take_ge; rewrite ?length_app; simpl; rewrite ?length_app; simpl; try lia.
       done. }
  rewrite rposition_app_None.
  2: { apply Forall_app. split; [|by constructor; [rewrite Hd|constructor]].
       eapply Forall_impl; [exact Hrun|]. intros u Hu. simpl. by rewrite Hu. }
  destruct pre as [|u pre _] using rev_ind; [done|].
  unfold last_is in Hpre. rewrite last_snoc in Hpre.
  rewrite rposition_split by (by rewrite ?Hpre). rewrite length_app. simpl. lia.
Qed.

Lemma last_digit_run_None l : no_digits l -> last_digit_run l = None.
Proof. intros H. unfold last_digit_run. apply rposition_None in H. by rewrite H. Qed.

(** The first run is only seen when something follows it. *)
Lemma first_digit_run_at_end pre run :
  no_digits pre -> digits run -> first_digit_run (pre ++ run) = None.
Proof.
  intros Hpre Hrun. unfold first_digit_run. induction Hpre as [|u pre Hu Hpre IH]; simpl.
  - destruct (position is_ascii_digit run) as [i|]; [|done].
    replace (position _ (drop i run)) with (@None nat); [done|]. symmetry.
    apply position_None, Forall_drop. eapply Forall_impl; [exact Hrun|].
    intros u Hu. simpl. by rewrite Hu.
  - rewrite Hu. destruct (position is_ascii_digit (pre ++ run)) as [i|]; simpl; [|done].
    destruct (position _ (drop i (pre ++ run))); done.
Qed.
