(* ===== verification/ListItem.v ===== *)
(** * ListItem: one row of the list workbench

    [LegacyListItem] and [PlannedChangeKind] of
    [crates/darknamer-core/src/lib.rs], with the slices a proposal is built
    from ([stem_extension_units]) and the planned-path comparison. *)

From S2P Require Import Prelude Collections LegacyText.

(** ** Data *)

Record LegacyListItem : Type := mkItem {
  source_path : LegacyText;
  current_name : LegacyText;
  proposed_name : LegacyText;
  destination_parent : LegacyText;
  is_directory : bool;
  size : Z;
  actual_size : Z;
  created : Z;
  modified : Z
}.

#[export] Instance LegacyListItem_eq_dec : EqDecision LegacyListItem.
Proof. solve_decision. Defined.

Definition set_proposed_name (name : LegacyText) (i : LegacyListItem) : LegacyListItem :=
  mkItem (source_path i) (current_name i) name (destination_parent i) (is_directory i)
    (size i) (actual_size i) (created i) (modified i).
Definition set_destination_parent (parent : LegacyText) (i : LegacyListItem) : LegacyListItem :=
  mkItem (source_path i) (current_name i) (proposed_name i) parent (is_directory i)
    (size i) (actual_size i) (created i) (modified i).

Definition new_with_actual_size (path : LegacyText) (dir : bool)
    (size actual_size created modified : Z) : LegacyListItem :=
  let current := path_name path in
  mkItem path current current (path_root path) dir size actual_size created modified.

Definition new_item (path : LegacyText) (dir : bool) (size created modified : Z)
  : LegacyListItem :=
  new_with_actual_size path dir size size created modified.

(** ** Planned paths *)

(** The parent, a backslash unless it ends in a separator, and the name. *)
Definition join_path (parent name : list Z) : LegacyText :=
  parent ++ (if destination_separator_units parent =? 0 then [] else [BACKSLASH]) ++ name.

Definition planned_path (i : LegacyListItem) : LegacyText :=
  join_path (destination_parent i) (proposed_name i).

(** Compares without building the path; an impossible length is a mismatch. *)
Definition planned_path_matches_source (i : LegacyListItem) : bool :=
  let parent := destination_parent i in
  let proposed := proposed_name i in
  match checked_planned_path_units parent (zlen proposed) with
  | None => false
  | Some expected_len =>
      let source := source_path i in
      if negb (zlen source =? expected_len) || negb (starts_with source parent) then false
      else
        let separator_units := destination_separator_units parent in
        ((separator_units =? 0) ||
           bool_decide (source !! length parent = Some BACKSLASH)) &&
        bool_decide (drop (length parent + Z.to_nat separator_units) source = proposed)
  end.

Inductive PlannedChangeKind : Type := NoChange | Rename | Move | MoveAndRename.
#[export] Instance PlannedChangeKind_eq_dec : EqDecision PlannedChangeKind.
Proof. solve_decision. Defined.

Definition is_changed (k : PlannedChangeKind) : bool :=
  match k with NoChange => false | _ => true end.
Definition renames (k : PlannedChangeKind) : bool :=
  match k with Rename | MoveAndRename => true | _ => false end.
Definition moves (k : PlannedChangeKind) : bool :=
  match k with Move | MoveAndRename => true | _ => false end.

Definition planned_change_kind (i : LegacyListItem) : PlannedChangeKind :=
  if planned_path_matches_source i then NoChange
  else
    let renamed := bool_decide (current_name i <> proposed_name i) in
    let moved := bool_decide (source_parent_units (source_path i) <> destination_parent i) in
    match moved, renamed with
    | false, false | true, false => Move
    | false, true => Rename
    | true, true => MoveAndRename
    end.

(** ** Stem and extension of the proposed name *)

Definition stem_extension_units (i : LegacyListItem) : list Z * list Z :=
  let proposed := proposed_name i in
  let name_start :=
    match rposition (Z.eqb BACKSLASH) proposed with None => 0%nat | Some k => S k end in
  if is_directory i then (drop name_start proposed, [])
  else
    match rposition (Z.eqb DOT) proposed with
    | None => (drop name_start proposed, [])
    | Some index =>
        (take (index `max` name_start - name_start) (drop name_start proposed),
         drop index proposed)
    end.

(** ** Facts about planned paths *)

Lemma destination_separator_units_cases parent :
  (destination_separator_units parent = 0 /\ last_is is_path_separator parent = true) \/
  (destination_separator_units parent = 1 /\ last_is is_path_separator parent = false).
Proof.
  unfold destination_separator_units, last_is.
  destruct (last parent); [|by right]. destruct (is_path_separator _); [by left|by right].
Qed.

Lemma separator_units_last parent :
  destination_separator_units parent = if last_is is_path_separator parent then 0 else 1.
Proof. by destruct (destination_separator_units_cases parent) as [[-> ->]|[-> ->]]. Qed.

Lemma zlen_join_path parent name :
  zlen (join_path parent name) =
  zlen parent + destination_separator_units parent + zlen name.
Proof.
  unfold join_path. rewrite !zlen_app.
  destruct (destination_separator_units_cases parent) as [[-> _]|[-> _]]; simpl;
    rewrite ?zlen_cons, ?zlen_nil; lia.
Qed.

Lemma destination_separator_units_bound parent :
  0 <= destination_separator_units parent <= 1.
Proof. destruct (destination_separator_units_cases parent); lia. Qed.

(** [checked_planned_path_units] is the length of the joined path whenever
    that length is representable. *)
Lemma checked_planned_path_units_Some parent n units :
  0 <= n -> checked_planned_path_units parent n = Some units ->
  units = zlen parent + destination_separator_units parent + n /\ units <= usize_max.
Proof.
  intros Hn. unfold checked_planned_path_units. case_match eqn:E; [|done].
  apply checked_add_Some in E as [-> ?]. intros [-> ?]%checked_add_Some. lia.
Qed.

Lemma checked_planned_path_units_ok parent n :
  0 <= n -> zlen parent + destination_separator_units parent + n <= usize_max ->
  checked_planned_path_units parent n =
  Some (zlen parent + destination_separator_units parent + n).
Proof.
  intros Hn Hle. unfold checked_planned_path_units.
  pose proof (destination_separator_units_bound parent). pose proof (zlen_nonneg parent).
  rewrite checked_add_ok by lia. by apply checked_add_ok.
Qed.

Lemma starts_with_app parent rest : starts_with (parent ++ rest) parent = true.
Proof. apply starts_with_spec. by rewrite drop_app_length. Qed.

(** C-planned-match: see the manifest. *)
Theorem planned_path_matches_source_iff i :
  zlen (planned_path i) <= usize_max ->
  planned_path_matches_source i = true <-> planned_path i = source_path i.
Proof.
  unfold planned_path, planned_path_matches_source. rewrite zlen_join_path. intros Hle.
  set (parent := destination_parent i) in *. set (name := proposed_name i) in *.
  rewrite checked_planned_path_units_ok by (done || apply zlen_nonneg).
  unfold join_path. split.
  - destruct (zlen (source_path i) =? _) eqn:El; simpl; [|done].
    destruct (starts_with _ _) eqn:Es; simpl; [|done].
    apply starts_with_spec in Es. set (rest := drop (length parent) (source_path i)) in *.
    rewrite andb_true_iff, orb_true_iff, !bool_decide_eq_true.
    destruct (destination_separator_units_cases parent) as [[Hs _]|[Hs _]]; rewrite Hs; simpl.
    + intros [_ Hd]. rewrite Nat.add_0_r in Hd. fold rest in Hd. by rewrite Es, Hd.
    + intros [[?|Hb] Hd]; [done|]. rewrite Es, lookup_app_r, Nat.sub_diag in Hb by done.
      rewrite <-drop_drop in Hd. fold rest in Hd. rewrite Es, <-Hd.
      f_equal. clear - Hb. destruct rest as [|b rest']; [done|].
      simpl in Hb. by injection Hb as ->.
  - intros <-. rewrite !zlen_app, starts_with_app.
    destruct (destination_separator_units_cases parent) as [[Hs _]|[Hs _]]; rewrite Hs; simpl.
    + rewrite zlen_nil. replace (_ =? _) with true by (symmetry; apply Z.eqb_eq; lia). simpl.
      rewrite Nat.add_0_r, drop_app_length. by apply bool_decide_eq_true.
    + rewrite zlen_cons, zlen_nil.
      replace (_ =? _) with true by (symmetry; apply Z.eqb_eq; lia). simpl.
      rewrite lookup_app_r, Nat.sub_diag by done.
      rewrite <-drop_drop, drop_app_length. simpl.
      by apply bool_decide_eq_true.
Qed.

(** [planned_change_kind] agrees with its parts: unchanged exactly when the
    planned path is the source path, otherwise a rename when only the name
    changed. *)
Theorem planned_change_kind_spec i :
  zlen (planned_path i) <= usize_max ->
  (is_changed (planned_change_kind i) = false <-> planned_path i = source_path i) /\
  (planned_path i <> source_path i ->
    (renames (planned_change_kind i) = true <-> current_name i <> proposed_name i) /\
    (planned_change_kind i = Rename <->
       current_name i <> proposed_name i /\
       source_parent_units (source_path i) = destination_parent i)).
Proof.
  intros Hle. pose proof (planned_path_matches_source_iff i Hle) as Hm.
  unfold planned_change_kind. destruct (planned_path_matches_source i).
  - assert (planned_path i = source_path i) as Heq by tauto. split; [simpl; tauto|]. tauto.
  - assert (planned_path i <> source_path i) by naive_solver.
    repeat case_bool_decide; simpl; naive_solver.
Qed.

(** A path rebuilds from its parent and name when its last backslash is not
    preceded by another separator (a kept drive or path root aside). *)
Definition clean_path (path : LegacyText) : bool :=
  match rposition (Z.eqb BACKSLASH) path with
  | None => false
  | Some index =>
      (index =? 0)%nat || last_is (Z.eqb COLON) (take index path)
      || negb (last_is is_path_separator (take index path))
  end.

Lemma clean_path_join path :
  clean_path path = true <-> join_path (source_parent_units path) (path_name path) = path.
Proof.
  unfold clean_path, source_parent_units, path_name, join_path.
  destruct (rposition (Z.eqb BACKSLASH) path) as [i|] eqn:Hi; simpl.
  2: { split; [done|]. intros [=]%(f_equal length). simpl in *. lia. }
  apply rposition_Some in Hi as (x & Hsplit & <-%Z.eqb_eq & Hlt & _).
  destruct ((i =? 0)%nat || last_is (Z.eqb COLON) (take i path)) eqn:Hp; simpl.
  - split; [intros _|done].
    assert (take (i + 1) path = take i path ++ [BACKSLASH]) as Ht.
    { rewrite Nat.add_1_r. apply take_S_r. rewrite Hsplit. apply list_lookup_middle.
      by rewrite length_take_le by lia. }
    assert (destination_separator_units (take (i + 1) path) = 0) as ->.
    { unfold destination_separator_units. by rewrite Ht, last_snoc. }
    simpl. rewrite Ht, <-app_assoc. simpl. congruence.
  - rewrite Nat.add_0_r, negb_true_iff.
    destruct (destination_separator_units_cases (take i path)) as [[-> Hl]|[-> Hl]];
      rewrite Hl; simpl; (split; [try done|]).
    + intros Hj%(f_equal length). rewrite length_app, length_take, length_drop in Hj. lia.
    + intros _. congruence.
Qed.

(** A freshly admitted row plans no change exactly when its path is clean. *)
Theorem new_item_unchanged path dir sz asz cr md :
  zlen path < usize_max ->
  planned_change_kind (new_with_actual_size path dir sz asz cr md) = NoChange <->
  clean_path path = true.
Proof.
  intros Hlen. set (i := new_with_actual_size path dir sz asz cr md).
  assert (zlen (planned_path i) <= usize_max) as Hle.
  { unfold planned_path, i, new_with_actual_size; simpl. rewrite zlen_join_path.
    pose proof (destination_separator_units_bound (path_root path)).
    unfold path_root, path_name, source_parent_units, zlen in *.
    destruct (rposition _ path) as [k|] eqn:Hk; simpl; [|lia].
    apply rposition_lt in Hk. rewrite length_take, length_drop.
    destruct (_ || _); lia. }
  destruct (planned_change_kind_spec i Hle) as [Hc _].
  assert (planned_change_kind i = NoChange <-> is_changed (planned_change_kind i) = false) as ->.
  { by destruct (planned_change_kind i). }
  rewrite Hc. symmetry. apply clean_path_join.
Qed.

(** ** Facts about stems *)

Lemma stem_extension_length i :
  zlen (stem_extension_units i).1 + zlen (stem_extension_units i).2 <= zlen (proposed_name i).
Proof.
  unfold stem_extension_units, zlen. set (p := proposed_name i).
  destruct (is_directory i); simpl; [rewrite length_drop; lia|].
  destruct (rposition (Z.eqb DOT) p) as [d|] eqn:Hd; simpl; [|rewrite length_drop; lia].
  apply rposition_lt in Hd. rewrite length_take, !length_drop.
  destruct (rposition (Z.eqb BACKSLASH) p) as [b|] eqn:Hb; simpl; lia.
Qed.

(** For a file whose proposed name has no backslash, the stem and the
    extension rebuild the name, and the extension is the part from the last
    dot. *)
Theorem stem_extension_split i :
  BACKSLASH ∉ proposed_name i ->
  let '(stem, extension) := stem_extension_units i in
  stem ++ extension = proposed_name i /\
  (is_directory i = true -> extension = []) /\
  (is_directory i = false ->
     match extension with
     | [] => DOT ∉ proposed_name i
     | u :: tail => u = DOT /\ DOT ∉ tail
     end).
Proof.
  intros Hb. unfold stem_extension_units. set (p := proposed_name i) in *.
  assert (rposition (Z.eqb BACKSLASH) p = None) as ->.
  { apply rposition_None, Forall_forall. intros u Hu.
    apply Z.eqb_neq. intros <-. done. }
  destruct (is_directory i); simpl; rewrite drop_0; [by rewrite app_nil_r|].
  assert (forall l, Forall (fun u => (DOT =? u) = false) l -> DOT ∉ l) as Hno.
  { intros l Hl Hin. rewrite Forall_forall in Hl. by specialize (Hl _ Hin). }
  destruct (rposition (Z.eqb DOT) p) as [d|] eqn:Hd.
  - apply rposition_Some in Hd as (u & Hsplit & <-%Z.eqb_eq & Hlt & Hpost).
    rewrite Nat.max_0_r, Nat.sub_0_r, take_drop. split_and!; [done|done|intros _].
    assert (drop d p = DOT :: drop (S d) p) as ->.
    { rewrite Hsplit at 1. rewrite drop_app_ge by (rewrite length_take; lia).
      by replace (d - length (take d p))%nat with 0%nat by (rewrite length_take; lia). }
    split; [done|]. by apply Hno.
  - apply rposition_None in Hd. rewrite app_nil_r. split_and!; [done|done|].
    intros _. by apply Hno.
Qed.
