(* ===== verification/WorkList.v ===== *)
(** * WorkList: the list workbench and its staged mutations

    [LegacyList] of [crates/darknamer-core/src/lib.rs]: its state, the staging
    loops every proposal command goes through ([try_changed_proposals_optional],
    [changed_proposals]), row removal, manual edits, completed moves and the
    destination-parent commands.  The commands run over a list and a heap: the
    heap answers each [try_reserve] and supplies fresh [Arc] identities. *)

From S2P Require Import Prelude Collections LegacyText ListItem.

(** ** Errors *)

Inductive LegacyInputError : Type :=
| NonPositiveWidth | ReversedPositionRange | EmptyDelimiter.

Inductive ProposalMutationError : Type :=
| InvalidInput (error : LegacyInputError)
| NameBudgetExceeded (row : nat) (requested_units maximum_units : Z)
| AggregateBudgetExceeded (requested_units maximum_units : Z)
| PlannedPathAggregateBudgetExceeded (requested_units maximum_units : Z)
| ArithmeticOverflow
| AllocationFailed.

Inductive DestinationParentMutationError : Type :=
| ParentBudgetExceeded (requested_units maximum_units : Z)
| ParentAggregateBudgetExceeded (requested_units maximum_units : Z)
| ParentPlannedPathAggregateBudgetExceeded (requested_units maximum_units : Z)
| ParentArithmeticOverflow
| ParentAllocationFailed.

#[export] Instance LegacyInputError_eq_dec : EqDecision LegacyInputError.
Proof. solve_decision. Defined.
#[export] Instance ProposalMutationError_eq_dec : EqDecision ProposalMutationError.
Proof. solve_decision. Defined.
#[export] Instance DestinationParentMutationError_eq_dec :
  EqDecision DestinationParentMutationError.
Proof. solve_decision. Defined.

(** ** State *)

Record LegacyList : Type := mkList {
  items : list LegacyListItem;
  proposed_name_utf16_units : Z;
  planned_path_utf16_units : Z;
  identity : nat;
  source_revision : Z
}.

(** The allocator: the answers it will give to coming reservations (it grants
    what is not listed) and the next [Arc] allocation. *)
Record heap : Type := mkHeap { reservations : list bool; next_arc : nat }.

Definition try_reserve {E} (failure : E) : SE heap E unit := fun h =>
  match reservations h with
  | [] => (Ok tt, h)
  | granted :: rest =>
      (if granted then Ok tt else Err failure, mkHeap rest (next_arc h))
  end.

Definition arc_new {E} : SE heap E nat := fun h =>
  (Ok (next_arc h), mkHeap (reservations h) (S (next_arc h))).

(** A command of the list: its state is the list and the heap. *)
Definition Cmd (E A : Type) : Type := SE (LegacyList * heap) E A.

Definition get_list {E} : Cmd E LegacyList := fun s => (Ok s.1, s).
Definition put_list {E} (l : LegacyList) : Cmd E unit := fun s => (Ok tt, (l, s.2)).
Definition on_heap {E A} (m : SE heap E A) : Cmd E A := fun s =>
  let '(r, h) := m s.2 in (r, (s.1, h)).

Definition set_items (its : list LegacyListItem) (l : LegacyList) : LegacyList :=
  mkList its (proposed_name_utf16_units l) (planned_path_utf16_units l)
    (identity l) (source_revision l).
Definition set_units (proposed planned : Z) (l : LegacyList) : LegacyList :=
  mkList (items l) proposed planned (identity l) (source_revision l).

(** [LegacyList::new] and [Clone]: a fresh identity at revision 0. *)
Definition new_list : SE heap ProposalMutationError LegacyList :=
  id ← arc_new; mret (mkList [] 0 0 id 0).
Definition clone_list (l : LegacyList) : SE heap ProposalMutationError LegacyList :=
  id ← arc_new;
  mret (mkList (items l) (proposed_name_utf16_units l) (planned_path_utf16_units l) id 0).

Definition invalidate_source_index {E} : Cmd E unit :=
  l ← get_list;
  match (if source_revision l + 1 <=? u64_max then Some (source_revision l + 1) else None) with
  | Some next =>
      put_list (mkList (items l) (proposed_name_utf16_units l)
                  (planned_path_utf16_units l) (identity l) next)
  | None =>
      id ← on_heap arc_new;
      put_list (mkList (items l) (proposed_name_utf16_units l)
                  (planned_path_utf16_units l) id 0)
  end.

Definition clear {E} : Cmd E bool :=
  l ← get_list;
  let changed := negb (bool_decide (items l = [])) in
  put_list (mkList [] 0 0 (identity l) (source_revision l));;
  (if changed then invalidate_source_index else mret tt);;
  mret changed.

(** ** Size checks *)

Definition validate_proposal_units (row : nat) (requested_units : Z)
  : result ProposalMutationError unit :=
  if MAX_PROPOSED_NAME_UTF16_UNITS <? requested_units
  then Err (NameBudgetExceeded row requested_units MAX_PROPOSED_NAME_UTF16_UNITS)
  else Ok tt.

Definition validate_destination_parent_units (requested_units : Z)
  : result DestinationParentMutationError unit :=
  if MAX_DESTINATION_PARENT_UTF16_UNITS <? requested_units
  then Err (ParentBudgetExceeded requested_units MAX_DESTINATION_PARENT_UTF16_UNITS)
  else Ok tt.

Fixpoint checked_sum_from (total : Z) (parts : list Z) : result ProposalMutationError Z :=
  match parts with
  | [] => Ok total
  | part :: parts' =>
      total' ← ok_or ArithmeticOverflow (checked_add total part);
      checked_sum_from total' parts'
  end.
Definition checked_sum (parts : list Z) : result ProposalMutationError Z :=
  checked_sum_from 0 parts.

(** Validates the announced size, reserves it, then fills the buffer. *)
Definition try_build_proposal (row : nat) (requested_units : Z) (fill : LegacyText)
  : SE heap ProposalMutationError LegacyText :=
  SE_lift (validate_proposal_units row requested_units);;
  try_reserve AllocationFailed;;
  mret fill.

Definition try_clone_text (t : LegacyText) : SE heap ProposalMutationError LegacyText :=
  try_reserve AllocationFailed;; mret t.

Definition try_clone_destination_parent_units (units : list Z)
  : SE heap DestinationParentMutationError LegacyText :=
  try_reserve ParentAllocationFailed;; mret units.
Definition try_clone_destination_parent (t : LegacyText)
  : SE heap DestinationParentMutationError LegacyText :=
  try_clone_destination_parent_units t.

(** ** Staged proposal changes *)

Record StagedProposal : Type := mkStaged { staged_row : nat; staged_value : LegacyText }.

Section staging.
(** [C] is what the proposal closure captures and updates ([FnMut]); the
    closure is given the rows, the row index and the row at that index. *)
Context {C : Type}.
Variable proposal : list LegacyListItem -> nat -> LegacyListItem -> C ->
  SE heap ProposalMutationError (option LegacyText * C).

Fixpoint stage_proposals (rows rest : list LegacyListItem) (row : nat) (c : C)
    (total_units total_planned_path_units : Z)
  : SE heap ProposalMutationError (list StagedProposal * Z * Z) :=
  match rest with
  | [] => mret ([], total_units, total_planned_path_units)
  | item :: rest' =>
      '(next, c') ← proposal rows row item c;
      let next_len :=
        match next with Some t => zlen t | None => zlen (proposed_name item) end in
      SE_lift (validate_proposal_units row next_len);;
      total_units' ← SE_lift (ok_or ArithmeticOverflow (checked_add total_units next_len));
      if MAX_TOTAL_PROPOSED_NAME_UTF16_UNITS <? total_units'
      then SE_throw (AggregateBudgetExceeded total_units' MAX_TOTAL_PROPOSED_NAME_UTF16_UNITS)
      else
        row_units ← SE_lift (ok_or ArithmeticOverflow
          (checked_planned_path_units (destination_parent item) next_len));
        total_planned' ← SE_lift (ok_or ArithmeticOverflow
          (checked_add total_planned_path_units row_units));
        staged_here ←
          match next with
          | Some t =>
              if bool_decide (proposed_name item = t) then mret []
              else try_reserve AllocationFailed;; mret [mkStaged row t]
          | None => mret []
          end;
        '(staged, units, planned) ←
          stage_proposals rows rest' (S row) c' total_units' total_planned';
        mret (staged_here ++ staged, units, planned)
  end.

(** [items[update.row].proposed_name = update.value], in staging order. *)
Definition commit_staged (staged : list StagedProposal) (rows : list LegacyListItem)
  : list LegacyListItem :=
  fold_left (fun rows u => alter (set_proposed_name (staged_value u)) (staged_row u) rows)
    staged rows.

Definition try_changed_proposals_optional (c : C) : Cmd ProposalMutationError (list nat) :=
  l ← get_list;
  '(staged, total_units, total_planned_path_units) ←
    on_heap (stage_proposals (items l) (items l) 0 c 0 0);
  if MAX_TOTAL_PLANNED_PATH_UTF16_UNITS <? total_planned_path_units
  then SE_throw (PlannedPathAggregateBudgetExceeded total_planned_path_units
                   MAX_TOTAL_PLANNED_PATH_UTF16_UNITS)
  else
    on_heap (try_reserve AllocationFailed);;
    put_list (set_units total_units total_planned_path_units
                (set_items (commit_staged staged (items l)) l));;
    mret (map staged_row staged).
End staging.

(** [try_changed_proposals]: every row gets a proposal. *)
Definition try_changed_proposals {C}
    (proposal : list LegacyListItem -> nat -> LegacyListItem -> C ->
       SE heap ProposalMutationError (LegacyText * C)) (c : C)
  : Cmd ProposalMutationError (list nat) :=
  try_changed_proposals_optional
    (fun rows row item c => '(t, c') ← proposal rows row item c; mret (Some t, c')) c.

(** A proposal closure without captured state. *)
Definition stateless (proposal : nat -> LegacyListItem -> SE heap ProposalMutationError LegacyText)
  : list LegacyListItem -> nat -> LegacyListItem -> unit ->
    SE heap ProposalMutationError (LegacyText * unit) :=
  fun _ row item _ => t ← proposal row item; mret (t, tt).

(** ** Infallible transforms: [changed_proposals] *)

Fixpoint change_rows (proposal : LegacyListItem -> LegacyText) (index : nat) (total_units : Z)
    (rows : list LegacyListItem) : list LegacyListItem * list nat * Z :=
  match rows with
  | [] => ([], [], total_units)
  | item :: rows' =>
      let next := proposal item in
      let differs := negb (bool_decide (proposed_name item = next)) in
      let item' := if differs then set_proposed_name next item else item in
      let '(rows'', changed, total) :=
        change_rows proposal (S index) (usize_add total_units (zlen next)) rows' in
      (item' :: rows'', (if differs then [index] else []) ++ changed, total)
  end.

Definition changed_proposals {E} (proposal : LegacyListItem -> LegacyText) : Cmd E (list nat) :=
  l ← get_list;
  let '(rows, changed, total_units) := change_rows proposal 0 0 (items l) in
  let removed_units := saturating_sub (proposed_name_utf16_units l) total_units in
  put_list (set_units total_units (usize_sub (planned_path_utf16_units l) removed_units)
              (set_items rows l));;
  mret changed.

(** ** Row selection and removal *)

(** In-range indices, once each, in increasing order. *)
Definition normalized_indices (indices : list nat) (length : nat) : list nat :=
  bs_extend (List.filter (fun index => (index <? length)%nat) indices) [].

(** The [retain] loop of [remove_rows]: [selected] is peeked and advanced. *)
Fixpoint retain_rows (selected : list nat) (row : nat) (rows : list LegacyListItem)
    (removed_units removed_planned : Z) : list LegacyListItem * Z * Z :=
  match rows with
  | [] => ([], removed_units, removed_planned)
  | item :: rows' =>
      if bool_decide (head selected = Some row) then
        retain_rows (tail selected) (S row) rows'
          (usize_add removed_units (zlen (proposed_name item)))
          (saturating_add removed_planned
             (saturating_add
                (saturating_add (zlen (destination_parent item))
                   (destination_separator_units (destination_parent item)))
                (zlen (proposed_name item))))
      else
        let '(kept, units, planned) :=
          retain_rows selected (S row) rows' removed_units removed_planned in
        (item :: kept, units, planned)
  end.

Definition remove_rows {E} (selected : list nat) : Cmd E nat :=
  l ← get_list;
  let selected := normalized_indices selected (length (items l)) in
  if (length selected =? 0)%nat then mret 0%nat
  else
    let '(kept, removed_units, removed_planned) := retain_rows selected 0 (items l) 0 0 in
    put_list (set_units (usize_sub (proposed_name_utf16_units l) removed_units)
                (usize_sub (planned_path_utf16_units l) removed_planned)
                (set_items kept l));;
    invalidate_source_index;;
    mret (length selected).

(** ** Manual edits and completed moves *)

Definition set_manual_proposal (index : nat) (name : LegacyText)
  : Cmd ProposalMutationError (option bool) :=
  l ← get_list;
  match items l !! index with
  | None => mret None
  | Some current =>
      SE_lift (validate_proposal_units index (zlen name));;
      total_units ← SE_lift (ok_or ArithmeticOverflow
        (total ← checked_sub (proposed_name_utf16_units l) (zlen (proposed_name current));
         checked_add total (zlen name)));
      if MAX_TOTAL_PROPOSED_NAME_UTF16_UNITS <? total_units
      then SE_throw (AggregateBudgetExceeded total_units MAX_TOTAL_PROPOSED_NAME_UTF16_UNITS)
      else
        current_planned ← SE_lift (ok_or ArithmeticOverflow
          (checked_planned_path_units (destination_parent current)
             (zlen (proposed_name current))));
        next_planned ← SE_lift (ok_or ArithmeticOverflow
          (checked_planned_path_units (destination_parent current) (zlen name)));
        planned_units ← SE_lift (ok_or ArithmeticOverflow
          (total ← checked_sub (planned_path_utf16_units l) current_planned;
           checked_add total next_planned));
        if MAX_TOTAL_PLANNED_PATH_UTF16_UNITS <? planned_units
        then SE_throw (PlannedPathAggregateBudgetExceeded planned_units
                         MAX_TOTAL_PLANNED_PATH_UTF16_UNITS)
        else
          let changed := negb (bool_decide (proposed_name current = name)) in
          put_list (set_units total_units planned_units
                      (set_items (<[index := set_proposed_name name current]> (items l)) l));;
          mret (Some changed)
  end.

Definition manual_change (index : nat) (name : LegacyText) : Cmd ProposalMutationError bool :=
  changed ← set_manual_proposal index name;
  mret (match changed with Some _ => true | None => false end).
Definition manual_change_changed (index : nat) (name : LegacyText)
  : Cmd ProposalMutationError bool :=
  changed ← set_manual_proposal index name;
  mret (match changed with Some b => b | None => false end).

(** The row after its planned path became its source path. *)
Definition moved_item (item : LegacyListItem) : LegacyListItem :=
  let new_path := planned_path item in
  let current := path_name new_path in
  let parent :=
    if bool_decide (source_parent_units new_path = destination_parent item)
    then destination_parent item else path_root new_path in
  mkItem new_path current current parent (is_directory item) (size item)
    (actual_size item) (created item) (modified item).

Definition record_move_success {E} (index : nat) : Cmd E bool :=
  l ← get_list;
  match items l !! index with
  | None => mret false
  | Some item =>
      let item' := moved_item item in
      put_list (set_units
        (usize_add (usize_sub (proposed_name_utf16_units l) (zlen (proposed_name item)))
           (zlen (proposed_name item')))
        (planned_path_utf16_units l)
        (set_items (<[index := item']> (items l)) l));;
      invalidate_source_index;;
      mret true
  end.

(** ** Destination parents *)

(** Rows whose destination parent differs from [parent]. *)
Fixpoint rows_with_other_parent (parent : LegacyText) (row : nat) (rows : list LegacyListItem)
  : list nat :=
  match rows with
  | [] => []
  | item :: rows' =>
      (if bool_decide (destination_parent item = parent) then [] else [row])
      ++ rows_with_other_parent parent (S row) rows'
  end.

Definition unify_destination_parent_changed (parent : LegacyText)
  : Cmd DestinationParentMutationError (list nat) :=
  l ← get_list;
  let '(normalized_len, preserves_root_separator) :=
    normalized_destination_parent_len parent in
  SE_lift (validate_destination_parent_units (Z.of_nat normalized_len));;
  let normalized_units := take normalized_len parent in
  per_row ← SE_lift (ok_or ParentArithmeticOverflow
    (checked_add (Z.of_nat normalized_len) (destination_separator_units normalized_units)));
  requested ← SE_lift (ok_or ParentArithmeticOverflow
    (units ← checked_mul per_row (zlen (items l));
     checked_add units (proposed_name_utf16_units l)));
  if MAX_TOTAL_PLANNED_PATH_UTF16_UNITS <? requested
  then SE_throw (ParentPlannedPathAggregateBudgetExceeded requested
                   MAX_TOTAL_PLANNED_PATH_UTF16_UNITS)
  else
    clone ← on_heap (try_clone_destination_parent parent);
    let truncated := truncate_units clone normalized_len in
    let normalized :=
      if preserves_root_separator
      then <[(length truncated - 1)%nat := BACKSLASH]> truncated else truncated in
    on_heap (try_reserve ParentAllocationFailed);;
    let changed := rows_with_other_parent normalized 0 (items l) in
    put_list (set_units (proposed_name_utf16_units l) requested
                (set_items (map (set_destination_parent normalized) (items l)) l));;
    mret changed.

Fixpoint sum_source_planned_units (total : Z) (rows : list LegacyListItem)
  : result DestinationParentMutationError Z :=
  match rows with
  | [] => Ok total
  | item :: rows' =>
      units ← ok_or ParentArithmeticOverflow
        (checked_planned_path_units (source_parent_units (source_path item))
           (zlen (proposed_name item)));
      total' ← ok_or ParentArithmeticOverflow (checked_add total units);
      sum_source_planned_units total' rows'
  end.

Section reset_parents.
Variable allocate_parent : list Z -> SE heap DestinationParentMutationError LegacyText.

(** The staging loop: [shared] holds the parents already allocated. *)
Fixpoint stage_parents (shared : list LegacyText) (row : nat) (aggregate_units : Z)
    (rows : list LegacyListItem)
  : SE heap DestinationParentMutationError (list LegacyText * list nat) :=
  match rows with
  | [] => mret ([], [])
  | item :: rows' =>
      let source_parent := source_parent_units (source_path item) in
      SE_lift (validate_destination_parent_units (zlen source_parent));;
      '(parent, shared', aggregate') ←
        (if existsb (fun t => bool_decide (t = source_parent)) shared
         then mret (source_parent, shared, aggregate_units)
         else
           aggregate' ← SE_lift (ok_or ParentArithmeticOverflow
             (checked_add aggregate_units (zlen source_parent)));
           if MAX_TOTAL_DESTINATION_PARENT_UTF16_UNITS <? aggregate'
           then SE_throw (ParentAggregateBudgetExceeded aggregate'
                            MAX_TOTAL_DESTINATION_PARENT_UTF16_UNITS)
           else
             parent ← allocate_parent source_parent;
             mret (parent, parent :: shared, aggregate'));
      let changed_here :=
        if bool_decide (destination_parent item = parent) then [] else [row] in
      '(staged, changed) ← stage_parents shared' (S row) aggregate' rows';
      mret (parent :: staged, changed_here ++ changed)
  end.

Definition reset_destination_parents_by : Cmd DestinationParentMutationError (list nat) :=
  l ← get_list;
  requested ← SE_lift (sum_source_planned_units 0 (items l));
  if MAX_TOTAL_PLANNED_PATH_UTF16_UNITS <? requested
  then SE_throw (ParentPlannedPathAggregateBudgetExceeded requested
                   MAX_TOTAL_PLANNED_PATH_UTF16_UNITS)
  else
    on_heap (try_reserve ParentAllocationFailed);;
    on_heap (try_reserve ParentAllocationFailed);;
    on_heap (try_reserve ParentAllocationFailed);;
    '(staged, changed) ← on_heap (stage_parents [] 0 0 (items l));
    put_list (set_units (proposed_name_utf16_units l) requested
                (set_items (zip_with set_destination_parent staged (items l)) l));;
    mret changed.
End reset_parents.

Definition reset_destination_parents : Cmd DestinationParentMutationError (list nat) :=
  reset_destination_parents_by try_clone_destination_parent_units.

(** ** The invariant: cached totals are exact and within their budgets *)

Definition units_of (rows : list LegacyListItem) : Z :=
  foldr (fun i acc => zlen (proposed_name i) + acc) 0 rows.
Definition planned_of (rows : list LegacyListItem) : Z :=
  foldr (fun i acc => zlen (planned_path i) + acc) 0 rows.

Record list_ok (l : LegacyList) : Prop := mkListOk {
  ok_units : proposed_name_utf16_units l = units_of (items l);
  ok_planned : planned_path_utf16_units l = planned_of (items l);
  ok_units_max : units_of (items l) <= MAX_TOTAL_PROPOSED_NAME_UTF16_UNITS;
  ok_planned_max : planned_of (items l) <= MAX_TOTAL_PLANNED_PATH_UTF16_UNITS;
  ok_names : Forall (fun i => zlen (proposed_name i) <= MAX_PROPOSED_NAME_UTF16_UNITS) (items l)
}.

(** A command keeps the invariant; a failed command leaves the list as it was. *)
Definition preserves_ok {E A} (m : Cmd E A) : Prop := forall l h r l' h',
  list_ok l -> m (l, h) = (r, (l', h')) -> list_ok l'.
Definition atomic {E A} (m : Cmd E A) : Prop := forall l h e l' h',
  m (l, h) = (Err e, (l', h')) -> l' = l.

(** Rows whose proposed name differs between two states of the list. *)
Fixpoint differing_rows (row : nat) (old new : list LegacyListItem) : list nat :=
  match old, new with
  | i :: old', j :: new' =>
      (if bool_decide (proposed_name i = proposed_name j) then [] else [row])
      ++ differing_rows (S row) old' new'
  | _, _ => []
  end.

Lemma units_of_nonneg rows : 0 <= units_of rows.
Proof. induction rows as [|i rows IH]; simpl; [lia|]. pose proof (zlen_nonneg (proposed_name i)). lia. Qed.
Lemma planned_of_nonneg rows : 0 <= planned_of rows.
Proof. induction rows as [|i rows IH]; simpl; [lia|]. pose proof (zlen_nonneg (planned_path i)). lia. Qed.

Lemma units_of_app a b : units_of (a ++ b) = units_of a + units_of b.
Proof. induction a as [|i a IH]; simpl; [done|]. lia. Qed.
Lemma planned_of_app a b : planned_of (a ++ b) = planned_of a + planned_of b.
Proof. induction a as [|i a IH]; simpl; [done|]. lia. Qed.

Lemma units_of_perm a b : a ≡ₚ b -> units_of a = units_of b.
Proof. induction 1; simpl; lia. Qed.
Lemma planned_of_perm a b : a ≡ₚ b -> planned_of a = planned_of b.
Proof. induction 1; simpl; lia. Qed.

Lemma zlen_planned_path i :
  zlen (planned_path i) =
  zlen (destination_parent i) + destination_separator_units (destination_parent i)
  + zlen (proposed_name i).
Proof. apply zlen_join_path. Qed.

Lemma set_proposed_name_id i : set_proposed_name (proposed_name i) i = i.
Proof. by destruct i. Qed.

Lemma budgets_small :
  MAX_TOTAL_PROPOSED_NAME_UTF16_UNITS <= usize_max /\
  MAX_TOTAL_PLANNED_PATH_UTF16_UNITS <= usize_max /\
  MAX_PROPOSED_NAME_UTF16_UNITS <= usize_max.
Proof. done. Qed.

Lemma units_of_lookup_le rows i x :
  rows !! i = Some x -> zlen (proposed_name x) <= units_of rows.
Proof.
  intros H. apply list_elem_of_split_length in H as (l1 & l2 & -> & _).
  rewrite units_of_app. simpl. pose proof (units_of_nonneg l1). pose proof (units_of_nonneg l2). lia.
Qed.

(** Updating one row moves each total by the row's difference. *)
Lemma units_of_insert rows i x y :
  rows !! i = Some x ->
  units_of (<[i := y]> rows) = units_of rows - zlen (proposed_name x) + zlen (proposed_name y).
Proof.
  intros H. rewrite insert_take_drop by (by apply lookup_lt_Some in H).
  rewrite <-(take_drop_middle rows i x H) at 3.
  rewrite !units_of_app. simpl. lia.
Qed.
Lemma planned_of_insert rows i x y :
  rows !! i = Some x ->
  planned_of (<[i := y]> rows) = planned_of rows - zlen (planned_path x) + zlen (planned_path y).
Proof.
  intros H. rewrite insert_take_drop by (by apply lookup_lt_Some in H).
  rewrite <-(take_drop_middle rows i x H) at 3.
  rewrite !planned_of_app. simpl. lia.
Qed.

(** ** A small calculus of commands

    A command that only reads leaves the list alone on every path; one that
    never fails cannot break atomicity.  A command that reads first and then
    commits is atomic: [solve_atomic] follows its structure. *)

Definition reads {E A} (m : Cmd E A) : Prop := forall s r s', m s = (r, s') -> s'.1 = s.1.
Definition infallible {E A} (m : Cmd E A) : Prop := forall s e s', m s <> (Err e, s').

Section command_calculus.
Context {E A B : Type}.
Implicit Types (m : Cmd E A) (f : A -> Cmd E B).

Lemma reads_get : reads (@get_list E).
Proof. by intros s r s' [= <- <-]. Qed.
Lemma reads_ret (a : A) : reads (mret a : Cmd E A).
Proof. by intros s r s' [= <- <-]. Qed.
Lemma reads_throw e : reads (SE_throw e : Cmd E A).
Proof. by intros s r s' [= <- <-]. Qed.
Lemma reads_lift (r : result E A) : reads (SE_lift r : Cmd E A).
Proof. by intros s r' s' [= <- <-]. Qed.
Lemma reads_on_heap (k : SE heap E A) : reads (on_heap k).
Proof. intros s r s'. unfold on_heap. destruct (k s.2). by intros [= <- <-]. Qed.
Lemma reads_bind m f : reads m -> (forall a, reads (f a)) -> reads (m ≫= f).
Proof.
  intros Hm Hf s r s'. unfold mbind, SE_bind. destruct (m s) as [[a|e] s1] eqn:Hs.
  - intros H. rewrite (Hf _ _ _ _ H). by eapply Hm.
  - intros [= <- <-]. by eapply Hm.
Qed.

Lemma infallible_put l : infallible (@put_list E l).
Proof. intros s e s'. done. Qed.
Lemma infallible_ret (a : A) : infallible (mret a : Cmd E A).
Proof. intros s e s'. done. Qed.
Lemma infallible_bind m f : infallible m -> (forall a, infallible (f a)) -> infallible (m ≫= f).
Proof.
  intros Hm Hf s e s'. unfold mbind, SE_bind. destruct (m s) as [[a|e'] s1] eqn:Hs.
  - apply Hf.
  - by apply Hm in Hs.
Qed.
Lemma infallible_invalidate : infallible (@invalidate_source_index E).
Proof.
  intros s e s'. unfold invalidate_source_index, mbind, SE_bind, get_list, put_list, on_heap,
    arc_new. simpl. by destruct (_ <=? _).
Qed.

Lemma atomic_reads m : reads m -> atomic m.
Proof. intros Hm l h e l' h' H. by apply Hm in H. Qed.
Lemma atomic_infallible m : infallible m -> atomic m.
Proof. intros Hm l h e l' h' H. by apply Hm in H. Qed.
Lemma atomic_bind m f : reads m -> (forall a, atomic (f a)) -> atomic (m ≫= f).
Proof.
  intros Hm Hf l h e l' h' [H|(a & [l1 h1] & Hs & H)]%SE_bind_Err; [by apply Hm in H|].
  apply Hm in Hs. simpl in Hs. subst l1. by eapply Hf.
Qed.
Lemma atomic_commit m f : atomic m -> (forall a, infallible (f a)) -> atomic (m ≫= f).
Proof.
  intros Hm Hf l h e l' h' [H|(a & s1 & _ & H)]%SE_bind_Err; [by eapply Hm|].
  by apply Hf in H.
Qed.
End command_calculus.

Create HintDb cmd.
#[export] Hint Resolve reads_get reads_ret reads_throw reads_lift reads_on_heap reads_bind
  infallible_put infallible_ret infallible_bind infallible_invalidate : cmd.

Ltac solve_atomic :=
  repeat first
    [ solve [apply atomic_reads; eauto with cmd]
    | solve [apply atomic_infallible; eauto with cmd]
    | apply atomic_bind; [solve [eauto with cmd]|intros ?]
    | case_match ].

(** Inverts a successful run of a command, step by step. *)
Lemma on_heap_Ok {E A} (k : SE heap E A) s a s' :
  on_heap k s = (Ok a, s') -> s'.1 = s.1 /\ k s.2 = (Ok a, s'.2).
Proof. unfold on_heap. destruct (k s.2) as [r h]. by intros [= -> <-]. Qed.
Lemma SE_lift_Ok {S E A} (r : result E A) (s : S) a s' :
  SE_lift r s = (Ok a, s') -> r = Ok a /\ s' = s.
Proof. by intros [= -> <-]. Qed.
Lemma get_list_Ok {E} s l s' : @get_list E s = (Ok l, s') -> l = s.1 /\ s' = s.
Proof. by intros [= <- <-]. Qed.
Lemma put_list_Ok {E} l s u s' : @put_list E l s = (Ok u, s') -> s' = (l, s.2).
Proof. by intros [= <- <-]. Qed.
Lemma SE_ret_Ok {S E A} (a b : A) (s s' : S) :
  (mret a : SE S E A) s = (Ok b, s') -> b = a /\ s' = s.
Proof. by intros [= <- <-]. Qed.

Ltac cmd_step H :=
  let v := fresh "v" in let s := fresh "s" in let Hm := fresh "Hm" in
  apply SE_bind_Ok in H as (v & s & Hm & H);
  first
    [ apply get_list_Ok in Hm as [-> ->]
    | apply SE_lift_Ok in Hm as [Hm ->]
    | apply put_list_Ok in Hm as ->
    | let Hs := fresh "Hs" in apply on_heap_Ok in Hm as [Hs Hm]
    | idtac ].


(** ** Facts about staging *)

Definition apply_next (item : LegacyListItem) (next : option LegacyText) : LegacyListItem :=
  match next with Some t => set_proposed_name t item | None => item end.

Section staging_facts.
Context {C : Type}.
Variable proposal : list LegacyListItem -> nat -> LegacyListItem -> C ->
  SE heap ProposalMutationError (option LegacyText * C).

(** The answers the proposal closure gave, row by row. *)
Inductive proposals_run (rows : list LegacyListItem) :
  nat -> C -> list LegacyListItem -> list (option LegacyText) -> Prop :=
| run_nil row c : proposals_run rows row c [] []
| run_cons row c item rest next c' nexts h h' :
    proposal rows row item c h = (Ok (next, c'), h') ->
    proposals_run rows (S row) c' rest nexts ->
    proposals_run rows row c (item :: rest) (next :: nexts).

Fixpoint staged_for (row : nat) (rest : list LegacyListItem) (nexts : list (option LegacyText))
  : list StagedProposal :=
  match rest, nexts with
  | item :: rest', next :: nexts' =>
      match next with
      | Some t => if bool_decide (proposed_name item = t) then [] else [mkStaged row t]
      | None => []
      end ++ staged_for (S row) rest' nexts'
  | _, _ => []
  end.

Lemma proposals_run_length rows row c rest nexts :
  proposals_run rows row c rest nexts -> length nexts = length rest.
Proof. induction 1; simpl; congruence. Qed.

Lemma stage_proposals_Ok rows rest row c tu tp h staged units planned h' :
  tp >= 0 ->
  stage_proposals proposal rows rest row c tu tp h = (Ok (staged, units, planned), h') ->
  exists nexts,
    proposals_run rows row c rest nexts /\
    staged = staged_for row rest nexts /\
    units = tu + units_of (zip_with apply_next rest nexts) /\
    planned = tp + planned_of (zip_with apply_next rest nexts) /\
    (tu <= MAX_TOTAL_PROPOSED_NAME_UTF16_UNITS -> units <= MAX_TOTAL_PROPOSED_NAME_UTF16_UNITS) /\
    Forall (fun i => zlen (proposed_name i) <= MAX_PROPOSED_NAME_UTF16_UNITS)
      (zip_with apply_next rest nexts).
Proof.
  revert row c tu tp h staged units planned.
  induction rest as [|item rest IH]; intros row c tu tp h staged units planned Htp H; simpl in H.
  { injection H as <- <- <- <-. exists []. split_and!; [constructor|done|simpl; lia..|done]. }
  apply SE_bind_Ok in H as ([next c'] & h1 & Hp & H).
  set (next_len := match next with Some t => zlen t | None => _ end) in H.
  assert (next_len = zlen (proposed_name (apply_next item next))) as Hlen by (by destruct next).
  assert (destination_parent (apply_next item next) = destination_parent item) as Hdp
    by (by destruct next).
  apply SE_bind_Ok in H as ([] & h2 & Hv & H). unfold SE_lift in Hv. injection Hv as Hv <-.
  apply SE_bind_Ok in H as (tu' & h2 & Ht & H). unfold SE_lift in Ht. injection Ht as Ht <-.
  destruct (MAX_TOTAL_PROPOSED_NAME_UTF16_UNITS <? tu') eqn:Hmax; [done|].
  apply SE_bind_Ok in H as (ru & h2 & Hr & H). unfold SE_lift in Hr. injection Hr as Hr <-.
  apply SE_bind_Ok in H as (tp' & h2 & Ht2 & H). unfold SE_lift in Ht2. injection Ht2 as Ht2 <-.
  apply SE_bind_Ok in H as (here & h3 & Hh & H).
  apply SE_bind_Ok in H as ([[staged' units'] planned'] & h4 & Hrec & H).
  injection H as <- <- <- <-.
  apply ok_or_Ok, checked_add_Some in Ht as [-> ?], Ht2 as [-> ?].
  apply ok_or_Ok, checked_planned_path_units_Some in Hr as [-> ?];
    [|rewrite Hlen; apply zlen_nonneg].
  pose proof (zlen_nonneg (proposed_name (apply_next item next))).
  pose proof (zlen_nonneg (destination_parent item)).
  pose proof (destination_separator_units_bound (destination_parent item)).
  apply IH in Hrec as (nexts & Hrun & -> & -> & -> & Hb & Hall); [|lia].
  exists (next :: nexts). split_and!.
  - by eapply run_cons.
  - simpl. f_equal. destruct next as [t|]; [|by injection Hh].
    case_bool_decide; [by injection Hh|].
    apply SE_bind_Ok in Hh as ([] & h5 & _ & Hh). by injection Hh.
  - simpl. lia.
  - simpl. rewrite zlen_planned_path, Hdp. lia.
  - intros _. apply Hb. apply Z.ltb_ge in Hmax. lia.
  - constructor; [|done]. rewrite <-Hlen. unfold validate_proposal_units in Hv.
    destruct (_ <? next_len) eqn:E; [done|]. by apply Z.ltb_ge in E.
Qed.
End staging_facts.

Lemma commit_staged_for pre rest nexts :
  length nexts = length rest ->
  commit_staged (staged_for (length pre) rest nexts) (pre ++ rest) =
  pre ++ zip_with apply_next rest nexts.
Proof.
  unfold commit_staged. revert pre nexts.
  induction rest as [|item rest IH]; intros pre [|next nexts] Hlen; simpl; try done.
  injection Hlen as Hlen. rewrite fold_left_app.
  assert (fold_left (fun rows u => alter (set_proposed_name (staged_value u)) (staged_row u) rows)
    match next with
    | Some t => if bool_decide (proposed_name item = t) then [] else [mkStaged (length pre) t]
    | None => []
    end (pre ++ item :: rest) = (pre ++ [apply_next item next]) ++ rest) as ->.
  { rewrite <-app_assoc. simpl. destruct next as [t|]; simpl; [|done].
    case_bool_decide as Ht; simpl; [by rewrite <-Ht, set_proposed_name_id|].
    rewrite <-(Nat.add_0_r (length pre)). by rewrite alter_app_r. }
  replace (S (length pre)) with (length (pre ++ [apply_next item next]))
    by (rewrite length_app; simpl; lia).
  rewrite IH by done. by rewrite <-app_assoc.
Qed.

Lemma staged_rows_differ row rest nexts :
  length nexts = length rest ->
  map staged_row (staged_for row rest nexts) =
  differing_rows row rest (zip_with apply_next rest nexts).
Proof.
  revert row nexts. induction rest as [|item rest IH]; intros row [|next nexts] Hlen;
    simpl; try done.
  injection Hlen as Hlen. rewrite map_app, IH by done. f_equal.
  destruct next as [t|]; simpl; [by case_bool_decide|]. by rewrite bool_decide_true.
Qed.

Section staged_command_facts.
Context {C : Type}.
Variable proposal : list LegacyListItem -> nat -> LegacyListItem -> C ->
  SE heap ProposalMutationError (option LegacyText * C).

(** What a successful staged command did: the closure's answers were applied
    row by row, the totals were recomputed, and exactly the changed rows are
    returned. *)
Lemma try_changed_optional_Ok c l h rows l' h' :
  try_changed_proposals_optional proposal c (l, h) = (Ok rows, (l', h')) ->
  list_ok l' /\
  identity l' = identity l /\ source_revision l' = source_revision l /\
  rows = differing_rows 0 (items l) (items l') /\
  exists nexts,
    proposals_run proposal (items l) 0 c (items l) nexts /\
    items l' = zip_with apply_next (items l) nexts.
Proof.
  unfold try_changed_proposals_optional. intros H.
  apply SE_bind_Ok in H as (l0 & s1 & Hg & H). injection Hg as <- <-. simpl in H.
  apply SE_bind_Ok in H as ([[staged units] planned] & [l1 h1] & Hs & H).
  unfold on_heap in Hs. simpl in Hs.
  destruct (stage_proposals _ _ _ _ _ _ _ _) as [r h2] eqn:Hst. injection Hs as -> <- <-.
  destruct (_ <? planned) eqn:Hmax; [done|]. apply Z.ltb_ge in Hmax.
  apply SE_bind_Ok in H as ([] & [l2 h3] & Hr & H).
  unfold on_heap in Hr. simpl in Hr.
  destruct (try_reserve _ h2) as [r3 h4]. injection Hr as _ <- _.
  unfold put_list in H. apply SE_bind_Ok in H as ([] & s4 & Hp & H).
  injection Hp as <-. injection H as <- <- _.
  apply stage_proposals_Ok in Hst as (nexts & Hrun & -> & -> & -> & Hb & Hall); [|lia].
  pose proof (proposals_run_length _ _ _ _ _ _ Hrun) as Hlen.
  pose proof (commit_staged_for [] (items l) nexts Hlen) as Hcommit. simpl in Hcommit.
  simpl. rewrite Hcommit. split_and!; [|reflexivity|reflexivity| |].
  - split; simpl; [reflexivity|reflexivity| |lia|assumption]. by apply Hb.
  - by apply staged_rows_differ.
  - by exists nexts.
Qed.

Lemma try_changed_optional_atomic c : atomic (try_changed_proposals_optional proposal c).
Proof. unfold try_changed_proposals_optional. solve_atomic. Qed.
End staged_command_facts.

(** ** Facts about infallible transforms *)

Definition shrinking (proposal : LegacyListItem -> LegacyText) : Prop :=
  forall i, zlen (proposal i) <= zlen (proposed_name i).

Definition apply_proposal (proposal : LegacyListItem -> LegacyText) (i : LegacyListItem)
  : LegacyListItem := set_proposed_name (proposal i) i.

Section shrinking.
Context (proposal : LegacyListItem -> LegacyText) (Hshrink : shrinking proposal).

Lemma units_of_shrink rows : units_of (map (apply_proposal proposal) rows) <= units_of rows.
Proof. induction rows as [|i rows IH]; simpl; [lia|]. specialize (Hshrink i). lia. Qed.

Lemma planned_of_shrink rows :
  planned_of (map (apply_proposal proposal) rows) =
  planned_of rows - (units_of rows - units_of (map (apply_proposal proposal) rows)).
Proof.
  induction rows as [|i rows IH]; simpl; [lia|].
  rewrite !zlen_planned_path. simpl. lia.
Qed.

Lemma change_rows_spec index total rows :
  0 <= total -> total + units_of rows <= usize_max ->
  change_rows proposal index total rows =
  (map (apply_proposal proposal) rows,
   differing_rows index rows (map (apply_proposal proposal) rows),
   total + units_of (map (apply_proposal proposal) rows)).
Proof.
  revert index total. induction rows as [|i rows IH]; intros index total H0 Hmax; simpl.
  { by rewrite Z.add_0_r. }
  simpl in Hmax. specialize (Hshrink i).
  pose proof (zlen_nonneg (proposal i)). pose proof (units_of_nonneg rows).
  rewrite usize_add_small by lia. rewrite IH by lia.
  assert ((if negb (bool_decide (proposed_name i = proposal i))
           then set_proposed_name (proposal i) i else i) = apply_proposal proposal i) as ->.
  { unfold apply_proposal. case_bool_decide as Heq; simpl; [|done].
    by rewrite <-Heq, set_proposed_name_id. }
  change (proposed_name (apply_proposal proposal i)) with (proposal i).
  rewrite Z.add_assoc. f_equal. f_equal. by case_bool_decide.
Qed.

Lemma changed_proposals_spec {E} l h :
  list_ok l ->
  exists l', @changed_proposals E proposal (l, h) =
      (Ok (differing_rows 0 (items l) (items l')), (l', h)) /\
    list_ok l' /\ items l' = map (apply_proposal proposal) (items l) /\
    identity l' = identity l /\ source_revision l' = source_revision l.
Proof.
  intros [Hu Hp Hum Hpm Hn]. pose proof budgets_small as (Hb1 & Hb2 & _).
  pose proof (units_of_nonneg (items l)). pose proof (units_of_shrink (items l)) as Hs.
  pose proof (planned_of_shrink (items l)) as Hps.
  pose proof (planned_of_nonneg (map (apply_proposal proposal) (items l))).
  pose proof (units_of_nonneg (map (apply_proposal proposal) (items l))).
  set (rows := map (apply_proposal proposal) (items l)) in *.
  exists (set_units (units_of rows) (planned_of rows) (set_items rows l)). split_and!.
  - unfold changed_proposals, get_list, mbind, SE_bind, put_list, mret, SE_ret. cbn [fst snd].
    rewrite change_rows_spec by lia. fold rows. rewrite Hu, Hp, Z.add_0_l.
    unfold saturating_sub. rewrite Z.max_l by lia. rewrite usize_sub_small by lia.
    by rewrite Hps.
  - split; simpl; try reflexivity; try lia.
    apply Forall_map. eapply Forall_impl; [exact Hn|]. intros i Hi. simpl in *.
    specialize (Hshrink i). lia.
  - reflexivity.
  - reflexivity.
  - reflexivity.
Qed.

Lemma changed_proposals_ok {E} : preserves_ok (@changed_proposals E proposal).
Proof.
  intros l h r l' h' Hok H. destruct (changed_proposals_spec (E:=E) l h Hok) as (l2 & H2 & ? & _).
  congruence.
Qed.
End shrinking.

Lemma changed_proposals_never_fails {E} proposal l h e s :
  @changed_proposals E proposal (l, h) <> (Err e, s).
Proof.
  unfold changed_proposals, get_list, mbind, SE_bind, put_list, mret, SE_ret. cbn [fst snd].
  by destruct (change_rows _ _ _ _) as [[??]?].
Qed.

(** ** Facts about row removal *)

Fixpoint keep_rows (removed : nat -> bool) (row : nat) (rows : list LegacyListItem)
  : list LegacyListItem :=
  match rows with
  | [] => []
  | item :: rows' =>
      (if removed row then [] else [item]) ++ keep_rows removed (S row) rows'
  end.

Lemma units_of_keep_rows p row rows : 0 <= units_of (keep_rows p row rows) <= units_of rows.
Proof.
  split; [apply units_of_nonneg|]. revert row.
  induction rows as [|i rows IH]; intros row; simpl; [lia|].
  specialize (IH (S row)). rewrite units_of_app. pose proof (zlen_nonneg (proposed_name i)).
  destruct (p row); simpl; lia.
Qed.
Lemma planned_of_keep_rows p row rows :
  0 <= planned_of (keep_rows p row rows) <= planned_of rows.
Proof.
  split; [apply planned_of_nonneg|]. revert row.
  induction rows as [|i rows IH]; intros row; simpl; [lia|].
  specialize (IH (S row)). rewrite planned_of_app. pose proof (zlen_nonneg (planned_path i)).
  destruct (p row); simpl; lia.
Qed.

Lemma normalized_indices_sorted indices n : bs_sorted (normalized_indices indices n).
Proof. apply bs_extend_sorted. constructor. Qed.

Lemma elem_of_normalized_indices i indices n :
  i ∈ normalized_indices indices n <-> i ∈ indices /\ (i < n)%nat.
Proof.
  unfold normalized_indices. rewrite elem_of_bs_extend, list_elem_of_In, filter_In.
  rewrite <-list_elem_of_In, Nat.ltb_lt. split; [|by left].
  intros [?|?%not_elem_of_nil]; done.
Qed.

Lemma retain_rows_spec selected row rows u p :
  bs_sorted selected -> Forall (fun i => (row <= i)%nat) selected ->
  0 <= u -> 0 <= p -> u + units_of rows <= usize_max -> p + planned_of rows <= usize_max ->
  forall kept, kept = keep_rows (fun i => bool_decide (i ∈ selected)) row rows ->
  retain_rows selected row rows u p =
  (kept, u + (units_of rows - units_of kept), p + (planned_of rows - planned_of kept)).
Proof.
  revert selected row u p. induction rows as [|item rows IH];
    intros selected row u p Hs Hge Hu Hp Hum Hpm kept ->; simpl; [repeat f_equal; lia|].
  simpl in Hum, Hpm.
  pose proof (zlen_nonneg (proposed_name item)). pose proof (units_of_nonneg rows).
  pose proof (planned_of_nonneg rows). pose proof (zlen_planned_path item).
  pose proof (destination_separator_units_bound (destination_parent item)).
  pose proof (zlen_nonneg (destination_parent item)).
  assert (head selected = Some row <-> row ∈ selected) as Hhead.
  { destruct selected as [|s sel]; simpl; [split; [done|by intros ?%not_elem_of_nil]|].
    split; [intros [= ->]; by left|]. intros [->|Hin]%elem_of_cons; [done|]. exfalso.
    apply StronglySorted_inv in Hs as [_ Hs]. rewrite Forall_forall in Hs, Hge.
    specialize (Hs _ Hin). apply Nat.compare_lt_iff in Hs.
    assert (row <= s)%nat by (apply Hge; by left). lia. }
  case_bool_decide as Hh.
  - rewrite (bool_decide_true (row ∈ selected)) by tauto. simpl.
    destruct selected as [|s sel]; [done|]. injection Hh as ->. simpl.
    apply StronglySorted_inv in Hs as [Hs Hlt].
    unfold saturating_add. rewrite usize_add_small by lia. rewrite !Z.min_l by lia.
    assert (keep_rows (fun i => bool_decide (i ∈ row :: sel)) (S row) rows =
            keep_rows (fun i => bool_decide (i ∈ sel)) (S row) rows) as ->.
    { assert (forall k, (row < k)%nat ->
        keep_rows (fun i => bool_decide (i ∈ row :: sel)) k rows =
        keep_rows (fun i => bool_decide (i ∈ sel)) k rows) as Hk; [|apply Hk; lia].
      clear. induction rows as [|i rows IH]; intros k Hk; simpl; [done|].
      rewrite IH by lia. f_equal.
      rewrite (bool_decide_ext (k ∈ row :: sel) (k ∈ sel)); [done|].
      rewrite elem_of_cons. split; [|by right]. intros [->|?]; [lia|done]. }
    rewrite (IH sel (S row)) with (kept := keep_rows (fun i => bool_decide (i ∈ sel)) (S row) rows);
      try done; try lia.
    + f_equal; [f_equal; lia|lia].
    + eapply Forall_impl; [exact Hlt|]. intros i Hi%Nat.compare_lt_iff. lia.
  - rewrite (bool_decide_false (row ∈ selected)) by tauto. simpl.
    rewrite (IH selected (S row) u p) with
      (kept := keep_rows (fun i => bool_decide (i ∈ selected)) (S row) rows); try done; try lia.
    + f_equal; [f_equal; lia|lia].
    + apply Forall_forall. intros i Hi. rewrite Forall_forall in Hge. specialize (Hge _ Hi).
      destruct (decide (i = row)) as [->|]; [tauto|lia].
Qed.


(** ** Source revisions: bindings of append indexes never recur *)

Definition binding (l : LegacyList) : nat * Z := (identity l, source_revision l).
(** The identity was allocated before, and the revision is a [u64]. *)
Definition binding_ok (s : LegacyList * heap) : Prop :=
  (identity s.1 < next_arc s.2)%nat /\ 0 <= source_revision s.1 <= u64_max.
Definition binding_lt (b c : nat * Z) : Prop :=
  (b.1 < c.1)%nat \/ (b.1 = c.1 /\ b.2 < c.2).

Lemma invalidate_spec {E} l h :
  binding_ok (l, h) ->
  exists l' h', @invalidate_source_index E (l, h) = (Ok tt, (l', h')) /\
    items l' = items l /\
    proposed_name_utf16_units l' = proposed_name_utf16_units l /\
    planned_path_utf16_units l' = planned_path_utf16_units l /\
    binding_lt (binding l) (binding l') /\ binding_ok (l', h').
Proof.
  intros [Hid Hrev]. simpl in *. unfold invalidate_source_index. cbn [mbind SE_bind get_list].
  unfold mbind, SE_bind, get_list, put_list, on_heap, arc_new, u64_max in *. simpl.
  destruct (source_revision l + 1 <=? 2 ^ 64 - 1) eqn:Hr.
  - apply Z.leb_le in Hr. do 2 eexists. split; [reflexivity|]. simpl.
    unfold binding, binding_lt, binding_ok, u64_max. simpl. split_and!; try done; try lia.
  - do 2 eexists. split; [reflexivity|]. simpl.
    unfold binding, binding_lt, binding_ok, u64_max. simpl. split_and!; try done; try lia.
Qed.

Lemma list_ok_ext l l' :
  list_ok l -> items l' = items l ->
  proposed_name_utf16_units l' = proposed_name_utf16_units l ->
  planned_path_utf16_units l' = planned_path_utf16_units l -> list_ok l'.
Proof. intros [] Hi Hu Hp. split; rewrite ?Hi, ?Hu, ?Hp; assumption. Qed.

Lemma invalidate_items {E} s r s' :
  @invalidate_source_index E s = (r, s') ->
  items s'.1 = items s.1 /\
  proposed_name_utf16_units s'.1 = proposed_name_utf16_units s.1 /\
  planned_path_utf16_units s'.1 = planned_path_utf16_units s.1.
Proof.
  unfold invalidate_source_index, mbind, SE_bind, get_list, put_list, on_heap, arc_new.
  simpl. destruct (_ <=? _); intros [= <- <-]; done.
Qed.

(** ** Removal *)

Section remove.
Context (l : LegacyList) (indices : list nat).

Definition is_selected (i : nat) : bool := bool_decide (i ∈ indices).

Lemma keep_rows_ext p q row rows :
  (forall i, (row <= i < row + length rows)%nat -> p i = q i) ->
  keep_rows p row rows = keep_rows q row rows.
Proof.
  revert row. induction rows as [|i rows IH]; intros row H; simpl; [done|].
  rewrite (H row) by (simpl; lia). f_equal. apply IH. intros j Hj. apply H. simpl. lia.
Qed.

Lemma keep_normalized rows :
  length rows = length (items l) ->
  keep_rows (fun i => bool_decide (i ∈ normalized_indices indices (length (items l)))) 0 rows =
  keep_rows is_selected 0 rows.
Proof.
  intros Hlen. apply keep_rows_ext. intros i Hi. unfold is_selected. apply bool_decide_ext.
  rewrite elem_of_normalized_indices. rewrite <-Hlen. split; [tauto|]. intros. split; [done|lia].
Qed.

Lemma Forall_keep_rows {P : LegacyListItem -> Prop} p row rows :
  Forall P rows -> Forall P (keep_rows p row rows).
Proof.
  intros H. revert row. induction H as [|i rows Hi H IH]; intros row; simpl; [done|].
  apply Forall_app. split; [destruct (p row); by repeat constructor|apply IH].
Qed.

Lemma list_ok_keep p :
  list_ok l ->
  list_ok (set_units (units_of (keep_rows p 0 (items l))) (planned_of (keep_rows p 0 (items l)))
             (set_items (keep_rows p 0 (items l)) l)).
Proof.
  intros [Hu Hp Hum Hpm Hn].
  pose proof (units_of_keep_rows p 0 (items l)).
  pose proof (planned_of_keep_rows p 0 (items l)).
  split; simpl; try reflexivity; try lia. by apply Forall_keep_rows.
Qed.

(** The rows named by the in-range indices go, the others keep their order,
    and every index bound to the old rows is invalidated. *)
Lemma remove_rows_spec {E} h :
  list_ok l -> binding_ok (l, h) ->
  exists l' h', @remove_rows E indices (l, h) =
      (Ok (length (normalized_indices indices (length (items l)))), (l', h')) /\
    items l' = keep_rows is_selected 0 (items l) /\ list_ok l' /\ binding_ok (l', h') /\
    (normalized_indices indices (length (items l)) <> [] ->
       binding_lt (binding l) (binding l')).
Proof.
  intros Hok Hb. pose proof budgets_small as (Hb1 & Hb2 & _).
  destruct (keep_normalized (items l) eq_refl).
  set (sel := normalized_indices indices (length (items l))) in *.
  set (p := fun i => bool_decide (i ∈ sel)).
  set (kept := keep_rows p 0 (items l)).
  assert (retain_rows sel 0 (items l) 0 0 =
          (kept, units_of (items l) - units_of kept,
           planned_of (items l) - planned_of kept)) as Hret.
  { destruct Hok. unfold kept.
    rewrite (retain_rows_spec sel 0 (items l) 0 0) with (kept := kept);
      [done|apply normalized_indices_sorted|apply Forall_forall; lia|lia|lia|lia|lia|done]. }
  pose proof (list_ok_keep p Hok) as Hkeep. fold kept in Hkeep.
  pose proof (units_of_keep_rows p 0 (items l)) as Hku. fold kept in Hku.
  pose proof (planned_of_keep_rows p 0 (items l)) as Hkp. fold kept in Hkp.
  unfold remove_rows. unfold mbind at 1, SE_bind at 1, get_list at 1. cbn [fst snd].
  fold sel. destruct (length sel =? 0)%nat eqn:Hl0.
  - apply Nat.eqb_eq in Hl0. exists l, h. split_and!; try done.
    + by rewrite Hl0.
    + assert (p = fun _ => false) as Hp.
      { unfold p. apply nil_length_inv in Hl0. by rewrite Hl0. }
      unfold kept. rewrite Hp. clear. generalize 0%nat.
      induction (items l) as [|i rows IH]; intros n; simpl; [done|]. by rewrite <-IH.
    + intros Hne. destruct sel; [done|]. simpl in Hl0. lia.
  - rewrite Hret. destruct Hok as [Hu Hp Hum Hpm Hn].
    rewrite Hu, Hp. rewrite !usize_sub_small by lia.
    replace (units_of (items l) - (units_of (items l) - units_of kept))
      with (units_of kept) by lia.
    replace (planned_of (items l) - (planned_of (items l) - planned_of kept))
      with (planned_of kept) by lia.
    rewrite (SE_bind_step _ _ _ tt
      (set_units (units_of kept) (planned_of kept) (set_items kept l), h)) by reflexivity.
    destruct (invalidate_spec (E:=E)
      (set_units (units_of kept) (planned_of kept) (set_items kept l)) h Hb)
      as (l' & h' & Hinv & Hi & Hu' & Hp' & Hlt & Hb').
    exists l', h'. rewrite (SE_bind_step _ _ _ _ _ Hinv). split_and!; try done.
    by eapply list_ok_ext.
Qed.
End remove.

(** ** Manual edits *)

Definition edited_units (l : LegacyList) (current : LegacyListItem) (name : LegacyText) : Z :=
  units_of (items l) - zlen (proposed_name current) + zlen name.
Definition edited_planned (l : LegacyList) (current : LegacyListItem) (name : LegacyText) : Z :=
  planned_of (items l) - zlen (proposed_name current) + zlen name.

Lemma planned_of_lookup_le rows i x :
  rows !! i = Some x -> zlen (planned_path x) <= planned_of rows.
Proof.
  intros H. apply list_elem_of_split_length in H as (l1 & l2 & -> & _).
  rewrite planned_of_app. simpl. pose proof (planned_of_nonneg l1).
  pose proof (planned_of_nonneg l2). lia.
Qed.

(** A manual edit fails exactly when a budget is exceeded, with that budget's
    error; it never reports an arithmetic overflow. *)
Lemma set_manual_proposal_spec l h index current name :
  list_ok l -> items l !! index = Some current ->
  set_manual_proposal index name (l, h) =
  if MAX_PROPOSED_NAME_UTF16_UNITS <? zlen name
  then (Err (NameBudgetExceeded index (zlen name) MAX_PROPOSED_NAME_UTF16_UNITS), (l, h))
  else if MAX_TOTAL_PROPOSED_NAME_UTF16_UNITS <? edited_units l current name
  then (Err (AggregateBudgetExceeded (edited_units l current name)
               MAX_TOTAL_PROPOSED_NAME_UTF16_UNITS), (l, h))
  else if MAX_TOTAL_PLANNED_PATH_UTF16_UNITS <? edited_planned l current name
  then (Err (PlannedPathAggregateBudgetExceeded (edited_planned l current name)
               MAX_TOTAL_PLANNED_PATH_UTF16_UNITS), (l, h))
  else (Ok (Some (negb (bool_decide (proposed_name current = name)))),
        (set_units (edited_units l current name) (edited_planned l current name)
           (set_items (<[index := set_proposed_name name current]> (items l)) l), h)).
Proof.
  intros [Hu Hp Hum Hpm Hn] Hi.
  pose proof (units_of_lookup_le _ _ _ Hi). pose proof (planned_of_lookup_le _ _ _ Hi) as Hpl.
  rewrite zlen_planned_path in Hpl. pose proof (zlen_nonneg name).
  pose proof (zlen_nonneg (proposed_name current)).
  pose proof (zlen_nonneg (destination_parent current)).
  pose proof (destination_separator_units_bound (destination_parent current)).
  unfold set_manual_proposal, mbind, SE_bind, get_list, SE_lift, validate_proposal_units.
  cbn [fst snd]. rewrite Hi.
  destruct (MAX_PROPOSED_NAME_UTF16_UNITS <? zlen name) eqn:E1; [done|].
  apply Z.ltb_ge in E1. unfold option_bind. rewrite Hu, checked_sub_ok by lia.
  unfold MAX_TOTAL_PROPOSED_NAME_UTF16_UNITS, MAX_TOTAL_PLANNED_PATH_UTF16_UNITS,
    MAX_PROPOSED_NAME_UTF16_UNITS, MAX_WINDOWS_LEAF_NAME_UTF16_UNITS in *.
  rewrite checked_add_ok by (unfold usize_max; lia). cbn [ok_or].
  change (units_of (items l) - zlen (proposed_name current) + zlen name)
    with (edited_units l current name).
  destruct (_ <? edited_units l current name) eqn:E2; [done|].
  rewrite !checked_planned_path_units_ok by (unfold usize_max; lia). cbn [ok_or].
  rewrite Hp, checked_sub_ok by lia.
  rewrite checked_add_ok by (unfold usize_max; lia). cbn [ok_or].
  replace (planned_of (items l) - _ + _) with (edited_planned l current name)
    by (unfold edited_planned; lia).
  destruct (_ <? edited_planned l current name) eqn:E3; [done|]. reflexivity.
Qed.

Lemma set_manual_proposal_ok index name : preserves_ok (set_manual_proposal index name).
Proof.
  intros l h r l' h' Hok H. destruct (items l !! index) as [current|] eqn:Hi.
  - rewrite (set_manual_proposal_spec l h index current name Hok Hi) in H.
    destruct (_ <? zlen name) eqn:E1; [by injection H as <- <- <-|].
    destruct (_ <? edited_units _ _ _) eqn:E2; [by injection H as <- <- <-|].
    destruct (_ <? edited_planned _ _ _) eqn:E3; [by injection H as <- <- <-|].
    apply Z.ltb_ge in E1, E2, E3. injection H as <- <- <-. destruct Hok as [Hu Hp Hum Hpm Hn].
    pose proof (units_of_insert _ _ _ (set_proposed_name name current) Hi) as HU.
    pose proof (planned_of_insert _ _ _ (set_proposed_name name current) Hi) as HP.
    rewrite !zlen_planned_path in HP. simpl in HU, HP.
    unfold edited_units, edited_planned in *.
    split; simpl; [lia|lia|lia|lia|]. by apply Forall_insert.
  - unfold set_manual_proposal, mbind, SE_bind, get_list in H. cbn [fst snd] in H.
    rewrite Hi in H. by injection H as <- <- <-.
Qed.

Lemma set_manual_proposal_atomic index name : atomic (set_manual_proposal index name).
Proof. unfold set_manual_proposal. solve_atomic. Qed.

(** ** Completed moves *)

Lemma path_name_length path : zlen (path_name path) <= zlen path.
Proof. unfold path_name, zlen. case_match; [rewrite length_drop|]; lia. Qed.

(** Rejoining parent and name gives back the length exactly for clean paths. *)
Lemma clean_path_length path :
  zlen (join_path (source_parent_units path) (path_name path)) = zlen path <->
  clean_path path = true.
Proof.
  split; [|by intros ->%clean_path_join].
  rewrite zlen_join_path. unfold clean_path, source_parent_units, path_name, zlen.
  destruct (rposition (Z.eqb BACKSLASH) path) as [i|] eqn:Hi; [|cbn; lia].
  apply rposition_lt in Hi. rewrite length_take, length_drop. cbn zeta.
  destruct ((i =? 0)%nat || last_is (Z.eqb COLON) (take i path)) eqn:Hp; simpl; [done|].
  rewrite Nat.add_0_r. destruct (destination_separator_units_cases (take i path)) as [[-> ->]|[-> ->]];
    simpl; [lia|done].
Qed.

Lemma moved_item_parent i :
  destination_parent (moved_item i) = source_parent_units (planned_path i).
Proof. unfold moved_item. simpl. by case_bool_decide. Qed.

Lemma moved_item_planned i :
  planned_path (moved_item i) =
  join_path (source_parent_units (planned_path i)) (path_name (planned_path i)).
Proof. unfold planned_path at 1. by rewrite moved_item_parent. Qed.

(** Recording a completed move renames the row to its planned path, keeps the
    proposed-name total exact and invalidates bound indexes.  The planned-path
    total, which the code leaves alone, stays exact only for a clean path. *)
Lemma record_move_success_spec {E} l h index item :
  list_ok l -> binding_ok (l, h) -> items l !! index = Some item ->
  exists l' h', @record_move_success E index (l, h) = (Ok true, (l', h')) /\
    items l' = <[index := moved_item item]> (items l) /\
    proposed_name_utf16_units l' = units_of (items l') /\
    (planned_path_utf16_units l' = planned_of (items l') <->
       clean_path (planned_path item) = true) /\
    binding_lt (binding l) (binding l') /\ binding_ok (l', h').
Proof.
  intros Hok Hb Hi. destruct Hok as [Hu Hp Hum Hpm Hn].
  pose proof (units_of_lookup_le _ _ _ Hi). pose proof (planned_of_lookup_le _ _ _ Hi).
  pose proof (path_name_length (planned_path item)).
  pose proof (zlen_nonneg (path_name (planned_path item))).
  pose proof (zlen_nonneg (proposed_name item)).
  pose proof budgets_small as (Hb1 & Hb2 & _).
  pose proof (units_of_insert _ _ _ (moved_item item) Hi) as HU.
  pose proof (planned_of_insert _ _ _ (moved_item item) Hi) as HP. simpl in HU.
  rewrite moved_item_planned in HP.
  set (l1 := set_units
    (usize_add (usize_sub (proposed_name_utf16_units l) (zlen (proposed_name item)))
       (zlen (path_name (planned_path item))))
    (planned_path_utf16_units l)
    (set_items (<[index := moved_item item]> (items l)) l)).
  destruct (invalidate_spec (E:=E) l1 h Hb) as (l' & h' & Hinv & Hi' & Hu' & Hp' & Hlt & Hb').
  exists l', h'. split_and!.
  - unfold record_move_success. rewrite (SE_bind_step _ _ _ l (l, h)) by reflexivity.
    rewrite Hi. rewrite (SE_bind_step _ _ _ tt (l1, h)) by reflexivity.
    by rewrite (SE_bind_step _ _ _ tt (l', h')).
  - by rewrite Hi'.
  - rewrite Hu', Hi'. simpl. rewrite HU, Hu.
    assert (units_of (items l) <= usize_max) by (unfold MAX_TOTAL_PROPOSED_NAME_UTF16_UNITS, usize_max in *; lia).
    rewrite usize_sub_small by lia. rewrite usize_add_small; [lia|lia|lia|].
    unfold MAX_TOTAL_PROPOSED_NAME_UTF16_UNITS, MAX_TOTAL_PLANNED_PATH_UTF16_UNITS, usize_max in *.
    lia.
  - rewrite Hp', Hi'. simpl. rewrite HP, Hp, <-clean_path_length. lia.
  - done.
  - done.
Qed.

(** ** Destination parents *)

Definition normalize_parent (parent : LegacyText) : LegacyText :=
  let '(normalized_len, preserves_root_separator) :=
    normalized_destination_parent_len parent in
  let t := take normalized_len parent in
  if preserves_root_separator then <[(length t - 1)%nat := BACKSLASH]> t else t.

(** Normalising trims the separators at the end: a parent is its core followed
    by separators, and a drive or path root keeps one backslash. *)
Lemma normalize_parent_cases parent :
  exists core seps, parent = core ++ seps /\
    Forall (fun u => is_path_separator u = true) seps /\
    last_is is_path_separator core = false /\
    ((seps = [] \/ (core <> [] /\ last_is (Z.eqb COLON) core = false)) /\
       normalize_parent parent = core /\
       normalized_destination_parent_len parent = (length core, false)
     \/ seps <> [] /\ (core = [] \/ last_is (Z.eqb COLON) core = true) /\
       normalize_parent parent = core ++ [BACKSLASH] /\
       normalized_destination_parent_len parent = (S (length core), true)).
Proof.
  unfold normalize_parent, normalized_destination_parent_len.
  set (p := fun unit => negb (is_path_separator unit)).
  assert (exists core seps, parent = core ++ seps /\
    Forall (fun u => is_path_separator u = true) seps /\
    last_is is_path_separator core = false /\
    match rposition p parent with None => 0%nat | Some index => S index end = length core)
    as (core & seps & -> & Hs & Hl & ->).
  { destruct (rposition p parent) as [i|] eqn:Hi.
    - apply rposition_Some in Hi as (x & Heq & Hx & Hlt & Hall).
      exists (take (S i) parent), (drop (S i) parent). split_and!.
      + by rewrite take_drop.
      + eapply Forall_impl; [exact Hall|]. intros u Hu. by apply negb_false_iff in Hu.
      + unfold last_is. rewrite (take_S_r _ _ x).
        * rewrite last_snoc. by apply negb_true_iff in Hx.
        * rewrite Heq. apply list_lookup_middle. rewrite length_take. lia.
      + rewrite length_take. lia.
    - apply rposition_None in Hi. exists [], parent. split_and!; try done.
      eapply Forall_impl; [exact Hi|]. intros u Hu. by apply negb_false_iff in Hu. }
  exists core, seps. split_and!; [done..|].
  rewrite take_app_length, length_app.
  destruct seps as [|u seps]; simpl.
  { left. rewrite Nat.add_0_r, Nat.eqb_refl, app_nil_r. rewrite firstn_all. auto. }
  replace (length core =? length core + S (length seps))%nat with false
    by (symmetry; apply Nat.eqb_neq; lia).
  assert ((length core =? 0)%nat = bool_decide (core = [])) as ->.
  { destruct core; [done|]. symmetry. by apply bool_decide_eq_false. }
  destruct (bool_decide (core = []) || last_is (Z.eqb COLON) core) eqn:Hr; simpl.
  - right. rewrite Nat.add_1_r. split_and!; [done| | |done].
    + apply orb_true_iff in Hr as [H%bool_decide_eq_true|]; auto.
    + replace (S (length core)) with (length core + 1)%nat by lia.
      rewrite take_app_add. simpl. rewrite take_0, length_app. simpl.
      replace (length core + 1 - 1)%nat with (length core + 0)%nat by lia.
      by rewrite insert_app_r.
  - left. rewrite Nat.add_0_r, take_app_length.
    apply orb_false_iff in Hr as [H%bool_decide_eq_false ?]. auto.
Qed.

Lemma last_is_nil p : last_is p [] = false.
Proof. done. Qed.

(** The announced length and separator are those of the normalised parent. *)
Lemma normalize_parent_announced parent :
  zlen (normalize_parent parent) = Z.of_nat (normalized_destination_parent_len parent).1 /\
  destination_separator_units (normalize_parent parent) =
  destination_separator_units (take (normalized_destination_parent_len parent).1 parent).
Proof.
  destruct (normalize_parent_cases parent)
    as (core & seps & Heq & Hs & Hl & [(_ & -> & ->)|(Hne & _ & -> & ->)]); simpl; subst parent.
  - by rewrite take_app_length.
  - rewrite zlen_app, zlen_cons, zlen_nil. split; [unfold zlen; lia|].
    destruct seps as [|u seps]; [done|]. apply Forall_cons in Hs as [Hu _].
    replace (S (length core)) with (length core + 1)%nat by lia.
    rewrite take_app_add. change (take 1 (u :: seps)) with [u].
    rewrite !separator_units_last. unfold last_is. rewrite !last_snoc. by rewrite Hu.
Qed.

(** Normalising twice changes nothing. *)
Lemma normalize_parent_idempotent parent :
  normalize_parent (normalize_parent parent) = normalize_parent parent.
Proof.
  assert (forall l core, last_is is_path_separator core = false ->
    l = core -> normalize_parent l = core) as Hcore.
  { intros l core Hl ->. unfold normalize_parent, normalized_destination_parent_len.
    destruct core as [|u core _] using rev_ind; [done|].
    unfold last_is in Hl. rewrite last_snoc in Hl.
    rewrite (rposition_split _ core u []) by (by rewrite ?Hl).
    rewrite length_app. simpl. rewrite Nat.add_1_r, Nat.eqb_refl.
    rewrite (take_ge (core ++ [u])) by (rewrite length_app; simpl; lia). done. }
  destruct (normalize_parent_cases parent)
    as (core & seps & Heq & Hs & Hl & [(_ & -> & _)|(Hne & Hroot & -> & _)]); [by apply Hcore|].
  destruct (normalize_parent_cases (core ++ [BACKSLASH]))
    as (core' & seps' & Heq' & Hs' & Hl' & Hcase).
  assert (core' = core /\ seps' = [BACKSLASH]) as [-> ->].
  { destruct seps' as [|u seps' _] using rev_ind.
    - rewrite app_nil_r in Heq'. subst core'. unfold last_is in Hl'. by rewrite last_snoc in Hl'.
    - rewrite app_assoc in Heq'. apply app_inj_tail in Heq' as [Heq' <-].
      destruct seps' as [|v seps' _] using rev_ind.
      + rewrite app_nil_r in Heq'. by subst.
      + exfalso. rewrite app_assoc in Heq'. subst core. unfold last_is in Hl.
        rewrite last_snoc in Hl. apply Forall_app in Hs' as [Hs' _].
        apply Forall_app in Hs' as [_ Hv%Forall_inv]. congruence. }
  destruct Hcase as [([H|[H1 H2]] & _ & _)|(_ & _ & -> & _)]; [done| |done].
  destruct Hroot; congruence.
Qed.

Lemma planned_of_set_parent parent rows :
  planned_of (map (set_destination_parent parent) rows) =
  (zlen parent + destination_separator_units parent) * zlen rows + units_of rows.
Proof.
  induction rows as [|i rows IH]; cbn [map planned_of units_of foldr].
  { change (zlen (@nil LegacyListItem)) with 0. lia. }
  fold (planned_of (map (set_destination_parent parent) rows)) (units_of rows). rewrite zlen_cons, zlen_planned_path. simpl. lia.
Qed.
Lemma units_of_same_names rows rows' :
  map proposed_name rows' = map proposed_name rows -> units_of rows' = units_of rows.
Proof.
  revert rows'. induction rows as [|i rows IH]; intros [|j rows'] Heq; try done.
  injection Heq as Hname Heq. simpl. by rewrite (IH rows' Heq), Hname.
Qed.
Lemma names_bound_same_names rows rows' :
  map proposed_name rows' = map proposed_name rows ->
  Forall (fun i => zlen (proposed_name i) <= MAX_PROPOSED_NAME_UTF16_UNITS) rows ->
  Forall (fun i => zlen (proposed_name i) <= MAX_PROPOSED_NAME_UTF16_UNITS) rows'.
Proof.
  intros Heq H.
  apply (Forall_map proposed_name (fun t => zlen t <= MAX_PROPOSED_NAME_UTF16_UNITS)).
  rewrite Heq. by apply Forall_map.
Qed.
Lemma map_set_parent_names parent rows :
  map proposed_name (map (set_destination_parent parent) rows) = map proposed_name rows.
Proof. by rewrite map_map. Qed.

(** Replacing only parents keeps the invariant when the announced planned
    total is exact and within its budget. *)
Lemma list_ok_new_parents l rows requested :
  list_ok l -> map proposed_name rows = map proposed_name (items l) ->
  requested = planned_of rows -> requested <= MAX_TOTAL_PLANNED_PATH_UTF16_UNITS ->
  list_ok (set_units (proposed_name_utf16_units l) requested (set_items rows l)).
Proof.
  intros [Hu Hp Hum Hpm Hn] Hnames -> Hmax.
  pose proof (units_of_same_names _ _ Hnames) as Hrows.
  split; simpl; rewrite ?Hrows; try assumption; [reflexivity|].
  by eapply names_bound_same_names.
Qed.

Lemma unify_destination_parent_Ok parent l h changed l' h' :
  list_ok l ->
  unify_destination_parent_changed parent (l, h) = (Ok changed, (l', h')) ->
  zlen (normalize_parent parent) <= MAX_DESTINATION_PARENT_UTF16_UNITS /\
  items l' = map (set_destination_parent (normalize_parent parent)) (items l) /\
  changed = rows_with_other_parent (normalize_parent parent) 0 (items l) /\
  list_ok l' /\ binding l' = binding l.
Proof.
  intros Hok H. unfold unify_destination_parent_changed in H. cmd_step H.
  pose proof (normalize_parent_announced parent) as [Hlen Hsep].
  assert (forall t, t = take (normalized_destination_parent_len parent).1 parent ->
    (if (normalized_destination_parent_len parent).2
     then <[(length t - 1)%nat := BACKSLASH]> t else t) = normalize_parent parent) as Hnorm.
  { intros t ->. unfold normalize_parent. by destruct (normalized_destination_parent_len parent). }
  destruct (normalized_destination_parent_len parent) as [n keep] eqn:En. simpl in H, Hlen, Hsep, Hnorm.
  do 3 cmd_step H. destruct (_ <? v1) eqn:Hmax; [done|]. apply Z.ltb_ge in Hmax.
  do 3 cmd_step H. apply SE_ret_Ok in H as [-> [= -> ->]].
  apply SE_bind_Ok in Hm2 as (u & h1 & _ & Hm2). apply SE_ret_Ok in Hm2 as [-> _].
  rewrite (Hnorm (truncate_units parent n) eq_refl). destruct s as [l2 h2], s0 as [l3 h3].
  simpl in *. subst l2 l3.
  apply ok_or_Ok, checked_add_Some in Hm0 as [-> _].
  apply ok_or_Ok in Hm1. apply bind_Some in Hm1 as (units & Hmul & Hadd).
  apply checked_mul_Some in Hmul as [-> _]. apply checked_add_Some in Hadd as [-> _].
  split_and!; try done.
  - unfold validate_destination_parent_units in Hm.
    destruct (_ <? Z.of_nat n) eqn:Hv; [done|]. apply Z.ltb_ge in Hv. lia.
  - apply list_ok_new_parents; [done|apply map_set_parent_names| |done].
    rewrite planned_of_set_parent, Hlen, Hsep. destruct Hok as [-> _ _ _ _]. reflexivity.
Qed.

Lemma unify_destination_parent_atomic parent : atomic (unify_destination_parent_changed parent).
Proof. unfold unify_destination_parent_changed. solve_atomic. Qed.

(** The row with its source folder as destination. *)
Definition reset_parent (i : LegacyListItem) : LegacyListItem :=
  set_destination_parent (source_parent_units (source_path i)) i.

Lemma sum_source_planned_units_Ok total rows requested :
  sum_source_planned_units total rows = Ok requested ->
  requested = total + planned_of (map reset_parent rows).
Proof.
  revert total. induction rows as [|i rows IH]; intros total; simpl; [intros [= ->]; lia|].
  intros (u & Hu & (t & Ht & H)%result_bind_Ok)%result_bind_Ok. apply IH in H.
  apply ok_or_Ok, checked_planned_path_units_Some in Hu as [-> _]; [|apply zlen_nonneg].
  apply ok_or_Ok, checked_add_Some in Ht as [-> _].
  rewrite zlen_planned_path. simpl. lia.
Qed.

Section reset_facts.
Variable allocate_parent : list Z -> SE heap DestinationParentMutationError LegacyText.
(** The allocator copies the units it is given. *)
Hypothesis allocates_copy : forall units h t h', allocate_parent units h = (Ok t, h') -> t = units.

Lemma stage_parents_Ok shared row aggregate rows h staged changed h' :
  stage_parents allocate_parent shared row aggregate rows h = (Ok (staged, changed), h') ->
  staged = map (fun i => source_parent_units (source_path i)) rows /\
  Forall (fun i => zlen (source_parent_units (source_path i)) <= MAX_DESTINATION_PARENT_UTF16_UNITS)
    rows.
Proof.
  revert shared row aggregate h staged changed h'.
  induction rows as [|i rows IH]; intros shared row aggregate h staged changed h' H; simpl in H.
  { apply SE_ret_Ok in H as [[= -> ->] _]. by split. }
  apply SE_bind_Ok in H as ([] & h1 & [Hv ->]%SE_lift_Ok & H).
  apply SE_bind_Ok in H as ([[parent shared'] aggregate'] & h2 & Hp & H).
  apply SE_bind_Ok in H as ([staged' changed'] & h3 & Hrec & H).
  apply SE_ret_Ok in H as [[= -> ->] _]. apply IH in Hrec as [-> Hall].
  assert (parent = source_parent_units (source_path i)) as ->.
  { destruct (existsb _ shared); [by apply SE_ret_Ok in Hp as [[= -> _ _] _]|].
    apply SE_bind_Ok in Hp as (a & h4 & _ & Hp). destruct (_ <? a); [done|].
    apply SE_bind_Ok in Hp as (t & h5 & Ht & Hp). apply SE_ret_Ok in Hp as [[= -> _ _] _].
    by apply allocates_copy in Ht. }
  split; [done|]. constructor; [|done].
  unfold validate_destination_parent_units in Hv.
  destruct (_ <? zlen _) eqn:Hz; [done|]. by apply Z.ltb_ge in Hz.
Qed.

Lemma zip_reset rows :
  zip_with set_destination_parent (map (fun i => source_parent_units (source_path i)) rows) rows =
  map reset_parent rows.
Proof. induction rows as [|i rows IH]; simpl; [done|]. by rewrite IH. Qed.

Lemma reset_destination_parents_by_Ok l h changed l' h' :
  list_ok l ->
  reset_destination_parents_by allocate_parent (l, h) = (Ok changed, (l', h')) ->
  items l' = map reset_parent (items l) /\ list_ok l' /\ binding l' = binding l.
Proof.
  intros Hok H. unfold reset_destination_parents_by in H. do 2 cmd_step H.
  destruct (_ <? v) eqn:Hmax; [done|]. apply Z.ltb_ge in Hmax.
  do 4 cmd_step H. destruct v3 as [staged changed']. cmd_step H.
  apply SE_ret_Ok in H as [-> [= -> ->]]. apply stage_parents_Ok in Hm3 as [-> _].
  simpl in *. rewrite zip_reset. split_and!; try done.
  apply list_ok_new_parents; [done| | |done].
  - by rewrite map_map.
  - by apply sum_source_planned_units_Ok in Hm.
Qed.
End reset_facts.

Lemma reset_destination_parents_atomic allocate_parent :
  atomic (reset_destination_parents_by allocate_parent).
Proof. unfold reset_destination_parents_by. solve_atomic. Qed.

Lemma clone_copies units h t h' :
  try_clone_destination_parent_units units h = (Ok t, h') -> t = units.
Proof.
  unfold try_clone_destination_parent_units. intros H.
  apply SE_bind_Ok in H as (u & h1 & _ & H). by apply SE_ret_Ok in H as [-> _].
Qed.
