(* ===== verification/Transforms.v ===== *)
(** * Transforms: the proposal commands of the workbench

    Every command of [LegacyList] that rewrites proposed names
    ([crates/darknamer-core/src/lib.rs]): replacement, prefixes and suffixes,
    deletions, digit padding, sequence numbers, extensions, parent-folder
    names and text import, with the export commands.  [_changed] commands
    return the changed rows; the others drop them. *)

From S2P Require Import Prelude Collections LegacyText ListItem WorkList.

(** [.map(drop)] on the changed rows. *)
Definition dropping {E A} (m : Cmd E A) : Cmd E unit := m;; mret tt.

Definition row_proposal := nat -> LegacyListItem -> SE heap ProposalMutationError LegacyText.

(** Builds the concatenation of [parts] after announcing its size. *)
Definition build_parts (row : nat) (parts : list LegacyText)
  : SE heap ProposalMutationError LegacyText :=
  requested_units ← SE_lift (checked_sum (map zlen parts));
  try_build_proposal row requested_units (concat parts).

(** ** Reset and replacement *)

Definition reset_proposals_changed : Cmd ProposalMutationError (list nat) :=
  try_changed_proposals (stateless (fun _ item => try_clone_text (current_name item))) tt.
Definition reset_proposals : Cmd ProposalMutationError unit := dropping reset_proposals_changed.

Section replacing.
Variables (row : nat) (source needle replacement : list Z).

(** The measuring loop of [replaced_units]; the slice's length is enough fuel. *)
Fixpoint replaced_size (fuel index : nat) (requested_units : Z) (matched : bool)
  : result ProposalMutationError (Z * bool) :=
  match fuel with
  | O => Ok (requested_units, matched)
  | S fuel =>
      if (index <? length source)%nat then
        '(index', matched', segment_units) ←
          (if starts_with (drop index source) needle then
             _ ← ok_or ArithmeticOverflow (checked_add (Z.of_nat index) (zlen needle));
             Ok ((index + length needle)%nat, true, zlen replacement)
           else
             _ ← ok_or ArithmeticOverflow (checked_add (Z.of_nat index) 1);
             Ok (S index, matched, 1));
        requested ← ok_or ArithmeticOverflow (checked_add requested_units segment_units);
        validate_proposal_units row requested ≫= fun _ =>
        replaced_size fuel index' requested matched'
      else Ok (requested_units, matched)
  end.

(** The filling loop. *)
Fixpoint replaced_fill (fuel index : nat) : list Z :=
  match fuel with
  | O => []
  | S fuel =>
      match source !! index with
      | None => []
      | Some unit =>
          if starts_with (drop index source) needle
          then replacement ++ replaced_fill fuel (index + length needle)
          else unit :: replaced_fill fuel (S index)
      end
  end.

Definition replaced_units : SE heap ProposalMutationError (option LegacyText) :=
  if bool_decide (needle = []) || (zlen source <? zlen needle) then mret None
  else
    '(requested_units, matched) ← SE_lift (replaced_size (length source) 0 0 false);
    if negb matched || bool_decide (needle = replacement) then mret None
    else
      t ← try_build_proposal row requested_units (replaced_fill (length source) 0);
      mret (Some t).
End replacing.

Definition replace_complete_changed (from to : LegacyText) : Cmd ProposalMutationError (list nat) :=
  try_changed_proposals_optional
    (fun _ row item (_ : unit) =>
       o ← replaced_units row (proposed_name item) from to; mret (o, tt)) tt.
Definition replace_complete (from to : LegacyText) : Cmd ProposalMutationError unit :=
  dropping (replace_complete_changed from to).

(** ** Prefixes and suffixes *)

Definition prefix_complete_changed (prefix : LegacyText) : Cmd ProposalMutationError (list nat) :=
  if is_empty prefix then mret []
  else try_changed_proposals (stateless (fun row item =>
         build_parts row [prefix; proposed_name item])) tt.
Definition prefix_complete (prefix : LegacyText) : Cmd ProposalMutationError unit :=
  dropping (prefix_complete_changed prefix).

Definition suffix_before_extension_changed (suffix : LegacyText)
  : Cmd ProposalMutationError (list nat) :=
  if is_empty suffix then mret []
  else try_changed_proposals (stateless (fun row item =>
         let '(stem, extension) := stem_extension_units item in
         build_parts row [stem; suffix; extension])) tt.
Definition suffix_before_extension (suffix : LegacyText) : Cmd ProposalMutationError unit :=
  dropping (suffix_before_extension_changed suffix).

(** ** Deletions: the infallible transforms of the stem *)

(** [proposal] keeps the extension and maps the stem. *)
Definition on_stem (f : list Z -> list Z) (item : LegacyListItem) : LegacyText :=
  let '(stem, extension) := stem_extension_units item in f stem ++ extension.

Definition clear_name_changed : Cmd LegacyInputError (list nat) :=
  changed_proposals (fun item => (stem_extension_units item).2).
Definition clear_name : Cmd LegacyInputError unit := dropping clear_name_changed.

(** [stem.units.drain(start - 1..last)]. *)
Definition drain_front_range (start end_ : nat) (stem : list Z) : list Z :=
  if (start <=? length stem)%nat then
    let last :=
      if (0 <? end_)%nat && (end_ <? length stem)%nat then end_ else length stem in
    take (start - 1) stem ++ drop last stem
  else stem.

Definition delete_front_range_changed (start end_ : nat) : Cmd LegacyInputError (list nat) :=
  if (start =? 0)%nat && (end_ =? 0)%nat then mret []
  else
    let start := (start `max` 1)%nat in
    if (0 <? end_)%nat && (end_ <? start)%nat then SE_throw ReversedPositionRange
    else changed_proposals (on_stem (drain_front_range start end_)).
Definition delete_front_range (start end_ : nat) : Cmd LegacyInputError unit :=
  dropping (delete_front_range_changed start end_).

Definition truncate_last (count : nat) (stem : list Z) : list Z :=
  let count := (count `min` length stem)%nat in take (length stem - count) stem.

Definition delete_last_changed (count : nat) : Cmd LegacyInputError (list nat) :=
  if (count =? 0)%nat then mret []
  else changed_proposals (on_stem (truncate_last count)).
Definition delete_last (count : nat) : Cmd LegacyInputError unit :=
  dropping (delete_last_changed count).

(** Removes the first [start] unit, the first [end_] after it and what is between. *)
Definition drain_delimited (start end_ : Z) (stem : list Z) : list Z :=
  match position (Z.eqb start) stem with
  | None => stem
  | Some start_index =>
      let search_start := S start_index in
      match position (Z.eqb end_) (drop search_start stem) with
      | None => stem
      | Some relative_end =>
          let end_index := (search_start + relative_end)%nat in
          take start_index stem ++ drop (S end_index) stem
      end
  end.

Definition delete_first_delimited_changed (start end_ : LegacyText)
  : Cmd LegacyInputError (list nat) :=
  match head start with
  | None => SE_throw EmptyDelimiter
  | Some start =>
      match head end_ with
      | None => SE_throw EmptyDelimiter
      | Some end_ => changed_proposals (on_stem (drain_delimited start end_))
      end
  end.
Definition delete_first_delimited (start end_ : LegacyText) : Cmd LegacyInputError unit :=
  dropping (delete_first_delimited_changed start end_).

Definition keep_ascii_digits_changed : Cmd LegacyInputError (list nat) :=
  changed_proposals (on_stem (List.filter is_ascii_digit)).
Definition keep_ascii_digits : Cmd LegacyInputError unit := dropping keep_ascii_digits_changed.

Definition delete_extension_changed : Cmd LegacyInputError (list nat) :=
  changed_proposals (fun item => (stem_extension_units item).1).
Definition delete_extension : Cmd LegacyInputError unit := dropping delete_extension_changed.

(** ** Digit padding *)

Definition padded_digit_run_proposal (item : LegacyListItem) (row : nat) (width : Z)
    (find_run : list Z -> option (nat * nat)) : SE heap ProposalMutationError LegacyText :=
  let '(stem, extension) := stem_extension_units item in
  match find_run stem with
  | None => build_parts row [stem; extension]
  | Some (start, end_) =>
      let run_length := Z.of_nat (end_ - start + 1) in
      let padding := saturating_sub width run_length in
      requested_units ← SE_lift (checked_sum [zlen stem; padding; zlen extension]);
      try_build_proposal row requested_units
        (take start stem ++ repeat_n DIGIT_0 padding ++ drop start stem ++ extension)
  end.

Definition pad_digit_run_changed (find_run : list Z -> option (nat * nat)) (width : Z)
  : Cmd ProposalMutationError (list nat) :=
  if width =? 0 then SE_throw (InvalidInput NonPositiveWidth)
  else
    SE_lift (validate_proposal_units 0 width);;
    try_changed_proposals (stateless (fun row item =>
      padded_digit_run_proposal item row width find_run)) tt.

Definition pad_last_digit_run_changed (width : Z) : Cmd ProposalMutationError (list nat) :=
  pad_digit_run_changed last_digit_run width.
Definition pad_last_digit_run (width : Z) : Cmd ProposalMutationError unit :=
  dropping (pad_last_digit_run_changed width).
Definition pad_first_digit_run_changed (width : Z) : Cmd ProposalMutationError (list nat) :=
  pad_digit_run_changed first_digit_run width.
Definition pad_first_digit_run (width : Z) : Cmd ProposalMutationError unit :=
  dropping (pad_first_digit_run_changed width).

(** ** Sequence numbers *)

Inductive LegacySequenceMode : Type :=
| Append | Prepend | AppendRestartPerFolder | PrependRestartPerFolder.

Definition restarts_per_folder (mode : LegacySequenceMode) : bool :=
  match mode with AppendRestartPerFolder | PrependRestartPerFolder => true | _ => false end.
Definition appends (mode : LegacySequenceMode) : bool :=
  match mode with Append | AppendRestartPerFolder => true | _ => false end.

Definition i32_wrapping_add (a b : Z) : Z := (a + b + 2 ^ 31) mod 2 ^ 32 - 2 ^ 31.

(** [to_string] of a machine integer: decimal digits after an optional sign.
    Ten digits hold every [i32], twenty every [u64]. *)
Fixpoint decimal_digits (fuel : nat) (n : Z) : list Z :=
  match fuel with
  | O => []
  | S fuel =>
      (if n <? 10 then [] else decimal_digits fuel (n / 10)) ++ [DIGIT_0 + n mod 10]
  end.
Definition i32_to_string (n : Z) : LegacyText :=
  if n <? 0 then 45 :: decimal_digits 10 (- n) else decimal_digits 10 n.

Section sequence.
(** The parent-path comparator the caller provides. *)
Variable compare_text : LegacyText -> LegacyText -> comparison.

Definition sequence_proposal (width start : Z) (mode : LegacySequenceMode)
    (rows : list LegacyListItem) (row : nat) (item : LegacyListItem) (current : Z)
  : SE heap ProposalMutationError (LegacyText * Z) :=
  let folder_changed :=
    match row with
    | O => false
    | S previous =>
        match rows !! previous with
        | Some before =>
            match compare_text (destination_parent before) (destination_parent item) with
            | Eq => false
            | _ => true
            end
        | None => false
        end
    end in
  let current := if restarts_per_folder mode && folder_changed then start else current in
  let '(stem, extension) := stem_extension_units item in
  let value := i32_to_string current in
  let number_units := Z.max width (zlen value) in
  requested_units ← SE_lift (checked_sum [zlen stem; number_units; zlen extension]);
  proposal ← try_build_proposal row requested_units
    ((if appends mode then stem else [])
     ++ repeat_n DIGIT_0 (number_units - zlen value) ++ value
     ++ (if appends mode then [] else stem) ++ extension);
  mret (proposal, i32_wrapping_add current 1).

Definition add_sequence_by_changed (width start : Z) (mode : LegacySequenceMode)
  : Cmd ProposalMutationError (list nat) :=
  if width =? 0 then SE_throw (InvalidInput NonPositiveWidth)
  else
    SE_lift (validate_proposal_units 0 width);;
    let start := Z.max start 0 in
    try_changed_proposals (sequence_proposal width start mode) start.
Definition add_sequence_by (width start : Z) (mode : LegacySequenceMode)
  : Cmd ProposalMutationError unit :=
  dropping (add_sequence_by_changed width start mode).
End sequence.

Definition add_sequence_changed (to_lowercase : Z -> list Z) :=
  add_sequence_by_changed (case_insensitive_cmp to_lowercase).
Definition add_sequence (to_lowercase : Z -> list Z) :=
  add_sequence_by (case_insensitive_cmp to_lowercase).

(** ** Extensions and parent folders *)

Definition try_normalized_extension (extension : LegacyText)
  : SE heap ProposalMutationError (option LegacyText) :=
  if is_empty extension then mret None
  else if bool_decide (head extension = Some DOT) then
    t ← try_build_proposal 0 (zlen extension) extension; mret (Some t)
  else
    requested_units ← SE_lift (checked_sum [1; zlen extension]);
    t ← try_build_proposal 0 requested_units (DOT :: extension); mret (Some t).

Definition add_extension_changed (extension : LegacyText) : Cmd ProposalMutationError (list nat) :=
  normalized ← on_heap (try_normalized_extension extension);
  match normalized with
  | None => mret []
  | Some extension =>
      try_changed_proposals (stateless (fun row item =>
        build_parts row [proposed_name item; extension])) tt
  end.
Definition add_extension (extension : LegacyText) : Cmd ProposalMutationError unit :=
  dropping (add_extension_changed extension).

Definition replace_extension_changed (extension : LegacyText)
  : Cmd ProposalMutationError (list nat) :=
  normalized ← on_heap (try_normalized_extension extension);
  match normalized with
  | None => mret []
  | Some extension =>
      try_changed_proposals (stateless (fun row item =>
        build_parts row [(stem_extension_units item).1; extension])) tt
  end.
Definition replace_extension (extension : LegacyText) : Cmd ProposalMutationError unit :=
  dropping (replace_extension_changed extension).

Definition prefix_parent_folder_changed : Cmd ProposalMutationError (list nat) :=
  try_changed_proposals (stateless (fun row item =>
    match parent_folder_units (destination_parent item) with
    | Some folder => build_parts row [folder; [UNDERSCORE]; proposed_name item]
    | None => try_build_proposal row (zlen (proposed_name item)) (proposed_name item)
    end)) tt.
Definition prefix_parent_folder : Cmd ProposalMutationError unit :=
  dropping prefix_parent_folder_changed.

Definition suffix_parent_folder_changed : Cmd ProposalMutationError (list nat) :=
  try_changed_proposals (stateless (fun row item =>
    match parent_folder_units (destination_parent item) with
    | Some folder =>
        let '(stem, extension) := stem_extension_units item in
        build_parts row [stem; [UNDERSCORE]; folder; extension]
    | None => try_build_proposal row (zlen (proposed_name item)) (proposed_name item)
    end)) tt.
Definition suffix_parent_folder : Cmd ProposalMutationError unit :=
  dropping suffix_parent_folder_changed.

(** ** Text export and import *)

Definition export_names (l : LegacyList) : LegacyText := export_lines (map proposed_name (items l)).
Definition export_paths (l : LegacyList) : LegacyText := export_lines (map source_path (items l)).

(** The closure of [import_names_changed] owns the remaining lines. *)
Definition import_proposal (_ : list LegacyListItem) (row : nat) (item : LegacyListItem)
    (lines : list (list Z)) : SE heap ProposalMutationError (LegacyText * list (list Z)) :=
  match lines with
  | [] =>
      t ← try_build_proposal row (zlen (proposed_name item)) (proposed_name item);
      mret (t, [])
  | units :: lines' => t ← try_build_proposal row (zlen units) units; mret (t, lines')
  end.

Definition import_names_changed (t : LegacyText) : Cmd ProposalMutationError (list nat) :=
  l ← get_list;
  try_changed_proposals import_proposal
    (take (length (items l)) (trimmed_import_unit_slices t)).
Definition import_names (t : LegacyText) : Cmd ProposalMutationError nat :=
  l ← get_list;
  let count := length (take (length (items l)) (trimmed_import_unit_slices t)) in
  import_names_changed t;;
  mret count.

(** ** The commands as one type *)

Inductive ProposalCommand : Type :=
| ResetProposals
| ReplaceComplete (from to : LegacyText)
| PrefixComplete (prefix : LegacyText)
| SuffixBeforeExtension (suffix : LegacyText)
| ClearName
| DeleteFrontRange (start end_ : nat)
| DeleteLast (count : nat)
| DeleteFirstDelimited (start end_ : LegacyText)
| KeepAsciiDigits
| PadLastDigitRun (width : Z)
| PadFirstDigitRun (width : Z)
| AddSequence (width start : Z) (mode : LegacySequenceMode)
| DeleteExtension
| AddExtension (extension : LegacyText)
| ReplaceExtension (extension : LegacyText)
| PrefixParentFolder
| SuffixParentFolder
| ImportNames (t : LegacyText).

(** [From<LegacyInputError>]. *)
Definition with_input_error {A} (m : Cmd LegacyInputError A) : Cmd ProposalMutationError A :=
  fun s => let '(r, s') := m s in (map_err InvalidInput r, s').

Section run.
Variable compare_text : LegacyText -> LegacyText -> comparison.

Definition run_command (c : ProposalCommand) : Cmd ProposalMutationError (list nat) :=
  match c with
  | ResetProposals => reset_proposals_changed
  | ReplaceComplete from to => replace_complete_changed from to
  | PrefixComplete prefix => prefix_complete_changed prefix
  | SuffixBeforeExtension suffix => suffix_before_extension_changed suffix
  | ClearName => with_input_error clear_name_changed
  | DeleteFrontRange start end_ => with_input_error (delete_front_range_changed start end_)
  | DeleteLast count => with_input_error (delete_last_changed count)
  | DeleteFirstDelimited start end_ =>
      with_input_error (delete_first_delimited_changed start end_)
  | KeepAsciiDigits => with_input_error keep_ascii_digits_changed
  | PadLastDigitRun width => pad_last_digit_run_changed width
  | PadFirstDigitRun width => pad_first_digit_run_changed width
  | AddSequence width start mode => add_sequence_by_changed compare_text width start mode
  | DeleteExtension => with_input_error delete_extension_changed
  | AddExtension extension => add_extension_changed extension
  | ReplaceExtension extension => replace_extension_changed extension
  | PrefixParentFolder => prefix_parent_folder_changed
  | SuffixParentFolder => suffix_parent_folder_changed
  | ImportNames t => import_names_changed t
  end.
End run.

(** ** The contract of a proposal command

    [proposal_step l r l']: only proposed names changed, the cached totals are
    exact and within their budgets, the returned rows are exactly the changed
    ones, append indexes stay bound, and an error changed nothing. *)

Definition same_rows (old new : list LegacyListItem) : Prop :=
  Forall2 (fun i j => j = set_proposed_name (proposed_name j) i) old new.

Definition proposal_step {E} (l : LegacyList) (r : result E (list nat)) (l' : LegacyList) : Prop :=
  list_ok l' /\ same_rows (items l) (items l') /\ binding l' = binding l /\
  match r with
  | Ok rows => rows = differing_rows 0 (items l) (items l')
  | Err _ => l' = l
  end.

Definition meets_contract {E} (m : Cmd E (list nat)) : Prop :=
  forall l h r l' h', list_ok l -> m (l, h) = (r, (l', h')) -> proposal_step l r l'.

Lemma same_rows_refl rows : same_rows rows rows.
Proof. apply Forall_Forall2_diag, Forall_forall. intros i _. by rewrite set_proposed_name_id. Qed.

Lemma differing_rows_refl row rows : differing_rows row rows rows = [].
Proof.
  revert row. induction rows as [|i rows IH]; intros row; simpl; [done|].
  by rewrite bool_decide_true, IH.
Qed.

Lemma proposal_step_same {E} (l : LegacyList) :
  list_ok l -> @proposal_step E l (Ok []) l.
Proof.
  intros Hok. split_and!; [done|apply same_rows_refl|done|by rewrite differing_rows_refl].
Qed.
Lemma proposal_step_error {E} (e : E) (l : LegacyList) :
  list_ok l -> proposal_step l (Err e) l.
Proof. intros Hok. split_and!; [done|apply same_rows_refl|done|done]. Qed.

Lemma contract_nothing {E} : meets_contract (mret [] : Cmd E (list nat)).
Proof. intros l h r l' h' Hok [= <- <- <-]. by apply proposal_step_same. Qed.
Lemma contract_throw {E} (e : E) : meets_contract (SE_throw e).
Proof. intros l h r l' h' Hok [= <- <- <-]. by apply proposal_step_error. Qed.

Lemma contract_bind {E A} (m : Cmd E A) f :
  reads m -> (forall a, meets_contract (f a)) -> meets_contract (m ≫= f).
Proof.
  intros Hm Hf l h r l' h' Hok. unfold mbind, SE_bind.
  destruct (m (l, h)) as [[a|e] [l1 h1]] eqn:Hs; apply Hm in Hs; simpl in Hs; subst l1.
  - by apply Hf.
  - intros [= <- <- <-]. by apply proposal_step_error.
Qed.

Lemma same_rows_apply_next rows nexts :
  length nexts = length rows -> same_rows rows (zip_with apply_next rows nexts).
Proof.
  revert nexts. induction rows as [|i rows IH]; intros [|n nexts] Hlen; try done.
  - constructor.
  - constructor; [by destruct n as [t|]; simpl; rewrite ?set_proposed_name_id|].
    apply IH. by injection Hlen.
Qed.

Lemma contract_optional {C} proposal (c : C) :
  meets_contract (try_changed_proposals_optional proposal c).
Proof.
  intros l h [rows|e] l' h' Hok H.
  - apply try_changed_optional_Ok in H as (Hok' & Hid & Hrev & Hrows & nexts & Hrun & Hi).
    split_and!; [done| |by unfold binding; congruence|done].
    rewrite Hi. apply same_rows_apply_next. by eapply proposals_run_length.
  - apply try_changed_optional_atomic in H as ->. by apply proposal_step_error.
Qed.
Lemma contract_always {C} proposal (c : C) : meets_contract (try_changed_proposals proposal c).
Proof. apply contract_optional. Qed.

Lemma contract_shrinking {E} proposal :
  shrinking proposal -> meets_contract (@changed_proposals E proposal).
Proof.
  intros Hs l h r l' h' Hok H.
  destruct (changed_proposals_spec (E:=E) proposal Hs l h Hok)
    as (l2 & H2 & Hok' & Hi & Hid & Hrev).
  rewrite H in H2. injection H2 as -> -> ->.
  split_and!; [done| |unfold binding; congruence|done].
  rewrite Hi. apply Forall2_fmap_r, Forall_Forall2_diag, Forall_forall. done.
Qed.

Lemma contract_input {m : Cmd LegacyInputError (list nat)} :
  meets_contract m -> meets_contract (with_input_error m).
Proof.
  intros Hm l h r l' h' Hok. unfold with_input_error.
  destruct (m (l, h)) as [r0 [l1 h1]] eqn:Hs. intros [= <- <- <-].
  pose proof (Hm _ _ _ _ _ Hok Hs) as (? & ? & ? & ?).
  split_and!; [done..|]. by destruct r0.
Qed.

(** ** The transforms of the stem shrink it *)

Create HintDb transforms.

Lemma on_stem_shrinking f : (forall stem, zlen (f stem) <= zlen stem) -> shrinking (on_stem f).
Proof.
  intros Hf i. unfold on_stem. pose proof (stem_extension_length i) as H.
  destruct (stem_extension_units i) as [stem extension]. rewrite zlen_app.
  specialize (Hf stem). simpl in H. lia.
Qed.
Lemma extension_shrinking : shrinking (fun item => (stem_extension_units item).2).
Proof.
  intros i. pose proof (stem_extension_length i). pose proof (zlen_nonneg (stem_extension_units i).1).
  lia.
Qed.
Lemma stem_shrinking : shrinking (fun item => (stem_extension_units item).1).
Proof.
  intros i. pose proof (stem_extension_length i). pose proof (zlen_nonneg (stem_extension_units i).2).
  lia.
Qed.

Lemma drain_front_range_le start end_ stem :
  (1 <= start)%nat -> (end_ = 0 \/ start <= end_)%nat ->
  zlen (drain_front_range start end_ stem) <= zlen stem.
Proof.
  intros Hs He. unfold drain_front_range, zlen. case_match eqn:Hl; [|lia].
  apply Nat.leb_le in Hl. rewrite length_app, length_take, length_drop.
  destruct (_ && _) eqn:Hb; [|lia].
  apply andb_true_iff in Hb as [?%Nat.ltb_lt ?%Nat.ltb_lt]. lia.
Qed.
Lemma truncate_last_le count stem : zlen (truncate_last count stem) <= zlen stem.
Proof. unfold truncate_last, zlen. rewrite length_take. lia. Qed.
Lemma drain_delimited_le start end_ stem : zlen (drain_delimited start end_ stem) <= zlen stem.
Proof.
  unfold drain_delimited, zlen. destruct (position _ stem) as [i|]; [|done].
  destruct (position _ _) as [j|]; [|done]. rewrite length_app, length_take, length_drop. lia.
Qed.
Lemma keep_digits_le stem : zlen (List.filter is_ascii_digit stem) <= zlen stem.
Proof. unfold zlen. pose proof (filter_length_le is_ascii_digit stem). lia. Qed.

#[export] Hint Resolve contract_nothing contract_throw contract_optional contract_always
  contract_shrinking contract_input on_stem_shrinking extension_shrinking stem_shrinking
  truncate_last_le drain_delimited_le keep_digits_le : transforms.

Ltac solve_contract :=
  repeat first
    [ solve [eauto with transforms]
    | apply contract_input
    | apply contract_bind; [solve [eauto with cmd]|intros ?]
    | case_match ].

Lemma delete_front_range_contract start end_ : meets_contract (delete_front_range_changed start end_).
Proof.
  unfold delete_front_range_changed. destruct (_ && _); [auto with transforms|].
  destruct (_ && _) eqn:Hb; [auto with transforms|].
  apply contract_shrinking, on_stem_shrinking. intros stem.
  apply drain_front_range_le; [lia|].
  apply andb_false_iff in Hb as [?%Nat.ltb_ge|?%Nat.ltb_ge]; lia.
Qed.
#[export] Hint Resolve delete_front_range_contract : transforms.

Lemma run_command_contract compare_text c : meets_contract (run_command compare_text c).
Proof.
  destruct c; simpl;
    unfold reset_proposals_changed, replace_complete_changed, prefix_complete_changed,
      suffix_before_extension_changed, clear_name_changed, delete_last_changed,
      delete_first_delimited_changed, keep_ascii_digits_changed, pad_last_digit_run_changed,
      pad_first_digit_run_changed, pad_digit_run_changed, add_sequence_by_changed,
      delete_extension_changed, add_extension_changed, replace_extension_changed,
      prefix_parent_folder_changed, suffix_parent_folder_changed, import_names_changed;
    solve_contract.
Qed.

(** ** What each command writes: a reference for every row *)

(** Leftmost, non-overlapping replacement. *)
Inductive replaces (needle replacement : list Z) : list Z -> list Z -> Prop :=
| replaces_nil : replaces needle replacement [] []
| replaces_match source out :
    replaces needle replacement source out ->
    replaces needle replacement (needle ++ source) (replacement ++ out)
| replaces_skip unit source out :
    starts_with (unit :: source) needle = false ->
    replaces needle replacement source out ->
    replaces needle replacement (unit :: source) (unit :: out).

Definition normalized_extension (extension : LegacyText) : LegacyText :=
  match extension with
  | [] => []
  | u :: _ => if u =? DOT then extension else DOT :: extension
  end.

Definition with_run_padded (width : Z) (find_run : list Z -> option (nat * nat)) (stem : list Z)
  : list Z :=
  match find_run stem with
  | None => stem
  | Some (start, end_) =>
      take start stem ++ repeat_n DIGIT_0 (Z.max (width - Z.of_nat (end_ - start + 1)) 0)
        ++ drop start stem
  end.

Section reference.
Variable compare_text : LegacyText -> LegacyText -> comparison.
Variable rows : list LegacyListItem.

Definition other_folder (previous row : nat) : bool :=
  match rows !! previous, rows !! row with
  | Some before, Some item =>
      match compare_text (destination_parent before) (destination_parent item) with
      | Eq => false
      | _ => true
      end
  | _, _ => false
  end.

(** The number given to a row. *)
Fixpoint sequence_value (start : Z) (restarts : bool) (row : nat) : Z :=
  match row with
  | O => start
  | S previous =>
      if restarts && other_folder previous (S previous) then start
      else i32_wrapping_add (sequence_value start restarts previous) 1
  end.

Definition numbered_name (width start : Z) (mode : LegacySequenceMode) (row : nat)
    (item : LegacyListItem) : LegacyText :=
  let '(stem, extension) := stem_extension_units item in
  let value := i32_to_string (sequence_value (Z.max start 0) (restarts_per_folder mode) row) in
  let number := repeat_n DIGIT_0 (Z.max (width - zlen value) 0) ++ value in
  (if appends mode then stem ++ number else number ++ stem) ++ extension.

Definition writes (c : ProposalCommand) (row : nat) (item : LegacyListItem) (next : LegacyText)
  : Prop :=
  let name := proposed_name item in
  let '(stem, extension) := stem_extension_units item in
  match c with
  | ResetProposals => next = current_name item
  | ReplaceComplete from to =>
      (from = [] /\ next = name) \/ (from <> [] /\ replaces from to name next)
  | PrefixComplete prefix => next = prefix ++ name
  | SuffixBeforeExtension [] => next = name
  | SuffixBeforeExtension suffix => next = stem ++ suffix ++ extension
  | ClearName => next = extension
  | DeleteFrontRange start end_ =>
      next = if (start =? 0)%nat && (end_ =? 0)%nat then name
             else drain_front_range (start `max` 1) end_ stem ++ extension
  | DeleteLast count =>
      next = if (count =? 0)%nat then name else take (length stem - count) stem ++ extension
  | DeleteFirstDelimited start end_ =>
      exists s e, head start = Some s /\ head end_ = Some e /\
        next = drain_delimited s e stem ++ extension
  | KeepAsciiDigits => next = List.filter is_ascii_digit stem ++ extension
  | PadLastDigitRun width => next = with_run_padded width last_digit_run stem ++ extension
  | PadFirstDigitRun width => next = with_run_padded width first_digit_run stem ++ extension
  | AddSequence width start mode => next = numbered_name width start mode row item
  | DeleteExtension => next = stem
  | AddExtension ext => next = name ++ normalized_extension ext
  | ReplaceExtension [] => next = name
  | ReplaceExtension ext => next = stem ++ normalized_extension ext
  | PrefixParentFolder =>
      next = match parent_folder_units (destination_parent item) with
             | Some folder => folder ++ [UNDERSCORE] ++ name
             | None => name
             end
  | SuffixParentFolder =>
      next = match parent_folder_units (destination_parent item) with
             | Some folder => stem ++ [UNDERSCORE] ++ folder ++ extension
             | None => name
             end
  | ImportNames t => next = default name (parse_import_lines t !! row)
  end.
End reference.

(** *** From the closures to the rows *)

Lemma try_build_Ok row n fill h t h' : try_build_proposal row n fill h = (Ok t, h') -> t = fill.
Proof.
  unfold try_build_proposal. intros H. apply SE_bind_Ok in H as (u & s & _ & H).
  apply SE_bind_Ok in H as (u' & s' & _ & H). by apply SE_ret_Ok in H as [-> _].
Qed.
Lemma build_parts_Ok row parts h t h' : build_parts row parts h = (Ok t, h') -> t = concat parts.
Proof.
  unfold build_parts. intros H. apply SE_bind_Ok in H as (u & s & _ & H).
  by apply try_build_Ok in H.
Qed.

(** The answers of the closure relate each row to its new name. *)
Lemma run_relates {C} proposal (I : nat -> C -> Prop) (W : nat -> LegacyListItem -> LegacyText -> Prop)
    rows pre rest c nexts :
  rows = pre ++ rest ->
  (forall row item c h next c' h',
     rows !! row = Some item -> I row c ->
     proposal rows row item c h = (Ok (next, c'), h') ->
     I (S row) c' /\ W row item (default (proposed_name item) next)) ->
  I (length pre) c -> proposals_run proposal rows (length pre) c rest nexts ->
  forall i item, rest !! i = Some item ->
    exists next, W (length pre + i)%nat item next /\
      zip_with apply_next rest nexts !! i = Some (set_proposed_name next item).
Proof.
  intros Hrows Hstep. revert pre c nexts Hrows.
  induction rest as [|x rest IH]; intros pre c nexts Hrows HI Hrun i item Hi; [done|].
  inversion Hrun as [|? ? ? ? next c' nexts' h h' Hp Hrest]; subst.
  assert ((pre ++ x :: rest) !! length pre = Some x) as Hx by (by apply list_lookup_middle).
  destruct (Hstep _ _ _ _ _ _ _ Hx HI Hp) as [HI' HW].
  destruct i as [|i]; simpl in *.
  - injection Hi as <-. rewrite Nat.add_0_r. eexists. split; [exact HW|].
    destruct next as [t|]; simpl; [done|]. by rewrite set_proposed_name_id.
  - assert (S (length pre) = length (pre ++ [x])) as Hlen by (rewrite length_app; simpl; lia).
    rewrite Hlen in HI', Hrest.
    destruct (IH (pre ++ [x]) c' nexts' ltac:(by rewrite <-app_assoc) HI' Hrest i item Hi)
      as (next2 & HW2 & Hz).
    exists next2. split; [|done].
    by replace (length pre + S i)%nat with (length (pre ++ [x]) + i)%nat
      by (rewrite length_app; simpl; lia).
Qed.

(** [relates W m]: a successful run gives every row a name related by [W]. *)
Definition relates {E} (W : list LegacyListItem -> nat -> LegacyListItem -> LegacyText -> Prop)
    (m : Cmd E (list nat)) : Prop :=
  forall l h rows l' h', list_ok l -> m (l, h) = (Ok rows, (l', h')) ->
    forall i item, items l !! i = Some item ->
      exists next, W (items l) i item next /\ items l' !! i = Some (set_proposed_name next item).

Lemma relates_optional {C} proposal (I : list LegacyListItem -> nat -> C -> Prop) W (c : C) :
  (forall rows, I rows 0%nat c) ->
  (forall rows row item c h next c' h',
     rows !! row = Some item -> I rows row c ->
     proposal rows row item c h = (Ok (next, c'), h') ->
     I rows (S row) c' /\ W rows row item (default (proposed_name item) next)) ->
  relates W (try_changed_proposals_optional proposal c).
Proof.
  intros H0 Hstep l h rows l' h' Hok H i item Hi.
  apply try_changed_optional_Ok in H as (_ & _ & _ & _ & nexts & Hrun & Heq). rewrite Heq.
  apply (run_relates proposal (I (items l)) (W (items l)) (items l) [] (items l) c nexts);
    [done| |apply H0|done|done].
  intros. by eapply Hstep.
Qed.

Lemma relates_stateless W (p : row_proposal) :
  (forall rows row item h t h', p row item h = (Ok t, h') -> W rows row item t) ->
  relates W (try_changed_proposals (stateless p) tt).
Proof.
  intros Hp. unfold try_changed_proposals.
  apply (relates_optional _ (fun _ _ _ => True)); [done|].
  intros rows row item c h next c' h' _ _ H.
  apply SE_bind_Ok in H as ([t u] & s & Ht & H). apply SE_ret_Ok in H as [[= -> ->] ->].
  unfold stateless in Ht. apply SE_bind_Ok in Ht as (t' & s' & Ht & H).
  apply SE_ret_Ok in H as [[= -> ->] ->]. split; [done|]. by eapply Hp.
Qed.

Lemma relates_shrinking {E} W proposal :
  shrinking proposal -> (forall rows row item, W rows row item (proposal item)) ->
  relates W (@changed_proposals E proposal).
Proof.
  intros Hs HW l h rows l' h' Hok H i item Hi.
  destruct (changed_proposals_spec (E:=E) proposal Hs l h Hok) as (l2 & H2 & _ & Heq & _).
  rewrite H in H2. injection H2 as -> -> ->. exists (proposal item). split; [apply HW|].
  by rewrite Heq, list_lookup_fmap, Hi.
Qed.

Lemma relates_nothing {E} (W : list LegacyListItem -> nat -> LegacyListItem -> LegacyText -> Prop) :
  (forall rows row item, W rows row item (proposed_name item)) ->
  relates W (mret [] : Cmd E (list nat)).
Proof.
  intros HW l h rows l' h' Hok [= <- <- <-] i item Hi. exists (proposed_name item).
  split; [apply HW|]. by rewrite set_proposed_name_id.
Qed.
Lemma relates_throw {E} W (e : E) : relates W (SE_throw e).
Proof. by intros l h rows l' h' Hok H. Qed.
Lemma relates_input W (m : Cmd LegacyInputError (list nat)) :
  relates W m -> relates W (with_input_error m).
Proof.
  intros Hm l h rows l' h' Hok. unfold with_input_error.
  destruct (m (l, h)) as [[r0|e] s1] eqn:Hs; intros [= -> ->]. by eapply Hm.
Qed.
Lemma relates_lift {E A} W (r : result E A) f :
  (forall a, relates W (f a)) -> relates W (SE_lift r ≫= f).
Proof.
  intros Hf l h rows l' h' Hok. unfold mbind, SE_bind, SE_lift.
  destruct r as [a|e]; [apply Hf; done|done].
Qed.

(** *** Replacement *)

Section replacing_facts.
Context (row : nat) (source needle replacement : list Z) (Hneedle : needle <> []).

Lemma needle_nonempty : (0 < length needle)%nat.
Proof. destruct needle; [done|simpl; lia]. Qed.

Lemma drop_match index :
  starts_with (drop index source) needle = true ->
  drop index source = needle ++ drop (index + length needle) source.
Proof. intros H%starts_with_spec. by rewrite drop_drop in H. Qed.

(** The filling loop performs the replacement: enough fuel gives the result. *)
Lemma replaced_fill_replaces fuel index :
  (length source - index <= fuel)%nat ->
  replaces needle replacement (drop index source)
    (replaced_fill source needle replacement fuel index).
Proof.
  pose proof needle_nonempty. revert index. induction fuel as [|fuel IH]; intros index Hf; simpl.
  { rewrite drop_ge by lia. constructor. }
  destruct (source !! index) as [u|] eqn:Hu.
  2: { apply lookup_ge_None in Hu. rewrite drop_ge by lia. constructor. }
  apply lookup_lt_Some in Hu as Hlt.
  destruct (starts_with _ _) eqn:Hs.
  - rewrite (drop_match index Hs). constructor. apply IH. lia.
  - rewrite (drop_S _ _ _ Hu) in Hs |- *. constructor; [done|]. apply IH. lia.
Qed.

(** The measuring loop announces exactly the units the filling loop writes,
    and [matched] is false only when the text is unchanged. *)
Lemma replaced_size_fill fuel index requested matched n m :
  replaced_size row source needle replacement fuel index requested matched = Ok (n, m) ->
  (length source - index <= fuel)%nat ->
  n = requested + zlen (replaced_fill source needle replacement fuel index) /\
  (m = false -> matched = false /\
     replaced_fill source needle replacement fuel index = drop index source).
Proof.
  pose proof needle_nonempty. revert index requested matched.
  induction fuel as [|fuel IH]; intros index requested matched; cbn [replaced_size replaced_fill].
  { intros [= <- <-] Hf. change (zlen (@nil Z)) with 0. rewrite drop_ge by lia. split; [lia|auto]. }
  destruct (Nat.ltb_spec index (length source)) as [Hlt|Hge].
  2: { intros [= <- <-] Hf. rewrite (proj2 (lookup_ge_None _ _)), drop_ge by lia.
       change (zlen (@nil Z)) with 0. split; [lia|auto]. }
  destruct (lookup_lt_is_Some_2 source index Hlt) as [u Hu]. rewrite Hu.
  destruct (starts_with _ _) eqn:Hs.
  - intros ([[index' m'] seg] & Hstep & H1)%result_bind_Ok Hf.
    apply result_bind_Ok in Hstep as (i2 & _ & [= <- <- <-]).
    apply result_bind_Ok in H1 as (req' & Hreq & H1).
    apply result_bind_Ok in H1 as ([] & _ & H1).
    apply ok_or_Ok, checked_add_Some in Hreq as [-> _].
    apply IH in H1 as [-> Hm]; [|lia]. rewrite zlen_app. split; [lia|].
    intros ->. by destruct (Hm eq_refl).
  - intros ([[index' m'] seg] & Hstep & H1)%result_bind_Ok Hf.
    apply result_bind_Ok in Hstep as (i2 & _ & [= <- <- <-]).
    apply result_bind_Ok in H1 as (req' & Hreq & H1).
    apply result_bind_Ok in H1 as ([] & _ & H1).
    apply ok_or_Ok, checked_add_Some in Hreq as [-> _].
    apply IH in H1 as [-> Hm]; [|lia]. rewrite zlen_cons. split; [lia|].
    intros ->. destruct (Hm eq_refl) as [-> ->]. by rewrite (drop_S _ _ _ Hu).
Qed.

Lemma replaces_self out : replaces needle needle source out -> out = source.
Proof using Type. induction 1; congruence. Qed.

Lemma replaces_too_short : zlen source < zlen needle -> replaces needle replacement source source.
Proof using Type.
  unfold zlen. induction source as [|u s IH]; intros Hlen; constructor; [|apply IH; simpl in *; lia].
  destruct (starts_with (u :: s) needle) eqn:Hs; [|done].
  apply starts_with_spec, (f_equal length) in Hs.
  rewrite length_app, length_drop in Hs. simpl in *. lia.
Qed.

Lemma replaced_units_Ok h o h' :
  replaced_units row source needle replacement h = (Ok o, h') ->
  replaces needle replacement source (default source o).
Proof.
  unfold replaced_units. rewrite bool_decide_false by done. simpl.
  destruct (zlen source <? zlen needle) eqn:Hlen.
  { intros [-> _]%SE_ret_Ok. apply replaces_too_short. by apply Z.ltb_lt. }
  intros ([n m] & s & [Hsize ->]%SE_lift_Ok & H)%SE_bind_Ok.
  apply replaced_size_fill in Hsize as [_ Hm]; [|lia].
  pose proof (replaced_fill_replaces (length source) 0 ltac:(lia)) as Hfill.
  rewrite drop_0 in Hfill, Hm.
  destruct (negb m || bool_decide (needle = replacement)) eqn:Hskip.
  - apply SE_ret_Ok in H as [-> _]. simpl. apply orb_true_iff in Hskip as [Hno|Heq].
    + apply negb_true_iff in Hno. destruct (Hm Hno) as [_ Heq]. by rewrite Heq in Hfill.
    + apply bool_decide_eq_true in Heq. subst replacement.
      pose proof (replaces_self _ Hfill) as Heq. by rewrite Heq in Hfill.
  - apply SE_bind_Ok in H as (t & s & Ht & H). apply SE_ret_Ok in H as [-> _].
    by apply try_build_Ok in Ht as ->.
Qed.
End replacing_facts.

(** Replacement has one result. *)
Lemma replaces_functional needle replacement source o1 o2 :
  needle <> [] -> replaces needle replacement source o1 -> replaces needle replacement source o2 ->
  o1 = o2.
Proof.
  intros Hn H1. revert o2. induction H1 as [|s o H1 IH|u s o Hs H1 IH]; intros o2 H2.
  - inversion H2 as [|s2 o2' H2' Heq|]; subst; [done|]. by destruct needle.
  - inversion H2 as [Heq|s2 o2' H2' Heq|u s2 o2' Hs H2' Heq]; subst.
    + by destruct needle.
    + apply app_inv_head in Heq as ->. f_equal. by apply IH.
    + rewrite Heq, starts_with_app in Hs. done.
  - inversion H2 as [|s2 o2' H2' Heq|u' s2 o2' Hs' H2' Heq]; subst.
    + by rewrite <-Heq, starts_with_app in Hs.
    + f_equal. by apply IH.
Qed.

(** *** Sequences, extensions and imported lines *)

Lemma sequence_proposal_Ok compare_text width start mode rows row item current h next c' h' :
  0 <= width ->
  rows !! row = Some item ->
  current = match row with
            | O => Z.max start 0
            | S p => i32_wrapping_add
                       (sequence_value compare_text rows (Z.max start 0)
                          (restarts_per_folder mode) p) 1
            end ->
  sequence_proposal compare_text width (Z.max start 0) mode rows row item current h =
    (Ok (next, c'), h') ->
  c' = i32_wrapping_add (sequence_value compare_text rows (Z.max start 0)
                           (restarts_per_folder mode) row) 1 /\
  next = numbered_name compare_text rows width start mode row item.
Proof.
  intros Hw Hi Hc H. unfold sequence_proposal in H. cbv zeta in H.
  set (now := if restarts_per_folder mode && _ then _ else _) in H.
  assert (now = sequence_value compare_text rows (Z.max start 0) (restarts_per_folder mode) row)
    as Hnow.
  { unfold now. destruct row as [|p]; simpl; [by rewrite andb_false_r|].
    unfold other_folder. rewrite Hi. destruct (rows !! p); [|by rewrite Hc].
    by rewrite Hc. }
  unfold numbered_name. rewrite <-Hnow.
  destruct (stem_extension_units item) as [stem extension].
  apply SE_bind_Ok in H as (n & s & _ & H). apply SE_bind_Ok in H as (t & s' & Ht & H).
  apply SE_ret_Ok in H as [[= -> ->] _]. split; [done|].
  apply try_build_Ok in Ht as ->.
  pose proof (zlen_nonneg (i32_to_string now)).
  replace (Z.max width (zlen (i32_to_string now)) - zlen (i32_to_string now))
    with (Z.max (width - zlen (i32_to_string now)) 0) by lia.
  destruct (appends mode); simpl; by rewrite <-!app_assoc.
Qed.

Lemma try_normalized_extension_Ok ext h o h' :
  try_normalized_extension ext h = (Ok o, h') ->
  match o with
  | None => ext = []
  | Some t => ext <> [] /\ t = normalized_extension ext
  end.
Proof.
  unfold try_normalized_extension, normalized_extension, is_empty. destruct ext as [|u ext]; simpl.
  { by intros [-> _]%SE_ret_Ok. }
  destruct (Z.eqb_spec u DOT) as [->|Hne].
  - rewrite bool_decide_true by done.
    intros (t & s & ->%try_build_Ok & [-> _]%SE_ret_Ok)%SE_bind_Ok. done.
  - rewrite bool_decide_false by congruence.
    intros (n & s & _ & (t & s' & ->%try_build_Ok & [-> _]%SE_ret_Ok)%SE_bind_Ok)%SE_bind_Ok.
    done.
Qed.

Lemma import_proposal_Ok rows row item lines h next lines' h' :
  import_proposal rows row item lines h = (Ok (next, lines'), h') ->
  lines' = tail lines /\ next = default (proposed_name item) (head lines).
Proof.
  unfold import_proposal. destruct lines as [|units lines].
  - by intros (t & s & ->%try_build_Ok & [[= -> ->] _]%SE_ret_Ok)%SE_bind_Ok.
  - by intros (t & s & ->%try_build_Ok & [[= -> ->] _]%SE_ret_Ok)%SE_bind_Ok.
Qed.

Lemma padded_proposal_Ok item row width find_run h t h' :
  padded_digit_run_proposal item row width find_run h = (Ok t, h') ->
  t = with_run_padded width find_run (stem_extension_units item).1 ++ (stem_extension_units item).2.
Proof.
  unfold padded_digit_run_proposal, with_run_padded.
  destruct (stem_extension_units item) as [stem extension]. simpl.
  destruct (find_run stem) as [[start end_]|].
  - intros (n & s & _ & ->%try_build_Ok)%SE_bind_Ok. unfold saturating_sub.
    by rewrite <-!app_assoc.
  - intros ->%build_parts_Ok. simpl. by rewrite app_nil_r.
Qed.

(** *** Every command writes its reference *)

Lemma on_stem_fst_snd f item :
  on_stem f item = f (stem_extension_units item).1 ++ (stem_extension_units item).2.
Proof. unfold on_stem. by destruct (stem_extension_units item). Qed.

Lemma writes_replace compare_text from to :
  relates (fun rows => writes compare_text rows (ReplaceComplete from to))
    (replace_complete_changed from to).
Proof.
  unfold replace_complete_changed.
  apply (relates_optional _ (fun _ _ _ => True)); [done|].
  intros rows row item [] h next [] h' _ _ H. split; [done|].
  apply SE_bind_Ok in H as (o & s & Ho & H). apply SE_ret_Ok in H as [[= ->] _].
  unfold writes. destruct (stem_extension_units item).
  destruct (decide (from = [])) as [->|Hne]; [left|right].
  - unfold replaced_units in Ho. simpl in Ho. apply SE_ret_Ok in Ho as [-> _]. done.
  - split; [done|]. by eapply replaced_units_Ok.
Qed.

Lemma writes_sequence compare_text width start mode :
  0 <= width ->
  relates (fun rows => writes compare_text rows (AddSequence width start mode))
    (add_sequence_by_changed compare_text width start mode).
Proof.
  intros Hw. unfold add_sequence_by_changed. destruct (width =? 0); [apply relates_throw|].
  apply relates_lift. intros []. unfold try_changed_proposals.
  apply (relates_optional _ (fun rows row current =>
    current = match row with
              | O => Z.max start 0
              | S p => i32_wrapping_add
                         (sequence_value compare_text rows (Z.max start 0)
                            (restarts_per_folder mode) p) 1
              end)); [done|].
  intros rows row item current h next c' h' Hi HI H.
  apply SE_bind_Ok in H as ([t c2] & s & Hp & H). apply SE_ret_Ok in H as [[= -> ->] _].
  destruct (sequence_proposal_Ok _ _ _ _ _ _ _ _ _ _ _ _ Hw Hi HI Hp) as [-> ->].
  split; [done|]. simpl. unfold writes. by destruct (stem_extension_units item).
Qed.

Lemma head_drop {A} (l : list A) n : head (drop n l) = l !! n.
Proof. by rewrite head_lookup, lookup_drop, Nat.add_0_r. Qed.
Lemma tail_drop {A} (l : list A) n : tail (drop n l) = drop (S n) l.
Proof. revert l. induction n as [|n IH]; intros [|x l]; try done. apply IH. Qed.

Lemma writes_import compare_text t :
  relates (fun rows => writes compare_text rows (ImportNames t)) (import_names_changed t).
Proof.
  unfold import_names_changed. intros l h rows l' h' Hok H.
  rewrite (SE_bind_step _ _ _ l (l, h)) in H by reflexivity. intros i item Hi.
  unfold try_changed_proposals in H.
  set (lines := take (length (items l)) (trimmed_import_unit_slices t)) in H.
  assert (lines !! i = parse_import_lines t !! i) as Hline.
  { apply lookup_lt_Some in Hi. unfold lines, parse_import_lines. by rewrite lookup_take_lt. }
  assert (exists next, next = default (proposed_name item) (lines !! i) /\
     items l' !! i = Some (set_proposed_name next item)) as (next & -> & Heq).
  { assert (relates (fun _ row item next => next = default (proposed_name item) (lines !! row))
      (try_changed_proposals import_proposal lines)) as Hrel; [|by eapply Hrel].
    apply (relates_optional _ (fun _ row c => c = drop row lines)); [done|].
    intros rs row it c h2 next c' h3 _ -> Hp.
    apply SE_bind_Ok in Hp as ([t' c2] & s & Hp & Hr). apply SE_ret_Ok in Hr as [[= -> ->] _].
    apply import_proposal_Ok in Hp as [-> ->]. simpl. by rewrite tail_drop, head_drop. }
  eexists. split; [|exact Heq]. unfold writes. destruct (stem_extension_units item).
  by rewrite Hline.
Qed.

Lemma writes_pad compare_text width find_run c :
  (forall rows row item, writes compare_text rows c row item
     (with_run_padded width find_run (stem_extension_units item).1 ++
      (stem_extension_units item).2)) ->
  relates (fun rows => writes compare_text rows c) (pad_digit_run_changed find_run width).
Proof.
  intros Hw. unfold pad_digit_run_changed. destruct (width =? 0); [apply relates_throw|].
  apply relates_lift. intros []. apply relates_stateless.
  intros rows row item h t h' ->%padded_proposal_Ok. apply Hw.
Qed.

Lemma writes_extension compare_text ext c (k : LegacyText -> row_proposal) :
  (forall rows row item, ext = [] -> writes compare_text rows c row item (proposed_name item)) ->
  (forall rows row item h t h', ext <> [] -> k (normalized_extension ext) row item h = (Ok t, h') ->
     writes compare_text rows c row item t) ->
  relates (fun rows => writes compare_text rows c)
    (normalized ← on_heap (try_normalized_extension ext);
     match normalized with
     | None => mret []
     | Some extension => try_changed_proposals (stateless (k extension)) tt
     end).
Proof.
  intros H0 H1 l h rows l' h' Hok H. cmd_step H. destruct s as [l1 h1]. simpl in *. subst l1.
  apply try_normalized_extension_Ok in Hm. destruct v as [e|].
  - destruct Hm as [Hne ->].
    apply (relates_stateless (fun rows => writes compare_text rows c)) in H; [done| |done].
    intros. by eapply H1.
  - apply (relates_nothing (fun rows => writes compare_text rows c)) in H; auto.
Qed.

Ltac unfold_writes := intros; unfold writes; destruct (stem_extension_units _).

Lemma writes_stem_command compare_text c f :
  (forall stem, zlen (f stem) <= zlen stem) ->
  (forall rows row item, writes compare_text rows c row item
     (f (stem_extension_units item).1 ++ (stem_extension_units item).2)) ->
  relates (fun rows => writes compare_text rows c)
    (with_input_error (changed_proposals (on_stem f))).
Proof.
  intros Hf Hw. apply relates_input, relates_shrinking; [by apply on_stem_shrinking|].
  intros. rewrite on_stem_fst_snd. apply Hw.
Qed.

Definition width_ok (c : ProposalCommand) : Prop :=
  match c with AddSequence width _ _ => 0 <= width | _ => True end.

Lemma writes_deletion compare_text c :
  match c with
  | ClearName | DeleteFrontRange _ _ | DeleteLast _ | DeleteFirstDelimited _ _
  | KeepAsciiDigits | DeleteExtension => True
  | _ => False
  end ->
  relates (fun rows => writes compare_text rows c) (run_command compare_text c).
Proof.
  destruct c as [| | | | |start end_|count|start end_| | | | | | | | | |]; try done; intros _; simpl.
  - apply relates_input, relates_shrinking; [apply extension_shrinking|]. by unfold_writes.
  - unfold delete_front_range_changed.
    destruct ((start =? 0)%nat && (end_ =? 0)%nat) eqn:H0.
    { apply relates_input, relates_nothing. unfold_writes. by rewrite H0. }
    destruct ((0 <? end_)%nat && (end_ <? start `max` 1)%nat) eqn:Hb;
      [apply relates_input, relates_throw|].
    apply writes_stem_command.
    + intros stem. apply drain_front_range_le; [lia|].
      apply andb_false_iff in Hb as [?%Nat.ltb_ge|?%Nat.ltb_ge]; lia.
    + unfold_writes. by rewrite H0.
  - unfold delete_last_changed. destruct (count =? 0)%nat eqn:H0.
    + apply relates_input, relates_nothing. unfold_writes. by rewrite H0.
    + apply writes_stem_command; [apply truncate_last_le|]. unfold_writes. rewrite H0. simpl.
      unfold truncate_last. f_equal. f_equal. lia.
  - unfold delete_first_delimited_changed.
    destruct (head start) as [s|] eqn:Hs; [|apply relates_input, relates_throw].
    destruct (head end_) as [e|] eqn:He; [|apply relates_input, relates_throw].
    apply writes_stem_command; [apply drain_delimited_le|]. unfold_writes. eauto.
  - apply writes_stem_command; [apply keep_digits_le|]. by unfold_writes.
  - apply relates_input, relates_shrinking; [apply stem_shrinking|]. by unfold_writes.
Qed.

Lemma run_command_writes compare_text c :
  width_ok c -> relates (fun rows => writes compare_text rows c) (run_command compare_text c).
Proof.
  intros Hw. destruct c as [|from to|prefix|suffix| | | | | |w|w|w s m| |ext|ext| | |t];
    try (by apply writes_deletion); simpl.
  - apply relates_stateless. intros rows row item h t h' H.
    unfold try_clone_text in H. apply SE_bind_Ok in H as (u & s & _ & H).
    apply SE_ret_Ok in H as [-> _]. by unfold_writes.
  - apply writes_replace.
  - unfold prefix_complete_changed, is_empty. destruct prefix as [|u p]; simpl.
    { apply relates_nothing. by unfold_writes. }
    apply relates_stateless. intros rows row item h t h' ->%build_parts_Ok.
    unfold_writes. simpl. by rewrite app_nil_r.
  - unfold suffix_before_extension_changed, is_empty. destruct suffix as [|u p]; simpl.
    { apply relates_nothing. by unfold_writes. }
    apply relates_stateless. intros rows row item h t h' H. unfold writes.
    destruct (stem_extension_units item). apply build_parts_Ok in H as ->. simpl.
    by rewrite app_nil_r.
  - apply writes_pad. by unfold_writes.
  - apply writes_pad. by unfold_writes.
  - by apply writes_sequence.
  - apply writes_extension.
    + intros rows row item ->. unfold_writes. by rewrite app_nil_r.
    + intros rows row item h t h' Hne ->%build_parts_Ok. unfold_writes. simpl.
      by rewrite app_nil_r.
  - apply writes_extension.
    + intros rows row item ->. by unfold_writes.
    + intros rows row item h t h' Hne ->%build_parts_Ok. unfold writes.
      destruct (stem_extension_units item). destruct ext; [done|]. simpl. by rewrite app_nil_r.
  - apply relates_stateless. intros rows row item h t h' H. unfold writes.
    destruct (stem_extension_units item).
    destruct (parent_folder_units _); [|by apply try_build_Ok in H].
    apply build_parts_Ok in H as ->. simpl. by rewrite app_nil_r.
  - apply relates_stateless. intros rows row item h t h' H. unfold writes.
    destruct (stem_extension_units item).
    destruct (parent_folder_units _); [|by apply try_build_Ok in H].
    apply build_parts_Ok in H as ->. simpl. by rewrite app_nil_r.
  - apply writes_import.
Qed.
