(* ===== verification/AppendIndex.v ===== *)
(** * AppendIndex: appending rows and the reusable duplicate index

    [LegacyAppendIndex] and the [append] family of [LegacyList]
    ([crates/darknamer-core/src/lib.rs]).  The index keeps the source paths of
    one list, sorted in chunks of at most 128, and is bound to the list by its
    identity and source revision.  The comparator is the caller's. *)

From S2P Require Import Prelude Collections LegacyText ListItem WorkList Transforms.

Definition APPEND_INDEX_CHUNK_CAPACITY : nat := 128.

Record LegacyAppendIndex : Type := mkIndex {
  model_identity : option nat;   (* [Weak<()>]; [None] is [Weak::new()] *)
  index_revision : Z;
  chunks : list (list LegacyText)
}.

Definition index_new : LegacyAppendIndex := mkIndex None 0 [].

(** A weak pointer upgrades to the list's identity exactly when it is it: the
    list keeps its own allocation alive, and the weak pointer its address. *)
Definition is_current_for (index : LegacyAppendIndex) (l : LegacyList) : bool :=
  (index_revision index =? source_revision l)
  && bool_decide (model_identity index = Some (identity l)).

Definition bind_to (l : LegacyList) (index : LegacyAppendIndex) : LegacyAppendIndex :=
  mkIndex (Some (identity l)) (source_revision l) (chunks index).
Definition clear_binding (index : LegacyAppendIndex) : LegacyAppendIndex := mkIndex None 0 [].
Definition set_chunks (cs : list (list LegacyText)) (index : LegacyAppendIndex)
  : LegacyAppendIndex := mkIndex (model_identity index) (index_revision index) cs.

(** [Vec::insert]; a position past the end panics, and is never asked for. *)
Definition vec_insert {A} (i : nat) (x : A) (l : list A) : list A := take i l ++ x :: drop i l.

Section chunked.
Variable compare_text : LegacyText -> LegacyText -> comparison.

(** The chunk that may hold [source]: chunks ending before it are skipped. *)
Definition chunk_before (source : LegacyText) (chunk : list LegacyText) : bool :=
  match last chunk with
  | None => true
  | Some l => match compare_text l source with Lt => true | _ => false end
  end.
Definition chunk_index_of (cs : list (list LegacyText)) (source : LegacyText) : nat :=
  partition_point (chunk_before source) cs.

Definition source_chunks_contain (cs : list (list LegacyText)) (source : LegacyText) : bool :=
  match cs !! chunk_index_of cs source with
  | None => false
  | Some chunk =>
      match binary_search_by (fun existing => compare_text existing source) chunk with
      | Ok _ => true
      | Err _ => false
      end
  end.

Definition contains (index : LegacyAppendIndex) (source : LegacyText) : bool :=
  source_chunks_contain (chunks index) source.

Definition insertion_location (cs : list (list LegacyText)) (source : LegacyText) : nat * nat :=
  let chunk_index := chunk_index_of cs source in
  if (chunk_index =? length cs)%nat then
    match last cs with
    | None => (0, 0)%nat
    | Some l =>
        if (length l <? APPEND_INDEX_CHUNK_CAPACITY)%nat
        then ((length cs - 1)%nat, length l)
        else (length cs, 0%nat)
    end
  else
    let position :=
      match binary_search_by (fun existing => compare_text existing source)
              (default [] (cs !! chunk_index)) with
      | Ok position | Err position => position
      end in
    (chunk_index, position).

Definition try_insert_source (cs : list (list LegacyText)) (source : LegacyText)
  : SE heap ProposalMutationError (list (list LegacyText)) :=
  let '(chunk_index, position) := insertion_location cs source in
  if (chunk_index =? length cs)%nat then
    try_reserve AllocationFailed;;
    try_reserve AllocationFailed;;
    mret (cs ++ [[source]])
  else
    let chunk := default [] (cs !! chunk_index) in
    if (length chunk <? APPEND_INDEX_CHUNK_CAPACITY)%nat then
      mret (<[chunk_index := vec_insert position source chunk]> cs)
    else
      let split_at := (APPEND_INDEX_CHUNK_CAPACITY / 2)%nat in
      try_reserve AllocationFailed;;
      try_reserve AllocationFailed;;
      let right := drop split_at chunk in
      let cs' := vec_insert (S chunk_index) right (<[chunk_index := take split_at chunk]> cs) in
      let '(target_chunk, target_position) :=
        if (position <? split_at)%nat then (chunk_index, position)
        else (S chunk_index, (position - split_at)%nat) in
      mret (alter (vec_insert target_position source) target_chunk cs').

(** [try_chunk_sorted_sources]: blocks of the chunk capacity, in order.  The
    length of the input is enough fuel. *)
Fixpoint chunk_sorted (fuel : nat) (sources : list LegacyText)
  : SE heap ProposalMutationError (list (list LegacyText)) :=
  match fuel, sources with
  | S fuel, first :: rest =>
      try_reserve AllocationFailed;;
      let chunk := first :: take (APPEND_INDEX_CHUNK_CAPACITY - 1) rest in
      cs ← chunk_sorted fuel (drop (APPEND_INDEX_CHUNK_CAPACITY - 1) rest);
      mret (chunk :: cs)
  | _, _ => mret []
  end.
Definition try_chunk_sorted_sources (sources : list LegacyText)
  : SE heap ProposalMutationError (list (list LegacyText)) :=
  try_reserve AllocationFailed;;
  chunk_sorted (length sources) sources.
End chunked.

(** ** Appending a batch *)

Definition IdxCmd (E A : Type) : Type := SE (LegacyAppendIndex * (LegacyList * heap)) E A.
Definition get_index {E} : IdxCmd E LegacyAppendIndex := fun s => (Ok s.1, s).
Definition put_index {E} (index : LegacyAppendIndex) : IdxCmd E unit :=
  fun s => (Ok tt, (index, s.2)).
Definition on_list {E A} (m : Cmd E A) : IdxCmd E A := fun s =>
  let '(r, s') := m s.2 in (r, (s.1, s')).

Fixpoint clone_source_paths (rows : list LegacyListItem)
  : SE heap ProposalMutationError (list LegacyText) :=
  match rows with
  | [] => mret []
  | item :: rows' =>
      t ← try_clone_text (source_path item);
      ts ← clone_source_paths rows';
      mret (t :: ts)
  end.

(** The rows of the batch not among the existing sources, with positions. *)
Fixpoint accept_rows (duplicate : LegacyText -> bool) (position : nat)
    (batch : list LegacyListItem)
  : SE heap ProposalMutationError (list (nat * LegacyListItem)) :=
  match batch with
  | [] => mret []
  | item :: batch' =>
      if duplicate (source_path item) then accept_rows duplicate position batch'
      else
        try_reserve AllocationFailed;;
        rest ← accept_rows duplicate (S position) batch';
        mret ((position, item) :: rest)
  end.

(** The size loop over the accepted rows. *)
Fixpoint accepted_units (existing batch_row : nat) (requested planned : Z)
    (accepted : list LegacyListItem) : result ProposalMutationError (Z * Z) :=
  match accepted with
  | [] => Ok (requested, planned)
  | item :: accepted' =>
      row ← ok_or ArithmeticOverflow (checked_add (Z.of_nat existing) (Z.of_nat batch_row));
      validate_proposal_units (Z.to_nat row) (zlen (proposed_name item)) ≫= fun _ =>
      requested' ← ok_or ArithmeticOverflow (checked_add requested (zlen (proposed_name item)));
      units ← ok_or ArithmeticOverflow
        (checked_planned_path_units (destination_parent item) (zlen (proposed_name item)));
      planned' ← ok_or ArithmeticOverflow (checked_add planned units);
      accepted_units existing (S batch_row) requested' planned' accepted'
  end.

Section append.
Variable compare_text : LegacyText -> LegacyText -> comparison.

(** Existing sources, sorted and chunked. *)
Definition rebuild_chunks (rows : list LegacyListItem)
  : SE heap ProposalMutationError (list (list LegacyText)) :=
  try_reserve AllocationFailed;;
  rebuilt ← clone_source_paths rows;
  try_chunk_sorted_sources (sort_by compare_text rebuilt).

(** Full path, then the later batch position first. *)
Definition compare_accepted (left right : nat * LegacyListItem) : comparison :=
  then_with (compare_text (source_path left.2) (source_path right.2))
    (Nat.compare right.1 left.1).

(** Every staged source enters the chunks; a failure drops the index. *)
Fixpoint insert_sources (sources : list LegacyText) : IdxCmd ProposalMutationError unit :=
  match sources with
  | [] => mret tt
  | source :: sources' =>
      index ← get_index;
      inserted ← (fun s =>
        match try_insert_source compare_text (chunks index) source s.2.2 with
        | (Ok cs, h) => (Ok cs, (s.1, (s.2.1, h)))
        | (Err e, h) => (Err e, (clear_binding index, (s.2.1, h)))
        end : result ProposalMutationError (list (list LegacyText)) * _);
      put_index (set_chunks inserted index);;
      insert_sources sources'
  end.

Definition commit_accepted (accepted : list LegacyListItem) (requested planned : Z)
  : IdxCmd ProposalMutationError nat :=
  on_list invalidate_source_index;;
  l ← on_list get_list;
  let l' := set_units requested planned (set_items (items l ++ accepted) l) in
  on_list (put_list l');;
  index ← get_index;
  put_index (bind_to l' index);;
  mret (length accepted).

Definition append_batch_indexed (batch : list LegacyListItem)
  : IdxCmd ProposalMutationError nat :=
  index ← get_index;
  l ← on_list get_list;
  rebuilt_chunks ←
    (if is_current_for index l then mret None
     else cs ← on_list (on_heap (rebuild_chunks (items l))); mret (Some cs));
  let duplicate_existing source :=
    match rebuilt_chunks with
    | None => contains compare_text index source
    | Some cs => source_chunks_contain compare_text cs source
    end in
  accepted ← on_list (on_heap (accept_rows duplicate_existing 0 batch));
  match accepted with
  | [] =>
      match rebuilt_chunks with
      | Some cs => put_index (bind_to l (set_chunks cs index))
      | None => mret tt
      end;;
      mret 0%nat
  | _ :: _ =>
      let accepted := map snd (sort_by compare_accepted accepted) in
      '(requested_units, requested_planned_path_units) ←
        SE_lift (accepted_units (length (items l)) 0 (proposed_name_utf16_units l)
                   (planned_path_utf16_units l) accepted);
      if MAX_TOTAL_PROPOSED_NAME_UTF16_UNITS <? requested_units
      then SE_throw (AggregateBudgetExceeded requested_units
                       MAX_TOTAL_PROPOSED_NAME_UTF16_UNITS)
      else if MAX_TOTAL_PLANNED_PATH_UTF16_UNITS <? requested_planned_path_units
      then SE_throw (PlannedPathAggregateBudgetExceeded requested_planned_path_units
                       MAX_TOTAL_PLANNED_PATH_UTF16_UNITS)
      else
        on_list (on_heap (try_reserve AllocationFailed));;
        staged_sources ← on_list (on_heap (clone_source_paths accepted));
        on_list (on_heap (try_reserve AllocationFailed));;
        match rebuilt_chunks with
        | Some cs => put_index (set_chunks cs index)
        | None => mret tt
        end;;
        insert_sources staged_sources;;
        commit_accepted accepted requested_units requested_planned_path_units
  end.

Definition append_indexed (item : LegacyListItem) : IdxCmd ProposalMutationError bool :=
  appended ← append_batch_indexed [item];
  mret (negb (appended =? 0)%nat).

(** The forms without a caller's index start from a new one. *)
Definition with_new_index {A} (m : IdxCmd ProposalMutationError A) : Cmd ProposalMutationError A :=
  fun s => let '(r, (_, s')) := m (index_new, s) in (r, s').
Definition append_by (item : LegacyListItem) : Cmd ProposalMutationError bool :=
  with_new_index (append_indexed item).
Definition append_batch_by (batch : list LegacyListItem) : Cmd ProposalMutationError nat :=
  with_new_index (append_batch_indexed batch).
End append.

Definition append (to_lowercase : Z -> list Z) := append_by (case_insensitive_cmp to_lowercase).
Definition append_batch (to_lowercase : Z -> list Z) :=
  append_batch_by (case_insensitive_cmp to_lowercase).

(** ** The chunks: sorted, non-empty, bounded *)

Lemma concat_lookup {A} (cs : list (list A)) k c :
  cs !! k = Some c -> concat cs = concat (take k cs) ++ c ++ concat (drop (S k) cs).
Proof.
  intros H. rewrite <-(take_drop_middle cs k c H) at 1. rewrite concat_app. done.
Qed.
Lemma elem_of_concat_take {A} (cs : list (list A)) k x :
  x ∈ concat (take k cs) -> exists j c, (j < k)%nat /\ cs !! j = Some c /\ x ∈ c.
Proof.
  rewrite list_elem_of_In, in_concat. intros (c & Hc%list_elem_of_In & Hx%list_elem_of_In).
  apply list_elem_of_lookup in Hc as [j Hj].
  apply lookup_take_Some in Hj as [Hj Hlt]. eauto.
Qed.
Lemma insert_concat {A} (cs : list (list A)) k c c' :
  cs !! k = Some c ->
  concat (<[k := c']> cs) = concat (take k cs) ++ c' ++ concat (drop (S k) cs).
Proof.
  intros H. rewrite insert_take_drop by (by apply lookup_lt_Some in H).
  by rewrite concat_app.
Qed.

Lemma vec_insert_app {A} (l k : list A) x : vec_insert (length l) x (l ++ k) = l ++ x :: k.
Proof. unfold vec_insert. by rewrite take_app_length, drop_app_length. Qed.
Lemma length_vec_insert {A} i (x : A) l : (i <= length l)%nat -> length (vec_insert i x l) = S (length l).
Proof. intros H. unfold vec_insert. rewrite length_app, length_take, length_cons, length_drop. lia. Qed.

Section chunk_facts.
Variable cmp : LegacyText -> LegacyText -> comparison.
Context `{!TotalPreorder cmp}.

Record chunks_ok (cs : list (list LegacyText)) : Prop := mkChunksOk {
  chunks_sorted : sorted_by cmp (concat cs);
  chunks_bounds : Forall (fun c => (0 < length c <= APPEND_INDEX_CHUNK_CAPACITY)%nat) cs
}.

Lemma chunk_sorted_lookup cs k c : chunks_ok cs -> cs !! k = Some c -> sorted_by cmp c.
Proof.
  intros [Hs _] Hc. rewrite (concat_lookup _ _ _ Hc) in Hs.
  apply sorted_by_app in Hs as (_ & Hs & _). by apply sorted_by_app in Hs as (? & _).
Qed.
Lemma chunk_order cs i j ci cj x y :
  chunks_ok cs -> (i < j)%nat -> cs !! i = Some ci -> cs !! j = Some cj ->
  x ∈ ci -> y ∈ cj -> cmp x y <> Gt.
Proof.
  intros [Hs _] Hij Hi Hj Hx Hy. rewrite (concat_lookup _ _ _ Hi) in Hs.
  apply sorted_by_app in Hs as (_ & Hs & _).
  apply sorted_by_app in Hs as (_ & _ & Hs). apply Hs; [done|].
  rewrite list_elem_of_In, in_concat. exists cj. split; apply list_elem_of_In; [|done].
  apply list_elem_of_lookup. exists (j - S i)%nat. rewrite lookup_drop.
  by replace (S i + (j - S i))%nat with j by lia.
Qed.
Lemma chunk_le_last cs k c x l :
  chunks_ok cs -> cs !! k = Some c -> x ∈ c -> last c = Some l -> cmp x l <> Gt.
Proof.
  intros Hok Hc Hx Hl. pose proof (chunk_sorted_lookup _ _ _ Hok Hc) as Hs.
  apply last_Some in Hl as [c' ->]. apply elem_of_app in Hx as [Hx|Hx%list_elem_of_singleton].
  - apply sorted_by_app in Hs as (_ & _ & Hs). apply Hs; [done|]. by left.
  - subst x. by rewrite cmp_refl.
Qed.
Lemma chunk_has_last cs k c : chunks_ok cs -> cs !! k = Some c -> exists l, last c = Some l /\ l ∈ c.
Proof.
  intros [_ Hb] Hc. rewrite Forall_forall in Hb.
  destruct (Hb c) as [Hc0 _]; [by eapply list_elem_of_lookup_2|].
  destruct (last c) as [l|] eqn:Hl; [|apply last_None in Hl; subst; simpl in Hc0; lia].
  exists l. split; [done|]. apply last_Some in Hl as [c' ->]. set_solver.
Qed.

Lemma search_monotone c s : sorted_by cmp c -> f_monotone (fun x => cmp x s) c.
Proof.
  intros Hs i j x y Hij Hx Hy.
  assert (cmp x y <> Gt) as Hle.
  { destruct (decide (i = j)) as [->|]; [|apply (sorted_by_lookup cmp c i j); [done|lia|done|done]].
    assert (x = y) as -> by congruence. by rewrite cmp_refl. }
  split.
  - intros Hlt. by apply (cmp_le_lt_trans cmp x y s).
  - intros Hgt. destruct (cmp y s) eqn:E; [exfalso|exfalso|done].
    + assert (cmp y s <> Gt) as H2 by (by rewrite E). by apply (cmp_trans x y s Hle H2).
    + assert (cmp y s <> Gt) as H2 by (by rewrite E). by apply (cmp_trans x y s Hle H2).
Qed.

Lemma chunk_index_spec cs s :
  chunks_ok cs ->
  (chunk_index_of cmp cs s <= length cs)%nat /\
  (forall j c x, (j < chunk_index_of cmp cs s)%nat -> cs !! j = Some c -> x ∈ c -> cmp x s = Lt) /\
  (forall j c, (chunk_index_of cmp cs s <= j)%nat -> cs !! j = Some c ->
     forall l, last c = Some l -> cmp l s <> Lt).
Proof.
  intros Hok. unfold chunk_index_of.
  destruct (partition_point_spec (chunk_before cmp s) cs) as (Hle & Hb & Ha).
  { intros i j ci cj Hij Hi Hj. unfold chunk_before.
    destruct (chunk_has_last cs i ci Hok Hi) as (li & Hli & Hini).
    destruct (chunk_has_last cs j cj Hok Hj) as (lj & Hlj & Hinj).
    rewrite Hli, Hlj. destruct (decide (i = j)) as [->|]; [by replace li with lj by congruence|].
    destruct (cmp lj s) eqn:E; try done. intros _.
    assert (cmp li lj <> Gt) as H1 by (eapply (chunk_order cs i j); eauto; lia).
    by rewrite (cmp_le_lt_trans cmp li lj s H1 E). }
  split_and!; [done| |].
  - intros j c x Hj Hc Hx. specialize (Hb j c Hj Hc). unfold chunk_before in Hb.
    destruct (chunk_has_last cs j c Hok Hc) as (l & Hl & _). rewrite Hl in Hb.
    destruct (cmp l s) eqn:E; try done.
    apply (cmp_le_lt_trans cmp x l s); [by eapply chunk_le_last|done].
  - intros j c Hj Hc l Hl. specialize (Ha j c Hj Hc). unfold chunk_before in Ha.
    rewrite Hl in Ha. by destruct (cmp l s).
Qed.

(** Both binary searches together decide whether some source compares equal. *)
Lemma source_chunks_contain_spec cs s :
  chunks_ok cs ->
  source_chunks_contain cmp cs s = true <-> Exists (fun x => cmp x s = Eq) (concat cs).
Proof.
  intros Hok. destruct (chunk_index_spec cs s Hok) as (Hle & Hb & Ha).
  unfold source_chunks_contain. set (k := chunk_index_of cmp cs s) in *.
  rewrite Exists_exists.
  destruct (cs !! k) as [c|] eqn:Hc.
  - pose proof (chunk_sorted_lookup _ _ _ Hok Hc) as Hsc.
    pose proof (binary_search_found (fun x => cmp x s) c (search_monotone c s Hsc)) as Hf.
    rewrite (Exists_exists _ c) in Hf.
    transitivity (exists x, x ∈ c /\ cmp x s = Eq).
    { rewrite <-Hf. destruct (binary_search_by _ c) as [i|i]; split; try done; eauto.
      by intros [? ?]. }
    split.
    + intros (x & Hx & E). exists x. split; [|done]. rewrite (concat_lookup _ _ _ Hc). set_solver.
    + intros (x & Hx & E). rewrite (concat_lookup _ _ _ Hc), !elem_of_app in Hx.
      destruct Hx as [Hx|[Hx|Hx]]; [|by eauto|].
      * apply elem_of_concat_take in Hx as (j & cj & Hj & Hcj & Hx).
        by rewrite (Hb j cj x Hj Hcj Hx) in E.
      * rewrite list_elem_of_In, in_concat in Hx.
        destruct Hx as (cj & Hcj%list_elem_of_In & Hx%list_elem_of_In).
        apply list_elem_of_lookup in Hcj as [j Hj]. rewrite lookup_drop in Hj.
        destruct (chunk_has_last cs k c Hok Hc) as (l & Hl & Hlc). exists l. split; [done|].
        assert (cmp l x <> Gt) as Hlx by (eapply (chunk_order cs k (S k + j)); eauto; lia).
        assert (cmp x s <> Gt) as Hxs by (by rewrite E).
        pose proof (cmp_trans l x s Hlx Hxs).
        pose proof (Ha k c (Nat.le_refl _) Hc l Hl). by destruct (cmp l s).
  - split; [done|]. intros (x & Hx & E). exfalso. apply lookup_ge_None in Hc.
    rewrite <-(take_ge cs k Hc) in Hx.
    apply elem_of_concat_take in Hx as (j & cj & Hj & Hcj & Hx).
    by rewrite (Hb j cj x Hj Hcj Hx) in E.
Qed.

Lemma binary_search_position c s pos :
  sorted_by cmp c -> binary_search_by (fun x => cmp x s) c = Ok pos \/
                     binary_search_by (fun x => cmp x s) c = Err pos ->
  (pos <= length c)%nat /\ (forall x, x ∈ take pos c -> cmp x s <> Gt) /\
  (forall x, x ∈ drop pos c -> cmp s x <> Gt).
Proof.
  intros Hs [H|H].
  - apply binary_search_Ok in H as (y & Hy & E). apply lookup_lt_Some in Hy as Hlt.
    split_and!; [lia| |].
    + intros x [j Hj]%list_elem_of_lookup. apply lookup_take_Some in Hj as [Hj Hjp].
      assert (cmp x y <> Gt) as Hxy by (by apply (sorted_by_lookup cmp c j pos)).
      apply (cmp_trans x y s Hxy). by rewrite E.
    + intros x [j Hj]%list_elem_of_lookup. rewrite lookup_drop in Hj.
      assert (cmp s y <> Gt) as Hsy by (rewrite (cmp_opp (cmp:=cmp) y s), E; done).
      destruct j as [|j]; [rewrite Nat.add_0_r in Hj; congruence|].
      apply (cmp_trans s y x Hsy). apply (sorted_by_lookup cmp c pos (pos + S j)); [done|lia|done|done].
  - apply binary_search_Err in H as (Hle & H1 & H2); [|by apply search_monotone].
    split_and!; [done| |].
    + intros x [j Hj]%list_elem_of_lookup. apply lookup_take_Some in Hj as [Hj Hjp].
      by rewrite (H1 j x Hjp Hj).
    + intros x [j Hj]%list_elem_of_lookup. rewrite lookup_drop in Hj.
      pose proof (H2 (pos + j)%nat x ltac:(lia) Hj) as E. simpl in E.
      by rewrite (cmp_opp (cmp:=cmp) x s), E.
Qed.

Lemma insertion_location_spec cs s k pos :
  chunks_ok cs -> insertion_location cmp cs s = (k, pos) ->
  (k = length cs /\ forall x, x ∈ concat cs -> cmp x s <> Gt) \/
  (exists c, cs !! k = Some c /\ (pos <= length c)%nat /\
     (forall x, x ∈ concat (take k cs) ++ take pos c -> cmp x s <> Gt) /\
     (forall x, x ∈ drop pos c ++ concat (drop (S k) cs) -> cmp s x <> Gt)).
Proof.
  intros Hok. destruct (chunk_index_spec cs s Hok) as (Hle & Hb & Ha).
  unfold insertion_location. set (i := chunk_index_of cmp cs s) in *.
  assert (forall x j, (j <= i)%nat -> x ∈ concat (take j cs) -> cmp x s = Lt) as Hpre.
  { intros x j Hj Hx. apply elem_of_concat_take in Hx as (j' & cj & Hj' & Hcj & Hx).
    eapply (Hb j'); eauto. lia. }
  destruct (Nat.eqb_spec i (length cs)) as [Hi|Hi].
  - assert (forall x, x ∈ concat cs -> cmp x s <> Gt) as Hall.
    { intros x Hx. rewrite (Hpre x i); [done|lia|]. by rewrite take_ge by lia. }
    destruct (last cs) as [c|] eqn:Hl.
    2: { intros [= <- <-]. apply last_None in Hl. subst. by left. }
    destruct (Nat.ltb_spec (length c) APPEND_INDEX_CHUNK_CAPACITY).
    2: { intros [= <- <-]. by left. }
    intros [= <- <-]. right. exists c. apply last_Some in Hl as [cs' ->].
    rewrite length_app. simpl. replace (length cs' + 1 - 1)%nat with (length cs') by lia.
    split_and!; [by apply list_lookup_middle|lia| |].
    + intros x Hx. apply Hall. rewrite take_app_length, firstn_all in Hx.
      rewrite concat_app. simpl. by rewrite app_nil_r.
    + intros x. rewrite drop_ge, drop_ge by (rewrite ?length_app; simpl; lia). simpl.
      by intros ?%not_elem_of_nil.
  - destruct (lookup_lt_is_Some_2 cs i) as [c Hc]; [lia|]. rewrite Hc. simpl.
    intros [= <- Hpos]. right. exists c.
    pose proof (chunk_sorted_lookup _ _ _ Hok Hc) as Hsc.
    destruct (binary_search_position c s pos Hsc) as (Hlen & H1 & H2).
    { destruct (binary_search_by _ c); [left|right]; congruence. }
    split_and!; [done|done| |].
    + intros x [Hx|Hx]%elem_of_app; [by rewrite (Hpre x i)|by apply H1].
    + intros x [Hx|Hx]%elem_of_app; [by apply H2|].
      rewrite list_elem_of_In, in_concat in Hx.
      destruct Hx as (cj & Hcj%list_elem_of_In & Hx%list_elem_of_In).
      apply list_elem_of_lookup in Hcj as [j Hj]. rewrite lookup_drop in Hj.
      destruct (chunk_has_last cs i c Hok Hc) as (l & Hl & Hlc).
      assert (cmp l x <> Gt) as Hlx by (eapply (chunk_order cs i (S i + j)); eauto; lia).
      pose proof (Ha i c (Nat.le_refl _) Hc l Hl) as Hls.
      apply (cmp_trans s l x); [by apply cmp_not_lt|done].
Qed.
End chunk_facts.

(** ** Inserting a source keeps the chunks sorted and bounded *)

Lemma Forall_vec_insert {A} (P : A -> Prop) i x l :
  Forall P l -> P x -> Forall P (vec_insert i x l).
Proof.
  intros Hl Hx. unfold vec_insert. apply Forall_app. split; [by apply Forall_take|].
  constructor; [done|by apply Forall_drop].
Qed.

Section insertion.
Variable cmp : LegacyText -> LegacyText -> comparison.
Context `{!TotalPreorder cmp}.

Lemma chunks_insert_ok cs cs' pre s post :
  chunks_ok cmp cs -> concat cs = pre ++ post -> concat cs' = pre ++ s :: post ->
  (forall x, x ∈ pre -> cmp x s <> Gt) -> (forall x, x ∈ post -> cmp s x <> Gt) ->
  Forall (fun c => (0 < length c <= APPEND_INDEX_CHUNK_CAPACITY)%nat) cs' ->
  chunks_ok cmp cs' /\ concat cs' ≡ₚ s :: concat cs.
Proof.
  intros [Hs _] Hc Hc' Hpre Hpost Hb. split.
  - split; [|done]. rewrite Hc' in *. rewrite Hc in Hs.
    apply sorted_by_app in Hs as (H1 & H2 & H3). apply sorted_by_app. split_and!; [done| |].
    + constructor; [done|]. apply Forall_forall. done.
    + intros x y Hx [->|Hy]%elem_of_cons; [by apply Hpre|by apply H3].
  - rewrite Hc, Hc'. by rewrite Permutation_middle.
Qed.

(** The three ways of storing: a new chunk, a free slot, a split. *)
Lemma split_chunk_concat k (c : list LegacyText) cs split_at right :
  cs !! k = Some c -> right = drop split_at c ->
  vec_insert (S k) right (<[k := take split_at c]> cs) =
  take k cs ++ take split_at c :: right :: drop (S k) cs.
Proof.
  intros Hk ->. apply lookup_lt_Some in Hk as Hlt. unfold vec_insert.
  rewrite insert_take_drop by done.
  replace (S k) with (length (take k cs ++ [take split_at c]))
    by (rewrite length_app, length_take; simpl; lia).
  replace (take k cs ++ take split_at c :: drop (length (take k cs ++ [take split_at c])) cs)
    with ((take k cs ++ [take split_at c]) ++
            drop (length (take k cs ++ [take split_at c])) cs) by (by rewrite <-app_assoc).
  rewrite take_app_length, drop_app_length. by rewrite <-app_assoc.
Qed.

Lemma alter_middle {A} (f : A -> A) k l (c : A) r :
  k = length l -> alter f k (l ++ c :: r) = l ++ f c :: r.
Proof.
  intros ->. replace (length l) with (length l + 0)%nat by lia. by rewrite alter_app_r.
Qed.

Lemma try_insert_source_Ok cs s h cs' h' :
  chunks_ok cmp cs -> try_insert_source cmp cs s h = (Ok cs', h') ->
  chunks_ok cmp cs' /\ concat cs' ≡ₚ s :: concat cs.
Proof.
  intros Hok H. unfold try_insert_source in H.
  destruct (insertion_location cmp cs s) as [k pos] eqn:Hloc.
  pose proof (insertion_location_spec cmp cs s k pos Hok Hloc) as Hspec.
  destruct Hok as [Hs Hb] eqn:Hokeq. clear Hokeq.
  assert (chunks_ok cmp cs) as Hok' by done.
  destruct (Nat.eqb_spec k (length cs)) as [Hk|Hk].
  - destruct Hspec as [[_ Hall]|(c & Hc & _)]; [|apply lookup_lt_Some in Hc; lia].
    apply SE_bind_Ok in H as (? & ? & _ & H). apply SE_bind_Ok in H as (? & ? & _ & H).
    apply SE_ret_Ok in H as [-> _].
    apply (chunks_insert_ok cs _ (concat cs) s []); [done|by rewrite app_nil_r| | |set_solver|].
    + by rewrite concat_app.
    + done.
    + apply Forall_app. split; [done|]. repeat constructor; simpl; unfold APPEND_INDEX_CHUNK_CAPACITY; lia.
  - destruct Hspec as [[? _]|(c & Hc & Hpos & Hpre & Hpost)]; [done|]. rewrite Hc in H. simpl in H.
    pose proof (Forall_lookup_1 _ _ _ _ Hb Hc) as Hbc. simpl in Hbc.
    assert (concat cs = (concat (take k cs) ++ take pos c) ++ (drop pos c ++ concat (drop (S k) cs)))
      as Hcat.
    { rewrite (concat_lookup _ _ _ Hc) at 1. rewrite <-app_assoc. f_equal.
      by rewrite app_assoc, take_drop. }
    destruct (Nat.ltb_spec (length c) APPEND_INDEX_CHUNK_CAPACITY) as [Hroom|Hfull].
    + apply SE_ret_Ok in H as [-> _].
      apply (chunks_insert_ok cs _ _ s _ Hok' Hcat); [|done|done|].
      * rewrite (insert_concat _ _ _ _ Hc). unfold vec_insert. by rewrite <-!app_assoc.
      * apply Forall_insert; [done|]. rewrite length_vec_insert by done. lia.
    + apply SE_bind_Ok in H as (? & ? & _ & H). apply SE_bind_Ok in H as (? & ? & _ & H).
      rewrite (split_chunk_concat k c cs _ _ Hc eq_refl) in H.
      change (APPEND_INDEX_CHUNK_CAPACITY `div` 2)%nat with 64%nat in H.
      assert (length c = 128)%nat as Hlen by (unfold APPEND_INDEX_CHUNK_CAPACITY in *; lia).
      apply lookup_lt_Some in Hc as Hklt.
      assert (Forall (fun c => (0 < length c <= APPEND_INDEX_CHUNK_CAPACITY)%nat) (take k cs) /\
              Forall (fun c => (0 < length c <= APPEND_INDEX_CHUNK_CAPACITY)%nat) (drop (S k) cs))
        as [Hb1 Hb2] by (split; [by apply Forall_take|by apply Forall_drop]).
      assert (APPEND_INDEX_CHUNK_CAPACITY = 128%nat) as Hcap by done.
      destruct (Nat.ltb_spec pos 64) as [Hleft|Hright]; apply SE_ret_Ok in H as [-> _].
      * rewrite alter_middle by (rewrite length_take; lia).
        apply (chunks_insert_ok cs _ _ s _ Hok' Hcat); [|done|done|].
        -- rewrite concat_app. cbn [concat]. unfold vec_insert.
           rewrite take_take, Nat.min_l by lia. rewrite <-!app_assoc. f_equal. f_equal.
           cbn [app]. f_equal. rewrite !app_assoc. f_equal.
           rewrite <-(take_drop (64 - pos) (drop pos c)).
           rewrite drop_drop. replace (pos + (64 - pos))%nat with 64%nat by lia.
           f_equal. rewrite skipn_firstn_comm. done.
        -- apply Forall_app. split; [done|]. constructor; [|constructor; [|done]].
           ++ rewrite length_vec_insert by (rewrite length_take; lia). rewrite length_take. lia.
           ++ rewrite length_drop. lia.
      * replace (take k cs ++ take 64 c :: drop 64 c :: drop (S k) cs)
          with ((take k cs ++ [take 64 c]) ++ drop 64 c :: drop (S k) cs)
          by (by rewrite <-app_assoc).
        rewrite alter_middle by (rewrite length_app, length_take; simpl; lia).
        apply (chunks_insert_ok cs _ _ s _ Hok' Hcat); [|done|done|].
        -- rewrite !concat_app. cbn [concat]. unfold vec_insert. rewrite app_nil_r.
           rewrite <-!app_assoc. f_equal. rewrite drop_drop.
           replace (64 + (pos - 64))%nat with pos by lia. rewrite app_assoc. f_equal.
           rewrite <-(take_drop 64 (take pos c)) at 1.
           rewrite take_take, Nat.min_l by lia. f_equal. by rewrite skipn_firstn_comm.
        -- apply Forall_app. split.
           ++ apply Forall_app. split; [done|]. constructor; [|done]. rewrite length_take. lia.
           ++ constructor; [|done]. rewrite length_vec_insert by (rewrite length_drop; lia). rewrite length_drop. lia.
Qed.

(** Rebuilding: the blocks of a sorted list. *)
Lemma chunk_sorted_Ok fuel sources h cs h' :
  (length sources <= fuel)%nat -> chunk_sorted fuel sources h = (Ok cs, h') ->
  concat cs = sources /\
  Forall (fun c => (0 < length c <= APPEND_INDEX_CHUNK_CAPACITY)%nat) cs.
Proof.
  revert sources h cs h'. induction fuel as [|fuel IH]; intros sources h cs h' Hf H.
  - destruct sources; [|simpl in Hf; lia]. simpl in H. by apply SE_ret_Ok in H as [-> _].
  - destruct sources as [|s rest]; [simpl in H; by apply SE_ret_Ok in H as [-> _]|].
    cbn [chunk_sorted] in H. apply SE_bind_Ok in H as (? & ? & _ & H).
    apply SE_bind_Ok in H as (cs1 & ? & Hrec & H). apply SE_ret_Ok in H as [-> _].
    apply IH in Hrec as [Hc Hall].
    + cbn [concat]. rewrite Hc. split.
      * cbn [app]. by rewrite take_drop.
      * constructor; [|done]. rewrite length_cons, length_take.
        unfold APPEND_INDEX_CHUNK_CAPACITY. lia.
    + rewrite length_drop. simpl in Hf. lia.
Qed.

Lemma clone_source_paths_Ok rows h ts h' :
  clone_source_paths rows h = (Ok ts, h') -> ts = map source_path rows.
Proof.
  revert h ts h'. induction rows as [|i rows IH]; intros h ts h' H.
  - by apply SE_ret_Ok in H as [-> _].
  - cbn [clone_source_paths] in H. apply SE_bind_Ok in H as (t & h1 & Ht & H).
    apply SE_bind_Ok in Ht as (? & ? & _ & Ht). apply SE_ret_Ok in Ht as [-> _].
    apply SE_bind_Ok in H as (ts1 & h2 & Hrec & H). apply SE_ret_Ok in H as [-> _].
    simpl. f_equal. by eapply IH.
Qed.

Lemma rebuild_chunks_Ok rows h cs h' :
  rebuild_chunks cmp rows h = (Ok cs, h') ->
  chunks_ok cmp cs /\ concat cs ≡ₚ map source_path rows.
Proof.
  unfold rebuild_chunks, try_chunk_sorted_sources. intros H.
  apply SE_bind_Ok in H as (? & ? & _ & H). apply SE_bind_Ok in H as (ts & ? & Hts & H).
  apply SE_bind_Ok in H as (? & ? & _ & H).
  apply clone_source_paths_Ok in Hts as ->. apply chunk_sorted_Ok in H as [Hc Hb]; [|done].
  split; [split; [|done]|]; rewrite Hc; [by apply sort_by_sorted|apply sort_by_perm].
Qed.
End insertion.

(** ** The accepted order is the legacy order *)

Section legacy_order.
Variable cmp : LegacyText -> LegacyText -> comparison.
Context `{!TotalPreorder cmp}.

Definition by_source (left right : LegacyListItem) : comparison :=
  cmp (source_path left) (source_path right).

(** [AddFileItem]: each row goes before the existing rows with an equal path. *)
Definition legacy_order (batch : list LegacyListItem) : list LegacyListItem :=
  fold_left (fun acc item => insert_by by_source item acc) batch [].

#[local] Instance compare_accepted_preorder : TotalPreorder (compare_accepted cmp).
Proof using TotalPreorder0.
  split; unfold compare_accepted.
  - intros [n i]. simpl. by rewrite cmp_refl, Nat.compare_refl.
  - intros [n i] [m j]. simpl. rewrite (cmp_opp (cmp:=cmp) (source_path i)).
    rewrite (Nat.compare_antisym m n). by destruct (cmp _ _).
  - intros [n i] [m j] [k x]. simpl.
    generalize (source_path i) (source_path j) (source_path x). intros a b c.
    destruct (cmp a b) eqn:E1; simpl; [|intros _|done].
    + destruct (cmp b c) eqn:E2; simpl; [|intros _ _|done].
      * intros H1 H2.
        assert (cmp a c = Eq) as ->.
        { assert (cmp a c <> Gt) as G1 by (apply (cmp_trans a b c); by rewrite ?E1, ?E2).
          assert (cmp c a <> Gt) as G2.
          { apply (cmp_trans c b a); rewrite (cmp_opp (cmp:=cmp)); by rewrite ?E1, ?E2. }
          rewrite (cmp_opp (cmp:=cmp) a c) in G2. by destruct (cmp a c). }
        simpl. rewrite Nat.compare_le_iff in *. lia.
      * by rewrite (cmp_le_lt_trans cmp a b c) by (rewrite ?E1, ?E2; done).
    + destruct (cmp b c) eqn:E2; simpl; [| |done]; intros _;
        by rewrite (cmp_lt_trans cmp a b c) by (rewrite ?E1, ?E2; done).
Qed.

Definition before (x y : nat * LegacyListItem) : Prop := compare_accepted cmp x y = Lt.

Lemma insert_before p i acc :
  StronglySorted before acc -> Forall (fun y => y.1 < p)%nat acc ->
  StronglySorted before (insert_by (fun x y => by_source x.2 y.2) (p, i) acc).
Proof using TotalPreorder0.
  intros Hs. induction Hs as [|[q j] acc Hs IH Hj]; intros Hp; simpl; [by repeat constructor|].
  apply Forall_cons in Hp as [Hq Hp]. simpl in Hq.
  destruct (by_source j i) eqn:E; unfold by_source in E.
  2: { constructor; [by apply IH|]. rewrite insert_by_perm. constructor; [|done].
       unfold before, compare_accepted. simpl. by rewrite E. }
  all: assert (before (p, i) (q, j)) as Hb by
    (unfold before, compare_accepted; simpl; rewrite (cmp_opp (cmp:=cmp) (source_path j)), E;
     simpl; rewrite ?Nat.compare_lt_iff; done);
    constructor; [by constructor|]; constructor; [done|];
    eapply Forall_impl; [exact Hj|]; intros y Hy;
    apply (cmp_lt_trans (compare_accepted cmp) _ (q, j)); [done|by rewrite Hy].
Qed.

Lemma fold_insert_before (xs acc : list (nat * LegacyListItem)) :
  StronglySorted (fun x y => x.1 < y.1)%nat xs -> StronglySorted before acc ->
  Forall (fun y => Forall (fun x => y.1 < x.1)%nat xs) acc ->
  let r := fold_left (fun acc x => insert_by (fun x y => by_source x.2 y.2) x acc) xs acc in
  StronglySorted before r /\ r ≡ₚ xs ++ acc.
Proof using TotalPreorder0.
  revert acc. induction xs as [|[p i] xs IH]; intros acc Hx Ha Hxa; simpl; [done|].
  apply StronglySorted_inv in Hx as [Hx Hp].
  destruct (IH (insert_by (fun x y => by_source x.2 y.2) (p, i) acc)) as [H1 H2]; [done| | |].
  - apply insert_before; [done|]. eapply Forall_impl; [exact Hxa|].
    intros y Hy%Forall_cons. by destruct Hy.
  - rewrite insert_by_perm. constructor; [done|]. eapply Forall_impl; [exact Hxa|].
    intros y Hy%Forall_cons. by destruct Hy.
  - split; [done|]. rewrite H2, insert_by_perm. by rewrite Permutation_middle.
Qed.

Lemma fold_insert_snd (xs acc : list (nat * LegacyListItem)) :
  map snd (fold_left (fun acc x => insert_by (fun x y => by_source x.2 y.2) x acc) xs acc) =
  fold_left (fun acc item => insert_by by_source item acc) (map snd xs) (map snd acc).
Proof using Type.
  revert acc. induction xs as [|x xs IH]; intros acc; simpl; [done|]. rewrite IH. f_equal.
  clear. induction acc as [|y acc IH]; simpl; [done|].
  destruct (by_source y.2 x.2); simpl; congruence.
Qed.

Lemma sorted_strict {A} (c : A -> A -> comparison) l :
  sorted_by c l -> NoDup l -> (forall x y, x ∈ l -> y ∈ l -> c x y = Eq -> x = y) ->
  StronglySorted (fun x y => c x y = Lt) l.
Proof using Type.
  induction 1 as [|x l Hs IH Hx]; intros Hnd Heq; [constructor|].
  apply NoDup_cons in Hnd as [Hni Hnd]. constructor.
  - apply IH; [done|]. intros. apply Heq; [by right|by right|done].
  - apply Forall_forall. intros y Hy. rewrite Forall_forall in Hx. specialize (Hx y Hy).
    destruct (c x y) eqn:E; [|done|done]. exfalso. apply Hni.
    by rewrite (Heq x y ltac:(by left) ltac:(by right) E).
Qed.

(** The unstable sort of positioned rows gives the legacy order. *)
Lemma sort_accepted (xs : list (nat * LegacyListItem)) :
  StronglySorted (fun x y => x.1 < y.1)%nat xs ->
  map snd (sort_by (compare_accepted cmp) xs) = legacy_order (map snd xs).
Proof using TotalPreorder0.
  intros Hx. destruct (fold_insert_before xs [] Hx) as [H1 H2]; [constructor|done|].
  rewrite app_nil_r in H2. transitivity (map snd (fold_left (fun acc x =>
    insert_by (fun x y => by_source x.2 y.2) x acc) xs [])); [f_equal|apply fold_insert_snd].
  assert (forall x y, x ∈ xs -> y ∈ xs -> x.1 = y.1 -> x = y) as Hinj.
  { clear H1 H2. induction Hx as [|z xs Hx IH Hz]; [set_solver|].
    rewrite Forall_forall in Hz.
    intros x y [->|Hin]%elem_of_cons [->|Hin']%elem_of_cons E; [done| | |by apply IH].
    - specialize (Hz _ Hin'). lia.
    - specialize (Hz _ Hin). lia. }
  assert (NoDup xs) as Hnd.
  { clear -Hx. induction Hx as [|z xs Hx IH Hz]; constructor; [|done].
    intros Hin. rewrite Forall_forall in Hz. specialize (Hz _ Hin). lia. }
  apply (strictly_sorted_unique (compare_accepted cmp)); [|exact H1|by rewrite H2, sort_by_perm].
  apply sorted_strict; [apply sort_by_sorted, compare_accepted_preorder|by rewrite sort_by_perm|].
  intros [n i] [m j] Hi Hj. rewrite sort_by_perm in Hi, Hj. unfold compare_accepted. simpl.
  destruct (cmp _ _); simpl; try done. intros ->%Nat.compare_eq_iff. by apply Hinj.
Qed.

Lemma legacy_order_perm batch : legacy_order batch ≡ₚ batch.
Proof using Type.
  unfold legacy_order. rewrite <-(app_nil_r batch) at 2. generalize (@nil LegacyListItem).
  induction batch as [|i batch IH]; intros acc; simpl; [done|].
  rewrite IH, insert_by_perm. by rewrite Permutation_middle.
Qed.
End legacy_order.

(** ** The index contract

    A bound index mirrors the list's sources as long as the binding is
    current.  [evolves] is what every operation of the list promises to an
    index: the binding is kept with the sources, or it moves to a revision or
    identity no index has seen. *)

Definition evolves (s s' : LegacyList * heap) : Prop :=
  (next_arc s.2 <= next_arc s'.2)%nat /\
  ((binding s'.1 = binding s.1 /\ map source_path (items s'.1) ≡ₚ map source_path (items s.1)) \/
   (identity s'.1 = identity s.1 /\ source_revision s.1 < source_revision s'.1) \/
   (next_arc s.2 <= identity s'.1 < next_arc s'.2)%nat).

Section index_invariant.
Variable cmp : LegacyText -> LegacyText -> comparison.
Context `{!TotalPreorder cmp}.

Definition mirrors (index : LegacyAppendIndex) (l : LegacyList) : Prop :=
  chunks_ok cmp (chunks index) /\ concat (chunks index) ≡ₚ map source_path (items l).

Definition index_inv (index : LegacyAppendIndex) (s : LegacyList * heap) : Prop :=
  match model_identity index with
  | None => True
  | Some id =>
      (id < next_arc s.2)%nat /\
      (id = identity s.1 ->
         index_revision index < source_revision s.1 \/
         (index_revision index = source_revision s.1 /\ mirrors index s.1))
  end.

Lemma index_inv_new s : index_inv index_new s.
Proof. done. Qed.
Lemma index_inv_cleared index s : index_inv (clear_binding index) s.
Proof. done. Qed.

Lemma index_inv_current index s :
  index_inv index s -> is_current_for index s.1 = true -> mirrors index s.1.
Proof.
  unfold index_inv, is_current_for. intros H [Hr%Z.eqb_eq Hi%bool_decide_eq_true]%andb_true_iff.
  rewrite Hi in H. destruct H as [_ H]. destruct (H eq_refl) as [?|[_ ?]]; [lia|done].
Qed.

(** The invariant survives every list operation, whether or not the caller
    uses the index in between. *)
Lemma index_inv_evolves index s s' : index_inv index s -> evolves s s' -> index_inv index s'.
Proof.
  unfold index_inv. destruct (model_identity index) as [id|]; [|done].
  intros [Hlt Hid] [Hn He]. split; [lia|]. intros ->.
  destruct He as [[Hb Hp]|[[Hi Hr]|Hf]].
  - unfold binding in Hb. injection Hb as Hbi Hbr. rewrite Hbr.
    destruct (Hid Hbi) as [?|[? [Hc Hm]]]; [by left|right]. split; [done|].
    split; [done|]. by rewrite Hm, Hp.
  - destruct (Hid Hi) as [?|[? _]]; left; lia.
  - lia.
Qed.

Lemma index_inv_bound index l h :
  binding_ok (l, h) -> mirrors index l -> index_inv (bind_to l index) (l, h).
Proof. intros [Hid Hr] Hm. split; [done|]. intros _. right. by split. Qed.
End index_invariant.

Lemma evolves_refl s : evolves s s.
Proof. split; [done|]. left. done. Qed.
Lemma evolves_heap l h h' : (next_arc h <= next_arc h')%nat -> evolves (l, h) (l, h').
Proof. intros H. split; [done|]. by left. Qed.
Lemma evolves_trans a b c : evolves a b -> evolves b c -> evolves a c.
Proof.
  unfold evolves, binding. intros [Hn1 H1] [Hn2 H2]. split; [lia|].
  destruct H1 as [[[= Hi1 Hr1] Hp1]|[[Hi1 Hr1]|Hf1]], H2 as [[[= Hi2 Hr2] Hp2]|[[Hi2 Hr2]|Hf2]];
    try (right; right; lia).
  - left. split; [congruence|]. by rewrite Hp2.
  - right; left. split; [congruence|]. lia.
  - right; left. split; [congruence|lia].
  - right; left. split; [congruence|lia].
Qed.

(** The heap grants and allocates, and never forgets an identity. *)
Lemma try_reserve_arc {E} (e : E) h r h' : try_reserve e h = (r, h') -> next_arc h' = next_arc h.
Proof. unfold try_reserve. destruct (reservations h); intros [= _ <-]; done. Qed.

Definition keeps_arc {E A} (m : SE heap E A) : Prop :=
  forall h r h', m h = (r, h') -> next_arc h' = next_arc h.
Lemma keeps_reserve {E} (e : E) : keeps_arc (try_reserve e).
Proof. intros h r h'. apply try_reserve_arc. Qed.
Lemma keeps_ret {E A} (a : A) : keeps_arc (mret a : SE heap E A).
Proof. by intros h r h' [= _ <-]. Qed.
Lemma keeps_bind {E A B} (m : SE heap E A) (f : A -> SE heap E B) :
  keeps_arc m -> (forall a, keeps_arc (f a)) -> keeps_arc (m ≫= f).
Proof.
  intros Hm Hf h r h'. unfold mbind, SE_bind. destruct (m h) as [[a|e] h1] eqn:E1.
  - intros H. rewrite (Hf _ _ _ _ H). by eapply Hm.
  - intros [= _ <-]. by eapply Hm.
Qed.
#[export] Hint Resolve keeps_reserve keeps_ret keeps_bind : cmd.

Lemma keeps_clone rows : keeps_arc (clone_source_paths rows).
Proof. induction rows; simpl; unfold try_clone_text; auto 10 with cmd. Qed.
Lemma keeps_accept dup p batch : keeps_arc (accept_rows dup p batch).
Proof.
  revert p. induction batch as [|i batch IH]; intros p; simpl; [auto with cmd|].
  destruct (dup _); auto with cmd.
Qed.
Lemma keeps_chunk_sorted fuel sources : keeps_arc (chunk_sorted fuel sources).
Proof. revert sources. induction fuel as [|fuel IH]; intros [|s rest]; simpl; auto with cmd. Qed.
Lemma keeps_rebuild cmp rows : keeps_arc (rebuild_chunks cmp rows).
Proof.
  unfold rebuild_chunks, try_chunk_sorted_sources.
  auto 10 using keeps_clone, keeps_chunk_sorted with cmd.
Qed.
Lemma keeps_insert cmp cs s : keeps_arc (try_insert_source cmp cs s).
Proof.
  unfold try_insert_source. destruct (insertion_location _ _ _).
  repeat case_match; auto 10 with cmd.
Qed.

(** ** What an append does *)

Lemma SE_bind_inv {S E A B} (m : SE S E A) (f : A -> SE S E B) s r s' :
  (m ≫= f) s = (r, s') ->
  (exists e, m s = (Err e, s') /\ r = Err e) \/
  exists a s1, m s = (Ok a, s1) /\ f a s1 = (r, s').
Proof.
  unfold mbind, SE_bind. destruct (m s) as [[a|e] s1]; intros H; [right; eauto|].
  left. injection H as <- <-. eauto.
Qed.

Lemma on_list_heap_inv {E A} (k : SE heap E A) index l h r s' :
  on_list (on_heap k) (index, (l, h)) = (r, s') ->
  exists h', k h = (r, h') /\ s' = (index, (l, h')).
Proof.
  unfold on_list, on_heap. simpl. destruct (k h) as [r' h']. intros [= <- <-]. eauto.
Qed.

(** Rows whose path is not among the existing sources. *)
Definition fresh_rows (cmp : LegacyText -> LegacyText -> comparison) (existing : list LegacyText)
    (batch : list LegacyListItem) : list LegacyListItem :=
  List.filter (fun item =>
    negb (existsb (fun t => match cmp t (source_path item) with Eq => true | _ => false end)
            existing)) batch.

Lemma fresh_rows_perm cmp a b batch : a ≡ₚ b -> fresh_rows cmp a batch = fresh_rows cmp b batch.
Proof.
  intros Hp. unfold fresh_rows. apply filter_ext. intros i. f_equal.
  set (p := fun t => match cmp t (source_path i) with Eq => true | _ => false end).
  destruct (existsb p a) eqn:Ea, (existsb p b) eqn:Eb; try done.
  - apply existsb_exists in Ea as (t & Ht%list_elem_of_In & Hpt). rewrite Hp in Ht.
    apply existsb_false in Eb. rewrite Forall_forall in Eb. by rewrite (Eb _ Ht) in Hpt.
  - apply existsb_exists in Eb as (t & Ht%list_elem_of_In & Hpt). rewrite <-Hp in Ht.
    apply existsb_false in Ea. rewrite Forall_forall in Ea. by rewrite (Ea _ Ht) in Hpt.
Qed.

Section append_facts.
Variable cmp : LegacyText -> LegacyText -> comparison.
Context `{!TotalPreorder cmp}.

Lemma accept_rows_Ok dup p batch h acc h' :
  accept_rows dup p batch h = (Ok acc, h') ->
  map snd acc = List.filter (fun i => negb (dup (source_path i))) batch /\
  StronglySorted (fun x y => x.1 < y.1)%nat acc /\ Forall (fun x => p <= x.1)%nat acc.
Proof using Type.
  revert p h acc h'. induction batch as [|i batch IH]; intros p h acc h' H; cbn [accept_rows] in H.
  { apply SE_ret_Ok in H as [-> _]. repeat constructor. }
  simpl. destruct (dup (source_path i)); simpl; [by eapply IH|].
  apply SE_bind_Ok in H as (? & ? & _ & H). apply SE_bind_Ok in H as (rest & ? & Hr & H).
  apply SE_ret_Ok in H as [-> _]. apply IH in Hr as (Hm & Hs & Hf). simpl.
  split_and!; [by f_equal| |].
  - constructor; [done|]. eapply Forall_impl; [exact Hf|]. intros y Hy. simpl in *. lia.
  - constructor; [done|]. eapply Forall_impl; [exact Hf|]. intros y Hy. simpl in *. lia.
Qed.

Lemma duplicate_fresh cs batch :
  chunks_ok cmp cs ->
  List.filter (fun i => negb (source_chunks_contain cmp cs (source_path i))) batch =
  fresh_rows cmp (concat cs) batch.
Proof using TotalPreorder0.
  intros Hok. apply filter_ext. intros i. f_equal.
  pose proof (source_chunks_contain_spec cmp cs (source_path i) Hok) as Hspec.
  destruct (existsb _ (concat cs)) eqn:E.
  - apply Hspec. apply existsb_exists in E as (t & Ht & E). apply Exists_exists.
    exists t. split; [by apply list_elem_of_In|]. by destruct (cmp t _).
  - destruct (source_chunks_contain _ _ _); [|done]. destruct Hspec as [Hspec _].
    specialize (Hspec eq_refl). apply Exists_exists in Hspec as (t & Ht & Heq).
    apply existsb_false in E. rewrite Forall_forall in E. specialize (E _ Ht).
    simpl in E. by rewrite Heq in E.
Qed.

Lemma accepted_units_Ok existing row req pl acc req' pl' :
  0 <= pl ->
  accepted_units existing row req pl acc = Ok (req', pl') ->
  req' = req + units_of acc /\ pl' = pl + planned_of acc /\
  Forall (fun i => zlen (proposed_name i) <= MAX_PROPOSED_NAME_UTF16_UNITS) acc.
Proof using Type.
  revert row req pl. induction acc as [|i acc IH]; intros row req pl Hpl; cbn [accepted_units].
  { intros [= <- <-]. simpl. split_and!; [lia|lia|done]. }
  intros (r & _ & H)%result_bind_Ok. apply result_bind_Ok in H as ([] & Hv & H).
  apply result_bind_Ok in H as (rq & Hrq & H). apply result_bind_Ok in H as (u & Hu & H).
  apply result_bind_Ok in H as (p & Hp & H).
  apply ok_or_Ok, checked_add_Some in Hrq as [-> _].
  apply ok_or_Ok, checked_planned_path_units_Some in Hu as [-> _]; [|apply zlen_nonneg].
  apply ok_or_Ok, checked_add_Some in Hp as [-> _].
  pose proof (zlen_nonneg (proposed_name i)). pose proof (zlen_nonneg (destination_parent i)).
  pose proof (destination_separator_units_bound (destination_parent i)).
  apply IH in H as (-> & -> & Hall); [|lia]. simpl. rewrite zlen_planned_path.
  split_and!; [lia|lia|]. constructor; [|done].
  unfold validate_proposal_units in Hv. destruct (_ <? zlen _) eqn:Hz; [done|].
  by apply Z.ltb_ge in Hz.
Qed.

Lemma insert_sources_inv srcs index l h r index' l' h' :
  insert_sources cmp srcs (index, (l, h)) = (r, (index', (l', h'))) ->
  l' = l /\ next_arc h' = next_arc h /\
  match r with
  | Err _ => model_identity index' = None
  | Ok _ =>
      model_identity index' = model_identity index /\
      index_revision index' = index_revision index /\
      (chunks_ok cmp (chunks index) ->
       chunks_ok cmp (chunks index') /\ concat (chunks index') ≡ₚ srcs ++ concat (chunks index))
  end.
Proof using TotalPreorder0.
  revert index h. induction srcs as [|s srcs IH]; intros index h H; cbn [insert_sources] in H.
  { injection H as <- <- <- <-. by split_and!. }
  apply SE_bind_inv in H as [(e & H & _)|(a & s1 & Hg & H)]; [done|]. injection Hg as <- <-.
  destruct (try_insert_source cmp (chunks index) s h) as [r1 h1] eqn:Hins.
  pose proof (keeps_insert cmp (chunks index) s _ _ _ Hins) as Harc.
  unfold mbind at 1, SE_bind at 1 in H. cbn [fst snd] in H. rewrite Hins in H.
  destruct r1 as [cs|e].
  - apply SE_bind_inv in H as [(e & H & _)|(a & s1 & Hp & H)]; [done|]. injection Hp as <- <-.
    apply IH in H as (-> & Hh & Hr). split_and!; [done|congruence|]. destruct r; [|done].
    destruct Hr as (-> & -> & Hc). split_and!; [done|done|]. intros Hok.
    destruct (try_insert_source_Ok cmp _ _ _ _ _ Hok Hins) as [Hok' Hperm].
    destruct (Hc Hok') as [? Hp2]. split; [done|]. rewrite Hp2. simpl in *. rewrite Hperm.
    by rewrite Permutation_middle.
  - injection H as <- <- <- <-. by split_and!.
Qed.
End append_facts.

Lemma invalidate_evolves {E} l h r l' h' :
  binding_ok (l, h) -> @invalidate_source_index E (l, h) = (r, (l', h')) ->
  r = Ok tt /\ binding_ok (l', h') /\
  (next_arc h <= next_arc h')%nat /\
  ((identity l' = identity l /\ source_revision l < source_revision l') \/
   (next_arc h <= identity l' < next_arc h')%nat).
Proof.
  intros [Hid Hrev]. simpl in *. unfold invalidate_source_index, mbind, SE_bind, get_list, put_list,
    on_heap, arc_new. simpl. unfold binding_ok, u64_max in *.
  destruct (source_revision l + 1 <=? 2 ^ 64 - 1) eqn:Hr; intros [= <- <- <-]; simpl.
  - apply Z.leb_le in Hr. split_and!; try done; try lia.
  - split_and!; try done; try lia.
Qed.

Section append_theorem.
Variable cmp : LegacyText -> LegacyText -> comparison.
Context `{!TotalPreorder cmp}.

Definition appended (batch : list LegacyListItem) (l : LegacyList) : list LegacyListItem :=
  legacy_order cmp (fresh_rows cmp (map source_path (items l)) batch).

Definition append_step (batch : list LegacyListItem) (l : LegacyList) (h : heap)
    (r : result ProposalMutationError nat) (index' : LegacyAppendIndex) (l' : LegacyList)
    (h' : heap) : Prop :=
  index_inv cmp index' (l', h') /\ evolves (l, h) (l', h') /\ list_ok l' /\
  binding_ok (l', h') /\
  match r with
  | Err _ => l' = l
  | Ok n =>
      items l' = items l ++ appended batch l /\ n = length (appended batch l) /\
      is_current_for index' l' = true
  end.

Lemma append_step_error batch l h e index' h' :
  list_ok l -> binding_ok (l, h) -> next_arc h' = next_arc h ->
  index_inv cmp index' (l, h') -> append_step batch l h (Err e) index' l h'.
Proof using Type.
  intros Hok [Hb1 Hb2] Hh Hi. simpl in *.
  split_and!; try done; [apply evolves_heap; lia|split; simpl; [lia|done]].
Qed.

Lemma is_current_bound l index : is_current_for (bind_to l index) l = true.
Proof using Type.
  unfold is_current_for, bind_to. simpl. by rewrite Z.eqb_refl, bool_decide_true.
Qed.

Lemma commit_accepted_step batch l h index acc req pl r index' l' h' :
  list_ok l -> binding_ok (l, h) ->
  acc = appended batch l ->
  chunks_ok cmp (chunks index) ->
  concat (chunks index) ≡ₚ map source_path acc ++ map source_path (items l) ->
  req = units_of (items l ++ acc) -> req <= MAX_TOTAL_PROPOSED_NAME_UTF16_UNITS ->
  pl = planned_of (items l ++ acc) -> pl <= MAX_TOTAL_PLANNED_PATH_UTF16_UNITS ->
  Forall (fun i => zlen (proposed_name i) <= MAX_PROPOSED_NAME_UTF16_UNITS) acc ->
  commit_accepted acc req pl (index, (l, h)) = (r, (index', (l', h'))) ->
  append_step batch l h r index' l' h'.
Proof using Type.
  intros Hok Hb Hacc Hch Hperm Hreq Hrm Hpl Hpm Hn H. unfold commit_accepted in H.
  destruct (@invalidate_source_index ProposalMutationError (l, h)) as [r1 [l1 h1]] eqn:Hinv.
  pose proof (invalidate_items _ _ _ Hinv) as (Hi1 & _ & _). simpl in Hi1.
  apply invalidate_evolves in Hinv as Hev; [|done]. destruct Hev as (-> & Hb1 & Hh1 & Hev).
  rewrite (SE_bind_step _ _ _ tt (index, (l1, h1))) in H
    by (unfold on_list; simpl; by rewrite Hinv).
  cbn [mbind SE_bind on_list get_list put_list get_index put_index fst snd mret SE_ret] in H.
  unfold mbind, SE_bind, on_list, get_list, put_list, get_index, put_index, mret, SE_ret in H.
  cbn [fst snd] in H. injection H as <- <- <- <-. rewrite Hi1.
  set (l2 := set_units req pl (set_items (items l ++ acc) l1)).
  assert (list_ok l2) as Hok2.
  { split; simpl; [done|done|by rewrite <-Hreq|by rewrite <-Hpl|].
    apply Forall_app. split; [by destruct Hok|done]. }
  split_and!.
  - apply index_inv_bound; [done|]. split; [done|]. simpl.
    rewrite Hperm, map_app. apply Permutation_app_comm.
  - split; [done|]. right. exact Hev.
  - exact Hok2.
  - exact Hb1.
  - simpl. by rewrite Hacc.
  - by rewrite Hacc.
  - apply is_current_bound.
Qed.

(** The part after the duplicates are known: [cs] are the chunks in force. *)
Lemma append_accepted_step batch l h index cs rebuilt acc h0 r index' l' h' :
  list_ok l -> binding_ok (l, h) -> index_inv cmp index (l, h) ->
  match rebuilt with Some c => c = cs | None => chunks index = cs end ->
  chunks_ok cmp cs -> concat cs ≡ₚ map source_path (items l) ->
  next_arc h0 = next_arc h -> acc = appended batch l ->
  ('(requested_units, requested_planned_path_units) ←
        SE_lift (accepted_units (length (items l)) 0 (proposed_name_utf16_units l)
                   (planned_path_utf16_units l) acc);
      if MAX_TOTAL_PROPOSED_NAME_UTF16_UNITS <? requested_units
      then SE_throw (AggregateBudgetExceeded requested_units
                       MAX_TOTAL_PROPOSED_NAME_UTF16_UNITS)
      else if MAX_TOTAL_PLANNED_PATH_UTF16_UNITS <? requested_planned_path_units
      then SE_throw (PlannedPathAggregateBudgetExceeded requested_planned_path_units
                       MAX_TOTAL_PLANNED_PATH_UTF16_UNITS)
      else
        on_list (on_heap (try_reserve AllocationFailed));;
        staged_sources ← on_list (on_heap (clone_source_paths acc));
        on_list (on_heap (try_reserve AllocationFailed));;
        match rebuilt with
        | Some cs => put_index (set_chunks cs index)
        | None => mret tt
        end;;
        insert_sources cmp staged_sources;;
        commit_accepted acc requested_units requested_planned_path_units)
    (index, (l, h0)) = (r, (index', (l', h'))) ->
  append_step batch l h r index' l' h'.
Proof using TotalPreorder0.
  intros Hok Hb Hinv Hcs Hch Hperm Hh0 Hacc H.
  assert (forall e h1, next_arc h1 = next_arc h -> append_step batch l h (Err e) index l h1) as Herr.
  { intros e h1 Hh1. apply append_step_error; [done|done|done|].
    apply (index_inv_evolves cmp _ (l, h)); [done|]. apply evolves_heap. lia. }
  apply SE_bind_inv in H as [(e & H & ->)|([req pl] & s1 & Hu & H)].
  { unfold SE_lift in H. injection H as _ <- <- <-. by apply Herr. }
  apply SE_lift_Ok in Hu as [Hu ->]. pose proof Hok as [Hou Hop _ _ _].
  apply accepted_units_Ok in Hu as (Hreq & Hpl & Hn);
    [|rewrite Hop; apply planned_of_nonneg].
  destruct (MAX_TOTAL_PROPOSED_NAME_UTF16_UNITS <? req) eqn:E1;
    [injection H as <- <- <- <-; by apply Herr|].
  destruct (MAX_TOTAL_PLANNED_PATH_UTF16_UNITS <? pl) eqn:E2;
    [injection H as <- <- <- <-; by apply Herr|].
  apply Z.ltb_ge in E1, E2.
  apply SE_bind_inv in H as [(e & H & ->)|(a1 & s1 & H1 & H)].
  { apply on_list_heap_inv in H as (h1 & Hk & [= -> -> ->]). apply Herr.
    rewrite (try_reserve_arc _ _ _ _ Hk). done. }
  apply on_list_heap_inv in H1 as (h1 & Hk1 & ->). apply try_reserve_arc in Hk1.
  apply SE_bind_inv in H as [(e & H & ->)|(srcs & s1 & H2 & H)].
  { apply on_list_heap_inv in H as (h2 & Hk & [= -> -> ->]). apply Herr.
    apply keeps_clone in Hk. congruence. }
  apply on_list_heap_inv in H2 as (h2 & Hk2 & ->). pose proof (keeps_clone _ _ _ _ Hk2) as Hh2.
  apply clone_source_paths_Ok in Hk2 as ->.
  apply SE_bind_inv in H as [(e & H & ->)|(a3 & s1 & H3 & H)].
  { apply on_list_heap_inv in H as (h3 & Hk & [= -> -> ->]). apply Herr.
    apply try_reserve_arc in Hk. congruence. }
  apply on_list_heap_inv in H3 as (h3 & Hk3 & ->). apply try_reserve_arc in Hk3.
  apply SE_bind_inv in H as [(e & H & ->)|(a4 & s1 & H4 & H)]; [by destruct rebuilt|].
  assert (exists index1, s1 = (index1, (l, h3)) /\ chunks index1 = cs) as (index1 & -> & Hcs1).
  { destruct rebuilt; injection H4 as <- <-; eauto. }
  apply SE_bind_inv in H as [(e & H & ->)|(a5 & [index2 [l2 h4]] & H5 & H)].
  { apply insert_sources_inv in H as (-> & Hh4 & Hnone); [|done].
    apply append_step_error; [done|done|congruence|]. unfold index_inv. by rewrite Hnone. }
  apply insert_sources_inv in H5 as (-> & Hh4 & _ & _ & Hins); [|done].
  rewrite Hcs1 in Hins. destruct (Hins Hch) as [Hch2 Hp2].
  assert (append_step batch l h4 r index' l' h') as (Hi & He & Hl & Hb' & Hm).
  { apply (commit_accepted_step batch l h4 index2 acc req pl);
      [assumption| |assumption|assumption| | |assumption| |assumption|assumption|exact H].
    - destruct Hb as [Hb1 Hb2]. split; simpl in *; [|done]. rewrite Hh4, Hk3, Hh2, Hk1, Hh0. done.
    - by rewrite Hp2, Hperm.
    - rewrite units_of_app, Hreq, Hou. done.
    - rewrite planned_of_app, Hpl, Hop. done. }
  split_and!; try done. apply (evolves_trans _ (l, h4)); [|done]. apply evolves_heap. lia.
Qed.

Lemma append_batch_indexed_step batch index l h r index' l' h' :
  list_ok l -> binding_ok (l, h) -> index_inv cmp index (l, h) ->
  append_batch_indexed cmp batch (index, (l, h)) = (r, (index', (l', h'))) ->
  append_step batch l h r index' l' h'.
Proof using TotalPreorder0.
  intros Hok Hb Hinv H. unfold append_batch_indexed in H.
  rewrite (SE_bind_step _ _ _ index (index, (l, h))) in H by reflexivity.
  rewrite (SE_bind_step _ _ _ l (index, (l, h))) in H by reflexivity.
  assert (forall e h1, next_arc h1 = next_arc h -> append_step batch l h (Err e) index l h1) as Herr.
  { intros e h1 Hh1. apply append_step_error; [done|done|done|].
    apply (index_inv_evolves cmp _ (l, h)); [done|]. apply evolves_heap. lia. }
  apply SE_bind_inv in H as [(e & H & ->)|(rebuilt & s1 & H1 & H)].
  { destruct (is_current_for index l); [done|].
    apply SE_bind_inv in H as [(e' & H & [= <-])|(a & s1 & _ & H)]; [|done].
    apply on_list_heap_inv in H as (h1 & Hk & [= -> -> ->]). apply Herr.
    by apply keeps_rebuild in Hk. }
  assert (exists h1 cs, s1 = (index, (l, h1)) /\ next_arc h1 = next_arc h /\
    chunks_ok cmp cs /\ concat cs ≡ₚ map source_path (items l) /\
    match rebuilt with
    | Some c => c = cs
    | None => chunks index = cs /\ is_current_for index l = true
    end) as (h1 & cs & -> & Hh1 & Hch & Hperm & Hreb).
  { destruct (is_current_for index l) eqn:Hcur.
    - injection H1 as <- <-. destruct (index_inv_current cmp index (l, h) Hinv Hcur) as [Hc Hp].
      exists h, (chunks index). by split_and!.
    - apply SE_bind_Ok in H1 as (cs & s2 & Hcs & H1). apply SE_ret_Ok in H1 as [-> ->].
      apply on_list_heap_inv in Hcs as (h1 & Hk & ->).
      pose proof (keeps_rebuild cmp _ _ _ _ Hk). apply rebuild_chunks_Ok in Hk as [? ?]; [|done].
      exists h1, cs. by split_and!. }
  clear H1. cbv zeta in H.
  apply SE_bind_inv in H as [(e & H & ->)|(accepted & s2 & H2 & H)].
  { apply on_list_heap_inv in H as (h2 & Hk & [= -> -> ->]). apply Herr.
    apply keeps_accept in Hk. congruence. }
  apply on_list_heap_inv in H2 as (h2 & Hk & ->). pose proof (keeps_accept _ _ _ _ _ _ Hk) as Hh2.
  apply accept_rows_Ok in Hk as (Hsnd & Hsorted & _).
  assert (map snd accepted = fresh_rows cmp (map source_path (items l)) batch) as Hfresh.
  { rewrite Hsnd, <-(fresh_rows_perm cmp _ _ batch Hperm), <-(duplicate_fresh cmp) by done.
    apply filter_ext. intros i. destruct rebuilt as [c|]; [by subst|].
    unfold contains. by destruct Hreb as [-> _]. }
  destruct accepted as [|x accepted].
  - simpl in Hfresh. assert (appended batch l = []) as Happ.
    { unfold appended. by rewrite <-Hfresh. }
    assert (binding_ok (l, h2)) as Hb2.
    { destruct Hb as [Hb1 Hb3]. split; simpl in *; [|done]. rewrite Hh2, Hh1. done. }
    destruct rebuilt as [c|].
    + injection H as <- <- <- <-. subst c. unfold append_step. rewrite Happ, app_nil_r.
      split_and!; try done; [by apply index_inv_bound|apply evolves_heap; lia|apply is_current_bound].
    + injection H as <- <- <- <-. destruct Hreb as [_ Hcur]. unfold append_step.
      rewrite Happ, app_nil_r. split_and!; try done; [|apply evolves_heap; lia].
      apply (index_inv_evolves cmp _ (l, h)); [done|]. apply evolves_heap. lia.
  - eapply (append_accepted_step batch l h index cs rebuilt); [done|done|done| |done|done| | |exact H].
    + destruct rebuilt; [done|]. by destruct Hreb.
    + congruence.
    + rewrite sort_accepted by done. unfold appended. by rewrite <-Hfresh.
Qed.
End append_theorem.
