(* ===== verification/Ordering.v ===== *)
(** * Ordering: sorting and moving rows

    [sort_by_with_semantics_changed] and the [move_rows] commands of
    [LegacyList] ([crates/darknamer-core/src/lib.rs]).  Sorting computes an
    order vector, then permutes the rows in place by following its cycles. *)

From S2P Require Import Prelude Collections LegacyText ListItem WorkList AppendIndex.

Inductive LegacySortMode : Type :=
| NameAscending | NameDescending | FullPathAscending | FullPathDescending
| SizeAscending | SizeDescending | ModifiedAscending | ModifiedDescending
| CreatedAscending | CreatedDescending.

Inductive SortSemantics : Type := SafeActualSize | LegacyDarkNamer080210.

(** [left.wrapping_sub(right) as i32] against 0, for [u32] operands. *)
Definition compare_legacy_size (left right : Z) : comparison :=
  let wrapped := (left - right) mod 2 ^ 32 in
  Z.compare (if wrapped <? 2 ^ 31 then wrapped else wrapped - 2 ^ 32) 0.

Section sort.
Variable compare_text : LegacyText -> LegacyText -> comparison.

Definition compare_items (mode : LegacySortMode) (semantics : SortSemantics)
    (left right : LegacyListItem) : comparison :=
  match mode with
  | NameAscending => compare_text (current_name left) (current_name right)
  | NameDescending => CompOpp (compare_text (current_name left) (current_name right))
  | FullPathAscending => compare_text (source_path left) (source_path right)
  | FullPathDescending => CompOpp (compare_text (source_path left) (source_path right))
  | SizeAscending =>
      match semantics with
      | SafeActualSize => Z.compare (actual_size left) (actual_size right)
      | LegacyDarkNamer080210 => compare_legacy_size (size left) (size right)
      end
  | SizeDescending =>
      match semantics with
      | SafeActualSize => CompOpp (Z.compare (actual_size left) (actual_size right))
      | LegacyDarkNamer080210 => CompOpp (compare_legacy_size (size left) (size right))
      end
  | ModifiedAscending => Z.compare (modified left) (modified right)
  | ModifiedDescending => CompOpp (Z.compare (modified left) (modified right))
  | CreatedAscending => Z.compare (created left) (created right)
  | CreatedDescending => CompOpp (Z.compare (created left) (created right))
  end.
End sort.

(** [slice::swap]; both positions are in range at every use. *)
Definition swap {A} (i j : nat) (l : list A) : list A :=
  match l !! i, l !! j with
  | Some a, Some b => <[i := b]> (<[j := a]> l)
  | _, _ => l
  end.

Section permuting.
Context {A : Type}.

(** The [while] loop from [start]; [fuel] bounds the unvisited positions. *)
Fixpoint follow_cycle (fuel start current : nat) (order : list nat) (rows : list A)
  : list nat * list A :=
  match fuel with
  | O => (order, rows)
  | S fuel =>
      match order !! current with
      | None => (order, rows)
      | Some next =>
          if (next =? current)%nat then (order, rows)
          else
            let order := <[current := current]> order in
            if (next =? start)%nat then (order, rows)
            else follow_cycle fuel start next order (swap current next rows)
      end
  end.

Definition permute_in_place (order : list nat) (rows : list A) : list nat * list A :=
  fold_left (fun s start => follow_cycle (length order) start start s.1 s.2)
    (seq 0 (length order)) (order, rows).
End permuting.

Definition is_identity_order (order : list nat) : bool :=
  forallb (fun p => (p.1 =? p.2)%nat) (zip (seq 0 (length order)) order).

Section sort_commands.
Variable compare_text : LegacyText -> LegacyText -> comparison.

Definition sort_order (mode : LegacySortMode) (semantics : SortSemantics)
    (rows : list LegacyListItem) : list nat :=
  sort_by (fun left right =>
      match rows !! left, rows !! right with
      | Some l, Some r => compare_items compare_text mode semantics l r
      | _, _ => Eq
      end) (seq 0 (length rows)).

Definition sort_by_with_semantics_changed {E} (mode : LegacySortMode)
    (semantics : SortSemantics) : Cmd E bool :=
  l ← get_list;
  let order := sort_order mode semantics (items l) in
  if is_identity_order order then mret false
  else put_list (set_items (permute_in_place order (items l)).2 l);; mret true.
Definition sort_by_with_semantics {E} (mode : LegacySortMode) (semantics : SortSemantics)
  : Cmd E unit := sort_by_with_semantics_changed mode semantics;; mret tt.
Definition sort_rows_by_changed {E} (mode : LegacySortMode) : Cmd E bool :=
  sort_by_with_semantics_changed mode LegacyDarkNamer080210.
Definition sort_rows_by {E} (mode : LegacySortMode) : Cmd E unit :=
  sort_by_with_semantics mode LegacyDarkNamer080210.
End sort_commands.

Definition sort_rows (to_lowercase : Z -> list Z) {E} (mode : LegacySortMode) : Cmd E unit :=
  sort_rows_by (case_insensitive_cmp to_lowercase) mode.

(** ** Moving selected rows *)

Record MoveRowsOutcome : Type := mkMove { moved_rows : list nat; rows_changed : bool }.

Definition move_rows_earlier_changed {E} (selected : list nat) : Cmd E MoveRowsOutcome :=
  l ← get_list;
  let selected := normalized_indices selected (length (items l)) in
  if bool_decide (head selected = Some 0%nat) then mret (mkMove selected false)
  else
    put_list (set_items
      (fold_left (fun rows index => swap (index - 1) index rows) selected (items l)) l);;
    mret (mkMove (map (fun index => (index - 1)%nat) selected)
            (negb (bool_decide (selected = [])))).
Definition move_rows_earlier {E} (selected : list nat) : Cmd E (list nat) :=
  outcome ← move_rows_earlier_changed selected; mret (moved_rows outcome).

Definition move_rows_later_changed {E} (selected : list nat) : Cmd E MoveRowsOutcome :=
  l ← get_list;
  let selected := normalized_indices selected (length (items l)) in
  if match last selected with
     | Some index => (S index =? length (items l))%nat
     | None => false
     end
  then mret (mkMove selected false)
  else
    put_list (set_items
      (fold_left (fun rows index => swap index (S index) rows) (rev selected) (items l)) l);;
    mret (mkMove (map S selected) (negb (bool_decide (selected = [])))).
Definition move_rows_later {E} (selected : list nat) : Cmd E (list nat) :=
  outcome ← move_rows_later_changed selected; mret (moved_rows outcome).

(** ** Facts about swaps and cycles *)

Section swap_facts.
Context {A : Type}.
Implicit Types l : list A.

Lemma length_swap i j l : length (swap i j l) = length l.
Proof. unfold swap. destruct (l !! i), (l !! j); rewrite ?length_insert; done. Qed.

Lemma lookup_swap i j l k :
  (i < length l)%nat -> (j < length l)%nat ->
  swap i j l !! k = if (k =? i)%nat then l !! j else if (k =? j)%nat then l !! i else l !! k.
Proof.
  intros Hi Hj. unfold swap.
  destruct (lookup_lt_is_Some_2 l i Hi) as [a Ha], (lookup_lt_is_Some_2 l j Hj) as [b Hb].
  rewrite Ha, Hb. destruct (Nat.eqb_spec k i) as [->|Hki].
  - rewrite list_lookup_insert_eq; [done|]. by rewrite length_insert.
  - rewrite list_lookup_insert_ne by done.
    destruct (Nat.eqb_spec k j) as [->|]; [by rewrite list_lookup_insert_eq|].
    by rewrite list_lookup_insert_ne.
Qed.

Lemma swap_perm i j l : swap i j l ≡ₚ l.
Proof.
  unfold swap. destruct (l !! i) as [a|] eqn:Ha; [|done].
  destruct (l !! j) as [b|] eqn:Hb; [|done].
  destruct (decide (i = j)) as [->|Hne].
  { rewrite list_insert_insert_eq. rewrite list_insert_id; [done|]. congruence. }
  by apply (Permutation_insert_swap l j i b a).
Qed.
End swap_facts.

Section cycle_facts.
Context {A : Type}.
Implicit Types (rows : list A) (order : list nat).

(** What position [d] must receive: the hole of an unfinished cycle is the
    row waiting at [current] for the predecessor of [start]. *)
Definition target (start current : nat) order rows (d : nat) : option A :=
  match order !! d with
  | None => None
  | Some o => rows !! (if (o =? start)%nat && negb (d =? start)%nat then current else o)
  end.

Definition in_range order : Prop := forall d o, order !! d = Some o -> (o < length order)%nat.
Definition injective_but (start : nat) order : Prop := forall d e o,
  d <> start -> e <> start -> order !! d = Some o -> order !! e = Some o -> d = e.
Definition injective order : Prop := forall d e o,
  order !! d = Some o -> order !! e = Some o -> d = e.

(** Inside a cycle: the start is placed, and nobody waits for [current]. *)
Definition mid_cycle (start current : nat) order : Prop :=
  current <> start /\ (current < length order)%nat /\ order !! start = Some start /\
  (forall d, order !! d <> Some current) /\ injective_but start order /\ in_range order.

Definition unplaced order : nat :=
  length (List.filter (fun d => negb (bool_decide (order !! d = Some d))) (seq 0 (length order))).

Lemma filter_remove (p q : nat -> bool) l x :
  NoDup l -> x ∈ l -> p x = true -> q x = false -> (forall y, y <> x -> q y = p y) ->
  length (List.filter p l) = S (length (List.filter q l)).
Proof using Type.
  induction 1 as [|y l Hy Hnd IH]; intros Hin Hp Hq Heq; [by apply not_elem_of_nil in Hin|].
  apply elem_of_cons in Hin as [->|Hin]; simpl.
  - rewrite Hp, Hq. simpl. f_equal. f_equal. apply filter_ext_in. intros z Hz.
    symmetry. apply Heq. intros ->. apply Hy. by apply list_elem_of_In.
  - rewrite (Heq y) by (by intros ->). destruct (p y); simpl; rewrite IH by done; done.
Qed.

Lemma unplaced_place order current next :
  order !! current = Some next -> next <> current ->
  unplaced order = S (unplaced (<[current := current]> order)).
Proof using Type.
  intros Hc Hne. apply lookup_lt_Some in Hc as Hlt. unfold unplaced. rewrite length_insert.
  apply (filter_remove _ _ _ current).
  - apply NoDup_seq.
  - apply elem_of_seq. lia.
  - rewrite Hc. apply negb_true_iff, bool_decide_eq_false. congruence.
  - apply negb_false_iff, bool_decide_eq_true. by apply list_lookup_insert_eq.
  - intros y Hy. by rewrite list_lookup_insert_ne by done.
Qed.

Lemma in_range_place order c : in_range order -> (c < length order)%nat -> in_range (<[c := c]> order).
Proof using Type.
  intros Hr Hc d o. rewrite length_insert. destruct (decide (d = c)) as [->|].
  - rewrite list_lookup_insert_eq by done. by intros [= <-].
  - rewrite list_lookup_insert_ne by done. apply Hr.
Qed.

(** One step inside a cycle: place [current], move on to [next]. *)
Lemma mid_step start current next order rows :
  mid_cycle start current order -> order !! current = Some next -> next <> start ->
  length rows = length order ->
  mid_cycle start next (<[current := current]> order) /\
  (forall d, target start next (<[current := current]> order) (swap current next rows) d =
             target start current order rows d).
Proof using Type.
  intros (Hcs & Hlt & Hst & Hno & Hinj & Hr) Hc Hns Hlen.
  assert (next <> current) as Hnc by (intros ->; by apply Hno in Hc).
  pose proof (Hr _ _ Hc) as Hnlt.
  assert (forall d, d <> current -> order !! d <> Some next) as Hno2.
  { intros d Hd Hdn. destruct (decide (d = start)) as [->|Hds]; [congruence|].
    apply Hd. by apply (Hinj d current next). }
  split.
  - split_and!; [done|by rewrite length_insert| | | |by apply in_range_place].
    + by rewrite list_lookup_insert_ne.
    + intros d. destruct (decide (d = current)) as [->|].
      * rewrite list_lookup_insert_eq by done. congruence.
      * rewrite list_lookup_insert_ne by done. by apply Hno2.
    + intros d e o Hd He Hdo Heo.
      destruct (decide (d = current)) as [->|], (decide (e = current)) as [->|]; [done| | |].
      * rewrite list_lookup_insert_eq in Hdo by done. injection Hdo as <-.
        rewrite list_lookup_insert_ne in Heo by done. by apply Hno in Heo.
      * rewrite list_lookup_insert_eq in Heo by done. injection Heo as <-.
        rewrite list_lookup_insert_ne in Hdo by done. by apply Hno in Hdo.
      * rewrite list_lookup_insert_ne in Hdo, Heo by done. by apply (Hinj d e o).
  - intros d. unfold target. destruct (decide (d = current)) as [->|Hdc].
    + rewrite list_lookup_insert_eq, Hc by done.
      rewrite (proj2 (Nat.eqb_neq current start)), (proj2 (Nat.eqb_neq next start)) by done. simpl.
      rewrite lookup_swap by lia. by rewrite Nat.eqb_refl.
    + rewrite list_lookup_insert_ne by done. destruct (order !! d) as [o|] eqn:Hd; [|done].
      rewrite lookup_swap by lia.
      destruct ((o =? start)%nat && negb (d =? start)%nat).
      * rewrite (proj2 (Nat.eqb_neq next current)), Nat.eqb_refl by done. done.
      * rewrite (proj2 (Nat.eqb_neq o current)) by (intros ->; by apply Hno in Hd).
        by rewrite (proj2 (Nat.eqb_neq o next)) by (intros ->; by apply (Hno2 d Hdc)).
Qed.

(** Closing the cycle restores injectivity; nothing waits any more. *)
Lemma mid_close start current order rows :
  mid_cycle start current order -> order !! current = Some start ->
  injective (<[current := current]> order) /\ in_range (<[current := current]> order) /\
  (forall d, target start start (<[current := current]> order) rows d =
             target start current order rows d).
Proof using Type.
  intros (Hcs & Hlt & Hst & Hno & Hinj & Hr) Hc.
  assert (forall d, d <> start -> d <> current -> order !! d <> Some start) as Hno2.
  { intros d Hds Hd Hdn. apply Hd. by apply (Hinj d current start). }
  split_and!; [|by apply in_range_place|].
  - intros d e o Hdo Heo. destruct (decide (d = current)) as [->|Hd], (decide (e = current)) as [->|He];
      [done| | |].
    + rewrite list_lookup_insert_eq in Hdo by done. injection Hdo as <-.
      rewrite list_lookup_insert_ne in Heo by done. by apply Hno in Heo.
    + rewrite list_lookup_insert_eq in Heo by done. injection Heo as <-.
      rewrite list_lookup_insert_ne in Hdo by done. by apply Hno in Hdo.
    + rewrite list_lookup_insert_ne in Hdo, Heo by done.
      destruct (decide (d = start)) as [->|Hds], (decide (e = start)) as [->|Hes]; [done| | |].
      * assert (o = start) as -> by congruence. by apply (Hno2 e) in Heo.
      * assert (o = start) as -> by congruence. by apply (Hno2 d) in Hdo.
      * by apply (Hinj d e o).
  - intros d. unfold target. destruct (decide (d = current)) as [->|Hdc].
    + rewrite list_lookup_insert_eq, Hc by done.
      rewrite (proj2 (Nat.eqb_neq current start)), Nat.eqb_refl by done. done.
    + rewrite list_lookup_insert_ne by done. destruct (order !! d) as [o|] eqn:Hd; [|done].
      destruct (Nat.eqb_spec o start) as [->|]; [|done].
      destruct (Nat.eqb_spec d start) as [->|Hds]; [done|]. by apply (Hno2 d) in Hd.
Qed.

(** From inside a cycle, enough fuel closes it. *)
Lemma follow_cycle_mid fuel start current order rows :
  mid_cycle start current order -> length rows = length order -> (unplaced order <= fuel)%nat ->
  let r := follow_cycle fuel start current order rows in
  length r.1 = length order /\ length r.2 = length order /\ in_range r.1 /\ injective r.1 /\
  r.1 !! start = Some start /\
  (forall d, order !! d = Some d -> r.1 !! d = Some d) /\
  (forall d, target start start r.1 r.2 d = target start current order rows d).
Proof using Type.
  revert current order rows. induction fuel as [|fuel IH]; intros current order rows Hm Hlen Hf;
    pose proof Hm as (Hcs & Hlt & Hst & Hno & Hinj & Hr);
    destruct (lookup_lt_is_Some_2 order current Hlt) as [next Hc];
    assert (next <> current) as Hnc by (intros ->; by apply Hno in Hc).
  { pose proof (unplaced_place order current next Hc Hnc). lia. }
  simpl. rewrite Hc, (proj2 (Nat.eqb_neq _ _) Hnc).
  pose proof (unplaced_place order current next Hc Hnc) as Hu.
  destruct (Nat.eqb_spec next start) as [->|Hns]; simpl.
  - destruct (mid_close start current order rows Hm Hc) as (Hi & Hr' & Ht).
    rewrite length_insert. split_and!; [done|done|done|done| | |done].
    + by rewrite list_lookup_insert_ne.
    + intros d Hd. destruct (decide (d = current)) as [->|].
      * by rewrite list_lookup_insert_eq.
      * by rewrite list_lookup_insert_ne.
  - destruct (mid_step start current next order rows Hm Hc Hns Hlen) as [Hm' Ht].
    destruct (IH next (<[current := current]> order) (swap current next rows) Hm')
      as (H1 & H2 & H3 & H4 & H5 & H6 & H7); [by rewrite length_swap, length_insert|lia|].
    rewrite length_insert in *. split_and!; [done|done|done|done|done| |].
    + intros d Hd. apply H6. destruct (decide (d = current)) as [->|].
      * by rewrite list_lookup_insert_eq.
      * by rewrite list_lookup_insert_ne.
    + intros d. by rewrite H7, Ht.
Qed.

Definition wanted order rows (d : nat) : option A := order !! d ≫= fun o => rows !! o.

Lemma target_wanted start order rows d : target start start order rows d = wanted order rows d.
Proof using Type.
  unfold target, wanted. destruct (order !! d) as [o|]; simpl; [|done].
  destruct (Nat.eqb_spec o start) as [->|]; simpl; [|done]. by destruct (d =? start)%nat.
Qed.

Lemma follow_cycle_spec start order rows :
  injective order -> in_range order -> (start < length order)%nat -> length rows = length order ->
  let r := follow_cycle (length order) start start order rows in
  length r.1 = length order /\ length r.2 = length order /\ in_range r.1 /\ injective r.1 /\
  r.1 !! start = Some start /\
  (forall d, order !! d = Some d -> r.1 !! d = Some d) /\
  (forall d, wanted r.1 r.2 d = wanted order rows d).
Proof using Type.
  intros Hi Hr Hs Hlen. destruct (lookup_lt_is_Some_2 order start Hs) as [next Hc].
  destruct (length order) as [|n] eqn:Hn; [lia|]. cbn [follow_cycle]. rewrite Hc.
  destruct (Nat.eqb_spec next start) as [->|Hns]; cbn [fst snd].
  { split_and!; done. }
  assert (mid_cycle start next (<[start := start]> order)) as Hm.
  { pose proof (Hr _ _ Hc). split_and!; [done|by rewrite length_insert| | | |].
    - rewrite list_lookup_insert_eq; [done|lia].
    - intros d. destruct (decide (d = start)) as [->|Hd].
      + rewrite list_lookup_insert_eq by lia. congruence.
      + rewrite list_lookup_insert_ne by done. intros Hdn. apply Hd. by apply (Hi d start next).
    - intros d e o Hd He. rewrite !list_lookup_insert_ne by done. apply Hi.
    - apply in_range_place; [done|lia]. }
  assert (unplaced order = S (unplaced (<[start := start]> order))) as Hu
    by (by apply (unplaced_place order start next)).
  assert (unplaced order <= S n)%nat as Hle.
  { unfold unplaced. etransitivity; [apply filter_length_le|]. rewrite length_seq. lia. }
  destruct (follow_cycle_mid n start next (<[start := start]> order) (swap start next rows) Hm)
    as (H1 & H2 & H3 & H4 & H5 & H6 & H7); [rewrite length_swap, length_insert; lia|lia|].
  rewrite length_insert in *. split_and!; [lia|lia|done|done|done| |].
  - intros d Hd. apply H6. rewrite list_lookup_insert_ne; [done|]. intros ->. congruence.
  - intros d. rewrite <-(target_wanted start), H7. unfold target, wanted.
    pose proof (Hr _ _ Hc) as Hnlt.
    destruct (decide (d = start)) as [->|Hds].
    + rewrite list_lookup_insert_eq, Hc, Nat.eqb_refl by lia. simpl.
      rewrite lookup_swap by lia. by rewrite Nat.eqb_refl.
    + rewrite list_lookup_insert_ne by done. destruct (order !! d) as [o|] eqn:Hd; simpl; [|done].
      rewrite lookup_swap by lia. destruct (Nat.eqb_spec o start) as [->|Hos]; simpl.
      * rewrite (proj2 (Nat.eqb_neq _ _) Hds). simpl.
        by rewrite (proj2 (Nat.eqb_neq _ _) Hns), Nat.eqb_refl.
      * rewrite (proj2 (Nat.eqb_neq _ _) Hos).
        rewrite (proj2 (Nat.eqb_neq o next)); [done|]. intros ->. apply Hds. by apply (Hi d start next).
Qed.
End cycle_facts.

Section permute_facts.
Context {A : Type}.

Lemma permute_loop (starts : list nat) order (rows : list A) :
  injective order -> in_range order -> length rows = length order ->
  Forall (fun s => (s < length order)%nat) starts ->
  let r := fold_left (fun s start => follow_cycle (length order) start start s.1 s.2)
             starts (order, rows) in
  length r.1 = length order /\ length r.2 = length order /\
  (forall s, s ∈ starts -> r.1 !! s = Some s) /\
  (forall s, order !! s = Some s -> r.1 !! s = Some s) /\
  (forall d, wanted r.1 r.2 d = wanted order rows d).
Proof.
  revert order rows. induction starts as [|s starts IH]; intros order rows Hi Hr Hlen Hs; simpl.
  { split_and!; try done. by intros s ?%not_elem_of_nil. }
  apply Forall_cons in Hs as [Hs Hss].
  destruct (follow_cycle_spec s order rows Hi Hr Hs Hlen) as (H1 & H2 & H3 & H4 & H5 & H6 & H7).
  destruct (follow_cycle (length order) s s order rows) as [order' rows']. simpl in *.
  destruct (IH order' rows' H4 H3) as (G1 & G2 & G3 & G4 & G5); [lia|by rewrite H1|].
  rewrite H1 in *. split_and!; [done|done| | |].
  - intros s' [->|Hin]%elem_of_cons; [by apply G4|by apply G3].
  - intros s' Hs'. by apply G4, H6.
  - intros d. by rewrite G5, H7.
Qed.

(** Following every cycle applies the order: position [d] receives the row
    that was at [order[d]]. *)
Lemma permute_in_place_spec order (rows : list A) :
  order ≡ₚ seq 0 (length rows) ->
  forall d, (permute_in_place order rows).2 !! d = order !! d ≫= fun o => rows !! o.
Proof.
  intros Hp. assert (length order = length rows) as Hlen by (by rewrite Hp, length_seq).
  assert (in_range order) as Hr.
  { intros d o Ho%list_elem_of_lookup_2. rewrite Hp in Ho. apply elem_of_seq in Ho. lia. }
  assert (injective order) as Hi.
  { assert (NoDup order) as Hnd by (rewrite Hp; apply NoDup_seq).
    intros d e o Hd He. by eapply NoDup_lookup. }
  destruct (permute_loop (seq 0 (length order)) order rows Hi Hr) as (H1 & H2 & H3 & _ & H5); [done| |].
  { apply Forall_forall. intros s Hs%elem_of_seq. lia. }
  intros d. specialize (H5 d). unfold wanted in H5 at 2. rewrite <-H5.
  unfold permute_in_place. destruct (fold_left _ _ _) as [order' rows']. simpl in *.
  destruct (decide (d < length order)%nat) as [Hd|Hd].
  - unfold wanted. rewrite (H3 d) by (apply elem_of_seq; lia). done.
  - unfold wanted. rewrite (proj2 (lookup_ge_None order' d)) by lia. simpl.
    apply lookup_ge_None. lia.
Qed.
End permute_facts.

Lemma omap_lookup_seq {A} (l : list A) k : omap (fun i => l !! i) (seq k (length l - k)) = drop k l.
Proof.
  remember (length l - k)%nat as n eqn:Hn. revert k Hn.
  induction n as [|n IH]; intros k Hn; simpl.
  - by rewrite drop_ge by lia.
  - destruct (lookup_lt_is_Some_2 l k) as [x Hx]; [lia|]. rewrite Hx, (drop_S _ _ _ Hx).
    f_equal. apply IH. lia.
Qed.

Lemma is_identity_order_spec order :
  is_identity_order order = true <-> order = seq 0 (length order).
Proof.
  unfold is_identity_order. generalize 0%nat.
  induction order as [|o order IH]; intros k; simpl; [done|].
  rewrite andb_true_iff, Nat.eqb_eq, IH. split.
  - intros [<- H]. by f_equal.
  - intros [= <- H]. by split.
Qed.

Section sort_facts.
Variable compare_text : LegacyText -> LegacyText -> comparison.
Context `{!TotalPreorder compare_text}.

#[export] Instance opp_preorder {A} (c : A -> A -> comparison) :
  TotalPreorder c -> TotalPreorder (fun x y => CompOpp (c x y)).
Proof using Type.
  intros Hc. split.
  - intros x. by rewrite cmp_refl.
  - intros x y. by rewrite (cmp_opp (cmp:=c) x y).
  - intros x y z H1 H2. rewrite <-(cmp_opp (cmp:=c)) in *. by apply (cmp_trans z y x).
Qed.
#[export] Instance on_preorder {A B} (f : A -> B) (c : B -> B -> comparison) :
  TotalPreorder c -> TotalPreorder (fun x y => c (f x) (f y)).
Proof using Type.
  intros Hc. split; intros *; [apply cmp_refl|apply cmp_opp|apply cmp_trans].
Qed.
#[export] Instance Z_preorder : TotalPreorder Z.compare.
Proof using Type.
  split; intros *; [apply Z.compare_refl|apply Z.compare_antisym|].
  rewrite !Z.compare_le_iff. lia.
Qed.

(** The modes whose comparator is a total preorder. *)
Definition sound_semantics (mode : LegacySortMode) (semantics : SortSemantics) : bool :=
  match mode, semantics with
  | (SizeAscending | SizeDescending), LegacyDarkNamer080210 => false
  | _, _ => true
  end.

Lemma compare_items_preorder mode semantics :
  sound_semantics mode semantics = true ->
  TotalPreorder (compare_items compare_text mode semantics).
Proof using TotalPreorder0.
  destruct mode, semantics; intros Hs; try discriminate Hs; unfold compare_items;
    first [ apply (on_preorder _ compare_text); apply _
          | apply (on_preorder _ Z.compare); apply _
          | apply (opp_preorder (fun x y => compare_text (_ x) (_ y)));
            apply (on_preorder _ compare_text); apply _
          | apply (opp_preorder (fun x y => Z.compare (_ x) (_ y)));
            apply (on_preorder _ Z.compare); apply _ ].
Qed.

Definition dummy_item : LegacyListItem := mkItem [] [] [] [] false 0 0 0 0.

Definition row_at (rows : list LegacyListItem) (i : nat) : LegacyListItem :=
  default dummy_item (rows !! i).

Lemma rows_row_at rows : map (row_at rows) (seq 0 (length rows)) = rows.
Proof using Type.
  apply list_eq. intros i. rewrite list_lookup_fmap. destruct (rows !! i) as [x|] eqn:Hx.
  - rewrite lookup_seq_lt by (by apply lookup_lt_Some in Hx). simpl. unfold row_at. by rewrite Hx.
  - apply lookup_ge_None in Hx. by rewrite lookup_seq_ge by done.
Qed.

Lemma sort_order_row_at mode semantics rows :
  sort_order compare_text mode semantics rows =
  sort_by (fun x y => compare_items compare_text mode semantics (row_at rows x) (row_at rows y))
    (seq 0 (length rows)).
Proof using Type.
  apply sort_by_ext. intros x y Hx%elem_of_seq Hy%elem_of_seq. unfold row_at.
  destruct (lookup_lt_is_Some_2 rows x) as [a ->]; [lia|].
  destruct (lookup_lt_is_Some_2 rows y) as [b ->]; [lia|]. done.
Qed.

(** The permuted rows are the stable sort of the rows, under any comparator. *)
Lemma sorted_rows mode semantics rows :
  (permute_in_place (sort_order compare_text mode semantics rows) rows).2 =
  sort_by (compare_items compare_text mode semantics) rows.
Proof using Type.
  assert (sort_order compare_text mode semantics rows ≡ₚ seq 0 (length rows)) as Hp
    by apply sort_by_perm.
  rewrite <-(rows_row_at rows) at 3. rewrite <-sort_by_map, <-sort_order_row_at.
  set (order := sort_order compare_text mode semantics rows) in *.
  apply list_eq. intros d. rewrite permute_in_place_spec by done.
  rewrite list_lookup_fmap. destruct (order !! d) as [o|] eqn:Hd; simpl; [|done].
  unfold row_at. apply list_elem_of_lookup_2 in Hd. rewrite Hp in Hd. apply elem_of_seq in Hd.
  by destruct (lookup_lt_is_Some_2 rows o) as [x ->]; [lia|].
Qed.

(** An identity order means the rows were sorted. *)
Lemma identity_order_sorted mode semantics rows :
  sound_semantics mode semantics = true ->
  is_identity_order (sort_order compare_text mode semantics rows) = true <->
  sort_by (compare_items compare_text mode semantics) rows = rows.
Proof using TotalPreorder0.
  intros Hs. pose proof (compare_items_preorder mode semantics Hs) as Hpre.
  rewrite is_identity_order_spec. unfold sort_order at 2. rewrite length_sort_by, length_seq.
  split.
  - intros Hid. rewrite <-sorted_rows. apply list_eq. intros d.
    rewrite permute_in_place_spec by (apply sort_by_perm). rewrite Hid.
    destruct (decide (d < length rows)%nat) as [Hd|Hd].
    + by rewrite lookup_seq_lt.
    + rewrite lookup_seq_ge by lia. symmetry. apply lookup_ge_None. lia.
  - intros Hsorted. pose proof (sort_by_sorted (compare_items compare_text mode semantics) rows) as Hso.
    rewrite Hsorted in Hso. rewrite sort_order_row_at. apply sort_by_id.
    { by apply on_preorder. }
    assert (forall k, (k <= length rows)%nat -> sorted_by (fun x y =>
      compare_items compare_text mode semantics (row_at rows x) (row_at rows y))
      (seq k (length rows - k))) as Hk; [|specialize (Hk 0%nat); rewrite Nat.sub_0_r in Hk; apply Hk; lia].
    intros k Hkl. remember (length rows - k)%nat as n eqn:Hn. revert k Hkl Hn.
    induction n as [|n IH]; intros k Hkl Hn; simpl; constructor; [apply IH; lia|].
    apply Forall_forall. intros y Hy%elem_of_seq. unfold row_at.
    destruct (lookup_lt_is_Some_2 rows k) as [a Ha]; [lia|].
    destruct (lookup_lt_is_Some_2 rows y) as [b Hb]; [lia|]. rewrite Ha, Hb. simpl.
    apply (sorted_by_lookup _ rows k y); [done|lia|done|done].
Qed.
End sort_facts.

(** ** Moves and sorts only reorder rows *)

Lemma list_ok_reordered l rows :
  list_ok l -> rows ≡ₚ items l -> list_ok (set_items rows l).
Proof.
  intros [Hu Hp Hum Hpm Hn] Hperm. split; simpl; rewrite ?(units_of_perm _ _ Hperm),
    ?(planned_of_perm _ _ Hperm); try assumption. by rewrite Hperm.
Qed.
Lemma evolves_reordered l h rows :
  rows ≡ₚ items l -> evolves (l, h) (set_items rows l, h).
Proof. intros Hp. split; [done|]. left. split; [done|]. simpl. by rewrite Hp. Qed.

Lemma fold_perm {A B} (f : list A -> B -> list A) (bs : list B) (l : list A) :
  (forall l b, f l b ≡ₚ l) -> fold_left f bs l ≡ₚ l.
Proof.
  intros Hf. revert l. induction bs as [|b bs IH]; intros l; simpl; [done|]. by rewrite IH, Hf.
Qed.
Lemma fold_length {A B} (f : list A -> B -> list A) (bs : list B) (l : list A) :
  (forall l b, length (f l b) = length l) -> length (fold_left f bs l) = length l.
Proof.
  intros Hf. revert l. induction bs as [|b bs IH]; intros l; simpl; [done|]. by rewrite IH, Hf.
Qed.

(** Rows at strictly increasing positions move up by one... *)
Lemma swaps_earlier_lookup {A} (selected : list nat) (rows : list A) :
  bs_sorted selected -> Forall (fun i => 0 < i < length rows)%nat selected ->
  let r := fold_left (fun rows index => swap (index - 1) index rows) selected rows in
  (forall i, i ∈ selected -> r !! (i - 1)%nat = rows !! i) /\
  (forall k, Forall (fun i => k < i - 1)%nat selected -> r !! k = rows !! k).
Proof.
  revert rows. induction selected as [|s sel IH]; intros rows Hs Hr; simpl.
  { split; [by intros i ?%not_elem_of_nil|done]. }
  apply StronglySorted_inv in Hs as [Hs Hlt]. apply Forall_cons in Hr as [Hr1 Hr].
  assert (Forall (fun i => s < i)%nat sel) as Hlt'.
  { eapply Forall_impl; [exact Hlt|]. intros i Hi. by apply Nat.compare_lt_iff in Hi. }
  destruct (IH (swap (s - 1) s rows)) as [H1 H2]; [done|by rewrite length_swap|]. split.
  - intros i [->|Hi]%elem_of_cons.
    + rewrite H2.
      * rewrite lookup_swap by lia. by rewrite Nat.eqb_refl.
      * eapply Forall_impl; [exact Hlt'|]. intros i Hi. simpl in *. lia.
    + rewrite H1 by done. rewrite Forall_forall in Hlt'. specialize (Hlt' _ Hi).
      rewrite lookup_swap by lia. rewrite (proj2 (Nat.eqb_neq i (s - 1))) by lia.
      by rewrite (proj2 (Nat.eqb_neq i s)) by lia.
  - intros k [Hk Hks]%Forall_cons. rewrite H2 by done. rewrite lookup_swap by lia.
    rewrite (proj2 (Nat.eqb_neq k (s - 1))) by lia. by rewrite (proj2 (Nat.eqb_neq k s)) by lia.
Qed.

(** ... and at strictly decreasing positions down by one. *)
Lemma swaps_later_lookup {A} (selected : list nat) (rows : list A) :
  StronglySorted (fun i j => j < i)%nat selected ->
  Forall (fun i => S i < length rows)%nat selected ->
  let r := fold_left (fun rows index => swap index (S index) rows) selected rows in
  (forall i, i ∈ selected -> r !! S i = rows !! i) /\
  (forall k, Forall (fun i => S i < k)%nat selected -> r !! k = rows !! k).
Proof.
  revert rows. induction selected as [|s sel IH]; intros rows Hs Hr; simpl.
  { split; [by intros i ?%not_elem_of_nil|done]. }
  apply StronglySorted_inv in Hs as [Hs Hlt]. apply Forall_cons in Hr as [Hr1 Hr].
  destruct (IH (swap s (S s) rows)) as [H1 H2]; [done|by rewrite length_swap|]. split.
  - intros i [->|Hi]%elem_of_cons.
    + rewrite H2.
      * rewrite lookup_swap by lia. rewrite (proj2 (Nat.eqb_neq (S s) s)) by lia. by rewrite Nat.eqb_refl.
      * eapply Forall_impl; [exact Hlt|]. intros i Hi. simpl in *. lia.
    + rewrite H1 by done. rewrite Forall_forall in Hlt. specialize (Hlt _ Hi).
      rewrite lookup_swap by lia. rewrite (proj2 (Nat.eqb_neq i s)) by lia.
      by rewrite (proj2 (Nat.eqb_neq i (S s))) by lia.
  - intros k [Hk Hks]%Forall_cons. rewrite H2 by done. rewrite lookup_swap by lia.
    rewrite (proj2 (Nat.eqb_neq k s)) by lia. by rewrite (proj2 (Nat.eqb_neq k (S s))) by lia.
Qed.
