(* ===== verification/Session.v ===== *)
(** * Session: the workbench as a state machine

    A list workbench and one append index shared by its additions, driven by
    any sequence of the list operations of [crates/darknamer-core/src/lib.rs],
    successful or failed, under any allocator answers.  Every reachable state
    keeps the exact totals within their budgets, and an index that calls itself
    current answers duplicate questions as the rows themselves would. *)

From S2P Require Import Prelude Collections LegacyText ListItem WorkList.
From S2P Require Import Transforms AppendIndex Ordering.

(** ** The heap never forgets an identity *)

Definition arcs_grow {E A} (m : Cmd E A) : Prop := forall l h r l' h',
  m (l, h) = (r, (l', h')) -> (next_arc h <= next_arc h')%nat.

Section arcs.
Context {E A B : Type}.

Lemma arcs_get : arcs_grow (@get_list E).
Proof. by intros l h r l' h' [= _ _ <-]. Qed.
Lemma arcs_put l1 : arcs_grow (@put_list E l1).
Proof. by intros l h r l' h' [= _ _ <-]. Qed.
Lemma arcs_ret (a : A) : arcs_grow (mret a : Cmd E A).
Proof. by intros l h r l' h' [= _ _ <-]. Qed.
Lemma arcs_throw e : arcs_grow (SE_throw e : Cmd E A).
Proof. by intros l h r l' h' [= _ _ <-]. Qed.
Lemma arcs_lift (x : result E A) : arcs_grow (SE_lift x : Cmd E A).
Proof. by intros l h r l' h' [= _ _ <-]. Qed.
Lemma arcs_on_heap (k : SE heap E A) : keeps_arc k -> arcs_grow (on_heap k).
Proof.
  intros Hk l h r l' h'. unfold on_heap. simpl. destruct (k h) as [x hx] eqn:Ek.
  intros [= _ _ <-]. by rewrite (Hk _ _ _ Ek).
Qed.
Lemma arcs_bind (m : Cmd E A) (f : A -> Cmd E B) :
  arcs_grow m -> (forall a, arcs_grow (f a)) -> arcs_grow (m ≫= f).
Proof.
  intros Hm Hf l h r l' h'. unfold mbind, SE_bind. destruct (m (l, h)) as [[a|e] [l1 h1]] eqn:E1.
  - intros H. apply Hm in E1. apply Hf in H. lia.
  - intros [= _ _ <-]. by apply Hm in E1.
Qed.
End arcs.

Lemma keeps_lift {E A} (x : result E A) : keeps_arc (SE_lift x).
Proof. by intros h r h' [= _ <-]. Qed.
Lemma keeps_throw {E A} (e : E) : keeps_arc (SE_throw e : SE heap E A).
Proof. by intros h r h' [= _ <-]. Qed.
#[export] Hint Resolve arcs_get arcs_put arcs_ret arcs_throw arcs_lift arcs_on_heap arcs_bind
  keeps_lift keeps_throw : cmd.

(** Walks a heap computation to its reservations. *)
Ltac solve_keeps :=
  repeat first
    [ solve [auto with cmd]
    | apply keeps_bind; [|intros ?]
    | case_match ].

Lemma keeps_build row n fill : keeps_arc (try_build_proposal row n fill).
Proof. unfold try_build_proposal. solve_keeps. Qed.
Lemma keeps_parts row parts : keeps_arc (build_parts row parts).
Proof. unfold build_parts. apply keeps_bind; [auto with cmd|intros ?; apply keeps_build]. Qed.
Lemma keeps_clone_text t : keeps_arc (try_clone_text t).
Proof. unfold try_clone_text. solve_keeps. Qed.
#[export] Hint Resolve keeps_build keeps_parts keeps_clone_text : cmd.

Lemma keeps_replaced row source needle replacement :
  keeps_arc (replaced_units row source needle replacement).
Proof. unfold replaced_units. solve_keeps. Qed.
Lemma keeps_padded item row width find_run :
  keeps_arc (padded_digit_run_proposal item row width find_run).
Proof. unfold padded_digit_run_proposal. solve_keeps. Qed.
Lemma keeps_sequence cmp width start mode rows row item c :
  keeps_arc (sequence_proposal cmp width start mode rows row item c).
Proof. unfold sequence_proposal. solve_keeps. Qed.
Lemma keeps_extension e : keeps_arc (try_normalized_extension e).
Proof. unfold try_normalized_extension. solve_keeps. Qed.
Lemma keeps_import rows row item lines : keeps_arc (import_proposal rows row item lines).
Proof. unfold import_proposal. solve_keeps. Qed.
#[export] Hint Resolve keeps_replaced keeps_padded keeps_sequence keeps_extension keeps_import : cmd.

Lemma keeps_stage {C} proposal rows rest row (c : C) units planned :
  (forall rows row item c, keeps_arc (proposal rows row item c)) ->
  keeps_arc (stage_proposals proposal rows rest row c units planned).
Proof.
  intros Hp. revert row c units planned.
  induction rest as [|item rest IH]; intros row c units planned; simpl; solve_keeps.
Qed.
Lemma arcs_optional {C} proposal (c : C) :
  (forall rows row item c, keeps_arc (proposal rows row item c)) ->
  arcs_grow (try_changed_proposals_optional proposal c).
Proof.
  intros Hp. unfold try_changed_proposals_optional. apply arcs_bind; [auto with cmd|intros l].
  apply arcs_bind; [auto using keeps_stage with cmd|intros [[??]?]]. case_match; auto with cmd.
Qed.
Lemma arcs_changed {C} proposal (c : C) :
  (forall rows row item c, keeps_arc (proposal rows row item c)) ->
  arcs_grow (try_changed_proposals proposal c).
Proof.
  intros Hp. apply arcs_optional. intros rows row item c'. apply keeps_bind; [auto|].
  intros []. auto with cmd.
Qed.
Lemma arcs_shrinking {E} proposal : arcs_grow (@changed_proposals E proposal).
Proof.
  unfold changed_proposals. apply arcs_bind; [auto with cmd|intros l].
  destruct (change_rows _ _ _ _) as [[??]?]. auto with cmd.
Qed.
Lemma arcs_input {A} (m : Cmd LegacyInputError A) : arcs_grow m -> arcs_grow (with_input_error m).
Proof.
  intros Hm l h r l' h'. unfold with_input_error. destruct (m (l, h)) as [x [l1 h1]] eqn:E1.
  intros [= _ <- <-]. by eapply Hm.
Qed.
#[export] Hint Resolve arcs_shrinking : cmd.

Ltac solve_arcs :=
  repeat first
    [ solve [auto with cmd]
    | apply arcs_input
    | apply arcs_changed; intros ? ? ? ?; unfold stateless; solve [solve_keeps]
    | apply arcs_optional; intros ? ? ? ?; solve [solve_keeps]
    | apply arcs_on_heap; solve [solve_keeps]
    | apply arcs_bind; [|intros ?]
    | case_match ].

Lemma arcs_command cmp c : arcs_grow (run_command cmp c).
Proof.
  destruct c; simpl;
    unfold reset_proposals_changed, replace_complete_changed, prefix_complete_changed,
      suffix_before_extension_changed, clear_name_changed, delete_front_range_changed,
      delete_last_changed, delete_first_delimited_changed, keep_ascii_digits_changed,
      pad_last_digit_run_changed, pad_first_digit_run_changed, pad_digit_run_changed,
      add_sequence_by_changed, delete_extension_changed, add_extension_changed,
      replace_extension_changed, prefix_parent_folder_changed, suffix_parent_folder_changed,
      import_names_changed; solve_arcs.
Qed.
Lemma arcs_manual index name : arcs_grow (set_manual_proposal index name).
Proof. unfold set_manual_proposal. solve_arcs. Qed.
Lemma arcs_unify parent : arcs_grow (unify_destination_parent_changed parent).
Proof.
  unfold unify_destination_parent_changed, try_clone_destination_parent,
    try_clone_destination_parent_units. solve_arcs.
Qed.
Lemma arcs_reset : arcs_grow reset_destination_parents.
Proof.
  assert (forall shared row aggregate rows,
    keeps_arc (stage_parents try_clone_destination_parent_units shared row aggregate rows)) as Hs.
  { intros shared row aggregate rows. revert shared row aggregate.
    induction rows as [|i rows IH]; intros shared row aggregate; simpl;
      unfold try_clone_destination_parent_units; solve_keeps. }
  unfold reset_destination_parents, reset_destination_parents_by. solve_arcs.
Qed.

(** ** What a list operation promises the rest of the session *)

Definition sound_op {E A} (m : Cmd E A) : Prop := forall l h r l' h',
  list_ok l -> binding_ok (l, h) -> m (l, h) = (r, (l', h')) ->
  list_ok l' /\ binding_ok (l', h') /\ evolves (l, h) (l', h').

(** An operation that keeps the binding and the sources. *)
Lemma sound_kept {E A} (m : Cmd E A) :
  arcs_grow m ->
  (forall l h r l' h', list_ok l -> m (l, h) = (r, (l', h')) ->
     list_ok l' /\ binding l' = binding l /\ map source_path (items l') ≡ₚ map source_path (items l)) ->
  sound_op m.
Proof.
  intros Ha Hm l h r l' h' Hok [Hid Hrev] H. simpl in *.
  destruct (Hm _ _ _ _ _ Hok H) as (Hok' & Hb & Hp). pose proof (Ha _ _ _ _ _ H).
  split_and!; [done| |by split; [|left]].
  unfold binding in Hb. injection Hb as Hbi Hbr. split; simpl; [lia|congruence].
Qed.

(** An operation whose failures change nothing. *)
Lemma sound_atomic {E A} (m : Cmd E A) :
  arcs_grow m -> atomic m ->
  (forall l h a l' h', list_ok l -> m (l, h) = (Ok a, (l', h')) ->
     list_ok l' /\ binding l' = binding l /\ map source_path (items l') ≡ₚ map source_path (items l)) ->
  sound_op m.
Proof.
  intros Ha Hatom Hm. apply sound_kept; [done|]. intros l h [a|e] l' h' Hok H; [by eapply Hm|].
  apply Hatom in H as ->. by split_and!.
Qed.

Lemma same_rows_sources old new :
  same_rows old new -> map source_path new = map source_path old.
Proof. induction 1 as [|i j old new -> _ IH]; simpl; [done|]. by f_equal. Qed.

Lemma sound_command cmp c : sound_op (run_command cmp c).
Proof.
  apply sound_kept; [apply arcs_command|]. intros l h r l' h' Hok H.
  destruct (run_command_contract cmp c _ _ _ _ _ Hok H) as (Hok' & Hs & Hb & _).
  split_and!; [done|done|]. by rewrite (same_rows_sources _ _ Hs).
Qed.

Lemma insert_same_source (rows : list LegacyListItem) index i j :
  rows !! index = Some i -> source_path j = source_path i ->
  map source_path (<[index := j]> rows) = map source_path rows.
Proof.
  intros Hi Hj. rewrite list_fmap_insert, Hj. apply list_insert_id.
  by rewrite list_lookup_fmap, Hi.
Qed.

Lemma sound_manual index name : sound_op (set_manual_proposal index name).
Proof.
  apply sound_atomic; [apply arcs_manual|apply set_manual_proposal_atomic|].
  intros l h a l' h' Hok H. split; [by eapply set_manual_proposal_ok|].
  destruct (items l !! index) as [i|] eqn:Hi.
  - rewrite (set_manual_proposal_spec _ _ _ _ _ Hok Hi) in H.
    do 3 (destruct (_ <? _); [done|]). injection H as <- <- <-. split; [done|].
    simpl. by rewrite (insert_same_source _ _ i).
  - unfold set_manual_proposal, mbind, SE_bind, get_list in H. simpl in H.
    rewrite Hi in H. by injection H as <- <- <-.
Qed.

Lemma sound_unify parent : sound_op (unify_destination_parent_changed parent).
Proof.
  apply sound_atomic; [apply arcs_unify|apply unify_destination_parent_atomic|].
  intros l h a l' h' Hok H.
  destruct (unify_destination_parent_Ok _ _ _ _ _ _ Hok H) as (_ & Hi & _ & Hok' & Hb).
  split_and!; [done|done|]. by rewrite Hi, map_map.
Qed.
Lemma sound_reset : sound_op reset_destination_parents.
Proof.
  apply sound_atomic; [apply arcs_reset|apply reset_destination_parents_atomic|].
  intros l h a l' h' Hok H.
  destruct (reset_destination_parents_by_Ok _ clone_copies _ _ _ _ _ Hok H) as (Hi & Hok' & Hb).
  split_and!; [done|done|]. by rewrite Hi, map_map.
Qed.

(** Operations that end by invalidating the bound indexes. *)
Lemma sound_invalidate {E A} l l1 h (a : A) (r : result E A) l' h' :
  list_ok l1 -> binding l1 = binding l -> binding_ok (l, h) ->
  (invalidate_source_index;; mret a : Cmd E A) (l1, h) = (r, (l', h')) ->
  list_ok l' /\ binding_ok (l', h') /\ evolves (l, h) (l', h').
Proof.
  intros Hok1 [= Hbi Hbr] [Hid Hrev] H. simpl in *.
  assert (binding_ok (l1, h)) as Hb1 by (split; simpl; [lia|congruence]).
  destruct (@invalidate_source_index E (l1, h)) as [x [l2 h2]] eqn:Hinv.
  destruct (invalidate_evolves _ _ _ _ _ Hb1 Hinv) as (-> & Hb2 & Hn & He).
  rewrite (SE_bind_step _ _ _ _ _ Hinv) in H. injection H as <- <- <-.
  destruct (invalidate_items _ _ _ Hinv) as (Hi & Hu & Hp).
  split_and!; [by eapply list_ok_ext|done|]. split; [done|]. simpl in *. right.
  destruct He as [[? ?]|?]; [left; split; [congruence|lia]|by right].
Qed.

Lemma sound_ret l h : list_ok l -> binding_ok (l, h) ->
  list_ok l /\ binding_ok (l, h) /\ evolves (l, h) (l, h).
Proof. intros Hok Hb. split_and!; [done|done|apply evolves_refl]. Qed.

Lemma sound_remove {E} indices : sound_op (@remove_rows E indices).
Proof.
  intros l h r l' h' Hok Hb H.
  destruct (remove_rows_spec (E:=E) l indices h Hok Hb) as (l2 & h2 & Heq & _ & Hok2 & Hb2 & _).
  rewrite Heq in H. injection H as <- <- <-. split; [done|]. split; [done|].
  unfold remove_rows in Heq. rewrite (SE_bind_step _ _ _ l (l, h)) in Heq by reflexivity.
  cbv zeta in Heq. destruct (length _ =? 0)%nat.
  { injection Heq as _ <- <-. apply evolves_refl. }
  destruct (retain_rows _ _ _ _ _) as [[kept u] p].
  rewrite (SE_bind_step _ _ _ tt (set_units (usize_sub (proposed_name_utf16_units l) u)
    (usize_sub (planned_path_utf16_units l) p) (set_items kept l), h)) in Heq by reflexivity.
  set (l1 := set_units _ _ _) in Heq.
  destruct (@invalidate_source_index E (l1, h)) as [x [l3 h3]] eqn:Hinv.
  destruct (invalidate_evolves l1 h x l3 h3 Hb Hinv) as (-> & _ & Hn & He).
  rewrite (SE_bind_step _ _ _ _ _ Hinv) in Heq. injection Heq as <- <-.
  split; [done|]. right. simpl in *. destruct He as [[? ?]|?]; [by left|by right].
Qed.

Lemma list_ok_nil l : list_ok (mkList [] 0 0 (identity l) (source_revision l)).
Proof. by split; simpl; [..|constructor]. Qed.

Lemma sound_clear {E} : sound_op (@clear E).
Proof.
  intros l h r l' h' Hok Hb H. unfold clear in H.
  rewrite (SE_bind_step _ _ _ l (l, h)) in H by reflexivity. cbv zeta in H.
  rewrite (SE_bind_step _ _ _ tt (mkList [] 0 0 (identity l) (source_revision l), h)) in H
    by reflexivity.
  case_bool_decide as He; simpl in H.
  - injection H as <- <- <-. split_and!; [apply list_ok_nil|done|]. split; [done|]. left.
    simpl. by rewrite He.
  - by eapply (sound_invalidate l); [apply list_ok_nil|..].
Qed.

Lemma sound_reorder {E A} (m : Cmd E A) :
  (forall l h, exists a rows, m (l, h) = (Ok a, (set_items rows l, h)) /\ rows ≡ₚ items l) ->
  sound_op m.
Proof.
  intros Hm l h r l' h' Hok Hb H. destruct (Hm l h) as (a & rows & Heq & Hp).
  rewrite Heq in H. injection H as <- <- <-.
  split_and!; [by apply list_ok_reordered|done|by apply evolves_reordered].
Qed.

Lemma set_items_id l : set_items (items l) l = l.
Proof. by destruct l. Qed.

Lemma sound_sort {E} cmp mode semantics :
  sound_op (@sort_by_with_semantics_changed cmp E mode semantics).
Proof.
  apply sound_reorder. intros l h. unfold sort_by_with_semantics_changed.
  rewrite (SE_bind_step _ _ _ l (l, h)) by reflexivity. cbv zeta.
  destruct (is_identity_order _).
  - exists false, (items l). by rewrite set_items_id.
  - eexists true, _. split; [reflexivity|]. rewrite sorted_rows. apply sort_by_perm.
Qed.
Lemma sound_earlier {E} selected : sound_op (@move_rows_earlier_changed E selected).
Proof.
  apply sound_reorder. intros l h. unfold move_rows_earlier_changed.
  rewrite (SE_bind_step _ _ _ l (l, h)) by reflexivity. cbv zeta. case_bool_decide.
  - eexists _, (items l). by rewrite set_items_id.
  - do 2 eexists. split; [reflexivity|]. apply fold_perm. intros. apply swap_perm.
Qed.
Lemma sound_later {E} selected : sound_op (@move_rows_later_changed E selected).
Proof.
  apply sound_reorder. intros l h. unfold move_rows_later_changed.
  rewrite (SE_bind_step _ _ _ l (l, h)) by reflexivity. cbv zeta.
  destruct (match last _ with Some _ => _ | None => _ end).
  - eexists _, (items l). by rewrite set_items_id.
  - do 2 eexists. split; [reflexivity|]. apply fold_perm. intros. apply swap_perm.
Qed.

(** A completed move is clean when its planned path is the join of its own parent
    and the proposed name.  Recording a move rebuilds the planned path from the parent
    and the last component of the old one, so that the planned-path total stays exact
    only when these join to it ([completed_move_recorded] of Workbench). *)
Definition clean_move (i : LegacyListItem) : Prop :=
  clean_path (planned_path i) = true /\ path_name (planned_path i) = proposed_name i.

Lemma moved_item_same_name i :
  clean_path (planned_path i) = true -> path_name (planned_path i) = proposed_name i ->
  proposed_name (moved_item i) = proposed_name i /\
  zlen (planned_path (moved_item i)) = zlen (planned_path i).
Proof.
  intros Hcp Hname. split; [done|]. rewrite moved_item_planned. by apply clean_path_length.
Qed.

Lemma sound_moved {E} index l h r l' h' :
  (forall i, items l !! index = Some i -> clean_move i) ->
  list_ok l -> binding_ok (l, h) ->
  @record_move_success E index (l, h) = (r, (l', h')) ->
  list_ok l' /\ binding_ok (l', h') /\ evolves (l, h) (l', h').
Proof.
  intros Hclean Hok Hb H. destruct (items l !! index) as [i|] eqn:Hi.
  2: { unfold record_move_success, mbind, SE_bind, get_list in H. simpl in H. rewrite Hi in H.
       injection H as <- <- <-. by apply sound_ret. }
  destruct (Hclean i eq_refl) as [Hcp Hname].
  destruct (record_move_success_spec (E:=E) l h index i Hok Hb Hi)
    as (l2 & h2 & Heq & Hit & Hu & Hpl & _ & Hb2).
  pose proof H as Hrun. rewrite Heq in H. injection H as <- <- <-.
  destruct (moved_item_same_name i Hcp Hname) as [Hsn Hsp].
  assert (list_ok l2) as Hok2.
  { apply Hpl in Hcp. destruct Hok as [Ho1 Ho2 Ho3 Ho4 Ho5].
    pose proof (units_of_insert _ _ _ (moved_item i) Hi) as HU.
    pose proof (planned_of_insert _ _ _ (moved_item i) Hi) as HP. rewrite Hsn in HU. rewrite Hsp in HP.
    split; [done|done|rewrite Hit; lia|rewrite Hit; lia|]. rewrite Hit.
    apply Forall_insert; [done|]. rewrite Hsn. by apply (Forall_lookup_1 _ _ _ _ Ho5 Hi). }
  split; [done|]. split; [done|].
  unfold record_move_success in Hrun. rewrite (SE_bind_step _ _ _ l (l, h)) in Hrun by reflexivity.
  rewrite Hi in Hrun. cbv zeta in Hrun.
  match type of Hrun with (mbind _ (put_list ?lx)) _ = _ => set (l1 := lx) in Hrun end.
  rewrite (SE_bind_step _ _ _ tt (l1, h)) in Hrun by reflexivity.
  destruct (@invalidate_source_index E (l1, h)) as [x [l3 h3]] eqn:Hinv.
  destruct (invalidate_evolves l1 h x l3 h3 Hb Hinv) as (-> & _ & Hn & He).
  rewrite (SE_bind_step _ _ _ _ _ Hinv) in Hrun. injection Hrun as -> ->.
  split; [done|]. right. simpl in *. destruct He as [[? ?]|?]; [by left|by right].
Qed.

(** ** The state machine *)

Section session.
Variable cmp : LegacyText -> LegacyText -> comparison.
Context `{!TotalPreorder cmp}.

Lemma sound_append_batch batch : sound_op (append_batch_by cmp batch).
Proof using TotalPreorder0.
  intros l h r l' h' Hok Hb. unfold append_batch_by, with_new_index.
  destruct (append_batch_indexed cmp batch (index_new, (l, h))) as [x [index' [l2 h2]]] eqn:E1.
  intros [= -> -> ->].
  destruct (append_batch_indexed_step cmp batch _ _ _ _ _ _ _ Hok Hb (index_inv_new _ _) E1)
    as (_ & He & Hok' & Hb' & _). done.
Qed.

Lemma clone_sound l h r l' h' :
  list_ok l -> binding_ok (l, h) -> clone_list l h = (Ok r, h') -> l' = r ->
  list_ok l' /\ binding_ok (l', h') /\ evolves (l, h) (l', h').
Proof using Type.
  intros [Hu Hp Hum Hpm Hn] [Hid _]. unfold clone_list, mbind, SE_bind, arc_new, mret, SE_ret.
  simpl. intros [= <- <-] ->. simpl in Hid. split; [split; [exact Hu|exact Hp|exact Hum|exact Hpm|exact Hn]|].
  split; [split; simpl; [lia|done]|]. split; simpl; [lia|]. right; right. lia.
Qed.

(** One operation on the list, with any arguments; a failed one is a step too.  A move
    that is recorded is clean: it is the only operation with a condition. *)
Inductive list_step (s : LegacyList * heap) : LegacyList * heap -> Prop :=
| step_command c r s' : run_command cmp c s = (r, s') -> list_step s s'
| step_manual index name r s' : set_manual_proposal index name s = (r, s') -> list_step s s'
| step_unify parent r s' : unify_destination_parent_changed parent s = (r, s') -> list_step s s'
| step_reset r s' : reset_destination_parents s = (r, s') -> list_step s s'
| step_remove indices r s' : @remove_rows Empty_set indices s = (r, s') -> list_step s s'
| step_clear r s' : @clear Empty_set s = (r, s') -> list_step s s'
| step_sort mode semantics r s' :
    @sort_by_with_semantics_changed cmp Empty_set mode semantics s = (r, s') -> list_step s s'
| step_earlier selected r s' :
    @move_rows_earlier_changed Empty_set selected s = (r, s') -> list_step s s'
| step_later selected r s' :
    @move_rows_later_changed Empty_set selected s = (r, s') -> list_step s s'
| step_moved index r s' :
    (forall i, items s.1 !! index = Some i -> clean_move i) ->
    @record_move_success Empty_set index s = (r, s') -> list_step s s'
| step_append batch r s' : append_batch_by cmp batch s = (r, s') -> list_step s s'
| step_clone l h : clone_list s.1 s.2 = (Ok l, h) -> list_step s (l, h).

(** The session's state is the list and the index its additions share. *)
Inductive session_step : LegacyAppendIndex * (LegacyList * heap) ->
    LegacyAppendIndex * (LegacyList * heap) -> Prop :=
| session_list index s s' : list_step s s' -> session_step (index, s) (index, s')
| session_append batch st r st' :
    append_batch_indexed cmp batch st = (r, st') -> session_step st st'
| session_new_index index s : session_step (index, s) (index_new, s).

Definition session_start (st : LegacyAppendIndex * (LegacyList * heap)) : Prop :=
  exists h l h', new_list h = (Ok l, h') /\ st = (index_new, (l, h')).

Record session_ok (st : LegacyAppendIndex * (LegacyList * heap)) : Prop := mkSessionOk {
  session_list_ok : list_ok st.2.1;
  session_binding_ok : binding_ok st.2;
  session_index_inv : index_inv cmp st.1 st.2
}.

Lemma list_step_sound s s' :
  list_ok s.1 -> binding_ok s -> list_step s s' ->
  list_ok s'.1 /\ binding_ok s' /\ evolves s s'.
Proof using TotalPreorder0.
  destruct s as [l h]. intros Hok Hb Hs.
  destruct Hs as [c r [] H|index name r [] H|parent r [] H|r [] H|indices r [] H|r [] H
    |mode semantics r [] H|selected r [] H|selected r [] H|index r [] Hc H|batch r [] H|l' h' H].
  - by eapply (sound_command cmp c).
  - by eapply (sound_manual index name).
  - by eapply (sound_unify parent).
  - by eapply sound_reset.
  - by eapply (sound_remove indices).
  - by eapply sound_clear.
  - by eapply (sound_sort cmp mode semantics).
  - by eapply (sound_earlier selected).
  - by eapply (sound_later selected).
  - by eapply (sound_moved index).
  - by eapply (sound_append_batch batch).
  - by eapply (clone_sound l h l').
Qed.

Lemma session_step_ok st st' : session_ok st -> session_step st st' -> session_ok st'.
Proof using TotalPreorder0.
  intros [Hok Hb Hi] Hs. destruct Hs as [index s s' Hs|batch [index [l h]] r [index' [l' h']] H|index s].
  - destruct (list_step_sound s s' Hok Hb Hs) as (Hok' & Hb' & He).
    split; [done|done|]. by apply (index_inv_evolves cmp _ s).
  - destruct (append_batch_indexed_step cmp _ _ _ _ _ _ _ _ Hok Hb Hi H)
      as (Hi' & _ & Hok' & Hb' & _). by split.
  - by split.
Qed.

Lemma session_start_ok st : session_start st -> session_ok st.
Proof using Type.
  intros (h & l & h' & Hn & ->). unfold new_list, mbind, SE_bind, arc_new, mret, SE_ret in Hn.
  injection Hn as <- <-. split; simpl; [by split; simpl; [..|constructor]|split; simpl; [lia|done]|].
  apply index_inv_new.
Qed.

(** The invariant of every reachable state, by induction on the run. *)
Lemma session_reachable st st' :
  session_start st -> rtc session_step st st' -> session_ok st'.
Proof using TotalPreorder0.
  intros Hstart Hrun. apply session_start_ok in Hstart. revert Hstart.
  induction Hrun as [st|st st1 st2 Hs _ IH]; intros Hok; [done|].
  apply IH. by eapply session_step_ok.
Qed.

Lemma current_contains index s path :
  index_inv cmp index s -> is_current_for index s.1 = true ->
  contains cmp index path = true <->
  exists i, i ∈ items s.1 /\ cmp (source_path i) path = Eq.
Proof using TotalPreorder0.
  intros Hi Hcur. destruct (index_inv_current cmp index s Hi Hcur) as [Hch Hp].
  unfold contains. rewrite (source_chunks_contain_spec cmp _ _ Hch), Exists_exists. split.
  - intros (t & Ht & Heq). rewrite Hp in Ht. apply list_elem_of_fmap in Ht as (i & -> & Hin).
    by exists i.
  - intros (i & Hin & Heq). exists (source_path i). split; [|done]. rewrite Hp.
    by apply list_elem_of_fmap_2.
Qed.
End session.

(** C30: In every state reachable from a new list by any sequence of list
    operations and indexed additions (successful or failed, under any allocator
    answers) in which a completed move is recorded only of a row whose planned path
    is the join of its own parent and the proposed name, the cached proposed-name and
    planned-path totals are exact and within their budgets, every proposed name is
    within its limit, and the list's identity and revision are ones the heap has
    issued.  The condition is needed: recording a move of a row whose
    destination parent ends in two backslashes leaves the planned-path total wrong. *)
Theorem session_invariant (to_lowercase : Z -> list Z) st st' :
  session_start st ->
  rtc (session_step (case_insensitive_cmp to_lowercase)) st st' ->
  list_ok st'.2.1 /\ binding_ok st'.2.
Proof.
  intros Hs Hr.
  destruct (session_reachable (case_insensitive_cmp to_lowercase) st st' Hs Hr) as [? ? _].
  by split.
Qed.

(** Whatever operations ran in between, an append index that reports itself
    current for the list answers the duplicate question exactly as a scan of the
    rows would: a stale index never decides which files are already listed. *)
Theorem current_index_sound (to_lowercase : Z -> list Z) st st' path :
  session_start st ->
  rtc (session_step (case_insensitive_cmp to_lowercase)) st st' ->
  is_current_for st'.1 st'.2.1 = true ->
  contains (case_insensitive_cmp to_lowercase) st'.1 path = true <->
  exists i, i ∈ items st'.2.1 /\ case_insensitive_cmp to_lowercase (source_path i) path = Eq.
Proof.
  intros Hs Hr Hc.
  destruct (session_reachable (case_insensitive_cmp to_lowercase) st st' Hs Hr) as [_ _ Hi].
  exact (current_contains _ st'.1 st'.2 path Hi Hc).
Qed.

(** A run with two additions sharing an index, a command, a sort and a removal. *)
Definition ascii_lower (u : Z) : list Z := [if (65 <=? u) && (u <=? 90) then u + 32 else u].
Definition example_row (path : string) : LegacyListItem := new_item (text path) false 1 0 0.
Definition example_batch : list LegacyListItem :=
  [example_row "C:\docs\b.txt"; example_row "C:\docs\a.txt"; example_row "C:\DOCS\A.TXT"].

Definition example_start : LegacyAppendIndex * (LegacyList * heap) :=
  (index_new, (mkList [] 0 0 0 0, mkHeap [] 1)).
Definition example_appended : LegacyAppendIndex * (LegacyList * heap) :=
  (append_batch_indexed (case_insensitive_cmp ascii_lower) example_batch example_start).2.
Definition example_renamed : LegacyAppendIndex * (LegacyList * heap) :=
  (example_appended.1, (run_command (case_insensitive_cmp ascii_lower)
     (PrefixComplete (text "x_")) example_appended.2).2).
Definition example_session : LegacyAppendIndex * (LegacyList * heap) :=
  (example_renamed.1,
   (@move_rows_later_changed Empty_set [0%nat] example_renamed.2).2).

Lemma example_start_ok : session_start example_start.
Proof. by exists (mkHeap [] 0), (mkList [] 0 0 0 0), (mkHeap [] 1). Qed.
Lemma example_run :
  rtc (session_step (case_insensitive_cmp ascii_lower)) example_start example_session.
Proof.
  eapply rtc_l.
  { eapply (session_append _ example_batch _ _ example_appended). apply surjective_pairing. }
  eapply rtc_l.
  { rewrite (surjective_pairing example_appended) at 1. apply session_list.
    eapply (step_command _ _ (PrefixComplete (text "x_"))). apply surjective_pairing. }
  eapply rtc_l; [|apply rtc_refl].
  apply (session_list _ example_renamed.1 example_renamed.2).
  eapply (step_later _ _ [0%nat]). apply surjective_pairing.
Qed.

Lemma session_invariant_witness :
  length (items example_session.2.1) = 3%nat /\ list_ok example_session.2.1 /\
  binding_ok example_session.2.
Proof.
  split; [vm_compute; reflexivity|].
  exact (session_invariant ascii_lower _ _ example_start_ok example_run).
Defined.

Lemma current_index_sound_witness :
  contains (case_insensitive_cmp ascii_lower) example_session.1 (text "c:\docs\B.txt") = true /\
  exists i, i ∈ items example_session.2.1 /\
    case_insensitive_cmp ascii_lower (source_path i) (text "c:\docs\B.txt") = Eq.
Proof.
  assert (contains (case_insensitive_cmp ascii_lower) example_session.1
            (text "c:\docs\B.txt") = true) as Hc by (vm_compute; reflexivity).
  split; [exact Hc|].
  apply (current_index_sound ascii_lower _ _ (text "c:\docs\B.txt") example_start_ok example_run);
    [vm_compute; reflexivity|exact Hc].
Defined.
