(* ===== verification/Workbench.v ===== *)
(** * Workbench: the contracts of the workbench operations

    What each operation of [crates/darknamer-core/src/lib.rs] promises its
    caller, on every branch: the proposal commands, additions, sorting, moving,
    removal, manual edits, destination parents, completed moves, the planned
    change of a row, and text import and export. *)

From S2P Require Import Prelude Collections LegacyText ListItem WorkList.
From S2P Require Import Transforms AppendIndex Ordering.

(** ** Changed rows *)

Lemma elem_of_differing_rows old new row k :
  length old = length new ->
  k ∈ differing_rows row old new <->
  (row <= k)%nat /\
  exists i j, old !! (k - row)%nat = Some i /\ new !! (k - row)%nat = Some j /\
    proposed_name i <> proposed_name j.
Proof.
  revert new row. induction old as [|i old IH]; intros [|j new] row Hlen; try done; simpl.
  { split; [by intros ?%not_elem_of_nil|]. by intros (_ & x & y & [=] & _). }
  rewrite elem_of_app, IH by (simpl in Hlen; lia).
  destruct (decide (k = row)) as [->|Hne].
  - rewrite Nat.sub_diag. simpl. case_bool_decide as Hb.
    + split; [intros [?%not_elem_of_nil|[? _]]; [done|lia]|].
      by intros (_ & x & y & [= <-] & [= <-] & Hd).
    + split; [intros _|intros _; left; by left]. split; [lia|]. by exists i, j.
  - split.
    + intros [Hin|(Hle & x & y & Hx & Hy & Hd)].
      { case_bool_decide; [by apply not_elem_of_nil in Hin|].
        by apply list_elem_of_singleton in Hin. }
      split; [lia|]. exists x, y. replace (k - row)%nat with (S (k - S row)) by lia. done.
    + intros (Hle & x & y & Hx & Hy & Hd). right. split; [lia|]. exists x, y.
      replace (k - row)%nat with (S (k - S row)) in Hx, Hy by lia. done.
Qed.

Lemma same_rows_length old new : same_rows old new -> length old = length new.
Proof. apply Forall2_length. Qed.

Lemma split_run {A B C} (x : A * (B * C)) : x = (x.1, (x.2.1, x.2.2)).
Proof. by destruct x as [? [? ?]]. Qed.

(** *** Examples shared by the witnesses *)

Definition row_of (path : string) : LegacyListItem := new_item (text path) false 7 1 2.
Definition listed (paths : list string) : LegacyList :=
  let rows := map row_of paths in mkList rows (units_of rows) (planned_of rows) 0 0.
Definition roomy : heap := mkHeap [] 1.
Definition example_list : LegacyList :=
  listed ["C:\music\song 7.mp3"; "C:\music\intro.mp3"; "D:\book.v2.txt"].
Definition text_cmp : LegacyText -> LegacyText -> comparison := case_insensitive_cmp (fun u => [u]).

Lemma example_list_ok : list_ok example_list.
Proof.
  split; [reflexivity|reflexivity|vm_compute; discriminate|vm_compute; discriminate|].
  repeat (apply Forall_cons; split; [vm_compute; discriminate|]). apply Forall_nil. exact I.
Qed.
Lemma example_binding_ok : binding_ok (example_list, roomy).
Proof. split; [vm_compute; lia|split; vm_compute; discriminate]. Qed.

(** ** The properties *)

(** Every proposal command, on any list whose totals are exact and under any
    allocator answers, either fails and leaves the whole list as it was, or keeps
    every row but its proposed name, leaves bound append indexes current, keeps
    the totals exact and within budget, and returns exactly the rows whose
    proposed name changed. *)
Theorem command_changes_exactly compare_text c l h r l' h' :
  list_ok l -> run_command compare_text c (l, h) = (r, (l', h')) ->
  list_ok l' /\ binding l' = binding l /\
  Forall2 (fun i j => j = set_proposed_name (proposed_name j) i) (items l) (items l') /\
  match r with
  | Err _ => l' = l
  | Ok rows => forall k, k ∈ rows <-> exists i j,
      items l !! k = Some i /\ items l' !! k = Some j /\ proposed_name i <> proposed_name j
  end.
Proof.
  intros Hok H. destruct (run_command_contract compare_text c _ _ _ _ _ Hok H)
    as (Hok' & Hrows & Hb & Hr).
  split_and!; [done|done|done|]. destruct r as [rows|e]; [|done]. intros k. subst rows.
  rewrite (elem_of_differing_rows _ _ _ _ (same_rows_length _ _ Hrows)), Nat.sub_0_r.
  split; [by intros [_ ?]|intros ?; split; [lia|done]].
Qed.
Lemma command_changes_exactly_witness :
  let s := run_command text_cmp (PadLastDigitRun 3) (example_list, roomy) in
  s.1 = Ok [0%nat; 2%nat] /\ list_ok s.2.1.
Proof.
  intros s. split; [vm_compute; reflexivity|].
  exact (proj1 (command_changes_exactly text_cmp (PadLastDigitRun 3) example_list roomy _ _ _
    example_list_ok (split_run _))).
Defined.

(** C31: A successful proposal command writes to every row the name its reference
    gives: leftmost non-overlapping replacement, prefix, suffix before the
    extension, deletions inside the stem, digit padding, wrapping sequence numbers
    that restart where the parent changes, normalised extensions, parent-folder
    names, and imported lines. *)
Theorem command_writes_reference compare_text c l h rows l' h' k item :
  width_ok c -> list_ok l ->
  run_command compare_text c (l, h) = (Ok rows, (l', h')) -> items l !! k = Some item ->
  exists next, writes compare_text (items l) c k item next /\
    items l' !! k = Some (set_proposed_name next item).
Proof. intros Hw Hok H. exact (run_command_writes compare_text c Hw _ _ _ _ _ Hok H k item). Qed.
Lemma command_writes_reference_witness :
  let s := run_command text_cmp (AddSequence 3 9 Prepend) (example_list, roomy) in
  proposed_name <$> items s.2.1 !! 1%nat = Some (text "010intro.mp3") /\
  exists next,
    writes text_cmp (items example_list) (AddSequence 3 9 Prepend) 1
      (row_of "C:\music\intro.mp3") next /\
    items s.2.1 !! 1%nat = Some (set_proposed_name next (row_of "C:\music\intro.mp3")).
Proof.
  intros s. split; [vm_compute; reflexivity|].
  refine (command_writes_reference text_cmp (AddSequence 3 9 Prepend) example_list roomy
    [0; 1; 2]%nat s.2.1 s.2.2 1 (row_of "C:\music\intro.mp3") _ example_list_ok _ eq_refl);
    [vm_compute; discriminate|vm_compute; reflexivity].
Defined.

(** Importing the export of a list's own names changes no row, whenever the
    import succeeds and no name is blank at its ends or holds a line feed. *)
Theorem import_of_export_changes_nothing compare_text l h rows l' h' :
  list_ok l -> Forall (fun t => trimmed t /\ LF ∉ t) (map proposed_name (items l)) ->
  run_command compare_text (ImportNames (export_names l)) (l, h) = (Ok rows, (l', h')) ->
  rows = [] /\ items l' = items l.
Proof.
  intros Hok Ht H.
  pose proof (run_command_contract compare_text _ _ _ _ _ _ Hok H) as (_ & Hrows & _ & ->).
  assert (items l' = items l) as ->; [|split; [apply differing_rows_refl|done]].
  apply list_eq. intros k. destruct (items l !! k) as [item|] eqn:Hk.
  - destruct (run_command_writes compare_text (ImportNames (export_names l)) I _ _ _ _ _ Hok H
      k item Hk) as (next & Hw & ->).
    unfold writes in Hw. destruct (stem_extension_units item).
    unfold export_names in Hw. rewrite (parse_export_lines _ Ht), list_lookup_fmap, Hk in Hw.
    simpl in Hw. by rewrite Hw, set_proposed_name_id.
  - apply lookup_ge_None. rewrite <-(same_rows_length _ _ Hrows). by apply lookup_ge_None.
Qed.
Lemma import_of_export_changes_nothing_witness :
  let s := run_command text_cmp (ImportNames (export_names example_list)) (example_list, roomy) in
  ([] : list nat) = [] /\ items s.2.1 = items example_list.
Proof.
  intros s.
  refine (import_of_export_changes_nothing text_cmp example_list roomy [] s.2.1 s.2.2
    example_list_ok _ _); [|vm_compute; reflexivity].
  repeat (apply Forall_cons; split;
    [split; [split; [discriminate|split; intros u [= <-]; reflexivity]|
             vm_compute; intros Hin; repeat (apply elem_of_cons in Hin as [Hin|Hin]; [discriminate Hin|]);
             by apply not_elem_of_nil in Hin]|]).
  apply Forall_nil. exact I.
Defined.

(** An addition through a shared index either fails and leaves the rows
    untouched, or appends exactly the batch rows whose source no listed row has
    (up to the comparator), in legacy order: sorted by source, later batch rows
    first among equals.  The index it leaves is bound and current on success and
    sound either way, and the totals stay exact and within budget. *)
Theorem addition_appends_fresh (cmp : LegacyText -> LegacyText -> comparison)
    (Hcmp : TotalPreorder cmp) batch index l h r index' l' h' :
  list_ok l -> binding_ok (l, h) -> index_inv cmp index (l, h) ->
  append_batch_indexed cmp batch (index, (l, h)) = (r, (index', (l', h'))) ->
  index_inv cmp index' (l', h') /\ list_ok l' /\ binding_ok (l', h') /\
  match r with
  | Err _ => l' = l
  | Ok n =>
      let fresh := fresh_rows cmp (map source_path (items l)) batch in
      items l' = items l ++ legacy_order cmp fresh /\ n = length fresh /\
      is_current_for index' l' = true
  end.
Proof.
  intros Hok Hb Hi H.
  destruct (append_batch_indexed_step cmp _ _ _ _ _ _ _ _ Hok Hb Hi H)
    as (Hi' & _ & Hok' & Hb' & Hr).
  split_and!; [done|done|done|]. destruct r as [n|e]; [|done].
  destruct Hr as (Hitems & -> & Hcur). split_and!; [done| |done].
  unfold appended. by rewrite legacy_order_perm.
Qed.
Lemma addition_appends_fresh_witness :
  let batch := map row_of ["C:\MUSIC\intro.mp3"; "C:\b.txt"; "C:\a.txt"] in
  let s := append_batch_indexed text_cmp batch (index_new, (example_list, roomy)) in
  index_inv text_cmp s.2.1 s.2.2 /\ list_ok s.2.2.1 /\
  map source_path (skipn 3 (items s.2.2.1)) = map text ["C:\MUSIC\intro.mp3"; "C:\a.txt"; "C:\b.txt"].
Proof.
  intros batch s.
  destruct (addition_appends_fresh text_cmp (case_insensitive_preorder (fun u => [u])) batch index_new
    example_list roomy s.1 s.2.1 s.2.2.1 s.2.2.2 example_list_ok example_binding_ok
    (index_inv_new text_cmp _)) as (Hi & Hok & _ & _).
  { unfold s. by destruct (append_batch_indexed _ _ _) as [? [? [? ?]]]. }
  split; [by destruct s.2.2|]. split; [exact Hok|vm_compute; reflexivity].
Defined.

(** C32: Sorting leaves the rows in the order of the stable sort by the chosen
    mode (the in-place cycle-following permutation and the order vector together
    implement it), changes nothing else, and reports a change exactly when the
    rows were not already sorted; for every mode whose comparator is an order. *)
Theorem sort_is_stable_sort {E} (cmp : LegacyText -> LegacyText -> comparison)
    (Hcmp : TotalPreorder cmp) mode semantics l h :
  sound_semantics mode semantics = true ->
  let sorted := sort_by (compare_items cmp mode semantics) (items l) in
  @sort_by_with_semantics_changed cmp E mode semantics (l, h) =
    (Ok (negb (bool_decide (items l = sorted))), (set_items sorted l, h)) /\
  sorted ≡ₚ items l /\ sorted_by (compare_items cmp mode semantics) sorted.
Proof.
  intros Hs sorted. split_and!; [|apply sort_by_perm|].
  2: { apply (@sort_by_sorted _ _ (compare_items_preorder cmp mode semantics Hs)). }
  unfold sort_by_with_semantics_changed. rewrite (SE_bind_step _ _ _ l (l, h)) by reflexivity.
  cbv zeta. rewrite sorted_rows. fold sorted.
  pose proof (identity_order_sorted cmp mode semantics (items l) Hs) as Hid. fold sorted in Hid.
  destruct (is_identity_order _).
  - rewrite bool_decide_true by (symmetry; by apply Hid).
    replace sorted with (items l) by (symmetry; by apply Hid). by destruct l.
  - rewrite bool_decide_false; [done|]. intros Heq. by apply symmetry, Hid in Heq.
Qed.
Lemma sort_is_stable_sort_witness :
  let sorted := sort_by (compare_items text_cmp FullPathDescending SafeActualSize)
    (items example_list) in
  map source_path sorted = map text ["D:\book.v2.txt"; "C:\music\song 7.mp3"; "C:\music\intro.mp3"] /\
  sorted_by (compare_items text_cmp FullPathDescending SafeActualSize) sorted.
Proof.
  intros sorted. split; [vm_compute; reflexivity|].
  exact (proj2 (proj2 (sort_is_stable_sort (E:=Empty_set) text_cmp
    (case_insensitive_preorder (fun u => [u])) FullPathDescending SafeActualSize example_list roomy
    eq_refl))).
Defined.

(** The size order of the legacy semantics agrees with the numeric order
    exactly on sizes less than 2^31 apart, and is no order beyond that: it has a
    strict cycle, so sorting by it is outside what [slice::sort_by] asks of a
    comparator. *)
Theorem legacy_size_order_cyclic :
  (forall a b, 0 <= a < 2 ^ 32 -> 0 <= b < 2 ^ 32 ->
     compare_legacy_size a b = Z.compare a b <-> Z.abs (a - b) < 2 ^ 31 \/ a - b = - 2 ^ 31) /\
  exists a b c, Forall (fun x => 0 <= x < 2 ^ 32) [a; b; c] /\
    compare_legacy_size a b = Lt /\ compare_legacy_size b c = Lt /\ compare_legacy_size c a = Lt.
Proof.
  split.
  - intros a b Ha Hb. unfold compare_legacy_size.
    assert ((a - b) mod 2 ^ 32 = if 0 <=? a - b then a - b else a - b + 2 ^ 32) as ->.
    { destruct (0 <=? a - b) eqn:E; [apply Z.leb_le in E; apply Z.mod_small; lia|].
      apply Z.leb_gt in E. rewrite <-(Z.mod_add _ 1) by lia. apply Z.mod_small. lia. }
    destruct (0 <=? a - b) eqn:E; [apply Z.leb_le in E|apply Z.leb_gt in E];
      match goal with |- context [?x <? 2 ^ 31] => destruct (x <? 2 ^ 31) eqn:F end;
      (apply Z.ltb_lt in F || apply Z.ltb_ge in F);
      destruct (Z.compare_spec a b); cbv zeta;
      match goal with |- context [?x ?= 0] => destruct (Z.compare_spec x 0) end;
      (split; [intros; try discriminate; lia|intros; try reflexivity; exfalso; lia]).
  - exists 0, 1610612736, 3221225472. split; [|done].
    repeat (apply Forall_cons; split; [lia|]). by apply Forall_nil.
Qed.

Lemma set_items_self l : set_items (items l) l = l.
Proof. by destruct l. Qed.

Lemma sorted_head_zero (chosen : list nat) :
  bs_sorted chosen -> head chosen = Some 0%nat <-> 0%nat ∈ chosen.
Proof.
  intros Hs. destruct chosen as [|s sel]; simpl; [split; [done|by intros ?%not_elem_of_nil]|].
  split; [intros [= ->]; by left|]. intros [->|Hin]%elem_of_cons; [done|]. exfalso.
  apply StronglySorted_inv in Hs as [_ Hs]. rewrite Forall_forall in Hs.
  specialize (Hs _ Hin). apply Nat.compare_lt_iff in Hs. lia.
Qed.

Lemma sorted_rev (chosen : list nat) :
  bs_sorted chosen -> StronglySorted (fun i j => j < i)%nat (rev chosen).
Proof.
  induction 1 as [|s sel Hs IH Hlt]; simpl; [constructor|].
  assert (Forall (fun i => s < i)%nat (rev sel)) as Hall.
  { apply Forall_rev. eapply Forall_impl; [exact Hlt|]. intros i Hi. by apply Nat.compare_lt_iff in Hi. }
  clear Hlt Hs. induction IH as [|x l Hl IHl Hx]; simpl; [repeat constructor|].
  apply Forall_cons in Hall as [Hsx Hall]. constructor; [by apply IHl|].
  apply Forall_app. split; [done|]. by repeat constructor.
Qed.

(** Only the greatest selected row can be the final one. *)
Lemma sorted_last_final (chosen : list nat) n :
  bs_sorted chosen -> Forall (fun i => i < n)%nat chosen ->
  match last chosen with Some index => (S index =? n)%nat | None => false end =
  bool_decide (pred n ∈ chosen).
Proof.
  intros Hs%sorted_rev Hr. destruct (last chosen) as [i|] eqn:Hl.
  - apply last_Some in Hl as [before ->]. rewrite rev_app_distr in Hs. simpl in Hs.
    apply StronglySorted_inv in Hs as [_ Hlt]. rewrite Forall_forall in Hlt.
    apply Forall_app in Hr as [_ Hi%Forall_inv]. simpl in Hi.
    destruct (Nat.eqb_spec (S i) n) as [<-|Hne]; symmetry.
    + apply bool_decide_eq_true, elem_of_app. right. by apply list_elem_of_singleton.
    + apply bool_decide_eq_false. intros [Hin|Hin%list_elem_of_singleton]%elem_of_app; [|lia].
      apply elem_of_reverse_rev, Hlt in Hin. lia.
  - apply last_None in Hl as ->. symmetry. apply bool_decide_eq_false. apply not_elem_of_nil.
Qed.

(** Moving selected rows earlier refuses when row 0 is selected (and changes
    nothing); otherwise every selected row lands one place up, the reported
    positions are theirs, and the list keeps the same rows. *)
Theorem rows_move_earlier {E} l h selected :
  let chosen := normalized_indices selected (length (items l)) in
  exists rows,
    @move_rows_earlier_changed E selected (l, h) =
      (Ok (if bool_decide (0%nat ∈ chosen) then mkMove chosen false
           else mkMove (map pred chosen) (negb (bool_decide (chosen = [])))),
       (set_items rows l, h)) /\
    rows ≡ₚ items l /\ (0%nat ∈ chosen -> rows = items l) /\
    (0%nat ∉ chosen -> forall i, i ∈ chosen -> rows !! pred i = items l !! i).
Proof.
  intros chosen. unfold move_rows_earlier_changed.
  rewrite (SE_bind_step _ _ _ l (l, h)) by reflexivity. cbv zeta. fold chosen.
  assert (bs_sorted chosen) as Hs by apply normalized_indices_sorted.
  assert (head chosen = Some 0%nat <-> 0%nat ∈ chosen) as Hh by exact (sorted_head_zero _ Hs).
  destruct (decide (0%nat ∈ chosen)) as [H0|H0].
  - rewrite (bool_decide_true (head _ = _)) by (by apply Hh).
    rewrite (bool_decide_true (0%nat ∈ chosen)) by done.
    exists (items l). rewrite set_items_self. by split_and!.
  - rewrite (bool_decide_false (head _ = _)) by tauto.
    rewrite (bool_decide_false (0%nat ∈ chosen)) by done. eexists. split.
    { rewrite (map_ext pred (fun index => (index - 1)%nat)) by (intros; lia). reflexivity. }
    split; [apply fold_perm; intros; apply swap_perm|]. split; [done|]. intros _ i Hi.
    rewrite <-Nat.sub_1_r. refine (proj1 (swaps_earlier_lookup chosen (items l) Hs _) i Hi).
    apply Forall_forall. intros j Hj. pose proof Hj as [_ ?]%elem_of_normalized_indices.
    destruct j; [done|lia].
Qed.

Lemma rows_move_earlier_witness :
  exists rows, @move_rows_earlier_changed Empty_set [2; 1; 9]%nat (example_list, roomy) =
    (Ok (mkMove [0; 1]%nat true), (set_items rows example_list, roomy)) /\
    map source_path rows = map text ["C:\music\intro.mp3"; "D:\book.v2.txt"; "C:\music\song 7.mp3"].
Proof.
  destruct (rows_move_earlier (E:=Empty_set) example_list roomy [2; 1; 9]%nat) as (rows & Heq & _).
  exists rows. split; [exact Heq|].
  vm_compute in Heq. injection Heq as <-. vm_compute. reflexivity.
Defined.

(** Moving selected rows later refuses when the last row is selected (and
    changes nothing); otherwise every selected row lands one place down, the
    reported positions are theirs, and the list keeps the same rows. *)
Theorem rows_move_later {E} l h selected :
  let chosen := normalized_indices selected (length (items l)) in
  let final := pred (length (items l)) in
  exists rows,
    @move_rows_later_changed E selected (l, h) =
      (Ok (if bool_decide (final ∈ chosen) then mkMove chosen false
           else mkMove (map S chosen) (negb (bool_decide (chosen = [])))),
       (set_items rows l, h)) /\
    rows ≡ₚ items l /\ (final ∈ chosen -> rows = items l) /\
    (final ∉ chosen -> forall i, i ∈ chosen -> rows !! S i = items l !! i).
Proof.
  intros chosen final. unfold move_rows_later_changed.
  rewrite (SE_bind_step _ _ _ l (l, h)) by reflexivity. cbv zeta. fold chosen.
  assert (bs_sorted chosen) as Hs by apply normalized_indices_sorted.
  assert (Forall (fun i => i < length (items l))%nat chosen) as Hr.
  { apply Forall_forall. by intros i [_ ?]%elem_of_normalized_indices. }
  rewrite (sorted_last_final _ _ Hs Hr). fold final. case_bool_decide as Hf.
  - exists (items l). rewrite set_items_self. by split_and!.
  - eexists. split; [reflexivity|]. split; [apply fold_perm; intros; apply swap_perm|].
    split; [done|]. intros _ i Hi.
    refine (proj1 (swaps_later_lookup (rev chosen) (items l) (sorted_rev _ Hs) _) i _).
    + apply Forall_rev, Forall_forall. intros j Hj. rewrite Forall_forall in Hr.
      pose proof (Hr _ Hj). destruct (decide (j = final)) as [->|]; [done|unfold final in *; lia].
    + by rewrite elem_of_reverse_rev.
Qed.
Lemma rows_move_later_witness :
  exists rows, @move_rows_later_changed Empty_set [0%nat] (example_list, roomy) =
    (Ok (mkMove [1%nat] true), (set_items rows example_list, roomy)) /\
    map source_path rows = map text ["C:\music\intro.mp3"; "C:\music\song 7.mp3"; "D:\book.v2.txt"].
Proof.
  destruct (rows_move_later (E:=Empty_set) example_list roomy [0%nat]) as (rows & Heq & _).
  exists rows. split; [exact Heq|].
  vm_compute in Heq. injection Heq as <-. vm_compute. reflexivity.
Defined.

(** Removal drops exactly the in-range selected rows, keeps the others in
    order with exact totals, returns how many rows went, never fails, and moves
    the list to a binding no earlier index can match. *)
Theorem removal_drops_selected {E} l h indices :
  list_ok l -> binding_ok (l, h) ->
  exists l' h', @remove_rows E indices (l, h) =
      (Ok (length (normalized_indices indices (length (items l)))), (l', h')) /\
    items l' = keep_rows (fun i => bool_decide (i ∈ indices)) 0 (items l) /\
    list_ok l' /\ binding_ok (l', h') /\
    (normalized_indices indices (length (items l)) <> [] -> binding_lt (binding l) (binding l')).
Proof. intros Hok Hb. exact (remove_rows_spec l indices h Hok Hb). Qed.
Lemma removal_drops_selected_witness :
  exists l' h', @remove_rows Empty_set [7; 1; 1]%nat (example_list, roomy) = (Ok 1%nat, (l', h')) /\
    items l' = map row_of ["C:\music\song 7.mp3"; "D:\book.v2.txt"] /\ list_ok l'.
Proof.
  destruct (removal_drops_selected (E:=Empty_set) example_list roomy [7; 1; 1]%nat example_list_ok
    example_binding_ok) as (l' & h' & Heq & Hi & Hok & _).
  exists l', h'. split; [exact Heq|]. split; [rewrite Hi; vm_compute; reflexivity|exact Hok].
Defined.

(** A manual edit of a row fails exactly when the name, the total of names
    or the total of planned paths would exceed its budget, with that budget's
    error and the requested size, and then changes nothing; otherwise it writes
    the name and reports whether it differs. *)
Theorem manual_edit_budgets l h index current name :
  list_ok l -> items l !! index = Some current ->
  let units := units_of (items l) - zlen (proposed_name current) + zlen name in
  let planned := planned_of (items l) - zlen (proposed_name current) + zlen name in
  set_manual_proposal index name (l, h) =
  if MAX_PROPOSED_NAME_UTF16_UNITS <? zlen name
  then (Err (NameBudgetExceeded index (zlen name) MAX_PROPOSED_NAME_UTF16_UNITS), (l, h))
  else if MAX_TOTAL_PROPOSED_NAME_UTF16_UNITS <? units
  then (Err (AggregateBudgetExceeded units MAX_TOTAL_PROPOSED_NAME_UTF16_UNITS), (l, h))
  else if MAX_TOTAL_PLANNED_PATH_UTF16_UNITS <? planned
  then (Err (PlannedPathAggregateBudgetExceeded planned MAX_TOTAL_PLANNED_PATH_UTF16_UNITS), (l, h))
  else (Ok (Some (negb (bool_decide (proposed_name current = name)))),
        (set_units units planned
           (set_items (<[index := set_proposed_name name current]> (items l)) l), h)).
Proof. intros Hok Hi. exact (set_manual_proposal_spec l h index current name Hok Hi). Qed.
Lemma manual_edit_budgets_witness :
  (set_manual_proposal 1 (repeat 65 256) (example_list, roomy)).1 =
    Err (NameBudgetExceeded 1 256 255).
Proof.
  refine (eq_trans (f_equal fst (manual_edit_budgets example_list roomy 1
    (row_of "C:\music\intro.mp3") (repeat 65 256) example_list_ok eq_refl)) _).
  vm_compute. reflexivity.
Defined.

(** Recording a completed move makes the planned path the row's source, its
    last component both names and its parent the destination, keeps the name
    total exact and invalidates bound indexes; the planned-path total, which the
    code leaves alone, stays exact exactly when the planned path is clean. *)
Theorem completed_move_recorded {E} l h index item :
  list_ok l -> binding_ok (l, h) -> items l !! index = Some item ->
  exists l' h', @record_move_success E index (l, h) = (Ok true, (l', h')) /\
    items l' = <[index := moved_item item]> (items l) /\
    source_path (moved_item item) = planned_path item /\
    destination_parent (moved_item item) = source_parent_units (planned_path item) /\
    proposed_name_utf16_units l' = units_of (items l') /\
    (planned_path_utf16_units l' = planned_of (items l') <->
       clean_path (planned_path item) = true) /\
    binding_lt (binding l) (binding l').
Proof.
  intros Hok Hb Hi.
  destruct (record_move_success_spec (E:=E) l h index item Hok Hb Hi)
    as (l' & h' & Heq & Hit & Hu & Hp & Hlt & _).
  exists l', h'. rewrite moved_item_parent. by split_and!.
Qed.
Lemma completed_move_recorded_witness :
  let moved := <[1%nat := set_destination_parent (text "D:\x\\")
    (row_of "C:\music\intro.mp3")]> (items example_list) in
  let l := mkList moved (units_of moved) (planned_of moved) 0 0 in
  exists l' h', @record_move_success Empty_set 1 (l, roomy) = (Ok true, (l', h')) /\
    (planned_path_utf16_units l' = planned_of (items l') <->
       clean_path (text "D:\x\\intro.mp3") = true).
Proof.
  intros moved l.
  destruct (completed_move_recorded (E:=Empty_set) l roomy 1
    (set_destination_parent (text "D:\x\\") (row_of "C:\music\intro.mp3")))
    as (l' & h' & Heq & _ & _ & _ & _ & Hp & _).
  - split; [reflexivity|reflexivity|vm_compute; discriminate|vm_compute; discriminate|].
    repeat (apply Forall_cons; split; [vm_compute; discriminate|]). apply Forall_nil. exact I.
  - split; [vm_compute; lia|split; vm_compute; discriminate].
  - reflexivity.
  - exists l', h'. split; [exact Heq|exact Hp].
Defined.

(** Unifying the destination either fails and leaves the list as it was, or
    gives every row the normalised parent and nothing else, returns exactly the
    rows whose parent differed, and keeps the planned-path total exact.  The
    normalised parent is the given one without its trailing separators, except
    that a path or drive root keeps one backslash; normalising again changes
    nothing. *)
Theorem unify_sets_normalized_parent parent l h r l' h' :
  list_ok l -> unify_destination_parent_changed parent (l, h) = (r, (l', h')) ->
  normalize_parent (normalize_parent parent) = normalize_parent parent /\
  (exists core seps, parent = core ++ seps /\
     Forall (fun u => is_path_separator u = true) seps /\
     last_is is_path_separator core = false /\
     normalize_parent parent =
       core ++ (if bool_decide (seps <> []) && (is_empty core || last_is (Z.eqb COLON) core)
                then [BACKSLASH] else [])) /\
  match r with
  | Err _ => l' = l
  | Ok changed =>
      items l' = map (set_destination_parent (normalize_parent parent)) (items l) /\
      changed = rows_with_other_parent (normalize_parent parent) 0 (items l) /\
      list_ok l' /\ binding l' = binding l
  end.
Proof.
  intros Hok H. split; [apply normalize_parent_idempotent|]. split.
  - destruct (normalize_parent_cases parent)
      as (core & seps & Heq & Hs & Hl & [(Hc & -> & _)|(Hne & Hroot & -> & _)]);
      exists core, seps; (split_and!; [done|done|done|]); unfold is_empty.
    + destruct Hc as [->|[Hc Hcol]]; [by rewrite app_nil_r|].
      rewrite Hcol, (bool_decide_false (core = [])) by done. simpl.
      by rewrite andb_false_r, app_nil_r.
    + rewrite (bool_decide_true (seps <> [])) by done.
      destruct Hroot as [->|Hcol]; [done|]. by rewrite Hcol, orb_true_r.
  - destruct r as [changed|e]; [|by eapply unify_destination_parent_atomic].
    by destruct (unify_destination_parent_Ok _ _ _ _ _ _ Hok H) as (_ & ? & ? & ? & ?).
Qed.
Lemma unify_sets_normalized_parent_witness :
  let s := unify_destination_parent_changed (text "D:\out\\/") (example_list, roomy) in
  map planned_path (items s.2.1) =
    map text ["D:\out\song 7.mp3"; "D:\out\intro.mp3"; "D:\out\book.v2.txt"] /\
  normalize_parent (normalize_parent (text "D:\out\\/")) = normalize_parent (text "D:\out\\/").
Proof.
  intros s. split; [vm_compute; reflexivity|].
  exact (proj1 (unify_sets_normalized_parent (text "D:\out\\/") example_list roomy _ _ _
    example_list_ok (split_run _))).
Defined.

(** Resetting the destinations either fails and leaves the list as it was,
    or gives every row the folder of its own source and nothing else, keeping
    the planned-path total exact; no row then plans to leave its folder. *)
Theorem reset_restores_source_parents l h r l' h' :
  list_ok l -> reset_destination_parents (l, h) = (r, (l', h')) ->
  match r with
  | Err _ => l' = l
  | Ok _ =>
      items l' = map reset_parent (items l) /\ list_ok l' /\ binding l' = binding l /\
      Forall (fun i => destination_parent i = source_parent_units (source_path i)) (items l')
  end.
Proof.
  intros Hok H. destruct r as [changed|e]; [|by eapply reset_destination_parents_atomic].
  destruct (reset_destination_parents_by_Ok _ clone_copies _ _ _ _ _ Hok H) as (Hi & Hok' & Hb).
  split_and!; [done|done|done|]. rewrite Hi. apply Forall_map, Forall_forall. by intros i _.
Qed.
Lemma reset_restores_source_parents_witness :
  let l := (unify_destination_parent_changed (text "E:\") (example_list, roomy)).2.1 in
  let s := reset_destination_parents (l, roomy) in
  s.1 = Ok [0; 1; 2]%nat /\ items s.2.1 = map reset_parent (items l).
Proof.
  intros l s. split; [vm_compute; reflexivity|].
  assert (list_ok l) as Hok.
  { split; [vm_compute; reflexivity|vm_compute; reflexivity|vm_compute; discriminate
           |vm_compute; discriminate|].
    repeat (apply Forall_cons; split; [vm_compute; discriminate|]). apply Forall_nil. exact I. }
  assert (reset_destination_parents (l, roomy) = (Ok [0; 1; 2]%nat, (s.2.1, s.2.2))) as Hrun
    by (vm_compute; reflexivity).
  exact (proj1 (reset_restores_source_parents l roomy _ _ _ Hok Hrun)).
Defined.

(** The planned change of a row, computed without building the planned path,
    is no change exactly when that path is the source path; otherwise it renames
    exactly when the proposed name differs and is a pure rename exactly when the
    parent also stays. *)
Theorem planned_change_exact i :
  zlen (planned_path i) <= usize_max ->
  (is_changed (planned_change_kind i) = false <-> planned_path i = source_path i) /\
  (planned_path i <> source_path i ->
    (renames (planned_change_kind i) = true <-> current_name i <> proposed_name i) /\
    (planned_change_kind i = Rename <->
       current_name i <> proposed_name i /\
       source_parent_units (source_path i) = destination_parent i)).
Proof. intros H. exact (planned_change_kind_spec i H). Qed.
Lemma planned_change_exact_witness :
  is_changed (planned_change_kind (row_of "C:\a.txt")) = false <->
  planned_path (row_of "C:\a.txt") = source_path (row_of "C:\a.txt").
Proof. exact (proj1 (planned_change_exact (row_of "C:\a.txt") ltac:(vm_compute; discriminate))). Defined.

(** A row fresh from its path plans no change exactly when the path is clean:
    its last backslash is not preceded by another separator (roots aside). *)
Theorem fresh_row_plans_no_change path dir sz asz cr md :
  zlen path < usize_max ->
  planned_change_kind (new_with_actual_size path dir sz asz cr md) = NoChange <->
  clean_path path = true.
Proof. intros H. exact (new_item_unchanged path dir sz asz cr md H). Qed.
Lemma fresh_row_plans_no_change_witness :
  planned_change_kind (new_with_actual_size (text "C:\a\b.txt") false 0 0 0 0) = NoChange <->
  clean_path (text "C:\a\b.txt") = true.
Proof.
  exact (fresh_row_plans_no_change (text "C:\a\b.txt") false 0 0 0 0
    ltac:(vm_compute; reflexivity)).
Defined.

(** The stem and extension of a proposed leaf name partition it: a folder has
    no extension, and a file's extension starts at its last dot. *)
Theorem stem_extension_partition i :
  BACKSLASH ∉ proposed_name i ->
  let '(stem, extension) := stem_extension_units i in
  stem ++ extension = proposed_name i /\
  (is_directory i = true -> extension = []) /\
  (is_directory i = false ->
     match extension with
     | [] => DOT ∉ proposed_name i
     | u :: tail => u = DOT /\ DOT ∉ tail
     end).
Proof. intros H. exact (stem_extension_split i H). Qed.
Lemma stem_extension_partition_witness :
  let i := row_of "C:\book.v2.txt" in
  stem_extension_units i = (text "book.v2", text ".txt") /\
  let '(stem, extension) := stem_extension_units i in stem ++ extension = proposed_name i.
Proof.
  intros i. split; [vm_compute; reflexivity|].
  assert (BACKSLASH ∉ proposed_name i) as Hb.
  { vm_compute. intros Hin. repeat (apply elem_of_cons in Hin as [Hin|Hin]; [discriminate Hin|]).
    by apply not_elem_of_nil in Hin. }
  pose proof (stem_extension_partition i Hb) as H.
  destruct (stem_extension_units i) as [stem extension]. exact (proj1 H).
Defined.

(** A leaf name is accepted exactly when it is non-empty, at most 255 units,
    not a dot component, free of NUL, separators, control and forbidden
    characters, ends in neither dot nor space and is no device name; and an
    extension does not make a reserved stem acceptable. *)
Theorem leaf_name_accepted_iff name :
  (validate_windows_leaf_name name = Ok tt <->
   name <> [] /\ zlen name <= MAX_WINDOWS_LEAF_NAME_UTF16_UNITS /\
   name <> [DOT] /\ name <> [DOT; DOT] /\ Forall valid_unit name /\
   (forall u, last name = Some u -> u <> DOT /\ u <> SPACE) /\
   is_reserved_device_name name = false) /\
  (forall stem extension, DOT ∉ stem -> name = stem ++ DOT :: extension ->
     is_reserved_device_name name = is_reserved_device_name stem).
Proof.
  split; [apply validate_windows_leaf_name_Ok|].
  intros stem extension Hs ->. by apply reserved_with_extension.
Qed.
