(* ===== verification/RenameModel.v ===== *)
(** * RenameModel: plans, primitive operations and adapter interfaces

    The data of [crates/darknamer-app/src/rename/model.rs] and the traits of
    [ports.rs] as type classes.  The laws a client may rely on are classes of
    their own: the executor is verified against them, and the in-memory
    adapters discharge them. *)

From S2P Require Import Prelude Collections LegacyText ListItem.

(** ** Identifiers and observations *)

Abbreviation EntryId := Z (only parsing).          (* u32 *)
Abbreviation ModelRevision := Z (only parsing).    (* u64 *)
Abbreviation PlanId := Z (only parsing).           (* u64 *)
Abbreviation PathKey := (list Z) (only parsing).

Inductive EntryKind : Type := File | Directory.
Inductive MoveScope : Type := SameParent | SameVolumeFilesOnly.

Record EntryIdentity : Type := mkIdentity { volume : Z; file_id : Z }.

#[export] Instance EntryKind_eq_dec : EqDecision EntryKind.
Proof. solve_decision. Defined.
#[export] Instance MoveScope_eq_dec : EqDecision MoveScope.
Proof. solve_decision. Defined.
#[export] Instance EntryIdentity_eq_dec : EqDecision EntryIdentity.
Proof. solve_decision. Defined.
#[export] Instance EntryIdentity_ordered : Ordered EntryIdentity :=
  fun a b => compare (volume a, file_id a) (volume b, file_id b).
#[export] Instance EntryIdentity_ordered_laws : OrderedLaws EntryIdentity.
Proof.
  split; unfold compare, EntryIdentity_ordered.
  - intros [v f] [v' f']. rewrite compare_eq_iff. simpl. naive_solver.
  - intros a b. apply compare_opp.
  - intros a b c. apply compare_lt_trans.
Qed.

Record ObservedEntry : Type := mkObserved {
  observed_identity : EntryIdentity;
  observed_kind : EntryKind;
  is_reparse_point : bool
}.
Record PathSnapshot : Type := mkSnapshot {
  snapshot_parent : EntryIdentity;
  snapshot_entry : option ObservedEntry
}.
Record ResolvedSource : Type := mkResolved {
  resolved_path : LegacyText;
  resolved_snapshot : PathSnapshot;
  resolved_entry_key : option PathKey
}.
#[export] Instance ObservedEntry_eq_dec : EqDecision ObservedEntry.
Proof. solve_decision. Defined.
#[export] Instance PathSnapshot_eq_dec : EqDecision PathSnapshot.
Proof. solve_decision. Defined.
#[export] Instance ResolvedSource_eq_dec : EqDecision ResolvedSource.
Proof. solve_decision. Defined.

(** ** Intents and requests *)

Record RenameIntent : Type := mkIntent {
  intent_id : EntryId;
  intent_source : LegacyText;
  intent_destination_parent : LegacyText;
  intent_destination_name : LegacyText;
  intent_destination : LegacyText;
  intent_kind : EntryKind
}.

Definition rename_intent_new (id : EntryId) (source destination_parent destination_name : LegacyText)
    (kind : EntryKind) : RenameIntent :=
  let destination_units :=
    destination_parent
    ++ (if last_is is_path_separator destination_parent then [] else [BACKSLASH])
    ++ destination_name in
  mkIntent id source destination_parent destination_name destination_units kind.

Record PlanRequest : Type := mkRequest {
  request_revision : ModelRevision;
  request_entries : list RenameIntent;
  request_scope : MoveScope
}.
Definition plan_request_new (revision : ModelRevision) (entries : list RenameIntent) : PlanRequest :=
  mkRequest revision entries SameParent.
Definition plan_request_with_scope (revision : ModelRevision) (entries : list RenameIntent)
    (scope : MoveScope) : PlanRequest := mkRequest revision entries scope.

(** ** Plans and confirmation *)

Record PlanRow : Type := mkRow {
  row_id : EntryId;
  row_source : LegacyText;
  row_destination : LegacyText;
  row_kind : EntryKind;
  source_snapshot : PathSnapshot;
  destination_snapshot : PathSnapshot;
  source_entry_key : PathKey;
  destination_entry_key : PathKey
}.

Record RenamePlan : Type := mkPlan {
  plan_id : PlanId;
  plan_revision : ModelRevision;
  plan_entries : list PlanRow;
  plan_scope : MoveScope
}.

Inductive ConfirmationError : Type := PlanMismatch | RevisionMismatch.

(** [confirm_presented]: the token is the plan itself, released once both
    displayed values match. *)
Definition confirm_presented (plan : RenamePlan) (displayed_id : PlanId)
    (displayed_revision : ModelRevision) : result ConfirmationError RenamePlan :=
  if negb (plan_id plan =? displayed_id) then Err PlanMismatch
  else if negb (plan_revision plan =? displayed_revision) then Err RevisionMismatch
  else Ok plan.

(** ** Backend errors and primitive operations ([ports.rs]) *)

Definition ERROR_NOT_SAME_DEVICE : Z := 17.
Definition ERROR_ACCESS_DENIED : Z := 5.

Inductive BackendOperation : Type := OpObserve | OpRename | OpTransactionNonce.
Inductive MutationCertainty : Type := NotApplied | MayHaveApplied.
Record BackendError : Type := mkBackendError {
  operation : BackendOperation;
  code : Z;
  certainty : MutationCertainty
}.
#[export] Instance BackendOperation_eq_dec : EqDecision BackendOperation.
Proof. solve_decision. Defined.
#[export] Instance MutationCertainty_eq_dec : EqDecision MutationCertainty.
Proof. solve_decision. Defined.
#[export] Instance BackendError_eq_dec : EqDecision BackendError.
Proof. solve_decision. Defined.

Record RenameOperation : Type := mkOperation {
  op_source : LegacyText;
  op_destination : LegacyText;
  expected_source : EntryIdentity;
  expected_source_parent : EntryIdentity;
  expected_destination_parent : EntryIdentity;
  op_kind : option EntryKind;
  op_scope : MoveScope
}.

Definition with_authorization (source destination : LegacyText)
    (identity source_parent destination_parent : EntryIdentity) (kind : EntryKind)
    (scope : MoveScope) : RenameOperation :=
  mkOperation source destination identity source_parent destination_parent (Some kind) scope.
Definition with_legacy_same_parent_authorization (source destination : LegacyText)
    (identity source_parent destination_parent : EntryIdentity) : RenameOperation :=
  mkOperation source destination identity source_parent destination_parent None SameParent.

(** The refusal every adapter applies before touching the filesystem. *)
Definition authorization_error (op : RenameOperation) : option BackendError :=
  if negb (volume (expected_source op) =? volume (expected_source_parent op))
     || negb (volume (expected_source_parent op) =? volume (expected_destination_parent op))
  then Some (mkBackendError OpRename ERROR_NOT_SAME_DEVICE NotApplied)
  else if negb (bool_decide (expected_source_parent op = expected_destination_parent op))
          && (bool_decide (op_scope op = SameParent)
              || negb (bool_decide (op_kind op = Some File)))
  then Some (mkBackendError OpRename ERROR_ACCESS_DENIED NotApplied)
  else None.

(** ** Keys *)

(** [to_le_bytes] regrouped in pairs: the 16-bit digits of a number, least
    significant first. *)
Fixpoint le_units (n : nat) (value : Z) : list Z :=
  match n with
  | O => []
  | S n => Z.land value 65535 :: le_units n (Z.shiftr value 16)
  end.

(** The volume (64 bits), the file identifier (128 bits), then the leaf. *)
Definition entry_key_from_parts (parent : EntryIdentity) (normalized_leaf : list Z) : PathKey :=
  le_units 4 (volume parent) ++ le_units 8 (file_id parent) ++ normalized_leaf.

Definition path_leaf (path : LegacyText) : LegacyText :=
  let start :=
    match rposition is_path_separator path with None => 0%nat | Some separator => S separator end in
  drop start path.

(** ** The backend interface *)

Class RenameBackend (B : Type) := {
  validate_path_environment : B -> LegacyText -> result BackendError unit;
  path_key : B -> LegacyText -> PathKey;
  resolve_source : B -> LegacyText -> result BackendError ResolvedSource;
  planned_entry_key : B -> EntryIdentity -> LegacyText -> result BackendError PathKey;
  observe : B -> LegacyText -> result BackendError PathSnapshot;
  is_same_or_descendant : B -> LegacyText -> LegacyText -> result BackendError bool;
  next_transaction_nonce : B -> result BackendError Z * B;
  rename_no_replace : RenameOperation -> B -> result BackendError unit * B
}.
#[export] Hint Mode RenameBackend ! : typeclass_instances.

(** What occupies each path, and the contract of the no-replace move: a move
    that is reported done was done to a free destination, one reported not
    applied changed nothing, an uncertain one did one or the other. *)
Definition moved (v v' : PathKey -> option EntryIdentity) (source destination : PathKey)
    (identity : EntryIdentity) : Prop :=
  v source = Some identity /\ v destination = None /\
  v' destination = Some identity /\ v' source = None /\
  forall k, k <> source -> k <> destination -> v' k = v k.

Class RenameBackendLaws (B : Type) `{RenameBackend B} := {
  occupant : B -> PathKey -> option EntryIdentity;
  rename_keeps_keys : forall op (b : B) r b',
    rename_no_replace op b = (r, b') -> forall p, path_key b' p = path_key b p;
  rename_ok : forall op (b : B) b',
    rename_no_replace op b = (Ok tt, b') ->
    moved (occupant b) (occupant b') (path_key b (op_source op)) (path_key b (op_destination op))
      (expected_source op);
  rename_not_applied : forall op (b : B) e b',
    rename_no_replace op b = (Err e, b') -> certainty e = NotApplied ->
    forall k, occupant b' k = occupant b k;
  rename_uncertain : forall op (b : B) e b',
    rename_no_replace op b = (Err e, b') -> certainty e = MayHaveApplied ->
    (forall k, occupant b' k = occupant b k) \/
    moved (occupant b) (occupant b') (path_key b (op_source op)) (path_key b (op_destination op))
      (expected_source op);
  nonce_keeps : forall (b : B) r b', next_transaction_nonce b = (r, b') ->
    (forall p, path_key b' p = path_key b p) /\ (forall k, occupant b' k = occupant b k)
}.

(** Observing or resolving a path shows its occupant. *)
Class ObservingBackend (B : Type) `{RenameBackendLaws B} := {
  observe_shows : forall (b : B) path snapshot,
    observe b path = Ok snapshot ->
    occupant b (path_key b path) = observed_identity <$> snapshot_entry snapshot;
  resolve_shows : forall (b : B) path resolved,
    resolve_source b path = Ok resolved ->
    occupant b (path_key b (resolved_path resolved)) =
      observed_identity <$> snapshot_entry (resolved_snapshot resolved)
}.

(** ** Facts *)

(** A destination path is the planned path of its row. *)
Lemma rename_intent_destination id source parent name kind :
  intent_destination (rename_intent_new id source parent name kind) = join_path parent name.
Proof.
  simpl. unfold join_path. rewrite separator_units_last. by destruct (last_is _ parent).
Qed.
