(* ===== verification/Journal.v ===== *)
(** * Journal: write-ahead records, their replay, and the in-memory journal

    [crates/darknamer-app/src/rename/journal.rs], and the journal traits and
    errors of [ports.rs] as type classes with their laws. *)

From S2P Require Import Prelude Collections LegacyText RenameModel.

(** ** Records *)

(** [TemporaryPhase] of [schedule.rs]. *)
Inductive TemporaryPhase : Type := NoTemporary | IntoTemporary | FromTemporary.

Record JournalStep : Type := mkStep {
  step_entry : EntryId;
  step_source : LegacyText;
  step_destination : LegacyText;
  step_expected_source : EntryIdentity;
  step_source_parent : EntryIdentity;
  step_destination_parent : EntryIdentity;
  step_kind : option EntryKind;
  step_scope : MoveScope;
  step_temporary_phase : TemporaryPhase
}.

Definition journal_step_new (entry : EntryId) (source destination : LegacyText)
    (identity source_parent destination_parent : EntryIdentity) (phase : TemporaryPhase)
  : JournalStep :=
  mkStep entry source destination identity source_parent destination_parent (Some File)
    SameParent phase.
Definition with_move_authorization (kind : EntryKind) (scope : MoveScope) (s : JournalStep)
  : JournalStep :=
  mkStep (step_entry s) (step_source s) (step_destination s) (step_expected_source s)
    (step_source_parent s) (step_destination_parent s) (Some kind) scope (step_temporary_phase s).
Definition legacy_same_parent (entry : EntryId) (source destination : LegacyText)
    (identity source_parent destination_parent : EntryIdentity) (phase : TemporaryPhase)
  : JournalStep :=
  mkStep entry source destination identity source_parent destination_parent None SameParent phase.

Inductive JournalDirection : Type := Forward | Rollback.
Inductive JournalTerminal : Type := Committed | RolledBackTerminal.

Inductive JournalRecord : Type :=
| Intent (plan : PlanId) (steps : list JournalStep)
| Prepared (step : nat) (direction : JournalDirection)
| Completed (step : nat) (direction : JournalDirection)
| NotAppliedRecord (step : nat) (direction : JournalDirection)
| Terminal (terminal : JournalTerminal).

Inductive JournalCorruption : Type :=
| MissingIntent | StepOutOfBounds | InvalidOrder | RecordsAfterTerminal | InvalidTerminal.

Inductive RecoveryReason : Type :=
| PreparedOnly (step : nat) (direction : JournalDirection)
| Incomplete
| Corrupt (corruption : JournalCorruption).

Inductive RecoveryState : Type :=
| Clean
| RecoveryRequired (plan : option PlanId) (completed_forward completed_rollback : nat)
    (reason : RecoveryReason).

#[export] Instance TemporaryPhase_eq_dec : EqDecision TemporaryPhase.
Proof. solve_decision. Defined.
#[export] Instance JournalStep_eq_dec : EqDecision JournalStep.
Proof. solve_decision. Defined.
#[export] Instance JournalDirection_eq_dec : EqDecision JournalDirection.
Proof. solve_decision. Defined.
#[export] Instance JournalTerminal_eq_dec : EqDecision JournalTerminal.
Proof. solve_decision. Defined.
#[export] Instance JournalRecord_eq_dec : EqDecision JournalRecord.
Proof. solve_decision. Defined.
#[export] Instance JournalCorruption_eq_dec : EqDecision JournalCorruption.
Proof. solve_decision. Defined.
#[export] Instance RecoveryReason_eq_dec : EqDecision RecoveryReason.
Proof. solve_decision. Defined.
#[export] Instance RecoveryState_eq_dec : EqDecision RecoveryState.
Proof. solve_decision. Defined.

(** ** Replay: the local variables of [replay_journal] *)

Record Replay : Type := mkReplay {
  forward_prepared : option nat;
  rollback_prepared : option nat;
  next_forward : nat;
  completed_forward : BTreeSet nat;
  completed_rollback : BTreeSet nat;
  rollback_started : bool;
  replay_terminal : option JournalTerminal
}.

Definition replay_start : Replay := mkReplay None None 0 [] [] false None.

Definition validate_step (step step_count : nat) : result JournalCorruption unit :=
  if (step <? step_count)%nat then Ok tt else Err StepOutOfBounds.

(** The last completed forward step not rolled back yet. *)
Definition next_rollback (st : Replay) : option nat :=
  List.find (fun candidate => negb (bs_contains candidate (completed_rollback st)))
    (rev (completed_forward st)).

Definition prepared_transition (step : nat) (direction : JournalDirection) (st : Replay)
  : result JournalCorruption Replay :=
  match direction with
  | Forward =>
      if negb (rollback_started st) && bool_decide (forward_prepared st = None)
         && (step =? next_forward st)%nat
      then Ok (mkReplay (Some step) (rollback_prepared st) (next_forward st)
                 (completed_forward st) (completed_rollback st) (rollback_started st)
                 (replay_terminal st))
      else Err InvalidOrder
  | Rollback =>
      if bool_decide (rollback_prepared st = None) && bool_decide (forward_prepared st = None)
      then
        if bool_decide (next_rollback st = Some step)
        then Ok (mkReplay (forward_prepared st) (Some step) (next_forward st)
                   (completed_forward st) (completed_rollback st) true (replay_terminal st))
        else Err InvalidOrder
      else Err InvalidOrder
  end.

Definition completed_transition (step : nat) (direction : JournalDirection) (st : Replay)
  : result JournalCorruption Replay :=
  match direction with
  | Forward =>
      if bool_decide (forward_prepared st = Some step)
      then Ok (mkReplay None (rollback_prepared st) (S (next_forward st))
                 (bs_insert step (completed_forward st)) (completed_rollback st)
                 (rollback_started st) (replay_terminal st))
      else Err InvalidOrder
  | Rollback =>
      if bool_decide (rollback_prepared st = Some step)
      then Ok (mkReplay (forward_prepared st) None (next_forward st) (completed_forward st)
                 (bs_insert step (completed_rollback st)) (rollback_started st)
                 (replay_terminal st))
      else Err InvalidOrder
  end.

Definition not_applied_transition (step : nat) (direction : JournalDirection) (st : Replay)
  : result JournalCorruption Replay :=
  match direction with
  | Forward =>
      if bool_decide (forward_prepared st = Some step)
      then Ok (mkReplay None (rollback_prepared st) (S (next_forward st))
                 (completed_forward st) (completed_rollback st) true (replay_terminal st))
      else Err InvalidOrder
  | Rollback =>
      if bool_decide (rollback_prepared st = Some step)
      then Ok (mkReplay (forward_prepared st) None (next_forward st) (completed_forward st)
                 (completed_rollback st) (rollback_started st) (replay_terminal st))
      else Err InvalidOrder
  end.

(** One iteration of the replay loop. *)
Definition replay_record (step_count : nat) (record : JournalRecord) (st : Replay)
  : result JournalCorruption Replay :=
  match replay_terminal st with
  | Some _ => Err RecordsAfterTerminal
  | None =>
      match record with
      | Intent _ _ => Err InvalidOrder
      | Prepared step direction =>
          validate_step step step_count ≫= fun _ => prepared_transition step direction st
      | Completed step direction =>
          validate_step step step_count ≫= fun _ => completed_transition step direction st
      | NotAppliedRecord step direction =>
          validate_step step step_count ≫= fun _ => not_applied_transition step direction st
      | Terminal value =>
          Ok (mkReplay (forward_prepared st) (rollback_prepared st) (next_forward st)
                (completed_forward st) (completed_rollback st) (rollback_started st)
                (Some value))
      end
  end.

(** The loop; an error comes with the state it was found in. *)
Fixpoint replay_records (step_count : nat) (records : list JournalRecord) (st : Replay)
  : result (JournalCorruption * Replay) Replay :=
  match records with
  | [] => Ok st
  | record :: records' =>
      match replay_record step_count record st with
      | Ok st' => replay_records step_count records' st'
      | Err corruption => Err (corruption, st)
      end
  end.

Definition corrupt (plan : PlanId) (st : Replay) (corruption : JournalCorruption) : RecoveryState :=
  RecoveryRequired (Some plan) (length (completed_forward st)) (length (completed_rollback st))
    (Corrupt corruption).

Definition terminal_valid (step_count : nat) (terminal : JournalTerminal) (st : Replay) : bool :=
  match terminal with
  | Committed =>
      (length (completed_forward st) =? step_count)%nat
      && bool_decide (completed_rollback st = []) && bool_decide (forward_prepared st = None)
      && bool_decide (rollback_prepared st = None)
  | RolledBackTerminal =>
      bool_decide (completed_forward st = completed_rollback st)
      && bool_decide (forward_prepared st = None) && bool_decide (rollback_prepared st = None)
  end.

Definition classify (plan : PlanId) (step_count : nat) (st : Replay) : RecoveryState :=
  let recovery reason :=
    RecoveryRequired (Some plan) (length (completed_forward st)) (length (completed_rollback st))
      reason in
  match replay_terminal st with
  | Some terminal =>
      if terminal_valid step_count terminal st then Clean else corrupt plan st InvalidTerminal
  | None =>
      match forward_prepared st with
      | Some step => recovery (PreparedOnly step Forward)
      | None =>
          match rollback_prepared st with
          | Some step => recovery (PreparedOnly step Rollback)
          | None => recovery Incomplete
          end
      end
  end.

Definition replay_journal (records : list JournalRecord) : RecoveryState :=
  match records with
  | [] => Clean
  | Intent plan steps :: rest =>
      match replay_records (length steps) rest replay_start with
      | Err (corruption, st) => corrupt plan st corruption
      | Ok st => classify plan (length steps) st
      end
  | _ :: _ => RecoveryRequired None 0 0 (Corrupt MissingIntent)
  end.

(** ** Journal errors and adapters ([ports.rs]) *)

Inductive AppendCertainty : Type := NotAppended | MayHaveAppended.
#[export] Instance AppendCertainty_eq_dec : EqDecision AppendCertainty.
Proof. solve_decision. Defined.

Record JournalError : Type := mkJournalError {
  journal_code : Z;
  append_certainty : AppendCertainty
}.
Definition not_appended (code : Z) : JournalError := mkJournalError code NotAppended.
Definition may_have_appended (code : Z) : JournalError := mkJournalError code MayHaveAppended.

Record JournalAuthorization : Type := mkAuthorization {
  authorized_identity : Z;
  authorized_generation : Z
}.
Record JournalSnapshot : Type := mkJournalSnapshot {
  snapshot_records : list JournalRecord;
  snapshot_authorization : JournalAuthorization
}.

Class JournalStore (J : Type) := {
  journal_begin : PlanId -> list JournalStep -> J -> result JournalError unit * J;
  journal_prepared : nat -> JournalDirection -> J -> result JournalError unit * J;
  journal_completed : nat -> JournalDirection -> J -> result JournalError unit * J;
  journal_not_applied : nat -> JournalDirection -> J -> result JournalError unit * J;
  journal_terminal : JournalTerminal -> J -> result JournalError unit * J
}.
#[export] Hint Mode JournalStore ! : typeclass_instances.

(** A journal capability retained from the snapshot through recovery's writes;
    every write returns the advanced authorization. *)
Class AuthorizedJournal (J : Type) := {
  authorized_snapshot : J -> result JournalError JournalSnapshot * J;
  authorized_prepared : JournalAuthorization -> nat -> JournalDirection -> J ->
    result JournalError unit * JournalAuthorization * J;
  authorized_completed : JournalAuthorization -> nat -> JournalDirection -> J ->
    result JournalError unit * JournalAuthorization * J;
  authorized_not_applied : JournalAuthorization -> nat -> JournalDirection -> J ->
    result JournalError unit * JournalAuthorization * J;
  authorized_terminal : JournalAuthorization -> JournalTerminal -> J ->
    result JournalError unit * JournalAuthorization * J
}.
#[export] Hint Mode AuthorizedJournal ! : typeclass_instances.

(** What an append of [record] may have done to the records. *)
Definition appends_record (record : JournalRecord) (before after : list JournalRecord)
    (r : result JournalError unit) : Prop :=
  match r with
  | Ok _ => after = before ++ [record]
  | Err e =>
      after = before \/ (append_certainty e = MayHaveAppended /\ after = before ++ [record])
  end.

Class JournalStoreLaws (J : Type) `{JournalStore J} := {
  journal_records : J -> list JournalRecord;
  begin_appends : forall plan steps (j : J) r j', journal_begin plan steps j = (r, j') ->
    (journal_records j <> [] -> exists e, r = Err e /\ journal_records j' = journal_records j) /\
    appends_record (Intent plan steps) (journal_records j) (journal_records j') r;
  prepared_appends : forall s d (j : J) r j', journal_prepared s d j = (r, j') ->
    appends_record (Prepared s d) (journal_records j) (journal_records j') r;
  completed_appends : forall s d (j : J) r j', journal_completed s d j = (r, j') ->
    appends_record (Completed s d) (journal_records j) (journal_records j') r;
  not_applied_appends : forall s d (j : J) r j', journal_not_applied s d j = (r, j') ->
    appends_record (NotAppliedRecord s d) (journal_records j) (journal_records j') r;
  terminal_appends : forall t (j : J) r j', journal_terminal t j = (r, j') ->
    appends_record (Terminal t) (journal_records j) (journal_records j') r
}.

(** ** [MemoryJournal] *)

Record MemoryJournal : Type := mkMemoryJournal {
  memory_records : list JournalRecord;
  memory_identity : Z;
  memory_generation : Z;
  invalidate_next_authorized_append : bool
}.

(** [identity] comes from the process-wide counter. *)
Definition memory_journal_new (identity : Z) : MemoryJournal := mkMemoryJournal [] identity 0 false.
Definition from_records (identity : Z) (records : list JournalRecord) : MemoryJournal :=
  mkMemoryJournal records identity (zlen records) false.
Definition recovery_state (j : MemoryJournal) : RecoveryState := replay_journal (memory_records j).
Definition invalidate_on_next_authorized_append (j : MemoryJournal) : MemoryJournal :=
  mkMemoryJournal (memory_records j) (memory_identity j) (memory_generation j) true.

Definition memory_push (record : JournalRecord) (j : MemoryJournal) : MemoryJournal :=
  mkMemoryJournal (memory_records j ++ [record]) (memory_identity j)
    (saturating_add (memory_generation j) 1) (invalidate_next_authorized_append j).

Definition memory_authorized_push (authorization : JournalAuthorization) (record : JournalRecord)
    (j : MemoryJournal) : result JournalError unit * JournalAuthorization * MemoryJournal :=
  let j :=
    if invalidate_next_authorized_append j
    then mkMemoryJournal (memory_records j) (memory_identity j)
           (saturating_add (memory_generation j) 1) false
    else j in
  if negb (authorized_identity authorization =? memory_identity j)
     || negb (authorized_generation authorization =? memory_generation j)
  then (Err (not_appended 2), authorization, j)
  else
    let j' := memory_push record j in
    (Ok tt, mkAuthorization (authorized_identity authorization) (memory_generation j'), j').

#[export] Instance MemoryJournal_store : JournalStore MemoryJournal := {
  journal_begin plan steps j :=
    if bool_decide (memory_records j = []) then (Ok tt, memory_push (Intent plan steps) j)
    else (Err (not_appended 1), j);
  journal_prepared step direction j := (Ok tt, memory_push (Prepared step direction) j);
  journal_completed step direction j := (Ok tt, memory_push (Completed step direction) j);
  journal_not_applied step direction j := (Ok tt, memory_push (NotAppliedRecord step direction) j);
  journal_terminal terminal j := (Ok tt, memory_push (Terminal terminal) j)
}.

#[export] Instance MemoryJournal_authorized : AuthorizedJournal MemoryJournal := {
  authorized_snapshot j :=
    (Ok (mkJournalSnapshot (memory_records j)
           (mkAuthorization (memory_identity j) (memory_generation j))), j);
  authorized_prepared a step direction j :=
    memory_authorized_push a (Prepared step direction) j;
  authorized_completed a step direction j :=
    memory_authorized_push a (Completed step direction) j;
  authorized_not_applied a step direction j :=
    memory_authorized_push a (NotAppliedRecord step direction) j;
  authorized_terminal a terminal j := memory_authorized_push a (Terminal terminal) j
}.

#[export] Instance MemoryJournal_laws : JournalStoreLaws MemoryJournal.
Proof.
  refine {| journal_records := memory_records |}.
  - intros plan steps j r j'. simpl. case_bool_decide as He; intros [= <- <-].
    + split; [by rewrite He; intros []|unfold appends_record; simpl; by rewrite He].
    + split; [eauto|by left].
  - by intros s d j r j' [= <- <-].
  - by intros s d j r j' [= <- <-].
  - by intros s d j r j' [= <- <-].
  - by intros t j r j' [= <- <-].
Defined.

(** ** The shape of an accepted journal

    [shaped n m j st]: of [n] steps, [0..m) completed forward and [j..m) were
    rolled back; at most one step is prepared, and it is the next one of its
    direction. *)

Record shaped (n m j : nat) (st : Replay) : Prop := mkShaped {
  shaped_forward : completed_forward st = seq 0 m;
  shaped_rollback : completed_rollback st = seq j (m - j);
  shaped_bounds : (j <= m <= n)%nat;
  shaped_next : next_forward st = m \/ (rollback_started st = true /\ next_forward st = S m);
  shaped_unstarted : rollback_started st = false -> j = m /\ next_forward st = m;
  shaped_fp : forall p, forward_prepared st = Some p ->
    p = m /\ (m < n)%nat /\ rollback_started st = false /\ rollback_prepared st = None;
  shaped_rp : forall p, rollback_prepared st = Some p ->
    S p = j /\ rollback_started st = true /\ forward_prepared st = None
}.

Lemma bs_insert_seq_end k m : bs_insert (k + m)%nat (seq k m) = seq k (S m).
Proof.
  revert k. induction m as [|m IH]; intros k; simpl; [by rewrite Nat.add_0_r|].
  replace (compare (k + S m)%nat k) with Gt
    by (symmetry; unfold compare, nat_ordered; apply Nat.compare_gt_iff; lia).
  f_equal. replace (k + S m)%nat with (S k + m)%nat by lia. apply IH.
Qed.
Lemma bs_insert_seq_front k m : bs_insert k (seq (S k) m) = seq k (S m).
Proof.
  destruct m as [|m]; simpl; [done|].
  replace (compare k (S k)) with Lt; [done|].
  symmetry. unfold compare, nat_ordered. apply Nat.compare_lt_iff. lia.
Qed.

Lemma next_rollback_shaped n m j st :
  shaped n m j st -> next_rollback st = match j with O => None | S p => Some p end.
Proof.
  intros [Hf Hr Hb _ _ _ _]. unfold next_rollback. rewrite Hf, Hr.
  assert (forall d, (d <= m - j)%nat ->
    List.find (fun c => negb (bs_contains c (seq j (m - j)))) (rev (seq 0 (j + d))) =
    match j with O => None | S p => Some p end) as Hfind.
  2: { specialize (Hfind (m - j)%nat (Nat.le_refl _)).
       by replace (j + (m - j))%nat with m in Hfind by lia. }
  induction d as [|d IH]; intros Hd.
  - rewrite Nat.add_0_r. destruct j as [|p]; [done|]. rewrite seq_S, rev_app_distr. simpl.
    destruct (bs_contains p (seq (S p) (m - S p))) eqn:E; simpl; [|done].
    apply bs_contains_spec, elem_of_seq in E. lia.
  - rewrite Nat.add_succ_r, seq_S, rev_app_distr. simpl.
    assert (bs_contains (j + d)%nat (seq j (m - j)) = true) as ->.
    { apply bs_contains_spec, elem_of_seq. lia. }
    simpl. apply IH. lia.
Qed.

(** Each accepted record moves the shape one step. *)
Lemma replay_record_shaped n m j record st st' :
  shaped n m j st -> replay_record n record st = Ok st' ->
  match record with
  | Intent _ _ => False
  | Prepared s Forward => s = m /\ (m < n)%nat /\ j = m /\ shaped n m j st' /\
      forward_prepared st' = Some m /\ replay_terminal st' = None
  | Prepared s Rollback => S s = j /\ shaped n m j st' /\ rollback_prepared st' = Some s /\
      replay_terminal st' = None
  | Completed s Forward => forward_prepared st = Some s /\ s = m /\ shaped n (S m) (S m) st' /\
      forward_prepared st' = None /\ rollback_prepared st' = None /\ replay_terminal st' = None
  | Completed s Rollback => rollback_prepared st = Some s /\ S s = j /\ shaped n m s st' /\
      forward_prepared st' = None /\ rollback_prepared st' = None /\ replay_terminal st' = None
  | NotAppliedRecord s Forward => forward_prepared st = Some s /\ shaped n m m st' /\ j = m /\
      forward_prepared st' = None /\ rollback_prepared st' = None /\ replay_terminal st' = None
  | NotAppliedRecord s Rollback => rollback_prepared st = Some s /\ shaped n m j st' /\
      forward_prepared st' = None /\ rollback_prepared st' = None /\ replay_terminal st' = None
  | Terminal t => shaped n m j st' /\ forward_prepared st' = forward_prepared st /\
      rollback_prepared st' = rollback_prepared st /\ replay_terminal st' = Some t
  end.
Proof.
  intros Hs H. pose proof (next_rollback_shaped n m j st Hs) as Hnext.
  destruct Hs as [Hf Hr Hb Hn Hu Hfp Hrp].
  unfold replay_record in H. destruct (replay_terminal st) eqn:Ht; [done|].
  destruct record as [p ss|s d|s d|s d|t]; [done| | | |].
  - apply result_bind_Ok in H as ([] & Hv & H). unfold validate_step in Hv.
    destruct (Nat.ltb_spec s n); [|done]. destruct d; simpl in H.
    + destruct (_ && _) eqn:Hg; [|done]. injection H as <-.
      apply andb_true_iff in Hg as [[Hrs%negb_true_iff Hfn%bool_decide_eq_true]%andb_true_iff
        Hs%Nat.eqb_eq]. destruct (Hu Hrs) as [-> Hnx]. subst s. rewrite Hnx in *.
      split_and!; try done; try lia. split; simpl; try done; try lia.
      * intros q [= <-]. split_and!; [done|lia|done|].
        destruct (rollback_prepared st) as [q|]; [|done].
        destruct (Hrp q eq_refl) as (_ & ? & _). congruence.
      * intros q Hq. destruct (Hrp q Hq) as (_ & ? & _). congruence.
    + destruct (_ && _) eqn:Hg; [|done]. case_bool_decide as Hnr; [|done]. injection H as <-.
      apply andb_true_iff in Hg as [Hrn%bool_decide_eq_true Hfn%bool_decide_eq_true].
      rewrite Hnext in Hnr. destruct j as [|p]; [done|]. injection Hnr as <-.
      split_and!; try done. split; simpl; try done; try lia.
      * intros q Hq. congruence.
      * intros q [= <-]. done.
  - apply result_bind_Ok in H as ([] & _ & H). destruct d; simpl in H.
    + case_bool_decide as Hp; [|done]. injection H as <-.
      destruct (Hfp s Hp) as (-> & Hlt & Hrs & Hrn). destruct (Hu Hrs) as [-> Hnx].
      split_and!; try done. split; simpl; try done; try lia.
      * rewrite Hf. apply (bs_insert_seq_end 0 m).
      * rewrite Hr, !Nat.sub_diag. done.
      * intros q Hq. congruence.
    + case_bool_decide as Hp; [|done]. injection H as <-.
      destruct (Hrp s Hp) as (Hj & Hrs & Hfn). subst j.
      split_and!; try done. split; simpl; try done; try lia.
      * rewrite Hr. replace (m - s)%nat with (S (m - S s)) by lia. apply bs_insert_seq_front.
      * congruence.
      * intros q Hq. congruence.
  - apply result_bind_Ok in H as ([] & _ & H). destruct d; simpl in H.
    + case_bool_decide as Hp; [|done]. injection H as <-.
      destruct (Hfp s Hp) as (-> & Hlt & Hrs & Hrn). destruct (Hu Hrs) as [-> Hnx].
      split_and!; try done. split; simpl; try done; try lia.
      * intros q Hq. congruence.
    + case_bool_decide as Hp; [|done]. injection H as <-.
      destruct (Hrp s Hp) as (Hj & Hrs & Hfn).
      split_and!; try done. split; simpl; try done; try lia.
      intros q Hq. congruence.
  - injection H as <-. split_and!; try done.
Qed.

Lemma shaped_start n : shaped n 0 0 replay_start.
Proof. split; simpl; try done; try lia. Qed.

Lemma replay_records_app n a b st :
  replay_records n (a ++ b) st = (replay_records n a st) ≫= replay_records n b.
Proof.
  revert st. induction a as [|r a IH]; intros st; simpl; [done|].
  by destruct (replay_record n r st).
Qed.

(** Replaying an accepted journal always ends in some shape. *)
Lemma replay_records_shaped n records st st' m j :
  shaped n m j st -> replay_records n records st = Ok st' -> exists m' j', shaped n m' j' st'.
Proof.
  revert st m j. induction records as [|r records IH]; intros st m j Hs H; simpl in H.
  { injection H as <-. eauto. }
  destruct (replay_record n r st) as [st1|c] eqn:Hr; [|done].
  pose proof (replay_record_shaped n m j r st st1 Hs Hr) as Hstep.
  destruct r as [p ss|s d|s d|s d|t]; [done|destruct d..|]; naive_solver.
Qed.

(** ** What a journal accepts next

    The three situations between two records of an accepted journal, and the
    records each accepts.  [started] is false until a record has started the
    rollback. *)

Record at_rest (n m j : nat) (started : bool) (st : Replay) : Prop := mkAtRest {
  rest_shaped : shaped n m j st;
  rest_fp : forward_prepared st = None;
  rest_rp : rollback_prepared st = None;
  rest_terminal : replay_terminal st = None;
  rest_started : started = false -> rollback_started st = false
}.
Definition in_forward (n k : nat) (st : Replay) : Prop :=
  shaped n k k st /\ forward_prepared st = Some k /\ replay_terminal st = None.
Definition in_rollback (n m p : nat) (st : Replay) : Prop :=
  shaped n m (S p) st /\ rollback_prepared st = Some p /\ replay_terminal st = None.
Definition ended (n m j : nat) (t : JournalTerminal) (st : Replay) : Prop :=
  shaped n m j st /\ forward_prepared st = None /\ rollback_prepared st = None /\
  replay_terminal st = Some t.

(** [P] accepts [record] and then [P'] holds. *)
Definition accepts (n : nat) (P : Replay -> Prop) (record : JournalRecord) (P' : Replay -> Prop)
  : Prop :=
  forall st, P st -> exists st', replay_record n record st = Ok st' /\ P' st'.

Lemma at_rest_start n : at_rest n 0 0 false replay_start.
Proof. split; try done. apply shaped_start. Qed.
Lemma at_rest_weaken n m j b st : at_rest n m j b st -> at_rest n m j true st.
Proof. intros [H1 H2 H3 H4 _]. by split. Qed.

(** The guards of the step index. *)
Lemma validate_step_lt s n : (s < n)%nat -> validate_step s n = Ok tt.
Proof. intros H. unfold validate_step. by destruct (Nat.ltb_spec s n); [|lia]. Qed.

(** An accepted record: compute it, then read the shape off
    [replay_record_shaped]. *)
Ltac accept_record Hs :=
  unfold replay_record; simpl;
  repeat first
    [ rewrite validate_step_lt by lia
    | match goal with H : replay_terminal _ = None |- _ => rewrite H end ]; simpl;
  repeat match goal with
    | H : forward_prepared _ = _ |- _ => rewrite H
    | H : rollback_prepared _ = _ |- _ => rewrite H
    end;
  rewrite ?bool_decide_eq_true_2 by done; simpl.

Lemma accepts_prepared_forward n k :
  (k < n)%nat -> accepts n (at_rest n k k false) (Prepared k Forward) (in_forward n k).
Proof.
  intros Hk st [Hs Hfp Hrp Ht Hst]. specialize (Hst eq_refl).
  destruct (replay_record n (Prepared k Forward) st) as [st'|c] eqn:Hr.
  - exists st'. split; [done|].
    destruct (replay_record_shaped _ _ _ _ _ _ Hs Hr) as (_ & _ & _ & ? & ? & ?). by split_and!.
  - destruct (shaped_unstarted _ _ _ _ Hs Hst) as [_ Hn]. revert Hr. accept_record Hs.
    by rewrite Hst, Hn, Nat.eqb_refl.
Qed.
Lemma accepts_completed_forward n k :
  accepts n (in_forward n k) (Completed k Forward) (at_rest n (S k) (S k) false).
Proof.
  intros st (Hs & Hfp & Ht). destruct (shaped_fp _ _ _ _ Hs k Hfp) as (_ & Hk & Hst & Hrp).
  destruct (replay_record n (Completed k Forward) st) as [st'|c] eqn:Hr.
  - exists st'. split; [done|].
    destruct (replay_record_shaped _ _ _ _ _ _ Hs Hr) as (_ & _ & ? & ? & ? & ?).
    split; try done. intros _. revert Hr. accept_record Hs. by intros [= <-].
  - revert Hr. by accept_record Hs.
Qed.
Lemma accepts_not_applied_forward n k :
  accepts n (in_forward n k) (NotAppliedRecord k Forward) (at_rest n k k true).
Proof.
  intros st (Hs & Hfp & Ht). destruct (shaped_fp _ _ _ _ Hs k Hfp) as (_ & Hk & Hst & Hrp).
  destruct (replay_record n (NotAppliedRecord k Forward) st) as [st'|c] eqn:Hr.
  - exists st'. split; [done|].
    destruct (replay_record_shaped _ _ _ _ _ _ Hs Hr) as (_ & ? & _ & ? & ? & ?). by split.
  - revert Hr. by accept_record Hs.
Qed.
Lemma accepts_prepared_rollback n m p b :
  accepts n (at_rest n m (S p) b) (Prepared p Rollback) (in_rollback n m p).
Proof.
  intros st [Hs Hfp Hrp Ht _]. pose proof (shaped_bounds _ _ _ _ Hs) as Hb.
  destruct (replay_record n (Prepared p Rollback) st) as [st'|c] eqn:Hr.
  - exists st'. split; [done|].
    destruct (replay_record_shaped _ _ _ _ _ _ Hs Hr) as (_ & ? & ? & ?). by split_and!.
  - pose proof (next_rollback_shaped _ _ _ _ Hs) as Hnext. revert Hr. accept_record Hs.
    done.
Qed.
Lemma accepts_completed_rollback n m p :
  accepts n (in_rollback n m p) (Completed p Rollback) (at_rest n m p true).
Proof.
  intros st (Hs & Hrp & Ht). pose proof (shaped_bounds _ _ _ _ Hs) as Hb.
  destruct (replay_record n (Completed p Rollback) st) as [st'|c] eqn:Hr.
  - exists st'. split; [done|].
    destruct (replay_record_shaped _ _ _ _ _ _ Hs Hr) as (_ & _ & ? & ? & ? & ?). by split.
  - revert Hr. by accept_record Hs.
Qed.
Lemma accepts_not_applied_rollback n m p :
  accepts n (in_rollback n m p) (NotAppliedRecord p Rollback) (at_rest n m (S p) true).
Proof.
  intros st (Hs & Hrp & Ht). pose proof (shaped_bounds _ _ _ _ Hs) as Hb.
  destruct (replay_record n (NotAppliedRecord p Rollback) st) as [st'|c] eqn:Hr.
  - exists st'. split; [done|].
    destruct (replay_record_shaped _ _ _ _ _ _ Hs Hr) as (_ & ? & ? & ? & ?). by split.
  - revert Hr. by accept_record Hs.
Qed.
Lemma accepts_terminal n m j b t :
  accepts n (at_rest n m j b) (Terminal t) (ended n m j t).
Proof.
  intros st [Hs Hfp Hrp Ht _].
  destruct (replay_record n (Terminal t) st) as [st'|c] eqn:Hr.
  - exists st'. split; [done|].
    destruct (replay_record_shaped _ _ _ _ _ _ Hs Hr) as (? & ? & ? & ?).
    by split_and!; [|congruence..|].
  - revert Hr. by accept_record Hs.
Qed.

(** The terminals that classify as clean. *)
Lemma ended_valid n m j t st :
  ended n m j t st ->
  terminal_valid n t st =
  match t with Committed => (m =? n)%nat && (j =? m)%nat | RolledBackTerminal => (j =? 0)%nat end.
Proof.
  intros (Hs & Hfp & Hrp & _). destruct Hs as [Hf Hr Hb _ _ _ _].
  unfold terminal_valid. rewrite Hfp, Hrp, Hf, Hr, !length_seq.
  rewrite !(bool_decide_eq_true_2 (None = None)) by done. destruct t; rewrite !andb_true_r.
  - f_equal. apply eq_iff_eq_true. rewrite bool_decide_eq_true, Nat.eqb_eq. split; intros H.
    + apply (f_equal length) in H. rewrite length_seq in H. simpl in H. lia.
    + subst j. by rewrite Nat.sub_diag.
  - apply eq_iff_eq_true. rewrite bool_decide_eq_true, Nat.eqb_eq. split; intros H.
    + apply (f_equal length) in H. rewrite !length_seq in H. lia.
    + subst j. by rewrite Nat.sub_0_r.
Qed.

(** ** What a clean journal says *)

(** The completed steps are the ones recorded. *)
Lemma replay_records_completed n records st st' :
  replay_records n records st = Ok st' -> forall i,
  (i ∈ completed_forward st' <-> i ∈ completed_forward st \/ Completed i Forward ∈ records) /\
  (i ∈ completed_rollback st' <-> i ∈ completed_rollback st \/ Completed i Rollback ∈ records).
Proof.
  revert st. induction records as [|r records IH]; intros st H i; simpl in H.
  { injection H as ->. split; split; try (by left); by intros [?|?%not_elem_of_nil]. }
  destruct (replay_record n r st) as [st1|c] eqn:Hr; [|done]. specialize (IH st1 H i).
  enough ((i ∈ completed_forward st1 <-> i ∈ completed_forward st \/ Completed i Forward = r) /\
          (i ∈ completed_rollback st1 <-> i ∈ completed_rollback st \/ Completed i Rollback = r))
    as [H1 H2] by (rewrite !elem_of_cons; tauto).
  unfold replay_record in Hr. destruct (replay_terminal st); [done|].
  destruct r as [p ss|s d|s d|s d|t]; [done| | | |by injection Hr as <-; naive_solver];
    (apply result_bind_Ok in Hr as ([] & _ & Hr)); destruct d; simpl in Hr;
    repeat case_match; try done; injection Hr as <-; simpl;
    rewrite ?elem_of_bs_insert; naive_solver.
Qed.

(** The terminal record is the last. *)
Lemma replay_records_terminal n records st st' t :
  replay_records n records st = Ok st' -> replay_terminal st = None -> replay_terminal st' = Some t ->
  exists before st1, records = before ++ [Terminal t] /\ replay_records n before st = Ok st1 /\
    completed_forward st1 = completed_forward st' /\ completed_rollback st1 = completed_rollback st'.
Proof.
  revert st. induction records as [|r records IH]; intros st H Ht Ht'; simpl in H.
  { injection H as ->. congruence. }
  destruct (replay_record n r st) as [st1|c] eqn:Hr; [|done].
  destruct (replay_terminal st1) as [t1|] eqn:Ht1.
  - unfold replay_record in Hr. rewrite Ht in Hr.
    destruct r as [p ss|s d|s d|s d|t2]; [done| | | |];
      try (apply result_bind_Ok in Hr as ([] & _ & Hr); destruct d; simpl in Hr;
           repeat case_match; try done; injection Hr as <-; simpl in Ht1; congruence).
    injection Hr as <-. simpl in Ht1. injection Ht1 as ->.
    destruct records as [|r2 records]; simpl in H.
    + injection H as <-. simpl in Ht'. injection Ht' as ->. by exists [], st.
    + unfold replay_record in H. by simpl in H.
  - destruct (IH st1 H Ht1 Ht') as (before & st2 & -> & Hb & Hf & Hrb).
    exists (r :: before), st2. split_and!; [done| |done|done]. simpl. by rewrite Hr.
Qed.

Lemma replay_before_terminal n before t st st' u :
  replay_records n (before ++ [Terminal u]) st = Ok st' -> Terminal t ∉ before.
Proof.
  revert st. induction before as [|r before IH]; intros st H; simpl in H; [apply not_elem_of_nil|].
  destruct (replay_record n r st) as [st1|c] eqn:Hr; [|done].
  intros [<-|Hin]%elem_of_cons; [|by eapply (IH st1)].
  unfold replay_record in Hr. destruct (replay_terminal st); [done|]. injection Hr as <-.
  destruct before as [|r2 before]; simpl in H; unfold replay_record in H; by simpl in H.
Qed.

(** C22: A journal that replays clean and holds an intent ends with its one
    terminal record; if that is a commit, every step of the intent was completed
    forward and none rolled back; if it is a rollback, the completed forward
    steps are exactly the rolled-back ones. *)
Theorem clean_journal_accounts plan steps rest :
  replay_journal (Intent plan steps :: rest) = Clean ->
  exists before terminal, rest = before ++ [Terminal terminal] /\
    (forall t, Terminal t ∉ before) /\
    match terminal with
    | Committed => forall i, (Completed i Forward ∈ before <-> (i < length steps)%nat) /\
                             Completed i Rollback ∉ before
    | RolledBackTerminal => forall i, Completed i Forward ∈ before <-> Completed i Rollback ∈ before
    end.
Proof.
  unfold replay_journal. intros H.
  destruct (replay_records (length steps) rest replay_start) as [st|[c st]] eqn:Hr; [|done].
  unfold classify in H. destruct (replay_terminal st) as [t|] eqn:Ht; [|by repeat case_match].
  destruct (terminal_valid (length steps) t st) eqn:Hv; [|done].
  destruct (replay_records_terminal _ _ _ _ _ Hr eq_refl Ht) as (before & st1 & -> & Hb & Hf & Hrb).
  exists before, t. split; [done|]. split; [by intros t2; eapply replay_before_terminal|].
  destruct (replay_records_shaped _ _ _ _ 0 0 (shaped_start _) Hb) as (m & j & Hs).
  assert (forall i, (Completed i Forward ∈ before <-> i ∈ seq 0 m) /\
                    (Completed i Rollback ∈ before <-> i ∈ seq j (m - j))) as Hmem.
  { intros i. destruct (replay_records_completed _ _ _ _ Hb i) as [H1 H2]. simpl in H1, H2.
    rewrite (shaped_forward _ _ _ _ Hs) in H1. rewrite (shaped_rollback _ _ _ _ Hs) in H2.
    rewrite elem_of_nil in H1, H2. tauto. }
  unfold terminal_valid in Hv. rewrite <-Hf, <-Hrb, (shaped_forward _ _ _ _ Hs),
    (shaped_rollback _ _ _ _ Hs), length_seq in Hv. pose proof (shaped_bounds _ _ _ _ Hs).
  destruct t; rewrite !andb_true_iff, ?bool_decide_eq_true, ?Nat.eqb_eq in Hv; intros i;
    destruct (Hmem i) as [Hm1 Hm2]; rewrite Hm1, Hm2, !elem_of_seq.
  - destruct Hv as [[[-> Hv] _] _]. split; [lia|]. apply (f_equal length) in Hv.
    rewrite length_seq in Hv. simpl in Hv. lia.
  - destruct Hv as [[Hv _] _]. apply (f_equal length) in Hv. rewrite !length_seq in Hv. lia.
Qed.
Lemma clean_journal_accounts_witness :
  let step := journal_step_new 3 (text "C:\a") (text "C:\b") (mkIdentity 1 2)
    (mkIdentity 1 7) (mkIdentity 1 7) NoTemporary in
  let rest := [Prepared 0 Forward; Completed 0 Forward; Terminal Committed] in
  exists before terminal, rest = before ++ [Terminal terminal] /\
    (forall t, Terminal t ∉ before) /\
    match terminal with
    | Committed => forall i, (Completed i Forward ∈ before <-> (i < 1)%nat) /\
                             Completed i Rollback ∉ before
    | RolledBackTerminal => forall i, Completed i Forward ∈ before <-> Completed i Rollback ∈ before
    end.
Proof.
  intros step rest. apply (clean_journal_accounts 9 [step] rest). vm_compute. reflexivity.
Defined.
