(* ===== verification/Effects.v ===== *)
(** * Effects: programs over adapters, their runs and their interruptions

    The executor and the recovery act on the filesystem, the journal and the
    cancellation control only through trait methods.  Their bodies are
    translated into programs over those calls; a handler gives the calls the
    meaning of an adapter.  A crash stops a program between two calls: the
    states it can leave are the ones the step relation reaches. *)

From S2P Require Import Prelude.
From stdpp Require Import relations.

Inductive prog (E : Type -> Type) (A : Type) : Type :=
| Ret (a : A)
| Vis (X : Type) (e : E X) (k : X -> prog E A).
Arguments Ret {E A} _.
Arguments Vis {E A} X e k.

Fixpoint prog_bind {E A B} (p : prog E A) (f : A -> prog E B) : prog E B :=
  match p with
  | Ret a => f a
  | Vis X e k => Vis X e (fun x => prog_bind (k x) f)
  end.

Definition call {E X} (e : E X) : prog E X := Vis X e Ret.

(** Programs that may fail: [?] is the bind. *)
Definition Prog (E : Type -> Type) (Er A : Type) : Type := prog E (result Er A).

#[export] Instance Prog_ret E Er : MRet (Prog E Er) := fun A a => Ret (Ok a).
#[export] Instance Prog_bind E Er : MBind (Prog E Er) := fun A B f p =>
  prog_bind p (fun r => match r with Ok a => f a | Err e => Ret (Err e) end).

Definition throw {E Er A} (e : Er) : Prog E Er A := Ret (Err e).
Definition lift_prog {E Er A} (p : prog E A) : Prog E Er A := prog_bind p (fun a => Ret (Ok a)).
Definition lift_result {E Er A} (r : result Er A) : Prog E Er A := Ret r.
(** A fallible call whose error is converted: [.map_err(f)?]. *)
Definition try_call {E Er Er' A} (f : Er' -> Er) (e : E (result Er' A)) : Prog E Er A :=
  Vis _ e (fun r => Ret (map_err f r)).
(** [.map_err(f)] on a whole program. *)
Definition map_prog_err {Ef : Type -> Type} {E F A} (f : E -> F) (p : Prog Ef E A) : Prog Ef F A :=
  prog_bind p (fun r => Ret (map_err f r)).

Section semantics.
Context {E : Type -> Type} {W : Type}.
Variable handle : forall X, E X -> W -> X * W.

Fixpoint run {A} (p : prog E A) (w : W) : A * W :=
  match p with
  | Ret a => (a, w)
  | Vis X e k => let '(x, w') := handle X e w in run (k x) w'
  end.

(** One adapter call. *)
Inductive prog_step {A} : prog E A * W -> prog E A * W -> Prop :=
| step_vis X e k x w w' :
    handle X e w = (x, w') -> prog_step (Vis X e k, w) (k x, w').

(** The states a crash can leave behind. *)
Definition interrupted {A} (p : prog E A) (w w' : W) : Prop :=
  exists p', rtc prog_step (p, w) (p', w').

(** [safe I Q p w]: from [w], every state of the run of [p] satisfies [I],
    and the result satisfies [Q]. *)
Fixpoint safe {A} (I : W -> Prop) (Q : A -> W -> Prop) (p : prog E A) (w : W) : Prop :=
  I w /\
  match p with
  | Ret a => Q a w
  | Vis X e k => let '(x, w') := handle X e w in safe I Q (k x) w'
  end.

Lemma safe_here {A} I (Q : A -> W -> Prop) p w : safe I Q p w -> I w.
Proof. by destruct p; intros [? _]. Qed.

Lemma safe_ret {A} I (Q : A -> W -> Prop) a w : I w -> Q a w -> safe I Q (Ret a) w.
Proof. by split. Qed.

Lemma safe_vis {A X} I (Q : A -> W -> Prop) (e : E X) k w :
  I w -> (forall x w', handle X e w = (x, w') -> safe I Q (k x) w') -> safe I Q (Vis X e k) w.
Proof. intros HI Hk. split; [done|]. destruct (handle X e w) as [x w'] eqn:He. by apply Hk. Qed.

Lemma safe_mono {A} I (Q Q' : A -> W -> Prop) p w :
  safe I Q p w -> (forall a w', I w' -> Q a w' -> Q' a w') -> safe I Q' p w.
Proof.
  intros Hs HQ. revert w Hs. induction p as [a|X e k IH]; intros w [HI Hs]; (split; [done|]).
  - by apply HQ.
  - destruct (handle X e w) as [x w']. by apply IH.
Qed.

Lemma safe_weaken {A} (I I' : W -> Prop) (Q Q' : A -> W -> Prop) p w :
  safe I Q p w -> (forall w', I w' -> I' w') -> (forall a w', Q a w' -> Q' a w') ->
  safe I' Q' p w.
Proof.
  intros Hs HI' HQ. revert w Hs. induction p as [a|X e k IH]; intros w [HI Hs]; (split; [by apply HI'|]).
  - by apply HQ.
  - destruct (handle X e w) as [x w']. by apply IH.
Qed.

(** The result a safe program reaches is the one of its run. *)
Lemma safe_self {A} I (Q : A -> W -> Prop) p w :
  safe I Q p w -> safe I (fun a w' => Q a w' /\ run p w = (a, w')) p w.
Proof.
  revert w. induction p as [a|X e k IH]; intros w [HI Hs]; (split; [done|]); simpl.
  - done.
  - destruct (handle X e w) as [x w']. by apply IH.
Qed.

Lemma safe_kept {A} I (Q : A -> W -> Prop) p w :
  safe I Q p w -> safe I (fun a w' => Q a w' /\ I w') p w.
Proof. intros Hs. eapply safe_mono; [exact Hs|done]. Qed.

Lemma safe_bind {A B} I (R : A -> W -> Prop) (Q : B -> W -> Prop) p f w :
  safe I R p w -> (forall a w', I w' -> R a w' -> safe I Q (f a) w') ->
  safe I Q (prog_bind p f) w.
Proof.
  intros Hs Hf. revert w Hs. induction p as [a|X e k IH]; intros w [HI Hs]; simpl.
  - by apply Hf.
  - split; [done|]. destruct (handle X e w) as [x w']. by apply IH.
Qed.

(** The bind of fallible programs: an error is the result. *)
Lemma safe_mbind {Er A B} I (R : result Er A -> W -> Prop) (Q : result Er B -> W -> Prop)
    (p : Prog E Er A) f w :
  safe I R p w ->
  (forall a w', I w' -> R (Ok a) w' -> safe I Q (f a) w') ->
  (forall e w', I w' -> R (Err e) w' -> Q (Err e) w') ->
  safe I Q (p ≫= f) w.
Proof.
  intros Hs Hf He. eapply safe_bind; [exact Hs|]. intros [a|e] w' HI HR; [by apply Hf|].
  apply safe_ret; [done|]. by apply He.
Qed.

Lemma safe_run {A} I (Q : A -> W -> Prop) p w a w' :
  safe I Q p w -> run p w = (a, w') -> Q a w' /\ I w'.
Proof.
  revert w. induction p as [b|X e k IH]; intros w [HI Hs]; simpl.
  - by intros [= <- <-].
  - destruct (handle X e w) as [x w1]. by apply IH.
Qed.

Lemma safe_interrupted {A} I (Q : A -> W -> Prop) p w w' :
  safe I Q p w -> interrupted p w w' -> I w'.
Proof.
  intros Hs (p' & Hr). remember (p, w) as s eqn:Es. remember (p', w') as s' eqn:Es'.
  revert p w Es Hs. induction Hr as [s|s1 s2 s3 Hstep _ IH]; intros p w -> Hs.
  - injection Es' as -> ->. by eapply safe_here.
  - inversion Hstep as [X e k x w0 w1 He]; subst. destruct Hs as [HI Hs].
    rewrite He in Hs. by eapply IH.
Qed.

(** Runs of a bind split at the bind. *)
Lemma run_bind {A B} (p : prog E A) (f : A -> prog E B) w :
  run (prog_bind p f) w = let '(a, w') := run p w in run (f a) w'.
Proof.
  revert w. induction p as [a|X e k IH]; intros w; simpl; [done|].
  destruct (handle X e w) as [x w']. apply IH.
Qed.
Lemma run_mbind {Er A B} (p : Prog E Er A) (f : A -> Prog E Er B) w :
  run (p ≫= f) w =
  match run p w with (Ok a, w') => run (f a) w' | (Err e, w') => (Err e, w') end.
Proof. unfold mbind, Prog_bind. rewrite run_bind. by destruct (run p w) as [[a|e] w']. Qed.
End semantics.
#[global] Arguments safe : simpl never.

(** A run reaches its end through its interruptions. *)
Fixpoint interrupt_after {E : Type -> Type} {A W} (handle : forall X, E X -> W -> X * W) (n : nat)
    (p : prog E A) (w : W) : prog E A * W :=
  match n, p with
  | S n, Vis X e k => let '(x, w') := handle X e w in interrupt_after handle n (k x) w'
  | _, _ => (p, w)
  end.
Lemma interrupt_after_steps {E : Type -> Type} {A W} (handle : forall X, E X -> W -> X * W) n
    (p : prog E A) w :
  rtc (prog_step handle) (p, w) (interrupt_after handle n p w).
Proof.
  revert p w. induction n as [|n IH]; intros p w; [done|].
  destruct p as [a|X e k]; simpl; [done|]. destruct (handle X e w) as [x w'] eqn:He.
  eapply relations.rtc_l; [by constructor|]. apply IH.
Qed.
Lemma interrupt_after_interrupted {E : Type -> Type} {A W} (handle : forall X, E X -> W -> X * W) n
    (p : prog E A) w :
  interrupted handle p w (interrupt_after handle n p w).2.
Proof.
  exists (interrupt_after handle n p w).1. rewrite <-surjective_pairing.
  apply interrupt_after_steps.
Qed.
(** A run that is not cut short is an interruption at its end. *)
Lemma run_interrupted {E : Type -> Type} {A W} (handle : forall X, E X -> W -> X * W)
    (p : prog E A) w : interrupted handle p w (run handle p w).2.
Proof.
  revert w. induction p as [a|X e k IH]; intros w; simpl; [by exists (Ret a)|].
  destruct (handle X e w) as [x w'] eqn:He. destruct (IH x w') as [p' Hp'].
  exists p'. eapply relations.rtc_l; [by constructor|exact Hp'].
Qed.

(** ** Programs under all answers of their calls

    [wp admits answers p Q]: as long as the calls answer within [answers], every
    call [p] makes is one [admits] allows, and [p] ends with a result in [Q]. *)
Fixpoint wp {E : Type -> Type} {A} (admits : forall X, E X -> Prop)
    (answers : forall X, E X -> X -> Prop) (p : prog E A) (Q : A -> Prop) : Prop :=
  match p with
  | Ret a => Q a
  | Vis X e k => admits X e /\ forall x, answers X e x -> wp admits answers (k x) Q
  end.
#[global] Arguments wp : simpl never.

Section wp.
Context {E : Type -> Type} (admits : forall X, E X -> Prop) (answers : forall X, E X -> X -> Prop).

Lemma wp_value {A} (a : A) (Q : A -> Prop) : Q a -> wp admits answers (Ret a) Q.
Proof. done. Qed.
Lemma wp_vis {A X} (e : E X) (k : X -> prog E A) Q :
  admits X e -> (forall x, answers X e x -> wp admits answers (k x) Q) ->
  wp admits answers (Vis X e k) Q.
Proof. by split. Qed.
Lemma wp_consequence {A} (p : prog E A) (Q Q' : A -> Prop) :
  wp admits answers p Q -> (forall a, Q a -> Q' a) -> wp admits answers p Q'.
Proof.
  intros Hp HQ. induction p as [a|X e k IH]; [by apply HQ|]. destruct Hp as [He Hk].
  apply wp_vis; [done|]. intros x Hx. apply IH, Hk, Hx.
Qed.
Lemma wp_prog_bind {A A'} (p : prog E A) (f : A -> prog E A') Q :
  wp admits answers p (fun a => wp admits answers (f a) Q) -> wp admits answers (prog_bind p f) Q.
Proof.
  induction p as [a|X e k IH]; [done|]. intros [He Hk]. simpl. apply wp_vis; [done|].
  intros x Hx. apply IH, Hk, Hx.
Qed.

(** The calls a run makes. *)
Definition makes_call {W A} (handle : forall X, E X -> W -> X * W) (p : prog E A) (w : W)
    X (e : E X) : Prop :=
  exists k w', rtc (prog_step handle) (p, w) (Vis X e k, w').

Lemma wp_run_from {W A} (handle : forall X, E X -> W -> X * W) (I : W -> Prop)
    (p : prog E A) Q w :
  (forall X (e : E X) w, admits X e -> I w -> answers X e (handle X e w).1 /\ I (handle X e w).2) ->
  wp admits answers p Q -> I w -> Q (run handle p w).1.
Proof.
  intros Hh. revert w. induction p as [a|X e k IH]; intros w Hp HI; [done|].
  destruct Hp as [He Hk]. simpl. destruct (Hh X e w He HI) as [Hx HI'].
  destruct (handle X e w) as [x w']. apply IH; [by apply Hk|done].
Qed.
Lemma wp_calls {W A} (handle : forall X, E X -> W -> X * W) (I : W -> Prop) (p : prog E A) Q w X e :
  (forall X (e : E X) w, admits X e -> I w -> answers X e (handle X e w).1 /\ I (handle X e w).2) ->
  wp admits answers p Q -> I w -> makes_call handle p w X e -> admits X e.
Proof.
  intros Hh Hp HI (k & w' & Hr). remember (p, w) as s eqn:Es.
  remember (Vis X e k, w') as s' eqn:Es'. revert p w Es Hp HI.
  induction Hr as [s|s1 s2 s3 Hstep _ IH]; intros p w Es Hp HI.
  - subst s. injection Es as <- <-. by destruct Hp.
  - subst s1. inversion Hstep as [Y c k' x u u' Hc]; subst.
    destruct Hp as [Hadm Hk]. destruct (Hh Y c w Hadm HI) as [Hx HI']. rewrite Hc in Hx, HI'.
    eapply IH; [done|done|by apply Hk|done].
Qed.
End wp.

