(* ===== verification/Schedule.v ===== *)
(** * Schedule: ordering the primitive moves of a plan

    [crates/darknamer-app/src/rename/schedule.rs]: direct moves in dependency
    order, cycles opened through a temporary name.  The calls to the backend
    and the cancellation polls are effects. *)

From S2P Require Import Prelude Collections LegacyText RenameModel Journal Effects.

Definition MAX_TEMP_CANDIDATES : nat := 32.

Record ScheduleStep : Type := mkScheduleStep {
  entry : EntryId;
  source : LegacyText;
  destination : LegacyText;
  identity : EntryIdentity;
  source_parent : EntryIdentity;
  destination_parent : EntryIdentity;
  kind : EntryKind;
  scope : MoveScope;
  temporary_phase : TemporaryPhase
}.

Inductive ScheduleError : Type :=
| ScheduleCancelled | ScheduleInvalid | ScheduleBackend (error : BackendError)
| ScheduleStaleParent (entry : EntryId) | TemporaryNamesExhausted (entry : EntryId).

(** ** Effects of planning and execution *)

Inductive ExecutionPhase : Type :=
| PhaseReady | PhaseForward | PhaseRollback | PhaseFinalizing | PhaseTerminal.
Record ExecutionProgress : Type := mkProgress {
  phase : ExecutionPhase;
  completed_steps : nat;
  total_steps : nat
}.

(** The trait methods called, one constructor each. *)
Inductive effect : Type -> Type :=
| CancellationRequested : effect bool
| BeginTransaction : effect bool
| Progress (p : ExecutionProgress) : effect unit
| ResolveSource (path : LegacyText) : effect (result BackendError ResolvedSource)
| PlannedEntryKey (parent : EntryIdentity) (leaf : LegacyText) : effect (result BackendError PathKey)
| Observe (path : LegacyText) : effect (result BackendError PathSnapshot)
| NextTransactionNonce : effect (result BackendError Z)
| RenameNoReplace (op : RenameOperation) : effect (result BackendError unit)
| JournalBegin (plan : PlanId) (steps : list JournalStep) : effect (result JournalError unit)
| JournalPrepared (step : nat) (d : JournalDirection) : effect (result JournalError unit)
| JournalCompleted (step : nat) (d : JournalDirection) : effect (result JournalError unit)
| JournalNotApplied (step : nat) (d : JournalDirection) : effect (result JournalError unit)
| JournalTerminalRecord (t : JournalTerminal) : effect (result JournalError unit).

Abbreviation Sched := (Prog effect ScheduleError) (only parsing).

Definition check_cancelled : Prog effect ScheduleError unit :=
  cancelled ← lift_prog (call CancellationRequested);
  if cancelled : bool then throw ScheduleCancelled else mret tt.

(** ** Temporary names *)

Definition hex_digit (d : Z) : Z := if d <? 10 then 48 + d else 87 + d.
(** [{:0nx}] of a value of at most [n] hexadecimal digits. *)
Fixpoint hex_fixed (n : nat) (value : Z) : list Z :=
  match n with
  | O => []
  | S n => hex_fixed n (Z.shiftr value 4) ++ [hex_digit (Z.land value 15)]
  end.

Definition temporary_leaf (plan : PlanId) (nonce : Z) (pivot : EntryId) (ordinal : nat)
  : LegacyText :=
  text ".__darknamer_" ++ hex_fixed 16 plan ++ text "_" ++ hex_fixed 32 nonce ++ text "_"
  ++ hex_fixed 8 pivot ++ text "_" ++ hex_fixed 2 (Z.of_nat ordinal) ++ text ".tmp".

Definition parent_units (path : LegacyText) : list Z :=
  match rposition is_path_separator path with None => [] | Some index => take index path end.

(** The candidate loop: [remaining] ordinals are left from [ordinal] on. *)
Fixpoint temporary_candidates (remaining ordinal : nat) (plan : RenamePlan) (pivot : PlanRow)
    (nonce : Z) (parent : list Z) (reserved : BTreeSet PathKey)
  : Prog effect ScheduleError (LegacyText * BTreeSet PathKey) :=
  match remaining with
  | O => throw (TemporaryNamesExhausted (row_id pivot))
  | S remaining =>
      check_cancelled;;
      let leaf := temporary_leaf (plan_id plan) nonce (row_id pivot) ordinal in
      let path := parent ++ [BACKSLASH] ++ leaf in
      key ← try_call ScheduleBackend
              (PlannedEntryKey (snapshot_parent (source_snapshot pivot)) leaf);
      if bs_contains key reserved
      then temporary_candidates remaining (S ordinal) plan pivot nonce parent reserved
      else
        snapshot ← try_call ScheduleBackend (Observe path);
        if negb (bool_decide (snapshot_parent snapshot = snapshot_parent (source_snapshot pivot)))
        then throw (ScheduleStaleParent (row_id pivot))
        else
          match snapshot_entry snapshot with
          | None => mret (path, bs_insert key reserved)
          | Some _ =>
              temporary_candidates remaining (S ordinal) plan pivot nonce parent reserved
          end
  end.

Definition unique_temporary_path (plan : RenamePlan) (pivot : PlanRow)
    (reserved : BTreeSet PathKey) : Prog effect ScheduleError (LegacyText * BTreeSet PathKey) :=
  check_cancelled;;
  nonce ← try_call ScheduleBackend NextTransactionNonce;
  temporary_candidates MAX_TEMP_CANDIDATES 0 plan pivot nonce (parent_units (row_source pivot))
    reserved.

(** ** Steps *)

Definition source_identity (e : PlanRow) : result ScheduleError EntryIdentity :=
  ok_or ScheduleInvalid (observed_identity <$> snapshot_entry (source_snapshot e)).

Definition direct_step (e : PlanRow) (scope : MoveScope) : result ScheduleError ScheduleStep :=
  identity ← source_identity e;
  Ok (mkScheduleStep (row_id e) (row_source e) (row_destination e) identity
        (snapshot_parent (source_snapshot e)) (snapshot_parent (destination_snapshot e))
        (row_kind e) scope NoTemporary).

Definition into_temporary_step (e : PlanRow) (temporary : LegacyText) (identity : EntryIdentity)
    (scope : MoveScope) : ScheduleStep :=
  mkScheduleStep (row_id e) (row_source e) temporary identity
    (snapshot_parent (source_snapshot e)) (snapshot_parent (source_snapshot e)) (row_kind e) scope
    IntoTemporary.
Definition from_temporary_step (e : PlanRow) (temporary : LegacyText) (identity : EntryIdentity)
    (scope : MoveScope) : ScheduleStep :=
  mkScheduleStep (row_id e) temporary (row_destination e) identity
    (snapshot_parent (source_snapshot e)) (snapshot_parent (destination_snapshot e)) (row_kind e)
    scope FromTemporary.

(** ** The dependency graph *)

(** One poll per element of a loop whose body cannot fail. *)
Fixpoint poll_each {A} (l : list A) : Prog effect ScheduleError unit :=
  match l with
  | [] => mret tt
  | _ :: l' => check_cancelled;; poll_each l'
  end.

Fixpoint insert_owners (keys : list PathKey) (index : nat) (owners : BTreeMap PathKey nat)
  : Prog effect ScheduleError (BTreeMap PathKey nat) :=
  match keys with
  | [] => mret owners
  | key :: keys' =>
      check_cancelled;;
      match bm_get key owners with
      | Some _ => throw ScheduleInvalid
      | None => insert_owners keys' (S index) (bm_insert key index owners)
      end
  end.

(** [dependencies[index]] owns the source at [index]'s destination, and
    [predecessors] is its inverse. *)
Fixpoint link_dependencies (owners : BTreeMap PathKey nat) (keys : list PathKey) (index : nat)
    (predecessors : list (option nat))
  : Prog effect ScheduleError (list (option nat) * list (option nat)) :=
  match keys with
  | [] => mret ([], predecessors)
  | destination :: keys' =>
      check_cancelled;;
      match bm_get destination owners with
      | None =>
          '(dependencies, predecessors) ← link_dependencies owners keys' (S index) predecessors;
          mret (None :: dependencies, predecessors)
      | Some owner =>
          match predecessors !! owner with
          | Some None =>
              '(dependencies, predecessors) ←
                link_dependencies owners keys' (S index) (<[owner := Some index]> predecessors);
              mret (Some owner :: dependencies, predecessors)
          | _ => throw ScheduleInvalid
          end
      end
  end.

Fixpoint initial_ready (dependencies : list (option nat)) (index : nat)
    (remaining_indices ready : BTreeSet nat)
  : Prog effect ScheduleError (BTreeSet nat * BTreeSet nat) :=
  match dependencies with
  | [] => mret (remaining_indices, ready)
  | dependency :: dependencies' =>
      check_cancelled;;
      initial_ready dependencies' (S index) (bs_insert index remaining_indices)
        (match dependency with None => bs_insert index ready | Some _ => ready end)
  end.

(** ** The scheduling loop *)

Record LoopState : Type := mkLoop {
  pending : list bool;
  remaining : nat;
  remaining_indices : BTreeSet nat;
  ready : BTreeSet nat;
  reserved : BTreeSet PathKey;
  schedule : list ScheduleStep
}.

(** Marks [index] done. *)
Definition finish_index (index : nat) (st : LoopState) : result ScheduleError LoopState :=
  if bs_contains index (remaining_indices st)
  then Ok (mkLoop (<[index := false]> (pending st)) (remaining st - 1) (bs_remove index (remaining_indices st))
             (ready st) (reserved st) (schedule st))
  else Err ScheduleInvalid.

Definition push_step (s : ScheduleStep) (st : LoopState) : LoopState :=
  mkLoop (pending st) (remaining st) (remaining_indices st) (ready st) (reserved st) (schedule st ++ [s]).

Section scheduling.
Variables (plan : RenamePlan) (predecessors : list (option nat)).

Definition is_pending (index : nat) (st : LoopState) : bool :=
  default false (pending st !! index).
Definition predecessor (index : nat) : option nat := default None (predecessors !! index).

(** A direct move of a pending row. *)
Definition schedule_direct (index : nat) (st : LoopState) : result ScheduleError LoopState :=
  if negb (is_pending index st) then Err ScheduleInvalid
  else
    e ← ok_or ScheduleInvalid (plan_entries plan !! index);
    s ← direct_step e (plan_scope plan);
    finish_index index (push_step s st).

(** The chain of predecessors freed by opening a cycle at [pivot]. *)
Fixpoint close_cycle (fuel pivot freed : nat) (st : LoopState)
  : Prog effect ScheduleError LoopState :=
  match fuel with
  | O => throw ScheduleInvalid
  | S fuel =>
      match predecessor freed with
      | None => mret st
      | Some index =>
          check_cancelled;;
          if (index =? pivot)%nat then mret st
          else
            st ← lift_result (schedule_direct index st);
            close_cycle fuel pivot index st
      end
  end.

Definition schedule_cycle (pivot : nat) (st : LoopState) : Prog effect ScheduleError LoopState :=
  e ← lift_result (ok_or ScheduleInvalid (plan_entries plan !! pivot));
  '(temporary, reserved) ← unique_temporary_path plan e (reserved st);
  identity ← lift_result (source_identity e);
  let st := mkLoop (pending st) (remaining st) (remaining_indices st) (ready st) reserved (schedule st) in
  st ← close_cycle (S (length (plan_entries plan))) pivot pivot
         (push_step (into_temporary_step e temporary identity (plan_scope plan)) st);
  lift_result (finish_index pivot
    (push_step (from_temporary_step e temporary identity (plan_scope plan)) st)).

Fixpoint schedule_loop (fuel : nat) (st : LoopState) : Prog effect ScheduleError LoopState :=
  match remaining st with
  | O => mret st
  | S _ =>
      match fuel with
      | O => throw ScheduleInvalid
      | S fuel =>
          check_cancelled;;
          match ready st with
          | index :: ready' =>
              st ← lift_result (schedule_direct index
                     (mkLoop (pending st) (remaining st) (remaining_indices st) ready' (reserved st)
                        (schedule st)));
              let ready'' :=
                match predecessor index with
                | Some predecessor =>
                    if is_pending predecessor st then bs_insert predecessor (ready st)
                    else ready st
                | None => ready st
                end in
              schedule_loop fuel
                (mkLoop (pending st) (remaining st) (remaining_indices st) ready'' (reserved st) (schedule st))
          | [] =>
              pivot ← lift_result (ok_or ScheduleInvalid (head (remaining_indices st)));
              st ← schedule_cycle pivot st;
              schedule_loop fuel st
          end
      end
  end.
End scheduling.

Definition build_schedule_cancellable (plan : RenamePlan)
  : Prog effect ScheduleError (list ScheduleStep) :=
  let entries := plan_entries plan in
  poll_each entries;;
  let source_keys := map source_entry_key entries in
  let destination_keys := map destination_entry_key entries in
  poll_each (source_keys ++ destination_keys);;
  let reserved := bs_extend (source_keys ++ destination_keys) [] in
  source_owners ← insert_owners source_keys 0 [];
  '(dependencies, predecessors) ←
    link_dependencies source_owners destination_keys 0 (map (fun _ => None) entries);
  '(remaining_indices, ready) ← initial_ready dependencies 0 [] [];
  st ← schedule_loop plan predecessors (length entries)
         (mkLoop (map (fun _ => true) entries) (length entries) remaining_indices ready reserved
            []);
  mret (schedule st).
