(* ===== verification/Codec.v ===== *)
(** * Codec: the journal's byte format

    The codec of [crates/darknamer-app/src/rename/file_journal.rs]: framed,
    sequenced and checksummed records, strict decoding, and the inspection that
    tolerates one torn frame at the end.  A byte is a [Z]. *)

From S2P Require Import Prelude Collections LegacyText RenameModel Journal.

Definition MAGIC : list Z := text "DRJ1".
Definition LEGACY_VERSION : Z := 1.
Definition VERSION : Z := 2.
Definition HEADER_BYTES : nat := 24.
Definition FLAGS_NONE : Z := 0.
Definition MAX_JOURNAL_STEPS : Z := 10000.
Definition MAX_JOURNAL_FRAMES : Z := MAX_JOURNAL_STEPS * 4 + 4.
Definition MAX_JOURNAL_FRAME_BYTES : Z := 16 * 1024 * 1024.
Definition MAX_JOURNAL_FILE_BYTES : Z := 64 * 1024 * 1024.
Definition MAX_PATH_UNITS : Z := 32767.

Inductive JournalCapacityKind : Type := PrimitiveSteps | IntentFrameBytes.
Record JournalCapacityError : Type := mkCapacityError {
  capacity_kind : JournalCapacityKind;
  capacity_required : Z;
  capacity_maximum : Z
}.
Record JournalRequirements : Type := mkRequirements {
  primitive_steps : Z;
  intent_frame_bytes : Z
}.

Inductive JournalCodecErrorKind : Type :=
| FileTooLarge | TooManyFrames | TooManySteps | PathTooLong | TruncatedFrame | InvalidMagic
| UnsupportedVersion | InvalidFlags | SequenceMismatch | FrameTooLarge | ChecksumMismatch
| UnknownRecordKind | UnknownFieldValue | InvalidPayload | InvalidTransitions | IntegerOutOfRange.
Record JournalCodecError : Type := mkCodecError {
  error_frame : nat;
  error_kind : JournalCodecErrorKind
}.

Inductive JournalTailIssue : Type := TruncatedHeader | TruncatedPayload.
Record JournalInspection : Type := mkInspection {
  inspected_records : list JournalRecord;
  inspection_issue : option JournalTailIssue;
  valid_bytes : nat
}.

(** ** Integers *)

(** [to_le_bytes] and [from_le_bytes]. *)
Fixpoint le_bytes (n : nat) (value : Z) : list Z :=
  match n with
  | O => []
  | S n => Z.land value 255 :: le_bytes n (Z.shiftr value 8)
  end.
Fixpoint le_value (bytes : list Z) : Z :=
  match bytes with
  | [] => 0
  | b :: bytes' => Z.lor b (Z.shiftl (le_value bytes') 8)
  end.

(** One bit of [crc32_parts], eight per byte, all bytes of all parts. *)
Definition crc_bit (crc : Z) : Z :=
  let mask := (0 - Z.land crc 1) mod 2 ^ 32 in
  Z.lxor (Z.shiftr crc 1) (Z.land 3988292384 mask).
Definition crc_byte (crc byte : Z) : Z := Nat.iter 8 crc_bit (Z.lxor crc byte).
#[global] Arguments crc_byte : simpl never.
Definition crc32_parts (parts : list (list Z)) : Z :=
  u32_max - fold_left (fun crc part => fold_left crc_byte part crc) parts u32_max.

(** ** Capacity of an intent manifest *)

Definition INTENT_FIXED_BYTES : Z := 8 + 4.
Definition INTENT_STEP_FIXED_BYTES : Z := 4 + 4 + 4 + (8 + 16) * 3 + 3.

Definition journal_requirements (steps : list JournalStep)
  : result JournalCapacityError JournalRequirements :=
  if MAX_JOURNAL_STEPS <? zlen steps
  then Err (mkCapacityError PrimitiveSteps (zlen steps) MAX_JOURNAL_STEPS)
  else
    let required :=
      fold_left (fun required s =>
        saturating_add
          (saturating_add (saturating_add required INTENT_STEP_FIXED_BYTES)
             (saturating_mul (zlen (step_source s)) 2))
          (saturating_mul (zlen (step_destination s)) 2)) steps INTENT_FIXED_BYTES in
    if MAX_JOURNAL_FRAME_BYTES <? required
    then Err (mkCapacityError IntentFrameBytes required MAX_JOURNAL_FRAME_BYTES)
    else Ok (mkRequirements (zlen steps) required).

(** ** Encoding *)

Definition encode_direction (d : JournalDirection) : Z :=
  match d with Forward => 0 | Rollback => 1 end.
Definition encode_kind (k : EntryKind) : Z := match k with File => 0 | Directory => 1 end.
Definition encode_scope (s : MoveScope) : Z :=
  match s with SameParent => 0 | SameVolumeFilesOnly => 1 end.
Definition encode_phase (p : TemporaryPhase) : Z :=
  match p with NoTemporary => 0 | IntoTemporary => 1 | FromTemporary => 2 end.

Section encoding.
Variable frame : nat.
Let fail {A} (kind : JournalCodecErrorKind) : result JournalCodecError A :=
  Err (mkCodecError frame kind).

Definition put_u32 (payload : list Z) (value : Z) : list Z := payload ++ le_bytes 4 value.
Definition put_u32_len (payload : list Z) (value : Z) : result JournalCodecError (list Z) :=
  if value <=? u32_max then Ok (put_u32 payload value) else fail IntegerOutOfRange.
Definition put_u64 (payload : list Z) (value : Z) : list Z := payload ++ le_bytes 8 value.
Definition put_identity (payload : list Z) (identity : EntryIdentity) : list Z :=
  payload ++ le_bytes 8 (volume identity) ++ le_bytes 16 (file_id identity).

Definition put_text (payload : list Z) (t : LegacyText) : result JournalCodecError (list Z) :=
  if MAX_PATH_UNITS <? zlen t then fail PathTooLong
  else
    encoded_units ← ok_or (mkCodecError frame IntegerOutOfRange) (checked_mul (zlen t) 2);
    prospective ← ok_or (mkCodecError frame IntegerOutOfRange)
      (length ← checked_add (zlen payload) 4; checked_add length encoded_units);
    if MAX_JOURNAL_FRAME_BYTES <? prospective then fail FrameTooLarge
    else
      payload ← put_u32_len payload (zlen t);
      Ok (payload ++ concat (map (le_bytes 2) t)).

Definition put_step (payload : list Z) (s : JournalStep) : result JournalCodecError (list Z) :=
  let payload := put_u32 payload (step_entry s) in
  payload ← put_text payload (step_source s);
  payload ← put_text payload (step_destination s);
  let payload := put_identity payload (step_expected_source s) in
  let payload := put_identity payload (step_source_parent s) in
  let payload := put_identity payload (step_destination_parent s) in
  kind ← ok_or (mkCodecError frame InvalidPayload) (step_kind s);
  let payload :=
    payload ++ [encode_kind kind; encode_scope (step_scope s);
                encode_phase (step_temporary_phase s)] in
  if MAX_JOURNAL_FRAME_BYTES <? zlen payload then fail FrameTooLarge else Ok payload.

Fixpoint put_steps (payload : list Z) (steps : list JournalStep)
  : result JournalCodecError (list Z) :=
  match steps with
  | [] => Ok payload
  | s :: steps' => payload ← put_step payload s; put_steps payload steps'
  end.

Definition put_transition (kind step : Z) (d : JournalDirection)
  : result JournalCodecError (Z * list Z) :=
  payload ← put_u32_len [] step;
  Ok (kind, payload ++ [encode_direction d]).

(** The record kind and the payload. *)
Definition encode_record (record : JournalRecord) : result JournalCodecError (Z * list Z) :=
  match record with
  | Intent plan steps =>
      map_err (fun error => mkCodecError frame
        match capacity_kind error with
        | PrimitiveSteps => TooManySteps
        | IntentFrameBytes => FrameTooLarge
        end) (journal_requirements steps) ≫= fun _ =>
      payload ← put_u32_len (put_u64 [] plan) (zlen steps);
      payload ← put_steps payload steps;
      Ok (1, payload)
  | Prepared step d => put_transition 2 (Z.of_nat step) d
  | Completed step d => put_transition 3 (Z.of_nat step) d
  | NotAppliedRecord step d => put_transition 4 (Z.of_nat step) d
  | Terminal t => Ok (5, [match t with Committed => 0 | RolledBackTerminal => 1 end])
  end.

Definition encode_frame (sequence : Z) (record : JournalRecord)
  : result JournalCodecError (list Z) :=
  '(kind, payload) ← encode_record record;
  if MAX_JOURNAL_FRAME_BYTES <? zlen payload then fail FrameTooLarge
  else if u32_max <? zlen payload then fail IntegerOutOfRange
  else
    let checked :=
      le_bytes 2 VERSION ++ [kind; FLAGS_NONE] ++ le_bytes 8 sequence
      ++ le_bytes 4 (zlen payload) in
    let checksum := crc32_parts [checked; payload] in
    Ok (MAGIC ++ checked ++ le_bytes 4 checksum ++ payload).
End encoding.

Fixpoint encode_frames (index : nat) (bytes : list Z) (records : list JournalRecord)
  : result JournalCodecError (list Z) :=
  match records with
  | [] => Ok bytes
  | record :: records' =>
      if u64_max <? Z.of_nat index then Err (mkCodecError index IntegerOutOfRange)
      else
        frame ← encode_frame index (Z.of_nat index) record;
        if MAX_JOURNAL_FILE_BYTES <? saturating_add (zlen bytes) (zlen frame)
        then Err (mkCodecError index FileTooLarge)
        else encode_frames (S index) (bytes ++ frame) records'
  end.

Definition encode_journal_records (records : list JournalRecord)
  : result JournalCodecError (list Z) :=
  if MAX_JOURNAL_FRAMES <? zlen records
  then Err (mkCodecError (Z.to_nat MAX_JOURNAL_FRAMES) TooManyFrames)
  else encode_frames 0 [] records.

(** ** Decoding *)

(** [Decoder]: the payload bytes and the offset reached in them. *)
Record Decoder : Type := mkDecoder { decoder_bytes : list Z; decoder_offset : nat }.
Definition Dec (A : Type) : Type := SE Decoder JournalCodecError A.

Section decoding.
Variable frame : nat.
Let fail {A} (kind : JournalCodecErrorKind) : Dec A := SE_throw (mkCodecError frame kind).

Definition decoder_take (count : nat) : Dec (list Z) := fun d =>
  if usize_max <? Z.of_nat (decoder_offset d + count) then fail IntegerOutOfRange d
  else if (decoder_offset d + count <=? length (decoder_bytes d))%nat
  then (Ok (take count (drop (decoder_offset d) (decoder_bytes d))),
        mkDecoder (decoder_bytes d) (decoder_offset d + count))
  else fail InvalidPayload d.

Definition decode_u8 : Dec Z := bytes ← decoder_take 1; mret (default 0 (head bytes)).
Definition decode_u32 : Dec Z := bytes ← decoder_take 4; mret (le_value bytes).
Definition decode_u64 : Dec Z := bytes ← decoder_take 8; mret (le_value bytes).
Definition decode_u128 : Dec Z := bytes ← decoder_take 16; mret (le_value bytes).
Definition decode_identity : Dec EntryIdentity :=
  v ← decode_u64; f ← decode_u128; mret (mkIdentity v f).

(** [as_chunks::<2>]: an odd last byte is dropped. *)
Fixpoint units_of_bytes (bytes : list Z) : list Z :=
  match bytes with
  | a :: b :: bytes' => le_value [a; b] :: units_of_bytes bytes'
  | _ => []
  end.

Definition decode_text : Dec LegacyText :=
  units ← decode_u32;
  if MAX_PATH_UNITS <? units then fail PathTooLong
  else
    byte_count ← SE_lift (ok_or (mkCodecError frame IntegerOutOfRange) (checked_mul units 2));
    bytes ← decoder_take (Z.to_nat byte_count);
    mret (units_of_bytes bytes).

Definition decode_direction (value : Z) : Dec JournalDirection :=
  if value =? 0 then mret Forward else if value =? 1 then mret Rollback
  else fail UnknownFieldValue.
Definition decode_kind (value : Z) : Dec EntryKind :=
  if value =? 0 then mret File else if value =? 1 then mret Directory
  else fail UnknownFieldValue.
Definition decode_scope (value : Z) : Dec MoveScope :=
  if value =? 0 then mret SameParent else if value =? 1 then mret SameVolumeFilesOnly
  else fail UnknownFieldValue.
Definition decode_phase (value : Z) : Dec TemporaryPhase :=
  if value =? 0 then mret NoTemporary else if value =? 1 then mret IntoTemporary
  else if value =? 2 then mret FromTemporary else fail UnknownFieldValue.

Definition decode_step (version : Z) : Dec JournalStep :=
  entry ← decode_u32;
  source ← decode_text;
  destination ← decode_text;
  identity ← decode_identity;
  source_parent ← decode_identity;
  destination_parent ← decode_identity;
  if version =? LEGACY_VERSION then
    value ← decode_u8;
    phase ← decode_phase value;
    mret (legacy_same_parent entry source destination identity source_parent
            destination_parent phase)
  else
    value ← decode_u8;
    kind ← decode_kind value;
    value ← decode_u8;
    scope ← decode_scope value;
    value ← decode_u8;
    phase ← decode_phase value;
    mret (with_move_authorization kind scope
            (journal_step_new entry source destination identity source_parent
               destination_parent phase)).

Fixpoint decode_steps (version : Z) (count : nat) : Dec (list JournalStep) :=
  match count with
  | O => mret []
  | S count =>
      s ← decode_step version;
      steps ← decode_steps version count;
      mret (s :: steps)
  end.

Definition decode_transition (record : nat -> JournalDirection -> JournalRecord)
  : Dec JournalRecord :=
  step ← decode_u32;
  value ← decode_u8;
  direction ← decode_direction value;
  mret (record (Z.to_nat step) direction).

Definition decoder_finish : Dec unit := fun d =>
  if (decoder_offset d =? length (decoder_bytes d))%nat then (Ok tt, d)
  else fail InvalidPayload d.

Definition decode_record_body (kind version : Z) : Dec JournalRecord :=
  if kind =? 1 then
    plan ← decode_u64;
    count ← decode_u32;
    if MAX_JOURNAL_STEPS <? count then fail TooManySteps
    else
      steps ← decode_steps version (Z.to_nat count);
      mret (Intent plan steps)
  else if kind =? 2 then decode_transition Prepared
  else if kind =? 3 then decode_transition Completed
  else if kind =? 4 then decode_transition NotAppliedRecord
  else if kind =? 5 then
    value ← decode_u8;
    if value =? 0 then mret (Terminal Committed)
    else if value =? 1 then mret (Terminal RolledBackTerminal)
    else fail UnknownFieldValue
  else fail UnknownRecordKind.

Definition decode_record (kind : Z) (payload : list Z) (version : Z)
  : result JournalCodecError JournalRecord :=
  fst ((record ← decode_record_body kind version; decoder_finish;; mret record)
         (mkDecoder payload 0)).
End decoding.

(** ** Inspection *)

(** [bytes.get(from..to)]. *)
Definition get_range (bytes : list Z) (from to : nat) : option (list Z) :=
  if (to <=? length bytes)%nat then Some (take (to - from) (drop from bytes)) else None.
(** [slice[from..to]], within a header of 24 bytes. *)
Definition sub (bytes : list Z) (from to : nat) : list Z := take (to - from) (drop from bytes).

Definition is_corrupt (state : RecoveryState) : bool :=
  match state with RecoveryRequired _ _ _ (Corrupt _) => true | _ => false end.

Definition finish_inspection (records : list JournalRecord) (issue : option JournalTailIssue)
    (valid : nat) : result JournalCodecError JournalInspection :=
  if bool_decide (is_Some issue) && bool_decide (records = [])
  then Err (mkCodecError 0 TruncatedFrame)
  else if is_corrupt (replay_journal records)
  then Err (mkCodecError (length records - 1) InvalidTransitions)
  else Ok (mkInspection records issue valid).

(** The checks of a complete header, in the code's order; the payload length. *)
Definition check_header (header : list Z) (frame : nat) : result JournalCodecError Z :=
  let fail {A} kind : result JournalCodecError A := Err (mkCodecError frame kind) in
  if negb (bool_decide (sub header 0 4 = MAGIC)) then fail InvalidMagic
  else
    let version := le_value (sub header 4 6) in
    if negb ((version =? LEGACY_VERSION) || (version =? VERSION)) then fail UnsupportedVersion
    else
      let kind := default 0 (header !! 6%nat) in
      if negb ((1 <=? kind) && (kind <=? 5)) then fail UnknownRecordKind
      else if negb (default 0 (header !! 7%nat) =? FLAGS_NONE) then fail InvalidFlags
      else if negb (le_value (sub header 8 16) =? Z.of_nat frame) then fail SequenceMismatch
      else
        let payload_len := le_value (sub header 16 20) in
        if MAX_JOURNAL_FRAME_BYTES <? payload_len then fail FrameTooLarge else Ok payload_len.

(** The loop over frames; the byte count is enough fuel, since a frame has at
    least its header. *)
Fixpoint inspect_frames (fuel : nat) (bytes : list Z) (records : list JournalRecord)
    (offset : nat) : result JournalCodecError JournalInspection :=
  match fuel with
  | O => finish_inspection records None offset
  | S fuel =>
      if (offset <? length bytes)%nat then
        let frame := length records in
        if MAX_JOURNAL_FRAMES <=? Z.of_nat frame then Err (mkCodecError frame TooManyFrames)
        else if usize_max <? Z.of_nat (offset + HEADER_BYTES)
        then Err (mkCodecError frame IntegerOutOfRange)
        else
          let header_end := (offset + HEADER_BYTES)%nat in
          match get_range bytes offset header_end with
          | None => finish_inspection records (Some TruncatedHeader) offset
          | Some header =>
              payload_len ← check_header header frame;
              if usize_max <? Z.of_nat header_end + payload_len
              then Err (mkCodecError frame IntegerOutOfRange)
              else
                let frame_end := (header_end + Z.to_nat payload_len)%nat in
                match get_range bytes header_end frame_end with
                | None => finish_inspection records (Some TruncatedPayload) offset
                | Some payload =>
                    if negb (le_value (sub header 20 24) =? crc32_parts [sub header 4 20; payload])
                    then Err (mkCodecError frame ChecksumMismatch)
                    else
                      record ← decode_record frame (default 0 (header !! 6%nat)) payload
                                 (le_value (sub header 4 6));
                      inspect_frames fuel bytes (records ++ [record]) frame_end
                end
          end
      else finish_inspection records None offset
  end.

Definition inspect_journal_records (bytes : list Z) : result JournalCodecError JournalInspection :=
  if MAX_JOURNAL_FILE_BYTES <? zlen bytes then Err (mkCodecError 0 FileTooLarge)
  else inspect_frames (length bytes) bytes [] 0.

Definition decode_journal_records (bytes : list Z) : result JournalCodecError (list JournalRecord) :=
  inspection ← inspect_journal_records bytes;
  match inspection_issue inspection with
  | Some _ => Err (mkCodecError (length (inspected_records inspection)) TruncatedFrame)
  | None => Ok (inspected_records inspection)
  end.
