(* ===== verification/CodecCorrect.v ===== *)
(** * CodecCorrect: journals survive encoding, torn tails included

    Decoding inverts encoding for every record whose fields have the widths of
    the source; inspecting any prefix of an encoded journal recovers exactly
    the records whose frames are complete. *)

From S2P Require Import Prelude Collections LegacyText RenameModel Journal Codec.

(** ** Integers *)

Lemma length_le_bytes n v : length (le_bytes n v) = n.
Proof. revert v. induction n as [|n IH]; intros v; simpl; [done|]. by rewrite IH. Qed.

Lemma le_value_bytes n v : 0 <= v < 2 ^ (8 * Z.of_nat n) -> le_value (le_bytes n v) = v.
Proof.
  revert v. induction n as [|n IH]; intros v Hv; cbn [le_bytes le_value].
  - simpl in Hv. lia.
  - rewrite IH.
    + apply Z.bits_inj'. intros i Hi. rewrite Z.lor_spec, Z.land_spec.
      change 255 with (Z.ones 8). rewrite Z.testbit_ones_nonneg by lia.
      destruct (Z.lt_ge_cases i 8).
      * rewrite Z.shiftl_spec_low by lia. rewrite (proj2 (Z.ltb_lt i 8)) by lia.
        by rewrite orb_false_r, andb_true_r.
      * rewrite Z.shiftl_spec_high, Z.shiftr_spec by lia. rewrite (proj2 (Z.ltb_ge i 8)) by lia.
        rewrite andb_false_r. simpl. f_equal. lia.
    + rewrite Z.shiftr_div_pow2 by lia. split; [apply Z.div_pos; lia|].
      apply Z.div_lt_upper_bound; [lia|]. rewrite <-Z.pow_add_r by lia.
      replace (8 + 8 * Z.of_nat n) with (8 * Z.of_nat (S n)) by lia. lia.
Qed.

Definition is_byte (b : Z) : Prop := 0 <= b < 256.
Lemma le_bytes_range n v : Forall is_byte (le_bytes n v).
Proof.
  revert v. induction n as [|n IH]; intros v; simpl; constructor; [|apply IH].
  unfold is_byte. change 255 with (Z.ones 8). rewrite Z.land_ones by lia. apply Z.mod_pos_bound. lia.
Qed.

(** ** The checksum is a 32-bit word *)

Definition is_u32 (v : Z) : Prop := 0 <= v < 2 ^ 32.

Lemma u32_lxor a b : is_u32 a -> is_u32 b -> is_u32 (Z.lxor a b).
Proof.
  unfold is_u32. intros Ha Hb. assert (0 <= Z.lxor a b) as H0 by (apply Z.lxor_nonneg; lia).
  split; [done|]. destruct (Z.eq_dec (Z.lxor a b) 0) as [->|Hne]; [lia|].
  apply Z.log2_lt_pow2; [lia|].
  eapply Z.le_lt_trans; [apply Z.log2_lxor; lia|].
  apply Z.max_lub_lt.
  - destruct (Z.eq_dec a 0) as [->|]; [simpl; lia|]. apply Z.log2_lt_pow2; lia.
  - destruct (Z.eq_dec b 0) as [->|]; [simpl; lia|]. apply Z.log2_lt_pow2; lia.
Qed.
Lemma u32_land a b : is_u32 a -> 0 <= b -> is_u32 (Z.land a b).
Proof.
  unfold is_u32. intros Ha Hb. split; [apply Z.land_nonneg; lia|].
  destruct (Z.eq_dec (Z.land a b) 0) as [->|Hne]; [lia|].
  assert (0 <= Z.land a b) by (apply Z.land_nonneg; lia).
  apply Z.log2_lt_pow2; [lia|]. eapply Z.le_lt_trans; [apply Z.log2_land; lia|].
  destruct (Z.eq_dec a 0) as [->|]; [by rewrite Z.land_0_l in Hne|].
  eapply Z.le_lt_trans; [apply Z.le_min_l|]. apply Z.log2_lt_pow2; lia.
Qed.
Lemma crc_bit_u32 crc : is_u32 crc -> is_u32 (crc_bit crc).
Proof.
  intros Hc. unfold crc_bit. apply u32_lxor.
  - unfold is_u32 in *. rewrite Z.shiftr_div_pow2 by lia.
    split; [apply Z.div_pos; lia|]. apply Z.div_lt_upper_bound; lia.
  - apply u32_land; [unfold is_u32; lia|]. apply Z.mod_pos_bound. lia.
Qed.
Lemma crc_byte_u32 crc b : is_u32 crc -> is_byte b -> is_u32 (crc_byte crc b).
Proof.
  intros Hc Hb. unfold crc_byte. generalize 8%nat.
  assert (is_u32 (Z.lxor crc b)) as Hx.
  { apply u32_lxor; [done|]. unfold is_byte, is_u32 in *. lia. }
  intros k. induction k as [|k IH]; [done|]. simpl. by apply crc_bit_u32.
Qed.
Lemma crc_bytes_u32 part crc :
  Forall is_byte part -> is_u32 crc -> is_u32 (fold_left crc_byte part crc).
Proof. apply (fold_left_inv is_u32 is_byte), crc_byte_u32. Qed.
Lemma crc_parts_u32 parts crc :
  Forall (Forall is_byte) parts -> is_u32 crc ->
  is_u32 (fold_left (fun crc part => fold_left crc_byte part crc) parts crc).
Proof.
  apply (fold_left_inv is_u32 (Forall is_byte)). intros c p Hc Hp. by apply crc_bytes_u32.
Qed.
Lemma u32_complement v : is_u32 v -> is_u32 (u32_max - v).
Proof. unfold is_u32, u32_max. lia. Qed.
Lemma crc32_parts_u32 parts : Forall (Forall is_byte) parts -> is_u32 (crc32_parts parts).
Proof.
  intros Hp. apply u32_complement, crc_parts_u32; [exact Hp|]. unfold is_u32, u32_max. lia.
Qed.

(** ** Decoders that read what encoders append *)

(** From any offset of a representable payload, [m] consumes [bytes] and
    returns [a]. *)
Definition decodes {A} (m : Dec A) (bytes : list Z) (a : A) : Prop :=
  forall pre rest, zlen (pre ++ bytes ++ rest) <= usize_max ->
    m (mkDecoder (pre ++ bytes ++ rest) (length pre)) =
    (Ok a, mkDecoder (pre ++ bytes ++ rest) (length (pre ++ bytes))).

Lemma decodes_ret {A} (a : A) : decodes (mret a) [] a.
Proof. intros pre rest _. simpl. by rewrite app_nil_r. Qed.
Lemma decodes_bind {A B} (m : Dec A) (f : A -> Dec B) b1 b2 a c :
  decodes m b1 a -> decodes (f a) b2 c -> decodes (m ≫= f) (b1 ++ b2) c.
Proof.
  intros Hm Hf pre rest Hl. rewrite <-!app_assoc in *.
  rewrite (SE_bind_step _ _ _ _ _ (Hm pre (b2 ++ rest) Hl)).
  specialize (Hf (pre ++ b1) rest). rewrite <-!app_assoc in Hf. rewrite Hf by done.
  by rewrite app_assoc.
Qed.
Lemma decodes_last {A B} (m : Dec A) (f : A -> Dec B) bytes a c :
  decodes m bytes a -> decodes (f a) [] c -> decodes (m ≫= f) bytes c.
Proof. intros Hm Hf. rewrite <-(app_nil_r bytes). by eapply decodes_bind. Qed.
Lemma decodes_lift {A} (r : result JournalCodecError A) a : r = Ok a -> decodes (SE_lift r) [] a.
Proof. intros -> pre rest _. unfold SE_lift. by rewrite app_nil_r. Qed.

Section decoders.
Variable frame : nat.

Lemma decodes_take bytes n : n = length bytes -> decodes (decoder_take frame n) bytes bytes.
Proof.
  intros -> pre rest Hl. unfold decoder_take. simpl.
  unfold zlen in Hl. rewrite !length_app in Hl.
  rewrite (proj2 (Z.ltb_ge _ _)) by lia.
  rewrite (proj2 (Nat.leb_le _ _)) by (rewrite !length_app; lia).
  rewrite drop_app_length, take_app_length. by rewrite length_app.
Qed.
Lemma decodes_u8 b : decodes (decode_u8 frame) [b] b.
Proof. eapply decodes_last; [by apply decodes_take|apply decodes_ret]. Qed.
Lemma decodes_u32 v : is_u32 v -> decodes (decode_u32 frame) (le_bytes 4 v) v.
Proof.
  intros Hv. eapply decodes_last; [by apply decodes_take; rewrite length_le_bytes|].
  rewrite le_value_bytes by done. apply decodes_ret.
Qed.
Lemma decodes_u64 v : 0 <= v < 2 ^ 64 -> decodes (decode_u64 frame) (le_bytes 8 v) v.
Proof.
  intros Hv. eapply decodes_last; [by apply decodes_take; rewrite length_le_bytes|].
  rewrite le_value_bytes by done. apply decodes_ret.
Qed.
Lemma decodes_u128 v : 0 <= v < 2 ^ 128 -> decodes (decode_u128 frame) (le_bytes 16 v) v.
Proof.
  intros Hv. eapply decodes_last; [by apply decodes_take; rewrite length_le_bytes|].
  rewrite le_value_bytes by done. apply decodes_ret.
Qed.

Definition identity_ok (i : EntryIdentity) : Prop :=
  0 <= volume i < 2 ^ 64 /\ 0 <= file_id i < 2 ^ 128.
Lemma decodes_identity i :
  identity_ok i ->
  decodes (decode_identity frame) (le_bytes 8 (volume i) ++ le_bytes 16 (file_id i)) i.
Proof.
  intros [Hv Hf]. eapply decodes_bind; [by apply decodes_u64|].
  eapply decodes_last; [by apply decodes_u128|]. destruct i. apply decodes_ret.
Qed.

Definition text_ok (t : LegacyText) : Prop := Forall (fun u => 0 <= u < 2 ^ 16) t.
Lemma units_of_bytes_text t : text_ok t -> units_of_bytes (concat (map (le_bytes 2) t)) = t.
Proof.
  induction 1 as [|u t Hu Ht IH]; [done|].
  change (le_value (le_bytes 2 u) :: units_of_bytes (concat (map (le_bytes 2) t)) = u :: t).
  rewrite IH. f_equal. exact (le_value_bytes 2 u Hu).
Qed.
Lemma length_text_bytes t : length (concat (map (le_bytes 2) t)) = (2 * length t)%nat.
Proof.
  induction t as [|u t IH]; [done|]. cbn [map concat]. rewrite length_app, length_le_bytes, IH.
  simpl. lia.
Qed.

Lemma decodes_text t :
  text_ok t -> zlen t <= MAX_PATH_UNITS ->
  decodes (decode_text frame) (le_bytes 4 (zlen t) ++ concat (map (le_bytes 2) t)) t.
Proof.
  intros Ht Hl. pose proof (zlen_nonneg t). unfold MAX_PATH_UNITS in *.
  eapply decodes_bind; [apply decodes_u32; unfold is_u32; lia|].
  rewrite (proj2 (Z.ltb_ge _ _)) by (unfold MAX_PATH_UNITS; lia).
  rewrite <-(app_nil_l (concat _)).
  eapply decodes_bind.
  { apply decodes_lift. unfold checked_mul. rewrite (proj2 (Z.leb_le _ _)); [done|].
    unfold usize_max. lia. }
  eapply decodes_last; [apply decodes_take|].
  { rewrite length_text_bytes. unfold zlen. lia. }
  rewrite units_of_bytes_text by done. apply decodes_ret.
Qed.
End decoders.

(** ** Records *)

Definition step_ok (s : JournalStep) : Prop :=
  is_u32 (step_entry s) /\ text_ok (step_source s) /\ text_ok (step_destination s) /\
  identity_ok (step_expected_source s) /\ identity_ok (step_source_parent s) /\
  identity_ok (step_destination_parent s).
Definition record_ok (r : JournalRecord) : Prop :=
  match r with
  | Intent plan steps => 0 <= plan < 2 ^ 64 /\ Forall step_ok steps
  | _ => True
  end.

Definition text_bytes (t : LegacyText) : list Z :=
  le_bytes 4 (zlen t) ++ concat (map (le_bytes 2) t).
Definition identity_bytes (i : EntryIdentity) : list Z :=
  le_bytes 8 (volume i) ++ le_bytes 16 (file_id i).
Definition step_bytes (s : JournalStep) (kind : EntryKind) : list Z :=
  le_bytes 4 (step_entry s) ++ text_bytes (step_source s) ++ text_bytes (step_destination s)
  ++ identity_bytes (step_expected_source s) ++ identity_bytes (step_source_parent s)
  ++ identity_bytes (step_destination_parent s)
  ++ [encode_kind kind] ++ [encode_scope (step_scope s)]
  ++ [encode_phase (step_temporary_phase s)].

Lemma bytes_app a b : Forall is_byte a -> Forall is_byte b -> Forall is_byte (a ++ b).
Proof. intros. by apply Forall_app. Qed.
Lemma bytes_one b : is_byte b -> Forall is_byte [b].
Proof. intros. constructor; [done|constructor]. Qed.
Lemma bytes_text t : Forall is_byte (concat (map (le_bytes 2) t)).
Proof. induction t as [|u t IH]; [done|]. apply bytes_app; [apply le_bytes_range|done]. Qed.
Lemma byte_kind k : is_byte (encode_kind k).
Proof. by destruct k. Qed.
Lemma byte_scope s : is_byte (encode_scope s).
Proof. by destruct s. Qed.
Lemma byte_phase p : is_byte (encode_phase p).
Proof. by destruct p. Qed.
Lemma byte_direction d : is_byte (encode_direction d).
Proof. by destruct d. Qed.

Create HintDb codec discriminated.
#[export] Hint Resolve bytes_app bytes_one bytes_text le_bytes_range byte_kind byte_scope
  byte_phase byte_direction : codec.

Section records.
Variable frame : nat.

Lemma put_text_Ok payload t p :
  put_text frame payload t = Ok p -> p = payload ++ text_bytes t /\ zlen t <= MAX_PATH_UNITS.
Proof.
  unfold put_text. destruct (Z.ltb_spec MAX_PATH_UNITS (zlen t)); [done|]. intros Hr.
  apply result_bind_Ok in Hr as (units & _ & Hr). apply result_bind_Ok in Hr as (prospective & _ & Hr).
  destruct (_ <? _); [done|]. apply result_bind_Ok in Hr as (p1 & Hp & Hr).
  unfold put_u32_len in Hp. destruct (_ <=? _); [|done].
  injection Hp as <-. injection Hr as <-. split; [|done].
  unfold put_u32, text_bytes. by rewrite <-app_assoc.
Qed.

Definition step_fits (s : JournalStep) : Prop :=
  zlen (step_source s) <= MAX_PATH_UNITS /\ zlen (step_destination s) <= MAX_PATH_UNITS.

Lemma put_step_Ok payload s p :
  put_step frame payload s = Ok p ->
  exists kind, step_kind s = Some kind /\ step_fits s /\ p = payload ++ step_bytes s kind.
Proof.
  unfold put_step. intros Hr.
  apply result_bind_Ok in Hr as (p1 & [-> H1]%put_text_Ok & Hr).
  apply result_bind_Ok in Hr as (p2 & [-> H2]%put_text_Ok & Hr).
  apply result_bind_Ok in Hr as (kind & Hk%ok_or_Ok & Hr).
  destruct (_ <? _); [done|]. injection Hr as <-. exists kind. split_and!; try done.
  unfold put_u32, put_identity, step_bytes, identity_bytes. by rewrite <-!app_assoc.
Qed.

Lemma decode_kind_encode k : decodes (decode_kind frame (encode_kind k)) [] k.
Proof. destruct k; apply decodes_ret. Qed.
Lemma decode_scope_encode s : decodes (decode_scope frame (encode_scope s)) [] s.
Proof. destruct s; apply decodes_ret. Qed.
Lemma decode_phase_encode p : decodes (decode_phase frame (encode_phase p)) [] p.
Proof. destruct p; apply decodes_ret. Qed.
Lemma decode_direction_encode d : decodes (decode_direction frame (encode_direction d)) [] d.
Proof. destruct d; apply decodes_ret. Qed.

(** A byte read and interpreted. *)
Lemma decodes_field {A B} (interpret : Z -> Dec A) (f : A -> Dec B) b rest a c :
  decodes (interpret b) [] a -> decodes (f a) rest c ->
  decodes (decode_u8 frame ≫= fun value => interpret value ≫= f) ([b] ++ rest) c.
Proof.
  intros Hi Hf. eapply decodes_bind; [apply decodes_u8|].
  rewrite <-(app_nil_l rest). by eapply decodes_bind.
Qed.

Lemma decodes_step s kind :
  step_ok s -> step_kind s = Some kind -> step_fits s ->
  decodes (decode_step frame VERSION) (step_bytes s kind) s.
Proof.
  intros (He & Hts & Htd & Hi & Hsp & Hdp) Hk [Hfs Hfd].
  unfold decode_step, step_bytes.
  eapply decodes_bind; [by apply decodes_u32|].
  eapply decodes_bind; [by apply decodes_text|].
  eapply decodes_bind; [by apply decodes_text|].
  eapply decodes_bind; [by apply decodes_identity|].
  eapply decodes_bind; [by apply decodes_identity|].
  eapply decodes_bind; [by apply decodes_identity|].
  change (VERSION =? LEGACY_VERSION) with false. cbn iota.
  eapply decodes_field; [apply decode_kind_encode|].
  eapply decodes_field; [apply decode_scope_encode|].
  rewrite <-(app_nil_r [encode_phase _]).
  eapply decodes_field; [apply decode_phase_encode|].
  destruct s. simpl in *. subst. apply decodes_ret.
Qed.

Lemma put_steps_Ok payload steps p :
  Forall step_ok steps -> put_steps frame payload steps = Ok p ->
  exists bytes, p = payload ++ bytes /\ Forall is_byte bytes /\
    decodes (decode_steps frame VERSION (length steps)) bytes steps.
Proof.
  intros Hs. revert payload. induction Hs as [|s steps Hs Hss IH]; intros payload Hp;
    cbn [put_steps decode_steps length] in *.
  - injection Hp as <-. exists []. rewrite app_nil_r. split_and!; [done|done|apply decodes_ret].
  - apply result_bind_Ok in Hp as (p1 & (kind & Hk & Hf & ->)%put_step_Ok & Hp).
    destruct (IH _ Hp) as (bytes & -> & Hb & Hd). exists (step_bytes s kind ++ bytes).
    split_and!.
    + by rewrite <-app_assoc.
    + apply bytes_app; [|done]. unfold step_bytes, text_bytes, identity_bytes. auto 20 with codec.
    + eapply decodes_bind; [by apply decodes_step|].
      eapply decodes_last; [exact Hd|]. apply decodes_ret.
Qed.

Lemma put_transition_Ok kind k payload step d record :
  put_transition frame kind (Z.of_nat step) d = Ok (k, payload) ->
  k = kind /\ Forall is_byte payload /\
  decodes (decode_transition frame record) payload (record step d).
Proof.
  unfold put_transition, put_u32_len. destruct (Z.leb_spec (Z.of_nat step) u32_max); [|done].
  intros Heq.
  change (@Ok JournalCodecError _ (kind, le_bytes 4 (Z.of_nat step) ++ [encode_direction d]) =
    Ok (k, payload)) in Heq.
  assert (k = kind) as -> by congruence.
  assert (payload = le_bytes 4 (Z.of_nat step) ++ [encode_direction d]) as -> by congruence.
  clear Heq. split; [done|]. split; [auto with codec|]. unfold decode_transition.
  eapply decodes_bind; [apply decodes_u32; unfold is_u32, u32_max in *; lia|].
  rewrite <-(app_nil_r [encode_direction d]).
  eapply decodes_field; [apply decode_direction_encode|]. rewrite Nat2Z.id. apply decodes_ret.
Qed.

Lemma encode_kind r kind payload : encode_record frame r = Ok (kind, payload) -> 1 <= kind <= 5.
Proof.
  destruct r as [plan steps|s d|s d|s d|t]; cbn [encode_record].
  - intros (? & _ & (? & _ & (? & _ & [= <- _])%result_bind_Ok)%result_bind_Ok)%result_bind_Ok. lia.
  - intros (? & _ & [= <- _])%result_bind_Ok. lia.
  - intros (? & _ & [= <- _])%result_bind_Ok. lia.
  - intros (? & _ & [= <- _])%result_bind_Ok. lia.
  - intros [= <- _]. lia.
Qed.
Lemma encode_record_Ok r kind payload :
  record_ok r -> encode_record frame r = Ok (kind, payload) ->
  1 <= kind <= 5 /\ Forall is_byte payload /\
  decodes (decode_record_body frame kind VERSION) payload r.
Proof.
  intros Hr He. destruct r as [plan steps|s d|s d|s d|t]; cbn [encode_record] in He.
  - destruct Hr as [Hplan Hsteps].
    apply result_bind_Ok in He as (req & Hreq & He). apply result_bind_Ok in He as (p1 & Hp1 & He).
    apply result_bind_Ok in He as (p2 & Hp2 & He).
    apply Ok_inj, pair_equal_spec in He as [<- <-].
    unfold put_u32_len, put_u64, put_u32 in Hp1. destruct (Z.leb_spec (zlen steps) u32_max); [|done].
    apply Ok_inj in Hp1 as <-. apply (put_steps_Ok _ _ _ Hsteps) in Hp2 as (bytes & -> & Hb & Hd).
    assert (zlen steps <= MAX_JOURNAL_STEPS) as Hn.
    { unfold journal_requirements in Hreq. by destruct (Z.ltb_spec MAX_JOURNAL_STEPS (zlen steps)). }
    split; [lia|]. split; [rewrite app_nil_l; auto with codec|].
    unfold decode_record_body. change (1 =? 1) with true. cbn iota. rewrite app_nil_l.
    rewrite <-app_assoc. eapply decodes_bind; [by apply decodes_u64|].
    pose proof (zlen_nonneg steps).
    eapply decodes_bind; [apply decodes_u32; unfold is_u32, u32_max in *; lia|].
    rewrite (proj2 (Z.ltb_ge _ _)) by done.
    replace (Z.to_nat (zlen steps)) with (length steps) by (unfold zlen; lia).
    eapply decodes_last; [exact Hd|]. apply decodes_ret.
  - apply (put_transition_Ok _ _ _ _ _ Prepared) in He as (-> & ? & ?). by split_and!.
  - apply (put_transition_Ok _ _ _ _ _ Completed) in He as (-> & ? & ?). by split_and!.
  - apply (put_transition_Ok _ _ _ _ _ NotAppliedRecord) in He as (-> & ? & ?). by split_and!.
  - injection He as <- <-. split; [lia|]. split; [by destruct t; repeat constructor|].
    eapply (decodes_last _ _ [_]); [apply decodes_u8|]. destruct t; apply decodes_ret.
Qed.

Lemma decode_record_encoded r kind payload :
  record_ok r -> encode_record frame r = Ok (kind, payload) -> zlen payload <= usize_max ->
  decode_record frame kind payload VERSION = Ok r.
Proof.
  intros Hr He Hl. destruct (encode_record_Ok r kind payload Hr He) as (_ & _ & Hd).
  unfold decode_record. specialize (Hd [] []). rewrite app_nil_r in Hd. simpl app in Hd.
  rewrite (SE_bind_step _ _ _ _ _ (Hd Hl)). unfold mbind, SE_bind, decoder_finish. simpl.
  by rewrite Nat.eqb_refl.
Qed.
End records.

(** ** Frames *)

Definition checked_bytes (kind sequence : Z) (payload : list Z) : list Z :=
  le_bytes 2 VERSION ++ [kind; FLAGS_NONE] ++ le_bytes 8 sequence ++ le_bytes 4 (zlen payload).
Definition header_bytes (kind sequence : Z) (payload : list Z) : list Z :=
  MAGIC ++ checked_bytes kind sequence payload
  ++ le_bytes 4 (crc32_parts [checked_bytes kind sequence payload; payload]).

(** The frame of the record with this sequence number. *)
Definition frame_of (index : nat) (r : JournalRecord) (f : list Z) : Prop :=
  exists kind payload, encode_record index r = Ok (kind, payload) /\
    zlen payload <= MAX_JOURNAL_FRAME_BYTES /\
    f = header_bytes kind (Z.of_nat index) payload ++ payload.

Lemma encode_frame_Ok index r f :
  encode_frame index (Z.of_nat index) r = Ok f -> frame_of index r f.
Proof.
  unfold encode_frame. intros He. apply result_bind_Ok in He as ([kind payload] & Hr & He).
  destruct (Z.ltb_spec MAX_JOURNAL_FRAME_BYTES (zlen payload)); [done|]. destruct (_ <? _); [done|].
  apply Ok_inj in He as <-. exists kind, payload. split_and!; [done|done|].
  unfold header_bytes. fold (checked_bytes kind (Z.of_nat index) payload). by rewrite <-!app_assoc.
Qed.

Lemma length_header kind sequence payload : length (header_bytes kind sequence payload) = HEADER_BYTES.
Proof. reflexivity. Qed.
Lemma sub_header kind sequence payload :
  let h := header_bytes kind sequence payload in
  sub h 0 4 = MAGIC /\ sub h 4 6 = le_bytes 2 VERSION /\ h !! 6%nat = Some kind /\
  h !! 7%nat = Some FLAGS_NONE /\ sub h 8 16 = le_bytes 8 sequence /\
  sub h 16 20 = le_bytes 4 (zlen payload) /\ sub h 4 20 = checked_bytes kind sequence payload /\
  sub h 20 24 = le_bytes 4 (crc32_parts [checked_bytes kind sequence payload; payload]).
Proof. unfold header_bytes. generalize (crc32_parts [checked_bytes kind sequence payload; payload]). by intros crc. Qed.
Lemma header_bytes_unfold kind sequence payload :
  header_bytes kind sequence payload = MAGIC ++ checked_bytes kind sequence payload
    ++ le_bytes 4 (crc32_parts [checked_bytes kind sequence payload; payload]).
Proof. reflexivity. Qed.
#[global] Opaque header_bytes.

Lemma header_range kind sequence payload :
  is_byte kind -> Forall is_byte (checked_bytes kind sequence payload).
Proof.
  intros Hk. unfold checked_bytes. change ([kind; FLAGS_NONE]) with ([kind] ++ [FLAGS_NONE]).
  assert (is_byte FLAGS_NONE) by done. auto 20 with codec.
Qed.

Lemma check_header_Ok kind sequence payload frame :
  1 <= kind <= 5 -> sequence = Z.of_nat frame -> sequence < 2 ^ 64 ->
  zlen payload <= MAX_JOURNAL_FRAME_BYTES ->
  check_header (header_bytes kind sequence payload) frame = Ok (zlen payload).
Proof.
  intros Hk Hs Hseq Hl. pose proof (zlen_nonneg payload).
  destruct (sub_header kind sequence payload) as (H0 & H4 & H6 & H7 & H8 & H16 & _).
  unfold check_header. rewrite H0, H4, H6, H7, H8, H16, bool_decide_true by done.
  rewrite !le_value_bytes; [|unfold MAX_JOURNAL_FRAME_BYTES in *; simpl; lia|simpl; lia|done].
  simpl. rewrite (proj2 (Z.leb_le 1 kind)), (proj2 (Z.leb_le kind 5)) by lia.
  rewrite Hs, Z.eqb_refl. simpl. by rewrite (proj2 (Z.ltb_ge _ _)).
Qed.

Lemma get_range_app pre mid rest :
  get_range (pre ++ mid ++ rest) (length pre) (length pre + length mid) = Some mid.
Proof.
  unfold get_range. rewrite (proj2 (Nat.leb_le _ _)) by (rewrite !length_app; lia).
  rewrite drop_app_length. by replace (length pre + length mid - length pre)%nat with (length mid) by lia;
    rewrite take_app_length.
Qed.
Lemma get_range_short bytes from to : (length bytes < to)%nat -> get_range bytes from to = None.
Proof. intros H. unfold get_range. by rewrite (proj2 (Nat.leb_gt _ _)). Qed.

Section inspection.
(** The guards of one iteration before the header is read. *)
Definition frame_room (bytes : list Z) (records : list JournalRecord) : Prop :=
  zlen records < MAX_JOURNAL_FRAMES /\ zlen bytes <= MAX_JOURNAL_FILE_BYTES.

Lemma inspect_complete fuel pre f rest records r :
  record_ok r -> frame_of (length records) r f ->
  frame_room (pre ++ f ++ rest) records ->
  inspect_frames (S fuel) (pre ++ f ++ rest) records (length pre) =
  inspect_frames fuel (pre ++ f ++ rest) (records ++ [r]) (length (pre ++ f)).
Proof.
  intros Hr (kind & payload & He & Hl & ->) [Hroom Hsize].
  destruct (encode_record_Ok _ _ _ _ Hr He) as (Hk & Hb & _).
  set (h := header_bytes kind (Z.of_nat (length records)) payload).
  pose proof (length_header kind (Z.of_nat (length records)) payload) as Hh. fold h in Hh.
  pose proof (zlen_nonneg payload) as Hp0.
  cbn [inspect_frames]. rewrite <-!app_assoc in *. rewrite <-Hh.
  unfold zlen in Hroom, Hsize. rewrite !length_app in Hsize.
  unfold MAX_JOURNAL_FILE_BYTES, MAX_JOURNAL_FRAMES, MAX_JOURNAL_STEPS in *.
  assert (length h = 24)%nat as Hh' by by rewrite Hh.
  rewrite (proj2 (Nat.ltb_lt _ _)) by (rewrite !length_app; lia).
  rewrite (proj2 (Z.leb_gt _ _)) by (unfold MAX_JOURNAL_FRAMES, MAX_JOURNAL_STEPS; lia).
  rewrite (proj2 (Z.ltb_ge _ _)) by (unfold usize_max; lia).
  rewrite get_range_app.
  assert (check_header h (length records) = Ok (zlen payload)) as Hch.
  { apply check_header_Ok; [done|done|lia|done]. }
  rewrite Hch. cbn [mbind result_bind].
  unfold zlen. rewrite Nat2Z.id.
  rewrite (proj2 (Z.ltb_ge _ _)) by (unfold usize_max; lia).
  rewrite (app_assoc pre h), <-length_app, get_range_app.
  destruct (sub_header kind (Z.of_nat (length records)) payload) as (_ & H4 & H6 & _ & _ & _ & H20 & H24).
  fold h in H4, H6, H20, H24. rewrite H4, H6, H20, H24.
  rewrite (le_value_bytes 4).
  2: { apply (crc32_parts_u32 [_; _]). constructor; [|constructor; [done|constructor]].
       apply header_range. unfold is_byte. lia. }
  rewrite Z.eqb_refl. cbn [negb default id].
  change (le_value (le_bytes 2 VERSION)) with VERSION.
  rewrite (decode_record_encoded _ _ _ _ Hr He) by (unfold zlen, usize_max; lia).
  cbn [mbind result_bind]. rewrite !length_app. by rewrite Nat.add_assoc.
Qed.

Lemma inspect_torn fuel pre f m records r :
  frame_of (length records) r f -> (0 < m < length f)%nat ->
  frame_room (pre ++ take m f) records ->
  inspect_frames (S fuel) (pre ++ take m f) records (length pre) =
  finish_inspection records
    (Some (if (m <? HEADER_BYTES)%nat then TruncatedHeader else TruncatedPayload)) (length pre).
Proof.
  intros (kind & payload & He & Hl & ->) Hm [Hroom Hsize].
  pose proof (encode_kind _ _ _ _ He) as Hk.
  set (h := header_bytes kind (Z.of_nat (length records)) payload) in *.
  pose proof (length_header kind (Z.of_nat (length records)) payload) as Hh. fold h in Hh.
  pose proof (zlen_nonneg payload) as Hp0.
  rewrite length_app in Hm. unfold zlen in Hroom, Hsize.
  rewrite length_app, length_take, length_app in Hsize.
  unfold MAX_JOURNAL_FILE_BYTES, MAX_JOURNAL_FRAMES, MAX_JOURNAL_STEPS in *.
  assert (length h = 24)%nat as Hh' by by rewrite Hh.
  cbn [inspect_frames].
  rewrite (proj2 (Nat.ltb_lt _ _)) by (rewrite length_app, length_take, length_app; lia).
  rewrite (proj2 (Z.leb_gt _ _)) by (unfold MAX_JOURNAL_FRAMES, MAX_JOURNAL_STEPS; lia).
  rewrite (proj2 (Z.ltb_ge _ _)) by (unfold usize_max; lia).
  destruct (Nat.ltb_spec m HEADER_BYTES) as [Hlt|Hge].
  { rewrite get_range_short; [done|]. rewrite length_app, length_take, length_app. lia. }
  rewrite take_app_ge by lia. rewrite <-Hh, get_range_app.
  assert (check_header h (length records) = Ok (zlen payload)) as Hch.
  { apply check_header_Ok; [done|done|lia|done]. }
  rewrite Hch. cbn [mbind result_bind].
  unfold zlen. rewrite Nat2Z.id.
  rewrite (proj2 (Z.ltb_ge _ _)) by (unfold usize_max, MAX_JOURNAL_FRAME_BYTES, zlen in *; lia).
  rewrite get_range_short; [done|]. rewrite !length_app, length_take. lia.
Qed.
End inspection.

(** ** Journals *)

Fixpoint frames_rel (index : nat) (rs : list JournalRecord) (fs : list (list Z)) : Prop :=
  match rs, fs with
  | [], [] => True
  | r :: rs', f :: fs' => frame_of index r f /\ frames_rel (S index) rs' fs'
  | _, _ => False
  end.

Lemma frame_of_unique index r f f' : frame_of index r f -> frame_of index r f' -> f = f'.
Proof. intros (k & p & He & _ & ->) (k' & p' & He' & _ & ->). rewrite He in He'. by injection He' as <- <-. Qed.
Lemma frame_length index r f : frame_of index r f -> (HEADER_BYTES <= length f)%nat.
Proof. intros (k & p & _ & _ & ->). rewrite length_app, length_header. lia. Qed.

Lemma encode_frames_Ok index bytes rs out :
  zlen bytes <= MAX_JOURNAL_FILE_BYTES ->
  encode_frames index bytes rs = Ok out ->
  exists fs, frames_rel index rs fs /\ out = bytes ++ concat fs /\ zlen out <= MAX_JOURNAL_FILE_BYTES.
Proof.
  revert index bytes. induction rs as [|r rs IH]; intros index bytes Hb He; cbn [encode_frames] in He.
  - apply Ok_inj in He as <-. exists []. simpl. by rewrite app_nil_r.
  - destruct (_ <? _); [done|]. apply result_bind_Ok in He as (f & Hf%encode_frame_Ok & He).
    unfold saturating_add in He. destruct (Z.ltb_spec MAX_JOURNAL_FILE_BYTES (Z.min (zlen bytes + zlen f) usize_max)); [done|].
    apply IH in He as (fs & Hfs & -> & Hout).
    + exists (f :: fs). split_and!; [done|simpl; by rewrite <-app_assoc|done].
    + rewrite zlen_app. unfold MAX_JOURNAL_FILE_BYTES, usize_max in *. lia.
Qed.

(** An encoding of some records is the encoding of each prefix, continued. *)
Lemma frame_of_encode index r f :
  frame_of index r f -> encode_frame index (Z.of_nat index) r = Ok f.
Proof.
  intros (kind & payload & He & Hl & ->). unfold encode_frame. rewrite He. cbn [mbind result_bind].
  rewrite (proj2 (Z.ltb_ge _ _)) by done.
  rewrite (proj2 (Z.ltb_ge _ _)) by (unfold u32_max, MAX_JOURNAL_FRAME_BYTES in *; lia).
  by rewrite header_bytes_unfold, <-!app_assoc.
Qed.
Lemma encode_frames_rel index bytes rs fs :
  frames_rel index rs fs -> Z.of_nat (index + length rs) <= u64_max ->
  zlen (bytes ++ concat fs) <= MAX_JOURNAL_FILE_BYTES ->
  encode_frames index bytes rs = Ok (bytes ++ concat fs).
Proof.
  revert index bytes fs. induction rs as [|r rs IH]; intros index bytes [|f fs] Hrel Hi Hl; try done;
    cbn [encode_frames concat] in *.
  - by rewrite app_nil_r.
  - destruct Hrel as [Hf Hrel]. simpl length in Hi.
    rewrite (proj2 (Z.ltb_ge _ _)) by lia. rewrite (frame_of_encode _ _ _ Hf). cbn [mbind result_bind].
    rewrite !zlen_app in Hl. pose proof (zlen_nonneg (concat fs)).
    rewrite (proj2 (Z.ltb_ge _ _)).
    + rewrite (IH (S index) (bytes ++ f) fs); [by rewrite <-app_assoc|done|lia|].
      rewrite !zlen_app. lia.
    + unfold saturating_add, MAX_JOURNAL_FILE_BYTES, usize_max in *. lia.
Qed.

Lemma frames_rel_take index rs fs k :
  frames_rel index rs fs -> frames_rel index (take k rs) (take k fs).
Proof.
  revert index fs k. induction rs as [|r rs IH]; intros index [|f fs] [|k] Hrel; try done.
  destruct Hrel as [? ?]. split; [done|]. by apply IH.
Qed.
Lemma frames_rel_length index rs fs : frames_rel index rs fs -> length rs = length fs.
Proof.
  revert index fs. induction rs as [|r rs IH]; intros index [|f fs] Hrel; try done.
  simpl. f_equal. by eapply IH, Hrel.
Qed.

(** How many frames fit entirely in [m] bytes. *)
Fixpoint complete (m : nat) (fs : list (list Z)) : nat :=
  match fs with
  | [] => 0
  | f :: fs' => if (length f <=? m)%nat then S (complete (m - length f) fs') else 0
  end.

Lemma complete_fits m fs : (length (concat (take (complete m fs) fs)) <= m)%nat.
Proof.
  revert m. induction fs as [|f fs IH]; intros m; simpl; [lia|].
  destruct (Nat.leb_spec (length f) m); simpl; [|lia]. rewrite length_app.
  specialize (IH (m - length f)%nat). lia.
Qed.
Lemma complete_le m fs : (complete m fs <= length fs)%nat.
Proof.
  revert m. induction fs as [|f fs IH]; intros m; simpl; [done|].
  destruct (_ <=? _)%nat; [|lia]. specialize (IH (m - length f)%nat). lia.
Qed.
Lemma complete_max m fs k :
  (k <= length fs)%nat -> (length (concat (take k fs)) <= m)%nat -> (k <= complete m fs)%nat.
Proof.
  revert m k. induction fs as [|f fs IH]; intros m [|k] Hk Hm; simpl in *; try lia.
  rewrite length_app in Hm. rewrite (proj2 (Nat.leb_le _ _)) by lia.
  specialize (IH (m - length f)%nat k). lia.
Qed.

(** The issue inspection reports for a tail of [m] bytes of which [v] are
    complete frames. *)
Definition tail_issue (m v : nat) : option JournalTailIssue :=
  if (v =? m)%nat then None
  else Some (if (m - v <? HEADER_BYTES)%nat then TruncatedHeader else TruncatedPayload).

Lemma inspect_prefix fuel pre done rs fs m :
  frames_rel (length done) rs fs -> Forall record_ok rs ->
  zlen done + zlen rs <= MAX_JOURNAL_FRAMES ->
  zlen (pre ++ concat fs) <= MAX_JOURNAL_FILE_BYTES ->
  (m <= length (concat fs))%nat -> (m <= fuel)%nat ->
  inspect_frames fuel (pre ++ take m (concat fs)) done (length pre) =
  finish_inspection (done ++ take (complete m fs) rs)
    (tail_issue m (length (concat (take (complete m fs) fs))))
    (length pre + length (concat (take (complete m fs) fs))).
Proof.
  revert pre done rs fs m. induction fuel as [|fuel IH]; intros pre done rs fs m Hrel Hok Hn Hl Hm Hf.
  - assert (m = 0)%nat as -> by lia. cbn [inspect_frames].
    assert (complete 0 fs = 0%nat) as ->.
    { destruct fs as [|f fs]; [done|]. simpl. destruct rs as [|r rs]; [done|].
      destruct Hrel as [Hfr _]. apply frame_length in Hfr. unfold HEADER_BYTES in Hfr.
      by rewrite (proj2 (Nat.leb_gt _ _)) by lia. }
    simpl. by rewrite app_nil_r, Nat.add_0_r.
  - destruct m as [|m'].
    { assert (complete 0 fs = 0%nat) as ->.
      { destruct fs as [|f fs]; [done|]. simpl. destruct rs as [|r rs]; [done|].
        destruct Hrel as [Hfr _]. apply frame_length in Hfr. unfold HEADER_BYTES in Hfr.
        by rewrite (proj2 (Nat.leb_gt _ _)) by lia. }
      cbn [inspect_frames]. rewrite take_0, app_nil_r, Nat.ltb_irrefl. simpl.
      by rewrite app_nil_r, Nat.add_0_r. }
    set (m := S m') in *. destruct rs as [|r rs], fs as [|f fs]; try (by simpl in Hrel); [simpl in Hm; lia|].
    destruct Hrel as [Hfr Hrel]. apply Forall_cons in Hok as [Hr Hok].
    pose proof (frame_length _ _ _ Hfr) as Hflen. unfold HEADER_BYTES in Hflen.
    cbn [concat] in *. rewrite length_app in Hm. rewrite !zlen_app in Hl. rewrite zlen_cons in Hn.
    pose proof (zlen_nonneg (concat fs)). pose proof (zlen_nonneg rs).
    cbn [complete]. destruct (Nat.leb_spec (length f) m) as [Hle|Hgt].
    + rewrite take_app_ge by done.
      rewrite inspect_complete with (r := r); [|done|done|].
      2: { split; [lia|]. rewrite !zlen_app. unfold zlen in *. rewrite length_take. lia. }
      rewrite (app_assoc pre f).
      rewrite (IH (pre ++ f) (done ++ [r]) rs fs (m - length f)%nat).
      * cbn [take concat]. rewrite !length_app, <-app_assoc. cbn [app].
        f_equal; [|lia]. unfold tail_issue.
        replace (m - (length f + length (concat (take (complete (m - length f) fs) fs))))%nat with
          (m - length f - length (concat (take (complete (m - length f) fs) fs)))%nat by lia.
        destruct (Nat.eqb_spec (length (concat (take (complete (m - length f) fs) fs))) (m - length f)),
          (Nat.eqb_spec (length f + length (concat (take (complete (m - length f) fs) fs))) m); done || lia.
      * rewrite length_app. simpl. by rewrite Nat.add_1_r.
      * done.
      * rewrite zlen_app. unfold zlen in *. simpl. lia.
      * rewrite !zlen_app. lia.
      * lia.
      * lia.
    + rewrite take_app_le by lia. rewrite (inspect_torn fuel pre f m done r); [|done|lia|].
      * simpl. by rewrite app_nil_r, Nat.add_0_r.
      * split; [lia|]. rewrite zlen_app. unfold zlen in *. rewrite length_take. lia.
Qed.

(** ** Prefixes of accepted journals are accepted *)

Lemma corrupt_prefix records k :
  is_corrupt (replay_journal records) = false ->
  is_corrupt (replay_journal (take k records)) = false.
Proof.
  intros Hc. destruct records as [|r records]; [by rewrite take_nil|]. destruct k as [|k]; [done|].
  simpl take. destruct r as [plan steps|s d|s d|s d|t]; try done. simpl in Hc |- *.
  set (n := length steps) in *.
  destruct (replay_records n records replay_start) as [st|[c st]] eqn:Hrep; [|done].
  rewrite <-(take_drop k records), replay_records_app in Hrep.
  destruct (replay_records n (take k records) replay_start) as [st1|[c1 st1]] eqn:Hpre; [|done].
  simpl in Hrep. destruct (replay_terminal st1) as [t|] eqn:Ht.
  - destruct (drop k records) as [|r rest]; simpl in Hrep.
    + by injection Hrep as <-.
    + unfold replay_record in Hrep. by rewrite Ht in Hrep.
  - unfold classify. rewrite Ht. by destruct (forward_prepared st1), (rollback_prepared st1).
Qed.

(** ** The capacity of an intent *)

Definition step_size (s : JournalStep) : Z :=
  INTENT_STEP_FIXED_BYTES + 2 * zlen (step_source s) + 2 * zlen (step_destination s).
Fixpoint manifest_size (steps : list JournalStep) : Z :=
  match steps with [] => 0 | s :: steps' => step_size s + manifest_size steps' end.

Lemma step_size_pos s : 0 <= step_size s.
Proof.
  unfold step_size, INTENT_STEP_FIXED_BYTES. pose proof (zlen_nonneg (step_source s)).
  pose proof (zlen_nonneg (step_destination s)). lia.
Qed.
Lemma manifest_size_nonneg steps : 0 <= manifest_size steps.
Proof.
  induction steps as [|s steps IH]; [done|]. cbn [manifest_size]. pose proof (step_size_pos s). lia.
Qed.
Lemma zlen_step_bytes s kind : zlen (step_bytes s kind) = step_size s.
Proof.
  unfold step_bytes, text_bytes, identity_bytes, zlen. rewrite !length_app, !length_text_bytes.
  rewrite !length_le_bytes. simpl length. unfold step_size, INTENT_STEP_FIXED_BYTES, zlen. lia.
Qed.

(** The saturating sum is the sum, cut at the largest [usize]. *)
Lemma requirements_fold steps acc :
  0 <= acc ->
  fold_left (fun required s =>
    saturating_add
      (saturating_add (saturating_add required INTENT_STEP_FIXED_BYTES)
         (saturating_mul (zlen (step_source s)) 2))
      (saturating_mul (zlen (step_destination s)) 2)) steps (Z.min acc usize_max) =
  Z.min (acc + manifest_size steps) usize_max.
Proof.
  revert acc. induction steps as [|s steps IH]; intros acc Ha; cbn [fold_left manifest_size].
  - by rewrite Z.add_0_r.
  - pose proof (step_size_pos s).
    replace (saturating_add _ _) with (Z.min (acc + step_size s) usize_max).
    + rewrite IH by lia. f_equal. lia.
    + unfold saturating_add, saturating_mul, step_size.
      pose proof (zlen_nonneg (step_source s)). pose proof (zlen_nonneg (step_destination s)).
      unfold INTENT_STEP_FIXED_BYTES in *. assert (0 <= usize_max) by done. lia.
Qed.

Lemma journal_requirements_spec steps req :
  journal_requirements steps = Ok req <->
  zlen steps <= MAX_JOURNAL_STEPS /\ INTENT_FIXED_BYTES + manifest_size steps <= MAX_JOURNAL_FRAME_BYTES /\
  req = mkRequirements (zlen steps) (INTENT_FIXED_BYTES + manifest_size steps).
Proof.
  unfold journal_requirements. pose proof (manifest_size_nonneg steps).
  pose proof (requirements_fold steps INTENT_FIXED_BYTES ltac:(done)) as Hf.
  change (Z.min INTENT_FIXED_BYTES usize_max) with INTENT_FIXED_BYTES in Hf. rewrite Hf.
  assert (MAX_JOURNAL_FRAME_BYTES < usize_max) by done.
  assert (0 <= INTENT_FIXED_BYTES) by done.
  destruct (Z.ltb_spec MAX_JOURNAL_STEPS (zlen steps)); [split; [done|lia]|].
  destruct (Z.ltb_spec MAX_JOURNAL_FRAME_BYTES (Z.min (INTENT_FIXED_BYTES + manifest_size steps) usize_max)).
  - split; [done|lia].
  - split.
    + intros <-%Ok_inj. split_and!; [done|lia|f_equal; lia].
    + intros (_ & ? & ->). do 2 f_equal. lia.
Qed.

Section intents.
Variable frame : nat.

Lemma put_text_fits payload t :
  zlen t <= MAX_PATH_UNITS -> zlen payload + 4 + 2 * zlen t <= MAX_JOURNAL_FRAME_BYTES ->
  put_text frame payload t = Ok (payload ++ text_bytes t).
Proof.
  intros Ht Hp. pose proof (zlen_nonneg t). pose proof (zlen_nonneg payload).
  assert (MAX_JOURNAL_FRAME_BYTES <= usize_max) by done.
  assert (MAX_PATH_UNITS <= u32_max) by done.
  unfold put_text. rewrite (proj2 (Z.ltb_ge _ _)) by done.
  rewrite (checked_mul_ok (zlen t) 2) by lia. cbn [ok_or mbind result_bind].
  rewrite checked_add_ok by lia. cbn [mbind option_bind]. rewrite checked_add_ok by lia.
  cbn [ok_or mbind result_bind]. rewrite (proj2 (Z.ltb_ge _ _)) by lia.
  unfold put_u32_len, put_u32. rewrite (proj2 (Z.leb_le _ _)) by lia. cbn [mbind result_bind].
  unfold text_bytes. by rewrite <-app_assoc.
Qed.

Lemma put_step_fits payload s kind :
  step_fits s -> step_kind s = Some kind -> zlen payload + step_size s <= MAX_JOURNAL_FRAME_BYTES ->
  put_step frame payload s = Ok (payload ++ step_bytes s kind).
Proof.
  intros [Hs Hd] Hk Hl. pose proof (zlen_step_bytes s kind) as Hz. unfold put_step.
  unfold step_size, INTENT_STEP_FIXED_BYTES in Hl.
  pose proof (zlen_nonneg (step_source s)). pose proof (zlen_nonneg (step_destination s)).
  assert (forall v, zlen (le_bytes 4 v) = 4) as H4 by (intros v; unfold zlen; by rewrite length_le_bytes).
  assert (forall t, zlen (text_bytes t) = 4 + 2 * zlen t) as Htb.
  { intros t. unfold text_bytes, zlen. rewrite length_app, length_text_bytes, length_le_bytes. lia. }
  rewrite put_text_fits; [|done|unfold put_u32; rewrite zlen_app, H4; lia]. cbn [mbind result_bind].
  rewrite put_text_fits; [|done|unfold put_u32; rewrite !zlen_app, H4, Htb; lia]. cbn [mbind result_bind].
  rewrite Hk. cbn [ok_or mbind result_bind].
  match goal with |- context [Ok ?x] => assert (x = payload ++ step_bytes s kind) as Hx end.
  { unfold put_u32, put_identity, step_bytes, identity_bytes. by rewrite <-!app_assoc. }
  rewrite Hx. rewrite (proj2 (Z.ltb_ge _ _)); [done|]. rewrite zlen_app, Hz. unfold step_size, INTENT_STEP_FIXED_BYTES. lia.
Qed.

Lemma put_steps_fits payload steps :
  Forall (fun s => step_fits s /\ is_Some (step_kind s)) steps ->
  zlen payload + manifest_size steps <= MAX_JOURNAL_FRAME_BYTES ->
  exists p, put_steps frame payload steps = Ok p /\ zlen p = zlen payload + manifest_size steps.
Proof.
  intros Hs. revert payload. induction Hs as [|s steps [Hf [kind Hk]] Hs IH]; intros payload Hl;
    cbn [put_steps manifest_size] in *.
  - exists payload. split; [done|lia].
  - pose proof (manifest_size_nonneg steps).
    rewrite (put_step_fits payload s kind) by (done || lia). cbn [mbind result_bind].
    destruct (IH (payload ++ step_bytes s kind)) as (p & Hp & Hz).
    + rewrite zlen_app, zlen_step_bytes. lia.
    + exists p. split; [done|]. rewrite Hz, zlen_app, zlen_step_bytes. lia.
Qed.

Lemma put_steps_kinds payload steps p :
  put_steps frame payload steps = Ok p ->
  Forall (fun s => step_fits s /\ is_Some (step_kind s)) steps.
Proof.
  revert payload. induction steps as [|s steps IH]; intros payload Hp; [done|].
  cbn [put_steps] in Hp. apply result_bind_Ok in Hp as (p1 & (kind & Hk & Hf & _)%put_step_Ok & Hp).
  constructor; [split; [done|by eexists]|]. by eapply IH.
Qed.

Lemma encode_intent_iff plan steps :
  match journal_requirements steps with
  | Ok req =>
      Forall (fun s => step_fits s /\ is_Some (step_kind s)) steps ->
      exists payload, encode_record frame (Intent plan steps) = Ok (1, payload) /\
        zlen payload = intent_frame_bytes req
  | Err e =>
      encode_record frame (Intent plan steps) = Err (mkCodecError frame
        match capacity_kind e with PrimitiveSteps => TooManySteps | IntentFrameBytes => FrameTooLarge end)
  end.
Proof.
  cbn [encode_record].
  destruct (journal_requirements steps) as [req|e] eqn:Hreq; cbn [map_err mbind result_bind]; [|done].
  apply journal_requirements_spec in Hreq as (Hn & Hl & ->). intros Hs.
  assert (MAX_JOURNAL_STEPS <= u32_max) by done.
  unfold put_u32_len. rewrite (proj2 (Z.leb_le _ _)) by lia. cbn [mbind result_bind].
  assert (zlen (put_u32 (put_u64 [] plan) (zlen steps)) = INTENT_FIXED_BYTES) as Hz by reflexivity.
  destruct (put_steps_fits (put_u32 (put_u64 [] plan) (zlen steps)) steps Hs) as (p & Hp & Hpz);
    [by rewrite Hz|].
  exists p. rewrite Hp. split; [done|]. by rewrite Hpz, Hz.
Qed.
End intents.

(** ** Properties *)

Lemma encode_journal_frames records bytes :
  encode_journal_records records = Ok bytes ->
  exists fs, frames_rel 0 records fs /\ bytes = concat fs /\
    zlen records <= MAX_JOURNAL_FRAMES /\ zlen bytes <= MAX_JOURNAL_FILE_BYTES.
Proof.
  unfold encode_journal_records. destruct (Z.ltb_spec MAX_JOURNAL_FRAMES (zlen records)); [done|].
  intros (fs & Hrel & Hb & Hl)%encode_frames_Ok; [|done]. exists fs. by rewrite Hb in *.
Qed.
Lemma encode_journal_take records fs k :
  frames_rel 0 records fs -> zlen records <= MAX_JOURNAL_FRAMES ->
  zlen (concat fs) <= MAX_JOURNAL_FILE_BYTES -> 
  encode_journal_records (take k records) = Ok (concat (take k fs)).
Proof.
  intros Hrel Hn Hl. unfold encode_journal_records.
  assert (zlen (take k records) <= MAX_JOURNAL_FRAMES) as Hn'.
  { unfold zlen in *. rewrite length_take. lia. }
  rewrite (proj2 (Z.ltb_ge _ _)) by done.
  apply (encode_frames_rel 0 []).
  - by apply frames_rel_take.
  - unfold zlen in Hn'. assert (MAX_JOURNAL_FRAMES <= u64_max) by done. simpl. lia.
  - simpl app. rewrite <-(take_drop k fs), concat_app, zlen_app in Hl.
    pose proof (zlen_nonneg (concat (drop k fs))). lia.
Qed.

(** C24: crash tolerance of the journal's bytes.  Cut the encoding of an
    accepted journal anywhere: inspection recovers exactly the records whose
    frames are entirely before the cut, the length of their encoding, and
    whether anything was torn; only a cut inside the very first frame is an
    error, and it is the error for a truncated frame. *)
Theorem inspect_cut_journal records bytes m :
  Forall record_ok records -> is_corrupt (replay_journal records) = false ->
  encode_journal_records records = Ok bytes -> (m <= length bytes)%nat ->
  exists k v, (k <= length records)%nat /\
    encode_journal_records (take k records) = Ok (take v bytes) /\ (v <= m)%nat /\
    (forall k' b, (k' <= length records)%nat -> encode_journal_records (take k' records) = Ok b ->
       (length b <= m)%nat -> (k' <= k)%nat) /\
    if ((k =? 0) && (0 <? m))%nat
    then inspect_journal_records (take m bytes) = Err (mkCodecError 0 TruncatedFrame)
    else exists issue,
      inspect_journal_records (take m bytes) = Ok (mkInspection (take k records) issue v) /\
      (issue = None <-> v = m).
Proof.
  intros Hok Hc (fs & Hrel & -> & Hn & Hl)%encode_journal_frames Hm.
  pose proof (frames_rel_length _ _ _ Hrel) as Hlen.
  set (k := complete m fs). set (v := length (concat (take k fs))).
  assert (v <= m)%nat as Hv by apply complete_fits.
  assert (concat (take k fs) = take v (concat fs)) as Hvt.
  { unfold v. rewrite <-(take_drop k fs) at 3. by rewrite concat_app, take_app_length. }
  exists k, v. split_and!.
  - rewrite Hlen. apply complete_le.
  - rewrite <-Hvt. by apply encode_journal_take.
  - done.
  - intros k' b Hk' Hb Hbl. rewrite (encode_journal_take records fs k') in Hb by done.
    apply Ok_inj in Hb as <-. apply complete_max; [by rewrite <-Hlen|done].
  - assert (inspect_journal_records (take m (concat fs)) =
      finish_inspection (take k records) (tail_issue m v) v) as Hi.
    { unfold inspect_journal_records. rewrite (proj2 (Z.ltb_ge _ _)).
      - rewrite length_take, Nat.min_l by done.
        exact (inspect_prefix m [] [] records fs m Hrel Hok Hn Hl Hm (le_n m)).
      - unfold zlen in *. rewrite length_take. lia. }
    rewrite Hi. unfold finish_inspection. rewrite (corrupt_prefix records k Hc).
    assert (bool_decide (is_Some (tail_issue m v)) = negb (v =? m)%nat) as ->.
    { unfold tail_issue. by destruct (v =? m)%nat. }
    destruct (Nat.eqb_spec k 0) as [Hk|Hk]; simpl.
    + assert (v = 0)%nat as Hv0 by (unfold v; by rewrite Hk). rewrite Hk, Hv0. simpl.
      destruct m as [|m']; simpl; [|done]. eexists. split; [done|]. done.
    + assert (bool_decide (take k records = []) = false) as ->.
      { apply bool_decide_false. intros Hnil. apply (f_equal length) in Hnil.
        rewrite length_take in Hnil. simpl in Hnil.
        pose proof (complete_le m fs). fold k in H. lia. }
      rewrite andb_false_r. eexists. split; [done|]. unfold tail_issue.
      destruct (Nat.eqb_spec v m); done.
Qed.

(** C23: decoding inverts encoding: every journal of well-formed records that
    the replay does not reject and that encodes is decoded to itself. *)
Theorem decode_encode_journal records bytes :
  Forall record_ok records -> is_corrupt (replay_journal records) = false ->
  encode_journal_records records = Ok bytes -> decode_journal_records bytes = Ok records.
Proof.
  intros Hok Hc (fs & Hrel & -> & Hn & Hl)%encode_journal_frames.
  pose proof (frames_rel_length _ _ _ Hrel) as Hlen.
  assert (complete (length (concat fs)) fs = length fs) as Hcomp.
  { apply Nat.le_antisymm; [apply complete_le|]. apply complete_max; [done|]. by rewrite take_ge. }
  pose proof (inspect_prefix (length (concat fs)) [] [] records fs (length (concat fs)) Hrel Hok Hn Hl
    (le_n _) (le_n _)) as Hi.
  rewrite Hcomp, !take_ge in Hi by (try rewrite Hlen; done).
  unfold decode_journal_records, inspect_journal_records.
  rewrite (proj2 (Z.ltb_ge _ _)) by done. simpl app in Hi. simpl length in Hi. rewrite Hi.
  unfold tail_issue. rewrite Nat.eqb_refl. unfold finish_inspection. rewrite Hc. done.
Qed.

(** C25: the capacity preflight decides exactly what the encoder will accept:
    it answers with the number of steps and the exact number of bytes of the
    intent's payload, so that an intent of bounded, authorised paths that
    passes encodes within the frame limit, and one that is refused is refused
    by the encoder with the matching error. *)
Theorem journal_requirements_exact frame plan steps :
  Forall (fun s => step_fits s /\ is_Some (step_kind s)) steps ->
  match journal_requirements steps with
  | Ok req => primitive_steps req = zlen steps /\
      exists payload, encode_record frame (Intent plan steps) = Ok (1, payload) /\
        zlen payload = intent_frame_bytes req /\ zlen payload <= MAX_JOURNAL_FRAME_BYTES
  | Err e =>
      encode_record frame (Intent plan steps) = Err (mkCodecError frame
        match capacity_kind e with PrimitiveSteps => TooManySteps | IntentFrameBytes => FrameTooLarge end)
  end.
Proof.
  intros Hs. pose proof (encode_intent_iff frame plan steps) as H.
  destruct (journal_requirements steps) as [req|e] eqn:Hreq; [|done].
  apply journal_requirements_spec in Hreq as (_ & Hl & ->). split; [done|].
  destruct (H Hs) as (payload & He & Hz). exists payload. split_and!; [done|done|]. rewrite Hz. done.
Qed.

Definition example_step : JournalStep :=
  mkStep 0 (text "C:\a") (text "C:\b") (mkIdentity 1 10) (mkIdentity 1 7) (mkIdentity 1 7) (Some File)
    SameParent NoTemporary.
Definition example_records : list JournalRecord :=
  [Intent 5 [example_step]; Prepared 0 Forward; Completed 0 Forward; Terminal Committed].
Definition example_bytes : list Z :=
  match encode_journal_records example_records with Ok bytes => bytes | Err _ => [] end.

Lemma inspect_cut_journal_witness :
  length example_bytes = 222%nat /\
  exists k v, (k <= 4)%nat /\
    encode_journal_records (take k example_records) = Ok (take v example_bytes) /\ (v <= 170)%nat /\
    (forall k' b, (k' <= 4)%nat -> encode_journal_records (take k' example_records) = Ok b ->
       (length b <= 170)%nat -> (k' <= k)%nat) /\
    if ((k =? 0) && (0 <? 170))%nat
    then inspect_journal_records (take 170 example_bytes) = Err (mkCodecError 0 TruncatedFrame)
    else exists issue,
      inspect_journal_records (take 170 example_bytes) =
        Ok (mkInspection (take k example_records) issue v) /\
      (issue = None <-> v = 170%nat).
Proof.
  split; [vm_compute; reflexivity|].
  apply (inspect_cut_journal example_records example_bytes 170).
  - repeat constructor; vm_compute; intros; discriminate.
  - vm_compute. reflexivity.
  - vm_compute. reflexivity.
  - assert (length example_bytes = 222%nat) as -> by (vm_compute; reflexivity). lia.
Defined.

Lemma decode_encode_journal_witness :
  encode_journal_records example_records = Ok example_bytes /\
  decode_journal_records example_bytes = Ok example_records.
Proof.
  assert (encode_journal_records example_records = Ok example_bytes) as He by (vm_compute; reflexivity).
  split; [exact He|]. apply decode_encode_journal; [|vm_compute; reflexivity|exact He].
  repeat constructor; vm_compute; intros; discriminate.
Defined.

Lemma journal_requirements_exact_witness :
  journal_requirements [example_step] = Ok (mkRequirements 1 115) /\
  exists payload, encode_record 0 (Intent 5 [example_step]) = Ok (1, payload) /\
    zlen payload = 115 /\ zlen payload <= MAX_JOURNAL_FRAME_BYTES.
Proof.
  split; [vm_compute; reflexivity|].
  apply (journal_requirements_exact 0 5 [example_step]).
  constructor; [|constructor]. split; [split; vm_compute; discriminate|by eexists].
Defined.
