(* ===== verification/Executor.v ===== *)
(** * Executor: journalled execution of a confirmed plan

    [crates/darknamer-app/src/rename/executor.rs]: revalidation, write-ahead
    forward moves, and rollback.  Every trait call is an effect. *)

From S2P Require Import Prelude Collections LegacyText RenameModel Journal Effects.
From S2P Require Import Schedule Codec.

(** ** Errors, outcomes and reports *)

Inductive ExecuteErrorKind : Type :=
| Cancelled | InvalidSchedule | UnauthorizedMove | StaleSource | StaleParent
| DestinationChanged | TemporaryOccupied | TemporaryExhausted
| ExecuteBackend (error : BackendError)
| ExecuteJournal (error : JournalError)
| ExecuteJournalCapacity (error : JournalCapacityError).
Record ExecuteError : Type := mkExecuteError {
  error_entry : option EntryId;
  execute_error_kind : ExecuteErrorKind
}.

Inductive ExecutionFailure : Type :=
| FailureCancelled (step : nat)
| FailureBackend (step : nat) (error : BackendError)
| FailureJournal (step : nat) (error : JournalError).

Inductive RollbackFailure : Type :=
| RollbackBackend (step : nat) (error : BackendError)
| RollbackJournal (step : nat) (error : JournalError).

Inductive ExecutionOutcome : Type :=
| OutcomeCompleted
| OutcomeRolledBack (failure : ExecutionFailure)
| OutcomeRecoveryRequired (failure : ExecutionFailure) (rollback_failures : list RollbackFailure).

Inductive RenameState : Type := Applied | Restored | Indeterminate.
#[export] Instance RenameState_eq_dec : EqDecision RenameState.
Proof. solve_decision. Defined.

Record EntryExecution : Type := mkEntryExecution {
  execution_entry : EntryId;
  execution_state : RenameState
}.

Record IndexedEntryExecutions : Type := mkIndexed {
  values : list EntryExecution;
  by_id : BTreeMap EntryId nat
}.

Record ExecutionReport : Type := mkReport {
  report_plan : PlanId;
  report_outcome : ExecutionOutcome;
  report_entries : list EntryExecution
}.

(** ** Cancellation controls *)

Class ExecutionControl (K : Type) := {
  cancellation_requested : K -> bool * K;
  begin_transaction : K -> bool * K;
  report_progress : ExecutionProgress -> K -> K
}.
#[export] Hint Mode ExecutionControl ! : typeclass_instances.

#[export] Instance NoopExecutionControl : ExecutionControl unit := {
  cancellation_requested k := (false, k);
  begin_transaction k := (true, k);
  report_progress _ k := k
}.

Definition CANCEL_REQUESTED : Z := 1.
Definition JOURNAL_BEGIN_COMMITTED : Z := 2.

(** The atomic byte of [CancellationToken], and what the other thread does
    before each of our next accesses: [true] is a [request]. *)
Record CancellationToken : Type := mkToken { token_state : Z; token_requests : list bool }.
Definition cancellation_token_new (requests : list bool) : CancellationToken := mkToken 0 requests.

Definition request (k : CancellationToken) : CancellationToken :=
  mkToken (Z.lor (token_state k) CANCEL_REQUESTED) (token_requests k).
Definition is_requested (k : CancellationToken) : bool :=
  negb (Z.land (token_state k) CANCEL_REQUESTED =? 0).
(** [compare_exchange(0, JOURNAL_BEGIN_COMMITTED)]. *)
Definition commit_journal_begin (k : CancellationToken) : bool * CancellationToken :=
  if token_state k =? 0
  then (true, mkToken JOURNAL_BEGIN_COMMITTED (token_requests k))
  else (false, k).

Definition other_thread (k : CancellationToken) : CancellationToken :=
  match token_requests k with
  | [] => k
  | requested :: rest =>
      let k := mkToken (token_state k) rest in if requested then request k else k
  end.

#[export] Instance CancellationToken_control : ExecutionControl CancellationToken := {
  cancellation_requested k := let k := other_thread k in (is_requested k, k);
  begin_transaction k := commit_journal_begin (other_thread k);
  report_progress _ k := k
}.

(** ** Indexed results *)

Fixpoint index_entries (entries : list PlanRow) (acc : IndexedEntryExecutions)
  : result ExecuteError IndexedEntryExecutions :=
  match entries with
  | [] => Ok acc
  | e :: entries' =>
      match bm_get (row_id e) (by_id acc) with
      | Some _ => Err (mkExecuteError (Some (row_id e)) InvalidSchedule)
      | None =>
          index_entries entries'
            (mkIndexed (values acc ++ [mkEntryExecution (row_id e) Restored])
               (bm_insert (row_id e) (length (values acc)) (by_id acc)))
      end
  end.
Definition from_plan (entries : list PlanRow) : result ExecuteError IndexedEntryExecutions :=
  index_entries entries (mkIndexed [] []).

Fixpoint validate_schedule (indexed : IndexedEntryExecutions) (steps : list ScheduleStep)
  : result ExecuteError unit :=
  match steps with
  | [] => Ok tt
  | s :: steps' =>
      match bm_get (entry s) (by_id indexed) with
      | None => Err (mkExecuteError (Some (entry s)) InvalidSchedule)
      | Some _ => validate_schedule indexed steps'
      end
  end.

Definition plan_row (indexed : IndexedEntryExecutions) (entries : list PlanRow) (id : EntryId)
  : option PlanRow :=
  index ← bm_get id (by_id indexed); entries !! (index : nat).

Definition set_state (id : EntryId) (state : RenameState) (indexed : IndexedEntryExecutions)
  : IndexedEntryExecutions :=
  match bm_get id (by_id indexed) with
  | None => indexed
  | Some index =>
      mkIndexed (alter (fun r => mkEntryExecution (execution_entry r) state) index (values indexed))
        (by_id indexed)
  end.

(** ** Steps as operations and manifest entries *)

Definition forward_operation (s : ScheduleStep) : RenameOperation :=
  with_authorization (source s) (destination s) (identity s) (source_parent s)
    (destination_parent s) (kind s) (scope s).
(** The operation [rollback] builds from a completed step. *)
Definition rollback_operation (s : ScheduleStep) : RenameOperation :=
  with_authorization (destination s) (source s) (identity s) (destination_parent s)
    (source_parent s) (kind s) (scope s).
Definition journal_step (s : ScheduleStep) : JournalStep :=
  with_move_authorization (kind s) (scope s)
    (journal_step_new (entry s) (source s) (destination s) (identity s) (source_parent s)
       (destination_parent s) (temporary_phase s)).
Definition forward_state (phase : TemporaryPhase) : RenameState :=
  match phase with NoTemporary | FromTemporary => Applied | IntoTemporary => Indeterminate end.
Definition rollback_state (phase : TemporaryPhase) : RenameState :=
  match phase with NoTemporary | IntoTemporary => Restored | FromTemporary => Indeterminate end.
Definition cancelled_before_begin : ExecuteError := mkExecuteError None Cancelled.
Definition schedule_error (error : ScheduleError) : ExecuteError :=
  match error with
  | ScheduleCancelled => cancelled_before_begin
  | ScheduleInvalid => mkExecuteError None InvalidSchedule
  | ScheduleBackend error => mkExecuteError None (ExecuteBackend error)
  | ScheduleStaleParent e => mkExecuteError (Some e) StaleParent
  | TemporaryNamesExhausted e => mkExecuteError (Some e) TemporaryExhausted
  end.

Definition refuse_if_cancelled : Prog effect ExecuteError unit :=
  cancelled ← lift_prog (call CancellationRequested);
  if cancelled : bool then throw cancelled_before_begin else mret tt.

(** The manifest loop: one poll per step. *)
Fixpoint build_manifest (steps : list ScheduleStep) : Prog effect ExecuteError (list JournalStep) :=
  match steps with
  | [] => mret []
  | s :: steps' =>
      refuse_if_cancelled;;
      manifest ← build_manifest steps';
      mret (journal_step s :: manifest)
  end.

Definition check_capacity (manifest : list JournalStep)
  : Prog effect ExecuteError JournalRequirements :=
  lift_result (map_err (fun error => mkExecuteError None (ExecuteJournalCapacity error))
    (journal_requirements manifest)).

Definition preflight_plan_cancellable (plan : RenamePlan)
  : Prog effect ExecuteError JournalRequirements :=
  steps ← map_prog_err schedule_error (build_schedule_cancellable plan);
  manifest ← build_manifest steps;
  refuse_if_cancelled;;
  requirements ← check_capacity manifest;
  refuse_if_cancelled;;
  mret requirements.

(** ** Revalidation *)

Definition freeze_entry (e : PlanRow) : Prog effect ExecuteError unit :=
  let refuse {A} kind : Prog effect ExecuteError A := throw (mkExecuteError (Some (row_id e)) kind) in
  let backend error := mkExecuteError (Some (row_id e)) (ExecuteBackend error) in
  refuse_if_cancelled;;
  current ← try_call backend (ResolveSource (row_source e));
  refuse_if_cancelled;;
  let snapshot := resolved_snapshot current in
  if negb (bool_decide (snapshot_parent snapshot = snapshot_parent (source_snapshot e)))
  then refuse StaleParent
  else if negb (bool_decide (snapshot_entry snapshot = snapshot_entry (source_snapshot e)))
          || negb (bool_decide (resolved_path current = row_source e))
          || negb (bool_decide (resolved_entry_key current = Some (source_entry_key e)))
  then refuse StaleSource
  else if negb (bool_decide (observed_kind <$> snapshot_entry snapshot = Some (row_kind e)))
  then refuse UnauthorizedMove
  else
    current_destination ← try_call backend (Observe (row_destination e));
    refuse_if_cancelled;;
    if negb (bool_decide (snapshot_parent current_destination =
                          snapshot_parent (destination_snapshot e)))
    then refuse StaleParent
    else if negb (bool_decide (snapshot_entry current_destination =
                               snapshot_entry (destination_snapshot e)))
    then refuse DestinationChanged
    else mret tt.

Definition freeze_temporary (entries : list PlanRow) (indexed : IndexedEntryExecutions)
    (s : ScheduleStep) : Prog effect ExecuteError unit :=
  let refuse {A} kind : Prog effect ExecuteError A := throw (mkExecuteError (Some (entry s)) kind) in
  refuse_if_cancelled;;
  temporary ← try_call (fun error => mkExecuteError (Some (entry s)) (ExecuteBackend error))
                (Observe (destination s));
  refuse_if_cancelled;;
  match plan_row indexed entries (entry s) with
  | None => refuse InvalidSchedule
  | Some planned =>
      if negb (bool_decide (snapshot_parent temporary = snapshot_parent (source_snapshot planned)))
      then refuse StaleParent
      else if bool_decide (is_Some (snapshot_entry temporary)) then refuse TemporaryOccupied
      else mret tt
  end.

Fixpoint for_each {E A} (f : A -> Prog effect E unit) (l : list A) : Prog effect E unit :=
  match l with
  | [] => mret tt
  | x :: l' => f x;; for_each f l'
  end.

Definition authorize_step (s : ScheduleStep) : Prog effect ExecuteError unit :=
  match authorization_error (forward_operation s) with
  | Some _ => throw (mkExecuteError (Some (entry s)) UnauthorizedMove)
  | None => mret tt
  end.

Definition freeze (entries : list PlanRow) (steps : list ScheduleStep)
    (indexed : IndexedEntryExecutions) : Prog effect ExecuteError unit :=
  for_each freeze_entry entries;;
  for_each (freeze_temporary entries indexed)
    (List.filter (fun s => bool_decide (temporary_phase s = IntoTemporary)) steps);;
  for_each authorize_step steps.

(** ** Rollback *)

Definition progress_at (phase : ExecutionPhase) (completed total : nat) : prog effect unit :=
  call (Progress (mkProgress phase completed total)).

(** The reverse loop: [reversed] are the completed steps, last first.  The
    result is the updated entries and the failures found. *)
Fixpoint rollback_loop (reversed : list (nat * ScheduleStep)) (restored total : nat)
    (entries : IndexedEntryExecutions)
  : prog effect (IndexedEntryExecutions * list RollbackFailure) :=
  match reversed with
  | [] => Ret (entries, [])
  | (step_index, s) :: reversed' =>
      prog_bind (call (JournalPrepared step_index Rollback)) (fun prepared =>
      match prepared with
      | Err error =>
          Ret (set_state (entry s) Indeterminate entries, [RollbackJournal step_index error])
      | Ok _ =>
          prog_bind (call (RenameNoReplace (rollback_operation s))) (fun renamed =>
          match renamed with
          | Err error =>
              prog_bind
                (if bool_decide (certainty error = NotApplied)
                 then prog_bind (call (JournalNotApplied step_index Rollback)) (fun r =>
                   Ret (match r with
                        | Ok _ => []
                        | Err journal_error => [RollbackJournal step_index journal_error]
                        end))
                 else Ret [])
                (fun failures =>
                   Ret (set_state (entry s) Indeterminate entries,
                        failures ++ [RollbackBackend step_index error]))
          | Ok _ =>
              let entries := set_state (entry s) (rollback_state (temporary_phase s)) entries in
              prog_bind (call (JournalCompleted step_index Rollback)) (fun completed =>
              match completed with
              | Err error =>
                  Ret (set_state (entry s) Indeterminate entries,
                       [RollbackJournal step_index error])
              | Ok _ =>
                  prog_bind (progress_at PhaseRollback (S restored) total) (fun _ =>
                  rollback_loop reversed' (S restored) total entries)
              end)
          end)
      end)
  end.

Definition rollback (plan : PlanId) (failure : ExecutionFailure)
    (completed : list (nat * ScheduleStep)) (entries : IndexedEntryExecutions)
  : prog effect ExecutionReport :=
  prog_bind (progress_at PhaseRollback 0 (length completed)) (fun _ =>
  prog_bind (rollback_loop (rev completed) 0 (length completed) entries) (fun '(entries, failures) =>
  match failures with
  | [] =>
      prog_bind (call (JournalTerminalRecord RolledBackTerminal)) (fun r =>
      match r with
      | Ok _ =>
          prog_bind (progress_at PhaseTerminal (length completed) (length completed)) (fun _ =>
          Ret (mkReport plan (OutcomeRolledBack failure) (values entries)))
      | Err error =>
          Ret (mkReport plan
                 (OutcomeRecoveryRequired failure [RollbackJournal (length completed) error])
                 (values entries))
      end)
  | _ :: _ => Ret (mkReport plan (OutcomeRecoveryRequired failure failures) (values entries))
  end)).

(** ** Forward execution *)

(** The end of the forward loop: the last poll and the commit. *)
Definition finalize (plan : PlanId) (total : nat) (completed : list (nat * ScheduleStep))
    (entries : IndexedEntryExecutions) : prog effect ExecutionReport :=
  prog_bind (progress_at PhaseFinalizing total total) (fun _ =>
  prog_bind (call CancellationRequested) (fun cancelled =>
  if cancelled : bool then rollback plan (FailureCancelled total) completed entries
  else
    prog_bind (call (JournalTerminalRecord Committed)) (fun r =>
    match r with
    | Err error =>
        Ret (mkReport plan (OutcomeRecoveryRequired (FailureJournal total error) [])
               (values entries))
    | Ok _ =>
        prog_bind (progress_at PhaseTerminal total total) (fun _ =>
        Ret (mkReport plan OutcomeCompleted (values entries)))
    end))).

Fixpoint forward_loop (plan : PlanId) (total step_index : nat) (steps : list ScheduleStep)
    (completed : list (nat * ScheduleStep)) (entries : IndexedEntryExecutions)
  : prog effect ExecutionReport :=
  match steps with
  | [] => finalize plan total completed entries
  | s :: steps' =>
      let recovery failure failures entries : prog effect ExecutionReport :=
        Ret (mkReport plan (OutcomeRecoveryRequired failure failures) (values entries)) in
      prog_bind (call CancellationRequested) (fun cancelled =>
      if cancelled : bool then rollback plan (FailureCancelled step_index) completed entries
      else
        prog_bind (call (JournalPrepared step_index Forward)) (fun prepared =>
        match prepared with
        | Err error =>
            if bool_decide (append_certainty error = MayHaveAppended)
            then recovery (FailureJournal step_index error) [] entries
            else rollback plan (FailureJournal step_index error) completed entries
        | Ok _ =>
            prog_bind (call (RenameNoReplace (forward_operation s))) (fun renamed =>
            match renamed with
            | Err error =>
                if bool_decide (certainty error = MayHaveApplied)
                then recovery (FailureBackend step_index error) []
                       (set_state (entry s) Indeterminate entries)
                else
                  prog_bind (call (JournalNotApplied step_index Forward)) (fun r =>
                  match r with
                  | Err journal_error =>
                      recovery (FailureBackend step_index error)
                        [RollbackJournal step_index journal_error] entries
                  | Ok _ => rollback plan (FailureBackend step_index error) completed entries
                  end)
            | Ok _ =>
                let entries := set_state (entry s) (forward_state (temporary_phase s)) entries in
                let completed := completed ++ [(step_index, s)] in
                prog_bind (call (JournalCompleted step_index Forward)) (fun r =>
                match r with
                | Err error =>
                    recovery (FailureJournal step_index error) []
                      (set_state (entry s) Indeterminate entries)
                | Ok _ =>
                    prog_bind (progress_at PhaseForward (length completed) total) (fun _ =>
                    forward_loop plan total (S step_index) steps' completed entries)
                end)
            end)
        end))
  end.

(** From [journal.begin] on: a refusal, or a report. *)
Definition begin_and_run (plan : PlanId) (steps : list ScheduleStep) (manifest : list JournalStep)
    (entries : IndexedEntryExecutions) : Prog effect ExecuteError ExecutionReport :=
  prog_bind (call (JournalBegin plan manifest)) (fun begun =>
  match begun with
  | Err error =>
      if bool_decide (append_certainty error = MayHaveAppended)
      then Ret (Ok (mkReport plan (OutcomeRecoveryRequired (FailureJournal 0 error) [])
                      (values entries)))
      else throw (mkExecuteError None (ExecuteJournal error))
  | Ok _ => lift_prog (forward_loop plan (length steps) 0 steps [] entries)
  end).

Definition execute_with_control (plan : RenamePlan) : Prog effect ExecuteError ExecutionReport :=
  refuse_if_cancelled;;
  entries ← lift_result (from_plan (plan_entries plan));
  steps ← map_prog_err schedule_error (build_schedule_cancellable plan);
  lift_result (validate_schedule entries steps);;
  manifest ← build_manifest steps;
  check_capacity manifest;;
  freeze (plan_entries plan) steps entries;;
  refuse_if_cancelled;;
  lift_prog (progress_at PhaseReady 0 (length steps));;
  match steps with
  | [] => mret (mkReport (plan_id plan) OutcomeCompleted (values entries))
  | _ :: _ =>
      began ← lift_prog (call BeginTransaction);
      if began : bool then begin_and_run (plan_id plan) steps manifest entries
      else throw cancelled_before_begin
  end.

(** ** The meaning of the effects over adapters *)

Record World (B J K : Type) : Type := mkWorld { backend : B; journal : J; control : K }.
Arguments mkWorld {B J K} _ _ _.
Arguments backend {B J K} _.
Arguments journal {B J K} _.
Arguments control {B J K} _.

Section handler.
Context {B J K : Type} `{RenameBackend B, JournalStore J, ExecutionControl K}.

Definition on_journal {X} (m : J -> X * J) (w : World B J K) : X * World B J K :=
  let '(x, j) := m (journal w) in (x, mkWorld (backend w) j (control w)).
Definition on_control {X} (m : K -> X * K) (w : World B J K) : X * World B J K :=
  let '(x, k) := m (control w) in (x, mkWorld (backend w) (journal w) k).
Definition on_backend {X} (m : B -> X * B) (w : World B J K) : X * World B J K :=
  let '(x, b) := m (backend w) in (x, mkWorld b (journal w) (control w)).

Definition handle X (e : effect X) : World B J K -> X * World B J K :=
  match e in effect X return World B J K -> X * World B J K with
  | CancellationRequested => on_control cancellation_requested
  | BeginTransaction => on_control begin_transaction
  | Progress p => on_control (fun k => (tt, report_progress p k))
  | ResolveSource path => fun w => (resolve_source (backend w) path, w)
  | PlannedEntryKey parent leaf => fun w => (planned_entry_key (backend w) parent leaf, w)
  | Observe path => fun w => (observe (backend w) path, w)
  | NextTransactionNonce => on_backend next_transaction_nonce
  | RenameNoReplace op => on_backend (rename_no_replace op)
  | JournalBegin plan steps => on_journal (journal_begin plan steps)
  | JournalPrepared step d => on_journal (journal_prepared step d)
  | JournalCompleted step d => on_journal (journal_completed step d)
  | JournalNotApplied step d => on_journal (journal_not_applied step d)
  | JournalTerminalRecord t => on_journal (journal_terminal t)
  end.
End handler.
