(* ===== verification/Reading.v ===== *)
(** * Reading: the programs that only read

    Planning and revalidation call the adapters without moving or journalling
    anything; the quiet programs are closed under composition, and the
    scheduler and the executor's checks are quiet. *)

From S2P Require Import Prelude Collections LegacyText RenameModel Journal Effects.
From S2P Require Import Schedule Codec Executor.

Definition quiet_effect {X} (e : effect X) : Prop :=
  match e with
  | RenameNoReplace _ | JournalBegin _ _ | JournalPrepared _ _ | JournalCompleted _ _
  | JournalNotApplied _ _ | JournalTerminalRecord _ => False
  | _ => True
  end.
Fixpoint quiet {A} (p : prog effect A) : Prop :=
  match p with
  | Ret _ => True
  | Vis X e k => quiet_effect e /\ forall x, quiet (k x)
  end.

Create HintDb quiet discriminated.

Lemma quiet_bind {A A'} (p : prog effect A) (f : A -> prog effect A') :
  quiet p -> (forall a, quiet (f a)) -> quiet (prog_bind p f).
Proof. intros Hp Hf. induction p as [a|X e k IH]; simpl; [done|]. destruct Hp. split; auto. Qed.
Lemma quiet_mbind {E A A'} (p : Prog effect E A) (f : A -> Prog effect E A') :
  quiet p -> (forall a, quiet (f a)) -> quiet (p ≫= f).
Proof. intros Hp Hf. apply quiet_bind; [done|]. by intros [a|e]. Qed.
Lemma quiet_call {X} (e : effect X) : quiet_effect e -> quiet (call e).
Proof. by split. Qed.
Lemma quiet_lift_prog {E A} (p : prog effect A) : quiet p -> quiet (lift_prog (Er := E) p).
Proof. intros Hp. by apply quiet_bind. Qed.
Lemma quiet_map_err {E F A} (f : E -> F) (p : Prog effect E A) : quiet p -> quiet (map_prog_err f p).
Proof. intros Hp. by apply quiet_bind. Qed.
Lemma quiet_try {E E' A} (f : E' -> E) (e : effect (result E' A)) :
  quiet_effect e -> quiet (try_call f e).
Proof. by split. Qed.
#[export] Hint Resolve quiet_call quiet_lift_prog quiet_map_err quiet_try : quiet.
#[export] Hint Extern 1 (quiet_effect _) => exact I : quiet.

(** Walks a program to its calls. *)
Ltac quiet_walk :=
  repeat first
    [ progress intros
    | match goal with
      | |- quiet (_ ≫= _) => apply quiet_mbind
      | |- quiet (prog_bind _ _) => apply quiet_bind
      end
    | solve [auto with quiet]
    | match goal with |- quiet (mret _) => exact I | |- quiet (throw _) => exact I
      | |- quiet (lift_result _) => exact I | |- quiet (Ret _) => exact I | |- quiet_effect _ => exact I end
    | assumption
    | match goal with H : forall _, _ |- _ => apply H end
    | match goal with |- _ /\ _ => split end
    | match goal with
      | |- quiet (match ?x with _ => _ end) => destruct x
      | |- quiet (let '(_, _) := ?x in _) => destruct x
      end ].

Lemma check_cancelled_quiet : quiet check_cancelled.
Proof. unfold check_cancelled. quiet_walk. Qed.
Lemma refuse_if_cancelled_quiet : quiet refuse_if_cancelled.
Proof. unfold refuse_if_cancelled. quiet_walk. Qed.
#[export] Hint Resolve check_cancelled_quiet refuse_if_cancelled_quiet : quiet.

Lemma poll_each_quiet {A} (l : list A) : quiet (poll_each l).
Proof. induction l; cbn [poll_each]; quiet_walk. Qed.
Lemma temporary_candidates_quiet remaining ordinal plan pivot nonce parent reserved :
  quiet (temporary_candidates remaining ordinal plan pivot nonce parent reserved).
Proof. revert ordinal. induction remaining; cbn [temporary_candidates]; quiet_walk. Qed.
#[export] Hint Resolve poll_each_quiet temporary_candidates_quiet : quiet.
Lemma unique_temporary_path_quiet plan pivot reserved :
  quiet (unique_temporary_path plan pivot reserved).
Proof. unfold unique_temporary_path. quiet_walk. Qed.
Lemma insert_owners_quiet keys index owners : quiet (insert_owners keys index owners).
Proof. revert index owners. induction keys; cbn [insert_owners]; quiet_walk. Qed.
Lemma link_dependencies_quiet owners keys index predecessors :
  quiet (link_dependencies owners keys index predecessors).
Proof. revert index predecessors. induction keys; cbn [link_dependencies]; quiet_walk. Qed.
Lemma initial_ready_quiet dependencies index remaining ready :
  quiet (initial_ready dependencies index remaining ready).
Proof. revert index remaining ready. induction dependencies; cbn [initial_ready]; quiet_walk. Qed.
#[export] Hint Resolve unique_temporary_path_quiet insert_owners_quiet link_dependencies_quiet
  initial_ready_quiet : quiet.

Lemma close_cycle_quiet plan predecessors fuel pivot freed st :
  quiet (close_cycle plan predecessors fuel pivot freed st).
Proof. revert freed st. induction fuel; cbn [close_cycle]; quiet_walk. Qed.
#[export] Hint Resolve close_cycle_quiet : quiet.
Lemma schedule_cycle_quiet plan predecessors pivot st :
  quiet (schedule_cycle plan predecessors pivot st).
Proof. unfold schedule_cycle. quiet_walk. Qed.
#[export] Hint Resolve schedule_cycle_quiet : quiet.
Lemma schedule_loop_quiet plan predecessors fuel st :
  quiet (schedule_loop plan predecessors fuel st).
Proof. revert st. induction fuel; cbn [schedule_loop]; intros st; destruct (remaining st); quiet_walk. Qed.
#[export] Hint Resolve schedule_loop_quiet : quiet.
Lemma build_schedule_quiet plan : quiet (build_schedule_cancellable plan).
Proof. unfold build_schedule_cancellable. quiet_walk. Qed.
Lemma build_manifest_quiet steps : quiet (build_manifest steps).
Proof. induction steps; cbn [build_manifest]; quiet_walk. Qed.
Lemma for_each_quiet {E A} (f : A -> Prog effect E unit) l :
  (forall a, quiet (f a)) -> quiet (for_each f l).
Proof. intros Hf. induction l; cbn [for_each]; quiet_walk. Qed.
Lemma freeze_entry_quiet e : quiet (freeze_entry e).
Proof. unfold freeze_entry. quiet_walk. Qed.
Lemma freeze_temporary_quiet entries indexed s : quiet (freeze_temporary entries indexed s).
Proof. unfold freeze_temporary. quiet_walk. Qed.
Lemma authorize_step_quiet s : quiet (authorize_step s).
Proof. unfold authorize_step. quiet_walk. Qed.
#[export] Hint Resolve build_schedule_quiet build_manifest_quiet for_each_quiet freeze_entry_quiet
  freeze_temporary_quiet authorize_step_quiet : quiet.
Lemma freeze_quiet entries steps indexed : quiet (freeze entries steps indexed).
Proof. unfold freeze. quiet_walk. Qed.
#[export] Hint Resolve freeze_quiet : quiet.
