(* ===== verification/MemoryBackend.v ===== *)
(** * MemoryBackend: the deterministic in-memory filesystem adapter

    [crates/darknamer-app/src/rename/memory.rs], an instance of the backend
    interface that meets its laws. *)

From stdpp Require Import gmap.
From S2P Require Import Prelude Collections LegacyText RenameModel Schedule.
#[local] Open Scope Z_scope.

Record MemoryEntry : Type := mkMemoryEntry {
  stored_identity : EntryIdentity;
  stored_kind : EntryKind;
  stored_reparse : bool
}.

Record MemoryBackend : Type := mkMemory {
  entries : gmap (list Z) MemoryEntry;
  parent_identities : gmap (list Z) EntryIdentity;
  failures : gmap Z (Z * MutationCertainty);
  move_attempts : Z;
  completed_moves : list (list Z * list Z);
  next_nonce : Z
}.

Definition memory_new : MemoryBackend := mkMemory ∅ ∅ ∅ 0 [] 1.

(** ** Keys and components *)

Definition ascii_lower (unit : Z) : Z := if (65 <=? unit) && (unit <=? 90) then unit + 32 else unit.
Definition memory_path_key (path : LegacyText) : PathKey := map ascii_lower path.

Definition path_components (path : LegacyText) : list (list Z) :=
  map (map ascii_lower)
    (List.filter (fun component => negb (bool_decide (component = []))) (split_units is_path_separator path)).

(** ** Building states *)

Definition insert_entry (path : LegacyText) (e : MemoryEntry) (b : MemoryBackend) : MemoryBackend :=
  mkMemory (<[memory_path_key path := e]> (entries b)) (parent_identities b) (failures b)
    (move_attempts b) (completed_moves b) (next_nonce b).
Definition with_file (path : LegacyText) (file_id : Z) (b : MemoryBackend) : MemoryBackend :=
  insert_entry path (mkMemoryEntry (mkIdentity 1 file_id) File false) b.
Definition with_file_identity (path : LegacyText) (identity : EntryIdentity) (b : MemoryBackend)
  : MemoryBackend := insert_entry path (mkMemoryEntry identity File false) b.
Definition with_directory (path : LegacyText) (file_id : Z) (b : MemoryBackend) : MemoryBackend :=
  insert_entry path (mkMemoryEntry (mkIdentity 1 file_id) Directory false) b.
Definition with_parent_identity (parent : LegacyText) (identity : EntryIdentity) (b : MemoryBackend)
  : MemoryBackend :=
  mkMemory (entries b) (<[memory_path_key parent := identity]> (parent_identities b)) (failures b)
    (move_attempts b) (completed_moves b) (next_nonce b).
Definition replace_file_id (path : LegacyText) (file_id : Z) (b : MemoryBackend) : MemoryBackend :=
  match entries b !! memory_path_key path with
  | None => b
  | Some e =>
      insert_entry path
        (mkMemoryEntry (mkIdentity (volume (stored_identity e)) file_id) (stored_kind e)
           (stored_reparse e)) b
  end.
Definition replace_parent_id (child : LegacyText) (file_id : Z) (b : MemoryBackend) : MemoryBackend :=
  with_parent_identity (parent_units child) (mkIdentity 1 file_id) b.
Definition replace_parent_identity (child : LegacyText) (identity : EntryIdentity)
    (b : MemoryBackend) : MemoryBackend := with_parent_identity (parent_units child) identity b.

Definition set_failure (attempt : Z) (failure : Z * MutationCertainty) (b : MemoryBackend)
  : MemoryBackend :=
  mkMemory (entries b) (parent_identities b) (<[attempt := failure]> (failures b))
    (move_attempts b) (completed_moves b) (next_nonce b).
Definition fail_move_on (attempt code : Z) (b : MemoryBackend) : MemoryBackend :=
  set_failure attempt (code, NotApplied) b.
Definition fail_ambiguous_move_on (attempt code : Z) (b : MemoryBackend) : MemoryBackend :=
  set_failure attempt (code, MayHaveApplied) b.
Definition set_next_transaction_nonce (nonce : Z) (b : MemoryBackend) : MemoryBackend :=
  mkMemory (entries b) (parent_identities b) (failures b) (move_attempts b) (completed_moves b)
    nonce.
Definition memory_file_id (path : LegacyText) (b : MemoryBackend) : option Z :=
  file_id ∘ stored_identity <$> entries b !! memory_path_key path.

(** ** The trait *)

(** 64-bit FNV-1a over the folded parent. *)
Definition FNV_OFFSET : Z := 14695981039346656037.
Definition FNV_PRIME : Z := 1099511628211.
Definition fnv_hash (units : list Z) : Z :=
  fold_left (fun hash unit => (Z.lxor hash (ascii_lower unit) * FNV_PRIME) mod 2 ^ 64) units
    FNV_OFFSET.
Definition parent_identity (b : MemoryBackend) (path : LegacyText) : EntryIdentity :=
  let parent := parent_units path in
  match parent_identities b !! memory_path_key parent with
  | Some identity => identity
  | None => mkIdentity 1 (fnv_hash parent)
  end.

Definition memory_observe (b : MemoryBackend) (path : LegacyText) : result BackendError PathSnapshot :=
  Ok (mkSnapshot (parent_identity b path)
        ((fun e => mkObserved (stored_identity e) (stored_kind e) (stored_reparse e)) <$>
         entries b !! memory_path_key path)).

Definition memory_planned_entry_key (parent : EntryIdentity) (leaf : LegacyText)
  : result BackendError PathKey :=
  match validate_windows_leaf_name leaf with
  | Err _ => Err (mkBackendError OpObserve 123 NotApplied)
  | Ok _ => Ok (entry_key_from_parts parent (map ascii_lower leaf))
  end.

Definition memory_resolve_source (b : MemoryBackend) (path : LegacyText)
  : result BackendError ResolvedSource :=
  snapshot ← memory_observe b path;
  match snapshot_entry snapshot with
  | None => Ok (mkResolved path snapshot None)
  | Some _ =>
      key ← memory_planned_entry_key (snapshot_parent snapshot) (path_leaf path);
      Ok (mkResolved path snapshot (Some key))
  end.

Definition memory_is_same_or_descendant (ancestor candidate : LegacyText)
  : result BackendError bool :=
  let ancestor := path_components ancestor in
  let candidate := path_components candidate in
  Ok ((length ancestor <=? length candidate)%nat
      && forallb (fun '(c, a) => bool_decide (c = a)) (zip candidate ancestor)).

Definition memory_next_transaction_nonce (b : MemoryBackend) : result BackendError Z * MemoryBackend :=
  let nonce := next_nonce b in
  if nonce + 1 <? 2 ^ 128 then (Ok nonce, set_next_transaction_nonce (nonce + 1) b)
  else (Err (mkBackendError OpTransactionNonce 534 NotApplied), b).

Definition rename_error (code : Z) : BackendError := mkBackendError OpRename code NotApplied.

(** The checks between the injected refusal and the mutation, in order. *)
Definition rename_checks (op : RenameOperation) (b : MemoryBackend)
  : result BackendError MemoryEntry :=
  if negb (bool_decide (parent_identity b (op_source op) = expected_source_parent op))
     || negb (bool_decide (parent_identity b (op_destination op) = expected_destination_parent op))
  then Err (rename_error 1168)
  else if bool_decide (is_Some (entries b !! memory_path_key (op_destination op)))
  then Err (rename_error 183)
  else
    match entries b !! memory_path_key (op_source op) with
    | None => Err (rename_error 2)
    | Some e =>
        if negb (bool_decide (stored_identity e = expected_source op)) then Err (rename_error 1168)
        else if match op_kind op with
                | Some kind => negb (bool_decide (stored_kind e = kind))
                | None => false
                end
        then Err (rename_error 1168)
        else if negb (volume (expected_source_parent op) =? volume (expected_destination_parent op))
        then Err (rename_error 17)
        else Ok e
    end.

Definition memory_rename_no_replace (op : RenameOperation) (b : MemoryBackend)
  : result BackendError unit * MemoryBackend :=
  match authorization_error op with
  | Some error => (Err error, b)
  | None =>
      let attempt := usize_add (move_attempts b) 1 in
      let b := mkMemory (entries b) (parent_identities b) (failures b) attempt (completed_moves b)
                 (next_nonce b) in
      let injected := failures b !! attempt in
      match injected with
      | Some (code, NotApplied) => (Err (rename_error code), b)
      | _ =>
          match rename_checks op b with
          | Err error => (Err error, b)
          | Ok e =>
              let b := mkMemory
                (<[memory_path_key (op_destination op) := e]>
                   (delete (memory_path_key (op_source op)) (entries b)))
                (parent_identities b) (failures b) attempt
                (completed_moves b ++
                   [(to_string_lossy (op_source op), to_string_lossy (op_destination op))])
                (next_nonce b) in
              match injected with
              | Some (code, MayHaveApplied) =>
                  (Err (mkBackendError OpRename code MayHaveApplied), b)
              | _ => (Ok tt, b)
              end
          end
      end
  end.

#[export] Instance MemoryBackend_backend : RenameBackend MemoryBackend := {
  validate_path_environment _ _ := Ok tt;
  path_key _ path := memory_path_key path;
  resolve_source := memory_resolve_source;
  planned_entry_key _ parent leaf := memory_planned_entry_key parent leaf;
  observe := memory_observe;
  is_same_or_descendant _ := memory_is_same_or_descendant;
  next_transaction_nonce := memory_next_transaction_nonce;
  rename_no_replace := memory_rename_no_replace
}.

(** ** Laws *)

Definition memory_occupant (b : MemoryBackend) (k : PathKey) : option EntryIdentity :=
  stored_identity <$> entries b !! k.

Lemma rename_checks_Ok op b e :
  rename_checks op b = Ok e ->
  entries b !! memory_path_key (op_destination op) = None /\
  entries b !! memory_path_key (op_source op) = Some e /\
  stored_identity e = expected_source op.
Proof.
  unfold rename_checks. destruct (_ || _); [done|]. case_bool_decide as Hd; [done|].
  destruct (entries b !! memory_path_key (op_source op)) as [e'|]; [|done].
  case_bool_decide as Hi; simpl; [|done]. destruct (match op_kind op with Some _ => _ | None => _ end); [done|].
  destruct (negb _); [done|]. intros [= <-]. split_and!; try done.
  by apply eq_None_not_Some.
Qed.
Lemma rename_checks_Err op b error : rename_checks op b = Err error -> certainty error = NotApplied.
Proof.
  unfold rename_checks. intros H.
  repeat match type of H with
    | context [if ?x then _ else _] => destruct x
    | context [match ?x with Some _ => _ | None => _ end] => destruct x
    end; simplify_eq; done.
Qed.

(** The four ways a rename ends. *)
Lemma memory_rename_cases op b r b' :
  memory_rename_no_replace op b = (r, b') ->
  (exists e, r = Err e /\ certainty e = NotApplied /\ entries b' = entries b) \/
  (exists e, entries b !! memory_path_key (op_destination op) = None /\
     entries b !! memory_path_key (op_source op) = Some e /\
     stored_identity e = expected_source op /\
     entries b' = <[memory_path_key (op_destination op) := e]>
                    (delete (memory_path_key (op_source op)) (entries b)) /\
     (r = Ok tt \/ exists code, r = Err (mkBackendError OpRename code MayHaveApplied))).
Proof.
  unfold memory_rename_no_replace. destruct (authorization_error op) as [error|] eqn:Ha.
  { intros [= <- <-]. left. exists error. split_and!; try done. revert Ha.
    unfold authorization_error. destruct (_ || _); [by intros [= <-]|].
    destruct (_ && _); [by intros [= <-]|done]. }
  set (attempt := usize_add (move_attempts b) 1). simpl.
  set (b1 := mkMemory _ _ _ _ _ _). intros H.
  assert (forall r b', match rename_checks op b1 with
      | Ok e => r = Ok e | Err error => r = Err error end -> entries b1 = entries b) as Hb1 by done.
  destruct (failures b !! attempt) as [[code [|]]|];
    [injection H as <- <-; left; by exists (rename_error code)| |];
    (destruct (rename_checks op b1) as [e|error] eqn:Hc;
     [|injection H as <- <-; left; exists error; split_and!; [done|by eapply rename_checks_Err|done]]);
    injection H as <- <-; apply rename_checks_Ok in Hc as (? & ? & ?); right; exists e;
    split_and!; eauto.
Qed.

Lemma memory_moved b b' source destination e :
  entries b !! destination = None -> entries b !! source = Some e ->
  entries b' = <[destination := e]> (delete source (entries b)) ->
  moved (memory_occupant b) (memory_occupant b') source destination (stored_identity e).
Proof.
  intros Hd Hs Hb'. assert (source <> destination) as Hne by congruence.
  unfold moved, memory_occupant. rewrite Hb', Hd, Hs. split_and!; try done.
  - by rewrite lookup_insert_eq.
  - by rewrite lookup_insert_ne, lookup_delete_eq by done.
  - intros k Hks Hkd. by rewrite lookup_insert_ne, lookup_delete_ne by done.
Qed.

#[export] Instance MemoryBackend_laws : RenameBackendLaws MemoryBackend.
Proof.
  refine {| occupant := memory_occupant |}.
  - done.
  - intros op b b' [(e & ? & _)|(e & Hd & Hs & Hi & Hb & _)]%memory_rename_cases; [done|].
    simpl. rewrite <-Hi. by apply memory_moved.
  - intros op b e b' H Hc k. unfold memory_occupant.
    apply memory_rename_cases in H as [(e' & _ & _ & ->)|(e' & _ & _ & _ & _ & [?|[code ?]])];
      [done|done|]. by simplify_eq.
  - intros op b e b' [(e' & _ & _ & He)|(e' & Hd & Hs & Hi & Hb & _)]%memory_rename_cases _.
    + left. intros k. unfold memory_occupant. by rewrite He.
    + right. simpl. rewrite <-Hi. by apply memory_moved.
  - intros b r b'. simpl. unfold memory_next_transaction_nonce.
    destruct (_ <? _); by intros [= <- <-].
Defined.

#[export] Instance MemoryBackend_observing : ObservingBackend MemoryBackend.
Proof.
  assert (forall (b : MemoryBackend) path snapshot, memory_observe b path = Ok snapshot ->
    memory_occupant b (memory_path_key path) = observed_identity <$> snapshot_entry snapshot) as Hobs.
  { intros b path snapshot [= <-]. simpl. unfold memory_occupant. by destruct (entries b !! _). }
  split; [exact Hobs|]. intros b path resolved H. simpl in H. unfold memory_resolve_source in H.
  apply result_bind_Ok in H as (snapshot & Hs & H).
  destruct (snapshot_entry snapshot) as [e|] eqn:He; [apply result_bind_Ok in H as (K & _ & H)|];
    injection H as <-; simpl; by apply Hobs.
Defined.
