(* ===== verification/ExecutorSafety.v ===== *)
(** * ExecutorSafety: the executor keeps filesystem and journal in step

    Over any lawful backend and journal, and at every point where the process
    can stop, the journal replays to a state that describes the filesystem:
    the moves applied are those of the first steps, one prepared step aside. *)

From S2P Require Import Prelude Collections LegacyText RenameModel Journal Effects.
From S2P Require Import Schedule Codec Executor.

(** ** Views of the filesystem *)

Definition view : Type := list Z -> option EntryIdentity.
Definition view_eq (v w : view) : Prop := forall k, v k = w k.

#[export] Instance view_eq_equivalence : Equivalence view_eq.
Proof.
  split; [done|intros v w H k; by rewrite H|intros u v w H1 H2 k; by rewrite H1, H2].
Qed.
#[export] Instance moved_proper : Proper (view_eq ==> view_eq ==> eq ==> eq ==> eq ==> iff) moved.
Proof.
  intros v v' Hv w w' Hw s ? <- d ? <- i ? <-. unfold moved, view_eq in *.
  split; intros (H1 & H2 & H3 & H4 & H5).
  - rewrite <-!Hv, <-!Hw. split_and!; try done. intros k ? ?. rewrite <-Hv, <-Hw. by apply H5.
  - rewrite !Hv, !Hw. split_and!; try done. intros k ? ?. rewrite Hv, Hw. by apply H5.
Qed.

Section moves.
(** Where a path lives: the backend's comparison key, which moves keep. *)
Variable key_of : LegacyText -> list Z.

Fixpoint moves (v : view) (steps : list ScheduleStep) (w : view) : Prop :=
  match steps with
  | [] => view_eq v w
  | s :: steps' =>
      exists u, moved v u (key_of (source s)) (key_of (destination s)) (identity s) /\
        moves u steps' w
  end.

Lemma moves_ext v steps w w' : moves v steps w -> view_eq w w' -> moves v steps w'.
Proof.
  revert v. induction steps as [|s steps IH]; intros v; simpl; [intros; by etransitivity|].
  intros (u & Hu & H) Hw. exists u. split; [done|]. by apply IH.
Qed.
Lemma moves_snoc v steps s u w :
  moves v steps u -> moved u w (key_of (source s)) (key_of (destination s)) (identity s) ->
  moves v (steps ++ [s]) w.
Proof.
  revert v. induction steps as [|t steps IH]; intros v; simpl.
  - intros Hu Hm. exists w. split; [by rewrite Hu|done].
  - intros (u1 & H1 & H) Hm. exists u1. split; [done|]. by apply IH.
Qed.
Lemma moves_snoc_inv v steps s w :
  moves v (steps ++ [s]) w ->
  exists u, moves v steps u /\ moved u w (key_of (source s)) (key_of (destination s)) (identity s).
Proof.
  revert v. induction steps as [|t steps IH]; intros v; simpl.
  - intros (u & Hm & Hu). exists v. split; [done|]. by rewrite <-Hu.
  - intros (u & Hm & H). apply IH in H as (u' & H & Hs). exists u'. split; [|done].
    by exists u.
Qed.
(** The reverse of the last move undoes it. *)
Lemma moves_undo v steps s w w' :
  moves v (steps ++ [s]) w ->
  moved w w' (key_of (destination s)) (key_of (source s)) (identity s) ->
  moves v steps w'.
Proof.
  intros (u & Hu & (H1 & H2 & H3 & H4 & H5))%moves_snoc_inv (G1 & G2 & G3 & G4 & G5).
  apply (moves_ext _ _ u); [done|]. intros k.
  destruct (decide (k = key_of (source s))) as [->|Hks]; [congruence|].
  destruct (decide (k = key_of (destination s))) as [->|Hkd]; [congruence|].
  rewrite G5 by done. symmetry. by apply H5.
Qed.
End moves.

(** ** The state between two calls *)

Section safety.
Context {B J K : Type} `{HB : RenameBackend B, HJ : JournalStore J, HK : ExecutionControl K}.
Context `{!RenameBackendLaws B, !JournalStoreLaws J}.
Variables (key_of : LegacyText -> list Z) (v0 : view).
Variables (plan : PlanId) (steps : list ScheduleStep).


Let n : nat := length steps.
Let manifest : list JournalStep := map journal_step steps.

Definition keys_fixed (w : World B J K) : Prop :=
  forall p, path_key (backend w) p = key_of p.
Definition fs_at (k : nat) (w : World B J K) : Prop :=
  keys_fixed w /\ moves key_of v0 (take k steps) (occupant (backend w)).

Definition replayed (w : World B J K) (st : Replay) : Prop :=
  exists recs, journal_records (journal w) = Intent plan manifest :: recs /\
    replay_records n recs replay_start = Ok st.

(** The journal has replayed to a state satisfying [P], with [k] steps applied. *)
Definition at_world (P : Replay -> Prop) (k : nat) (w : World B J K) : Prop :=
  exists st, replayed w st /\ P st /\ fs_at k w.

(** What a crash can leave: nothing begun, or a journal that accounts for
    the filesystem up to its one prepared step. *)
Definition accounted (st : Replay) (m j k : nat) : Prop :=
  match forward_prepared st with
  | Some _ => k = m \/ k = S m
  | None =>
      match rollback_prepared st with
      | Some p => k = j \/ k = p
      | None => k = j
      end
  end.
Definition crash_ok (w : World B J K) : Prop :=
  (journal_records (journal w) = [] /\ fs_at 0 w) \/
  exists st m j k, replayed w st /\ shaped n m j st /\ accounted st m j k /\ fs_at k w /\
    match replay_terminal st with Some t => terminal_valid n t st = true | None => True end.

Definition crashable (P : Replay -> Prop) (k : nat) : Prop :=
  forall st, P st -> exists m j, shaped n m j st /\ accounted st m j k /\
    match replay_terminal st with Some t => terminal_valid n t st = true | None => True end.

Lemma crashable_rest m j b : crashable (at_rest n m j b) j.
Proof.
  intros st [Hs Hfp Hrp Ht _]. exists m, j. unfold accounted. by rewrite Hfp, Hrp, Ht.
Qed.
Lemma crashable_forward m k : k = m \/ k = S m -> crashable (in_forward n m) k.
Proof.
  intros Hk st (Hs & Hfp & Ht). exists m, m. unfold accounted. by rewrite Hfp, Ht.
Qed.
Lemma crashable_rollback m p k : k = S p \/ k = p -> crashable (in_rollback n m p) k.
Proof.
  intros Hk st (Hs & Hrp & Ht). exists m, (S p). unfold accounted.
  destruct (shaped_rp _ _ _ _ Hs p Hrp) as (_ & _ & Hfp). by rewrite Hfp, Hrp, Ht.
Qed.
Lemma crashable_ended m j t :
  match t with Committed => m = n /\ j = n | RolledBackTerminal => j = 0%nat end ->
  crashable (ended n m j t) j.
Proof.
  intros Hv st He. exists m, j. pose proof (ended_valid _ _ _ _ _ He) as Hvalid.
  destruct He as (Hs & Hfp & Hrp & Ht). unfold accounted. rewrite Hfp, Hrp, Ht, Hvalid.
  split_and!; try done. destruct t; [destruct Hv as [-> ->]|subst j]; by rewrite ?Nat.eqb_refl.
Qed.
Lemma at_world_crash_ok P k w : crashable P k -> at_world P k w -> crash_ok w.
Proof.
  intros HP (st & Hr & HPst & Hfs). destruct (HP st HPst) as (m & j & ? & ? & ?).
  right. by exists st, m, j, k.
Qed.

(** How a replay result accounts for [k] applied steps: exactly, except for
    the one prepared step. *)
Definition recovery_accounts (k : nat) (r : RecoveryState) : Prop :=
  match r with
  | Clean => k = 0%nat \/ k = n
  | RecoveryRequired id forward rolled_back reason =>
      id = Some plan /\
      match reason with
      | Incomplete => (k + rolled_back)%nat = forward
      | PreparedOnly s Forward =>
          s = forward /\ rolled_back = 0%nat /\ (k = s \/ k = S s)
      | PreparedOnly s Rollback => (S s + rolled_back)%nat = forward /\ (k = s \/ k = S s)
      | Corrupt _ => False
      end
  end.

Lemma crash_ok_replay w :
  crash_ok w ->
  exists k, fs_at k w /\ recovery_accounts k (replay_journal (journal_records (journal w))).
Proof.
  intros [[He Hfs]|(st & m & j & k & (recs & Hrecs & Hrep) & Hs & Hacc & Hfs & Ht)].
  { rewrite He. exists 0%nat. split; [done|by left]. }
  exists k. split; [done|].
  rewrite Hrecs. simpl. unfold manifest. rewrite length_map. fold n. rewrite Hrep.
  unfold classify, accounted in *. pose proof (shaped_fp _ _ _ _ Hs) as Hfp.
  pose proof (shaped_rp _ _ _ _ Hs) as Hrp. pose proof (shaped_bounds _ _ _ _ Hs) as Hb.
  destruct (replay_terminal st) as [t|] eqn:Hterm.
  - destruct (forward_prepared st) eqn:Hf; [|destruct (rollback_prepared st) eqn:Hr].
    + exfalso. unfold terminal_valid in Ht. rewrite Hf in Ht.
      destruct t; rewrite ?andb_false_r in Ht; simpl in Ht; rewrite ?andb_false_r in Ht; done.
    + exfalso. unfold terminal_valid in Ht. rewrite Hr in Ht. by destruct t; rewrite ?andb_false_r in Ht.
    + rewrite Ht. simpl. subst k.
      rewrite (ended_valid n m j t st) in Ht by done. destruct t.
      * right. apply andb_true_iff in Ht as [?%Nat.eqb_eq ?%Nat.eqb_eq]. lia.
      * left. by apply Nat.eqb_eq.
  - destruct (forward_prepared st) as [s|] eqn:Hf; [|destruct (rollback_prepared st) as [s|] eqn:Hr];
      simpl; rewrite (shaped_forward _ _ _ _ Hs), (shaped_rollback _ _ _ _ Hs), !length_seq.
    + destruct (Hfp s eq_refl) as (-> & _ & Hst & _).
      destruct (shaped_unstarted _ _ _ _ Hs Hst) as [-> _]. split_and!; try done. lia.
    + destruct (Hrp s eq_refl) as (Hj & _). split_and!; try done; [lia|]. lia.
    + split; [done|lia].
Qed.

(** ** What each adapter call preserves *)

Lemma replayed_append w w' record st st' :
  replayed w st -> journal_records (journal w') = journal_records (journal w) ++ [record] ->
  replay_record n record st = Ok st' -> replayed w' st'.
Proof.
  intros (recs & Hrecs & Hrep) Happ Hstep. exists (recs ++ [record]). split.
  - by rewrite Happ, Hrecs.
  - rewrite replay_records_app, Hrep. simpl. by rewrite Hstep.
Qed.
Lemma replayed_same w w' st :
  replayed w st -> journal_records (journal w') = journal_records (journal w) -> replayed w' st.
Proof. intros (recs & Hrecs & Hrep) Hsame. exists recs. by rewrite Hsame. Qed.

Lemma fs_same k w w' : fs_at k w -> backend w' = backend w -> fs_at k w'.
Proof. intros [Hk Hm] Hb. unfold fs_at, keys_fixed. by rewrite Hb. Qed.

(** Controls touch neither the journal nor the filesystem. *)
Lemma handle_control X (e : effect X) (w : World B J K) x w' :
  match e with CancellationRequested | BeginTransaction | Progress _ => True | _ => False end ->
  handle X e w = (x, w') -> backend w' = backend w /\ journal w' = journal w.
Proof.
  intros He. destruct e; try done; unfold handle, on_control; simpl;
    [destruct (cancellation_requested (control w))|destruct (begin_transaction (control w))|];
    by intros [= <- <-].
Qed.

Lemma at_world_same P k w w' :
  at_world P k w -> backend w' = backend w -> journal w' = journal w -> at_world P k w'.
Proof.
  intros (st & Hr & HP & Hfs) Hb Hj. exists st.
  split_and!; try done; [by eapply replayed_same; [|rewrite Hj]|by eapply fs_same].
Qed.

(** A journal write: the record is there, or (on an error) maybe not. *)
Lemma handle_journal (m : J -> result JournalError unit * J) record (w : World B J K) r w' :
  on_journal m w = (r, w') ->
  (forall j r j', m j = (r, j') ->
     appends_record record (journal_records j) (journal_records j') r) ->
  backend w' = backend w /\
  appends_record record (journal_records (journal w)) (journal_records (journal w')) r.
Proof.
  unfold on_journal. destruct (m (journal w)) as [r1 j1] eqn:Hm. intros [= <- <-] Hl. simpl.
  split; [done|]. by apply Hl.
Qed.

Lemma take_S_lookup k s : steps !! k = Some s -> take (S k) steps = take k steps ++ [s].
Proof. apply take_S_r. Qed.

(** A forward move of step [k] from the state with [k] steps applied. *)
Lemma handle_forward k s (w : World B J K) r w' :
  steps !! k = Some s -> fs_at k w ->
  on_backend (rename_no_replace (forward_operation s)) w = (r, w') ->
  journal w' = journal w /\
  match r with
  | Ok _ => fs_at (S k) w'
  | Err e =>
      match certainty e with
      | NotApplied => fs_at k w'
      | MayHaveApplied => fs_at k w' \/ fs_at (S k) w'
      end
  end.
Proof.
  intros Hs [Hk Hm]. unfold on_backend.
  destruct (rename_no_replace _ (backend w)) as [r1 b1] eqn:Hr. intros [= <- <-]. simpl.
  split; [done|]. pose proof (rename_keeps_keys _ _ _ _ Hr) as Hkeys.
  assert (forall k', moves key_of v0 (take k' steps) (occupant b1) ->
    fs_at k' (mkWorld b1 (journal w) (control w))) as Hfs.
  { intros k' Hm'. split; [|done]. intros p. simpl. by rewrite Hkeys. }
  assert (moved (occupant (backend w)) (occupant b1) (path_key (backend w) (source s))
    (path_key (backend w) (destination s)) (identity s) -> fs_at (S k) (mkWorld b1 (journal w) (control w)))
    as Hmoved.
  { intros Hmv. apply Hfs. rewrite (take_S_lookup _ _ Hs). rewrite !Hk in Hmv.
    by eapply moves_snoc. }
  destruct r1 as [[]|e].
  - apply Hmoved. by apply rename_ok in Hr.
  - destruct (certainty e) eqn:Hc.
    + apply Hfs. eapply moves_ext; [exact Hm|]. intros q. symmetry.
      by apply (rename_not_applied _ _ _ _ Hr Hc).
    + destruct (rename_uncertain _ _ _ _ Hr Hc) as [Hsame|Hmv]; [left|right; by apply Hmoved].
      apply Hfs. eapply moves_ext; [exact Hm|]. intros q. by rewrite Hsame.
Qed.

(** The reverse move of step [k] from the state with [S k] steps applied. *)
Lemma handle_reverse k s (w : World B J K) r w' :
  steps !! k = Some s -> fs_at (S k) w ->
  on_backend (rename_no_replace (rollback_operation s)) w = (r, w') ->
  journal w' = journal w /\
  match r with
  | Ok _ => fs_at k w'
  | Err e => fs_at (S k) w' \/ (certainty e = MayHaveApplied /\ fs_at k w')
  end.
Proof.
  intros Hs [Hk Hm]. unfold on_backend.
  destruct (rename_no_replace _ (backend w)) as [r1 b1] eqn:Hr. intros [= <- <-]. simpl.
  split; [done|]. pose proof (rename_keeps_keys _ _ _ _ Hr) as Hkeys.
  assert (forall k', moves key_of v0 (take k' steps) (occupant b1) ->
    fs_at k' (mkWorld b1 (journal w) (control w))) as Hfs.
  { intros k' Hm'. split; [|done]. intros p. simpl. by rewrite Hkeys. }
  assert (moved (occupant (backend w)) (occupant b1) (path_key (backend w) (destination s))
    (path_key (backend w) (source s)) (identity s) -> fs_at k (mkWorld b1 (journal w) (control w)))
    as Hmoved.
  { intros Hmv. apply Hfs. rewrite (take_S_lookup _ _ Hs) in Hm. rewrite !Hk in Hmv.
    by eapply moves_undo. }
  destruct r1 as [[]|e].
  - apply Hmoved. by apply rename_ok in Hr.
  - destruct (certainty e) eqn:Hc.
    + left. apply Hfs. eapply moves_ext; [exact Hm|]. intros q. symmetry.
      by apply (rename_not_applied _ _ _ _ Hr Hc).
    + destruct (rename_uncertain _ _ _ _ Hr Hc) as [Hsame|Hmv];
        [left|right; split; [done|by apply Hmoved]].
      apply Hfs. eapply moves_ext; [exact Hm|]. intros q. by rewrite Hsame.
Qed.

(** ** Rules for the calls of a running transaction *)

Variant journal_call : effect (result JournalError unit) -> JournalRecord -> Prop :=
| call_prepared s d : journal_call (JournalPrepared s d) (Prepared s d)
| call_completed s d : journal_call (JournalCompleted s d) (Completed s d)
| call_not_applied s d : journal_call (JournalNotApplied s d) (NotAppliedRecord s d)
| call_terminal t : journal_call (JournalTerminalRecord t) (Terminal t).

Lemma handle_journal_call e record (w : World B J K) r w' :
  journal_call e record -> handle _ e w = (r, w') ->
  backend w' = backend w /\
  appends_record record (journal_records (journal w)) (journal_records (journal w')) r.
Proof.
  intros [s d|s d|s d|t] Hh; (eapply handle_journal; [exact Hh|]); intros j r1 j1;
    [apply prepared_appends|apply completed_appends|apply not_applied_appends|apply terminal_appends].
Qed.

Abbreviation tsafe := (safe (handle (B:=B) (J:=J) (K:=K)) crash_ok).

(** A record the replay accepts, once appended: the journal has moved on, or
    (on an error) it may have stayed. *)
Lemma append_at_world P P' record k (w w' : World B J K) r :
  accepts n P record P' -> crashable P k -> crashable P' k -> at_world P k w ->
  backend w' = backend w ->
  appends_record record (journal_records (journal w)) (journal_records (journal w')) r ->
  match r with
  | Ok _ => at_world P' k w'
  | Err er => crash_ok w' /\ (append_certainty er = NotAppended -> at_world P k w')
  end.
Proof.
  intros Hacc HcP HcP' (st & Hr & HP & Hfs) Hb Happ. destruct (Hacc st HP) as (st' & Hstep & HP').
  assert (fs_at k w') as Hfs' by by eapply fs_same.
  assert (journal_records (journal w') = journal_records (journal w) -> at_world P k w') as Hsame.
  { intros Hj. exists st. split_and!; try done. by eapply replayed_same. }
  assert (journal_records (journal w') = journal_records (journal w) ++ [record] ->
    at_world P' k w') as Hnew.
  { intros Hj. exists st'. split_and!; try done. by eapply replayed_append. }
  destruct r as [[]|er]; simpl in Happ; [by apply Hnew|]. destruct Happ as [Hj|[Hc Hj]].
  - split; [exact (at_world_crash_ok _ _ _ HcP (Hsame Hj))|by intros _; apply Hsame].
  - split; [exact (at_world_crash_ok _ _ _ HcP' (Hnew Hj))|by rewrite Hc].
Qed.

(** A record the replay accepts is written. *)
Lemma safe_write {A} e record P P' k (Q : A -> World B J K -> Prop) kont w :
  journal_call e record -> accepts n P record P' -> crashable P k -> crashable P' k ->
  at_world P k w ->
  (forall w', at_world P' k w' -> tsafe Q (kont (Ok tt)) w') ->
  (forall er w', crash_ok w' -> (append_certainty er = NotAppended -> at_world P k w') ->
     tsafe Q (kont (Err er)) w') ->
  tsafe Q (Vis _ e kont) w.
Proof.
  intros He Hacc HcP HcP' Hw Hok Herr. apply safe_vis; [exact (at_world_crash_ok _ _ _ HcP Hw)|].
  intros r w' [Hb Happ]%(handle_journal_call _ _ _ _ _ He).
  pose proof (append_at_world _ _ _ _ _ _ _ Hacc HcP HcP' Hw Hb Happ) as Hw'.
  destruct r as [[]|er]; [by apply Hok|]. destruct Hw' as [??]. by apply Herr.
Qed.

(** A control call. *)
Lemma safe_control {A X} (e : effect X) P k (Q : A -> World B J K -> Prop) kont w :
  match e with CancellationRequested | BeginTransaction | Progress _ => True | _ => False end ->
  crashable P k -> at_world P k w ->
  (forall x w', at_world P k w' -> tsafe Q (kont x) w') ->
  tsafe Q (Vis _ e kont) w.
Proof.
  intros He Hc Hw Hk. apply safe_vis; [exact (at_world_crash_ok _ _ _ Hc Hw)|].
  intros x w' [Hb Hj]%handle_control; [|done]. apply Hk. by eapply at_world_same.
Qed.

Lemma safe_forward {A} k s (Q : A -> World B J K -> Prop) kont w :
  steps !! k = Some s -> at_world (in_forward n k) k w ->
  (forall w', at_world (in_forward n k) (S k) w' -> tsafe Q (kont (Ok tt)) w') ->
  (forall er w', crash_ok w' ->
     (certainty er = NotApplied -> at_world (in_forward n k) k w') ->
     tsafe Q (kont (Err er)) w') ->
  tsafe Q (Vis _ (RenameNoReplace (forward_operation s)) kont) w.
Proof.
  intros Hs Hw Hok Herr.
  apply safe_vis.
  { eapply at_world_crash_ok; [|exact Hw]. apply crashable_forward. by left. }
  destruct Hw as (st & Hr & HP & Hfs).
  intros r w' [Hj Hr']%(handle_forward _ _ _ _ _ Hs Hfs).
  assert (forall k', fs_at k' w' -> at_world (in_forward n k) k' w') as Hw'.
  { intros k' ?. exists st. split_and!; try done. eapply replayed_same; [done|by rewrite Hj]. }
  destruct r as [[]|er]; [by apply Hok, Hw'|]. destruct (certainty er) eqn:Hc.
  - apply Herr; [|by intros _; apply Hw'].
    eapply at_world_crash_ok; [apply crashable_forward|by apply Hw']. by left.
  - apply Herr; [|by rewrite Hc].
    destruct Hr' as [H|H]; (eapply at_world_crash_ok; [apply crashable_forward|by apply Hw']);
      [by left|by right].
Qed.

Lemma reverse_at_world m p s (w : World B J K) r w' :
  steps !! p = Some s -> at_world (in_rollback n m p) (S p) w ->
  on_backend (rename_no_replace (rollback_operation s)) w = (r, w') ->
  match r with
  | Ok _ => at_world (in_rollback n m p) p w'
  | Err er => crash_ok w' /\ (certainty er = NotApplied -> at_world (in_rollback n m p) (S p) w')
  end.
Proof.
  intros Hs (st & Hr & HP & Hfs) [Hj Hr']%(handle_reverse _ _ _ _ _ Hs Hfs).
  assert (forall k', fs_at k' w' -> at_world (in_rollback n m p) k' w') as Hw'.
  { intros k' ?. exists st. split_and!; try done. eapply replayed_same; [done|by rewrite Hj]. }
  assert (forall k', k' = S p \/ k' = p -> fs_at k' w' -> crash_ok w') as Hc'.
  { intros k' Hk' Hfs'. eapply at_world_crash_ok; [by apply crashable_rollback|by apply Hw']. }
  destruct r as [[]|er]; [by apply Hw'|]. destruct Hr' as [H|[Hc H]].
  - split; [apply (Hc' (S p)); [by left|done]|by intros _; apply Hw'].
  - split; [apply (Hc' p); [by right|done]|by rewrite Hc].
Qed.

Lemma safe_reverse {A} m p s (Q : A -> World B J K -> Prop) kont w :
  steps !! p = Some s -> at_world (in_rollback n m p) (S p) w ->
  (forall w', at_world (in_rollback n m p) p w' -> tsafe Q (kont (Ok tt)) w') ->
  (forall er w', crash_ok w' ->
     (certainty er = NotApplied -> at_world (in_rollback n m p) (S p) w') ->
     tsafe Q (kont (Err er)) w') ->
  tsafe Q (Vis _ (RenameNoReplace (rollback_operation s)) kont) w.
Proof.
  intros Hs Hw Hok Herr. apply safe_vis.
  { eapply at_world_crash_ok; [|exact Hw]. apply crashable_rollback. by left. }
  intros r w' Hw'%(reverse_at_world _ _ _ _ _ _ Hs Hw).
  destruct r as [[]|er]; [by apply Hok|]. destruct Hw' as [??]. by apply Herr.
Qed.

(** ** The loops *)

Definition completed_upto (k : nat) : list (nat * ScheduleStep) := zip (seq 0 k) (take k steps).

Lemma completed_upto_S k s :
  steps !! k = Some s -> completed_upto (S k) = completed_upto k ++ [(k, s)].
Proof.
  intros Hs. unfold completed_upto. rewrite (take_S_lookup _ _ Hs), seq_S, zip_with_app; [done|].
  rewrite length_seq, length_take. apply lookup_lt_Some in Hs. lia.
Qed.

(** What the outcome promises of the final state. *)
Definition outcome_ok (r : ExecutionReport) (w : World B J K) : Prop :=
  match report_outcome r with
  | OutcomeCompleted => fs_at n w /\ replay_journal (journal_records (journal w)) = Clean
  | OutcomeRolledBack _ => fs_at 0 w /\ replay_journal (journal_records (journal w)) = Clean
  | OutcomeRecoveryRequired _ _ => True
  end.

Lemma ended_clean m j t w :
  match t with Committed => m = n /\ j = n | RolledBackTerminal => j = 0%nat end ->
  at_world (ended n m j t) j w -> replay_journal (journal_records (journal w)) = Clean.
Proof.
  intros Hv (st & (recs & Hrecs & Hrep) & He & _). pose proof (ended_valid _ _ _ _ _ He) as Hvalid.
  destruct He as (_ & _ & _ & Ht). rewrite Hrecs. simpl. unfold manifest. rewrite length_map.
  fold n. rewrite Hrep. unfold classify. rewrite Ht, Hvalid.
  destruct t; [destruct Hv as [-> ->]|subst j]; by rewrite ?Nat.eqb_refl.
Qed.

Lemma safe_done {A} P k (Q : A -> World B J K -> Prop) a w :
  crashable P k -> at_world P k w -> Q a w -> tsafe Q (Ret a) w.
Proof. intros Hc Hw HQ. apply safe_ret; [exact (at_world_crash_ok _ _ _ Hc Hw)|done]. Qed.

Definition rollback_post (m : nat) (r : IndexedEntryExecutions * list RollbackFailure)
    (w : World B J K) : Prop :=
  snd r = [] -> at_world (at_rest n m 0 true) 0 w.

Lemma at_world_weaken m j b k w : at_world (at_rest n m j b) k w -> at_world (at_rest n m j true) k w.
Proof.
  intros (st & Hr & Hs & Hfs). exists st. split_and!; try done. by eapply at_rest_weaken.
Qed.

Lemma rollback_loop_safe m j b restored total entries w :
  (j <= n)%nat -> at_world (at_rest n m j b) j w ->
  tsafe (rollback_post m) (rollback_loop (rev (completed_upto j)) restored total entries) w.
Proof.
  revert b restored entries w. induction j as [|p IH]; intros b restored entries w Hj Hw.
  { eapply safe_done; [apply crashable_rest|exact Hw|]. intros _. by eapply at_world_weaken. }
  destruct (lookup_lt_is_Some_2 steps p) as [s Hs]; [unfold n in Hj; lia|].
  rewrite (completed_upto_S _ _ Hs), rev_app_distr. simpl.
  eapply safe_write; [constructor|apply accepts_prepared_rollback|apply crashable_rest| |exact Hw| |].
  { apply crashable_rollback. by left. }
  2: { intros er w1 Hc _. by apply safe_ret. }
  intros w1 Hw1. eapply safe_reverse; [exact Hs|exact Hw1| |].
  - intros w2 Hw2. eapply safe_write; [constructor|apply accepts_completed_rollback| |
      apply crashable_rest|exact Hw2| |].
    { apply crashable_rollback. by right. }
    2: { intros er w3 Hc _. by apply safe_ret. }
    intros w3 Hw3. eapply safe_control; [done|apply crashable_rest|exact Hw3|].
    intros [] w4 Hw4. eapply IH; [lia|exact Hw4].
  - intros er w2 Hc Hw2. case_bool_decide as Hcert; simpl; [|by apply safe_ret].
    specialize (Hw2 Hcert).
    eapply safe_write; [constructor|apply accepts_not_applied_rollback| |apply crashable_rest|
      exact Hw2| |].
    { apply crashable_rollback. by left. }
    + intros w3 Hw3. by eapply safe_done; [apply crashable_rest|exact Hw3|].
    + intros er' w3 Hc' _. by apply safe_ret.
Qed.

Lemma rollback_safe m b failure entries w :
  (m <= n)%nat -> at_world (at_rest n m m b) m w ->
  tsafe outcome_ok (rollback plan failure (completed_upto m) entries) w.
Proof.
  intros Hm Hw. unfold rollback, progress_at. simpl.
  eapply safe_control; [done|apply crashable_rest|exact Hw|]. intros [] w1 Hw1.
  eapply safe_bind; [by eapply rollback_loop_safe|].
  intros [entries' [|f failures]] w2 Hc Hpost; [|by apply safe_ret].
  simpl. eapply safe_write; [constructor|apply accepts_terminal|apply crashable_rest| |
    exact (Hpost eq_refl)| |].
  { by apply crashable_ended. }
  - intros w3 Hw3. eapply safe_control; [done| |exact Hw3|]; [by apply crashable_ended|].
    intros [] w4 Hw4. eapply safe_done; [|exact Hw4|]; [by apply crashable_ended|].
    split; [by destruct Hw4 as (? & ? & ? & ?)|]. by eapply ended_clean; [|exact Hw4].
  - intros er w3 Hc3 _. by apply safe_ret.
Qed.

Lemma finalize_safe entries w :
  at_world (at_rest n n n false) n w ->
  tsafe outcome_ok (finalize plan n (completed_upto n) entries) w.
Proof.
  intros Hw. unfold finalize, progress_at. simpl.
  eapply safe_control; [done|apply crashable_rest|exact Hw|]. intros [] w1 Hw1.
  eapply safe_control; [done|apply crashable_rest|exact Hw1|]. intros [] w2 Hw2.
  { by eapply rollback_safe. }
  eapply safe_write; [constructor|apply accepts_terminal|apply crashable_rest| |exact Hw2| |].
  { by apply crashable_ended. }
  - intros w3 Hw3. eapply safe_control; [done| |exact Hw3|]; [by apply crashable_ended|].
    intros [] w4 Hw4. eapply safe_done; [|exact Hw4|]; [by apply crashable_ended|].
    split; [by destruct Hw4 as (? & ? & ? & ?)|]. by eapply ended_clean; [|exact Hw4].
  - intros er w3 Hc3 _. by apply safe_ret.
Qed.

Lemma forward_loop_safe k entries w :
  (k <= n)%nat -> at_world (at_rest n k k false) k w ->
  tsafe outcome_ok (forward_loop plan n k (drop k steps) (completed_upto k) entries) w.
Proof.
  remember (n - k)%nat as d eqn:Hd. revert k Hd entries w.
  induction d as [|d IH]; intros k Hd entries w Hk Hw.
  { assert (k = n) as -> by lia. rewrite (drop_ge steps n) by done. by apply finalize_safe. }
  destruct (lookup_lt_is_Some_2 steps k) as [s Hs]; [unfold n in Hd; lia|].
  rewrite (drop_S _ _ _ Hs). simpl.
  eapply safe_control; [done|apply crashable_rest|exact Hw|]. intros [] w1 Hw1.
  { by eapply rollback_safe. }
  eapply safe_write; [constructor|apply accepts_prepared_forward; lia|apply crashable_rest| |
    exact Hw1| |].
  { apply crashable_forward. by left. }
  2: { intros er w2 Hc Hw2. case_bool_decide as Hcert; [by apply safe_ret|].
       eapply rollback_safe; [done|]. apply Hw2. by destruct (append_certainty er). }
  intros w2 Hw2. eapply safe_forward; [exact Hs|exact Hw2| |].
  - intros w3 Hw3. eapply safe_write; [constructor|apply accepts_completed_forward| |
      apply crashable_rest|exact Hw3| |].
    { apply crashable_forward. by right. }
    2: { intros er w4 Hc _. by apply safe_ret. }
    intros w4 Hw4. eapply safe_control; [done|apply crashable_rest|exact Hw4|]. intros [] w5 Hw5.
    rewrite <-(completed_upto_S _ _ Hs). apply IH; [lia|lia|done].
  - intros er w3 Hc Hw3. case_bool_decide as Hcert; [by apply safe_ret|].
    assert (certainty er = NotApplied) as Hna by by destruct (certainty er).
    eapply safe_write; [constructor|apply accepts_not_applied_forward| |apply crashable_rest|
      exact (Hw3 Hna)| |].
    { apply crashable_forward. by left. }
    + intros w4 Hw4. by eapply rollback_safe.
    + intros er' w4 Hc' _. by apply safe_ret.
Qed.

(** ** Beginning *)

(** Nothing has been done yet. *)
Definition untouched (w : World B J K) : Prop :=
  journal_records (journal w) = [] /\ keys_fixed w /\ view_eq v0 (occupant (backend w)).

Lemma untouched_fs w : untouched w -> fs_at 0 w.
Proof. by intros (_ & Hk & Hv). Qed.
Lemma untouched_crash_ok w : untouched w -> crash_ok w.
Proof. intros Hw. left. split; [by destruct Hw|by apply untouched_fs]. Qed.

Definition run_post (r : result ExecuteError ExecutionReport) (w : World B J K) : Prop :=
  match r with Ok report => outcome_ok report w | Err _ => untouched w end.

Lemma handle_begin (w : World B J K) r w' :
  untouched w -> handle _ (JournalBegin plan manifest) w = (r, w') ->
  match r with
  | Ok _ => at_world (at_rest n 0 0 false) 0 w'
  | Err e => untouched w' \/
      (append_certainty e = MayHaveAppended /\ at_world (at_rest n 0 0 false) 0 w')
  end.
Proof.
  intros Hw. cbn [handle]. unfold on_journal.
  destruct (journal_begin plan manifest (journal w)) as [r1 j1] eqn:Hb. intros [= <- <-].
  apply begin_appends in Hb as [_ Happ]. destruct Hw as (Hj & Hk & Hv). rewrite Hj in Happ.
  assert (journal_records j1 = [Intent plan manifest] ->
    at_world (at_rest n 0 0 false) 0 (mkWorld (backend w) j1 (control w))) as Hbegun.
  { intros Hj1. exists replay_start. split_and!; [|apply at_rest_start|done].
    by exists []. }
  destruct r1 as [[]|e]; simpl in Happ; [by apply Hbegun|].
  destruct Happ as [Hj1|[Hc Hj1]]; [left; by split|right; split; [done|by apply Hbegun]].
Qed.

Lemma begin_and_run_safe entries w :
  untouched w -> tsafe run_post (begin_and_run plan steps manifest entries) w.
Proof.
  intros Hw. unfold begin_and_run. simpl. apply safe_vis; [by apply untouched_crash_ok|].
  intros r w1 Hr. apply handle_begin in Hr; [|done]. destruct r as [[]|e].
  - unfold lift_prog. eapply safe_bind; [apply (forward_loop_safe 0); [lia|done]|].
    intros report w2 Hc Hout. by apply safe_ret.
  - assert (crash_ok w1) as Hc.
    { destruct Hr as [Hr|[_ Hr]]; [by apply untouched_crash_ok|].
      eapply at_world_crash_ok; [apply crashable_rest|exact Hr]. }
    case_bool_decide as Hcert; apply safe_ret; try done.
    destruct Hr as [Hr|[Hr _]]; [done|]. by rewrite Hr in Hcert.
Qed.
End safety.
