(* ===== verification/ScheduleCorrect.v ===== *)
(** * ScheduleCorrect: the scheduled moves never collide and all arrive

    A schedule computed for a plan with distinct sources and distinct
    destinations can be executed move by move from the filesystem the plan
    observed: every move finds its source in place and its destination free,
    also through cycles, and at the end every row is at its destination. *)

From S2P Require Import Prelude Collections LegacyText RenameModel Journal Effects.
From S2P Require Import Schedule Codec Executor Reading ExecutorSafety.

(** ** Programs under all answers of the adapters *)

(** [sched_wp answers p Q]: whatever the calls answer within [answers], [p]
    returns a result in [Q] or stops with an error other than
    [ScheduleInvalid]. *)
Section sched_wp.
Variable answers : forall X, effect X -> X -> Prop.

Fixpoint sched_wp {A} (p : prog effect (result ScheduleError A)) (Q : A -> Prop) : Prop :=
  match p with
  | Ret (Ok a) => Q a
  | Ret (Err e) => e <> ScheduleInvalid
  | Vis X e k => forall x, answers X e x -> sched_wp (k x) Q
  end.

Lemma wp_bind {A A'} (p : Prog effect ScheduleError A) (f : A -> Prog effect ScheduleError A') Q :
  sched_wp p (fun a => sched_wp (f a) Q) -> sched_wp (p ≫= f) Q.
Proof.
  unfold mbind, Prog_bind. induction p as [[a|e]|X e k IH]; simpl; [done|done|].
  intros Hp x Hx. apply IH, Hp, Hx.
Qed.
Lemma wp_mono {A} (p : Prog effect ScheduleError A) (Q Q' : A -> Prop) :
  sched_wp p Q -> (forall a, Q a -> Q' a) -> sched_wp p Q'.
Proof.
  intros Hp HQ. induction p as [[a|e]|X e k IH]; simpl in *; [by apply HQ|done|].
  intros x Hx. by apply IH, Hp.
Qed.
Lemma wp_ret {A} (a : A) Q : Q a -> sched_wp (mret a : Prog effect ScheduleError A) Q.
Proof. done. Qed.
Lemma wp_result {A} (r : result ScheduleError A) (a : A) Q :
  r = Ok a -> Q a -> sched_wp (lift_result r : Prog effect ScheduleError A) Q.
Proof. by intros ->. Qed.
Lemma wp_check_cancelled Q : Q tt -> sched_wp check_cancelled Q.
Proof. intros HQ. simpl. by intros [] _. Qed.
Lemma wp_poll_each {A} (l : list A) Q : Q tt -> sched_wp (poll_each l) Q.
Proof.
  intros HQ. induction l as [|x l IH]; [done|]. cbn [poll_each].
  apply wp_bind, wp_check_cancelled, IH.
Qed.
Lemma wp_try {A} (e : effect (result BackendError A)) Q :
  (forall a, answers _ e (Ok a) -> Q a) ->
  sched_wp (try_call ScheduleBackend e : Prog effect ScheduleError A) Q.
Proof. intros HQ. simpl. intros [a|err] Hx; simpl; [by apply HQ|done]. Qed.

(** A run whose calls answer within [answers] returns what [sched_wp] says. *)
Lemma wp_run {A W} (handle : forall X, effect X -> W -> X * W) (I : W -> Prop)
    (p : Prog effect ScheduleError A) Q w r w' :
  quiet p ->
  (forall X (e : effect X) w x w',
     quiet_effect e -> I w -> handle X e w = (x, w') -> answers X e x /\ I w') ->
  sched_wp p Q -> I w -> run handle p w = (r, w') ->
  match r with Ok a => Q a | Err e => e <> ScheduleInvalid end.
Proof.
  intros Hq Hh. revert w Hq. induction p as [[a|e]|X e k IH]; intros w Hq Hp HI; simpl.
  - by intros [= <- <-].
  - by intros [= <- <-].
  - destruct (handle X e w) as [x w1] eqn:He. destruct Hq as [Hqe Hq].
    destruct (Hh _ _ _ _ _ Hqe HI He) as [Hx HI'].
    intros Hr. by eapply IH; [apply Hq|apply Hp, Hx|apply HI'|].
Qed.
End sched_wp.

(** ** The plan and the filesystem it observed *)

(** The keys and the identity of row [i]. *)
Definition source_key_at (plan : RenamePlan) (i : nat) : PathKey :=
  default [] (source_entry_key <$> plan_entries plan !! i).
Definition destination_key_at (plan : RenamePlan) (i : nat) : PathKey :=
  default [] (destination_entry_key <$> plan_entries plan !! i).
Definition identity_at (plan : RenamePlan) (i : nat) : EntryIdentity :=
  default (mkIdentity 0 0)
    (r ← plan_entries plan !! i; observed_identity <$> snapshot_entry (source_snapshot r)).

Section correctness.
Variable plan : RenamePlan.
Abbreviation rows := (plan_entries plan).
Abbreviation n := (length (plan_entries plan)).
Abbreviation skey := (source_key_at plan).
Abbreviation dkey := (destination_key_at plan).
Abbreviation identity_of := (identity_at plan).

(** Entry keys name directory entries; [loc] is where the filesystem keeps
    them and [key_of] where a path leads. *)
Variables (loc : PathKey -> list Z) (known : PathKey -> Prop) (key_of : LegacyText -> list Z).
Variable v0 : view.
Variable answers : forall X, effect X -> X -> Prop.

Record plan_observed : Prop := mkObservedPlan {
  po_sources : NoDup (map source_entry_key rows);
  po_destinations : NoDup (map destination_entry_key rows);
  po_identity : forall r, r ∈ rows -> is_Some (snapshot_entry (source_snapshot r));
  po_known : forall r, r ∈ rows -> known (source_entry_key r) /\ known (destination_entry_key r);
  po_inj : forall a b, known a -> known b -> loc a = loc b -> a = b;
  po_source : forall r, r ∈ rows -> key_of (row_source r) = loc (source_entry_key r);
  po_destination : forall r, r ∈ rows -> key_of (row_destination r) = loc (destination_entry_key r);
  po_present : forall r e, r ∈ rows -> snapshot_entry (source_snapshot r) = Some e ->
    v0 (loc (source_entry_key r)) = Some (observed_identity e);
  po_free : forall r, r ∈ rows ->
    destination_entry_key r ∉ map source_entry_key rows ->
    v0 (loc (destination_entry_key r)) = None;
  po_temporary : forall r leaf key, r ∈ rows ->
    answers _ (PlannedEntryKey (snapshot_parent (source_snapshot r)) leaf) (Ok key) ->
    known key /\ key_of (parent_units (row_source r) ++ [BACKSLASH] ++ leaf) = loc key;
  po_observe : forall path snapshot,
    answers _ (Observe path) (Ok snapshot) -> snapshot_entry snapshot = None ->
    v0 (key_of path) = None
}.
Hypothesis Hplan : plan_observed.

Abbreviation wp := (sched_wp answers).

(** *** Indices *)

Lemma row_lt i : (i < n)%nat -> exists r, rows !! i = Some r /\ r ∈ rows /\
  skey i = source_entry_key r /\ dkey i = destination_entry_key r /\
  source_identity r = Ok (identity_of i).
Proof.
  intros Hi. destruct (lookup_lt_is_Some_2 rows i Hi) as [r Hr]. exists r.
  assert (r ∈ rows) as Hin by by eapply list_elem_of_lookup_2.
  destruct (po_identity Hplan r Hin) as [e He].
  unfold source_key_at, destination_key_at, identity_at, source_identity. rewrite Hr. simpl. rewrite He. by split_and!.
Qed.
Lemma key_NoDup (f : PlanRow -> PathKey) i j ri rj :
  NoDup (map f rows) -> rows !! i = Some ri -> rows !! j = Some rj -> f ri = f rj -> i = j.
Proof.
  intros Hn Hi Hj Hf. eapply NoDup_lookup; [exact Hn| |]; rewrite list_lookup_fmap.
  - by rewrite Hi.
  - by rewrite Hj, Hf.
Qed.
Lemma skey_inj i j : (i < n)%nat -> (j < n)%nat -> skey i = skey j -> i = j.
Proof.
  intros (ri & Hi & _ & -> & _)%row_lt (rj & Hj & _ & -> & _)%row_lt.
  intros H. by eapply (key_NoDup source_entry_key); [apply po_sources|..].
Qed.
Lemma dkey_inj i j : (i < n)%nat -> (j < n)%nat -> dkey i = dkey j -> i = j.
Proof.
  intros (ri & Hi & _ & _ & -> & _)%row_lt (rj & Hj & _ & _ & -> & _)%row_lt.
  intros H. by eapply (key_NoDup destination_entry_key); [apply po_destinations|..].
Qed.

(** [j] must leave before [i] arrives. *)
Definition blocks (j i : nat) : Prop := (i < n)%nat /\ (j < n)%nat /\ dkey i = skey j.
Lemma blocks_functional j j' i : blocks j i -> blocks j' i -> j = j'.
Proof. intros (_ & Hj & H) (_ & Hj' & H'). apply skey_inj; congruence. Qed.
Lemma blocks_injective j i i' : blocks j i -> blocks j i' -> i = i'.
Proof. intros (Hi & _ & H) (Hi' & _ & H'). apply dkey_inj; congruence. Qed.

(** *** The dependency graph *)

(** The owners of the first [index] sources. *)
Definition owns (owners : BTreeMap PathKey nat) (index : nat) : Prop :=
  forall k i, bm_get k owners = Some i <-> (i < index)%nat /\ (i < n)%nat /\ skey i = k.

Lemma skey_lookup i k : map source_entry_key rows !! i = Some k -> (i < n)%nat /\ skey i = k.
Proof.
  rewrite list_lookup_fmap, fmap_Some. intros (r & Hr & ->).
  split; [by eapply lookup_lt_Some|]. unfold source_key_at. by rewrite Hr.
Qed.
Lemma dkey_lookup i k : map destination_entry_key rows !! i = Some k -> (i < n)%nat /\ dkey i = k.
Proof.
  rewrite list_lookup_fmap, fmap_Some. intros (r & Hr & ->).
  split; [by eapply lookup_lt_Some|]. unfold destination_key_at. by rewrite Hr.
Qed.

Lemma wp_insert_owners keys index owners Q :
  drop index (map source_entry_key rows) = keys -> owns owners index ->
  (forall owners', owns owners' n -> Q owners') ->
  wp (insert_owners keys index owners) Q.
Proof.
  revert index owners. induction keys as [|key keys IH]; intros index owners Hd Ho HQ;
    cbn [insert_owners].
  - apply wp_ret, HQ. intros k i. rewrite (Ho k i).
    apply (f_equal length) in Hd. rewrite length_drop, length_map in Hd. simpl in Hd. naive_solver lia.
  - assert (map source_entry_key rows !! index = Some key) as Hkey.
    { rewrite <-(Nat.add_0_r index), <-lookup_drop, Hd. done. }
    apply skey_lookup in Hkey as [Hlt Hkey]. apply wp_bind, wp_check_cancelled.
    destruct (bm_get key owners) as [i|] eqn:Hget.
    { apply Ho in Hget as (Hi & Hi' & Hk). exfalso.
      assert (i = index) by (apply skey_inj; congruence). lia. }
    apply IH; [|clear HQ|done].
    { rewrite <-Nat.add_1_r, <-drop_drop, Hd. done. }
    intros k i. rewrite bm_get_insert. destruct (compare k key) eqn:Hc.
    + apply compare_eq_iff in Hc as ->. split.
      * intros [= <-]. split; [lia|done].
      * intros (_ & Hi & Hk). f_equal. apply skey_inj; congruence.
    + rewrite (Ho k i). split; [naive_solver lia|]. intros (Hi & Hi' & Hk).
      assert (i <> index); [|naive_solver lia]. intros ->. subst k. rewrite Hkey in Hc.
      by rewrite compare_refl in Hc.
    + rewrite (Ho k i). split; [naive_solver lia|]. intros (Hi & Hi' & Hk).
      assert (i <> index); [|naive_solver lia]. intros ->. subst k. rewrite Hkey in Hc.
      by rewrite compare_refl in Hc.
Qed.

Lemma owns_blocks owners i j :
  owns owners n -> (i < n)%nat -> bm_get (dkey i) owners = Some j <-> blocks j i.
Proof. intros Ho Hi. rewrite (Ho (dkey i) j). unfold blocks. naive_solver. Qed.

(** The predecessors linked for the first [index] destinations. *)
Definition linked (predecessors : list (option nat)) (index : nat) : Prop :=
  length predecessors = n /\
  forall j i, predecessors !! j = Some (Some i) <-> (i < index)%nat /\ blocks j i.

Lemma wp_link_dependencies owners keys index predecessors Q :
  owns owners n -> drop index (map destination_entry_key rows) = keys ->
  linked predecessors index ->
  (forall dependencies predecessors', linked predecessors' n ->
     length dependencies = length keys ->
     (forall m, dependencies !! m = Some None <->
        (index + m < n)%nat /\ forall j, ~ blocks j (index + m)) ->
     Q (dependencies, predecessors')) ->
  wp (link_dependencies owners keys index predecessors) Q.
Proof.
  intros Ho. revert index predecessors Q.
  induction keys as [|key keys IH]; intros index predecessors Q Hd [Hlen Hl] HQ;
    cbn [link_dependencies].
  - assert (n <= index)%nat as Hn.
    { apply (f_equal length) in Hd. rewrite length_drop, length_map in Hd. simpl in Hd. lia. }
    apply wp_ret, HQ; [split; [done|]|done|].
    + intros j i. rewrite (Hl j i). unfold blocks. naive_solver lia.
    + intros m. split; [done|lia].
  - assert (map destination_entry_key rows !! index = Some key) as Hkey.
    { rewrite <-(Nat.add_0_r index), <-lookup_drop, Hd. done. }
    apply dkey_lookup in Hkey as [Hlt <-]. apply wp_bind, wp_check_cancelled.
    assert (drop (S index) (map destination_entry_key rows) = keys) as Hd'.
    { rewrite <-Nat.add_1_r, <-drop_drop, Hd. done. }
    assert (forall deps (d : option nat) j0,
      (forall m, deps !! m = Some None <-> (S index + m < n)%nat /\ forall j, ~ blocks j (S index + m)) ->
      (d = None <-> forall j, ~ blocks j index) -> j0 = (d :: deps) ->
      forall m, j0 !! m = Some None <-> (index + m < n)%nat /\ forall j, ~ blocks j (index + m))
      as Hcons.
    { intros deps d ? Hdeps Hdn -> m. destruct m as [|m]; simpl.
      - rewrite Nat.add_0_r. rewrite <-Hdn. naive_solver.
      - rewrite (Hdeps m). by replace (index + S m)%nat with (S index + m)%nat by lia. }
    destruct (bm_get (dkey index) owners) as [owner|] eqn:Hget.
    + apply (owns_blocks _ _ _ Ho Hlt) in Hget. pose proof Hget as (_ & How & _).
      destruct (lookup_lt_is_Some_2 predecessors owner) as [p Hp]; [lia|]. rewrite Hp.
      destruct p as [i|].
      { exfalso. apply Hl in Hp as [Hi Hb]. assert (i = index) by (by eapply blocks_injective). lia. }
      apply wp_bind, IH; [done| |].
      * split; [by rewrite length_insert|]. intros j i.
        destruct (decide (j = owner)) as [->|Hne].
        -- rewrite list_lookup_insert_eq by lia. split.
           ++ intros [= <-]. split; [lia|done].
           ++ intros [_ Hb]. repeat f_equal. by eapply blocks_injective.
        -- rewrite list_lookup_insert_ne by done. rewrite (Hl j i). split; [naive_solver lia|].
           intros [Hi Hb]. assert (i <> index); [|naive_solver lia]. intros ->.
           apply Hne. by eapply blocks_functional.
      * intros deps preds' Hl' Hlen' Hdeps. apply wp_ret, HQ; [done|simpl; lia|].
        intros m. eapply Hcons; [exact Hdeps| |reflexivity]. split; [done|].
        intros Hnb. by destruct (Hnb owner).
    + assert (forall j, ~ blocks j index) as Hnb.
      { intros j Hb. apply (owns_blocks _ _ _ Ho Hlt) in Hb. congruence. }
      apply wp_bind, IH; [done| |].
      * split; [done|]. intros j i. rewrite (Hl j i). split; [naive_solver lia|].
        intros [Hi Hb]. assert (i <> index); [|naive_solver lia]. intros ->. by apply Hnb in Hb.
      * intros deps preds' Hl' Hlen' Hdeps. apply wp_ret, HQ; [done|simpl; lia|].
        intros m. by eapply Hcons; [exact Hdeps| |reflexivity].
Qed.

Lemma wp_initial_ready dependencies index remaining ready Q :
  bs_sorted remaining -> bs_sorted ready ->
  (forall remaining' ready', bs_sorted remaining' -> bs_sorted ready' ->
     (forall i, i ∈ remaining' <-> i ∈ remaining \/ (index <= i < index + length dependencies)%nat) ->
     (forall i, i ∈ ready' <->
        i ∈ ready \/ exists m, dependencies !! m = Some None /\ i = (index + m)%nat) ->
     Q (remaining', ready')) ->
  wp (initial_ready dependencies index remaining ready) Q.
Proof.
  revert index remaining ready Q.
  induction dependencies as [|d deps IH]; intros index remaining ready Q Hs Hr HQ;
    cbn [initial_ready].
  - apply wp_ret, HQ; [done|done| |]; intros i; simpl; [|naive_solver].
    split; [by left|]. intros [?|?]; [done|lia].
  - apply wp_bind, wp_check_cancelled, IH.
    + by apply bs_insert_sorted.
    + destruct d; [done|by apply bs_insert_sorted].
    + intros remaining' ready' Hs' Hr' Hrem Hready. apply HQ; [done|done| |].
      * intros i. rewrite (Hrem i), elem_of_bs_insert. simpl. naive_solver lia.
      * intros i. rewrite (Hready i). split.
        -- intros [Hi|(m & Hm & ->)].
           ++ destruct d as [j|]; [by left|]. apply elem_of_bs_insert in Hi as [->|Hi]; [|by left].
              right. exists 0%nat. split; [done|lia].
           ++ right. exists (S m). split; [done|lia].
        -- intros [Hi|([|m] & Hm & ->)].
           ++ left. destruct d; [done|]. apply elem_of_bs_insert. by right.
           ++ left. simpl in Hm. injection Hm as ->. apply elem_of_bs_insert. left. lia.
           ++ right. exists m. split; [done|lia].
Qed.

(** *** Temporary names *)

Definition fresh_temporary (reserved : BTreeSet PathKey) (r : LegacyText * BTreeSet PathKey)
  : Prop :=
  exists key, key ∉ reserved /\ r.2 = bs_insert key reserved /\ known key /\
    key_of r.1 = loc key /\ v0 (loc key) = None.

Lemma wp_temporary_candidates remaining ordinal e nonce reserved :
  e ∈ rows ->
  wp (temporary_candidates remaining ordinal plan e nonce (parent_units (row_source e)) reserved)
    (fresh_temporary reserved).
Proof.
  intros He. revert ordinal. induction remaining as [|remaining IH]; intros ordinal;
    cbn [temporary_candidates]; [done|].
  apply wp_bind, wp_check_cancelled, wp_bind, wp_try. intros key Hkey.
  destruct (bs_contains key reserved) eqn:Hc; [apply IH|].
  apply wp_bind, wp_try. intros snapshot Hsnap.
  destruct (negb _); [done|]. destruct (snapshot_entry snapshot) as [o|] eqn:Hentry; [apply IH|].
  destruct (po_temporary Hplan _ _ _ He Hkey) as [Hkn Hloc].
  apply wp_ret. exists key. simpl. split_and!; try done.
  - rewrite <-bs_contains_spec. by rewrite Hc.
  - rewrite <-Hloc. by eapply po_observe.
Qed.
Lemma wp_unique_temporary_path e reserved :
  e ∈ rows -> wp (unique_temporary_path plan e reserved) (fresh_temporary reserved).
Proof.
  intros He. unfold unique_temporary_path.
  apply wp_bind, wp_check_cancelled, wp_bind, wp_try. intros nonce _.
  by apply wp_temporary_candidates.
Qed.

(** *** Where every row is *)

(** What a location holds when no row is on it. *)
Definition base (k : list Z) : option EntryIdentity :=
  if bool_decide (k ∈ map (loc ∘ source_entry_key) rows) then None else v0 k.

Record placed (pos : nat -> PathKey) (u : view) : Prop := mkPlaced {
  placed_at : forall i, (i < n)%nat -> u (loc (pos i)) = Some (identity_of i);
  placed_else : forall k, (forall i, (i < n)%nat -> k <> loc (pos i)) -> u k = base k;
  placed_known : forall i, (i < n)%nat -> known (pos i) /\ base (loc (pos i)) = None;
  placed_inj : forall i j, (i < n)%nat -> (j < n)%nat -> pos i = pos j -> i = j
}.

Lemma placed_ext pos pos' u :
  (forall i, (i < n)%nat -> pos i = pos' i) -> placed pos u -> placed pos' u.
Proof.
  intros Hext [H1 H2 H3 H4]. split.
  - intros i Hi. rewrite <-Hext by done. by apply H1.
  - intros k Hk. apply H2. intros i Hi. rewrite Hext by done. by apply Hk.
  - intros i Hi. rewrite <-Hext by done. by apply H3.
  - intros i j Hi Hj. rewrite <-!Hext by done. by apply H4.
Qed.

Definition relocate (pos : nat -> PathKey) (i : nat) (q : PathKey) (j : nat) : PathKey :=
  if decide (j = i) then q else pos j.

(** A row moves to a vacant location. *)
Lemma placed_move pos u i q :
  placed pos u -> (i < n)%nat -> known q -> base (loc q) = None ->
  (forall j, (j < n)%nat -> pos j <> q) ->
  exists u', moved u u' (loc (pos i)) (loc q) (identity_of i) /\ placed (relocate pos i q) u'.
Proof.
  intros [H1 H2 H3 H4] Hi Hq Hbase Hfree.
  assert (forall j, (j < n)%nat -> loc (pos j) <> loc q) as Hloc.
  { intros j Hj Heq. apply (Hfree j Hj). apply (po_inj Hplan); [by apply H3|done|done]. }
  assert (forall j, (j < n)%nat -> loc (pos j) = loc (pos i) -> j = i) as Hinj.
  { intros j Hj Heq. apply H4; [done|done|]. apply (po_inj Hplan); [by apply H3|by apply H3|done]. }
  exists (fun k => if decide (k = loc q) then Some (identity_of i)
              else if decide (k = loc (pos i)) then None else u k).
  pose proof (Hloc i Hi) as Hne. split.
  - unfold moved. split_and!.
    + by apply H1.
    + rewrite H2; [done|]. intros j Hj ?. by apply (Hloc j Hj).
    + by rewrite decide_True by done.
    + rewrite decide_False by done. by rewrite decide_True by done.
    + intros k ? ?. by rewrite !decide_False by done.
  - split; unfold relocate.
    + intros j Hj. destruct (decide (j = i)) as [->|Hji]; [by rewrite decide_True by done|].
      rewrite decide_False by (by apply Hloc).
      rewrite decide_False; [by apply H1|]. intros Heq. by apply Hji, Hinj.
    + intros k Hk. rewrite decide_False; [|specialize (Hk i Hi); by rewrite decide_True in Hk by done].
      destruct (decide (k = loc (pos i))) as [->|Hki]; [symmetry; by apply H3|].
      apply H2. intros j Hj ->. destruct (decide (j = i)) as [->|Hji]; [done|].
      specialize (Hk j Hj). by rewrite decide_False in Hk by done.
    + intros j Hj. destruct (decide (j = i)); [done|by apply H3].
    + intros j j' Hj Hj'. destruct (decide (j = i)) as [->|], (decide (j' = i)) as [->|]; try done.
      * intros ?. by destruct (Hfree j' Hj').
      * intros ?. by destruct (Hfree j Hj).
      * by apply H4.
Qed.

Lemma base_source i : (i < n)%nat -> base (loc (skey i)) = None.
Proof.
  intros (r & _ & Hin & -> & _)%row_lt. unfold base. rewrite bool_decide_true; [done|].
  apply list_elem_of_fmap. by exists r.
Qed.
Lemma base_vacant k : v0 k = None -> base k = None.
Proof. intros Hk. unfold base. by case_bool_decide. Qed.
Lemma base_destination i : (i < n)%nat -> base (loc (dkey i)) = None.
Proof.
  intros (r & _ & Hin & _ & -> & _)%row_lt.
  destruct (decide (destination_entry_key r ∈ map source_entry_key rows)) as [Hd|Hd].
  - apply list_elem_of_fmap in Hd as (r' & Heq & Hin'). unfold base.
    rewrite bool_decide_true; [done|]. apply list_elem_of_fmap. exists r'.
    split; [simpl; by rewrite Heq|done].
  - by apply base_vacant, (po_free Hplan).
Qed.
Lemma key_known i : (i < n)%nat -> known (skey i) /\ known (dkey i).
Proof. intros (r & _ & Hin & -> & -> & _)%row_lt. by apply (po_known Hplan). Qed.

(** *** The trail of a schedule: which row each step moves, and from where *)

Inductive trail (start : nat -> PathKey) : list ScheduleStep -> (nat -> PathKey) -> Prop :=
| trail_start pos : (forall i, (i < n)%nat -> pos i = start i) -> trail start [] pos
| trail_move steps pos i r q s pos' :
    trail start steps pos -> rows !! i = Some r ->
    entry s = row_id r -> identity s = identity_of i ->
    key_of (source s) = loc (pos i) -> key_of (destination s) = loc q ->
    (forall j, (j < n)%nat -> pos' j = relocate pos i q j) ->
    trail start (steps ++ [s]) pos'.

(** *** The scheduling state

    [limbo] is the pivot of an open cycle with its temporary key: it is still
    pending, but no longer at its source. *)

Definition at_pos (limbo : option (nat * PathKey)) (pending : list bool) (i : nat) : PathKey :=
  if default false (pending !! i)
  then match limbo with
       | Some (pivot, t) => if decide (i = pivot) then t else skey i
       | None => skey i
       end
  else dkey i.

Record sched_inv (limbo : option (nat * PathKey)) (st : LoopState) : Prop := mkSchedInv {
  si_len : length (pending st) = n;
  si_indices : forall i, i ∈ remaining_indices st <-> pending st !! i = Some true;
  si_sorted : bs_sorted (remaining_indices st);
  si_count : remaining st = length (remaining_indices st);
  si_reserved : forall i, (i < n)%nat -> skey i ∈ reserved st /\ dkey i ∈ reserved st;
  si_limbo : match limbo with
    | Some (pivot, t) => pending st !! pivot = Some true /\
        forall i, (i < n)%nat -> t <> skey i /\ t <> dkey i
    | None => True
    end;
  si_view : exists u, moves key_of v0 (schedule st) u /\ placed (at_pos limbo (pending st)) u;
  si_trail : trail skey (schedule st) (at_pos limbo (pending st))
}.

Definition in_limbo (limbo : option (nat * PathKey)) (i : nat) : Prop :=
  match limbo with Some (pivot, _) => i = pivot | None => False end.

Lemma pending_lt limbo st i b : sched_inv limbo st -> pending st !! i = Some b -> (i < n)%nat.
Proof. intros [Hlen _ _ _ _ _ _ _] Hi%lookup_lt_Some. by rewrite Hlen in Hi. Qed.

(** The destination of a row is free once what it waits for has left. *)
Lemma destination_free limbo st i j :
  sched_inv limbo st -> pending st !! i = Some true ->
  (forall k, blocks k i -> pending st !! k = Some false \/ in_limbo limbo k) ->
  (j < n)%nat -> at_pos limbo (pending st) j <> dkey i.
Proof.
  intros Hinv Hi Hdep Hj. pose proof (pending_lt _ _ _ _ Hinv Hi) as Hin.
  destruct (lookup_lt_is_Some_2 (pending st) j) as [b Hb]; [by rewrite (si_len _ _ Hinv)|].
  unfold at_pos. rewrite Hb. simpl. destruct b.
  - pose proof (si_limbo _ _ Hinv) as Hl. intros Heq.
    assert (match limbo with
      | Some (pivot, t) => if decide (j = pivot) then t else skey j | None => skey j end <> skey j \/
      blocks j i) as [Hne|Hb'].
    { destruct limbo as [[pivot t]|]; [destruct (decide (j = pivot))|].
      - left. by apply Hl.
      - right. by split_and!.
      - right. by split_and!. }
    + destruct limbo as [[pivot t]|]; [|done]. destruct (decide (j = pivot)) as [->|]; [|done].
      destruct Hl as [_ Hl]. by destruct (Hl i Hin) as [_ ?].
    + destruct (Hdep j Hb') as [Hd|Hd]; [congruence|].
      destruct limbo as [[pivot t]|]; [|done]. simpl in Hd. subst pivot.
      rewrite decide_True in Heq by done. destruct Hl as [_ Hl]. by destruct (Hl i Hin) as [_ ?].
  - intros Heq. assert (j = i) as -> by by apply dkey_inj. congruence.
Qed.

Lemma length_bs_remove (i : nat) s :
  bs_sorted s -> i ∈ s -> length s = S (length (bs_remove i s)).
Proof.
  intros Hs%bs_sorted_NoDup Hin. induction s as [|y s IH]; [by apply not_elem_of_nil in Hin|].
  apply NoDup_cons in Hs as [Hy Hs]. simpl. destruct (compare i y) eqn:Hc; [done| |];
    (apply elem_of_cons in Hin as [->|Hin]; [by rewrite compare_refl in Hc|]);
    simpl; by rewrite (IH Hs Hin).
Qed.

(** A row has arrived: what [finish_index] does to the invariant. *)
Lemma finish_ok limbo limbo' st st0 i s u q :
  sched_inv limbo st0 -> pending st0 !! i = Some true ->
  pending st = pending st0 -> remaining st = remaining st0 ->
  remaining_indices st = remaining_indices st0 -> reserved st = reserved st0 ->
  schedule st = schedule st0 ++ [s] ->
  moves key_of v0 (schedule st0) u -> placed (at_pos limbo (pending st0)) u ->
  key_of (source s) = loc (at_pos limbo (pending st0) i) -> key_of (destination s) = loc q ->
  identity s = identity_of i -> (exists r, rows !! i = Some r /\ entry s = row_id r) -> q = dkey i ->
  (forall j, (j < n)%nat -> at_pos limbo (pending st0) j <> q) ->
  match limbo' with Some (pivot, t) => pivot <> i /\ limbo = Some (pivot, t) | None => True end ->
  (limbo' = None -> forall pivot t, limbo = Some (pivot, t) -> pivot = i) ->
  exists st', finish_index i st = Ok st' /\ sched_inv limbo' st' /\
    pending st' = <[i := false]> (pending st0) /\ ready st' = ready st /\
    remaining st' = (remaining st0 - 1)%nat.
Proof.
  intros Hinv Hi Hp Hr Hri Hres Hsch Hm Hpl Hks Hkd Hid (r & Hrow & Hent) -> Hfree Hl1 Hl2.
  pose proof (pending_lt _ _ _ _ Hinv Hi) as Hin. pose proof Hinv as [Hlen Hidx Hsort Hcnt Hrs Hlb _ Htr].
  assert (forall j, (j < n)%nat ->
    at_pos limbo' (<[i := false]> (pending st0)) j = relocate (at_pos limbo (pending st0)) i (dkey i) j)
    as Hpos.
  { intros j Hj. unfold relocate, at_pos. destruct (decide (j = i)) as [->|Hne].
    - by rewrite list_lookup_insert_eq by lia.
    - rewrite list_lookup_insert_ne by done. destruct (default false (pending st0 !! j)); [|done].
      destruct limbo' as [[pivot t]|]; [by destruct Hl1 as [_ ->]|].
      destruct limbo as [[pivot t]|]; [|done]. rewrite decide_False; [done|].
      by rewrite (Hl2 eq_refl pivot t eq_refl). }
  unfold finish_index. rewrite Hri.
  assert (bs_contains i (remaining_indices st0) = true) as ->.
  { apply bs_contains_spec. by apply Hidx. }
  eexists. split; [reflexivity|]. simpl. rewrite Hp, Hr, Hres, Hsch.
  split; [|by split_and!]. split; simpl.
  - by rewrite length_insert.
  - intros j. rewrite elem_of_bs_remove by done. rewrite (Hidx j).
    destruct (decide (j = i)) as [->|Hne].
    + rewrite list_lookup_insert_eq by lia. naive_solver.
    + rewrite list_lookup_insert_ne by done. naive_solver.
  - by apply bs_remove_sorted.
  - rewrite Hcnt. rewrite (length_bs_remove i (remaining_indices st0)) by (done || by apply Hidx). lia.
  - done.
  - destruct limbo' as [[pivot t]|]; [|done]. destruct Hl1 as [Hne ->].
    rewrite list_lookup_insert_ne by done. done.
  - destruct (placed_move _ u i (dkey i) Hpl Hin) as (u' & Hmv & Hpl'); [by apply key_known|
      by apply base_destination|done|].
    exists u'. split.
    + eapply moves_snoc; [exact Hm|]. by rewrite Hks, Hkd, Hid.
    + eapply placed_ext; [|exact Hpl']. intros j Hj. symmetry. by apply Hpos.
  - by eapply trail_move.
Qed.

Lemma direct_ok limbo st i :
  sched_inv limbo st -> pending st !! i = Some true -> ~ in_limbo limbo i ->
  (forall k, blocks k i -> pending st !! k = Some false \/ in_limbo limbo k) ->
  exists st', schedule_direct plan i st = Ok st' /\ sched_inv limbo st' /\
    pending st' = <[i := false]> (pending st) /\ ready st' = ready st /\
    remaining st' = (remaining st - 1)%nat.
Proof.
  intros Hinv Hi Hnl Hdep. pose proof (pending_lt _ _ _ _ Hinv Hi) as Hin.
  destruct (row_lt i Hin) as (r & Hr & Hrin & Hsk & Hdk & Hid).
  destruct (si_view _ _ Hinv) as (u & Hm & Hpl).
  unfold schedule_direct, is_pending. rewrite Hi. simpl. rewrite Hr. simpl.
  unfold direct_step. rewrite Hid. simpl.
  match goal with |- context [finish_index i (push_step ?s st)] => set (step := s) end.
  assert (exists st', finish_index i (push_step step st) = Ok st' /\ sched_inv limbo st' /\
    pending st' = <[i := false]> (pending st) /\ ready st' = ready (push_step step st) /\
    remaining st' = (remaining st - 1)%nat) as Hfin; [|exact Hfin].
  eapply (finish_ok limbo limbo _ st i step u (dkey i)); try reflexivity; try eassumption; simpl.
  - rewrite (po_source Hplan r Hrin). f_equal. unfold at_pos. rewrite Hi. simpl. rewrite Hsk.
    destruct limbo as [[pivot t]|]; [|done]. by rewrite decide_False.
  - rewrite (po_destination Hplan r Hrin). by rewrite Hdk.
  - by exists r.
  - intros j Hj. by eapply destination_free.
  - destruct limbo as [[pivot t]|]; [|done]. split; [|done]. intros ->. by apply Hnl.
  - by destruct limbo.
Qed.

(** *** Cycles *)

Definition blocker (i : nat) : option nat :=
  fst <$> list_find (fun r => source_entry_key r = dkey i) rows.
Lemma blocker_blocks i j : (i < n)%nat -> blocker i = Some j <-> blocks j i.
Proof.
  intros Hi. unfold blocker. split.
  - rewrite fmap_Some. intros ([k r] & Hf & ->). apply list_find_Some in Hf as (Hr & Hk & _).
    split_and!; [done|by eapply lookup_lt_Some|]. unfold source_key_at. simpl. by rewrite Hr.
  - intros Hb. pose proof Hb as (_ & Hj & Heq).
    destruct (row_lt j Hj) as (r & Hr & Hin & Hsk & _).
    destruct (list_find_elem_of (fun r => source_entry_key r = dkey i) rows r) as [[k r'] Hf];
      [done|congruence|]. rewrite Hf. simpl. f_equal. apply list_find_Some in Hf as (Hr' & Hk & _).
    eapply blocks_functional; [|exact Hb].
    split_and!; [done|by eapply lookup_lt_Some|]. unfold source_key_at. by rewrite Hr'.
Qed.

(** When every pending row waits for a pending row, every pending row is
    waited for: the pending rows form cycles. *)
Lemma pending_waited st :
  sched_inv None st ->
  (forall i, pending st !! i = Some true -> exists j, blocks j i /\ pending st !! j = Some true) ->
  forall j, pending st !! j = Some true -> exists i, blocks j i /\ pending st !! i = Some true.
Proof.
  intros Hinv Hall j Hj. set (g := fun i => default 0%nat (blocker i)).
  assert (forall i, pending st !! i = Some true -> blocks (g i) i /\ pending st !! g i = Some true) as Hg.
  { intros i Hi. destruct (Hall i Hi) as (k & Hb & Hk). unfold g.
    pose proof (proj2 (blocker_blocks i k (pending_lt _ _ _ _ Hinv Hi)) Hb) as ->. by simpl. }
  set (L := remaining_indices st).
  assert (NoDup L) as HL by apply bs_sorted_NoDup, (si_sorted _ _ Hinv).
  assert (map g L ≡ₚ L) as Hperm.
  { apply submseteq_length_Permutation; [|by rewrite length_map].
    apply NoDup_submseteq.
    - apply NoDup_fmap_2_strong; [|done]. intros a b Ha Hb Heq.
      apply (si_indices _ _ Hinv), Hg in Ha as [Ha _].
      apply (si_indices _ _ Hinv), Hg in Hb as [Hb _]. rewrite Heq in Ha. by eapply blocks_injective.
    - intros x (i & -> & Hi)%list_elem_of_fmap. apply (si_indices _ _ Hinv).
      apply (si_indices _ _ Hinv) in Hi. by apply Hg. }
  assert (j ∈ map g L) as (i & -> & Hi)%list_elem_of_fmap.
  { rewrite Hperm. by apply (si_indices _ _ Hinv). }
  apply (si_indices _ _ Hinv) in Hi. exists i. split; [by apply Hg|done].
Qed.

(** The pivot leaves for its temporary name. *)
Lemma enter_limbo st pivot r path t :
  sched_inv None st -> pending st !! pivot = Some true -> rows !! pivot = Some r ->
  t ∉ reserved st -> known t -> key_of path = loc t -> v0 (loc t) = None ->
  sched_inv (Some (pivot, t))
    (push_step (into_temporary_step r path (identity_of pivot) (plan_scope plan))
       (mkLoop (pending st) (remaining st) (remaining_indices st) (ready st)
          (bs_insert t (reserved st)) (schedule st))).
Proof.
  intros Hinv Hp Hr Ht Hkn Hpath Hv. pose proof (pending_lt _ _ _ _ Hinv Hp) as Hin.
  pose proof Hinv as [Hlen Hidx Hsort Hcnt Hrs _ (u & Hm & Hpl) Htr]. split; simpl; try done.
  - intros i Hi. rewrite !elem_of_bs_insert. split; right; by apply Hrs.
  - split; [done|]. intros i Hi. destruct (Hrs i Hi). split; intros ->; done.
  - destruct (placed_move _ u pivot t Hpl Hin Hkn) as (u' & Hmv & Hpl').
    { by apply base_vacant. }
    { intros j Hj. unfold at_pos. destruct (Hrs j Hj). by destruct (default _ _); intros Heq; subst t. }
    exists u'. split.
    + eapply moves_snoc; [exact Hm|]. simpl. rewrite Hpath.
      rewrite (po_source Hplan r) by (by eapply list_elem_of_lookup_2).
      unfold at_pos, source_key_at in Hmv. rewrite Hp, Hr in Hmv. exact Hmv.
    + eapply placed_ext; [|exact Hpl']. intros j Hj. unfold relocate, at_pos.
      destruct (decide (j = pivot)) as [->|]; [by rewrite Hp|done].
  - eapply trail_move; [exact Htr|exact Hr|done|done| |exact Hpath|].
    + simpl. rewrite (po_source Hplan r) by (by eapply list_elem_of_lookup_2).
      unfold at_pos, source_key_at. by rewrite Hp, Hr.
    + intros j Hj. unfold relocate, at_pos. destruct (decide (j = pivot)) as [->|]; [by rewrite Hp|done].
Qed.

Section cycle.
Variables (predecessors : list (option nat)) (pending0 : list bool) (pivot : nat) (t : PathKey).
Hypothesis Hlinked : linked predecessors n.
Hypothesis Hwaited :
  forall j, pending0 !! j = Some true -> exists i, blocks j i /\ pending0 !! i = Some true.

Lemma predecessor_blocks j i : predecessor predecessors j = Some i <-> blocks j i.
Proof.
  unfold predecessor. destruct Hlinked as [Hlen Hl]. split.
  - destruct (predecessors !! j) as [[i'|]|] eqn:Hj; simpl; [|done|done].
    intros [= ->]. by apply Hl in Hj as [_ Hj].
  - intros Hb. assert (predecessors !! j = Some (Some i)) as ->; [|done].
    apply Hl. split; [by destruct Hb|done].
Qed.

(** The rows that left since the pivot did. *)
Definition newly (st : LoopState) (i : nat) : Prop :=
  pending0 !! i = Some true /\ pending st !! i = Some false.

Record cycle_inv (freed : nat) (st : LoopState) : Prop := mkCycle {
  cy_inv : sched_inv (Some (pivot, t)) st;
  cy_ready : ready st = [];
  cy_sub : forall i, pending st !! i = Some true -> pending0 !! i = Some true;
  cy_freed : freed = pivot \/ newly st freed;
  cy_dep : forall i, newly st i ->
    exists j, blocks j i /\ (j = pivot \/ newly st j) /\ j <> freed;
  cy_pred : forall j, j = pivot \/ newly st j -> j <> freed ->
    exists i, blocks j i /\ newly st i
}.

(** The cycle is closed: the last row left the pivot's destination. *)
Definition cycle_closed (st : LoopState) : Prop :=
  sched_inv (Some (pivot, t)) st /\ ready st = [] /\
  (forall i, pending st !! i = Some true -> pending0 !! i = Some true) /\
  (forall j, blocks j pivot -> pending st !! j = Some false \/ j = pivot) /\
  (forall j, j = pivot \/ newly st j -> exists i, blocks j i /\ (i = pivot \/ newly st i)).

Lemma wp_close_cycle fuel freed st :
  cycle_inv freed st -> (remaining st <= fuel)%nat ->
  wp (close_cycle plan predecessors fuel pivot freed st)
    (fun st' => cycle_closed st' /\ (remaining st' <= remaining st)%nat).
Proof.
  revert freed st. induction fuel as [|fuel IH]; intros freed st Hc Hf; cbn [close_cycle];
    pose proof Hc as [Hinv Hready Hsub Hfreed Hdep Hpred];
    pose proof (si_limbo _ _ Hinv) as [Hpivot _].
  { exfalso. rewrite (si_count _ _ Hinv) in Hf. apply (si_indices _ _ Hinv) in Hpivot.
    destruct (remaining_indices st); [by apply not_elem_of_nil in Hpivot|simpl in Hf; lia]. }
  assert (pending0 !! freed = Some true) as Hfp.
  { destruct Hfreed as [->|[? _]]; [by apply Hsub|done]. }
  destruct (Hwaited freed Hfp) as (i & Hb & Hi0).
  pose proof (proj2 (predecessor_blocks freed i) Hb) as ->.
  apply wp_bind, wp_check_cancelled. destruct (Nat.eqb_spec i pivot) as [->|Hne].
  { apply wp_ret. split; [|done]. split_and!; try done.
    - intros j Hj. assert (j = freed) as -> by by eapply blocks_functional.
      destruct Hfreed as [->|[_ ?]]; [by right|by left].
    - intros j Hj. destruct (decide (j = freed)) as [->|Hjf]; [eauto|].
      destruct (Hpred j Hj Hjf) as (k & Hbk & Hk). eauto. }
  assert (pending st !! i = Some true) as Hi.
  { pose proof Hb as (Hin & _). destruct (lookup_lt_is_Some_2 (pending st) i) as [b Hb'];
      [by rewrite (si_len _ _ Hinv)|]. destruct b; [done|]. exfalso.
    destruct (Hdep i (conj Hi0 Hb')) as (j & Hbj & _ & Hjf). apply Hjf. by eapply blocks_functional. }
  destruct (direct_ok _ st i Hinv Hi) as (st' & Hd & Hinv' & Hp' & Hr' & Hrem'); [done| |].
  { intros k Hk. assert (k = freed) as -> by by eapply blocks_functional.
    destruct Hfreed as [->|[_ ?]]; [by right|by left]. }
  assert (i < length (pending st))%nat as Hil by by eapply lookup_lt_Some.
  assert (forall j, newly st' j <-> newly st j \/ j = i) as Hnew.
  { intros j. unfold newly. rewrite Hp'. destruct (decide (j = i)) as [->|].
    - rewrite list_lookup_insert_eq by done. naive_solver.
    - rewrite list_lookup_insert_ne by done. naive_solver. }
  assert (~ newly st i) as Hni by (intros [_ ?]; congruence).
  apply wp_bind. eapply wp_result; [exact Hd|].
  eapply wp_mono; [apply (IH i st')|].
  - split; [done|congruence| | | |].
    + intros j. rewrite Hp'. destruct (decide (j = i)) as [->|].
      * by rewrite list_lookup_insert_eq by done.
      * rewrite list_lookup_insert_ne by done. apply Hsub.
    + right. apply Hnew. by right.
    + intros j [Hj| ->]%Hnew.
      * destruct (Hdep j Hj) as (k & Hbk & Hk & _). exists k. split_and!; [done| |].
        -- destruct Hk as [?|?]; [by left|right; apply Hnew; by left].
        -- intros ->. by destruct Hk.
      * exists freed. split_and!; [done| |].
        -- destruct Hfreed as [?|?]; [by left|right; apply Hnew; by left].
        -- intros ->. by destruct Hfreed.
    + intros j Hj Hji. destruct (decide (j = freed)) as [->|Hjf].
      * exists i. split; [done|]. apply Hnew. by right.
      * destruct (Hpred j) as (k & Hbk & Hk); [|done|].
        { destruct Hj as [?|[?|?]%Hnew]; [by left|by right|done]. }
        exists k. split; [done|]. apply Hnew. by left.
  - lia.
  - intros st'' [Hcl Hle]. split; [done|lia].
Qed.
End cycle.

(** *** The main loop *)

Definition all_blocked (st : LoopState) : Prop :=
  forall i, pending st !! i = Some true -> exists j, blocks j i /\ pending st !! j = Some true.
Definition ready_exact (st : LoopState) : Prop :=
  bs_sorted (ready st) /\
  forall i, i ∈ ready st <->
    pending st !! i = Some true /\ forall j, blocks j i -> pending st !! j = Some false.

(** With nothing ready, every pending row waits for a pending row. *)
Lemma nothing_ready st : sched_inv None st -> ready_exact st -> ready st = [] -> all_blocked st.
Proof.
  intros Hinv [_ Hre] Hnil i Hi. pose proof (pending_lt _ _ _ _ Hinv Hi) as Hin.
  destruct (blocker i) as [j|] eqn:Hb.
  - apply blocker_blocks in Hb; [|done]. pose proof Hb as (_ & Hj & _). exists j. split; [done|].
    destruct (lookup_lt_is_Some_2 (pending st) j) as [[] Hpj]; [by rewrite (si_len _ _ Hinv)|done|].
    exfalso. assert (i ∈ ready st) as Hr; [|rewrite Hnil in Hr; by apply not_elem_of_nil in Hr].
    apply Hre. split; [done|]. intros k Hk.
    by rewrite (blocks_functional k j i Hk Hb).
  - exfalso. assert (i ∈ ready st) as Hr; [|rewrite Hnil in Hr; by apply not_elem_of_nil in Hr].
    apply Hre. split; [done|]. intros k Hk. apply blocker_blocks in Hk; [|done]. congruence.
Qed.

Section main_loop.
Variable predecessors : list (option nat).
Hypothesis Hlinked : linked predecessors n.

Definition loop_post (bound : nat) (st : LoopState) : Prop :=
  sched_inv None st /\ ready_exact st /\ (remaining st < bound)%nat.

Lemma wp_schedule_cycle pivot st :
  sched_inv None st -> ready st = [] -> all_blocked st -> pending st !! pivot = Some true ->
  wp (schedule_cycle plan predecessors pivot st) (loop_post (remaining st)).
Proof.
  intros Hinv Hnil Hab Hp. pose proof (pending_lt _ _ _ _ Hinv Hp) as Hin.
  pose proof (pending_waited st Hinv Hab) as Hw.
  destruct (row_lt pivot Hin) as (r & Hr & Hrin & Hsk & Hdk & Hid). unfold schedule_cycle.
  apply wp_bind. eapply wp_result; [by rewrite Hr|]. apply wp_bind.
  eapply wp_mono; [by apply wp_unique_temporary_path|].
  intros [path reserved'] (t & Ht & Hres & Hkn & Hpath & Hv). simpl in Hres, Hpath. subst reserved'.
  apply wp_bind. eapply wp_result; [exact Hid|]. apply wp_bind.
  pose proof (enter_limbo st pivot r path t Hinv Hp Hr Ht Hkn Hpath Hv) as Hlimbo.
  set (st1 := push_step _ _) in Hlimbo.
  pose proof (si_count _ _ Hinv) as Hcount.
  assert (length (remaining_indices st) <= n)%nat as Hcard.
  { rewrite <-(length_seq n 0). apply submseteq_length, NoDup_submseteq.
    - by apply bs_sorted_NoDup, (si_sorted _ _ Hinv).
    - intros i Hi. apply (si_indices _ _ Hinv) in Hi. apply elem_of_seq.
      pose proof (pending_lt _ _ _ _ Hinv Hi). lia. }
  eapply wp_mono.
  { apply (wp_close_cycle predecessors (pending st) pivot t Hlinked Hw).
    - split; try done.
      + by left.
      + intros i [H1 H2]. exfalso. simpl in H2. congruence.
      + intros j [->|[H1 H2]] Hj; [done|]. exfalso. simpl in H2. congruence.
    - simpl. lia. }
  intros st' [(Hinv' & Hr' & Hsub & Hdep & Hclosed) Hle]. simpl in Hle.
  pose proof (si_limbo _ _ Hinv') as [Hp' Hfresh].
  destruct (si_view _ _ Hinv') as (u & Hm & Hpl).
  assert (at_pos (Some (pivot, t)) (pending st') pivot = t) as Hat.
  { unfold at_pos. rewrite Hp'. simpl. by rewrite decide_True. }
  destruct (finish_ok (Some (pivot, t)) None
    (push_step (from_temporary_step r path (identity_of pivot) (plan_scope plan)) st') st' pivot
    (from_temporary_step r path (identity_of pivot) (plan_scope plan)) u (dkey pivot))
    as (st'' & Hfin & Hinv'' & Hp'' & Hr'' & Hrem''); try reflexivity; try done.
  { simpl. by rewrite Hat. }
  { simpl. by rewrite (po_destination Hplan r Hrin), Hdk. }
  { by exists r. }
  { intros j Hj. by eapply destination_free. }
  { intros _ p' t'. by intros [= <- _]. }
  eapply wp_result; [exact Hfin|].
  assert (pivot < length (pending st'))%nat as Hpl' by by eapply lookup_lt_Some.
  assert (0 < remaining st')%nat as Hpos.
  { rewrite (si_count _ _ Hinv'). apply (si_indices _ _ Hinv') in Hp'.
    destruct (remaining_indices st'); [by apply not_elem_of_nil in Hp'|simpl; lia]. }
  split_and!; [done| |lia]. split.
  - rewrite Hr''. simpl. rewrite Hr'. constructor.
  - intros i. rewrite Hr''. simpl. rewrite Hr'. split; [by intros ?%not_elem_of_nil|].
    intros [Hi Hnb]. exfalso. rewrite Hp'' in Hi, Hnb.
    assert (i <> pivot) as Hne.
    { intros ->. by rewrite list_lookup_insert_eq in Hi by done. }
    rewrite list_lookup_insert_ne in Hi by done.
    destruct (Hab i (Hsub i Hi)) as (j & Hb & Hj0). specialize (Hnb j Hb).
    assert (j = pivot \/ newly (pending st) st' j) as Hj.
    { destruct (decide (j = pivot)) as [->|Hjp]; [by left|].
      rewrite list_lookup_insert_ne in Hnb by done. right. by split. }
    destruct (Hclosed j Hj) as (i' & Hb' & Hi').
    assert (i' = i) as -> by by eapply blocks_injective.
    destruct Hi' as [?|[_ ?]]; [done|congruence].
Qed.

Lemma ready_after i st ready' :
  sched_inv None st -> ready_exact st -> ready st = i :: ready' ->
  forall st', pending st' = <[i := false]> (pending st) -> ready st' = ready' ->
  ready_exact
    (mkLoop (pending st') (remaining st') (remaining_indices st')
       match predecessor predecessors i with
       | Some predecessor =>
           if is_pending predecessor st' then bs_insert predecessor (ready st') else ready st'
       | None => ready st'
       end (reserved st') (schedule st')).
Proof.
  intros Hinv [Hsort Hre] Hcons st' Hp' Hr'. rewrite Hcons in Hsort, Hre.
  apply StronglySorted_inv in Hsort as Hsort'. destruct Hsort' as [Hs' Hmin].
  assert (pending st !! i = Some true) as Hi by (apply Hre; by left).
  assert (i < length (pending st))%nat as Hil by by eapply lookup_lt_Some.
  assert (i ∉ ready') as Hni.
  { intros Hin. apply bs_sorted_NoDup, NoDup_cons in Hsort as [? _]. done. }
  assert (forall j, pending st' !! j = Some false <-> pending st !! j = Some false \/ j = i) as Hdone.
  { intros j. rewrite Hp'. destruct (decide (j = i)) as [->|].
    - rewrite list_lookup_insert_eq by done. naive_solver.
    - rewrite list_lookup_insert_ne by done. naive_solver. }
  assert (forall j, pending st' !! j = Some true <-> pending st !! j = Some true /\ j <> i) as Hpend.
  { intros j. rewrite Hp'. destruct (decide (j = i)) as [->|].
    - rewrite list_lookup_insert_eq by done. naive_solver.
    - rewrite list_lookup_insert_ne by done. naive_solver. }
  assert (forall k, (pending st' !! k = Some true /\ forall j, blocks j k -> pending st' !! j = Some false)
    <-> k ∈ ready' \/ (pending st' !! k = Some true /\ blocks i k)) as Hgoal.
  { intros k. rewrite Hpend. split.
    - intros [[Hk Hki] Hb]. destruct (blocker k) as [j|] eqn:Hbk.
      + apply blocker_blocks in Hbk; [|by eapply pending_lt].
        destruct (proj1 (Hdone j) (Hb j Hbk)) as [Hj| ->]; [|by right].
        left. assert (k ∈ i :: ready') as [?|?]%elem_of_cons; [|done|done].
        apply Hre. split; [done|]. intros j' Hj'. by rewrite (blocks_functional j' j k Hj' Hbk).
      + left. assert (k ∈ i :: ready') as [?|?]%elem_of_cons; [|done|done].
        apply Hre. split; [done|]. intros j' Hj'.
        apply blocker_blocks in Hj'; [congruence|by eapply pending_lt].
    - intros [Hk|[[Hk Hki] Hb]].
      + assert (k ∈ i :: ready') as Hk' by by right. apply Hre in Hk' as [Hk1 Hk2].
        split; [split; [done|]; by intros ->|]. intros j Hj. apply Hdone. left. by apply Hk2.
      + split; [done|]. intros j Hj. apply Hdone. right. by eapply blocks_functional. }
  unfold ready_exact. simpl. destruct (predecessor predecessors i) as [p|] eqn:Hpred.
  - apply (predecessor_blocks predecessors Hlinked) in Hpred as Hb. unfold is_pending.
    destruct (default false (pending st' !! p)) eqn:Hpp; rewrite Hr'.
    + assert (pending st' !! p = Some true) as Hpt.
      { destruct (pending st' !! p) as [[]|]; done. }
      split; [by apply bs_insert_sorted|]. intros k. rewrite Hgoal, elem_of_bs_insert. split.
      * intros [->|?]; [right|by left]. done.
      * intros [?|[_ Hbk]]; [by right|left]. by eapply blocks_injective.
    + split; [done|]. intros k. rewrite Hgoal. split; [by left|]. intros [?|[Hk Hbk]]; [done|].
      assert (k = p) as -> by by eapply blocks_injective. by rewrite Hk in Hpp.
  - rewrite Hr'. split; [done|]. intros k. rewrite Hgoal. split; [by left|].
    intros [?|[_ Hbk]]; [done|]. apply (predecessor_blocks predecessors Hlinked) in Hbk. congruence.
Qed.

Lemma wp_schedule_loop fuel st :
  sched_inv None st -> ready_exact st -> (remaining st <= fuel)%nat ->
  wp (schedule_loop plan predecessors fuel st)
    (fun st' => sched_inv None st' /\ remaining st' = 0%nat).
Proof.
  revert st. induction fuel as [|fuel IH]; intros st Hinv Hre Hf; cbn [schedule_loop];
    destruct (remaining st) as [|rem] eqn:Hrem; try (by apply wp_ret); [lia|].
  apply wp_bind, wp_check_cancelled. destruct (ready st) as [|i ready'] eqn:Hready.
  - pose proof (nothing_ready st Hinv Hre Hready) as Hab.
    destruct (remaining_indices st) as [|pivot rest] eqn:Hidx.
    { rewrite (si_count _ _ Hinv), Hidx in Hrem. done. }
    apply wp_bind. eapply (wp_result _ _ pivot); [done|]. apply wp_bind.
    eapply wp_mono; [apply wp_schedule_cycle; try done|].
    { apply (si_indices _ _ Hinv). rewrite Hidx. by left. }
    intros st' (Hinv' & Hre' & Hlt). apply IH; [done|done|lia].
  - assert (i ∈ ready st) as Hi by (rewrite Hready; by left).
    destruct Hre as [Hs Hre']. apply Hre' in Hi as [Hi Hdep].
    apply wp_bind.
    set (st1 := mkLoop (pending st) (S rem) (remaining_indices st) ready' (reserved st) (schedule st)).
    assert (sched_inv None st1) as Hinv1.
    { destruct Hinv. split; try done. simpl. congruence. }
    destruct (direct_ok None st1 i Hinv1 Hi) as (st' & Hd & Hinv' & Hp' & Hr' & Hrem'); [by intros []| |].
    { intros k Hk. left. exact (Hdep k Hk). }
    eapply wp_result; [exact Hd|]. apply IH.
    + by destruct Hinv'.
    + exact (ready_after i st ready' Hinv (conj Hs Hre') Hready st' Hp' Hr').
    + simpl. rewrite Hrem'. simpl. lia.
Qed.
End main_loop.

(** *** The schedule *)

(** Every row is at its destination, every source without a new occupant is
    free, and nothing else changed. *)
Definition arrived (v : view) : Prop :=
  (forall r e, r ∈ rows -> snapshot_entry (source_snapshot r) = Some e ->
     v (key_of (row_destination r)) = Some (observed_identity e)) /\
  forall k, (forall r, r ∈ rows -> k <> key_of (row_destination r)) ->
    v k = if bool_decide (k ∈ map (key_of ∘ row_source) rows) then None else v0 k.

Lemma placed_arrived pos u :
  (forall i, (i < n)%nat -> pos i = dkey i) -> placed pos u -> arrived u.
Proof.
  intros Hpos Hpl. apply (placed_ext _ dkey) in Hpl; [|done]. destruct Hpl as [H1 H2 _ _].
  split.
  - intros r e Hr He. apply list_elem_of_lookup in Hr as [i Hi].
    assert (i < n)%nat as Hin by by eapply lookup_lt_Some.
    rewrite (po_destination Hplan r) by (by eapply list_elem_of_lookup_2).
    specialize (H1 i Hin). unfold destination_key_at, identity_at in H1.
    rewrite Hi in H1. simpl in H1. by rewrite He in H1.
  - intros k Hk. rewrite H2.
    + unfold base. assert (map (loc ∘ source_entry_key) rows = map (key_of ∘ row_source) rows) as ->; [|done].
      apply map_ext_in. intros r Hr. symmetry. apply (po_source Hplan). by apply list_elem_of_In.
    + intros i Hi ->. destruct (row_lt i Hi) as (r & _ & Hr & _ & Hd & _). apply (Hk r Hr).
      by rewrite (po_destination Hplan r Hr), Hd.
Qed.

Lemma wp_build_schedule :
  wp (build_schedule_cancellable plan)
    (fun steps => (exists v, moves key_of v0 steps v /\ arrived v) /\ exists pos, trail skey steps pos).
Proof.
  unfold build_schedule_cancellable.
  apply wp_bind, wp_poll_each, wp_bind, wp_poll_each, wp_bind.
  apply wp_insert_owners; [done|intros k i; simpl; split; [done|lia]|]. intros owners Ho.
  apply wp_bind. apply wp_link_dependencies; [done|done| |].
  { split; [by rewrite length_map|]. intros j i. split; [|lia].
    rewrite list_lookup_fmap. by destruct (rows !! j). }
  intros deps preds Hlinked Hlen Hdeps. rewrite length_map in Hlen. apply wp_bind.
  apply wp_initial_ready; [constructor|constructor|]. intros rem ready Hsr Hsy Hrem Hready.
  set (reserved := bs_extend _ _). set (st0 := mkLoop _ _ _ _ _ _).
  assert (forall i, pending st0 !! i = Some true <-> (i < n)%nat) as Hpend.
  { intros i. simpl. rewrite list_lookup_fmap. split.
    - rewrite fmap_Some. intros (r & Hr & _). by eapply lookup_lt_Some.
    - intros [r ->]%lookup_lt_is_Some_2. done. }
  assert (forall i, pending st0 !! i <> Some false) as Hnd.
  { intros i. simpl. rewrite list_lookup_fmap. by destruct (rows !! i). }
  assert (forall i, i ∈ rem <-> (i < n)%nat) as Hrem'.
  { intros i. rewrite (Hrem i), Hlen. split; [|intros; right; lia].
    intros [?%not_elem_of_nil|?]; [done|lia]. }
  assert (sched_inv None st0) as Hinv.
  { split; simpl; try done.
    - by rewrite length_map.
    - intros i. rewrite Hrem'. symmetry. apply Hpend.
    - assert (rem ≡ₚ seq 0 n) as ->; [|by rewrite length_seq].
      apply NoDup_Permutation; [by apply bs_sorted_NoDup|apply NoDup_seq|].
      intros i. rewrite Hrem', elem_of_seq. lia.
    - intros i (r & _ & Hr & -> & -> & _)%row_lt. unfold reserved. rewrite !elem_of_bs_extend.
      split; left; apply elem_of_app; [left|right]; apply list_elem_of_fmap; by exists r.
    - exists v0. split; [done|].
      apply (placed_ext skey).
      { intros i Hi. unfold at_pos. pose proof (proj2 (Hpend i) Hi) as Hp. simpl in Hp. by rewrite Hp. }
      split.
      + intros i (r & Hr & Hrin & -> & _)%row_lt. destruct (po_identity Hplan r Hrin) as [e He].
        unfold identity_at. rewrite Hr. simpl. rewrite He. simpl. by apply (po_present Hplan).
      + intros k Hk. unfold base. rewrite bool_decide_false; [done|].
        intros (r & -> & Hr)%list_elem_of_fmap. apply list_elem_of_lookup in Hr as [i Hi].
        apply (Hk i); [by eapply lookup_lt_Some|]. unfold source_key_at. by rewrite Hi.
      + intros i Hi. split; [by apply key_known|by apply base_source].
      + apply skey_inj.
    - constructor. intros i Hi. unfold at_pos. pose proof (proj2 (Hpend i) Hi) as Hp. simpl in Hp.
      by rewrite Hp. }
  assert (ready_exact st0) as Hre.
  { split; [done|]. intros i. etransitivity; [apply (Hready i)|]. rewrite Hpend. split.
    - intros [?%not_elem_of_nil|(m & Hm & ->)]; [done|]. apply Hdeps in Hm as [Hm Hnb].
      split; [done|]. intros j Hj. by destruct (Hnb j).
    - intros [Hi Hb]. right. exists i. split; [|done]. apply Hdeps. split; [done|].
      intros j Hj. by apply (Hnd j), Hb. }
  apply wp_bind. eapply wp_mono; [by apply (wp_schedule_loop preds Hlinked)|].
  intros st [Hfinal Hzero]. apply wp_ret.
  split; [|eexists; apply (si_trail _ _ Hfinal)].
  destruct (si_view _ _ Hfinal) as (u & Hm & Hpl). exists u. split; [done|].
  eapply placed_arrived; [|exact Hpl]. intros i Hi. unfold at_pos.
  destruct (lookup_lt_is_Some_2 (pending st) i) as [b Hb]; [by rewrite (si_len _ _ Hfinal)|].
  rewrite Hb. destruct b; [|done]. exfalso. apply (si_indices _ _ Hfinal) in Hb.
  rewrite (si_count _ _ Hfinal) in Hzero. destruct (remaining_indices st); [|done].
  by apply not_elem_of_nil in Hb.
Qed.
End correctness.

(** ** Properties *)

(** C15: for a plan that describes a filesystem (its sources are distinct and so are
    its destinations, every row has the source entry it was observed with, a
    destination that is no source is free, and the entry keys tell where the paths
    lie) and a backend whose answers agree with that filesystem (a path observed as
    empty is free, and the key of a temporary name tells where it lies), the
    scheduler never fails with [ScheduleInvalid], and a schedule it returns can be
    executed from that filesystem: every move finds its row at the move's source and
    the move's destination free, cycles going through a fresh temporary name; after
    the last move every row is at its destination and no other path has changed. *)
Theorem build_schedule_arrives {W} (handle : forall X, effect X -> W -> X * W) (I : W -> Prop)
    plan loc known key_of v0 answers w r w' :
  plan_observed plan loc known key_of v0 answers ->
  (forall X (e : effect X) w x w',
     quiet_effect e -> I w -> handle X e w = (x, w') -> answers X e x /\ I w') ->
  I w -> run handle (build_schedule_cancellable plan) w = (r, w') ->
  match r with
  | Ok steps => exists v, moves key_of v0 steps v /\ arrived plan key_of v0 v
  | Err e => e <> ScheduleInvalid
  end.
Proof.
  intros Hplan Hh HI Hr. eapply wp_run; [apply build_schedule_quiet|exact Hh| |exact HI|exact Hr].
  eapply wp_mono; [by eapply wp_build_schedule|]. by intros steps [? _].
Qed.
