(* ===== verification/Tracking.v ===== *)
(** * Tracking: where each row is along a schedule

    A schedule computed for a plan moves every row from where it was left: the
    source of a step is the destination of the row's previous step, or the
    source the plan gave it.  Recovery relies on this to reconstruct from the
    journal's manifest alone which paths were occupied before the first move. *)

From S2P Require Import Prelude Collections LegacyText RenameModel Journal Effects.
From S2P Require Import Schedule Executor Reading ExecutorSafety ScheduleCorrect.

Section tracking.
Variable key_of : LegacyText -> list Z.

(** Where [steps] leave row [e] that started at [pos e]. *)
Definition position_after (pos : EntryId -> list Z) (steps : list ScheduleStep) (e : EntryId)
  : list Z :=
  fold_left (fun p s => if entry s =? e then key_of (destination s) else p) steps (pos e).

Record tracked (v0 : view) (pos : EntryId -> list Z) (steps : list ScheduleStep) : Prop :=
  mkTracked {
  tracked_moves : exists v, moves key_of v0 steps v;
  tracked_source : forall k s, steps !! k = Some s ->
    key_of (source s) = position_after pos (take k steps) (entry s);
  tracked_start : forall s, s ∈ steps -> v0 (pos (entry s)) = Some (identity s)
}.

Definition touches (x : list Z) (s : ScheduleStep) : Prop :=
  key_of (source s) = x \/ key_of (destination s) = x.
(** The first step of its row. *)
Definition first_of_row (steps : list ScheduleStep) (k : nat) (s : ScheduleStep) : Prop :=
  steps !! k = Some s /\ entry s ∉ map entry (take k steps).

Lemma position_after_snoc pos steps s e :
  position_after pos (steps ++ [s]) e =
  if entry s =? e then key_of (destination s) else position_after pos steps e.
Proof. unfold position_after. by rewrite fold_left_app. Qed.

Lemma position_after_cases pos steps e :
  (e ∉ map entry steps /\ position_after pos steps e = pos e) \/
  exists s, s ∈ steps /\ entry s = e /\ position_after pos steps e = key_of (destination s).
Proof.
  induction steps as [|s steps IH] using rev_ind.
  { left. split; [apply not_elem_of_nil|done]. }
  rewrite position_after_snoc. destruct (Z.eqb_spec (entry s) e) as [He|He].
  { right. exists s. split_and!; [set_solver|done|done]. }
  destruct IH as [[Hn ->]|(t & Ht & Hte & ->)].
  - left. split; [|done]. rewrite map_app. simpl. set_solver.
  - right. exists t. split_and!; [set_solver|done|done].
Qed.

(** ** Prefixes of a run of moves *)

Lemma moves_app_inv v l l' w :
  moves key_of v (l ++ l') w -> exists u, moves key_of v l u /\ moves key_of u l' w.
Proof.
  revert v. induction l as [|s l IH]; intros v; simpl.
  - intros H. exists v. by split.
  - intros (u & Hu & (u' & H1 & H2)%IH). exists u'. split; [|done]. by exists u.
Qed.
Lemma moves_prefix v l w k : moves key_of v l w -> exists u, moves key_of v (take k l) u.
Proof. rewrite <-(take_drop k l) at 1. intros (u & Hu & _)%moves_app_inv. by exists u. Qed.
Lemma moves_lookup v l w k s :
  moves key_of v l w -> l !! k = Some s ->
  exists u u', moves key_of v (take k l) u /\
    moved u u' (key_of (source s)) (key_of (destination s)) (identity s) /\
    moves key_of v (take (S k) l) u'.
Proof.
  intros Hm Hs. rewrite <-(take_drop_middle l k s Hs) in Hm.
  apply moves_app_inv in Hm as (u & Hu & u' & Hm & _). exists u, u'. split_and!; [done|done|].
  rewrite (take_S_r _ _ _ Hs). by eapply moves_snoc.
Qed.
Lemma moves_unique v steps w w' :
  moves key_of v steps w -> moves key_of v steps w' -> view_eq w w'.
Proof.
  revert v. induction steps as [|s steps IH]; intros v; simpl.
  - intros H H'. by rewrite <-H.
  - intros (u & (_ & _ & Hd & Hs & Ho) & H) (u' & (_ & _ & Hd' & Hs' & Ho') & H').
    apply (IH u); [done|]. assert (view_eq u' u) as Hu; [|destruct steps; simpl in *].
    { intros k. destruct (decide (k = key_of (destination s))) as [->|Hkd]; [congruence|].
      destruct (decide (k = key_of (source s))) as [->|Hks]; [congruence|].
      rewrite Ho, Ho' by done. done. }
    + by rewrite <-Hu.
    + destruct H' as (u2 & Hm & H'). exists u2. split; [|done]. by rewrite <-Hu.
Qed.
Lemma moves_elsewhere v l w x :
  moves key_of v l w -> (forall s, s ∈ l -> ~ touches x s) -> w x = v x.
Proof.
  revert v. induction l as [|s l IH]; intros v; simpl.
  - intros H _. symmetry. apply H.
  - intros (u & (_ & _ & _ & _ & Ho) & Hm) Hn. rewrite (IH u Hm) by set_solver.
    apply Ho; intros ->; apply (Hn s); try set_solver; [by left|by right].
Qed.
Lemma moved_reverse v w source destination i :
  moved v w source destination i -> moved w v destination source i.
Proof. intros (? & ? & ? & ? & H). split_and!; try done. intros k ? ?. by rewrite H. Qed.

(** ** Occupied endpoints are where a row starts *)

Section fixed.
Variables (v0 : view) (pos : EntryId -> list Z) (steps : list ScheduleStep).
Hypothesis Htracked : tracked v0 pos steps.

Lemma first_source k s :
  first_of_row steps k s -> v0 (key_of (source s)) = Some (identity s).
Proof using Htracked.
  intros [Hs Hn]. rewrite (tracked_source _ _ _ Htracked _ _ Hs).
  destruct (position_after_cases pos (take k steps) (entry s)) as [[_ ->]|(t & Ht & Hte & _)].
  - apply (tracked_start _ _ _ Htracked). by eapply list_elem_of_lookup_2.
  - exfalso. apply Hn. rewrite <-Hte. apply list_elem_of_fmap. by exists t.
Qed.

Lemma occupied_start x i k :
  v0 x = Some i ->
  (forall s, s ∈ take k steps -> ~ touches x s) \/
  exists j s, first_of_row steps j s /\ key_of (source s) = x.
Proof using Htracked.
  intros Hx. induction k as [|k IH]; [left; set_solver|].
  destruct IH as [IH|IH]; [|by right].
  destruct (steps !! k) as [s|] eqn:Hs.
  2: { left. intros s. rewrite take_ge by (apply lookup_ge_None in Hs; lia).
       rewrite <-(take_ge steps k) by (by apply lookup_ge_None). apply IH. }
  destruct (tracked_moves _ _ _ Htracked) as (v & Hv).
  destruct (moves_lookup _ _ _ _ _ Hv Hs) as (u & u' & Hu & (_ & Hfree & _) & _).
  destruct (decide (key_of (source s) = x)) as [Hsx|Hsx].
  - right. exists k, s. split; [|done]. split; [done|]. intros Hin.
    rewrite (tracked_source _ _ _ Htracked _ _ Hs) in Hsx.
    destruct (position_after_cases pos (take k steps) (entry s)) as [[? _]|(t & Ht & _ & Hp)]; [done|].
    apply (IH t Ht). right. congruence.
  - left. rewrite (take_S_r _ _ _ Hs). intros t [Ht| ->%list_elem_of_singleton]%elem_of_app;
      [by apply IH|]. intros [?|Hd]; [done|].
    rewrite Hd, (moves_elsewhere _ _ _ _ Hu IH) in Hfree. congruence.
Qed.
End fixed.
End tracking.

(** ** The schedules of a plan are tracked *)

(** Where the plan puts the row with identifier [e]. *)
Definition plan_position (plan : RenamePlan) (loc : PathKey -> list Z) (e : EntryId) : list Z :=
  match List.find (fun r => row_id r =? e) (plan_entries plan) with
  | Some r => loc (source_entry_key r)
  | None => []
  end.

Section plans.
Variables (plan : RenamePlan) (loc : PathKey -> list Z) (known : PathKey -> Prop).
Variables (key_of : LegacyText -> list Z) (v0 : view).
Variable answers : forall X, effect X -> X -> Prop.
Hypothesis Hplan : plan_observed plan loc known key_of v0 answers.
Hypothesis Hids : NoDup (map row_id (plan_entries plan)).
Abbreviation rows := (plan_entries plan).

Lemma row_id_inj i j ri rj :
  rows !! i = Some ri -> rows !! j = Some rj -> row_id ri = row_id rj -> i = j.
Proof using Hids.
  intros Hi Hj Heq. eapply NoDup_lookup; [exact Hids| |]; rewrite list_lookup_fmap.
  - by rewrite Hi.
  - by rewrite Hj, Heq.
Qed.
Lemma plan_position_row i r :
  rows !! i = Some r -> plan_position plan loc (row_id r) = loc (source_entry_key r).
Proof using Hids.
  intros Hr. unfold plan_position.
  destruct (List.find _ _) as [r'|] eqn:Hf.
  - apply find_some in Hf as [Hin%list_elem_of_In Heq%Z.eqb_eq].
    apply list_elem_of_lookup in Hin as [j Hj].
    assert (j = i) as -> by by eapply row_id_inj. congruence.
  - eapply find_none in Hf; [|by apply list_elem_of_In, (list_elem_of_lookup_2 _ i)].
    by rewrite Z.eqb_refl in Hf.
Qed.

Lemma trail_positions steps pos :
  trail plan loc key_of (source_key_at plan) steps pos ->
  (forall i r, rows !! i = Some r ->
     position_after key_of (plan_position plan loc) steps (row_id r) = loc (pos i)) /\
  (forall k s, steps !! k = Some s ->
     key_of (source s) = position_after key_of (plan_position plan loc) (take k steps) (entry s)) /\
  (forall s, s ∈ steps -> v0 (plan_position plan loc (entry s)) = Some (identity s)).
Proof using Hplan Hids.
  induction 1 as [pos Hpos|steps pos i r q s pos' Htrail (IH1 & IH2 & IH3) Hr He Hi Hsrc Hdst Hpos'].
  - split_and!; [|done|by intros ? ?%not_elem_of_nil].
    intros i r Hr. unfold position_after. simpl. rewrite (plan_position_row _ _ Hr).
    rewrite Hpos by by eapply lookup_lt_Some. unfold source_key_at. by rewrite Hr.
  - split_and!.
    + intros j rj Hj. rewrite position_after_snoc, He.
      rewrite Hpos' by by eapply lookup_lt_Some. unfold relocate.
      destruct (Z.eqb_spec (row_id r) (row_id rj)) as [Heq|Hne].
      * assert (i = j) as -> by by eapply row_id_inj. by rewrite decide_True by done.
      * rewrite decide_False by congruence. by apply IH1.
    + intros k t Ht. destruct (decide (k < length steps)%nat) as [Hk|Hk].
      * rewrite lookup_app_l in Ht by done. rewrite take_app_le by lia. by apply IH2.
      * assert (k = length steps) as ->.
        { apply lookup_lt_Some in Ht. rewrite length_app in Ht. simpl in Ht. lia. }
        rewrite list_lookup_middle in Ht by done. injection Ht as <-.
        rewrite take_app_length, He, Hsrc. symmetry. by apply IH1.
    + intros t [Ht| ->%list_elem_of_singleton]%elem_of_app; [by apply IH3|].
      assert (r ∈ rows) as Hin by by eapply list_elem_of_lookup_2.
      destruct (po_identity _ _ _ _ _ _ Hplan r Hin) as [e Hsome].
      rewrite He, (plan_position_row _ _ Hr), Hi, (po_present _ _ _ _ _ _ Hplan r e Hin Hsome).
      unfold identity_at. rewrite Hr. simpl. by rewrite Hsome.
Qed.

Lemma scheduled_tracked steps pos v :
  moves key_of v0 steps v -> trail plan loc key_of (source_key_at plan) steps pos ->
  tracked key_of v0 (plan_position plan loc) steps.
Proof using Hplan Hids.
  intros Hm (_ & H2 & H3)%trail_positions. split; [by exists v|done|done].
Qed.
End plans.
