(* ===== verification/Transaction.v ===== *)
(** * Transaction: the whole of [execute_with_control]

    Everything before [journal.begin] only reads: it leaves the journal empty
    and the filesystem as it was.  From there on ExecutorSafety applies. *)

From S2P Require Import Prelude Collections LegacyText RenameModel Journal Effects.
From S2P Require Import Schedule Codec Executor Reading MemoryBackend ExecutorSafety.
From S2P Require Import ScheduleCorrect Tracking.

(** ** The transaction *)

Section transaction.
Context {B J K : Type} `{HB : RenameBackend B, HJ : JournalStore J, HK : ExecutionControl K}.
Context `{!RenameBackendLaws B, !JournalStoreLaws J}.

(** The schedule a run of the scheduler computed before anything was done. *)
Definition scheduled (key_of : LegacyText -> list Z) (v0 : view) (plan : RenamePlan)
    (steps : list ScheduleStep) : Prop :=
  exists w0 w1 : World B J K, untouched key_of v0 w0 /\
    run handle (build_schedule_cancellable plan) w0 = (Ok steps, w1).

Section fixed.
Variables (key_of : LegacyText -> list Z) (v0 : view).
Abbreviation untouched := (untouched (B:=B) (J:=J) (K:=K) key_of v0).

Lemma handle_quiet X (e : effect X) w x w' :
  quiet_effect e -> untouched w -> handle _ e w = (x, w') -> untouched w'.
Proof.
  intros He (Hj & Hk & Hv). destruct e; try done; cbn [handle]; unfold on_control, on_backend.
  - destruct (cancellation_requested _). by intros [= <- <-].
  - destruct (begin_transaction _). by intros [= <- <-].
  - by intros [= <- <-].
  - by intros [= <- <-].
  - by intros [= <- <-].
  - by intros [= <- <-].
  - destruct (next_transaction_nonce _) as [r b] eqn:Hn. intros [= <- <-].
    destruct (nonce_keeps _ _ _ Hn) as [Hk' Hv']. split_and!; [done| |]; simpl.
    + intros q. simpl. by rewrite Hk'.
    + intros k. by rewrite Hv'.
Qed.

Lemma quiet_safe {A} (p : prog effect A) w :
  quiet p -> untouched w -> safe handle untouched (fun _ => untouched) p w.
Proof.
  revert w. induction p as [a|X e k IH]; intros w Hq Hw; [by apply safe_ret|].
  destruct Hq as [He Hq]. apply safe_vis; [done|]. intros x w' Hh. apply IH; [done|].
  by eapply handle_quiet.
Qed.

(** What has been checked before the transaction begins. *)
Definition cleared (plan : RenamePlan) (steps : list ScheduleStep) : Prop :=
  NoDup (map row_id (plan_entries plan)) /\
  Forall (fun s => authorization_error (forward_operation s) = None) steps.

Lemma index_entries_NoDup entries acc indexed :
  index_entries entries acc = Ok indexed ->
  NoDup (map row_id entries) /\
  forall e, e ∈ map row_id entries -> bm_get e (by_id acc) = None.
Proof.
  revert acc. induction entries as [|r entries IH]; intros acc; simpl.
  { intros _. split; [constructor|]. by intros e ?%not_elem_of_nil. }
  destruct (bm_get (row_id r) (by_id acc)) eqn:Hr; [done|].
  intros [Hn Hg]%IH. simpl in Hg.
  assert (row_id r ∉ map row_id entries) as Hnew.
  { intros Hin%Hg. by rewrite bm_get_insert_eq in Hin. }
  split; [by constructor|]. intros e [-> |Hin]%elem_of_cons; [done|].
  specialize (Hg e Hin). rewrite bm_get_insert_ne in Hg; [done|by intros ->].
Qed.
Lemma for_each_authorized l (w w' : World B J K) :
  run handle (for_each authorize_step l) w = (Ok tt, w') ->
  Forall (fun s => authorization_error (forward_operation s) = None) l.
Proof.
  revert w. induction l as [|s l IH]; intros w; [constructor|]. cbn [for_each].
  rewrite run_mbind. unfold authorize_step at 1.
  destruct (authorization_error (forward_operation s)) eqn:Ha; [by intros [=]|]. intros Hr.
  constructor; [done|]. exact (IH _ Hr).
Qed.
Lemma freeze_authorized entries steps indexed (w w' : World B J K) :
  run handle (freeze entries steps indexed) w = (Ok tt, w') ->
  Forall (fun s => authorization_error (forward_operation s) = None) steps.
Proof.
  unfold freeze. rewrite !run_mbind. destruct (run _ _ w) as [[[]|e] w1]; [|done].
  rewrite run_mbind. destruct (run _ _ w1) as [[[]|e] w2]; [|done]. apply for_each_authorized.
Qed.

(** The invariant of the whole transaction, and its result. *)
Definition transaction_ok (plan : RenamePlan) (w : World B J K) : Prop :=
  untouched w \/
  exists steps, scheduled key_of v0 plan steps /\ cleared plan steps /\
    crash_ok key_of v0 (plan_id plan) steps w.
Definition transaction_post (plan : RenamePlan) (r : result ExecuteError ExecutionReport)
    (w : World B J K) : Prop :=
  match r with
  | Ok report => exists steps, scheduled key_of v0 plan steps /\ outcome_ok key_of v0 steps report w /\
      crash_ok key_of v0 (plan_id plan) steps w
  | Err _ => untouched w
  end.

(** [records] accounts for the occupation [v]: it begins with the intent of [steps],
    the first [k] moves of [steps] were done and no others, and its replay determines
    [k], up to the one move it reports prepared; a clean replay means none or all. *)
Definition accounts_for (plan : RenamePlan) (steps : list ScheduleStep) (records : list JournalRecord)
    (v : view) : Prop :=
  exists k, head records = Some (Intent (plan_id plan) (map journal_step steps)) /\
    moves key_of v0 (take k steps) v /\ recovery_accounts (plan_id plan) steps k (replay_journal records).
(** What an interrupted transaction leaves. *)
Definition left_behind (plan : RenamePlan) (records : list JournalRecord) (v : view) : Prop :=
  (records = [] /\ forall q, v q = v0 q) \/
  exists steps, scheduled key_of v0 plan steps /\ accounts_for plan steps records v.

Lemma crash_ok_accounts plan steps (w : World B J K) :
  crash_ok key_of v0 (plan_id plan) steps w ->
  (journal_records (journal w) = [] /\ forall q, occupant (backend w) q = v0 q) \/
  accounts_for plan steps (journal_records (journal w)) (occupant (backend w)).
Proof.
  intros Hc. destruct (crash_ok_replay _ _ _ _ _ Hc) as (k & [_ Hm] & Ha).
  destruct Hc as [[Hj [_ Hv]]|(st & _ & _ & _ & (recs & Hrecs & _) & _)].
  - left. split; [done|]. intros q. symmetry. apply Hv.
  - right. exists k. split; [by rewrite Hrecs|done].
Qed.
Lemma transaction_left plan (w : World B J K) :
  transaction_ok plan w -> left_behind plan (journal_records (journal w)) (occupant (backend w)).
Proof.
  intros [(Hj & _ & Hv)|(steps & Hs & _ & Hc)]; [left|].
  - split; [done|]. intros q. symmetry. apply Hv.
  - destruct (crash_ok_accounts _ _ _ Hc) as [H|H]; [by left|right; eauto].
Qed.

(** The phases of [execute_with_control] for any invariant [T] that untouched
    worlds satisfy: the reading prefix refuses or goes on, an empty schedule ends
    at once, and the rest starts with the commit point of the cancellation. *)
Section phases.
Variables (plan : RenamePlan) (T : World B J K -> Prop).
Variable Q : result ExecuteError ExecutionReport -> World B J K -> Prop.
Hypothesis untouched_T : forall w, untouched w -> T w.
Hypothesis refused_Q : forall e w, untouched w -> Q (Err e) w.

Lemma quiet_then {E A} (p : Prog effect E A) (f : A -> Prog effect E ExecutionReport)
    (Q' : result E ExecutionReport -> World B J K -> Prop) w :
  quiet p -> untouched w ->
  (forall a w', run handle p w = (Ok a, w') -> untouched w' -> safe handle T Q' (f a) w') ->
  (forall e w', untouched w' -> Q' (Err e) w') ->
  safe handle T Q' (p ≫= f) w.
Proof using untouched_T.
  intros Hq Hw Hf He.
  eapply safe_bind.
  - eapply (safe_weaken _ _ _ _ (fun r w' => untouched w' /\ run handle p w = (r, w'))).
    + apply safe_self. by apply quiet_safe.
    + intros w' ?. by apply untouched_T.
    + done.
  - intros [a|e] w' HI [Hu Hr]; [by eapply Hf|]. apply safe_ret; [done|by apply He].
Qed.

Definition commit_and_run (steps : list ScheduleStep) (entries : IndexedEntryExecutions)
  : Prog effect ExecuteError ExecutionReport :=
  began ← lift_prog (call BeginTransaction);
  if began : bool then begin_and_run (plan_id plan) steps (map journal_step steps) entries
  else throw cancelled_before_begin.

Lemma execute_phases w :
  untouched w ->
  (forall entries w', untouched w' -> scheduled key_of v0 plan [] ->
     Q (Ok (mkReport (plan_id plan) OutcomeCompleted (values entries))) w') ->
  (forall steps entries w', untouched w' -> scheduled key_of v0 plan steps -> cleared plan steps ->
     safe handle T Q (commit_and_run steps entries) w') ->
  safe handle T Q (execute_with_control plan) w.
Proof using untouched_T refused_Q.
  intros Hw Hempty Hrun. unfold execute_with_control.
  apply quiet_then; [auto with quiet|done| |done]. intros [] w1 _ Hw1.
  apply quiet_then; [done|done| |done]. intros entries w2 Hent Hw2.
  apply quiet_then; [auto with quiet|done| |done]. intros steps w3 Hsched Hw3.
  assert (scheduled key_of v0 plan steps) as Hs.
  { exists w2, w3. split; [done|]. unfold map_prog_err in Hsched. rewrite run_bind in Hsched.
    destruct (run handle (build_schedule_cancellable plan) w2) as [[steps'|e] w'] eqn:Hr;
      simpl in Hsched; [|done]. by injection Hsched as -> ->. }
  clear Hsched.
  apply quiet_then; [done|done| |done]. intros [] w4 _ Hw4.
  apply quiet_then; [auto with quiet|done| |done]. intros manifest w6 Hman Hw6.
  apply quiet_then; [done|done| |done]. intros requirements w7 _ Hw7.
  apply quiet_then; [auto with quiet|done| |done]. intros [] w8 Hfr Hw8.
  apply quiet_then; [auto with quiet|done| |done]. intros [] w9 _ Hw9.
  apply quiet_then; [by split|done| |done]. intros [] w10 _ Hw10.
  assert (manifest = map journal_step steps) as ->.
  { clear -Hman. revert manifest w4 w6 Hman. induction steps as [|t steps IH]; intros manifest w5 w6.
    - by intros [= <- _].
    - cbn [build_manifest]. rewrite run_mbind.
      destruct (run handle refuse_if_cancelled w5) as [[[]|e] w'] eqn:Hr; [|done].
      rewrite run_mbind. destruct (run handle (build_manifest steps) w') as [[m|e] w''] eqn:Hm; [|done].
      intros [= <- _]. simpl. f_equal. by eapply IH. }
  destruct steps as [|s steps'].
  - apply safe_ret; [by apply untouched_T|by apply Hempty].
  - apply Hrun; [done|done|]. split; [|by eapply freeze_authorized].
    simpl in Hent. injection Hent as Hent _. by apply index_entries_NoDup in Hent as [? _].
Qed.
End phases.

Lemma execute_safe plan w :
  untouched w ->
  safe handle (transaction_ok plan) (transaction_post plan) (execute_with_control plan) w.
Proof.
  intros Hw. apply execute_phases; [by left|done|done| |].
  - intros entries w' Hw' Hs. exists []. split; [done|]. split; [|by apply untouched_crash_ok].
    split; [by apply untouched_fs|]. by destruct Hw' as [-> _].
  - intros steps entries w' Hw' Hs Hcl. unfold commit_and_run.
    apply quiet_then; [by left|by split|done| |done].
    intros [] w11 _ Hw11; [|by apply safe_ret; [left|]].
    eapply safe_weaken; [apply safe_kept; by apply (begin_and_run_safe key_of v0 (plan_id plan) steps)| |].
    + intros w2 Hc. right. by exists steps.
    + intros [report|e] w2 [Hout Hc]; [|done]. by exists steps.
Qed.
End fixed.
End transaction.

(** ** Completion means arrival *)

Section completion.
Context {B J K : Type} `{HB : RenameBackend B, HJ : JournalStore J, HK : ExecutionControl K}.
Context `{!RenameBackendLaws B, !JournalStoreLaws J}.

(** What the adapters may answer while the filesystem is [v0]. *)
Definition answers_of (key_of : LegacyText -> list Z) (v0 : view) (X : Type) (e : effect X) (x : X)
  : Prop :=
  exists w w' : World B J K, untouched key_of v0 w /\ handle X e w = (x, w').

Lemma scheduled_arrives_along plan loc known key_of v0 steps :
  plan_observed plan loc known key_of v0 (answers_of key_of v0) ->
  scheduled (B:=B) (J:=J) (K:=K) key_of v0 plan steps ->
  (exists v, moves key_of v0 steps v /\ arrived plan key_of v0 v) /\
  exists pos, trail plan loc key_of (source_key_at plan) steps pos.
Proof.
  intros Hplan (w0 & w1 & Hw0 & Hr).
  refine (wp_run _ handle (untouched key_of v0) _ _ w0 (Ok steps) w1 (build_schedule_quiet plan) _
    (wp_build_schedule _ _ _ _ _ _ Hplan) Hw0 Hr).
  intros X e w x w' He Hw Hx. split; [by exists w, w'|]. by eapply handle_quiet.
Qed.
Lemma scheduled_arrives plan loc known key_of v0 steps :
  plan_observed plan loc known key_of v0 (answers_of key_of v0) ->
  scheduled (B:=B) (J:=J) (K:=K) key_of v0 plan steps ->
  exists v, moves key_of v0 steps v /\ arrived plan key_of v0 v.
Proof. intros Hplan Hs. exact (proj1 (scheduled_arrives_along _ _ _ _ _ _ Hplan Hs)). Qed.
End completion.

(** ** A concrete transaction: a swap over the in-memory adapters *)

Definition example_parent : EntryIdentity := mkIdentity 1 7.
Definition example_backend : MemoryBackend :=
  with_parent_identity (text "C:") example_parent
    (with_file (text "C:\b") 11 (with_file (text "C:\a") 10 memory_new)).
Definition example_row (id file : Z) (from to : LegacyText) (occupied : option Z) : PlanRow :=
  mkRow id from to File
    (mkSnapshot example_parent (Some (mkObserved (mkIdentity 1 file) File false)))
    (mkSnapshot example_parent ((fun f => mkObserved (mkIdentity 1 f) File false) <$> occupied))
    (entry_key_from_parts example_parent (path_leaf from))
    (entry_key_from_parts example_parent (path_leaf to)).
Definition example_plan : RenamePlan :=
  mkPlan 5 1 [example_row 0 10 (text "C:\a") (text "C:\b") (Some 11);
              example_row 1 11 (text "C:\b") (text "C:\a") (Some 10)] SameParent.
Definition example_world (requests : list bool)
  : World MemoryBackend MemoryJournal CancellationToken :=
  mkWorld example_backend (memory_journal_new 3) (cancellation_token_new requests).

Lemma example_swap :
  let '(r, w) := run handle (execute_with_control example_plan) (example_world []) in
  (report_outcome <$> r) = Ok OutcomeCompleted /\
  memory_file_id (text "C:\a") (backend w) = Some 11 /\
  memory_file_id (text "C:\b") (backend w) = Some 10 /\ move_attempts (backend w) = 3.
Proof. vm_compute. done. Qed.

(** ** Properties *)

Section properties.
Context {B J K : Type} `{HB : RenameBackend B, HJ : JournalStore J, HK : ExecutionControl K}.
Context `{!RenameBackendLaws B, !JournalStoreLaws J}.

Lemma untouched_start (w : World B J K) :
  journal_records (journal w) = [] ->
  untouched (path_key (backend w)) (occupant (backend w)) w.
Proof. by intros Hj. Qed.

(** C1: crash safety of [execute_with_control], for every lawful backend,
    journal and control.  Wherever the process stops, either nothing was
    journalled and every path is occupied as before, or the journal starts with
    the intent of a schedule computed for this plan and what is on disk is exactly
    the first [k] moves of that same schedule, where the replay of the journal
    determines [k] up to the one move it reports prepared; a journal that replays
    clean means none or all of the moves, and a journal is never left corrupt. *)
Theorem execute_crash_safe plan (w w' : World B J K) :
  journal_records (journal w) = [] ->
  interrupted handle (execute_with_control plan) w w' ->
  (journal_records (journal w') = [] /\ forall q, occupant (backend w') q = occupant (backend w) q) \/
  exists steps k,
    scheduled (B:=B) (J:=J) (K:=K) (path_key (backend w)) (occupant (backend w)) plan steps /\
    head (journal_records (journal w')) = Some (Intent (plan_id plan) (map journal_step steps)) /\
    moves (path_key (backend w)) (occupant (backend w)) (take k steps) (occupant (backend w')) /\
    recovery_accounts (plan_id plan) steps k (replay_journal (journal_records (journal w'))).
Proof.
  intros Hj Hint. pose proof (execute_safe _ _ plan w (untouched_start w Hj)) as Hs.
  apply (safe_interrupted _ _ _ _ _ _ Hs), transaction_left in Hint as [H|(steps & Hsched & k & H)]; [by left|].
  right. by exists steps, k.
Qed.

(** C2: the report of [execute_with_control] tells the truth, for every
    lawful backend, journal and control: an error means that the journal is
    empty and every path is occupied as before; Completed means that every
    move of the schedule was done and the journal is clean; RolledBack means
    that every path is occupied as before and the journal is clean; and
    RecoveryRequired leaves the intent of that schedule in the journal, exactly
    its first [k] moves done, and records that account for [k] up to the one move
    they report prepared, or an empty journal and nothing moved. *)
Theorem execute_outcome plan (w : World B J K) r w' :
  journal_records (journal w) = [] ->
  run handle (execute_with_control plan) w = (r, w') ->
  match r with
  | Err _ => journal_records (journal w') = [] /\
      forall k, occupant (backend w') k = occupant (backend w) k
  | Ok report =>
      exists steps, scheduled (B:=B) (J:=J) (K:=K) (path_key (backend w)) (occupant (backend w)) plan steps /\
      match report_outcome report with
      | OutcomeCompleted =>
          moves (path_key (backend w)) (occupant (backend w)) steps (occupant (backend w')) /\
          replay_journal (journal_records (journal w')) = Clean
      | OutcomeRolledBack _ =>
          (forall k, occupant (backend w') k = occupant (backend w) k) /\
          replay_journal (journal_records (journal w')) = Clean
      | OutcomeRecoveryRequired _ _ =>
          (journal_records (journal w') = [] /\ forall q, occupant (backend w') q = occupant (backend w) q) \/
          exists k,
            head (journal_records (journal w')) = Some (Intent (plan_id plan) (map journal_step steps)) /\
            moves (path_key (backend w)) (occupant (backend w)) (take k steps) (occupant (backend w')) /\
            recovery_accounts (plan_id plan) steps k (replay_journal (journal_records (journal w')))
      end
  end.
Proof.
  intros Hj Hr. pose proof (execute_safe _ _ plan w (untouched_start w Hj)) as Hs.
  apply (safe_run _ _ _ _ _ _ _ Hs) in Hr as [Hpost HI]. destruct r as [report|e].
  - destruct Hpost as (steps & Hsched & Hout & Hc). exists steps. split; [done|].
    unfold outcome_ok in Hout. destruct (report_outcome report) as [|f|f fs].
    + destruct Hout as [[_ Hm] Hclean]. by rewrite take_ge in Hm by done.
    + destruct Hout as [[_ Hm] Hclean]. split; [|done]. intros k. symmetry. apply Hm.
    + exact (crash_ok_accounts _ _ _ _ _ Hc).
  - destruct Hpost as (? & _ & Hv). split; [done|]. intros k. symmetry. apply Hv.
Qed.

(** An execution that reports Completed has put every row of the plan at
    its destination, freed every source nobody moved onto, and left every
    other path as it was, whatever the backend, journal and control, provided
    the plan's snapshots describe the filesystem the execution started from. *)
Theorem completed_arrives plan loc known (w : World B J K) report w' :
  journal_records (journal w) = [] ->
  plan_observed plan loc known (path_key (backend w)) (occupant (backend w))
    (answers_of (B:=B) (J:=J) (K:=K) (path_key (backend w)) (occupant (backend w))) ->
  run handle (execute_with_control plan) w = (Ok report, w') ->
  report_outcome report = OutcomeCompleted ->
  arrived plan (path_key (backend w)) (occupant (backend w)) (occupant (backend w')).
Proof.
  intros Hj Hplan Hr Hc. pose proof (execute_safe _ _ plan w (untouched_start w Hj)) as Hs.
  apply (safe_run _ _ _ _ _ _ _ Hs) in Hr as [(steps & Hsched & Hout & _) _].
  unfold outcome_ok in Hout. rewrite Hc in Hout. destruct Hout as [[_ Hm] _].
  rewrite take_ge in Hm by done.
  destruct (scheduled_arrives _ _ _ _ _ _ Hplan Hsched) as (v & Hmv & Hat & Helse).
  pose proof (moves_unique _ _ _ _ _ Hm Hmv) as Heq. split.
  - intros r e Hr He. rewrite Heq. by apply Hat.
  - intros k Hk. rewrite Heq. by apply Helse.
Qed.
End properties.

(** The swap killed after its first move. *)
Definition example_crash : World MemoryBackend MemoryJournal CancellationToken :=
  (interrupt_after handle 47 (execute_with_control example_plan) (example_world [])).2.

Lemma execute_crash_safe_witness :
  memory_file_id (text "C:\a") (backend example_crash) = None /\
  replay_journal (journal_records (journal example_crash)) <> Clean /\
  exists steps k,
    scheduled (B:=MemoryBackend) (J:=MemoryJournal) (K:=CancellationToken)
      (path_key example_backend) (occupant example_backend) example_plan steps /\
    head (journal_records (journal example_crash)) = Some (Intent 5 (map journal_step steps)) /\
    moves (path_key example_backend) (occupant example_backend) (take k steps)
      (occupant (backend example_crash)) /\
    recovery_accounts 5 steps k (replay_journal (journal_records (journal example_crash))).
Proof.
  split; [vm_compute; reflexivity|]. split; [vm_compute; discriminate|].
  destruct (execute_crash_safe example_plan (example_world []) example_crash) as [[H _]|H];
    [reflexivity|apply interrupt_after_interrupted|vm_compute in H; discriminate H|exact H].
Defined.

Lemma execute_outcome_witness :
  exists r w', run handle (execute_with_control example_plan) (example_world []) = (r, w') /\
    match r with
    | Err _ => journal_records (journal w') = [] /\
        forall k, occupant (backend w') k = occupant example_backend k
    | Ok report =>
        exists steps, scheduled (B:=MemoryBackend) (J:=MemoryJournal) (K:=CancellationToken)
          (path_key example_backend) (occupant example_backend) example_plan steps /\
        match report_outcome report with
        | OutcomeCompleted =>
            moves (path_key example_backend) (occupant example_backend) steps
              (occupant (backend w')) /\
            replay_journal (journal_records (journal w')) = Clean
        | OutcomeRolledBack _ =>
            (forall k, occupant (backend w') k = occupant example_backend k) /\
            replay_journal (journal_records (journal w')) = Clean
        | OutcomeRecoveryRequired _ _ =>
            (journal_records (journal w') = [] /\ forall q, occupant (backend w') q = occupant example_backend q) \/
            exists k,
              head (journal_records (journal w')) = Some (Intent 5 (map journal_step steps)) /\
              moves (path_key example_backend) (occupant example_backend) (take k steps) (occupant (backend w')) /\
              recovery_accounts 5 steps k (replay_journal (journal_records (journal w')))
        end
    end.
Proof.
  eexists _, _. split; [apply surjective_pairing|].
  apply (execute_outcome example_plan (example_world [])); [reflexivity|apply surjective_pairing].
Defined.

(** Where the example's directory entries live: the keys under its parent. *)
Definition example_known (k : PathKey) : Prop := take 12 k = entry_key_from_parts example_parent [].
Definition example_loc (k : PathKey) : list Z := memory_path_key (text "C:\") ++ drop 12 k.

Lemma memory_snapshot_free (b : MemoryBackend) path snapshot :
  memory_observe b path = Ok snapshot -> snapshot_entry snapshot = None ->
  memory_occupant b (memory_path_key path) = None.
Proof.
  intros [= <-]. simpl. unfold memory_occupant. by destruct (entries b !! _).
Qed.

Lemma example_observed_with {J} `{HJ : JournalStore J, !JournalStoreLaws J} :
  plan_observed example_plan example_loc example_known (path_key example_backend)
    (occupant example_backend)
    (answers_of (B:=MemoryBackend) (J:=J) (K:=CancellationToken)
       (path_key example_backend) (occupant example_backend)).
Proof.
  assert (forall r, r ∈ plan_entries example_plan ->
    r = example_row 0 10 (text "C:\a") (text "C:\b") (Some 11) \/
    r = example_row 1 11 (text "C:\b") (text "C:\a") (Some 10)) as Hrows.
  { intros r Hr. simpl in Hr. set_solver. }
  split.
  - vm_compute. repeat constructor; set_solver.
  - vm_compute. repeat constructor; set_solver.
  - intros r [-> | ->]%Hrows; by eexists.
  - intros r [-> | ->]%Hrows; by vm_compute.
  - intros a b Ha Hb Hloc. unfold example_known, example_loc in *.
    apply app_inv_head in Hloc. rewrite <-(take_drop 12 a), <-(take_drop 12 b). congruence.
  - intros r [-> | ->]%Hrows; by vm_compute.
  - intros r [-> | ->]%Hrows; by vm_compute.
  - intros r e [-> | ->]%Hrows [= <-]; by vm_compute.
  - intros r [-> | ->]%Hrows H; exfalso; apply H; vm_compute; set_solver.
  - intros r leaf key Hr (w & w' & _ & Hh).
    assert (snapshot_parent (source_snapshot r) = example_parent /\
      parent_units (row_source r) = text "C:") as [Hp1 Hp2] by (by apply Hrows in Hr as [-> | ->]).
    rewrite Hp1 in Hh. rewrite Hp2. cbn [handle] in Hh. injection Hh as Hh _. simpl in Hh. unfold memory_planned_entry_key in Hh.
    destruct (validate_windows_leaf_name leaf); [|done]. injection Hh as <-. split; done.
  - intros path snapshot (w & w' & (_ & _ & Hv) & Hh) Hnone.
    cbn [handle] in Hh. injection Hh as Hh _. rewrite (Hv _).
    exact (memory_snapshot_free _ _ _ (f_equal Ok Hh) Hnone).
Qed.

Lemma example_observed :
  plan_observed example_plan example_loc example_known (path_key example_backend)
    (occupant example_backend)
    (answers_of (B:=MemoryBackend) (J:=MemoryJournal) (K:=CancellationToken)
       (path_key example_backend) (occupant example_backend)).
Proof. apply example_observed_with. Qed.

Lemma completed_arrives_witness :
  exists report w', run handle (execute_with_control example_plan) (example_world []) = (Ok report, w') /\
    arrived example_plan (path_key example_backend) (occupant example_backend)
      (occupant (backend w')).
Proof.
  eexists _, _. split; [vm_compute; reflexivity|].
  eapply (completed_arrives example_plan example_loc example_known (example_world []));
    [reflexivity|apply example_observed|vm_compute; reflexivity|reflexivity].
Defined.

Lemma build_schedule_arrives_witness :
  exists steps w', run handle (build_schedule_cancellable example_plan) (example_world []) = (Ok steps, w') /\
    length steps = 3%nat /\
    exists v, moves (path_key example_backend) (occupant example_backend) steps v /\
      arrived example_plan (path_key example_backend) (occupant example_backend) v.
Proof.
  eexists _, _. split; [vm_compute; reflexivity|]. split; [vm_compute; reflexivity|].
  refine (build_schedule_arrives (handle (B:=MemoryBackend) (J:=MemoryJournal) (K:=CancellationToken))
    (untouched (path_key example_backend) (occupant example_backend)) example_plan example_loc
    example_known _ _ _ (example_world []) (Ok _) _ example_observed _ _ _).
  - intros X e w x w' He Hw Hx. split; [by exists w, w'|]. by eapply handle_quiet.
  - done.
  - vm_compute. reflexivity.
Defined.
