(* ===== verification/Cancellation.v ===== *)
(** * Cancellation: a request and the journal's begin exclude each other

    [CancellationToken] ([executor.rs]) promises to linearise cancellation
    against the beginning of the journal.  The other thread may request at any
    of our accesses to the token; a request that arrives before the commit
    point always wins, and one that arrives after it never stops the
    transaction half way. *)

From S2P Require Import Prelude LegacyText RenameModel Journal Effects.
From S2P Require Import Schedule Codec Executor Reading MemoryBackend ExecutorSafety.
From S2P Require Import ScheduleCorrect Transaction.

Definition committed (k : CancellationToken) : bool := Z.testbit (token_state k) 1.

Lemma is_requested_bit k : is_requested k = Z.testbit (token_state k) 0.
Proof.
  unfold is_requested, CANCEL_REQUESTED. change 1 with (Z.ones 1).
  rewrite Z.land_ones, <-Z.bit0_mod by lia. by destruct (Z.testbit _ 0).
Qed.

Lemma request_bits k : is_requested (request k) = true /\ committed (request k) = committed k.
Proof.
  rewrite is_requested_bit. unfold committed, request, CANCEL_REQUESTED. cbn [token_state].
  rewrite !Z.lor_spec. change (Z.testbit 1 0) with true. change (Z.testbit 1 1) with false.
  by rewrite orb_true_r, orb_false_r.
Qed.

Lemma other_thread_bits k :
  (is_requested k = true -> is_requested (other_thread k) = true) /\
  committed (other_thread k) = committed k.
Proof.
  unfold other_thread. destruct (token_requests k) as [|[] rest]; [done| |done].
  destruct (request_bits (mkToken (token_state k) rest)) as [-> ->]. done.
Qed.

(** The exchange succeeds only on a token nobody requested, and commits it. *)
Lemma commit_bits k b k' :
  commit_journal_begin k = (b, k') ->
  (is_requested k = true -> b = false /\ k' = k) /\
  (b = true -> committed k' = true) /\ (b = false -> k' = k) /\
  (committed k = true -> committed k' = true).
Proof.
  unfold commit_journal_begin. destruct (token_state k =? 0) eqn:E; intros [= <- <-].
  - apply Z.eqb_eq in E. rewrite is_requested_bit, E. unfold committed. by rewrite E.
  - done.
Qed.

Section cancellation.
Context {B J : Type} `{HB : RenameBackend B, HJ : JournalStore J}.
Context `{!RenameBackendLaws B, !JournalStoreLaws J}.
Abbreviation World := (World B J CancellationToken).

(** Only a successful commit sets the commit bit, and nothing clears either bit. *)
Lemma handle_token X (e : effect X) (w : World) x w' :
  handle X e w = (x, w') ->
  (is_requested (control w) = true -> is_requested (control w') = true) /\
  (committed (control w) = true -> committed (control w') = true) /\
  (is_requested (control w) = true -> committed (control w') = committed (control w)).
Proof.
  destruct e; cbn [handle]; unfold on_control, on_backend, on_journal;
    cbn [cancellation_requested begin_transaction report_progress CancellationToken_control];
    try (intros [= _ <-]; by split_and!).
  - intros [= _ <-]. simpl. destruct (other_thread_bits (control w)) as [Hr ->]. by split_and!.
  - destruct (commit_journal_begin (other_thread (control w))) as [b k] eqn:Hc.
    intros [= _ <-]. simpl. destruct (other_thread_bits (control w)) as [Hr Hcm].
    destruct (commit_bits _ _ _ Hc) as (H1 & _ & H3 & H4). rewrite <-Hcm. split_and!; [|done|].
    + intros H. destruct (H1 (Hr H)) as [_ ->]. by apply Hr.
    + intros H. by destruct (H1 (Hr H)) as [_ ->].
  - destruct (next_transaction_nonce _). intros [= _ <-]. by split_and!.
  - destruct (rename_no_replace _ _). intros [= _ <-]. by split_and!.
  - destruct (journal_begin _ _ _). intros [= _ <-]. by split_and!.
  - destruct (journal_prepared _ _ _). intros [= _ <-]. by split_and!.
  - destruct (journal_completed _ _ _). intros [= _ <-]. by split_and!.
  - destruct (journal_not_applied _ _ _). intros [= _ <-]. by split_and!.
  - destruct (journal_terminal _ _). intros [= _ <-]. by split_and!.
Qed.

(** A committed token stays committed through any program. *)
Lemma committed_safe {A} (T : World -> Prop) (Q : A -> World -> Prop) (p : prog effect A) w :
  (forall w, committed (control w) = true -> T w) ->
  (forall a w, committed (control w) = true -> Q a w) ->
  committed (control w) = true -> safe handle T Q p w.
Proof.
  intros HT HQ. revert w. induction p as [a|X e k IH]; intros w Hc.
  - apply safe_ret; [by apply HT|by apply HQ].
  - apply safe_vis; [by apply HT|]. intros x w' Hh. apply IH.
    by destruct (handle_token _ _ _ _ _ Hh) as (_ & H & _); apply H.
Qed.

(** A requested, uncommitted token can no longer be committed. *)
Lemma requested_stays {A} (p : prog effect A) (w : World) a w' :
  is_requested (control w) = true -> committed (control w) = false ->
  run handle p w = (a, w') -> committed (control w') = false.
Proof.
  revert w. induction p as [b|X e k IH]; intros w Hr Hc; simpl; [by intros [= _ <-]|].
  destruct (handle X e w) as [x w1] eqn:Hh. destruct (handle_token _ _ _ _ _ Hh) as (H1 & _ & H3).
  apply IH; [by apply H1|]. by rewrite H3.
Qed.

Lemma run_steps {A} (p p' : prog effect A) (w w1 : World) :
  rtc (prog_step handle) (p, w) (p', w1) -> run handle p w = run handle p' w1.
Proof.
  intros Hr. remember (p, w) as s eqn:Es. remember (p', w1) as s' eqn:Es'.
  revert p w Es. induction Hr as [s|s1 s2 s3 Hstep _ IH]; intros p w ->.
  - by injection Es' as -> ->.
  - inversion Hstep as [X e k x w0 w2 He]; subst. simpl. rewrite He. by apply IH.
Qed.

(** Nothing happens on disk before the commit. *)
Definition uncommitted_untouched (w0 w : World) : Prop :=
  untouched (path_key (backend w0)) (occupant (backend w0)) w \/ committed (control w) = true.
Definition cancelled_result (r : result ExecuteError ExecutionReport) : Prop :=
  match r with
  | Err _ => True
  | Ok report => report_outcome report = OutcomeCompleted
  end.

Lemma execute_commits plan (w : World) :
  journal_records (journal w) = [] ->
  safe handle (uncommitted_untouched w)
    (fun r w' => cancelled_result r /\
       untouched (path_key (backend w)) (occupant (backend w)) w' \/ committed (control w') = true)
    (execute_with_control plan) w.
Proof.
  intros Hj. apply (execute_phases (path_key (backend w)) (occupant (backend w)));
    [by left|by left|by apply untouched_start| |].
  - intros entries w' Hw' _. by left.
  - intros steps entries w' Hw' _ _. unfold commit_and_run. apply safe_vis; [by left|].
    intros began w1 Hh. cbn [handle] in Hh. unfold on_control in Hh.
    cbn [begin_transaction CancellationToken_control] in Hh.
    destruct (commit_journal_begin (other_thread (control w'))) as [b k] eqn:Hc.
    injection Hh as <- <-. destruct (commit_bits _ _ _ Hc) as (_ & Hb & _). destruct b.
    + apply committed_safe; [by right|by right|]. by apply Hb.
    + apply safe_ret; left; [|split; [done|]]; exact Hw'.
Qed.
End cancellation.

Section property.
Context {B J : Type} `{HB : RenameBackend B, HJ : JournalStore J}.
Context `{!RenameBackendLaws B, !JournalStoreLaws J}.

(** C16: A cancellation request and the journal's begin exclude each other.  For
    every lawful backend and journal and every schedule of the other thread: if
    at some point of [execute_with_control] the token has been requested and not
    committed, then however the execution goes on it ends without ever writing
    to the journal or moving anything, with an error or, for a plan that needs
    no move, complete. *)
Theorem request_before_commit_wins plan (w w1 w' : World B J CancellationToken) p1 r :
  journal_records (journal w) = [] ->
  rtc (prog_step handle) (execute_with_control plan, w) (p1, w1) ->
  is_requested (control w1) = true -> committed (control w1) = false ->
  run handle p1 w1 = (r, w') ->
  cancelled_result r /\ journal_records (journal w') = [] /\
  forall k, occupant (backend w') k = occupant (backend w) k.
Proof.
  intros Hj Hsteps Hr Hc Hrun. pose proof (requested_stays _ _ _ _ Hr Hc Hrun) as Hc'.
  rewrite <-(run_steps _ _ _ _ Hsteps) in Hrun.
  destruct (safe_run _ _ _ _ _ _ _ (execute_commits plan w Hj) Hrun) as [[[Hres Hu]|?] _];
    [|congruence].
  destruct Hu as (Hj' & _ & Hv). split; [done|]. split; [done|]. intros k. symmetry. apply Hv.
Qed.
End property.

(** The other thread requests at the executor's third access to the token. *)
Definition cancelled_world : World MemoryBackend MemoryJournal CancellationToken :=
  example_world [false; false; true].
Definition cancelled_at :=
  interrupt_after handle 5 (execute_with_control example_plan) cancelled_world.

Lemma request_before_commit_wins_witness :
  exists r w', run handle (execute_with_control example_plan) cancelled_world = (r, w') /\
    r = Err cancelled_before_begin /\ cancelled_result r /\
    journal_records (journal w') = [] /\
    forall k, occupant (backend w') k = occupant (backend cancelled_world) k.
Proof.
  assert (run handle (execute_with_control example_plan) cancelled_world =
          run handle cancelled_at.1 cancelled_at.2) as Heq.
  { apply run_steps. rewrite <-surjective_pairing. apply interrupt_after_steps. }
  exists (run handle cancelled_at.1 cancelled_at.2).1,
    (run handle cancelled_at.1 cancelled_at.2).2.
  split; [rewrite Heq; apply surjective_pairing|]. split; [vm_compute; reflexivity|].
  apply (request_before_commit_wins example_plan cancelled_world cancelled_at.2 _ cancelled_at.1).
  - reflexivity.
  - rewrite <-surjective_pairing. apply interrupt_after_steps.
  - vm_compute. reflexivity.
  - vm_compute. reflexivity.
  - apply surjective_pairing.
Defined.
