(* ===== verification/Recovery.v ===== *)
(** * Recovery: reconciling an interrupted transaction and rolling it back

    [crates/darknamer-app/src/rename/recovery.rs]: the records of the retained
    journal are replayed into the occupancy they imply, compared with what the
    backend observes, and the applied steps are undone in reverse order.  The
    reads borrow the backend for a while and are pure in it; appends and moves
    are effects.  An index out of range panics in Rust: it is an error of its own
    here, and Lifetime shows that it does not happen. *)

From S2P Require Import Prelude Collections LegacyText RenameModel Journal Effects.
From S2P Require Import Schedule Executor.

(** ** Outcomes *)

Inductive RecoveryBlockKind : Type :=
| JournalCorrupt | UnauthorizedOperation | StateMismatch | ParentChanged
| BlockBackend (error : BackendError)
| BlockJournal (error : JournalError).

Inductive RecoveryFailure : Type :=
| RecoveryBackend (error : BackendError)
| RecoveryJournal (error : JournalError).

Inductive RecoveryOutcome : Type :=
| NotRequired
| Recovered (plan : PlanId) (restored_steps : nat)
| Blocked (plan : option PlanId) (reason : RecoveryBlockKind)
| RecoveryIncomplete (plan : PlanId) (reason : RecoveryFailure).

Inductive Halt : Type :=
| IndexPanic
| Block (reason : RecoveryBlockKind).

(** ** Operations of a manifest step *)

Definition recovery_operation (s : JournalStep) (reverse : bool) : RenameOperation :=
  let '(source, destination, source_parent, destination_parent) :=
    if reverse
    then (step_destination s, step_source s, step_destination_parent s, step_source_parent s)
    else (step_source s, step_destination s, step_source_parent s, step_destination_parent s) in
  match step_kind s with
  | Some kind =>
      with_authorization source destination (step_expected_source s) source_parent
        destination_parent kind (step_scope s)
  | None =>
      with_legacy_same_parent_authorization source destination (step_expected_source s)
        source_parent destination_parent
  end.
Definition reverse_operation (s : JournalStep) : RenameOperation := recovery_operation s true.
Definition recovery_forward_operation (s : JournalStep) : RenameOperation :=
  recovery_operation s false.

Definition replay_plan (state : RecoveryState) : option PlanId :=
  match state with RecoveryRequired plan _ _ _ => plan | Clean => None end.

(** ** Occupancy *)

Definition Occupancy : Type := BTreeMap PathKey (option EntryIdentity).

Record PreparedState : Type := mkPrepared {
  prepared_step : nat;
  prepared_direction : JournalDirection;
  prepared_applied : bool
}.
Record TransitionState : Type := mkTransition {
  transition_forward : BTreeSet nat;
  transition_rollback : BTreeSet nat;
  transition_prepared : option PreparedState
}.

Section reads.
Context {B : Type} `{RenameBackend B}.
Variable b : B.

Definition endpoint_key (path : LegacyText) (parent : EntryIdentity) : result Halt PathKey :=
  map_err (Block ∘ BlockBackend) (planned_entry_key b parent (path_leaf path)).

(** The loop of [initial_occupancy]. *)
Fixpoint initial_loop (steps : list JournalStep) (occupancy : Occupancy) (seen : BTreeSet EntryId)
  : result Halt Occupancy :=
  match steps with
  | [] => Ok occupancy
  | s :: steps' =>
      source_key ← endpoint_key (step_source s) (step_source_parent s);
      destination_key ← endpoint_key (step_destination s) (step_destination_parent s);
      let occupancy := bm_or_insert destination_key None (bm_or_insert source_key None occupancy) in
      if bs_contains (step_entry s) seen then initial_loop steps' occupancy seen
      else if match bm_get source_key occupancy with
              | Some (Some entry) => negb (bool_decide (entry = step_expected_source s))
              | _ => false
              end
      then Err (Block JournalCorrupt)
      else initial_loop steps' (bm_insert source_key (Some (step_expected_source s)) occupancy)
             (bs_insert (step_entry s) seen)
  end.
Definition initial_occupancy (steps : list JournalStep) : result Halt Occupancy :=
  initial_loop steps [] [].

Definition apply_step (occupancy : Occupancy) (s : JournalStep) (reverse : bool)
  : result Halt Occupancy :=
  let '(source, source_parent, destination, destination_parent) :=
    if reverse
    then (step_destination s, step_destination_parent s, step_source s, step_source_parent s)
    else (step_source s, step_source_parent s, step_destination s, step_destination_parent s) in
  source_key ← endpoint_key source source_parent;
  destination_key ← endpoint_key destination destination_parent;
  if negb (bool_decide (bm_get source_key occupancy = Some (Some (step_expected_source s))))
     || negb (bool_decide (bm_get destination_key occupancy = Some None))
  then Err (Block JournalCorrupt)
  else Ok (bm_insert destination_key (Some (step_expected_source s))
             (bm_insert source_key None occupancy)).

Definition observe_endpoint (path : LegacyText) (expected_parent expected_source : EntryIdentity)
    (expected_kind : option EntryKind) (observed : Occupancy) : result Halt Occupancy :=
  snapshot ← map_err (Block ∘ BlockBackend) (observe b path);
  if negb (bool_decide (snapshot_parent snapshot = expected_parent)) then Err (Block ParentChanged)
  else if match snapshot_entry snapshot with Some e => is_reparse_point e | None => false end
  then Err (Block StateMismatch)
  else if match snapshot_entry snapshot with
          | Some e =>
              bool_decide (observed_identity e = expected_source)
              && match expected_kind with
                 | Some kind => negb (bool_decide (observed_kind e = kind))
                 | None => false
                 end
          | None => false
          end
  then Err (Block StateMismatch)
  else
    key ← endpoint_key path expected_parent;
    let identity := observed_identity <$> snapshot_entry snapshot in
    if match bm_get key observed with
       | Some previous => negb (bool_decide (previous = identity))
       | None => false
       end
    then Err (Block StateMismatch)
    else Ok (bm_insert key identity observed).

Fixpoint observe_loop (steps : list JournalStep) (observed : Occupancy) : result Halt Occupancy :=
  match steps with
  | [] => Ok observed
  | s :: steps' =>
      observed ← observe_endpoint (step_source s) (step_source_parent s) (step_expected_source s)
                   (step_kind s) observed;
      observed ← observe_endpoint (step_destination s) (step_destination_parent s)
                   (step_expected_source s) (step_kind s) observed;
      observe_loop steps' observed
  end.
Definition observe_all (steps : list JournalStep) : result Halt Occupancy := observe_loop steps [].

Definition occupancy_matches (expected observed : Occupancy) : bool :=
  bool_decide (expected = observed).

(** ** The state the records imply *)

(** The first loop of [transition_state]: the completed steps of each
    direction and the step left prepared. *)
Definition scan_record (record : JournalRecord)
    (acc : BTreeSet nat * BTreeSet nat * option (nat * JournalDirection))
  : BTreeSet nat * BTreeSet nat * option (nat * JournalDirection) :=
  let '(forward, rollback, prepared) := acc in
  match record with
  | Prepared step direction => (forward, rollback, Some (step, direction))
  | Completed step Forward => (bs_insert step forward, rollback, None)
  | Completed step Rollback => (forward, bs_insert step rollback, None)
  | NotAppliedRecord _ _ => (forward, rollback, None)
  | Intent _ _ | Terminal _ => acc
  end.
Definition scan_records (records : list JournalRecord)
  : BTreeSet nat * BTreeSet nat * option (nat * JournalDirection) :=
  fold_left (fun acc record => scan_record record acc) records ([], [], None).

(** [steps[index]]. *)
Definition index_step (steps : list JournalStep) (index : nat) : result Halt JournalStep :=
  ok_or IndexPanic (steps !! index).

Definition is_rollback (direction : JournalDirection) : bool := bool_decide (direction = Rollback).

(** The second loop of [transition_state]. *)
Fixpoint apply_completed (steps : list JournalStep) (records : list JournalRecord)
    (expected : Occupancy) : result Halt Occupancy :=
  match records with
  | [] => Ok expected
  | Completed step direction :: records' =>
      s ← index_step steps step;
      expected ← apply_step expected s (is_rollback direction);
      apply_completed steps records' expected
  | _ :: records' => apply_completed steps records' expected
  end.

Definition transition_state (records : list JournalRecord) (steps : list JournalStep)
  : result Halt TransitionState :=
  let '(forward, rollback, prepared) := scan_records (tail records) in
  initial ← initial_occupancy steps;
  expected ← apply_completed steps (tail records) initial;
  observed ← observe_all steps;
  match prepared with
  | Some (step_index, direction) =>
      s ← index_step steps step_index;
      applied_candidate ← apply_step expected s (is_rollback direction);
      let base_matches := occupancy_matches expected observed in
      let applied_matches := occupancy_matches applied_candidate observed in
      match base_matches, applied_matches with
      | true, false =>
          Ok (mkTransition forward rollback (Some (mkPrepared step_index direction false)))
      | false, true =>
          Ok (mkTransition forward rollback (Some (mkPrepared step_index direction true)))
      | _, _ => Err (Block StateMismatch)
      end
  | None =>
      if negb (occupancy_matches expected observed) then Err (Block StateMismatch)
      else Ok (mkTransition forward rollback None)
  end.
End reads.

(** ** The recovery *)

(** The calls of [RenameRecovery::rollback]; every append takes the
    authorization retained from the snapshot and advances it. *)
Inductive rec_effect (B : Type) : Type -> Type :=
| AuthorizedSnapshot : rec_effect B (result JournalError JournalSnapshot)
| BorrowBackend : rec_effect B B
| RecoveryRename (op : RenameOperation) : rec_effect B (result BackendError unit)
| AuthorizedPrepared (a : JournalAuthorization) (step : nat) (direction : JournalDirection)
    : rec_effect B (result JournalError unit * JournalAuthorization)
| AuthorizedCompleted (a : JournalAuthorization) (step : nat) (direction : JournalDirection)
    : rec_effect B (result JournalError unit * JournalAuthorization)
| AuthorizedNotApplied (a : JournalAuthorization) (step : nat) (direction : JournalDirection)
    : rec_effect B (result JournalError unit * JournalAuthorization)
| AuthorizedTerminal (a : JournalAuthorization) (terminal : JournalTerminal)
    : rec_effect B (result JournalError unit * JournalAuthorization).
Arguments AuthorizedSnapshot {B}.
Arguments BorrowBackend {B}.
Arguments RecoveryRename {B} op.
Arguments AuthorizedPrepared {B} a step direction.
Arguments AuthorizedCompleted {B} a step direction.
Arguments AuthorizedNotApplied {B} a step direction.
Arguments AuthorizedTerminal {B} a terminal.

Section recovery.
Context {B : Type} `{RenameBackend B}.

Abbreviation Rec := (prog (rec_effect B) (result Halt RecoveryOutcome)).
Definition outcome (o : RecoveryOutcome) : Rec := Ret (Ok o).

(** [authorized_*(&mut authorization, ..)]: an error ends the recovery. *)
Definition append_or_stop (plan : PlanId)
    (append : rec_effect B (result JournalError unit * JournalAuthorization))
    (continue : JournalAuthorization -> Rec) : Rec :=
  prog_bind (call append) (fun '(appended, a) =>
  match appended with
  | Err error => outcome (RecoveryIncomplete plan (RecoveryJournal error))
  | Ok _ => continue a
  end).

(** The reverse moves; [restored] is the length of the whole list. *)
Fixpoint reverse_loop (plan : PlanId) (steps : list JournalStep) (remaining : list nat)
    (restored : nat) (a : JournalAuthorization) : Rec :=
  match remaining with
  | [] =>
      append_or_stop plan (AuthorizedTerminal a RolledBackTerminal) (fun _ =>
      outcome (Recovered plan restored))
  | step_index :: remaining' =>
      match steps !! step_index with
      | None => outcome (Blocked (Some plan) JournalCorrupt)
      | Some s =>
          append_or_stop plan (AuthorizedPrepared a step_index Rollback) (fun a =>
          prog_bind (call (RecoveryRename (reverse_operation s))) (fun renamed =>
          match renamed with
          | Err error =>
              if bool_decide (certainty error = NotApplied)
              then append_or_stop plan (AuthorizedNotApplied a step_index Rollback) (fun _ =>
                   outcome (RecoveryIncomplete plan (RecoveryBackend error)))
              else outcome (RecoveryIncomplete plan (RecoveryBackend error))
          | Ok _ =>
              append_or_stop plan (AuthorizedCompleted a step_index Rollback) (fun a =>
              reverse_loop plan steps remaining' restored a)
          end))
      end
  end.

(** Closing the prepared step, and the sets it leaves. *)
Definition close_prepared (a : JournalAuthorization) (p : PreparedState)
  : rec_effect B (result JournalError unit * JournalAuthorization) :=
  if prepared_applied p then AuthorizedCompleted a (prepared_step p) (prepared_direction p)
  else AuthorizedNotApplied a (prepared_step p) (prepared_direction p).
Definition close_forward (p : PreparedState) (forward : BTreeSet nat) : BTreeSet nat :=
  match prepared_direction p with
  | Forward => if prepared_applied p then bs_insert (prepared_step p) forward else forward
  | Rollback => forward
  end.
Definition close_rollback (p : PreparedState) (rollback : BTreeSet nat) : BTreeSet nat :=
  match prepared_direction p with
  | Rollback => if prepared_applied p then bs_insert (prepared_step p) rollback else rollback
  | Forward => rollback
  end.

Definition rollback_remaining (plan : PlanId) (steps : list JournalStep)
    (forward rollback : BTreeSet nat) (a : JournalAuthorization) : Rec :=
  let remaining := rev (bs_difference forward rollback) in
  reverse_loop plan steps remaining (length remaining) a.

Definition reconcile (plan : PlanId) (steps : list JournalStep) (transitions : TransitionState)
    (a : JournalAuthorization) : Rec :=
  let '(mkTransition forward rollback prepared) := transitions in
  match prepared with
  | None => rollback_remaining plan steps forward rollback a
  | Some p =>
      append_or_stop plan (close_prepared a p) (fun a =>
      rollback_remaining plan steps (close_forward p forward) (close_rollback p rollback) a)
  end.

(** The closure over the manifest. *)
Definition unauthorized (s : JournalStep) : bool :=
  bool_decide (is_Some (authorization_error (recovery_forward_operation s))).

(** [RenameRecovery::rollback]. *)
Definition recover : Rec :=
  prog_bind (call AuthorizedSnapshot) (fun snapshot =>
  match snapshot with
  | Err error => outcome (Blocked None (BlockJournal error))
  | Ok snapshot =>
      let '(mkJournalSnapshot records a) := snapshot in
      let replay := replay_journal records in
      match replay with
      | Clean => outcome NotRequired
      | RecoveryRequired _ _ _ (Corrupt _) =>
          outcome (Blocked (replay_plan replay) JournalCorrupt)
      | _ =>
          match head records with
          | Some (Intent plan steps) =>
              if existsb unauthorized steps
              then outcome (Blocked (Some plan) UnauthorizedOperation)
              else
                prog_bind (call BorrowBackend) (fun b =>
                match transition_state b records steps with
                | Err (Block reason) => outcome (Blocked (Some plan) reason)
                | Err IndexPanic => Ret (Err IndexPanic)
                | Ok transitions => reconcile plan steps transitions a
                end)
          | _ => outcome (Blocked None JournalCorrupt)
          end
      end
  end).
End recovery.

(** ** The meaning of the calls over adapters *)

Section handler.
Context {B J K : Type} `{RenameBackend B, AuthorizedJournal J}.

Definition on_authorized (m : J -> result JournalError unit * JournalAuthorization * J)
    (w : World B J K) : result JournalError unit * JournalAuthorization * World B J K :=
  let '(r, a, j) := m (journal w) in ((r, a), mkWorld (backend w) j (control w)).

Definition handle_recovery X (e : rec_effect B X) : World B J K -> X * World B J K :=
  match e in rec_effect _ X return World B J K -> X * World B J K with
  | AuthorizedSnapshot => on_journal authorized_snapshot
  | BorrowBackend => fun w => (backend w, w)
  | RecoveryRename op => on_backend (rename_no_replace op)
  | AuthorizedPrepared a step direction => on_authorized (authorized_prepared a step direction)
  | AuthorizedCompleted a step direction => on_authorized (authorized_completed a step direction)
  | AuthorizedNotApplied a step direction => on_authorized (authorized_not_applied a step direction)
  | AuthorizedTerminal a terminal => on_authorized (authorized_terminal a terminal)
  end.
End handler.

(** ** What recovery relies on *)

(** A retained journal shows its records and appends like the store does. *)
Class AuthorizedJournalLaws (J : Type) `{JournalStoreLaws J, !AuthorizedJournal J} := {
  snapshot_shows : forall (j : J) r j', authorized_snapshot j = (r, j') ->
    journal_records j' = journal_records j /\
    match r with Ok s => snapshot_records s = journal_records j | Err _ => True end;
  authorized_prepared_appends : forall a s d (j : J) r a' j',
    authorized_prepared a s d j = (r, a', j') ->
    appends_record (Prepared s d) (journal_records j) (journal_records j') r;
  authorized_completed_appends : forall a s d (j : J) r a' j',
    authorized_completed a s d j = (r, a', j') ->
    appends_record (Completed s d) (journal_records j) (journal_records j') r;
  authorized_not_applied_appends : forall a s d (j : J) r a' j',
    authorized_not_applied a s d j = (r, a', j') ->
    appends_record (NotAppliedRecord s d) (journal_records j) (journal_records j') r;
  authorized_terminal_appends : forall a t (j : J) r a' j',
    authorized_terminal a t j = (r, a', j') ->
    appends_record (Terminal t) (journal_records j) (journal_records j') r
}.

Lemma memory_authorized_push_appends a record (j : MemoryJournal) r a' j' :
  memory_authorized_push a record j = (r, a', j') ->
  appends_record record (memory_records j) (memory_records j') r.
Proof.
  unfold memory_authorized_push. destruct (invalidate_next_authorized_append j); simpl;
    destruct (_ || _); intros [= <- <- <-]; simpl; (done || by left).
Qed.

#[export] Instance MemoryJournal_authorized_laws : AuthorizedJournalLaws MemoryJournal.
Proof.
  split.
  - by intros j r j' [= <- <-].
  - intros a s d j r a' j'. apply memory_authorized_push_appends.
  - intros a s d j r a' j'. apply memory_authorized_push_appends.
  - intros a s d j r a' j'. apply memory_authorized_push_appends.
  - intros a t j r a' j'. apply memory_authorized_push_appends.
Defined.
