(* ===== verification/RecoveryState.v ===== *)
(** * RecoveryState: what reconciliation concludes is what happened

    For a journal that accounts for the filesystem, [transition_state] rebuilds
    the occupancy the completed records imply, and the one prepared step is
    reported applied exactly when its move took place.  Reconciliation is
    blocked only by what the backend shows, never as a corrupt journal. *)

From S2P Require Import Prelude Collections LegacyText RenameModel Journal Effects.
From S2P Require Import Schedule Codec Executor ExecutorSafety Tracking Recovery.

(** ** Maps that show a view on a set of keys *)

Lemma bm_lookup_insert {K} `{OrderedLaws K, EqDecision K} {V} (k k' : K) (v : V) m :
  bm_get k (bm_insert k' v m) = if decide (k = k') then Some v else bm_get k m.
Proof. case_decide as E; [subst; apply bm_get_insert_eq|by apply bm_get_insert_ne]. Qed.
Lemma bm_lookup_or_insert {K} `{OrderedLaws K, EqDecision K} {V} (k k' : K) (v : V) m :
  bm_get k (bm_or_insert k' v m) =
  match bm_get k m with Some o => Some o | None => if decide (k = k') then Some v else None end.
Proof.
  unfold bm_or_insert. destruct (bm_get k' m) as [o|] eqn:Hk'.
  - destruct (bm_get k m) eqn:Hk; [done|]. case_decide; congruence.
  - rewrite bm_lookup_insert. case_decide as E; [by rewrite E, Hk'|by destruct (bm_get k m)].
Qed.
Lemma bm_or_insert_sorted {K} `{OrderedLaws K} {V} (k : K) (v : V) m :
  bm_sorted m -> bm_sorted (bm_or_insert k v m).
Proof. unfold bm_or_insert. intros ?. destruct (bm_get k m); [done|by apply bm_insert_sorted]. Qed.

Section state.
Context {B : Type} `{RenameBackendLaws B}.
Context `{!ObservingBackend B}.
Variables (loc : PathKey -> list Z) (known : PathKey -> Prop) (key_of : LegacyText -> list Z).
Hypothesis loc_inj : forall a b, known a -> known b -> loc a = loc b -> a = b.
Variables (v0 : view) (pos0 : EntryId -> list Z) (steps : list ScheduleStep).
Hypothesis Htracked : tracked key_of v0 pos0 steps.
Variable b : B.

Let manifest : list JournalStep := map journal_step steps.
Let n : nat := length steps.

(** *** Endpoints *)

Definition endpoints (s : ScheduleStep) : list (LegacyText * EntryIdentity) :=
  [(source s, source_parent s); (destination s, destination_parent s)].

(** The keys the backend gives the endpoints lead where the paths lead. *)
Definition endpoints_named : Prop :=
  forall s p parent K, s ∈ steps -> (p, parent) ∈ endpoints s ->
    planned_entry_key b parent (path_leaf p) = Ok K -> known K /\ key_of p = loc K.

(** Nothing the backend shows of the endpoints speaks against a recovery. *)
Definition undisturbed : Prop :=
  forall s p parent, s ∈ steps -> (p, parent) ∈ endpoints s ->
    (exists K, planned_entry_key b parent (path_leaf p) = Ok K) /\
    exists snapshot, observe b p = Ok snapshot /\ snapshot_parent snapshot = parent /\
      match snapshot_entry snapshot with
      | Some e => is_reparse_point e = false /\
                  (observed_identity e = identity s -> observed_kind e = kind s)
      | None => True
      end.

Hypothesis Hnamed : endpoints_named.
Hypothesis Hkeys : forall p, path_key b p = key_of p.

(** The blocks that are not about the journal itself. *)
Definition environmental (reason : RecoveryBlockKind) : Prop :=
  match reason with JournalCorrupt | UnauthorizedOperation => False | _ => True end.

(** A read that succeeds with [P], or is blocked by what the backend shows. *)
Definition reads {A} (P : A -> Prop) (r : result Halt A) : Prop :=
  match r with
  | Ok a => P a
  | Err (Block reason) => environmental reason /\ ~ undisturbed
  | Err IndexPanic => False
  end.

Lemma reads_then {A A'} (P : A -> Prop) (Q : A' -> Prop) (m : result Halt A) f :
  reads P m -> (forall a, P a -> reads Q (f a)) -> reads Q (m ≫= f).
Proof. destruct m as [a|[|reason]]; simpl; [|done|done]. auto. Qed.

(** The keys of the endpoints of [l]. *)
Definition names (l : list ScheduleStep) (K : PathKey) : Prop :=
  exists s p parent, s ∈ l /\ (p, parent) ∈ endpoints s /\
    planned_entry_key b parent (path_leaf p) = Ok K.

Lemma names_known K : names steps K -> known K.
Proof. intros (s & p & parent & Hs & Hp & HK). by eapply Hnamed. Qed.
Lemma names_key s p parent K :
  s ∈ steps -> (p, parent) ∈ endpoints s -> planned_entry_key b parent (path_leaf p) = Ok K ->
  names steps K /\ key_of p = loc K.
Proof.
  intros Hs Hp HK. split; [by exists s, p, parent|]. by destruct (Hnamed s p parent K Hs Hp HK).
Qed.
Lemma names_nil K : ~ names [] K.
Proof. intros (s & p & parent & Hs%not_elem_of_nil & _). done. Qed.
Lemma names_snoc l s K :
  names (l ++ [s]) K <->
  names l K \/ planned_entry_key b (source_parent s) (path_leaf (source s)) = Ok K \/
  planned_entry_key b (destination_parent s) (path_leaf (destination s)) = Ok K.
Proof.
  split.
  - intros (t & p & parent & [Ht| ->%list_elem_of_singleton]%elem_of_app & Hp & HK).
    + left. by exists t, p, parent.
    + right. unfold endpoints in Hp.
      apply elem_of_cons in Hp as [[= -> ->]|[= -> ->]%list_elem_of_singleton]; [by left|by right].
  - intros [(t & p & parent & Ht & Hp & HK)|[HK|HK]].
    + exists t, p, parent. split_and!; [set_solver|done|done].
    + exists s, (source s), (source_parent s). split_and!; [set_solver|set_solver|done].
    + exists s, (destination s), (destination_parent s). split_and!; [set_solver|set_solver|done].
Qed.

Lemma endpoint_key_reads s p parent :
  s ∈ steps -> (p, parent) ∈ endpoints s ->
  reads (fun K => planned_entry_key b parent (path_leaf p) = Ok K) (endpoint_key b p parent).
Proof.
  intros Hs Hp. unfold endpoint_key.
  destruct (planned_entry_key b parent (path_leaf p)) as [K|e] eqn:HK; simpl; [done|].
  split; [done|]. intros Hu. destruct (Hu s p parent Hs Hp) as [[K' ?] _]. congruence.
Qed.

Lemma endpoint_key_Ok p parent K :
  endpoint_key b p parent = Ok K -> planned_entry_key b parent (path_leaf p) = Ok K.
Proof. unfold endpoint_key. destruct (planned_entry_key b parent (path_leaf p)); simpl; congruence. Qed.

(** [shows N M u]: the map [M] holds what [u] has at the keys in [N]. *)
Definition shows (N : PathKey -> Prop) (M : Occupancy) (u : view) : Prop :=
  bm_sorted M /\ forall K o, bm_get K M = Some o <-> N K /\ o = u (loc K).

Lemma shows_eq N M M' u u' :
  shows N M u -> shows N M' u' -> (M = M' <-> forall K, N K -> u (loc K) = u' (loc K)).
Proof.
  intros [Hs Hg] [Hs' Hg']. split.
  - intros <- K HK. assert (bm_get K M = Some (u (loc K))) as Hu by by apply Hg.
    apply Hg' in Hu as [_ ?]. done.
  - intros Hag. apply bm_ext; [done|done|]. intros K.
    destruct (bm_get K M) as [o|] eqn:Ho.
    + apply Hg in Ho as [HN ->]. symmetry. apply Hg'. split; [done|by apply Hag].
    + destruct (bm_get K M') as [o'|] eqn:Ho'; [|done]. apply Hg' in Ho' as [HN ->].
      enough (bm_get K M = Some (u (loc K))) by congruence. by apply Hg.
Qed.
Lemma shows_ext N M u u' : shows N M u -> view_eq u u' -> shows N M u'.
Proof. intros [Hs Hg] Hu. split; [done|]. intros K o. by rewrite Hg, Hu. Qed.
Lemma shows_weaken N N' M u : (forall K, N K <-> N' K) -> shows N M u -> shows N' M u.
Proof. intros HN [Hs Hg]. split; [done|]. intros K o. by rewrite Hg, HN. Qed.
Lemma shows_insert N M u K :
  shows N M u -> shows (fun K' => N K' \/ K' = K) (bm_insert K (u (loc K)) M) u.
Proof.
  intros [Hs Hg]. split; [by apply bm_insert_sorted|]. intros K' o. rewrite bm_lookup_insert.
  case_decide as E; [subst K'; naive_solver|]. rewrite Hg. naive_solver.
Qed.

(** *** The initial occupancy *)

Record initial_inv (l : list ScheduleStep) (M : Occupancy) (seen : BTreeSet EntryId) : Prop :=
  mkInitial {
  ii_sorted : bm_sorted M;
  ii_domain : forall K, is_Some (bm_get K M) <-> names l K;
  ii_value : forall K i, bm_get K M = Some (Some i) -> v0 (loc K) = Some i;
  ii_first : forall j s, first_of_row l j s -> exists K i,
    planned_entry_key b (source_parent s) (path_leaf (source s)) = Ok K /\
    bm_get K M = Some (Some i);
  ii_seen : forall e, e ∈ seen <-> e ∈ map entry l
}.

(** The endpoints of a step are entered, vacant unless known. *)
Lemma initial_inv_enter l M seen s Ks Kd :
  initial_inv l M seen ->
  planned_entry_key b (source_parent s) (path_leaf (source s)) = Ok Ks ->
  planned_entry_key b (destination_parent s) (path_leaf (destination s)) = Ok Kd ->
  let M1 := bm_or_insert Kd None (bm_or_insert Ks None M) in
  bm_sorted M1 /\ (forall K, is_Some (bm_get K M1) <-> names (l ++ [s]) K) /\
  (forall K i, bm_get K M1 = Some (Some i) -> bm_get K M = Some (Some i)) /\
  (forall K i, bm_get K M = Some (Some i) -> bm_get K M1 = Some (Some i)).
Proof.
  intros [Hs Hd _ _ _] HKs HKd M1. split; [by apply bm_or_insert_sorted, bm_or_insert_sorted|].
  assert (forall K, bm_get K M1 = match bm_get K M with Some o => Some o
    | None => if decide (K = Ks \/ K = Kd) then Some None else None end) as HM1.
  { intros K. unfold M1. rewrite !bm_lookup_or_insert. destruct (bm_get K M); [done|].
    destruct (decide (K = Ks)), (decide (K = Kd)), (decide (K = Ks \/ K = Kd)); naive_solver. }
  split_and!.
  - intros K. rewrite names_snoc, HKs, HKd, <-Hd, HM1. destruct (bm_get K M) as [o|].
    + split; [by left|done].
    + case_decide as HE; [split; [|done]|split; [by intros []|]].
      * intros _. right. destruct HE as [-> | ->]; [by left|by right].
      * intros [[]|[[= ->]|[= ->]]]; [done|..]; exfalso; apply HE; [by left|by right].
  - intros K i. rewrite HM1. destruct (bm_get K M); [done|]. by case_decide.
  - intros K i HK. by rewrite HM1, HK.
Qed.

Lemma first_of_row_snoc l s j t :
  first_of_row (l ++ [s]) j t -> first_of_row l j t \/ (t = s /\ entry s ∉ map entry l).
Proof.
  intros [Ht Hn]. destruct (decide (j < length l)%nat) as [Hj|Hj].
  - left. rewrite lookup_app_l in Ht by done. rewrite take_app_le in Hn by lia. by split.
  - right. assert (j = length l) as ->.
    { apply lookup_lt_Some in Ht. rewrite length_app in Ht. simpl in Ht. lia. }
    rewrite list_lookup_middle in Ht by done. injection Ht as <-. by rewrite take_app_length in Hn.
Qed.
Lemma first_of_row_extend l l' j t : first_of_row l j t -> first_of_row (l ++ l') j t.
Proof.
  intros [Ht Hn]. pose proof (lookup_lt_Some _ _ _ Ht). split; [by apply lookup_app_l_Some|].
  by rewrite take_app_le by lia.
Qed.

Lemma initial_loop_reads l rest M seen :
  l ++ rest = steps -> initial_inv l M seen ->
  reads (fun M' => exists seen', initial_inv steps M' seen')
    (initial_loop b (map journal_step rest) M seen).
Proof.
  revert l M seen. induction rest as [|s rest IH]; intros l M seen Hl Hinv.
  { simpl. exists seen. by rewrite app_nil_r in Hl; subst l. }
  assert (s ∈ steps) as Hin by (rewrite <-Hl; set_solver).
  cbn [map initial_loop journal_step step_source step_source_parent step_destination
    step_destination_parent step_entry step_expected_source with_move_authorization journal_step_new].
  eapply reads_then; [eapply (endpoint_key_reads s); [done|set_solver]|]. intros Ks HKs.
  eapply reads_then; [eapply (endpoint_key_reads s); [done|set_solver]|]. intros Kd HKd.
  destruct (initial_inv_enter _ _ _ _ _ _ Hinv HKs HKd) as (HM1 & Hdom & Hval & Hkeep).
  set (M1 := bm_or_insert Kd None (bm_or_insert Ks None M)) in *. destruct Hinv as [_ Hd Hv Hf Hseen].
  assert ((l ++ [s]) ++ rest = steps) as Hl' by by rewrite <-app_assoc.
  destruct (bs_contains (entry s) seen) eqn:Hc.
  - apply bs_contains_spec in Hc. apply (IH _ _ _ Hl'). split; [done|done| | |].
    + intros K i HK. by apply Hv, Hval.
    + intros j t [Hfst|[-> Hn]]%first_of_row_snoc; [|by apply Hseen in Hc].
      destruct (Hf j t Hfst) as (K & i & HK & Hi). exists K, i. split; [done|by apply Hkeep].
    + intros e. rewrite Hseen, map_app, elem_of_app. simpl. rewrite list_elem_of_singleton.
      split; [by left|]. intros [?| ->]; [done|]. by apply Hseen.
  - assert (entry s ∉ map entry l) as Hnew.
    { rewrite <-Hseen, <-bs_contains_spec, Hc. done. }
    assert (steps !! length l = Some s) as Hs by (by rewrite <-Hl, list_lookup_middle).
    assert (first_of_row steps (length l) s) as Hfst.
    { split; [done|]. by rewrite <-Hl, take_app_length. }
    assert (v0 (loc Ks) = Some (identity s)) as Hv0.
    { destruct (names_key s (source s) (source_parent s) Ks) as [_ <-]; [done|set_solver|done|].
      by apply (first_source _ _ _ _ Htracked _ _ Hfst). }
    assert (match bm_get Ks M1 with Some (Some e) => negb (bool_decide (e = identity s))
      | _ => false end = false) as ->.
    { destruct (bm_get Ks M1) as [[e|]|] eqn:He; [|done..]. apply Hval, Hv in He.
      rewrite bool_decide_true; [done|congruence]. }
    apply (IH _ _ _ Hl'). split.
    + by apply bm_insert_sorted.
    + intros K. rewrite bm_lookup_insert. case_decide as E; [subst K|apply Hdom].
      split; [intros _; apply names_snoc; by right; left|done].
    + intros K i. rewrite bm_lookup_insert. case_decide as E; [intros [= <-]; by subst K|].
      intros HK. by apply Hv, Hval.
    + intros j t [Hft|[-> _]]%first_of_row_snoc.
      * destruct (Hf j t Hft) as (K & i & HK & Hi). exists K. rewrite bm_lookup_insert.
        case_decide; [by eexists|]. exists i. split; [done|by apply Hkeep].
      * exists Ks, (identity s). by rewrite bm_lookup_insert, decide_True.
    + intros e. rewrite elem_of_bs_insert, Hseen, map_app, elem_of_app. simpl.
      rewrite list_elem_of_singleton. tauto.
Qed.

Lemma initial_occupancy_reads :
  reads (fun M => shows (names steps) M v0) (initial_occupancy b manifest).
Proof.
  unfold initial_occupancy.
  assert (initial_inv [] [] []) as Hstart.
  { split; simpl.
    - constructor.
    - intros K. split; [by intros []|by intros ?%names_nil].
    - done.
    - by intros j s [? _].
    - done. }
  pose proof (initial_loop_reads [] steps [] [] eq_refl Hstart) as Hr.
  fold manifest in Hr. destruct (initial_loop b manifest [] []) as [M|[|reason]]; [|done..].
  destruct Hr as [seen [Hs Hd Hv Hf _]].
  assert (forall K o, bm_get K M = Some o -> o = v0 (loc K)) as Hval.
  { intros K [i|] Ho; [symmetry; by apply Hv|]. destruct (v0 (loc K)) as [i|] eqn:Hi; [exfalso|done].
    assert (names steps K) as HN by (by apply Hd; rewrite Ho).
    destruct (occupied_start _ _ _ _ Htracked _ _ (length steps) Hi) as [Hn|(j & s & Hfst & Hsrc)].
    - destruct HN as (s & p & parent & Hin & Hp & HK).
      destruct (names_key _ _ _ _ Hin Hp HK) as [_ Hloc]. rewrite firstn_all in Hn. apply (Hn s Hin).
      unfold endpoints in Hp. apply elem_of_cons in Hp as [[= -> ->]|[= -> ->]%list_elem_of_singleton];
        [by left|by right].
    - destruct (Hf j s Hfst) as (Ks & i' & HKs & Hi').
      destruct (names_key s (source s) (source_parent s) Ks) as [HNs Hlocs];
        [by eapply list_elem_of_lookup_2, (proj1 Hfst)|set_solver|done|].
      assert (Ks = K) as -> by (apply loc_inj; [by apply names_known|by apply names_known|congruence]).
      congruence. }
  split; [done|]. intros K o. split.
  - intros Ho. split; [apply Hd; by rewrite Ho|by apply Hval].
  - intros [HN ->]. apply Hd in HN as [o Ho]. by rewrite Ho, (Hval K o Ho).
Qed.

(** *** What the backend shows *)

Lemma observe_endpoint_reads N M s p parent :
  s ∈ steps -> (p, parent) ∈ endpoints s -> shows N M (occupant b) ->
  reads (fun M' => exists K, planned_entry_key b parent (path_leaf p) = Ok K /\
           shows (fun K' => N K' \/ K' = K) M' (occupant b))
    (observe_endpoint b p parent (identity s) (Some (kind s)) M).
Proof.
  intros Hs Hp HM. unfold observe_endpoint.
  assert (undisturbed -> exists snapshot, observe b p = Ok snapshot /\
    snapshot_parent snapshot = parent /\
    match snapshot_entry snapshot with
    | Some e => is_reparse_point e = false /\
                (observed_identity e = identity s -> observed_kind e = kind s)
    | None => True
    end) as Hu.
  { intros Hu. exact (proj2 (Hu s p parent Hs Hp)). }
  destruct (observe b p) as [snapshot|e] eqn:Ho; simpl; [|split; [done|]; by intros (? & ? & _)%Hu].
  case_bool_decide as Hpar; simpl;
    [|split; [done|]; intros (? & [= <-] & ? & _)%Hu; done].
  destruct (match snapshot_entry snapshot with Some e => is_reparse_point e | None => false end) eqn:Hrep.
  { split; [done|]. intros (? & [= <-] & _ & He)%Hu. destruct (snapshot_entry snapshot); [|done].
    destruct He as [He _]. congruence. }
  match goal with |- reads _ (if ?c then _ else _) => destruct c eqn:Hkind end.
  { split; [done|]. intros (? & [= <-] & _ & He)%Hu. destruct (snapshot_entry snapshot); [|done].
    apply andb_true_iff in Hkind as [Hid%bool_decide_eq_true Hk]. destruct He as [_ He].
    by rewrite (He Hid), bool_decide_true in Hk. }
  clear Hu Hrep Hkind. eapply reads_then; [by eapply (endpoint_key_reads s)|]. intros K HK.
  destruct (names_key _ _ _ _ Hs Hp HK) as [_ Hloc].
  assert (observed_identity <$> snapshot_entry snapshot = occupant b (loc K)) as ->.
  { rewrite <-(observe_shows _ _ _ Ho), Hkeys. by rewrite Hloc. }
  assert (match bm_get K M with Some previous => negb (bool_decide (previous = occupant b (loc K)))
    | None => false end = false) as ->.
  { destruct (bm_get K M) as [o|] eqn:HK'; [|done]. apply HM in HK' as [_ ->].
    by rewrite bool_decide_true. }
  simpl. exists K. split; [done|]. by apply shows_insert.
Qed.

Lemma observe_loop_reads l rest M :
  l ++ rest = steps -> shows (names l) M (occupant b) ->
  reads (fun M' => shows (names steps) M' (occupant b))
    (observe_loop b (map journal_step rest) M).
Proof.
  revert l M. induction rest as [|s rest IH]; intros l M Hl HM.
  { rewrite app_nil_r in Hl. by subst l. }
  assert (s ∈ steps) as Hin by (rewrite <-Hl; set_solver).
  cbn [map observe_loop journal_step step_source step_source_parent step_destination step_kind
    step_destination_parent step_entry step_expected_source with_move_authorization journal_step_new].
  eapply reads_then; [eapply observe_endpoint_reads; [done|by left|exact HM]|].
  intros M1 (K1 & HK1 & HM1).
  eapply reads_then; [eapply observe_endpoint_reads; [done|by right; left|exact HM1]|].
  intros M2 (K2 & HK2 & HM2).
  apply (IH (l ++ [s])); [by rewrite <-app_assoc|]. eapply shows_weaken; [|exact HM2].
  intros K. simpl. rewrite names_snoc, HK1, HK2. naive_solver.
Qed.
Lemma observe_all_reads :
  reads (fun M => shows (names steps) M (occupant b)) (observe_all b manifest).
Proof.
  apply (observe_loop_reads []); [done|]. split; [constructor|].
  intros K o. simpl. split; [done|]. by intros [?%names_nil _].
Qed.

(** *** Steps on the map *)

Lemma apply_step_reads M u u' s (reverse : bool) :
  s ∈ steps -> shows (names steps) M u ->
  (if reverse
   then moved u u' (key_of (destination s)) (key_of (source s)) (identity s)
   else moved u u' (key_of (source s)) (key_of (destination s)) (identity s)) ->
  reads (fun M' => shows (names steps) M' u') (apply_step b M (journal_step s) reverse).
Proof.
  intros Hs HM Hmv. unfold apply_step.
  set (ends := if reverse then (destination s, destination_parent s, source s, source_parent s)
               else (source s, source_parent s, destination s, destination_parent s)).
  assert (exists p pp q qp, ends = (p, pp, q, qp) /\ (p, pp) ∈ endpoints s /\
    (q, qp) ∈ endpoints s /\ moved u u' (key_of p) (key_of q) (identity s))
    as (p & pp & q & qp & He & Hp & Hq & Hm).
  { unfold ends, endpoints. destruct reverse; do 4 eexists; (split; [reflexivity|]); set_solver. }
  assert ((if reverse
    then (step_destination (journal_step s), step_destination_parent (journal_step s),
          step_source (journal_step s), step_source_parent (journal_step s))
    else (step_source (journal_step s), step_source_parent (journal_step s),
          step_destination (journal_step s), step_destination_parent (journal_step s))) = ends) as ->
    by (by destruct reverse).
  rewrite He. clear Hmv He. change (step_expected_source (journal_step s)) with (identity s).
  eapply reads_then; [by eapply (endpoint_key_reads s)|]. intros K1 HK1.
  eapply reads_then; [by eapply (endpoint_key_reads s)|]. intros K2 HK2.
  destruct (names_key _ _ _ _ Hs Hp HK1) as [HN1 HL1], (names_key _ _ _ _ Hs Hq HK2) as [HN2 HL2].
  rewrite HL1, HL2 in Hm. destruct Hm as (Hm1 & Hm2 & Hm3 & Hm4 & Hm5). destruct HM as [Hsort Hget].
  rewrite (bool_decide_true (bm_get K1 M = _)) by (apply Hget; by rewrite Hm1).
  rewrite (bool_decide_true (bm_get K2 M = _)) by (apply Hget; by rewrite Hm2).
  simpl. split; [by apply bm_insert_sorted, bm_insert_sorted|]. intros K o.
  rewrite !bm_lookup_insert. case_decide as E2.
  { subst K. rewrite Hm3. split; [by intros [= <-]|by intros [_ ->]]. }
  case_decide as E1.
  { subst K. rewrite Hm4. split; [by intros [= <-]|by intros [_ ->]]. }
  rewrite Hget. split; intros [HN ->]; (split; [done|]).
  - symmetry. apply Hm5; intros Heq; [apply E1|apply E2]; apply loc_inj; by try apply names_known.
  - apply Hm5; intros Heq; [apply E1|apply E2]; apply loc_inj; by try apply names_known.
Qed.

(** *** The completed records *)

Lemma manifest_lookup k s : steps !! k = Some s -> manifest !! k = Some (journal_step s).
Proof. intros Hs. unfold manifest. by rewrite list_lookup_fmap, Hs. Qed.
Lemma step_at k : (k < n)%nat -> exists s, steps !! k = Some s /\ s ∈ steps.
Proof.
  intros Hk. destruct (lookup_lt_is_Some_2 steps k Hk) as [s Hs]. exists s.
  split; [done|by eapply list_elem_of_lookup_2].
Qed.

(** The map follows the filesystem through a step, in either direction. *)
Lemma apply_index_reads M u s k reverse :
  steps !! k = Some s -> shows (names steps) M u ->
  moves key_of v0 (take (if reverse : bool then S k else k) steps) u ->
  reads (fun M' => exists u', shows (names steps) M' u' /\
           moves key_of v0 (take (if reverse then k else S k) steps) u' /\
           exists K, names steps K /\ u (loc K) <> u' (loc K))
    (apply_step b M (journal_step s) reverse).
Proof.
  intros Hs HM Hm. destruct (tracked_moves _ _ _ _ Htracked) as (v & Hv).
  destruct (moves_lookup _ _ _ _ _ _ Hv Hs) as (u0 & u1 & Hu0 & Hmv & Hu1).
  assert (s ∈ steps) as Hin by by eapply list_elem_of_lookup_2.
  assert (exists w, moves key_of v0 (take (if reverse then k else S k) steps) w /\
    if reverse
    then moved u w (key_of (destination s)) (key_of (source s)) (identity s)
    else moved u w (key_of (source s)) (key_of (destination s)) (identity s)) as (w & Hw & Hmw).
  { destruct reverse.
    - exists u0. split; [done|]. apply moved_reverse. by rewrite (moves_unique _ _ _ _ _ Hm Hu1).
    - exists u1. split; [done|]. by rewrite (moves_unique _ _ _ _ _ Hm Hu0). }
  pose proof (apply_step_reads M u w s reverse Hin HM Hmw) as Hr.
  destruct (apply_step b M (journal_step s) reverse) as [M'|h] eqn:Hap; [|exact Hr].
  exists w. split_and!; [done|done|].
  assert (exists K, planned_entry_key b (source_parent s) (path_leaf (source s)) = Ok K) as [K HK].
  { unfold apply_step in Hap. destruct reverse;
      apply result_bind_Ok in Hap as (K1 & HK1%endpoint_key_Ok & Hap);
      apply result_bind_Ok in Hap as (K2 & HK2%endpoint_key_Ok & _); by eexists. }
  destruct (names_key s (source s) (source_parent s) K) as [HN Hloc]; [done|by left|done|].
  exists K. split; [done|]. rewrite <-Hloc.
  destruct reverse; destruct Hmw as (H1 & H2 & H3 & H4 & _); congruence.
Qed.

Lemma apply_completed_reads recs st st' m j M u :
  shaped n m j st -> replay_records n recs st = Ok st' -> shows (names steps) M u ->
  moves key_of v0 (take j steps) u ->
  reads (fun M' => exists m' j' u', shaped n m' j' st' /\
           moves key_of v0 (take j' steps) u' /\ shows (names steps) M' u')
    (apply_completed b manifest recs M).
Proof.
  revert st m j M u. induction recs as [|r recs IH]; intros st m j M u Hsh Hrep HM Hmv; simpl in Hrep.
  { injection Hrep as ->. by exists m, j, u. }
  destruct (replay_record n r st) as [st1|c] eqn:Hr; [|done].
  pose proof (replay_record_shaped _ _ _ _ _ _ Hsh Hr) as Hstep.
  destruct r as [p ss|s d|s d|s d|t].
  - done.
  - assert (shaped n m j st1) as Hsh1 by (destruct d; tauto). by eapply IH.
  - assert ((s < n)%nat) as Hs.
    { destruct d; [by destruct (shaped_fp _ _ _ _ Hsh s (proj1 Hstep)) as (-> & ? & _)|].
      destruct Hstep as (_ & Hj & _). pose proof (shaped_bounds _ _ _ _ Hsh). lia. }
    destruct (step_at s Hs) as (t & Ht & _). simpl. unfold index_step.
    rewrite (manifest_lookup _ _ Ht). simpl.
    eapply reads_then; [apply (apply_index_reads M u t s (is_rollback d) Ht HM)|].
    + destruct d; simpl.
      * destruct Hstep as (Hfp & -> & _).
        destruct (shaped_fp _ _ _ _ Hsh m Hfp) as (_ & _ & Hst & _).
        by destruct (shaped_unstarted _ _ _ _ Hsh Hst) as [<- _].
      * destruct Hstep as (_ & -> & _). done.
    + intros M' (u' & HM' & Hu' & _). destruct d; simpl in Hu'.
      * destruct Hstep as (_ & -> & Hsh1 & _). by eapply IH.
      * destruct Hstep as (_ & _ & Hsh1 & _). by eapply IH.
  - destruct d; [destruct Hstep as (_ & Hsh1 & Hj & _); subst j|destruct Hstep as (_ & Hsh1 & _)];
      by eapply IH.
  - destruct Hstep as (Hsh1 & _). by eapply IH.
Qed.

(** The sets and the prepared step the scan collects are those of the replay. *)
Definition prepared_of (st : Replay) : option (nat * JournalDirection) :=
  match forward_prepared st with
  | Some s => Some (s, Forward)
  | None => (fun s => (s, Rollback)) <$> rollback_prepared st
  end.
Definition scan_of (st : Replay) : BTreeSet nat * BTreeSet nat * option (nat * JournalDirection) :=
  (completed_forward st, completed_rollback st, prepared_of st).

Lemma scan_record_replay r st st' m j :
  shaped n m j st -> replay_record n r st = Ok st' -> scan_record r (scan_of st) = scan_of st'.
Proof.
  intros Hsh Hr. pose proof (shaped_fp _ _ _ _ Hsh) as Hfp. pose proof (shaped_rp _ _ _ _ Hsh) as Hrp.
  unfold replay_record in Hr. destruct (replay_terminal st); [done|].
  unfold scan_of, prepared_of.
  destruct r as [p ss|s d|s d|s d|t]; [done| | | |by injection Hr as <-];
    (apply result_bind_Ok in Hr as ([] & _ & Hr)); destruct d; simpl in Hr |- *.
  - destruct (_ && _); [|done]. by injection Hr as <-.
  - destruct (_ && _) eqn:Hg; [|done]. case_bool_decide; [|done]. injection Hr as <-. simpl.
    apply andb_true_iff in Hg as [_ ->%bool_decide_eq_true]. done.
  - case_bool_decide as Hp; [|done]. injection Hr as <-. simpl.
    destruct (Hfp s Hp) as (_ & _ & _ & ->). done.
  - case_bool_decide as Hp; [|done]. injection Hr as <-. simpl.
    destruct (Hrp s Hp) as (_ & _ & ->). done.
  - case_bool_decide as Hp; [|done]. injection Hr as <-. simpl.
    destruct (Hfp s Hp) as (_ & _ & _ & ->). done.
  - case_bool_decide as Hp; [|done]. injection Hr as <-. simpl.
    destruct (Hrp s Hp) as (_ & _ & ->). done.
Qed.
Lemma scan_records_replay recs st :
  replay_records n recs replay_start = Ok st -> scan_records recs = scan_of st.
Proof.
  unfold scan_records. change ([], [], None) with (scan_of replay_start).
  assert (exists m j, shaped n m j replay_start) as Hsh by (exists 0%nat, 0%nat; apply shaped_start).
  revert Hsh. generalize replay_start as st0. induction recs as [|r recs IH]; intros st0 (m & j & Hsh) Hrep;
    cbn [replay_records] in Hrep; cbn [fold_left]; [by injection Hrep as ->|].
  destruct (replay_record n r st0) as [st1|c] eqn:Hr; [|done].
  rewrite (scan_record_replay _ _ _ _ _ Hsh Hr). apply IH; [|done].
  apply (replay_records_shaped n [r] st0 st1 m j Hsh). simpl. by rewrite Hr.
Qed.

Lemma shaped_unique m j m' j' st : shaped n m j st -> shaped n m' j' st -> m = m' /\ j = j'.
Proof.
  intros H1 H2. pose proof (shaped_forward _ _ _ _ H1) as F1.
  rewrite (shaped_forward _ _ _ _ H2) in F1. apply (f_equal length) in F1. rewrite !length_seq in F1.
  pose proof (shaped_rollback _ _ _ _ H1) as R1. rewrite (shaped_rollback _ _ _ _ H2) in R1.
  apply (f_equal length) in R1. rewrite !length_seq in R1.
  pose proof (shaped_bounds _ _ _ _ H1). pose proof (shaped_bounds _ _ _ _ H2). lia.
Qed.

(** *** The conclusion *)

(** What reconciliation reports of a journal in state [st] over a filesystem
    with the first [k] moves applied. *)
Definition concludes (st : Replay) (m j k : nat) (t : TransitionState) : Prop :=
  transition_forward t = seq 0 m /\ transition_rollback t = seq j (m - j) /\
  match transition_prepared t with
  | None => prepared_of st = None /\ k = j
  | Some (mkPrepared s d applied) =>
      prepared_of st = Some (s, d) /\
      k = if is_rollback d then (if applied then s else S s) else (if applied then S s else s)
  end.

Lemma matches_true M M' : occupancy_matches M M' = true <-> M = M'.
Proof. apply bool_decide_eq_true. Qed.

Lemma transition_state_reads plan recs st m j k :
  replay_records n recs replay_start = Ok st -> shaped n m j st -> accounted st m j k ->
  moves key_of v0 (take k steps) (occupant b) ->
  reads (concludes st m j k) (transition_state b (Intent plan manifest :: recs) manifest).
Proof.
  intros Hrep Hsh Hacc Hk. unfold transition_state. simpl.
  rewrite (scan_records_replay _ _ Hrep). unfold scan_of.
  eapply reads_then; [apply initial_occupancy_reads|]. intros M0 HM0.
  eapply reads_then; [eapply (apply_completed_reads recs replay_start st 0 0 M0 v0)|].
  { apply shaped_start. } { done. } { done. } { done. }
  intros M (m' & j' & u & Hsh' & Hu & HM).
  destruct (shaped_unique _ _ _ _ _ Hsh' Hsh) as [-> ->].
  eapply reads_then; [apply observe_all_reads|]. intros O HO.
  assert (occupancy_matches M O = true <-> forall K, names steps K -> u (loc K) = occupant b (loc K)) as HMO.
  { rewrite matches_true. by apply (shows_eq (names steps)). }
  destruct (prepared_of st) as [[s d]|] eqn:Hp.
  - assert (exists t, steps !! s = Some t /\
      moves key_of v0 (take (if is_rollback d then S s else s) steps) u /\
      (k = (if is_rollback d then S s else s) \/ k = (if is_rollback d then s else S s)))
      as (t & Ht & Hu' & Hkk).
    { unfold prepared_of in Hp. unfold accounted in Hacc.
      destruct (forward_prepared st) as [f|] eqn:Hf.
      - injection Hp as <- <-. destruct (shaped_fp _ _ _ _ Hsh f Hf) as (-> & Hlt & Hst & _).
        destruct (shaped_unstarted _ _ _ _ Hsh Hst) as [-> _].
        destruct (step_at m Hlt) as (t & Ht & _). by exists t.
      - destruct (rollback_prepared st) as [f'|] eqn:Hf'; [|done]. injection Hp as <- <-.
        destruct (shaped_rp _ _ _ _ Hsh f' Hf') as (<- & _).
        pose proof (shaped_bounds _ _ _ _ Hsh). destruct (step_at f') as (t & Ht & _); [lia|].
        by exists t. }
    unfold index_step. rewrite (manifest_lookup _ _ Ht). simpl.
    eapply reads_then; [apply (apply_index_reads M u t s (is_rollback d) Ht HM Hu')|].
    intros M' (u' & HM' & Hmu' & K0 & HK0 & Hdiff).
    assert (occupancy_matches M' O = true <->
      forall K, names steps K -> u' (loc K) = occupant b (loc K)) as HMO'.
    { rewrite matches_true. by apply (shows_eq (names steps)). }
    destruct Hkk as [-> | ->].
    + pose proof (moves_unique _ _ _ _ _ Hu' Hk) as Heq.
      assert (occupancy_matches M O = true) as -> by (apply HMO; intros K _; apply Heq).
      destruct (occupancy_matches M' O) eqn:HM2.
      { exfalso. apply Hdiff. rewrite (proj1 HMO' eq_refl K0 HK0). apply Heq. }
      simpl. unfold concludes. simpl. rewrite Hp.
      split_and!; [apply (shaped_forward _ _ _ _ Hsh)|apply (shaped_rollback _ _ _ _ Hsh)|done|done].
    + pose proof (moves_unique _ _ _ _ _ Hmu' Hk) as Heq.
      assert (occupancy_matches M' O = true) as -> by (apply HMO'; intros K _; apply Heq).
      destruct (occupancy_matches M O) eqn:HM2.
      { exfalso. apply Hdiff. rewrite (proj1 HMO eq_refl K0 HK0). symmetry. apply Heq. }
      simpl. unfold concludes. simpl. rewrite Hp.
      split_and!; [apply (shaped_forward _ _ _ _ Hsh)|apply (shaped_rollback _ _ _ _ Hsh)|done|done].
  - assert (k = j) as ->.
    { unfold prepared_of in Hp. unfold accounted in Hacc.
      destruct (forward_prepared st); [done|]. by destruct (rollback_prepared st). }
    pose proof (moves_unique _ _ _ _ _ Hu Hk) as Heq.
    rewrite (proj2 HMO) by (intros K _; apply Heq). simpl. unfold concludes. simpl. rewrite Hp.
    split_and!; [apply (shaped_forward _ _ _ _ Hsh)|apply (shaped_rollback _ _ _ _ Hsh)|done|done].
Qed.
End state.
