(* ===== verification/RecoverySafety.v ===== *)
(** * RecoverySafety: recovery tells the truth and can itself be interrupted

    Over any lawful backend and retained journal, and from every state a crash
    can leave, [RenameRecovery::rollback] keeps the journal accounting for the
    filesystem at every call, so that it can be run again after another crash;
    what it reports is what happened; and with adapters that do not refuse it
    restores the filesystem. *)

From S2P Require Import Prelude Collections LegacyText RenameModel Journal Effects.
From S2P Require Import Schedule Codec Executor ExecutorSafety Tracking Recovery RecoveryState.

Section safety.
Context {B J K : Type} `{HB : RenameBackend B, HJ : JournalStore J, HK : ExecutionControl K}.
Context `{!RenameBackendLaws B, !JournalStoreLaws J, !AuthorizedJournal J}.
Context `{!AuthorizedJournalLaws J, !ObservingBackend B}.
Variables (loc : PathKey -> list Z) (known : PathKey -> Prop) (key_of : LegacyText -> list Z).
Hypothesis loc_inj : forall a b, known a -> known b -> loc a = loc b -> a = b.
Variables (v0 : view) (pos0 : EntryId -> list Z) (plan : PlanId) (steps : list ScheduleStep).
Hypothesis Htracked : tracked key_of v0 pos0 steps.

Let n : nat := length steps.
Let manifest : list JournalStep := map journal_step steps.

Abbreviation crash_ok := (crash_ok (B:=B) (J:=J) (K:=K) key_of v0 plan steps).
Abbreviation at_world := (at_world (B:=B) (J:=J) (K:=K) key_of v0 plan steps).
Abbreviation fs_at := (fs_at (B:=B) (J:=J) (K:=K) key_of v0 steps).
Abbreviation crashable := (crashable steps).
Abbreviation rsafe := (safe (handle_recovery (B:=B) (J:=J) (K:=K)) crash_ok).

(** ** The calls *)

Variant rec_call (a : JournalAuthorization) :
    rec_effect B (result JournalError unit * JournalAuthorization) -> JournalRecord -> Prop :=
| rec_prepared s d : rec_call a (AuthorizedPrepared a s d) (Prepared s d)
| rec_completed s d : rec_call a (AuthorizedCompleted a s d) (Completed s d)
| rec_not_applied s d : rec_call a (AuthorizedNotApplied a s d) (NotAppliedRecord s d)
| rec_terminal t : rec_call a (AuthorizedTerminal a t) (Terminal t).

Lemma handle_rec_call a0 e record (w : World B J K) r a w' :
  rec_call a0 e record -> handle_recovery _ e w = ((r, a), w') ->
  backend w' = backend w /\
  appends_record record (journal_records (journal w)) (journal_records (journal w')) r.
Proof.
  intros Hc. destruct Hc as [s d|s d|s d|t]; cbn [handle_recovery]; unfold on_authorized;
    match goal with |- (let '(_, _) := ?m in _) = _ -> _ => destruct m as [[r1 a1] j1] eqn:Hm end;
    intros [= <- <- <-]; (split; [done|]); simpl.
  - by eapply authorized_prepared_appends.
  - by eapply authorized_completed_appends.
  - by eapply authorized_not_applied_appends.
  - by eapply authorized_terminal_appends.
Qed.

Lemma safe_append a0 e record P P' k Q continue w :
  rec_call a0 e record -> accepts n P record P' -> crashable P k -> crashable P' k ->
  at_world P k w ->
  (forall a w', at_world P' k w' -> rsafe Q (continue a) w') ->
  (forall er w', Q (Ok (RecoveryIncomplete plan (RecoveryJournal er))) w') ->
  rsafe Q (append_or_stop plan e continue) w.
Proof.
  intros He Hacc HcP HcP' Hw Hok Herr. unfold append_or_stop. simpl.
  apply safe_vis; [exact (at_world_crash_ok _ _ _ _ _ _ _ HcP Hw)|].
  intros [r a] w' [Hb Happ]%(handle_rec_call _ _ _ _ _ _ _ He).
  pose proof (append_at_world _ _ _ _ _ _ _ _ _ _ _ Hacc HcP HcP' Hw Hb Happ) as Hw'.
  destruct r as [[]|er]; [by apply Hok|]. destruct Hw' as [Hc _]. by apply safe_ret.
Qed.

Lemma reverse_operation_step s : reverse_operation (journal_step s) = rollback_operation s.
Proof. done. Qed.
Lemma forward_operation_step s : recovery_forward_operation (journal_step s) = forward_operation s.
Proof. done. Qed.

(** ** The reverse moves *)

(** What recovery promises of the state it ends in, [w0] being the one it started from. *)
Definition recovery_post (w0 : World B J K) (r : result Halt RecoveryOutcome) (w : World B J K)
  : Prop :=
  match r with
  | Ok NotRequired =>
      replay_journal (journal_records (journal w0)) = Clean /\
      journal_records (journal w) = journal_records (journal w0) /\ backend w = backend w0
  | Ok (Recovered p _) =>
      p = plan /\ fs_at 0 w /\ replay_journal (journal_records (journal w)) = Clean
  | Ok (Blocked _ reason) =>
      environmental reason /\
      (undisturbed steps (backend w0) -> exists er, reason = BlockJournal er) /\
      journal_records (journal w) = journal_records (journal w0) /\ backend w = backend w0
  | Ok (RecoveryIncomplete p _) => p = plan
  | Err _ => False
  end.

Lemma reverse_loop_safe w0 m j b restored a w :
  (j <= n)%nat -> at_world (at_rest n m j b) j w ->
  rsafe (recovery_post w0) (reverse_loop plan manifest (rev (seq 0 j)) restored a) w.
Proof.
  revert b a w. induction j as [|p IH]; intros b a w Hj Hw.
  { cbn [seq rev reverse_loop]. eapply safe_append; [constructor|apply accepts_terminal|apply crashable_rest|
      by apply crashable_ended|exact Hw| |done].
    intros a' w' Hw'. apply safe_ret.
    { eapply at_world_crash_ok; [by apply (crashable_ended _ m 0 RolledBackTerminal)|exact Hw']. }
    split; [done|]. split; [by destruct Hw' as (? & ? & ? & ?)|].
    by eapply (ended_clean _ _ _ _ m 0 RolledBackTerminal). }
  destruct (lookup_lt_is_Some_2 steps p) as [s Hs]; [unfold n in Hj; lia|].
  rewrite seq_S, Nat.add_0_l, rev_app_distr. cbn [rev app reverse_loop].
  rewrite (manifest_lookup steps p s Hs : manifest !! p = _).
  eapply safe_append; [constructor|apply accepts_prepared_rollback|apply crashable_rest| |exact Hw| |done].
  { apply crashable_rollback. by left. }
  intros a1 w1 Hw1. rewrite reverse_operation_step. simpl. apply safe_vis.
  { eapply at_world_crash_ok; [|exact Hw1]. apply crashable_rollback. by left. }
  intros r w2 Hr%(reverse_at_world _ _ _ _ _ _ _ _ _ _ Hs Hw1). destruct r as [[]|er].
  - eapply safe_append; [constructor|apply accepts_completed_rollback| |apply crashable_rest|exact Hr| |done].
    { apply crashable_rollback. by right. }
    intros a3 w3 Hw3. eapply IH; [lia|exact Hw3].
  - destruct Hr as [Hc Hna]. case_bool_decide as Hcert; [|by apply safe_ret].
    eapply safe_append; [constructor|apply accepts_not_applied_rollback| |apply crashable_rest|
      exact (Hna Hcert)| |done].
    { apply crashable_rollback. by left. }
    intros a3 w3 Hw3. apply safe_ret; [|done].
    eapply at_world_crash_ok; [apply crashable_rest|exact Hw3].
Qed.

(** ** Closing the prepared step *)

Lemma bs_difference_seq m j : (j <= m)%nat -> bs_difference (seq 0 m) (seq j (m - j)) = seq 0 j.
Proof.
  intros Hj. unfold bs_difference. replace m with (j + (m - j))%nat at 1 by lia.
  rewrite seq_app, List.filter_app. simpl.
  assert (List.filter (fun x => negb (bs_contains x (seq j (m - j)))) (seq j (m - j)) = []) as ->.
  { apply elem_of_nil_inv. intros x Hx%list_elem_of_In%filter_In. destruct Hx as [Hx%list_elem_of_In Hn].
    apply bs_contains_spec in Hx. by rewrite Hx in Hn. }
  rewrite app_nil_r. apply forallb_filter_id, forallb_forall. intros x Hx%in_seq.
  apply negb_true_iff, not_true_iff_false. rewrite bs_contains_spec, elem_of_seq. lia.
Qed.

Lemma rollback_remaining_safe w0 m j b a w :
  (j <= m <= n)%nat -> at_world (at_rest n m j b) j w ->
  rsafe (recovery_post w0) (rollback_remaining plan manifest (seq 0 m) (seq j (m - j)) a) w.
Proof.
  intros Hj Hw. unfold rollback_remaining. rewrite bs_difference_seq by lia.
  by eapply reverse_loop_safe; [lia|].
Qed.

(** The record that closes the prepared step is accepted, and leaves the sets
    of a journal at rest. *)
Lemma close_prepared_accepted st m j k s d applied w a :
  replayed plan steps w st -> shaped n m j st -> fs_at k w -> replay_terminal st = None ->
  concludes st m j k (mkTransition (seq 0 m) (seq j (m - j)) (Some (mkPrepared s d applied))) ->
  let p := mkPrepared s d applied in
  exists P record m' j' b, rec_call a (close_prepared a p) record /\
    accepts n P record (at_rest n m' j' b) /\ crashable P j' /\ at_world P j' w /\
    close_forward p (seq 0 m) = seq 0 m' /\ close_rollback p (seq j (m - j)) = seq j' (m' - j') /\
    (j' <= m' <= n)%nat.
Proof.
  intros Hrep Hsh Hfs Hterm (_ & _ & Hp & Hk). simpl in Hp, Hk.
  pose proof (shaped_bounds _ _ _ _ Hsh) as Hb. unfold prepared_of in Hp.
  unfold close_prepared, close_forward, close_rollback. simpl.
  destruct (forward_prepared st) as [f|] eqn:Hfp; [|destruct (rollback_prepared st) as [f|] eqn:Hrp; [|done]];
    injection Hp as -> <-.
  - destruct (shaped_fp _ _ _ _ Hsh s Hfp) as (-> & Hlt & Hst & _).
    destruct (shaped_unstarted _ _ _ _ Hsh Hst) as [-> _].
    assert (at_world (in_forward n m) k w) as Hw by by exists st.
    destruct applied; simpl in Hk; subst k; rewrite Nat.sub_diag.
    + exists (in_forward n m), (Completed m Forward), (S m), (S m), false.
      split_and!; [constructor|apply accepts_completed_forward|apply crashable_forward; by right|done|
        apply (bs_insert_seq_end 0 m)|by rewrite Nat.sub_diag|lia|lia].
    + exists (in_forward n m), (NotAppliedRecord m Forward), m, m, true.
      split_and!; [constructor|apply accepts_not_applied_forward|apply crashable_forward; by left|done|
        done|by rewrite Nat.sub_diag|lia|lia].
  - destruct (shaped_rp _ _ _ _ Hsh s Hrp) as (<- & _).
    assert (at_world (in_rollback n m s) k w) as Hw by by exists st.
    destruct applied; simpl in Hk; subst k.
    + exists (in_rollback n m s), (Completed s Rollback), m, s, true.
      split_and!; [constructor|apply accepts_completed_rollback|apply crashable_rollback; by right|done|
        done| |lia|lia].
      rewrite bs_insert_seq_front. f_equal. lia.
    + exists (in_rollback n m s), (NotAppliedRecord s Rollback), m, (S s), true.
      split_and!; [constructor|apply accepts_not_applied_rollback|apply crashable_rollback; by left|done|
        done|done|lia|lia].
Qed.

Lemma at_rest_world st m j k w :
  replayed plan steps w st -> shaped n m j st -> fs_at k w -> replay_terminal st = None ->
  concludes st m j k (mkTransition (seq 0 m) (seq j (m - j)) None) ->
  at_world (at_rest n m j true) j w.
Proof.
  intros Hrep Hsh Hfs Hterm (_ & _ & Hp & ->). exists st. split_and!; [done| |done].
  unfold prepared_of in Hp. destruct (forward_prepared st) eqn:?; [done|].
  by destruct (rollback_prepared st) eqn:?; [|split].
Qed.

Lemma reconcile_safe w0 st m j k t a w :
  replayed plan steps w st -> shaped n m j st -> fs_at k w ->
  replay_terminal st = None -> concludes st m j k t ->
  rsafe (recovery_post w0) (reconcile plan manifest t a) w.
Proof.
  intros Hrep Hsh Hfs Hterm Hc. pose proof (shaped_bounds _ _ _ _ Hsh) as Hb.
  destruct t as [forward rollback prepared]. pose proof Hc as (Hf & Hr & _). simpl in Hf, Hr.
  subst forward rollback. destruct prepared as [[s d applied]|]; cbn [reconcile].
  - destruct (close_prepared_accepted _ _ _ _ _ _ _ _ a Hrep Hsh Hfs Hterm Hc)
      as (P & record & m' & j' & b & He & Hacc & HcP & Hw & -> & -> & Hb').
    eapply safe_append; [exact He|exact Hacc|exact HcP|apply crashable_rest|exact Hw| |done].
    intros a' w' Hw'. by eapply rollback_remaining_safe.
  - eapply rollback_remaining_safe; [lia|]. by eapply at_rest_world.
Qed.

(** ** The whole recovery *)

(** The moves of a manifest that was authorized still are. *)
Lemma authorized_manifest :
  Forall (fun s => authorization_error (forward_operation s) = None) steps ->
  existsb unauthorized manifest = false.
Proof.
  intros Hauth. apply not_true_iff_false. intros (t & Hin%list_elem_of_In & Hun)%existsb_exists.
  apply list_elem_of_fmap in Hin as (s & -> & Hs). rewrite Forall_forall in Hauth.
  unfold unauthorized in Hun. by rewrite forward_operation_step, (Hauth s Hs) in Hun.
Qed.

(** A journal that does not replay clean after a crash. *)
Lemma crash_ok_pending w :
  crash_ok w -> replay_journal (journal_records (journal w)) <> Clean ->
  exists recs st m j k,
    journal_records (journal w) = Intent plan manifest :: recs /\
    replay_records n recs replay_start = Ok st /\ shaped n m j st /\ accounted st m j k /\
    fs_at k w /\ replay_terminal st = None.
Proof.
  intros [[He _]|(st & m & j & k & (recs & Hrecs & Hrep) & Hs & Hacc & Hfs & Ht)] Hdirty.
  { by rewrite He in Hdirty. }
  exists recs, st, m, j, k. split_and!; try done.
  destruct (replay_terminal st) as [t|] eqn:Hterm; [|done]. exfalso. apply Hdirty.
  rewrite Hrecs. simpl. rewrite length_map, Hrep. unfold classify. by rewrite Hterm, Ht.
Qed.

Lemma recover_safe w :
  crash_ok w -> endpoints_named loc known key_of steps (backend w) ->
  Forall (fun s => authorization_error (forward_operation s) = None) steps ->
  rsafe (recovery_post w) recover w.
Proof.
  intros Hc Hnamed Hauth. unfold recover. simpl. apply safe_vis; [done|].
  intros r w1. cbn [handle_recovery]. unfold on_journal. destruct (authorized_snapshot (journal w)) as [r1 j1] eqn:Hsnap.
  intros [= <- <-]. destruct (snapshot_shows _ _ _ Hsnap) as [Hj Hr].
  set (w1 := mkWorld (backend w) j1 (control w)).
  assert (forall st, replayed plan steps w st -> replayed plan steps w1 st) as Hrepl.
  { intros st Hst. by eapply replayed_same. }
  assert (forall k, fs_at k w -> fs_at k w1) as Hfs1.
  { intros k Hk. by eapply fs_same. }
  assert (crash_ok w1) as Hc1.
  { destruct Hc as [[He Hfs]|(st & m & j & k & Hst & Hs & Ha & Hfs & Ht)].
    - left. split; [|by apply Hfs1]. by rewrite <-He.
    - right. exists st, m, j, k. split_and!; try done; by (apply Hrepl || apply Hfs1). }
  destruct r1 as [[records a]|er].
  2: { apply safe_ret; [done|]. split; [done|]. split; [|done]. intros _. by eexists. }
  simpl in Hr. subst records.
  destruct (decide (replay_journal (journal_records (journal w)) = Clean)) as [Hcl|Hdirty].
  { rewrite Hcl. by apply safe_ret. }
  destruct (crash_ok_pending w Hc Hdirty) as (recs & st & m & j & k & Hrecs & Hrep & Hsh & Hacc & Hfs & Ht).
  destruct (crash_ok_replay _ _ _ _ _ Hc) as (k' & _ & Hra).
  assert (replayed plan steps w st) as Hst by (by exists recs).
  rewrite Hrecs in Hdirty, Hra |- *.
  destruct (replay_journal (Intent plan manifest :: recs)) as [|p cf cr reason] eqn:Hreplay; [done|].
  assert (forall c, reason <> Corrupt c) as Hreason by (intros c ->; by destruct Hra).
  pose proof (authorized_manifest Hauth) as Hun.
  assert (rsafe (recovery_post w)
    (prog_bind (call BorrowBackend) (fun b =>
       match transition_state b (Intent plan manifest :: recs) manifest with
       | Err (Block reason) => outcome (Blocked (Some plan) reason)
       | Err IndexPanic => Ret (Err IndexPanic)
       | Ok transitions => reconcile plan manifest transitions a
       end)) w1) as Hgo;
    [|destruct reason as [ps pd| |c]; cbn [head]; [by rewrite Hun..|by destruct (Hreason c)]].
  clear Hreason Hra Hreplay.
  simpl. apply safe_vis; [done|]. intros b w2 [= <- <-].
  pose proof (transition_state_reads loc known key_of loc_inj v0 pos0 steps Htracked (backend w)
      Hnamed (proj1 Hfs) plan recs st m j k Hrep Hsh Hacc (proj2 Hfs)) as Hts.
  destruct (transition_state _ _ _) as [t|[|reason']]; [|done|].
  - eapply reconcile_safe; [by apply Hrepl|done|by apply Hfs1|done|done].
  - destruct Hts as [Hnc Hnu]. apply safe_ret; [done|]. split; [done|]. split; [|done].
    intros Hu. by destruct (Hnu Hu).
Qed.

(** ** Recovery over adapters that do not refuse *)

Section obliging.
Variables (ready : JournalAuthorization -> J -> Prop) (willing : B -> Prop).

(** The journal accepts every append of the current authorization, and the
    backend every reverse move of a step that finds its row and a free path. *)
Record obliging : Prop := mkObliging {
  ob_append : forall a e record (w : World B J K), rec_call a e record -> ready a (journal w) ->
    exists a' w', handle_recovery _ e w = ((Ok tt, a'), w') /\ ready a' (journal w');
  ob_rename : forall s (b : B), s ∈ steps -> willing b ->
    occupant b (path_key b (destination s)) = Some (identity s) ->
    occupant b (path_key b (source s)) = None ->
    exists b', rename_no_replace (rollback_operation s) b = (Ok tt, b') /\ willing b'
}.
Hypothesis Hob : obliging.

Lemma append_recovers a e record P P' k (w : World B J K) :
  rec_call a e record -> accepts n P record P' -> crashable P k -> crashable P' k ->
  at_world P k w -> ready a (journal w) ->
  exists a' w', handle_recovery _ e w = ((Ok tt, a'), w') /\ at_world P' k w' /\
    ready a' (journal w') /\ backend w' = backend w.
Proof.
  intros He Hacc HcP HcP' Hw Hready. destruct (ob_append Hob _ _ _ _ He Hready) as (a' & w' & Hh & Hr').
  destruct (handle_rec_call _ _ _ _ _ _ _ He Hh) as [Hb Happ]. exists a', w'. split_and!; try done.
  exact (append_at_world _ _ _ _ _ _ _ _ _ _ _ Hacc HcP HcP' Hw Hb Happ).
Qed.

Lemma reverse_loop_restores m j b restored a w :
  (j <= n)%nat -> at_world (at_rest n m j b) j w -> ready a (journal w) -> willing (backend w) ->
  exists w', run handle_recovery (reverse_loop plan manifest (rev (seq 0 j)) restored a) w =
             (Ok (Recovered plan restored), w').
Proof.
  revert b a w. induction j as [|p IH]; intros b a w Hj Hw Hready Hwill.
  { cbn [seq rev reverse_loop]. unfold append_or_stop. cbn [call prog_bind run].
    destruct (append_recovers a _ _ _ _ _ w (rec_terminal a RolledBackTerminal)
      (accepts_terminal n m 0 b RolledBackTerminal) (crashable_rest _ _ _ _)
      (crashable_ended _ _ _ RolledBackTerminal eq_refl) Hw Hready) as (a' & w' & -> & _).
    simpl. by exists w'. }
  destruct (lookup_lt_is_Some_2 steps p) as [s Hs]; [unfold n in Hj; lia|].
  rewrite seq_S, Nat.add_0_l, rev_app_distr. cbn [rev app reverse_loop].
  rewrite (manifest_lookup steps p s Hs : manifest !! p = _), reverse_operation_step.
  unfold append_or_stop. cbn [call prog_bind run].
  destruct (append_recovers a _ _ _ _ _ w (rec_prepared a p Rollback)
    (accepts_prepared_rollback n m p b) (crashable_rest _ _ _ _)
    (crashable_rollback _ m p (S p) (or_introl eq_refl)) Hw Hready) as (a1 & w1 & -> & Hw1 & Hr1 & Hb1).
  cbn [call prog_bind run handle_recovery]. unfold on_backend at 1.
  pose proof Hw1 as (st & _ & _ & Hk1 & Hm1). rewrite (take_S_r _ _ _ Hs) in Hm1.
  destruct (moves_snoc_inv _ _ _ _ _ Hm1) as (u & _ & _ & _ & Hdst & Hsrc & _).
  rewrite <-!Hk1 in Hdst, Hsrc.
  destruct (ob_rename Hob s (backend w1)) as (b' & Hren & Hw'); [by eapply list_elem_of_lookup_2|
    by rewrite Hb1|done|done|].
  assert (on_backend (rename_no_replace (rollback_operation s)) w1 =
    (Ok tt, mkWorld b' (journal w1) (control w1))) as Hon by (unfold on_backend; by rewrite Hren).
  pose proof (reverse_at_world _ _ _ _ _ _ _ _ _ _ Hs Hw1 Hon) as Hw2. simpl in Hw2.
  rewrite Hren. unfold append_or_stop. cbn [call prog_bind run].
  destruct (append_recovers a1 _ _ _ _ _ (mkWorld b' (journal w1) (control w1))
    (rec_completed a1 p Rollback)
    (accepts_completed_rollback n m p) (crashable_rollback _ m p p (or_intror eq_refl))
    (crashable_rest _ _ _ _) Hw2 Hr1) as (a3 & w3 & -> & Hw3 & Hr3 & Hb3).
  cbn [call prog_bind run]. apply (IH true); [lia|done|done|by rewrite Hb3].
Qed.

Lemma rollback_remaining_restores m j b a w :
  (j <= m <= n)%nat -> at_world (at_rest n m j b) j w -> ready a (journal w) -> willing (backend w) ->
  exists w', run handle_recovery (rollback_remaining plan manifest (seq 0 m) (seq j (m - j)) a) w =
             (Ok (Recovered plan j), w').
Proof.
  intros Hj Hw Hready Hwill. unfold rollback_remaining.
  rewrite bs_difference_seq, length_rev, length_seq by lia. eapply reverse_loop_restores; [lia|done..].
Qed.

Lemma reconcile_restores st m j k t a w :
  replayed plan steps w st -> shaped n m j st -> fs_at k w ->
  replay_terminal st = None -> concludes st m j k t -> ready a (journal w) -> willing (backend w) ->
  exists restored w', run handle_recovery (reconcile plan manifest t a) w =
                      (Ok (Recovered plan restored), w').
Proof.
  intros Hrep Hsh Hfs Hterm Hc Hready Hwill. pose proof (shaped_bounds _ _ _ _ Hsh) as Hb.
  destruct t as [forward rollback prepared]. pose proof Hc as (Hf & Hr & _). simpl in Hf, Hr.
  subst forward rollback. destruct prepared as [[s d applied]|]; cbn [reconcile].
  - destruct (close_prepared_accepted _ _ _ _ _ _ _ _ a Hrep Hsh Hfs Hterm Hc)
      as (P & record & m' & j' & b & He & Hacc & HcP & Hw & Hcf & Hcr & Hb').
    unfold append_or_stop. cbn [call prog_bind run].
    destruct (append_recovers _ _ _ _ _ _ _ He Hacc HcP (crashable_rest _ _ _ _) Hw Hready)
      as (a' & w' & -> & Hw' & Hready' & Hb1).
    rewrite Hcf, Hcr. cbn [prog_bind run]. exists j'.
    eapply rollback_remaining_restores; [done|done|done|by rewrite Hb1].
  - exists j. eapply rollback_remaining_restores; [lia|by eapply at_rest_world|done|done].
Qed.

(** Every interrupted transaction is restored when the backend shows it
    undisturbed and the adapters do what they are asked. *)
Lemma recover_restores w :
  crash_ok w -> endpoints_named loc known key_of steps (backend w) ->
  undisturbed steps (backend w) ->
  Forall (fun s => authorization_error (forward_operation s) = None) steps ->
  (exists a j, authorized_snapshot (journal w) =
     (Ok (mkJournalSnapshot (journal_records (journal w)) a), j) /\ ready a j) ->
  willing (backend w) -> replay_journal (journal_records (journal w)) <> Clean ->
  exists restored w', run handle_recovery recover w = (Ok (Recovered plan restored), w').
Proof.
  intros Hc Hnamed Hu Hauth (a & j1 & Hsnap & Hready) Hwill Hdirty.
  destruct (snapshot_shows _ _ _ Hsnap) as [Hj _].
  destruct (crash_ok_pending w Hc Hdirty) as (recs & st & m & j & k & Hrecs & Hrep & Hsh & Hacc & Hfs & Ht).
  destruct (crash_ok_replay _ _ _ _ _ Hc) as (k' & _ & Hra).
  set (w1 := mkWorld (backend w) j1 (control w)).
  assert (replayed plan steps w1 st) as Hst by (exists recs; split; [simpl; by rewrite Hj|done]).
  assert (fs_at k w1) as Hfs1 by by eapply fs_same.
  unfold recover. cbn [call prog_bind run handle_recovery]. unfold on_journal. rewrite Hsnap.
  fold w1. rewrite Hrecs in Hdirty, Hra |- *.
  pose proof (authorized_manifest Hauth) as Hun.
  pose proof (transition_state_reads loc known key_of loc_inj v0 pos0 steps Htracked (backend w)
    Hnamed (proj1 Hfs) plan recs st m j k Hrep Hsh Hacc (proj2 Hfs)) as Hts.
  fold manifest in Hts.
  assert (exists restored w', run handle_recovery
    (prog_bind (call BorrowBackend) (fun b =>
       match transition_state b (Intent plan manifest :: recs) manifest with
       | Err (Block reason) => outcome (Blocked (Some plan) reason)
       | Err IndexPanic => Ret (Err IndexPanic)
       | Ok transitions => reconcile plan manifest transitions a
       end)) w1 = (Ok (Recovered plan restored), w')) as Hgo.
  { cbn [call prog_bind run handle_recovery]. simpl backend.
    destruct (transition_state (backend w) (Intent plan manifest :: recs) manifest) as [t|[|reason]];
      [|done|by destruct Hts as [_ []]].
    by eapply reconcile_restores. }
  destruct (replay_journal (Intent plan manifest :: recs)) as [|p cf cr [ps pd| |c]]; [done| | |by destruct Hra];
    cbn [head]; by rewrite Hun.
Qed.
End obliging.
End safety.
