(* ===== verification/Lifetime.v ===== *)
(** * Lifetime: execution, crashes and recovery together

    A transaction is executed once; the process may die at any call, be started
    again on the journal and the filesystem it left, recover, die again, and so
    on.  The results compose the guarantees of Transaction and RecoverySafety
    over every such history. *)

From stdpp Require Import gmap.
From S2P Require Import Prelude Collections LegacyText RenameModel Journal Effects.
From S2P Require Import Schedule Codec Executor Reading MemoryBackend ExecutorSafety.
From S2P Require Import ScheduleCorrect Tracking Transaction Recovery RecoveryState RecoverySafety.
#[local] Open Scope Z_scope.

Section lifetime.
Context {B J K : Type} `{HB : RenameBackend B, HJ : JournalStore J, HK : ExecutionControl K}.
Context `{!RenameBackendLaws B, !JournalStoreLaws J, !AuthorizedJournal J}.
Context `{!AuthorizedJournalLaws J, !ObservingBackend B}.
Variables (loc : PathKey -> list Z) (known : PathKey -> Prop).

(** [w] holds the journal of a transaction over [steps]. *)
Definition journal_of (steps : list ScheduleStep) (w : World B J K) : Prop :=
  exists plan, head (journal_records (journal w)) = Some (Intent plan (map journal_step steps)).

(** The process restarted: new adapters over the same journal and files, which
    name the journalled endpoints as before. *)
Record reopened (w w' : World B J K) : Prop := mkReopened {
  re_records : journal_records (journal w') = journal_records (journal w);
  re_occupant : forall k, occupant (backend w') k = occupant (backend w) k;
  re_keys : forall p, path_key (backend w') p = path_key (backend w) p;
  re_named : forall steps, journal_of steps w' ->
    endpoints_named loc known (path_key (backend w')) steps (backend w')
}.

(** The worlds the histories of one transaction pass through. *)
Inductive lifetime (plan : RenamePlan) (w : World B J K) : World B J K -> Prop :=
| life_executing w' :
    interrupted handle (execute_with_control plan) w w' -> lifetime plan w w'
| life_recovering w1 w2 w3 :
    lifetime plan w w1 -> reopened w1 w2 -> interrupted handle_recovery recover w2 w3 ->
    lifetime plan w w3.

Section fixed.
Variables (plan : RenamePlan) (key_of : LegacyText -> list Z) (v0 : view).
Hypothesis Hplan : plan_observed plan loc known key_of v0
  (answers_of (B:=B) (J:=J) (K:=K) key_of v0).

Abbreviation transaction_ok := (transaction_ok (B:=B) (J:=J) (K:=K) key_of v0 plan).
Abbreviation untouched := (untouched (B:=B) (J:=J) (K:=K) key_of v0).

Lemma cleared_tracked steps :
  scheduled (B:=B) (J:=J) (K:=K) key_of v0 plan steps -> cleared plan steps ->
  tracked key_of v0 (plan_position plan loc) steps.
Proof.
  intros Hs [Hids _]. destruct (scheduled_arrives_along _ _ _ _ _ _ Hplan Hs) as [(v & Hm & _) [pos Hpos]].
  by eapply scheduled_tracked.
Qed.

Lemma reopened_ok w w' : reopened w w' -> transaction_ok w -> transaction_ok w'.
Proof.
  intros [Hr Ho Hk _]. assert (keys_fixed key_of w -> keys_fixed key_of w') as Hkf.
  { intros Hkw p. by rewrite Hk. }
  assert (forall steps k, fs_at key_of v0 steps k w -> fs_at key_of v0 steps k w') as Hfs.
  { intros steps k [Hkw Hm]. split; [by apply Hkf|]. eapply moves_ext; [exact Hm|]. intros x. by rewrite Ho. }
  intros [(Hj & Hkw & Hv)|(steps & Hs & Hcl & Hc)].
  - left. split_and!; [by rewrite Hr|by apply Hkf|]. intros x. by rewrite Ho.
  - right. exists steps. split_and!; [done|done|].
    destruct Hc as [[He Hf]|(st & m & j & k & (recs & Hrecs & Hrep) & Hsh & Ha & Hf & Ht)].
    + left. split; [by rewrite Hr|by apply Hfs].
    + right. exists st, m, j, k. split_and!; try done; [|by apply Hfs]. exists recs. by rewrite Hr.
Qed.

Lemma transaction_keys w : transaction_ok w -> forall p, path_key (backend w) p = key_of p.
Proof.
  intros [(_ & Hk & _)|(steps & _ & _ & [[_ [Hk _]]|(st & m & j & k & _ & _ & _ & [Hk _] & _)])]; exact Hk.
Qed.
Lemma named_keys steps (b : B) :
  (forall p, path_key b p = key_of p) -> endpoints_named loc known (path_key b) steps b ->
  endpoints_named loc known key_of steps b.
Proof. intros Hk Hn s p parent Q Hs Hp HQ. rewrite <-Hk. by eapply Hn. Qed.

(** What a recovery reports, of the transaction as a whole. *)
Definition recovered_post (w0 : World B J K) (r : result Halt RecoveryOutcome) (w : World B J K)
  : Prop :=
  match r with
  | Ok NotRequired =>
      replay_journal (journal_records (journal w0)) = Clean /\
      journal_records (journal w) = journal_records (journal w0) /\ backend w = backend w0
  | Ok (Recovered p _) =>
      p = plan_id plan /\ view_eq v0 (occupant (backend w)) /\
      replay_journal (journal_records (journal w)) = Clean
  | Ok (Blocked _ reason) =>
      environmental reason /\
      journal_records (journal w) = journal_records (journal w0) /\ backend w = backend w0
  | Ok (RecoveryIncomplete p _) => p = plan_id plan
  | Err _ => False
  end.

Lemma recover_untouched w :
  untouched w -> safe handle_recovery untouched (recovered_post w) recover w.
Proof.
  intros Hw. pose proof Hw as (Hj & Hk & Hv). unfold recover. simpl. apply safe_vis; [done|].
  intros r w1. cbn [handle_recovery]. unfold on_journal.
  destruct (authorized_snapshot (journal w)) as [r1 j1] eqn:Hs. intros [= <- <-].
  destruct (snapshot_shows _ _ _ Hs) as [Hj1 Hr].
  assert (untouched (mkWorld (backend w) j1 (control w))) as Hw1 by (split; [simpl; congruence|done]).
  destruct r1 as [[records a]|er]; [|by apply safe_ret; [|split_and!]].
  simpl in Hr. subst records. rewrite Hj. apply safe_ret; [done|]. unfold recovered_post. rewrite Hj.
  split_and!; [done| |done]. simpl. congruence.
Qed.

(** The recovery of a journal begun over [steps]. *)
Lemma recover_begun steps w :
  scheduled (B:=B) (J:=J) (K:=K) key_of v0 plan steps -> cleared plan steps ->
  crash_ok key_of v0 (plan_id plan) steps w ->
  endpoints_named loc known key_of steps (backend w) ->
  safe handle_recovery (crash_ok key_of v0 (plan_id plan) steps) (recovered_post w) recover w.
Proof.
  intros Hs Hcl Hc Hn.
  eapply safe_weaken; [apply (recover_safe loc known key_of (po_inj _ _ _ _ _ _ Hplan) v0
    (plan_position plan loc) (plan_id plan) steps (cleared_tracked _ Hs Hcl) w Hc Hn (proj2 Hcl))|done|].
  intros [[|p restored|p reason|p failure]|h] w'; try done.
  - by intros (-> & [_ Hfs] & Hclean).
  - by intros (? & _ & ? & ?).
Qed.

Lemma recover_transaction w :
  transaction_ok w ->
  (forall steps, journal_of steps w -> endpoints_named loc known (path_key (backend w)) steps (backend w)) ->
  safe handle_recovery transaction_ok (recovered_post w) recover w.
Proof.
  intros Hw Hn. pose proof (transaction_keys w Hw) as Hk.
  destruct Hw as [Hu|(steps & Hs & Hcl & Hc)].
  { eapply safe_weaken; [by apply recover_untouched|by left|done]. }
  destruct Hc as [[He Hfs]|(st & m & j & k & Hst & Hc)].
  { assert (untouched w) as Hu by (split; [done|exact Hfs]).
    eapply safe_weaken; [by apply recover_untouched|by left|done]. }
  eapply safe_weaken; [eapply (recover_begun steps w Hs Hcl)| |done].
  - right. by exists st, m, j, k.
  - apply named_keys; [done|]. apply Hn. destruct Hst as (recs & Hrecs & _). exists (plan_id plan).
    by rewrite Hrecs.
  - intros w' Hw'. right. by exists steps.
Qed.

Lemma lifetime_ok w w' : untouched w -> lifetime plan w w' -> transaction_ok w'.
Proof.
  intros Hu. induction 1 as [w' Hint|w1 w2 w3 _ IH Hre Hint].
  - eapply safe_interrupted; [by apply execute_safe|done].
  - eapply safe_interrupted; [|exact Hint]. apply recover_transaction; [by eapply reopened_ok|].
    apply (re_named _ _ Hre).
Qed.
End fixed.

(** ** Properties *)

(** C10: However often the process dies, during the execution of a plan or during
    any of the recoveries that follow: either nothing was journalled and every path
    is occupied as before, or the journal starts with the intent of a schedule
    computed for the plan, what is on disk is exactly the first [k] moves of that
    same schedule, and the journal accounts for [k] up to the one move it reports
    prepared: recovery can always be run again. *)
Theorem recovery_crash_safe plan (w w' : World B J K) :
  journal_records (journal w) = [] ->
  plan_observed plan loc known (path_key (backend w)) (occupant (backend w))
    (answers_of (B:=B) (J:=J) (K:=K) (path_key (backend w)) (occupant (backend w))) ->
  lifetime plan w w' ->
  (journal_records (journal w') = [] /\ forall q, occupant (backend w') q = occupant (backend w) q) \/
  exists steps k,
    scheduled (B:=B) (J:=J) (K:=K) (path_key (backend w)) (occupant (backend w)) plan steps /\
    head (journal_records (journal w')) = Some (Intent (plan_id plan) (map journal_step steps)) /\
    moves (path_key (backend w)) (occupant (backend w)) (take k steps) (occupant (backend w')) /\
    recovery_accounts (plan_id plan) steps k (replay_journal (journal_records (journal w'))).
Proof.
  intros Hj Hplan Hlife.
  destruct (transaction_left _ _ _ _ (lifetime_ok plan _ _ Hplan w w' (untouched_start w Hj) Hlife))
    as [H|(steps & Hs & k & H)]; [by left|]. right. by exists steps, k.
Qed.

(** C11: Recovery tells the truth.  After any history of crashes it never panics;
    NotRequired means that the journal is clean and nothing was done; Recovered
    means that every path is occupied as before the execution and that the
    journal is clean; and Blocked, which leaves everything as it is, is never
    for a corrupt journal or an unauthorized step, only for what the adapters
    show. *)
Theorem recovery_outcome plan (w w1 w2 : World B J K) r w3 :
  journal_records (journal w) = [] ->
  plan_observed plan loc known (path_key (backend w)) (occupant (backend w))
    (answers_of (B:=B) (J:=J) (K:=K) (path_key (backend w)) (occupant (backend w))) ->
  lifetime plan w w1 -> reopened w1 w2 -> run handle_recovery recover w2 = (r, w3) ->
  match r with
  | Ok NotRequired =>
      replay_journal (journal_records (journal w2)) = Clean /\
      journal_records (journal w3) = journal_records (journal w2) /\ backend w3 = backend w2
  | Ok (Recovered p _) =>
      p = plan_id plan /\ (forall k, occupant (backend w3) k = occupant (backend w) k) /\
      replay_journal (journal_records (journal w3)) = Clean
  | Ok (Blocked _ reason) =>
      environmental reason /\
      journal_records (journal w3) = journal_records (journal w2) /\ backend w3 = backend w2
  | Ok (RecoveryIncomplete p _) => p = plan_id plan
  | Err _ => False
  end.
Proof.
  intros Hj Hplan Hlife Hre Hr.
  pose proof (lifetime_ok plan _ _ Hplan w w1 (untouched_start w Hj) Hlife) as Hok.
  pose proof (recover_transaction plan _ _ Hplan w2 (reopened_ok _ _ _ w1 w2 Hre Hok)
    (re_named _ _ Hre)) as Hs.
  apply (safe_run _ _ _ _ _ _ _ Hs) in Hr as [Hpost _].
  destruct r as [[|p restored|p reason|p failure]|h]; try exact Hpost.
  destruct Hpost as (? & Hv & ?). split_and!; [done| |done]. intros k. symmetry. apply Hv.
Qed.

(** C12: Recovery succeeds.  After any history of crashes, when the journal is not
    clean, the backend shows every endpoint undisturbed, the journal accepts the
    appends of its current authorization and the backend every reverse move that
    finds its row and a free path, [rollback] ends, it ends as Recovered, and
    every path is occupied as before the execution. *)
Theorem recovery_restores plan (ready : JournalAuthorization -> J -> Prop) (willing : B -> Prop)
    (w w1 w2 : World B J K) :
  journal_records (journal w) = [] ->
  plan_observed plan loc known (path_key (backend w)) (occupant (backend w))
    (answers_of (B:=B) (J:=J) (K:=K) (path_key (backend w)) (occupant (backend w))) ->
  lifetime plan w w1 -> reopened w1 w2 ->
  replay_journal (journal_records (journal w2)) <> Clean ->
  (forall steps, journal_of steps w2 ->
     undisturbed steps (backend w2) /\ obliging (B:=B) (J:=J) (K:=K) steps ready willing) ->
  (exists a j, authorized_snapshot (journal w2) =
     (Ok (mkJournalSnapshot (journal_records (journal w2)) a), j) /\ ready a j) ->
  willing (backend w2) ->
  exists restored w3,
    run handle_recovery recover w2 = (Ok (Recovered (plan_id plan) restored), w3) /\
    (forall k, occupant (backend w3) k = occupant (backend w) k) /\
    replay_journal (journal_records (journal w3)) = Clean.
Proof.
  intros Hj Hplan Hlife Hre Hdirty Hob Hsnap Hwill.
  pose proof (lifetime_ok plan _ _ Hplan w w1 (untouched_start w Hj) Hlife) as Hok.
  apply (reopened_ok _ _ _ w1 w2 Hre) in Hok. pose proof (transaction_keys _ _ _ w2 Hok) as Hk.
  pose proof (recover_transaction plan _ _ Hplan w2 Hok (re_named _ _ Hre)) as Hs.
  destruct Hok as [(He & _)|(steps & Hsch & Hcl & Hc)]; [by rewrite He in Hdirty|].
  destruct (crash_ok_pending _ _ _ _ w2 Hc Hdirty) as (recs & _ & _ & _ & _ & Hrecs & _).
  assert (journal_of steps w2) as Hjo by (exists (plan_id plan); by rewrite Hrecs).
  destruct (Hob steps Hjo) as [Hund Hobl].
  destruct (recover_restores loc known _ (po_inj _ _ _ _ _ _ Hplan) _ (plan_position plan loc)
    (plan_id plan) steps (cleared_tracked plan _ _ Hplan _ Hsch Hcl) ready willing Hobl w2 Hc
    (named_keys _ _ _ Hk (re_named _ _ Hre _ Hjo)) Hund (proj2 Hcl) Hsnap Hwill Hdirty)
    as (restored & w3 & Hr).
  exists restored, w3. split; [done|].
  apply (safe_run _ _ _ _ _ _ _ Hs) in Hr as [(_ & Hv & Hclean) _]. split; [|done].
  intros k. symmetry. apply Hv.
Qed.

(** *** The abstract specification: an atomic rename *)

(** All rows at once, or nothing. *)
Inductive atomic_rename (plan : RenamePlan) (key_of : LegacyText -> list Z) (v0 : view)
  : view -> Prop :=
| atomic_none v : view_eq v0 v -> atomic_rename plan key_of v0 v
| atomic_all v : arrived plan key_of v0 v -> atomic_rename plan key_of v0 v.

(** C3: Execution and recovery refine an atomic rename.  However the histories of
    a plan go, whenever the journal is clean the filesystem is in a state the
    atomic specification allows: every row of the plan at its destination and
    nothing else changed, or everything as before. *)
Theorem clean_refines_atomic plan (w w' : World B J K) :
  journal_records (journal w) = [] ->
  plan_observed plan loc known (path_key (backend w)) (occupant (backend w))
    (answers_of (B:=B) (J:=J) (K:=K) (path_key (backend w)) (occupant (backend w))) ->
  lifetime plan w w' -> replay_journal (journal_records (journal w')) = Clean ->
  atomic_rename plan (path_key (backend w)) (occupant (backend w)) (occupant (backend w')).
Proof.
  intros Hj Hplan Hlife Hclean.
  destruct (lifetime_ok plan _ _ Hplan w w' (untouched_start w Hj) Hlife)
    as [(_ & _ & Hv)|(steps & Hs & _ & Hc)]; [by constructor|].
  destruct (crash_ok_replay _ _ _ _ _ Hc) as (k & [_ Hm] & Ha). rewrite Hclean in Ha.
  destruct Ha as [-> | ->]; [by constructor|]. rewrite take_ge in Hm by done.
  destruct (scheduled_arrives _ _ _ _ _ _ Hplan Hs) as (v & Hmv & Hat & Helse).
  pose proof (moves_unique _ _ _ _ _ Hm Hmv) as Heq. apply atomic_all. split.
  - intros r e Hr He. rewrite Heq. by apply Hat.
  - intros x Hx. rewrite Heq. by apply Helse.
Qed.
End lifetime.

(** ** The in-memory adapters oblige *)

Definition memory_ready (a : JournalAuthorization) (j : MemoryJournal) : Prop :=
  a = mkAuthorization (memory_identity j) (memory_generation j) /\
  invalidate_next_authorized_append j = false.
(** No injected failure, the given directories, and only files. *)
Definition memory_willing (b0 b : MemoryBackend) : Prop :=
  failures b = ∅ /\ parent_identities b = parent_identities b0 /\
  forall k e, entries b !! k = Some e -> stored_kind e = File.

Lemma memory_snapshot_ready (j : MemoryJournal) :
  invalidate_next_authorized_append j = false ->
  exists a j', authorized_snapshot j = (Ok (mkJournalSnapshot (journal_records j) a), j') /\
    memory_ready a j'.
Proof. intros Hj. by eexists _, j. Qed.
Lemma memory_willing_check (b0 b : MemoryBackend) :
  bool_decide (failures b = ∅) && bool_decide (parent_identities b = parent_identities b0)
    && bool_decide (map_Forall (fun _ e => stored_kind e = File) (entries b)) = true ->
  memory_willing b0 b.
Proof.
  intros [[?%bool_decide_eq_true ?%bool_decide_eq_true]%andb_true_iff Hk%bool_decide_eq_true]%andb_true_iff.
  split_and!; [done|done|]. by apply map_Forall_lookup.
Qed.

(** The moves of [s] stay among the directories and files of [b0]. *)
Definition memory_move (b0 : MemoryBackend) (s : JournalStep) : bool :=
  let op := reverse_operation s in
  bool_decide (authorization_error op = None)
  && bool_decide (parent_identity b0 (step_source s) = step_source_parent s)
  && bool_decide (parent_identity b0 (step_destination s) = step_destination_parent s)
  && bool_decide (step_kind s = Some File)
  && (volume (step_source_parent s) =? volume (step_destination_parent s)).

Lemma memory_obliges (b0 : MemoryBackend) steps :
  Forall (fun s => memory_move b0 (journal_step s) = true) steps ->
  obliging (B:=MemoryBackend) (J:=MemoryJournal) (K:=CancellationToken) steps memory_ready
    (memory_willing b0).
Proof.
  intros Hmove. split.
  - intros a e record [b j k] Hc [-> Hinv]. simpl in Hinv. destruct Hc; cbn [handle_recovery]; unfold on_authorized;
      simpl; unfold memory_authorized_push; rewrite Hinv; simpl; rewrite !Z.eqb_refl; simpl;
      by eexists _, _.
  - intros s b Hs (Hf & Hp & Hk) Hdst Hsrc. rewrite Forall_forall in Hmove. specialize (Hmove s Hs).
    unfold memory_move in Hmove. rewrite reverse_operation_step in Hmove.
    apply andb_true_iff in Hmove as [[[[Ha%bool_decide_eq_true Hps%bool_decide_eq_true]%andb_true_iff
      Hpd%bool_decide_eq_true]%andb_true_iff Hfile%bool_decide_eq_true]%andb_true_iff Hvol].
    assert (forall b1 p, parent_identities b1 = parent_identities b0 ->
      parent_identity b1 p = parent_identity b0 p) as Hpar.
    { intros b1 p Hb1. unfold parent_identity. by rewrite Hb1. }
    simpl in Hdst, Hsrc. unfold memory_occupant in Hdst, Hsrc.
    apply fmap_Some in Hdst as (e & He & Hid). apply fmap_None in Hsrc.
    eexists. simpl rename_no_replace. unfold memory_rename_no_replace. rewrite Ha, Hf. cbv zeta.
    cbn [failures entries parent_identities completed_moves next_nonce].
    rewrite lookup_empty.
    assert (rename_checks (rollback_operation s) (mkMemory (entries b) (parent_identities b) ∅
      (usize_add (move_attempts b) 1) (completed_moves b) (next_nonce b)) = Ok e) as ->.
    { unfold rename_checks, rollback_operation, with_authorization.
      cbn [op_source op_destination expected_source expected_source_parent
        expected_destination_parent op_kind entries].
      rewrite (Hpar _ (source s)), (Hpar _ (destination s)) by done.
      cbn [journal_step step_source step_destination step_source_parent step_destination_parent
        step_kind with_move_authorization journal_step_new] in Hps, Hpd, Hvol, Hfile.
      injection Hfile as Hfile. rewrite Hps, Hpd, Hsrc, He, Hid, (Hk _ _ He), Hfile.
      rewrite !(bool_decide_true (_ = _)) by done. rewrite bool_decide_false by (by intros []).
      simpl. by rewrite Z.eqb_sym, Hvol. }
    split; [reflexivity|]. split_and!; [done|done|]. intros k e'. simpl.
    rewrite lookup_insert_Some. intros [[_ <-]|[_ Hl%lookup_delete_Some]]; [by eapply Hk|].
    destruct Hl as [_ Hl]. by eapply Hk.
Qed.

(** ** A concrete history: the swap killed after its first move, recovered *)

Abbreviation ExampleWorld := (World MemoryBackend MemoryJournal CancellationToken).

(** The journalled steps of the example pass any executable test the recorded
    manifest passes. *)
Lemma example_manifest {J} `{HJ : JournalStore J, !JournalStoreLaws J} (w : World MemoryBackend J CancellationToken)
    (test : JournalStep -> bool) :
  match journal_records (journal w) with
  | Intent _ steps :: _ => forallb test steps
  | _ => false
  end = true ->
  forall steps, journal_of steps w -> Forall (fun s => test (journal_step s) = true) steps.
Proof.
  intros Ht steps [plan Hp]. destruct (journal_records (journal w)) as [|[p ss| | | |] recs]; try done.
  injection Hp as -> ->. apply Forall_forall. intros s Hs.
  eapply forallb_forall in Ht; [done|]. apply list_elem_of_In, list_elem_of_fmap. by exists s.
Qed.

Definition example_endpoint (b : MemoryBackend) (s : JournalStep) (path : LegacyText)
    (parent : EntryIdentity) : bool :=
  match memory_planned_entry_key parent (path_leaf path) with
  | Ok K => bool_decide (example_known K) && bool_decide (memory_path_key path = example_loc K)
  | Err _ => false
  end
  && bool_decide (parent_identity b path = parent)
  && match entries b !! memory_path_key path with
     | Some e => negb (stored_reparse e) && bool_decide (Some (stored_kind e) = step_kind s)
     | None => true
     end.
Definition example_step (b : MemoryBackend) (s : JournalStep) : bool :=
  example_endpoint b s (step_source s) (step_source_parent s)
  && example_endpoint b s (step_destination s) (step_destination_parent s).

Lemma example_endpoints b s p parent :
  example_step b (journal_step s) = true -> (p, parent) ∈ endpoints s ->
  example_endpoint b (journal_step s) p parent = true.
Proof.
  intros [H1 H2]%andb_true_iff. unfold endpoints. intros Hp.
  apply elem_of_cons in Hp as [[= -> ->]|[= -> ->]%list_elem_of_singleton]; done.
Qed.
Lemma example_named (b : MemoryBackend) steps :
  Forall (fun s => example_step b (journal_step s) = true) steps ->
  endpoints_named example_loc example_known (path_key b) steps b.
Proof.
  intros Hall s p parent K Hs Hp HK. rewrite Forall_forall in Hall.
  pose proof (example_endpoints _ _ _ _ (Hall s Hs) Hp) as He. unfold example_endpoint in He.
  simpl in HK. rewrite HK in He.
  by apply andb_true_iff in He as [[[? %bool_decide_eq_true ?%bool_decide_eq_true]%andb_true_iff _]%andb_true_iff _].
Qed.
Lemma example_undisturbed (b : MemoryBackend) steps :
  Forall (fun s => example_step b (journal_step s) = true) steps -> undisturbed steps b.
Proof.
  intros Hall s p parent Hs Hp. rewrite Forall_forall in Hall.
  pose proof (example_endpoints _ _ _ _ (Hall s Hs) Hp) as He. unfold example_endpoint in He.
  apply andb_true_iff in He as [[He Hpar%bool_decide_eq_true]%andb_true_iff Hent].
  split.
  - simpl. destruct (memory_planned_entry_key parent (path_leaf p)) as [K|]; [by exists K|done].
  - eexists. split; [reflexivity|]. split; [done|]. simpl.
    destruct (entries b !! memory_path_key p) as [e|]; [|done]. simpl.
    apply andb_true_iff in Hent as [->%negb_true_iff Hk%bool_decide_eq_true].
    split; [done|]. intros _. by injection Hk.
Qed.

Lemma example_reopened (w : ExampleWorld) :
  match journal_records (journal w) with
  | Intent _ steps :: _ => forallb (example_step (backend w)) steps
  | _ => false
  end = true ->
  reopened example_loc example_known w w.
Proof. intros Ht. split; [done..|]. intros steps Hj. by eapply example_named, example_manifest. Qed.

Lemma example_lifetime :
  lifetime example_loc example_known example_plan (example_world []) example_crash.
Proof. apply life_executing. apply interrupt_after_interrupted. Qed.

(** The crash, and a recovery killed in turn after its reverse move. *)
Definition example_second_crash : ExampleWorld :=
  (interrupt_after handle_recovery 4 recover example_crash).2.

Lemma recovery_crash_safe_witness :
  memory_file_id (text "C:\a") (backend example_second_crash) = Some 10 /\
  replay_journal (journal_records (journal example_second_crash)) <> Clean /\
  exists steps k,
    scheduled (B:=MemoryBackend) (J:=MemoryJournal) (K:=CancellationToken)
      (path_key example_backend) (occupant example_backend) example_plan steps /\
    head (journal_records (journal example_second_crash)) = Some (Intent 5 (map journal_step steps)) /\
    moves (path_key example_backend) (occupant example_backend) (take k steps)
      (occupant (backend example_second_crash)) /\
    recovery_accounts 5 steps k
      (replay_journal (journal_records (journal example_second_crash))).
Proof.
  split; [vm_compute; reflexivity|]. split; [vm_compute; discriminate|].
  destruct (recovery_crash_safe example_loc example_known example_plan (example_world []) example_second_crash)
    as [[H _]|H]; [reflexivity|apply example_observed| |vm_compute in H; discriminate H|exact H].
  eapply life_recovering; [apply example_lifetime|apply example_reopened; vm_compute; reflexivity|].
  apply interrupt_after_interrupted.
Defined.

Lemma recovery_outcome_witness :
  let '(r, w3) := run handle_recovery recover example_crash in
  r = Ok (Recovered 5 1) /\
  (forall k, occupant (backend w3) k = occupant example_backend k) /\
  replay_journal (journal_records (journal w3)) = Clean.
Proof.
  destruct (run handle_recovery recover example_crash) as [r w3] eqn:Hr.
  assert (r = Ok (Recovered 5 1)) as -> by (change r with (fst (r, w3)); rewrite <-Hr; vm_compute; reflexivity).
  split; [reflexivity|].
  exact (proj2 (recovery_outcome example_loc example_known example_plan (example_world []) example_crash
    example_crash (Ok (Recovered 5 1)) w3 eq_refl example_observed example_lifetime
    (example_reopened example_crash ltac:(vm_compute; reflexivity)) Hr)).
Defined.

Lemma recovery_restores_witness :
  exists restored w3,
    run handle_recovery recover example_second_crash = (Ok (Recovered 5 restored), w3) /\
    (forall k, occupant (backend w3) k = occupant example_backend k) /\
    replay_journal (journal_records (journal w3)) = Clean.
Proof.
  apply (recovery_restores example_loc example_known example_plan memory_ready
    (memory_willing example_backend) (example_world []) example_second_crash);
    [reflexivity|apply example_observed| | | | | |].
  - eapply life_recovering; [apply example_lifetime|apply example_reopened; vm_compute; reflexivity|].
    apply interrupt_after_interrupted.
  - apply example_reopened. vm_compute. reflexivity.
  - vm_compute. discriminate.
  - intros steps Hj. split.
    + apply example_undisturbed. eapply example_manifest; [|exact Hj]. vm_compute. reflexivity.
    + apply memory_obliges. eapply example_manifest; [|exact Hj]. vm_compute. reflexivity.
  - apply memory_snapshot_ready. vm_compute. reflexivity.
  - apply memory_willing_check. vm_compute. reflexivity.
Defined.

Lemma clean_refines_atomic_witness :
  memory_file_id (text "C:\a") (backend (run handle_recovery recover example_crash).2) = Some 10 /\
  atomic_rename example_plan (path_key example_backend) (occupant example_backend)
    (occupant (backend (run handle_recovery recover example_crash).2)).
Proof.
  split; [vm_compute; reflexivity|].
  exact (clean_refines_atomic example_loc example_known example_plan (example_world [])
    (run handle_recovery recover example_crash).2 eq_refl example_observed
    (life_recovering _ _ _ _ example_crash example_crash _ example_lifetime
       (example_reopened example_crash ltac:(vm_compute; reflexivity))
       (run_interrupted handle_recovery recover example_crash))
    ltac:(vm_compute; reflexivity)).
Defined.
