(* ===== verification/Planner.v ===== *)
(** * Planner: from a request to an immutable plan

    [crates/darknamer-app/src/rename/planner.rs], with [PlanIssue] and
    [PlanError] of [model.rs].  Planning only reads the backend, which is an
    argument; the cancellation closure answers one poll after the other, and the
    issues found so far are the other part of the state. *)

From S2P Require Import Prelude Collections LegacyText RenameModel Codec.

Definition MAX_PLAN_PATH_DEPTH : nat := 256.

(** ** Issues *)

Inductive PlanIssueKind : Type :=
| RelativeSource | RelativeDestinationParent
| InvalidDestinationName (error : WindowsLeafNameError)
| MissingSource | SourceKindChanged | ReparseSource
| DuplicateDestination | DuplicateEntryId | DuplicateSource
| CrossParent | CrossVolume | DirectoryMoveUnsupported | SourceOverlap | PathTooDeep
| UnsupportedCaseSensitiveParent | UnsupportedWindowsPath | UnsupportedFilesystem
| DestinationOccupied | PlanBackend
| BackendFailure (error : BackendError).

Record PlanIssue : Type := mkIssue { issue_entry : EntryId; issue_kind : PlanIssueKind }.

Inductive PlanAttemptError : Type :=
| PlanCancelled
| PlanRefused (issues : list PlanIssue).

(** ** Planning steps *)

Record Planning : Type := mkPlanning { polls : list bool; issues : list PlanIssue }.
Abbreviation Plan := (SE Planning PlanAttemptError).

(** One poll of the closure; when the answers are used up it says no. *)
Definition plan_check_cancelled : Plan unit := fun s =>
  match polls s with
  | [] => (Ok tt, s)
  | cancelled :: rest =>
      let s := mkPlanning rest (issues s) in
      if cancelled : bool then (Err PlanCancelled, s) else (Ok tt, s)
  end.
Definition push_issue (id : EntryId) (kind : PlanIssueKind) : Plan unit := fun s =>
  (Ok tt, mkPlanning (polls s) (issues s ++ [mkIssue id kind])).
(** [if !issues.is_empty() { return Err(PlanError::new(issues).into()) }]. *)
Definition refuse_issues : Plan unit := fun s =>
  match issues s with [] => (Ok tt, s) | found => (Err (PlanRefused found), s) end.

(** [if !issues.is_empty() { return Ok(()) }] before [p]. *)
Definition when_no_issue (p : Plan unit) : Plan unit := fun s =>
  match issues s with [] => p s | _ => (Ok tt, s) end.

(** A [for] loop over [l] that carries [acc]. *)
Fixpoint plan_fold {A S} (f : S -> A -> Plan S) (acc : S) (l : list A) : Plan S :=
  match l with
  | [] => mret acc
  | x :: l' => acc ← f acc x; plan_fold f acc l'
  end.
Definition plan_each {A} (f : A -> Plan unit) (l : list A) : Plan unit :=
  plan_fold (fun _ x => f x) tt l.

(** [entry(key).or_default().push(value)]. *)
Definition bm_push {K V} `{Ordered K} (k : K) (v : V) (m : BTreeMap K (list V))
  : BTreeMap K (list V) := bm_insert k (default [] (bm_get k m) ++ [v]) m.

(** ** Paths *)

Definition is_ascii_letter (unit : Z) : bool :=
  ((65 <=? unit) && (unit <=? 90)) || ((97 <=? unit) && (unit <=? 122)).
Definition QUESTION_MARK : Z := 63.

(** [units[index] == unit]; an index out of range panics, but the length is
    always tested first. *)
Definition unit_is (units : LegacyText) (index : nat) (p : Z -> bool) : bool :=
  match units !! index with Some unit => p unit | None => false end.

Definition verbatim_drive_root_separator (units : LegacyText) : option nat :=
  if (7 <=? length units)%nat
     && unit_is units 0 (Z.eqb BACKSLASH) && unit_is units 1 (Z.eqb BACKSLASH)
     && unit_is units 2 (Z.eqb QUESTION_MARK) && unit_is units 3 (Z.eqb BACKSLASH)
     && unit_is units 4 is_ascii_letter && unit_is units 5 (Z.eqb COLON)
     && unit_is units 6 (Z.eqb BACKSLASH)
  then Some 6%nat else None.

Definition is_ancestor_separator (verbatim : bool) (unit : Z) : bool :=
  (unit =? BACKSLASH) || (negb verbatim && (unit =? SLASH)).

Definition is_absolute_windows_path (units : LegacyText) : bool :=
  let drive_absolute :=
    (3 <=? length units)%nat && unit_is units 0 is_ascii_letter
    && unit_is units 1 (Z.eqb COLON) && unit_is units 2 is_path_separator in
  let unc_absolute :=
    (2 <=? length units)%nat && unit_is units 0 is_path_separator
    && unit_is units 1 is_path_separator in
  drive_absolute || unc_absolute.

(** Where the components start, and whether only a backslash separates. *)
Definition component_start (units : LegacyText) : nat * bool :=
  match verbatim_drive_root_separator units with
  | Some root => (S root, true)
  | None =>
      if (3 <=? length units)%nat && unit_is units 1 (Z.eqb COLON)
         && unit_is units 2 is_path_separator
      then (3%nat, false) else (0%nat, false)
  end.
Fixpoint count_components (verbatim : bool) (units : list Z) (in_component : bool) (depth : nat)
  : nat :=
  match units with
  | [] => depth
  | unit :: units' =>
      if is_ancestor_separator verbatim unit then count_components verbatim units' false depth
      else if negb in_component then count_components verbatim units' true (S depth)
      else count_components verbatim units' in_component depth
  end.
Definition path_component_depth (units : LegacyText) : nat :=
  let '(start, verbatim) := component_start units in
  count_components verbatim (drop start units) false 0.

(** The loop of [visit_direct_ancestors]; the visitor returns whether to stop. *)
Fixpoint ancestor_loop {S} (fuel : nat) (verbatim : bool) (root_separator : nat)
    (ancestor : LegacyText) (visit : LegacyText -> S -> Plan (bool * S)) (acc : S) : Plan S :=
  match fuel with
  | O => mret acc
  | Datatypes.S fuel =>
      plan_check_cancelled;;
      match rposition (is_ancestor_separator verbatim) ancestor with
      | None => mret acc
      | Some separator =>
          if (separator <=? root_separator)%nat then mret acc
          else
            let ancestor := truncate_units ancestor separator in
            if is_empty ancestor then mret acc
            else
              '(stop, acc) ← visit ancestor acc;
              if stop : bool then mret acc
              else ancestor_loop fuel verbatim root_separator ancestor visit acc
      end
  end.
Definition visit_direct_ancestors {S} (path : LegacyText)
    (visit : LegacyText -> S -> Plan (bool * S)) (acc : S) : Plan S :=
  let verbatim := bool_decide (is_Some (verbatim_drive_root_separator path)) in
  let root_separator := default 2%nat (verbatim_drive_root_separator path) in
  ancestor_loop MAX_PLAN_PATH_DEPTH verbatim root_separator path visit acc.

(** ** Validation of an intent *)

Definition push_if (condition : bool) (id : EntryId) (kind : PlanIssueKind) : Plan unit :=
  if condition then push_issue id kind else mret tt.

Definition source_path_validation (intent : RenameIntent) : bool * bool :=
  ((MAX_PLAN_PATH_DEPTH <? path_component_depth (intent_source intent))%nat,
   negb (is_absolute_windows_path (intent_source intent))).

Definition validate_intent (intent : RenameIntent) : Plan unit :=
  let '(source_too_deep, relative_source) := source_path_validation intent in
  push_if (source_too_deep
           || (MAX_PLAN_PATH_DEPTH <? path_component_depth (intent_destination_parent intent))%nat)
    (intent_id intent) PathTooDeep;;
  push_if relative_source (intent_id intent) RelativeSource;;
  push_if (negb (is_absolute_windows_path (intent_destination_parent intent)))
    (intent_id intent) RelativeDestinationParent;;
  match validate_windows_leaf_name (intent_destination_name intent) with
  | Err error => push_issue (intent_id intent) (InvalidDestinationName error)
  | Ok _ => mret tt
  end.

Definition validate_source_path (intent : RenameIntent) : Plan unit :=
  let '(too_deep, relative) := source_path_validation intent in
  push_if too_deep (intent_id intent) PathTooDeep;;
  push_if relative (intent_id intent) RelativeSource.

Definition path_environment_issue (error : BackendError) : PlanIssueKind :=
  if code error =? 50 then UnsupportedCaseSensitiveParent
  else if code error =? 53 then UnsupportedWindowsPath
  else if code error =? 1005 then UnsupportedFilesystem
  else BackendFailure error.
Definition is_not_found_error (error : BackendError) : bool :=
  (code error =? 2) || (code error =? 3).

(** ** The plan identifier: a 64-bit FNV-1a hash of the request *)

Definition hash_byte (hash byte : Z) : Z := (Z.lxor hash byte * 1099511628211) mod 2 ^ 64.
Definition hash_value (hash value : Z) : Z := fold_left hash_byte (le_bytes 8 value) hash.
Definition hash_text (hash : Z) (t : LegacyText) : Z :=
  fold_left hash_value t (hash_value hash (zlen t)).
Definition scope_number (scope : MoveScope) : Z :=
  match scope with SameParent => 0 | SameVolumeFilesOnly => 1 end.
Definition kind_number (kind : EntryKind) : Z := match kind with File => 0 | Directory => 1 end.

Definition hash_intent (hash : Z) (intent : RenameIntent) : Z :=
  let hash := hash_value hash (intent_id intent) in
  let hash := hash_value hash (kind_number (intent_kind intent)) in
  let hash := hash_text hash (intent_source intent) in
  hash_text hash (intent_destination intent).

Definition plan_id_cancellable (request : PlanRequest) : Plan PlanId :=
  let hash := 14695981039346656037 in
  let hash := hash_value hash 4923085631112740865 in
  let hash := hash_value hash (request_revision request) in
  let hash := hash_value hash (scope_number (request_scope request)) in
  let hash := hash_value hash (zlen (request_entries request)) in
  plan_fold (fun hash intent => plan_check_cancelled;; mret (hash_intent hash intent)) hash
    (request_entries request).

(** ** Duplicates *)

Definition shared {A} (owners : list A) : bool := (1 <? length owners)%nat.

Definition append_duplicate_issues (owner_sets : list (list EntryId)) (kind : PlanIssueKind)
  : Plan unit :=
  plan_each (fun owners =>
    plan_check_cancelled;;
    plan_each (fun entry => plan_check_cancelled;; push_issue entry kind) owners)
    (List.filter shared owner_sets).

Record SourceCandidate : Type := mkCandidate {
  candidate_id : EntryId;
  candidate_path : LegacyText;
  candidate_entry_key : option PathKey;
  candidate_changed : bool
}.
Definition SourceCandidates : Type :=
  BTreeMap (EntryIdentity * EntryIdentity) (list SourceCandidate).

Definition unchanged (intent : RenameIntent) : bool :=
  bool_decide (intent_source intent = intent_destination intent).

Section planner.
Context {B : Type} `{RenameBackend B}.
Variable b : B.

Definition changed_candidate (candidates : SourceCandidates) (row : PlanRow)
  : Plan SourceCandidates :=
  plan_check_cancelled;;
  mret (match snapshot_entry (source_snapshot row) with
        | Some source =>
            bm_push (snapshot_parent (source_snapshot row), observed_identity source)
              (mkCandidate (row_id row) (row_source row) (Some (source_entry_key row)) true)
              candidates
        | None => candidates
        end).
Definition unchanged_candidate (candidates : SourceCandidates) (intent : RenameIntent)
  : Plan SourceCandidates :=
  plan_check_cancelled;;
  match observe b (intent_source intent) with
  | Ok (mkSnapshot parent (Some source)) =>
      mret (bm_push (parent, observed_identity source)
              (mkCandidate (intent_id intent) (intent_source intent) None false) candidates)
  | Ok (mkSnapshot _ None) => mret candidates
  | Err error =>
      if is_not_found_error error then mret candidates
      else push_issue (intent_id intent) (BackendFailure error);; mret candidates
  end.

Definition candidate_key (candidate : SourceCandidate) : Plan (option PathKey) :=
  match candidate_entry_key candidate with
  | Some key => mret (Some key)
  | None =>
      match resolve_source b (candidate_path candidate) with
      | Ok source => mret (resolved_entry_key source)
      | Err error =>
          if is_not_found_error error then mret None
          else push_issue (candidate_id candidate) (BackendFailure error);; mret None
      end
  end.

Definition contested (group : list SourceCandidate) : bool :=
  shared group && existsb candidate_changed group.

Definition normalized_owner (owners : BTreeMap PathKey (list SourceCandidate))
    (candidate : SourceCandidate) : Plan (BTreeMap PathKey (list SourceCandidate)) :=
  plan_check_cancelled;;
  key ← candidate_key candidate;
  mret (match key with Some key => bm_push key candidate owners | None => owners end).

Definition group_duplicates (duplicates : BTreeSet EntryId) (group : list SourceCandidate)
  : Plan (BTreeSet EntryId) :=
  plan_check_cancelled;;
  normalized ← plan_fold normalized_owner [] group;
  plan_fold (fun duplicates owners =>
      plan_check_cancelled;; mret (bs_extend (map candidate_id owners) duplicates))
    duplicates (List.filter contested (bm_values normalized)).

Definition append_actual_duplicate_source_issues (request : list RenameIntent)
    (changed_entries : list PlanRow) : Plan unit :=
  match changed_entries with
  | [] => mret tt
  | _ :: _ =>
      candidates ← plan_fold changed_candidate [] changed_entries;
      candidates ← plan_fold unchanged_candidate candidates (List.filter unchanged request);
      when_no_issue
        (duplicates ← plan_fold group_duplicates [] (List.filter contested (bm_values candidates));
         plan_each (fun entry => plan_check_cancelled;; push_issue entry DuplicateSource) duplicates)
  end.

(** ** Overlapping directories *)

Definition record_identity_overlap (identity : EntryIdentity) (candidate : EntryId)
    (exclude_candidate : bool) (directory_owners : BTreeMap EntryIdentity (list EntryId))
    (overlap : BTreeSet EntryId) : bool * BTreeSet EntryId :=
  match bm_get identity directory_owners with
  | None => (false, overlap)
  | Some owners =>
      if exclude_candidate && forallb (fun owner => owner =? candidate) owners
      then (false, overlap)
      else (true, bs_extend owners (bs_insert candidate overlap))
  end.

(** The two comparisons made with one snapshot. *)
Definition record_snapshot_overlap (snapshot : PathSnapshot) (candidate : EntryId)
    (compare_entry exclude_candidate : bool)
    (directory_owners : BTreeMap EntryIdentity (list EntryId)) (overlap : BTreeSet EntryId)
  : bool * BTreeSet EntryId :=
  let '(entry_matches, overlap) :=
    match snapshot_entry snapshot with
    | Some entry =>
        if compare_entry && bool_decide (observed_kind entry = Directory)
        then record_identity_overlap (observed_identity entry) candidate exclude_candidate
               directory_owners overlap
        else (false, overlap)
    | None => (false, overlap)
    end in
  let '(parent_matches, overlap) :=
    record_identity_overlap (snapshot_parent snapshot) candidate false directory_owners overlap in
  (entry_matches || parent_matches, overlap).

(** [DirectoryOverlapInspection::inspect]. *)
Definition inspect (directory_owners : BTreeMap EntryIdentity (list EntryId))
    (endpoint : LegacyText) (candidate : EntryId) (observation : result BackendError PathSnapshot)
    (compare_endpoint_entry : bool) (overlap : BTreeSet EntryId) : Plan (BTreeSet EntryId) :=
  let ancestors overlap :=
    visit_direct_ancestors endpoint (fun ancestor overlap =>
      match observe b ancestor with
      | Err error =>
          if is_not_found_error error then mret (false, overlap)
          else push_issue candidate (BackendFailure error);; mret (true, overlap)
      | Ok snapshot =>
          mret (record_snapshot_overlap snapshot candidate true false directory_owners overlap)
      end) overlap in
  match observation with
  | Ok snapshot =>
      let '(endpoint_matches, overlap) :=
        record_snapshot_overlap snapshot candidate compare_endpoint_entry true directory_owners
          overlap in
      if endpoint_matches : bool then mret overlap else ancestors overlap
  | Err error =>
      if is_not_found_error error then ancestors overlap
      else push_issue candidate (BackendFailure error);; mret overlap
  end.

(** ** One row *)

Definition skip (id : EntryId) (kind : PlanIssueKind) : Plan (option PlanRow) :=
  push_issue id kind;; mret None.

(** From the resolved source on: the destination and the authorized movement. *)
Definition plan_destination (scope : MoveScope) (intent : RenameIntent)
    (resolved : ResolvedSource) (source_entry : ObservedEntry) (key : PathKey)
  : Plan (option PlanRow) :=
  let id := intent_id intent in
  let source := resolved_snapshot resolved in
  match observe b (intent_destination intent) with
  | Err error => skip id (BackendFailure error)
  | Ok destination =>
      plan_check_cancelled;;
      let parents_differ := negb (bool_decide (snapshot_parent source = snapshot_parent destination)) in
      let volume_differs :=
        negb (volume (observed_identity source_entry) =? volume (snapshot_parent source))
        || negb (volume (snapshot_parent source) =? volume (snapshot_parent destination)) in
      let cross_parent := parents_differ && bool_decide (scope = SameParent) in
      let directory_move :=
        parents_differ && bool_decide (scope = SameVolumeFilesOnly)
        && bool_decide (observed_kind source_entry = Directory) in
      push_if cross_parent id CrossParent;;
      push_if directory_move id DirectoryMoveUnsupported;;
      push_if volume_differs id CrossVolume;;
      if cross_parent || directory_move || volume_differs then mret None
      else
        match planned_entry_key b (snapshot_parent destination) (intent_destination_name intent) with
        | Err error => skip id (BackendFailure error)
        | Ok destination_key =>
            mret (Some (mkRow id (resolved_path resolved) (intent_destination intent)
                          (intent_kind intent) source destination key destination_key))
        end
  end.

Definition plan_row_of (scope : MoveScope) (intent : RenameIntent) : Plan (option PlanRow) :=
  let id := intent_id intent in
  plan_check_cancelled;;
  match resolve_source b (intent_source intent) with
  | Err error => skip id (BackendFailure error)
  | Ok resolved =>
      let source := resolved_snapshot resolved in
      plan_check_cancelled;;
      match snapshot_entry source with
      | None => skip id MissingSource
      | Some source_entry =>
          if negb (bool_decide (observed_kind source_entry = intent_kind intent))
          then skip id SourceKindChanged
          else
            match resolved_entry_key resolved with
            | None => skip id PlanBackend
            | Some key =>
                let actual := resolved_path resolved in
                if (MAX_PLAN_PATH_DEPTH <? path_component_depth actual)%nat
                   || negb (is_absolute_windows_path actual)
                then skip id PlanBackend
                else
                  match planned_entry_key b (snapshot_parent source) (path_leaf actual) with
                  | Err error => skip id (BackendFailure error)
                  | Ok planned =>
                      if negb (bool_decide (planned = key)) then skip id PlanBackend
                      else if is_reparse_point source_entry then skip id ReparseSource
                      else plan_destination scope intent resolved source_entry key
                  end
            end
      end
  end.

(** The rows, and the snapshots kept for the overlap inspection. *)
Record PlannedRows : Type := mkPlannedRows {
  planned_rows : list PlanRow;
  source_snapshots : BTreeMap EntryId PathSnapshot;
  destination_snapshots : BTreeMap EntryId PathSnapshot
}.
Definition plan_rows (scope : MoveScope) (has_changed_directory : bool)
    (changed : list RenameIntent) : Plan PlannedRows :=
  plan_fold (fun acc intent =>
      row ← plan_row_of scope intent;
      mret (match row with
            | None => acc
            | Some row =>
                mkPlannedRows (planned_rows acc ++ [row])
                  (if has_changed_directory
                   then bm_insert (intent_id intent) (source_snapshot row) (source_snapshots acc)
                   else source_snapshots acc)
                  (if has_changed_directory
                   then bm_insert (intent_id intent) (destination_snapshot row)
                          (destination_snapshots acc)
                   else destination_snapshots acc)
            end))
    (mkPlannedRows [] [] []) changed.

(** ** The phases of [plan_cancellable] *)

Definition collect_changed (entries : list RenameIntent) : Plan (list RenameIntent) :=
  plan_fold (fun changed intent =>
      plan_check_cancelled;;
      mret (if unchanged intent then changed else changed ++ [intent])) [] entries.

Definition validate_request (request : list RenameIntent) (changed : list RenameIntent)
  : Plan unit :=
  plan_each (fun intent => plan_check_cancelled;; validate_intent intent) changed;;
  (if bool_decide (changed = []) then mret tt
   else plan_each (fun intent => plan_check_cancelled;; validate_source_path intent)
          (List.filter unchanged request));;
  refuse_issues.

Definition check_environment (changed : list RenameIntent) : Plan unit :=
  plan_each (fun intent =>
      plan_check_cancelled;;
      plan_each (fun path =>
          plan_check_cancelled;;
          match validate_path_environment b path with
          | Ok _ => mret tt
          | Err error => push_issue (intent_id intent) (path_environment_issue error)
          end) [intent_source intent; intent_destination intent]) changed;;
  refuse_issues.

(** The owners of each source key, of each identifier and of each destination
    key. *)
Definition Owners : Type :=
  BTreeMap PathKey (list EntryId) * BTreeMap EntryId (list EntryId)
  * BTreeMap PathKey (list EntryId).
Definition collect_owners (changed : list RenameIntent) : Plan Owners :=
  plan_fold (fun '(source_owners, entry_owners, destination_owners) intent =>
      plan_check_cancelled;;
      let id := intent_id intent in
      mret (bm_push (path_key b (intent_source intent)) id source_owners,
            bm_push id id entry_owners,
            bm_push (path_key b (intent_destination intent)) id destination_owners))
    ([], [], []) changed.

Definition source_overlaps (source_owners : BTreeMap PathKey (list EntryId))
    (changed : list RenameIntent) : Plan (BTreeSet EntryId) :=
  plan_fold (fun overlap intent =>
      plan_check_cancelled;;
      visit_direct_ancestors (intent_source intent) (fun ancestor overlap =>
          mret (false,
                match bm_get (path_key b ancestor) source_owners with
                | Some owners => bs_extend owners (bs_insert (intent_id intent) overlap)
                | None => overlap
                end)) overlap) [] changed.

Definition push_overlaps (overlap : BTreeSet EntryId) : Plan unit :=
  plan_each (fun entry => plan_check_cancelled;; push_issue entry SourceOverlap) overlap.

Definition check_owners (changed : list RenameIntent) : Plan unit :=
  '(source_owners, entry_owners, destination_owners) ← collect_owners changed;
  append_duplicate_issues (bm_values source_owners) DuplicateSource;;
  append_duplicate_issues (bm_values entry_owners) DuplicateEntryId;;
  append_duplicate_issues (bm_values destination_owners) DuplicateDestination;;
  overlap ← source_overlaps source_owners changed;
  push_overlaps overlap;;
  refuse_issues.

Definition check_actual_destinations (rows : list PlanRow) : Plan unit :=
  owners ← plan_fold (fun owners row =>
      plan_check_cancelled;; mret (bm_push (destination_entry_key row) (row_id row) owners))
    [] rows;
  append_duplicate_issues (bm_values owners) DuplicateDestination;;
  refuse_issues.

Definition check_actual_sources (request : list RenameIntent) (rows : list PlanRow) : Plan unit :=
  append_actual_duplicate_source_issues request rows;;
  refuse_issues.

Definition directory_identity_owners (rows : list PlanRow)
  : Plan (BTreeMap EntryIdentity (list EntryId)) :=
  plan_fold (fun owners row =>
      plan_check_cancelled;;
      mret (match row_kind row, snapshot_entry (source_snapshot row) with
            | Directory, Some source => bm_push (observed_identity source) (row_id row) owners
            | _, _ => owners
            end)) [] rows.

Definition check_directories (has_changed_directory : bool) (request changed : list RenameIntent)
    (rows : PlannedRows) : Plan unit :=
  owners ← (if has_changed_directory then directory_identity_owners (planned_rows rows)
            else mret []);
  (if bool_decide (owners = []) then mret tt
   else
     overlap ← plan_fold (fun overlap intent =>
         plan_check_cancelled;;
         let observation :=
           if unchanged intent then observe b (intent_source intent)
           else match bm_get (intent_id intent) (source_snapshots rows) with
                | Some snapshot => Ok snapshot
                | None => observe b (intent_source intent)
                end in
         inspect owners (intent_source intent) (intent_id intent) observation true overlap)
       [] request;
     overlap ← plan_fold (fun overlap intent =>
         plan_check_cancelled;;
         let observation :=
           match bm_get (intent_id intent) (destination_snapshots rows) with
           | Some snapshot => Ok snapshot
           | None => observe b (intent_destination intent)
           end in
         inspect owners (intent_destination intent) (intent_id intent) observation false overlap)
       overlap changed;
     push_overlaps overlap);;
  refuse_issues.

Definition check_occupied (rows : list PlanRow) : Plan unit :=
  planned_source_keys ← plan_fold (fun keys row =>
      plan_check_cancelled;; mret (bs_insert (source_entry_key row) keys)) [] rows;
  plan_each (fun row =>
      plan_check_cancelled;;
      push_if (bool_decide (is_Some (snapshot_entry (destination_snapshot row)))
               && negb (bs_contains (destination_entry_key row) planned_source_keys))
        (row_id row) DestinationOccupied) rows;;
  refuse_issues.

Definition plan_request (request : PlanRequest) : Plan RenamePlan :=
  let entries := request_entries request in
  changed ← collect_changed entries;
  let has_changed_directory :=
    existsb (fun intent => bool_decide (intent_kind intent = Directory)) changed in
  validate_request entries changed;;
  check_environment changed;;
  check_owners changed;;
  rows ← plan_rows (request_scope request) has_changed_directory changed;
  refuse_issues;;
  check_actual_destinations (planned_rows rows);;
  check_actual_sources entries (planned_rows rows);;
  check_directories has_changed_directory entries changed rows;;
  check_occupied (planned_rows rows);;
  plan_check_cancelled;;
  id ← plan_id_cancellable request;
  mret (mkPlan id (request_revision request) (planned_rows rows) (request_scope request)).

(** [RenamePlanner::plan_cancellable], given the answers of the closure. *)
Definition plan_cancellable (request : PlanRequest) (answers : list bool)
  : result PlanAttemptError RenamePlan :=
  (plan_request request (mkPlanning answers [])).1.

(** [RenamePlanner::plan]: the closure is [|| false]; [None] is the
    [unreachable!] arm. *)
Definition plan (request : PlanRequest) : option (result (list PlanIssue) RenamePlan) :=
  match plan_cancellable request [] with
  | Ok plan => Some (Ok plan)
  | Err (PlanRefused found) => Some (Err found)
  | Err PlanCancelled => None
  end.
End planner.
