(* ===== verification/PlannerLogic.v ===== *)
(** * PlannerLogic: reasoning about planning steps

    Planning only adds issues ([grows]), and the answers of the cancellation
    closure matter only when one is yes ([poll_independent]).  [sound p Q] is
    the partial specification of a step: a run that ends without any issue has
    a result in [Q].  A phase closed by [refuse_issues] therefore hands its [Q]
    to the next one. *)

From S2P Require Import Prelude Collections LegacyText RenameModel Codec Planner.

(** ** Walking a planning step *)

Create HintDb planning discriminated.

(** ** Issues accumulate *)

Definition grows {A} (p : Plan A) : Prop :=
  forall s r s', p s = (r, s') -> exists found, issues s' = issues s ++ found.

Lemma grows_same {A} (p : Plan A) :
  (forall s r s', p s = (r, s') -> issues s' = issues s) -> grows p.
Proof. intros H s r s' Hp. exists []. rewrite app_nil_r. by eapply H. Qed.
Lemma grows_ret {A} (a : A) : grows (mret a).
Proof. apply grows_same. by intros s r s' [= _ <-]. Qed.
Lemma grows_check : grows plan_check_cancelled.
Proof.
  apply grows_same. intros s r s'. unfold plan_check_cancelled.
  destruct (polls s) as [|[] rest]; by intros [= _ <-].
Qed.
Lemma grows_push id kind : grows (push_issue id kind).
Proof. intros s r s' [= _ <-]. by eexists. Qed.
Lemma grows_refuse : grows refuse_issues.
Proof.
  apply grows_same. intros s r s'. unfold refuse_issues.
  destruct (issues s) eqn:E; intros [= _ <-]; exact E.
Qed.
Lemma grows_bind {A A'} (p : Plan A) (f : A -> Plan A') :
  grows p -> (forall a, grows (f a)) -> grows (p ≫= f).
Proof.
  intros Hp Hf s r s'. unfold mbind, SE_bind. destruct (p s) as [[a|e] s1] eqn:E.
  - intros H. destruct (Hp _ _ _ E) as [l1 H1], (Hf _ _ _ _ H) as [l2 H2].
    exists (l1 ++ l2). by rewrite H2, H1, app_assoc.
  - intros [= _ <-]. by eapply Hp.
Qed.
Lemma grows_when p : grows p -> grows (when_no_issue p).
Proof.
  intros Hp s r s'. unfold when_no_issue. destruct (issues s) as [|i l] eqn:E.
  - intros H. destruct (Hp _ _ _ H) as [found Hl]. exists found. by rewrite Hl, E.
  - intros [= _ <-]. exists []. by rewrite app_nil_r.
Qed.
Lemma grows_fold {A S} (f : S -> A -> Plan S) acc l :
  (forall acc x, grows (f acc x)) -> grows (plan_fold f acc l).
Proof.
  intros Hf. revert acc. induction l as [|x l IH]; intros acc; simpl; [apply grows_ret|].
  by apply grows_bind.
Qed.
Lemma grows_ancestors {S} fuel verbatim root ancestor visit (acc : S) :
  (forall a acc, grows (visit a acc)) -> grows (ancestor_loop fuel verbatim root ancestor visit acc).
Proof.
  intros Hv. revert ancestor acc. induction fuel as [|fuel IH]; intros ancestor acc; simpl; [apply grows_ret|].
  apply grows_bind; [apply grows_check|intros []].
  destruct (rposition _ ancestor); [|apply grows_ret]. destruct (_ <=? _)%nat; [apply grows_ret|].
  destruct (is_empty _); [apply grows_ret|]. apply grows_bind; [apply Hv|].
  intros [[] acc']; [apply grows_ret|apply IH].
Qed.
#[export] Hint Resolve grows_ret grows_check grows_push grows_refuse grows_when : planning.

(** ** Cancellation only cancels *)

Definition poll_independent {A} (p : Plan A) : Prop :=
  forall answers found,
    let '(r, s') := p (mkPlanning answers found) in
    let '(r0, s0) := p (mkPlanning [] found) in
    r0 <> Err PlanCancelled /\ polls s0 = [] /\
    (r = Err PlanCancelled \/ (r = r0 /\ issues s' = issues s0)).

Lemma poll_ret {A} (a : A) : poll_independent (mret a).
Proof. intros answers found. split_and!; [done|done|by right]. Qed.
Lemma poll_check : poll_independent plan_check_cancelled.
Proof. intros [|[] rest] found; simpl; (split_and!; [done|done|]); [by right|by left|by right]. Qed.
Lemma poll_push id kind : poll_independent (push_issue id kind).
Proof. intros answers found. split_and!; [done|done|by right]. Qed.
Lemma poll_refuse : poll_independent refuse_issues.
Proof. intros answers found. unfold refuse_issues. simpl.
  destruct found; (split_and!; [done|done|by right]). Qed.
Lemma poll_bind {A A'} (p : Plan A) (f : A -> Plan A') :
  poll_independent p -> (forall a, poll_independent (f a)) -> poll_independent (p ≫= f).
Proof.
  intros Hp Hf answers found. specialize (Hp answers found). unfold mbind, SE_bind.
  destruct (p (mkPlanning answers found)) as [r s1], (p (mkPlanning [] found)) as [r0 s0].
  destruct Hp as (Hc & Hn & Hp). destruct s1 as [q1 i1], s0 as [q0 i0]. simpl in *. subst q0.
  destruct r0 as [a|e].
  - specialize (Hf a q1 i0). destruct Hp as [->|[-> ->]]; [|exact Hf].
    destruct (f a (mkPlanning q1 i0)), (f a (mkPlanning [] i0)).
    destruct Hf as (? & ? & _). split_and!; [done|done|by left].
  - assert (@Err PlanAttemptError A' e <> Err PlanCancelled) as He by (intros [= ->]; by apply Hc).
    destruct Hp as [->|[-> ->]]; (split_and!; [exact He|done|]); [by left|by right].
Qed.
Lemma poll_when p : poll_independent p -> poll_independent (when_no_issue p).
Proof.
  intros Hp answers found. unfold when_no_issue. simpl.
  destruct found; [apply Hp|]. split_and!; [done|done|by right].
Qed.
Lemma poll_fold {A S} (f : S -> A -> Plan S) acc l :
  (forall acc x, poll_independent (f acc x)) -> poll_independent (plan_fold f acc l).
Proof.
  intros Hf. revert acc. induction l as [|x l IH]; intros acc; simpl; [apply poll_ret|].
  by apply poll_bind.
Qed.
Lemma poll_ancestors {S} fuel verbatim root ancestor visit (acc : S) :
  (forall a acc, poll_independent (visit a acc)) ->
  poll_independent (ancestor_loop fuel verbatim root ancestor visit acc).
Proof.
  intros Hv. revert ancestor acc. induction fuel as [|fuel IH]; intros ancestor acc; simpl; [apply poll_ret|].
  apply poll_bind; [apply poll_check|intros []].
  destruct (rposition _ ancestor); [|apply poll_ret]. destruct (_ <=? _)%nat; [apply poll_ret|].
  destruct (is_empty _); [apply poll_ret|]. apply poll_bind; [apply Hv|].
  intros [[] acc']; [apply poll_ret|apply IH].
Qed.
#[export] Hint Resolve poll_ret poll_check poll_push poll_refuse poll_when : planning.

(** Walks a step to its primitive steps, for either predicate. *)
Ltac planning_walk :=
  repeat first
    [ progress intros
    | progress cbv beta
    | match goal with
      | |- grows (_ ≫= _) => apply grows_bind
      | |- grows (plan_fold _ _ _) => apply grows_fold
      | |- grows (plan_each _ _) => apply grows_fold
      | |- grows (visit_direct_ancestors _ _ _) => apply grows_ancestors
      | |- poll_independent (_ ≫= _) => apply poll_bind
      | |- poll_independent (plan_fold _ _ _) => apply poll_fold
      | |- poll_independent (plan_each _ _) => apply poll_fold
      | |- poll_independent (visit_direct_ancestors _ _ _) => apply poll_ancestors
      end
    | solve [auto with planning]
    | match goal with
      | |- grows (when_no_issue _) => apply grows_when
      | |- poll_independent (when_no_issue _) => apply poll_when
      | |- _ (match ?x with _ => _ end) => destruct x
      | |- _ ((match ?x with _ => _ end) _) => destruct x
      | |- _ (let '(_, _) := ?x in _) => destruct x
      end ].

(** ** Partial specifications *)

Definition sound {A} (p : Plan A) (Q : A -> Prop) : Prop :=
  forall s a s', p s = (Ok a, s') -> issues s' = [] -> Q a.

Lemma sound_done {A} (a : A) (Q : A -> Prop) : Q a -> sound (mret a) Q.
Proof. by intros HQ s a' s' [= <- <-] Hs. Qed.
Lemma sound_bind {A A'} (p : Plan A) (f : A -> Plan A') Q Q' :
  sound p Q -> (forall a, grows (f a)) -> (forall a, Q a -> sound (f a) Q') -> sound (p ≫= f) Q'.
Proof.
  intros Hp Hg Hf s b s' (a & s1 & Ha & Hb)%SE_bind_Ok Hs.
  destruct (Hg _ _ _ _ Hb) as [l Hl]. rewrite Hs in Hl. symmetry in Hl.
  apply app_eq_nil in Hl as [Hs1 _]. eapply Hf; [by eapply Hp|done|done].
Qed.
Lemma sound_mono {A} (p : Plan A) (Q Q' : A -> Prop) :
  sound p Q -> (forall a, Q a -> Q' a) -> sound p Q'.
Proof. intros Hp HQ s a s' H Hs. by eapply HQ, Hp. Qed.
Lemma sound_true {A} (p : Plan A) : sound p (fun _ => True).
Proof. done. Qed.
Lemma sound_push id kind : sound (push_issue id kind) (fun _ => False).
Proof. intros s [] s' [= <-] Hs. simpl in Hs. by apply app_eq_nil in Hs as [_ ?]. Qed.
Lemma sound_push_if c id kind : sound (push_if c id kind) (fun _ => c = false).
Proof.
  unfold push_if. destruct c; [|by apply sound_done].
  eapply sound_mono; [apply sound_push|done].
Qed.
(** A step preceded by a poll. *)
Lemma sound_check {A} (p : Plan A) Q : sound p Q -> sound (plan_check_cancelled;; p) Q.
Proof.
  intros Hp s a s' ([] & s1 & Ha & Hb)%SE_bind_Ok Hs. by eapply Hp.
Qed.
(** A loop with an invariant over what it has gone through. *)
Lemma sound_fold {A S} (I : list A -> S -> Prop) (f : S -> A -> Plan S) acc l :
  I [] acc -> (forall acc x, grows (f acc x)) ->
  (forall pre x post acc, l = pre ++ x :: post -> I pre acc -> sound (f acc x) (I (pre ++ [x]))) ->
  sound (plan_fold f acc l) (I l).
Proof.
  intros Hacc Hg Hf.
  assert (forall pre post acc, l = pre ++ post -> I pre acc -> sound (plan_fold f acc post) (I l)) as Hall.
  { intros pre post. revert pre. induction post as [|x post IH]; intros pre acc' Hl HI.
    - simpl. apply sound_done. by rewrite Hl, app_nil_r.
    - simpl. eapply sound_bind; [by eapply Hf|intros; by apply grows_fold|].
      intros acc2 HI2. apply (IH (pre ++ [x])); [by rewrite <-app_assoc|done]. }
  by apply (Hall []).
Qed.
Lemma sound_each {A} (P : A -> Prop) (f : A -> Plan unit) l :
  (forall x, grows (f x)) -> (forall x, x ∈ l -> sound (f x) (fun _ => P x)) ->
  sound (plan_each f l) (fun _ => Forall P l).
Proof.
  intros Hg Hf. unfold plan_each. apply (sound_fold (fun pre _ => Forall P pre)); [done|by intros _|].
  intros pre x post [] -> Hpre. eapply sound_mono; [apply Hf; set_solver|].
  intros [] Hx. apply Forall_app. by split; [|constructor].
Qed.
