(* ===== verification/PlannerCorrect.v ===== *)
(** * PlannerCorrect: what a returned plan guarantees

    A plan the planner returns freezes one row per changed intent, with the
    observations made of it; identifiers, source entries and destination entries
    are distinct, no occupied destination lies outside the plan's own sources,
    no source is above another, and no endpoint lies in a directory that moves. *)

From S2P Require Import Prelude Collections LegacyText RenameModel Codec Planner PlannerLogic.

(** ** Grouping by key *)

Lemma bm_get_push {K V} `{OrderedLaws K, EqDecision K} (k k' : K) (v : V) m :
  default [] (bm_get k (bm_push k' v m)) =
  default [] (bm_get k m) ++ (if decide (k = k') then [v] else []).
Proof.
  unfold bm_push. case_decide as E.
  - subst. by rewrite bm_get_insert_eq.
  - by rewrite bm_get_insert_ne, app_nil_r.
Qed.

Section groups.
Context {A K V : Type} `{OrderedLaws K, EqDecision K}.
Variables (key : A -> K) (val : A -> V).

Definition group_by (m : BTreeMap K (list V)) (l : list A) : BTreeMap K (list V) :=
  fold_left (fun m x => bm_push (key x) (val x) m) l m.
Definition with_key (k : K) (l : list A) : list A :=
  List.filter (fun x => bool_decide (key x = k)) l.

Lemma group_by_get m l k :
  default [] (bm_get k (group_by m l)) = default [] (bm_get k m) ++ map val (with_key k l).
Proof.
  revert m. induction l as [|x l IH]; intros m; simpl; [by rewrite app_nil_r|].
  rewrite IH, bm_get_push, <-app_assoc. f_equal. unfold with_key. simpl.
  destruct (decide (k = key x)) as [->|Hne].
  - by rewrite bool_decide_true.
  - by rewrite bool_decide_false by congruence.
Qed.

(** Keys are distinct when no two elements share one. *)
Lemma with_key_NoDup l : (forall k, (length (with_key k l) <= 1)%nat) -> NoDup (map key l).
Proof.
  induction l as [|x l IH]; intros Hk; simpl; [constructor|]. constructor.
  - intros (y & Hy & Hin)%list_elem_of_fmap. specialize (Hk (key x)). unfold with_key in Hk. simpl in Hk.
    rewrite bool_decide_true in Hk by done. simpl in Hk.
    assert (y ∈ List.filter (fun z => bool_decide (key z = key x)) l) as Hf.
    { apply list_elem_of_In, filter_In. split; [by apply list_elem_of_In|by apply bool_decide_eq_true]. }
    destruct (List.filter _ l); [by apply not_elem_of_nil in Hf|]. simpl in Hk. lia.
  - apply IH. intros k. specialize (Hk k). unfold with_key in *. simpl in Hk.
    destruct (bool_decide _); simpl in Hk; lia.
Qed.
Lemma group_by_NoDup l :
  Forall (fun owners => shared owners = false) (bm_values (group_by [] l)) -> NoDup (map key l).
Proof.
  intros Hall. apply with_key_NoDup. intros k.
  pose proof (group_by_get [] l k) as Hg. simpl in Hg.
  destruct (bm_get k (group_by [] l)) as [owners|] eqn:Ho; simpl in Hg.
  - apply bm_get_elem in Ho. rewrite Forall_forall in Hall.
    assert (shared owners = false) as Hs.
    { apply Hall. apply list_elem_of_fmap. by exists (k, owners). }
    apply Nat.ltb_ge in Hs. by rewrite Hg, length_map in Hs.
  - apply (f_equal length) in Hg. rewrite length_map in Hg. simpl in Hg. lia.
Qed.
End groups.

(** ** Primitive phases *)

Lemma sound_fold_pure {A S} (g : S -> A -> S) acc l :
  sound (plan_fold (fun acc x => plan_check_cancelled;; mret (g acc x)) acc l)
    (fun r => r = fold_left g l acc).
Proof.
  apply (sound_fold (fun pre r => r = fold_left g pre acc)); [done|planning_walk|].
  intros pre x post a _ ->. apply sound_check, sound_done. by rewrite fold_left_app.
Qed.

Lemma grows_append_duplicate sets kind : grows (append_duplicate_issues sets kind).
Proof. unfold append_duplicate_issues. planning_walk. Qed.
#[export] Hint Resolve grows_append_duplicate : planning.

Lemma append_duplicate_sound sets kind :
  sound (append_duplicate_issues sets kind)
    (fun _ => Forall (fun owners => shared owners = false) sets).
Proof.
  unfold append_duplicate_issues.
  eapply sound_mono; [apply (sound_each (fun _ => False)); [planning_walk|]|].
  - intros owners Hin. apply sound_check.
    eapply sound_mono; [apply (sound_each (fun _ => False)); [planning_walk|]|].
    + intros e _. apply sound_check, sound_push.
    + intros [] Hall. apply list_elem_of_In, filter_In in Hin as [_ Hs]. apply Nat.ltb_lt in Hs.
      destruct owners as [|o owners]; [simpl in Hs; lia|]. by apply Forall_cons in Hall as [? _].
  - intros [] Hall. apply Forall_forall. intros owners Hin. apply not_true_iff_false. intros Hs.
    rewrite Forall_forall in Hall. apply (Hall owners). apply list_elem_of_In, filter_In.
    split; [by apply list_elem_of_In|done].
Qed.

Lemma push_overlaps_sound overlap : sound (push_overlaps overlap) (fun _ => overlap = []).
Proof.
  unfold push_overlaps. eapply sound_mono; [apply (sound_each (fun _ => False)); [planning_walk|]|].
  - intros e _. apply sound_check, sound_push.
  - intros [] Hall. destruct overlap; [done|]. by apply Forall_cons in Hall as [? _].
Qed.

(** ** Validation *)

Definition valid_source (intent : RenameIntent) : Prop :=
  (path_component_depth (intent_source intent) <= MAX_PLAN_PATH_DEPTH)%nat /\
  is_absolute_windows_path (intent_source intent) = true.
Definition valid_intent (intent : RenameIntent) : Prop :=
  valid_source intent /\
  (path_component_depth (intent_destination_parent intent) <= MAX_PLAN_PATH_DEPTH)%nat /\
  is_absolute_windows_path (intent_destination_parent intent) = true /\
  validate_windows_leaf_name (intent_destination_name intent) = Ok tt.

Lemma grows_push_if c id kind : grows (push_if c id kind).
Proof. unfold push_if. planning_walk. Qed.
#[export] Hint Resolve grows_push_if : planning.
Lemma grows_validate intent : grows (validate_intent intent).
Proof. unfold validate_intent. planning_walk. Qed.
Lemma grows_validate_source intent : grows (validate_source_path intent).
Proof. unfold validate_source_path. planning_walk. Qed.
#[export] Hint Resolve grows_validate grows_validate_source : planning.

(** Sequencing two checks that return nothing. *)
Lemma sound_then {A} (p : Plan unit) (q : Plan A) P Q :
  grows q -> sound p (fun _ => P) -> (P -> sound q Q) -> sound (p;; q) Q.
Proof. intros Hg Hp Hq. eapply sound_bind; [exact Hp|by intros _|by intros []]. Qed.

Lemma validate_intent_sound intent : sound (validate_intent intent) (fun _ => valid_intent intent).
Proof.
  unfold validate_intent. simpl.
  eapply sound_then; [planning_walk|apply sound_push_if|]. intros [Hs Hd]%orb_false_iff.
  eapply sound_then; [planning_walk|apply sound_push_if|]. intros Ha%negb_false_iff.
  eapply sound_then; [planning_walk|apply sound_push_if|]. intros Hp%negb_false_iff.
  apply Nat.ltb_ge in Hs, Hd.
  destruct (validate_windows_leaf_name _) as [[]|e] eqn:Hv.
  - apply sound_done. by split_and!.
  - eapply sound_mono; [apply sound_push|done].
Qed.

(** ** Ancestors *)

(** The paths [visit_direct_ancestors] goes through when nothing stops it. *)
Fixpoint ancestors_from (fuel : nat) (verbatim : bool) (root_separator : nat)
    (ancestor : LegacyText) : list LegacyText :=
  match fuel with
  | O => []
  | S fuel =>
      match rposition (is_ancestor_separator verbatim) ancestor with
      | None => []
      | Some separator =>
          if (separator <=? root_separator)%nat then []
          else
            let ancestor := truncate_units ancestor separator in
            if is_empty ancestor then []
            else ancestor :: ancestors_from fuel verbatim root_separator ancestor
      end
  end.
Definition direct_ancestors (path : LegacyText) : list LegacyText :=
  ancestors_from MAX_PLAN_PATH_DEPTH (bool_decide (is_Some (verbatim_drive_root_separator path)))
    (default 2%nat (verbatim_drive_root_separator path)) path.

Lemma visit_all_sound {S} path (g : LegacyText -> S -> S) acc :
  sound (visit_direct_ancestors path (fun a acc => mret (false, g a acc)) acc)
    (fun r => r = fold_left (fun acc a => g a acc) (direct_ancestors path) acc).
Proof.
  unfold visit_direct_ancestors, direct_ancestors. generalize MAX_PLAN_PATH_DEPTH as fuel.
  generalize (bool_decide (is_Some (verbatim_drive_root_separator path))) as verbatim.
  generalize (default 2%nat (verbatim_drive_root_separator path)) as root. intros root verbatim fuel.
  revert path acc. induction fuel as [|fuel IH]; intros ancestor acc; simpl; [by apply sound_done|].
  apply sound_check. destruct (rposition _ ancestor) as [sep|]; [|by apply sound_done].
  destruct (sep <=? _)%nat; [by apply sound_done|]. destruct (is_empty _); [by apply sound_done|].
  simpl. intros s r s' Hr Hs. eapply IH; [|exact Hs]. exact Hr.
Qed.

(** ** Phases that check the backend's keys *)

Section phases.
Context {B : Type} `{RenameBackend B}.
Variable b : B.

Lemma collect_changed_sound entries :
  sound (collect_changed entries)
    (fun changed => changed = List.filter (fun intent => negb (unchanged intent)) entries).
Proof.
  unfold collect_changed.
  apply (sound_fold (fun pre r => r = List.filter (fun intent => negb (unchanged intent)) pre));
    [done|planning_walk|].
  intros pre x post acc _ ->. apply sound_check, sound_done. rewrite List.filter_app. simpl.
  destruct (unchanged x); simpl; [by rewrite app_nil_r|done].
Qed.

Definition environment_ok (intent : RenameIntent) : Prop :=
  validate_path_environment b (intent_source intent) = Ok tt /\
  validate_path_environment b (intent_destination intent) = Ok tt.

Lemma check_environment_sound changed :
  sound (check_environment b changed) (fun _ => Forall environment_ok changed).
Proof.
  unfold check_environment. eapply sound_then; [planning_walk|apply (sound_each environment_ok)|].
  - planning_walk.
  - intros intent _. apply sound_check.
    eapply sound_mono; [apply (sound_each (fun path => validate_path_environment b path = Ok tt))|].
    + planning_walk.
    + intros path _. apply sound_check. destruct (validate_path_environment b path) as [[]|e].
      * by apply sound_done.
      * eapply sound_mono; [apply sound_push|done].
    + intros [] Hall. apply Forall_cons in Hall as [? [? _]%Forall_cons]. done.
  - intros Hall. eapply sound_mono; [apply sound_true|done].
Qed.

Definition source_groups (changed : list RenameIntent) : BTreeMap PathKey (list EntryId) :=
  group_by (fun intent => path_key b (intent_source intent)) intent_id [] changed.

Lemma collect_owners_sound changed :
  sound (collect_owners b changed) (fun '(source_owners, entry_owners, destination_owners) =>
    source_owners = source_groups changed /\
    entry_owners = group_by intent_id intent_id [] changed /\
    destination_owners =
      group_by (fun intent => path_key b (intent_destination intent)) intent_id [] changed).
Proof.
  unfold collect_owners.
  apply (sound_fold (fun pre '(source_owners, entry_owners, destination_owners) =>
    source_owners = source_groups pre /\ entry_owners = group_by intent_id intent_id [] pre /\
    destination_owners =
      group_by (fun intent => path_key b (intent_destination intent)) intent_id [] pre));
    [done|planning_walk|].
  intros pre x post [[s e] d] _ (-> & -> & ->). apply sound_check, sound_done.
  unfold source_groups, group_by. by rewrite !fold_left_app.
Qed.

(** No selected source is above another. *)
Definition no_overlap (changed : list RenameIntent) : Prop :=
  forall i j a, i ∈ changed -> j ∈ changed -> a ∈ direct_ancestors (intent_source i) ->
    path_key b a <> path_key b (intent_source j).

Lemma overlap_fold_nil (owners : BTreeMap PathKey (list EntryId)) id l overlap :
  fold_left (fun overlap a => match bm_get (path_key b a) owners with
    | Some found => bs_extend found (bs_insert id overlap) | None => overlap end) l overlap = [] ->
  overlap = [] /\ forall a, a ∈ l -> bm_get (path_key b a) owners = None.
Proof.
  induction l as [|a l IH] using rev_ind; [split; [done|]; by intros a ?%not_elem_of_nil|].
  rewrite fold_left_app. simpl. destruct (bm_get (path_key b a) owners) as [found|] eqn:Ha.
  - intros Hnil. exfalso. apply (not_elem_of_nil id). rewrite <-Hnil.
    apply elem_of_bs_extend. right. apply elem_of_bs_insert. by left.
  - intros [? Hall]%IH. split; [done|].
    intros a' [?| ->%list_elem_of_singleton]%elem_of_app; [by apply Hall|done].
Qed.

Lemma grows_source_overlaps owners changed : grows (source_overlaps b owners changed).
Proof. unfold source_overlaps. planning_walk. Qed.
Lemma grows_push_overlaps overlap : grows (push_overlaps overlap).
Proof. unfold push_overlaps. planning_walk. Qed.

Lemma source_overlaps_sound changed :
  sound (source_overlaps b (source_groups changed) changed)
    (fun overlap => overlap = [] -> no_overlap changed).
Proof.
  unfold source_overlaps.
  eapply sound_mono; [apply (sound_fold (fun pre overlap => overlap = [] ->
    forall i a, i ∈ pre -> a ∈ direct_ancestors (intent_source i) ->
      bm_get (path_key b a) (source_groups changed) = None))|].
  - by intros _ i a ?%not_elem_of_nil.
  - planning_walk.
  - intros pre x post overlap _ Hpre. apply sound_check.
    eapply sound_mono; [apply (visit_all_sound (intent_source x) (fun a overlap =>
      match bm_get (path_key b a) (source_groups changed) with
      | Some owners => bs_extend owners (bs_insert (intent_id x) overlap) | None => overlap end))|].
    intros r -> Hnil. apply overlap_fold_nil in Hnil as [Hov Hx].
    intros i a [Hi| ->%list_elem_of_singleton]%elem_of_app; [by apply Hpre|apply Hx].
  - intros overlap Hall Hnil i j a Hi Hj Ha Heq. specialize (Hall Hnil i a Hi Ha).
    pose proof (group_by_get (fun intent => path_key b (intent_source intent)) intent_id [] changed
      (path_key b a)) as Hg. fold (source_groups changed) in Hg. rewrite Hall in Hg. simpl in Hg.
    assert (intent_id j ∈ @nil EntryId) as Hno; [|by apply not_elem_of_nil in Hno].
    rewrite Hg. apply list_elem_of_fmap. exists j. split; [done|].
    apply list_elem_of_In, filter_In. split; [by apply list_elem_of_In|].
    by apply bool_decide_eq_true.
Qed.

Lemma check_owners_sound changed :
  sound (check_owners b changed) (fun _ =>
    NoDup (map (fun intent => path_key b (intent_source intent)) changed) /\
    NoDup (map intent_id changed) /\
    NoDup (map (fun intent => path_key b (intent_destination intent)) changed) /\
    no_overlap changed).
Proof.
  pose proof grows_source_overlaps. pose proof grows_push_overlaps.
  unfold check_owners. eapply sound_bind; [apply collect_owners_sound|planning_walk; auto|].
  intros [[s e] d] (-> & -> & ->).
  eapply sound_then; [planning_walk; auto|apply append_duplicate_sound|]. intros Hs%group_by_NoDup.
  eapply sound_then; [planning_walk; auto|apply append_duplicate_sound|]. intros He%group_by_NoDup.
  eapply sound_then; [planning_walk; auto|apply append_duplicate_sound|]. intros Hd%group_by_NoDup.
  eapply sound_bind; [apply source_overlaps_sound|planning_walk; auto|]. intros overlap Ho.
  eapply sound_then; [planning_walk|apply push_overlaps_sound|]. intros Hnil.
  eapply sound_mono; [apply sound_true|]. intros _ _. by split_and!; [..|apply Ho].
Qed.

(** ** Rows *)

(** What a row records of the backend and of its intent. *)
Record row_of (scope : MoveScope) (intent : RenameIntent) (row : PlanRow) : Prop := mkRowOf {
  ro_id : row_id row = intent_id intent;
  ro_destination : row_destination row = intent_destination intent;
  ro_kind : row_kind row = intent_kind intent;
  ro_resolved : exists resolved, resolve_source b (intent_source intent) = Ok resolved /\
    row_source row = resolved_path resolved /\
    source_snapshot row = resolved_snapshot resolved /\
    resolved_entry_key resolved = Some (source_entry_key row);
  ro_source_key :
    planned_entry_key b (snapshot_parent (source_snapshot row)) (path_leaf (row_source row)) =
      Ok (source_entry_key row);
  ro_entry : exists e, snapshot_entry (source_snapshot row) = Some e /\
    observed_kind e = row_kind row /\ is_reparse_point e = false /\
    volume (observed_identity e) = volume (snapshot_parent (source_snapshot row));
  ro_path : (path_component_depth (row_source row) <= MAX_PLAN_PATH_DEPTH)%nat /\
    is_absolute_windows_path (row_source row) = true;
  ro_observed : observe b (row_destination row) = Ok (destination_snapshot row);
  ro_destination_key :
    planned_entry_key b (snapshot_parent (destination_snapshot row)) (intent_destination_name intent) =
      Ok (destination_entry_key row);
  ro_volume :
    volume (snapshot_parent (source_snapshot row)) = volume (snapshot_parent (destination_snapshot row));
  ro_scope : snapshot_parent (source_snapshot row) = snapshot_parent (destination_snapshot row) \/
    (scope = SameVolumeFilesOnly /\ row_kind row = File)
}.

Lemma grows_skip id kind : grows (skip id kind).
Proof. unfold skip. planning_walk. Qed.
#[local] Hint Resolve grows_skip : planning.
Lemma grows_plan_destination scope intent resolved e key :
  grows (plan_destination b scope intent resolved e key).
Proof. unfold plan_destination. planning_walk. Qed.
#[local] Hint Resolve grows_plan_destination : planning.
Lemma grows_plan_row scope intent : grows (plan_row_of b scope intent).
Proof. unfold plan_row_of. planning_walk. Qed.
#[local] Hint Resolve grows_plan_row : planning.

Lemma skip_sound id kind (Q : option PlanRow -> Prop) : sound (skip id kind) Q.
Proof.
  unfold skip. eapply sound_bind; [apply sound_push|planning_walk|]. by intros _ [].
Qed.

Lemma plan_destination_sound scope intent resolved e key :
  resolve_source b (intent_source intent) = Ok resolved ->
  snapshot_entry (resolved_snapshot resolved) = Some e -> observed_kind e = intent_kind intent ->
  resolved_entry_key resolved = Some key ->
  (path_component_depth (resolved_path resolved) <= MAX_PLAN_PATH_DEPTH)%nat ->
  is_absolute_windows_path (resolved_path resolved) = true ->
  planned_entry_key b (snapshot_parent (resolved_snapshot resolved)) (path_leaf (resolved_path resolved)) = Ok key ->
  is_reparse_point e = false ->
  sound (plan_destination b scope intent resolved e key)
    (fun r => exists row, r = Some row /\ row_of scope intent row).
Proof.
  intros Hres He Hk Hkey Hd Ha Hpk Hrp. unfold plan_destination.
  destruct (observe b (intent_destination intent)) as [d|er] eqn:Ho; [|apply skip_sound].
  apply sound_check. cbv zeta.
  set (parents_differ := negb (bool_decide (snapshot_parent (resolved_snapshot resolved) = snapshot_parent d))).
  set (volume_differs := negb _ || negb _).
  eapply sound_then; [planning_walk|apply sound_push_if|]. intros Hcp.
  eapply sound_then; [planning_walk|apply sound_push_if|]. intros Hdm.
  eapply sound_then; [planning_walk|apply sound_push_if|]. intros Hvd.
  rewrite Hcp, Hdm, Hvd. simpl.
  destruct (planned_entry_key b (snapshot_parent d) (intent_destination_name intent)) as [dk|er] eqn:Hdk;
    [|apply skip_sound].
  apply sound_done. eexists. split; [reflexivity|].
  apply orb_false_iff in Hvd as [Hv1%negb_false_iff%Z.eqb_eq Hv2%negb_false_iff%Z.eqb_eq].
  split; simpl; try done.
  - by exists resolved.
  - exists e. by rewrite Hk.
  - unfold parents_differ in *. case_bool_decide as Hp; [by left|right]. simpl in Hcp, Hdm.
    destruct scope; [done|]. split; [done|]. rewrite <-Hk. by destruct (observed_kind e).
Qed.

Lemma plan_row_sound scope intent :
  sound (plan_row_of b scope intent) (fun r => exists row, r = Some row /\ row_of scope intent row).
Proof.
  unfold plan_row_of. apply sound_check.
  destruct (resolve_source b (intent_source intent)) as [resolved|er] eqn:Hres; [|apply skip_sound].
  apply sound_check. destruct (snapshot_entry (resolved_snapshot resolved)) as [e|] eqn:He; [|apply skip_sound].
  case_bool_decide as Hk; simpl; [|apply skip_sound].
  destruct (resolved_entry_key resolved) as [key|] eqn:Hkey; [|apply skip_sound].
  destruct (_ || _) eqn:Hp; [apply skip_sound|].
  apply orb_false_iff in Hp as [Hd%Nat.ltb_ge Ha%negb_false_iff].
  destruct (planned_entry_key b _ (path_leaf _)) as [planned|er] eqn:Hpk; [|apply skip_sound].
  case_bool_decide as Heq; simpl; [subst planned|apply skip_sound].
  destruct (is_reparse_point e) eqn:Hrp; [apply skip_sound|]. by apply plan_destination_sound.
Qed.

(** The snapshots kept for the overlap inspection are those of the rows. *)
Definition kept (changed : list RenameIntent) (rows : list PlanRow) (snap : PlanRow -> PathSnapshot)
    (m : BTreeMap EntryId PathSnapshot) : Prop :=
  forall i intent row, changed !! i = Some intent -> rows !! i = Some row ->
    bm_get (intent_id intent) m = Some (snap row).

Lemma kept_snoc changed rows snap m intent row :
  length changed = length rows -> intent_id intent ∉ map intent_id changed -> kept changed rows snap m ->
  kept (changed ++ [intent]) (rows ++ [row]) snap (bm_insert (intent_id intent) (snap row) m).
Proof.
  intros Hlen Hnew Hk i x r Hx Hr. destruct (decide (i < length changed)%nat) as [Hi|Hi].
  - rewrite lookup_app_l in Hx by lia. rewrite lookup_app_l in Hr by lia. rewrite bm_get_insert_ne; [by eapply Hk|].
    intros Heq. apply Hnew. rewrite <-Heq. apply list_elem_of_fmap. exists x.
    split; [done|by eapply list_elem_of_lookup_2].
  - assert (i = length changed) as ->.
    { apply lookup_lt_Some in Hx. rewrite length_app in Hx. simpl in Hx. lia. }
    rewrite list_lookup_middle in Hx by done. rewrite Hlen, list_lookup_middle in Hr by done.
    injection Hx as <-. injection Hr as <-. apply bm_get_insert_eq.
Qed.

Lemma plan_rows_sound scope has_changed_directory changed :
  NoDup (map intent_id changed) ->
  sound (plan_rows b scope has_changed_directory changed) (fun rows =>
    Forall2 (row_of scope) changed (planned_rows rows) /\
    (has_changed_directory = true ->
       kept changed (planned_rows rows) source_snapshot (source_snapshots rows) /\
       kept changed (planned_rows rows) destination_snapshot (destination_snapshots rows))).
Proof.
  intros Hids. unfold plan_rows.
  apply (sound_fold (fun pre rows => Forall2 (row_of scope) pre (planned_rows rows) /\
    (has_changed_directory = true -> kept pre (planned_rows rows) source_snapshot (source_snapshots rows) /\
       kept pre (planned_rows rows) destination_snapshot (destination_snapshots rows))));
    [split; [constructor|by intros _; split; intros i ? ? [=]]|planning_walk|].
  intros pre x post acc Hl [Hpre Hkept]. eapply sound_bind; [apply plan_row_sound|planning_walk|].
  intros r (row & -> & Hrow). apply sound_done. simpl.
  split; [apply Forall2_app; [done|by constructor]|]. intros Hd. rewrite Hd in *.
  destruct (Hkept eq_refl) as [Hks Hkd].
  assert (length pre = length (planned_rows acc)) as Hlen by by eapply Forall2_length.
  assert (intent_id x ∉ map intent_id pre) as Hnew.
  { rewrite Hl, map_app in Hids. apply NoDup_app in Hids as (_ & Hdis & _).
    intros Hin. apply (Hdis _ Hin). simpl. by left. }
  by split; apply kept_snoc.
Qed.

Lemma check_actual_destinations_sound rows :
  sound (check_actual_destinations rows) (fun _ => NoDup (map destination_entry_key rows)).
Proof.
  unfold check_actual_destinations.
  eapply sound_bind; [apply (sound_fold_pure (fun owners row =>
    bm_push (destination_entry_key row) (row_id row) owners))|planning_walk|].
  intros owners ->. eapply sound_then; [planning_walk|apply append_duplicate_sound|].
  intros Hd%(group_by_NoDup destination_entry_key). by eapply sound_mono; [apply sound_true|].
Qed.

Lemma check_occupied_sound rows :
  sound (check_occupied rows) (fun _ => forall row, row ∈ rows ->
    destination_entry_key row ∉ map source_entry_key rows ->
    snapshot_entry (destination_snapshot row) = None).
Proof.
  unfold check_occupied.
  eapply sound_bind; [apply (sound_fold_pure (fun keys row => bs_insert (source_entry_key row) keys))|
    planning_walk|].
  intros keys Hkeys.
  assert (forall k, k ∈ keys -> k ∈ map source_entry_key rows) as Hin.
  { cbv beta in Hkeys. subst keys. assert (forall l acc k, k ∈ fold_left (fun keys row => bs_insert (source_entry_key row) keys) l acc ->
      k ∈ map source_entry_key l \/ k ∈ acc) as Hgen.
    { induction l as [|row l IH]; intros acc k; simpl; [by right|].
      intros [?|[->|?]%elem_of_bs_insert]%IH; [left|left|by right]; set_solver. }
    intros k [?|?%not_elem_of_nil]%Hgen; done. }
  eapply sound_then; [planning_walk|apply (sound_each (fun row =>
    bool_decide (is_Some (snapshot_entry (destination_snapshot row)))
    && negb (bs_contains (destination_entry_key row) keys) = false)); [planning_walk|]|].
  { intros row _. apply sound_check, sound_push_if. }
  intros Hall. eapply sound_mono; [apply sound_true|]. intros _ _ row Hrow Hout.
  rewrite Forall_forall in Hall. specialize (Hall row Hrow).
  destruct (snapshot_entry (destination_snapshot row)) eqn:He; [|done]. simpl in Hall.
  apply negb_false_iff, bs_contains_spec, Hin in Hall. done.
Qed.

(** ** Sources that resolve to one entry *)

(** The directory entry a row was resolved to. *)
Definition row_entry (row : PlanRow) : option (EntryIdentity * EntryIdentity) :=
  (fun e => (snapshot_parent (source_snapshot row), observed_identity e)) <$>
    snapshot_entry (source_snapshot row).
Definition row_candidate (row : PlanRow) : SourceCandidate :=
  mkCandidate (row_id row) (row_source row) (Some (source_entry_key row)) true.
Definition has_key (K : PathKey) (c : SourceCandidate) : bool :=
  bool_decide (candidate_entry_key c = Some K) && candidate_changed c.

Definition group_of {K V} `{Ordered K} (k : K) (m : BTreeMap K (list V)) : list V :=
  default [] (bm_get k m).

Lemma grows_changed_candidate m row : grows (changed_candidate m row).
Proof. unfold changed_candidate. planning_walk. Qed.
Lemma grows_unchanged_candidate m intent : grows (unchanged_candidate b m intent).
Proof. unfold unchanged_candidate. planning_walk. Qed.
#[local] Hint Resolve grows_changed_candidate grows_unchanged_candidate : planning.

Lemma changed_candidates_sound rows :
  sound (plan_fold changed_candidate [] rows)
    (fun m => forall k, group_of k m =
       map row_candidate (List.filter (fun row => bool_decide (row_entry row = Some k)) rows)).
Proof.
  apply (sound_fold (fun pre m => forall k, group_of k m =
    map row_candidate (List.filter (fun row => bool_decide (row_entry row = Some k)) pre)));
    [done|planning_walk|].
  intros pre row post m _ Hm. unfold changed_candidate. apply sound_check, sound_done. intros k.
  rewrite List.filter_app, map_app, <-Hm. cbn [List.filter].
  assert (group_of k m ++ (if decide (row_entry row = Some k) then [row_candidate row] else []) =
    group_of k m ++ map row_candidate (if bool_decide (row_entry row = Some k) then [row] else [])) as <-.
  { f_equal. case_decide; [by rewrite bool_decide_true|by rewrite bool_decide_false]. }
  destruct (decide (row_entry row = Some k)) as [E|E]; unfold row_entry in E;
    destruct (snapshot_entry (source_snapshot row)) as [e|]; simplify_eq/=;
    unfold group_of; rewrite ?bm_get_push, ?app_nil_r; [by rewrite decide_True| |done].
  rewrite decide_False by congruence. by rewrite app_nil_r.
Qed.

Lemma unchanged_candidates_sound request m0 :
  sound (plan_fold (unchanged_candidate b) m0 request)
    (fun m => forall k, group_of k m0 `prefix_of` group_of k m).
Proof.
  apply (sound_fold (fun _ m => forall k, group_of k m0 `prefix_of` group_of k m));
    [done|planning_walk|].
  intros pre intent post m _ Hm. unfold unchanged_candidate. apply sound_check.
  destruct (observe b (intent_source intent)) as [[parent [e|]]|er].
  - apply sound_done. intros k. unfold group_of. rewrite bm_get_push.
    by apply prefix_app_r, Hm.
  - by apply sound_done.
  - destruct (is_not_found_error er); [by apply sound_done|].
    eapply sound_then; [planning_walk|apply sound_push|done].
Qed.

Lemma grows_candidate_key c : grows (candidate_key b c).
Proof. unfold candidate_key. planning_walk. Qed.
#[local] Hint Resolve grows_candidate_key : planning.
Lemma grows_normalized_owner owners c : grows (normalized_owner b owners c).
Proof. unfold normalized_owner. planning_walk. Qed.
#[local] Hint Resolve grows_normalized_owner : planning.

Lemma normalized_sound group :
  sound (plan_fold (normalized_owner b) [] group)
    (fun m => forall K, List.filter (has_key K) group `sublist_of` group_of K m).
Proof.
  apply (sound_fold (fun pre m => forall K, List.filter (has_key K) pre `sublist_of` group_of K m));
    [intros K; constructor|planning_walk|].
  intros pre c post m _ Hm. unfold normalized_owner. apply sound_check.
  assert (sound (candidate_key b c) (fun key => forall K, candidate_entry_key c = Some K -> key = Some K)) as Hck.
  { unfold candidate_key. destruct (candidate_entry_key c) as [key|]; [by apply sound_done|].
    eapply sound_mono; [apply sound_true|done]. }
  eapply sound_bind; [exact Hck|planning_walk|].
  intros key Hkey. apply sound_done. intros K. rewrite List.filter_app. cbn [List.filter].
  assert (group_of K m `sublist_of` group_of K (match key with
    | Some k => bm_push k c m | None => m end)) as Hkeep.
  { destruct key as [k|]; [|done]. unfold group_of. rewrite bm_get_push. by apply sublist_inserts_r. }
  destruct (has_key K c) eqn:Hc.
  - apply andb_true_iff in Hc as [Hc%bool_decide_eq_true _]. rewrite (Hkey K Hc).
    unfold group_of. rewrite bm_get_push, decide_True by done. by apply sublist_app.
  - rewrite app_nil_r. by transitivity (group_of K m).
Qed.

Lemma group_duplicates_sound duplicates group :
  sound (group_duplicates b duplicates group) (fun r => r = [] ->
    duplicates = [] /\ forall K, (length (List.filter (has_key K) group) <= 1)%nat).
Proof.
  unfold group_duplicates. apply sound_check.
  eapply sound_bind; [apply normalized_sound|planning_walk|]. intros m Hm.
  eapply sound_mono; [apply (sound_fold (fun pre r => r = [] -> duplicates = [] /\ pre = []))|].
  - done.
  - planning_walk.
  - intros pre owners post acc Hl _. apply sound_check, sound_done. intros Hnil. exfalso.
    assert (contested owners = true) as Hc.
    { assert (owners ∈ List.filter contested (bm_values m)) as Hin by (rewrite Hl; set_solver).
      by apply list_elem_of_In, filter_In in Hin as [_ ?]. }
    apply andb_true_iff in Hc as [Hs _]. apply Nat.ltb_lt in Hs.
    destruct owners as [|o owners]; [simpl in Hs; lia|]. apply (not_elem_of_nil (candidate_id o)).
    rewrite <-Hnil. apply elem_of_bs_extend. left. by left.
  - intros r Hr Hnil. destruct (Hr Hnil) as [Hd Hno]. split; [done|]. intros K.
    apply Nat.nlt_ge. intros Hlt. specialize (Hm K). unfold group_of in Hm.
    destruct (bm_get K m) as [owners|] eqn:Ho; simpl in Hm.
    2: { apply sublist_nil_r in Hm. rewrite Hm in Hlt. simpl in Hlt. lia. }
    assert (owners ∈ List.filter contested (bm_values m)) as Hin; [|rewrite Hno in Hin; by apply not_elem_of_nil in Hin].
    apply list_elem_of_In, filter_In. split.
    + apply list_elem_of_In, list_elem_of_fmap. exists (K, owners). split; [done|by apply bm_get_elem].
    + apply andb_true_iff. split.
      * apply Nat.ltb_lt. pose proof (sublist_length _ _ Hm). lia.
      * destruct (List.filter (has_key K) group) as [|c l] eqn:Hf; [simpl in Hlt; lia|].
        apply existsb_exists. exists c. split.
        -- apply list_elem_of_In. eapply elem_of_sublist; [|exact Hm]. by left.
        -- assert (c ∈ List.filter (has_key K) group) as Hin by (rewrite Hf; by left).
           by apply list_elem_of_In, filter_In in Hin as [_ [_ ?]%andb_true_iff].
Qed.

Lemma grows_group_duplicates duplicates group : grows (group_duplicates b duplicates group).
Proof. unfold group_duplicates. planning_walk. Qed.
#[local] Hint Resolve grows_group_duplicates : planning.

Lemma sound_when p Q : grows p -> sound p (fun _ => Q) -> sound (when_no_issue p) (fun _ => Q).
Proof.
  intros Hg Hp s [] s'. unfold when_no_issue. destruct (issues s) as [|i l] eqn:E; [apply Hp|].
  intros [= <-]. congruence.
Qed.

(** Two rows never name the same directory entry. *)
Lemma check_actual_sources_sound request rows :
  Forall (fun row => is_Some (row_entry row)) rows ->
  sound (check_actual_sources b request rows)
    (fun _ => NoDup (map (fun row => (row_entry row, source_entry_key row)) rows)).
Proof.
  intros Hsome. unfold check_actual_sources.
  eapply sound_then; [planning_walk| |intros Hd; eapply sound_mono; [apply sound_true|by intros]].
  unfold append_actual_duplicate_source_issues.
  destruct rows as [|row0 rows0]; [apply sound_done; constructor|].
  set (rows := row0 :: rows0) in *.
  eapply sound_bind; [apply changed_candidates_sound|planning_walk|]. intros m0 Hm0.
  eapply sound_bind; [apply unchanged_candidates_sound|planning_walk|]. intros m Hm.
  apply sound_when; [planning_walk|].
  eapply sound_bind; [apply (sound_fold (fun pre r => r = [] ->
    Forall (fun group => forall K, (length (List.filter (has_key K) group) <= 1)%nat) pre))|planning_walk|].
  - by intros _.
  - planning_walk.
  - intros pre group post acc _ Hpre. eapply sound_mono; [apply group_duplicates_sound|].
    intros r Hr Hnil. destruct (Hr Hnil) as [Ha Hg]. apply Forall_app. split; [by apply Hpre|by constructor].
  - intros duplicates Hdup.
    eapply sound_mono; [apply (sound_each (fun _ => False)); [planning_walk|]|].
    { intros e _. apply sound_check, sound_push. }
    intros [] Hall. assert (duplicates = []) as Hnil.
    { destruct duplicates; [done|]. by apply Forall_cons in Hall as [? _]. }
    specialize (Hdup Hnil). rewrite Forall_forall in Hdup. clear Hall Hnil.
    apply with_key_NoDup. intros [k K].
    destruct k as [k|].
    2: { assert (with_key (fun row => (row_entry row, source_entry_key row)) (None, K) rows = []) as ->; [|simpl; lia].
         apply elem_of_nil_inv. intros row [Hin Hk]%list_elem_of_In%filter_In.
         apply bool_decide_eq_true in Hk. apply list_elem_of_In in Hin.
         rewrite Forall_forall in Hsome. destruct (Hsome row Hin) as [x Hx]. congruence. }
    apply Nat.nlt_ge. intros Hlt.
    assert (map row_candidate (with_key (fun row => (row_entry row, source_entry_key row)) (Some k, K) rows)
      = List.filter (has_key K) (group_of k m0)) as Heq.
    { rewrite Hm0. unfold with_key. clear. induction rows as [|row l IH]; [done|]. simpl.
      destruct (decide (row_entry row = Some k)) as [E|E].
      - rewrite (bool_decide_true (row_entry row = Some k)) by done. simpl. unfold has_key at 1. simpl.
        rewrite andb_true_r. destruct (decide (source_entry_key row = K)) as [E'|E'].
        + rewrite !bool_decide_true by congruence. simpl. by rewrite IH.
        + rewrite !bool_decide_false by congruence. apply IH.
      - rewrite !bool_decide_false by congruence. apply IH. }
    apply (f_equal length) in Heq. rewrite length_map in Heq.
    destruct (Hm k) as [extra He].
    assert (length (List.filter (has_key K) (group_of k m)) > 1)%nat as Hbig.
    { rewrite He, List.filter_app, length_app. lia. }
    unfold group_of in Hbig. destruct (bm_get k m) as [group|] eqn:Hk; simpl in Hbig; [|lia].
    specialize (Hdup group).
    assert (group ∈ List.filter contested (bm_values m)) as Hin; [|specialize (Hdup Hin K); lia].
    apply list_elem_of_In, filter_In. split.
    + apply list_elem_of_In, list_elem_of_fmap. exists (k, group). split; [done|by apply bm_get_elem].
    + apply andb_true_iff. split.
      * apply Nat.ltb_lt. pose proof (List.filter_length_le (has_key K) group). lia.
      * destruct (List.filter (has_key K) group) as [|c l] eqn:Hf; [simpl in Hbig; lia|].
        assert (c ∈ List.filter (has_key K) group) as Hc by (rewrite Hf; by left).
        apply list_elem_of_In, filter_In in Hc as [Hc [_ Hch]%andb_true_iff].
        apply existsb_exists. by exists c.
Qed.

(** ** Directories that move *)

Lemma record_identity_nil id candidate exclude owners overlap m :
  record_identity_overlap id candidate exclude owners overlap = (m, []) ->
  overlap = [] /\ m = false /\ (exclude = false -> bm_get id owners = None).
Proof.
  unfold record_identity_overlap. destruct (bm_get id owners) as [found|] eqn:Hg; [|by intros [= <- ->]].
  destruct (exclude && _) eqn:He.
  - intros [= <- ->]. split_and!; [done|done|]. intros ->. done.
  - intros [= _ Hnil]. exfalso. apply (not_elem_of_nil candidate). rewrite <-Hnil.
    apply elem_of_bs_extend. right. apply elem_of_bs_insert. by left.
Qed.
(** Neither the parent in [snapshot] nor the directory it shows is among [owners]. *)
Definition clear_of (owners : BTreeMap EntryIdentity (list EntryId)) (snapshot : PathSnapshot) : Prop :=
  bm_get (snapshot_parent snapshot) owners = None /\
  forall x, snapshot_entry snapshot = Some x -> observed_kind x = Directory ->
    bm_get (observed_identity x) owners = None.
Definition ancestors_clear (owners : BTreeMap EntryIdentity (list EntryId)) (endpoint : LegacyText) : Prop :=
  forall a snapshot, a ∈ direct_ancestors endpoint -> observe b a = Ok snapshot -> clear_of owners snapshot.

Lemma record_snapshot_nil snapshot candidate compare exclude owners overlap m :
  record_snapshot_overlap snapshot candidate compare exclude owners overlap = (m, []) ->
  overlap = [] /\ m = false /\ bm_get (snapshot_parent snapshot) owners = None /\
  (compare = true -> exclude = false -> clear_of owners snapshot).
Proof.
  unfold record_snapshot_overlap, clear_of.
  destruct (match snapshot_entry snapshot with Some _ => _ | None => _ end) as [em ov] eqn:Hentry.
  destruct (record_identity_overlap (snapshot_parent snapshot) _ _ _ _) as [pm ov'] eqn:Hr. intros [= <- ->].
  apply record_identity_nil in Hr as (-> & -> & Hp). specialize (Hp eq_refl).
  assert (overlap = [] /\ em = false /\ (compare = true -> exclude = false -> forall x,
    snapshot_entry snapshot = Some x -> observed_kind x = Directory -> bm_get (observed_identity x) owners = None))
    as (-> & -> & He); [|by split_and!; auto].
  destruct (snapshot_entry snapshot) as [e|]; [|by injection Hentry as <- ->].
  destruct (compare && _) eqn:Hc.
  - apply record_identity_nil in Hentry as (-> & -> & He). split_and!; [done..|]. intros _ ? x [= <-] _. auto.
  - injection Hentry as <- ->. split_and!; [done..|]. intros -> _ x [= <-] Hk. by rewrite bool_decide_true in Hc.
Qed.

(** A walk that collects an overlap and finds none has gone through every ancestor. *)
Lemma sound_ancestors {A} (P : LegacyText -> Prop) path (visit : LegacyText -> list A -> Plan (bool * list A)) acc :
  (forall a acc, grows (visit a acc)) ->
  (forall a acc, sound (visit a acc) (fun r => r.2 = [] -> acc = [] /\ r.1 = false /\ P a)) ->
  sound (visit_direct_ancestors path visit acc)
    (fun r => r = [] -> acc = [] /\ forall a, a ∈ direct_ancestors path -> P a).
Proof.
  intros Hg Hv. unfold visit_direct_ancestors, direct_ancestors. generalize MAX_PLAN_PATH_DEPTH as fuel.
  generalize (bool_decide (is_Some (verbatim_drive_root_separator path))) as verbatim.
  generalize (default 2%nat (verbatim_drive_root_separator path)) as root. intros root verbatim fuel.
  assert (forall acc, sound (mret acc) (fun r : list A => r = [] -> acc = [] /\ forall a, a ∈ [] -> P a)) as Hend.
  { intros acc'. apply sound_done. intros ->. split; [done|]. by intros a ?%not_elem_of_nil. }
  revert path acc. induction fuel as [|fuel IH]; intros ancestor acc; simpl; [apply Hend|].
  apply sound_check. destruct (rposition _ ancestor) as [sep|]; [|apply Hend].
  destruct (sep <=? _)%nat; [apply Hend|]. destruct (is_empty _); [apply Hend|].
  eapply sound_bind; [apply Hv| |].
  - intros [[] acc']; [apply grows_ret|by apply grows_ancestors].
  - intros [stop acc'] Hacc. cbn [fst snd] in Hacc. destruct stop.
    + apply sound_done. intros ->. by destruct (Hacc eq_refl) as (_ & ? & _).
    + eapply sound_mono; [apply IH|]. intros res Hres Hnil. destruct (Hres Hnil) as [Hn Hrest].
      destruct (Hacc Hn) as (-> & _ & HP). split; [done|]. intros a [->|Ha]%elem_of_cons; [done|by apply Hrest].
Qed.

Lemma grows_inspect owners endpoint candidate observation compare overlap :
  grows (inspect b owners endpoint candidate observation compare overlap).
Proof. unfold inspect. planning_walk. Qed.
#[local] Hint Resolve grows_inspect : planning.

Lemma inspect_ancestors_sound owners endpoint candidate overlap :
  sound (visit_direct_ancestors endpoint (fun ancestor overlap =>
      match observe b ancestor with
      | Err error =>
          if is_not_found_error error then mret (false, overlap)
          else push_issue candidate (BackendFailure error);; mret (true, overlap)
      | Ok snapshot => mret (record_snapshot_overlap snapshot candidate true false owners overlap)
      end) overlap) (fun r => r = [] -> overlap = [] /\ ancestors_clear owners endpoint).
Proof.
  eapply sound_mono; [apply (sound_ancestors (fun a => forall snapshot, observe b a = Ok snapshot -> clear_of owners snapshot))|].
  - planning_walk.
  - intros a acc. destruct (observe b a) as [snapshot|er].
    + apply sound_done. destruct (record_snapshot_overlap _ _ _ _ _ _) as [m ov'] eqn:Hr. cbn [fst snd].
      intros ->. apply record_snapshot_nil in Hr as (-> & -> & _ & Hclear). split_and!; [done..|].
      intros ? [= <-]. auto.
    + destruct (is_not_found_error er); [by apply sound_done|].
      eapply sound_then; [planning_walk|apply sound_push|done].
  - intros res Hres Hnil. destruct (Hres Hnil) as [? Hall]. split; [done|]. intros a snapshot Ha. by apply Hall.
Qed.
Lemma inspect_sound owners endpoint candidate observation compare overlap :
  sound (inspect b owners endpoint candidate observation compare overlap)
    (fun r => r = [] -> overlap = [] /\ ancestors_clear owners endpoint /\
       forall snapshot, observation = Ok snapshot -> bm_get (snapshot_parent snapshot) owners = None).
Proof.
  unfold inspect. destruct observation as [snapshot|er].
  - destruct (record_snapshot_overlap _ _ _ _ _ _) as [m ov] eqn:Hr. destruct m.
    + apply sound_done. intros ->. by apply record_snapshot_nil in Hr as (_ & ? & _).
    + eapply sound_mono; [apply inspect_ancestors_sound|]. intros res Hres Hnil. destruct (Hres Hnil) as [-> Hclear].
      apply record_snapshot_nil in Hr as (-> & _ & Hp & _). split_and!; [done..|]. by intros s [= <-].
  - destruct (is_not_found_error er).
    + eapply sound_mono; [apply inspect_ancestors_sound|]. intros res Hres Hnil. by destruct (Hres Hnil).
    + eapply sound_then; [planning_walk|apply sound_push|done].
Qed.

(** No endpoint's parent is a directory that moves. *)
Definition outside_moving_directories (rows : list PlanRow) : Prop :=
  forall d e row, d ∈ rows -> row ∈ rows -> row_kind d = Directory ->
    snapshot_entry (source_snapshot d) = Some e ->
    snapshot_parent (source_snapshot row) <> observed_identity e /\
    snapshot_parent (destination_snapshot row) <> observed_identity e.
(** No ancestor of an endpoint that can be observed is a directory that moves or lies
    in one; the sources of unchanged intents count. *)
Definition ancestors_stay (request changed : list RenameIntent) (rows : list PlanRow) : Prop :=
  forall d e path a snapshot, d ∈ rows -> row_kind d = Directory ->
    snapshot_entry (source_snapshot d) = Some e ->
    path ∈ map intent_source request ++ map intent_destination changed ->
    a ∈ direct_ancestors path -> observe b a = Ok snapshot ->
    snapshot_parent snapshot <> observed_identity e /\
    forall x, snapshot_entry snapshot = Some x -> observed_kind x = Directory ->
      observed_identity x <> observed_identity e.

Lemma directory_owners_sound rows :
  sound (directory_identity_owners rows) (fun owners => forall d e, d ∈ rows ->
    row_kind d = Directory -> snapshot_entry (source_snapshot d) = Some e ->
    is_Some (bm_get (observed_identity e) owners)).
Proof.
  unfold directory_identity_owners.
  apply (sound_fold (fun pre owners => forall d e, d ∈ pre -> row_kind d = Directory ->
    snapshot_entry (source_snapshot d) = Some e -> is_Some (bm_get (observed_identity e) owners)));
    [by intros d e ?%not_elem_of_nil|planning_walk|].
  intros pre row post owners _ Hpre. apply sound_check, sound_done.
  intros d e [Hd| ->%list_elem_of_singleton]%elem_of_app Hk He.
  - destruct (Hpre d e Hd Hk He) as [found Hf].
    assert (forall id v, is_Some (bm_get (observed_identity e) (bm_push id v owners))) as Hpush.
    { intros id v. unfold bm_push. destruct (decide (observed_identity e = id)) as [->|Hne].
      - rewrite bm_get_insert_eq. by eexists.
      - rewrite bm_get_insert_ne, Hf by done. by eexists. }
    destruct (row_kind row), (snapshot_entry (source_snapshot row)); (apply Hpush || by eexists).
  - rewrite Hk, He. unfold bm_push. rewrite bm_get_insert_eq. by eexists.
Qed.

(** A pass of the inspection finds no overlap in the endpoints it goes through. *)
Lemma inspect_pass_sound owners (endpoint : RenameIntent -> LegacyText)
    (observation : RenameIntent -> result BackendError PathSnapshot) compare l overlap :
  sound (plan_fold (fun overlap intent =>
      plan_check_cancelled;;
      inspect b owners (endpoint intent) (intent_id intent) (observation intent) compare overlap)
    overlap l)
    (fun r => r = [] -> overlap = [] /\ forall intent, intent ∈ l -> ancestors_clear owners (endpoint intent) /\
       forall snapshot, observation intent = Ok snapshot -> bm_get (snapshot_parent snapshot) owners = None).
Proof.
  apply (sound_fold (fun pre r => r = [] -> overlap = [] /\ forall intent, intent ∈ pre ->
    ancestors_clear owners (endpoint intent) /\
    forall snapshot, observation intent = Ok snapshot -> bm_get (snapshot_parent snapshot) owners = None));
    [|planning_walk|].
  - intros ->. split; [done|]. by intros intent ?%not_elem_of_nil.
  - intros pre x post acc _ Hpre. apply sound_check. eapply sound_mono; [apply inspect_sound|].
    intros r Hr Hnil. destruct (Hr Hnil) as [Hacc Hx]. destruct (Hpre Hacc) as [Hov Hall].
    split; [done|]. intros intent [Hi| ->%list_elem_of_singleton]%elem_of_app; [by apply Hall|exact Hx].
Qed.

Lemma grows_check_directories hcd request changed rows :
  grows (check_directories b hcd request changed rows).
Proof.
  pose proof (grows_push_overlaps). unfold check_directories, directory_identity_owners.
  planning_walk; auto.
Qed.

Lemma check_directories_sound scope hcd request changed rows :
  changed = List.filter (fun intent => negb (unchanged intent)) request ->
  hcd = existsb (fun intent => bool_decide (intent_kind intent = Directory)) changed ->
  Forall2 (row_of scope) changed (planned_rows rows) ->
  (hcd = true ->
     kept changed (planned_rows rows) source_snapshot (source_snapshots rows) /\
     kept changed (planned_rows rows) destination_snapshot (destination_snapshots rows)) ->
  sound (check_directories b hcd request changed rows)
    (fun _ => outside_moving_directories (planned_rows rows) /\ ancestors_stay request changed (planned_rows rows)).
Proof.
  intros Hch Hhcd Hrows Hkept. pose proof grows_push_overlaps. unfold check_directories.
  destruct hcd.
  2: { eapply sound_mono; [apply sound_true|]. intros [] _.
       enough (forall d, d ∈ planned_rows rows -> row_kind d = Directory -> False) as Hno.
       { split; [intros d e row Hd _ Hk _|intros d e path a snapshot Hd Hk]; by destruct (Hno d). }
       intros d Hd Hk. apply list_elem_of_lookup in Hd as [i Hi].
       destruct (Forall2_lookup_r _ _ _ _ _ Hrows Hi) as (intent & Hint & Hro).
       rewrite (ro_kind _ _ _ Hro) in Hk. symmetry in Hhcd. apply not_true_iff_false in Hhcd.
       apply Hhcd, existsb_exists. exists intent.
       split; [by eapply list_elem_of_In, list_elem_of_lookup_2|by apply bool_decide_eq_true]. }
  destruct (Hkept eq_refl) as [Hks Hkd].
  eapply sound_bind; [apply directory_owners_sound|planning_walk; auto|]. intros owners Hown.
  eapply sound_then; [planning_walk| |intros Hd; eapply sound_mono; [apply sound_true|by intros]].
  case_bool_decide as Hnil.
  { apply sound_done. split; [intros d e row Hd _ Hk He|intros d e path a snapshot Hd Hk He];
      destruct (Hown d e Hd Hk He) as [x Hx]; by subst owners. }
  eapply sound_bind; [apply (inspect_pass_sound owners intent_source (fun intent =>
      if unchanged intent then observe b (intent_source intent)
      else match bm_get (intent_id intent) (source_snapshots rows) with
           | Some snapshot => Ok snapshot | None => observe b (intent_source intent) end))|
    planning_walk; auto|].
  intros overlap1 H1.
  eapply sound_bind; [apply (inspect_pass_sound owners intent_destination (fun intent =>
      match bm_get (intent_id intent) (destination_snapshots rows) with
      | Some snapshot => Ok snapshot | None => observe b (intent_destination intent) end))|
    planning_walk; auto|].
  intros overlap2 H2. eapply sound_mono; [apply push_overlaps_sound|]. intros [] Hov.
  destruct (H2 Hov) as [Hov1 Hdst]. destruct (H1 Hov1) as [_ Hsrc].
  assert (ancestors_stay request changed (planned_rows rows)) as Hstay.
  { intros d e path a snapshot Hd Hk He Hpath Ha Hobs. destruct (Hown d e Hd Hk He) as [found Hf].
    assert (ancestors_clear owners path) as Hclear.
    { apply elem_of_app in Hpath as [(intent & -> & Hi)%list_elem_of_fmap|(intent & -> & Hi)%list_elem_of_fmap];
        [by apply Hsrc|by apply Hdst]. }
    destruct (Hclear a snapshot Ha Hobs) as [Hp Hx]. split; [congruence|].
    intros x Hxe Hxk Heq. specialize (Hx x Hxe Hxk). congruence. }
  split; [|exact Hstay].
  intros d e row Hd Hrow Hk He. destruct (Hown d e Hd Hk He) as [found Hf].
  apply list_elem_of_lookup in Hrow as [i Hi].
  destruct (Forall2_lookup_r _ _ _ _ _ Hrows Hi) as (intent & Hint & Hro).
  assert (intent ∈ changed) as Hin by by eapply list_elem_of_lookup_2.
  split; intros Heq.
  - assert (intent ∈ request /\ unchanged intent = false) as [Hreq Hun].
    { rewrite Hch in Hin. apply list_elem_of_In, filter_In in Hin as [? ?%negb_true_iff].
      by split; [apply list_elem_of_In|]. }
    destruct (Hsrc intent Hreq) as [_ Hp]. clear Hsrc. rename Hp into Hsrc. specialize (Hsrc (source_snapshot row)).
    rewrite Hun, (Hks i intent row Hint Hi), Heq, Hf in Hsrc. by specialize (Hsrc eq_refl).
  - destruct (Hdst intent Hin) as [_ Hp]. clear Hdst. rename Hp into Hdst. specialize (Hdst (destination_snapshot row)).
    rewrite (Hkd i intent row Hint Hi), Heq, Hf in Hdst. by specialize (Hdst eq_refl).
Qed.

(** ** The whole request *)

Record well_planned (request : PlanRequest) (p : RenamePlan) : Prop := mkWellPlanned {
  wp_revision : plan_revision p = request_revision request;
  wp_scope : plan_scope p = request_scope request;
  wp_rows : Forall2 (row_of (request_scope request))
    (List.filter (fun intent => negb (unchanged intent)) (request_entries request)) (plan_entries p);
  wp_valid : Forall (fun intent => valid_intent intent /\ environment_ok intent)
    (List.filter (fun intent => negb (unchanged intent)) (request_entries request));
  wp_ids : NoDup (map row_id (plan_entries p));
  wp_sources : NoDup (map (fun row => (row_entry row, source_entry_key row)) (plan_entries p));
  wp_destinations : NoDup (map destination_entry_key (plan_entries p));
  wp_no_overlap : no_overlap
    (List.filter (fun intent => negb (unchanged intent)) (request_entries request));
  wp_outside : outside_moving_directories (plan_entries p);
  wp_ancestors : ancestors_stay (request_entries request)
    (List.filter (fun intent => negb (unchanged intent)) (request_entries request)) (plan_entries p);
  wp_occupied : forall row, row ∈ plan_entries p ->
    destination_entry_key row ∉ map source_entry_key (plan_entries p) ->
    snapshot_entry (destination_snapshot row) = None
}.

Lemma row_of_ids scope changed rows :
  Forall2 (row_of scope) changed rows -> map row_id rows = map intent_id changed.
Proof. induction 1 as [|intent row changed rows Hr _ IH]; simpl; [done|]. by rewrite (ro_id _ _ _ Hr), IH. Qed.
Lemma row_of_entries scope changed rows :
  Forall2 (row_of scope) changed rows -> Forall (fun row => is_Some (row_entry row)) rows.
Proof.
  intros Hr. apply Forall_forall. intros row [i Hi]%list_elem_of_lookup.
  destruct (Forall2_lookup_r _ _ _ _ _ Hr Hi) as (intent & _ & Hro).
  destruct (ro_entry _ _ _ Hro) as (e & He & _). unfold row_entry. rewrite He. by eexists.
Qed.

Lemma grows_validate_request request changed : grows (validate_request request changed).
Proof. unfold validate_request. planning_walk. Qed.
Lemma grows_check_environment changed : grows (check_environment b changed).
Proof. unfold check_environment. planning_walk. Qed.
Lemma grows_check_owners changed : grows (check_owners b changed).
Proof.
  pose proof grows_source_overlaps. pose proof grows_push_overlaps.
  unfold check_owners, collect_owners. planning_walk; auto.
Qed.
Lemma grows_plan_rows scope hcd changed : grows (plan_rows b scope hcd changed).
Proof. unfold plan_rows. planning_walk. Qed.
Lemma grows_actual_destinations rows : grows (check_actual_destinations rows).
Proof. unfold check_actual_destinations. planning_walk. Qed.
Lemma grows_actual_sources request rows : grows (check_actual_sources b request rows).
Proof. unfold check_actual_sources, append_actual_duplicate_source_issues. planning_walk. Qed.
Lemma grows_occupied rows : grows (check_occupied rows).
Proof. unfold check_occupied. planning_walk. Qed.
Lemma grows_plan_id request : grows (plan_id_cancellable request).
Proof. unfold plan_id_cancellable. planning_walk. Qed.
#[local] Hint Resolve grows_validate_request grows_check_environment grows_check_owners
  grows_plan_rows grows_actual_destinations grows_actual_sources grows_check_directories
  grows_occupied grows_plan_id : planning.

Lemma validate_request_sound request changed :
  sound (validate_request request changed) (fun _ => Forall valid_intent changed).
Proof.
  unfold validate_request. eapply sound_then; [planning_walk|apply (sound_each valid_intent)|].
  - planning_walk.
  - intros intent _. apply sound_check, validate_intent_sound.
  - intros Hall. eapply sound_mono; [apply sound_true|by intros].
Qed.

Lemma plan_request_sound request : sound (plan_request b request) (well_planned request).
Proof.
  unfold plan_request. cbv zeta.
  eapply sound_bind; [apply collect_changed_sound|planning_walk|]. intros changed ->.
  set (changed := List.filter _ (request_entries request)).
  eapply sound_then; [planning_walk|apply validate_request_sound|]. intros Hvalid.
  eapply sound_then; [planning_walk|apply check_environment_sound|]. intros Henv.
  eapply sound_then; [planning_walk|apply check_owners_sound|]. intros (_ & Hids & _ & Hover).
  eapply sound_bind; [by apply plan_rows_sound|planning_walk|]. intros rows [Hrows Hkept].
  eapply sound_then; [planning_walk|apply sound_true|]. intros _.
  eapply sound_then; [planning_walk|apply check_actual_destinations_sound|]. intros Hdst.
  eapply sound_then; [planning_walk|apply check_actual_sources_sound; by eapply row_of_entries|]. intros Hsrc.
  eapply sound_then; [planning_walk|by eapply check_directories_sound|]. intros [Hdirs Hanc].
  eapply sound_then; [planning_walk|apply check_occupied_sound|]. intros Hocc.
  apply sound_check.
  eapply sound_bind; [apply sound_true|planning_walk|]. intros id _. apply sound_done.
  split; simpl; try done.
  - apply Forall_and. by split.
  - by rewrite (row_of_ids _ _ _ Hrows).
Qed.

(** A returned plan leaves no issue behind. *)
Lemma refuse_issues_Ok s s' : refuse_issues s = (Ok tt, s') -> issues s' = [].
Proof. unfold refuse_issues. destruct (issues s) eqn:E; [by intros [= <-]|done]. Qed.
Lemma pure_fold_issues {A S} (g : S -> A -> S) acc l s r s' :
  plan_fold (fun acc x => plan_check_cancelled;; mret (g acc x)) acc l s = (r, s') ->
  issues s' = issues s.
Proof.
  revert acc s. induction l as [|x l IH]; intros acc s; simpl; [by intros [= _ <-]|].
  unfold mbind, SE_bind, plan_check_cancelled.
  destruct (polls s) as [|[] rest]; simpl; [apply IH|by intros [= _ <-]|].
  intros Hr. by rewrite (IH _ _ Hr).
Qed.
Lemma check_cancelled_issues s r s' : plan_check_cancelled s = (r, s') -> issues s' = issues s.
Proof. unfold plan_check_cancelled. destruct (polls s) as [|[] rest]; by intros [= _ <-]. Qed.

Lemma plan_request_clean request s p s' : plan_request b request s = (Ok p, s') -> issues s' = [].
Proof.
  unfold plan_request. cbv zeta. intros H0.
  do 9 (apply SE_bind_Ok in H0 as (? & ? & _ & H0)).
  apply SE_bind_Ok in H0 as ([] & s1 & Hocc & H0).
  apply SE_bind_Ok in H0 as ([] & s2 & Hck%check_cancelled_issues & H0).
  apply SE_bind_Ok in H0 as (id & s3 & Hid%pure_fold_issues & H0). injection H0 as _ <-.
  rewrite Hid, Hck. unfold check_occupied in Hocc.
  apply SE_bind_Ok in Hocc as (? & ? & _ & Hocc). apply SE_bind_Ok in Hocc as (? & ? & _ & Hocc).
  by eapply refuse_issues_Ok.
Qed.

Lemma plan_well_planned request answers p :
  plan_cancellable b request answers = Ok p -> well_planned request p.
Proof.
  unfold plan_cancellable. destruct (plan_request b request (mkPlanning answers [])) as [r s'] eqn:Hr.
  simpl. intros ->. eapply plan_request_sound; [exact Hr|by eapply plan_request_clean].
Qed.

(** ** Cancellation *)

Lemma plan_request_poll request : poll_independent (plan_request b request).
Proof.
  unfold plan_request, collect_changed, validate_request, validate_intent, validate_source_path,
    check_environment, check_owners, collect_owners, source_overlaps, plan_rows, plan_row_of, plan_destination, check_actual_destinations,
    check_actual_sources, append_actual_duplicate_source_issues, changed_candidate,
    unchanged_candidate, group_duplicates, normalized_owner, candidate_key, check_directories,
    directory_identity_owners, inspect, check_occupied, plan_id_cancellable, skip, push_if,
    append_duplicate_issues, push_overlaps.
  planning_walk.
Qed.
End phases.
