(* ===== verification/PlanGuarantees.v ===== *)
(** * PlanGuarantees: planning, and planning followed by execution

    The properties of the planner, and their composition with the executor: a
    returned plan meets the hypotheses under which execution arrives, so that a
    request that is planned and executed to completion has moved every entry it
    names to where it asked. *)

From S2P Require Import Prelude Collections LegacyText RenameModel Journal Effects.
From S2P Require Import Schedule Codec Executor MemoryBackend ExecutorSafety ScheduleCorrect.
From S2P Require Import Tracking Transaction Planner PlannerLogic PlannerCorrect.

(** ** Component depth *)

Definition nonempty {A} (block : list A) : bool := match block with [] => false | _ => true end.
Definition nonempty_blocks (blocks : list (list Z)) : nat := length (List.filter nonempty blocks).

Lemma count_components_spec verbatim units in_component depth :
  (count_components verbatim units in_component depth
   + (if in_component && nonempty (default [] (head (split_units (is_ancestor_separator verbatim) units)))
      then 1 else 0))%nat =
  (depth + nonempty_blocks (split_units (is_ancestor_separator verbatim) units))%nat.
Proof.
  revert in_component depth. induction units as [|u units IH]; intros in_component depth; simpl.
  { unfold nonempty_blocks. simpl. destruct in_component; simpl; lia. }
  destruct (is_ancestor_separator verbatim u) eqn:Hu.
  - specialize (IH false depth). simpl in IH. rewrite andb_false_r. unfold nonempty_blocks in *. simpl. lia.
  - destruct (split_units (is_ancestor_separator verbatim) units) as [|block blocks] eqn:Hs.
    { destruct units as [|u' units]; simpl in Hs; [done|].
      destruct (is_ancestor_separator verbatim u'); [done|].
      by destruct (split_units (is_ancestor_separator verbatim) units). }
    unfold nonempty_blocks in *. simpl in IH |- *.
    destruct in_component; simpl.
    + specialize (IH true depth). simpl in IH. destruct block; simpl in *; lia.
    + specialize (IH true (S depth)). simpl in IH. destruct block; simpl in *; lia.
Qed.

Lemma path_component_depth_count units :
  let '(start, verbatim) := component_start units in
  path_component_depth units =
    nonempty_blocks (split_units (is_ancestor_separator verbatim) (drop start units)).
Proof.
  unfold path_component_depth. destruct (component_start units) as [start verbatim].
  pose proof (count_components_spec verbatim (drop start units) false 0) as Hc. simpl in Hc. lia.
Qed.

(** ** The ancestor walk *)

Definition separators (verbatim : bool) (units : list Z) : nat :=
  length (List.filter (is_ancestor_separator verbatim) units).

Lemma length_split_units verbatim units :
  length (split_units (is_ancestor_separator verbatim) units) = S (separators verbatim units).
Proof.
  unfold separators. induction units as [|u units IH]; simpl; [done|].
  destruct (is_ancestor_separator verbatim u); simpl; [by rewrite IH|].
  destruct (split_units (is_ancestor_separator verbatim) units); simpl in *; lia.
Qed.
Lemma separators_drop_le verbatim units i j :
  (i <= j)%nat -> (separators verbatim (drop j units) <= separators verbatim (drop i units))%nat.
Proof.
  intros Hij. replace (drop j units) with (drop (j - i) (drop i units))
    by (rewrite drop_drop; f_equal; lia).
  unfold separators. rewrite <-(take_drop (j - i) (drop i units)) at 2.
  rewrite List.filter_app, length_app. lia.
Qed.
(** Cutting at the last separator takes it away. *)
Lemma separators_take verbatim units root separator :
  rposition (is_ancestor_separator verbatim) units = Some separator -> (root < separator)%nat ->
  separators verbatim (drop (S root) units) =
    S (separators verbatim (drop (S root) (truncate_units units separator))).
Proof.
  intros (u & Heq & Hu & Hlt & Hrest)%rposition_Some Hroot. unfold truncate_units.
  rewrite Heq at 1. rewrite drop_app_le by (rewrite length_take; lia).
  unfold separators. rewrite List.filter_app, length_app. simpl. rewrite Hu. simpl.
  assert (List.filter (is_ancestor_separator verbatim) (drop (S separator) units) = []) as ->; [|simpl; lia].
  revert Hrest. generalize (drop (S separator) units) as l. clear.
  induction 1 as [|x l Hx _ IH]; [done|]. cbn [List.filter]. by rewrite Hx.
Qed.
(** More steps than separators: the walk ends by itself, whatever the visitor
    does with the accumulator and the state. *)
Lemma ancestor_loop_enough {S} verbatim root fuel extra units
    (visit : LegacyText -> S -> Plan (bool * S)) acc s :
  (separators verbatim (drop (Datatypes.S root) units) < fuel)%nat ->
  ancestor_loop (fuel + extra) verbatim root units visit acc s =
  ancestor_loop fuel verbatim root units visit acc s.
Proof.
  revert units acc s. induction fuel as [|fuel IH]; intros units acc s Hf; [lia|]. simpl.
  unfold mbind, SE_bind. destruct (plan_check_cancelled s) as [[[]|e] s1]; [|done].
  destruct (rposition _ units) as [separator|] eqn:Hr; [|done].
  destruct (Nat.leb_spec separator root) as [|Hlt]; [done|]. destruct (is_empty _); [done|].
  destruct (visit _ acc s1) as [[[[] acc']|e] s2]; [done| |done].
  apply IH. rewrite (separators_take _ _ _ _ Hr Hlt) in Hf. lia.
Qed.

Lemma nonempty_blocks_all verbatim units :
  Forall (fun block => block <> []) (split_units (is_ancestor_separator verbatim) units) ->
  nonempty_blocks (split_units (is_ancestor_separator verbatim) units) = S (separators verbatim units).
Proof.
  rewrite <-length_split_units. unfold nonempty_blocks.
  induction 1 as [|block blocks Hb _ IH]; [done|]. simpl. destruct block; [done|]. simpl. by rewrite IH.
Qed.

(** A path within the depth limit and without empty components. *)
Definition plain_path (path : LegacyText) : Prop :=
  (path_component_depth path <= MAX_PLAN_PATH_DEPTH)%nat /\
  let '(start, verbatim) := component_start path in
  Forall (fun block => block <> []) (split_units (is_ancestor_separator verbatim) (drop start path)).
(** Where the root of a path ends, and whether only a backslash separates. *)
Definition root_end (path : LegacyText) : nat := default 2%nat (verbatim_drive_root_separator path).
Definition path_verbatim (path : LegacyText) : bool := bool_decide (is_Some (verbatim_drive_root_separator path)).
(** [a] is [path] cut at one of the separators behind its root. *)
Definition is_above (a path : LegacyText) : Prop :=
  exists separator unit, path !! separator = Some unit /\
    is_ancestor_separator (path_verbatim path) unit = true /\ (root_end path < separator)%nat /\
    a = take separator path.

Lemma plain_path_separators path : plain_path path ->
  (separators (path_verbatim path) (drop (S (root_end path)) path) < MAX_PLAN_PATH_DEPTH)%nat.
Proof.
  intros [Hdepth Hall]. pose proof (path_component_depth_count path) as Hcount.
  enough (forall start verbatim root, start = S root \/ start = 0%nat ->
    path_component_depth path = nonempty_blocks (split_units (is_ancestor_separator verbatim) (drop start path)) ->
    Forall (fun block => block <> []) (split_units (is_ancestor_separator verbatim) (drop start path)) ->
    (separators verbatim (drop (S root) path) < MAX_PLAN_PATH_DEPTH)%nat) as Hfew.
  { unfold component_start, path_verbatim, root_end in *. destruct (verbatim_drive_root_separator path) as [root|]; cbn [default].
    - rewrite bool_decide_true by by eexists. by apply (Hfew (S root) true root); [left|..].
    - rewrite bool_decide_false by by intros [].
      destruct (_ && _); [by apply (Hfew 3%nat false 2%nat); [left|..]|by apply (Hfew 0%nat false 2%nat); [right|..]]. }
  intros start verbatim root Hstart Hcount' Hall'.
  pose proof (separators_drop_le verbatim path start (S root)) as Hs.
  pose proof (nonempty_blocks_all verbatim (drop start path) Hall'). lia.
Qed.
Lemma ancestors_from_complete verbatim root fuel units separator unit :
  (separators verbatim (drop (S root) units) <= fuel)%nat -> units !! separator = Some unit ->
  is_ancestor_separator verbatim unit = true -> (root < separator)%nat ->
  take separator units ∈ ancestors_from fuel verbatim root units.
Proof.
  revert units. induction fuel as [|fuel IH]; intros units Hfuel Hunit Hsep Hroot.
  { exfalso. assert (unit ∈ List.filter (is_ancestor_separator verbatim) (drop (S root) units)) as Hin.
    { apply list_elem_of_In, filter_In. split; [|done]. apply list_elem_of_In.
      apply (list_elem_of_lookup_2 _ (separator - S root)). by rewrite lookup_drop, Nat.add_sub_assoc, Nat.add_comm, Nat.add_sub by lia. }
    unfold separators in Hfuel. destruct (List.filter _ _); [by apply not_elem_of_nil in Hin|cbn in Hfuel; lia]. }
  cbn [ancestors_from]. destruct (rposition (is_ancestor_separator verbatim) units) as [last|] eqn:Hlast.
  2: { apply rposition_None in Hlast. pose proof (Forall_lookup_1 _ _ _ _ Hlast Hunit). cbn in *. congruence. }
  pose proof (rposition_Some _ _ _ Hlast) as (x & _ & _ & Hlt & Hrest).
  assert (separator <= last)%nat as Hle.
  { apply Nat.le_ngt. intros Hgt. apply (Forall_lookup_1 _ _ (separator - S last) unit) in Hrest; [congruence|].
    rewrite lookup_drop. by replace (S last + (separator - S last))%nat with separator by lia. }
  rewrite (proj2 (Nat.leb_gt last root)) by lia. unfold truncate_units.
  assert (is_empty (take last units) = false) as ->.
  { destruct units; [done|]. by destruct last; [lia|]. }
  destruct (decide (separator = last)) as [->|Hne]; [apply elem_of_cons; by left|]. apply elem_of_cons. right.
  rewrite (separators_take _ _ _ _ Hlast) in Hfuel by lia.
  replace (take separator units) with (take separator (take last units)) by (rewrite take_take; f_equal; lia).
  apply IH; [unfold truncate_units in Hfuel; lia| |done|done]. by rewrite lookup_take_lt by lia.
Qed.
(** The bounded walk goes through everything above a plain path. *)
Lemma above_is_ancestor a path : plain_path path -> is_above a path -> a ∈ direct_ancestors path.
Proof.
  intros Hplain (separator & unit & Hunit & Hsep & Hroot & ->). pose proof (plain_path_separators _ Hplain).
  unfold direct_ancestors. fold (root_end path) (path_verbatim path).
  eapply ancestors_from_complete; [lia|done..].
Qed.

(** ** Where a directory keeps its entries *)

Section naming.
Context {B J K : Type} `{HB : RenameBackend B, HJ : JournalStore J, HK : ExecutionControl K}.
Context `{!RenameBackendLaws B, !JournalStoreLaws J, !ObservingBackend B}.

(** [path] lies in the directory identified by [parent]. *)
Definition lies_in (place : EntryIdentity -> LegacyText -> list Z) (key_of : LegacyText -> list Z)
    (path : LegacyText) (parent : EntryIdentity) : Prop :=
  key_of path = place parent (path_leaf path) /\
  forall leaf, key_of (parent_units path ++ [BACKSLASH] ++ leaf) = place parent leaf.

(** Paths, directory identities and entry keys fit together: [place] gives the
    location of an entry of a directory, entry keys name locations injectively,
    and the endpoints of the request lie in the directories they show. *)
Record placed_request (place : EntryIdentity -> LegacyText -> list Z) (loc : PathKey -> list Z)
    (known : PathKey -> Prop) (b : B) (request : PlanRequest) : Prop := mkPlaced {
  pr_intents : Forall (fun i => i = rename_intent_new (intent_id i) (intent_source i)
    (intent_destination_parent i) (intent_destination_name i) (intent_kind i)) (request_entries request);
  pr_key : forall b' parent leaf key,
    (forall p, path_key b' p = path_key b p) -> (forall k, occupant b' k = occupant b k) ->
    planned_entry_key b' parent leaf = Ok key -> known key /\ loc key = place parent leaf;
  pr_inj : forall a c, known a -> known c -> loc a = loc c -> a = c;
  pr_parent : forall i i' resolved resolved' key,
    i ∈ request_entries request -> i' ∈ request_entries request ->
    resolve_source b (intent_source i) = Ok resolved -> resolve_source b (intent_source i') = Ok resolved' ->
    resolved_entry_key resolved = Some key -> resolved_entry_key resolved' = Some key ->
    snapshot_parent (resolved_snapshot resolved) = snapshot_parent (resolved_snapshot resolved');
  pr_source : forall i resolved, i ∈ request_entries request ->
    resolve_source b (intent_source i) = Ok resolved ->
    lies_in place (path_key b) (resolved_path resolved) (snapshot_parent (resolved_snapshot resolved));
  pr_destination : forall i snapshot, i ∈ request_entries request ->
    observe b (intent_destination i) = Ok snapshot ->
    lies_in place (path_key b) (intent_destination i) (snapshot_parent snapshot)
}.

Lemma path_leaf_join parent name :
  Forall (fun u => is_path_separator u = false) name ->
  path_leaf (intent_destination (rename_intent_new 0 [] parent name File)) = name.
Proof.
  intros Hn. simpl. unfold path_leaf, last_is.
  assert (exists pre sep, parent ++ (if last_is is_path_separator parent then [] else [BACKSLASH]) ++ name
    = pre ++ sep :: name /\ is_path_separator sep = true) as (pre & sep & Heq & Hsep).
  { unfold last_is. destruct parent as [|u parent _] using rev_ind.
    - exists [], BACKSLASH. by split.
    - rewrite last_snoc. destruct (is_path_separator u) eqn:Hu.
      + exists parent, u. split; [|done]. by rewrite <-app_assoc.
      + exists (parent ++ [u]), BACKSLASH. split; [|done]. simpl. by rewrite <-app_assoc. }
  unfold last_is in Heq. rewrite Heq, (rposition_split _ _ _ _ Hsep Hn).
  replace (S (length pre)) with (length (pre ++ [sep])) by (rewrite length_app; simpl; lia).
  replace (pre ++ sep :: name) with ((pre ++ [sep]) ++ name) by (by rewrite <-app_assoc).
  apply drop_app_length.
Qed.

Lemma intent_leaf i :
  i = rename_intent_new (intent_id i) (intent_source i) (intent_destination_parent i)
        (intent_destination_name i) (intent_kind i) ->
  validate_windows_leaf_name (intent_destination_name i) = Ok tt ->
  path_leaf (intent_destination i) = intent_destination_name i.
Proof.
  intros Hi (_ & _ & _ & _ & Hv & _)%validate_windows_leaf_name_Ok. rewrite Hi at 1.
  apply (path_leaf_join (intent_destination_parent i)). eapply Forall_impl; [exact Hv|].
  by intros u (_ & ? & _).
Qed.

(** The row of a changed intent, and the intent of a row. *)
Lemma planned_row_intent (b : B) request p row :
  well_planned b request p -> row ∈ plan_entries p ->
  exists i, i ∈ request_entries request /\ intent_source i <> intent_destination i /\
    row_of b (request_scope request) i row /\ valid_intent i.
Proof.
  intros Hp [k Hk]%list_elem_of_lookup.
  destruct (Forall2_lookup_r _ _ _ _ _ (wp_rows _ _ _ Hp) Hk) as (i & Hi & Hro).
  assert (i ∈ List.filter (fun intent => negb (unchanged intent)) (request_entries request)) as Hin
    by by eapply list_elem_of_lookup_2.
  pose proof (wp_valid _ _ _ Hp) as Hv. rewrite Forall_forall in Hv. destruct (Hv i Hin) as [Hval _].
  apply list_elem_of_In, filter_In in Hin as [Hin Hun%negb_true_iff%bool_decide_eq_false].
  exists i. split_and!; [by apply list_elem_of_In|done|done|done].
Qed.

Section placed.
Variables (place : EntryIdentity -> LegacyText -> list Z) (loc : PathKey -> list Z).
Variables (known : PathKey -> Prop) (w : World B J K) (request : PlanRequest) (p : RenamePlan).
Hypothesis Hplaced : placed_request place loc known (backend w) request.
Hypothesis Hplan : well_planned (backend w) request p.

Lemma placed_source row : row ∈ plan_entries p ->
  known (source_entry_key row) /\ path_key (backend w) (row_source row) = loc (source_entry_key row) /\
  (forall leaf, path_key (backend w) (parent_units (row_source row) ++ [BACKSLASH] ++ leaf) =
    place (snapshot_parent (source_snapshot row)) leaf) /\
  occupant (backend w) (loc (source_entry_key row)) =
    observed_identity <$> snapshot_entry (source_snapshot row).
Proof.
  intros Hrow. destruct (planned_row_intent _ _ _ _ Hplan Hrow) as (i & Hi & _ & Hro & _).
  destruct (ro_resolved _ _ _ _ Hro) as (resolved & Hres & Hsrc & Hsnap & _).
  destruct (pr_source _ _ _ _ _ Hplaced i resolved Hi Hres) as [Hat Hleaf].
  destruct (pr_key _ _ _ _ _ Hplaced (backend w) _ _ _ ltac:(done) ltac:(done) (ro_source_key _ _ _ _ Hro))
    as [Hk Hl].
  rewrite Hsrc, Hsnap in *. split_and!; [done|congruence|done|].
  rewrite Hl, <-Hat. by apply (resolve_shows _ _ _ Hres).
Qed.
Lemma placed_destination row : row ∈ plan_entries p ->
  known (destination_entry_key row) /\
  path_key (backend w) (row_destination row) = loc (destination_entry_key row) /\
  occupant (backend w) (loc (destination_entry_key row)) =
    observed_identity <$> snapshot_entry (destination_snapshot row).
Proof.
  intros Hrow. destruct (planned_row_intent _ _ _ _ Hplan Hrow) as (i & Hi & _ & Hro & Hv).
  pose proof (ro_observed _ _ _ _ Hro) as Ho. rewrite (ro_destination _ _ _ _ Hro) in Ho |- *.
  destruct (pr_destination _ _ _ _ _ Hplaced i _ Hi Ho) as [Hat _].
  destruct (pr_key _ _ _ _ _ Hplaced (backend w) _ _ _ ltac:(done) ltac:(done) (ro_destination_key _ _ _ _ Hro))
    as [Hk Hl].
  assert (path_leaf (intent_destination i) = intent_destination_name i) as Hleaf.
  { apply intent_leaf; [|by destruct Hv as (_ & _ & _ & ?)].
    pose proof (pr_intents _ _ _ _ _ Hplaced) as Hall. rewrite Forall_forall in Hall. by apply Hall. }
  rewrite Hleaf in Hat. split_and!; [done|congruence|].
  rewrite Hl, <-Hat. by apply observe_shows.
Qed.

(** A returned plan describes the filesystem it was made from. *)
Lemma planned_observed :
  plan_observed p loc known (path_key (backend w)) (occupant (backend w))
    (answers_of (B:=B) (J:=J) (K:=K) (path_key (backend w)) (occupant (backend w))).
Proof.
  split.
  - pose proof (wp_sources _ _ _ Hplan) as Hn.
    assert (forall l, (forall row, row ∈ l -> row ∈ plan_entries p) ->
      NoDup (map (fun row => (row_entry row, source_entry_key row)) l) -> NoDup (map source_entry_key l)) as Hgen;
      [|by apply Hgen].
    induction l as [|r l IH]; intros Hsub Hnd; [constructor|]. apply NoDup_cons in Hnd as [Hnew Hnd].
    simpl. constructor; [|apply IH; [intros row Hrow; apply Hsub; by right|done]].
    intros (r' & Heq & Hr')%list_elem_of_fmap. apply Hnew, list_elem_of_fmap. exists r'. split; [|done].
    assert (r ∈ plan_entries p) as Hr by (apply Hsub; by left).
    assert (r' ∈ plan_entries p) as Hr2 by (apply Hsub; by right).
    destruct (planned_row_intent _ _ _ _ Hplan Hr) as (i & Hi & _ & Hro & _).
    destruct (planned_row_intent _ _ _ _ Hplan Hr2) as (i' & Hi' & _ & Hro' & _).
    destruct (placed_source r Hr) as (_ & _ & _ & Hocc), (placed_source r' Hr2) as (_ & _ & _ & Hocc').
    destruct (ro_resolved _ _ _ _ Hro) as (res & Hres & _ & Hsnap & Hk).
    destruct (ro_resolved _ _ _ _ Hro') as (res' & Hres' & _ & Hsnap' & Hk').
    rewrite Heq in Hk, Hocc. rewrite Heq. f_equal. unfold row_entry.
    rewrite Hsnap, Hsnap' in *. rewrite (pr_parent _ _ _ _ _ Hplaced _ _ _ _ _ Hi Hi' Hres Hres' Hk Hk').
    destruct (snapshot_entry (resolved_snapshot res)), (snapshot_entry (resolved_snapshot res'));
      simpl in *; congruence.
  - apply (wp_destinations _ _ _ Hplan).
  - intros r Hr. destruct (planned_row_intent _ _ _ _ Hplan Hr) as (i & _ & _ & Hro & _).
    destruct (ro_entry _ _ _ _ Hro) as (e & He & _). by exists e.
  - intros r Hr. split; [by destruct (placed_source r Hr)|by destruct (placed_destination r Hr)].
  - apply (pr_inj _ _ _ _ _ Hplaced).
  - intros r Hr. by destruct (placed_source r Hr) as (_ & ? & _).
  - intros r Hr. by destruct (placed_destination r Hr) as (_ & ? & _).
  - intros r e Hr He. destruct (placed_source r Hr) as (_ & _ & _ & ->). by rewrite He.
  - intros r Hr Hout. destruct (placed_destination r Hr) as (_ & _ & ->).
    by rewrite (wp_occupied _ _ _ Hplan r Hr Hout).
  - intros r leaf key Hr (w0 & w1 & (_ & Hk & Hv) & Hh). cbn [handle] in Hh. injection Hh as Hh _.
    destruct (pr_key _ _ _ _ _ Hplaced (backend w0) _ _ _ Hk (fun k => eq_sym (Hv k)) Hh) as [Hkn Hl].
    split; [done|]. rewrite Hl. by destruct (placed_source r Hr) as (_ & _ & Hleaf & _).
  - intros path snapshot (w0 & w1 & (_ & Hk & Hv) & Hh) Hnone. cbn [handle] in Hh. injection Hh as Hh _.
    apply observe_shows in Hh. rewrite Hk, Hnone in Hh. by rewrite Hv.
Qed.
End placed.
End naming.

(** ** Properties *)

Section properties.
Context {B : Type} `{RenameBackend B}.

(** C14: A plan the planner returns, whatever the backend and the answers of the
    cancellation closure, has one row per changed intent, in order, with the
    resolved source, the observed destination and their entry keys; every intent
    is absolute, at most 256 components deep and has a valid leaf name; row
    identifiers, source entries and destination entries are distinct; rows stay
    on their volume and within the authorized scope; an occupied destination is a
    source of the plan; and no endpoint's parent is a directory that moves.  Of a
    path within the depth limit and without empty components: no source of the plan
    is above it when it is a source, and when it is any source of the request or a
    destination of the plan, nothing above it that can be observed is a directory
    that moves or lies directly in one. *)
Theorem plan_sound (b : B) request answers p :
  plan_cancellable b request answers = Ok p ->
  let changed := List.filter (fun intent => negb (unchanged intent)) (request_entries request) in
  well_planned b request p /\
  (forall i j a, i ∈ changed -> j ∈ changed -> plain_path (intent_source i) -> is_above a (intent_source i) ->
     path_key b a <> path_key b (intent_source j)) /\
  (forall d e path a snapshot, d ∈ plan_entries p -> row_kind d = Directory ->
     snapshot_entry (source_snapshot d) = Some e ->
     path ∈ map intent_source (request_entries request) ++ map intent_destination changed ->
     plain_path path -> is_above a path -> observe b a = Ok snapshot ->
     snapshot_parent snapshot <> observed_identity e /\
     forall x, snapshot_entry snapshot = Some x -> observed_kind x = Directory ->
       observed_identity x <> observed_identity e).
Proof.
  intros Hp%plan_well_planned changed. split; [done|]. split.
  - intros i j a Hi Hj Hplain Ha. apply (wp_no_overlap _ _ _ Hp i j a Hi Hj). by apply above_is_ancestor.
  - intros d e path a snapshot Hd Hk He Hpath Hplain Ha Hobs.
    by apply (wp_ancestors _ _ _ Hp d e path a snapshot Hd Hk He Hpath (above_is_ancestor _ _ Hplain Ha) Hobs).
Qed.

(** C26: Cancellation only cancels: with any answers of the closure the planner
    returns Cancelled or exactly what it returns when nobody cancels, and then
    it never returns Cancelled, so that [plan] never reaches its unreachable arm. *)
Theorem cancellation_only_cancels (b : B) request answers :
  (plan_cancellable b request answers = Err PlanCancelled \/
   plan_cancellable b request answers = plan_cancellable b request []) /\
  is_Some (plan b request).
Proof.
  pose proof (plan_request_poll b request answers []) as Hp. unfold plan, plan_cancellable.
  destruct (plan_request b request (mkPlanning answers [])) as [r s'],
    (plan_request b request (mkPlanning [] [])) as [r0 s0]. destruct Hp as (Hc & _ & Hp). simpl.
  split; [destruct Hp as [->|[-> _]]; [by left|by right]|].
  destruct r0 as [|[]]; [by eexists|done|by eexists].
Qed.
End properties.

(** The planner's component count is the number of non-empty components:
    after the drive or verbatim drive root, the path split at its separators has
    exactly [path_component_depth] non-empty blocks. *)
Theorem path_component_depth_counts (units : LegacyText) :
  let '(start, verbatim) := component_start units in
  path_component_depth units =
    nonempty_blocks (split_units (is_ancestor_separator verbatim) (drop start units)).
Proof. apply path_component_depth_count. Qed.

(** C27: The planner's walk up the ancestors of a path ends by itself: for a path
    within the depth limit and without empty components, whatever the visitor
    does and the closure answers, the bound of 256 steps never cuts it short: the
    same walk with any larger bound has the same result and the same effects. *)
Theorem ancestor_walk_ends {S} (path : LegacyText) (extra : nat)
    (visit : LegacyText -> S -> Plan (bool * S)) (acc : S) (s : Planning) :
  let '(start, verbatim) := component_start path in
  (path_component_depth path <= MAX_PLAN_PATH_DEPTH)%nat ->
  Forall (fun block => block <> [])
    (split_units (is_ancestor_separator verbatim) (drop start path)) ->
  visit_direct_ancestors path visit acc s =
  ancestor_loop (MAX_PLAN_PATH_DEPTH + extra)
    (bool_decide (is_Some (verbatim_drive_root_separator path)))
    (default 2%nat (verbatim_drive_root_separator path)) path visit acc s.
Proof.
  pose proof (plain_path_separators path) as Hfew. unfold plain_path in Hfew.
  destruct (component_start path) as [start verbatim]. intros Hle Hall. specialize (Hfew (conj Hle Hall)).
  unfold visit_direct_ancestors. symmetry. by apply ancestor_loop_enough.
Qed.
Lemma ancestor_walk_ends_witness :
  let collect ancestor seen : Plan (bool * list LegacyText) := mret (false, seen ++ [ancestor]) in
  visit_direct_ancestors (text "C:\a\b\c.txt") collect [] (mkPlanning [] []) =
    (Ok [text "C:\a\b"; text "C:\a"], mkPlanning [] []) /\
  visit_direct_ancestors (text "C:\a\b\c.txt") collect [] (mkPlanning [] []) =
    ancestor_loop (MAX_PLAN_PATH_DEPTH + 44) false 2 (text "C:\a\b\c.txt") collect []
      (mkPlanning [] []).
Proof.
  split; [vm_compute; reflexivity|].
  apply (ancestor_walk_ends (text "C:\a\b\c.txt") 44); vm_compute; [lia|].
  repeat constructor; discriminate.
Defined.

(** The depth limit counts components and the walk counts separators: a path
    with empty components can pass the limit and hide an ancestor. *)
Lemma empty_components_hide_ancestors :
  let path := text "C:\dir" ++ replicate 300 BACKSLASH ++ text "file" in
  path_component_depth path = 2%nat /\ is_absolute_windows_path path = true /\
  existsb (fun a => bool_decide (a = text "C:\dir")) (direct_ancestors path) = false.
Proof. vm_compute. done. Qed.

Section execution.
Context {B J K : Type} `{HB : RenameBackend B, HJ : JournalStore J, HK : ExecutionControl K}.
Context `{!RenameBackendLaws B, !JournalStoreLaws J, !ObservingBackend B}.

(** C13: Planning and executing a request does what it asks: when the plan made
    from the filesystem is executed and reports Completed, every changed intent's
    destination holds the entry its source resolved to, and every path that is no
    destination holds what it held, or nothing if it was a source. *)
Theorem planned_execution_arrives place loc known request answers p (w : World B J K) report w' :
  journal_records (journal w) = [] ->
  placed_request place loc known (backend w) request ->
  plan_cancellable (backend w) request answers = Ok p ->
  run handle (execute_with_control p) w = (Ok report, w') ->
  report_outcome report = OutcomeCompleted ->
  (forall i, i ∈ request_entries request -> intent_source i <> intent_destination i ->
     exists resolved e, resolve_source (backend w) (intent_source i) = Ok resolved /\
       occupant (backend w) (path_key (backend w) (resolved_path resolved)) = Some e /\
       occupant (backend w') (path_key (backend w) (intent_destination i)) = Some e) /\
  (forall k, (forall r, r ∈ plan_entries p -> k <> path_key (backend w) (row_destination r)) ->
     occupant (backend w') k =
       if bool_decide (k ∈ map (path_key (backend w) ∘ row_source) (plan_entries p)) then None
       else occupant (backend w) k).
Proof.
  intros Hj Hplaced Hp%plan_well_planned Hr Hc.
  pose proof (planned_observed _ _ _ w _ _ Hplaced Hp) as Hobs.
  pose proof (execute_safe _ _ p w (untouched_start w Hj)) as Hs.
  apply (safe_run _ _ _ _ _ _ _ Hs) in Hr as [(steps & Hsched & Hout & _) _].
  unfold outcome_ok in Hout. rewrite Hc in Hout. destruct Hout as [[_ Hm] _].
  rewrite take_ge in Hm by done.
  destruct (scheduled_arrives _ _ _ _ _ _ Hobs Hsched) as (v & Hmv & Hat & Helse).
  pose proof (moves_unique _ _ _ _ _ Hm Hmv) as Heq. split.
  - intros i Hi Hne.
    assert (i ∈ List.filter (fun intent => negb (unchanged intent)) (request_entries request)) as Hin.
    { apply list_elem_of_In, filter_In. split; [by apply list_elem_of_In|].
      apply negb_true_iff. by apply bool_decide_eq_false. }
    apply list_elem_of_lookup in Hin as [k Hk].
    destruct (Forall2_lookup_l _ _ _ _ _ (wp_rows _ _ _ Hp) Hk) as (row & Hrow & Hro).
    destruct (ro_resolved _ _ _ _ Hro) as (resolved & Hres & _ & Hsnap & _).
    destruct (ro_entry _ _ _ _ Hro) as (e & He & _).
    exists resolved, (observed_identity e). split_and!; [done| |].
    + rewrite (resolve_shows _ _ _ Hres), <-Hsnap, He. done.
    + rewrite Heq, <-(ro_destination _ _ _ _ Hro). apply Hat; [by eapply list_elem_of_lookup_2|done].
  - intros k Hk. rewrite Heq. by apply Helse.
Qed.
End execution.

(** ** A concrete request: the swap of the in-memory adapters *)

Definition example_request : PlanRequest :=
  plan_request_new 1
    [rename_intent_new 0 (text "C:\a") (text "C:\") (text "b") File;
     rename_intent_new 1 (text "C:\b") (text "C:\") (text "a") File].
(** The keys of the example's directory name its entries; any other key is a
    place of its own. *)
Definition example_place_of_key (key : PathKey) : list Z :=
  if bool_decide (example_known key) then example_loc key else (-1) :: key.
Definition example_place (parent : EntryIdentity) (leaf : LegacyText) : list Z :=
  example_place_of_key (entry_key_from_parts parent (map ascii_lower leaf)).

Lemma example_placed :
  placed_request example_place example_place_of_key (fun _ => True) example_backend example_request.
Proof.
  assert (forall i, i ∈ request_entries example_request ->
    i = rename_intent_new 0 (text "C:\a") (text "C:\") (text "b") File \/
    i = rename_intent_new 1 (text "C:\b") (text "C:\") (text "a") File) as Hentries.
  { intros i Hi. simpl in Hi. set_solver. }
  split.
  - by repeat constructor.
  - intros b' parent leaf key _ _ Hk. split; [done|]. simpl in Hk. unfold memory_planned_entry_key in Hk.
    destruct (validate_windows_leaf_name leaf); [|done]. by injection Hk as <-.
  - intros a c _ _. unfold example_place_of_key, example_known, example_loc.
    repeat case_bool_decide; intros Heq.
    + apply app_inv_head in Heq. rewrite <-(take_drop 12 a), <-(take_drop 12 c). congruence.
    + vm_compute in Heq. discriminate.
    + vm_compute in Heq. discriminate.
    + by injection Heq.
  - intros i i' r r' key [-> | ->]%Hentries [-> | ->]%Hentries Hr Hr' _ _;
      vm_compute in Hr; vm_compute in Hr'; by injection Hr as <-; injection Hr' as <-.
  - intros i r [-> | ->]%Hentries Hr; vm_compute in Hr; injection Hr as <-; split; done.
  - intros i s [-> | ->]%Hentries Hs; vm_compute in Hs; injection Hs as <-; split; done.
Qed.

Lemma plan_sound_witness :
  exists p, plan_cancellable example_backend example_request [false; false; false] = Ok p /\
    plan_entries p = plan_entries example_plan /\ well_planned example_backend example_request p.
Proof.
  eexists. split; [vm_compute; reflexivity|]. split; [vm_compute; reflexivity|].
  apply (plan_sound example_backend example_request [false; false; false]). vm_compute. reflexivity.
Defined.

Lemma planned_execution_arrives_witness :
  exists p report w',
    plan_cancellable example_backend example_request [] = Ok p /\
    run handle (execute_with_control p) (example_world []) = (Ok report, w') /\
    (forall i, i ∈ request_entries example_request -> intent_source i <> intent_destination i ->
       exists resolved e, resolve_source example_backend (intent_source i) = Ok resolved /\
         occupant example_backend (path_key example_backend (resolved_path resolved)) = Some e /\
         occupant (backend w') (path_key example_backend (intent_destination i)) = Some e).
Proof.
  destruct (plan_cancellable example_backend example_request []) as [p|e] eqn:Hp;
    [|vm_compute in Hp; discriminate].
  assert (exists report, (run handle (execute_with_control p) (example_world [])).1 = Ok report /\
    report_outcome report = OutcomeCompleted) as (report & Hr & Hc).
  { vm_compute in Hp. injection Hp as <-. eexists. split; vm_compute; reflexivity. }
  exists p, report, (run handle (execute_with_control p) (example_world [])).2.
  assert (run handle (execute_with_control p) (example_world []) =
    (Ok report, (run handle (execute_with_control p) (example_world [])).2)) as Hrun.
  { rewrite <-Hr. apply surjective_pairing. }
  split; [reflexivity|]. split; [exact Hrun|].
  exact (proj1 (planned_execution_arrives example_place example_place_of_key (fun _ => True)
    example_request [] p (example_world []) report _ eq_refl example_placed Hp Hrun Hc)).
Defined.
