(* ===== verification/Admission.v ===== *)
(** * Admission: collecting rows from picked and dropped paths

    [crates/darknamer-app/src/admission.rs]: path budgets, bounded selections and
    imports, the cancellable merge sort, and the bounded depth-first collection
    of sources.  A platform path and its [is_absolute] are parameters, as is the
    comparison of paths; the adapter, the cancellation closure and the progress
    observer are effects.  The message texts are not modelled. *)

From S2P Require Import Prelude Collections LegacyText ListItem RenameModel Effects.

Definition MAX_ADMITTED_SOURCES : nat := 10000.
Definition MAX_ADMISSION_DEPTH : nat := 256.
Definition MAX_IMPORT_BYTES : nat := 2 * 1024 * 1024.
Definition MAX_ADMITTED_PATH_BYTES : Z := 4 * 1024 * 1024.

(** ** The path budget *)

Inductive PathBudgetReservation : Type := Reserved | Exhausted.
#[export] Instance PathBudgetReservation_eq_dec : EqDecision PathBudgetReservation.
Proof. solve_decision. Defined.

Record PathBudget : Type := mkPathBudget { remaining_bytes : Z }.
Definition path_budget_new : PathBudget := mkPathBudget MAX_ADMITTED_PATH_BYTES.
Definition from_remaining_bytes (remaining : Z) : PathBudget :=
  mkPathBudget (if remaining <? MAX_ADMITTED_PATH_BYTES then remaining else MAX_ADMITTED_PATH_BYTES).

(** [size_of::<u16>()]. *)
Definition UNIT_BYTES : Z := 2.

Definition reserve_utf16_units (units : Z) (b : PathBudget) : PathBudgetReservation * PathBudget :=
  match checked_mul units UNIT_BYTES with
  | None => (Exhausted, mkPathBudget 0)
  | Some bytes =>
      if remaining_bytes b <? bytes then (Exhausted, mkPathBudget 0)
      else (Reserved, mkPathBudget (remaining_bytes b - bytes))
  end.

(** ** Bounded selections and imports *)

(** A saturating sum of lengths. *)
Definition saturating_length (a b : nat) : nat :=
  Z.to_nat (saturating_add (Z.of_nat a) (Z.of_nat b)).

Record BoundedSelection : Type := mkSelection { selection_take : nat; selection_truncated : bool }.
Definition bounded_selection (reported remaining : nat) : BoundedSelection :=
  let witness_bound := saturating_length remaining 1 in
  mkSelection (reported `min` witness_bound)%nat (remaining <? reported)%nat.

(** A reader gives its bytes and then ends, or fails. *)
Record Reader (E : Type) : Type := mkReader { available : list Z; failure : option E }.
Arguments mkReader {E} available failure.
Arguments available {E} r.
Arguments failure {E} r.
(** [reader.take(limit).read_to_end(..)]. *)
Definition read_to_end {E} (limit : nat) (r : Reader E) : result E (list Z) :=
  if (limit <=? length (available r))%nat then Ok (take limit (available r))
  else match failure r with Some e => Err e | None => Ok (available r) end.

(** [None] is the error of an oversized stream. *)
Definition read_bounded_import {E} (r : Reader E) : result (option E) (list Z) :=
  bytes ← map_err Some (read_to_end (S MAX_IMPORT_BYTES) r);
  if (MAX_IMPORT_BYTES <? length bytes)%nat then Err None else Ok bytes.

(** The loop over the split text. *)
Fixpoint bounded_lines (slices : list (list Z)) (limit : nat) (lines : list LegacyText)
  : list LegacyText * bool :=
  match slices with
  | [] => (lines, false)
  | units :: slices' =>
      match trim_units units with
      | None => bounded_lines slices' limit lines
      | Some line =>
          let lines := lines ++ [line] in
          if (limit <? length lines)%nat then (take limit lines, true)
          else bounded_lines slices' limit lines
      end
  end.
Definition bounded_import_lines (t : LegacyText) (limit : nat) : list LegacyText * bool :=
  bounded_lines (split_units (Z.eqb LF) t) limit [].

(** ** Modes, issues and observations *)

Inductive AdmissionMode : Type := Direct | Recurse.
#[export] Instance AdmissionMode_eq_dec : EqDecision AdmissionMode.
Proof. solve_decision. Defined.

Inductive AdmissionIssueKind : Type :=
| RelativePath | MetadataIssue | ReadDirectoryIssue | ReparsePoint | LimitReached
| RepeatedDirectory | DepthExceeded | PathBudgetExceeded.

Inductive AdmissionOperation : Type := ValidationOperation | MetadataOperation | ReadDirectoryOperation.
Record AdmissionAdapterError : Type := mkAdapterError {
  adapter_operation : AdmissionOperation;
  adapter_code : option Z
}.
Inductive AdmissionReadError : Type :=
| ReadCancelled
| ReadAdapter (error : AdmissionAdapterError).

Record AdmissionMetadata : Type := mkMetadata {
  is_directory : bool;
  metadata_is_reparse_point : bool;
  directory_identity : option EntryIdentity;
  metadata_actual_size : Z;
  metadata_created : Z;
  metadata_modified : Z
}.
Record AdmissionReadBudget : Type := mkReadBudget {
  path_limit : nat;
  remaining_path_bytes : Z
}.

Section admission.
Context {Path : Type}.

Record AdmissionIssue : Type := mkAdmissionIssue {
  issue_path : Path;
  admission_issue_kind : AdmissionIssueKind;
  issue_operation : option AdmissionOperation;
  issue_code : option Z
}.
Record AdmissionChildren : Type := mkChildren {
  children_paths : list Path;
  had_errors : bool;
  truncated : bool;
  path_budget_exhausted : bool
}.
Record AdmissionReport : Type := mkAdmissionReport {
  report_items : list LegacyListItem;
  report_issues : list AdmissionIssue
}.

Definition issue (path : Path) (kind : AdmissionIssueKind) (error : option AdmissionAdapterError)
  : AdmissionIssue :=
  mkAdmissionIssue path kind (adapter_operation <$> error) (error ≫= adapter_code).

(** The calls of the collection: the closure, the adapter and the observer. *)
Inductive admission_effect : Type -> Type :=
| AdmissionPoll : admission_effect bool
| ValidatePath (path : Path) : admission_effect (result AdmissionAdapterError unit)
| ReadMetadata (path : Path) : admission_effect (result AdmissionAdapterError AdmissionMetadata)
| ReadChildren (path : Path) (budget : AdmissionReadBudget)
    : admission_effect (result AdmissionReadError AdmissionChildren)
| LegacyPath (path : Path) : admission_effect LegacyText
| PathUnits (path : Path) : admission_effect Z
| InspectionStarted (inspected : nat) : admission_effect unit.

(** Why a collection ends early.  An index out of range panics, and a loop that
    exhausts its steps would not have ended; neither happens. *)
Inductive AdmissionStop : Type := AdmissionCancelled | IndexOutOfRange | StepsExhausted.

Abbreviation Admit := (Prog admission_effect AdmissionStop).

Definition poll_admission : Admit unit :=
  cancelled ← lift_prog (call AdmissionPoll);
  if cancelled : bool then throw AdmissionCancelled else mret tt.

(** [read_children_cancellable] as the trait provides it. *)
Definition read_children_default
    (read_children : prog admission_effect (result AdmissionAdapterError AdmissionChildren))
  : prog admission_effect (result AdmissionReadError AdmissionChildren) :=
  prog_bind (call AdmissionPoll) (fun cancelled =>
  if cancelled : bool then Ret (Err ReadCancelled)
  else
    prog_bind read_children (fun r =>
    match r with
    | Err error => Ret (Err (ReadAdapter error))
    | Ok children =>
        prog_bind (call AdmissionPoll) (fun cancelled =>
        Ret (if cancelled : bool then Err ReadCancelled else Ok children))
    end)).

(** ** The cancellable merge sort *)

Section sort.
Variable compare_paths : Path -> Path -> comparison.

Definition at_index {A} (l : list A) (index : nat) : Admit A :=
  lift_result (ok_or IndexOutOfRange (l !! index)).
(** [l[index] = x]. *)
Definition set_index {A} (l : list A) (index : nat) (x : A) : Admit (list A) :=
  if (index <? length l)%nat then mret (<[index := x]> l) else throw IndexOutOfRange.

(** [while left < middle && right < stop]. *)
Fixpoint merge_loop (fuel : nat) (paths : list Path) (order : list nat) (middle stop : nat)
    (left right output : nat) (merged : list nat) : Admit (nat * nat * nat * list nat) :=
  if (left <? middle)%nat && (right <? stop)%nat then
    match fuel with
    | O => throw StepsExhausted
    | S fuel =>
        poll_admission;;
        l ← at_index order left;
        r ← at_index order right;
        left_path ← at_index paths l;
        right_path ← at_index paths r;
        if match compare_paths left_path right_path with Gt => false | _ => true end
        then merged ← set_index merged output l;
             merge_loop fuel paths order middle stop (S left) right (S output) merged
        else merged ← set_index merged output r;
             merge_loop fuel paths order middle stop left (S right) (S output) merged
    end
  else mret (left, right, output, merged).

(** [while from < limit]: the rest of one run is copied. *)
Fixpoint copy_loop (fuel : nat) (order : list nat) (limit from output : nat) (merged : list nat)
  : Admit (nat * list nat) :=
  if (from <? limit)%nat then
    match fuel with
    | O => throw StepsExhausted
    | S fuel =>
        poll_admission;;
        index ← at_index order from;
        merged ← set_index merged output index;
        copy_loop fuel order limit (S from) (S output) merged
    end
  else mret (output, merged).

Definition merge_run (paths : list Path) (order : list nat) (start middle stop : nat)
    (merged : list nat) : Admit (list nat) :=
  '(from_left, from_right, output, merged) ←
    merge_loop (stop - start) paths order middle stop start middle start merged;
  '(output, merged) ← copy_loop (middle - from_left) order middle from_left output merged;
  '(_, merged) ← copy_loop (stop - from_right) order stop from_right output merged;
  mret merged.

(** [while start < len]. *)
Fixpoint merge_pass (fuel : nat) (paths : list Path) (width : nat) (order : list nat) (start : nat)
    (merged : list nat) : Admit (list nat) :=
  if (start <? length paths)%nat then
    match fuel with
    | O => throw StepsExhausted
    | S fuel =>
        let middle := (saturating_length start width `min` length paths)%nat in
        let stop := (saturating_length middle width `min` length paths)%nat in
        merged ← merge_run paths order start middle stop merged;
        merge_pass fuel paths width order stop merged
    end
  else mret merged.

(** [while width < len]; the buffers are swapped after each pass. *)
Fixpoint merge_passes (fuel : nat) (paths : list Path) (width : nat) (order merged : list nat)
  : Admit (list nat) :=
  if (width <? length paths)%nat then
    match fuel with
    | O => throw StepsExhausted
    | S fuel =>
        merged ← merge_pass (length paths) paths width order 0 merged;
        merge_passes fuel paths (saturating_length width width) merged order
    end
  else mret order.

(** [slots.get_mut(index).and_then(Option::take)] for each index of the order. *)
Fixpoint take_slots (order : list nat) (slots : list (option Path)) : list Path :=
  match order with
  | [] => []
  | index :: order' =>
      match slots !! index with
      | Some (Some path) => path :: take_slots order' (<[index := None]> slots)
      | _ => take_slots order' slots
      end
  end.

Definition sort_paths_cancellable (paths : list Path) : Admit (list Path) :=
  let len := length paths in
  if (len <? 2)%nat then poll_admission;; mret paths
  else
    order ← merge_passes len paths 1 (seq 0 len) (repeat 0%nat len);
    poll_admission;;
    mret (take_slots order (map Some paths)).

(** ** The collection *)

Variable is_absolute : Path -> bool.

(** A frontier entry: the path, its depth and the bytes counted for it. *)
Definition Frontier : Type := list (Path * nat * Z).

(** The local variables of the traversal; the top of the stack is the head. *)
Record Collecting : Type := mkCollecting {
  stack : Frontier;
  stack_path_bytes : Z;
  path_budget : PathBudget;
  seen_directories : BTreeSet EntryIdentity;
  inspected : nat;
  report : AdmissionReport
}.

Definition with_issue (i : AdmissionIssue) (s : Collecting) : Collecting :=
  mkCollecting (stack s) (stack_path_bytes s) (path_budget s) (seen_directories s) (inspected s)
    (mkAdmissionReport (report_items (report s)) (report_issues (report s) ++ [i])).

(** [continue] and [break] of the traversal loop. *)
Inductive Flow : Type := Continue (s : Collecting) | Break (s : Collecting).

Definition skip_path (path : Path) (kind : AdmissionIssueKind) (error : option AdmissionAdapterError)
    (s : Collecting) : Admit Flow := mret (Continue (with_issue (issue path kind error) s)).
Definition stop_at (path : Path) (kind : AdmissionIssueKind) (s : Collecting) : Admit Flow :=
  mret (Break (with_issue (issue path kind None) s)).

(** [for path in paths.into_iter().rev()]: each is pushed with its bytes. *)
Fixpoint push_paths (paths : list Path) (depth : nat) (s : Collecting) : Admit Collecting :=
  match paths with
  | [] => mret s
  | path :: paths' =>
      poll_admission;;
      units ← lift_prog (call (PathUnits path));
      let bytes := saturating_mul units UNIT_BYTES in
      push_paths paths' depth
        (mkCollecting ((path, depth, bytes) :: stack s) (saturating_add (stack_path_bytes s) bytes)
           (path_budget s) (seen_directories s) (inspected s) (report s))
  end.

(** The children whose complete paths fit: their number, and whether one did not. *)
Fixpoint verify_children (paths : list Path) (budget_bytes verified_path_bytes : Z)
    (verified_len : nat) : Admit (nat * bool) :=
  match paths with
  | [] => mret (verified_len, false)
  | child :: paths' =>
      units ← lift_prog (call (PathUnits child));
      match checked_mul units UNIT_BYTES ≫= checked_add verified_path_bytes with
      | None => mret (verified_len, true)
      | Some next_bytes =>
          if budget_bytes <? next_bytes then mret (verified_len, true)
          else verify_children paths' budget_bytes next_bytes (S verified_len)
      end
  end.

Definition issue_if (condition : bool) (path : Path) (kind : AdmissionIssueKind) (s : Collecting)
  : Collecting := if condition then with_issue (issue path kind None) s else s.

(** The [Ok(mut children)] arm of the directory read. *)
Definition enter_children (path : Path) (depth : nat) (budget : AdmissionReadBudget)
    (children : AdmissionChildren) (s : Collecting) : Admit Flow :=
  let too_many := (path_limit budget <? length (children_paths children))%nat in
  let paths :=
    if too_many then take (path_limit budget) (children_paths children)
    else children_paths children in
  '(verified_len, over_budget) ← verify_children paths (remaining_path_bytes budget) 0 0;
  paths ← sort_paths_cancellable (take verified_len paths);
  s ← push_paths (rev paths) (S depth) s;
  let s := issue_if (had_errors children) path ReadDirectoryIssue s in
  let s := issue_if (truncated children || too_many) path LimitReached s in
  mret (Continue (issue_if (path_budget_exhausted children || over_budget) path PathBudgetExceeded s)).

(** A directory in [Recurse] mode. *)
Definition enter_directory (capacity : nat) (path : Path) (depth : nat) (s : Collecting)
  : Admit Flow :=
  if (MAX_ADMISSION_DEPTH <=? depth)%nat then skip_path path DepthExceeded None s
  else
    let remaining := (capacity - inspected s - length (stack s))%nat in
    if (remaining =? 0)%nat then stop_at path LimitReached s
    else
      let budget := mkReadBudget remaining
        (saturating_sub (remaining_bytes (path_budget s)) (stack_path_bytes s)) in
      children ← lift_prog (call (ReadChildren path budget));
      match children with
      | Err ReadCancelled => throw AdmissionCancelled
      | Err (ReadAdapter error) => skip_path path ReadDirectoryIssue (Some error) s
      | Ok children => enter_children path depth budget children s
      end.

(** A candidate that becomes a row. *)
Definition admit_path (path : Path) (metadata : AdmissionMetadata) (s : Collecting) : Admit Flow :=
  legacy_path ← lift_prog (call (LegacyPath path));
  let '(reservation, budget) := reserve_utf16_units (zlen legacy_path) (path_budget s) in
  let s := mkCollecting (stack s) (stack_path_bytes s) budget (seen_directories s) (inspected s)
             (report s) in
  if bool_decide (reservation = Exhausted) then stop_at path PathBudgetExceeded s
  else
    let item := new_with_actual_size legacy_path (is_directory metadata)
      (metadata_actual_size metadata mod 2 ^ 32) (metadata_actual_size metadata)
      (metadata_created metadata) (metadata_modified metadata) in
    mret (Continue (mkCollecting (stack s) (stack_path_bytes s) (path_budget s) (seen_directories s)
      (inspected s)
      (mkAdmissionReport (report_items (report s) ++ [item]) (report_issues (report s))))).

(** From the metadata of a candidate on. *)
Definition classify_path (mode : AdmissionMode) (capacity : nat) (path : Path) (depth : nat)
    (metadata : AdmissionMetadata) (s : Collecting) : Admit Flow :=
  if metadata_is_reparse_point metadata then skip_path path ReparsePoint None s
  else if is_directory metadata then
    let repeated :=
      match directory_identity metadata with
      | Some identity => bs_contains identity (seen_directories s)
      | None => false
      end in
    if repeated : bool then skip_path path RepeatedDirectory None s
    else
      let seen :=
        match directory_identity metadata with
        | Some identity => bs_insert identity (seen_directories s)
        | None => seen_directories s
        end in
      let s := mkCollecting (stack s) (stack_path_bytes s) (path_budget s) seen (inspected s)
                 (report s) in
      if bool_decide (mode = Recurse) then enter_directory capacity path depth s
      else admit_path path metadata s
  else admit_path path metadata s.

(** One iteration, the candidate popped. *)
Definition inspect_path (mode : AdmissionMode) (capacity : nat) (path : Path) (depth : nat)
    (s : Collecting) : Admit Flow :=
  poll_admission;;
  if (capacity <=? inspected s)%nat then stop_at path LimitReached s
  else
    let s := mkCollecting (stack s) (stack_path_bytes s) (path_budget s) (seen_directories s)
               (S (inspected s)) (report s) in
    lift_prog (call (InspectionStarted (inspected s)));;
    if negb (is_absolute path) then skip_path path RelativePath None s
    else
      validated ← lift_prog (call (ValidatePath path));
      match validated with
      | Err error => skip_path path MetadataIssue (Some error) s
      | Ok _ =>
          poll_admission;;
          metadata ← lift_prog (call (ReadMetadata path));
          match metadata with
          | Err error => skip_path path MetadataIssue (Some error) s
          | Ok metadata =>
              poll_admission;;
              classify_path mode capacity path depth metadata s
          end
      end.

Fixpoint collect_loop (fuel : nat) (mode : AdmissionMode) (capacity : nat) (s : Collecting)
  : Admit AdmissionReport :=
  match stack s with
  | [] => mret (report s)
  | (path, depth, path_bytes) :: rest =>
      match fuel with
      | O => throw StepsExhausted
      | S fuel =>
          let s := mkCollecting rest (saturating_sub (stack_path_bytes s) path_bytes) (path_budget s)
                     (seen_directories s) (inspected s) (report s) in
          flow ← inspect_path mode capacity path depth s;
          match flow with
          | Break s => mret (report s)
          | Continue s => collect_loop fuel mode capacity s
          end
      end
  end.

(** [collect_admission_cancellable_with_budget_and_progress]. *)
Definition collect_with_progress (roots : list Path) (mode : AdmissionMode) (capacity : nat)
    (budget : PathBudget) : Admit AdmissionReport :=
  let capacity := (capacity `min` MAX_ADMITTED_SOURCES)%nat in
  poll_admission;;
  '(roots, issues) ←
    (if (capacity <? length roots)%nat
     then over ← at_index roots capacity;
          mret (take capacity roots, [issue over LimitReached None])
     else mret (roots, []));
  roots ← sort_paths_cancellable roots;
  s ← push_paths (rev roots) 0
        (mkCollecting [] 0 budget [] 0 (mkAdmissionReport [] issues));
  collect_loop (S capacity) mode capacity s.

(** [collect_admission_cancellable]: the full budget. *)
Definition collect_admission_cancellable (roots : list Path) (mode : AdmissionMode) (capacity : nat)
  : Admit AdmissionReport :=
  collect_with_progress roots mode capacity path_budget_new.
End sort.
End admission.
Arguments admission_effect : clear implicits.
Arguments AdmissionIssue : clear implicits.
Arguments AdmissionChildren : clear implicits.
Arguments AdmissionReport : clear implicits.
Arguments Collecting : clear implicits.
Arguments Flow : clear implicits.
