(* ===== verification/AdmissionSort.v ===== *)
(** * AdmissionSort: the cancellable merge sort is a stable sort

    The bottom-up merge sort of admission.rs works on index buffers that are
    swapped after each pass and polls for cancellation at every move.  It never
    leaves a buffer, it ends, and unless it is cancelled it returns the stable
    sort of its paths. *)

From S2P Require Import Prelude Collections LegacyText ListItem RenameModel Effects Admission.

(** ** Steps of a collection under all answers *)

Section stepping.
Context {Path : Type}.
Variables (admits : forall X, admission_effect Path X -> Prop)
          (answers : forall X, admission_effect Path X -> X -> Prop) (cancels : Prop).

(** [p] ends with a result in [Q], or is cancelled where [cancels] allows it. *)
Definition collects {A} (p : Prog (admission_effect Path) AdmissionStop A) (Q : A -> Prop) : Prop :=
  wp admits answers p (fun r =>
    match r with Ok a => Q a | Err AdmissionCancelled => cancels | Err _ => False end).

Lemma collects_bind {A A'} (p : Prog (admission_effect Path) AdmissionStop A)
    (f : A -> Prog (admission_effect Path) AdmissionStop A') Q :
  collects p (fun a => collects (f a) Q) -> collects (p ≫= f) Q.
Proof.
  intros Hp. unfold mbind, Prog_bind. apply wp_prog_bind.
  eapply wp_consequence; [exact Hp|]. by intros [a|[]].
Qed.
Lemma collects_mono {A} (p : Prog (admission_effect Path) AdmissionStop A) (Q Q' : A -> Prop) :
  collects p Q -> (forall a, Q a -> Q' a) -> collects p Q'.
Proof.
  intros Hp HQ. eapply wp_consequence; [exact Hp|]. intros [a|[]]; [apply HQ|done..].
Qed.
Lemma collects_ret {A} (a : A) (Q : A -> Prop) : Q a -> collects (mret a) Q.
Proof. done. Qed.
Lemma collects_call {X} (e : admission_effect Path X) (Q : X -> Prop) :
  admits X e -> (forall x, answers X e x -> Q x) -> collects (lift_prog (call e)) Q.
Proof. intros He HQ. split; [done|]. intros x Hx. by apply HQ. Qed.
Lemma collects_index {A} (l : list A) index x (Q : A -> Prop) :
  l !! index = Some x -> Q x -> collects (at_index l index) Q.
Proof. intros Hx HQ. unfold at_index, collects. by rewrite Hx. Qed.
Lemma collects_set {A} (l : list A) index x (Q : list A -> Prop) :
  (index < length l)%nat -> Q (<[index := x]> l) -> collects (set_index l index x) Q.
Proof.
  intros Hi HQ. unfold set_index, collects. by rewrite (proj2 (Nat.ltb_lt _ _) Hi).
Qed.

Hypothesis poll_admitted : admits _ AdmissionPoll.
Hypothesis poll_cancels : answers _ AdmissionPoll true -> cancels.

Lemma collects_poll (Q : unit -> Prop) : Q tt -> collects poll_admission Q.
Proof using poll_admitted poll_cancels.
  intros HQ. unfold poll_admission. apply collects_bind, collects_call; [done|].
  intros [] Hx; [by apply poll_cancels|exact HQ].
Qed.

(** ** One merge *)

Section sorting.
Variable compare_paths : Path -> Path -> comparison.
Context `{!TotalPreorder compare_paths}.
Variables (paths : list Path) (first : Path).
Abbreviation len := (length paths).

(** Indices are compared by the paths they name. *)
Definition compare_indices (i j : nat) : comparison :=
  compare_paths (nth i paths first) (nth j paths first).
#[local] Instance compare_indices_preorder : TotalPreorder compare_indices.
Proof.
  unfold compare_indices. split; intros.
  - apply cmp_refl.
  - apply cmp_opp.
  - by eapply cmp_trans.
Qed.
Definition in_bounds (order : list nat) : Prop :=
  length order = len /\ Forall (fun i => (i < len)%nat) order.

Lemma in_bounds_lookup order i :
  in_bounds order -> (i < len)%nat ->
  exists x, order !! i = Some x /\ (x < len)%nat /\ paths !! x = Some (nth x paths first).
Proof.
  intros [Hlen Hall] Hi. destruct (lookup_lt_is_Some_2 order i) as [x Hx]; [lia|].
  exists x. assert (x < len)%nat as Hlt.
  { rewrite Forall_forall in Hall. by eapply Hall, list_elem_of_lookup_2. }
  split_and!; [done|done|]. destruct (lookup_lt_is_Some_2 paths x Hlt) as [p Hp].
  by rewrite Hp, (nth_lookup_Some _ _ _ _ Hp).
Qed.

Lemma copy_loop_collects order fuel limit from output merged Q :
  in_bounds order -> (limit <= len)%nat -> (limit - from <= fuel)%nat ->
  (output + (limit - from) <= length merged)%nat ->
  Q ((output + (limit - from))%nat, write_at output (slice from limit order) merged) ->
  collects (copy_loop fuel order limit from output merged) Q.
Proof using poll_admitted poll_cancels first.
  intros Hb Hlimit. revert from output merged.
  induction fuel as [|fuel IH]; intros from output merged Hf Hout HQ; simpl;
    destruct (Nat.ltb_spec from limit) as [Hlt|Hge]; try lia.
  1,3: rewrite slice_empty, write_at_nil in HQ by lia;
    replace (limit - from)%nat with 0%nat in HQ by lia; rewrite Nat.add_0_r in HQ; exact HQ.
  destruct (in_bounds_lookup order from Hb) as (x & Hx & _); [lia|].
  apply collects_bind, collects_poll, collects_bind. eapply collects_index; [exact Hx|].
  apply collects_bind, collects_set; [lia|].
  apply IH; [lia|rewrite length_insert; lia|].
  rewrite write_at_cons by lia. rewrite (slice_cons _ _ _ _ Hlt Hx) in HQ.
  replace (S output + (limit - S from))%nat with (output + (limit - from))%nat by lia. exact HQ.
Qed.

(** The main merge loop writes a prefix of the merge and leaves one run empty. *)
Lemma merge_loop_collects order fuel middle stop left right output merged Q :
  in_bounds order -> (middle <= len)%nat -> (stop <= len)%nat ->
  (left <= middle)%nat -> (right <= stop)%nat ->
  ((middle - left) + (stop - right) <= fuel)%nat ->
  (output + (middle - left) + (stop - right) <= length merged)%nat ->
  (forall left' right' prefix,
     (left' <= middle)%nat -> (right' <= stop)%nat -> left' = middle \/ right' = stop ->
     (length prefix + (middle - left') + (stop - right') = (middle - left) + (stop - right))%nat ->
     merge_by compare_indices (slice left middle order) (slice right stop order) =
       prefix ++ slice left' middle order ++ slice right' stop order ->
     Q (left', right', (output + length prefix)%nat, write_at output prefix merged)) ->
  collects (merge_loop compare_paths fuel paths order middle stop left right output merged) Q.
Proof using poll_admitted poll_cancels first.
  intros Hb Hm Hs. revert left right output merged.
  induction fuel as [|fuel IH]; intros left right output merged Hl Hr Hf Hout HQ; simpl;
    destruct (Nat.ltb_spec left middle) as [Hlt|Hge]; simpl; try lia.
  2: destruct (Nat.ltb_spec right stop) as [Hlt'|Hge']; simpl.
  1,3,4: apply collects_ret; specialize (HQ left right []); simpl in HQ;
    rewrite write_at_nil, Nat.add_0_r in HQ; apply HQ; try lia.
  - rewrite (slice_empty right) by lia. by rewrite merge_by_nil_r, app_nil_r.
  - rewrite (slice_empty right) by lia. by rewrite merge_by_nil_r, app_nil_r.
  - rewrite (slice_empty left) by lia. by rewrite merge_by_nil_l.
  - destruct (in_bounds_lookup order left Hb) as (x & Hx & Hxl & Hpx); [lia|].
    destruct (in_bounds_lookup order right Hb) as (y & Hy & Hyl & Hpy); [lia|].
    apply collects_bind, collects_poll, collects_bind. eapply collects_index; [exact Hx|].
    apply collects_bind. eapply collects_index; [exact Hy|].
    apply collects_bind. eapply collects_index; [exact Hpx|].
    apply collects_bind. eapply collects_index; [exact Hpy|].
    rewrite (slice_cons _ _ _ _ Hlt Hx), (slice_cons _ _ _ _ Hlt' Hy), merge_by_cons in HQ.
    rewrite <-(slice_cons _ _ _ _ Hlt Hx), <-(slice_cons _ _ _ _ Hlt' Hy) in HQ.
    unfold compare_indices at 1 in HQ.
    destruct (compare_paths _ _); apply collects_bind, collects_set; try lia;
      (apply IH; [lia|lia|lia|rewrite length_insert; lia|]);
      intros left' right' prefix H1 H2 H3 H4 H5;
      rewrite write_at_cons by lia; rewrite Nat.add_succ_comm;
      (eapply (HQ left' right' (_ :: prefix)); simpl; [lia|lia|done|lia|by rewrite H5]).
Qed.

Lemma merge_run_collects order start middle stop merged Q :
  in_bounds order -> (start <= middle)%nat -> (middle <= stop)%nat -> (stop <= len)%nat ->
  length merged = len ->
  Q (write_at start
       (merge_by compare_indices (slice start middle order) (slice middle stop order)) merged) ->
  collects (merge_run compare_paths paths order start middle stop merged) Q.
Proof using poll_admitted poll_cancels first.
  intros Hb H1 H2 H3 Hlen HQ. unfold merge_run.
  apply collects_bind, merge_loop_collects; try done; try lia.
  intros left' right' prefix Hl Hr Hend Hcount Heq. rewrite Heq in HQ.
  assert (length (write_at start prefix merged) = len) as Hlen'
    by (rewrite length_write_at; lia).
  apply collects_bind, copy_loop_collects; [done|lia|lia|lia|].
  pose proof (length_slice left' middle order) as Hsl.
  destruct Hb as [Hol Hall]. rewrite Hol in Hsl.
  apply collects_bind, copy_loop_collects; [done|lia|lia| |].
  { rewrite length_write_at; [lia|]. rewrite Hsl; lia. }
  apply collects_ret.
  rewrite write_at_app by (rewrite ?Hsl; lia). rewrite <-(Hsl ltac:(lia)), <-Nat.add_assoc, <-length_app.
  rewrite write_at_app; [by rewrite <-app_assoc|]. rewrite length_app, Hsl; lia.
Qed.
(** ** Passes *)

Definition block {A} (width k : nat) (l : list A) : list A := take width (drop (k * width) l).
(** Every aligned block of [width] indices is sorted, as a block of [0, len). *)
Definition sorted_blocks (width : nat) (order : list nat) : Prop :=
  length order = len /\
  forall k, block width k order = sort_by compare_indices (block width k (seq 0 len)).

Lemma block_double {A} width k (l : list A) :
  block (2 * width) k l = block width (2 * k) l ++ block width (S (2 * k)) l.
Proof using Type.
  unfold block. replace (k * (2 * width))%nat with (2 * k * width)%nat by lia.
  replace (S (2 * k) * width)%nat with (2 * k * width + width)%nat by lia.
  rewrite <-drop_drop. set (d := drop _ l).
  rewrite <-(take_drop width d) at 1.
  destruct (decide (width <= length d)%nat).
  - rewrite take_app_ge by (rewrite length_take; lia). f_equal. f_equal. rewrite length_take. lia.
  - rewrite (drop_ge d) by lia. rewrite app_nil_r, take_nil, app_nil_r. apply take_ge.
    rewrite length_take. lia.
Qed.
Lemma block_past {A} width k (l : list A) : (length l <= k * width)%nat -> block width k l = [].
Proof using Type. intros Hle. unfold block. by rewrite drop_ge, take_nil by done. Qed.
Lemma block_zero {A} width (l : list A) : (length l <= width)%nat -> block width 0 l = l.
Proof using Type. intros Hle. unfold block. simpl. by apply take_ge. Qed.

Lemma sorted_blocks_in_bounds width order :
  (0 < width)%nat -> sorted_blocks width order -> in_bounds order.
Proof using Type.
  intros Hw [Hlen Hall]. split; [done|]. apply Forall_lookup. intros i x Hx.
  assert (x ∈ block width (i / width) order) as Hin.
  { unfold block. apply list_elem_of_lookup. exists (i mod width)%nat.
    rewrite lookup_take_lt by (apply Nat.mod_upper_bound; lia). rewrite lookup_drop.
    replace (i / width * width + i mod width)%nat with i; [done|].
    rewrite Nat.mul_comm. apply Nat.div_mod_eq. }
  rewrite Hall, sort_by_perm in Hin. unfold block in Hin.
  apply subseteq_take, subseteq_drop, elem_of_seq in Hin. lia.
Qed.
Lemma sorted_blocks_start : sorted_blocks 1 (seq 0 len).
Proof using Type.
  split; [apply length_seq|]. intros k. unfold block.
  destruct (drop (k * 1) (seq 0 len)) as [|x l]; [done|]. done.
Qed.
(** Blocks that cover everything: any larger width will do. *)
Lemma sorted_blocks_all width width' order :
  sorted_blocks width order -> (len <= width)%nat -> (len <= width')%nat -> (0 < width')%nat ->
  sorted_blocks width' order.
Proof using Type.
  intros [Hlen Hall] Hw Hw' Hpos. split; [done|]. intros [|k].
  - specialize (Hall 0%nat). rewrite !block_zero in * by (rewrite ?length_seq; lia). done.
  - rewrite !block_past; [done|rewrite length_seq; nia|nia].
Qed.

Lemma saturating_length_min a b n :
  Z.of_nat n <= usize_max -> (saturating_length a b `min` n = (a + b) `min` n)%nat.
Proof using Type. unfold saturating_length, saturating_add. lia. Qed.

Lemma merged_block width k start stop (new merged : list nat) :
  start = (k * width)%nat -> (start <= stop)%nat -> stop = ((start + width) `min` len)%nat ->
  length merged = len -> length new = (stop - start)%nat -> (start < len)%nat ->
  block width k (write_at start new merged) = new /\
  forall j, (j < k)%nat -> block width j (write_at start new merged) = block width j merged.
Proof using Type.
  intros Hs Hle Hstop Hlen Hnew Hlt. unfold write_at, block. split.
  - rewrite <-Hs. rewrite drop_app_length' by (rewrite length_take; lia).
    destruct (decide (start + width <= len)%nat).
    + rewrite take_app_length' by lia. done.
    + rewrite drop_ge by lia. rewrite app_nil_r. apply take_ge. lia.
  - intros j Hj. assert (j * width + width <= start)%nat by nia.
    rewrite drop_app_le by (rewrite length_take; lia).
    rewrite take_app_le by (rewrite length_drop, length_take; lia).
    rewrite !take_drop_commute, take_take. do 2 f_equal. lia.
Qed.

Lemma merge_pass_collects fuel width order k start merged Q :
  Z.of_nat len <= usize_max -> (0 < width)%nat -> sorted_blocks width order ->
  length merged = len -> start = ((k * (2 * width)) `min` len)%nat -> (len - start <= fuel)%nat ->
  (forall j, (j < k)%nat ->
     block (2 * width) j merged = sort_by compare_indices (block (2 * width) j (seq 0 len))) ->
  (forall merged', sorted_blocks (2 * width) merged' -> Q merged') ->
  collects (merge_pass compare_paths fuel paths width order start merged) Q.
Proof using poll_admitted poll_cancels TotalPreorder0.
  intros Hmax Hw Hblocks. pose proof (sorted_blocks_in_bounds _ _ Hw Hblocks) as Hb.
  destruct Hblocks as [Hol Hblocks]. revert k start merged.
  induction fuel as [|fuel IH]; intros k start merged Hlen Hstart Hf Hdone HQ; simpl;
    destruct (Nat.ltb_spec start len) as [Hlt|Hge]; try lia.
  1,3: apply collects_ret, HQ; split; [done|]; intros j;
    destruct (decide (j < k)%nat); [by apply Hdone|];
    rewrite !block_past; [done|rewrite length_seq; nia|nia].
  rewrite (saturating_length_min start) by done. set (middle := ((start + width) `min` len)%nat).
  rewrite saturating_length_min by done. set (stop := ((middle + width) `min` len)%nat).
  assert (start = (k * (2 * width))%nat) as Hk by lia.
  assert (stop = ((start + 2 * width) `min` len)%nat) as Hstop by lia.
  apply collects_bind, merge_run_collects; try done; try lia.
  assert (merge_by compare_indices (slice start middle order) (slice middle stop order) =
    sort_by compare_indices (block (2 * width) k (seq 0 len))) as ->.
  { rewrite block_double, <-merge_by_sort, <-!Hblocks by apply _. f_equal.
    - unfold slice, block. replace (2 * k * width)%nat with start by lia.
      destruct (decide (start + width <= len)%nat); [f_equal; lia|].
      rewrite !take_ge; [done|rewrite length_drop; lia|rewrite length_drop; lia].
    - unfold slice, block. replace (S (2 * k) * width)%nat with (start + width)%nat by lia.
      destruct (decide (start + width <= len)%nat).
      + replace middle with (start + width)%nat by lia.
        destruct (decide (start + width + width <= len)%nat); [f_equal; lia|].
        rewrite !take_ge; [done|rewrite length_drop; lia|rewrite length_drop; lia].
      + rewrite !drop_ge by lia. by rewrite !take_nil. }
  set (new := sort_by _ _).
  assert (length new = (stop - start)%nat) as Hnew.
  { unfold new. rewrite length_sort_by. unfold block. rewrite length_take, length_drop, length_seq. lia. }
  destruct (merged_block (2 * width) k start stop new merged) as [Hnow Hbefore]; try done; try lia.
  apply (IH (S k)); [rewrite length_write_at; lia|lia|lia| |done].
  intros j Hj. destruct (decide (j = k)) as [->|]; [done|]. rewrite Hbefore by lia. apply Hdone. lia.
Qed.

Lemma merge_passes_collects fuel width order merged Q :
  Z.of_nat len <= usize_max -> (0 < width)%nat -> (len - width <= fuel)%nat ->
  sorted_blocks width order -> length merged = len ->
  Q (sort_by compare_indices (seq 0 len)) ->
  collects (merge_passes compare_paths fuel paths width order merged) Q.
Proof using poll_admitted poll_cancels TotalPreorder0.
  intros Hmax. revert width order merged.
  induction fuel as [|fuel IH]; intros width order merged Hw Hf Hb Hlen HQ; simpl;
    destruct (Nat.ltb_spec width len) as [Hlt|Hge]; try lia.
  1,3: apply collects_ret; destruct Hb as [Hol Hb]; specialize (Hb 0%nat);
    rewrite !block_zero in Hb by (rewrite ?length_seq; lia); by rewrite Hb.
  apply collects_bind, (merge_pass_collects _ _ _ 0); try done; try lia.
  intros merged' Hm'.
  assert (0 < saturating_length width width /\
    (saturating_length width width = 2 * width \/
     len <= saturating_length width width /\ len <= 2 * width))%nat as [Hpos Hsat]
    by (unfold saturating_length, saturating_add; lia).
  apply IH; [done| | |by destruct Hb|done].
  - destruct Hsat as [->|[? ?]]; lia.
  - destruct Hsat as [->|[? ?]]; [done|]. by eapply sorted_blocks_all.
Qed.
End sorting.

(** ** The sort *)

Lemma map_nth_indices (l : list Path) d : map (fun i => nth i l d) (seq 0 (length l)) = l.
Proof using Type.
  apply list_eq. intros i. rewrite list_lookup_fmap.
  destruct (decide (i < length l)%nat) as [Hlt|Hge].
  - rewrite lookup_seq_lt by done. simpl. rewrite nth_lookup.
    by destruct (lookup_lt_is_Some_2 _ _ Hlt) as [x ->].
  - rewrite lookup_seq_ge by lia. symmetry. apply lookup_ge_None. lia.
Qed.
Lemma take_slots_map (f : nat -> Path) order slots :
  NoDup order -> (forall i, i ∈ order -> slots !! i = Some (Some (f i))) ->
  take_slots order slots = map f order.
Proof using Type.
  intros Hnd. revert slots. induction Hnd as [|i order Hi _ IH]; intros slots Hs; [done|]. simpl.
  rewrite (Hs i) by left. f_equal. apply IH. intros j Hj.
  rewrite list_lookup_insert_ne by (intros ->; done). apply Hs. by right.
Qed.

Lemma sort_paths_collects compare_paths (paths : list Path) Q :
  TotalPreorder compare_paths -> Z.of_nat (length paths) <= usize_max ->
  Q (sort_by compare_paths paths) ->
  collects (sort_paths_cancellable compare_paths paths) Q.
Proof using poll_admitted poll_cancels.
  intros Hcmp Hmax HQ. unfold sort_paths_cancellable.
  destruct (Nat.ltb_spec (length paths) 2) as [Hlt|Hge].
  { apply collects_bind, collects_poll, collects_ret.
    destruct paths as [|p [|q paths]]; simpl in *; [done|done|lia]. }
  destruct paths as [|first rest] eqn:Hp; [simpl in Hge; lia|]. rewrite <-Hp in *.
  apply collects_bind, (merge_passes_collects compare_paths paths first);
    [done|lia|lia|apply sorted_blocks_start|apply repeat_length|].
  apply collects_bind, collects_poll, collects_ret.
  set (order := sort_by _ _). assert (order ≡ₚ seq 0 (length paths)) as Hperm by apply sort_by_perm.
  rewrite (take_slots_map (fun i => nth i paths first)).
  - unfold order, compare_indices. rewrite (sort_by_map compare_paths (fun i => nth i paths first)).
    by rewrite map_nth_indices.
  - rewrite Hperm. apply NoDup_seq.
  - intros i Hi. rewrite Hperm in Hi. apply elem_of_seq in Hi.
    destruct (lookup_lt_is_Some_2 paths i) as [x Hx]; [lia|].
    rewrite list_lookup_fmap, Hx. simpl. by rewrite (nth_lookup_Some _ _ _ _ Hx).
Qed.
End stepping.
