(* ===== verification/AdmissionCorrect.v ===== *)
(** * AdmissionCorrect: what a collection of sources guarantees

    Whatever the adapter, the closure and the observer answer, a collection stays
    within its count, byte and depth bounds, looks only at absolute paths, admits
    only what it validated and inspected below its roots, and ends.  For a tree
    of entries that fits the bounds it lists exactly the tree, in sorted
    depth-first order. *)

From S2P Require Import Prelude Collections LegacyText ListItem RenameModel Effects Admission.
From S2P Require Import AdmissionSort.

(** ** Bounded imports *)

Lemma omap_cons {A B} (f : A -> option B) x l :
  omap f (x :: l) = match f x with Some y => y :: omap f l | None => omap f l end.
Proof. done. Qed.
Lemma bounded_lines_spec slices limit lines :
  (length lines <= limit)%nat ->
  bounded_lines slices limit lines =
  let all := lines ++ omap trim_units slices in (take limit all, (limit <? length all)%nat).
Proof.
  revert lines. induction slices as [|units slices IH]; intros lines Hle; cbn [bounded_lines]; cbv zeta.
  { simpl. rewrite app_nil_r, take_ge by done. f_equal. symmetry. apply Nat.ltb_ge. lia. }
  rewrite omap_cons. destruct (trim_units units) as [line|]; [|by apply IH].
  replace (lines ++ line :: omap trim_units slices)
    with ((lines ++ [line]) ++ omap trim_units slices) by by rewrite <-app_assoc.
  destruct (Nat.ltb_spec limit (length (lines ++ [line]))) as [Hlt|Hge]; [|by apply IH].
  rewrite (take_app_le (lines ++ [line]) (omap _ _)) by lia. f_equal. symmetry. apply Nat.ltb_lt.
  rewrite length_app. lia.
Qed.

(** ** The collection under all answers *)

Section collection.
Context {Path : Type}.
Variables (compare_paths : Path -> Path -> comparison) (is_absolute : Path -> bool).
Context `{Hcompare : !TotalPreorder compare_paths}.
Variables (mode : AdmissionMode) (capacity : nat) (roots : list Path) (total : Z).
Variable answers : forall X, admission_effect Path X -> X -> Prop.
(** A length is not negative. *)
Hypothesis units_nonneg : forall path units, answers _ (PathUnits path) units -> 0 <= units.

(** What the collection may ask for. *)
Definition within_bounds X (e : admission_effect Path X) : Prop :=
  match e with
  | InspectionStarted n => (1 <= n <= capacity)%nat
  | ValidatePath path | ReadMetadata path | LegacyPath path => is_absolute path = true
  | ReadChildren path budget =>
      mode = Recurse /\ is_absolute path = true /\ (1 <= path_limit budget <= capacity)%nat /\
      0 <= remaining_path_bytes budget <= total
  | AdmissionPoll | PathUnits _ => True
  end.
(** When it may be cancelled. *)
Definition cancellable : Prop :=
  answers _ AdmissionPoll true \/
  exists path budget, answers _ (ReadChildren path budget) (Err ReadCancelled).

(** The paths below the roots, with their depths. *)
Inductive found_below : Path -> nat -> Prop :=
| found_root path : path ∈ roots -> found_below path 0
| found_child parent depth m budget children path :
    mode = Recurse -> found_below parent depth -> (depth < MAX_ADMISSION_DEPTH)%nat ->
    answers _ (ReadMetadata parent) (Ok m) -> is_directory m = true ->
    metadata_is_reparse_point m = false ->
    answers _ (ReadChildren parent budget) (Ok children) -> path ∈ children_paths children ->
    found_below path (S depth).

(** A candidate that may become a row, and the row. *)
Record Candidate : Type := mkAdmitted {
  admitted_path : Path;
  admitted_metadata : AdmissionMetadata;
  admitted_text : LegacyText
}.
Definition admissible (c : Candidate) : Prop :=
  (exists depth, found_below (admitted_path c) depth) /\ is_absolute (admitted_path c) = true /\
  answers _ (ValidatePath (admitted_path c)) (Ok tt) /\
  answers _ (ReadMetadata (admitted_path c)) (Ok (admitted_metadata c)) /\
  answers _ (LegacyPath (admitted_path c)) (admitted_text c) /\
  metadata_is_reparse_point (admitted_metadata c) = false /\
  (mode = Recurse -> is_directory (admitted_metadata c) = false).
Definition candidate_row (c : Candidate) : LegacyListItem :=
  let m := admitted_metadata c in
  new_with_actual_size (admitted_text c) (is_directory m) (metadata_actual_size m mod 2 ^ 32)
    (metadata_actual_size m) (metadata_created m) (metadata_modified m).
Definition candidate_identity (c : Candidate) : option EntryIdentity :=
  if is_directory (admitted_metadata c) then directory_identity (admitted_metadata c) else None.
Definition items_bytes (items : list LegacyListItem) : Z :=
  UNIT_BYTES * foldr (fun i n => zlen (source_path i) + n) 0 items.

Lemma items_bytes_snoc items c :
  items_bytes (items ++ [candidate_row c]) = items_bytes items + UNIT_BYTES * zlen (admitted_text c).
Proof using Type.
  unfold items_bytes. induction items as [|i items IH]; simpl; [lia|]. lia.
Qed.

(** What a report guarantees. *)
Definition report_sound (r : AdmissionReport Path) : Prop :=
  (length (report_items r) <= capacity)%nat /\ items_bytes (report_items r) <= total /\
  exists candidates, report_items r = map candidate_row candidates /\
    Forall admissible candidates /\ NoDup (omap candidate_identity candidates).

(** The invariant of the traversal. *)
Record collecting (s : Collecting Path) : Prop := mkCollectingInv {
  co_stack : Forall (fun '(path, depth, _) => found_below path depth) (stack s);
  co_bytes : 0 <= stack_path_bytes s;
  co_budget : 0 <= remaining_bytes (path_budget s);
  co_spent : items_bytes (report_items (report s)) + remaining_bytes (path_budget s) <= total;
  co_inspected : (inspected s <= capacity)%nat;
  co_count : (length (report_items (report s)) <= inspected s)%nat;
  co_candidates : exists candidates, report_items (report s) = map candidate_row candidates /\
    Forall admissible candidates /\ NoDup (omap candidate_identity candidates) /\
    Forall (fun i => i ∈ seen_directories s) (omap candidate_identity candidates)
}.

Lemma collecting_sound s : collecting s -> report_sound (report s).
Proof using Type.
  intros []. destruct co_candidates0 as (cs & Hr & Ha & Hn & _). split_and!; [lia|lia|].
  by exists cs.
Qed.
Lemma collecting_issue i s : collecting s -> collecting (with_issue i s).
Proof using Type. by intros []. Qed.
Lemma collecting_issue_if b path kind s : collecting s -> collecting (issue_if b path kind s).
Proof using Type. intros Hs. unfold issue_if. destruct b; [by apply collecting_issue|done]. Qed.

Abbreviation admits := within_bounds.
Abbreviation collects := (collects admits answers cancellable).

(** What one iteration leaves: the candidate counts as inspected. *)
Definition step_ok (n : nat) (flow : Flow Path) : Prop :=
  match flow with
  | Continue s => collecting s /\ inspected s = n
  | Break s => collecting s
  end.

Lemma poll_allowed (Q : unit -> Prop) : Q tt -> collects poll_admission Q.
Proof using Type. apply collects_poll; [done|by left]. Qed.
Lemma skip_collects path kind error s n :
  collecting s -> inspected s = n -> collects (skip_path path kind error s) (step_ok n).
Proof using Type. intros Hs Hn. apply collects_ret. split; [by apply collecting_issue|done]. Qed.
Lemma stop_collects path kind s n : collecting s -> collects (stop_at path kind s) (step_ok n).
Proof using Type. intros Hs. apply collects_ret. by apply collecting_issue. Qed.

Lemma push_paths_collects paths depth s n :
  collecting s -> inspected s = n -> (forall path, path ∈ paths -> found_below path depth) ->
  collects (push_paths paths depth s) (fun s' => collecting s' /\ inspected s' = n).
Proof using units_nonneg.
  revert s. induction paths as [|path paths IH]; intros s Hs Hn Hf; simpl; [by apply collects_ret|].
  apply collects_bind, poll_allowed, collects_bind, collects_call; [done|].
  intros units Hu%units_nonneg.
  apply IH; [|done|intros; apply Hf; by right]. destruct Hs. split; try done; simpl.
  - constructor; [|done]. apply Hf. by left.
  - unfold saturating_add, saturating_mul, usize_max, UNIT_BYTES in *. lia.
Qed.

Lemma verify_children_collects paths budget_bytes verified_bytes verified_len
    (Q : nat * bool -> Prop) :
  (forall n over, (n <= length paths)%nat -> Q ((verified_len + n)%nat, over)) ->
  collects (verify_children paths budget_bytes verified_bytes verified_len) Q.
Proof using Type.
  revert verified_bytes verified_len.
  induction paths as [|child paths IH]; intros verified_bytes verified_len HQ; simpl.
  { apply collects_ret. rewrite <-(Nat.add_0_r verified_len). apply HQ. lia. }
  apply collects_bind, collects_call; [done|]. intros units _.
  assert (forall over, Q (verified_len, over)) as Hstop.
  { intros over. rewrite <-(Nat.add_0_r verified_len). apply HQ. lia. }
  destruct (_ ≫= _) as [next|]; [|by apply collects_ret].
  destruct (budget_bytes <? next); [by apply collects_ret|].
  apply IH. intros n over Hn. rewrite Nat.add_succ_comm. apply HQ. simpl. lia.
Qed.

Lemma enter_children_collects path depth m budget children s :
  mode = Recurse -> collecting s -> found_below path depth -> (depth < MAX_ADMISSION_DEPTH)%nat ->
  answers _ (ReadMetadata path) (Ok m) -> is_directory m = true ->
  metadata_is_reparse_point m = false ->
  answers _ (ReadChildren path budget) (Ok children) ->
  Z.of_nat (path_limit budget) <= usize_max ->
  collects (enter_children compare_paths path depth budget children s) (step_ok (inspected s)).
Proof using All.
  intros Hmode Hs Hf Hd Hm Hdir Hrp Hc Hlimit. unfold enter_children.
  set (paths := if (path_limit budget <? length (children_paths children))%nat
                then take (path_limit budget) (children_paths children) else children_paths children).
  assert ((length paths <= path_limit budget)%nat /\ (forall p, p ∈ paths -> p ∈ children_paths children))
    as [Hlen Hin].
  { unfold paths. destruct (Nat.ltb_spec (path_limit budget) (length (children_paths children))).
    - split; [rewrite length_take; lia|]. intros p. apply subseteq_take.
    - split; [lia|done]. }
  apply collects_bind, verify_children_collects. intros n over Hn. simpl.
  apply collects_bind, sort_paths_collects; [done|by left|done|rewrite length_take; lia|].
  apply collects_bind. eapply collects_mono; [apply (push_paths_collects _ _ _ (inspected s)); [done|done|]|].
  - intros p. rewrite elem_of_reverse_rev, sort_by_perm. intros Hp%subseteq_take%Hin.
    by apply (found_child path depth m budget children).
  - intros s' [Hs' Hi]. apply collects_ret. split; [by repeat apply collecting_issue_if|].
    unfold issue_if. by repeat case_match.
Qed.

Hypothesis capacity_small : Z.of_nat capacity <= usize_max.

Lemma enter_directory_collects path depth m s :
  mode = Recurse -> collecting s -> found_below path depth -> is_absolute path = true ->
  answers _ (ReadMetadata path) (Ok m) -> is_directory m = true ->
  metadata_is_reparse_point m = false ->
  collects (enter_directory compare_paths capacity path depth s) (step_ok (inspected s)).
Proof using All.
  intros Hmode Hs Hf Ha Hm Hdir Hrp. unfold enter_directory.
  destruct (Nat.leb_spec MAX_ADMISSION_DEPTH depth) as [|Hd]; [by apply skip_collects|].
  destruct (Nat.eqb_spec (capacity - inspected s - length (stack s)) 0) as [|Hr];
    [by apply stop_collects|].
  apply collects_bind, collects_call.
  - destruct Hs. split_and!; simpl; try done; try lia; unfold saturating_sub; try lia.
    assert (0 <= items_bytes (report_items (report s))); [|lia].
    unfold items_bytes, UNIT_BYTES. clear. induction (report_items _) as [|i l IH]; simpl; [lia|].
    pose proof (zlen_nonneg (source_path i)). lia.
  - intros [children|[|error]] Hc; cbn beta iota; [|by right; do 2 eexists|by apply skip_collects].
    eapply enter_children_collects; try done. simpl. lia.
Qed.

Lemma admit_path_collects path depth m s :
  collecting s -> found_below path depth -> is_absolute path = true ->
  answers _ (ValidatePath path) (Ok tt) -> answers _ (ReadMetadata path) (Ok m) ->
  metadata_is_reparse_point m = false -> (mode = Recurse -> is_directory m = false) ->
  (length (report_items (report s)) < inspected s)%nat ->
  (exists cs, report_items (report s) = map candidate_row cs /\
     Forall admissible cs /\ NoDup (omap candidate_identity cs) /\
     Forall (fun i => i ∈ seen_directories s) (omap candidate_identity cs) /\
     forall i, (if is_directory m then directory_identity m else None) = Some i ->
       i ∉ omap candidate_identity cs /\ i ∈ seen_directories s) ->
  collects (admit_path path m s) (step_ok (inspected s)).
Proof using Type.
  intros Hs Hf Ha Hv Hm Hrp Hmode Hlt (cs & Hr & Hc & Hn & Hseen & Hfresh). unfold admit_path.
  apply collects_bind, collects_call; [done|]. intros l Hl. unfold reserve_utf16_units.
  pose proof (zlen_nonneg l) as Hnn.
  assert (forall b, remaining_bytes b = 0 ->
    collects (stop_at path PathBudgetExceeded (mkCollecting (stack s) (stack_path_bytes s) b
      (seen_directories s) (inspected s) (report s))) (step_ok (inspected s))) as Hstop.
  { intros b Hb. apply stop_collects. destruct Hs. split; simpl; try done; lia. }
  destruct (checked_mul (zlen l) UNIT_BYTES) as [bytes|] eqn:Hbytes; [|by apply Hstop].
  apply checked_mul_Some in Hbytes as [-> _].
  destruct (Z.ltb_spec (remaining_bytes (path_budget s)) (zlen l * UNIT_BYTES)) as [|Hfits];
    [by apply Hstop|].
  rewrite bool_decide_false by done. apply collects_ret. split; [|done].
  pose (c := mkAdmitted path m l).
  change (collecting (mkCollecting (stack s) (stack_path_bytes s)
    (mkPathBudget (remaining_bytes (path_budget s) - zlen l * UNIT_BYTES)) (seen_directories s)
    (inspected s) (mkAdmissionReport (report_items (report s) ++ [candidate_row c])
      (report_issues (report s))))).
  destruct Hs. split; simpl; try done; try lia.
  - rewrite items_bytes_snoc. simpl. lia.
  - rewrite length_app. simpl. lia.
  - exists (cs ++ [c]). rewrite map_app, Hr. split_and!; [done| | |].
    + apply Forall_app. split; [done|]. constructor; [|done]. split_and!; try done. by exists depth.
    + rewrite omap_app. apply NoDup_app. split_and!; [done| |].
      * intros i Hi Hin. rewrite omap_cons in Hin. destruct (candidate_identity c) as [j|] eqn:Hj;
          [|by apply not_elem_of_nil in Hin].
        apply list_elem_of_singleton in Hin as ->. by destruct (Hfresh j Hj).
      * rewrite omap_cons. destruct (candidate_identity c); [apply NoDup_singleton|constructor].
    + rewrite omap_app. apply Forall_app. split; [done|]. rewrite omap_cons.
      destruct (candidate_identity c) as [j|] eqn:Hj; [|constructor]. constructor; [|constructor].
      by destruct (Hfresh j Hj).
Qed.

Lemma classify_path_collects path depth m s :
  collecting s -> found_below path depth -> is_absolute path = true ->
  answers _ (ValidatePath path) (Ok tt) -> answers _ (ReadMetadata path) (Ok m) ->
  (length (report_items (report s)) < inspected s)%nat ->
  collects (classify_path compare_paths mode capacity path depth m s) (step_ok (inspected s)).
Proof using All.
  intros Hs Hf Ha Hv Hm Hlt. unfold classify_path.
  destruct (metadata_is_reparse_point m) eqn:Hrp; [by apply skip_collects|].
  destruct (is_directory m) eqn:Hdir.
  2: { pose proof Hs as []. destruct co_candidates0 as (cs & Hr & Hc & Hn & Hseen).
    eapply admit_path_collects; try done. exists cs. by rewrite Hdir. }
  destruct (match directory_identity m with Some i => bs_contains i (seen_directories s) | None => false end) eqn:Hrep;
    [by apply skip_collects|].
  set (seen := match directory_identity m with Some i => bs_insert i (seen_directories s)
                                             | None => seen_directories s end).
  assert (forall i, i ∈ seen_directories s -> i ∈ seen) as Hmono.
  { intros i Hi. unfold seen. destruct (directory_identity m); [|done].
    apply elem_of_bs_insert. by right. }
  set (s' := mkCollecting _ _ _ seen _ _). pose proof Hs as [].
  destruct co_candidates0 as (cs & Hr & Hc & Hn & Hseen).
  assert (Forall (fun i => i ∈ seen) (omap candidate_identity cs)) as Hseen'
    by (eapply Forall_impl; [exact Hseen|exact Hmono]).
  assert (collecting s') as Hs' by (split; try done; by exists cs).
  case_bool_decide as Hmode; [by apply (enter_directory_collects path depth m s')|].
  apply (admit_path_collects path depth m s'); try done. exists cs. split_and!; try done.
  intros i Hi. rewrite Hdir in Hi. rewrite Hi in Hrep. split.
  - intros Hin. rewrite Forall_forall in Hseen. apply Hseen, bs_contains_spec in Hin. congruence.
  - unfold s', seen. simpl. rewrite Hi. apply elem_of_bs_insert. by left.
Qed.

Lemma inspect_path_collects path depth s :
  collecting s -> found_below path depth ->
  collects (inspect_path compare_paths is_absolute mode capacity path depth s) (fun flow =>
    step_ok (S (inspected s)) flow /\
    ((inspected s < capacity)%nat \/ exists s', flow = Break s')).
Proof using All.
  intros Hs Hf. unfold inspect_path. apply collects_bind, poll_allowed.
  destruct (Nat.leb_spec capacity (inspected s)) as [Hfull|Hroom].
  { apply collects_ret. split; [by apply collecting_issue|]. right. by eexists. }
  eapply collects_mono with (Q := step_ok (S (inspected s))); [|by auto].
  set (s1 := mkCollecting _ _ _ _ _ _). assert (collecting s1) as Hs1.
  { destruct Hs. split; simpl; try done; lia. }
  apply collects_bind, collects_call; [simpl; lia|]. intros [] _.
  destruct (is_absolute path) eqn:Ha; simpl; [|by apply skip_collects].
  apply collects_bind, collects_call; [done|]. intros [[]|error] Hv; [|by apply skip_collects].
  apply collects_bind, poll_allowed, collects_bind, collects_call; [done|].
  intros [m|error] Hm; [|by apply skip_collects].
  apply collects_bind, poll_allowed. apply (classify_path_collects path depth m s1); try done.
  destruct Hs. simpl. lia.
Qed.

Lemma collect_loop_collects fuel s :
  collecting s -> (capacity - inspected s < fuel)%nat ->
  collects (collect_loop compare_paths is_absolute fuel mode capacity s) report_sound.
Proof using All.
  revert s. induction fuel as [|fuel IH]; intros s Hs Hf; [lia|]. simpl.
  destruct (stack s) as [|[[path depth] bytes] rest] eqn:Hstack;
    [by apply collects_ret, collecting_sound|].
  pose proof Hs as []. rewrite Hstack in co_stack0. apply Forall_cons in co_stack0 as [Hp Hrest].
  set (s1 := mkCollecting rest _ _ _ _ _). assert (collecting s1) as Hs1.
  { split; try done. simpl. unfold saturating_sub. lia. }
  apply collects_bind. eapply collects_mono; [by apply (inspect_path_collects path depth s1)|].
  intros [s'|s'] [Hstep Hroom]; [|by apply collects_ret, collecting_sound].
  destruct Hstep as [Hs' Hi]. apply IH; [done|]. destruct Hroom as [Hroom|[? [=]]]. simpl in *. lia.
Qed.
End collection.

(** The bound a collection works with. *)
Definition admission_capacity (capacity : nat) : nat := (capacity `min` MAX_ADMITTED_SOURCES)%nat.

Lemma collect_with_progress_collects {Path} compare_paths (is_absolute : Path -> bool) mode capacity
    (roots : list Path) budget (answers : forall X, admission_effect Path X -> X -> Prop) :
  TotalPreorder compare_paths -> Z.of_nat (length roots) <= usize_max ->
  0 <= remaining_bytes budget ->
  (forall path units, answers _ (PathUnits path) units -> 0 <= units) ->
  collects (within_bounds is_absolute mode (admission_capacity capacity) (remaining_bytes budget))
    answers (cancellable answers)
    (collect_with_progress compare_paths is_absolute roots mode capacity budget)
    (report_sound is_absolute mode (admission_capacity capacity) roots (remaining_bytes budget) answers).
Proof.
  intros Hcmp Hroots Hbudget Hunits. unfold collect_with_progress.
  fold (admission_capacity capacity). set (cap := admission_capacity capacity).
  assert (Z.of_nat cap <= usize_max) as Hcap.
  { unfold cap, admission_capacity, usize_max.
    assert (Z.of_nat MAX_ADMITTED_SOURCES = 10000) by done. lia. }
  apply collects_bind, poll_allowed, collects_bind.
  eapply collects_mono with (Q := fun r => (length r.1 <= length roots)%nat /\ forall p, p ∈ r.1 -> p ∈ roots).
  { destruct (Nat.ltb_spec cap (length roots)) as [Hlt|Hge]; [|by apply collects_ret].
    destruct (lookup_lt_is_Some_2 roots cap Hlt) as [over Hover].
    apply collects_bind. eapply collects_index; [exact Hover|]. apply collects_ret. simpl.
    split; [rewrite length_take; lia|]. intros p. apply subseteq_take. }
  intros [kept issues] [Hlen Hin]. simpl in Hlen, Hin.
  apply collects_bind, sort_paths_collects; [done|by left|done|lia|].
  apply collects_bind. eapply collects_mono; [apply push_paths_collects with (n := 0%nat)|].
  - done.
  - split; simpl; try done; try lia. exists []. split_and!; constructor.
  - done.
  - intros p. rewrite elem_of_reverse_rev, sort_by_perm. intros Hp. by apply found_root, Hin.
  - intros s [Hs Hi]. apply collect_loop_collects; try done. lia.
Qed.
