(* ===== verification/AdmissionTree.v ===== *)
(** * AdmissionTree: a tree that fits the bounds is listed completely

    The reference for a collection is the sorted depth-first listing of a tree of
    entries.  When the adapter shows such a tree and the tree fits the bounds,
    the traversal with its frontier, budgets and read limits lists exactly it. *)

From S2P Require Import Prelude Collections LegacyText ListItem RenameModel Effects Admission.
From S2P Require Import AdmissionSort AdmissionCorrect.

Section tree.
Context {Path : Type}.

(** An entry of the filesystem with what is below it. *)
Inductive EntryTree : Type :=
| Entry (path : Path) (m : AdmissionMetadata) (legacy : LegacyText) (children : list EntryTree).
Definition tree_path (t : EntryTree) : Path := let '(Entry path _ _ _) := t in path.
Definition tree_metadata (t : EntryTree) : AdmissionMetadata := let '(Entry _ m _ _) := t in m.
Definition tree_text (t : EntryTree) : LegacyText := let '(Entry _ _ legacy _) := t in legacy.
Definition tree_children (t : EntryTree) : list EntryTree :=
  let '(Entry _ _ _ children) := t in children.

Variables (compare_paths : Path -> Path -> comparison) (is_absolute : Path -> bool).
Context `{Hcompare : !TotalPreorder compare_paths}.
Variable mode : AdmissionMode.

Definition tree_row (t : EntryTree) : LegacyListItem :=
  candidate_row (mkAdmitted (tree_path t) (tree_metadata t) (tree_text t)).
(** Directories are entered in [Recurse] mode and are rows in [Direct] mode. *)
Definition expands (m : AdmissionMetadata) : bool := is_directory m && bool_decide (mode = Recurse).

(** ** The reference listing *)

Definition sort_listed (l : list (Path * list LegacyListItem)) : list LegacyListItem :=
  concat (map snd (sort_by (fun a b => compare_paths a.1 b.1) l)).
Fixpoint listing (t : EntryTree) : list LegacyListItem :=
  let '(Entry path m legacy children) := t in
  if expands m then sort_listed (map (fun c => (tree_path c, listing c)) children)
  else [tree_row (Entry path m legacy children)].
Definition forest_listing (forest : list EntryTree) : list LegacyListItem :=
  sort_listed (map (fun t => (tree_path t, listing t)) forest).

(** The entries a collection inspects. *)
Fixpoint visited (t : EntryTree) : list EntryTree :=
  t :: (let '(Entry _ m _ children) := t in
        if expands m then concat (map visited children) else []).
Definition visited_bytes (l : list EntryTree) : Z :=
  UNIT_BYTES * foldr (fun t n => zlen (tree_text t) + n) 0 l.
Definition tree_identity (t : EntryTree) : option EntryIdentity :=
  if is_directory (tree_metadata t) then directory_identity (tree_metadata t) else None.
(** No directory that is entered is 256 levels down. *)
Fixpoint depth_fits (depth : nat) (t : EntryTree) : bool :=
  let '(Entry _ m _ children) := t in
  if expands m then (depth <? MAX_ADMISSION_DEPTH)%nat && forallb (depth_fits (S depth)) children
  else true.

(** ** The adapter shows the entries *)

Section shown.
Variable shown : EntryTree -> Prop.

Definition tree_answers X (e : admission_effect Path X) : X -> Prop :=
  match e in admission_effect _ X return X -> Prop with
  | AdmissionPoll => fun x => x = false
  | ValidatePath path => fun x => forall t, shown t -> tree_path t = path -> x = Ok tt
  | ReadMetadata path => fun x => forall t, shown t -> tree_path t = path -> x = Ok (tree_metadata t)
  | ReadChildren path budget => fun x => forall t, shown t -> tree_path t = path ->
      (length (tree_children t) <= path_limit budget)%nat ->
      visited_bytes (tree_children t) <= remaining_path_bytes budget ->
      x = Ok (mkChildren (map tree_path (tree_children t)) false false false)
  | LegacyPath path => fun x => forall t, shown t -> tree_path t = path -> x = tree_text t
  | PathUnits path => fun x => forall t, shown t -> tree_path t = path -> x = zlen (tree_text t)
  | InspectionStarted _ => fun _ => True
  end.

(** Entries that can be admitted, with all they contain. *)
Record presentable : Prop := mkPresentable {
  pr_absolute : forall t, shown t -> is_absolute (tree_path t) = true;
  pr_plain : forall t, shown t -> metadata_is_reparse_point (tree_metadata t) = false;
  pr_children : forall t c, shown t -> c ∈ tree_children t -> shown c
}.
Hypothesis Hshown : presentable.

Abbreviation lists := (collects (fun X (_ : admission_effect Path X) => True) tree_answers False).

Lemma listing_expand t :
  listing t = if expands (tree_metadata t) then forest_listing (tree_children t) else [tree_row t].
Proof using Type. by destruct t. Qed.
Lemma visited_expand t :
  visited t = t :: if expands (tree_metadata t) then concat (map visited (tree_children t)) else [].
Proof using Type. by destruct t. Qed.
Lemma depth_fits_expand depth t :
  depth_fits depth t =
  if expands (tree_metadata t)
  then (depth <? MAX_ADMISSION_DEPTH)%nat && forallb (depth_fits (S depth)) (tree_children t)
  else true.
Proof using Type. by destruct t. Qed.

(** Sorting the paths of entries is sorting the entries. *)
Definition compare_trees (s t : EntryTree) : comparison := compare_paths (tree_path s) (tree_path t).
Definition sort_trees (l : list EntryTree) : list EntryTree := sort_by compare_trees l.
Lemma sort_tree_paths l :
  sort_by compare_paths (map tree_path l) = map tree_path (sort_trees l).
Proof using Type. symmetry. apply (sort_by_map compare_paths tree_path). Qed.
Lemma forest_listing_sorted l : forest_listing l = concat (map listing (sort_trees l)).
Proof using Type.
  unfold forest_listing, sort_listed.
  rewrite <-(sort_by_map (fun a b : Path * list LegacyListItem => compare_paths a.1 b.1)
    (fun t => (tree_path t, listing t))). by rewrite map_map.
Qed.

Lemma visited_bytes_app l1 l2 : visited_bytes (l1 ++ l2) = visited_bytes l1 + visited_bytes l2.
Proof using Type. unfold visited_bytes. induction l1 as [|t l1 IH]; simpl; lia. Qed.
Lemma visited_bytes_cons t l : visited_bytes (t :: l) = UNIT_BYTES * zlen (tree_text t) + visited_bytes l.
Proof using Type. unfold visited_bytes. simpl. lia. Qed.
Lemma visited_bytes_nonneg l : 0 <= visited_bytes l.
Proof using Type.
  induction l as [|t l IH]; [done|]. rewrite visited_bytes_cons. pose proof (zlen_nonneg (tree_text t)).
  unfold UNIT_BYTES. lia.
Qed.
Lemma visited_bytes_perm l1 l2 : l1 ≡ₚ l2 -> visited_bytes l1 = visited_bytes l2.
Proof using Type. induction 1; rewrite ?visited_bytes_cons; lia. Qed.
(** The roots of a forest are among what is visited. *)
Lemma visited_roots forest :
  visited_bytes forest <= visited_bytes (concat (map visited forest)) /\
  (length forest <= length (concat (map visited forest)))%nat.
Proof using Type.
  induction forest as [|t forest IH]; [done|]. simpl. rewrite visited_bytes_app, length_app.
  rewrite visited_expand, !visited_bytes_cons. simpl.
  pose proof (visited_bytes_nonneg (if expands (tree_metadata t)
    then concat (map visited (tree_children t)) else [])). lia.
Qed.
Lemma visited_perm l1 l2 : l1 ≡ₚ l2 -> concat (map visited l1) ≡ₚ concat (map visited l2).
Proof using Type. intros ->. done. Qed.
(** ** The traversal *)

Definition pending (F : list (EntryTree * nat)) : list EntryTree := concat (map visited (map fst F)).
Definition frontier (F : list (EntryTree * nat)) : Frontier :=
  map (fun '(t, d) => (tree_path t, d, UNIT_BYTES * zlen (tree_text t))) F.
Definition pending_rows (F : list (EntryTree * nat)) : list LegacyListItem :=
  concat (map listing (map fst F)).

(** What expanding an entry adds. *)
Definition below (t : EntryTree) : list EntryTree :=
  if expands (tree_metadata t) then concat (map visited (tree_children t)) else [].
Lemma pending_cons t d F : pending ((t, d) :: F) = t :: below t ++ pending F.
Proof using Type. unfold pending. simpl. by rewrite visited_expand. Qed.

(** The entries of [F] are on the stack, and they still fit. *)
Record presenting (capacity : nat) (F : list (EntryTree * nat)) (s : Collecting Path) : Prop :=
  mkPresenting {
  ps_stack : stack s = frontier F;
  ps_bytes : stack_path_bytes s = visited_bytes (map fst F);
  ps_shown : Forall (fun '(t, _) => shown t) F;
  ps_depth : Forall (fun '(t, d) => depth_fits d t = true) F;
  ps_room : (inspected s + length (pending F) < capacity)%nat;
  ps_budget : visited_bytes (pending F) <= remaining_bytes (path_budget s) <= usize_max;
  ps_distinct : NoDup (omap tree_identity (pending F));
  ps_unseen : forall i, i ∈ omap tree_identity (pending F) -> i ∉ seen_directories s
}.

Lemma lists_poll (Q : unit -> Prop) : Q tt -> lists poll_admission Q.
Proof using Type. by apply collects_poll. Qed.
Lemma lists_call {X} (e : admission_effect Path X) x (Q : X -> Prop) :
  (forall y, tree_answers X e y -> y = x) -> Q x -> lists (lift_prog (call e)) Q.
Proof using Type. intros He HQ. apply collects_call; [done|]. by intros y ->%He. Qed.

Lemma push_paths_lists trees depth s :
  Forall shown trees -> 0 <= stack_path_bytes s ->
  stack_path_bytes s + visited_bytes trees <= usize_max ->
  lists (push_paths (map tree_path trees) depth s) (fun s' =>
    s' = mkCollecting (rev (frontier (map (fun t => (t, depth)) trees)) ++ stack s)
           (stack_path_bytes s + visited_bytes trees) (path_budget s) (seen_directories s)
           (inspected s) (report s)).
Proof using Type.
  intros Hsh. revert s. induction Hsh as [|t trees Ht Hsh IH]; intros s Hnn Hmax; simpl.
  { apply collects_ret. unfold visited_bytes. simpl. rewrite Z.mul_0_r, Z.add_0_r. by destruct s. }
  rewrite visited_bytes_cons in Hmax. pose proof (visited_bytes_nonneg trees).
  pose proof (zlen_nonneg (tree_text t)).
  apply collects_bind, lists_poll, collects_bind.
  apply (lists_call _ (zlen (tree_text t))); [intros y Hy; by apply Hy|].
  assert (saturating_mul (zlen (tree_text t)) UNIT_BYTES = UNIT_BYTES * zlen (tree_text t)) as ->
    by (unfold saturating_mul, UNIT_BYTES in *; lia).
  assert (saturating_add (stack_path_bytes s) (UNIT_BYTES * zlen (tree_text t)) =
    stack_path_bytes s + UNIT_BYTES * zlen (tree_text t)) as ->
    by (unfold saturating_add, UNIT_BYTES in *; lia).
  eapply collects_mono; [apply IH; simpl; unfold UNIT_BYTES in *; lia|]. intros s' ->. simpl.
  rewrite <-app_assoc, visited_bytes_cons. f_equal. unfold UNIT_BYTES. lia.
Qed.

Lemma verify_children_lists trees budget_bytes verified_bytes verified_len :
  Forall shown trees -> 0 <= verified_bytes -> verified_bytes + visited_bytes trees <= budget_bytes ->
  budget_bytes <= usize_max ->
  lists (verify_children (map tree_path trees) budget_bytes verified_bytes verified_len) (fun r =>
    r = ((verified_len + length trees)%nat, false)).
Proof using Type.
  intros Hsh. revert verified_bytes verified_len.
  induction Hsh as [|t trees Ht Hsh IH]; intros verified_bytes verified_len Hnn Hle Hmax; simpl.
  { apply collects_ret. by rewrite Nat.add_0_r. }
  rewrite visited_bytes_cons in Hle. pose proof (visited_bytes_nonneg trees).
  pose proof (zlen_nonneg (tree_text t)).
  apply collects_bind. apply (lists_call _ (zlen (tree_text t))); [intros y Hy; by apply Hy|].
  unfold UNIT_BYTES in *. rewrite checked_mul_ok by lia. simpl. rewrite checked_add_ok by lia.
  destruct (Z.ltb_spec budget_bytes (verified_bytes + zlen (tree_text t) * 2)); [lia|].
  eapply collects_mono; [apply IH; lia|]. intros r ->. f_equal. lia.
Qed.

(** A row is admitted. *)
Lemma admit_path_lists t s (Q : Flow Path -> Prop) :
  shown t -> remaining_bytes (path_budget s) <= usize_max ->
  UNIT_BYTES * zlen (tree_text t) <= remaining_bytes (path_budget s) ->
  Q (Continue (mkCollecting (stack s) (stack_path_bytes s)
       (mkPathBudget (remaining_bytes (path_budget s) - UNIT_BYTES * zlen (tree_text t)))
       (seen_directories s) (inspected s)
       (mkAdmissionReport (report_items (report s) ++ [tree_row t]) (report_issues (report s))))) ->
  lists (admit_path (tree_path t) (tree_metadata t) s) Q.
Proof using Type.
  intros Ht Hb Hfits HQ. unfold admit_path. apply collects_bind.
  apply (lists_call _ (tree_text t)); [intros y Hy; by apply Hy|].
  pose proof (zlen_nonneg (tree_text t)).
  unfold reserve_utf16_units, UNIT_BYTES in *. rewrite checked_mul_ok by lia.
  destruct (Z.ltb_spec (remaining_bytes (path_budget s)) (zlen (tree_text t) * 2)); [lia|].
  rewrite bool_decide_false by done. apply collects_ret. rewrite Z.mul_comm. exact HQ.
Qed.
(** The frontier of an expanded directory. *)
Definition entered (t : EntryTree) (d : nat) (F : list (EntryTree * nat)) : list (EntryTree * nat) :=
  map (fun c => (c, S d)) (sort_trees (tree_children t)) ++ F.
Lemma entered_trees t d F : map fst (entered t d F) = sort_trees (tree_children t) ++ map fst F.
Proof using Type. unfold entered. rewrite map_app, map_map. simpl. by rewrite map_id. Qed.
Lemma sort_trees_perm l : sort_trees l ≡ₚ l.
Proof using Type. apply sort_by_perm. Qed.
Lemma pending_entered t d F :
  expands (tree_metadata t) = true -> pending (entered t d F) ≡ₚ below t ++ pending F.
Proof using Type.
  intros He. unfold pending, below. rewrite He, entered_trees, map_app, concat_app.
  by rewrite (visited_perm _ _ (sort_trees_perm _)).
Qed.

(** A popped entry, as it is before it is inspected. *)
Record popped (capacity : nat) (t : EntryTree) (d : nat) (F : list (EntryTree * nat))
    (s : Collecting Path) : Prop := mkPopped {
  pp_stack : stack s = frontier F;
  pp_bytes : stack_path_bytes s = visited_bytes (map fst F);
  pp_shown : shown t /\ Forall (fun '(t, _) => shown t) F;
  pp_depth : depth_fits d t = true /\ Forall (fun '(t, d) => depth_fits d t = true) F;
  pp_room : (inspected s + length (below t ++ pending F) < capacity)%nat;
  pp_budget : UNIT_BYTES * zlen (tree_text t) + visited_bytes (below t ++ pending F)
    <= remaining_bytes (path_budget s) <= usize_max;
  pp_distinct : NoDup (omap tree_identity (below t ++ pending F));
  pp_unseen : forall i, i ∈ omap tree_identity (below t ++ pending F) -> i ∉ seen_directories s
}.

Lemma presenting_pop capacity t d F s :
  presenting capacity ((t, d) :: F) s ->
  popped capacity t d F (mkCollecting (frontier F)
    (saturating_sub (stack_path_bytes s) (UNIT_BYTES * zlen (tree_text t))) (path_budget s)
    (seen_directories s) (S (inspected s)) (report s)) /\
  (forall i, tree_identity t = Some i ->
     i ∉ seen_directories s /\ i ∉ omap tree_identity (below t ++ pending F)).
Proof using Type.
  intros []. rewrite pending_cons in *. rewrite omap_cons in *. rewrite visited_bytes_cons in *.
  apply Forall_cons in ps_shown0, ps_depth0. simpl in *.
  pose proof (visited_bytes_nonneg (map fst F)).
  assert (saturating_sub (stack_path_bytes s) (UNIT_BYTES * zlen (tree_text t)) =
    visited_bytes (map fst F)) as Hsub.
  { rewrite ps_bytes0, visited_bytes_cons. unfold saturating_sub. lia. }
  split; [split; simpl; try done; try lia|].
  - destruct (tree_identity t); [by apply NoDup_cons in ps_distinct0 as []|done].
  - intros i Hi. apply ps_unseen0. destruct (tree_identity t); [by right|done].
  - intros i Hi. rewrite Hi in ps_distinct0, ps_unseen0. apply NoDup_cons in ps_distinct0 as [Hn _].
    split; [apply ps_unseen0; by left|done].
Qed.

(** With the entry remembered as seen. *)
Lemma popped_seen capacity t d F s seen :
  popped capacity t d F s ->
  (forall i, i ∈ omap tree_identity (below t ++ pending F) -> i ∉ seen) ->
  popped capacity t d F (mkCollecting (stack s) (stack_path_bytes s) (path_budget s) seen
    (inspected s) (report s)).
Proof using Type. by intros [] Hseen. Qed.

Definition advances (capacity : nat) (F : list (EntryTree * nat)) (items : list LegacyListItem)
    (issues : list (AdmissionIssue Path)) (n : nat) (flow : Flow Path) : Prop :=
  exists s F', flow = Continue s /\ presenting capacity F' s /\ (length (pending F') < n)%nat /\
    report_items (report s) ++ pending_rows F' = items ++ pending_rows F /\
    report_issues (report s) = issues.

Lemma admit_tree_lists capacity t d F s :
  expands (tree_metadata t) = false -> popped capacity t d F s ->
  lists (admit_path (tree_path t) (tree_metadata t) s)
    (advances capacity ((t, d) :: F) (report_items (report s)) (report_issues (report s))
       (length (pending ((t, d) :: F)))).
Proof using Type.
  intros He []. assert (below t = []) as Hb by (unfold below; by rewrite He).
  rewrite Hb in *. simpl in *. pose proof (visited_bytes_nonneg (pending F)).
  pose proof (zlen_nonneg (tree_text t)). unfold UNIT_BYTES in *.
  apply admit_path_lists; [by destruct pp_shown0|lia|unfold UNIT_BYTES; lia|].
  eexists _, F. split; [done|]. split; [|split_and!; simpl].
  - destruct pp_shown0, pp_depth0. split; simpl; try done; unfold UNIT_BYTES; lia.
  - rewrite pending_cons, Hb. simpl. lia.
  - unfold pending_rows. simpl. rewrite listing_expand, He. by rewrite <-app_assoc.
  - done.
Qed.

Lemma enter_tree_lists capacity t d F s :
  expands (tree_metadata t) = true -> Z.of_nat capacity <= usize_max -> popped capacity t d F s ->
  lists (enter_directory compare_paths capacity (tree_path t) d s)
    (advances capacity ((t, d) :: F) (report_items (report s)) (report_issues (report s))
       (length (pending ((t, d) :: F)))).
Proof using Hshown Hcompare.
  intros He Hcap []. destruct pp_shown0 as [Ht Hsh], pp_depth0 as [Hd Hds].
  rewrite depth_fits_expand, He in Hd. apply andb_true_iff in Hd as [Hd%Nat.ltb_lt Hcd].
  unfold enter_directory. destruct (Nat.leb_spec MAX_ADMISSION_DEPTH d); [lia|].
  rewrite length_app, visited_bytes_app in *.
  pose proof (visited_roots (map fst F)) as [HbF HlF]. pose proof (visited_roots (tree_children t)) as [Hbt Hlt].
  assert (below t = concat (map visited (tree_children t))) as Hbelow by (unfold below; by rewrite He).
  change (concat (map visited (map fst F))) with (pending F) in *. rewrite <-Hbelow in *.
  rewrite length_map in HlF. assert (length (stack s) = length F) as Hls.
  { rewrite pp_stack0. unfold frontier. apply length_map. }
  pose proof (visited_bytes_nonneg (map fst F)). pose proof (visited_bytes_nonneg (tree_children t)).
  pose proof (zlen_nonneg (tree_text t)).
  destruct (Nat.eqb_spec (capacity - inspected s - length (stack s)) 0) as [|_]; [lia|].
  set (budget := mkReadBudget _ _).
  assert (length (tree_children t) <= path_limit budget)%nat as Hlimit by (simpl; lia).
  assert (visited_bytes (tree_children t) <= remaining_path_bytes budget <= usize_max) as Hbytes.
  { simpl. unfold saturating_sub, UNIT_BYTES in *. lia. }
  apply collects_bind.
  eapply lists_call; [intros y Hy; exact (Hy t Ht eq_refl Hlimit (proj1 Hbytes))|].
  assert (Forall shown (tree_children t)) as Hch.
  { apply Forall_forall. intros c Hc. by eapply pr_children. }
  cbn beta iota. unfold enter_children. simpl children_paths. rewrite length_map.
  destruct (Nat.ltb_spec (path_limit budget) (length (tree_children t))) as [|_]; [lia|].
  apply collects_bind. eapply collects_mono; [apply verify_children_lists; [done|lia|lia|lia]|].
  intros r ->. simpl. apply collects_bind.
  rewrite take_ge by by rewrite length_map.
  apply sort_paths_collects; [done|done|done|rewrite length_map; simpl in Hlimit; lia|].
  rewrite sort_tree_paths, <-map_rev. apply collects_bind.
  assert (rev (sort_trees (tree_children t)) ≡ₚ tree_children t) as Hperm.
  { by rewrite <-(sort_trees_perm (tree_children t)) at 2; rewrite <-Permutation_rev. }
  eapply collects_mono; [apply push_paths_lists|].
  - by rewrite Hperm.
  - lia.
  - rewrite (visited_bytes_perm _ _ Hperm). unfold UNIT_BYTES in *. lia.
  - intros s' ->. rewrite (visited_bytes_perm _ _ Hperm). apply collects_ret. simpl.
    eexists _, (entered t d F). split; [done|]. pose proof (pending_entered t d F He) as Hp.
    split; [|split_and!; simpl].
    + split; simpl.
      * rewrite pp_stack0. unfold entered, frontier. rewrite map_app. f_equal.
        rewrite <-map_rev, <-map_rev, rev_involutive. done.
      * rewrite entered_trees, visited_bytes_app, (visited_bytes_perm _ _ (sort_trees_perm _)). lia.
      * apply Forall_app. split; [|done]. apply Forall_map. simpl. by rewrite sort_trees_perm.
      * apply Forall_app. split; [|done]. apply Forall_map. simpl. rewrite sort_trees_perm.
        apply Forall_forall. intros c Hc. rewrite forallb_forall in Hcd. by apply Hcd, list_elem_of_In.
      * rewrite (Permutation_length Hp), length_app. lia.
      * rewrite (visited_bytes_perm _ _ Hp), visited_bytes_app. unfold UNIT_BYTES in *. lia.
      * by rewrite Hp.
      * intros i. rewrite Hp. apply pp_unseen0.
    + rewrite (Permutation_length Hp), pending_cons. simpl. lia.
    + unfold pending_rows. simpl. rewrite entered_trees, map_app, concat_app, listing_expand, He.
      by rewrite forest_listing_sorted.
    + done.
Qed.
Lemma inspect_tree_lists capacity t d F s :
  presenting capacity ((t, d) :: F) s -> Z.of_nat capacity <= usize_max ->
  lists (inspect_path compare_paths is_absolute mode capacity (tree_path t) d
    (mkCollecting (frontier F) (saturating_sub (stack_path_bytes s) (UNIT_BYTES * zlen (tree_text t)))
       (path_budget s) (seen_directories s) (inspected s) (report s)))
    (advances capacity ((t, d) :: F) (report_items (report s)) (report_issues (report s))
       (length (pending ((t, d) :: F)))).
Proof using Hshown Hcompare.
  intros Hs Hcap. destruct (presenting_pop _ _ _ _ _ Hs) as [Hp Hfresh].
  pose proof (ps_room _ _ _ Hs) as Hroom. destruct (pp_shown _ _ _ _ _ Hp) as [Ht _].
  unfold inspect_path. apply collects_bind, lists_poll. simpl.
  destruct (Nat.leb_spec capacity (inspected s)) as [|_]; [lia|].
  apply collects_bind, collects_call; [done|]. intros [] _.
  rewrite (pr_absolute Hshown t Ht). simpl.
  apply collects_bind, (lists_call _ (Ok tt)); [intros y Hy; by apply (Hy t)|].
  apply collects_bind, lists_poll, collects_bind.
  apply (lists_call _ (Ok (tree_metadata t))); [intros y Hy; by apply (Hy t)|].
  apply collects_bind, lists_poll. set (s1 := mkCollecting _ _ _ _ _ _) in Hp |- *.
  unfold classify_path. rewrite (pr_plain Hshown t Ht).
  destruct (is_directory (tree_metadata t)) eqn:Hdir.
  2: { apply (admit_tree_lists capacity t d F s1); [unfold expands; by rewrite Hdir|done]. }
  unfold tree_identity in Hfresh. rewrite Hdir in Hfresh.
  destruct (match directory_identity (tree_metadata t) with
            | Some i => bs_contains i (seen_directories s1) | None => false end) eqn:Hrep.
  { destruct (directory_identity (tree_metadata t)) as [i|] eqn:Hi; [|done].
    apply bs_contains_spec in Hrep. by destruct (Hfresh i eq_refl) as [[] _]. }
  set (seen := match directory_identity (tree_metadata t) with
               | Some i => bs_insert i (seen_directories s1) | None => seen_directories s1 end).
  assert (forall i, i ∈ omap tree_identity (below t ++ pending F) -> i ∉ seen) as Hunseen.
  { intros i Hi. pose proof (pp_unseen _ _ _ _ _ Hp i Hi) as Hn. unfold seen.
    destruct (directory_identity (tree_metadata t)) as [j|] eqn:Hj; [|done].
    rewrite elem_of_bs_insert. intros [->|]; [|done]. by destruct (Hfresh j eq_refl) as [_ []]. }
  pose proof (popped_seen _ _ _ _ _ _ Hp Hunseen) as Hp'.
  case_bool_decide as Hmode.
  - apply (enter_tree_lists capacity t d F (mkCollecting (stack s1) (stack_path_bytes s1) (path_budget s1)
      seen (inspected s1) (report s1))); [|done|done]. unfold expands. rewrite Hdir. simpl.
    by apply bool_decide_eq_true.
  - apply (admit_tree_lists capacity t d F (mkCollecting (stack s1) (stack_path_bytes s1) (path_budget s1)
      seen (inspected s1) (report s1))); [|done]. unfold expands. rewrite Hdir. simpl.
    by apply bool_decide_eq_false.
Qed.

Lemma collect_loop_lists capacity fuel F s :
  Z.of_nat capacity <= usize_max -> presenting capacity F s -> (length (pending F) <= fuel)%nat ->
  lists (collect_loop compare_paths is_absolute fuel mode capacity s) (fun r =>
    r = mkAdmissionReport (report_items (report s) ++ pending_rows F) (report_issues (report s))).
Proof using Hshown Hcompare.
  intros Hcap. revert F s. induction fuel as [|fuel IH]; intros F s Hs Hf;
    destruct F as [|[t d] F]; try (rewrite pending_cons in Hf; simpl in Hf; lia); simpl;
    rewrite (ps_stack _ _ _ Hs); simpl.
  1,2: apply collects_ret; unfold pending_rows; simpl; rewrite app_nil_r; by destruct (report s).
  apply collects_bind. eapply collects_mono; [by apply inspect_tree_lists|].
  intros flow (s' & F' & -> & Hs' & Hless & Hitems & Hissues). cbn beta iota.
  eapply collects_mono; [apply (IH F' s' Hs'); lia|]. intros r ->. by rewrite Hitems, Hissues.
Qed.

(** A forest that fits the bounds of a collection. *)
Record forest_fits (capacity : nat) (bytes : Z) (forest : list EntryTree) : Prop := mkForestFits {
  ff_shown : Forall shown forest;
  ff_depth : Forall (fun t => depth_fits 0 t = true) forest;
  ff_room : (length (concat (map visited forest)) < capacity)%nat;
  ff_bytes : visited_bytes (concat (map visited forest)) <= bytes <= usize_max;
  ff_distinct : NoDup (omap tree_identity (concat (map visited forest)))
}.

Lemma collect_forest_lists capacity budget forest :
  forest_fits (admission_capacity capacity) (remaining_bytes budget) forest ->
  lists (collect_with_progress compare_paths is_absolute (map tree_path forest) mode capacity budget)
    (fun r => r = mkAdmissionReport (forest_listing forest) []).
Proof using Hshown Hcompare.
  intros []. unfold collect_with_progress. fold (admission_capacity capacity).
  set (cap := admission_capacity capacity) in *.
  assert (Z.of_nat cap <= usize_max) as Hcap.
  { unfold cap, admission_capacity, usize_max.
    assert (Z.of_nat MAX_ADMITTED_SOURCES = 10000) by done. lia. }
  pose proof (visited_roots forest) as [Hb Hl]. pose proof (visited_bytes_nonneg forest).
  apply collects_bind, lists_poll. rewrite length_map.
  destruct (Nat.ltb_spec cap (length forest)) as [|_]; [lia|].
  apply collects_bind, collects_ret. cbn beta iota. apply collects_bind, sort_paths_collects;
    [done|done|done|rewrite length_map; lia|].
  rewrite sort_tree_paths, <-map_rev. apply collects_bind.
  assert (rev (sort_trees forest) ≡ₚ forest) as Hperm.
  { by rewrite <-(sort_trees_perm forest) at 2; rewrite <-Permutation_rev. }
  eapply collects_mono; [apply push_paths_lists|].
  - by rewrite Hperm.
  - done.
  - simpl. rewrite (visited_bytes_perm _ _ Hperm). lia.
  - intros s ->. cbn [stack stack_path_bytes path_budget seen_directories inspected report].
    rewrite (visited_bytes_perm _ _ Hperm), app_nil_r.
    pose (F := map (fun t => (t, 0%nat)) (sort_trees forest)).
    assert (map fst F = sort_trees forest) as HF.
    { unfold F. rewrite map_map. simpl. apply map_id. }
    assert (pending F ≡ₚ concat (map visited forest)) as Hp.
    { unfold pending. rewrite HF. apply visited_perm, sort_trees_perm. }
    eapply collects_mono; [apply (collect_loop_lists cap (S cap) F)|].
    + done.
    + split; simpl.
      * unfold F, frontier. by rewrite <-map_rev, <-map_rev, rev_involutive.
      * rewrite HF. by rewrite (visited_bytes_perm _ _ (sort_trees_perm _)).
      * unfold F. apply Forall_map. simpl. by rewrite sort_trees_perm.
      * unfold F. apply Forall_map. simpl. by rewrite sort_trees_perm.
      * by rewrite (Permutation_length Hp).
      * by rewrite (visited_bytes_perm _ _ Hp).
      * by rewrite Hp.
      * intros i _. apply not_elem_of_nil.
    + rewrite (Permutation_length Hp). lia.
    + intros r ->. simpl. unfold pending_rows. rewrite HF. by rewrite forest_listing_sorted.
Qed.
End shown.
End tree.
