(* ===== verification/AdmissionGuarantees.v ===== *)
(** * AdmissionGuarantees: the contract of source admission

    The properties of admission.rs: the cancellable sort is the stable sort, every
    collection is bounded and sound whatever its adapter answers, and a tree that
    fits the bounds is listed completely. *)

From S2P Require Import Prelude Collections LegacyText ListItem RenameModel Effects Admission.
From S2P Require Import AdmissionSort AdmissionCorrect AdmissionTree.

(** The cancellable merge sort, whatever its closure answers, neither leaves
    its buffers nor runs on: it returns the stable sort of the paths or is
    cancelled, and it is never cancelled when the closure never says yes. *)
Theorem sort_paths_is_stable_sort {Path W} (compare_paths : Path -> Path -> comparison)
    (handle : forall X, admission_effect Path X -> W -> X * W) (paths : list Path) (w : W) :
  TotalPreorder compare_paths -> Z.of_nat (length paths) <= usize_max ->
  let r := (run handle (sort_paths_cancellable compare_paths paths) w).1 in
  (r = Ok (sort_by compare_paths paths) \/ r = Err AdmissionCancelled) /\
  ((forall w, (handle _ AdmissionPoll w).1 = false) -> r = Ok (sort_by compare_paths paths)).
Proof.
  intros Hcmp Hlen r.
  pose (admits := fun X (_ : admission_effect Path X) => True).
  pose (answers := fun X (e : admission_effect Path X) x => exists w, x = (handle X e w).1).
  assert (forall cancels : Prop, (answers _ AdmissionPoll true -> cancels) ->
    match r with Ok l => l = sort_by compare_paths paths | Err AdmissionCancelled => cancels
            | Err _ => False end) as Hr.
  { intros cancels Hc. unfold r. eapply (wp_run_from admits answers handle (fun _ => True)).
    - intros X e w' _ _. split; [by exists w'|done].
    - by apply (sort_paths_collects admits answers cancels); [|exact Hc|..].
    - done. }
  split; [|intros Hpoll].
  - specialize (Hr True (fun _ => I)). destruct r as [l|[]]; [left; congruence|by right|done|done].
  - assert (answers _ AdmissionPoll true -> False) as Hno by (intros [w' Hw']; by rewrite Hpoll in Hw').
    specialize (Hr False Hno). destruct r as [l|[]]; [congruence|done..].
Qed.

(** C28: A collection under any adapter, closure and observer ends with a report or
    as cancelled.  Its rows stay within the count and byte bounds, each comes
    from an absolute, validated, inspected path found at most 256 levels below
    the roots, no reparse point and no directory in Recurse mode is among them,
    and no directory is admitted twice, by the identity the adapter reports; and
    every call it makes, reads of directories included, stays within the same
    bounds. *)
Theorem admission_sound {Path W} (compare_paths : Path -> Path -> comparison)
    (is_absolute : Path -> bool) (handle : forall X, admission_effect Path X -> W -> X * W)
    (answers : forall X, admission_effect Path X -> X -> Prop) mode capacity roots budget (w : W) :
  TotalPreorder compare_paths -> Z.of_nat (length roots) <= usize_max ->
  0 <= remaining_bytes budget ->
  (forall X e w, answers X e (handle X e w).1) ->
  (forall path units, answers _ (PathUnits path) units -> 0 <= units) ->
  let p := collect_with_progress compare_paths is_absolute roots mode capacity budget in
  let bound := admission_capacity capacity in
  match (run handle p w).1 with
  | Ok r => report_sound is_absolute mode bound roots (remaining_bytes budget) answers r
  | Err AdmissionCancelled => cancellable answers
  | Err _ => False
  end /\
  (forall X e, makes_call handle p w X e ->
     within_bounds is_absolute mode bound (remaining_bytes budget) X e).
Proof.
  intros Hcmp Hroots Hbudget Hh Hunits p bound.
  pose proof (collect_with_progress_collects compare_paths is_absolute mode capacity roots budget
    answers Hcmp Hroots Hbudget Hunits) as Hp.
  split; [|intros X e].
  - by refine (wp_run_from _ answers handle (fun _ => True) _ _ w _ Hp _).
  - by refine (wp_calls _ answers handle (fun _ => True) _ _ w X e _ Hp _).
Qed.

(** C29: When the adapter shows a forest of plain entries that fits the capacity,
    the byte budget and the depth, has no directory twice, and nobody cancels, a
    collection reports exactly the sorted depth-first listing of the forest and
    no issue.  (One candidate of the capacity has to be left: a directory that
    is reached with a full frontier ends the collection.) *)
Theorem collection_lists_forest {Path W} (compare_paths : Path -> Path -> comparison)
    (is_absolute : Path -> bool) (handle : forall X, admission_effect Path X -> W -> X * W)
    (shown : EntryTree -> Prop) mode capacity budget forest (w : W) :
  TotalPreorder compare_paths -> presentable is_absolute shown ->
  (forall X e w, tree_answers shown X e (handle X e w).1) ->
  forest_fits mode shown (admission_capacity capacity) (remaining_bytes budget) forest ->
  (run handle (collect_with_progress compare_paths is_absolute (map tree_path forest) mode capacity
     budget) w).1 = Ok (mkAdmissionReport (forest_listing compare_paths mode forest) []).
Proof.
  intros Hcmp Hshown Hh Hfits.
  pose proof (collect_forest_lists compare_paths is_absolute mode shown Hshown capacity budget forest
    Hfits) as Hp.
  eapply (wp_run_from _ _ handle (fun _ => True) _ _ w) in Hp; [|done|done].
  destruct (run handle _ w).1 as [r|[]]; [by rewrite Hp|done..].
Qed.

(** ** A small tree *)

Definition example_file (path : LegacyText) : EntryTree :=
  Entry path (mkMetadata false false None 3 1 2) path [].
Definition example_directory : EntryTree :=
  Entry (text "C:\d") (mkMetadata true false (Some (mkIdentity 1 5)) 0 1 2) (text "C:\d")
    [example_file (text "C:\d\b"); example_file (text "C:\d\a")].
Definition example_forest : list EntryTree := [example_directory; example_file (text "C:\c")].
(** The adapter that shows a forest; the closure says [cancelled]. *)
Definition forest_adapter (cancelled : bool) (forest : list EntryTree) X
    (e : admission_effect LegacyText X) (w : unit) : X * unit :=
  let find path := List.find (fun t => bool_decide (tree_path t = path))
                     (concat (map (visited Recurse) forest)) in
  let missing := mkAdapterError MetadataOperation (Some 2) in
  (match e in admission_effect _ X return X with
   | AdmissionPoll => cancelled
   | ValidatePath path => match find path with Some _ => Ok tt | None => Err missing end
   | ReadMetadata path =>
       match find path with Some t => Ok (tree_metadata t) | None => Err missing end
   | ReadChildren path _ =>
       match find path with
       | Some t => Ok (mkChildren (map tree_path (tree_children t)) false false false)
       | None => Err (ReadAdapter missing)
       end
   | LegacyPath path => path
   | PathUnits path => zlen path
   | InspectionStarted _ => tt
   end, w).
Definition example_shown (t : EntryTree) : Prop :=
  t ∈ [example_directory; example_file (text "C:\d\b"); example_file (text "C:\d\a");
       example_file (text "C:\c")].

Lemma example_presentable : presentable (fun _ => true) example_shown.
Proof.
  split; [done| |]; unfold example_shown.
  - apply Forall_forall. by repeat constructor.
  - intros t c Ht. revert t Ht. apply (Forall_forall (fun t => c ∈ tree_children t -> example_shown c)).
    rewrite !Forall_cons, Forall_nil. split_and!; try done; intros Hc; simpl in Hc; unfold example_shown;
      repeat (apply elem_of_cons in Hc as [->|Hc]; [by repeat constructor|]);
      by apply not_elem_of_nil in Hc.
Qed.
Lemma example_adapter_shows X (e : admission_effect LegacyText X) w :
  tree_answers example_shown X e (forest_adapter false example_forest X e w).1.
Proof.
  destruct e as [|path|path|path b|path|path|n]; simpl; try done; intros t Ht Hp; subst path;
    unfold example_shown in Ht;
    repeat (apply elem_of_cons in Ht as [->|Ht]; [done|]); by apply not_elem_of_nil in Ht.
Qed.

Lemma sort_paths_is_stable_sort_witness :
  let handle := forest_adapter false example_forest in
  (run handle (sort_paths_cancellable (compare (K:=list Z)) [[2]; [1]; [3]]) tt).1 =
    Ok [[1]; [2]; [3]].
Proof.
  destruct (sort_paths_is_stable_sort (compare (K:=list Z)) (forest_adapter false example_forest)
    [[2]; [1]; [3]] tt (ordered_preorder (list Z)) ltac:(vm_compute; discriminate)) as [_ H].
  apply H. reflexivity.
Defined.

Lemma admission_sound_witness :
  let p := collect_with_progress (compare (K:=list Z)) (fun _ => true) (map tree_path example_forest)
             Recurse 2 path_budget_new in
  exists r, (run (forest_adapter false example_forest) p tt).1 = Ok r /\
    length (report_items r) = 1%nat /\ length (report_issues r) = 1%nat /\
    report_sound (fun _ => true) Recurse 2 (map tree_path example_forest) MAX_ADMITTED_PATH_BYTES
      (fun X e x => exists w, x = (forest_adapter false example_forest X e w).1) r.
Proof.
  eexists. split; [vm_compute; reflexivity|]. split; [reflexivity|]. split; [reflexivity|].
  refine (proj1 (admission_sound (compare (K:=list Z)) (fun _ => true)
    (forest_adapter false example_forest)
    (fun X e x => exists w, x = (forest_adapter false example_forest X e w).1) Recurse 2
    (map tree_path example_forest) path_budget_new tt (ordered_preorder (list Z)) _ _ _ _)).
  - vm_compute. discriminate.
  - vm_compute. discriminate.
  - intros X e w. by exists w.
  - intros path units [w ->]. apply zlen_nonneg.
Defined.

Lemma collection_lists_forest_witness :
  (run (forest_adapter false example_forest) (collect_with_progress (compare (K:=list Z))
     (fun _ => true) (map tree_path example_forest) Recurse 9 path_budget_new) tt).1 =
  Ok (mkAdmissionReport
    [tree_row (example_file (text "C:\c")); tree_row (example_file (text "C:\d\a"));
     tree_row (example_file (text "C:\d\b"))] []).
Proof.
  refine (collection_lists_forest (compare (K:=list Z)) (fun _ => true)
    (forest_adapter false example_forest) example_shown Recurse 9 path_budget_new example_forest tt
    (ordered_preorder (list Z)) example_presentable example_adapter_shows _).
  split.
  - unfold example_shown. repeat constructor; set_solver.
  - repeat constructor.
  - vm_compute. lia.
  - vm_compute. split; discriminate.
  - vm_compute. apply NoDup_singleton.
Defined.
