(* ===== verification/Preferences.v ===== *)
(** * Preferences: the records of the settings files

    The codecs of [crates/darknamer-app/src/windows/preferences.rs]: language,
    appearance and column records of fixed length, closed by a 32-bit FNV-1a
    checksum, with strict decoders.  The values are those of i18n.rs,
    appearance_model.rs and ui_layout.rs; an error is its message. *)

From S2P Require Import Prelude Collections LegacyText Codec.
#[local] Open Scope string_scope.
#[local] Open Scope Z_scope.

(** ** Values *)

Inductive LanguagePreference : Type := SystemLanguage | Korean | English | Japanese.
Inductive AppThemeMode : Type := SystemTheme | Light | Dark.
Inductive RailDensityPreference : Type := Automatic | Comfortable | Compact | MenuOnly.
Inductive PreviewEmphasis : Type := Subtle | Standard | Strong.

Record UiAppearance : Type := mkAppearance {
  theme : AppThemeMode;
  density : RailDensityPreference;
  emphasis : PreviewEmphasis;
  show_separators : bool;
  show_preview_tint : bool;
  show_empty_safety : bool
}.
Record ColumnState : Type := mkColumn { visible : bool; width_dip : Z; user_resized : bool }.

(** ** Bytes *)

(** A byte string of the source, [\0] included. *)
Definition COLUMN_MAGIC : list Z := text "DRCOLS" ++ [0; 0].
Definition FORMAT_VERSION : Z := 1.
Definition COLUMN_COUNT : nat := 7.
Definition HEADER_LEN : nat := 12.
Definition RECORD_LEN : nat := 6.
Definition CHECKSUM_LEN : nat := 4.
Definition SERIALIZED_LEN : nat := HEADER_LEN + COLUMN_COUNT * RECORD_LEN + CHECKSUM_LEN.
Definition MAX_WIDTH_DIP : Z := 32768.
Definition APPEARANCE_MAGIC : list Z := text "DRAPPR" ++ [0; 0].
Definition APPEARANCE_FORMAT_VERSION : Z := 1.
Definition APPEARANCE_HEADER_LEN : nat := 12.
Definition APPEARANCE_PAYLOAD_LEN : nat := 8.
Definition APPEARANCE_CHECKSUM_LEN : nat := 4.
Definition APPEARANCE_SERIALIZED_LEN : nat :=
  APPEARANCE_HEADER_LEN + APPEARANCE_PAYLOAD_LEN + APPEARANCE_CHECKSUM_LEN.
Definition LANGUAGE_MAGIC : list Z := text "DRLANG" ++ [0; 0].
Definition LANGUAGE_SERIALIZED_LEN : nat := 20.

Definition checksum_step (hash byte : Z) : Z := (Z.lxor hash byte * 16777619) mod 2 ^ 32.
Definition checksum (input : list Z) : Z := fold_left checksum_step input 2166136261.

(** [input[index]], within the length that was tested. *)
Definition byte_at (input : list Z) (index : nat) : Z := nth index input 0.
(** [output[from..].copy_from_slice(bytes)]. *)
Definition copy_at (from : nat) (bytes output : list Z) : list Z := write_at from bytes output.
(** [u8::from(flag)]. *)
Definition flag_byte (flag : bool) : Z := if flag then 1 else 0.
(** [i32::to_le_bytes] and [i32::from_le_bytes]. *)
Definition i32_bytes (value : Z) : list Z := le_bytes 4 (value mod 2 ^ 32).
Definition i32_value (bytes : list Z) : Z :=
  let value := le_value bytes in if value <? 2 ^ 31 then value else value - 2 ^ 32.

Abbreviation Decoded := (result string).
Definition invalid_data {A} (message : string) : Decoded A := Err message.

Definition decode_flag (value : Z) : Decoded bool :=
  if value =? 0 then Ok false
  else if value =? 1 then Ok true
  else invalid_data "column preference flag is invalid".

(** ** Language *)

Definition encode_language (preference : LanguagePreference) : list Z :=
  let bytes := repeat 0 LANGUAGE_SERIALIZED_LEN in
  let bytes := copy_at 0 LANGUAGE_MAGIC bytes in
  let bytes := <[8%nat := 1]> bytes in
  let bytes := <[12%nat := match preference with
                           | SystemLanguage => 0 | Korean => 1 | English => 2 | Japanese => 3
                           end]> bytes in
  copy_at 16 (le_bytes 4 (checksum (take 16 bytes))) bytes.

Definition decode_language (bytes : list Z) : Decoded LanguagePreference :=
  if negb (length bytes =? LANGUAGE_SERIALIZED_LEN)%nat
     || negb (bool_decide (take 8 bytes = LANGUAGE_MAGIC))
     || negb (byte_at bytes 8 =? 1)
     || negb (bool_decide (slice 9 12 bytes = [0; 0; 0]))
     || negb (bool_decide (slice 13 16 bytes = [0; 0; 0]))
     || negb (bool_decide (drop 16 bytes = le_bytes 4 (checksum (take 16 bytes))))
  then invalid_data "invalid language preference record"
  else
    let code := byte_at bytes 12 in
    if code =? 0 then Ok SystemLanguage
    else if code =? 1 then Ok Korean
    else if code =? 2 then Ok English
    else if code =? 3 then Ok Japanese
    else invalid_data "unsupported language preference".

(** ** Appearance *)

Definition encode_appearance (appearance : UiAppearance) : list Z :=
  let output := repeat 0 APPEARANCE_SERIALIZED_LEN in
  let output := copy_at 0 APPEARANCE_MAGIC output in
  let output := <[8%nat := APPEARANCE_FORMAT_VERSION]> output in
  let output := <[9%nat := Z.of_nat APPEARANCE_PAYLOAD_LEN]> output in
  let offset := APPEARANCE_HEADER_LEN in
  let output := <[offset := match theme appearance with
                            | SystemTheme => 0 | Light => 1 | Dark => 2 end]> output in
  let output := <[(offset + 1)%nat := match density appearance with
                            | Automatic => 0 | Comfortable => 1 | Compact => 2 | MenuOnly => 3
                            end]> output in
  let output := <[(offset + 2)%nat := match emphasis appearance with
                            | Subtle => 0 | Standard => 1 | Strong => 2 end]> output in
  let output := <[(offset + 3)%nat := flag_byte (show_separators appearance)]> output in
  let output := <[(offset + 4)%nat := flag_byte (show_preview_tint appearance)]> output in
  let output := <[(offset + 5)%nat := flag_byte (show_empty_safety appearance)]> output in
  let checksum_offset := (APPEARANCE_SERIALIZED_LEN - APPEARANCE_CHECKSUM_LEN)%nat in
  copy_at checksum_offset (le_bytes 4 (checksum (take checksum_offset output))) output.

Definition decode_theme (code : Z) : Decoded AppThemeMode :=
  if code =? 0 then Ok SystemTheme else if code =? 1 then Ok Light else if code =? 2 then Ok Dark
  else invalid_data "appearance theme is invalid".
Definition decode_density (code : Z) : Decoded RailDensityPreference :=
  if code =? 0 then Ok Automatic else if code =? 1 then Ok Comfortable
  else if code =? 2 then Ok Compact else if code =? 3 then Ok MenuOnly
  else invalid_data "appearance rail density is invalid".
Definition decode_emphasis (code : Z) : Decoded PreviewEmphasis :=
  if code =? 0 then Ok Subtle else if code =? 1 then Ok Standard else if code =? 2 then Ok Strong
  else invalid_data "appearance preview emphasis is invalid".

Definition decode_appearance (input : list Z) : Decoded UiAppearance :=
  if negb (length input =? APPEARANCE_SERIALIZED_LEN)%nat
  then invalid_data "appearance preference length is invalid"
  else if negb (bool_decide (take 8 input = APPEARANCE_MAGIC))
          || negb (byte_at input 8 =? APPEARANCE_FORMAT_VERSION)
          || negb (byte_at input 9 =? Z.of_nat APPEARANCE_PAYLOAD_LEN)
          || negb (bool_decide (slice 10 APPEARANCE_HEADER_LEN input = [0; 0]))
  then invalid_data "appearance preference header is invalid"
  else
    let checksum_offset := (APPEARANCE_SERIALIZED_LEN - APPEARANCE_CHECKSUM_LEN)%nat in
    let stored := le_value (drop checksum_offset input) in
    if negb (checksum (take checksum_offset input) =? stored)
    then invalid_data "appearance preference checksum does not match"
    else
      let offset := APPEARANCE_HEADER_LEN in
      if negb (bool_decide (slice (offset + 6) (offset + APPEARANCE_PAYLOAD_LEN) input = [0; 0]))
      then invalid_data "appearance preference reserved bytes are invalid"
      else
        theme ← decode_theme (byte_at input offset);
        density ← decode_density (byte_at input (offset + 1));
        emphasis ← decode_emphasis (byte_at input (offset + 2));
        show_separators ← decode_flag (byte_at input (offset + 3));
        show_preview_tint ← decode_flag (byte_at input (offset + 4));
        show_empty_safety ← decode_flag (byte_at input (offset + 5));
        Ok (mkAppearance theme density emphasis show_separators show_preview_tint show_empty_safety).

(** ** Columns *)

Definition width_supported (width : Z) : bool := (0 <=? width) && (width <=? MAX_WIDTH_DIP).

(** The loop over the enumerated columns. *)
Fixpoint encode_columns_from (index : nat) (columns : list ColumnState) (output : list Z)
  : Decoded (list Z) :=
  match columns with
  | [] => Ok output
  | column :: columns' =>
      if negb (width_supported (width_dip column))
      then invalid_data "column width is outside the supported range"
      else
        let offset := (HEADER_LEN + index * RECORD_LEN)%nat in
        let output := <[offset := flag_byte (visible column)]> output in
        let output := <[(offset + 1)%nat := flag_byte (user_resized column)]> output in
        let output := copy_at (offset + 2) (i32_bytes (width_dip column)) output in
        encode_columns_from (S index) columns' output
  end.
Definition encode (columns : list ColumnState) : Decoded (list Z) :=
  let output := repeat 0 SERIALIZED_LEN in
  let output := copy_at 0 COLUMN_MAGIC output in
  let output := <[8%nat := FORMAT_VERSION]> output in
  let output := <[9%nat := Z.of_nat COLUMN_COUNT]> output in
  output ← encode_columns_from 0 columns output;
  let checksum_offset := (SERIALIZED_LEN - CHECKSUM_LEN)%nat in
  Ok (copy_at checksum_offset (le_bytes 4 (checksum (take checksum_offset output))) output).

(** The columns from [index] on: every field of the defaults is overwritten. *)
Fixpoint decode_columns_from (count index : nat) (input : list Z) : Decoded (list ColumnState) :=
  match count with
  | O => Ok []
  | S count =>
      let offset := (HEADER_LEN + index * RECORD_LEN)%nat in
      visible ← decode_flag (byte_at input offset);
      user_resized ← decode_flag (byte_at input (offset + 1));
      let width_dip := i32_value (slice (offset + 2) (offset + RECORD_LEN) input) in
      if negb (width_supported width_dip)
      then invalid_data "column width is outside the supported range"
      else
        columns ← decode_columns_from count (S index) input;
        Ok (mkColumn visible width_dip user_resized :: columns)
  end.
Definition decode (input : list Z) : Decoded (list ColumnState) :=
  if negb (length input =? SERIALIZED_LEN)%nat
  then invalid_data "column preference length is invalid"
  else if negb (bool_decide (take 8 input = COLUMN_MAGIC))
          || negb (byte_at input 8 =? FORMAT_VERSION)
          || negb (byte_at input 9 =? Z.of_nat COLUMN_COUNT)
          || negb (bool_decide (slice 10 HEADER_LEN input = [0; 0]))
  then invalid_data "column preference header is invalid"
  else
    let checksum_offset := (SERIALIZED_LEN - CHECKSUM_LEN)%nat in
    let stored := le_value (drop checksum_offset input) in
    if negb (checksum (take checksum_offset input) =? stored)
    then invalid_data "column preference checksum does not match"
    else decode_columns_from COLUMN_COUNT 0 input.
