(* ===== verification/PreferencesCorrect.v ===== *)
(** * PreferencesCorrect: settings records are canonical and guarded

    The decoders accept exactly what the encoders produce, and no single changed
    byte of a record goes unnoticed. *)

From S2P Require Import Prelude Collections LegacyText RenameModel Journal Codec CodecCorrect Preferences.

(** ** Integers *)

Lemma le_value_cons b l : is_byte b -> le_value (b :: l) = b + 256 * le_value l.
Proof.
  intros Hb. cbn [le_value]. assert (Z.land b (Z.shiftl (le_value l) 8) = 0) as Hzero.
  { apply Z.bits_inj'. intros i Hi. rewrite Z.land_spec, Z.bits_0.
    destruct (Z.lt_ge_cases i 8).
    - rewrite Z.shiftl_spec_low by lia. apply andb_false_r.
    - replace b with (b mod 2 ^ 8) by (apply Z.mod_small; exact Hb).
      by rewrite Z.mod_pow2_bits_high by lia. }
  rewrite <-Z.lxor_lor, <-Z.add_nocarry_lxor by done. rewrite Z.shiftl_mul_pow2 by lia. lia.
Qed.
Lemma le_value_range l : Forall is_byte l -> 0 <= le_value l < 2 ^ (8 * Z.of_nat (length l)).
Proof.
  induction 1 as [|b l Hb Hl IH]; [simpl; lia|]. rewrite le_value_cons by done. cbn [length].
  replace (8 * Z.of_nat (S (length l))) with (8 + 8 * Z.of_nat (length l)) by lia.
  rewrite Z.pow_add_r by lia. unfold is_byte in Hb. lia.
Qed.
Lemma le_bytes_value l n : Forall is_byte l -> length l = n -> le_bytes n (le_value l) = l.
Proof.
  intros Hl <-. induction Hl as [|b l Hb Hl IH]; [done|]. rewrite le_value_cons by done.
  cbn [length le_bytes]. change 255 with (Z.ones 8).
  rewrite Z.land_ones, Z.shiftr_div_pow2 by lia. change (2 ^ 8) with 256. unfold is_byte in Hb.
  rewrite (Z.add_comm b), Z.mul_comm. rewrite Z.div_add_l, Z.div_small, Z.add_0_r, IH by lia.
  f_equal. rewrite Z.add_comm, Z.mod_add, Z.mod_small by lia. done.
Qed.

Lemma i32_value_bytes v : - 2 ^ 31 <= v < 2 ^ 31 -> i32_value (i32_bytes v) = v.
Proof.
  intros Hv. unfold i32_value, i32_bytes.
  rewrite le_value_bytes by (apply Z.mod_pos_bound; lia).
  destruct (Z.lt_ge_cases v 0).
  - rewrite <-(Z.mod_add v 1), Z.mod_small by lia. destruct (Z.ltb_spec (v + 1 * 2 ^ 32) (2 ^ 31)); lia.
  - rewrite Z.mod_small by lia. destruct (Z.ltb_spec v (2 ^ 31)); lia.
Qed.
Lemma i32_bytes_value l : Forall is_byte l -> length l = 4%nat -> i32_bytes (i32_value l) = l.
Proof.
  intros Hl Hlen. pose proof (le_value_range l Hl) as Hr. rewrite Hlen in Hr.
  unfold i32_value, i32_bytes. change (2 ^ (8 * Z.of_nat 4)) with (2 ^ 32) in Hr.
  assert ((if le_value l <? 2 ^ 31 then le_value l else le_value l - 2 ^ 32) mod 2 ^ 32 = le_value l) as ->.
  { destruct (Z.ltb_spec (le_value l) (2 ^ 31)); [apply Z.mod_small; lia|].
    rewrite <-(Z.mod_add _ 1), Z.mod_small by lia. lia. }
  by apply le_bytes_value.
Qed.

(** ** The checksum *)

Lemma checksum_step_u32 h b : is_u32 (checksum_step h b).
Proof. unfold is_u32, checksum_step. apply Z.mod_pos_bound. lia. Qed.
Lemma checksum_u32 l : is_u32 (checksum l).
Proof.
  unfold checksum. destruct l as [|b l] using rev_ind; [by unfold is_u32|].
  rewrite fold_left_app. apply checksum_step_u32.
Qed.
(** The factor is odd: it has an inverse modulo [2 ^ 32]. *)
Lemma checksum_factor a b :
  is_u32 a -> is_u32 b -> (a * 16777619) mod 2 ^ 32 = (b * 16777619) mod 2 ^ 32 -> a = b.
Proof.
  unfold is_u32. intros Ha Hb Heq.
  assert (forall x, 0 <= x < 2 ^ 32 -> (x * 16777619) mod 2 ^ 32 * 899433627 mod 2 ^ 32 = x) as Hinv.
  { intros x Hx. rewrite Z.mul_mod_idemp_l, <-Z.mul_assoc by lia.
    change (16777619 * 899433627) with (1 + 3513497 * 2 ^ 32).
    rewrite Z.mul_add_distr_l, Z.mul_assoc, Z.mod_add, Z.mul_1_r by lia. by apply Z.mod_small. }
  rewrite <-(Hinv a Ha), <-(Hinv b Hb). by rewrite Heq.
Qed.
Lemma byte_u32 b : is_byte b -> is_u32 b.
Proof. unfold is_byte, is_u32. lia. Qed.
Lemma lxor_cancel h b b' : Z.lxor h b = Z.lxor h b' -> b = b'.
Proof.
  intros Heq. assert (Z.lxor h (Z.lxor h b) = Z.lxor h (Z.lxor h b')) as H by by rewrite Heq.
  by rewrite <-!Z.lxor_assoc, !Z.lxor_nilpotent, !Z.lxor_0_l in H.
Qed.
Lemma checksum_step_byte h b b' :
  is_u32 h -> is_byte b -> is_byte b' -> checksum_step h b = checksum_step h b' -> b = b'.
Proof.
  intros Hh Hb Hb' Heq. apply checksum_factor in Heq; [by apply lxor_cancel in Heq|..];
    apply u32_lxor; auto using byte_u32.
Qed.
Lemma checksum_step_hash h h' b :
  is_u32 h -> is_u32 h' -> is_byte b -> checksum_step h b = checksum_step h' b -> h = h'.
Proof.
  intros Hh Hh' Hb Heq. apply checksum_factor in Heq.
  - rewrite !(Z.lxor_comm _ b) in Heq. by apply lxor_cancel in Heq.
  - apply u32_lxor; auto using byte_u32.
  - apply u32_lxor; auto using byte_u32.
Qed.
(** One changed byte changes the checksum. *)
Lemma checksum_changed pre b b' post :
  is_byte b -> is_byte b' -> Forall is_byte post ->
  checksum (pre ++ b :: post) = checksum (pre ++ b' :: post) -> b = b'.
Proof.
  intros Hb Hb' Hpost. unfold checksum. rewrite !fold_left_app. simpl. fold (checksum pre).
  intros Heq. apply (checksum_step_byte (checksum pre)); [apply checksum_u32|done|done|].
  revert Heq. assert (is_u32 (checksum_step (checksum pre) b)) as H1 by apply checksum_step_u32.
  assert (is_u32 (checksum_step (checksum pre) b')) as H2 by apply checksum_step_u32. revert H1 H2.
  generalize (checksum_step (checksum pre) b) as h, (checksum_step (checksum pre) b') as h'.
  induction Hpost as [|c post Hc Hpost IH]; intros h h' H1 H2 Heq; [done|].
  apply (checksum_step_hash h h' c); try done.
  apply IH; [apply checksum_step_u32|apply checksum_step_u32|exact Heq].
Qed.

(** ** Sealed records *)

Definition seal (payload : list Z) : list Z := payload ++ le_bytes 4 (checksum payload).

Lemma length_seal payload : length (seal payload) = (length payload + 4)%nat.
Proof. unfold seal. by rewrite length_app, length_le_bytes. Qed.
Lemma seal_bytes payload : Forall is_byte payload -> Forall is_byte (seal payload).
Proof. intros H. unfold seal. apply Forall_app. split; [done|apply le_bytes_range]. Qed.
Lemma seal_inj p p' : length p = length p' -> seal p = seal p' -> p = p'.
Proof. intros Hlen Heq. by apply app_inj_1 in Heq as []. Qed.
Lemma le_bytes_inj a b : is_u32 a -> is_u32 b -> le_bytes 4 a = le_bytes 4 b -> a = b.
Proof. intros Ha Hb Heq. rewrite <-(le_value_bytes 4 a Ha), <-(le_value_bytes 4 b Hb). by rewrite Heq. Qed.

(** Two sealed records of one length never differ in exactly one byte. *)
Lemma sealed_apart p p' i y :
  Forall is_byte p -> length p = length p' -> is_byte y -> (i < length (seal p))%nat ->
  seal p' = <[i := y]> (seal p) -> seal p !! i = Some y.
Proof.
  intros Hp Hlen Hy Hi Heq. unfold seal in *.
  destruct (decide (i < length p)%nat) as [Hlt|Hge].
  - rewrite insert_app_l in Heq by done. apply app_inj_1 in Heq as [-> Hsum]; [|by rewrite length_insert].
    apply le_bytes_inj in Hsum; [|apply checksum_u32..].
    rewrite lookup_app_l by done. destruct (lookup_lt_is_Some_2 p i Hlt) as [b Hb]. rewrite Hb. f_equal.
    rewrite <-(take_drop_middle p i b Hb) in Hsum at 2.
    rewrite insert_take_drop in Hsum by done. symmetry. rewrite Forall_forall in Hp.
    eapply (checksum_changed (take i p)); [done| | |exact Hsum].
    + apply Hp. by eapply list_elem_of_lookup_2.
    + apply Forall_forall. intros x Hx. by eapply Hp, subseteq_drop.
  - rewrite insert_app_r_alt in Heq by lia. apply app_inj_1 in Heq as [-> Hsum]; [|done].
    rewrite Hsum at 1. rewrite lookup_app_r by lia. apply list_lookup_insert_eq.
    rewrite length_le_bytes. rewrite length_app, length_le_bytes in Hi. lia.
Qed.

Definition accepted {A} (r : Decoded A) : bool := match r with Ok _ => true | Err _ => false end.

(** What a settings format promises: its decoder accepts the sealed payloads of
    the valid values and nothing else. *)
Class SealedFormat (A : Type) (payload_len : nat) (payload : A -> list Z) (valid : A -> Prop)
    (decoder : list Z -> Decoded A) : Prop := {
  format_length a : valid a -> length (payload a) = payload_len;
  format_bytes a : valid a -> Forall is_byte (payload a);
  format_accepts b a :
    Forall is_byte b -> decoder b = Ok a <-> valid a /\ b = seal (payload a)
}.

Section SealedFormats.
Context `{SealedFormat A payload_len payload valid decoder}.

(** A valid record with one byte replaced by another is refused. *)
Lemma format_detects a b i y :
  Forall is_byte b -> decoder b = Ok a -> is_byte y -> (i < length b)%nat -> b !! i <> Some y ->
  forall a', decoder (<[i := y]> b) <> Ok a'.
Proof using All.
  intros Hb Hdec Hy Hi Hne a' Hdec'.
  apply format_accepts in Hdec as [Ha ->]; [|done].
  apply format_accepts in Hdec' as [Ha' Heq]; [|by apply Forall_insert].
  apply Hne. eapply (sealed_apart _ (payload a')); try done.
  - by apply format_bytes.
  - by rewrite !format_length.
Qed.
Lemma format_refuses b i y :
  Forall is_byte b -> is_byte y -> (i < length b)%nat -> b !! i <> Some y ->
  accepted (decoder b) = true -> accepted (decoder (<[i := y]> b)) = false.
Proof using All.
  intros Hb Hy Hi Hne Hok. destruct (decoder b) as [a|] eqn:Hdec; [|discriminate].
  destruct (decoder (<[i := y]> b)) as [a'|] eqn:Hdec'; [|done].
  by destruct (format_detects a b i y Hb Hdec Hy Hi Hne a').
Qed.
End SealedFormats.

(** ** Language *)

Definition language_payload (preference : LanguagePreference) : list Z :=
  LANGUAGE_MAGIC ++ [1; 0; 0; 0;
    match preference with SystemLanguage => 0 | Korean => 1 | English => 2 | Japanese => 3 end; 0; 0; 0].

Lemma encode_language_sealed p : encode_language p = seal (language_payload p).
Proof. by destruct p; vm_compute. Qed.
Lemma sealed_split n b p :
  length p = n -> take n b = p -> drop n b = le_bytes 4 (checksum p) -> b = seal p.
Proof. intros Hn Htake Hdrop. rewrite <-(take_drop n b). by rewrite Htake, Hdrop. Qed.

(** Turns the tests a decoder passed into equations. *)
Ltac tests_passed :=
  repeat match goal with
  | H : orb _ _ = false |- _ => apply orb_false_elim in H as []
  | H : negb _ = false |- _ => apply negb_false_iff in H
  | H : bool_decide _ = true |- _ => apply bool_decide_eq_true_1 in H
  | H : (_ =? _)%nat = true |- _ => apply Nat.eqb_eq in H
  | H : (_ =? _) = true |- _ => apply Z.eqb_eq in H
  end.
(** Follows the branches of a decoder that succeeded. *)
Ltac decoded :=
  repeat match goal with
  | H : (if ?c then _ else _) = Ok _ |- _ => let E := fresh "E" in destruct c eqn:E; try discriminate H
  end; tests_passed.

(** Names the bytes of a list of known length. *)
Ltac name_bytes b n :=
  lazymatch n with
  | O => destruct b as [|? ?]; [|discriminate]
  | S ?n' => let x := fresh "x" in destruct b as [|x b]; [discriminate|]; name_bytes b n'
  end.

#[export] Instance language_format :
  SealedFormat LanguagePreference 16 language_payload (fun _ => True) decode_language.
Proof.
  split.
  - by intros [].
  - intros p _. by destruct p; repeat constructor.
  - intros b p Hbytes. split.
    + intros Hdec. split; [done|]. unfold decode_language in Hdec. cbv zeta in Hdec.
      destruct (_ || _) eqn:Htests in Hdec; [discriminate|]. tests_passed.
      assert (take 16 b = language_payload p) as Htake.
      { match goal with H : drop 16 b = _ |- _ => clear H end. clear Hbytes.
        name_bytes b 20%nat. cbv -[Z.eqb] in *. simplify_eq. decoded; by simplify_eq. }
      apply (sealed_split 16); [by destruct p|done|]. by rewrite <-Htake.
    + intros [_ ->]. by destruct p; vm_compute.
Qed.

(** ** Appearance *)

Definition theme_code (t : AppThemeMode) : Z :=
  match t with SystemTheme => 0 | Light => 1 | Dark => 2 end.
Definition density_code (d : RailDensityPreference) : Z :=
  match d with Automatic => 0 | Comfortable => 1 | Compact => 2 | MenuOnly => 3 end.
Definition emphasis_code (e : PreviewEmphasis) : Z :=
  match e with Subtle => 0 | Standard => 1 | Strong => 2 end.

Lemma decode_theme_ok c t : decode_theme c = Ok t <-> c = theme_code t.
Proof. split; [unfold decode_theme; intros H; decoded; by simplify_eq|intros ->; by destruct t]. Qed.
Lemma decode_density_ok c d : decode_density c = Ok d <-> c = density_code d.
Proof. split; [unfold decode_density; intros H; decoded; by simplify_eq|intros ->; by destruct d]. Qed.
Lemma decode_emphasis_ok c e : decode_emphasis c = Ok e <-> c = emphasis_code e.
Proof. split; [unfold decode_emphasis; intros H; decoded; by simplify_eq|intros ->; by destruct e]. Qed.
Lemma decode_flag_ok c b : decode_flag c = Ok b <-> c = flag_byte b.
Proof. split; [unfold decode_flag; intros H; decoded; by simplify_eq|intros ->; by destruct b]. Qed.
Lemma theme_byte t : is_byte (theme_code t).
Proof. by destruct t. Qed.
Lemma density_byte d : is_byte (density_code d).
Proof. by destruct d. Qed.
Lemma emphasis_byte e : is_byte (emphasis_code e).
Proof. by destruct e. Qed.
Lemma flag_is_byte b : is_byte (flag_byte b).
Proof. by destruct b. Qed.

Definition appearance_payload (a : UiAppearance) : list Z :=
  APPEARANCE_MAGIC ++ [1; 8; 0; 0; theme_code (theme a); density_code (density a);
    emphasis_code (emphasis a); flag_byte (show_separators a); flag_byte (show_preview_tint a);
    flag_byte (show_empty_safety a); 0; 0].

Lemma encode_appearance_sealed a : encode_appearance a = seal (appearance_payload a).
Proof. by destruct a. Qed.
Lemma stored_checksum n b l :
  Forall is_byte b -> length b = (n + 4)%nat -> checksum l = le_value (drop n b) ->
  drop n b = le_bytes 4 (checksum l).
Proof.
  intros Hb Hlen ->. symmetry. apply le_bytes_value; [|rewrite length_drop; lia].
  by apply Forall_drop.
Qed.

#[export] Instance appearance_format :
  SealedFormat UiAppearance 20 appearance_payload (fun _ => True) decode_appearance.
Proof.
  split.
  - by intros [].
  - intros a _. unfold appearance_payload. apply Forall_app. split; [by repeat constructor|].
    repeat (apply Forall_cons_2;
      [first [done|apply theme_byte|apply density_byte|apply emphasis_byte|apply flag_is_byte]|]).
    by apply Forall_nil_2.
  - intros b a Hbytes. split.
    + intros Hdec. split; [done|]. unfold decode_appearance in Hdec. cbv zeta in Hdec. decoded.
      repeat match goal with
      | H : _ ≫= _ = Ok _ |- _ => apply result_bind_Ok in H as (? & ? & H)
      end.
      repeat match goal with
      | H : decode_theme _ = Ok _ |- _ => apply decode_theme_ok in H
      | H : decode_density _ = Ok _ |- _ => apply decode_density_ok in H
      | H : decode_emphasis _ = Ok _ |- _ => apply decode_emphasis_ok in H
      | H : decode_flag _ = Ok _ |- _ => apply decode_flag_ok in H
      end.
      simplify_eq.
      assert (drop 20 b = le_bytes 4 (checksum (take 20 b))) as Hsum by by apply stored_checksum.
      assert (take 20 b = appearance_payload (mkAppearance x x0 x1 x2 x3 x4)) as Htake.
      { match goal with H : context [le_value] |- _ => clear H end. clear Hsum Hbytes.
        name_bytes b 24%nat. cbv -[theme_code density_code emphasis_code flag_byte] in *. by simplify_eq. }
      apply (sealed_split 20); [done|done|]. by rewrite <-Htake.
    + intros [_ ->]. by destruct a as [[] [] [] [] [] []]; vm_compute.
Qed.

(** ** Columns *)

Definition column_record (c : ColumnState) : list Z :=
  flag_byte (visible c) :: flag_byte (user_resized c) :: i32_bytes (width_dip c).
Definition columns_payload (cs : list ColumnState) : list Z :=
  COLUMN_MAGIC ++ [1; 7; 0; 0] ++ concat (map column_record cs).
Definition supported_column (c : ColumnState) : Prop := width_supported (width_dip c) = true.
Definition supported_columns (cs : list ColumnState) : Prop :=
  length cs = COLUMN_COUNT /\ Forall supported_column cs.

Lemma length_column_record c : length (column_record c) = RECORD_LEN.
Proof. unfold column_record, i32_bytes. cbn [length]. by rewrite length_le_bytes. Qed.
Lemma column_record_bytes c : Forall is_byte (column_record c).
Proof. apply Forall_cons_2, Forall_cons_2; [apply flag_is_byte..|apply le_bytes_range]. Qed.
Lemma length_column_records cs : length (concat (map column_record cs)) = (length cs * RECORD_LEN)%nat.
Proof. induction cs as [|c cs IH]; [done|]. cbn [map concat]. rewrite length_app, length_column_record, IH. done. Qed.
Lemma column_records_bytes cs : Forall is_byte (concat (map column_record cs)).
Proof. induction cs as [|c cs IH]; [constructor|]. cbn [map concat]. apply Forall_app. auto using column_record_bytes. Qed.
Lemma supported_width v : width_supported v = true -> 0 <= v <= 32768.
Proof. unfold width_supported, MAX_WIDTH_DIP. lia. Qed.

Lemma insert_prefix {A} (l k : list A) x y : <[length l := y]> (l ++ x :: k) = l ++ y :: k.
Proof. rewrite <-(Nat.add_0_r (length l)), insert_app_r. done. Qed.

Lemma encode_columns_from_records cs : forall index pre rest,
  length pre = (HEADER_LEN + index * RECORD_LEN)%nat ->
  (length cs * RECORD_LEN <= length rest)%nat -> Forall supported_column cs ->
  encode_columns_from index cs (pre ++ rest)
  = Ok (pre ++ concat (map column_record cs) ++ drop (length cs * RECORD_LEN) rest).
Proof.
  induction cs as [|c cs IH]; intros index pre rest Hpre Hrest Hcs; [by rewrite drop_0|].
  apply Forall_cons in Hcs as [Hc Hcs]. cbn [encode_columns_from]. rewrite Hc, <-Hpre. cbn [negb].
  do 6 (destruct rest as [|? rest]; [simpl in Hrest; lia|]).
  rewrite insert_prefix, insert_app_r. cbn [insert list_insert]. unfold copy_at, write_at.
  rewrite take_app_add, <-Nat.add_assoc, drop_app_add.
  replace (drop (2 + length (i32_bytes (width_dip c))) _) with rest
    by (unfold i32_bytes; by rewrite length_le_bytes).
  replace ((pre ++ take 2 _) ++ i32_bytes (width_dip c) ++ rest)
    with ((pre ++ column_record c) ++ rest) by by rewrite <-!app_assoc.
  rewrite IH; [|rewrite length_app, length_column_record; lia|cbn [length] in Hrest; unfold RECORD_LEN in *; lia|done].
  simpl. by rewrite <-!app_assoc.
Qed.

Lemma nth_prefix {A} (l k : list A) i d : nth (length l + i) (l ++ k) d = nth i k d.
Proof. rewrite app_nth2 by lia. f_equal. lia. Qed.
Lemma slice_prefix {A} (l k : list A) i j : slice (length l + i) (length l + j) (l ++ k) = slice i j k.
Proof. unfold slice. rewrite drop_app_add. f_equal. lia. Qed.

(** One step of the decoding loop, on a record of six bytes. *)
Lemma decode_columns_from_step count index pre f u w rest c cs :
  length pre = (HEADER_LEN + index * RECORD_LEN)%nat -> Forall is_byte w -> length w = 4%nat ->
  decode_columns_from (S count) index (pre ++ (f :: u :: w) ++ rest) = Ok (c :: cs) <->
  f :: u :: w = column_record c /\ supported_column c
  /\ decode_columns_from count (S index) (pre ++ (f :: u :: w) ++ rest) = Ok cs.
Proof.
  intros Hpre Hw Hlen. cbn [decode_columns_from]. rewrite <-Hpre.
  unfold byte_at. rewrite nth_prefix, slice_prefix. cbn [app]. rewrite nth_middle.
  change (nth 1 (f :: u :: w ++ rest) 0) with u.
  replace (slice 2 RECORD_LEN (f :: u :: w ++ rest)) with w
    by (change (w = take 4 (w ++ rest)); by rewrite <-Hlen, take_app_length).
  unfold column_record, supported_column. split.
  - intros H. apply result_bind_Ok in H as (v & Hv & H). apply result_bind_Ok in H as (b & Hb & H).
    cbv zeta in H. destruct (width_supported _) eqn:Hwidth; [|discriminate]. cbn [negb] in H.
    apply result_bind_Ok in H as (cs' & Hcs & H). simplify_eq. cbn [visible user_resized width_dip].
    apply decode_flag_ok in Hv as ->. apply decode_flag_ok in Hb as ->.
    by rewrite i32_bytes_value.
  - intros (Hrecord & Hwidth & Hcs). injection Hrecord as -> -> ->.
    rewrite (proj2 (decode_flag_ok (flag_byte (visible c)) _) eq_refl),
      (proj2 (decode_flag_ok (flag_byte (user_resized c)) _) eq_refl).
    cbn [mbind result_bind]. cbv zeta. apply supported_width in Hwidth as Hrange.
    rewrite i32_value_bytes, Hwidth by lia. cbn [negb]. rewrite Hcs. by destruct c.
Qed.
Lemma decode_columns_from_length count : forall index input cs,
  decode_columns_from count index input = Ok cs -> length cs = count.
Proof.
  induction count as [|count IH]; intros index input cs H; [by simplify_eq/=|].
  cbn [decode_columns_from] in H. apply result_bind_Ok in H as (v & _ & H).
  apply result_bind_Ok in H as (b & _ & H). cbv zeta in H. destruct (negb _); [discriminate|].
  apply result_bind_Ok in H as (cs' & Hcs & H). simplify_eq/=. f_equal. by eapply IH.
Qed.
Lemma decode_columns_from_records count : forall index pre rest cs,
  length pre = (HEADER_LEN + index * RECORD_LEN)%nat ->
  (count * RECORD_LEN <= length rest)%nat -> Forall is_byte rest -> length cs = count ->
  decode_columns_from count index (pre ++ rest) = Ok cs <->
  Forall supported_column cs /\ take (count * RECORD_LEN) rest = concat (map column_record cs).
Proof.
  induction count as [|count IH]; intros index pre rest cs Hpre Hrest Hbytes Hcount.
  { destruct cs; [|done]. simpl. split; [by repeat constructor|done]. }
  destruct cs as [|c cs]; [done|]. injection Hcount as Hcount.
  do 6 (destruct rest as [|? rest]; [simpl in Hrest; lia|]).
  change (z :: z0 :: z1 :: z2 :: z3 :: z4 :: rest) with ((z :: z0 :: [z1; z2; z3; z4]) ++ rest) in *.
  apply Forall_app in Hbytes as [Hrecord Hbytes].
  rewrite decode_columns_from_step; [|done|by do 2 apply Forall_cons_1 in Hrecord as [_ Hrecord]|done].
  rewrite app_assoc, (IH (S index)); [|rewrite length_app, Hpre; cbn [length]; unfold RECORD_LEN; lia
    |cbn [length app] in Hrest; unfold RECORD_LEN in *; lia|done|done].
  cbn [map concat]. rewrite Forall_cons.
  replace (take (S count * RECORD_LEN) _)
    with ([z; z0; z1; z2; z3; z4] ++ take (count * RECORD_LEN) rest) by done.
  split; [intros (-> & ? & ? & ->); done|]. intros ((? & ?) & Heq).
  apply app_inj_1 in Heq as [? ?]; [done|by rewrite length_column_record].
Qed.

(** Columns that encode are within the supported range. *)
Lemma encode_columns_from_supported cs : forall index output b,
  encode_columns_from index cs output = Ok b -> Forall supported_column cs.
Proof.
  induction cs as [|c cs IH]; intros index output b H; [constructor|]. cbn [encode_columns_from] in H.
  destruct (width_supported (width_dip c)) eqn:Hc; [|discriminate].
  apply Forall_cons. split; [done|exact (IH _ _ _ H)].
Qed.
Lemma encode_supported cs b : length cs = COLUMN_COUNT -> encode cs = Ok b -> supported_columns cs.
Proof.
  intros Hlen H. split; [done|]. unfold encode in H. cbv zeta in H.
  apply result_bind_Ok in H as (o & Ho & _). by eapply encode_columns_from_supported.
Qed.
Lemma length_columns_payload cs : length cs = COLUMN_COUNT -> length (columns_payload cs) = 54%nat.
Proof. intros Hlen. unfold columns_payload. rewrite !length_app, length_column_records, Hlen. done. Qed.
Lemma encode_sealed cs : supported_columns cs -> encode cs = Ok (seal (columns_payload cs)).
Proof.
  intros [Hlen Hcs]. unfold encode. cbv zeta.
  match goal with |- context [encode_columns_from 0 cs ?o] =>
    change o with ((COLUMN_MAGIC ++ [1; 7; 0; 0]) ++ repeat 0 46) end.
  rewrite encode_columns_from_records; [|done|rewrite Hlen, repeat_length; vm_compute; lia|done].
  rewrite Hlen. change (drop (COLUMN_COUNT * RECORD_LEN) (repeat 0 46)) with (repeat 0 4).
  replace ((COLUMN_MAGIC ++ [1; 7; 0; 0]) ++ _ ++ repeat 0 4) with (columns_payload cs ++ repeat 0 4)
    by (unfold columns_payload; by rewrite <-!app_assoc).
  assert (length (columns_payload cs) = 54%nat) as Hpayload by by apply length_columns_payload.
  cbn [mbind result_bind]. change (SERIALIZED_LEN - CHECKSUM_LEN)%nat with 54%nat.
  rewrite <-Hpayload, take_app_length. unfold copy_at, write_at.
  rewrite take_app_length, drop_app_add. by rewrite app_nil_r.
Qed.

#[export] Instance columns_format :
  SealedFormat (list ColumnState) 54 columns_payload supported_columns decode.
Proof.
  split.
  - intros cs []. by apply length_columns_payload.
  - intros cs _. apply Forall_app. split; [by repeat constructor|]. apply Forall_app.
    split; [by repeat constructor|apply column_records_bytes].
  - intros b cs Hbytes. split.
    + intros Hdec. unfold decode in Hdec. cbv zeta in Hdec. decoded.
      change SERIALIZED_LEN with 58%nat in *.
      assert (length cs = 7%nat) as Hcount by by eapply decode_columns_from_length.
      assert (drop 54 b = le_bytes 4 (checksum (take 54 b))) as Hsum by by apply stored_checksum.
      rewrite <-(take_drop 12 b) in Hdec.
      apply decode_columns_from_records in Hdec as [Hcs Hrecords];
        [|rewrite length_take; vm_compute (HEADER_LEN + _)%nat; lia
        |rewrite length_drop; vm_compute (_ * _)%nat; lia|by apply Forall_drop|done].
      assert (take 12 b = COLUMN_MAGIC ++ [1; 7; 0; 0]) as Hheader.
      { clear E1 Hsum Hrecords Hbytes. do 12 (destruct b as [|? b]; [discriminate|]). clear E.
        cbv in H, H0, H1, H2 |- *. by simplify_eq. }
      assert (take 54 b = columns_payload cs) as Hpayload.
      { rewrite <-(take_drop 12 b), take_app, take_take, length_take, E.
        change (54 `min` 12)%nat with 12%nat. rewrite Hheader.
        unfold columns_payload. by rewrite <-Hrecords, <-app_assoc. }
      split; [done|]. apply (sealed_split 54); [by apply length_columns_payload|done|by rewrite <-Hpayload].
    + intros [[Hlen Hcs] ->]. apply length_columns_payload in Hlen as Hpayload.
      unfold decode. cbv zeta. rewrite length_seal, Hpayload. cbn [Nat.eqb negb].
      change (negb _ || _ || _ || _) with (false || false || false || false).
      change (54 + 4 =? SERIALIZED_LEN)%nat with true. cbn [negb orb].
      change (SERIALIZED_LEN - CHECKSUM_LEN)%nat with 54%nat. rewrite <-Hpayload at 1 2.
      unfold seal at 1 2. rewrite take_app_length, drop_app_length.
      rewrite le_value_bytes by apply checksum_u32. rewrite Z.eqb_refl. cbn [negb].
      assert (seal (columns_payload cs) = (COLUMN_MAGIC ++ [1; 7; 0; 0])
        ++ concat (map column_record cs) ++ le_bytes 4 (checksum (columns_payload cs))) as ->
        by (unfold seal, columns_payload at 1; by rewrite <-!app_assoc).
      apply decode_columns_from_records; [done| | |done|].
      * rewrite length_app, length_column_records, Hlen. vm_compute (_ * _)%nat. lia.
      * apply Forall_app. split; [apply column_records_bytes|apply le_bytes_range].
      * split; [done|]. by rewrite <-Hlen, <-length_column_records, take_app_length.
Qed.

(** ** What the settings formats guarantee *)

(** Language, appearance and column records are canonical.  A string of
    bytes decodes to a value exactly when it is the encoding of that value, so
    decoding is a bijection between valid records and valid values; columns
    encode when their widths lie within the supported range. *)
Theorem preference_records_canonical (b : list Z) :
  Forall is_byte b ->
  (forall p, decode_language b = Ok p <-> b = encode_language p)
  /\ (forall a, decode_appearance b = Ok a <-> b = encode_appearance a)
  /\ (forall cs, decode b = Ok cs <-> length cs = COLUMN_COUNT /\ encode cs = Ok b).
Proof.
  intros Hb. split_and!; intros v; rewrite format_accepts by done.
  - rewrite encode_language_sealed. naive_solver.
  - rewrite encode_appearance_sealed. naive_solver.
  - split; [intros [Hv ->]; split; [by destruct Hv|by apply encode_sealed]|].
    intros [Hlen Hencode]. assert (supported_columns v) as Hv by by eauto using encode_supported.
    split; [done|]. rewrite encode_sealed in Hencode by done. by simplify_eq.
Qed.
Lemma preference_records_canonical_witness :
  let columns := repeat (mkColumn true 120 false) 6 ++ [mkColumn false 32768 true] in
  let bytes := match encode columns with Ok b => b | Err _ => [] end in
  decode bytes = Ok columns.
Proof.
  cbv zeta. apply (preference_records_canonical _); [|split; reflexivity].
  vm_compute. repeat constructor; discriminate.
Defined.

(** A changed byte never goes unnoticed.  Replace any one byte of a valid
    settings record, its checksum included, by another: all three decoders
    that accepted the record refuse the result. *)
Theorem preference_corruption_detected (b : list Z) (i : nat) (y : Z) :
  Forall is_byte b -> is_byte y -> (i < length b)%nat -> b !! i <> Some y ->
  (accepted (decode_language b) = true -> accepted (decode_language (<[i := y]> b)) = false)
  /\ (accepted (decode_appearance b) = true -> accepted (decode_appearance (<[i := y]> b)) = false)
  /\ (accepted (decode b) = true -> accepted (decode (<[i := y]> b)) = false).
Proof.
  intros Hb Hy Hi Hne. split_and!; by apply format_refuses.
Qed.
Lemma preference_corruption_detected_witness :
  accepted (decode_language (<[12%nat := 2]> (encode_language Korean))) = false.
Proof.
  eapply (proj1 (preference_corruption_detected (encode_language Korean) 12 2 _ _ _ _)).
  vm_compute. reflexivity.
  Unshelve.
  - vm_compute. repeat constructor; discriminate.
  - vm_compute. split; [discriminate|reflexivity].
  - vm_compute. repeat constructor.
  - vm_compute. discriminate.
Defined.
