(* ===== verification/PreferenceWriter.v ===== *)
(** * PreferenceWriter: the coalescing writer of settings and its client

    [CoalescingWriter] of
    [crates/darknamer-app/src/windows/preferences.rs] and [WriterStatus] of
    preference_lifecycle.rs.  A user-interface thread (the owner) and a worker
    thread share one queue of at most one pending request and a channel of
    events.  The atomic steps of the two threads, lock sections and channel
    operations, are the actions of [act]; a run is a list of actions in any
    order, so it stands for any interleaving.  What a save returns is part of
    its action: every outcome is possible at every save.

    The two actions in which the worker panics, a save with [SavePanic] and
    [WakePanics], exist only in development and test builds, whose panics unwind to
    the [catch_unwind] of the thread.  The release profile aborts the process at a
    panic: the runs of a release build are those without the two actions
    ([panic_free] of PreferenceWriterCorrect), up to the moment it is aborted. *)

From S2P Require Import Prelude.
#[local] Open Scope Z_scope.

Section Writer.
Context {T : Type}.

(** ** State *)

Record PreferenceRequest : Type := mkRequest { request_generation : Z; snapshot : T }.
Record PreferenceQueue : Type := mkQueue { pending : option PreferenceRequest; shutdown : bool }.

Inductive PreferenceWriteEvent : Type :=
| Saved (generation : Z)
| Failed (generation : Z) (error : string)
| Stopped
| Panicked.

(** Where the worker thread is: waiting for a request with the lock released,
    inside [save], about to send an event, inside [wake], about to send its
    terminal event, past it, and ended. *)
Inductive WorkerPhase : Type :=
| Waiting
| Saving (request : PreferenceRequest)
| Sending (event : PreferenceWriteEvent)
| Waking
| Leaving (terminal : PreferenceWriteEvent)
| Exiting
| Finished.
(** Where the owner is: between calls, past the test of [is_finished] of a
    submission or of a close, or blocked in [join]. *)
Inductive OwnerPhase : Type :=
| Idle
| Submitting (snapshot : T)
| Closing (snapshot : T)
| Joining.

Record CoalescingWriter : Type := mkWriter {
  queue : PreferenceQueue;
  events : list PreferenceWriteEvent;
  handle : bool;
  next_generation : Z;
  worker : WorkerPhase;
  owner : OwnerPhase
}.

Definition spawn : CoalescingWriter := mkWriter (mkQueue None false) [] true 0 Waiting Idle.

Definition set_queue (q : PreferenceQueue) (w : CoalescingWriter) : CoalescingWriter :=
  mkWriter q (events w) (handle w) (next_generation w) (worker w) (owner w).
Definition set_worker (p : WorkerPhase) (w : CoalescingWriter) : CoalescingWriter :=
  mkWriter (queue w) (events w) (handle w) (next_generation w) p (owner w).
Definition set_owner (p : OwnerPhase) (w : CoalescingWriter) : CoalescingWriter :=
  mkWriter (queue w) (events w) (handle w) (next_generation w) (worker w) p.
(** [sender.send(event)]. *)
Definition send (event : PreferenceWriteEvent) (w : CoalescingWriter) : CoalescingWriter :=
  mkWriter (queue w) (events w ++ [event]) (handle w) (next_generation w) (worker w) (owner w).

(** ** Operations of the owner *)

Definition worker_ended (w : CoalescingWriter) : bool :=
  match worker w with Finished => true | _ => false end.
Definition is_finished (w : CoalescingWriter) : bool := negb (handle w) || worker_ended w.

Inductive SubmitError : Type := WriterStopped | GenerationExhausted | ShuttingDown.

Definition commit_request (snapshot : T) (closing : bool) (generation : Z) (w : CoalescingWriter)
  : CoalescingWriter :=
  mkWriter (mkQueue (Some (mkRequest generation snapshot)) (shutdown (queue w) || closing))
    (events w) (handle w) generation (worker w) (owner w).

(** [submit] after the test of [is_finished]. *)
Definition submit_rest (snapshot : T) (w : CoalescingWriter)
  : result SubmitError Z * CoalescingWriter :=
  if next_generation w =? u64_max then (Err GenerationExhausted, w)
  else
    let generation := next_generation w + 1 in
    if shutdown (queue w) then (Err ShuttingDown, w)
    else (Ok generation, commit_request snapshot false generation w).
(** [shutdown_with] after the test of [is_finished]. *)
Definition shutdown_rest (snapshot : T) (w : CoalescingWriter)
  : result SubmitError Z * CoalescingWriter :=
  if next_generation w =? u64_max then (Err GenerationExhausted, w)
  else
    let generation := next_generation w + 1 in
    if shutdown (queue w) then (Ok (next_generation w), w)
    else (Ok generation, commit_request snapshot true generation w).

Definition request_shutdown (w : CoalescingWriter) : CoalescingWriter :=
  set_queue (mkQueue (pending (queue w)) true) w.
Definition drain_events (w : CoalescingWriter) : list PreferenceWriteEvent * CoalescingWriter :=
  (events w, mkWriter (queue w) [] (handle w) (next_generation w) (worker w) (owner w)).

(** ** The worker *)

(** A save that panics unwinds out of the loop, in builds that unwind. *)
Inductive SaveOutcome : Type := SaveOk | SaveErr (error : string) | SavePanic.

(** Taking the lock with nothing pending and no shutdown is waiting. *)
Definition worker_take (w : CoalescingWriter) : option CoalescingWriter :=
  match pending (queue w) with
  | Some request => Some (set_worker (Saving request) (set_queue (mkQueue None (shutdown (queue w))) w))
  | None => if shutdown (queue w) then Some (set_worker (Leaving Stopped) w) else None
  end.
Definition after_save (request : PreferenceRequest) (outcome : SaveOutcome) : WorkerPhase :=
  match outcome with
  | SaveOk => Sending (Saved (request_generation request))
  | SaveErr error => Sending (Failed (request_generation request) error)
  | SavePanic => Leaving Panicked
  end.

(** ** Actions and runs *)

(** What a run shows of a step: the result of a submission or a close with its
    snapshot, a call of [save], the events a drain returned. *)
Inductive Label : Type :=
| Submitted (snapshot : T) (result : result SubmitError Z)
| Closed (snapshot : T) (result : result SubmitError Z)
| SaveCalled (request : PreferenceRequest) (outcome : SaveOutcome)
| Drained (events : list PreferenceWriteEvent)
| Joined.

Inductive Action : Type :=
| BeginSubmit (snapshot : T)
| BeginClose (snapshot : T)
| Commit
| RequestShutdown
| Drain
| Join
| WorkerStep (outcome : SaveOutcome)
| WakePanics.

(** One step of the worker thread; [outcome] is used inside [save]. *)
Definition worker_step (outcome : SaveOutcome) (w : CoalescingWriter)
  : option (CoalescingWriter * list Label) :=
  match worker w with
  | Waiting => w' ← worker_take w; Some (w', [])
  | Saving request => Some (set_worker (after_save request outcome) w, [SaveCalled request outcome])
  | Sending event => Some (set_worker Waking (send event w), [])
  | Waking => Some (set_worker Waiting w, [])
  | Leaving terminal => Some (set_worker Exiting (send terminal w), [])
  | Exiting => Some (set_worker Finished w, [])
  | Finished => None
  end.
Definition commit_step (w : CoalescingWriter) : option (CoalescingWriter * list Label) :=
  match owner w with
  | Idle => None
  | Submitting snapshot =>
      let (r, w') := submit_rest snapshot w in Some (set_owner Idle w', [Submitted snapshot r])
  | Closing snapshot =>
      let (r, w') := shutdown_rest snapshot w in Some (set_owner Idle w', [Closed snapshot r])
  | Joining =>
      if negb (handle w) || worker_ended w
      then Some (mkWriter (queue w) (events w) false (next_generation w) (worker w) Idle, [Joined])
      else None
  end.
Definition act (a : Action) (w : CoalescingWriter) : option (CoalescingWriter * list Label) :=
  match a with
  | WorkerStep outcome => worker_step outcome w
  | WakePanics => match worker w with
                  | Waking => Some (set_worker (Leaving Panicked) w, [])
                  | _ => None
                  end
  | Commit => commit_step w
  | BeginSubmit snapshot =>
      match owner w with
      | Idle => if is_finished w then Some (w, [Submitted snapshot (Err WriterStopped)])
                else Some (set_owner (Submitting snapshot) w, [])
      | _ => None
      end
  | BeginClose snapshot =>
      match owner w with
      | Idle => if is_finished w then Some (w, [Closed snapshot (Err WriterStopped)])
                else Some (set_owner (Closing snapshot) w, [])
      | _ => None
      end
  | RequestShutdown => match owner w with Idle => Some (request_shutdown w, []) | _ => None end
  | Drain => match owner w with
             | Idle => let (drained, w') := drain_events w in Some (w', [Drained drained])
             | _ => None
             end
  | Join => match owner w with Idle => Some (set_owner Joining (request_shutdown w), []) | _ => None end
  end.
Fixpoint run (actions : list Action) (w : CoalescingWriter) : option (CoalescingWriter * list Label) :=
  match actions with
  | [] => Some (w, [])
  | a :: actions' =>
      step ← act a w;
      rest ← run actions' (fst step);
      Some (fst rest, snd step ++ snd rest)
  end.

(** ** The client's view *)

Record WriterStatus : Type := mkStatus {
  requested_generation : option Z;
  saved_generation : option Z;
  failed_generation : option Z;
  submission_failed : bool;
  terminal_observed : bool
}.
Definition fresh_status : WriterStatus := mkStatus None None None false false.

Definition note_submission (result : result SubmitError Z) (s : WriterStatus) : WriterStatus :=
  match result with
  | Ok generation => mkStatus (Some generation) (saved_generation s) (failed_generation s) false
                       (terminal_observed s)
  | Err _ => mkStatus (requested_generation s) (saved_generation s) (failed_generation s) true
               (terminal_observed s)
  end.
Definition acknowledged (s : WriterStatus) : bool :=
  negb (terminal_observed s) && negb (submission_failed s)
  && match failed_generation s with None => true | Some _ => false end
  && match requested_generation s with
     | None => true
     | Some requested =>
         (0 <? requested) && (requested <? u64_max)
         && match saved_generation s with
            | None => false
            | Some saved => (requested <=? saved) && (saved <? u64_max)
            end
     end.

(** The notices of [observe]; their wording is localised text. *)
Inductive Notice : Type := SavedAgain | SaveFailed (error : string) | WriterStoppedNotice.

(** One event of the loop of [observe]. *)
Definition observe_event (event : PreferenceWriteEvent) (closing : bool) (s : WriterStatus)
  : WriterStatus * list Notice :=
  match event with
  | Saved generation =>
      let saved := Some (match saved_generation s with
                         | None => generation | Some saved => Z.max saved generation end) in
      if match failed_generation s with None => false | Some failed => failed <=? generation end
      then (mkStatus (requested_generation s) saved None (submission_failed s) (terminal_observed s),
            if closing then [] else [SavedAgain])
      else (mkStatus (requested_generation s) saved (failed_generation s) (submission_failed s)
              (terminal_observed s), [])
  | Failed generation error =>
      (mkStatus (requested_generation s) (saved_generation s) (Some generation) (submission_failed s)
         (terminal_observed s),
       if closing then [] else [SaveFailed error])
  | Stopped =>
      (mkStatus (requested_generation s) (saved_generation s) (failed_generation s)
         (submission_failed s) true, [])
  | Panicked =>
      (mkStatus (requested_generation s) (saved_generation s) (failed_generation s)
         (submission_failed s) true, if closing then [] else [WriterStoppedNotice])
  end.
Fixpoint observe (events : list PreferenceWriteEvent) (closing : bool) (s : WriterStatus)
  : WriterStatus * list Notice :=
  match events with
  | [] => (s, [])
  | event :: events' =>
      let (s1, notices) := observe_event event closing s in
      let (s2, rest) := observe events' closing s1 in
      (s2, notices ++ rest)
  end.

(** The status beside a writer: every submission is noted, every drain observed
    ([submit_columns] and [drain] of preference_lifecycle.rs). *)
Definition client_step (s : WriterStatus) (label : Label) : WriterStatus :=
  match label with
  | Submitted _ r => note_submission r s
  | Drained events => fst (observe events false s)
  | Closed _ _ | SaveCalled _ _ | Joined => s
  end.
Definition client (trace : list Label) : WriterStatus := fold_left client_step trace fresh_status.

End Writer.

Arguments PreferenceRequest : clear implicits.
Arguments CoalescingWriter : clear implicits.
Arguments Label : clear implicits.
Arguments Action : clear implicits.
