(* ===== verification/PreferenceWriterCorrect.v ===== *)
(** * PreferenceWriterCorrect: what a settings writer guarantees

    One invariant of the interleavings of [PreferenceWriter] relates the state
    to the history of the run: the requests accepted, the calls of [save] and
    the events sent.  From it follow the order of saves, what [Stopped] means,
    the end of [join] and what an acknowledgement means. *)

From S2P Require Import Prelude PreferenceWriter.
#[local] Open Scope Z_scope.

Section History.
Context {T : Type}.
Implicit Types (w : CoalescingWriter T) (trace : list (Label T)) (r : PreferenceRequest T).

(** ** The history of a run *)

(** A request is accepted when a submission or a close returns a new generation. *)
Definition note_accepted (acc : list (PreferenceRequest T)) (l : Label T) : list (PreferenceRequest T) :=
  match l with
  | Submitted s (Ok g) | Closed s (Ok g) =>
      if g =? Z.of_nat (length acc) + 1 then acc ++ [mkRequest g s] else acc
  | _ => acc
  end.
Definition accepted_requests trace : list (PreferenceRequest T) := fold_left note_accepted trace [].
Definition saves trace : list (PreferenceRequest T * SaveOutcome) :=
  omap (fun l => match l with SaveCalled r o => Some (r, o) | _ => None end) trace.
Definition delivered trace : list PreferenceWriteEvent :=
  concat (map (fun l => match l with Drained es => es | _ => [] end) trace).
(** The event that reports a save; a save that panicked has none. *)
Definition report (save : PreferenceRequest T * SaveOutcome) : option PreferenceWriteEvent :=
  match save with
  | (r, SaveOk) => Some (Saved (request_generation r))
  | (r, SaveErr e) => Some (Failed (request_generation r) e)
  | (_, SavePanic) => None
  end.
Definition in_flight w : list PreferenceWriteEvent :=
  match worker w with Sending e => [e] | Leaving t => [t] | _ => [] end.
Definition busy w : list (PreferenceRequest T) :=
  match worker w with Saving r => [r] | _ => [] end.

(** ** The invariant *)

(** What the worker knew when it chose its terminal event. *)
Definition terminal_ok w (t : PreferenceWriteEvent) : Prop :=
  match t with
  | Stopped => shutdown (queue w) = true /\ pending (queue w) = None
  | Panicked => True
  | _ => False
  end.
Definition terminals_ok w (ts : list PreferenceWriteEvent) : Prop :=
  match worker w with
  | Leaving t => ts = [t] /\ terminal_ok w t
  | Exiting | Finished => exists t, ts = [t] /\ terminal_ok w t
  | _ => ts = []
  end.

Record Inv w trace : Prop := {
  inv_generation : next_generation w = Z.of_nat (length (accepted_requests trace));
  inv_bound : next_generation w <= u64_max;
  inv_generations :
    map request_generation (accepted_requests trace) = seqZ 1 (Z.of_nat (length (accepted_requests trace)));
  inv_order :
    ((saves trace).*1 ++ busy w ++ option_list (pending (queue w))) `sublist_of` accepted_requests trace;
  inv_last :
    last ((saves trace).*1 ++ busy w ++ option_list (pending (queue w))) = last (accepted_requests trace);
  inv_events : exists ts,
    delivered trace ++ events w ++ in_flight w = omap report (saves trace) ++ ts /\ terminals_ok w ts;
  inv_handle : handle w = false -> worker w = Finished
}.

Lemma accepted_snoc trace l :
  accepted_requests (trace ++ [l]) = note_accepted (accepted_requests trace) l.
Proof. unfold accepted_requests. by rewrite fold_left_app. Qed.
Lemma saves_app trace1 trace2 : saves (trace1 ++ trace2) = saves trace1 ++ saves trace2.
Proof. unfold saves. apply omap_app. Qed.
Lemma delivered_app trace1 trace2 : delivered (trace1 ++ trace2) = delivered trace1 ++ delivered trace2.
Proof. unfold delivered. by rewrite map_app, concat_app. Qed.

Lemma Inv_spawn : Inv spawn [].
Proof. split; try done. by exists []. Qed.

(** A step that accepts nothing. *)
Lemma Inv_step w w' trace ls :
  Inv w trace ->
  accepted_requests (trace ++ ls) = accepted_requests trace ->
  next_generation w' = next_generation w ->
  (saves (trace ++ ls)).*1 ++ busy w' ++ option_list (pending (queue w'))
    = (saves trace).*1 ++ busy w ++ option_list (pending (queue w)) ->
  (exists ts, delivered (trace ++ ls) ++ events w' ++ in_flight w'
              = omap report (saves (trace ++ ls)) ++ ts /\ terminals_ok w' ts) ->
  (handle w' = false -> worker w' = Finished) ->
  Inv w' (trace ++ ls).
Proof. intros [] Hacc Hnext Hsaves Hevents Hhandle. split; rewrite ?Hacc, ?Hnext, ?Hsaves; done. Qed.

(** A step that shows nothing. *)
Lemma Inv_quiet w w' trace :
  Inv w trace -> next_generation w' = next_generation w ->
  busy w' ++ option_list (pending (queue w')) = busy w ++ option_list (pending (queue w)) ->
  (exists ts, delivered trace ++ events w' ++ in_flight w' = omap report (saves trace) ++ ts
              /\ terminals_ok w' ts) ->
  (handle w' = false -> worker w' = Finished) ->
  Inv w' (trace ++ []).
Proof.
  intros HInv Hnext Hsaves Hevents Hhandle.
  apply (Inv_step w); rewrite ?app_nil_r; try done. by rewrite Hsaves.
Qed.

(** The worker that chose [Stopped] saw the shutdown, so a request cannot follow. *)
Lemma terminals_kept w w' ts :
  shutdown (queue w) = false -> worker w' = worker w -> terminals_ok w ts -> terminals_ok w' ts.
Proof.
  intros Hshut Hworker. assert (forall t, terminal_ok w t -> terminal_ok w' t) as Hkeep.
  { intros []; cbn; try done. rewrite Hshut. by intros []. }
  unfold terminals_ok. rewrite Hworker. destruct (worker w); naive_solver.
Qed.

(** A step that queues a request. *)
Lemma Inv_accept w trace closing s l :
  Inv w trace -> shutdown (queue w) = false -> next_generation w <> u64_max ->
  l = Submitted s (Ok (next_generation w + 1)) \/ l = Closed s (Ok (next_generation w + 1)) ->
  Inv (set_owner Idle (commit_request s closing (next_generation w + 1) w)) (trace ++ [l]).
Proof.
  intros [Hgen Hbound Hgens Horder Hlast (ts & Hevents & Hts) Hhandle] Hshut Hmax Hl.
  set (r := mkRequest (next_generation w + 1) s).
  assert (accepted_requests (trace ++ [l]) = accepted_requests trace ++ [r]) as Hacc.
  { rewrite accepted_snoc. destruct Hl as [-> | ->]; cbn [note_accepted]; by rewrite <-Hgen, Z.eqb_refl. }
  assert (saves (trace ++ [l]) = saves trace) as Hsaves
    by (rewrite saves_app; destruct Hl as [-> | ->]; exact (app_nil_r (saves trace))).
  assert (delivered (trace ++ [l]) = delivered trace) as Hdelivered
    by (rewrite delivered_app; destruct Hl as [-> | ->]; exact (app_nil_r (delivered trace))).
  split; rewrite ?Hacc, ?Hsaves, ?Hdelivered; cbn.
  - rewrite length_app. simpl. lia.
  - unfold u64_max in *. lia.
  - rewrite map_app, Hgens, length_app, Nat2Z.inj_add. simpl map. cbn [length].
    rewrite seqZ_app by lia. f_equal. rewrite Hgen, Z.add_comm, seqZ_cons by lia. done.
  - rewrite app_assoc. apply sublist_app; [|done].
    etrans; [|exact Horder]. rewrite app_assoc. apply sublist_inserts_r. done.
  - rewrite app_assoc. by rewrite !last_snoc.
  - exists ts. split; [done|]. by apply (terminals_kept w).
  - done.
Qed.

(** The worker thread. *)
Lemma Inv_worker w trace outcome w' ls :
  Inv w trace -> worker_step outcome w = Some (w', ls) -> Inv w' (trace ++ ls).
Proof.
  intros HInv. assert (handle w = false -> worker w = Finished) as Hhandle by by apply HInv.
  destruct (inv_events _ _ HInv) as (ts & Hevents & Hts). unfold worker_step.
  destruct w as [[pend shut] evs h next phase own]; cbn in *. unfold terminals_ok, in_flight in *. cbn in *.
  destruct phase as [|r|e| |t| |]; try discriminate;
    try (assert (h = true) as -> by (destruct h; [done|discriminate (Hhandle eq_refl)])).
  - unfold worker_take. cbn. subst ts.
    destruct pend as [r|]; [|destruct shut]; cbn; intros [= <- <-];
      apply (Inv_quiet _ _ _ HInv); try done.
    + by exists [].
    + exists [Stopped]. unfold in_flight, terminals_ok. cbn.
      rewrite app_assoc. rewrite !app_nil_r in Hevents. by rewrite Hevents.
  - intros [= <- <-]. apply (Inv_step _ _ _ _ HInv); cbn; try done.
    + by rewrite accepted_snoc.
    + rewrite saves_app, fmap_app. cbn. by destruct outcome; rewrite <-app_assoc.
    + rewrite saves_app, delivered_app, omap_app. cbn. subst ts. rewrite !app_nil_r in *.
      unfold in_flight, terminals_ok. cbn.
      destruct outcome as [|error|]; cbn; [exists []|exists []|exists [Panicked]];
        rewrite !app_nil_r, app_assoc, Hevents; done.
  - intros [= <- <-]. apply (Inv_quiet _ _ _ HInv); try done.
    exists []. unfold in_flight, terminals_ok. cbn. subst ts. by rewrite !app_nil_r in *.
  - intros [= <- <-]. apply (Inv_quiet _ _ _ HInv); try done. by exists ts.
  - intros [= <- <-]. apply (Inv_quiet _ _ _ HInv); try done.
    destruct Hts as [-> Ht]. exists [t]. unfold in_flight, terminals_ok. cbn. rewrite app_nil_r.
    split; [done|]. by exists t.
  - intros [= <- <-]. apply (Inv_quiet _ _ _ HInv); try done. by exists ts.
Qed.

(** A step of the owner that leaves the requests and the events as they are. *)
Lemma Inv_owner w w' trace ls :
  Inv w trace ->
  match ls with
  | [] => True | [l] => note_accepted (accepted_requests trace) l = accepted_requests trace | _ => False
  end ->
  saves ls = [] -> delivered ls ++ events w' = events w ->
  pending (queue w') = pending (queue w) ->
  (shutdown (queue w) = true -> shutdown (queue w') = true) ->
  worker w' = worker w -> next_generation w' = next_generation w ->
  (handle w' = false -> worker w' = Finished) -> Inv w' (trace ++ ls).
Proof.
  intros HInv Hacc Hsaves Hevents Hpending Hshut Hworker Hnext Hhandle.
  assert (busy w' = busy w) as Hbusy by (unfold busy; by rewrite Hworker).
  assert (in_flight w' = in_flight w) as Hflight by (unfold in_flight; by rewrite Hworker).
  apply (Inv_step w); rewrite ?saves_app, ?delivered_app, ?Hsaves, ?app_nil_r, ?Hbusy, ?Hpending; try done.
  - destruct ls as [|l [|? ?]]; [by rewrite app_nil_r| |done].
    by rewrite accepted_snoc.
  - destruct (inv_events _ _ HInv) as (ts & Heq & Hts). exists ts.
    rewrite <-app_assoc, (app_assoc (delivered ls)), Hevents, Hflight. split; [done|].
    assert (forall t, terminal_ok w t -> terminal_ok w' t) as Hkeep.
    { intros []; cbn; try done. rewrite Hpending. naive_solver. }
    unfold terminals_ok in *. rewrite Hworker. destruct (worker w); naive_solver.
Qed.

Lemma Inv_commit w trace w' ls :
  Inv w trace -> commit_step w = Some (w', ls) -> Inv w' (trace ++ ls).
Proof.
  intros HInv. pose proof (inv_handle _ _ HInv) as Hhandle.
  unfold commit_step, submit_rest, shutdown_rest. destruct (owner w) as [|s|s|]; [done|..].
  - destruct (Z.eqb_spec (next_generation w) u64_max); [|destruct (shutdown (queue w)) eqn:Hshut];
      intros [= <- <-]; [by apply (Inv_owner w)..|]. apply Inv_accept; auto.
  - destruct (Z.eqb_spec (next_generation w) u64_max); [|destruct (shutdown (queue w)) eqn:Hshut];
      intros [= <- <-]; [by apply (Inv_owner w)| |].
    + apply (Inv_owner w); try done. cbn. rewrite (inv_generation _ _ HInv).
      destruct (Z.eqb_spec (Z.of_nat (length (accepted_requests trace)))
        (Z.of_nat (length (accepted_requests trace)) + 1)); [lia|done].
    + apply Inv_accept; auto.
  - unfold worker_ended. destruct (negb (handle w) || _) eqn:Hended; [|done].
    intros [= <- <-]. apply (Inv_owner w); try done. intros _. cbn.
    apply orb_prop in Hended as [Hended|Hended]; [by apply Hhandle, negb_true_iff|].
    by destruct (worker w).
Qed.

Lemma Inv_act a w trace w' ls : Inv w trace -> act a w = Some (w', ls) -> Inv w' (trace ++ ls).
Proof.
  intros HInv. pose proof (inv_handle _ _ HInv) as Hhandle.
  destruct a as [s|s| | | | |o|]; cbn [act];
    try match goal with |- context [owner w] => destruct (owner w); try discriminate end.
  - destruct (is_finished w); intros [= <- <-]; by apply (Inv_owner w).
  - destruct (is_finished w); intros [= <- <-]; by apply (Inv_owner w).
  - by apply Inv_commit.
  - intros [= <- <-]. by apply (Inv_owner w).
  - intros [= <- <-]. apply (Inv_owner w); try done. cbn. by rewrite !app_nil_r.
  - intros [= <- <-]. by apply (Inv_owner w).
  - by apply Inv_worker.
  - destruct (worker w) eqn:Hworker; try done. intros [= <- <-].
    destruct (inv_events _ _ HInv) as (ts & Heq & Hts).
    apply (Inv_quiet _ _ _ HInv); try done; [by unfold busy; rewrite Hworker| |].
    + unfold in_flight, terminals_ok in *. rewrite Hworker in *. subst ts. exists [Panicked]. cbn.
      rewrite app_assoc. rewrite !app_nil_r in Heq. by rewrite Heq.
    + cbn. intros Hh. by specialize (Hhandle Hh).
Qed.
Lemma Inv_run actions : forall w trace w' ls,
  Inv w trace -> run actions w = Some (w', ls) -> Inv w' (trace ++ ls).
Proof.
  induction actions as [|a actions IH]; intros w trace w' ls HInv Hrun; cbn in Hrun.
  - simplify_eq. by rewrite app_nil_r.
  - destruct (act a w) as [[w1 ls1]|] eqn:Hact; [|done]. cbn in Hrun.
    destruct (run actions w1) as [[w2 ls2]|] eqn:Hrest; [|done]. cbn in Hrun. simplify_eq.
    rewrite app_assoc. eapply IH; [|exact Hrest]. by eapply Inv_act.
Qed.
Lemma Inv_reached actions w trace : run actions spawn = Some (w, trace) -> Inv w trace.
Proof. apply (Inv_run actions spawn []), Inv_spawn. Qed.

(** ** The terminal event *)

Lemma report_not_terminal e (svs : list (PreferenceRequest T * SaveOutcome)) : e = Stopped \/ e = Panicked -> e ∉ omap report svs.
Proof.
  intros He Hin. apply list_elem_of_omap in Hin as ([r [|error|]] & _ & Hr); simplify_eq/=; naive_solver.
Qed.

(** The worker stopped after it saw the shutdown with nothing pending. *)
Definition halted w : Prop :=
  (worker w = Exiting \/ worker w = Finished) /\ shutdown (queue w) = true /\ pending (queue w) = None.

Lemma stopped_halted w trace : Inv w trace -> Stopped ∈ delivered trace -> halted w.
Proof.
  intros HInv Hin. destruct (inv_events _ _ HInv) as (ts & Heq & Hts).
  assert (Stopped ∉ omap report (saves trace)) as Hnot by (apply report_not_terminal; auto).
  assert (Stopped ∈ omap report (saves trace) ++ ts) as Hsome by (rewrite <-Heq; set_solver).
  apply elem_of_app in Hsome as [?|Hsome]; [done|].
  unfold halted, terminals_ok, in_flight in *.
  destruct (worker w) as [|r|e| |t| |] eqn:Hworker; try (subst ts; by apply not_elem_of_nil in Hsome).
  - destruct Hts as [-> _]. rewrite app_assoc in Heq. apply app_inj_2 in Heq as [Heq _]; [|done].
    rewrite <-Heq in Hnot. set_solver.
  - destruct Hts as (t & -> & Ht). apply list_elem_of_singleton in Hsome as <-. naive_solver.
  - destruct Hts as (t & -> & Ht). apply list_elem_of_singleton in Hsome as <-. naive_solver.
Qed.
Lemma halted_last w trace : Inv w trace -> halted w -> last (saves trace).*1 = last (accepted_requests trace).
Proof.
  intros HInv (Hworker & Hshut & Hpending). rewrite <-(inv_last _ _ HInv), Hpending.
  assert (busy w = []) as -> by (unfold busy; by destruct Hworker as [-> | ->]). by rewrite !app_nil_r.
Qed.
Lemma finished_outcome w trace :
  Inv w trace -> worker w = Finished ->
  Panicked ∈ delivered trace ++ events w \/ last (saves trace).*1 = last (accepted_requests trace).
Proof.
  intros HInv Hfinished. destruct (inv_events _ _ HInv) as (ts & Heq & Hts).
  unfold in_flight, terminals_ok in *. rewrite Hfinished in *.
  destruct Hts as (t & -> & Ht). destruct t; try done; [right|left].
  - apply (halted_last w); [done|]. unfold halted. destruct Ht. auto.
  - rewrite app_nil_r in Heq. rewrite Heq. set_solver.
Qed.
(** Nothing is accepted or saved any more. *)
Lemma halted_act a w trace w' ls :
  Inv w trace -> halted w -> act a w = Some (w', ls) ->
  halted w' /\ saves ls = [] /\ accepted_requests (trace ++ ls) = accepted_requests trace.
Proof.
  intros HInv (Hworker & Hshut & Hpending). pose proof (inv_generation _ _ HInv) as Hgen.
  destruct a as [s|s| | | | |o|]; cbn [act];
    try match goal with |- context [owner w] => destruct (owner w); try discriminate end.
  - destruct (is_finished w); intros [= <- <-]; rewrite ?accepted_snoc, ?app_nil_r; done.
  - destruct (is_finished w); intros [= <- <-]; rewrite ?accepted_snoc, ?app_nil_r; done.
  - unfold commit_step, submit_rest, shutdown_rest. rewrite Hshut.
    destruct (owner w) as [|s|s|]; [done|..]; try (destruct (_ =? u64_max));
      try (destruct (_ || _)); try discriminate; intros [= <- <-]; rewrite accepted_snoc; try done.
    split_and!; [done..|]. cbn. rewrite Hgen. by destruct (Z.eqb_spec (Z.of_nat (length (accepted_requests trace)))
      (Z.of_nat (length (accepted_requests trace)) + 1)); [lia|].
  - intros [= <- <-]. by rewrite app_nil_r.
  - intros [= <- <-]. by rewrite accepted_snoc.
  - intros [= <- <-]. by rewrite app_nil_r.
  - unfold worker_step. destruct Hworker as [-> | ->]; intros [= <- <-]. rewrite app_nil_r. by repeat split; [by right|..].
  - by destruct Hworker as [-> | ->].
Qed.
Lemma halted_run actions : forall w trace w' ls,
  Inv w trace -> halted w -> run actions w = Some (w', ls) ->
  saves ls = [] /\ accepted_requests (trace ++ ls) = accepted_requests trace.
Proof.
  induction actions as [|a actions IH]; intros w trace w' ls HInv Hhalt Hrun; cbn in Hrun.
  - simplify_eq. by rewrite app_nil_r.
  - destruct (act a w) as [[w1 ls1]|] eqn:Hact; [|done]. cbn in Hrun.
    destruct (run actions w1) as [[w2 ls2]|] eqn:Hrest; [|done]. cbn in Hrun. simplify_eq.
    destruct (halted_act a w trace w1 ls1) as (Hhalt1 & Hsaves1 & Hacc1); [done..|].
    destruct (IH w1 (trace ++ ls1) w' ls2) as (Hsaves2 & Hacc2); [by eapply Inv_act|done..|].
    rewrite saves_app, Hsaves1, Hsaves2, app_assoc. split; [done|by rewrite Hacc2].
Qed.

(** ** Termination *)

(** The worker steps left once the shutdown is requested. *)
Definition steps_left w : nat :=
  let more := match pending (queue w) with Some _ => 4%nat | None => 0%nat end in
  match worker w with
  | Finished => 0 | Exiting => 1 | Leaving _ => 2
  | Waiting => 3 + more | Waking => 4 + more | Sending _ => 5 + more | Saving _ => 6 + more
  end.
Lemma worker_progress w outcome :
  shutdown (queue w) = true -> steps_left w <> 0%nat ->
  exists w' ls, worker_step outcome w = Some (w', ls) /\ (steps_left w' < steps_left w)%nat
    /\ shutdown (queue w') = true /\ owner w' = owner w.
Proof.
  unfold steps_left, worker_step. destruct w as [[pend shut] evs h next phase own]; cbn.
  intros -> Hleft. destruct phase as [|r|e| |t| |]; cbn; try done; try (by repeat eexists; simpl; lia).
  - destruct pend; cbn; repeat eexists; simpl; lia.
  - destruct outcome; cbn; repeat eexists; simpl; destruct pend; lia.
Qed.
Lemma worker_finishes outcomes : forall w,
  shutdown (queue w) = true -> (steps_left w <= length outcomes)%nat ->
  exists k w' ls, run (map WorkerStep (take k outcomes)) w = Some (w', ls)
    /\ worker w' = Finished /\ owner w' = owner w.
Proof.
  induction outcomes as [|o outcomes IH]; intros w Hshut Hleft; simpl in Hleft;
    (destruct (decide (steps_left w = 0)%nat) as [Hzero|Hsome];
     [exists 0%nat, w, []; unfold steps_left in Hzero; destruct (worker w); done|]); [lia|].
  destruct (worker_progress w o Hshut Hsome) as (w1 & ls1 & Hstep & Hless & Hshut1 & Howner1).
  destruct (IH w1 Hshut1 ltac:(lia)) as (k & w' & ls & Hrun & Hfinished & Howner).
  exists (S k), w', (ls1 ++ ls). cbn [take map run act]. rewrite Hstep. cbn. rewrite Hrun. cbn.
  by rewrite Howner.
Qed.
Lemma run_app actions1 actions2 : forall w,
  run (actions1 ++ actions2) w
  = (p ← run actions1 w; q ← run actions2 (fst p); Some (fst q, snd p ++ snd q)).
Proof.
  induction actions1 as [|a actions1 IH]; intros w; cbn.
  - by destruct (run actions2 w) as [[]|].
  - destruct (act a w) as [[w1 ls1]|]; [|done]. cbn. rewrite IH.
    destruct (run actions1 w1) as [[w2 ls2]|]; [|done]. cbn.
    destruct (run actions2 w2) as [[w3 ls3]|]; [|done]. cbn. by rewrite app_assoc.
Qed.

Lemma steps_left_bound w : (steps_left w <= 10)%nat.
Proof. unfold steps_left. destruct (pending (queue w)), (worker w); lia. Qed.
Lemma terminals_shape w ts :
  terminals_ok w ts -> (length ts <= 1)%nat /\ Forall (fun t => t = Stopped \/ t = Panicked) ts.
Proof.
  assert (forall t, terminal_ok w t -> t = Stopped \/ t = Panicked) as Hterminal by (intros []; naive_solver).
  unfold terminals_ok. destruct (worker w); intros Hts; try (subst ts; split; [simpl; lia|constructor]);
    [destruct Hts as [-> Ht]|destruct Hts as (t & -> & Ht)..];
    (split; [simpl; lia|]); apply Forall_cons; auto.
Qed.

(** ** The client *)

Lemma observe_requested es closing : forall s,
  requested_generation (fst (observe es closing s)) = requested_generation s.
Proof.
  induction es as [|e es IH]; intros s; [done|]. cbn.
  destruct (observe_event e closing s) as [s1 notices] eqn:He. specialize (IH s1).
  destruct (observe es closing s1). simpl in *. rewrite IH.
  destruct e; cbn in He; repeat case_match; by simplify_eq.
Qed.
Lemma observe_saved es closing g : forall s,
  saved_generation (fst (observe es closing s)) = Some g ->
  saved_generation s = Some g \/ Saved g ∈ es.
Proof.
  induction es as [|e es IH]; intros s; [by left|]. cbn.
  destruct (observe_event e closing s) as [s1 notices] eqn:He. specialize (IH s1).
  destruct (observe es closing s1). simpl in *. intros Hg. rewrite elem_of_cons.
  destruct (IH Hg) as [Hg1|]; [|auto].
  destruct e as [g'|g' error| |]; cbn in He; try (simplify_eq/=; by auto).
  assert (match saved_generation s with None => g' | Some saved => Z.max saved g' end = g) as Hmax
    by (repeat case_match; simplify_eq/=; congruence).
  destruct (saved_generation s) as [x|]; [|subst; auto].
  destruct (Z.max_spec x g') as [[_ Hx]|[_ Hx]]; rewrite Hx in Hmax; subst; auto.
Qed.

(** A trace without a close. *)
Definition open_trace trace : Prop :=
  Forall (fun l => match l with Closed _ _ => False | _ => True end) trace.
Definition client_ok trace : Prop :=
  requested_generation (client trace)
    = match length (accepted_requests trace) with O => None | n => Some (Z.of_nat n) end
  /\ forall g, saved_generation (client trace) = Some g -> Saved g ∈ delivered trace.

Lemma client_snoc trace l : client (trace ++ [l]) = client_step (client trace) l.
Proof. unfold client. by rewrite fold_left_app. Qed.
(** What a step may show. *)
Lemma act_label a w w' ls :
  act a w = Some (w', ls) ->
  ls = [] \/ exists l, ls = [l] /\
    match l with Submitted _ (Ok g) => g = next_generation w + 1 | _ => True end.
Proof.
  destruct a as [s|s| | | | |o|]; cbn [act];
    try match goal with |- context [owner w] => destruct (owner w); try discriminate end.
  - destruct (is_finished w); intros [= <- <-]; first [by left|by right; eexists].
  - destruct (is_finished w); intros [= <- <-]; first [by left|by right; eexists].
  - unfold commit_step, submit_rest, shutdown_rest.
    destruct (owner w); try done; repeat case_match; try discriminate; intros [= <- <-];
      right; eexists; (split; [reflexivity|]); by simplify_eq.
  - intros [= <- <-]. by left.
  - intros [= <- <-]. by right; eexists.
  - intros [= <- <-]. by left.
  - unfold worker_step, worker_take. destruct (worker w); try done;
    try (intros [= <- <-]; first [by left|by right; eexists]).
    intros H. repeat case_match; simplify_eq/=; auto.
  - destruct (worker w); try done. intros [= <- <-]. by left.
Qed.
Lemma client_act a w trace w' ls :
  Inv w trace -> client_ok trace -> act a w = Some (w', ls) -> open_trace ls -> client_ok (trace ++ ls).
Proof.
  intros HInv [Hrequested Hsaved] Hact Hopen. pose proof (inv_generation _ _ HInv) as Hgen.
  destruct (act_label _ _ _ _ Hact) as [-> |(l & -> & Hl)]; [by rewrite app_nil_r|].
  unfold open_trace in Hopen. apply Forall_cons in Hopen as [Hopen _]. unfold client_ok.
  rewrite client_snoc, accepted_snoc, delivered_app.
  destruct l as [s [g|e]|s r|r o|es|]; cbn in Hopen; try done; cbn.
  - subst g. rewrite <-Hgen, Z.eqb_refl, length_app. cbn [length]. rewrite Nat.add_1_r, Nat2Z.inj_succ.
    split; [by rewrite Hgen|]. intros g Hg. rewrite app_nil_r. by apply Hsaved.
  - rewrite app_nil_r. by split.
  - rewrite app_nil_r. by split.
  - rewrite app_nil_r, observe_requested. split; [done|]. intros g Hg.
    apply observe_saved in Hg as [Hg|Hg]; apply elem_of_app; auto.
  - rewrite app_nil_r. by split.
Qed.
Lemma client_run actions : forall w trace w' ls,
  Inv w trace -> client_ok trace -> run actions w = Some (w', ls) -> open_trace ls -> client_ok (trace ++ ls).
Proof.
  induction actions as [|a actions IH]; intros w trace w' ls HInv Hclient Hrun Hopen; cbn in Hrun.
  - simplify_eq. by rewrite app_nil_r.
  - destruct (act a w) as [[w1 ls1]|] eqn:Hact; [|done]. cbn in Hrun.
    destruct (run actions w1) as [[w2 ls2]|] eqn:Hrest; [|done]. cbn in Hrun. simplify_eq.
    apply Forall_app in Hopen as [Hopen1 Hopen2]. rewrite app_assoc.
    eapply IH; [by eapply Inv_act|by eapply client_act|done..].
Qed.
Lemma last_generation (acc : list (PreferenceRequest T)) r :
  map request_generation acc = seqZ 1 (Z.of_nat (length acc)) -> last acc = Some r ->
  request_generation r = Z.of_nat (length acc).
Proof.
  intros Hgens Hlast. rewrite last_lookup in Hlast.
  assert (map request_generation acc !! Nat.pred (length acc) = Some (request_generation r)) as Hr
    by (apply list_lookup_fmap_Some; eauto).
  rewrite Hgens in Hr. apply lookup_seqZ in Hr as [-> Hlt]. lia.
Qed.
Lemma acknowledged_saved (s : WriterStatus) g :
  requested_generation s = Some g -> acknowledged s = true ->
  exists saved, saved_generation s = Some saved /\ g <= saved.
Proof.
  unfold acknowledged. intros ->. destruct (saved_generation s) as [saved|]; intros H.
  - exists saved. split; [done|]. lia.
  - by rewrite !andb_false_r in H.
Qed.
Lemma newest_generation (acc : list (PreferenceRequest T)) r r' :
  map request_generation acc = seqZ 1 (Z.of_nat (length acc)) -> last acc = Some r ->
  r' ∈ acc -> request_generation r <= request_generation r' -> r' = r.
Proof.
  intros Hgens Hlast Hin Hle. apply last_generation in Hlast as Hgen; [|done].
  apply list_elem_of_lookup in Hin as (i & Hi).
  assert (map request_generation acc !! i = Some (request_generation r')) as Hr
    by (apply list_lookup_fmap_Some; eauto).
  rewrite Hgens in Hr. apply lookup_seqZ in Hr as [Hr Hlt]. rewrite last_lookup in Hlast.
  replace (Nat.pred (length acc)) with i in Hlast by lia. by simplify_eq.
Qed.
Lemma sublist_ends {A} (l k1 k2 : list A) x :
  NoDup (l ++ [x]) -> (k1 ++ x :: k2) `sublist_of` (l ++ [x]) -> k2 = [].
Proof.
  intros Hnodup Hsub. apply NoDup_app in Hnodup as (_ & Hfresh & _).
  apply sublist_app_r in Hsub as (m1 & m2 & Heq & Hm1 & Hm2).
  assert (length m2 <= 1)%nat as Hlen by by apply sublist_length in Hm2.
  destruct k2 as [|y k2] using rev_ind; [done|]. exfalso.
  assert (m1 = k1 ++ x :: k2 \/ m1 = k1 ++ x :: k2 ++ [y]) as Hm.
  { destruct m2 as [|z [|? ?]]; [right|left|simpl in Hlen; lia].
    - by rewrite Heq, app_nil_r.
    - rewrite app_comm_cons, app_assoc in Heq. by apply app_inj_2 in Heq as [? _]. }
  apply (Hfresh x); [|set_solver]. eapply elem_of_submseteq; [|by apply sublist_submseteq].
  destruct Hm as [-> | ->]; set_solver.
Qed.
(** A report of the newest generation is the last save. *)
Lemma newest_saved w trace r g :
  Inv w trace -> last (accepted_requests trace) = Some r ->
  Saved g ∈ delivered trace -> request_generation r <= g -> last (saves trace) = Some (r, SaveOk).
Proof.
  intros HInv Hlast Hdelivered Hle. pose proof (inv_generations _ _ HInv) as Hgens.
  destruct (inv_events _ _ HInv) as (ts & Heq & Hts).
  assert (Saved g ∈ omap report (saves trace)) as Hsaved.
  { assert (Saved g ∈ omap report (saves trace) ++ ts) as [Hin|Hin]%elem_of_app
      by (rewrite <-Heq; set_solver); [done|].
    apply terminals_shape in Hts as [_ Hts]. rewrite Forall_forall in Hts.
    by apply Hts in Hin as []. }
  apply list_elem_of_omap in Hsaved as ([r' [| |]] & Hin & Hreport); simplify_eq/=.
  apply list_elem_of_split in Hin as (l1 & l2 & Hsplit).
  assert ((l1.*1 ++ r' :: l2.*1) `sublist_of` accepted_requests trace) as Hsub.
  { etrans; [|exact (inv_order _ _ HInv)]. rewrite Hsplit, fmap_app. by apply sublist_inserts_r. }
  assert (r' = r) as ->.
  { apply (newest_generation _ _ _ Hgens Hlast); [|done]. eapply elem_of_submseteq; [|by apply sublist_submseteq].
    set_solver. }
  assert (l2 = []) as ->; [|by rewrite Hsplit, last_snoc].
  apply last_Some in Hlast as (acc & Hacc). rewrite Hacc in *.
  apply sublist_ends in Hsub; [by destruct l2|].
  apply (NoDup_fmap_1 request_generation). change (NoDup (map request_generation (acc ++ [r]))). rewrite Hgens. apply NoDup_seqZ.
Qed.
End History.

(** ** What a settings writer guarantees *)

(** Saves happen in the order of requests, each at most once.  In every
    interleaving of the user-interface thread with the worker, accepted
    requests carry the generations 1, 2, ... and never pass the largest 64-bit
    number; the calls of [save] take a subsequence of the accepted requests in
    their order; and the events sent so far are one report per finished save,
    in order, followed by at most one terminal event. *)
Theorem writer_saves_in_order {T : Type} (actions : list (Action T)) (w : CoalescingWriter T)
    (trace : list (Label T)) :
  run actions spawn = Some (w, trace) ->
  map request_generation (accepted_requests trace) = seqZ 1 (Z.of_nat (length (accepted_requests trace)))
  /\ next_generation w = Z.of_nat (length (accepted_requests trace)) /\ next_generation w <= u64_max
  /\ (saves trace).*1 `sublist_of` accepted_requests trace
  /\ exists ts, delivered trace ++ events w ++ in_flight w = omap report (saves trace) ++ ts
      /\ (length ts <= 1)%nat /\ Forall (fun t => t = Stopped \/ t = Panicked) ts.
Proof.
  intros Hrun. apply Inv_reached in Hrun as [Hgen Hbound Hgens Horder _ (ts & Hevents & Hts) _].
  split_and!; [done..| |].
  - etrans; [|exact Horder]. by apply sublist_inserts_r.
  - exists ts. split; [done|]. by apply (terminals_shape w).
Qed.

Definition mixed_run : list (Action Z) :=
  [BeginSubmit 7; Commit; WorkerStep SaveOk; WorkerStep (SaveErr "full"); BeginSubmit 8;
   Commit; WorkerStep SaveOk; BeginSubmit 9; Commit].
Definition mixed_trace : list (Label Z) :=
  [Submitted 7 (Ok 1); SaveCalled (mkRequest 1 7) (SaveErr "full"); Submitted 8 (Ok 2); Submitted 9 (Ok 3)].
Lemma writer_saves_in_order_witness :
  exists w, run mixed_run spawn = Some (w, mixed_trace)
    /\ (saves mixed_trace).*1 `sublist_of` accepted_requests mixed_trace.
Proof.
  eexists. split; [vm_compute; reflexivity|].
  eapply (writer_saves_in_order mixed_run _ mixed_trace). vm_compute. reflexivity.
Defined.

(** A writer that reports [Stopped] lost nothing.  Once the client has
    received [Stopped], the newest accepted request was handed to [save], and
    whatever happens afterwards nothing more is saved and no request is
    accepted: only superseded snapshots are ever skipped. *)
Theorem stopped_writer_is_complete {T : Type} (actions : list (Action T)) (w : CoalescingWriter T)
    (trace : list (Label T)) :
  run actions spawn = Some (w, trace) -> Stopped ∈ delivered trace ->
  last (saves trace).*1 = last (accepted_requests trace)
  /\ forall more w' ls, run more w = Some (w', ls) ->
      saves ls = [] /\ accepted_requests (trace ++ ls) = accepted_requests trace.
Proof.
  intros Hrun Hstopped. apply Inv_reached in Hrun as HInv.
  apply (stopped_halted w) in Hstopped; [|done]. split; [by apply halted_last with w|].
  intros more w' ls. by apply halted_run.
Qed.

Lemma stopped_writer_is_complete_witness :
  let requests := [BeginSubmit 7; Commit; BeginSubmit 8; Commit; RequestShutdown] in
  let actions := requests ++ repeat (WorkerStep SaveOk) 6 ++ [Drain] in
  match run actions spawn with
  | Some (w, trace) => delivered trace = [Saved 2; Stopped] /\
      last (saves trace).*1 = last (accepted_requests trace)
      /\ forall more w' ls, run more w = Some (w', ls) ->
          saves ls = [] /\ accepted_requests (trace ++ ls) = accepted_requests trace
  | None => False
  end.
Proof.
  vm_compute run. split; [reflexivity|].
  apply (stopped_writer_is_complete ([BeginSubmit 7; Commit; BeginSubmit 8; Commit; RequestShutdown]
    ++ repeat (WorkerStep SaveOk) 6 ++ [Drain])); [vm_compute; reflexivity|].
  change (Stopped ∈ [Saved 2; Stopped]). apply list_elem_of_further, list_elem_of_here.
Defined.

(** Not the unwinding of a panic, which a release build does not do. *)
Definition panic_free {T : Type} (a : Action T) : bool :=
  match a with WorkerStep SavePanic | WakePanics => false | _ => true end.
(** Without a panic there is nothing to report of one. *)
Definition no_panic {T : Type} (w : CoalescingWriter T) : Prop := Panicked ∉ events w ++ in_flight w.
Lemma act_no_panic {T : Type} (a : Action T) w w' ls :
  panic_free a = true -> no_panic w -> act a w = Some (w', ls) -> no_panic w' /\ Panicked ∉ delivered ls.
Proof.
  unfold no_panic. intros Ha Hw Hact. destruct w as [[waiting stop] ev h n wk ow], a as [t|t| | | | |outcome|];
    try done; destruct wk, ow; try destruct outcome; try done; cbn in *;
    unfold commit_step, submit_rest, shutdown_rest, worker_take in Hact; cbn in Hact;
    repeat (case_match; try done); simplify_eq/=; rewrite ?app_nil_r, ?not_elem_of_app in *; set_solver.
Qed.
Lemma run_no_panic {T : Type} (actions : list (Action T)) : forall w w' trace,
  forallb panic_free actions = true -> no_panic w -> run actions w = Some (w', trace) ->
  no_panic w' /\ Panicked ∉ delivered trace.
Proof.
  induction actions as [|a actions IH]; intros w w' trace; cbn [forallb run].
  { intros _ Hw [= <- <-]. split; [done|]. apply not_elem_of_nil. }
  intros [Ha Hall]%andb_true_iff Hw. destruct (act a w) as [[w1 ls]|] eqn:Hact; [|done]. cbn [mbind option_bind fst snd].
  destruct (run actions w1) as [[w2 rest]|] eqn:Hrest; [|done]. intros [= <- <-].
  destruct (act_no_panic _ _ _ _ Ha Hw Hact) as [Hw1 Hls]. destruct (IH _ _ _ Hall Hw1 Hrest) as [? ?].
  split; [done|]. rewrite delivered_app. set_solver.
Qed.

(** C38: [join] returns.  From any state in which the owner is between calls, [join]
    followed by at most ten steps of the worker, whatever [save] returns, ends with
    the thread finished and the handle taken.  When no step was a panic, which holds
    of every run of the release build, whose panics end the process, the newest
    accepted snapshot was handed to [save].  In builds whose panics unwind, [join]
    returns after a panic too, and then the newest accepted snapshot was handed to
    [save] or the worker reported the panic. *)
Theorem writer_join_returns {T : Type} (actions : list (Action T)) (w : CoalescingWriter T)
    (trace : list (Label T)) (outcomes : list SaveOutcome) :
  run actions spawn = Some (w, trace) -> owner w = Idle -> length outcomes = 10%nat ->
  exists k w' ls,
    run (Join :: map WorkerStep (take k outcomes) ++ [Commit]) w = Some (w', ls ++ [Joined])
    /\ is_finished w' = true /\ handle w' = false
    /\ (forallb panic_free (actions ++ map WorkerStep outcomes) = true ->
         last (saves (trace ++ ls)).*1 = last (accepted_requests (trace ++ ls)))
    /\ (Panicked ∈ delivered (trace ++ ls) ++ events w'
        \/ last (saves (trace ++ ls)).*1 = last (accepted_requests (trace ++ ls))).
Proof.
  intros Hrun Howner Hlen. apply Inv_reached in Hrun as HInv.
  destruct (worker_finishes outcomes (set_owner Joining (request_shutdown w)))
    as (k & w1 & ls1 & Hrun1 & Hfinished & Howner1); [done|rewrite Hlen; apply steps_left_bound|].
  assert (run (Join :: map WorkerStep (take k outcomes)) w = Some (w1, ls1)) as Hjoin.
  { cbn [run act]. rewrite Howner. cbn. by rewrite Hrun1. }
  assert (Inv w1 (trace ++ ls1)) as HInv1 by by eapply Inv_run.
  pose proof (finished_outcome w1 _ HInv1 Hfinished) as Hout.
  eexists k, _, ls1. split; [|split; [|split; [|split]]].
  - rewrite app_comm_cons, run_app, Hjoin. cbn. unfold commit_step, worker_ended.
    rewrite Howner1, Hfinished. cbn. rewrite orb_true_r. done.
  - done.
  - done.
  - rewrite forallb_app. intros [Ha Ho]%andb_true_iff. destruct Hout as [Hp|]; [exfalso|done].
    assert (no_panic (spawn (T:=T))) as Hspawn by apply not_elem_of_nil.
    destruct (run_no_panic _ _ _ _ Ha Hspawn Hrun) as [Hw Htrace].
    assert (forallb (panic_free (T:=T)) (Join :: map WorkerStep (take k outcomes)) = true) as Hk.
    { rewrite <-(take_drop k outcomes), map_app, forallb_app in Ho. by apply andb_true_iff in Ho as [? _]. }
    destruct (run_no_panic _ _ _ _ Hk Hw Hjoin) as [Hw1 Hls]. unfold no_panic in Hw1. rewrite delivered_app in Hp. set_solver.
  - exact Hout.
Qed.

Lemma writer_join_returns_witness :
  exists k w' ls,
    run (Join :: map WorkerStep (take k (repeat (SaveErr "disk full"%string) 10)) ++ [Commit])
      (mkWriter (mkQueue (Some (mkRequest 1 7)) false) [] true 1 Waiting Idle) = Some (w', ls ++ [Joined])
    /\ is_finished w' = true
    /\ last (saves (Submitted 7 (Ok 1) :: ls)).*1 = last (accepted_requests (Submitted 7 (Ok 1) :: ls)).
Proof.
  destruct (writer_join_returns [BeginSubmit 7; Commit]
    (mkWriter (mkQueue (Some (mkRequest 1 7)) false) [] true 1 Waiting Idle)
    [Submitted 7 (Ok 1)] (repeat (SaveErr "disk full"%string) 10) eq_refl eq_refl eq_refl)
    as (k & w' & ls & Hrun & Hfin & _ & Hlast & _).
  exists k, w', ls. split; [assumption|]. split; [assumption|]. exact (Hlast eq_refl).
Defined.

(** C37: an acknowledgement means the newest snapshot is saved.  While no close
    was requested, a client whose status is [acknowledged] has either submitted
    nothing, and then nothing was ever saved, or the last call of [save] was
    for its newest accepted request and succeeded. *)
Theorem acknowledged_snapshot_saved {T : Type} (actions : list (Action T)) (w : CoalescingWriter T)
    (trace : list (Label T)) :
  run actions spawn = Some (w, trace) -> open_trace trace -> acknowledged (client trace) = true ->
  match last (accepted_requests trace) with
  | None => saves trace = []
  | Some r => last (saves trace) = Some (r, SaveOk)
              /\ requested_generation (client trace) = Some (request_generation r)
  end.
Proof.
  intros Hrun Hopen Hack. apply Inv_reached in Hrun as HInv.
  assert (client_ok trace) as [Hrequested Hsaved]
    by by apply (client_run actions spawn [] w trace Inv_spawn).
  destruct (last (accepted_requests trace)) as [r|] eqn:Hlast.
  - apply last_generation in Hlast as Hgen; [|by apply (inv_generations w)].
    assert (requested_generation (client trace) = Some (request_generation r)) as Hrequest.
    { rewrite Hrequested, Hgen. destruct (accepted_requests trace) using rev_ind; [done|].
      rewrite length_app. by rewrite Nat.add_1_r. }
    split; [|done]. apply (acknowledged_saved _ _ Hrequest) in Hack as (g & Hg & Hle).
    by eapply newest_saved; eauto.
  - apply last_None in Hlast. pose proof (inv_order _ _ HInv) as Horder.
    rewrite Hlast in Horder. apply sublist_nil_r in Horder. by destruct (saves trace).
Qed.
Definition saved_twice : list (Action Z) :=
  [BeginSubmit 7; Commit; BeginSubmit 8; Commit] ++ repeat (WorkerStep SaveOk) 4 ++ [Drain].
Definition saved_twice_trace : list (Label Z) :=
  [Submitted 7 (Ok 1); Submitted 8 (Ok 2); SaveCalled (mkRequest 2 8) SaveOk; Drained [Saved 2]].
Lemma acknowledged_snapshot_saved_witness :
  exists w, run saved_twice spawn = Some (w, saved_twice_trace)
    /\ last (saves saved_twice_trace) = Some (mkRequest 2 8, SaveOk).
Proof.
  eexists. split; [vm_compute; reflexivity|].
  refine (proj1 (_ : last (saves saved_twice_trace) = Some (mkRequest 2 8, SaveOk)
    /\ requested_generation (client saved_twice_trace) = Some 2)).
  eapply (acknowledged_snapshot_saved saved_twice _ saved_twice_trace).
  - vm_compute. reflexivity.
  - repeat constructor.
  - vm_compute. reflexivity.
Defined.
