(* ===== verification/ApplyProgress.v ===== *)
(** * ApplyProgress: coalesced progress of a running apply

    [ApplyProgress] of [crates/darknamer-app/src/apply_progress.rs], with the
    publisher ([WorkerProgress::publish] of windows/worker.rs) that posts one
    wake per coalesced batch and the window that takes the update for each wake
    it handles, or for reasons of its own.  The actions of [progress_step] are
    the sections under the lock and the message operations; a list of actions
    in any order is an interleaving of the two threads.  A posted message is
    assumed to arrive. *)

From S2P Require Import Prelude Schedule.

Record ProgressState : Type := mkProgressState {
  progress_snapshot : ExecutionProgress;
  wake_pending : bool
}.
Definition new_progress : ProgressState := mkProgressState (mkProgress PhaseReady 0 0) false.

(** [publish]: the flag says whether the caller must post a wake. *)
Definition publish (snapshot : ExecutionProgress) (s : ProgressState) : bool * ProgressState :=
  (negb (wake_pending s), mkProgressState snapshot true).
Definition take_update (s : ProgressState) : ExecutionProgress * ProgressState :=
  (progress_snapshot s, mkProgressState (progress_snapshot s) false).
Definition is_finishing (s : ProgressState) : bool :=
  match phase (progress_snapshot s) with
  | PhaseRollback | PhaseFinalizing | PhaseTerminal => true
  | _ => false
  end.

(** ** The publisher and the window *)

Record ProgressSystem : Type := mkSystem {
  shared : ProgressState;
  must_post : bool;
  mailbox : nat;
  handling : bool;
  shown : ExecutionProgress
}.
Definition new_system : ProgressSystem :=
  mkSystem new_progress false 0 false (progress_snapshot new_progress).

Inductive ProgressAction : Type :=
| Publish (snapshot : ExecutionProgress)
| PostWake
| ReceiveWake
| TakeUpdate.

Definition progress_step (a : ProgressAction) (s : ProgressSystem) : option ProgressSystem :=
  match a with
  | Publish snapshot =>
      if must_post s then None
      else
        let (wake, state) := publish snapshot (shared s) in
        Some (mkSystem state wake (mailbox s) (handling s) (shown s))
  | PostWake =>
      if must_post s then Some (mkSystem (shared s) false (S (mailbox s)) (handling s) (shown s)) else None
  | ReceiveWake =>
      match handling s, mailbox s with
      | false, S rest => Some (mkSystem (shared s) (must_post s) rest true (shown s))
      | _, _ => None
      end
  | TakeUpdate =>
      let (snapshot, state) := take_update (shared s) in
      Some (mkSystem state (must_post s) (mailbox s) false snapshot)
  end.
Fixpoint progress_run (actions : list ProgressAction) (s : ProgressSystem) : option ProgressSystem :=
  match actions with
  | [] => Some s
  | a :: actions' => s' ← progress_step a s; progress_run actions' s'
  end.
Definition last_published (actions : list ProgressAction) : ExecutionProgress :=
  fold_left (fun p a => match a with Publish snapshot => snapshot | _ => p end) actions
    (progress_snapshot new_progress).

(** Nothing is under way: no wake to post, to receive or to handle. *)
Definition quiet (s : ProgressSystem) : bool :=
  negb (must_post s) && (mailbox s =? 0)%nat && negb (handling s).

Definition progress_inv (actions : list ProgressAction) (s : ProgressSystem) : Prop :=
  progress_snapshot (shared s) = last_published actions
  /\ (wake_pending (shared s) = true -> quiet s = false)
  /\ (wake_pending (shared s) = false -> shown s = last_published actions).

Lemma last_published_snoc actions a :
  last_published (actions ++ [a])
  = match a with Publish snapshot => snapshot | _ => last_published actions end.
Proof. unfold last_published. by rewrite fold_left_app. Qed.
Lemma progress_step_inv actions a s s' :
  progress_inv actions s -> progress_step a s = Some s' -> progress_inv (actions ++ [a]) s'.
Proof.
  intros (Hsnap & Hwake & Hshown). unfold progress_inv. rewrite last_published_snoc.
  destruct s as [[snap wp] post box hand sh], a as [p| | |]; cbn in *; unfold quiet in *; cbn in *.
  - destruct post; [done|]. intros [= <-]. cbn. split_and!; [done| |done].
    intros _. destruct wp; cbn; [by apply Hwake|done].
  - destruct post; [|done]. intros [= <-]. done.
  - destruct hand, box; try done. intros [= <-]. cbn. split_and!; [done| |done].
    intros _. by rewrite andb_false_r.
  - intros [= <-]. done.
Qed.
Lemma progress_run_inv actions : forall done_ s s',
  progress_inv done_ s -> progress_run actions s = Some s' -> progress_inv (done_ ++ actions) s'.
Proof.
  induction actions as [|a actions IH]; intros past s s' Hinv Hrun; cbn in Hrun.
  - simplify_eq. by rewrite app_nil_r.
  - destruct (progress_step a s) as [s1|] eqn:Hstep; [|done]. cbn in Hrun.
    rewrite cons_middle, app_assoc. eapply IH; [|exact Hrun]. by eapply progress_step_inv.
Qed.

Lemma quiet_shows actions s : progress_inv actions s -> quiet s = true -> shown s = last_published actions.
Proof.
  intros (_ & Hwake & Hshown) Hquiet. destruct (wake_pending (shared s)); [|by apply Hshown].
  by rewrite Hwake in Hquiet.
Qed.
Lemma last_published_silent actions more :
  Forall (fun a => match a with Publish _ => False | _ => True end) more ->
  last_published (actions ++ more) = last_published actions.
Proof.
  unfold last_published. rewrite fold_left_app. generalize (fold_left
    (fun p a => match a with Publish snapshot => snapshot | _ => p end) actions (progress_snapshot new_progress)).
  induction 1 as [|[] more Ha Hmore IH]; cbn; done.
Qed.
(** The wakes under way can always be handled. *)
Lemma progress_drains box : forall s,
  must_post s = false -> handling s = false -> mailbox s = box ->
  exists s', progress_run (concat (repeat [ReceiveWake; TakeUpdate] box)) s = Some s' /\ quiet s' = true.
Proof.
  induction box as [|box IH]; intros [shared post mail hand shown]; cbn; intros -> -> ->.
  - eexists. split; [reflexivity|done].
  - cbn. by apply IH.
Qed.
Lemma progress_settles s :
  exists more s', progress_run more s = Some s' /\ quiet s' = true
    /\ Forall (fun a => match a with Publish _ => False | _ => True end) more.
Proof.
  assert (forall n, Forall (fun a => match a with Publish _ => False | _ => True end)
            (concat (repeat [ReceiveWake; TakeUpdate] n))) as Hsilent.
  { induction n as [|n IH]; cbn; [constructor|]. by repeat apply Forall_cons_2. }
  destruct s as [[snap wp] post box hand shown].
  assert (forall n, exists s', progress_run (concat (repeat [ReceiveWake; TakeUpdate] n))
            (mkSystem (mkProgressState snap false) false n false snap) = Some s' /\ quiet s' = true) as Hdrain
    by (intros n; by apply (progress_drains n)).
  destruct post; [destruct (Hdrain (S box)) as (s' & Hrun & Hquiet)|destruct (Hdrain box) as (s' & Hrun & Hquiet)].
  - exists (PostWake :: TakeUpdate :: concat (repeat [ReceiveWake; TakeUpdate] (S box))), s'.
    split_and!; [exact Hrun|done|]. by repeat apply Forall_cons_2.
  - exists (TakeUpdate :: concat (repeat [ReceiveWake; TakeUpdate] box)), s'.
    split_and!; [exact Hrun|done|]. by apply Forall_cons_2.
Qed.

(** No progress is lost to coalescing.  In every interleaving of the
    executing thread with the window, whenever no wake is waiting to be posted,
    received or handled, the window shows the last published progress; and from
    every state the threads can reach such a state without publishing again. *)
Theorem progress_never_lost (actions : list ProgressAction) (s : ProgressSystem) :
  progress_run actions new_system = Some s ->
  (quiet s = true -> shown s = last_published actions)
  /\ exists more s', progress_run more s = Some s' /\ quiet s' = true
      /\ shown s' = last_published actions.
Proof.
  intros Hrun. assert (progress_inv actions s) as Hinv
    by by apply (progress_run_inv actions [] new_system).
  split; [by apply quiet_shows|]. destruct (progress_settles s) as (more & s' & Hmore & Hquiet & Hsilent).
  exists more, s'. split_and!; [done|done|].
  rewrite <-(last_published_silent actions more) by done.
  apply quiet_shows; [|done]. by eapply progress_run_inv.
Qed.
Lemma progress_never_lost_witness :
  exists s, progress_run [Publish (mkProgress PhaseForward 1 3); TakeUpdate; PostWake;
      Publish (mkProgress PhaseForward 2 3); PostWake; ReceiveWake; TakeUpdate; ReceiveWake; TakeUpdate]
      new_system = Some s
    /\ shown s = mkProgress PhaseForward 2 3.
Proof.
  eexists. split; [vm_compute; reflexivity|].
  eapply (progress_never_lost [Publish (mkProgress PhaseForward 1 3); TakeUpdate; PostWake;
    Publish (mkProgress PhaseForward 2 3); PostWake; ReceiveWake; TakeUpdate; ReceiveWake; TakeUpdate]);
    vm_compute; reflexivity.
Defined.
