(* ===== verification/IconRequests.v ===== *)
(** * IconRequests: bounded slots of shell-icon requests

    [crates/darknamer-app/src/icon_requests.rs]: the state behind the icon
    worker, at most 64 unique requests queued, in flight or awaiting the user
    interface.  Keys and results are parameters; a run is a list of calls with
    what they returned. *)

From S2P Require Import Prelude.
#[local] Open Scope Z_scope.

Definition MAX_PENDING_ICON_REQUESTS : nat := 64.

Section IconRequests.
Context {K R : Type} `{EqDecision K}.

(** ** State *)

Inductive RequestKey : Type := Bootstrap | Class_ (key : K).
#[export] Instance RequestKey_eq_dec : EqDecision RequestKey.
Proof. solve_decision. Defined.

Record RequestToken : Type := mkToken { token_session : Z; token_generation : Z; serial : Z }.
#[export] Instance RequestToken_eq_dec : EqDecision RequestToken.
Proof. solve_decision. Defined.

Record Request : Type := mkIconRequest { token : RequestToken; request_key : RequestKey }.
Record Completion : Type := mkCompletion { request : Request; completion_result : R }.

Inductive SubmitDisposition : Type :=
| Queued | Coalesced | DeferredStaleInFlight | Saturated | IdentifierExhausted | Retired.
Inductive CompletionDisposition : Type := Published | Discarded | Unexpected.

Record IconRequests : Type := mkIconRequests {
  session : Z;
  generation : Z;
  next_serial : Z;
  queued : list Request;
  in_flight : option Request;
  completed : list Completion;
  retired : bool
}.

(** ** Operations *)

Definition new (session_ : Z) : IconRequests := mkIconRequests session_ 0 0 [] None [] false.

Definition in_flight_count (s : IconRequests) : nat :=
  match in_flight s with Some _ => 1 | None => 0 end.
Definition pending_count (s : IconRequests) : nat :=
  length (queued s) + in_flight_count s + length (completed s).

(** The rest of [submit] once no slot holds the key in flight. *)
Definition submit_slot (key : RequestKey) (s : IconRequests) : SubmitDisposition * IconRequests :=
  if existsb (fun r => bool_decide (request_key r = key)) (queued s)
     || existsb (fun c => bool_decide (request_key (request c) = key)) (completed s)
  then (Coalesced, s)
  else if (pending_count s =? MAX_PENDING_ICON_REQUESTS)%nat then (Saturated, s)
  else if next_serial s =? u64_max then (IdentifierExhausted, s)
  else
    let serial := next_serial s + 1 in
    (Queued,
     mkIconRequests (session s) (generation s) serial
       (queued s ++ [mkIconRequest (mkToken (session s) (generation s) serial) key])
       (in_flight s) (completed s) (retired s)).
Definition submit (key : RequestKey) (s : IconRequests) : SubmitDisposition * IconRequests :=
  if retired s then (Retired, s)
  else
    match in_flight s with
    | Some r =>
        if bool_decide (request_key r = key)
        then (if token_generation (token r) =? generation s then Coalesced else DeferredStaleInFlight, s)
        else submit_slot key s
    | None => submit_slot key s
    end.

Definition take_next (s : IconRequests) : option Request * IconRequests :=
  if retired s then (None, s)
  else
    match in_flight s, queued s with
    | None, r :: rest =>
        (Some r, mkIconRequests (session s) (generation s) (next_serial s) rest (Some r) (completed s)
                   (retired s))
    | _, _ => (None, s)
    end.

Definition complete (token_ : RequestToken) (result : R) (s : IconRequests)
  : CompletionDisposition * IconRequests :=
  match in_flight s with
  | Some r =>
      if bool_decide (token r = token_) then
        if retired s || negb (token_generation (token r) =? generation s)
        then (Discarded, mkIconRequests (session s) (generation s) (next_serial s) (queued s) None
                           (completed s) (retired s))
        else (Published, mkIconRequests (session s) (generation s) (next_serial s) (queued s) None
                           (completed s ++ [mkCompletion r result]) (retired s))
      else (Unexpected, s)
  | None => (Unexpected, s)
  end.

Definition completed_snapshot (s : IconRequests) : list Completion := completed s.
Definition acknowledge_completions (count : nat) (s : IconRequests) : nat * IconRequests :=
  let acknowledged := Nat.min count (length (completed s)) in
  (acknowledged,
   mkIconRequests (session s) (generation s) (next_serial s) (queued s) (in_flight s)
     (drop acknowledged (completed s)) (retired s)).

Definition retire (s : IconRequests) : IconRequests :=
  mkIconRequests (session s) (generation s) (next_serial s) [] (in_flight s) [] true.
Definition advance_generation (s : IconRequests) : bool * IconRequests :=
  if retired s then (false, s)
  else if generation s =? u64_max then (false, retire s)
  else (true, mkIconRequests (session s) (generation s + 1) (next_serial s) [] (in_flight s) [] (retired s)).

(** ** Runs *)

Inductive Call : Type :=
| Submit (key : RequestKey)
| TakeNext
| Complete (token_ : RequestToken) (result : R)
| Acknowledge (count : nat)
| AdvanceGeneration
| Retire.
(** What a call shows: a request dispatched to the worker, a result published,
    results the user interface consumed. *)
Inductive Outcome : Type :=
| Submitted_ (key : RequestKey) (disposition : SubmitDisposition)
| Dispatched (r : Request)
| Reported (token_ : RequestToken) (disposition : CompletionDisposition)
| Consumed (completions : list Completion)
| Quiet.

Definition call (c : Call) (s : IconRequests) : Outcome * IconRequests :=
  match c with
  | Submit key => let (d, s') := submit key s in (Submitted_ key d, s')
  | TakeNext => let (r, s') := take_next s in
                (match r with Some r => Dispatched r | None => Quiet end, s')
  | Complete token_ result => let (d, s') := complete token_ result s in (Reported token_ d, s')
  | Acknowledge count =>
      let (n, s') := acknowledge_completions count s in (Consumed (take n (completed s)), s')
  | AdvanceGeneration => let (_, s') := advance_generation s in (Quiet, s')
  | Retire => (Quiet, retire s)
  end.
Fixpoint calls (cs : list Call) (s : IconRequests) : list Outcome * IconRequests :=
  match cs with
  | [] => ([], s)
  | c :: cs' =>
      let (o, s1) := call c s in
      let (os, s2) := calls cs' s1 in
      (o :: os, s2)
  end.

(** ** The invariant of the slots *)

(** The occupied slots, oldest request first. *)
Definition slots (s : IconRequests) : list Request :=
  map request (completed s) ++ option_list (in_flight s) ++ queued s.
Definition request_serial (r : Request) : Z := serial (token r).

Record SlotsInv (s : IconRequests) : Prop := {
  slots_bound : (length (slots s) <= MAX_PENDING_ICON_REQUESTS)%nat;
  slots_keys : NoDup (map request_key (slots s));
  slots_serials : map request_serial (slots s) `sublist_of` seqZ 1 (next_serial s);
  slots_serial_bound : 0 <= next_serial s <= u64_max;
  slots_generation_bound : 0 <= generation s <= u64_max;
  slots_current :
    Forall (fun r => token_generation (token r) = generation s) (map request (completed s) ++ queued s);
  slots_retired : retired s = true -> completed s = [] /\ queued s = []
}.

Lemma pending_count_slots s : pending_count s = length (slots s).
Proof.
  unfold pending_count, in_flight_count, slots. rewrite !length_app, length_map.
  destruct (in_flight s); simpl; lia.
Qed.
Lemma sublist_map {A B} (f : A -> B) l k : l `sublist_of` k -> map f l `sublist_of` map f k.
Proof. induction 1; simpl; by constructor. Qed.

(** Calls that only free slots. *)
Lemma SlotsInv_shrink s s' :
  SlotsInv s -> slots s' `sublist_of` slots s -> next_serial s' = next_serial s ->
  0 <= generation s' <= u64_max ->
  Forall (fun r => token_generation (token r) = generation s') (map request (completed s') ++ queued s') ->
  (retired s' = true -> completed s' = [] /\ queued s' = []) -> SlotsInv s'.
Proof.
  intros [Hbound Hkeys Hserials Hserial Hgen Hcurrent Hretired] Hsub Hnext Hgen' Hcurrent' Hretired'.
  split; rewrite ?Hnext; try done.
  - apply sublist_length in Hsub. lia.
  - eapply sublist_NoDup; [exact Hkeys|]. by apply sublist_map.
  - etrans; [|exact Hserials]. by apply sublist_map.
Qed.

(** A key that no test of [submit] found holds no slot. *)
Lemma free_key key s :
  existsb (fun r => bool_decide (request_key r = key)) (queued s) = false ->
  existsb (fun c => bool_decide (request_key (request c) = key)) (completed s) = false ->
  (forall r, in_flight s = Some r -> request_key r <> key) -> key ∉ map request_key (slots s).
Proof.
  intros Hqueued Hcompleted Hflight Hin. apply list_elem_of_fmap in Hin as (r & -> & Hr).
  unfold slots in Hr. rewrite !elem_of_app in Hr. destruct Hr as [Hr|[Hr|Hr]].
  - apply list_elem_of_fmap in Hr as (c & -> & Hc). apply not_true_iff_false in Hcompleted.
    apply Hcompleted, existsb_exists. exists c. split; [by apply list_elem_of_In|by apply bool_decide_eq_true].
  - destruct (in_flight s) as [r'|]; [|by apply not_elem_of_nil in Hr].
    apply list_elem_of_singleton in Hr as ->. by apply (Hflight r').
  - apply not_true_iff_false in Hqueued. apply Hqueued, existsb_exists.
    exists r. split; [by apply list_elem_of_In|by apply bool_decide_eq_true].
Qed.
Lemma submit_slot_inv key s :
  SlotsInv s -> retired s = false -> (forall r, in_flight s = Some r -> request_key r <> key) ->
  SlotsInv (snd (submit_slot key s)).
Proof.
  intros HInv Hlive Hfree. unfold submit_slot.
  destruct (_ || _) eqn:Hheld; [done|]. destruct (Nat.eqb_spec (pending_count s) MAX_PENDING_ICON_REQUESTS); [done|].
  destruct (Z.eqb_spec (next_serial s) u64_max); [done|]. apply orb_false_elim in Hheld as [Hqueued Hcompleted].
  destruct HInv as [Hbound Hkeys Hserials Hserial Hgen Hcurrent Hretired].
  rewrite pending_count_slots in *.
  set (r := mkIconRequest _ key). match goal with |- SlotsInv ?x => set (s' := x) end.
  assert (slots s' = slots s ++ [r]) as Hslots by (unfold slots; cbn; by rewrite !app_assoc).
  cbn [snd]. split; rewrite ?Hslots.
  - rewrite length_app. simpl. lia.
  - rewrite map_app. apply NoDup_app. split_and!; [done| |apply NoDup_singleton].
    intros k Hin ->%list_elem_of_singleton. by apply (free_key key s).
  - rewrite map_app. cbn. replace (next_serial s + 1) with (next_serial s + Z.of_nat 1) by done.
    rewrite seqZ_app by lia. apply sublist_app; [done|]. rewrite Z.add_comm. by rewrite seqZ_cons by lia.
  - cbn. unfold u64_max in *. lia.
  - done.
  - cbn. rewrite app_assoc. apply Forall_app. split; [done|]. by repeat constructor.
  - cbn. by rewrite Hlive.
Qed.
Lemma submit_inv key s : SlotsInv s -> SlotsInv (snd (submit key s)).
Proof.
  intros HInv. unfold submit. destruct (retired s) eqn:Hlive; [done|].
  destruct (in_flight s) as [r|] eqn:Hflight.
  - destruct (bool_decide_reflect (request_key r = key)); [done|].
    apply submit_slot_inv; [done..|]. intros r' Hr'. rewrite Hflight in Hr'. by simplify_eq.
  - apply submit_slot_inv; [done..|]. intros r' Hr'. by rewrite Hflight in Hr'.
Qed.
Lemma take_next_inv s : SlotsInv s -> SlotsInv (snd (take_next s)).
Proof.
  intros HInv. unfold take_next. destruct (retired s) eqn:Hlive; [done|].
  destruct (in_flight s) eqn:Hflight; [done|]. destruct (queued s) as [|r rest] eqn:Hqueued; [done|].
  apply (SlotsInv_shrink s); try done; [|apply HInv|].
  - unfold slots. cbn. by rewrite Hflight, Hqueued.
  - cbn. pose proof (slots_current _ HInv) as Hcurrent. rewrite Hqueued in Hcurrent.
    apply Forall_app in Hcurrent as [Hcompleted Hrest]. apply Forall_app. split; [done|].
    by apply Forall_cons in Hrest as [_ Hrest].
Qed.
Lemma complete_inv token_ result s : SlotsInv s -> SlotsInv (snd (complete token_ result s)).
Proof.
  intros HInv. unfold complete. destruct (in_flight s) as [r|] eqn:Hflight; [|done].
  destruct (bool_decide _); [|done]. pose proof (slots_current _ HInv) as Hcurrent.
  destruct (retired s || _) eqn:Hstale.
  - apply (SlotsInv_shrink s); try done; [|apply HInv|apply HInv].
    unfold slots. cbn. rewrite Hflight. apply sublist_app; [done|]. by apply sublist_inserts_l.
  - apply orb_false_elim in Hstale as [Hlive Hgen]. apply negb_false_iff, Z.eqb_eq in Hgen.
    apply (SlotsInv_shrink s); try done; [|apply HInv| |].
    + unfold slots. cbn. by rewrite Hflight, map_app, <-app_assoc.
    + cbn. rewrite map_app, <-app_assoc. apply Forall_app in Hcurrent as [? ?].
      apply Forall_app. split; [done|]. by apply Forall_cons_2.
    + cbn. by rewrite Hlive.
Qed.
Lemma acknowledge_inv n s : SlotsInv s -> SlotsInv (snd (acknowledge_completions n s)).
Proof.
  intros HInv. unfold acknowledge_completions. cbn. pose proof (slots_current _ HInv) as Hcurrent.
  apply Forall_app in Hcurrent as [Hcompleted Hqueued].
  apply (SlotsInv_shrink s); try done; [|apply HInv| |]; cbn.
  - unfold slots. cbn. apply sublist_app; [|done]. apply sublist_map, sublist_drop.
  - rewrite <-skipn_map. apply Forall_app. split; [by apply Forall_drop|done].
  - intros Hretired. apply (slots_retired _ HInv) in Hretired as [-> ->]. by rewrite drop_nil.
Qed.
Lemma cleared_inv s s' :
  SlotsInv s -> completed s' = [] -> queued s' = [] -> in_flight s' = in_flight s ->
  next_serial s' = next_serial s -> 0 <= generation s' <= u64_max -> SlotsInv s'.
Proof.
  intros HInv Hcompleted Hqueued Hflight Hnext Hgen. apply (SlotsInv_shrink s); try done.
  - unfold slots. rewrite Hcompleted, Hqueued, Hflight. cbn.
    apply sublist_inserts_l, sublist_app; [done|apply sublist_nil_l].
  - rewrite Hcompleted, Hqueued. constructor.
Qed.
Lemma call_inv c s : SlotsInv s -> SlotsInv (snd (call c s)).
Proof.
  intros HInv. pose proof (slots_generation_bound _ HInv) as Hgen. destruct c as [key| |t r|n| |]; cbn.
  - pose proof (submit_inv key s HInv). by destruct (submit key s).
  - pose proof (take_next_inv s HInv). by destruct (take_next s).
  - pose proof (complete_inv t r s HInv). by destruct (complete t r s).
  - exact (acknowledge_inv n s HInv).
  - unfold advance_generation. destruct (retired s); [done|].
    destruct (Z.eqb_spec (generation s) u64_max); cbn; apply (cleared_inv s); try done. cbn. lia.
  - by apply (cleared_inv s).
Qed.
Lemma new_inv session_ : SlotsInv (new session_).
Proof. split; cbn; try done; try (unfold u64_max; lia); constructor. Qed.
Lemma calls_inv cs : forall s, SlotsInv s -> SlotsInv (snd (calls cs s)).
Proof.
  induction cs as [|c cs IH]; intros s HInv; [done|]. cbn. pose proof (call_inv c s HInv) as Hcall.
  destruct (call c s) as [o s1]. specialize (IH s1 Hcall). by destruct (calls cs s1).
Qed.

(** ** History *)

Definition dispatched (os : list Outcome) : list RequestToken :=
  omap (fun o => match o with Dispatched r => Some (token r) | _ => None end) os.
(** A report that matched the call in flight, published or discarded. *)
Definition answered (os : list Outcome) : list RequestToken :=
  omap (fun o => match o with Reported t Published | Reported t Discarded => Some t | _ => None end) os.
Definition published (os : list Outcome) : list RequestToken :=
  omap (fun o => match o with Reported t Published => Some t | _ => None end) os.
Definition consumed (os : list Outcome) : list RequestToken :=
  concat (map (fun o => match o with
                        | Consumed cs => map (fun c => token (request c)) cs | _ => [] end) os).

Record HistoryInv (os : list Outcome) (s : IconRequests) : Prop := {
  history_answered : answered os ++ option_list (token <$> in_flight s) = dispatched os;
  history_serials :
    (map serial (dispatched os) ++ map request_serial (queued s)) `sublist_of` seqZ 1 (next_serial s);
  history_published : published os `sublist_of` answered os;
  history_consumed :
    (consumed os ++ map (fun c => token (request c)) (completed s)) `sublist_of` published os
}.

Lemma history_app os1 os2 :
  dispatched (os1 ++ os2) = dispatched os1 ++ dispatched os2
  /\ answered (os1 ++ os2) = answered os1 ++ answered os2
  /\ published (os1 ++ os2) = published os1 ++ published os2
  /\ consumed (os1 ++ os2) = consumed os1 ++ consumed os2.
Proof. unfold dispatched, answered, published, consumed. by rewrite !omap_app, map_app, concat_app. Qed.
(** A step that dispatches and answers nothing: it queues, drops or hands over. *)
Lemma history_silent os o s s' :
  HistoryInv os s -> dispatched [o] = [] -> answered [o] = [] -> published [o] = [] ->
  in_flight s' = in_flight s ->
  (map serial (dispatched os) ++ map request_serial (queued s')) `sublist_of` seqZ 1 (next_serial s') ->
  (consumed [o] ++ map (fun c => token (request c)) (completed s'))
    `sublist_of` map (fun c => token (request c)) (completed s) ->
  HistoryInv (os ++ [o]) s'.
Proof.
  intros [Hanswered Hserials Hpublished Hconsumed] Hd Ha Hp Hflight Hserials' Hconsumed'.
  destruct (history_app os [o]) as (Hd' & Ha' & Hp' & Hc').
  split; rewrite ?Hd', ?Ha', ?Hp', ?Hc', ?Hd, ?Ha, ?Hp, ?Hflight, ?app_nil_r; try done.
  rewrite <-app_assoc. etrans; [|exact Hconsumed]. by apply sublist_app.
Qed.

Lemma submit_history os key s :
  HistoryInv os s -> SlotsInv s -> HistoryInv (os ++ [fst (call (Submit key) s)]) (snd (call (Submit key) s)).
Proof.
  intros HH HInv.
  assert (forall o s', dispatched [o] = [] -> answered [o] = [] -> published [o] = [] -> consumed [o] = [] ->
    s' = s \/ (exists r, queued s' = queued s ++ [r] /\ request_serial r = next_serial s + 1
              /\ next_serial s' = next_serial s + 1 /\ in_flight s' = in_flight s
              /\ completed s' = completed s) -> HistoryInv (os ++ [o]) s') as Hstep.
  { intros o s' Hd Ha Hp Hc [->|(r & Hq & Hr & Hn & Hf & Hcompleted)]; apply (history_silent _ _ s);
      rewrite ?Hc, ?Hcompleted; try done; [apply HH|].
    rewrite Hq, Hn, map_app, app_assoc. pose proof (slots_serial_bound _ HInv).
    rewrite seqZ_app by lia. apply sublist_app; [apply HH|]. cbn. rewrite Hr, Z.add_comm.
    by rewrite seqZ_cons by lia. }
  cbn. unfold submit, submit_slot. destruct (retired s); [by apply Hstep; auto|].
  destruct (in_flight s) as [r|]; [destruct (bool_decide _); [by apply Hstep; auto|]|];
    (destruct (_ || _); [by apply Hstep; auto|]);
    (destruct (_ =? _)%nat; [by apply Hstep; auto|]);
    (destruct (_ =? u64_max); [by apply Hstep; auto|]);
    apply Hstep; try done; right; eexists; cbn; done.
Qed.
Lemma take_next_history os s :
  HistoryInv os s -> HistoryInv (os ++ [fst (call TakeNext s)]) (snd (call TakeNext s)).
Proof.
  intros HH. assert (HistoryInv (os ++ [Quiet]) s) as Hquiet.
  { apply (history_silent _ _ s); try done. apply HH. }
  cbn. unfold take_next. destruct (retired s); [done|].
  destruct (in_flight s) eqn:Hflight; [done|]. destruct (queued s) as [|r rest] eqn:Hqueued; [done|].
  destruct HH as [Hanswered Hserials Hpublished Hconsumed]. rewrite Hflight, app_nil_r in Hanswered.
  destruct (history_app os [Dispatched r]) as (Hd & Ha & Hp & Hc).
  split; cbn [fst snd in_flight queued next_serial completed];
    rewrite ?Hd, ?Ha, ?Hp, ?Hc; cbn; rewrite ?app_nil_r; try done.
  - by rewrite Hanswered.
  - rewrite map_app, <-app_assoc. by rewrite Hqueued in Hserials.
Qed.
Lemma complete_history os t result s :
  HistoryInv os s -> HistoryInv (os ++ [fst (call (Complete t result) s)]) (snd (call (Complete t result) s)).
Proof.
  intros HH. assert (HistoryInv (os ++ [Reported t Unexpected]) s) as Hunexpected.
  { apply (history_silent _ _ s); try done. apply HH. }
  cbn. unfold complete. destruct (in_flight s) as [r|] eqn:Hflight; [|done].
  destruct (bool_decide_reflect (token r = t)) as [<-|]; [|done].
  destruct HH as [Hanswered Hserials Hpublished Hconsumed]. rewrite Hflight in Hanswered.
  destruct (retired s || _).
  - destruct (history_app os [Reported (token r) Discarded]) as (Hd & Ha & Hp & Hc).
    split; cbn [fst snd in_flight queued next_serial completed];
      rewrite ?Hd, ?Ha, ?Hp, ?Hc; cbn; rewrite ?app_nil_r; try done.
    by apply sublist_inserts_r.
  - destruct (history_app os [Reported (token r) Published]) as (Hd & Ha & Hp & Hc).
    split; cbn [fst snd in_flight queued next_serial completed];
      rewrite ?Hd, ?Ha, ?Hp, ?Hc; cbn; rewrite ?app_nil_r; try done.
    + by apply sublist_app.
    + rewrite map_app, app_assoc. by apply sublist_app.
Qed.
Lemma cleared_history os s s' :
  HistoryInv os s -> completed s' = [] -> queued s' = [] -> in_flight s' = in_flight s ->
  next_serial s' = next_serial s -> HistoryInv (os ++ [Quiet]) s'.
Proof.
  intros HH Hcompleted Hqueued Hflight Hnext. apply (history_silent _ _ s); try done.
  - rewrite Hqueued, Hnext. etrans; [|exact (history_serials _ _ HH)].
    apply sublist_app; [done|apply sublist_nil_l].
  - rewrite Hcompleted. apply sublist_nil_l.
Qed.
Lemma call_history os c s :
  HistoryInv os s -> SlotsInv s -> HistoryInv (os ++ [fst (call c s)]) (snd (call c s)).
Proof.
  intros HH HInv. destruct c as [key| |t result|n| |].
  - by apply submit_history.
  - by apply take_next_history.
  - by apply complete_history.
  - apply (history_silent _ _ s); try done; [apply HH|]. cbn.
    rewrite app_nil_r, <-map_app. by rewrite take_drop.
  - cbn. unfold advance_generation. destruct (retired s).
    + apply (history_silent _ _ s); try done. apply HH.
    + destruct (_ =? u64_max); by apply (cleared_history os s).
  - by apply (cleared_history os s).
Qed.
Lemma calls_history cs : forall os s,
  HistoryInv os s -> SlotsInv s -> HistoryInv (os ++ fst (calls cs s)) (snd (calls cs s)).
Proof.
  induction cs as [|c cs IH]; intros os s HH HInv; [by rewrite app_nil_r|]. cbn.
  pose proof (call_history os c s HH HInv) as HH1. pose proof (call_inv c s HInv) as HInv1.
  destruct (call c s) as [o s1]. specialize (IH (os ++ [o]) s1 HH1 HInv1).
  destruct (calls cs s1). cbn in *. by rewrite <-app_assoc in IH.
Qed.
Lemma new_history session_ : HistoryInv [] (new session_).
Proof. split; cbn; try done; constructor. Qed.
End IconRequests.

Arguments Call : clear implicits.
Arguments IconRequests : clear implicits.

(** ** What the request slots guarantee *)

(** The slots stay bounded and every key holds at most one.  After any
    sequence of calls, the requests queued, in flight and not yet acknowledged
    number at most 64, no two of them have the same key, their serial numbers
    increase from the oldest to the newest and do not wrap, and everything
    queued or deliverable belongs to the current generation; once retired
    nothing is queued or deliverable. *)
Theorem icon_slots_bounded {K R : Type} `{EqDecision K} (session_ : Z) (cs : list (Call K R)) :
  let s := snd (calls cs (new session_)) in
  (pending_count s <= MAX_PENDING_ICON_REQUESTS)%nat
  /\ NoDup (map request_key (slots s))
  /\ map request_serial (slots s) `sublist_of` seqZ 1 (next_serial s) /\ next_serial s <= u64_max
  /\ Forall (fun r => token_generation (token r) = generation s) (map request (completed s) ++ queued s)
  /\ (retired s = true -> completed s = [] /\ queued s = []).
Proof.
  cbv zeta. destruct (calls_inv cs (new session_) (new_inv session_)) as [Hb Hk Hs Hn Hg Hc Hr].
  rewrite pending_count_slots. split_and!; try done. lia.
Qed.

(** Every dispatched request is answered at most once, in order, and every
    delivered result answers it.  Over any sequence of calls the reports that
    matched, in order, are exactly the dispatched requests but for the one in
    flight; no token is dispatched twice; and the results the user interface
    consumed are, in the order of dispatch and each at most once, reports that
    were published. *)
Theorem icon_requests_answered_once {K R : Type} `{EqDecision K} (session_ : Z) (cs : list (Call K R)) :
  let (os, s) := calls cs (new session_) in
  answered os ++ option_list (token <$> in_flight s) = dispatched os
  /\ NoDup (map serial (dispatched os))
  /\ published os `sublist_of` answered os
  /\ consumed os `sublist_of` published os.
Proof.
  pose proof (calls_history cs [] (new session_) (new_history session_) (new_inv session_)) as HH.
  destruct (calls cs (new session_)) as [os s]. destruct HH as [Ha Hs Hp Hc]. cbn in *.
  split_and!; try done.
  - eapply sublist_NoDup; [apply (NoDup_seqZ 1 (next_serial s))|].
    etrans; [|exact Hs]. by apply sublist_inserts_r.
  - etrans; [|exact Hc]. by apply sublist_inserts_r.
Qed.
