(* ===== verification/Preview.v ===== *)
(** * Preview: counts and issues of the preview grid

    The caches of [crates/darknamer-app/src/preview.rs] that tell the user,
    row by row, what a proposal would do and what keeps it from being applied:
    [PreviewCountCache] and [PreviewIssueCache], each with its full refresh and
    its update after the edit of one row, and the refresh of an edited row that
    combines them ([refresh_proposal_rows] of windows/list_view.rs).  The key of
    a destination is computed by the caller.  Counters count rows of one vector,
    so they are natural numbers whose sums cannot reach the limit of a [usize].
    The texts are left out. *)

From S2P Require Import Prelude Collections LegacyText ListItem RenameModel.
#[local] Open Scope nat_scope.

(** ** Counts *)

Record PreviewCounts : Type := mkCounts {
  counts_total : nat; counts_changed : nat; counts_selected : nat
}.
Record PreviewCountCache : Type := mkCountCache { total : nat; changed : nat }.

(** [PreviewCountCache::refresh]. *)
Definition count_refresh (changes : list PlannedChangeKind) : PreviewCountCache :=
  fold_left (fun c change =>
    mkCountCache (S (total c)) (changed c + (if is_changed change then 1 else 0)))
    changes (mkCountCache 0 0).

(** [PreviewCountCache::refresh_one]. *)
Definition count_refresh_one (model_len : nat) (previous_changed current_changed : bool)
    (c : PreviewCountCache) : bool * PreviewCountCache :=
  if negb (total c =? model_len) then (false, c)
  else
    let next_changed :=
      match previous_changed, current_changed with
      | false, true => Some (S (changed c))
      | true, false => match changed c with O => None | S n => Some n end
      | false, false | true, true => Some (changed c)
      end in
    match next_changed with
    | Some next => if next <=? total c then (true, mkCountCache (total c) next) else (false, c)
    | None => (false, c)
    end.
Definition with_selected (c : PreviewCountCache) (selected : nat) : PreviewCounts :=
  mkCounts (total c) (changed c) selected.

(** ** Issues *)

Inductive PreviewRowIssue : Type :=
| NoIssue
| EmptyStem
| InvalidName (error : WindowsLeafNameError)
| DuplicateDestination.
#[export] Instance PreviewRowIssue_eq_dec : EqDecision PreviewRowIssue.
Proof. solve_decision. Defined.

Record PreviewRowInput : Type := mkRowInput {
  parent : LegacyText;
  current : LegacyText;
  proposed : LegacyText;
  input_is_directory : bool;
  input_change : PlannedChangeKind
}.
Record CachedPreviewRow : Type := mkCachedRow {
  destination_key : list Z;
  base_issue : PreviewRowIssue;
  row_issue : PreviewRowIssue;
  change : PlannedChangeKind
}.
Record PreviewIssueUpdate : Type := mkUpdate {
  affected_rows : list nat;
  previous_changed : bool;
  current_changed : bool
}.
Record PreviewIssueCache : Type := mkIssueCache {
  initialized : bool;
  rows : list CachedPreviewRow;
  destination_rows : BTreeMap (list Z) (BTreeSet nat);
  warning_rows : nat;
  invalid_name_rows : nat;
  duplicate_destination_rows : nat;
  blocker_rows : nat
}.
Definition default_issue_cache : PreviewIssueCache := mkIssueCache false [] [] 0 0 0 0.

Definition preview_name_has_empty_stem (name : LegacyText) (is_directory : bool) : bool :=
  if is_directory then bool_decide (name = [])
  else bool_decide (rposition (Z.eqb DOT) name = Some 0).

Definition preview_base_issue (v : PreviewRowInput) : PreviewRowIssue :=
  if negb (renames (input_change v)) then NoIssue
  else
    match validate_windows_leaf_name (proposed v) with
    | Err error => InvalidName error
    | Ok tt => if preview_name_has_empty_stem (proposed v) (input_is_directory v) then EmptyStem
               else NoIssue
    end.

Definition resolved_preview_issue (base : PreviewRowIssue) (change : PlannedChangeKind)
    (colliding : bool) : PreviewRowIssue :=
  match base with
  | InvalidName _ => base
  | _ => if is_changed change && colliding then DuplicateDestination else base
  end.

(** An index past the end of the rows panics. *)
Inductive IndexPanic : Type := IndexOutOfBounds.

Definition set_rows (l : list CachedPreviewRow) (c : PreviewIssueCache) : PreviewIssueCache :=
  mkIssueCache (initialized c) l (destination_rows c) (warning_rows c) (invalid_name_rows c)
    (duplicate_destination_rows c) (blocker_rows c).
Definition set_issue (issue : PreviewRowIssue) (r : CachedPreviewRow) : CachedPreviewRow :=
  mkCachedRow (destination_key r) (base_issue r) issue (change r).
(** [+= 1] on the counter of an issue. *)
Definition count_issue (issue : PreviewRowIssue) (c : PreviewIssueCache) : PreviewIssueCache :=
  match issue with
  | NoIssue => c
  | EmptyStem => mkIssueCache (initialized c) (rows c) (destination_rows c) (S (warning_rows c))
      (invalid_name_rows c) (duplicate_destination_rows c) (blocker_rows c)
  | InvalidName _ => mkIssueCache (initialized c) (rows c) (destination_rows c) (warning_rows c)
      (S (invalid_name_rows c)) (duplicate_destination_rows c) (blocker_rows c)
  | DuplicateDestination => mkIssueCache (initialized c) (rows c) (destination_rows c) (warning_rows c)
      (invalid_name_rows c) (S (duplicate_destination_rows c)) (blocker_rows c)
  end.
(** [saturating_sub(1)] on the counter of an issue. *)
Definition uncount_issue (issue : PreviewRowIssue) (c : PreviewIssueCache) : PreviewIssueCache :=
  match issue with
  | NoIssue => c
  | EmptyStem => mkIssueCache (initialized c) (rows c) (destination_rows c) (warning_rows c - 1)
      (invalid_name_rows c) (duplicate_destination_rows c) (blocker_rows c)
  | InvalidName _ => mkIssueCache (initialized c) (rows c) (destination_rows c) (warning_rows c)
      (invalid_name_rows c - 1) (duplicate_destination_rows c) (blocker_rows c)
  | DuplicateDestination => mkIssueCache (initialized c) (rows c) (destination_rows c) (warning_rows c)
      (invalid_name_rows c) (duplicate_destination_rows c - 1) (blocker_rows c)
  end.
(** [blocker_rows = invalid_name_rows + duplicate_destination_rows]. *)
Definition sum_blockers (c : PreviewIssueCache) : PreviewIssueCache :=
  mkIssueCache (initialized c) (rows c) (destination_rows c) (warning_rows c) (invalid_name_rows c)
    (duplicate_destination_rows c) (invalid_name_rows c + duplicate_destination_rows c).

Section Keys.
(** The caller's [destination_key]. *)
Context (key_of : LegacyText -> LegacyText -> list Z).

(** The map entry of a key, occupied or vacant. *)
Definition insert_row (key : list Z) (row : nat) (m : BTreeMap (list Z) (BTreeSet nat))
  : BTreeMap (list Z) (BTreeSet nat) :=
  match bm_get key m with
  | Some group => bm_insert key (bs_insert row group) m
  | None => bm_insert key [row] m
  end.

(** *** Full refresh *)

Definition push_row (v : PreviewRowInput) (c : PreviewIssueCache) : PreviewIssueCache :=
  let row := length (rows c) in
  let base := preview_base_issue v in
  let key := key_of (parent v) (proposed v) in
  mkIssueCache (initialized c) (rows c ++ [mkCachedRow key base base (input_change v)])
    (insert_row key row (destination_rows c)) (warning_rows c) (invalid_name_rows c)
    (duplicate_destination_rows c) (blocker_rows c).

Fixpoint resolve_group (colliding : bool) (group : list nat) (c : PreviewIssueCache)
  : result IndexPanic PreviewIssueCache :=
  match group with
  | [] => Ok c
  | row :: group' =>
      match rows c !! row with
      | None => Err IndexOutOfBounds
      | Some cached =>
          let issue := resolved_preview_issue (base_issue cached) (change cached) colliding in
          let c := set_rows (<[row := set_issue issue cached]> (rows c)) c in
          resolve_group colliding group' (count_issue issue c)
      end
  end.
Fixpoint resolve_groups (groups : list (list nat)) (c : PreviewIssueCache)
  : result IndexPanic PreviewIssueCache :=
  match groups with
  | [] => Ok c
  | group :: groups' =>
      c ← resolve_group (1 <? length group) group c;
      resolve_groups groups' c
  end.
Definition refresh_by (inputs : list PreviewRowInput) : result IndexPanic PreviewIssueCache :=
  let next := mkIssueCache true [] [] 0 0 0 0 in
  let next := fold_left (fun c v => push_row v c) inputs next in
  next ← resolve_groups (bm_values (destination_rows next)) next;
  Ok (sum_blockers next).

(** *** Refresh of one row *)

Definition replace_issue (row : nat) (issue : PreviewRowIssue) (c : PreviewIssueCache)
  : result IndexPanic PreviewIssueCache :=
  match rows c !! row with
  | None => Err IndexOutOfBounds
  | Some cached =>
      let previous := row_issue cached in
      if bool_decide (previous = issue) then Ok c
      else
        let c := count_issue issue (uncount_issue previous c) in
        Ok (set_rows (<[row := set_issue issue cached]> (rows c)) c)
  end.

Definition colliding_in (m : BTreeMap (list Z) (BTreeSet nat)) (key : list Z) : bool :=
  match bm_get key m with Some group => 1 <? length group | None => false end.
(** The loop over the affected rows. *)
Fixpoint replace_issues (affected : list nat) (c : PreviewIssueCache)
  : result IndexPanic PreviewIssueCache :=
  match affected with
  | [] => Ok c
  | row :: affected' =>
      match rows c !! row with
      | None => Err IndexOutOfBounds
      | Some cached =>
          let colliding := colliding_in (destination_rows c) (destination_key cached) in
          c ← replace_issue row (resolved_preview_issue (base_issue cached) (change cached) colliding) c;
          replace_issues affected' c
      end
  end.

(** The groups once the row has left the old key for the new one; [None] when
    the old entry is vacant. *)
Definition move_row (row : nat) (old_key new_key : list Z) (m : BTreeMap (list Z) (BTreeSet nat))
  : option (BTreeMap (list Z) (BTreeSet nat)) :=
  if bool_decide (old_key = new_key) then Some m
  else
    group ← bm_get old_key m;
    let group := bs_remove row group in
    let m := if bool_decide (group = []) then bm_remove old_key m else bm_insert old_key group m in
    Some (insert_row new_key row m).

Definition refresh_one_by (model_len row : nat) (v : PreviewRowInput) (c : PreviewIssueCache)
  : result IndexPanic (option PreviewIssueUpdate * PreviewIssueCache) :=
  if negb (initialized c) || negb (length (rows c) =? model_len) || (model_len <=? row)
  then Ok (None, c)
  else
    match rows c !! row with
    | None => Err IndexOutOfBounds
    | Some cached =>
        let old_key := destination_key cached in
        match bm_get old_key (destination_rows c) with
        | None => Ok (None, c)
        | Some old_group =>
            if negb (bs_contains row old_group) then Ok (None, c)
            else
              let previous := is_changed (change cached) in
              let base := preview_base_issue v in
              let new_key := key_of (parent v) (proposed v) in
              match move_row row old_key new_key (destination_rows c) with
              | None => Ok (None, c)
              | Some groups =>
                  let affected :=
                    if bool_decide (old_key = new_key) then old_group
                    else match bm_get new_key groups with
                         | Some new_group => bs_extend new_group old_group
                         | None => old_group
                         end in
                  let edited := mkCachedRow new_key base (row_issue cached) (input_change v) in
                  let c := mkIssueCache (initialized c) (<[row := edited]> (rows c)) groups
                    (warning_rows c) (invalid_name_rows c) (duplicate_destination_rows c)
                    (blocker_rows c) in
                  c ← replace_issues affected c;
                  Ok (Some (mkUpdate affected previous (is_changed (input_change v))), sum_blockers c)
              end
        end
    end.
End Keys.

(** ** Readings *)

Definition issue (c : PreviewIssueCache) (row : nat) : PreviewRowIssue :=
  match rows c !! row with Some cached => row_issue cached | None => NoIssue end.
Definition has_blocker (c : PreviewIssueCache) : bool := negb (blocker_rows c =? 0).
Definition is_blocker (i : PreviewRowIssue) : bool :=
  match i with InvalidName _ | DuplicateDestination => true | _ => false end.
(** The method [blocker_rows]. *)
Definition list_blocker_rows (c : PreviewIssueCache) : list nat :=
  omap (fun p => if is_blocker (row_issue p.2) then Some p.1 else None)
    (imap (fun row cached => (row, cached)) (rows c)).

(** ** The preview of the list *)

Definition row_input (item : LegacyListItem) : PreviewRowInput :=
  mkRowInput (destination_parent item) (current_name item) (proposed_name item) (is_directory item)
    (planned_change_kind item).

Section ListPreview.
(** [path_key] of the rename backend. *)
Context (path_key : LegacyText -> list Z).

Definition preview_destination_key (parent leaf : LegacyText) : list Z :=
  path_key (parent ++ (if last_is (fun unit => (unit =? BACKSLASH)%Z || (unit =? SLASH)%Z) parent
                       then [] else [BACKSLASH]) ++ leaf).

Record PreviewState : Type := mkPreviewState {
  preview_count_cache : PreviewCountCache;
  preview_issue_cache : PreviewIssueCache
}.
(** [refresh_preview_count_cache]. *)
Definition refresh_preview_count_cache (items : list LegacyListItem) : result IndexPanic PreviewState :=
  issues ← refresh_by preview_destination_key (map row_input items);
  Ok (mkPreviewState (count_refresh (map planned_change_kind items)) issues).

(** The caches after [refresh_proposal_rows] on one changed row, and the rows
    whose status it redraws; [None] stands for a redraw of the whole list. *)
Definition refresh_proposal_row (items : list LegacyListItem) (row : nat) (s : PreviewState)
  : result IndexPanic (option (list nat) * PreviewState) :=
  match items !! row with
  | None => Err IndexOutOfBounds
  | Some item =>
      '(update, issues) ← refresh_one_by preview_destination_key (length items) row (row_input item)
        (preview_issue_cache s);
      match update with
      | None => full ← refresh_preview_count_cache items; Ok (None, full)
      | Some update =>
          let (counted, counts) := count_refresh_one (length items) (previous_changed update)
            (current_changed update) (preview_count_cache s) in
          if counted : bool then Ok (Some (affected_rows update), mkPreviewState counts issues)
          else full ← refresh_preview_count_cache items; Ok (None, full)
      end
  end.
End ListPreview.
