(* ===== verification/PreviewCorrect.v ===== *)
(** * PreviewCorrect: the preview caches against their specification

    [Represents] says what a cache holds of the rows it was built from.  It
    determines the cache, the full refresh establishes it and the refresh of one
    row carries it to the edited rows, so the two agree. *)

From S2P Require Import Prelude Collections LegacyText ListItem RenameModel Preview.
#[local] Open Scope nat_scope.

Lemma filter_insert_count {A} (p : A -> bool) l row x y :
  l !! row = Some x ->
  length (List.filter p (<[row := y]> l)) + (if p x then 1 else 0)
  = length (List.filter p l) + (if p y then 1 else 0).
Proof.
  revert row. induction l as [|z l IH]; intros [|row] Hrow; try done.
  - injection Hrow as ->. cbn. destruct (p x), (p y); cbn; lia.
  - specialize (IH row Hrow). change (<[S row := y]> (z :: l)) with (z :: <[row := y]> l).
    cbn [List.filter]. destruct (p z); cbn [length]; lia.
Qed.

Section Spec.
Context (key_of : LegacyText -> LegacyText -> list Z).
Implicit Types (inputs : list PreviewRowInput) (v : PreviewRowInput) (c : PreviewIssueCache)
  (key : list Z).

(** ** The specification *)

Definition input_key v : list Z := key_of (parent v) (proposed v).
(** The rows of a key, in increasing order. *)
Definition rows_of inputs key : list nat :=
  List.filter (fun row => bool_decide (input_key <$> inputs !! row = Some key)) (seq 0 (length inputs)).
Definition expected_issue inputs v : PreviewRowIssue :=
  resolved_preview_issue (preview_base_issue v) (input_change v) (1 <? length (rows_of inputs (input_key v))).
Definition expected_row inputs v : CachedPreviewRow :=
  mkCachedRow (input_key v) (preview_base_issue v) (expected_issue inputs v) (input_change v).
(** A map that holds exactly the rows [P] gives each key, without empty groups. *)
Definition Groups (P : list Z -> nat -> Prop) (m : BTreeMap (list Z) (BTreeSet nat)) : Prop :=
  bm_sorted m /\ forall key,
  match bm_get key m with
  | Some group => bs_sorted group /\ group <> [] /\ forall row, row ∈ group <-> P key row
  | None => forall row, ~ P key row
  end.
Definition keyed inputs key (row : nat) : Prop := input_key <$> inputs !! row = Some key.

Inductive IssueKind : Type := Warning | Invalid | Duplicate.
Definition has_kind (k : IssueKind) (i : PreviewRowIssue) : bool :=
  match k, i with
  | Warning, EmptyStem | Invalid, InvalidName _ | Duplicate, DuplicateDestination => true
  | _, _ => false
  end.
Definition kind_count (k : IssueKind) c : nat :=
  match k with
  | Warning => warning_rows c | Invalid => invalid_name_rows c | Duplicate => duplicate_destination_rows c
  end.
Definition count_kind (k : IssueKind) (l : list CachedPreviewRow) : nat :=
  length (List.filter (fun r => has_kind k (row_issue r)) l).

Record Represents inputs c : Prop := {
  represents_initialized : initialized c = true;
  represents_rows : rows c = map (expected_row inputs) inputs;
  represents_groups : Groups (keyed inputs) (destination_rows c);
  represents_counts k : kind_count k c = count_kind k (rows c);
  represents_blockers : blocker_rows c = invalid_name_rows c + duplicate_destination_rows c
}.

(** ** Groups *)

Lemma elem_of_rows_of inputs key row : row ∈ rows_of inputs key <-> keyed inputs key row.
Proof.
  unfold rows_of, keyed.
  rewrite list_elem_of_In, filter_In, <-list_elem_of_In, bool_decide_eq_true, elem_of_seq.
  split; [tauto|]. intros H. split; [|done]. destruct (inputs !! row) eqn:Hrow; [|done].
  apply lookup_lt_Some in Hrow. lia.
Qed.
Lemma seq_sorted n : forall from, bs_sorted (seq from n).
Proof.
  induction n as [|n IH]; intros from; simpl; [constructor|]. constructor; [apply IH|].
  apply Forall_forall. intros x Hx. apply elem_of_seq in Hx. apply Nat.compare_lt_iff. lia.
Qed.
Lemma rows_of_sorted inputs key : bs_sorted (rows_of inputs key).
Proof. apply bs_filter_sorted, seq_sorted. Qed.

(** The rows a key of the map has, none when it is absent. *)
Definition group_at key (m : BTreeMap (list Z) (BTreeSet nat)) : list nat := default [] (bm_get key m).
Lemma Groups_at P m key : Groups P m ->
  bs_sorted (group_at key m) /\ forall row, row ∈ group_at key m <-> P key row.
Proof.
  intros [_ Hm]. specialize (Hm key). unfold group_at. destruct (bm_get key m) as [g|]; simpl; [tauto|].
  split; [constructor|]. intros row. split; [by intros ?%not_elem_of_nil|]. intros HP. by destruct (Hm row).
Qed.
Lemma Groups_get P m key :
  Groups P m -> bm_get key m = match group_at key m with [] => None | group => Some group end.
Proof.
  intros [_ Hm]. specialize (Hm key). unfold group_at. destruct (bm_get key m) as [[|x g]|]; simpl; try done.
  by destruct Hm as (_ & ? & _).
Qed.
Lemma Groups_rows_of inputs m key : Groups (keyed inputs) m -> group_at key m = rows_of inputs key.
Proof.
  intros Hm. destruct (Groups_at _ _ key Hm) as [Hsorted Hmem].
  apply bs_ext; [done|apply rows_of_sorted|]. intros row. by rewrite Hmem, elem_of_rows_of.
Qed.
(** The map of given groups is unique. *)
Lemma Groups_unique P m m' : Groups P m -> Groups P m' -> m = m'.
Proof.
  intros Hm Hm'. apply bm_ext; [by destruct Hm|by destruct Hm'|]. intros key.
  rewrite (Groups_get P m), (Groups_get P m') by done.
  assert (group_at key m = group_at key m') as ->; [|done].
  destruct (Groups_at _ _ key Hm) as [Hs He], (Groups_at _ _ key Hm') as [Hs' He'].
  apply bs_ext; [done..|]. intros row. by rewrite He, He'.
Qed.
Lemma Groups_iff P Q m : (forall key row, P key row <-> Q key row) -> Groups P m -> Groups Q m.
Proof.
  intros Hiff [Hs Hm]. split; [done|]. intros key. specialize (Hm key).
  destruct (bm_get key m) as [g|].
  - destruct Hm as (? & ? & Hm). split_and!; [done..|]. intros row. by rewrite Hm.
  - intros row HQ. by apply (Hm row), Hiff.
Qed.
(** Replacing the group of one key. *)
Lemma Groups_set P Q key group m :
  Groups P m -> bs_sorted group -> group <> [] -> (forall row, row ∈ group <-> Q key row) ->
  (forall key' row, key' <> key -> P key' row <-> Q key' row) ->
  Groups Q (bm_insert key group m).
Proof.
  intros [Hs Hm] Hsorted Hne Hmem Hother. split; [by apply bm_insert_sorted|]. intros key'.
  destruct (decide (key' = key)) as [->|Hk]; [by rewrite bm_get_insert_eq|].
  rewrite bm_get_insert_ne by done. specialize (Hm key'). destruct (bm_get key' m) as [g|].
  - destruct Hm as (? & ? & Hg). split_and!; [done..|]. intros row. by rewrite Hg, Hother.
  - intros row HQ. by apply (Hm row), Hother.
Qed.
Lemma Groups_insert P key row m :
  Groups P m -> Groups (fun k i => P k i \/ k = key /\ i = row) (insert_row key row m).
Proof.
  intros Hm. destruct (Groups_at _ _ key Hm) as [Hsorted Hmem]. unfold insert_row.
  assert (forall g, g = bs_insert row (group_at key m) ->
    Groups (fun k i => P k i \/ k = key /\ i = row) (bm_insert key g m)) as Hset.
  { intros g ->. apply (Groups_set P); [done|by apply bs_insert_sorted| | |naive_solver].
    - intros Hnil. assert (row ∈ bs_insert row (group_at key m)) as Hin
        by (apply elem_of_bs_insert; by left).
      rewrite Hnil in Hin. by apply not_elem_of_nil in Hin.
    - intros i. rewrite elem_of_bs_insert, Hmem. naive_solver. }
  unfold group_at in *. by case_match; apply Hset.
Qed.
Lemma Groups_leave P key row group m :
  Groups P m -> bm_get key m = Some group ->
  Groups (fun k i => P k i /\ ~ (k = key /\ i = row))
    (if bool_decide (bs_remove row group = []) then bm_remove key m
     else bm_insert key (bs_remove row group) m).
Proof.
  intros Hm Hget. pose proof Hm as [Hs Hall]. pose proof (Hall key) as Hkey. rewrite Hget in Hkey.
  destruct Hkey as (Hsorted & Hne & Hmem).
  assert (forall i, i ∈ bs_remove row group <-> P key i /\ i <> row) as Hremoved.
  { intros i. rewrite elem_of_bs_remove, Hmem by done. tauto. }
  destruct (bool_decide_reflect (bs_remove row group = [])) as [Hnil|Hsome].
  - split; [by apply bm_remove_sorted|]. intros k. rewrite bm_get_remove by done. specialize (Hall k).
    destruct (compare k key) eqn:Hcmp.
    + apply compare_eq_iff in Hcmp as ->. intros i [HP Hi]. rewrite Hnil in Hremoved.
      apply (not_elem_of_nil i), Hremoved. naive_solver.
    + assert (k <> key) by (intros ->; by rewrite compare_refl in Hcmp).
      destruct (bm_get k m); naive_solver.
    + assert (k <> key) by (intros ->; by rewrite compare_refl in Hcmp).
      destruct (bm_get k m); naive_solver.
  - apply (Groups_set P); [done|by apply bs_remove_sorted|done| |naive_solver].
    intros i. rewrite Hremoved. naive_solver.
Qed.

(** The specification leaves no freedom. *)
Lemma Represents_unique inputs c c' : Represents inputs c -> Represents inputs c' -> c = c'.
Proof.
  intros [Hi Hr Hg Hc Hb] [Hi' Hr' Hg' Hc' Hb'].
  pose proof (Hc Warning) as Hw. pose proof (Hc Invalid) as Hn. pose proof (Hc Duplicate) as Hd.
  pose proof (Hc' Warning) as Hw'. pose proof (Hc' Invalid) as Hn'. pose proof (Hc' Duplicate) as Hd'.
  pose proof (Groups_unique _ _ _ Hg Hg') as Hm. destruct c, c'. cbn in *. by subst.
Qed.

(** ** The full refresh *)

Definition base_row v : CachedPreviewRow :=
  mkCachedRow (input_key v) (preview_base_issue v) (preview_base_issue v) (input_change v).

Lemma keyed_snoc inputs v key row :
  keyed (inputs ++ [v]) key row <-> keyed inputs key row \/ key = input_key v /\ row = length inputs.
Proof.
  unfold keyed. destruct (decide (row < length inputs)) as [Hlt|Hge].
  - rewrite lookup_app_l by done. split; [by left|]. intros [?|[_ ->]]; [done|lia].
  - rewrite (lookup_ge_None_2 inputs) by lia. destruct (decide (row = length inputs)) as [->|Hne].
    + rewrite lookup_app_r, Nat.sub_diag by lia. simpl. naive_solver.
    + rewrite (lookup_ge_None_2 (inputs ++ [v])) by (rewrite length_app; simpl; lia). naive_solver.
Qed.
Lemma push_rows inputs : forall pre c,
  rows c = map base_row pre -> Groups (keyed pre) (destination_rows c) ->
  let c' := fold_left (fun c v => push_row key_of v c) inputs c in
  rows c' = map base_row (pre ++ inputs) /\ Groups (keyed (pre ++ inputs)) (destination_rows c')
  /\ initialized c' = initialized c /\ forall k, kind_count k c' = kind_count k c.
Proof.
  induction inputs as [|v inputs IH]; intros pre c Hrows Hgroups; cbn [fold_left].
  - by rewrite app_nil_r.
  - rewrite cons_middle, app_assoc. destruct (IH (pre ++ [v]) (push_row key_of v c)) as (H1 & H2 & H3 & H4).
    + unfold push_row. cbn. by rewrite Hrows, map_app.
    + unfold push_row. cbn. rewrite Hrows, length_map.
      eapply Groups_iff; [|by apply Groups_insert]. intros key row. by rewrite keyed_snoc.
    + split_and!; [done..|]. intros k. rewrite H4. by destruct k.
Qed.

(** What the cache holds once the rows [visited] are resolved. *)
Definition row_after inputs (visited : list nat) (row : nat) v : CachedPreviewRow :=
  if decide (row ∈ visited) then expected_row inputs v else base_row v.
Definition visited_count inputs (k : IssueKind) (visited : list nat) : nat :=
  length (List.filter (fun row => match inputs !! row with
                                  | Some v => has_kind k (expected_issue inputs v) | None => false end) visited).
Record Resolving inputs (m : BTreeMap (list Z) (BTreeSet nat)) (visited : list nat) c : Prop := {
  resolving_initialized : initialized c = true;
  resolving_rows : rows c = imap (row_after inputs visited) inputs;
  resolving_groups : destination_rows c = m;
  resolving_counts k : kind_count k c = visited_count inputs k visited
}.

Lemma row_after_same inputs visited row v :
  base_issue (row_after inputs visited row v) = preview_base_issue v
  /\ change (row_after inputs visited row v) = input_change v
  /\ set_issue (expected_issue inputs v) (row_after inputs visited row v) = expected_row inputs v.
Proof. unfold row_after. by case_decide. Qed.
Lemma kind_count_issue k i c :
  kind_count k (count_issue i c) = kind_count k c + (if has_kind k i then 1 else 0).
Proof. destruct k, i; cbn; lia. Qed.
Lemma kind_count_set_rows k l c : kind_count k (set_rows l c) = kind_count k c.
Proof. by destruct k. Qed.
Lemma count_issue_other i c :
  rows (count_issue i c) = rows c /\ initialized (count_issue i c) = initialized c
  /\ destination_rows (count_issue i c) = destination_rows c.
Proof. by destruct i. Qed.

Lemma resolve_group_ok inputs m colliding group : forall visited c,
  Resolving inputs m visited c ->
  (forall row, row ∈ group -> exists v, inputs !! row = Some v
     /\ resolved_preview_issue (preview_base_issue v) (input_change v) colliding = expected_issue inputs v) ->
  exists c', resolve_group colliding group c = Ok c' /\ Resolving inputs m (visited ++ group) c'.
Proof.
  induction group as [|row group IH]; intros visited c HR Hgroup; cbn [resolve_group].
  { exists c. by rewrite app_nil_r. }
  destruct (Hgroup row) as (v & Hv & Hissue); [apply list_elem_of_here|].
  destruct HR as [Hinit Hrows Hmap Hcounts]. rewrite Hrows, list_lookup_imap, Hv. simpl.
  destruct (row_after_same inputs visited row v) as (-> & -> & Hset). rewrite Hissue, Hset.
  set (c1 := set_rows _ c). destruct (count_issue_other (expected_issue inputs v) c1) as (Hr & Hi & Hd).
  rewrite cons_middle, app_assoc. apply IH; [|intros r Hr'; apply Hgroup; by apply list_elem_of_further].
  split; rewrite ?Hr, ?Hi, ?Hd; try done.
  - cbn. apply list_eq. intros j. rewrite list_lookup_imap. destruct (decide (j = row)) as [->|Hne].
    + rewrite list_lookup_insert_eq by (rewrite length_imap; by apply lookup_lt_Some in Hv).
      rewrite Hv. simpl. unfold row_after. rewrite decide_True by set_solver. done.
    + rewrite list_lookup_insert_ne, list_lookup_imap by done.
      destruct (inputs !! j) as [v'|]; [|done]. simpl. f_equal. unfold row_after.
      apply decide_ext. set_solver.
  - intros k. rewrite kind_count_issue. unfold c1. rewrite kind_count_set_rows, Hcounts.
    unfold visited_count. rewrite List.filter_app, length_app. cbn. rewrite Hv. by destruct (has_kind _ _).
Qed.
Lemma resolve_groups_ok inputs m groups : forall visited c,
  Resolving inputs m visited c ->
  (forall group, group ∈ groups -> exists key, group = rows_of inputs key) ->
  exists c', resolve_groups groups c = Ok c' /\ Resolving inputs m (visited ++ concat groups) c'.
Proof.
  induction groups as [|group groups IH]; intros visited c HR Hgroups; cbn [resolve_groups concat].
  { exists c. by rewrite app_nil_r. }
  destruct (Hgroups group) as (key & ->); [apply list_elem_of_here|].
  destruct (resolve_group_ok inputs m (1 <? length (rows_of inputs key)) (rows_of inputs key) visited c)
    as (c1 & Hc1 & HR1); [done| |].
  { intros row Hrow. apply elem_of_rows_of in Hrow. unfold keyed in Hrow.
    destruct (inputs !! row) as [v|]; [|done]. injection Hrow as <-. by exists v. }
  rewrite Hc1. cbn. rewrite app_assoc. apply IH; [done|]. intros g Hg. apply Hgroups.
  by apply list_elem_of_further.
Qed.

(** The groups partition the rows. *)
Lemma groups_permute inputs m :
  Groups (keyed inputs) m -> concat (bm_values m) ≡ₚ seq 0 (length inputs).
Proof.
  intros Hm. pose proof Hm as [Hsorted Hall].
  assert (forall key group, (key, group) ∈ m -> bs_sorted group /\ forall row, row ∈ group <-> keyed inputs key row)
    as Hgroup.
  { intros key group Hin. specialize (Hall key). rewrite (bm_get_elem_sorted key group) in Hall by done. tauto. }
  apply NoDup_Permutation; [|apply NoDup_seq|].
  - clear Hm Hall. induction Hsorted as [|[key group] m Hsorted IH Hfresh]; [constructor|]. cbn.
    apply NoDup_app. split_and!.
    + eapply bs_sorted_NoDup, Hgroup. apply list_elem_of_here.
    + intros row Hrow Hrest. apply (Hgroup key group) in Hrow; [|apply list_elem_of_here].
      apply list_elem_of_In, in_concat in Hrest as (g & Hg & Hin).
      apply in_map_iff in Hg as ([key' g'] & Heq & Hg'). simpl in Heq. subst g'.
      apply list_elem_of_In in Hg', Hin. rewrite Forall_forall in Hfresh. apply Hfresh in Hg' as Hlt.
      apply (Hgroup key' g) in Hin; [|by apply list_elem_of_further].
      unfold keyed in *. simplify_eq. by apply compare_lt_irrefl in Hlt.
    + apply IH. intros k g Hg. apply Hgroup. by apply list_elem_of_further.
  - intros row. rewrite elem_of_seq. split.
    + intros Hin. apply list_elem_of_In, in_concat in Hin as (g & Hg & Hin).
      apply in_map_iff in Hg as ([key g'] & Heq & Hg'). simpl in Heq. subst g'.
      apply list_elem_of_In in Hg', Hin. apply (Hgroup key g) in Hin; [|done].
      unfold keyed in Hin. destruct (inputs !! row) eqn:Hrow; [|done]. apply lookup_lt_Some in Hrow. lia.
    + intros [_ Hlt]. destruct (lookup_lt_is_Some_2 inputs row) as [v Hv]; [lia|].
      specialize (Hall (input_key v)). destruct (bm_get (input_key v) m) as [g|] eqn:Hget.
      * destruct Hall as (_ & _ & Hmem). apply list_elem_of_In, in_concat. exists g.
        apply bm_get_elem in Hget. split; [|by apply list_elem_of_In, Hmem; unfold keyed; rewrite Hv].
        by apply list_elem_of_In, (in_map snd) in Hget.
      * destruct (Hall row). unfold keyed. by rewrite Hv.
Qed.

Lemma count_kind_seq inputs k :
  count_kind k (map (expected_row inputs) inputs) = visited_count inputs k (seq 0 (length inputs)).
Proof.
  unfold count_kind, visited_count. set (f v := has_kind k (expected_issue inputs v)).
  assert (forall l pre, inputs = pre ++ l ->
    length (List.filter (fun r => has_kind k (row_issue r)) (map (expected_row inputs) l))
    = length (List.filter (fun row => match inputs !! row with Some v => f v | None => false end)
        (seq (length pre) (length l)))) as Hgen; [|by apply (Hgen inputs [])].
  induction l as [|v l IH]; intros pre Hsplit; [done|]. cbn [map List.filter seq length].
  assert (inputs !! length pre = Some v) as -> by (rewrite Hsplit; by apply list_lookup_middle).
  specialize (IH (pre ++ [v])). rewrite length_app in IH. cbn in IH. rewrite Nat.add_1_r in IH.
  unfold f at 1. cbn [row_issue expected_row].
  destruct (has_kind k (expected_issue inputs v)); cbn [length]; rewrite IH by (by rewrite <-app_assoc);
    done.
Qed.
Lemma visited_count_permute inputs k l l' : l ≡ₚ l' -> visited_count inputs k l = visited_count inputs k l'.
Proof.
  intros Hperm. unfold visited_count. induction Hperm; cbn; repeat case_match; cbn; congruence.
Qed.

Lemma refresh_by_represents inputs :
  exists c, refresh_by key_of inputs = Ok c /\ Represents inputs c.
Proof.
  unfold refresh_by. cbv zeta. set (c0 := mkIssueCache true [] [] 0 0 0 0).
  destruct (push_rows inputs [] c0) as (Hrows & Hgroups & Hinit & Hcounts); [done| |].
  { split; [constructor|]. by intros key row. }
  set (c1 := fold_left _ inputs c0) in *. cbn [app] in *.
  destruct (resolve_groups_ok inputs (destination_rows c1) (bm_values (destination_rows c1)) [] c1)
    as (c2 & Hc2 & [Hinit2 Hrows2 Hmap2 Hcounts2]).
  - split; [done| |done|].
    + rewrite Hrows. apply list_eq. intros j. rewrite list_lookup_imap, list_lookup_fmap.
      by destruct (inputs !! j).
    + intros k. rewrite Hcounts. by destruct k.
  - intros group Hin. apply list_elem_of_In, in_map_iff in Hin as ([key g] & <- & Hin%list_elem_of_In).
    exists key. apply bm_get_elem_sorted in Hin; [|by destruct Hgroups].
    rewrite <-(Groups_rows_of _ _ key Hgroups). unfold group_at. by rewrite Hin.
  - rewrite Hc2. cbn. eexists. split; [reflexivity|]. cbn [app] in *.
    apply groups_permute in Hgroups as Hperm.
    assert (rows c2 = map (expected_row inputs) inputs) as Hfinal.
    { rewrite Hrows2. apply list_eq. intros j. rewrite list_lookup_imap, list_lookup_fmap.
      destruct (inputs !! j) eqn:Hj; [|done]. simpl. f_equal. unfold row_after. apply decide_True.
      rewrite Hperm, elem_of_seq. apply lookup_lt_Some in Hj. lia. }
    split; cbn; try done; [by rewrite Hmap2|].
    intros k. transitivity (kind_count k c2); [by destruct k|].
    change (kind_count k c2 = count_kind k (rows c2)).
    by rewrite Hcounts2, Hfinal, count_kind_seq, (visited_count_permute _ _ _ _ Hperm).
Qed.

(** ** The refresh of one row *)

Lemma keyed_edit inputs row u v key i :
  inputs !! row = Some u ->
  keyed (<[row := v]> inputs) key i <-> keyed inputs key i /\ i <> row \/ key = input_key v /\ i = row.
Proof.
  intros Hrow. unfold keyed. destruct (decide (i = row)) as [->|Hne].
  - rewrite list_lookup_insert_eq by (by apply lookup_lt_Some in Hrow). simpl. naive_solver.
  - rewrite list_lookup_insert_ne by done. tauto.
Qed.
Lemma move_row_groups inputs row u v m :
  inputs !! row = Some u -> Groups (keyed inputs) m ->
  exists m', move_row row (input_key u) (input_key v) m = Some m' /\ Groups (keyed (<[row := v]> inputs)) m'.
Proof.
  intros Hrow Hm. unfold move_row. destruct (bool_decide_reflect (input_key u = input_key v)) as [Heq|Hne].
  - exists m. split; [done|]. eapply Groups_iff; [|exact Hm]. intros key i.
    rewrite (keyed_edit _ _ u) by done. unfold keyed. destruct (decide (i = row)) as [->|]; [|tauto].
    rewrite Hrow. simpl. rewrite Heq. split; [intros [= <-]; auto|by intros [[_ []]|[-> _]]].
  - assert (keyed inputs (input_key u) row) as Hkeyed by (unfold keyed; by rewrite Hrow).
    pose proof Hm as [_ Hget]. specialize (Hget (input_key u)).
    destruct (bm_get (input_key u) m) as [group|] eqn:Hgroup; [|by destruct (Hget row)].
    cbn. eexists. split; [reflexivity|].
    eapply Groups_iff; [|apply Groups_insert, (Groups_leave _ _ row _ _ Hm Hgroup)].
    intros key i. rewrite (keyed_edit _ _ u) by done. cbn.
    destruct (decide (i = row)) as [->|]; [|tauto]. unfold keyed. rewrite Hrow. simpl.
    split; [|tauto]. intros [[[= <-] Hno]|]; [by destruct Hno|by right].
Qed.

Lemma kind_count_uncount k i c :
  kind_count k (uncount_issue i c) = kind_count k c - (if has_kind k i then 1 else 0).
Proof. destruct k, i; cbn; lia. Qed.
Lemma uncount_issue_other i c :
  rows (uncount_issue i c) = rows c /\ initialized (uncount_issue i c) = initialized c
  /\ destination_rows (uncount_issue i c) = destination_rows c.
Proof. by destruct i. Qed.
Lemma count_kind_insert k l row r r' :
  l !! row = Some r ->
  count_kind k (<[row := r']> l) + (if has_kind k (row_issue r) then 1 else 0)
  = count_kind k l + (if has_kind k (row_issue r') then 1 else 0).
Proof. apply (filter_insert_count (fun r => has_kind k (row_issue r))). Qed.

(** One replaced issue: the row has it and the counters follow. *)
Lemma replace_issue_ok row i c cached :
  rows c !! row = Some cached -> (forall k, kind_count k c = count_kind k (rows c)) ->
  exists c', replace_issue row i c = Ok c' /\ rows c' = <[row := set_issue i cached]> (rows c)
    /\ initialized c' = initialized c /\ destination_rows c' = destination_rows c
    /\ forall k, kind_count k c' = count_kind k (rows c').
Proof.
  intros Hrow Hcounts. unfold replace_issue. rewrite Hrow. cbv zeta.
  destruct (bool_decide_reflect (row_issue cached = i)) as [<-|Hne].
  - exists c. split_and!; try done. symmetry. apply list_insert_id. rewrite Hrow. by destruct cached.
  - eexists. split; [reflexivity|].
    destruct (uncount_issue_other (row_issue cached) c) as (Hr & Hi & Hd).
    destruct (count_issue_other i (uncount_issue (row_issue cached) c)) as (Hr' & Hi' & Hd').
    cbn [rows initialized destination_rows set_rows]. rewrite Hr', Hr, Hi', Hi, Hd', Hd.
    split_and!; try done. intros k.
    rewrite kind_count_set_rows, kind_count_issue, kind_count_uncount, Hcounts.
    pose proof (count_kind_insert k (rows c) row cached (set_issue i cached) Hrow) as Hinsert.
    cbn [row_issue set_issue] in Hinsert.
    assert ((if has_kind k (row_issue cached) then 1 else 0) <= count_kind k (rows c)); [|lia].
    clear -Hrow. unfold count_kind. apply list_elem_of_lookup_2, list_elem_of_In in Hrow.
    destruct (has_kind k (row_issue cached)) eqn:Hk; [|lia].
    assert (In cached (List.filter (fun r => has_kind k (row_issue r)) (rows c))) as Hin
      by (by apply filter_In).
    destruct (List.filter _ _); [done|simpl; lia].
Qed.

(** The cache while the affected rows are replaced: [done_] have the issues of the
    edited rows [inputs], the others those of the rows before. *)
Definition row_during inputs (before : nat -> PreviewRowIssue) (done_ : list nat) (row : nat) v
  : CachedPreviewRow :=
  mkCachedRow (input_key v) (preview_base_issue v)
    (if decide (row ∈ done_) then expected_issue inputs v else before row) (input_change v).
Record Replacing inputs before m done_ c : Prop := {
  replacing_initialized : initialized c = true;
  replacing_rows : rows c = imap (row_during inputs before done_) inputs;
  replacing_map : destination_rows c = m;
  replacing_counts k : kind_count k c = count_kind k (rows c)
}.

Lemma colliding_in_spec inputs m key :
  Groups (keyed inputs) m -> colliding_in m key = (1 <? length (rows_of inputs key)).
Proof.
  intros Hm. unfold colliding_in. rewrite <-(Groups_rows_of _ _ key Hm), (Groups_get _ _ key Hm).
  by destruct (group_at key m).
Qed.
Lemma replace_issues_ok inputs before m affected : forall done_ c,
  Groups (keyed inputs) m -> Replacing inputs before m done_ c ->
  Forall (fun row => row < length inputs) affected ->
  exists c', replace_issues affected c = Ok c' /\ Replacing inputs before m (done_ ++ affected) c'.
Proof.
  induction affected as [|row affected IH]; intros done_ c Hm HR Hrange; cbn [replace_issues].
  { exists c. by rewrite app_nil_r. }
  apply Forall_cons in Hrange as [Hlt Hrange]. destruct (lookup_lt_is_Some_2 inputs row Hlt) as [v Hv].
  destruct HR as [Hinit Hrows Hmap Hcounts].
  assert (rows c !! row = Some (row_during inputs before done_ row v)) as Hrow
    by (rewrite Hrows, list_lookup_imap, Hv; done).
  rewrite Hrow, Hmap. cbn [destination_key base_issue change row_during].
  rewrite (colliding_in_spec inputs) by done. fold (expected_issue inputs v).
  destruct (replace_issue_ok row (expected_issue inputs v) c _ Hrow Hcounts)
    as (c1 & -> & Hrows1 & Hinit1 & Hmap1 & Hcounts1).
  cbn [mbind result_bind]. rewrite cons_middle, app_assoc. apply IH; [done| |done].
  split; rewrite ?Hinit1, ?Hmap1; try done. rewrite Hrows1, Hrows. apply list_eq. intros j.
  rewrite list_lookup_imap. destruct (decide (j = row)) as [->|Hne].
  - rewrite list_lookup_insert_eq, Hv by (by rewrite length_imap). simpl. unfold row_during, set_issue.
    cbn. by rewrite decide_True by set_solver.
  - rewrite list_lookup_insert_ne, list_lookup_imap by done. destruct (inputs !! j) as [v'|]; [|done].
    simpl. unfold row_during. do 2 f_equal. apply decide_ext. set_solver.
Qed.

(** Rows of keys the edit does not touch keep their issue. *)
Lemma expected_issue_unaffected inputs row u v w :
  inputs !! row = Some u -> input_key w <> input_key u -> input_key w <> input_key v ->
  expected_issue (<[row := v]> inputs) w = expected_issue inputs w.
Proof.
  intros Hrow Hu Hv. unfold expected_issue.
  assert (rows_of (<[row := v]> inputs) (input_key w) = rows_of inputs (input_key w)) as ->; [|done].
  apply bs_ext; [apply rows_of_sorted..|]. intros i.
  rewrite !elem_of_rows_of, (keyed_edit _ _ u) by done. unfold keyed.
  destruct (decide (i = row)) as [->|]; [|tauto]. rewrite Hrow. simpl. naive_solver.
Qed.

(** The rows whose issue the edit of [row] can change. *)
Definition edit_affects inputs (row : nat) u v : list nat :=
  bs_extend (rows_of (<[row := v]> inputs) (input_key v)) (rows_of inputs (input_key u)).
Lemma elem_of_edit_affects inputs row u v i :
  i ∈ edit_affects inputs row u v
  <-> keyed inputs (input_key u) i \/ keyed (<[row := v]> inputs) (input_key v) i.
Proof. unfold edit_affects. rewrite elem_of_bs_extend, !elem_of_rows_of. tauto. Qed.

(** The affected rows the code collects. *)
Lemma affected_spec inputs row u v m' :
  inputs !! row = Some u -> Groups (keyed (<[row := v]> inputs)) m' ->
  (if bool_decide (input_key u = input_key v) then rows_of inputs (input_key u)
   else match bm_get (input_key v) m' with
        | Some new_group => bs_extend new_group (rows_of inputs (input_key u))
        | None => rows_of inputs (input_key u)
        end) = edit_affects inputs row u v.
Proof.
  intros Hrow Hm'.
  assert (keyed (<[row := v]> inputs) (input_key v) row) as Hself
    by (apply (keyed_edit _ _ u); [done|by right]).
  destruct (bool_decide_reflect (input_key u = input_key v)) as [Heq|Hne].
  - apply bs_ext; [apply rows_of_sorted|apply bs_extend_sorted, rows_of_sorted|]. intros i.
    rewrite elem_of_edit_affects, elem_of_rows_of, (keyed_edit _ _ u) by done.
    split; [auto|]. intros [?|[[? _]|[_ ->]]]; [done|by rewrite Heq|]. unfold keyed. by rewrite Hrow.
  - pose proof Hm' as [_ Hget]. specialize (Hget (input_key v)).
    pose proof (Groups_rows_of _ _ (input_key v) Hm') as Hat. unfold group_at in Hat.
    destruct (bm_get (input_key v) m') as [g|]; [|by destruct (Hget row)].
    simpl in Hat. by rewrite Hat.
Qed.

Lemma edit_affects_range inputs row u v i :
  inputs !! row = Some u -> i ∈ edit_affects inputs row u v -> i < length inputs.
Proof.
  intros Hu Hi. apply elem_of_edit_affects in Hi as [Hi|Hi].
  - unfold keyed in Hi. destruct (inputs !! i) eqn:Hrow; [by apply lookup_lt_Some in Hrow|done].
  - apply (keyed_edit _ _ u) in Hi as [[Hi _]|[_ ->]]; [|by apply lookup_lt_Some in Hu|done].
    unfold keyed in Hi. destruct (inputs !! i) eqn:Hrow; [by apply lookup_lt_Some in Hrow|done].
Qed.
(** The cache with the edited row in place, before any issue is replaced. *)
Lemma edited_replacing inputs c row u v m' :
  inputs !! row = Some u -> (forall k, kind_count k c = count_kind k (rows c)) ->
  rows c = map (expected_row inputs) inputs ->
  Replacing (<[row := v]> inputs)
    (fun i => match inputs !! i with Some w => expected_issue inputs w | None => NoIssue end) m' []
    (mkIssueCache true (<[row := mkCachedRow (input_key v) (preview_base_issue v)
                                   (row_issue (expected_row inputs u)) (input_change v)]>
                          (map (expected_row inputs) inputs))
       m' (warning_rows c) (invalid_name_rows c) (duplicate_destination_rows c) (blocker_rows c)).
Proof.
  intros Hu Hcounts Hrows. apply lookup_lt_Some in Hu as Hlt.
  split; cbn [initialized rows destination_rows]; [done| |done|].
  - apply list_eq. intros j. rewrite list_lookup_imap. destruct (decide (j = row)) as [->|Hne].
    + rewrite !list_lookup_insert_eq by (by rewrite ?length_map). simpl. unfold row_during.
      rewrite decide_False by set_solver. by rewrite Hu.
    + rewrite !list_lookup_insert_ne, list_lookup_fmap by done.
      destruct (inputs !! j) as [w|] eqn:Hj; [|done]. simpl. unfold row_during.
      rewrite decide_False by set_solver. by rewrite Hj.
  - intros k. transitivity (kind_count k c); [by destruct k|]. rewrite Hcounts, Hrows.
    pose proof (count_kind_insert k (map (expected_row inputs) inputs) row (expected_row inputs u)
      (mkCachedRow (input_key v) (preview_base_issue v) (row_issue (expected_row inputs u)) (input_change v)))
      as Hinsert.
    rewrite list_lookup_fmap, Hu in Hinsert. specialize (Hinsert eq_refl). cbn [row_issue] in *. lia.
Qed.
Lemma refresh_one_represents inputs c row u v :
  Represents inputs c -> inputs !! row = Some u ->
  exists c', refresh_one_by key_of (length inputs) row v c
      = Ok (Some (mkUpdate (edit_affects inputs row u v) (is_changed (input_change u))
                    (is_changed (input_change v))), c')
    /\ Represents (<[row := v]> inputs) c'.
Proof.
  intros [Hinit Hrows Hgroups Hcounts Hblockers] Hu. apply lookup_lt_Some in Hu as Hlt.
  unfold refresh_one_by. rewrite Hinit, Hrows, length_map, Nat.eqb_refl.
  rewrite (proj2 (Nat.leb_gt _ _)) by done. cbn [negb orb].
  rewrite list_lookup_fmap, Hu. cbn [fmap option_fmap option_map destination_key change expected_row].
  destruct (move_row_groups _ _ _ v _ Hu Hgroups) as (m' & Hmove & Hm').
  assert (keyed inputs (input_key u) row) as Hkeyed by (unfold keyed; by rewrite Hu).
  pose proof (Groups_rows_of _ _ (input_key u) Hgroups) as Hat.
  rewrite (Groups_get _ _ _ Hgroups), Hat. apply elem_of_rows_of in Hkeyed as Hin.
  destruct (rows_of inputs (input_key u)) as [|x group] eqn:Hgroup; [by apply not_elem_of_nil in Hin|].
  rewrite <-Hgroup in *. rewrite (proj2 (bs_contains_spec _ _)) by done. cbn [negb].
  fold (input_key v). rewrite Hmove.
  match goal with |- context [replace_issues ?l _] =>
    assert (l = edit_affects inputs row u v) as -> by exact (affected_spec _ _ _ _ _ Hu Hm') end.
  set (c1 := mkIssueCache _ _ m' _ _ _ _).
  set (before i := match inputs !! i with Some w => expected_issue inputs w | None => NoIssue end).
  destruct (replace_issues_ok (<[row := v]> inputs) before m' (edit_affects inputs row u v) [] c1)
    as (c2 & Hc2 & [Hinit2 Hrows2 Hmap2 Hcounts2]); [done| | |].
  - by apply edited_replacing.
  - apply Forall_forall. intros i Hi. apply edit_affects_range in Hi; [|done]. by rewrite length_insert.
  - rewrite Hc2. eexists. split; [reflexivity|]. cbn [app] in *.
    split; [done| |by cbn; rewrite Hmap2| |done].
    + cbn [rows sum_blockers]. rewrite Hrows2. apply list_eq. intros j.
      rewrite list_lookup_imap, list_lookup_fmap. destruct (<[row := v]> inputs !! j) as [w|] eqn:Hw; [|done].
      simpl. unfold row_during, expected_row. do 2 f_equal. case_decide as Hj; [done|].
      rewrite elem_of_edit_affects in Hj. destruct (decide (j = row)) as [->|Hne].
      * destruct Hj. right. unfold keyed. rewrite Hw.
        rewrite list_lookup_insert_eq in Hw by done. by simplify_eq.
      * unfold keyed in Hj. rewrite Hw in Hj. rewrite list_lookup_insert_ne in Hw by done.
        unfold before. rewrite Hw in *. symmetry.
        apply (expected_issue_unaffected _ _ u); [done|intros Heq; apply Hj..]; [left|right];
          simpl; by rewrite Heq.
    + intros k. transitivity (kind_count k c2); [by destruct k|]. apply Hcounts2.
Qed.
End Spec.

(** ** Counts *)

Lemma count_refresh_spec changes :
  count_refresh changes = mkCountCache (length changes) (length (List.filter is_changed changes)).
Proof.
  unfold count_refresh.
  assert (forall l c, fold_left (fun c change =>
      mkCountCache (S (total c)) (changed c + (if is_changed change then 1 else 0))) l c
    = mkCountCache (total c + length l) (changed c + length (List.filter is_changed l))) as Hgen.
  { induction l as [|x l IH]; intros [t n]; cbn [fold_left]; [cbn; f_equal; lia|].
    rewrite IH. cbn. destruct (is_changed x); cbn; f_equal; lia. }
  by rewrite Hgen.
Qed.
Lemma count_refresh_one_spec changes row old new :
  changes !! row = Some old ->
  count_refresh_one (length changes) (is_changed old) (is_changed new) (count_refresh changes)
  = (true, count_refresh (<[row := new]> changes)).
Proof.
  intros Hrow. rewrite !count_refresh_spec, length_insert. unfold count_refresh_one. cbn.
  rewrite Nat.eqb_refl. cbn. pose proof (filter_insert_count is_changed changes row old new Hrow) as Hcount.
  assert (length (List.filter is_changed (<[row := new]> changes)) <= length changes) as Hle
    by (rewrite <-(length_insert changes row new); apply filter_length_le).
  destruct (is_changed old), (is_changed new).
  - assert (length (List.filter is_changed (<[row := new]> changes)) = length (List.filter is_changed changes))
      as Heq by lia. rewrite Heq in *. by rewrite (proj2 (Nat.leb_le _ _)).
  - destruct (length (List.filter is_changed changes)) as [|n]; [lia|].
    assert (length (List.filter is_changed (<[row := new]> changes)) = n) as Heq by lia.
    rewrite Heq in *. by rewrite (proj2 (Nat.leb_le _ _)).
  - assert (length (List.filter is_changed (<[row := new]> changes))
            = S (length (List.filter is_changed changes))) as Heq by lia.
    rewrite Heq in *. by rewrite (proj2 (Nat.leb_le _ _)).
  - assert (length (List.filter is_changed (<[row := new]> changes)) = length (List.filter is_changed changes))
      as Heq by lia. rewrite Heq in *. by rewrite (proj2 (Nat.leb_le _ _)).
Qed.

(** ** The preview of the list *)

Section ListPreviewCorrect.
Context (path_key : LegacyText -> list Z).
Abbreviation key_of := (preview_destination_key path_key) (only parsing).

Lemma preview_destination_key_path parent leaf :
  preview_destination_key path_key parent leaf = path_key (join_path parent leaf).
Proof.
  unfold preview_destination_key, join_path, last_is, destination_separator_units. f_equal. f_equal. f_equal.
  destruct (last parent) as [unit|]; [|done]. unfold is_path_separator. by destruct (_ || _).
Qed.
Lemma input_key_planned item : input_key key_of (row_input item) = path_key (planned_path item).
Proof. unfold input_key. cbn. by rewrite preview_destination_key_path. Qed.

Lemma refresh_full items :
  exists c, refresh_preview_count_cache path_key items
      = Ok (mkPreviewState (count_refresh (map planned_change_kind items)) c)
    /\ Represents key_of (map row_input items) c.
Proof.
  destruct (refresh_by_represents key_of (map row_input items)) as (c & Hc & Hrep).
  exists c. unfold refresh_preview_count_cache. by rewrite Hc.
Qed.
Lemma refresh_one_full items row item old s :
  items !! row = Some old -> refresh_preview_count_cache path_key items = Ok s ->
  exists s',
    refresh_proposal_row path_key (<[row := item]> items) row s
      = Ok (Some (edit_affects key_of (map row_input items) row (row_input old) (row_input item)), s')
    /\ refresh_preview_count_cache path_key (<[row := item]> items) = Ok s'.
Proof.
  intros Hold Hs. destruct (refresh_full items) as (c & Hc & Hrep). rewrite Hc in Hs. injection Hs as <-.
  destruct (refresh_full (<[row := item]> items)) as (c' & Hc' & Hrep'). apply lookup_lt_Some in Hold as Hlt.
  destruct (refresh_one_represents key_of _ c row (row_input old) (row_input item) Hrep) as (c2 & Hone & Hrep2).
  { by rewrite list_lookup_fmap, Hold. }
  rewrite length_map in Hone.
  assert (c2 = c') as ->.
  { apply (Represents_unique key_of (<[row := row_input item]> (map row_input items))); [done|].
    rewrite <-list_fmap_insert. done. }
  eexists. split; [|exact Hc']. unfold refresh_proposal_row.
  rewrite list_lookup_insert_eq, length_insert by done. cbn [preview_issue_cache preview_count_cache].
  rewrite Hone. cbn [mbind result_bind previous_changed current_changed affected_rows].
  assert (map planned_change_kind items !! row = Some (planned_change_kind old)) as Hkind
    by (by rewrite list_lookup_fmap, Hold).
  pose proof (count_refresh_one_spec _ _ _ (planned_change_kind item) Hkind) as Hcount.
  rewrite length_map in Hcount. cbn [input_change row_input]. rewrite Hcount. by rewrite <-list_fmap_insert.
Qed.
End ListPreviewCorrect.
