(* ===== verification/PreviewGuarantees.v ===== *)
(** * PreviewGuarantees: what the preview tells the user

    The properties of the preview caches over the rows of the list. *)

From S2P Require Import Prelude Collections LegacyText ListItem RenameModel Preview PreviewCorrect.
#[local] Open Scope nat_scope.

Section Specification.
Context (path_key : LegacyText -> list Z).
Implicit Types (items : list LegacyListItem) (item : LegacyListItem).

(** Another row is planned at the same destination. *)
Definition collides items (row : nat) : Prop :=
  exists item other item', items !! row = Some item /\ items !! other = Some item' /\ other <> row
    /\ path_key (planned_path item') = path_key (planned_path item).
Definition name_refused item (error : WindowsLeafNameError) : Prop :=
  renames (planned_change_kind item) = true /\ validate_windows_leaf_name (proposed_name item) = Err error.

Abbreviation key_of := (preview_destination_key path_key) (only parsing).

Lemma rows_of_singleton items row item :
  items !! row = Some item ->
  (1 <? length (rows_of key_of (map row_input items) (input_key key_of (row_input item)))) = true
  <-> collides items row.
Proof.
  intros Hrow. set (group := rows_of _ _ _).
  assert (forall i, i ∈ group <-> exists item', items !! i = Some item'
            /\ path_key (planned_path item') = path_key (planned_path item)) as Hmem.
  { intros i. unfold group. rewrite elem_of_rows_of. unfold keyed. rewrite list_lookup_fmap.
    destruct (items !! i) as [item'|]; simpl; [|split; [done|by intros (? & ? & _)]].
    rewrite !input_key_planned. split; [intros [= Heq]; by exists item'|].
    intros (item2 & [= <-] & Heq). by rewrite Heq. }
  assert (row ∈ group) as Hself by (apply Hmem; eauto).
  assert (NoDup group) as Hnodup by apply bs_sorted_NoDup, rows_of_sorted.
  rewrite Nat.ltb_lt. split.
  - intros Hlen. destruct group as [|a [|b group]]; [simpl in Hlen; lia..|].
    assert (a <> b) as Hab by (apply NoDup_cons in Hnodup as [Ha _]; set_solver).
    destruct (decide (a = row)) as [->|Ha].
    + destruct (proj1 (Hmem b)) as (item' & Hb & Heq); [set_solver|]. by exists item, b, item'.
    + destruct (proj1 (Hmem a)) as (item' & Hb & Heq); [set_solver|]. by exists item, a, item'.
  - intros (item2 & other & item' & Hrow2 & Hother & Hne & Heq). simplify_eq.
    assert (other ∈ group) as Hin by (apply Hmem; eauto).
    destruct group as [|a [|b group]]; [set_solver| |simpl; lia].
    apply list_elem_of_singleton in Hself, Hin. congruence.
Qed.

Lemma issue_expected items c row item :
  Represents key_of (map row_input items) c -> items !! row = Some item ->
  issue c row = expected_issue key_of (map row_input items) (row_input item).
Proof.
  intros Hrep Hrow. unfold issue. rewrite (represents_rows _ _ _ Hrep), !list_lookup_fmap, Hrow. done.
Qed.
Lemma expected_issue_cases items row item :
  items !! row = Some item ->
  let i := expected_issue key_of (map row_input items) (row_input item) in
  (forall error, i = InvalidName error <-> name_refused item error)
  /\ (i = DuplicateDestination
      <-> is_changed (planned_change_kind item) = true /\ collides items row
          /\ forall error, ~ name_refused item error)
  /\ (i = EmptyStem
      <-> renames (planned_change_kind item) = true
          /\ validate_windows_leaf_name (proposed_name item) = Ok tt
          /\ preview_name_has_empty_stem (proposed_name item) (is_directory item) = true
          /\ ~ collides items row).
Proof.
  assert (renames (planned_change_kind item) = true -> is_changed (planned_change_kind item) = true) as Himplies
    by by destruct (planned_change_kind item).
  intros Hrow. cbv zeta. unfold expected_issue. pose proof (rows_of_singleton items row item Hrow) as Hcollide.
  destruct (1 <? _); unfold resolved_preview_issue, preview_base_issue, name_refused; cbn.
  - assert (collides items row) by tauto.
    destruct (renames _) eqn:Hren, (validate_windows_leaf_name _) as [[]|e]; cbn;
      try destruct (preview_name_has_empty_stem _ _);
      destruct (is_changed _) eqn:Hchg; cbn; split_and!; naive_solver.
  - assert (~ collides items row) by (intros Hc; by apply Hcollide in Hc).
    destruct (renames _) eqn:Hren, (validate_windows_leaf_name _) as [[]|e]; cbn;
      try destruct (preview_name_has_empty_stem _ _); rewrite ?andb_false_r; cbn; split_and!; naive_solver.
Qed.
End Specification.

(** ** Blockers *)

Lemma elem_of_list_blocker_rows c i : i ∈ list_blocker_rows c <-> is_blocker (issue c i) = true.
Proof.
  unfold list_blocker_rows, issue. rewrite list_elem_of_omap. split.
  - intros ([j r] & Hin & Hj). apply elem_of_lookup_imap in Hin as (k & r' & Heq & Hk). simplify_eq.
    simpl in Hj. destruct (is_blocker (row_issue r')) eqn:Hb; [|done]. injection Hj as <-. by rewrite Hk.
  - destruct (rows c !! i) as [r|] eqn:Hr; [|done]. intros Hb. exists (i, r). simpl. rewrite Hb.
    split; [|done]. apply elem_of_lookup_imap. eauto.
Qed.
Lemma length_list_blocker_rows c :
  length (list_blocker_rows c) = count_kind Invalid (rows c) + count_kind Duplicate (rows c).
Proof.
  unfold list_blocker_rows, count_kind. generalize (fun (row : nat) (cached : CachedPreviewRow) => row).
  assert (forall l (f : nat -> CachedPreviewRow -> nat * CachedPreviewRow), (forall i r, (f i r).2 = r) ->
    length (omap (fun p => if is_blocker (row_issue p.2) then Some p.1 else None) (imap f l))
    = length (List.filter (fun r => has_kind Invalid (row_issue r)) l)
      + length (List.filter (fun r => has_kind Duplicate (row_issue r)) l)) as Hgen; [|intros _; by apply Hgen].
  induction l as [|r l IH]; intros f Hf; [done|].
  specialize (IH (f ∘ S) (fun i r => Hf (S i) r)). cbn in *. rewrite Hf.
  destruct (row_issue r) eqn:Hr; cbn; lia.
Qed.
Lemma has_blocker_iff key_of inputs c :
  Represents key_of inputs c -> has_blocker c = true <-> exists i, is_blocker (issue c i) = true.
Proof.
  intros Hrep. unfold has_blocker. rewrite (represents_blockers _ _ _ Hrep).
  pose proof (represents_counts _ _ _ Hrep Invalid) as Hi. pose proof (represents_counts _ _ _ Hrep Duplicate) as Hd.
  cbn in Hi, Hd. rewrite Hi, Hd, <-length_list_blocker_rows, negb_true_iff, Nat.eqb_neq. split.
  - intros Hlen. destruct (list_blocker_rows c) as [|i l] eqn:Hl; [done|]. exists i.
    apply elem_of_list_blocker_rows. rewrite Hl. apply list_elem_of_here.
  - intros (i & Hi'). apply elem_of_list_blocker_rows in Hi'.
    destruct (list_blocker_rows c); [by apply not_elem_of_nil in Hi'|done].
Qed.

Lemma filter_map_length {A B} (p : B -> bool) (f : A -> B) l :
  length (List.filter p (map f l)) = length (List.filter (fun x => p (f x)) l).
Proof. induction l as [|x l IH]; [done|]. cbn. destruct (p (f x)); cbn; by rewrite IH. Qed.

(** A row outside the affected ones keeps its issue. *)
Lemma affected_changed path_key items row item old s s' i :
  items !! row = Some old -> refresh_preview_count_cache path_key items = Ok s ->
  refresh_preview_count_cache path_key (<[row := item]> items) = Ok s' ->
  i <> row -> issue (preview_issue_cache s') i <> issue (preview_issue_cache s) i ->
  i ∈ edit_affects (preview_destination_key path_key) (map row_input items) row (row_input old) (row_input item).
Proof.
  intros Hold Hs Hs' Hne Hdiff.
  destruct (refresh_full path_key items) as (c & Hc & Hrep).
  destruct (refresh_full path_key (<[row := item]> items)) as (c' & Hc' & Hrep').
  rewrite Hc in Hs. rewrite Hc' in Hs'. injection Hs as <-. injection Hs' as <-.
  cbn [preview_issue_cache] in Hdiff.
  destruct (items !! i) as [w|] eqn:Hw.
  - assert (<[row := item]> items !! i = Some w) as Hw' by (by rewrite list_lookup_insert_ne).
    rewrite (issue_expected _ _ _ _ _ Hrep Hw), (issue_expected _ _ _ _ _ Hrep' Hw') in Hdiff.
    assert (map row_input items !! row = Some (row_input old)) as Hrow by (by rewrite list_lookup_fmap, Hold).
    assert (map row_input (<[row := item]> items) = <[row := row_input item]> (map row_input items)) as Hedit
      by apply list_fmap_insert.
    rewrite Hedit in Hdiff. destruct (decide (i ∈ edit_affects (preview_destination_key path_key)
      (map row_input items) row (row_input old) (row_input item))) as [|Hout]; [done|].
    destruct Hdiff. rewrite elem_of_edit_affects in Hout.
    apply (expected_issue_unaffected _ _ _ (row_input old)); [done|intros Heq; apply Hout..]; [left|right]; unfold keyed.
    + by rewrite list_lookup_fmap, Hw, <-Heq.
    + by rewrite <-Hedit, list_lookup_fmap, Hw', <-Heq.
  - destruct Hdiff. unfold issue. rewrite (represents_rows _ _ _ Hrep), (represents_rows _ _ _ Hrep').
    rewrite !list_lookup_fmap, list_lookup_insert_ne, Hw by done. done.
Qed.

Lemma edited_row_affected path_key items row item old :
  items !! row = Some old ->
  row ∈ edit_affects (preview_destination_key path_key) (map row_input items) row (row_input old) (row_input item).
Proof. intros Hold. apply elem_of_edit_affects. left. unfold keyed. by rewrite list_lookup_fmap, Hold. Qed.

(** ** The properties *)

(** C33: refreshing one row is refreshing everything.  Edit one row of a list
    whose preview is up to date: the incremental refresh never falls back, never
    panics, and leaves exactly the caches that a full refresh of the edited list
    builds, groups and counters included; the rows it asks to redraw are rows of
    the list, each of them once, and the edited row and every row whose issue
    changed are among them. *)
Theorem preview_edit_equals_refresh (path_key : LegacyText -> list Z) (items : list LegacyListItem)
    (row : nat) (old item : LegacyListItem) (s : PreviewState) :
  items !! row = Some old -> refresh_preview_count_cache path_key items = Ok s ->
  let edited := <[row := item]> items in
  exists affected s',
    refresh_proposal_row path_key edited row s = Ok (Some affected, s')
    /\ refresh_preview_count_cache path_key edited = Ok s'
    /\ NoDup affected /\ row ∈ affected /\ (forall i, i ∈ affected -> i < length items)
    /\ forall i, issue (preview_issue_cache s') i <> issue (preview_issue_cache s) i -> i ∈ affected.
Proof.
  intros Hold Hs. cbv zeta.
  destruct (refresh_one_full path_key items row item old s Hold Hs) as (s' & Hone & Hfull).
  pose proof (edited_row_affected path_key items row item old Hold) as Hself.
  eexists _, s'. split_and!; [exact Hone|done|apply bs_sorted_NoDup, bs_extend_sorted, rows_of_sorted|exact Hself| |].
  - intros i Hi. rewrite <-(length_map row_input items). eapply edit_affects_range; [|exact Hi].
    by rewrite list_lookup_fmap, Hold.
  - intros i Hdiff. destruct (decide (i = row)) as [->|Hne]; [exact Hself|by eapply affected_changed].
Qed.

(** A backend key that ignores nothing. *)
Definition sample_items : list LegacyListItem :=
  [set_proposed_name (text "b") (new_item (text "C:\a") false 0 0 0); new_item (text "C:\b") false 0 0 0;
   new_item (text "C:\c") false 0 0 0].
Lemma preview_edit_equals_refresh_witness :
  exists s affected s',
    refresh_preview_count_cache (fun path => path) sample_items = Ok s
    /\ refresh_proposal_row (fun path => path)
         (<[0 := set_proposed_name (text "c") (new_item (text "C:\a") false 0 0 0)]> sample_items) 0 s
       = Ok (Some affected, s')
    /\ NoDup affected.
Proof.
  destruct (preview_edit_equals_refresh (fun path => path) sample_items 0
    (set_proposed_name (text "b") (new_item (text "C:\a") false 0 0 0))
    (set_proposed_name (text "c") (new_item (text "C:\a") false 0 0 0))
    (match refresh_preview_count_cache (fun path => path) sample_items with
     | Ok s => s | Err _ => mkPreviewState (count_refresh []) default_issue_cache end))
    as (affected & s' & Hone & _ & Hnodup & _).
  - vm_compute. reflexivity.
  - vm_compute. reflexivity.
  - eexists _, affected, s'. split; [|split; [exact Hone|exact Hnodup]]. vm_compute. reflexivity.
Defined.

(** C34: the preview says of every row what is wrong with it.  A full refresh of
    any list succeeds; a row is marked invalid exactly when it is renamed to a
    name Windows refuses, with that reason; it is marked as a collision exactly
    when it changes, its name is not refused, and another row, changed or not, is
    planned at the same destination; it is warned about exactly when neither holds
    and the new name of a file has an empty stem; the blocking rows listed are exactly the
    rows so marked, the flag is set exactly when there is one, and the counts are
    those of the list. *)
Theorem preview_issues_exact (path_key : LegacyText -> list Z) (items : list LegacyListItem) :
  exists s, refresh_preview_count_cache path_key items = Ok s
  /\ (forall row item, items !! row = Some item ->
       (forall error, issue (preview_issue_cache s) row = InvalidName error <-> name_refused item error)
       /\ (issue (preview_issue_cache s) row = DuplicateDestination
           <-> is_changed (planned_change_kind item) = true /\ collides path_key items row
               /\ forall error, ~ name_refused item error)
       /\ (issue (preview_issue_cache s) row = EmptyStem
           <-> renames (planned_change_kind item) = true
               /\ validate_windows_leaf_name (proposed_name item) = Ok tt
               /\ preview_name_has_empty_stem (proposed_name item) (is_directory item) = true
               /\ ~ collides path_key items row))
  /\ (forall row, row ∈ list_blocker_rows (preview_issue_cache s)
                  <-> is_blocker (issue (preview_issue_cache s) row) = true)
  /\ (has_blocker (preview_issue_cache s) = true
      <-> exists row, is_blocker (issue (preview_issue_cache s) row) = true)
  /\ forall selected, with_selected (preview_count_cache s) selected
      = mkCounts (length items)
          (length (List.filter (fun item => is_changed (planned_change_kind item)) items)) selected.
Proof.
  destruct (refresh_full path_key items) as (c & Hc & Hrep). eexists. split; [exact Hc|].
  split_and!; cbn [preview_issue_cache preview_count_cache].
  - intros row item Hrow. rewrite (issue_expected _ _ _ _ _ Hrep Hrow). by apply expected_issue_cases.
  - apply elem_of_list_blocker_rows.
  - by eapply has_blocker_iff.
  - intros selected. rewrite count_refresh_spec, length_map. unfold with_selected. cbn. f_equal.
    apply filter_map_length.
Qed.
