(* ===== verification/ConfirmationDisplay.v ===== *)
(** * ConfirmationDisplay: names shown for confirmation

    [crates/darknamer-app/src/confirmation_display.rs]: what the user reads
    before confirming a rename.  UTF-16 units become tokens, a printable
    character or an escape [U+XXXX] in brackets, and a text longer than its
    budget is cut around the difference with ellipses.  A Rust string is the
    list of its scalar values, an index that would panic is [None]. *)

From S2P Require Import Prelude LegacyText.
#[local] Open Scope Z_scope.

Definition COMPACT_UNITS : nat := 56.
Definition DETAIL_FIELD_UNITS : nat := 49152.
Definition REPLACEMENT_CHARACTER : Z := 65533.
Definition ELLIPSIS : Z := 8230.

(** ** Tokens *)

Inductive Glyph : Type := Character (value : Z) | Escaped (unit : Z).
Record Token : Type := mkToken { start : nat; end_ : nat; glyph : Glyph }.

(** [char::from_u32] and [char::len_utf16]. *)
Definition char_from_u32 (value : Z) : option Z :=
  if (value <? 0) || (1114111 <? value) || ((55296 <=? value) && (value <=? 57343)) then None
  else Some value.
Definition len_utf16 (value : Z) : nat := if value <? 65536 then 1 else 2.
Definition utf16_len (text : list Z) : nat := list_sum (map len_utf16 text).

Definition cost_of (t : Token) : nat :=
  match glyph t with Character value => len_utf16 value | Escaped _ => 8 end.

(** One digit of [{unit:04X}]. *)
Definition hex_digit (digit : Z) : Z := if digit <? 10 then 48 + digit else 55 + digit.
Definition hex4 (unit : Z) : list Z :=
  [hex_digit (unit / 4096 mod 16); hex_digit (unit / 256 mod 16); hex_digit (unit / 16 mod 16);
   hex_digit (unit mod 16)].
(** The text of [Token::append]. *)
Definition token_text (t : Token) : list Z :=
  match glyph t with
  | Character value => [value]
  | Escaped unit => text "[U+" ++ hex4 unit ++ text "]"
  end.

Definition between (low high unit : Z) : bool := (low <=? unit) && (unit <=? high).
Definition escaped (unit : Z) : bool :=
  between 0 31 unit || between 127 159 unit || (unit =? 91) || (unit =? 93) || (unit =? 1564)
  || between 8206 8207 unit || (unit =? 8230) || between 8232 8238 unit || between 8294 8297 unit
  || (unit =? 65533).
Definition high_surrogate (unit : Z) : bool := between 55296 56319 unit.
Definition low_surrogate (unit : Z) : bool := between 56320 57343 unit.
Definition pair_scalar (high low : Z) : Z := 65536 + Z.shiftl (high - 55296) 10 + low - 56320.

Definition character (scalar : Z) : Glyph := Character (default REPLACEMENT_CHARACTER (char_from_u32 scalar)).
(** The glyph of a unit that starts no surrogate pair. *)
Definition single_glyph (unit : Z) : Glyph :=
  if escaped unit || between 55296 57343 unit then Escaped unit else character unit.

(** The loop of [tokens] from [index] on. *)
Fixpoint tokens_from (index : nat) (units : list Z) : list Token :=
  match units with
  | [] => []
  | unit :: rest =>
      match rest with
      | next :: rest' =>
          if high_surrogate unit && low_surrogate next
          then mkToken index (index + 2) (character (pair_scalar unit next)) :: tokens_from (index + 2) rest'
          else mkToken index (index + 1) (single_glyph unit) :: tokens_from (index + 1) rest
      | [] => [mkToken index (index + 1) (single_glyph unit)]
      end
  end.
Definition tokens (units : list Z) : list Token := tokens_from 0 units.

Definition cost (ts : list Token) : nat := list_sum (map cost_of ts).
(** The function [append]. *)
Definition tokens_text (ts : list Token) : list Z := concat (map token_text ts).

(** ** Rendering within a budget *)

(** [partition_point] of a predicate that holds of a prefix. *)
Fixpoint partition_point (p : Token -> bool) (ts : list Token) : nat :=
  match ts with
  | [] => 0
  | t :: ts' => if p t then S (partition_point p ts') else 0
  end.

Section Render.
Context (ts : list Token).

(** [while left > 0 && used + cost <= limit], first loop. *)
Fixpoint widen_left (left used limit : nat) : option (nat * nat) :=
  match left with
  | O => Some (O, used)
  | S before =>
      t ← ts !! before;
      if (used + cost_of t <=? limit)%nat then widen_left before (used + cost_of t) limit
      else Some (left, used)
  end.
(** [while right < tokens.len() && cost <= remaining]; [fuel] is the number of tokens. *)
Fixpoint widen_right (fuel right remaining : nat) : option (nat * nat) :=
  match fuel with
  | O => Some (right, remaining)
  | S fuel =>
      if (right <? length ts)%nat then
        t ← ts !! right;
        if (cost_of t <=? remaining)%nat then widen_right fuel (S right) (remaining - cost_of t)
        else Some (right, remaining)
      else Some (right, remaining)
  end.
(** The last loop, which spends what the right side left over. *)
Fixpoint widen_rest (left remaining : nat) : option (nat * nat) :=
  match left with
  | O => Some (O, remaining)
  | S before =>
      t ← ts !! before;
      if (cost_of t <=? remaining)%nat then widen_rest before (remaining - cost_of t)
      else Some (left, remaining)
  end.
(** [while head < end && used + cost <= available / 2]; [fuel] is [end - head]. *)
Fixpoint take_head (fuel head used limit : nat) : option (nat * nat) :=
  match fuel with
  | O => Some (head, used)
  | S fuel =>
      t ← ts !! head;
      if (used + cost_of t <=? limit)%nat then take_head fuel (S head) (used + cost_of t) limit
      else Some (head, used)
  end.
(** [while tail > head && used + cost <= available]; [fuel] is [tail - head]. *)
Fixpoint take_tail (fuel tail used limit : nat) : option (nat * nat) :=
  match fuel with
  | O => Some (tail, used)
  | S fuel =>
      t ← ts !! Nat.pred tail;
      if (used + cost_of t <=? limit)%nat then take_tail fuel (Nat.pred tail) (used + cost_of t) limit
      else Some (tail, used)
  end.

(** [tokens[from..to]]. *)
Definition range (from to : nat) : list Token := take (to - from) (drop from ts).
Definition ellipsis_if (shown : bool) : list Z := if shown then [ELLIPSIS] else [].

Definition render_around (start_ end__ budget focus_cost : nat) : option (list Z) :=
  let remaining := (budget - focus_cost - 2)%nat in
  '(left_, used) ← widen_left start_ 0 (remaining / 2);
  '(right_, remaining) ← widen_right (length ts) end__ (remaining - used);
  '(left_, _) ← widen_rest left_ remaining;
  Some (ellipsis_if (negb (left_ =? 0)%nat) ++ tokens_text (range left_ right_)
        ++ ellipsis_if (negb (right_ =? length ts)%nat)).
Definition render_within (start_ end__ budget : nat) : option (list Z) :=
  let outer := ((if (start_ =? 0)%nat then 0 else 1) + (if (end__ =? length ts)%nat then 0 else 1))%nat in
  let available := (budget - (outer + 1))%nat in
  '(head, used) ← take_head (end__ - start_) start_ 0 (available / 2);
  '(tail_, _) ← take_tail (end__ - head) end__ used available;
  Some (ellipsis_if (negb (start_ =? 0)%nat) ++ tokens_text (range start_ head) ++ [ELLIPSIS]
        ++ tokens_text (range tail_ end__) ++ ellipsis_if (negb (end__ =? length ts)%nat)).

Definition focus_start (raw_start : nat) : nat := partition_point (fun t => (end_ t <=? raw_start)%nat) ts.
Definition focus_end (raw_start raw_end : nat) : nat :=
  Nat.max (partition_point (fun t => (start t <? raw_end)%nat) ts) (focus_start raw_start).

Definition render (raw_start raw_end budget : nat) : option (list Z) :=
  if (budget =? 0)%nat then Some []
  else if (cost ts <=? budget)%nat then Some (tokens_text ts)
  else if (budget <? 3)%nat then Some [ELLIPSIS]
  else
    let start_ := focus_start raw_start in
    let end__ := focus_end raw_start raw_end in
    let focus_cost := cost (range start_ end__) in
    if (focus_cost + 2 <=? budget)%nat then render_around start_ end__ budget focus_cost
    else render_within start_ end__ budget.
End Render.

(** ** A pair of names *)

Record DisplayPair : Type := mkDisplayPair {
  before : list Z; after : list Z; elided : bool; hidden : bool
}.

(** [zip(..).take_while(|(a, b)| a == b).count()]. *)
Fixpoint common_prefix (a b : list Z) : nat :=
  match a, b with
  | x :: a', y :: b' => if x =? y then S (common_prefix a' b') else 0
  | _, _ => 0
  end.

(** The common suffix that does not reach into the common prefix. *)
Definition common_suffix (prefix : nat) (before_ after_ : list Z) : nat :=
  let maximum_suffix := Nat.min (length before_ - prefix) (length after_ - prefix) in
  common_prefix (take maximum_suffix (rev before_)) (take maximum_suffix (rev after_)).

Definition pair (before_ after_ : list Z) (budget : nat) : option DisplayPair :=
  let prefix := common_prefix before_ after_ in
  let suffix := common_suffix prefix before_ after_ in
  let left_ := tokens before_ in
  let right_ := tokens after_ in
  let elided := (budget <? cost left_)%nat || (budget <? cost right_)%nat in
  shown_before ← render left_ prefix (length before_ - suffix) budget;
  shown_after ← render right_ prefix (length after_ - suffix) budget;
  let hidden := negb (bool_decide (before_ = after_)) && bool_decide (shown_before = shown_after) in
  Some (mkDisplayPair shown_before shown_after elided hidden).

Definition tail (units : list Z) (budget : nat) : option (list Z) :=
  render (tokens units) (length units) (length units) budget.

(** ** Clipping a diagnostic *)

(** An escape at the head of the rest: eight ASCII characters, the eighth a
    closing bracket. *)
Definition starts_escape (rest : list Z) : bool :=
  starts_with rest (text "[U+") && bool_decide (rest !! 7%nat = Some 93)
  && forallb (fun c => c <? 128) (take 8 rest).
Definition token_width (rest : list Z) : nat := if starts_escape rest then 8 else 1.

(** The loop of [clip_diagnostic]; [fuel] is the length of the text. *)
Fixpoint clip_loop (fuel : nat) (rest : list Z) (used limit : nat) : list Z :=
  match fuel, rest with
  | S fuel, _ :: _ =>
      let token := take (token_width rest) rest in
      let units := utf16_len token in
      if (limit <? used + units)%nat then []
      else token ++ clip_loop fuel (drop (token_width rest) rest) (used + units) limit
  | _, _ => []
  end.
Definition clip_diagnostic (text : list Z) (budget : nat) : list Z :=
  if (utf16_len text <=? budget)%nat then text
  else if (budget =? 0)%nat then []
  else clip_loop (length text) text 0 (budget - 1) ++ [ELLIPSIS].
