(* ===== verification/ConfirmationCorrect.v ===== *)
(** * ConfirmationCorrect: what a shown name lets the user conclude

    Shown texts are a prefix code of the units, so a complete text identifies
    them; a text that was cut says so, fits its budget and contains the whole
    difference when that fits. *)

From S2P Require Import Prelude LegacyText ConfirmationDisplay.
#[local] Open Scope Z_scope.

(** ** Glyphs *)

Definition glyph_text (g : Glyph) : list Z := token_text (mkToken 0 0 g).
Definition glyph_units (g : Glyph) : list Z :=
  match g with
  | Escaped unit => [unit]
  | Character value =>
      if value <? 65536 then [value]
      else [55296 + (value - 65536) / 1024; 56320 + (value - 65536) mod 1024]
  end.
(** What the tokens of a text are made of: a character is never a bracket or an
    ellipsis. *)
Definition glyph_ok (g : Glyph) : Prop :=
  match g with
  | Character value => 0 <= value < 1114112 /\ value <> 91 /\ value <> ELLIPSIS
  | Escaped unit => 0 <= unit < 65536
  end.

Lemma hex_digit_inj a b : 0 <= a < 16 -> 0 <= b < 16 -> hex_digit a = hex_digit b -> a = b.
Proof. unfold hex_digit. intros Ha Hb. destruct (Z.ltb_spec a 10), (Z.ltb_spec b 10); lia. Qed.
Lemma hex_digit_range a : 0 <= a < 16 -> 48 <= hex_digit a <= 70.
Proof. unfold hex_digit. intros Ha. destruct (Z.ltb_spec a 10); lia. Qed.
Lemma hex4_inj a b : 0 <= a < 65536 -> 0 <= b < 65536 -> hex4 a = hex4 b -> a = b.
Proof.
  intros Ha Hb [= H3 H2 H1 H0]. apply hex_digit_inj in H3, H2, H1, H0; try (apply Z.mod_pos_bound; lia).
  Z.to_euclidean_division_equations. lia.
Qed.

(** Token texts are a prefix code. *)
Lemma glyph_text_prefix g h rest rest' :
  glyph_ok g -> glyph_ok h -> glyph_text g ++ rest = glyph_text h ++ rest' -> g = h /\ rest = rest'.
Proof.
  unfold glyph_text, token_text. cbn [glyph]. intros Hg Hh Heq.
  destruct g as [v|u], h as [v'|u']; cbn in Hg, Hh.
  - by injection Heq as -> ->.
  - destruct Hg as (_ & Hne & _). destruct Hne. by injection Heq as Hv _.
  - destruct Hh as (_ & Hne & _). destruct Hne. by injection Heq as Hv _.
  - rewrite <-!app_assoc in Heq. apply app_inj_1 in Heq as [_ Heq]; [|done].
    apply app_inj_1 in Heq as [Hhex Heq]; [|done]. apply hex4_inj in Hhex as ->; [|done..].
    apply app_inj_1 in Heq as [_ Heq]; [|done]. done.
Qed.
Lemma glyph_text_cons g : exists c t, glyph_text g = c :: t.
Proof. destruct g; by eexists _, _. Qed.
Lemma glyphs_text_inj gs : forall hs,
  Forall glyph_ok gs -> Forall glyph_ok hs ->
  concat (map glyph_text gs) = concat (map glyph_text hs) -> gs = hs.
Proof.
  induction gs as [|g gs IH]; intros [|h hs] Hgs Hhs Heq; cbn in Heq; [done| | |].
  - destruct (glyph_text_cons h) as (c & t & Hh). by rewrite Hh in Heq.
  - destruct (glyph_text_cons g) as (c & t & Hg). by rewrite Hg in Heq.
  - apply Forall_cons in Hgs as [Hg Hgs], Hhs as [Hh Hhs].
    apply glyph_text_prefix in Heq as [-> Heq]; [|done..]. f_equal. by apply IH.
Qed.

(** ** Tokens *)

(** Two-step induction that follows the loop of [tokens]. *)
Lemma tokens_ind (P : nat -> list Z -> list Token -> Prop) :
  (forall i, P i [] []) ->
  (forall i unit rest, P (i + 1)%nat rest (tokens_from (i + 1) rest) ->
     (forall next rest', rest = next :: rest' -> high_surrogate unit && low_surrogate next = false) ->
     P i (unit :: rest) (mkToken i (i + 1) (single_glyph unit) :: tokens_from (i + 1) rest)) ->
  (forall i unit next rest', P (i + 2)%nat rest' (tokens_from (i + 2) rest') ->
     high_surrogate unit = true -> low_surrogate next = true ->
     P i (unit :: next :: rest')
       (mkToken i (i + 2) (character (pair_scalar unit next)) :: tokens_from (i + 2) rest')) ->
  forall units i, P i units (tokens_from i units).
Proof.
  intros Hnil Hsingle Hpair units.
  remember (length units) as n eqn:Hn. assert (length units <= n)%nat as Hlen by lia. clear Hn.
  revert units Hlen. induction n as [|n IH]; intros [|unit rest] Hlen i; cbn [length] in *; try lia; [apply Hnil..|].
  destruct rest as [|next rest'].
  - apply (Hsingle i unit []); [apply Hnil|done].
  - cbn [tokens_from]. destruct (high_surrogate unit && low_surrogate next) eqn:Hsurrogate.
    + apply andb_prop in Hsurrogate as [Hhigh Hlow]. apply Hpair; [|done..]. apply IH. cbn in Hlen. lia.
    + apply (Hsingle i unit (next :: rest')); [apply IH; cbn in *; lia|].
      by intros next' rest'' [= <- <-].
Qed.

Definition is_u16 (u : Z) : Prop := 0 <= u < 65536.

Lemma char_from_u32_valid v :
  0 <= v < 1114112 -> between 55296 57343 v = false -> char_from_u32 v = Some v.
Proof.
  intros Hv Hs. unfold char_from_u32, between in *. rewrite Hs.
  by destruct (Z.ltb_spec v 0), (Z.ltb_spec 1114111 v); try lia.
Qed.
Lemma single_glyph_ok u : is_u16 u -> glyph_ok (single_glyph u) /\ glyph_units (single_glyph u) = [u].
Proof.
  intros Hu. unfold is_u16 in Hu. unfold single_glyph. destruct (escaped u || between 55296 57343 u) eqn:He; [done|].
  apply orb_false_iff in He as [He Hs]. unfold character.
  rewrite (char_from_u32_valid u); [|lia|done]. cbn.
  destruct (Z.ltb_spec u 65536); [|lia]. split; [|done]. split; [lia|].
  unfold ELLIPSIS. split; intros ->; by vm_compute in He.
Qed.
Lemma pair_glyph_ok u v :
  high_surrogate u = true -> low_surrogate v = true ->
  glyph_ok (character (pair_scalar u v)) /\ glyph_units (character (pair_scalar u v)) = [u; v].
Proof.
  unfold high_surrogate, low_surrogate, between. intros [Hu1 Hu2]%andb_prop [Hv1 Hv2]%andb_prop.
  apply Z.leb_le in Hu1, Hu2, Hv1, Hv2. unfold pair_scalar. rewrite Z.shiftl_mul_pow2 by lia.
  change (2 ^ 10) with 1024. set (s := 65536 + _ + _ - _).
  assert (65536 <= s < 1114112) as Hs by (subst s; lia). unfold character.
  rewrite char_from_u32_valid; [|lia|unfold between; destruct (Z.leb_spec s 57343); lia].
  cbn. unfold ELLIPSIS. destruct (Z.ltb_spec s 65536); [lia|]. split; [lia|].
  subst s. f_equal; [|f_equal]; Z.to_euclidean_division_equations; lia.
Qed.

(** No unit is lost: the glyphs of a text spell it. *)
Lemma tokens_glyphs units i :
  Forall is_u16 units ->
  Forall (fun t => glyph_ok (glyph t)) (tokens_from i units)
  /\ concat (map (fun t => glyph_units (glyph t)) (tokens_from i units)) = units.
Proof.
  revert units i. apply (tokens_ind (fun _ units ts => Forall is_u16 units ->
    Forall (fun t => glyph_ok (glyph t)) ts /\ concat (map (fun t => glyph_units (glyph t)) ts) = units)).
  - done.
  - intros i u rest IH _ [Hu Hrest]%Forall_cons. destruct (IH Hrest) as [Hok Hunits].
    destruct (single_glyph_ok u Hu) as [Hg Hgu]. split; [by constructor|]. cbn [map concat glyph]. by rewrite Hgu, Hunits.
  - intros i u v rest IH Hhigh Hlow [Hu [Hv Hrest]%Forall_cons]%Forall_cons.
    destruct (IH Hrest) as [Hok Hunits]. destruct (pair_glyph_ok u v Hhigh Hlow) as [Hg Hgu].
    split; [by constructor|]. cbn [map concat glyph]. by rewrite Hgu, Hunits.
Qed.
Lemma tokens_text_glyphs ts : tokens_text ts = concat (map glyph_text (map glyph ts)).
Proof. unfold tokens_text. rewrite map_map. done. Qed.
(** Complete texts identify the units. *)
Lemma tokens_text_inj a b :
  Forall is_u16 a -> Forall is_u16 b -> tokens_text (tokens a) = tokens_text (tokens b) -> a = b.
Proof.
  intros [Ha Hua]%(tokens_glyphs a 0) [Hb Hub]%(tokens_glyphs b 0). rewrite !tokens_text_glyphs.
  intros Heq%glyphs_text_inj; [|by apply Forall_map..].
  rewrite <-Hua, <-Hub, <-!(map_map glyph glyph_units). unfold tokens in Heq. by rewrite Heq.
Qed.

(** Where the tokens start and end. *)
Lemma tokens_spans units i :
  Forall (fun t => i <= start t < end_ t)%nat (tokens_from i units)
  /\ StronglySorted (fun t t' => end_ t <= start t')%nat (tokens_from i units).
Proof.
  revert units i. apply (tokens_ind (fun i _ ts =>
    Forall (fun t => i <= start t < end_ t)%nat ts /\ StronglySorted (fun t t' => end_ t <= start t')%nat ts)).
  - split; constructor.
  - intros i u rest [IH Hsorted] _. split; constructor; try done; cbn; try lia.
    + eapply Forall_impl; [exact IH|]. cbn. lia.
    + eapply Forall_impl; [exact IH|]. cbn. lia.
  - intros i u v rest [IH Hsorted] _ _. split; constructor; try done; cbn; try lia.
    + eapply Forall_impl; [exact IH|]. cbn. lia.
    + eapply Forall_impl; [exact IH|]. cbn. lia.
Qed.

(** ** Costs *)

Lemma utf16_len_app a b : utf16_len (a ++ b) = (utf16_len a + utf16_len b)%nat.
Proof. unfold utf16_len. by rewrite map_app, list_sum_app. Qed.
Lemma cost_app a b : cost (a ++ b) = (cost a + cost b)%nat.
Proof. unfold cost. by rewrite map_app, list_sum_app. Qed.
Lemma cost_of_pos t : (0 < cost_of t)%nat.
Proof. unfold cost_of, len_utf16. destruct (glyph t) as [v|u]; [destruct (v <? 65536)|]; lia. Qed.
Lemma cost_zero ts : cost ts = 0%nat -> ts = [].
Proof. destruct ts as [|t ts]; [done|]. pose proof (cost_of_pos t). unfold cost. cbn. lia. Qed.
Lemma tokens_text_app a b : tokens_text (a ++ b) = tokens_text a ++ tokens_text b.
Proof. unfold tokens_text. by rewrite map_app, concat_app. Qed.
Lemma hex_digit_mod_range a : 48 <= hex_digit (a mod 16) <= 70.
Proof. apply hex_digit_range, Z.mod_pos_bound. lia. Qed.
Lemma len_utf16_hex_digit a : len_utf16 (hex_digit (a mod 16)) = 1%nat.
Proof. unfold len_utf16. pose proof (hex_digit_mod_range a). destruct (Z.ltb_spec (hex_digit (a mod 16)) 65536); lia. Qed.
Lemma utf16_len_token t : utf16_len (token_text t) = cost_of t.
Proof.
  unfold token_text, cost_of. destruct (glyph t) as [v|u].
  - unfold utf16_len. cbn. lia.
  - rewrite !utf16_len_app. unfold utf16_len at 2. unfold hex4. cbn [map list_sum fold_right].
    by rewrite !len_utf16_hex_digit.
Qed.
Lemma utf16_len_tokens ts : utf16_len (tokens_text ts) = cost ts.
Proof.
  induction ts as [|t ts IH]; [done|]. change (tokens_text (t :: ts)) with (token_text t ++ tokens_text ts).
  rewrite utf16_len_app, utf16_len_token, IH. done.
Qed.
Lemma ellipsis_not_in_token t : glyph_ok (glyph t) -> ELLIPSIS ∉ token_text t.
Proof.
  unfold token_text. destruct (glyph t) as [v|u]; cbn [glyph_ok].
  - intros (_ & _ & Hne) [=]%list_elem_of_singleton. done.
  - intros _. rewrite !elem_of_app. unfold hex4. rewrite !elem_of_cons.
    pose proof (hex_digit_mod_range (u / 4096)). pose proof (hex_digit_mod_range (u / 256)).
    pose proof (hex_digit_mod_range (u / 16)). pose proof (hex_digit_mod_range u).
    unfold ELLIPSIS. intros [Hin|[Hin|Hin]].
    + vm_compute in Hin. by repeat (apply elem_of_cons in Hin as [Hin|Hin]; [done|]); apply not_elem_of_nil in Hin.
    + destruct Hin as [?|[?|[?|[?|Hin]]]]; [lia..|]. by apply not_elem_of_nil in Hin.
    + vm_compute in Hin. by repeat (apply elem_of_cons in Hin as [Hin|Hin]; [done|]); apply not_elem_of_nil in Hin.
Qed.
Lemma ellipsis_not_in_tokens ts : Forall (fun t => glyph_ok (glyph t)) ts -> ELLIPSIS ∉ tokens_text ts.
Proof.
  induction 1 as [|t ts Ht _ IH]; [apply not_elem_of_nil|].
  change (tokens_text (t :: ts)) with (token_text t ++ tokens_text ts). rewrite elem_of_app.
  intros [Hin|Hin]; [|done]. by apply (ellipsis_not_in_token t).
Qed.

(** ** Ranges and the loops that widen them *)

Lemma range_app ts a b c : (a <= b <= c)%nat -> range ts a c = range ts a b ++ range ts b c.
Proof.
  intros Habc. unfold range. replace (c - a)%nat with ((b - a) + (c - b))%nat by lia.
  rewrite <-take_take_drop, drop_drop. by replace (a + (b - a))%nat with b by lia.
Qed.
Lemma range_one ts k t : ts !! k = Some t -> range ts k (S k) = [t].
Proof.
  intros Ht. unfold range. replace (S k - k)%nat with 1%nat by lia. by rewrite (drop_S ts t k Ht).
Qed.
Lemma range_all ts : range ts 0 (length ts) = ts.
Proof. unfold range. rewrite drop_0, firstn_all2; [done|lia]. Qed.
Lemma cost_range_app ts a b c :
  (a <= b <= c)%nat -> cost (range ts a c) = (cost (range ts a b) + cost (range ts b c))%nat.
Proof. intros Habc. by rewrite (range_app ts a b c Habc), cost_app. Qed.
Lemma cost_range_one ts k t : ts !! k = Some t -> cost (range ts k (S k)) = cost_of t.
Proof. intros Ht. rewrite (range_one ts k t Ht). unfold cost. cbn. lia. Qed.
Lemma range_nil ts a : range ts a a = [].
Proof. unfold range. by rewrite Nat.sub_diag. Qed.
Lemma Forall_range (P : Token -> Prop) ts a b : Forall P ts -> Forall P (range ts a b).
Proof. intros H. unfold range. by apply Forall_take, Forall_drop. Qed.
(** The right part of a range loses its first token. *)
Lemma cost_range_cons ts a b t :
  ts !! a = Some t -> (a < b)%nat -> cost (range ts a b) = (cost_of t + cost (range ts (S a) b))%nat.
Proof. intros Ht Hab. rewrite (cost_range_app ts a (S a) b) by lia. by rewrite (cost_range_one ts a t Ht). Qed.
Lemma cost_range_snoc ts a b t :
  ts !! b = Some t -> (a <= b)%nat -> cost (range ts a (S b)) = (cost (range ts a b) + cost_of t)%nat.
Proof. intros Ht Hab. rewrite (cost_range_app ts a b (S b)) by lia. by rewrite (cost_range_one ts b t Ht). Qed.

(** The token at an index in range, and how the cost of a range extends by it. *)
Ltac token_at k t Ht :=
  let Hsome := fresh in
  match goal with |- context [?ts !! k] =>
    assert (is_Some (ts !! k)) as Hsome by (apply lookup_lt_is_Some_2; lia);
    destruct Hsome as [t Ht]; rewrite Ht; cbn [mbind option_bind]
  end.
(** Both outcomes of a loop that stays where it is. *)
Ltac loop_stays := eexists _, _; split; [reflexivity|rewrite ?range_nil; cbn; lia].

Section Loops.
Context (ts : list Token).

Lemma widen_left_spec left_ : forall used limit,
  (left_ <= length ts)%nat ->
  exists l u, widen_left ts left_ used limit = Some (l, u) /\ (l <= left_)%nat
    /\ u = (used + cost (range ts l left_))%nat /\ (used <= limit -> u <= limit)%nat.
Proof.
  induction left_ as [|k IH]; intros used limit Hlen; cbn [widen_left]; [loop_stays|].
  token_at k t Ht. destruct (Nat.leb_spec (used + cost_of t) limit); [|loop_stays].
  destruct (IH (used + cost_of t)%nat limit) as (l & u & -> & Hl & -> & Hlimit); [lia|].
  eexists _, _. split; [done|]. rewrite (cost_range_snoc ts l k t Ht Hl). lia.
Qed.
Lemma widen_rest_spec left_ : forall remaining,
  (left_ <= length ts)%nat ->
  exists l m, widen_rest ts left_ remaining = Some (l, m) /\ (l <= left_)%nat
    /\ (m + cost (range ts l left_))%nat = remaining.
Proof.
  induction left_ as [|k IH]; intros remaining Hlen; cbn [widen_rest]; [loop_stays|].
  token_at k t Ht. destruct (Nat.leb_spec (cost_of t) remaining); [|loop_stays].
  destruct (IH (remaining - cost_of t)%nat) as (l & m & -> & Hl & Hm); [lia|].
  eexists _, _. split; [done|]. rewrite (cost_range_snoc ts l k t Ht Hl). lia.
Qed.
Lemma widen_right_spec fuel : forall right_ remaining,
  (right_ <= length ts)%nat ->
  exists r m, widen_right ts fuel right_ remaining = Some (r, m) /\ (right_ <= r <= length ts)%nat
    /\ (m + cost (range ts right_ r))%nat = remaining.
Proof.
  induction fuel as [|fuel IH]; intros right_ remaining Hlen; cbn [widen_right]; [loop_stays|].
  destruct (Nat.ltb_spec right_ (length ts)); [|loop_stays].
  token_at right_ t Ht. destruct (Nat.leb_spec (cost_of t) remaining); [|loop_stays].
  destruct (IH (S right_) (remaining - cost_of t)%nat) as (r & m & -> & Hr & Hm); [lia|].
  eexists _, _. split; [done|]. rewrite (cost_range_cons ts right_ r t Ht) by lia. lia.
Qed.
(** The loop goes on while it can: [fuel] does not stop it. *)
Lemma widen_right_maximal fuel : forall right_ remaining r m,
  (length ts <= right_ + fuel)%nat -> widen_right ts fuel right_ remaining = Some (r, m) ->
  (length ts <= r)%nat \/ exists t, ts !! r = Some t /\ (m < cost_of t)%nat.
Proof.
  induction fuel as [|fuel IH]; intros right_ remaining r m Hfuel; cbn [widen_right].
  - intros [= <- <-]. left. lia.
  - destruct (Nat.ltb_spec right_ (length ts)); [|intros [= <- <-]; left; lia].
    token_at right_ t Ht. destruct (Nat.leb_spec (cost_of t) remaining).
    + apply IH. lia.
    + intros [= <- <-]. right. by exists t.
Qed.
Lemma take_head_spec fuel : forall head used limit,
  (head + fuel <= length ts)%nat ->
  exists h u, take_head ts fuel head used limit = Some (h, u) /\ (head <= h <= head + fuel)%nat
    /\ u = (used + cost (range ts head h))%nat /\ (used <= limit -> u <= limit)%nat.
Proof.
  induction fuel as [|fuel IH]; intros head used limit Hlen; cbn [take_head]; [loop_stays|].
  token_at head t Ht. destruct (Nat.leb_spec (used + cost_of t) limit); [|loop_stays].
  destruct (IH (S head) (used + cost_of t)%nat limit) as (h & u & -> & Hh & -> & Hlimit); [lia|].
  eexists _, _. split; [done|]. rewrite (cost_range_cons ts head h t Ht) by lia. lia.
Qed.
Lemma take_tail_spec fuel : forall tail_ used limit,
  (fuel <= tail_ <= length ts)%nat ->
  exists k u, take_tail ts fuel tail_ used limit = Some (k, u) /\ (tail_ - fuel <= k <= tail_)%nat
    /\ u = (used + cost (range ts k tail_))%nat /\ (used <= limit -> u <= limit)%nat.
Proof.
  induction fuel as [|fuel IH]; intros tail_ used limit Hlen; cbn [take_tail]; [loop_stays|].
  destruct tail_ as [|k]; [lia|]. cbn [Nat.pred].
  token_at k t Ht. destruct (Nat.leb_spec (used + cost_of t) limit); [|loop_stays].
  destruct (IH k (used + cost_of t)%nat limit) as (j & u & -> & Hj & -> & Hlimit); [lia|].
  eexists _, _. split; [done|]. rewrite (cost_range_snoc ts j k t Ht) by lia. lia.
Qed.

End Loops.

(** ** Focus *)

Lemma partition_point_le p ts : (partition_point p ts <= length ts)%nat.
Proof. induction ts as [|t ts IH]; cbn; [lia|]. destruct (p t); lia. Qed.
Lemma partition_point_false p ts : forall k t,
  ts !! k = Some t -> p t = false -> (partition_point p ts <= k)%nat.
Proof.
  induction ts as [|t' ts IH]; intros [|k] t Ht Hp; cbn in *; try done.
  - injection Ht as ->. rewrite Hp. lia.
  - destruct (p t'); [|lia]. specialize (IH k t Ht Hp). lia.
Qed.
Lemma partition_point_true p (R : Token -> Token -> Prop) ts :
  StronglySorted R ts -> (forall t t', R t t' -> p t' = true -> p t = true) -> forall k t,
  ts !! k = Some t -> p t = true -> (k < partition_point p ts)%nat.
Proof.
  intros Hsorted Hmono. induction Hsorted as [|t' ts Hsorted IH Hrel]; intros [|k] t Ht Hp; cbn in *; try done.
  - injection Ht as ->. rewrite Hp. lia.
  - rewrite Forall_forall in Hrel. rewrite (Hmono t' t); [|apply Hrel; by eapply list_elem_of_lookup_2|done].
    specialize (IH k t Ht Hp). lia.
Qed.

(** ** A rendering *)

Lemma utf16_len_ellipsis_if shown : utf16_len (ellipsis_if shown) = if shown then 1%nat else 0%nat.
Proof. by destruct shown. Qed.
Lemma elem_of_ellipsis_if shown : ELLIPSIS ∈ ellipsis_if shown <-> shown = true.
Proof. destruct shown; cbn; split; intros H; [done|by apply list_elem_of_singleton|by apply not_elem_of_nil in H|done]. Qed.
Lemma neqb_zero (n : nat) : (if negb (n =? 0)%nat then 1 else 0)%nat = (if (n =? 0)%nat then 0 else 1)%nat.
Proof. by destruct (n =? 0)%nat. Qed.

(** The tokens [[s, e)] are within a shown text. *)
Definition shows (ts : list Token) (s e : nat) (shown : list Z) : Prop :=
  exists l r, shown = l ++ tokens_text (range ts s e) ++ r.

Lemma shows_wider ts l s e r : (l <= s <= e)%nat -> (e <= r)%nat -> shows ts s e (tokens_text (range ts l r)).
Proof.
  intros H1 H2. rewrite (range_app ts l s r), (range_app ts s e r) by lia.
  rewrite !tokens_text_app. by eexists _, _.
Qed.
Lemma shows_within ts s e l shown r : shows ts s e shown -> shows ts s e (l ++ shown ++ r).
Proof. intros (l' & r' & ->). exists (l ++ l'), (r' ++ r). by rewrite !app_assoc. Qed.

Lemma render_around_spec ts s e budget :
  (s <= e <= length ts)%nat -> (cost (range ts s e) + 2 <= budget)%nat -> (budget < cost ts)%nat ->
  exists shown, render_around ts s e budget (cost (range ts s e)) = Some shown
    /\ (utf16_len shown <= budget)%nat /\ ELLIPSIS ∈ shown /\ shows ts s e shown.
Proof.
  intros Hse Hfits Hcost. unfold render_around. set (remaining := (budget - _ - 2)%nat).
  destruct (widen_left_spec ts s 0 (remaining / 2)) as (l & u & Hleft & Hl & Hu & Hlimit); [lia|].
  rewrite Hleft. cbn [mbind option_bind]. specialize (Hlimit ltac:(lia)).
  pose proof (Nat.Div0.div_le_upper_bound remaining 2 remaining ltac:(lia)) as Hhalf.
  destruct (widen_right_spec ts (length ts) e (remaining - u)) as (r & m & Hright & Hr & Hm); [lia|].
  rewrite Hright. cbn [mbind option_bind].
  destruct (widen_rest_spec ts l m) as (l' & m' & Hrest & Hl' & Hm'); [lia|].
  rewrite Hrest. cbn [mbind option_bind]. eexists. split; [done|].
  assert (cost (range ts l' r) + 2 <= budget)%nat as Htotal.
  { rewrite (cost_range_app ts l' l r), (cost_range_app ts l s r), (cost_range_app ts s e r) by lia.
    subst remaining. lia. }
  split; [|split].
  - rewrite !utf16_len_app, !utf16_len_ellipsis_if, utf16_len_tokens.
    destruct (negb (l' =? 0)%nat), (negb (r =? length ts)%nat); lia.
  - rewrite !elem_of_app, !elem_of_ellipsis_if.
    destruct (Nat.eqb_spec l' 0) as [->|]; [|by left]. destruct (Nat.eqb_spec r (length ts)) as [->|]; [|by right; right].
    rewrite range_all in Htotal. lia.
  - apply shows_within, shows_wider; lia.
Qed.

Lemma render_within_spec ts s e budget :
  (s <= e <= length ts)%nat -> (3 <= budget)%nat ->
  exists shown, render_within ts s e budget = Some shown /\ (utf16_len shown <= budget)%nat /\ ELLIPSIS ∈ shown.
Proof.
  intros Hse Hbudget. unfold render_within. set (outer := ((if (s =? 0)%nat then 0 else 1) + _)%nat).
  set (available := (budget - _)%nat).
  destruct (take_head_spec ts (e - s) s 0 (available / 2)) as (h & u & Hhead & Hh & Hu & Hlimit); [lia|].
  rewrite Hhead. cbn [mbind option_bind]. specialize (Hlimit ltac:(lia)).
  pose proof (Nat.Div0.div_le_upper_bound available 2 available ltac:(lia)) as Hhalf.
  destruct (take_tail_spec ts (e - h) e u available) as (k & u' & Htail & Hk & Hu' & Hlimit'); [lia|].
  rewrite Htail. cbn [mbind option_bind]. specialize (Hlimit' ltac:(lia)). eexists. split; [done|]. split.
  - rewrite !utf16_len_app, !utf16_len_ellipsis_if, !utf16_len_tokens.
    change (utf16_len [ELLIPSIS]) with 1%nat.
    assert (outer <= 2)%nat by (subst outer; destruct (s =? 0)%nat, (e =? length ts)%nat; lia).
    unfold negb. destruct (s =? 0)%nat, (e =? length ts)%nat; subst outer available; cbn in *; lia.
  - rewrite !elem_of_app. right; right; left. by apply list_elem_of_singleton.
Qed.

Lemma focus_bounds ts raw_start raw_end :
  (focus_start ts raw_start <= focus_end ts raw_start raw_end <= length ts)%nat.
Proof.
  unfold focus_end, focus_start. pose proof (partition_point_le (fun t => (end_ t <=? raw_start)%nat) ts).
  pose proof (partition_point_le (fun t => (start t <? raw_end)%nat) ts). lia.
Qed.

(** What [render] promises for the tokens of a text. *)
Record rendered (ts : list Token) (raw_start raw_end budget : nat) (shown : list Z) : Prop := mkRendered {
  rendered_fits : (utf16_len shown <= budget)%nat;
  rendered_cut : (0 < budget)%nat -> ELLIPSIS ∈ shown <-> (budget < cost ts)%nat;
  rendered_whole : (cost ts <= budget)%nat -> shown = tokens_text ts;
  rendered_focus : (0 < budget)%nat ->
    (cost (range ts (focus_start ts raw_start) (focus_end ts raw_start raw_end)) + 2 <= budget)%nat ->
    shows ts (focus_start ts raw_start) (focus_end ts raw_start raw_end) shown
}.

Lemma render_rendered ts raw_start raw_end budget :
  Forall (fun t => glyph_ok (glyph t)) ts ->
  exists shown, render ts raw_start raw_end budget = Some shown /\ rendered ts raw_start raw_end budget shown.
Proof.
  intros Hok. unfold render. pose proof (focus_bounds ts raw_start raw_end) as Hbounds.
  destruct (Nat.eqb_spec budget 0) as [->|Hbudget].
  { eexists. split; [done|]. split; [cbn; lia|lia| |lia].
    intros Hcost. by rewrite (cost_zero ts) by lia. }
  destruct (Nat.leb_spec (cost ts) budget) as [Hfits|Hcut].
  { eexists. split; [done|]. split.
    - by rewrite utf16_len_tokens.
    - intros _. split; [|lia]. intros Hin. by apply ellipsis_not_in_tokens in Hin.
    - done.
    - intros _ _. pose proof (shows_wider ts 0 (focus_start ts raw_start) (focus_end ts raw_start raw_end) (length ts)
        ltac:(lia) ltac:(lia)) as Hshows. by rewrite range_all in Hshows. }
  destruct (Nat.ltb_spec budget 3) as [Hsmall|Hlarge].
  { eexists. split; [done|]. split; [change (utf16_len [ELLIPSIS]) with 1%nat; lia| |lia|].
    - intros _. split; [done|]. intros _. by apply list_elem_of_singleton.
    - intros _ Hfocus. exists [ELLIPSIS], []. by rewrite (cost_zero (range _ _ _)) by lia. }
  destruct (Nat.leb_spec (cost (range ts (focus_start ts raw_start) (focus_end ts raw_start raw_end)) + 2) budget).
  - destruct (render_around_spec ts (focus_start ts raw_start) (focus_end ts raw_start raw_end) budget)
      as (shown & -> & Hlen & Hin & Hshows); [done..|].
    eexists. split; [done|]. by split; [..|lia|].
  - destruct (render_within_spec ts (focus_start ts raw_start) (focus_end ts raw_start raw_end) budget)
      as (shown & -> & Hlen & Hin); [done..|].
    eexists. split; [done|]. by split; [..|lia|lia].
Qed.

(** The focus holds every token that overlaps the raw range. *)
Lemma focus_covers units raw_start raw_end k t :
  tokens units !! k = Some t -> (raw_start < end_ t)%nat -> (start t < raw_end)%nat ->
  (focus_start (tokens units) raw_start <= k < focus_end (tokens units) raw_start raw_end)%nat.
Proof.
  intros Ht Hstart Hend. destruct (tokens_spans units 0) as [Hspans Hsorted]. split.
  - apply (partition_point_false _ _ k t Ht). apply Nat.leb_gt. lia.
  - unfold focus_end. assert (k < partition_point (fun t => (start t <? raw_end)%nat) (tokens units))%nat; [|lia].
    apply (partition_point_true _ (fun t t' => start t <= start t')%nat _) with (t := t); [| |done|by apply Nat.ltb_lt].
    + unfold tokens. clear -Hspans Hsorted. induction Hsorted as [|t' ts Hsorted IH Hrel]; constructor.
      * apply IH. by apply Forall_cons in Hspans as [_ ?].
      * apply Forall_cons in Hspans as [Ht' _]. eapply Forall_impl; [exact Hrel|]. cbn. lia.
    + intros t1 t2 Hle Hlt%Nat.ltb_lt. apply Nat.ltb_lt. lia.
Qed.
