(* ===== verification/ConfirmationGuarantees.v ===== *)
(** * ConfirmationGuarantees: what the confirmation shows

    The properties of the names shown for confirmation: a cut is disclosed and
    stays within the budget, the difference of two names is shown whole when
    it fits, a text that is not cut identifies its name, and a clipped
    diagnostic never cuts a character or an escape. *)

From S2P Require Import Prelude LegacyText ConfirmationDisplay ConfirmationCorrect.
#[local] Open Scope Z_scope.

(** ** The difference of two names *)

Lemma common_prefix_le a : forall b, (common_prefix a b <= Nat.min (length a) (length b))%nat.
Proof.
  induction a as [|x a IH]; intros [|y b]; cbn; try lia. destruct (x =? y); [|lia]. specialize (IH b). lia.
Qed.
Lemma common_prefix_take a : forall b, take (common_prefix a b) a = take (common_prefix a b) b.
Proof.
  induction a as [|x a IH]; intros [|y b]; cbn; try done.
  destruct (Z.eqb_spec x y) as [->|]; [|done]. cbn. by rewrite IH.
Qed.
Lemma common_suffix_le a b :
  let prefix := common_prefix a b in
  (prefix + common_suffix prefix a b <= Nat.min (length a) (length b))%nat.
Proof.
  cbn zeta. pose proof (common_prefix_le a b) as Hprefix. unfold common_suffix.
  set (m := Nat.min _ _). pose proof (common_prefix_le (take m (rev a)) (take m (rev b))) as H.
  rewrite !length_take, !length_rev in H. subst m. lia.
Qed.
Lemma common_suffix_drop prefix a b :
  drop (length a - common_suffix prefix a b) a = drop (length b - common_suffix prefix a b) b.
Proof.
  unfold common_suffix. set (m := Nat.min _ _). set (n := common_prefix _ _).
  assert (take n (rev a) = take n (rev b)) as Heq.
  { pose proof (common_prefix_take (take m (rev a)) (take m (rev b))) as H.
    pose proof (common_prefix_le (take m (rev a)) (take m (rev b))) as Hle.
    fold n in H, Hle. rewrite !length_take in Hle. rewrite !take_take in H.
    by replace (n `min` m)%nat with n in H by lia. }
  rewrite !firstn_rev in Heq. by apply (f_equal (@rev Z)) in Heq; rewrite !rev_involutive in Heq.
Qed.
(** The two names are equal around the differing parts. *)
Lemma names_around_difference a b (prefix := common_prefix a b) (suffix := common_suffix prefix a b) :
  a = take prefix a ++ take (length a - suffix - prefix) (drop prefix a) ++ drop (length a - suffix) a
  /\ b = take prefix a ++ take (length b - suffix - prefix) (drop prefix b) ++ drop (length a - suffix) a.
Proof.
  pose proof (common_suffix_le a b) as Hle. cbn zeta in Hle. fold prefix suffix in Hle.
  assert (forall c : list Z, (prefix + suffix <= length c)%nat ->
    c = take prefix c ++ take (length c - suffix - prefix) (drop prefix c) ++ drop (length c - suffix) c) as Hsplit.
  { intros c Hc. rewrite <-(take_drop prefix c) at 1. f_equal.
    rewrite <-(take_drop (length c - suffix - prefix) (drop prefix c)) at 1. f_equal.
    rewrite drop_drop. f_equal. lia. }
  split; [apply Hsplit; lia|]. unfold prefix at 1. rewrite common_prefix_take. fold prefix.
  unfold suffix at 2. rewrite (common_suffix_drop prefix a b). apply Hsplit. lia.
Qed.

(** ** A pair of names *)

Lemma units_u16 units : forallb (between 0 65535) units = true -> Forall is_u16 units.
Proof.
  rewrite forallb_forall, Forall_forall. intros H u Hu%list_elem_of_In%H. unfold between in Hu.
  apply andb_prop in Hu as [?%Z.leb_le ?%Z.leb_le]. unfold is_u16. lia.
Qed.
Lemma tokens_ok units : Forall is_u16 units -> Forall (fun t => glyph_ok (glyph t)) (tokens units).
Proof. apply tokens_glyphs. Qed.

(** Both sides of a pair are renderings around their differing range. *)
Lemma pair_rendered a b budget :
  Forall is_u16 a -> Forall is_u16 b ->
  exists p, pair a b budget = Some p
    /\ rendered (tokens a) (common_prefix a b) (length a - common_suffix (common_prefix a b) a b) budget (before p)
    /\ rendered (tokens b) (common_prefix a b) (length b - common_suffix (common_prefix a b) a b) budget (after p)
    /\ elided p = (budget <? cost (tokens a))%nat || (budget <? cost (tokens b))%nat
    /\ hidden p = negb (bool_decide (a = b)) && bool_decide (before p = after p).
Proof.
  intros Ha Hb. unfold pair.
  edestruct (render_rendered (tokens a)) as (shown & -> & Hshown); [by apply tokens_ok|].
  edestruct (render_rendered (tokens b)) as (shown' & -> & Hshown'); [by apply tokens_ok|].
  cbn [mbind option_bind]. by eexists.
Qed.

(** For any two names and any budget, [pair] returns (no index of it is out
    of range); each side fits the budget; the pair is marked elided exactly
    when an ellipsis is shown, which is exactly when a name does not fit; and
    it is marked hidden exactly when two different names are shown alike,
    which happens to cut names only. *)
Theorem pair_discloses_cuts a b budget :
  Forall is_u16 a -> Forall is_u16 b -> (0 < budget)%nat ->
  exists p, pair a b budget = Some p
    /\ (utf16_len (before p) <= budget)%nat /\ (utf16_len (after p) <= budget)%nat
    /\ (ELLIPSIS ∈ before p <-> (budget < cost (tokens a))%nat)
    /\ (ELLIPSIS ∈ after p <-> (budget < cost (tokens b))%nat)
    /\ (elided p = true <-> ELLIPSIS ∈ before p \/ ELLIPSIS ∈ after p)
    /\ (hidden p = true <-> a ≠ b /\ before p = after p)
    /\ (hidden p = true -> elided p = true).
Proof.
  intros Ha Hb Hbudget. destruct (pair_rendered a b budget Ha Hb) as (p & Hp & Hbefore & Hafter & Helided & Hhidden).
  exists p. pose proof (rendered_cut _ _ _ _ _ Hbefore Hbudget) as Hcut.
  pose proof (rendered_cut _ _ _ _ _ Hafter Hbudget) as Hcut'.
  assert (elided p = true <-> ELLIPSIS ∈ before p \/ ELLIPSIS ∈ after p) as Hmarked.
  { by rewrite Helided, orb_true_iff, !Nat.ltb_lt, Hcut, Hcut'. }
  assert (hidden p = true <-> a ≠ b /\ before p = after p) as Hsame.
  { by rewrite Hhidden, andb_true_iff, negb_true_iff, bool_decide_eq_false, bool_decide_eq_true. }
  split; [done|]. split; [apply Hbefore|]. split; [apply Hafter|]. do 4 (split; [done|]).
  intros [Hne Heq]%Hsame. destruct (elided p) eqn:Hflag; [done|]. destruct Hne.
  symmetry in Helided. apply orb_false_iff in Helided as [Hfits%Nat.ltb_ge Hfits'%Nat.ltb_ge].
  apply tokens_text_inj; [done..|].
  by rewrite <-(rendered_whole _ _ _ _ _ Hbefore Hfits), <-(rendered_whole _ _ _ _ _ Hafter Hfits').
Qed.

(** Two names that differ in the middle. *)
Lemma pair_discloses_cuts_witness :
  exists p, pair (text "aaaaaaaaaaXaaaaaaaaaa") (text "aaaaaaaaaaYaaaaaaaaaa") 7 = Some p
    /\ elided p = true /\ hidden p = false.
Proof.
  destruct (pair_discloses_cuts (text "aaaaaaaaaaXaaaaaaaaaa") (text "aaaaaaaaaaYaaaaaaaaaa") 7)
    as (p & Hp & _ & _ & _ & _ & Helided & Hhidden & _);
    [by apply units_u16..|lia|].
  exists p. split; [exact Hp|]. vm_compute in Hp. injection Hp as <-. by split.
Defined.

(** The names of a pair are a common start, each its differing part and a
    common end; on each side, when the characters and escapes that touch the
    differing part cost at most the budget less the two ellipses, every one
    of them is shown, in one piece and in order. *)
Theorem pair_shows_difference a b budget :
  Forall is_u16 a -> Forall is_u16 b -> (0 < budget)%nat ->
  exists p prefix suffix, pair a b budget = Some p
    /\ (exists common_start difference difference' common_end,
          a = common_start ++ difference ++ common_end /\ b = common_start ++ difference' ++ common_end
          /\ length common_start = prefix /\ length common_end = suffix)
    /\ forall units shown, (units, shown) = (a, before p) \/ (units, shown) = (b, after p) ->
       exists s e, (forall k t, tokens units !! k = Some t ->
                      (prefix < end_ t)%nat -> (start t < length units - suffix)%nat -> (s <= k < e)%nat)
         /\ ((cost (range (tokens units) s e) + 2 <= budget)%nat -> shows (tokens units) s e shown).
Proof.
  intros Ha Hb Hbudget. destruct (pair_rendered a b budget Ha Hb) as (p & Hp & Hbefore & Hafter & _ & _).
  exists p, (common_prefix a b), (common_suffix (common_prefix a b) a b). split; [done|]. split.
  - destruct (names_around_difference a b) as [Ha' Hb']. eexists _, _, _, _. split; [exact Ha'|].
    split; [exact Hb'|]. pose proof (common_prefix_le a b). pose proof (common_suffix_le a b) as Hsuffix.
    cbn zeta in Hsuffix.
    split; [rewrite length_take; lia|rewrite length_drop; lia].
  - intros units shown Hside. eexists _, _. split; [intros k t; apply focus_covers|]. intros Hfits.
    destruct Hside as [[= -> ->]|[= -> ->]]; [by apply Hbefore|by apply Hafter].
Qed.

(** The old and the new name differ in a letter and in an escaped control. *)
Lemma pair_shows_difference_witness :
  exists p, pair (text "aaaaaaaaaaXaaaaaaaaaa") (text "aaaaaaaaaa" ++ [7] ++ text "aaaaaaaaaa") 12 = Some p
    /\ shows (tokens (text "aaaaaaaaaa" ++ [7] ++ text "aaaaaaaaaa")) 10 11 (after p).
Proof.
  destruct (pair_shows_difference (text "aaaaaaaaaaXaaaaaaaaaa") (text "aaaaaaaaaa" ++ [7] ++ text "aaaaaaaaaa") 12)
    as (p & _ & _ & Hp & _ & _); [by apply units_u16..|lia|].
  exists p. split; [exact Hp|]. vm_compute in Hp. injection Hp as <-.
  by exists [ELLIPSIS; 97], [97; ELLIPSIS].
Defined.

(** C35: A shown name that carries no ellipsis identifies the name: two names,
    each shown in any pair of its own and within any positive budget, that are
    shown by the same text without an ellipsis are the same sequence of units,
    unpaired surrogates included.  (A budget of 0 shows every name as nothing; the
    program's budgets are positive.) *)
Theorem uncut_text_identifies_name a b a' b' budget budget' p p' :
  Forall is_u16 a -> Forall is_u16 b -> Forall is_u16 a' -> Forall is_u16 b' ->
  (0 < budget)%nat -> (0 < budget')%nat ->
  pair a b budget = Some p -> pair a' b' budget' = Some p' ->
  forall units shown units' shown',
  (units, shown) = (a, before p) \/ (units, shown) = (b, after p) ->
  (units', shown') = (a', before p') \/ (units', shown') = (b', after p') ->
  ELLIPSIS ∉ shown -> shown = shown' -> units = units'.
Proof.
  intros Ha Hb Ha' Hb' Hbudget Hbudget' Hp Hp' units shown units' shown' Hside Hside' Hwhole <-.
  assert (forall a b budget p units shown, Forall is_u16 a -> Forall is_u16 b -> (0 < budget)%nat ->
    pair a b budget = Some p -> (units, shown) = (a, before p) \/ (units, shown) = (b, after p) ->
    ELLIPSIS ∉ shown -> Forall is_u16 units /\ shown = tokens_text (tokens units)) as Hcomplete.
  { clear. intros a b budget p units shown Ha Hb Hbudget Hp Hside Hwhole.
    destruct (pair_rendered a b budget Ha Hb) as (p1 & Hp1 & Hbefore & Hafter & _ & _).
    rewrite Hp in Hp1. injection Hp1 as <-.
    destruct Hside as [[= -> ->]|[= -> ->]]; (split; [done|]).
    - apply Hbefore. rewrite (rendered_cut _ _ _ _ _ Hbefore Hbudget) in Hwhole. lia.
    - apply Hafter. rewrite (rendered_cut _ _ _ _ _ Hafter Hbudget) in Hwhole. lia. }
  destruct (Hcomplete a b budget p units shown) as [Hu Hshown]; [done..|].
  destruct (Hcomplete a' b' budget' p' units' shown) as [Hu' Hshown']; [done..|].
  apply tokens_text_inj; [done..|]. by rewrite <-Hshown, <-Hshown'.
Qed.
(** A name that spells an escape is not taken for the unit it spells. *)
Lemma uncut_text_identifies_name_witness :
  exists p p', pair [55296] [97] 56 = Some p /\ pair (text "[U+D800]") [97] 56 = Some p'
    /\ ELLIPSIS ∉ before p /\ before p ≠ before p'.
Proof.
  exists (mkDisplayPair (text "[U+D800]") (text "a") false false),
    (mkDisplayPair (text "[U+005B]U+D800[U+005D]") (text "a") false false).
  assert (ELLIPSIS ∉ text "[U+D800]") as Hwhole by (apply (bool_decide_unpack _); vm_compute; exact I).
  split; [vm_compute; reflexivity|]. split; [vm_compute; reflexivity|]. split; [exact Hwhole|]. intros Heq.
  assert ([55296] = text "[U+D800]") as H; [|discriminate H].
  refine (uncut_text_identifies_name [55296] [97] (text "[U+D800]") [97] 56 56
    (mkDisplayPair (text "[U+D800]") (text "a") false false)
    (mkDisplayPair (text "[U+005B]U+D800[U+005D]") (text "a") false false) _ _ _ _ _ _ _ _
    _ _ _ _ (or_introl eq_refl) (or_introl eq_refl) Hwhole Heq);
    [by apply units_u16..|lia|lia|vm_compute; reflexivity|vm_compute; reflexivity].
Defined.

(** ** Clipping *)

(** A text that can be clipped: no character is the bracket that opens an escape. *)
Definition clippable (t : Token) : Prop :=
  match glyph t with Character value => value ≠ 91 | Escaped _ => True end.

Lemma token_width_escape a b c d rest :
  a < 128 -> b < 128 -> c < 128 -> d < 128 ->
  token_width (91 :: 85 :: 43 :: a :: b :: c :: d :: 93 :: rest) = 8%nat.
Proof.
  intros Ha%Z.ltb_lt Hb%Z.ltb_lt Hc%Z.ltb_lt Hd%Z.ltb_lt. unfold token_width, starts_escape.
  rewrite bool_decide_eq_true_2 by done. cbn [take forallb]. by rewrite Ha, Hb, Hc, Hd.
Qed.
Lemma token_width_character v rest : v ≠ 91 -> token_width (v :: rest) = 1%nat.
Proof.
  intros Hv%Z.eqb_neq. unfold token_width, starts_escape. change (text "[U+") with [91; 85; 43].
  cbn [starts_with]. by rewrite Hv.
Qed.
Lemma token_width_token t rest : clippable t -> token_width (token_text t ++ rest) = length (token_text t).
Proof.
  unfold clippable, token_text. destruct (glyph t) as [v|u]; intros Hv; [by apply token_width_character|].
  rewrite <-!app_assoc. unfold hex4.
  pose proof (hex_digit_mod_range (u / 4096)). pose proof (hex_digit_mod_range (u / 256)).
  pose proof (hex_digit_mod_range (u / 16)). pose proof (hex_digit_mod_range u).
  apply token_width_escape; lia.
Qed.
Lemma token_text_length t : (1 <= length (token_text t))%nat.
Proof. unfold token_text. destruct (glyph t); cbn; lia. Qed.

Lemma clip_loop_tokens ts : forall fuel used limit,
  Forall clippable ts -> (length (tokens_text ts) <= fuel)%nat -> (used <= limit)%nat ->
  exists k, clip_loop fuel (tokens_text ts) used limit = tokens_text (take k ts)
    /\ (used + cost (take k ts) <= limit)%nat
    /\ ((length ts <= k)%nat \/ (limit < used + cost (take (S k) ts))%nat).
Proof.
  induction ts as [|t ts IH]; intros fuel used limit Hts Hfuel Hused.
  { exists 0%nat. split; [by destruct fuel|]. cbn. lia. }
  apply Forall_cons in Hts as [Ht Hts].
  change (tokens_text (t :: ts)) with (token_text t ++ tokens_text ts) in *.
  rewrite length_app in Hfuel. pose proof (token_text_length t) as Hlen.
  destruct fuel as [|fuel]; [lia|].
  assert (exists c r, token_text t ++ tokens_text ts = c :: r) as (c & r & Hcons).
  { destruct (token_text t) as [|c r]; [cbn in Hlen; lia|]. by eexists _, _. }
  cbn [clip_loop]. rewrite Hcons, <-Hcons, (token_width_token t) by done.
  rewrite take_app_length, drop_app_length, utf16_len_token.
  destruct (Nat.ltb_spec limit (used + cost_of t)) as [Hover|Hfits].
  - exists 0%nat. unfold cost. cbn. split; [done|]. lia.
  - destruct (IH fuel (used + cost_of t)%nat limit) as (k & -> & Hcost & Hmax); [done|lia..|].
    exists (S k). split; [done|]. unfold cost in *. cbn [take map list_sum fold_right length] in *.
    change (fold_right Nat.add 0%nat) with list_sum in *. lia.
Qed.

(** Clipping cuts between tokens only: of a text made of characters other
    than an opening bracket and of escapes, a text that does not fit keeps
    exactly its longest run of whole characters and escapes that leaves room
    for the ellipsis; a text that fits is unchanged, and the result always
    fits. *)
Theorem clip_diagnostic_cuts_tokens ts budget :
  Forall clippable ts ->
  (utf16_len (clip_diagnostic (tokens_text ts) budget) <= budget)%nat
  /\ ((cost ts <= budget)%nat -> clip_diagnostic (tokens_text ts) budget = tokens_text ts)
  /\ ((0 < budget < cost ts)%nat ->
      exists k, clip_diagnostic (tokens_text ts) budget = tokens_text (take k ts) ++ [ELLIPSIS]
        /\ (cost (take k ts) + 1 <= budget)%nat /\ (budget < cost (take (S k) ts) + 1)%nat).
Proof.
  intros Hts. unfold clip_diagnostic. rewrite utf16_len_tokens.
  destruct (Nat.leb_spec (cost ts) budget) as [Hfits|Hover].
  { rewrite utf16_len_tokens. split; [done|]. split; [done|lia]. }
  destruct (Nat.eqb_spec budget 0) as [->|Hbudget]; [cbn; lia|].
  destruct (clip_loop_tokens ts (length (tokens_text ts)) 0 (budget - 1)) as (k & -> & Hcost & Hmax); [done|lia..|].
  rewrite utf16_len_app, utf16_len_tokens. change (utf16_len [ELLIPSIS]) with 1%nat.
  split; [lia|]. split; [lia|]. intros _. exists k. split; [done|]. split; [lia|].
  destruct Hmax as [Hall|]; [|lia]. rewrite (firstn_all2 ts) in Hcost by done. lia.
Qed.
Lemma clip_diagnostic_cuts_tokens_witness :
  exists k, clip_diagnostic (text "ab[U+0007]cd") 10 = tokens_text (take k (tokens ([97; 98; 7; 99; 100]))) ++ [ELLIPSIS].
Proof.
  destruct (clip_diagnostic_cuts_tokens (tokens [97; 98; 7; 99; 100]) 10) as (_ & _ & Hcut).
  { by repeat constructor. }
  destruct Hcut as (k & Hk & _); [vm_compute; lia|]. exists k. exact Hk.
Defined.
