(* ===== verification/CommandCatalog.v ===== *)
(** * CommandCatalog: the commands of the interface

    [crates/darknamer-app/src/command_catalog.rs]: one record per command with
    its place on a rail and in a menu, its accelerator, when it is enabled and
    what it may change; the rails derived from it, and the lookups.  The labels
    are localised texts and are left out. *)

From S2P Require Import Prelude.

Inductive RailSide : Type := Left | Right.
#[export] Instance RailSide_eq_dec : EqDecision RailSide.
Proof. solve_decision. Defined.

(** [CommandId], a u16. *)
Definition CommandId : Type := Z.
Definition APPLY : CommandId := 32771.
Definition REPLACE : CommandId := 32772.
Definition PREFIX : CommandId := 32773.
Definition SUFFIX : CommandId := 32774.
Definition CLEAR_NAME : CommandId := 32775.
Definition DELETE_POSITION : CommandId := 32776.
Definition DELETE_DELIMITED : CommandId := 32777.
Definition KEEP_DIGITS : CommandId := 32778.
Definition PAD_DIGITS : CommandId := 32779.
Definition SEQUENCE : CommandId := 32780.
Definition RESET : CommandId := 32781.
Definition CLEAR_LIST : CommandId := 32782.
Definition MANUAL_CHANGE : CommandId := 32783.
Definition SORT : CommandId := 32784.
Definition PARENT_PREFIX : CommandId := 32785.
Definition PARENT_SUFFIX : CommandId := 32786.
Definition UNIFY_PATH : CommandId := 32787.
Definition EXT_DELETE : CommandId := 32788.
Definition EXT_ADD : CommandId := 32789.
Definition EXT_REPLACE : CommandId := 32790.
Definition ADD_FILES : CommandId := 32791.
Definition COPY_NAMES : CommandId := 32792.
Definition SAVE_NAMES : CommandId := 32793.
Definition COPY_PATHS : CommandId := 32794.
Definition SAVE_PATHS : CommandId := 32795.
Definition IMPORT_NAMES : CommandId := 32796.
Definition IMPORT_PATHS : CommandId := 32797.
Definition MOVE_UP : CommandId := 32798.
Definition MOVE_DOWN : CommandId := 32799.
Definition SHOW_FULL_PATH : CommandId := 32800.
Definition SHOW_SIZE : CommandId := 32801.
Definition SHOW_MODIFIED : CommandId := 32802.
Definition SHOW_CREATED : CommandId := 32803.
Definition VERSION : CommandId := 32804.
Definition RESET_PATH : CommandId := 32805.
Definition LAST_COMMAND : CommandId := RESET_PATH.
Definition EXIT_COMMAND : CommandId := 2.
Definition DELETE_SELECTED_COMMAND : CommandId := 65535.

Record RailPlacement : Type := mkRail { side : RailSide; group : Z; order : Z }.
Inductive MenuGroup : Type := File | Edit | View | Transform | Help.
Record MenuPlacement : Type := mkMenu { menu_group : MenuGroup; section : Z; menu_order : Z }.
Inductive LegacyVirtualKey : Type :=
  Character (unit : Z) | Delete | Escape | F2 | Up | Down | OemComma | OemPeriod.
Inductive LegacyShortcutModifiers : Type := NoModifier | Alt | Control | ControlShift.
Record LegacyShortcut : Type := mkShortcut {
  virtual_key : LegacyVirtualKey;
  modifiers : LegacyShortcutModifiers;
  shortcut_display : string
}.
Record LegacyCommandShortcut : Type := mkCommandShortcut { command : CommandId; shortcut : LegacyShortcut }.
Inductive CommandEnableRule : Type := Always | Rows | Selection | Never.
Inductive CommandMutationClass : Type := NoMutation | Model | Filesystem.
(** Maximum row-rendering scope of a command. *)
Inductive CommandUiPolicy : Type := NoRows | SingleRow | MovedRows | AllRows | Columns.
Record CommandUiSpec : Type := mkSpec {
  id : CommandId;
  rail_place : option RailPlacement;
  menu_place : MenuPlacement;
  legacy_shortcut : option LegacyShortcut;
  enable_rule : CommandEnableRule;
  mutation : CommandMutationClass;
  display : CommandUiPolicy
}.

#[export] Instance RailPlacement_eq_dec : EqDecision RailPlacement.
Proof. solve_decision. Defined.
#[export] Instance MenuGroup_eq_dec : EqDecision MenuGroup.
Proof. solve_decision. Defined.
#[export] Instance MenuPlacement_eq_dec : EqDecision MenuPlacement.
Proof. solve_decision. Defined.
#[export] Instance LegacyVirtualKey_eq_dec : EqDecision LegacyVirtualKey.
Proof. solve_decision. Defined.
#[export] Instance LegacyShortcutModifiers_eq_dec : EqDecision LegacyShortcutModifiers.
Proof. solve_decision. Defined.
#[export] Instance LegacyShortcut_eq_dec : EqDecision LegacyShortcut.
Proof. solve_decision. Defined.
#[export] Instance CommandEnableRule_eq_dec : EqDecision CommandEnableRule.
Proof. solve_decision. Defined.
#[export] Instance CommandMutationClass_eq_dec : EqDecision CommandMutationClass.
Proof. solve_decision. Defined.
#[export] Instance CommandUiPolicy_eq_dec : EqDecision CommandUiPolicy.
Proof. solve_decision. Defined.
#[export] Instance CommandUiSpec_eq_dec : EqDecision CommandUiSpec.
Proof. solve_decision. Defined.

Definition rail (side : RailSide) (group order : Z) : option RailPlacement := Some (mkRail side group order).
Definition menu (group : MenuGroup) (section order : Z) : MenuPlacement := mkMenu group section order.
Definition legacy (virtual_key : LegacyVirtualKey) (modifiers : LegacyShortcutModifiers) (display : string)
  : option LegacyShortcut := Some (mkShortcut virtual_key modifiers display).

Definition COMMAND_UI_SPECS : list CommandUiSpec := [
  mkSpec APPLY (rail Left 0 0) (menu File 1 0) (legacy (Character 83) Control "Ctrl+S") Rows Filesystem NoRows;
  mkSpec REPLACE (rail Left 1 0) (menu Transform 0 0) None Rows Model AllRows;
  mkSpec PREFIX (rail Left 1 1) (menu Transform 0 1) None Rows Model AllRows;
  mkSpec SUFFIX (rail Left 1 2) (menu Transform 0 2) None Rows Model AllRows;
  mkSpec CLEAR_NAME (rail Left 2 0) (menu Transform 1 0) None Rows Model AllRows;
  mkSpec DELETE_POSITION (rail Left 2 1) (menu Transform 1 1) None Rows Model AllRows;
  mkSpec DELETE_DELIMITED (rail Left 2 2) (menu Transform 1 2) None Rows Model AllRows;
  mkSpec KEEP_DIGITS (rail Left 3 0) (menu Transform 2 0) None Rows Model AllRows;
  mkSpec PAD_DIGITS (rail Left 3 1) (menu Transform 2 1) None Rows Model AllRows;
  mkSpec SEQUENCE (rail Left 3 2) (menu Transform 2 2) None Rows Model AllRows;
  mkSpec RESET (rail Right 0 0) (menu Edit 2 0) None Rows Model AllRows;
  mkSpec CLEAR_LIST None (menu Edit 3 0) (legacy (Character 76) Control "Ctrl+L") Rows Model AllRows;
  mkSpec MANUAL_CHANGE (rail Right 1 0) (menu Edit 0 0) (legacy F2 NoModifier "F2") Selection Model SingleRow;
  mkSpec SORT (rail Right 1 2) (menu Edit 1 2) None Rows Model AllRows;
  mkSpec PARENT_PREFIX (rail Right 3 0) (menu Transform 4 0) None Rows Model AllRows;
  mkSpec PARENT_SUFFIX (rail Right 3 1) (menu Transform 4 1) None Rows Model AllRows;
  mkSpec UNIFY_PATH None (menu Edit 2 1) None Rows Model AllRows;
  mkSpec EXT_DELETE (rail Right 2 0) (menu Transform 3 0) None Rows Model AllRows;
  mkSpec EXT_ADD (rail Right 2 1) (menu Transform 3 1) None Rows Model AllRows;
  mkSpec EXT_REPLACE (rail Right 2 2) (menu Transform 3 2) None Rows Model AllRows;
  mkSpec ADD_FILES None (menu File 0 0) (legacy (Character 79) Control "Ctrl+O") Always Model NoRows;
  mkSpec COPY_NAMES None (menu File 2 0) None Rows NoMutation NoRows;
  mkSpec SAVE_NAMES None (menu File 2 1) None Rows Filesystem NoRows;
  mkSpec COPY_PATHS None (menu File 3 0) (legacy (Character 67) ControlShift "Ctrl+Shift+C") Rows NoMutation NoRows;
  mkSpec SAVE_PATHS None (menu File 3 1) (legacy (Character 88) ControlShift "Ctrl+Shift+X") Rows Filesystem NoRows;
  mkSpec IMPORT_NAMES None (menu File 4 0) None Rows Model AllRows;
  mkSpec IMPORT_PATHS None (menu File 4 1) (legacy (Character 86) ControlShift "Ctrl+Shift+V") Always Model NoRows;
  mkSpec MOVE_UP None (menu Edit 1 0) (legacy Up Alt "Alt+↑") Selection Model MovedRows;
  mkSpec MOVE_DOWN None (menu Edit 1 1) (legacy Down Alt "Alt+↓") Selection Model MovedRows;
  mkSpec SHOW_FULL_PATH None (menu View 0 0) None Always NoMutation Columns;
  mkSpec SHOW_SIZE None (menu View 0 1) None Always NoMutation Columns;
  mkSpec SHOW_MODIFIED None (menu View 0 2) None Always NoMutation Columns;
  mkSpec SHOW_CREATED None (menu View 0 3) None Always NoMutation Columns;
  mkSpec VERSION None (menu Help 0 0) None Always NoMutation NoRows;
  mkSpec RESET_PATH None (menu Edit 2 2) None Rows Model AllRows
].
Definition DELETE_SELECTED_UI_SPEC : CommandUiSpec :=
  mkSpec DELETE_SELECTED_COMMAND (rail Right 1 1) (menu Edit 0 1) (legacy Delete NoModifier "Delete") Selection Model AllRows.

(** ** The rails *)

(** The catalog with the command outside its range at the end, as the loops over
    [0..=COMMAND_UI_SPECS.len()] enumerate it. *)
Definition enumerated_specs : list CommandUiSpec := COMMAND_UI_SPECS ++ [DELETE_SELECTED_UI_SPEC].

Definition rail_command_counts : nat * nat :=
  fold_left (fun counts spec =>
    match rail_place spec with
    | Some placement =>
        match side placement with
        | Left => (S counts.1, counts.2)
        | Right => (counts.1, S counts.2)
        end
    | None => counts
    end) enumerated_specs (0, 0)%nat.
Definition RAIL_COMMAND_COUNTS : nat * nat := rail_command_counts.
Definition RAIL_COMMAND_COUNT : nat := RAIL_COMMAND_COUNTS.1 + RAIL_COMMAND_COUNTS.2.

Definition rail_order_key (spec : CommandUiSpec) : Z :=
  match rail_place spec with
  | Some placement =>
      let side := match side placement with Left => 0 | Right => 1 end in
      Z.lor (Z.lor (Z.shiftl side 16) (Z.shiftl (group placement) 8)) (order placement)
  | None => u32_max
  end.

(** The inner loop of the insertion sort. *)
Fixpoint sift (specs : list CommandUiSpec) (spec : CommandUiSpec) (position : nat)
  : option (list CommandUiSpec) :=
  match position with
  | O => Some (<[O := spec]> specs)
  | S before =>
      previous ← specs !! before;
      if rail_order_key spec <? rail_order_key previous
      then sift (<[position := previous]> specs) spec before
      else Some (<[position := spec]> specs)
  end.
Fixpoint sort_from (fuel index : nat) (specs : list CommandUiSpec) : option (list CommandUiSpec) :=
  match fuel with
  | O => Some specs
  | S fuel =>
      spec ← specs !! index;
      specs ← sift specs spec index;
      sort_from fuel (S index) specs
  end.
(** [ordered_rail_specs]: the visible commands, sorted in place. *)
Definition ordered_rail_specs : option (list CommandUiSpec) :=
  let specs := List.filter (fun spec => bool_decide (is_Some (rail_place spec))) enumerated_specs in
  sort_from (length specs - 1) 1 specs.
Definition ORDERED_RAIL_SPECS : list CommandUiSpec := default [] ordered_rail_specs.

Record CommandRailSpec : Type := mkRailSpec { rail_side : RailSide }.
Definition LEFT_RAIL : CommandRailSpec := mkRailSpec Left.
Definition RIGHT_RAIL : CommandRailSpec := mkRailSpec Right.
Definition ordered_command_specs (spec : CommandRailSpec) : list CommandUiSpec :=
  match rail_side spec with
  | Left => take RAIL_COMMAND_COUNTS.1 ORDERED_RAIL_SPECS
  | Right => drop RAIL_COMMAND_COUNTS.1 ORDERED_RAIL_SPECS
  end.
Definition command_count (spec : CommandRailSpec) : nat := length (ordered_command_specs spec).
Definition commands (spec : CommandRailSpec) : list CommandId := map id (ordered_command_specs spec).
Definition group_of (spec : CommandUiSpec) : option Z := group <$> rail_place spec.
(** [windows(2).filter(..).count()]: the changes of group. *)
Fixpoint group_changes (specs : list CommandUiSpec) : nat :=
  match specs with
  | first :: ((second :: _) as rest) =>
      (if bool_decide (group_of first = group_of second) then 0 else 1) + group_changes rest
  | _ => 0
  end.
Definition group_count (spec : CommandRailSpec) : nat :=
  let specs := ordered_command_specs spec in
  ((if bool_decide (specs = []) then 0 else 1) + group_changes specs)%nat.

(** ** Lookups *)

Definition legacy_command_shortcuts : list LegacyCommandShortcut :=
  omap (fun spec => mkCommandShortcut (id spec) <$> legacy_shortcut spec) enumerated_specs.
Definition legacy_command_shortcut (c : CommandId) : option LegacyShortcut :=
  shortcut <$> List.find (fun s => command s =? c) legacy_command_shortcuts.
Definition command_ui_spec (c : CommandId) : option CommandUiSpec :=
  if c =? DELETE_SELECTED_COMMAND then Some DELETE_SELECTED_UI_SPEC
  else
    index ← checked_sub c APPLY;
    spec ← COMMAND_UI_SPECS !! Z.to_nat index;
    if id spec =? c then Some spec else None.
Definition command_ui_policy (c : CommandId) : CommandUiPolicy :=
  match command_ui_spec c with
  | None => if c =? DELETE_SELECTED_COMMAND then AllRows else NoRows
  | Some spec => display spec
  end.
Definition command_enabled (c : CommandId) (row_count selected_count : Z) : bool :=
  match command_ui_spec c with
  | None => c =? EXIT_COMMAND
  | Some spec =>
      match enable_rule spec with
      | Always => true
      | Rows => 0 <? row_count
      | Selection => 0 <? selected_count
      | Never => false
      end
  end.

(** ** The catalog is consistent *)

Lemma command_ui_spec_id c spec : command_ui_spec c = Some spec -> spec ∈ enumerated_specs /\ id spec = c.
Proof.
  unfold command_ui_spec. destruct (Z.eqb_spec c DELETE_SELECTED_COMMAND) as [->|_].
  - intros [= <-]. split; [|done]. apply elem_of_app. right. by apply list_elem_of_singleton.
  - destruct (checked_sub c APPLY) as [index|]; [|done]. cbn [mbind option_bind].
    destruct (COMMAND_UI_SPECS !! Z.to_nat index) as [found|] eqn:Hfound; [|done]. cbn [mbind option_bind].
    destruct (Z.eqb_spec (id found) c) as [Hid|]; [|done]. intros [= <-]. split; [|done].
    apply elem_of_app. left. by eapply list_elem_of_lookup_2.
Qed.
Lemma command_ui_spec_complete :
  Forall (fun spec => command_ui_spec (id spec) = Some spec) enumerated_specs.
Proof. apply (bool_decide_unpack _). vm_compute. exact I. Qed.
Lemma ordered_rail_specs_sorted :
  StronglySorted (fun a b => rail_order_key a < rail_order_key b) ORDERED_RAIL_SPECS.
Proof.
  let specs := eval vm_compute in ORDERED_RAIL_SPECS in
  assert (ORDERED_RAIL_SPECS = specs) as -> by (vm_compute; reflexivity).
  repeat constructor; by vm_compute.
Qed.

(** The commands of a rail with their places. *)
Definition shown_on (s : RailSide) (spec : CommandUiSpec) : Prop :=
  match rail_place spec with Some place => side place = s | None => False end.

Lemma rail_sides s : Forall (shown_on s) (ordered_command_specs (mkRailSpec s)).
Proof. destruct s; vm_compute; repeat constructor. Qed.
Lemma rails_complete :
  Forall (fun spec => match rail_place spec with
                      | Some place => spec ∈ ordered_command_specs (mkRailSpec (side place))
                      | None => True end) enumerated_specs.
Proof.
  vm_compute. repeat constructor.
Qed.
Lemma rail_specs_enumerated spec : spec ∈ ORDERED_RAIL_SPECS -> spec ∈ enumerated_specs.
Proof.
  revert spec. apply Forall_forall. vm_compute. repeat constructor.
Qed.

(** C40: The catalog is consistent.  Looking a command up finds exactly the entry
    that carries its identifier.  Each rail shows exactly the commands placed on
    its side, in strictly increasing order of group and position, so no two
    commands claim one place.  No two commands share an accelerator or a menu
    position. *)
Theorem catalog_consistent :
  (forall c spec, command_ui_spec c = Some spec <-> spec ∈ enumerated_specs /\ id spec = c)
  /\ (forall s, StronglySorted (fun a b => rail_order_key a < rail_order_key b) (ordered_command_specs (mkRailSpec s)))
  /\ (forall s spec, spec ∈ ordered_command_specs (mkRailSpec s) <-> spec ∈ enumerated_specs /\ shown_on s spec)
  /\ NoDup (map (fun c => (virtual_key (shortcut c), modifiers (shortcut c))) legacy_command_shortcuts)
  /\ NoDup (map menu_place enumerated_specs).
Proof.
  split; [|split; [|split; [|split]]].
  - intros c spec. split; [apply command_ui_spec_id|]. intros [Hin <-].
    pose proof command_ui_spec_complete as Hall. rewrite Forall_forall in Hall. by apply Hall.
  - intros s. pose proof ordered_rail_specs_sorted as Hsorted. rewrite <-(take_drop RAIL_COMMAND_COUNTS.1) in Hsorted.
    apply StronglySorted_app in Hsorted as (_ & Hleft & Hright). by destruct s.
  - intros s spec. split.
    + intros Hin. split; [|by pose proof (rail_sides s) as Hall; rewrite Forall_forall in Hall; apply Hall].
      apply rail_specs_enumerated. rewrite <-(take_drop RAIL_COMMAND_COUNTS.1), elem_of_app.
      destruct s; [by left|by right].
    + intros [Hin Hside]. pose proof rails_complete as Hall. rewrite Forall_forall in Hall.
      specialize (Hall spec Hin). unfold shown_on in Hside. destruct (rail_place spec); [|done]. by subst s.
  - apply (bool_decide_unpack _). vm_compute. exact I.
  - apply (bool_decide_unpack _). vm_compute. exact I.
Qed.
