(* ===== verification/Layout.v ===== *)
(** * Layout: coordinates of the interface

    The arithmetic that the layout code of crates/darknamer-app/src shares:
    the operations on [i32], [scale_dip] and [unscale_px] of ui_layout.rs and
    its rectangles, the fitting of the window into the work area of
    window_placement.rs, and the lemmas that keep sums of extents linear. *)

From S2P Require Import Prelude.

(** ** [i32] *)

Definition I32_MAX : Z := 2147483647.
Definition I32_MIN : Z := -2147483648.
Definition in_i32 (a : Z) : Prop := I32_MIN <= a <= I32_MAX.

(** The [saturating_] and [checked_] methods. *)
Definition clamp_i32 (a : Z) : Z := Z.max I32_MIN (Z.min a I32_MAX).
Definition sat_add (a b : Z) : Z := clamp_i32 (a + b).
Definition sat_sub (a b : Z) : Z := clamp_i32 (a - b).
Definition sat_mul (a b : Z) : Z := clamp_i32 (a * b).
(** [saturating_div] and [/] truncate towards zero. *)
Definition sat_div (a b : Z) : Z := clamp_i32 (Z.quot a b).
Definition i32_checked (a : Z) : option Z := if (I32_MIN <=? a) && (a <=? I32_MAX) then Some a else None.
Definition i32_checked_add (a b : Z) : option Z := i32_checked (a + b).
Definition i32_checked_sub (a b : Z) : option Z := i32_checked (a - b).
Definition i32_checked_mul (a b : Z) : option Z := i32_checked (a * b).
(** Plain operators wrap in the release profile. *)
Definition i32_wrap (a : Z) : Z := (a + 2147483648) mod 4294967296 - 2147483648.
(** [i32::try_from] of a length. *)
Definition i32_of_nat (n : nat) : option Z := i32_checked (Z.of_nat n).
(** [Ord::clamp]. *)
Definition clamp (a low high : Z) : Z := if a <? low then low else if high <? a then high else a.

Lemma clamp_i32_range a : in_i32 (clamp_i32 a).
Proof. unfold in_i32, clamp_i32, I32_MIN, I32_MAX. lia. Qed.
Lemma clamp_i32_id a : in_i32 a -> clamp_i32 a = a.
Proof. unfold in_i32, clamp_i32, I32_MIN, I32_MAX. lia. Qed.
Lemma i32_wrap_id a : in_i32 a -> i32_wrap a = a.
Proof. unfold in_i32, i32_wrap, I32_MIN, I32_MAX. intros. rewrite Z.mod_small; lia. Qed.
Lemma i32_checked_Some a b : i32_checked a = Some b -> b = a /\ in_i32 a.
Proof.
  unfold i32_checked, in_i32. destruct (Z.leb_spec I32_MIN a), (Z.leb_spec a I32_MAX); cbn; try done.
  by intros [= <-].
Qed.
Lemma i32_checked_id a : in_i32 a -> i32_checked a = Some a.
Proof.
  unfold i32_checked, in_i32. intros [H1 H2].
  apply Z.leb_le in H1 as ->. by apply Z.leb_le in H2 as ->.
Qed.

(** What saturation leaves of a sum, a difference and a product of extents. *)
Lemma sat_add_spec a b : 0 <= a -> 0 <= b ->
  0 <= sat_add a b <= I32_MAX /\ sat_add a b <= a + b /\ (a + b <= I32_MAX -> sat_add a b = a + b)
  /\ (a <= I32_MAX -> a <= sat_add a b) /\ (b <= I32_MAX -> b <= sat_add a b).
Proof. unfold sat_add, clamp_i32, I32_MIN, I32_MAX. lia. Qed.
Lemma sat_add_id a b : in_i32 (a + b) -> sat_add a b = a + b.
Proof. apply clamp_i32_id. Qed.
Lemma sat_sub_id a b : in_i32 (a - b) -> sat_sub a b = a - b.
Proof. apply clamp_i32_id. Qed.
Lemma sat_mul_id a b : in_i32 (a * b) -> sat_mul a b = a * b.
Proof. apply clamp_i32_id. Qed.
Lemma sat_mul_spec a b : 0 <= a -> 0 <= b ->
  0 <= sat_mul a b <= I32_MAX /\ sat_mul a b <= a * b /\ (a * b <= I32_MAX -> sat_mul a b = a * b).
Proof. intros. assert (0 <= a * b) by nia. unfold sat_mul, clamp_i32, I32_MIN, I32_MAX. lia. Qed.
Lemma sat_sub_nonneg a b : 0 <= b <= a -> a <= I32_MAX -> sat_sub a b = a - b.
Proof. intros. apply sat_sub_id. unfold in_i32, I32_MIN, I32_MAX in *. lia. Qed.
Lemma quot_half a : 0 <= a -> 0 <= Z.quot a 2 /\ 2 * Z.quot a 2 <= a < 2 * Z.quot a 2 + 2.
Proof. intros. Z.to_euclidean_division_equations. lia. Qed.
Lemma sat_div_half a : 0 <= a <= I32_MAX -> sat_div a 2 = Z.quot a 2.
Proof. intros. unfold sat_div. apply clamp_i32_id. pose proof (quot_half a). unfold in_i32, I32_MIN, I32_MAX in *. lia. Qed.

(** Replaces the saturating operators of the goal, innermost first, by the
    exact ones where [lia] sees that nothing saturates. *)
Ltac no_saturation t :=
  lazymatch t with
  | context [sat_add _ _] => fail
  | context [sat_sub _ _] => fail
  | context [sat_mul _ _] => fail
  | _ => idtac
  end.
Ltac in_range := unfold in_i32, I32_MIN, I32_MAX in *; lia.
Ltac exact_sums :=
  repeat match goal with
  | |- context [sat_add ?a ?b] => no_saturation a; no_saturation b; rewrite (sat_add_id a b) by in_range
  | |- context [sat_sub ?a ?b] => no_saturation a; no_saturation b; rewrite (sat_sub_id a b) by in_range
  | |- context [sat_mul ?a ?b] => no_saturation a; no_saturation b; rewrite (sat_mul_id a b) by in_range
  end.

(** ** Scaling *)

Definition BASE_DPI : Z := 96.

Definition scale_dip (value dpi : Z) : Z :=
  let product := value * dpi in
  let scaled :=
    if product <? 0 then - Z.quot (- product + Z.quot BASE_DPI 2) BASE_DPI
    else Z.quot (product + Z.quot BASE_DPI 2) BASE_DPI in
  if I32_MAX <? scaled then I32_MAX else if scaled <? I32_MIN then I32_MIN else scaled.
Definition unscale_px (value dpi : Z) : Z :=
  if dpi =? 0 then value
  else
    let product := value * BASE_DPI in
    let scaled := Z.quot (product + Z.quot dpi 2) dpi in
    if I32_MAX <? scaled then I32_MAX else i32_wrap scaled.

(** For the nonnegative lengths of the interface: rounding to nearest. *)
Lemma scale_dip_eq value dpi : 0 <= value -> 0 <= dpi ->
  scale_dip value dpi = Z.min I32_MAX ((value * dpi + 48) / 96).
Proof.
  intros Hv Hd. assert (0 <= value * dpi) by nia. unfold scale_dip, BASE_DPI.
  destruct (Z.ltb_spec (value * dpi) 0); [lia|]. change (Z.quot 96 2) with 48.
  rewrite Z.quot_div_nonneg by lia. assert (0 <= (value * dpi + 48) / 96) by (apply Z.div_pos; lia).
  destruct (Z.ltb_spec I32_MAX ((value * dpi + 48) / 96)); [lia|].
  unfold I32_MIN. destruct (Z.ltb_spec ((value * dpi + 48) / 96) (-2147483648)); lia.
Qed.
Lemma scale_dip_nonneg value dpi : 0 <= value -> 0 <= dpi -> 0 <= scale_dip value dpi <= I32_MAX.
Proof.
  intros Hv Hd. rewrite scale_dip_eq by done. assert (0 <= (value * dpi + 48) / 96) by (apply Z.div_pos; nia).
  unfold I32_MAX in *. lia.
Qed.
Lemma scale_dip_le value value' dpi : 0 <= value <= value' -> 0 <= dpi -> scale_dip value dpi <= scale_dip value' dpi.
Proof.
  intros Hv Hd. rewrite !scale_dip_eq by lia. pose proof (Z.div_le_mono (value * dpi + 48) (value' * dpi + 48) 96).
  assert (value * dpi <= value' * dpi) by nia. lia.
Qed.
Lemma scale_dip_pos value dpi : 48 <= value * dpi -> 0 <= value -> 0 <= dpi -> 1 <= scale_dip value dpi.
Proof.
  intros H Hv Hd. rewrite scale_dip_eq by done. unfold I32_MAX.
  assert (1 <= (value * dpi + 48) / 96) by (apply Z.div_le_lower_bound; lia). lia.
Qed.
(** Up to 10000 times the base resolution nothing saturates. *)
Lemma scale_dip_exact value dpi : 0 <= value -> 0 <= dpi -> value * dpi <= 206158430064 ->
  value * dpi - 48 <= 96 * scale_dip value dpi <= value * dpi + 48.
Proof.
  intros Hv Hd H. rewrite scale_dip_eq by done. unfold I32_MAX. Z.to_euclidean_division_equations. lia.
Qed.
Lemma unscale_px_eq value dpi : 0 <= value -> 0 < dpi ->
  unscale_px value dpi = Z.min I32_MAX ((value * 96 + dpi / 2) / dpi).
Proof.
  intros Hv Hd. unfold unscale_px, BASE_DPI. destruct (Z.eqb_spec dpi 0); [lia|].
  rewrite (Z.quot_div_nonneg dpi 2) by lia. assert (0 <= dpi / 2) by (apply Z.div_pos; lia).
  rewrite Z.quot_div_nonneg by lia. assert (0 <= (value * 96 + dpi / 2) / dpi) by (apply Z.div_pos; lia).
  destruct (Z.ltb_spec I32_MAX ((value * 96 + dpi / 2) / dpi)); [lia|].
  rewrite i32_wrap_id; [lia|]. unfold in_i32, I32_MIN, I32_MAX in *. lia.
Qed.
(** From the base resolution up, a length survives the way to pixels and back. *)
Lemma unscale_scale value dpi : 96 <= dpi -> 0 <= value -> value * dpi <= 206158430064 ->
  unscale_px (scale_dip value dpi) dpi = value.
Proof.
  intros Hd Hv H. pose proof (scale_dip_exact value dpi Hv ltac:(lia) H) as Hscaled.
  pose proof (scale_dip_nonneg value dpi Hv ltac:(lia)) as Hpos.
  rewrite unscale_px_eq by lia. assert (value <= I32_MAX) by (unfold I32_MAX; nia).
  assert ((scale_dip value dpi * 96 + dpi / 2) / dpi = value) as ->; [|lia].
  symmetry. apply (Z.div_unique _ _ _ (scale_dip value dpi * 96 + dpi / 2 - dpi * value)); [|lia].
  left. pose proof (Z.div_mod dpi 2 ltac:(lia)). pose proof (Z.mod_pos_bound dpi 2 ltac:(lia)). nia.
Qed.

(** ** Rectangles *)

Record LayoutRect : Type := mkRect { rect_x : Z; rect_y : Z; rect_width : Z; rect_height : Z }.
Definition default_rect : LayoutRect := mkRect 0 0 0 0.
Definition rect_right (r : LayoutRect) : Z := sat_add (rect_x r) (rect_width r).
Definition rect_bottom (r : LayoutRect) : Z := sat_add (rect_y r) (rect_height r).

(** A rectangle within another one, and of no negative extent. *)
Record inside (r outer : LayoutRect) : Prop := mkInside {
  inside_left : rect_x outer <= rect_x r;
  inside_top : rect_y outer <= rect_y r;
  inside_width : 0 <= rect_width r;
  inside_height : 0 <= rect_height r;
  inside_right : rect_x r + rect_width r <= rect_x outer + rect_width outer;
  inside_bottom : rect_y r + rect_height r <= rect_y outer + rect_height outer
}.
Definition above (r s : LayoutRect) : Prop := rect_y r + rect_height r <= rect_y s.
Definition left_of (r s : LayoutRect) : Prop := rect_x r + rect_width r <= rect_x s.

Lemma inside_refl r : 0 <= rect_width r -> 0 <= rect_height r -> inside r r.
Proof. intros. split; lia. Qed.
Lemma inside_trans r s t : inside r s -> inside s t -> inside r t.
Proof. intros [] []. split; lia. Qed.

(** ** The window in the work area *)

Record HorizontalWindowPlacement : Type := mkHorizontal { horizontal_x : Z; horizontal_width : Z }.
Record WindowTrackSize : Type := mkTrackSize { track_width : Z; track_height : Z }.
Record WindowOrigin : Type := mkOrigin { origin_x : Z; origin_y : Z }.
Record WorkAreaBounds : Type := mkWork { work_left : Z; work_top : Z; work_right : Z; work_bottom : Z }.
Record WindowPlacement : Type := mkPlacement {
  placement_x : Z; placement_y : Z; placement_width : Z; placement_height : Z
}.

Definition fit_window_to_work_area (origin : WindowOrigin) (requested : WindowTrackSize) (work : WorkAreaBounds)
  : option WindowPlacement :=
  work_width ← i32_checked_sub (work_right work) (work_left work);
  work_height ← i32_checked_sub (work_bottom work) (work_top work);
  if (track_width requested <=? 0) || (track_height requested <=? 0) || (work_width <=? 0) || (work_height <=? 0)
  then None
  else
    let width := Z.min (track_width requested) work_width in
    let height := Z.min (track_height requested) work_height in
    let latest_x := i32_wrap (work_right work - width) in
    let latest_y := i32_wrap (work_bottom work - height) in
    Some (mkPlacement (clamp (origin_x origin) (work_left work) latest_x)
            (clamp (origin_y origin) (work_top work) latest_y) width height).
Definition constrain_minimum_track_size_to_work_area (minimum_width minimum_height work_width work_height : Z)
  : option WindowTrackSize :=
  if (minimum_width <=? 0) || (minimum_height <=? 0) || (work_width <=? 0) || (work_height <=? 0) then None
  else Some (mkTrackSize (Z.min minimum_width work_width) (Z.min minimum_height work_height)).
Definition fit_widened_window_to_work_area (current_x left right minimum_width : Z)
  : option HorizontalWindowPlacement :=
  work_width ← i32_checked_sub right left;
  if (work_width <=? 0) || (minimum_width <=? 0) then None
  else
    let width := Z.min minimum_width work_width in
    let latest_x := i32_wrap (right - width) in
    Some (mkHorizontal (clamp current_x left latest_x) width).

Definition work_rect (work : WorkAreaBounds) : LayoutRect :=
  mkRect (work_left work) (work_top work) (work_right work - work_left work) (work_bottom work - work_top work).
Definition placement_rect (p : WindowPlacement) : LayoutRect :=
  mkRect (placement_x p) (placement_y p) (placement_width p) (placement_height p).

Lemma clamp_between a low high : low <= high -> low <= clamp a low high <= high.
Proof. unfold clamp. intros. destruct (Z.ltb_spec a low); [lia|]. destruct (Z.ltb_spec high a); lia. Qed.
Lemma clamp_id a low high : low <= a <= high -> clamp a low high = a.
Proof. unfold clamp. intros. destruct (Z.ltb_spec a low); [lia|]. destruct (Z.ltb_spec high a); lia. Qed.

(** A placed window lies in the work area and has the requested size as far as
    the area allows it; a request that lies in the area already is kept. *)
Theorem window_placed_in_work_area origin requested work :
  in_i32 (work_left work) -> in_i32 (work_top work) -> in_i32 (work_right work) -> in_i32 (work_bottom work) ->
  forall p, fit_window_to_work_area origin requested work = Some p ->
  inside (placement_rect p) (work_rect work)
  /\ placement_width p = Z.min (track_width requested) (work_right work - work_left work)
  /\ placement_height p = Z.min (track_height requested) (work_bottom work - work_top work)
  /\ 0 < placement_width p /\ 0 < placement_height p
  /\ (inside (mkRect (origin_x origin) (origin_y origin) (track_width requested) (track_height requested))
        (work_rect work) -> placement_x p = origin_x origin /\ placement_y p = origin_y origin).
Proof.
  intros Hl Ht Hr Hb p. unfold fit_window_to_work_area.
  destruct (i32_checked_sub (work_right work) (work_left work)) as [w|] eqn:Hw; [|done].
  destruct (i32_checked_sub (work_bottom work) (work_top work)) as [h|] eqn:Hh; [|done].
  apply i32_checked_Some in Hw as [-> _], Hh as [-> _]. cbn [mbind option_bind].
  set (w := work_right work - work_left work) in *. set (h := work_bottom work - work_top work) in *.
  destruct (Z.leb_spec (track_width requested) 0); [done|]. destruct (Z.leb_spec (track_height requested) 0); [done|].
  destruct (Z.leb_spec w 0); [done|]. destruct (Z.leb_spec h 0); [done|]. cbn [orb]. intros [= <-].
  unfold in_i32 in *. subst w h.
  rewrite !i32_wrap_id by (unfold in_i32; lia). unfold placement_rect, work_rect. cbn.
  pose proof (clamp_between (origin_x origin) (work_left work)
    (work_right work - Z.min (track_width requested) (work_right work - work_left work)) ltac:(lia)).
  pose proof (clamp_between (origin_y origin) (work_top work)
    (work_bottom work - Z.min (track_height requested) (work_bottom work - work_top work)) ltac:(lia)).
  split; [split; cbn; lia|]. split; [done|]. split; [done|]. split; [lia|]. split; [lia|].
  intros []. cbn in *. rewrite !clamp_id; lia.
Qed.
