(* ===== verification/MainLayout.v ===== *)
(** * MainLayout: the layout of the main window

    The part of [crates/darknamer-app/src/ui_layout.rs] that places the command
    rails, the list, the status strip, the texts of the empty list and the drop
    overlay in the client rectangle, for measured fonts and a density
    preference, and the smallest client it is meant for.  A [u32] resolution and
    [i32] measurements are integers; every operator is the saturating, checked
    or wrapping one of the source. *)

From S2P Require Import Prelude CommandCatalog Preferences Layout.

Definition STATUS_HEIGHT : Z := 18.
Definition NAME_COLUMN_MINIMUM : Z := 120.
Definition LOCATION_COLUMN_MINIMUM : Z := 80.
Definition LIST_COLUMN_FIT_GUTTER_DIP : Z := 1.

(** ** Density *)

Inductive RailDensity : Type := ComfortableRail | CompactRail.
#[export] Instance RailDensity_eq_dec : EqDecision RailDensity.
Proof. solve_decision. Defined.

Definition candidates (preference : RailDensityPreference) : list RailDensity :=
  match preference with
  | Automatic => [ComfortableRail; CompactRail]
  | Comfortable => [ComfortableRail]
  | Compact => [CompactRail]
  | MenuOnly => []
  end.
Definition minimum_density (preference : RailDensityPreference) : option RailDensity :=
  match preference with
  | Automatic | Compact => Some CompactRail
  | Comfortable => Some ComfortableRail
  | MenuOnly => None
  end.
Definition recommended_density (preference : RailDensityPreference) : option RailDensity :=
  match preference with
  | Automatic | Comfortable => Some ComfortableRail
  | Compact => Some CompactRail
  | MenuOnly => None
  end.

Record UiMetrics : Type := mkMetrics {
  rail_top_padding : Z;
  rail_bottom_padding : Z;
  button_height : Z;
  group_gap : Z;
  rail_width : Z
}.
Definition metrics (density : RailDensity) (dpi : Z) : UiMetrics :=
  let '(bottom, button, gap, width) :=
    match density with ComfortableRail => (4, 32, 8, 52) | CompactRail => (2, 28, 4, 52) end in
  mkMetrics 0 (scale_dip bottom dpi) (scale_dip button dpi) (scale_dip gap dpi) (scale_dip width dpi).

(** ** Measured fonts *)

Record MeasuredFontMetrics : Type := mkMeasured {
  list_header_height : Z;
  button_text_width : Z;
  button_text_height : Z;
  status_text_height : Z;
  status_count_text_width : Z;
  cancel_text_width : Z;
  cancel_text_height : Z;
  empty_instruction_text_width : Z;
  empty_instruction_text_height : Z;
  empty_safety_text_width : Z;
  empty_safety_text_height : Z;
  empty_add_text_width : Z;
  empty_add_text_height : Z;
  empty_wrap_width : Z;
  empty_instruction_wrapped_height : Z;
  empty_safety_wrapped_height : Z;
  drop_overlay_text_width : Z;
  drop_overlay_text_height : Z
}.
Record StatusLayoutInput : Type := mkStatusInput { cancel_visible : bool; measured_count_width : Z }.
Record EmptyStateContentMetrics : Type := mkContent {
  instruction_height : Z;
  safety_height : Z;
  add_width : Z;
  add_height : Z;
  total_height : Z
}.

Definition rail_metrics (measured : MeasuredFontMetrics) (density : RailDensity) (dpi : Z) : UiMetrics :=
  let m := metrics density dpi in
  let '(horizontal_padding, vertical_padding) :=
    match density with ComfortableRail => (12, 10) | CompactRail => (10, 6) end in
  mkMetrics (rail_top_padding m) (rail_bottom_padding m)
    (Z.max (button_height m)
       (sat_add (Z.max (button_text_height measured) 0) (scale_dip vertical_padding dpi)))
    (group_gap m)
    (Z.max (rail_width m)
       (sat_add (Z.max (button_text_width measured) 0) (scale_dip horizontal_padding dpi))).
Definition status_height (measured : MeasuredFontMetrics) (dpi : Z) : Z :=
  Z.max (Z.max (scale_dip STATUS_HEIGHT dpi)
           (sat_add (Z.max (status_text_height measured) 0) (scale_dip 4 dpi)))
    (sat_add (Z.max (cancel_text_height measured) 0) (scale_dip 6 dpi)).
Definition empty_state_minimum_width (measured : MeasuredFontMetrics) (dpi : Z) : Z :=
  let text_padding := scale_dip 24 dpi in
  Z.max (Z.max (scale_dip 240 dpi)
           (sat_add (Z.max (empty_instruction_text_width measured) 0) text_padding))
    (sat_add (Z.max (empty_add_text_width measured) 0) text_padding).

Definition conservative_wrapped_text_height (unwrapped_width line_height available_width : Z) : Z :=
  let line_height := Z.max line_height 0 in
  if available_width <=? 0 then 0
  else
    let width := Z.max unwrapped_width 0 in
    let lines := Z.max (sat_div (sat_add width (i32_wrap (available_width - 1))) available_width) 1 in
    let lines := if available_width <? width then sat_add lines 1 else lines in
    sat_mul line_height lines.

Definition empty_state_content_metrics (measured : MeasuredFontMetrics) (dpi available_width : Z)
    (show_safety : bool) : EmptyStateContentMetrics :=
  let available_width := Z.max available_width 0 in
  let fallback_line_height := scale_dip 16 dpi in
  let instruction_height :=
    if (empty_wrap_width measured =? available_width) && (0 <? empty_instruction_wrapped_height measured)
    then empty_instruction_wrapped_height measured
    else conservative_wrapped_text_height (Z.max (empty_instruction_text_width measured) 0)
           (Z.max (empty_instruction_text_height measured) fallback_line_height) available_width in
  let safety_height :=
    if show_safety then
      if (empty_wrap_width measured =? available_width) && (0 <? empty_safety_wrapped_height measured)
      then empty_safety_wrapped_height measured
      else conservative_wrapped_text_height (Z.max (empty_safety_text_width measured) 0)
             (Z.max (empty_safety_text_height measured) fallback_line_height) available_width
    else 0 in
  let add_width :=
    Z.min (Z.max (sat_add (Z.max (empty_add_text_width measured) 0) (scale_dip 24 dpi)) (scale_dip 112 dpi))
      available_width in
  let add_height :=
    Z.max (sat_add (Z.max (empty_add_text_height measured) fallback_line_height) (scale_dip 10 dpi))
      (scale_dip 28 dpi) in
  let gap := scale_dip 8 dpi in
  mkContent instruction_height safety_height add_width add_height
    (sat_add (sat_add (sat_add instruction_height gap) add_height)
       (if show_safety then sat_add gap safety_height else 0)).
Definition empty_state_required_height (measured : MeasuredFontMetrics) (dpi : Z) (show_safety : bool) : Z :=
  let content_width := sat_sub (empty_state_minimum_width measured dpi) (scale_dip 24 dpi) in
  sat_add (sat_add (total_height (empty_state_content_metrics measured dpi content_width show_safety))
             (scale_dip 24 dpi))
    (Z.max (list_header_height measured) 0).

(** ** Command rails *)

Record CommandPlacement : Type := mkCommandPlacement { placed : CommandId; place : LayoutRect }.
Definition placement_bottom (p : CommandPlacement) : Z := rect_bottom (place p).
Inductive LayoutError : Type :=
| Overflow
| InsufficientHeight (required available : Z).

Definition required_command_rail_height (spec : CommandRailSpec) (m : UiMetrics) : result LayoutError Z :=
  command_count ← ok_or Overflow (i32_of_nat (command_count spec));
  group_gaps ← ok_or Overflow (i32_of_nat (group_count spec - 1));
  ok_or Overflow (
    padding ← i32_checked_add (rail_top_padding m) (rail_bottom_padding m);
    buttons ← i32_checked_mul (button_height m) command_count;
    height ← i32_checked_add padding buttons;
    gaps ← i32_checked_mul (group_gap m) group_gaps;
    i32_checked_add height gaps).

(** The loop of [calculate_command_rail_layout]. *)
Fixpoint place_commands (m : UiMetrics) (specs : list CommandUiSpec) (y : Z) (previous_group : option Z)
  : result LayoutError (list CommandPlacement) :=
  match specs with
  | [] => Ok []
  | spec :: specs =>
      current_group ← ok_or Overflow (group_of spec);
      y ← (if match previous_group with Some previous => negb (previous =? current_group) | None => false end
           then ok_or Overflow (i32_checked_add y (group_gap m)) else Ok y);
      next ← ok_or Overflow (i32_checked_add y (button_height m));
      placements ← place_commands m specs next (Some current_group);
      Ok (mkCommandPlacement (id spec) (mkRect 0 y (rail_width m) (button_height m)) :: placements)
  end.
Definition calculate_command_rail_layout (spec : CommandRailSpec) (available_height : Z) (m : UiMetrics)
  : result LayoutError (list CommandPlacement) :=
  required ← required_command_rail_height spec m;
  if available_height <? required then Err (InsufficientHeight required available_height)
  else place_commands m (ordered_command_specs spec) (rail_top_padding m) None.

(** The first candidate for which both rails fit. *)
Fixpoint select_density (densities : list RailDensity) (available_height dpi : Z)
  : result LayoutError (option RailDensity) :=
  match densities with
  | [] => Ok None
  | density :: densities =>
      let m := metrics density dpi in
      left_ ← required_command_rail_height LEFT_RAIL m;
      if left_ <=? available_height then
        right_ ← required_command_rail_height RIGHT_RAIL m;
        if right_ <=? available_height then Ok (Some density)
        else select_density densities available_height dpi
      else select_density densities available_height dpi
  end.
Definition select_command_rail_density_with_preference (available_height dpi : Z)
    (preference : RailDensityPreference) : result LayoutError RailDensity :=
  selected ← select_density (candidates preference) available_height dpi;
  match selected with
  | Some density => Ok density
  | None =>
      required ← match minimum_density preference with
                 | Some density => required_command_rail_height LEFT_RAIL (metrics density dpi)
                 | None => Ok 0
                 end;
      Err (InsufficientHeight required available_height)
  end.
Definition select_command_rail_density (available_height dpi : Z) : result LayoutError RailDensity :=
  select_command_rail_density_with_preference available_height dpi Automatic.

(** ** Smallest and recommended client *)

Definition ok_or_max (r : result LayoutError Z) : Z := match r with Ok height => height | Err _ => I32_MAX end.
(** The taller of the two rails at a density, zero without one. *)
Definition rails_height (measured : MeasuredFontMetrics) (dpi : Z) (density : option RailDensity) : Z :=
  match density with
  | None => 0
  | Some density =>
      let m := rail_metrics measured density dpi in
      Z.max (ok_or_max (required_command_rail_height LEFT_RAIL m))
        (ok_or_max (required_command_rail_height RIGHT_RAIL m))
  end.
Definition minimum_main_client_height_with_safety (dpi : Z) (measured : MeasuredFontMetrics)
    (preference : RailDensityPreference) (show_empty_safety : bool) : Z :=
  sat_add (Z.max (rails_height measured dpi (minimum_density preference))
             (empty_state_required_height measured dpi show_empty_safety))
    (status_height measured dpi).
Definition recommended_main_client_height_with_safety (dpi : Z) (measured : MeasuredFontMetrics)
    (preference : RailDensityPreference) (show_empty_safety : bool) : Z :=
  sat_add (Z.max (rails_height measured dpi (recommended_density preference))
             (empty_state_required_height measured dpi show_empty_safety))
    (status_height measured dpi).

Definition minimum_content_width_px (dpi status_width_px : Z) : Z :=
  sat_add (sat_add (sat_add (sat_add
    (sat_mul (rail_width (metrics ComfortableRail dpi)) 2)
    (sat_mul (scale_dip NAME_COLUMN_MINIMUM dpi) 2))
    (scale_dip LOCATION_COLUMN_MINIMUM dpi))
    (Z.max (scale_dip LIST_COLUMN_FIT_GUTTER_DIP dpi) 1))
    (Z.max status_width_px 0).
(** [max().unwrap_or(0)] over the candidates. *)
Definition widest_rail (measured : MeasuredFontMetrics) (dpi : Z) (preference : RailDensityPreference) : Z :=
  match map (fun density => rail_width (rail_metrics measured density dpi)) (candidates preference) with
  | [] => 0
  | first :: rest => fold_left Z.max rest first
  end.
Definition baseline_rail_width (dpi : Z) (preference : RailDensityPreference) : Z :=
  match minimum_density preference with Some density => rail_width (metrics density dpi) | None => 0 end.
Definition minimum_main_client_width (dpi : Z) (measured : MeasuredFontMetrics)
    (preference : RailDensityPreference) (status_width_px : Z) : Z :=
  let rail_width_ := widest_rail measured dpi preference in
  let baseline_rail_width := baseline_rail_width dpi preference in
  let workspace_divider_width := sat_mul (if 0 <? rail_width_ then 1 else 0) 2 in
  Z.max
    (sat_add (sat_add (minimum_content_width_px dpi status_width_px)
                (sat_mul (sat_sub rail_width_ baseline_rail_width) 2))
       workspace_divider_width)
    (sat_add (sat_add (sat_mul rail_width_ 2) (empty_state_minimum_width measured dpi)) workspace_divider_width).

(** ** The list area *)

Record EmptyStateLayout : Type := mkEmptyState { instruction : LayoutRect; safety : LayoutRect; add : LayoutRect }.

Definition calculate_drop_overlay_layout (list : LayoutRect) (dpi : Z) (measured : MeasuredFontMetrics) : LayoutRect :=
  let horizontal_padding := Z.min (scale_dip 12 dpi) (sat_div (rect_width list) 2) in
  let width := sat_sub (rect_width list) (sat_mul horizontal_padding 2) in
  let line_height := Z.max (drop_overlay_text_height measured) (scale_dip 16 dpi) in
  let desired_height :=
    Z.max (sat_add (conservative_wrapped_text_height (drop_overlay_text_width measured) line_height width)
             (scale_dip 10 dpi)) (scale_dip 28 dpi) in
  let height := Z.max (Z.min desired_height (rect_height list)) 0 in
  mkRect (sat_add (rect_x list) horizontal_padding)
    (sat_add (rect_y list) (Z.quot (sat_sub (rect_height list) height) 2)) width height.

(** [desired.min(bottom.saturating_sub(y)).max(0)]: what fits above [bottom]. *)
Definition fit_above (desired bottom y : Z) : Z := Z.max (Z.min desired (sat_sub bottom y)) 0.

Definition calculate_empty_state_layout (list : LayoutRect) (dpi : Z) (measured : MeasuredFontMetrics)
    (show_safety : bool) : EmptyStateLayout :=
  let header_height := Z.min (Z.max (list_header_height measured) 0) (rect_height list) in
  let data := mkRect (rect_x list) (sat_add (rect_y list) header_height) (rect_width list)
    (sat_sub (rect_height list) header_height) in
  let horizontal_padding := Z.min (scale_dip 12 dpi) (sat_div (rect_width data) 2) in
  let content_width := sat_sub (rect_width data) (sat_mul horizontal_padding 2) in
  let content := empty_state_content_metrics measured dpi content_width show_safety in
  let desired_gap := scale_dip 8 dpi in
  let top := sat_add (rect_y data) (Z.quot (Z.max (sat_sub (rect_height data) (total_height content)) 0) 2) in
  let bottom := rect_bottom data in
  let instruction_y := top in
  let instruction_height := fit_above (instruction_height content) bottom instruction_y in
  let y := sat_add instruction_y instruction_height in
  let button_y := sat_add y (fit_above desired_gap bottom y) in
  let button_height := fit_above (add_height content) bottom button_y in
  let y := sat_add button_y button_height in
  let safety_y := if show_safety then sat_add y (fit_above desired_gap bottom y) else y in
  let safety_height := fit_above (safety_height content) bottom safety_y in
  let button_width := add_width content in
  mkEmptyState
    (mkRect (sat_add (rect_x data) horizontal_padding) instruction_y content_width instruction_height)
    (mkRect (sat_add (rect_x data) horizontal_padding) safety_y content_width safety_height)
    (mkRect (sat_add (rect_x data) (Z.quot (sat_sub (rect_width data) button_width) 2)) button_y
       button_width button_height).

(** ** The main window *)

Inductive RailMode : Type := ComfortableMode | CompactMode | MenuOnlyMode.
Definition mode_of (density : RailDensity) : RailMode :=
  match density with ComfortableRail => ComfortableMode | CompactRail => CompactMode end.

Record WorkspaceChromeGeometry : Type := mkWorkspace {
  left_list_divider : LayoutRect; right_list_divider : LayoutRect
}.
Record StatusChromeGeometry : Type := mkStatusChrome {
  outer : LayoutRect; message_count_boundary : Z; top_line_right : Z
}.
Record MainLayout : Type := mkMainLayout {
  rail_mode : RailMode;
  layout_rail_width : Z;
  left_buttons : list CommandPlacement;
  right_buttons : list CommandPlacement;
  workspace_chrome : WorkspaceChromeGeometry;
  list_area : LayoutRect;
  status_chrome : StatusChromeGeometry;
  status_message : LayoutRect;
  status_count : LayoutRect;
  cancel : LayoutRect;
  empty_instruction : LayoutRect;
  empty_safety : LayoutRect;
  empty_add : LayoutRect;
  drop_overlay : LayoutRect
}.

(** A density for which both rails fit beside the list, with its rails. *)
Definition try_density (measured : MeasuredFontMetrics) (dpi width rail_height : Z) (density : RailDensity)
  : option (RailDensity * Z * list CommandPlacement * list CommandPlacement) :=
  let m := rail_metrics measured density dpi in
  let rails_width := sat_mul (rail_width m) 2 in
  if width <=? sat_add rails_width 2 then None
  else
    match calculate_command_rail_layout LEFT_RAIL rail_height m, calculate_command_rail_layout RIGHT_RAIL rail_height m with
    | Ok left_, Ok right_ => Some (density, rail_width m, left_, right_)
    | _, _ => None
    end.
(** [Iterator::find_map]. *)
Fixpoint find_map {A B} (f : A -> option B) (l : list A) : option B :=
  match l with
  | [] => None
  | a :: l => match f a with Some b => Some b | None => find_map f l end
  end.
Definition inset_status_text (dpi : Z) (rect : LayoutRect) : LayoutRect :=
  let horizontal_inset := Z.min (scale_dip 8 dpi) (sat_div (rect_width rect) 2) in
  let top_line_height := if 0 <? rect_height rect then 1 else 0 in
  mkRect (sat_add (rect_x rect) horizontal_inset) (sat_add (rect_y rect) top_line_height)
    (sat_sub (rect_width rect) (sat_mul horizontal_inset 2)) (sat_sub (rect_height rect) top_line_height).

(** The dividers and the list between rails of the given width. *)
Definition workspace_layout (width rail_height rail_width : Z) : WorkspaceChromeGeometry * LayoutRect :=
  if 0 <? rail_width then
    (mkWorkspace (mkRect rail_width 0 1 rail_height)
       (mkRect (sat_sub (sat_sub width rail_width) 1) 0 1 rail_height),
     mkRect (sat_add rail_width 1) 0 (sat_sub (sat_sub width (sat_mul rail_width 2)) 2) rail_height)
  else (mkWorkspace default_rect default_rect, mkRect 0 0 width rail_height).

Definition calculate_main_layout_with_safety (client_width client_height dpi : Z)
    (measured : MeasuredFontMetrics) (preference : RailDensityPreference) (show_empty_safety : bool)
    (status : StatusLayoutInput) : MainLayout :=
  let width := Z.max client_width 0 in
  let height := Z.max client_height 0 in
  let status_height := Z.min (status_height measured dpi) height in
  let rail_height := sat_sub height status_height in
  let selected := find_map (try_density measured dpi width rail_height) (candidates preference) in
  let '(rail_mode, rail_width, left_buttons, right_buttons) :=
    match selected with
    | Some (density, rail_width, left_, right_) => (mode_of density, rail_width, left_, right_)
    | None => (MenuOnlyMode, 0, [], [])
    end in
  let (workspace_chrome, list) := workspace_layout width rail_height rail_width in
  let cancel_preferred :=
    if cancel_visible status
    then sat_add (Z.max (cancel_text_width measured) (scale_dip 36 dpi)) (scale_dip 16 dpi)
    else 0 in
  let cancel_width := Z.min cancel_preferred width in
  let after_cancel := sat_sub width cancel_width in
  let count_preferred := sat_add (Z.max (measured_count_width status) (scale_dip 44 dpi)) (scale_dip 16 dpi) in
  let count_width := Z.min count_preferred after_cancel in
  let message_width := sat_sub after_cancel count_width in
  let status_outer := mkRect 0 rail_height width status_height in
  let top_line_right := sat_add message_width count_width in
  let status_message := inset_status_text dpi (mkRect 0 rail_height message_width status_height) in
  let status_count := inset_status_text dpi (mkRect message_width rail_height count_width status_height) in
  let empty := calculate_empty_state_layout list dpi measured show_empty_safety in
  let drop_overlay := calculate_drop_overlay_layout list dpi measured in
  mkMainLayout rail_mode rail_width left_buttons right_buttons workspace_chrome list
    (mkStatusChrome status_outer message_width top_line_right) status_message status_count
    (mkRect top_line_right rail_height cancel_width status_height)
    (instruction empty) (safety empty) (add empty) drop_overlay.
