(* ===== verification/MainLayoutCorrect.v ===== *)
(** * MainLayoutCorrect: the main window is tiled

    Lemmas on the command rails, the status strip and the list area, and the
    theorems that the parts of the main window lie within the client without
    overlapping, for every size, resolution and measurement, and that a client
    of the minimum size has room for what it must show. *)

From S2P Require Import Prelude CommandCatalog Preferences Layout MainLayout.

#[local] Hint Resolve scale_dip_nonneg clamp_i32_range : core.

(** ** Metrics *)

Definition length_ok (a : Z) : Prop := 0 <= a <= I32_MAX.
Record metrics_ok (m : UiMetrics) : Prop := mkMetricsOk {
  top_ok : length_ok (rail_top_padding m);
  bottom_ok : length_ok (rail_bottom_padding m);
  button_ok : length_ok (button_height m);
  gap_ok : length_ok (group_gap m);
  width_ok : length_ok (rail_width m)
}.

Lemma sat_add_length a b : 0 <= a -> 0 <= b -> length_ok (sat_add a b).
Proof. intros Ha Hb. apply (sat_add_spec a b Ha Hb). Qed.
Lemma max_length a b : length_ok a -> b <= I32_MAX -> length_ok (Z.max a b).
Proof. unfold length_ok. lia. Qed.
Lemma scale_length value dpi : 0 <= value -> 0 <= dpi -> length_ok (scale_dip value dpi).
Proof. apply scale_dip_nonneg. Qed.
Lemma padded_length a value dpi : 0 <= value -> 0 <= dpi -> length_ok (sat_add (Z.max a 0) (scale_dip value dpi)).
Proof. intros Hv Hd. apply sat_add_length; [lia|]. apply (scale_dip_nonneg value dpi Hv Hd). Qed.

Lemma metrics_lengths density dpi : 0 <= dpi -> metrics_ok (metrics density dpi).
Proof.
  intros Hd. unfold metrics. destruct density; split; cbn; try (apply scale_length; lia);
    unfold length_ok, I32_MAX; lia.
Qed.
Lemma rail_metrics_lengths measured density dpi : 0 <= dpi -> metrics_ok (rail_metrics measured density dpi).
Proof.
  intros Hd. destruct (metrics_lengths density dpi Hd) as [Htop Hbottom Hbutton Hgap Hwidth].
  unfold rail_metrics. destruct density; split; cbn; try done.
  all: apply max_length; [done|apply padded_length; lia].
Qed.

(** ** Command rails *)

(** The changes of group along the commands, from a previous group on. *)
Fixpoint changes (previous : option Z) (specs : list CommandUiSpec) : Z :=
  match specs with
  | [] => 0
  | spec :: specs =>
      (match previous with Some g => if bool_decide (Some g = group_of spec) then 0 else 1 | None => 0 end)
      + changes (group_of spec) specs
  end.
Definition on_rail (spec : CommandUiSpec) : Prop := is_Some (group_of spec).

Lemma changes_nonneg specs : forall previous, 0 <= changes previous specs.
Proof.
  induction specs as [|spec specs IH]; intros previous; cbn; [lia|]. specialize (IH (group_of spec)).
  destruct previous; [case_bool_decide|]; lia.
Qed.
Lemma group_changes_eq specs : Forall on_rail specs -> Z.of_nat (group_changes specs) = changes None specs.
Proof.
  induction specs as [|spec [|next specs] IH]; intros Hrail; [done|done|].
  apply Forall_cons in Hrail as [[g Hg] Hrail]. specialize (IH Hrail). cbn [group_changes changes] in *.
  rewrite Hg in *. case_bool_decide; lia.
Qed.
Lemma group_count_changes spec :
  Forall on_rail (ordered_command_specs spec) ->
  Z.of_nat (group_count spec - 1) = changes None (ordered_command_specs spec).
Proof.
  intros Hrail. rewrite <-group_changes_eq by done. unfold group_count.
  destruct (ordered_command_specs spec) as [|s specs]; [done|]. rewrite bool_decide_eq_false_2 by done. lia.
Qed.

(** What a rail needs. *)
Definition rail_extent (specs : list CommandUiSpec) (m : UiMetrics) : Z :=
  rail_top_padding m + rail_bottom_padding m + button_height m * Z.of_nat (length specs)
  + group_gap m * changes None specs.

Lemma required_height_extent spec m required :
  Forall on_rail (ordered_command_specs spec) ->
  required_command_rail_height spec m = Ok required ->
  required = rail_extent (ordered_command_specs spec) m /\ in_i32 required.
Proof.
  intros Hrail. unfold required_command_rail_height, i32_of_nat, i32_checked_add, i32_checked_mul.
  destruct (i32_checked (Z.of_nat (command_count spec))) as [n|] eqn:Hn; [|done].
  apply i32_checked_Some in Hn as [-> _]. cbn [ok_or mbind result_bind].
  destruct (i32_checked (Z.of_nat (group_count spec - 1))) as [g|] eqn:Hg; [|done].
  apply i32_checked_Some in Hg as [-> _]. cbn [ok_or mbind result_bind].
  rewrite group_count_changes by done. unfold rail_extent, command_count.
  destruct (i32_checked (_ + rail_bottom_padding m)) as [a|] eqn:Ha; [|done]. cbn [mbind option_bind].
  destruct (i32_checked (button_height m * _)) as [b|] eqn:Hb; [|done]. cbn [mbind option_bind].
  destruct (i32_checked (a + b)) as [c|] eqn:Hc; [|done]. cbn [mbind option_bind].
  destruct (i32_checked (group_gap m * _)) as [d|] eqn:Hd; [|done]. cbn [mbind option_bind].
  destruct (i32_checked (c + d)) as [e|] eqn:He; [|done]. intros [= <-].
  apply i32_checked_Some in Ha as [-> _], Hb as [-> _], Hc as [-> _], Hd as [-> _], He as [-> Hrange]. done.
Qed.

(** The commands of a rail, each within it, from top to bottom. *)
Definition rail_placed (specs : list CommandUiSpec) (area : LayoutRect) (buttons : list CommandPlacement) : Prop :=
  map placed buttons = map id specs
  /\ Forall (fun b => inside (place b) area) buttons
  /\ StronglySorted (fun a b => above (place a) (place b)) buttons.

Lemma place_commands_placed m specs : metrics_ok m -> Forall on_rail specs -> forall y previous,
  0 <= y ->
  y + button_height m * Z.of_nat (length specs) + group_gap m * changes previous specs <= I32_MAX ->
  exists buttons, place_commands m specs y previous = Ok buttons
    /\ rail_placed specs
         (mkRect 0 y (rail_width m)
            (button_height m * Z.of_nat (length specs) + group_gap m * changes previous specs)) buttons.
Proof.
  intros [_ _ Hbutton Hgap Hwidth] Hrail. unfold length_ok in *.
  induction Hrail as [|spec specs [g Hg] Hrail IH]; intros y previous Hy Hfits.
  { exists []. split; [done|]. split; [done|]. split; constructor. }
  cbn [place_commands changes length] in *. rewrite Hg in *. cbn [ok_or mbind result_bind].
  pose proof (changes_nonneg specs (Some g)) as Hchanges. rewrite Nat2Z.inj_succ in *.
  set (gaps := match previous with Some _ => _ | None => 0 end) in *.
  assert ((if match previous with Some p => negb (p =? g) | None => false end
           then ok_or Overflow (i32_checked_add y (group_gap m)) else Ok y) = Ok (y + group_gap m * gaps)
          /\ 0 <= gaps <= 1) as [-> Hgaps].
  { subst gaps. destruct previous as [p|]; [|split; [f_equal|]; lia].
    destruct (Z.eqb_spec p g) as [->|Hne]; cbn [negb].
    - rewrite bool_decide_eq_true_2 by done. split; [f_equal|]; lia.
    - rewrite bool_decide_eq_false_2 in * by congruence. unfold i32_checked_add.
      rewrite i32_checked_id by (unfold in_i32, I32_MIN in *; nia). split; [cbn; f_equal|]; lia. }
  cbn [mbind result_bind]. unfold i32_checked_add at 1.
  assert (0 <= group_gap m * gaps) by nia. assert (0 <= group_gap m * changes (Some g) specs) by nia.
  assert (0 <= button_height m * Z.of_nat (length specs)) by nia.
  rewrite i32_checked_id by (unfold in_i32, I32_MIN in *; nia). cbn [ok_or mbind result_bind].
  destruct (IH (y + group_gap m * gaps + button_height m) (Some g)) as (buttons & -> & Hids & Hinside & Hsorted);
    [lia|nia|].
  eexists. split; [done|]. split; [by cbn; rewrite Hids|]. split; constructor; try done; cbn.
  - split; cbn; nia.
  - eapply Forall_impl; [exact Hinside|]. intros b Hb. eapply inside_trans; [exact Hb|]. split; cbn; nia.
  - eapply Forall_impl; [exact Hinside|]. intros b []. unfold above. cbn in *. lia.
Qed.

(** A rail whose required height is available is laid out whole. *)
Lemma rail_layout_placed spec m available required :
  metrics_ok m -> Forall on_rail (ordered_command_specs spec) ->
  required_command_rail_height spec m = Ok required -> required <= available ->
  exists buttons, calculate_command_rail_layout spec available m = Ok buttons
    /\ rail_placed (ordered_command_specs spec) (mkRect 0 0 (rail_width m) available) buttons.
Proof.
  intros Hm Hrail Hrequired Havailable. destruct (required_height_extent spec m required) as [Hextent Hrange]; [done..|].
  unfold calculate_command_rail_layout. rewrite Hrequired. cbn [mbind result_bind].
  destruct (Z.ltb_spec available required); [lia|]. unfold in_i32, rail_extent in *.
  pose proof (top_ok m Hm). pose proof (bottom_ok m Hm). unfold length_ok in *.
  destruct (place_commands_placed m (ordered_command_specs spec) Hm Hrail (rail_top_padding m) None)
    as (buttons & -> & Hids & Hinside & Hsorted); [lia|lia|].
  exists buttons. split; [done|]. split; [done|]. split; [|done].
  eapply Forall_impl; [exact Hinside|]. intros b Hb. eapply inside_trans; [exact Hb|].
  split; cbn; try lia. apply (width_ok m Hm). 
  pose proof (button_ok m Hm). pose proof (gap_ok m Hm). pose proof (changes_nonneg (ordered_command_specs spec) None).
  unfold length_ok in *. nia.
Qed.
Lemma rails_on_rail side : Forall on_rail (ordered_command_specs (mkRailSpec side)).
Proof.
  eapply Forall_impl; [apply rail_sides|]. intros spec. unfold shown_on, on_rail, group_of.
  destruct (rail_place spec); [by eexists|done].
Qed.

Lemma rail_layout_Ok spec m available buttons :
  metrics_ok m -> Forall on_rail (ordered_command_specs spec) ->
  calculate_command_rail_layout spec available m = Ok buttons ->
  rail_placed (ordered_command_specs spec) (mkRect 0 0 (rail_width m) available) buttons.
Proof.
  intros Hm Hrail Hbuttons. unfold calculate_command_rail_layout in Hbuttons.
  destruct (required_command_rail_height spec m) as [required|] eqn:Hrequired; [|done]. cbn [mbind result_bind] in Hbuttons.
  destruct (Z.ltb_spec available required); [done|].
  destruct (rail_layout_placed spec m available required) as (buttons' & Hok & Hplaced); [done..|].
  unfold calculate_command_rail_layout in Hok. rewrite Hrequired in Hok. cbn [mbind result_bind] in Hok.
  destruct (Z.ltb_spec available required); [done|]. rewrite Hbuttons in Hok. by injection Hok as ->.
Qed.

(** The two rails of a window. *)
Definition rails_placed (width height : Z) (left_ right_ : list CommandPlacement) : Prop :=
  rail_placed (ordered_command_specs LEFT_RAIL) (mkRect 0 0 width height) left_
  /\ rail_placed (ordered_command_specs RIGHT_RAIL) (mkRect 0 0 width height) right_.

Lemma try_density_Some measured dpi width height density d rw left_ right_ :
  0 <= dpi -> 0 <= width <= I32_MAX ->
  try_density measured dpi width height density = Some (d, rw, left_, right_) ->
  d = density /\ rw = rail_width (rail_metrics measured density dpi) /\ 0 <= rw /\ 2 * rw + 2 < width
  /\ rails_placed rw height left_ right_.
Proof.
  intros Hd Hwidth. unfold try_density. pose proof (rail_metrics_lengths measured density dpi Hd) as Hm.
  set (m := rail_metrics measured density dpi) in *.
  destruct (Z.leb_spec width (sat_add (sat_mul (rail_width m) 2) 2)) as [|Hroom]; [done|].
  destruct (calculate_command_rail_layout LEFT_RAIL height m) as [l|] eqn:Hl; [|done].
  destruct (calculate_command_rail_layout RIGHT_RAIL height m) as [r|] eqn:Hr; [|done].
  intros [= <- <- <- <-]. pose proof (width_ok m Hm) as Hrw. unfold length_ok in Hrw.
  split; [done|]. split; [done|]. split; [lia|]. split.
  - unfold sat_add, sat_mul, clamp_i32, I32_MIN in *. lia.
  - split; (apply rail_layout_Ok; [done|apply rails_on_rail|done]).
Qed.
Lemma find_map_Some {A B} (f : A -> option B) l b : find_map f l = Some b -> exists a, a ∈ l /\ f a = Some b.
Proof.
  induction l as [|a l IH]; cbn; [done|]. destruct (f a) as [b'|] eqn:Hf.
  - intros [= <-]. exists a. split; [apply list_elem_of_here|done].
  - intros (a' & Hin & Ha')%IH. exists a'. split; [by apply list_elem_of_further|done].
Qed.
Lemma find_map_first {A B} (f : A -> option B) l a b : a ∈ l -> f a = Some b -> is_Some (find_map f l).
Proof.
  induction 1 as [a l|a a' l Hin IH]; cbn; intros Hf; [by rewrite Hf|].
  destruct (f a'); [done|by apply IH].
Qed.

(** ** The list area *)

(** The area of the list: nonnegative, and its edges are coordinates. *)
Record area_ok (r : LayoutRect) : Prop := mkArea {
  area_x : 0 <= rect_x r; area_y : 0 <= rect_y r;
  area_width : 0 <= rect_width r; area_height : 0 <= rect_height r;
  area_right : rect_x r + rect_width r <= I32_MAX;
  area_bottom : rect_y r + rect_height r <= I32_MAX
}.

Lemma half_padding padding extent : 0 <= padding -> 0 <= extent <= I32_MAX ->
  let p := Z.min padding (sat_div extent 2) in
  0 <= p /\ 2 * p <= extent /\ sat_mul p 2 = 2 * p /\ sat_sub extent (sat_mul p 2) = extent - 2 * p.
Proof.
  intros Hp He p. pose proof (sat_div_half extent He) as Hdiv. pose proof (quot_half extent ltac:(lia)).
  assert (0 <= p /\ 2 * p <= extent) as [H1 H2] by (subst p; lia).
  assert (sat_mul p 2 = 2 * p) as Hmul by (rewrite sat_mul_id; unfold in_i32, I32_MIN in *; lia).
  rewrite Hmul. rewrite sat_sub_nonneg; lia.
Qed.
Lemma fit_above_spec desired bottom y : 0 <= y <= bottom -> bottom <= I32_MAX ->
  0 <= fit_above desired bottom y <= bottom - y /\ sat_add y (fit_above desired bottom y) = y + fit_above desired bottom y.
Proof.
  intros Hy Hb. assert (0 <= fit_above desired bottom y <= bottom - y) as Hfit.
  { unfold fit_above. rewrite sat_sub_nonneg by lia. lia. }
  split; [done|]. apply sat_add_id. unfold in_i32, I32_MIN. lia.
Qed.
Lemma wrapped_height_nonneg width line available : 0 <= conservative_wrapped_text_height width line available.
Proof.
  unfold conservative_wrapped_text_height. destruct (Z.leb_spec available 0); [lia|].
  set (lines := Z.max (sat_div _ _) 1). destruct (available <? Z.max width 0);
    apply sat_mul_spec; try lia. apply sat_add_spec; lia.
Qed.
Lemma measured_or_wrapped (b : bool) height width line available :
  0 <= if b && (0 <? height) then height else conservative_wrapped_text_height width line available.
Proof.
  destruct b; cbn [andb]; [|apply wrapped_height_nonneg].
  destruct (Z.ltb_spec 0 height); [lia|apply wrapped_height_nonneg].
Qed.
Lemma content_ok measured dpi available show : 0 <= dpi -> 0 <= available ->
  let c := empty_state_content_metrics measured dpi available show in
  0 <= instruction_height c /\ 0 <= safety_height c /\ 0 <= add_width c <= available /\ 0 <= add_height c
  /\ 0 <= total_height c.
Proof.
  intros Hd Ha. cbn zeta. unfold empty_state_content_metrics. rewrite (Z.max_l available 0) by lia.
  cbn [instruction_height safety_height add_width add_height total_height].
  set (instruction := if _ : bool then empty_instruction_wrapped_height measured else conservative_wrapped_text_height _ _ _).
  set (safety := if show then (if _ : bool then _ else conservative_wrapped_text_height _ _ _) else 0).
  assert (0 <= instruction) by (subst instruction; apply measured_or_wrapped).
  assert (0 <= safety) by (subst safety; destruct show; [apply measured_or_wrapped|lia]).
  pose proof (scale_dip_nonneg 112 dpi ltac:(lia) Hd). pose proof (scale_dip_nonneg 28 dpi ltac:(lia) Hd).
  pose proof (scale_dip_nonneg 8 dpi ltac:(lia) Hd).
  set (height := Z.max (sat_add _ _) (scale_dip 28 dpi)). assert (0 <= height) by lia.
  split; [done|]. split; [done|]. split; [lia|]. split; [done|].
  assert (forall a b, 0 <= a -> 0 <= b -> 0 <= sat_add a b) as Hsum by (intros; by apply sat_add_length).
  repeat apply Hsum; try lia. destruct show; [apply Hsum|]; lia.
Qed.

Lemma drop_overlay_inside list dpi measured : 0 <= dpi -> area_ok list ->
  inside (calculate_drop_overlay_layout list dpi measured) list.
Proof.
  intros Hd [Hx Hy Hw Hh Hr Hb]. unfold calculate_drop_overlay_layout.
  pose proof (half_padding (scale_dip 12 dpi) (rect_width list) ltac:(apply scale_dip_nonneg; lia) ltac:(lia)) as Hpad.
  cbn zeta in Hpad. set (padding := Z.min _ _) in *. destruct Hpad as (Hp & Hp2 & _ & ->).
  set (desired := Z.max (sat_add _ _) _). set (height := Z.max (Z.min desired _) 0).
  pose proof (scale_dip_nonneg 28 dpi ltac:(lia) Hd).
  assert (0 <= height <= rect_height list) by (subst height desired; lia).
  rewrite (sat_sub_nonneg (rect_height list) height) by lia.
  pose proof (quot_half (rect_height list - height) ltac:(lia)).
  rewrite !sat_add_id by (unfold in_i32, I32_MIN; lia). split; cbn; lia.
Qed.

Lemma empty_state_placed list dpi measured show : 0 <= dpi -> area_ok list ->
  let e := calculate_empty_state_layout list dpi measured show in
  inside (instruction e) list /\ inside (safety e) list /\ inside (add e) list
  /\ above (instruction e) (add e) /\ above (add e) (safety e)
  /\ Z.min (Z.max (list_header_height measured) 0) (rect_height list) <= rect_y (instruction e) - rect_y list.
Proof.
  intros Hd [Hx Hy Hw Hh Hr Hb]. cbn zeta. unfold calculate_empty_state_layout.
  set (header := Z.min _ (rect_height list)). assert (0 <= header <= rect_height list) as Hheader by (subst header; lia).
  cbn [rect_x rect_y rect_width rect_height]. rewrite (sat_add_id (rect_y list) header) by (unfold in_i32, I32_MIN; lia).
  rewrite (sat_sub_nonneg (rect_height list) header) by lia.
  pose proof (half_padding (scale_dip 12 dpi) (rect_width list) ltac:(apply scale_dip_nonneg; lia) ltac:(lia)) as Hpad.
  cbn zeta in Hpad. set (padding := Z.min (scale_dip 12 dpi) _) in *. destruct Hpad as (Hp & Hp2 & _ & ->).
  pose proof (content_ok measured dpi (rect_width list - 2 * padding) show Hd ltac:(lia)) as Hc. cbn zeta in Hc.
  set (c := empty_state_content_metrics _ _ _ _) in *. destruct Hc as (Hi & Hs & Ha & Hah & Ht).
  unfold rect_bottom. cbn [rect_y rect_height].
  set (data_y := rect_y list + header) in *. set (data_height := rect_height list - header) in *.
  rewrite (sat_add_id data_y data_height) by (subst data_y data_height; unfold in_i32, I32_MIN; lia).
  set (bottom := data_y + data_height).
  assert (sat_sub data_height (total_height c) <= data_height) as Hslack.
  { subst data_height. unfold sat_sub, clamp_i32, I32_MIN. lia. }
  pose proof (quot_half (Z.max (sat_sub data_height (total_height c)) 0) ltac:(lia)) as Hhalf.
  set (half := Z.quot (Z.max _ 0) 2) in *.
  assert (data_y + half <= bottom) as Htop by (subst bottom data_height; lia).
  assert (0 <= data_y /\ bottom <= I32_MAX) as [Hy0 Hmax] by (subst bottom data_y data_height; lia).
  rewrite (sat_add_id data_y half) by (unfold in_i32, I32_MIN; lia). set (y0 := data_y + half) in *.
  destruct (fit_above_spec (instruction_height c) bottom y0) as [F1 ->]; [lia|lia|].
  set (h1 := fit_above (instruction_height c) bottom y0) in *.
  destruct (fit_above_spec (scale_dip 8 dpi) bottom (y0 + h1)) as [F2 ->]; [lia|lia|].
  set (g1 := fit_above (scale_dip 8 dpi) bottom (y0 + h1)) in *. set (y1 := y0 + h1 + g1) in *.
  destruct (fit_above_spec (add_height c) bottom y1) as [F3 ->]; [lia|lia|].
  set (h2 := fit_above (add_height c) bottom y1) in *.
  destruct (fit_above_spec (scale_dip 8 dpi) bottom (y1 + h2)) as [F4 ->]; [lia|lia|].
  set (g2 := fit_above (scale_dip 8 dpi) bottom (y1 + h2)) in *.
  set (y2 := if show then y1 + h2 + g2 else y1 + h2).
  assert (y1 + h2 <= y2 <= bottom) as Hy2 by (subst y2; destruct show; lia).
  destruct (fit_above_spec (safety_height c) bottom y2) as [F5 _]; [lia|lia|].
  set (h3 := fit_above (safety_height c) bottom y2) in *.
  rewrite (sat_sub_nonneg (rect_width list) (add_width c)) by lia.
  pose proof (quot_half (rect_width list - add_width c) ltac:(lia)) as Hcentre.
  rewrite !sat_add_id by (unfold in_i32, I32_MIN; lia).
  clearbody h3 g2 h2 g1 h1 half c padding header. subst bottom data_y data_height y1 y0.
  split; [split; cbn; lia|]. split; [split; cbn; lia|]. split; [split; cbn; lia|].
  unfold above. cbn. lia.
Qed.

(** ** The status strip *)

Lemma inset_inside dpi r : 0 <= dpi -> area_ok r -> inside (inset_status_text dpi r) r.
Proof.
  intros Hd [Hx Hy Hw Hh Hr Hb]. unfold inset_status_text.
  pose proof (half_padding (scale_dip 8 dpi) (rect_width r) ltac:(apply scale_dip_nonneg; lia) ltac:(lia)) as Hpad.
  cbn zeta in Hpad. set (padding := Z.min (scale_dip 8 dpi) _) in *. destruct Hpad as (Hp & Hp2 & _ & ->).
  destruct (Z.ltb_spec 0 (rect_height r)).
  all: rewrite (sat_sub_nonneg (rect_height r)) by lia; rewrite !sat_add_id by (unfold in_i32, I32_MIN; lia).
  all: split; cbn; lia.
Qed.

(** The three parts of the status strip side by side. *)
Record status_placed (layout : MainLayout) : Prop := mkStatusPlaced {
  message_inside : inside (status_message layout) (outer (status_chrome layout));
  count_inside : inside (status_count layout) (outer (status_chrome layout));
  cancel_inside : inside (cancel layout) (outer (status_chrome layout));
  message_left : rect_x (status_message layout) + rect_width (status_message layout)
                 <= message_count_boundary (status_chrome layout);
  count_between : message_count_boundary (status_chrome layout) <= rect_x (status_count layout)
    /\ rect_x (status_count layout) + rect_width (status_count layout) <= top_line_right (status_chrome layout);
  cancel_last : rect_x (cancel layout) = top_line_right (status_chrome layout)
    /\ rect_x (cancel layout) + rect_width (cancel layout)
       = rect_x (outer (status_chrome layout)) + rect_width (outer (status_chrome layout))
}.
(** The list with the rails and dividers on its sides. *)
Record workspace_placed (layout : MainLayout) (width height : Z) : Prop := mkWorkspacePlaced {
  rails_or_menu : rail_mode layout = MenuOnlyMode /\ layout_rail_width layout = 0
      /\ left_buttons layout = [] /\ right_buttons layout = []
    \/ rail_mode layout ≠ MenuOnlyMode
       /\ rails_placed (layout_rail_width layout) height (left_buttons layout) (right_buttons layout);
  without_rails : layout_rail_width layout = 0 -> list_area layout = mkRect 0 0 width height;
  with_rails : layout_rail_width layout ≠ 0 ->
    0 < layout_rail_width layout
    /\ left_list_divider (workspace_chrome layout) = mkRect (layout_rail_width layout) 0 1 height
    /\ list_area layout
       = mkRect (layout_rail_width layout + 1) 0 (width - 2 * layout_rail_width layout - 2) height
    /\ 0 < rect_width (list_area layout)
    /\ right_list_divider (workspace_chrome layout) = mkRect (width - layout_rail_width layout - 1) 0 1 height
}.
(** What the list area shows when it is empty or a drop is near. *)
Record empty_placed (layout : MainLayout) : Prop := mkEmptyPlaced {
  instruction_inside : inside (empty_instruction layout) (list_area layout);
  add_inside : inside (empty_add layout) (list_area layout);
  safety_inside : inside (empty_safety layout) (list_area layout);
  instruction_above : above (empty_instruction layout) (empty_add layout);
  add_above : above (empty_add layout) (empty_safety layout);
  overlay_inside : inside (drop_overlay layout) (list_area layout)
}.

Lemma workspace_layout_spec width height rw : 0 <= rw -> 0 <= width <= I32_MAX -> (0 < rw -> 2 * rw + 2 < width) ->
  0 <= height <= I32_MAX ->
  let '(chrome, list) := workspace_layout width height rw in
  (rw = 0 -> list = mkRect 0 0 width height)
  /\ (rw ≠ 0 -> chrome = mkWorkspace (mkRect rw 0 1 height) (mkRect (width - rw - 1) 0 1 height)
                 /\ list = mkRect (rw + 1) 0 (width - 2 * rw - 2) height)
  /\ area_ok list /\ rect_y list = 0 /\ rect_height list = height.
Proof.
  intros Hrw Hwidth Hroom Hheight. unfold workspace_layout. destruct (Z.ltb_spec 0 rw) as [Hpos|].
  - specialize (Hroom Hpos). rewrite (sat_mul_id rw 2) by (unfold in_i32, I32_MIN; lia).
    rewrite !(sat_sub_nonneg width) by lia. rewrite !sat_sub_nonneg by lia.
    rewrite sat_add_id by (unfold in_i32, I32_MIN; lia). rewrite (Z.mul_comm rw 2).
    split; [lia|]. split; [done|]. split; [split; cbn; lia|done].
  - split; [done|]. split; [lia|]. split; [split; cbn; lia|done].
Qed.
Lemma selected_spec measured dpi width height preference :
  0 <= dpi -> 0 <= width <= I32_MAX ->
  let '(mode, rw, left_, right_) :=
    match find_map (try_density measured dpi width height) (candidates preference) with
    | Some (density, rail_width, left_, right_) => (mode_of density, rail_width, left_, right_)
    | None => (MenuOnlyMode, 0, [], [])
    end in
  0 <= rw /\ (0 < rw -> 2 * rw + 2 < width)
  /\ ((mode = MenuOnlyMode /\ rw = 0 /\ left_ = [] /\ right_ = [])
      \/ (mode ≠ MenuOnlyMode /\ rails_placed rw height left_ right_)).
Proof.
  intros Hd Hwidth. destruct (find_map _ _) as [[[[density rw] left_] right_]|] eqn:Hfind.
  - apply find_map_Some in Hfind as (d & _ & Hd').
    apply try_density_Some in Hd' as (-> & -> & Hrw & Hroom & Hplaced); [|done..].
    split; [done|]. split; [done|]. right. split; [by destruct d|done].
  - split; [lia|]. split; [lia|]. by left.
Qed.

Lemma status_height_nonneg measured dpi : 0 <= dpi -> 0 <= status_height measured dpi.
Proof. intros Hd. unfold status_height. pose proof (scale_dip_nonneg STATUS_HEIGHT dpi ltac:(unfold STATUS_HEIGHT; lia) Hd). lia. Qed.

(** C39: The main window is tiled, whatever its size, resolution, fonts and
    settings.  The status strip lies below the rails and the list and the two
    fill the client.  Without rails the list takes the whole width; with rails,
    a rail, a divider, the list, a divider and a rail fill it.  Each rail shows
    all its commands, within it and one above the other.  Message, count and
    cancel button lie in the status strip side by side.  The
    instruction, the add button and the safety text of the empty list lie in the
    list, one below the other; the drop overlay lies in the list too, where it may
    cover them. *)
Theorem main_layout_tiles_client client_width client_height dpi measured preference show_safety status :
  client_width <= I32_MAX -> client_height <= I32_MAX -> 0 <= dpi ->
  let layout := calculate_main_layout_with_safety client_width client_height dpi measured preference show_safety status in
  let width := Z.max client_width 0 in
  let height := rect_height (list_area layout) in
  0 <= height
  /\ outer (status_chrome layout) = mkRect 0 height width (Z.max client_height 0 - height)
  /\ 0 <= rect_height (outer (status_chrome layout))
  /\ workspace_placed layout width height /\ status_placed layout /\ empty_placed layout.
Proof.
  intros Hcw Hch Hd. cbn zeta. unfold calculate_main_layout_with_safety.
  set (width := Z.max client_width 0). set (total := Z.max client_height 0).
  assert (0 <= width <= I32_MAX /\ 0 <= total <= I32_MAX) as [Hwidth Htotal] by (unfold I32_MAX in *; lia).
  pose proof (status_height_nonneg measured dpi Hd) as Hstatus.
  set (strip := Z.min (status_height measured dpi) total). assert (0 <= strip <= total) as Hstrip by (subst strip; lia).
  rewrite (sat_sub_nonneg total strip) by lia. set (height := total - strip).
  assert (0 <= height <= I32_MAX) as Hheight by (subst height; lia).
  pose proof (selected_spec measured dpi width height preference Hd Hwidth) as Hselected.
  destruct (match find_map _ _ with Some _ => _ | None => _ end) as [[[mode rw] left_] right_].
  destruct Hselected as (Hrw & Hroom & Hmode).
  pose proof (workspace_layout_spec width height rw Hrw Hwidth Hroom Hheight) as Hworkspace.
  destruct (workspace_layout width height rw) as [chrome list].
  destruct Hworkspace as (Hnone & Hsome & Harea & Hy & Hlh).
  set (cancel_preferred := if cancel_visible status then _ else 0).
  assert (0 <= cancel_preferred) as Hcancel.
  { subst cancel_preferred. destruct (cancel_visible status); [|lia].
    pose proof (scale_dip_nonneg 36 dpi ltac:(lia) Hd). pose proof (scale_dip_nonneg 16 dpi ltac:(lia) Hd).
    apply sat_add_length; lia. }
  set (cancel_width := Z.min cancel_preferred width). assert (0 <= cancel_width <= width) as Hcw' by (subst cancel_width; lia).
  rewrite (sat_sub_nonneg width cancel_width) by lia.
  set (count_preferred := sat_add (Z.max (measured_count_width status) _) _).
  assert (0 <= count_preferred) as Hcount.
  { pose proof (scale_dip_nonneg 44 dpi ltac:(lia) Hd). pose proof (scale_dip_nonneg 16 dpi ltac:(lia) Hd).
    apply sat_add_length; lia. }
  set (count_width := Z.min count_preferred _). assert (0 <= count_width <= width - cancel_width) as Hcount' by (subst count_width; lia).
  rewrite (sat_sub_nonneg (width - cancel_width) count_width) by lia.
  set (message_width := width - cancel_width - count_width).
  rewrite (sat_add_id message_width count_width) by (subst message_width; unfold in_i32, I32_MIN; lia).
  clearbody cancel_preferred count_preferred cancel_width count_width strip.
  assert (message_width = width - cancel_width - count_width) as Hmw by done.
  assert (height = total - strip) as Hht by done.
  pose proof (inset_inside dpi (mkRect 0 height message_width strip) Hd) as Hmessage.
  pose proof (inset_inside dpi (mkRect message_width height count_width strip) Hd) as Hcounted.
  generalize dependent (inset_status_text dpi (mkRect 0 height message_width strip)). intros message Hmessage.
  generalize dependent (inset_status_text dpi (mkRect message_width height count_width strip)). intros counted Hcounted.
  destruct Hmessage as [M1 M2 M3 M4 M5 M6]; [subst message_width height; split; cbn; lia|].
  destruct Hcounted as [C1 C2 C3 C4 C5 C6]; [subst message_width height; split; cbn; lia|].
  pose proof (empty_state_placed list dpi measured show_safety Hd Harea) as (E1 & E2 & E3 & E4 & E5 & _).
  cbn [list_area]. rewrite Hlh. cbn [rect_x rect_y rect_width rect_height] in *.
  split; [lia|]. split; [cbn; f_equal; subst height; lia|]. split; [cbn; lia|]. split; [|split].
  - split; cbn; [done|done|]. intros Hne. destruct (Hsome Hne) as [-> ->]. specialize (Hroom ltac:(lia)).
    cbn in Harea |- *. split; [lia|].
    split; [done|]. split; [done|]. split; [lia|done].
  - split; cbn; try (split; cbn; lia); lia.
  - split; [exact E1|exact E3|exact E2|exact E4|exact E5|by apply drop_overlay_inside].
Qed.
(** A window of 1000 by 700 pixels at 120 dpi, with fonts that were not measured. *)
Lemma main_layout_tiles_client_witness :
  let layout := calculate_main_layout_with_safety 1000 700 120 (mkMeasured 24 60 40 20 80 50 20 200 20 400 20 90 20 0 0 0 120 20)
    Automatic true (mkStatusInput true 100) in
  workspace_placed layout 1000 (rect_height (list_area layout)) /\ rail_mode layout = ComfortableMode.
Proof.
  split; [|vm_compute; reflexivity].
  apply (main_layout_tiles_client 1000 700 120 _ Automatic true (mkStatusInput true 100)); unfold I32_MAX; lia.
Defined.
