(* ===== verification/Columns.v ===== *)
(** * Columns: the widths of the list columns

    The part of [crates/darknamer-app/src/ui_layout.rs] that keeps the state of
    the seven columns and divides the list between its three primary columns,
    and what a client of the minimum size has room for.  Labels are localised
    texts and are left out. *)

From S2P Require Import Prelude CommandCatalog Preferences Layout MainLayout MainLayoutCorrect.

Definition NATIVE_STATUS_COLUMN_WIDTH_DIP : Z := 112.

(** The default widths of [COLUMNS]. *)
Definition COLUMNS : list Z := [150; 150; 100; 0; 0; 0; 0].
Definition NATIVE_STATUS_COLUMN_INDEX : nat := length COLUMNS.
Definition NATIVE_LIST_COLUMN_COUNT : nat := length COLUMNS + 1.

(** ** Column states *)

Definition visible_column (width_dip : Z) : ColumnState := mkColumn true width_dip false.
Definition hidden_column (width_dip : Z) : ColumnState := mkColumn false width_dip false.
Definition set_visible (visible : bool) (c : ColumnState) : ColumnState :=
  mkColumn visible (width_dip c) (user_resized c).
Definition record_user_resize (width_px dpi : Z) (c : ColumnState) : ColumnState :=
  mkColumn (visible c) (unscale_px (Z.max width_px 0) dpi) true.
Definition width_px (c : ColumnState) (dpi : Z) : Z := scale_dip (width_dip c) dpi.
Definition default_column_states : list ColumnState :=
  [visible_column (nth 0 COLUMNS 0); visible_column (nth 1 COLUMNS 0); visible_column (nth 2 COLUMNS 0);
   hidden_column 120; hidden_column 80; hidden_column 120; hidden_column 120].
Definition status_column_width_after_resize (requested_width_px measured_minimum_px dpi : Z) : Z :=
  Z.max (unscale_px (Z.max requested_width_px measured_minimum_px) dpi) NATIVE_STATUS_COLUMN_WIDTH_DIP.

(** ** Division of the list *)

(** [widths[index] += 1] for the given indices. *)
Definition add_one (widths : list Z) (index : nat) : list Z := alter (fun w => i32_wrap (w + 1)) index widths.

Definition adaptive_primary_column_widths (available dpi : Z) : list Z :=
  let available := Z.max available 0 in
  let name := scale_dip NAME_COLUMN_MINIMUM dpi in
  let location := scale_dip LOCATION_COLUMN_MINIMUM dpi in
  let minimum_total := name + name + location in
  if available <? minimum_total then
    let location := Z.min location available in
    let names_available := i32_wrap (available - location) in
    let current := Z.quot (i32_wrap (names_available + 1)) 2 in
    [current; i32_wrap (names_available - current); location]
  else
    let remaining := default 0 (i32_checked (available - minimum_total)) in
    let each_share := Z.quot remaining 5 in
    let widths := [i32_wrap (name + i32_wrap (each_share * 2)); i32_wrap (name + i32_wrap (each_share * 2));
                   i32_wrap (location + each_share)] in
    fold_left add_one (take (Z.to_nat (Z.rem remaining 5)) [0; 1; 2; 0; 1]%nat) widths.

(** [columns[index].width_px(dpi)] of a resized column, the minimum of another. *)
Definition starting_width (c : ColumnState) (minimum dpi : Z) : Z :=
  if user_resized c then width_px c dpi else minimum.
(** The visible optional columns. *)
Definition optional_columns_width (optional : list ColumnState) (dpi : Z) : Z :=
  fold_left sat_add (map (fun c => width_px c dpi) (List.filter visible optional)) 0.
(** One round of the loop that widens the automatic name columns. *)
Definition widen_name (automatic : bool) (width each remainder : Z) : Z * Z :=
  if automatic then (sat_add width (i32_wrap (each + (if 0 <? remainder then 1 else 0))), sat_sub remainder 1)
  else (width, remainder).

(** The budget of the three primary columns. *)
Definition primary_budget (client_width status_width dpi : Z) (primary optional : list ColumnState) : Z :=
  let automatic_default_layout :=
    forallb (fun c => negb (user_resized c)) primary && forallb (fun c => negb (visible c)) optional in
  sat_sub (sat_sub (sat_sub (Z.max client_width 0) (Z.max status_width 0)) (optional_columns_width optional dpi))
    (if automatic_default_layout then Z.max (scale_dip LIST_COLUMN_FIT_GUTTER_DIP dpi) 1 else 0).

(** The automatic names share what brings them to their preferred widths. *)
Definition share_names (a0 a1 : bool) (w0 w1 p0 p1 remaining : Z) : Z * Z * Z :=
  let automatic_names := (if a0 then 1 else 0) + (if a1 then 1 else 0) in
  if negb (automatic_names =? 0) && (0 <? remaining) then
    let name_deficit := i32_wrap (i32_wrap (0 + (if a0 then sat_sub p0 w0 else 0))
                                  + (if a1 then sat_sub p1 w1 else 0)) in
    let distributed := Z.min remaining name_deficit in
    let each := Z.quot distributed automatic_names in
    let remainder := Z.rem distributed automatic_names in
    let (w0, remainder) := widen_name a0 w0 each remainder in
    let (w1, remainder) := widen_name a1 w1 each remainder in
    (w0, w1, i32_wrap (remaining - distributed))
  else (w0, w1, remaining).
(** Then the automatic location takes what brings it to its preferred width. *)
Definition share_location (a2 : bool) (w2 p2 remaining : Z) : Z * Z :=
  if a2 && (0 <? remaining) then
    let distributed := Z.min remaining (sat_sub p2 w2) in
    (sat_add w2 distributed, i32_wrap (remaining - distributed))
  else (w2, remaining).
(** The last automatic column takes the rest. *)
Definition distribute (a0 a1 a2 : bool) (w0 w1 w2 p0 p1 p2 budget : Z) : list Z :=
  let required := sat_add (sat_add (sat_add 0 w0) w1) w2 in
  let remaining := sat_sub budget required in
  let '(w0, w1, remaining) := share_names a0 a1 w0 w1 p0 p1 remaining in
  let '(w2, remaining) := share_location a2 w2 p2 remaining in
  if 0 <? remaining then
    if a2 then [w0; w1; sat_add w2 remaining]
    else if a1 then [w0; sat_add w1 remaining; w2]
    else if a0 then [sat_add w0 remaining; w1; w2]
    else [w0; w1; w2]
  else [w0; w1; w2].

Definition allocate_primary_column_widths (client_width status_width dpi : Z) (columns : list ColumnState) : list Z :=
  match columns with
  | c0 :: c1 :: c2 :: optional =>
      let budget := primary_budget client_width status_width dpi [c0; c1; c2] optional in
      let name := scale_dip NAME_COLUMN_MINIMUM dpi in
      let location := scale_dip LOCATION_COLUMN_MINIMUM dpi in
      let minimum_sum := i32_wrap (i32_wrap (i32_wrap (0 + name) + name) + location) in
      if forallb (fun c => negb (user_resized c)) [c0; c1; c2] && (minimum_sum <=? budget)
      then adaptive_primary_column_widths budget dpi
      else
        distribute (negb (user_resized c0)) (negb (user_resized c1)) (negb (user_resized c2))
          (starting_width c0 name dpi) (starting_width c1 name dpi) (starting_width c2 location dpi)
          (scale_dip (nth 0 COLUMNS 0) dpi) (scale_dip (nth 1 COLUMNS 0) dpi) (scale_dip (nth 2 COLUMNS 0) dpi)
          budget
  | _ => []
  end.

(** ** Lemmas *)

Definition sum_widths (widths : list Z) : Z := fold_right Z.add 0 widths.

(** Resolutions up to a hundred times the base one, at which no sum of column
    minima leaves [i32]. *)
Definition usual_dpi (dpi : Z) : Prop := 96 <= dpi <= 9600.
Lemma usual_scale value dpi : usual_dpi dpi -> 0 <= value <= 32768 ->
  value <= scale_dip value dpi <= 100 * value.
Proof.
  unfold usual_dpi. intros Hd Hv. pose proof (scale_dip_exact value dpi ltac:(lia) ltac:(lia) ltac:(nia)). nia.
Qed.

Lemma adaptive_fills available dpi : usual_dpi dpi -> 0 <= available <= I32_MAX ->
  exists a b c, adaptive_primary_column_widths available dpi = [a; b; c] /\ a + b + c = available
    /\ 0 <= a /\ 0 <= b /\ 0 <= c
    /\ (2 * scale_dip NAME_COLUMN_MINIMUM dpi + scale_dip LOCATION_COLUMN_MINIMUM dpi <= available ->
        scale_dip NAME_COLUMN_MINIMUM dpi <= a /\ scale_dip NAME_COLUMN_MINIMUM dpi <= b
        /\ scale_dip LOCATION_COLUMN_MINIMUM dpi <= c /\ 0 <= a - b <= 1).
Proof.
  intros Hd Ha. unfold adaptive_primary_column_widths. rewrite (Z.max_l available 0) by lia.
  pose proof (usual_scale NAME_COLUMN_MINIMUM dpi Hd ltac:(unfold NAME_COLUMN_MINIMUM; lia)) as Hname.
  pose proof (usual_scale LOCATION_COLUMN_MINIMUM dpi Hd ltac:(unfold LOCATION_COLUMN_MINIMUM; lia)) as Hlocation.
  unfold NAME_COLUMN_MINIMUM, LOCATION_COLUMN_MINIMUM in *.
  set (name := scale_dip 120 dpi) in *. set (location := scale_dip 80 dpi) in *.
  destruct (Z.ltb_spec available (name + name + location)).
  - rewrite !(i32_wrap_id (available - Z.min location available)) by (unfold in_i32, I32_MIN; lia).
    set (names := available - Z.min location available). assert (0 <= names <= I32_MAX - 1) by (subst names; unfold I32_MAX; lia).
    rewrite (i32_wrap_id (names + 1)) by (unfold in_i32, I32_MIN; lia).
    pose proof (quot_half (names + 1) ltac:(lia)). set (half := Z.quot (names + 1) 2) in *.
    rewrite (i32_wrap_id (names - half)) by (unfold in_i32, I32_MIN; lia).
    eexists _, _, _. split; [done|]. lia.
  - rewrite i32_checked_id by (unfold in_i32, I32_MIN; lia). cbn [from_option Datatypes.id].
    set (remaining := available - (name + name + location)).
    assert (remaining = available - (name + name + location)) as Hremaining by done. clearbody remaining.
    pose proof (Z.quot_rem' remaining 5). pose proof (Z.rem_bound_pos remaining 5 ltac:(lia) ltac:(lia)).
    assert (0 <= Z.quot remaining 5) by (apply Z.quot_pos; lia).
    set (each := Z.quot remaining 5) in *. set (rest := Z.rem remaining 5) in *.
    clearbody each rest name location.
    rewrite (i32_wrap_id (each * 2)) by (unfold in_i32, I32_MIN; lia).
    rewrite !(i32_wrap_id (name + each * 2)), (i32_wrap_id (location + each)) by (unfold in_i32, I32_MIN; lia).
    assert (rest = 0 \/ rest = 1 \/ rest = 2 \/ rest = 3 \/ rest = 4) as Hrest by lia.
    destruct Hrest as [Hr|[Hr|[Hr|[Hr|Hr]]]]; rewrite Hr; cbn [Z.to_nat Pos.to_nat Pos.iter_op Nat.add Init.Nat.add take fold_left];
      unfold add_one, alter, list_alter; cbn;
      eexists _, _, _; (split; [done|]); rewrite ?(i32_wrap_id (name + each * 2 + 1)) by (unfold in_i32, I32_MIN; lia);
      rewrite ?i32_wrap_id by (unfold in_i32, I32_MIN; lia); lia.
Qed.

(** The first stage of [distribute]: the names share what they lack. *)
Lemma names_share (a0 a1 : bool) w0 w1 d :
  0 <= w0 -> 0 <= w1 -> 0 <= d -> w0 + w1 + d <= I32_MAX ->
  let n := (if a0 then 1 else 0) + (if a1 then 1 else 0) in
  n ≠ 0 ->
  exists x y, (let (w0, remainder) := widen_name a0 w0 (Z.quot d n) (Z.rem d n) in
               let (w1, remainder) := widen_name a1 w1 (Z.quot d n) remainder in (w0, w1)) = (x, y)
    /\ w0 <= x /\ w1 <= y /\ x + y = w0 + w1 + d /\ (a0 = false -> x = w0) /\ (a1 = false -> y = w1).
Proof.
  intros H0 H1 Hd Hmax n Hn. assert (n = 1 \/ n = 2) as Hcases by (subst n; destruct a0, a1; lia).
  pose proof (Z.quot_rem' d n). pose proof (Z.rem_bound_pos d n ltac:(lia) ltac:(lia)).
  assert (0 <= Z.quot d n) by (apply Z.quot_pos; lia).
  set (q := Z.quot d n) in *. set (r := Z.rem d n) in *. clearbody q r.
  unfold widen_name.
  destruct a0, a1; cbn in n; subst n; try lia.
  - destruct (Z.ltb_spec 0 r); rewrite (sat_sub_id r 1) by (unfold in_i32, I32_MIN, I32_MAX; lia).
    + destruct (Z.ltb_spec 0 (r - 1)); [lia|].
      rewrite !i32_wrap_id, !sat_add_id by (rewrite ?i32_wrap_id; unfold in_i32, I32_MIN; lia). eexists _, _. split; [done|lia].
    + destruct (Z.ltb_spec 0 (r - 1)); [lia|].
      rewrite !i32_wrap_id, !sat_add_id by (rewrite ?i32_wrap_id; unfold in_i32, I32_MIN; lia). eexists _, _. split; [done|lia].
  - destruct (Z.ltb_spec 0 r); [lia|].
    rewrite !i32_wrap_id, !sat_add_id by (rewrite ?i32_wrap_id; unfold in_i32, I32_MIN; lia). eexists _, _. split; [done|lia].
  - destruct (Z.ltb_spec 0 r); [lia|].
    rewrite !i32_wrap_id, !sat_add_id by (rewrite ?i32_wrap_id; unfold in_i32, I32_MIN; lia). eexists _, _. split; [done|lia].
Qed.

Lemma share_names_spec (a0 a1 : bool) w0 w1 p0 p1 remaining :
  0 <= w0 -> 0 <= w1 -> w0 + w1 + remaining <= I32_MAX ->
  (a0 = true -> w0 <= p0 <= 1000000) -> (a1 = true -> w1 <= p1 <= 1000000) ->
  exists x y m, share_names a0 a1 w0 w1 p0 p1 remaining = (x, y, m)
    /\ w0 <= x /\ w1 <= y /\ x + y + m = w0 + w1 + remaining /\ (a0 = false -> x = w0) /\ (a1 = false -> y = w1)
    /\ (0 <= remaining -> 0 <= m) /\ (remaining <= 0 -> x = w0 /\ y = w1).
Proof.
  intros H0 H1 Hmax Hp0 Hp1. unfold share_names. set (n := (if a0 then 1 else 0) + (if a1 then 1 else 0)).
  destruct (Z.eqb_spec n 0) as [|Hn]; cbn [negb andb]; [exists w0, w1, remaining; split; [done|lia]|].
  destruct (Z.ltb_spec 0 remaining); [|exists w0, w1, remaining; split; [done|lia]].
  set (d0 := if a0 then sat_sub p0 w0 else 0). set (d1 := if a1 then sat_sub p1 w1 else 0).
  assert (0 <= d0 <= 1000000) as Hd0.
  { subst d0. destruct a0; [|lia]. specialize (Hp0 eq_refl). rewrite sat_sub_id; unfold in_i32, I32_MIN, I32_MAX; lia. }
  assert (0 <= d1 <= 1000000) as Hd1.
  { subst d1. destruct a1; [|lia]. specialize (Hp1 eq_refl). rewrite sat_sub_id; unfold in_i32, I32_MIN, I32_MAX; lia. }
  clearbody d0 d1. rewrite (i32_wrap_id (0 + d0)) by (unfold in_i32, I32_MIN, I32_MAX; lia).
  rewrite (i32_wrap_id (0 + d0 + d1)) by (unfold in_i32, I32_MIN, I32_MAX; lia).
  set (d := Z.min remaining (0 + d0 + d1)). assert (0 <= d <= remaining) as Hd by (subst d; lia). clearbody d.
  destruct (names_share a0 a1 w0 w1 d) as (x & y & Hshare & Hshared); [lia..|done|].
  fold n in Hshare. destruct (widen_name a0 w0 _ _) as [x' r]. destruct (widen_name a1 w1 _ r) as [y' r'].
  injection Hshare as -> ->. exists x, y, (remaining - d). rewrite i32_wrap_id by (unfold in_i32, I32_MIN; lia).
  destruct Hshared as (? & ? & ? & ? & ?). do 3 (split; [try done; lia|]). split; [lia|]. do 2 (split; [done|]). lia.
Qed.
Lemma share_location_spec (a2 : bool) w2 p2 remaining :
  0 <= w2 -> w2 + remaining <= I32_MAX -> (a2 = true -> w2 <= p2 <= 1000000) ->
  exists z m, share_location a2 w2 p2 remaining = (z, m)
    /\ w2 <= z /\ z + m = w2 + remaining /\ (a2 = false -> z = w2)
    /\ (0 <= remaining -> 0 <= m) /\ (remaining <= 0 -> z = w2).
Proof.
  intros H2 Hmax Hp2. unfold share_location.
  destruct a2; cbn [andb]; [|exists w2, remaining; split; [done|lia]].
  destruct (Z.ltb_spec 0 remaining); [|exists w2, remaining; split; [done|lia]].
  specialize (Hp2 eq_refl). rewrite sat_sub_id by (unfold in_i32, I32_MIN, I32_MAX; lia). set (d := Z.min remaining (p2 - w2)).
  assert (0 <= d <= remaining) as Hd by (subst d; lia). clearbody d.
  rewrite sat_add_id, i32_wrap_id by (unfold in_i32, I32_MIN; lia). exists (w2 + d), (remaining - d). split; [done|lia].
Qed.

Lemma distribute_fills (a0 a1 a2 : bool) w0 w1 w2 p0 p1 p2 budget :
  0 <= w0 -> 0 <= w1 -> 0 <= w2 -> w0 + w1 + w2 <= I32_MAX -> budget <= I32_MAX ->
  (a0 = true -> w0 <= p0 <= 1000000) -> (a1 = true -> w1 <= p1 <= 1000000) -> (a2 = true -> w2 <= p2 <= 1000000) ->
  exists x y z, distribute a0 a1 a2 w0 w1 w2 p0 p1 p2 budget = [x; y; z]
    /\ w0 <= x /\ w1 <= y /\ w2 <= z
    /\ (a0 = false -> x = w0) /\ (a1 = false -> y = w1) /\ (a2 = false -> z = w2)
    /\ (budget <= w0 + w1 + w2 -> x = w0 /\ y = w1 /\ z = w2)
    /\ (w0 + w1 + w2 <= budget -> a0 || a1 || a2 = true -> x + y + z = budget).
Proof.
  intros H0 H1 H2 Hmax Hbudget Hp0 Hp1 Hp2. unfold distribute.
  rewrite (sat_add_id 0 w0), (sat_add_id (0 + w0) w1), (sat_add_id (0 + w0 + w1) w2)
    by (unfold in_i32, I32_MIN; lia).
  set (remaining := sat_sub budget (0 + w0 + w1 + w2)).
  assert (remaining <= 0 /\ budget <= w0 + w1 + w2 \/ remaining = budget - (w0 + w1 + w2)) as Hremaining.
  { destruct (Z.le_gt_cases budget (w0 + w1 + w2)); [left|right]; subst remaining.
    - unfold sat_sub, clamp_i32, I32_MIN. lia.
    - rewrite sat_sub_id; unfold in_i32, I32_MIN; lia. }
  clearbody remaining.
  destruct (share_names_spec a0 a1 w0 w1 p0 p1 remaining) as (x & y & m & -> & Hx & Hy & Hsum & Ha0 & Ha1 & Hm & Hnone);
    [lia..|done|done|].
  destruct (share_location_spec a2 w2 p2 m) as (z & m' & -> & Hz & Hsum' & Ha2 & Hm' & Hnone'); [lia..|done|].
  destruct (Z.ltb_spec 0 m').
  - destruct a2, a1, a0;
      repeat match goal with
      | H : ?b = ?b -> _ |- _ => specialize (H eq_refl)
      | H : true = false -> _ |- _ => clear H
      | H : false = true -> _ |- _ => clear H
      end;
      rewrite ?sat_add_id by (unfold in_i32, I32_MIN; lia);
      eexists _, _, _; (split; [done|]); cbn [orb]; repeat split; intros; try discriminate; lia.
  - exists x, y, z. split; [done|]. do 3 (split; [lia|]). do 3 (split; [done|]). split; [lia|]. intros; lia.
Qed.

Definition stored_width (c : ColumnState) : Prop := 0 <= width_dip c <= MAX_WIDTH_DIP.

Lemma optional_width_nonneg optional dpi : usual_dpi dpi -> Forall stored_width optional ->
  0 <= optional_columns_width optional dpi <= I32_MAX.
Proof.
  intros Hd Hstored. unfold optional_columns_width.
  assert (forall widths start, Forall (fun w => 0 <= w) widths -> 0 <= start <= I32_MAX ->
    0 <= fold_left sat_add widths start <= I32_MAX) as Hfold.
  { induction widths as [|w widths IH]; intros start Hw Hstart; [done|]. apply Forall_cons in Hw as [Hw Hwidths].
    cbn. apply IH; [done|]. apply sat_add_length; lia. }
  apply Hfold; [|unfold I32_MAX; lia]. apply Forall_map, Forall_forall. intros c Hc.
  apply list_elem_of_In, filter_In in Hc as [Hc%list_elem_of_In _]. rewrite Forall_forall in Hstored.
  specialize (Hstored c Hc). unfold stored_width, MAX_WIDTH_DIP in Hstored. unfold width_px, usual_dpi in *.
  apply scale_dip_nonneg; lia.
Qed.
Lemma starting_width_bounds c minimum dpi : usual_dpi dpi -> stored_width c -> 0 <= minimum <= 32768 ->
  0 <= starting_width c (scale_dip minimum dpi) dpi <= 3276800.
Proof.
  intros Hd Hc Hm. unfold starting_width, width_px, stored_width, MAX_WIDTH_DIP in *.
  pose proof (usual_scale minimum dpi Hd Hm). pose proof (usual_scale (width_dip c) dpi Hd Hc).
  destruct (user_resized c); lia.
Qed.
Lemma primary_budget_spec client_width status_width dpi primary optional :
  client_width <= I32_MAX -> status_width <= I32_MAX -> 0 <= dpi ->
  0 <= optional_columns_width optional dpi <= I32_MAX ->
  let budget := primary_budget client_width status_width dpi primary optional in
  budget <= I32_MAX
  /\ (0 <= budget -> budget + Z.max status_width 0 + optional_columns_width optional dpi <= Z.max client_width 0).
Proof.
  intros Hc Hs Hd Ho. cbn zeta. unfold primary_budget. set (gutter := if _ : bool then Z.max _ 1 else 0).
  assert (0 <= gutter <= I32_MAX).
  { subst gutter. pose proof (scale_dip_nonneg LIST_COLUMN_FIT_GUTTER_DIP dpi). unfold LIST_COLUMN_FIT_GUTTER_DIP, I32_MAX in *.
    destruct (_ && _); lia. }
  clearbody gutter. unfold sat_sub, clamp_i32, I32_MIN, I32_MAX in *. lia.
Qed.

(** The primary columns fill the list.  A column the user resized has
    exactly its stored width, an automatic one at least its minimum.  When the
    starting widths fit the budget and a column is automatic, the three widths
    add up to the budget exactly, so with the status column and the visible
    optional columns they never exceed the list; when they do not fit, no
    column is widened. *)
Theorem column_widths_fill client_width status_width dpi c0 c1 c2 optional :
  usual_dpi dpi -> client_width <= I32_MAX -> status_width <= I32_MAX ->
  Forall stored_width (c0 :: c1 :: c2 :: optional) ->
  let budget := primary_budget client_width status_width dpi [c0; c1; c2] optional in
  let start0 := starting_width c0 (scale_dip NAME_COLUMN_MINIMUM dpi) dpi in
  let start1 := starting_width c1 (scale_dip NAME_COLUMN_MINIMUM dpi) dpi in
  let start2 := starting_width c2 (scale_dip LOCATION_COLUMN_MINIMUM dpi) dpi in
  exists x y z,
    allocate_primary_column_widths client_width status_width dpi (c0 :: c1 :: c2 :: optional) = [x; y; z]
    /\ (if user_resized c0 then x = width_px c0 dpi else scale_dip NAME_COLUMN_MINIMUM dpi <= x)
    /\ (if user_resized c1 then y = width_px c1 dpi else scale_dip NAME_COLUMN_MINIMUM dpi <= y)
    /\ (if user_resized c2 then z = width_px c2 dpi else scale_dip LOCATION_COLUMN_MINIMUM dpi <= z)
    /\ (budget < start0 + start1 + start2 -> x = start0 /\ y = start1 /\ z = start2)
    /\ (start0 + start1 + start2 <= budget ->
        user_resized c0 && user_resized c1 && user_resized c2 = false ->
        x + y + z = budget
        /\ x + y + z + Z.max status_width 0 + optional_columns_width optional dpi <= Z.max client_width 0).
Proof.
  intros Hd Hc Hs Hstored. cbn zeta.
  apply Forall_cons in Hstored as [Hc0 Hstored]. apply Forall_cons in Hstored as [Hc1 Hstored].
  apply Forall_cons in Hstored as [Hc2 Hstored].
  pose proof (primary_budget_spec client_width status_width dpi [c0; c1; c2] optional Hc Hs
    ltac:(unfold usual_dpi in Hd; lia) (optional_width_nonneg optional dpi Hd Hstored)) as [Hmax Hfits].
  unfold allocate_primary_column_widths. set (budget := primary_budget _ _ _ _ _) in *. clearbody budget.
  pose proof (starting_width_bounds c0 NAME_COLUMN_MINIMUM dpi Hd Hc0 ltac:(unfold NAME_COLUMN_MINIMUM; lia)) as H0.
  pose proof (starting_width_bounds c1 NAME_COLUMN_MINIMUM dpi Hd Hc1 ltac:(unfold NAME_COLUMN_MINIMUM; lia)) as H1.
  pose proof (starting_width_bounds c2 LOCATION_COLUMN_MINIMUM dpi Hd Hc2 ltac:(unfold LOCATION_COLUMN_MINIMUM; lia)) as H2.
  pose proof (usual_scale 120 dpi Hd ltac:(lia)) as Hname. pose proof (usual_scale 80 dpi Hd ltac:(lia)) as Hlocation.
  set (name := scale_dip NAME_COLUMN_MINIMUM dpi) in *. set (location := scale_dip LOCATION_COLUMN_MINIMUM dpi) in *.
  change (scale_dip 120 dpi) with name in Hname. change (scale_dip 80 dpi) with location in Hlocation.
  rewrite (i32_wrap_id (0 + name)), (i32_wrap_id (0 + name + name)), (i32_wrap_id (0 + name + name + location))
    by (unfold in_i32, I32_MIN, I32_MAX; lia).
  destruct (forallb _ [c0; c1; c2] && (0 + name + name + location <=? budget)) eqn:Hadaptive.
  - apply andb_prop in Hadaptive as [Hauto Hroom%Z.leb_le]. cbn [forallb] in Hauto.
    apply andb_prop in Hauto as [Ha0%negb_true_iff Hauto]. apply andb_prop in Hauto as [Ha1%negb_true_iff Hauto].
    apply andb_prop in Hauto as [Ha2%negb_true_iff _].
    unfold starting_width in *. rewrite Ha0, Ha1, Ha2 in *. cbn [andb].
    destruct (adaptive_fills budget dpi Hd ltac:(lia)) as (x & y & z & Heq & Hsum & _ & _ & _ & Hmin).
    fold name location in Hmin. exists x, y, z. split; [exact Heq|].
    destruct Hmin as (Hx & Hy & Hz & _); [lia|]. do 3 (split; [done|]). split; [lia|]. intros _ _. split; [done|]. lia.
  - pose proof (scale_dip_le NAME_COLUMN_MINIMUM 150 dpi ltac:(unfold NAME_COLUMN_MINIMUM; lia)
      ltac:(unfold usual_dpi in Hd; lia)) as Hp.
    pose proof (scale_dip_le LOCATION_COLUMN_MINIMUM 100 dpi ltac:(unfold LOCATION_COLUMN_MINIMUM; lia)
      ltac:(unfold usual_dpi in Hd; lia)) as Hq.
    pose proof (usual_scale 150 dpi Hd ltac:(lia)) as Hp'. pose proof (usual_scale 100 dpi Hd ltac:(lia)) as Hq'.
    fold name in Hp. fold location in Hq. cbn [nth COLUMNS].
    destruct (distribute_fills (negb (user_resized c0)) (negb (user_resized c1)) (negb (user_resized c2))
      (starting_width c0 name dpi) (starting_width c1 name dpi) (starting_width c2 location dpi)
      (scale_dip 150 dpi) (scale_dip 150 dpi) (scale_dip 100 dpi) budget)
      as (x & y & z & Heq & Hx & Hy & Hz & Hx' & Hy' & Hz' & Hnone & Hfill);
      [lia|lia|lia|unfold I32_MAX; lia|lia|..].
    1-3: intros Hauto%negb_true_iff; unfold starting_width; rewrite Hauto; lia.
    exists x, y, z. split; [exact Heq|].
    unfold starting_width in *. split; [destruct (user_resized c0); [by apply Hx'|lia]|].
    split; [destruct (user_resized c1); [by apply Hy'|lia]|]. split; [destruct (user_resized c2); [by apply Hz'|lia]|].
    split; [intros Hover; apply Hnone; lia|]. intros Hroom Hsome.
    rewrite Hfill; [split; [done|apply Hfits; lia]|done|].
    by rewrite <-!negb_andb, Hsome.
Qed.
(** The default columns, the location resized to 200, in a list of 900 pixels. *)
Lemma column_widths_fill_witness :
  exists x y z, allocate_primary_column_widths 900 112 144
    [visible_column 150; visible_column 150; mkColumn true 200 true; hidden_column 120; hidden_column 80;
     hidden_column 120; hidden_column 120] = [x; y; z] /\ x + y + z = 788 /\ z = 300.
Proof.
  destruct (column_widths_fill 900 112 144 (visible_column 150) (visible_column 150) (mkColumn true 200 true)
    [hidden_column 120; hidden_column 80; hidden_column 120; hidden_column 120])
    as (x & y & z & Heq & _ & _ & Hz & _ & Hfill).
  - unfold usual_dpi. lia.
  - unfold I32_MAX. lia.
  - unfold I32_MAX. lia.
  - unfold stored_width, MAX_WIDTH_DIP. repeat constructor; cbn; lia.
  - exists x, y, z. split; [exact Heq|]. destruct Hfill as [Hsum _]; [vm_compute; discriminate|reflexivity|].
    split; [exact Hsum|exact Hz].
Defined.

(** ** Resizing by the user *)

(** A width the user gave is kept.  The stored width shows within one DIP
    of the pixels that were dragged, and recording the width shown stores the
    same width again, so a column does not drift when it is saved and restored
    over and over. *)
Theorem resize_is_stable width dpi c :
  usual_dpi dpi -> 0 <= width <= 1000000000 ->
  let stored := record_user_resize width dpi c in
  record_user_resize (width_px stored dpi) dpi stored = stored
  /\ 96 * Z.abs (width_px stored dpi - width) <= dpi
  /\ user_resized stored = true /\ visible stored = visible c.
Proof.
  intros Hd Hw. unfold usual_dpi in Hd. cbn zeta. unfold record_user_resize, width_px. cbn [width_dip visible user_resized].
  rewrite (Z.max_l width 0) by lia. pose proof (unscale_px_eq width dpi ltac:(lia) ltac:(lia)) as Hdip.
  pose proof (Z.div_mod dpi 2 ltac:(lia)). pose proof (Z.mod_pos_bound dpi 2 ltac:(lia)).
  pose proof (Z.div_mod (width * 96 + dpi / 2) dpi ltac:(lia)). pose proof (Z.mod_pos_bound (width * 96 + dpi / 2) dpi ltac:(lia)).
  set (dip := (width * 96 + dpi / 2) / dpi) in *.
  assert (0 <= dip) by (apply Z.div_pos; lia). assert (dip <= 1000000001) by nia.
  rewrite Z.min_r in Hdip by (unfold I32_MAX; lia). rewrite Hdip.
  pose proof (scale_dip_exact dip dpi ltac:(lia) ltac:(lia) ltac:(nia)) as Hscaled.
  pose proof (scale_dip_nonneg dip dpi ltac:(lia) ltac:(lia)).
  rewrite (Z.max_l (scale_dip dip dpi) 0) by lia. rewrite unscale_scale by (try lia; nia).
  split; [done|]. split; [|done]. nia.
Qed.
Lemma resize_is_stable_witness :
  record_user_resize (width_px (record_user_resize 201 144 (visible_column 150)) 144) 144
    (record_user_resize 201 144 (visible_column 150)) = mkColumn true 134 true.
Proof.
  destruct (resize_is_stable 201 144 (visible_column 150)) as (Hstable & _); [unfold usual_dpi; lia|lia|].
  rewrite Hstable. vm_compute. reflexivity.
Defined.

(** ** A client of the minimum size *)

#[local] Strategy expand [minimum_main_client_width minimum_content_width_px baseline_rail_width rails_height
                          minimum_main_client_height_with_safety].

Lemma rail_sizes side :
  (length (ordered_command_specs (mkRailSpec side)) <= 16)%nat
  /\ changes None (ordered_command_specs (mkRailSpec side)) <= 8.
Proof. destruct side; vm_compute; split; (discriminate || lia). Qed.
Lemma required_height_Ok side m :
  metrics_ok m -> button_height m <= 10000000 -> group_gap m <= 1000000 -> rail_top_padding m + rail_bottom_padding m <= 1000000 ->
  required_command_rail_height (mkRailSpec side) m = Ok (rail_extent (ordered_command_specs (mkRailSpec side)) m)
  /\ 0 <= rail_extent (ordered_command_specs (mkRailSpec side)) m <= 200000000.
Proof.
  intros [Htop Hbottom Hbutton Hgap _] Hb Hg Hp. unfold length_ok in *.
  destruct (rail_sizes side) as [Hlength Hchanges].
  pose proof (changes_nonneg (ordered_command_specs (mkRailSpec side)) None) as Hchanges0.
  unfold required_command_rail_height, i32_of_nat. rewrite group_count_changes by apply rails_on_rail.
  unfold command_count, rail_extent. set (n := Z.of_nat (length _)) in *. set (g := changes None _) in *.
  assert (0 <= n <= 16) by (subst n; lia). clearbody n g. unfold i32_checked_add, i32_checked_mul.
  rewrite (i32_checked_id n), (i32_checked_id g) by (unfold in_i32, I32_MIN, I32_MAX; lia).
  cbn [ok_or mbind result_bind].
  rewrite (i32_checked_id (rail_top_padding m + rail_bottom_padding m)) by (unfold in_i32, I32_MIN, I32_MAX; lia).
  rewrite (i32_checked_id (button_height m * n)), (i32_checked_id (group_gap m * g))
    by (unfold in_i32, I32_MIN, I32_MAX; nia).
  cbn [ok_or mbind option_bind]. rewrite !i32_checked_id by (unfold in_i32, I32_MIN, I32_MAX; nia).
  cbn [ok_or mbind option_bind]. rewrite ?i32_checked_id by (unfold in_i32, I32_MIN, I32_MAX; nia).
  cbn [ok_or]. split; [done|nia].
Qed.

(** Fonts of a plausible size: no sum of their measurements leaves [i32]. *)
Record usual_fonts (measured : MeasuredFontMetrics) : Prop := mkUsualFonts {
  usual_button_width : button_text_width measured <= 1000000;
  usual_button_height : button_text_height measured <= 1000000;
  usual_status_height : status_text_height measured <= 1000000;
  usual_cancel_height : cancel_text_height measured <= 1000000;
  usual_instruction_width : empty_instruction_text_width measured <= 1000000;
  usual_add_width : empty_add_text_width measured <= 1000000
}.

Lemma padded_usual a value dpi : usual_dpi dpi -> a <= 1000000 -> 0 <= value <= 24 ->
  sat_add (Z.max a 0) (scale_dip value dpi) = Z.max a 0 + scale_dip value dpi
  /\ 0 <= Z.max a 0 + scale_dip value dpi <= 1002400.
Proof.
  intros Hd Ha Hv. pose proof (usual_scale value dpi Hd ltac:(lia)).
  rewrite sat_add_id by (unfold in_i32, I32_MIN, I32_MAX; lia). lia.
Qed.
Lemma rail_metrics_usual measured density dpi : usual_dpi dpi -> usual_fonts measured ->
  let m := rail_metrics measured density dpi in
  button_height m <= 10000000 /\ group_gap m <= 1000000
  /\ rail_top_padding m + rail_bottom_padding m <= 1000000
  /\ scale_dip 52 dpi <= rail_width m <= 1002400.
Proof.
  intros Hd Hf. cbn zeta. unfold rail_metrics, metrics.
  pose proof (usual_scale 2 dpi Hd ltac:(lia)). pose proof (usual_scale 4 dpi Hd ltac:(lia)).
  pose proof (usual_scale 8 dpi Hd ltac:(lia)). pose proof (usual_scale 28 dpi Hd ltac:(lia)).
  pose proof (usual_scale 32 dpi Hd ltac:(lia)). pose proof (usual_scale 52 dpi Hd ltac:(lia)).
  destruct density; cbn [rail_top_padding rail_bottom_padding button_height group_gap rail_width].
  - destruct (padded_usual (button_text_height measured) 10 dpi Hd (usual_button_height _ Hf) ltac:(lia)) as [-> ?].
    destruct (padded_usual (button_text_width measured) 12 dpi Hd (usual_button_width _ Hf) ltac:(lia)) as [-> ?]. lia.
  - destruct (padded_usual (button_text_height measured) 6 dpi Hd (usual_button_height _ Hf) ltac:(lia)) as [-> ?].
    destruct (padded_usual (button_text_width measured) 10 dpi Hd (usual_button_width _ Hf) ltac:(lia)) as [-> ?]. lia.
Qed.
Lemma widest_rail_ge measured dpi preference density :
  density ∈ candidates preference ->
  rail_width (rail_metrics measured density dpi) <= widest_rail measured dpi preference.
Proof.
  intros Hin. unfold widest_rail. destruct preference; cbn [candidates map fold_left] in Hin |- *;
    repeat (apply elem_of_cons in Hin as [->|Hin]; [lia|]); by apply not_elem_of_nil in Hin.
Qed.
Lemma widest_rail_usual measured dpi preference : usual_dpi dpi -> usual_fonts measured ->
  0 <= widest_rail measured dpi preference <= 1002400.
Proof.
  intros Hd Hf. destruct (rail_metrics_usual measured ComfortableRail dpi Hd Hf) as (_ & _ & _ & Hc).
  destruct (rail_metrics_usual measured CompactRail dpi Hd Hf) as (_ & _ & _ & Hm).
  pose proof (usual_scale 52 dpi Hd ltac:(lia)). unfold widest_rail. destruct preference; cbn [candidates map fold_left]; lia.
Qed.
Lemma status_height_usual measured dpi : usual_dpi dpi -> usual_fonts measured ->
  0 <= status_height measured dpi <= 1002400.
Proof.
  intros Hd Hf. unfold status_height. pose proof (usual_scale STATUS_HEIGHT dpi Hd ltac:(unfold STATUS_HEIGHT; lia)).
  destruct (padded_usual (status_text_height measured) 4 dpi Hd (usual_status_height _ Hf) ltac:(lia)) as [-> ?].
  destruct (padded_usual (cancel_text_height measured) 6 dpi Hd (usual_cancel_height _ Hf) ltac:(lia)) as [-> ?].
  unfold STATUS_HEIGHT in *. lia.
Qed.
Lemma empty_width_usual measured dpi : usual_dpi dpi -> usual_fonts measured ->
  240 <= empty_state_minimum_width measured dpi <= 1002400.
Proof.
  intros Hd Hf. unfold empty_state_minimum_width. pose proof (usual_scale 240 dpi Hd ltac:(lia)).
  destruct (padded_usual (empty_instruction_text_width measured) 24 dpi Hd (usual_instruction_width _ Hf) ltac:(lia)) as [-> ?].
  destruct (padded_usual (empty_add_text_width measured) 24 dpi Hd (usual_add_width _ Hf) ltac:(lia)) as [-> ?]. lia.
Qed.

(** The rails of the smallest density fit the minimum height. *)
Lemma height_room l r e s height :
  0 <= l <= 200000000 -> 0 <= r <= 200000000 -> 0 <= s <= 1002400 ->
  sat_add (Z.max (Z.max l r) e) s <= height -> l + s <= height /\ r + s <= height.
Proof. unfold sat_add, clamp_i32, I32_MIN, I32_MAX. lia. Qed.
Lemma rails_height_Ok measured dpi density : usual_dpi dpi -> usual_fonts measured ->
  exists l r, required_command_rail_height LEFT_RAIL (rail_metrics measured density dpi) = Ok l
    /\ required_command_rail_height RIGHT_RAIL (rail_metrics measured density dpi) = Ok r
    /\ rails_height measured dpi (Some density) = Z.max l r /\ 0 <= l <= 200000000 /\ 0 <= r <= 200000000.
Proof.
  intros Hd Hf. assert (0 <= dpi) as Hd0 by (unfold usual_dpi in Hd; lia).
  destruct (rail_metrics_usual measured density dpi Hd Hf) as (Hb & Hg & Hp & _).
  pose proof (rail_metrics_lengths measured density dpi Hd0) as Hm.
  destruct (required_height_Ok Left _ Hm Hb Hg Hp) as [Hl Hl']. destruct (required_height_Ok Right _ Hm Hb Hg Hp) as [Hr Hr'].
  eexists _, _. split; [exact Hl|]. split; [exact Hr|]. split; [|split; [exact Hl'|exact Hr']].
  unfold rails_height, LEFT_RAIL, RIGHT_RAIL. by rewrite Hl, Hr.
Qed.
Lemma minimum_height_rails measured dpi preference show density client_height :
  usual_dpi dpi -> usual_fonts measured -> minimum_density preference = Some density ->
  minimum_main_client_height_with_safety dpi measured preference show <= client_height ->
  exists l r, required_command_rail_height LEFT_RAIL (rail_metrics measured density dpi) = Ok l
    /\ required_command_rail_height RIGHT_RAIL (rail_metrics measured density dpi) = Ok r
    /\ l + status_height measured dpi <= client_height /\ r + status_height measured dpi <= client_height.
Proof.
  intros Hd Hf Hdensity Hmin. destruct (rails_height_Ok measured dpi density Hd Hf) as (l & r & Hl & Hr & Hheight & Hl' & Hr').
  exists l, r. split; [exact Hl|]. split; [exact Hr|].
  unfold minimum_main_client_height_with_safety in Hmin. rewrite Hdensity, Hheight in Hmin.
  by apply (height_room l r _ _ _ Hl' Hr' (status_height_usual measured dpi Hd Hf)) in Hmin.
Qed.
(** The two bounds of the minimum width, without saturation. *)
Lemma width_room s52 name location gutter status base w e client :
  0 <= s52 <= 5200 -> 0 <= name <= 12000 -> 0 <= location <= 8000 -> 0 <= gutter <= 100 -> status <= 1000000 ->
  0 <= base <= s52 -> base <= w <= 1002400 -> 0 <= e <= 1002400 ->
  Z.max
    (sat_add (sat_add
       (sat_add (sat_add (sat_add (sat_add (sat_mul s52 2) (sat_mul name 2)) location) (Z.max gutter 1)) (Z.max status 0))
       (sat_mul (sat_sub w base) 2)) (sat_mul (if 0 <? w then 1 else 0) 2))
    (sat_add (sat_add (sat_mul w 2) e) (sat_mul (if 0 <? w then 1 else 0) 2)) <= client ->
  let rest := if 0 <? w then client - 2 * w - 2 else client in
  e <= rest /\ 2 * name + location + Z.max gutter 1 + Z.max status 0 <= rest.
Proof.
  intros H52 Hname Hlocation Hgutter Hstatus Hbase Hw He.
  assert (sat_mul (if 0 <? w then 1 else 0) 2 = if 0 <? w then 2 else 0) as -> by (by destruct (0 <? w)).
  set (divider := if 0 <? w then 2 else 0). assert (0 <= divider <= 2) as Hdivider by (subst divider; destruct (0 <? w); lia).
  rewrite (sat_mul_id s52), (sat_mul_id name), (sat_mul_id w), (sat_sub_id w) by (unfold in_i32, I32_MIN, I32_MAX; lia).
  rewrite (sat_mul_id (w - base)) by (unfold in_i32, I32_MIN, I32_MAX; lia).
  assert (exists g, g = Z.max gutter 1 /\ 1 <= g <= 100) as (g & <- & Hg) by (eexists; split; [done|lia]).
  assert (exists t, t = Z.max status 0 /\ 0 <= t <= 1000000) as (t & <- & Ht) by (eexists; split; [done|lia]).
  rewrite (sat_add_id (s52 * 2)), (sat_add_id (s52 * 2 + name * 2)), (sat_add_id (s52 * 2 + name * 2 + location)),
    (sat_add_id (s52 * 2 + name * 2 + location + g)), (sat_add_id (s52 * 2 + name * 2 + location + g + t)),
    (sat_add_id (s52 * 2 + name * 2 + location + g + t + (w - base) * 2)), (sat_add_id (w * 2)),
    (sat_add_id (w * 2 + e)) by (unfold in_i32, I32_MIN, I32_MAX; lia).
  intros Hmin. subst divider. cbn zeta. destruct (Z.ltb_spec 0 w); lia.
Qed.
Lemma baseline_rail_le measured dpi preference : usual_dpi dpi -> usual_fonts measured ->
  0 <= baseline_rail_width dpi preference <= scale_dip 52 dpi
  /\ baseline_rail_width dpi preference <= widest_rail measured dpi preference.
Proof.
  intros Hd Hf. destruct (rail_metrics_usual measured CompactRail dpi Hd Hf) as (_ & _ & _ & Hm).
  destruct (rail_metrics_usual measured ComfortableRail dpi Hd Hf) as (_ & _ & _ & Hc).
  pose proof (usual_scale 52 dpi Hd ltac:(lia)). unfold baseline_rail_width, metrics, widest_rail.
  destruct preference; cbn [minimum_density rail_width candidates map fold_left]; lia.
Qed.
(** What the minimum width leaves for the list. *)
Lemma minimum_width_list measured dpi preference status_width client_width :
  usual_dpi dpi -> usual_fonts measured -> status_width <= 1000000 ->
  minimum_main_client_width dpi measured preference status_width <= client_width ->
  let w := widest_rail measured dpi preference in
  let rest := if 0 <? w then client_width - 2 * w - 2 else client_width in
  empty_state_minimum_width measured dpi <= rest
  /\ 2 * scale_dip NAME_COLUMN_MINIMUM dpi + scale_dip LOCATION_COLUMN_MINIMUM dpi
     + Z.max (scale_dip LIST_COLUMN_FIT_GUTTER_DIP dpi) 1 + Z.max status_width 0 <= rest.
Proof.
  intros Hd Hf Hs Hmin.
  destruct (baseline_rail_le measured dpi preference Hd Hf) as [Hbase Hwidest].
  pose proof (widest_rail_usual measured dpi preference Hd Hf) as Hw.
  pose proof (empty_width_usual measured dpi Hd Hf) as He. pose proof (usual_scale 52 dpi Hd ltac:(lia)) as H52.
  pose proof (usual_scale 120 dpi Hd ltac:(lia)) as H120. pose proof (usual_scale 80 dpi Hd ltac:(lia)) as H80.
  pose proof (usual_scale 1 dpi Hd ltac:(lia)) as H1.
  refine (width_room (scale_dip 52 dpi) (scale_dip 120 dpi) (scale_dip 80 dpi) (scale_dip 1 dpi) status_width
    (baseline_rail_width dpi preference) _ _ client_width _ _ _ _ Hs _ _ _ Hmin); clear Hmin; lia.
Qed.

(** The rails the main layout selects, and the list beside them. *)
Lemma main_layout_selected client_width client_height dpi measured preference show status :
  0 <= client_width -> 0 <= client_height <= I32_MAX -> 0 <= dpi ->
  let height := client_height - Z.min (status_height measured dpi) client_height in
  let selected := find_map (try_density measured dpi client_width height) (candidates preference) in
  let layout := calculate_main_layout_with_safety client_width client_height dpi measured preference show status in
  rail_mode layout = match selected with Some (density, _, _, _) => mode_of density | None => MenuOnlyMode end
  /\ list_area layout
     = (workspace_layout client_width height (match selected with Some (_, rw, _, _) => rw | None => 0 end)).2.
Proof.
  intros Hw Hh Hd. cbn zeta. unfold calculate_main_layout_with_safety.
  rewrite (Z.max_l client_width 0), (Z.max_l client_height 0) by lia.
  pose proof (status_height_nonneg measured dpi Hd). rewrite (sat_sub_nonneg client_height) by lia.
  destruct (find_map _ _) as [[[[density rw] l] r]|].
  all: destruct (workspace_layout client_width _ _) as [chrome list]; by split.
Qed.
Lemma selected_at_minimum measured dpi preference show client_width client_height status_width :
  usual_dpi dpi -> usual_fonts measured -> status_width <= 1000000 ->
  minimum_main_client_width dpi measured preference status_width <= client_width <= I32_MAX ->
  minimum_main_client_height_with_safety dpi measured preference show <= client_height ->
  let height := client_height - Z.min (status_height measured dpi) client_height in
  match find_map (try_density measured dpi client_width height) (candidates preference) with
  | Some (density, rw, _, _) => preference ≠ MenuOnly /\ 0 < rw <= widest_rail measured dpi preference
  | None => preference = MenuOnly
  end.
Proof.
  intros Hd Hf Hs [Hw Hmax] Hh. cbn zeta. assert (0 <= dpi) as Hd0 by (unfold usual_dpi in Hd; lia).
  destruct (minimum_width_list measured dpi preference status_width client_width Hd Hf Hs Hw) as [Hempty _].
  pose proof (empty_width_usual measured dpi Hd Hf) as He.
  pose proof (widest_rail_usual measured dpi preference Hd Hf) as Hwidest.
  assert (0 <= client_width) as Hw0 by (destruct (0 <? widest_rail measured dpi preference); lia).
  destruct (find_map _ _) as [[[[density rw] l] r]|] eqn:Hfind.
  - apply find_map_Some in Hfind as (d & Hin & Htry).
    apply try_density_Some in Htry as (-> & -> & _ & _ & _); [|done|done].
    pose proof (widest_rail_ge measured dpi preference d Hin).
    destruct (rail_metrics_usual measured d dpi Hd Hf) as (_ & _ & _ & Hrail).
    pose proof (usual_scale 52 dpi Hd ltac:(lia)). split; [|lia]. intros ->. by apply not_elem_of_nil in Hin.
  - destruct (minimum_density preference) as [density|] eqn:Hdensity; [|by destruct preference].
    assert (density ∈ candidates preference) as Hin.
    { destruct preference; try discriminate Hdensity; injection Hdensity as <-; repeat (apply list_elem_of_here || apply list_elem_of_further). }
    exfalso. destruct (minimum_height_rails measured dpi preference show density client_height Hd Hf Hdensity Hh)
      as (left_ & right_ & Hleft & Hright & Hl & Hr).
    destruct (rail_metrics_usual measured density dpi Hd Hf) as (_ & _ & _ & Hrail).
    pose proof (widest_rail_ge measured dpi preference density Hin) as Hge.
    pose proof (rail_metrics_lengths measured density dpi Hd0) as Hm.
    pose proof (status_height_usual measured dpi Hd Hf) as Hstatus.
    pose proof (usual_scale 52 dpi Hd ltac:(lia)) as H52.
    set (height := client_height - Z.min (status_height measured dpi) client_height) in *.
    destruct (rail_layout_placed LEFT_RAIL _ height left_ Hm (rails_on_rail Left) Hleft) as (lb & Hlb & _); [subst height; lia|].
    destruct (rail_layout_placed RIGHT_RAIL _ height right_ Hm (rails_on_rail Right) Hright) as (rb & Hrb & _); [subst height; lia|].
    assert (is_Some (try_density measured dpi client_width height density)) as [found Hfound].
    { unfold try_density. rewrite Hlb, Hrb. destruct (Z.ltb_spec 0 (widest_rail measured dpi preference)); [|lia].
      rewrite sat_mul_id by (unfold in_i32, I32_MIN, I32_MAX; lia).
      rewrite sat_add_id by (unfold in_i32, I32_MIN, I32_MAX; lia).
      destruct (Z.leb_spec client_width (rail_width (rail_metrics measured density dpi) * 2 + 2)); [lia|by eexists]. }
    destruct (find_map_first _ _ _ _ Hin Hfound) as [x Hx]. by rewrite Hfind in Hx.
Qed.
(** With the default columns the primary ones divide what the status column and
    the gutter leave. *)
Lemma default_allocation room status_width dpi :
  0 <= room <= I32_MAX -> status_width <= 1000000 ->
  0 <= scale_dip NAME_COLUMN_MINIMUM dpi <= 12000 -> 0 <= scale_dip LOCATION_COLUMN_MINIMUM dpi <= 8000 ->
  0 <= scale_dip LIST_COLUMN_FIT_GUTTER_DIP dpi <= 100 ->
  2 * scale_dip NAME_COLUMN_MINIMUM dpi + scale_dip LOCATION_COLUMN_MINIMUM dpi
    + Z.max (scale_dip LIST_COLUMN_FIT_GUTTER_DIP dpi) 1 + Z.max status_width 0 <= room ->
  allocate_primary_column_widths room status_width dpi default_column_states
  = adaptive_primary_column_widths (room - Z.max status_width 0 - Z.max (scale_dip LIST_COLUMN_FIT_GUTTER_DIP dpi) 1) dpi.
Proof.
  intros Hroom Hs Hname Hlocation Hgutter Hfits. unfold allocate_primary_column_widths, default_column_states, primary_budget.
  cbn [visible_column hidden_column user_resized visible forallb negb andb optional_columns_width List.filter map fold_left].
  rewrite (Z.max_l room 0) by lia. rewrite (sat_sub_nonneg room) by lia. rewrite (sat_sub_nonneg _ 0) by lia.
  rewrite Z.sub_0_r. rewrite sat_sub_nonneg by lia.
  set (name := scale_dip NAME_COLUMN_MINIMUM dpi) in *. set (location := scale_dip LOCATION_COLUMN_MINIMUM dpi) in *.
  rewrite (i32_wrap_id (0 + name)), (i32_wrap_id (0 + name + name)), (i32_wrap_id (0 + name + name + location))
    by (unfold in_i32, I32_MIN, I32_MAX; lia).
  destruct (Z.leb_spec (0 + name + name + location)
    (room - Z.max status_width 0 - Z.max (scale_dip LIST_COLUMN_FIT_GUTTER_DIP dpi) 1)); [done|lia].
Qed.

(** The minimum client size is enough.  At or above it the rails are shown,
    unless the user asked for the menu only; the list is wide enough for the
    texts of the empty state; and the three primary columns, all automatic,
    have at least their minimum widths and fit the list together with the
    status column, so nothing is scrolled horizontally. *)
Theorem minimum_client_has_room dpi measured preference show status client_width client_height status_width :
  usual_dpi dpi -> usual_fonts measured -> status_width <= 1000000 ->
  minimum_main_client_width dpi measured preference status_width <= client_width <= I32_MAX ->
  minimum_main_client_height_with_safety dpi measured preference show <= client_height <= I32_MAX ->
  0 <= client_height ->
  let layout := calculate_main_layout_with_safety client_width client_height dpi measured preference show status in
  let room := rect_width (list_area layout) in
  (rail_mode layout = MenuOnlyMode <-> preference = MenuOnly)
  /\ empty_state_minimum_width measured dpi <= room
  /\ exists x y z,
       allocate_primary_column_widths room status_width dpi default_column_states = [x; y; z]
       /\ scale_dip NAME_COLUMN_MINIMUM dpi <= x /\ scale_dip NAME_COLUMN_MINIMUM dpi <= y
       /\ scale_dip LOCATION_COLUMN_MINIMUM dpi <= z
       /\ x + y + z + Z.max status_width 0 <= room.
Proof.
  intros Hd Hf Hs Hw Hh Hh0. cbn zeta. assert (0 <= dpi) as Hd0 by (unfold usual_dpi in Hd; lia).
  destruct (minimum_width_list measured dpi preference status_width client_width Hd Hf Hs (proj1 Hw)) as [Hempty Hcolumns].
  pose proof (empty_width_usual measured dpi Hd Hf) as He.
  pose proof (widest_rail_usual measured dpi preference Hd Hf) as Hwidest.
  assert (0 <= client_width) as Hw0 by (destruct (0 <? widest_rail measured dpi preference); lia).
  destruct (main_layout_selected client_width client_height dpi measured preference show status Hw0
    ltac:(lia) Hd0) as [Hmode Hlist].
  pose proof (selected_at_minimum measured dpi preference show client_width client_height status_width Hd Hf Hs Hw
    (proj1 Hh)) as Hselected.
  pose proof (status_height_usual measured dpi Hd Hf) as Hstatus.
  cbn zeta in Hselected. rewrite Hmode, Hlist. clear Hmode Hlist.
  set (height := client_height - Z.min (status_height measured dpi) client_height) in *. clearbody height.
  assert (exists room, rect_width (workspace_layout client_width height
      match find_map (try_density measured dpi client_width height) (candidates preference) with
      | Some (_, rw, _, _) => rw | None => 0 end).2 = room
    /\ room <= client_width
    /\ (if 0 <? widest_rail measured dpi preference then client_width - 2 * widest_rail measured dpi preference - 2
        else client_width) <= room) as (room & -> & Hroom & Hge).
  { revert Hselected. destruct (find_map _ _) as [[[[density rw] l] r]|]; intros Hselected.
    - destruct Hselected as [_ Hrw]. unfold workspace_layout.
      destruct (Z.ltb_spec 0 rw); [|lia]. destruct (Z.ltb_spec 0 (widest_rail measured dpi preference)); [|lia].
      cbn [snd rect_width]. rewrite (sat_mul_id rw) by (unfold in_i32, I32_MIN, I32_MAX; lia).
      rewrite (sat_sub_nonneg client_width) by lia. rewrite sat_sub_nonneg by lia. eexists. split; [done|]. lia.
    - exists client_width. split; [done|]. split; [done|]. destruct (0 <? _); lia. }
  split; [|split; [lia|]].
  { revert Hselected. destruct (find_map _ _) as [[[[density rw] l] r]|]; [|done]. intros [Hne _]. split; [by destruct density|by intros ->]. }
  pose proof (adaptive_fills (room - Z.max status_width 0 - Z.max (scale_dip LIST_COLUMN_FIT_GUTTER_DIP dpi) 1) dpi Hd) as Hfill.
  pose proof (usual_scale 120 dpi Hd ltac:(lia)) as H120. pose proof (usual_scale 80 dpi Hd ltac:(lia)) as H80.
  pose proof (usual_scale 1 dpi Hd ltac:(lia)) as H1.
  unfold NAME_COLUMN_MINIMUM, LOCATION_COLUMN_MINIMUM, LIST_COLUMN_FIT_GUTTER_DIP in *.
  destruct Hfill as (x & y & z & Heq & Hsum & _ & _ & _ & Hmin); [lia|]. exists x, y, z.
  split; [|destruct Hmin as (? & ? & ? & _); lia].
  rewrite <-Heq. apply default_allocation; unfold NAME_COLUMN_MINIMUM, LOCATION_COLUMN_MINIMUM, LIST_COLUMN_FIT_GUTTER_DIP; lia.
Qed.
(** Exactly the minimum size at 120 dpi. *)
Definition example_fonts : MeasuredFontMetrics :=
  mkMeasured 24 60 40 20 80 50 20 200 20 400 20 90 20 0 0 0 120 20.
Definition example_width : Z := minimum_main_client_width 120 example_fonts Automatic 140.
Definition example_height : Z := minimum_main_client_height_with_safety 120 example_fonts Automatic true.
Lemma minimum_client_has_room_witness :
  rail_mode (calculate_main_layout_with_safety example_width example_height 120 example_fonts Automatic true
               (mkStatusInput true 100)) ≠ MenuOnlyMode.
Proof.
  destruct (minimum_client_has_room 120 example_fonts Automatic true (mkStatusInput true 100) example_width
    example_height 140) as (Hmode & _).
  - unfold usual_dpi. lia.
  - split; cbn; lia.
  - lia.
  - split; [apply Z.le_refl|vm_compute; discriminate].
  - split; [apply Z.le_refl|vm_compute; discriminate].
  - vm_compute; discriminate.
  - intros Hmenu. apply Hmode in Hmenu. discriminate Hmenu.
Defined.
