(* ===== verification/PromptLayout.v ===== *)
(** * PromptLayout: the layout of a prompt

    [calculate_prompt_layout] of [crates/darknamer-app/src/ui_layout.rs]: title,
    fields, choice, separator and buttons of an input prompt, within the largest
    client the monitor allows, and the division of a height that is too small
    for the sections. *)

From S2P Require Import Prelude Layout.

Record PromptFontMetrics : Type := mkPromptFonts {
  title_width : Z; title_height : Z; label_width : Z; label_height : Z; line_height : Z
}.
Record PromptFields : Type := mkFields { value_one : bool; value_two : bool; choice_field : bool }.
Record PromptLayout : Type := mkPrompt {
  client : LayoutRect;
  title : LayoutRect;
  edit_one : option LayoutRect;
  label_one : option LayoutRect;
  edit_two : option LayoutRect;
  label_two : option LayoutRect;
  choice : option LayoutRect;
  separator : LayoutRect;
  ok : LayoutRect;
  prompt_cancel : LayoutRect
}.

(** ** Heights of the sections *)

(** The first pass gives every section one pixel while any remain. *)
Fixpoint one_each (desired : list Z) (remaining : Z) : list Z * Z :=
  match desired with
  | [] => ([], remaining)
  | _ :: desired =>
      if remaining =? 0 then (0 :: (one_each desired 0).1, 0)
      else let (heights, remaining) := one_each desired (remaining - 1) in (1 :: heights, remaining)
  end.
(** One pass over the sections: a pixel for each that wants more. *)
Fixpoint grow (heights desired : list Z) (remaining : Z) : list Z * Z * bool :=
  match heights, desired with
  | height :: heights, target :: desired =>
      if remaining =? 0 then (height :: heights, 0, false)
      else if height <? target then
        let '(heights, remaining, _) := grow heights desired (remaining - 1) in (height + 1 :: heights, remaining, true)
      else
        let '(heights, remaining, progressed) := grow heights desired remaining in
        (height :: heights, remaining, progressed)
  | _, _ => (heights, remaining, false)
  end.
(** [while remaining > 0]; every pass that goes on spends a pixel. *)
Fixpoint grow_all (fuel : nat) (heights desired : list Z) (remaining : Z) : list Z :=
  match fuel with
  | O => heights
  | S fuel =>
      if 0 <? remaining then
        let '(heights, remaining, progressed) := grow heights desired remaining in
        if progressed : bool then grow_all fuel heights desired remaining else heights
      else heights
  end.
Definition fit_prompt_section_heights (desired : list Z) (available : Z) : list Z :=
  let available := Z.max available 0 in
  let desired_total := fold_left sat_add desired 0 in
  if desired_total <=? available then desired
  else
    let (heights, remaining) := one_each desired available in
    grow_all (Z.to_nat available) heights desired remaining.

(** ** The prompt *)

(** [next_height]: the next of the fitted heights. *)
Definition next_height (heights : list Z) : Z * list Z := (default 0 (head heights), tl heights).

(** One labelled field at [y], if present. *)
Definition place_field (present : bool) (padding label_width gap edit_width vertical_gap y : Z) (heights : list Z)
  : option (LayoutRect * LayoutRect) * Z * list Z :=
  if present then
    let (height, heights) := next_height heights in
    let label := mkRect padding y label_width height in
    let edit := mkRect (sat_add (sat_add padding label_width) gap) y edit_width height in
    (Some (edit, label), sat_add (sat_add y height) vertical_gap, heights)
  else (None, y, heights).

(** The horizontal division: client, padding, content, gap, label and edit. *)
Record PromptColumns : Type := mkPromptColumns {
  client_width : Z; horizontal_padding : Z; content_width : Z; horizontal_gap : Z;
  label_column : Z; edit_column : Z
}.
Definition prompt_columns (dpi : Z) (measured : PromptFontMetrics) (maximum_client : LayoutRect) : PromptColumns :=
  let maximum_width := Z.max (rect_width maximum_client) 1 in
  let desired_padding := scale_dip 12 dpi in
  let desired_gap := scale_dip 8 dpi in
  let minimum_content_width := scale_dip 356 dpi in
  let desired_label_width :=
    Z.max (sat_add (Z.max (label_width measured) 0) (scale_dip 8 dpi)) (scale_dip 70 dpi) in
  let desired_edit_width := scale_dip 275 dpi in
  let desired_field_width := sat_add (sat_add desired_edit_width desired_gap) desired_label_width in
  let desired_content_width :=
    Z.max (Z.max minimum_content_width (Z.max (title_width measured) 0)) desired_field_width in
  let client_width :=
    Z.max (Z.min (sat_add desired_content_width (sat_mul desired_padding 2)) maximum_width) 1 in
  let horizontal_padding := Z.min desired_padding (Z.quot (sat_sub client_width 1) 2) in
  let content_width := Z.max (sat_sub client_width (sat_mul horizontal_padding 2)) 1 in
  let horizontal_gap := Z.min desired_gap (Z.quot (sat_sub content_width 2) 4) in
  let field_space := sat_sub content_width horizontal_gap in
  let label_width := Z.min (Z.min desired_label_width (Z.max (Z.quot field_space 3) 1)) field_space in
  let edit_width := sat_sub field_space label_width in
  mkPromptColumns client_width horizontal_padding content_width horizontal_gap label_width edit_width.

(** The sections in use, from the six slots, with the heights they wish. *)
Definition desired_heights (dpi : Z) (measured : PromptFontMetrics) (fields : PromptFields) : list Z :=
  let line_height := Z.max (line_height measured) (scale_dip 16 dpi) in
  let desired_title_height := Z.max (title_height measured) line_height in
  let desired_field_height := Z.max (sat_add line_height (scale_dip 8 dpi)) (Z.max (label_height measured) 0) in
  let desired_button_height := sat_add line_height (scale_dip 14 dpi) in
  let desired_separator_height := Z.max (scale_dip 2 dpi) 1 in
  omap Datatypes.id
    [Some desired_title_height;
     if value_one fields then Some desired_field_height else None;
     if value_two fields then Some desired_field_height else None;
     if choice_field fields then Some desired_field_height else None;
     Some desired_separator_height; Some desired_button_height].

(** The vertical division: client, padding, gap and the fitted heights. *)
Record PromptRows : Type := mkPromptRows {
  client_height : Z; vertical_padding : Z; vertical_gap : Z; heights : list Z
}.
Definition prompt_rows (dpi : Z) (desired : list Z) (maximum_client : LayoutRect) : PromptRows :=
  let maximum_height := Z.max (rect_height maximum_client) 1 in
  let desired_padding := scale_dip 12 dpi in
  let desired_gap := scale_dip 8 dpi in
  let section_count := length desired in
  let gap_count := (section_count - 1)%nat in
  let gap_count_i32 := default I32_MAX (i32_of_nat gap_count) in
  let desired_sections_height := fold_left sat_add desired 0 in
  let desired_client_height :=
    sat_add (sat_add desired_sections_height (sat_mul desired_gap gap_count_i32)) (sat_mul desired_padding 2) in
  let client_height := Z.max (Z.min desired_client_height maximum_height) 1 in
  let minimum_sections_height := default I32_MAX (i32_of_nat section_count) in
  let vertical_padding :=
    Z.min desired_padding (Z.quot (Z.max (sat_sub client_height minimum_sections_height) 0) 2) in
  let available_after_padding := Z.max (sat_sub client_height (sat_mul vertical_padding 2)) 0 in
  let vertical_gap :=
    if (gap_count =? 0)%nat then 0
    else Z.min desired_gap
           (Z.quot (Z.max (sat_sub available_after_padding minimum_sections_height) 0) gap_count_i32) in
  let available_for_sections := sat_sub available_after_padding (sat_mul vertical_gap gap_count_i32) in
  mkPromptRows client_height vertical_padding vertical_gap (fit_prompt_section_heights desired available_for_sections).

(** The controls on the divided client. *)
Definition place_prompt (dpi : Z) (fields : PromptFields) (c : PromptColumns) (r : PromptRows) : PromptLayout :=
  let (title_height, heights) := next_height (heights r) in
  let title := mkRect (horizontal_padding c) (vertical_padding r) (content_width c) title_height in
  let y := sat_add (rect_bottom title) (vertical_gap r) in
  let '(one, y, heights) :=
    place_field (value_one fields) (horizontal_padding c) (label_column c) (horizontal_gap c) (edit_column c)
      (vertical_gap r) y heights in
  let '(two, y, heights) :=
    place_field (value_two fields) (horizontal_padding c) (label_column c) (horizontal_gap c) (edit_column c)
      (vertical_gap r) y heights in
  let '(choice, y, heights) :=
    if choice_field fields then
      let (height, heights) := next_height heights in
      (Some (mkRect (horizontal_padding c) y (Z.min (scale_dip 185 dpi) (content_width c)) height),
       sat_add (sat_add y height) (vertical_gap r), heights)
    else (None, y, heights) in
  let (separator_height, heights) := next_height heights in
  let separator := mkRect 0 y (client_width c) separator_height in
  let button_y := sat_add (rect_bottom separator) (vertical_gap r) in
  let (button_height, heights) := next_height heights in
  let button_gap := Z.min (horizontal_gap c) (Z.quot (sat_sub (content_width c) 2) 3) in
  let available_for_buttons := sat_sub (content_width c) button_gap in
  let button_width := Z.min (scale_dip 75 dpi) (Z.quot available_for_buttons 2) in
  let cancel := mkRect (sat_sub (sat_sub (client_width c) (horizontal_padding c)) button_width) button_y button_width
    button_height in
  let ok := mkRect (sat_sub (sat_sub (rect_x cancel) button_gap) button_width) button_y button_width button_height in
  mkPrompt (mkRect 0 0 (client_width c) (client_height r)) title (fst <$> one) (snd <$> one) (fst <$> two) (snd <$> two)
    choice separator ok cancel.

Definition calculate_prompt_layout (dpi : Z) (measured : PromptFontMetrics) (fields : PromptFields)
    (maximum_client : LayoutRect) : PromptLayout :=
  place_prompt dpi fields (prompt_columns dpi measured maximum_client)
    (prompt_rows dpi (desired_heights dpi measured fields) maximum_client).

(** ** The heights fit *)

Definition sum_heights (heights : list Z) : Z := fold_right Z.add 0 heights.

Lemma one_each_spec desired : forall remaining heights rest,
  0 <= remaining -> one_each desired remaining = (heights, rest) ->
  length heights = length desired /\ Forall (fun h => 0 <= h <= 1) heights
  /\ 0 <= rest /\ sum_heights heights + rest = remaining
  /\ (Z.of_nat (length desired) <= remaining -> Forall (fun h => h = 1) heights).
Proof.
  induction desired as [|d desired IH]; intros remaining heights rest Hremaining; cbn [one_each].
  { intros [= <- <-]. repeat split; cbn; try constructor; lia. }
  destruct (Z.eqb_spec remaining 0) as [->|Hne].
  - destruct (one_each desired 0) as [hs r] eqn:Hone. intros [= <- <-].
    destruct (IH 0 hs r ltac:(lia) Hone) as (Hlength & Hrange & Hr & Hsum & _). cbn [length fst sum_heights fold_right].
    assert (0 <= sum_heights hs) as Hnonneg.
    { clear -Hrange. induction Hrange; cbn; [lia|]. unfold sum_heights in *. cbn. lia. }
    unfold sum_heights in *. repeat split; [lia|constructor; [lia|done]|lia|lia|lia].
  - destruct (one_each desired (remaining - 1)) as [hs r] eqn:Hone. intros [= <- <-].
    destruct (IH (remaining - 1) hs r ltac:(lia) Hone) as (Hlength & Hrange & Hr & Hsum & Hall).
    unfold sum_heights in *. cbn [length fold_right].
    repeat split; [lia|constructor; [lia|done]|lia|lia|]. intros Hcount. constructor; [done|]. apply Hall. lia.
Qed.
Lemma grow_spec heights : forall desired remaining heights' rest progressed,
  length heights = length desired -> 0 <= remaining -> grow heights desired remaining = (heights', rest, progressed) ->
  length heights' = length desired /\ Forall2 Z.le heights heights' /\ 0 <= rest
  /\ sum_heights heights' + rest = sum_heights heights + remaining
  /\ (Forall2 Z.le heights desired -> Forall2 Z.le heights' desired)
  /\ (forall P : Z -> Z -> Prop, (forall h d, h < d -> P h d -> P (h + 1) d) -> Forall2 P heights desired -> Forall2 P heights' desired)
  /\ (if progressed : bool then rest < remaining
      else heights' = heights /\ rest = remaining /\ (0 < remaining -> Forall2 Z.le desired heights)).
Proof.
  induction heights as [|h heights IH]; intros [|d desired] remaining heights' rest progressed Hlength Hremaining;
    try done; cbn [grow].
  { intros [= <- <- <-]. repeat split; try constructor; lia. }
  injection Hlength as Hlength. destruct (Z.eqb_spec remaining 0) as [->|Hne].
  { intros [= <- <- <-]. repeat split; cbn; try done; try lia. all: reflexivity. }
  destruct (Z.ltb_spec h d).
  - destruct (grow heights desired (remaining - 1)) as [[hs r] p] eqn:Hgrow. intros [= <- <- <-].
    destruct (IH desired (remaining - 1) hs r p Hlength ltac:(lia) Hgrow) as (Hl & Hle & Hr & Hsum & Hd & Hp & Hprog).
    unfold sum_heights in *. cbn [length fold_right]. split; [lia|]. split; [constructor; [lia|done]|].
    split; [done|]. split; [lia|]. split; [intros [_ ?]%Forall2_cons; constructor; [lia|by apply Hd]|].
    split; [|destruct p; lia]. intros P Hstep [Hh Htail]%Forall2_cons. constructor; [by apply Hstep|by apply Hp].
  - destruct (grow heights desired remaining) as [[hs r] p] eqn:Hgrow. intros [= <- <- <-].
    destruct (IH desired remaining hs r p Hlength Hremaining Hgrow) as (Hl & Hle & Hr & Hsum & Hd & Hp & Hprog).
    unfold sum_heights in *. cbn [length fold_right]. split; [lia|]. split; [constructor; [lia|done]|].
    split; [done|]. split; [lia|]. split; [intros [? ?]%Forall2_cons; constructor; [lia|by apply Hd]|].
    split; [intros P Hstep [Hh Htail]%Forall2_cons; constructor; [done|by apply Hp]|].
    destruct p; [done|]. destruct Hprog as (-> & -> & Hall). split; [done|]. split; [done|].
    intros Hpos. constructor; [done|by apply Hall].
Qed.

Lemma grow_all_spec fuel : forall heights desired remaining,
  length heights = length desired -> 0 <= remaining -> (Z.to_nat remaining <= fuel)%nat ->
  let final := grow_all fuel heights desired remaining in
  length final = length desired /\ Forall2 Z.le heights final
  /\ sum_heights heights <= sum_heights final <= sum_heights heights + remaining
  /\ (Forall2 Z.le heights desired -> Forall2 Z.le final desired)
  /\ (sum_heights final = sum_heights heights + remaining \/ Forall2 Z.le desired final).
Proof.
  induction fuel as [|fuel IH]; intros heights desired remaining Hlength Hremaining Hfuel; cbn [grow_all].
  { assert (remaining = 0) as -> by lia. split; [done|]. split; [reflexivity|]. split; [lia|]. split; [done|]. left. lia. }
  destruct (Z.ltb_spec 0 remaining).
  - destruct (grow heights desired remaining) as [[hs r] p] eqn:Hgrow.
    destruct (grow_spec heights desired remaining hs r p Hlength Hremaining Hgrow) as (Hl & Hle & Hr & Hsum & Hd & _ & Hprog).
    destruct p.
    + destruct (IH hs desired r Hl Hr ltac:(lia)) as (Hl' & Hle' & Hsum' & Hd' & Hfull).
      split; [done|]. split; [by etrans|]. split; [lia|]. split; [auto|]. destruct Hfull; [left; lia|by right].
    + destruct Hprog as (-> & -> & Hall). split; [done|]. split; [reflexivity|]. split; [lia|]. split; [done|].
      right. by apply Hall.
  - split; [done|]. split; [reflexivity|]. split; [lia|]. split; [done|]. left. lia.
Qed.

Lemma sat_sum_spec heights : forall start, Forall (fun h => 0 <= h) heights -> 0 <= start <= I32_MAX ->
  fold_left sat_add heights start = Z.min I32_MAX (start + sum_heights heights).
Proof.
  induction heights as [|h heights IH]; intros start Hheights Hstart; cbn [fold_left sum_heights fold_right]; [lia|].
  apply Forall_cons in Hheights as [Hh Hheights]. pose proof (sat_add_spec start h ltac:(lia) Hh).
  rewrite IH; [|done|lia]. fold (sum_heights heights).
  assert (0 <= sum_heights heights) by (clear -Hheights; induction Hheights; cbn; unfold sum_heights in *; lia).
  unfold sat_add, clamp_i32, I32_MIN, I32_MAX. lia.
Qed.
Lemma sum_heights_le a b : Forall2 Z.le a b -> sum_heights a <= sum_heights b.
Proof. induction 1; cbn; unfold sum_heights in *; lia. Qed.

(** A height that is too small is divided fairly.  When the wishes of the
    sections fit the height they are granted; otherwise the loop stops with
    the whole height spent, no section above its wish, and none without a
    pixel as long as there is one for each. *)
Lemma fit_heights desired available :
  Forall (fun d => 1 <= d) desired -> available < I32_MAX ->
  let heights := fit_prompt_section_heights desired available in
  length heights = length desired
  /\ (sum_heights desired <= Z.max available 0 -> heights = desired)
  /\ (Z.max available 0 < sum_heights desired ->
      sum_heights heights = Z.max available 0 /\ Forall2 Z.le heights desired
      /\ Forall (fun h => 0 <= h) heights
      /\ (Z.of_nat (length desired) <= available -> Forall (fun h => 1 <= h) heights)).
Proof.
  intros Hdesired Havailable. cbn zeta. unfold fit_prompt_section_heights.
  assert (0 <= I32_MAX) as Hmax by (unfold I32_MAX; lia).
  rewrite sat_sum_spec; [|eapply Forall_impl; [exact Hdesired|cbn; lia]|lia]. rewrite Z.add_0_l.
  set (a := Z.max available 0). assert (0 <= a < I32_MAX) as Ha by (subst a; unfold I32_MAX in *; lia).
  destruct (Z.leb_spec (Z.min I32_MAX (sum_heights desired)) a).
  { split; [done|]. split; [done|lia]. }
  destruct (one_each desired a) as [ones rest] eqn:Hone.
  destruct (one_each_spec desired a ones rest ltac:(lia) Hone) as (Hlength & Hrange & Hrest & Hsum & Hall).
  assert (0 <= sum_heights ones) as Hones by (clear -Hrange; induction Hrange; cbn; unfold sum_heights in *; lia).
  destruct (grow_all_spec (Z.to_nat a) ones desired rest Hlength Hrest ltac:(lia)) as (Hl & Hle & Hbound & Hd & Hfull).
  set (final := grow_all _ _ _ _) in *. clearbody final.
  assert (Forall2 Z.le ones desired) as Hones_le.
  { apply Forall2_same_length_lookup_2; [done|]. intros i x y Hx Hy.
    rewrite Forall_lookup in Hrange, Hdesired. specialize (Hrange i x Hx). specialize (Hdesired i y Hy). cbn in *. lia. }
  split; [done|]. split; [lia|]. intros _. specialize (Hd Hones_le). pose proof (sum_heights_le _ _ Hd).
  split; [|split; [done|split]].
  - destruct Hfull as [|Hge]; [lia|]. apply sum_heights_le in Hge. lia.
  - apply Forall_lookup. intros i y Hy. apply Forall2_lookup_r with (i := i) (y := y) in Hle as (x & Hx & Hxy); [|done].
    rewrite Forall_lookup in Hrange. specialize (Hrange i x Hx). cbn in *. lia.
  - intros Hcount. specialize (Hall ltac:(lia)). apply Forall_lookup. intros i y Hy.
    apply Forall2_lookup_r with (i := i) (y := y) in Hle as (x & Hx & Hxy); [|done].
    rewrite Forall_lookup in Hall. specialize (Hall i x Hx). cbn in *. lia.
Qed.

(** ** The controls fit *)

Record columns_ok (c : PromptColumns) : Prop := mkColumnsOk {
  column_client : 1 <= client_width c <= I32_MAX;
  column_padding : 0 <= horizontal_padding c;
  column_content : 1 <= content_width c /\ 2 * horizontal_padding c + content_width c = client_width c;
  column_gap : 0 <= horizontal_gap c;
  column_label : 0 <= label_column c;
  column_edit : 0 <= edit_column c;
  column_sum : label_column c + horizontal_gap c + edit_column c = content_width c
}.
Lemma quot_nonneg_le a b : 0 < b -> -b < a -> 0 <= Z.quot a b /\ b * Z.quot a b <= Z.max a 0.
Proof.
  intros Hb Ha. destruct (Z.le_gt_cases 0 a).
  - pose proof (Z.quot_pos a b). pose proof (Z.mul_quot_le a b). lia.
  - assert (Z.quot a b = 0) as -> by (apply Z.quot_small_iff; lia). lia.
Qed.

Lemma prompt_columns_ok dpi measured maximum : 0 <= dpi -> rect_width maximum <= I32_MAX ->
  columns_ok (prompt_columns dpi measured maximum)
  /\ client_width (prompt_columns dpi measured maximum) <= Z.max (rect_width maximum) 1.
Proof.
  intros Hd Hmax. unfold prompt_columns. cbn zeta.
  set (wish := sat_add (Z.max _ _) _). set (w := Z.max (Z.min wish _) 1).
  assert (1 <= w <= I32_MAX /\ w <= Z.max (rect_width maximum) 1) as [Hw Hw'] by (subst w; unfold I32_MAX in *; lia).
  clearbody wish w.
  pose proof (scale_dip_nonneg 12 dpi ltac:(lia) Hd). pose proof (scale_dip_nonneg 8 dpi ltac:(lia) Hd).
  pose proof (scale_dip_nonneg 70 dpi ltac:(lia) Hd).
  rewrite (sat_sub_nonneg w 1) by lia. destruct (quot_nonneg_le (w - 1) 2) as [Hq Hq']; [lia..|].
  set (p := Z.min (scale_dip 12 dpi) _). assert (0 <= p /\ 2 * p <= w - 1) as [Hp Hp'] by (subst p; lia). clearbody p.
  rewrite (sat_mul_id p 2) by in_range. rewrite (sat_sub_nonneg w (p * 2)) by lia. rewrite (Z.max_l (w - p * 2) 1) by lia.
  set (content := w - p * 2). assert (1 <= content <= w) as Hcontent by (subst content; lia).
  assert (2 * p + content = w) as Hsum by (subst content; lia). clearbody content.
  rewrite (sat_sub_id content 2) by in_range. destruct (quot_nonneg_le (content - 2) 4) as [Hg Hg']; [lia..|].
  set (g := Z.min (scale_dip 8 dpi) _). assert (0 <= g /\ 4 * g <= Z.max (content - 2) 0) as [Hgap Hgap'] by (subst g; lia).
  clearbody g. rewrite (sat_sub_nonneg content g) by lia.
  destruct (quot_nonneg_le (content - g) 3) as [Ht Ht']; [lia..|].
  set (wish_label := Z.max (sat_add _ _) (scale_dip 70 dpi)). assert (0 <= wish_label) as Hlabel by (subst wish_label; lia).
  clearbody wish_label. set (label := Z.min (Z.min wish_label _) (content - g)).
  assert (0 <= label <= content - g) as Hl by (subst label; lia). clearbody label.
  rewrite (sat_sub_nonneg (content - g) label) by lia. cbn. split; [split; cbn; lia|done].
Qed.

Record rows_ok (desired : list Z) (r : PromptRows) : Prop := mkRowsOk {
  row_client : 1 <= client_height r <= I32_MAX;
  row_padding : 0 <= vertical_padding r;
  row_gap : 0 <= vertical_gap r;
  row_count : length (heights r) = length desired;
  row_heights : Forall (fun h => 0 <= h) (heights r);
  row_sum : 2 * vertical_padding r + sum_heights (heights r)
            + vertical_gap r * (Z.of_nat (length desired) - 1) <= client_height r
}.
Lemma prompt_rows_ok dpi desired maximum : 0 <= dpi -> rect_height maximum < I32_MAX ->
  Forall (fun d => 1 <= d) desired -> (2 <= length desired <= 6)%nat ->
  rows_ok desired (prompt_rows dpi desired maximum)
  /\ client_height (prompt_rows dpi desired maximum) <= Z.max (rect_height maximum) 1.
Proof.
  intros Hd Hmax Hdesired Hcount. unfold prompt_rows. cbn zeta.
  set (wish := sat_add (sat_add _ _) _). set (h := Z.max (Z.min wish _) 1).
  assert (1 <= h < I32_MAX /\ h <= Z.max (rect_height maximum) 1) as [Hh Hh'] by (subst h; unfold I32_MAX in *; lia).
  clearbody wish h. pose proof (scale_dip_nonneg 12 dpi ltac:(lia) Hd). pose proof (scale_dip_nonneg 8 dpi ltac:(lia) Hd).
  assert (forall n, (n <= 6)%nat -> default I32_MAX (i32_of_nat n) = Z.of_nat n) as Hi32.
  { intros n Hn. unfold i32_of_nat. by rewrite i32_checked_id by in_range. }
  rewrite !Hi32 by lia. clear Hi32. set (n := Z.of_nat (length desired)).
  replace (Z.of_nat (length desired - 1)) with (n - 1) by lia. assert (2 <= n <= 6) as Hn by lia.
  destruct (Nat.eqb_spec (length desired - 1) 0) as [|_]; [lia|].
  rewrite (sat_sub_id h n) by in_range. destruct (quot_nonneg_le (Z.max (h - n) 0) 2) as [Hq Hq']; [lia..|].
  set (p := Z.min (scale_dip 12 dpi) _). assert (0 <= p /\ 2 * p <= Z.max (h - n) 0) as [Hp Hp'] by (subst p; lia). clearbody p.
  rewrite (sat_mul_id p 2) by in_range. rewrite (sat_sub_nonneg h (p * 2)) by lia. rewrite (Z.max_l (h - p * 2) 0) by lia.
  set (a := h - p * 2). assert (0 <= a <= h) as Ha by (subst a; lia). assert (2 * p + a = h) as Hsum by (subst a; lia). clearbody a.
  rewrite (sat_sub_id a n) by in_range. destruct (quot_nonneg_le (Z.max (a - n) 0) (n - 1)) as [Hg Hg']; [lia..|].
  set (g := Z.min (scale_dip 8 dpi) _). assert (0 <= g /\ 0 <= g * (n - 1) <= Z.max (a - n) 0) as [Hgap Hgap'] by (subst g; nia).
  clearbody g. rewrite (sat_mul_id g (n - 1)) by in_range. rewrite (sat_sub_nonneg a (g * (n - 1))) by lia.
  destruct (fit_heights desired (a - g * (n - 1)) Hdesired ltac:(lia)) as (Hlength & Hwhole & Hsmall).
  split; [|done]. split; cbn [client_height vertical_padding vertical_gap heights]; [lia|lia|lia|done| |].
  - destruct (Z.le_gt_cases (sum_heights desired) (Z.max (a - g * (n - 1)) 0)) as [Hle|Hgt%Hsmall]; [|tauto].
    rewrite Hwhole by done. eapply Forall_impl; [exact Hdesired|]. cbn. lia.
  - fold n. destruct (Z.le_gt_cases (sum_heights desired) (Z.max (a - g * (n - 1)) 0)) as [Hle|Hgt].
    + rewrite (Hwhole Hle). lia.
    + destruct (Hsmall Hgt) as [-> _]. lia.
Qed.
Lemma desired_heights_ok dpi measured fields : 96 <= dpi ->
  Forall (fun d => 1 <= d) (desired_heights dpi measured fields)
  /\ length (desired_heights dpi measured fields)
     = (3 + (if value_one fields then 1 else 0) + (if value_two fields then 1 else 0) + (if choice_field fields then 1 else 0))%nat.
Proof.
  intros Hd. unfold desired_heights. pose proof (scale_dip_pos 16 dpi ltac:(lia) ltac:(lia) ltac:(lia)).
  pose proof (scale_dip_nonneg 8 dpi ltac:(lia) ltac:(lia)). pose proof (scale_dip_nonneg 14 dpi ltac:(lia) ltac:(lia)).
  set (line := Z.max (line_height measured) _). assert (1 <= line) as Hline by (subst line; lia). clearbody line.
  assert (forall a, 0 <= a -> 1 <= sat_add line a) as Hsum by (intros; unfold sat_add, clamp_i32, I32_MIN, I32_MAX; lia).
  pose proof (Hsum (scale_dip 8 dpi) ltac:(lia)). pose proof (Hsum (scale_dip 14 dpi) ltac:(lia)).
  destruct (value_one fields), (value_two fields), (choice_field fields); cbn [omap list_omap Datatypes.id length];
    (split; [repeat constructor; lia|done]).
Qed.

Definition option_list {A} (o : option A) : list A := match o with Some a => [a] | None => [] end.
(** The controls of a prompt from top to bottom, edits beside their labels left out. *)
Definition sections (l : PromptLayout) : list LayoutRect :=
  [title l] ++ option_list (label_one l) ++ option_list (label_two l) ++ option_list (choice l) ++ [separator l; ok l].
(** An edit in the row of its label, to the right of it. *)
Definition beside (label edit : option LayoutRect) : Prop :=
  match label, edit with
  | Some l, Some e => left_of l e /\ rect_y e = rect_y l /\ rect_height e = rect_height l
  | None, None => True
  | _, _ => False
  end.
Definition inside_option (o : option LayoutRect) (outer : LayoutRect) : Prop :=
  match o with Some r => inside r outer | None => True end.

(** Compares rectangles whose edges are linear in the context. *)
#[local] Ltac rects_fit :=
  repeat match goal with
  | |- _ /\ _ => split
  | |- _ <-> _ => split
  | |- Forall _ _ => constructor
  | |- StronglySorted _ _ => constructor
  | |- inside _ _ => constructor; cbn
  | |- above _ _ => unfold above; cbn
  | |- left_of _ _ => unfold left_of; cbn
  | |- True => exact I
  | |- is_Some None -> _ => by intros [? [=]]
  | |- false = true -> _ => intros [=]
  | |- is_Some (Some _) -> _ => intros _; reflexivity
  | |- true = true -> _ => intros _; by eexists
  | |- @eq Z _ _ => lia
  | |- _ <= _ => lia
  end.

(** A prompt fits its client, whatever the fonts, the resolution and the
    fields.  The client is no larger than the monitor allows; every section in
    use lies in it, below the one before; the edits stand beside their labels,
    and the two buttons side by side at the bottom. *)
Theorem prompt_layout_fits dpi measured fields maximum :
  96 <= dpi -> rect_width maximum <= I32_MAX -> rect_height maximum < I32_MAX ->
  let layout := calculate_prompt_layout dpi measured fields maximum in
  rect_x (client layout) = 0 /\ rect_y (client layout) = 0
  /\ rect_width (client layout) <= Z.max (rect_width maximum) 1
  /\ rect_height (client layout) <= Z.max (rect_height maximum) 1
  /\ Forall (fun r => inside r (client layout)) (sections layout)
  /\ StronglySorted above (sections layout)
  /\ inside_option (edit_one layout) (client layout) /\ inside_option (edit_two layout) (client layout)
  /\ inside (prompt_cancel layout) (client layout)
  /\ beside (label_one layout) (edit_one layout) /\ beside (label_two layout) (edit_two layout)
  /\ left_of (ok layout) (prompt_cancel layout) /\ rect_y (prompt_cancel layout) = rect_y (ok layout)
  /\ (is_Some (label_one layout) <-> value_one fields = true)
  /\ (is_Some (label_two layout) <-> value_two fields = true)
  /\ (is_Some (choice layout) <-> choice_field fields = true).
Proof.
  intros Hd Hw Hh. cbn zeta. unfold calculate_prompt_layout.
  destruct (prompt_columns_ok dpi measured maximum ltac:(lia) Hw) as [Hc Hcw].
  destruct (desired_heights_ok dpi measured fields Hd) as [Hdesired Hlength].
  destruct (prompt_rows_ok dpi (desired_heights dpi measured fields) maximum ltac:(lia) Hh Hdesired) as [Hr Hrh].
  { rewrite Hlength. destruct (value_one fields), (value_two fields), (choice_field fields); lia. }
  set (c := prompt_columns dpi measured maximum) in *. set (r := prompt_rows dpi _ maximum) in *.
  set (desired := desired_heights dpi measured fields) in *. clearbody c r desired.
  destruct Hc as [Hclient Hpadding Hcontent Hgap Hlabel Hedit Hsum].
  destruct Hr as [Hrows Hvp Hvg Hcount Hheights Hfits]. rewrite Hlength in Hcount, Hfits.
  pose proof (scale_dip_nonneg 75 dpi ltac:(lia) ltac:(lia)) as H75. pose proof (scale_dip_nonneg 185 dpi ltac:(lia) ltac:(lia)) as H185.
  destruct (quot_nonneg_le (content_width c - 2) 3) as [Hq Hq']; [lia..|].
  unfold place_prompt, place_field, next_height, rect_bottom.
  rewrite (sat_sub_id (content_width c) 2) by in_range.
  set (bg := Z.min (horizontal_gap c) _). assert (0 <= bg /\ 3 * bg <= Z.max (content_width c - 2) 0) as [Hbg Hbg'] by (subst bg; lia).
  clearbody bg. rewrite (sat_sub_nonneg (content_width c) bg) by lia.
  destruct (quot_nonneg_le (content_width c - bg) 2) as [Hb Hb']; [lia..|].
  set (bw := Z.min (scale_dip 75 dpi) _). assert (0 <= bw /\ 2 * bw <= content_width c - bg) as [Hbw Hbw'] by (subst bw; lia).
  clearbody bw. set (cw := Z.min (scale_dip 185 dpi) (content_width c)).
  assert (0 <= cw <= content_width c) as Hchoice by (subst cw; lia). clearbody cw.
  destruct c as [w p content g label edit], r as [h vp vg hs]. cbn [client_width horizontal_padding content_width horizontal_gap
    label_column edit_column client_height vertical_padding vertical_gap heights] in *.
  destruct fields as [one two three]. cbn [value_one value_two choice_field] in *.
  clear Hdesired Hlength desired Hq Hq' Hb Hb' Hh Hw Hd.
  destruct one, two, three; cbn in Hcount;
    repeat (destruct hs as [|? hs]; [discriminate Hcount|]; injection Hcount as Hcount);
    (destruct hs; [|discriminate Hcount]); rewrite !Forall_cons in Hheights; destruct_and?;
    cbn in Hfits; cbn [head tl default from_option Datatypes.id rect_x rect_y rect_width rect_height fst snd];
    exact_sums; unfold sections;
    cbn [client title edit_one edit_two label_one label_two choice separator ok prompt_cancel option_fmap option_map fmap
         fst snd app option_list inside_option beside rect_x rect_y rect_width rect_height];
    rects_fit.
Qed.
(** On a monitor too small for the wishes, with all fields, at the base resolution. *)
Definition small_prompt : PromptLayout :=
  calculate_prompt_layout 96 (mkPromptFonts 420 18 90 15 16) (mkFields true true true) (mkRect 0 0 300 90).
Lemma prompt_layout_fits_witness :
  96 <= 96 /\ rect_width (client small_prompt) <= 300 /\ rect_height (client small_prompt) <= 90
  /\ is_Some (label_two small_prompt) /\ sum_heights (map rect_height (sections small_prompt)) = 26.
Proof.
  destruct (prompt_layout_fits 96 (mkPromptFonts 420 18 90 15 16) (mkFields true true true) (mkRect 0 0 300 90)
    ltac:(lia) ltac:(done) ltac:(done)) as (_ & _ & Hw & Hh & _ & _ & _ & _ & _ & _ & _ & _ & _ & _ & [_ Htwo] & _).
  split; [lia|]. split; [exact Hw|]. split; [exact Hh|]. split; [by apply Htwo|]. vm_compute. reflexivity.
Defined.
