(* ===== verification/Activation.v ===== *)
(** * Activation: from the list to a plan request and back

    [crates/darknamer-app/src/rename/activation.rs]: the request built from
    the rows, the application of a verified report to the rows, and the
    decisions on journal cleanup and presentation.  The message texts are not
    modelled. *)

From S2P Require Import Prelude Collections LegacyText ListItem WorkList RenameModel.
From S2P Require Import Journal Executor.

Definition next_model_revision (current : Z) (changed : bool) : Z :=
  if changed then Z.min (current + 1) u64_max else current.

(** [u32::try_from(index).unwrap_or(u32::MAX)]. *)
Definition entry_id_of_row (index : nat) : EntryId := Z.min (Z.of_nat index) u32_max.

Definition row_intent (index : nat) (item : LegacyListItem) : RenameIntent :=
  rename_intent_new (entry_id_of_row index) (source_path item) (destination_parent item)
    (proposed_name item) (if is_directory item then Directory else File).

Definition build_plan_request (model : LegacyList) (revision : ModelRevision) : PlanRequest :=
  let scope :=
    if existsb (fun item => ListItem.moves (planned_change_kind item)) (items model)
    then SameVolumeFilesOnly else SameParent in
  plan_request_with_scope revision (imap row_intent (items model)) scope.

Definition is_completed (outcome : ExecutionOutcome) : bool :=
  match outcome with OutcomeCompleted => true | _ => false end.

(** [rows.into_iter().all(...)] stops at the first row refused. *)
Fixpoint record_all {E} (rows : list nat) : Cmd E bool :=
  match rows with
  | [] => mret true
  | row :: rows' =>
      recorded ← record_move_success row;
      if recorded : bool then record_all rows' else mret false
  end.

Definition apply_execution_report {E} (report : ExecutionReport) : Cmd E bool :=
  if negb (is_completed (report_outcome report))
     || existsb (fun e => negb (bool_decide (execution_state e = Applied))) (report_entries report)
  then mret false
  else
    let rows := sort_by Nat.compare
      (map (fun e => Z.to_nat (execution_entry e)) (report_entries report)) in
    l ← get_list;
    if existsb (fun row => (length (items l) <=? row)%nat) rows then mret false
    else record_all rows.

Inductive JournalCleanupDecision : Type := RemoveEmpty | RemoveTerminal | Retain.
#[export] Instance JournalCleanupDecision_eq_dec : EqDecision JournalCleanupDecision.
Proof. solve_decision. Defined.

Definition ends_in_terminal (records : list JournalRecord) : bool :=
  match last records with Some (Terminal _) => true | _ => false end.
Definition cleanup_decision (records : list JournalRecord) : JournalCleanupDecision :=
  match records with
  | [] => RemoveEmpty
  | _ :: _ =>
      if ends_in_terminal records && bool_decide (replay_journal records = Clean)
      then RemoveTerminal else Retain
  end.

Inductive ExecutionOutcomePresentation : Type := NonModal | Modal.
Definition execution_outcome_presentation (outcome : ExecutionOutcome)
  : ExecutionOutcomePresentation :=
  match outcome with
  | OutcomeCompleted | OutcomeRolledBack (FailureCancelled _) => NonModal
  | OutcomeRolledBack _ | OutcomeRecoveryRequired _ _ => Modal
  end.

(** ** Facts *)

Lemma record_move_items {E} index l h item :
  items l !! index = Some item ->
  exists l' h', @record_move_success E index (l, h) = (Ok true, (l', h')) /\
    items l' = <[index := moved_item item]> (items l).
Proof.
  intros Hi. unfold record_move_success. rewrite (SE_bind_step _ _ _ l (l, h)) by reflexivity.
  rewrite Hi. set (l1 := set_units _ _ _).
  rewrite (SE_bind_step _ _ _ tt (l1, h)) by reflexivity.
  destruct (@invalidate_source_index E (l1, h)) as [r [l' h']] eqn:Hinv.
  destruct (invalidate_items _ _ _ Hinv) as (Hi' & _). exists l', h'.
  destruct r as [[]|e].
  - by rewrite (SE_bind_step _ _ _ _ _ Hinv).
  - exfalso. revert Hinv. unfold invalidate_source_index, mbind, SE_bind, get_list, put_list,
      on_heap, arc_new. simpl. by destruct (_ <=? _).
Qed.

Definition recorded (rows : list nat) (its : list LegacyListItem) : list LegacyListItem :=
  imap (fun i item => if bool_decide (i ∈ rows) then moved_item item else item) its.

Lemma recorded_lookup rows its i :
  recorded rows its !! i =
  (fun item => if bool_decide (i ∈ rows) then moved_item item else item) <$> its !! i.
Proof. unfold recorded. by rewrite list_lookup_imap. Qed.
Lemma recorded_perm rows rows' its : rows ≡ₚ rows' -> recorded rows its = recorded rows' its.
Proof.
  intros Hp. apply list_eq. intros i. rewrite !recorded_lookup. destruct (its !! i); [|done]. simpl.
  by rewrite (bool_decide_ext (i ∈ rows) (i ∈ rows')) by (by rewrite Hp).
Qed.

Lemma record_all_spec {E} rows l h :
  NoDup rows -> Forall (fun row => (row < length (items l))%nat) rows ->
  exists l' h', @record_all E rows (l, h) = (Ok true, (l', h')) /\
    items l' = recorded rows (items l).
Proof.
  revert l h. induction rows as [|row rows IH]; intros l h Hn Hb; simpl.
  { exists l, h. split; [done|]. apply list_eq. intros i. rewrite recorded_lookup.
    by destruct (items l !! i). }
  apply NoDup_cons in Hn as [Hnot Hn]. apply Forall_cons in Hb as [Hrow Hb].
  destruct (lookup_lt_is_Some_2 _ _ Hrow) as [item Hi].
  destruct (record_move_items (E:=E) row l h item Hi) as (l1 & h1 & Hr & Hi1).
  rewrite (SE_bind_step _ _ _ _ _ Hr).
  destruct (IH l1 h1 Hn) as (l' & h' & Hrec & Hi').
  { rewrite Hi1, length_insert. exact Hb. }
  exists l', h'. split; [done|]. rewrite Hi', Hi1. apply list_eq. intros i.
  rewrite !recorded_lookup. destruct (decide (i = row)) as [->|Hne].
  - rewrite list_lookup_insert_eq by done. rewrite Hi. simpl.
    rewrite bool_decide_false by done. by rewrite bool_decide_true by left.
  - rewrite list_lookup_insert_ne by done. destruct (items l !! i); [|done]. simpl.
    f_equal. erewrite bool_decide_ext; [reflexivity|]. rewrite elem_of_cons. naive_solver.
Qed.

(** Only an accepted terminal makes a journal with records clean. *)
Lemma replay_records_snoc n records record st st' :
  replay_records n (records ++ [record]) st = Ok st' ->
  exists st1, replay_records n records st = Ok st1 /\ replay_record n record st1 = Ok st'.
Proof.
  rewrite replay_records_app. destruct (replay_records n records st) as [st1|]; [|done].
  simpl. destruct (replay_record n record st1) as [st2|] eqn:Hr; [|done]. intros [= ->].
  by exists st1.
Qed.
Lemma clean_ends_in_terminal records :
  records <> [] -> replay_journal records = Clean -> ends_in_terminal records = true.
Proof.
  intros Hne Hr. destruct records as [|record records]; [done|].
  destruct record as [p ss|s d|s d|s d|t]; try done. simpl in Hr.
  destruct (replay_records (length ss) records replay_start) as [st|[c st]] eqn:Hrep; [|done].
  unfold classify in Hr.
  destruct (replay_terminal st) as [t|] eqn:Ht;
    [|by destruct (forward_prepared st); [|destruct (rollback_prepared st)]].
  destruct records as [|x records' _] using rev_ind; [by injection Hrep as <-|].
  unfold ends_in_terminal. rewrite app_comm_cons, last_snoc.
  apply replay_records_snoc in Hrep as (st1 & _ & Hx). unfold replay_record in Hx.
  destruct (replay_terminal st1) eqn:Ht1; [done|]. destruct x as [q qs|s d|s d|s d|t']; [done| | | |done].
  all: apply result_bind_Ok in Hx as ([] & _ & Hx); exfalso;
    unfold prepared_transition, completed_transition, not_applied_transition in Hx;
    repeat match type of Hx with context [match ?x with _ => _ end] => destruct x end;
    simplify_eq; simpl in Ht; congruence.
Qed.

(** ** Properties *)

(** [apply_execution_report] moves exactly the reported rows: when the
    report is Completed, every entry is Applied and every row exists (rows are
    reported once), it answers true and each reported row, and no other, takes
    its planned path as its source path; otherwise it answers false and
    changes nothing. *)
Theorem apply_execution_report_exact {E} report l h :
  let rows := map (fun e => Z.to_nat (execution_entry e)) (report_entries report) in
  NoDup rows ->
  if is_completed (report_outcome report)
     && forallb (fun e => bool_decide (execution_state e = Applied)) (report_entries report)
     && forallb (fun row => (row <? length (items l))%nat) rows
  then exists l' h', @apply_execution_report E report (l, h) = (Ok true, (l', h')) /\
    items l' = imap (fun i item => if bool_decide (i ∈ rows) then moved_item item else item) (items l)
  else @apply_execution_report E report (l, h) = (Ok false, (l, h)).
Proof.
  intros rows Hn. unfold apply_execution_report. destruct (is_completed _); simpl; [|done].
  assert (forall es, existsb (fun e => negb (bool_decide (execution_state e = Applied))) es =
    negb (forallb (fun e => bool_decide (execution_state e = Applied)) es)) as ->.
  { induction es as [|e es IH]; simpl; [done|]. by rewrite negb_andb, IH. }
  destruct (forallb (fun e => bool_decide (execution_state e = Applied)) _); simpl; [|done].
  rewrite (SE_bind_step _ _ _ l (l, h)) by reflexivity. fold rows.
  pose proof (sort_by_perm Nat.compare rows) as Hp. set (sorted := sort_by Nat.compare rows) in *.
  assert (existsb (fun row => (length (items l) <=? row)%nat) sorted =
    negb (forallb (fun row => (row <? length (items l))%nat) rows)) as ->.
  { apply eq_iff_eq_true. rewrite negb_true_iff, <-not_true_iff_false, forallb_forall, existsb_exists.
    split.
    - intros (row & Hin & Hle%Nat.leb_le) Hall. apply list_elem_of_In in Hin. rewrite Hp in Hin.
      apply list_elem_of_In in Hin. specialize (Hall _ Hin). apply Nat.ltb_lt in Hall. lia.
    - intros Hnot. destruct (existsb (fun row => (length (items l) <=? row)%nat) sorted) eqn:Hex.
      { by apply existsb_exists in Hex. }
      exfalso. apply Hnot. intros row Hin. apply Nat.ltb_lt.
      destruct (Nat.lt_ge_cases row (length (items l))) as [|Hge]; [done|]. exfalso.
      rewrite <-not_true_iff_false in Hex. apply Hex, existsb_exists. exists row.
      split; [|by apply Nat.leb_le]. apply list_elem_of_In. rewrite Hp. by apply list_elem_of_In. }
  destruct (forallb (fun row => (row <? length (items l))%nat) rows) eqn:Hb; simpl; [|done].
  assert (Forall (fun row => (row < length (items l))%nat) sorted) as Hbs.
  { rewrite Hp. apply Forall_forall. intros row Hin. rewrite forallb_forall in Hb.
    apply Nat.ltb_lt, Hb. by apply list_elem_of_In. }
  destruct (record_all_spec (E:=E) sorted l h) as (l' & h' & Hr & Hi); [by rewrite Hp|done|].
  exists l', h'. split; [done|]. by rewrite Hi, (recorded_perm _ _ _ Hp).
Qed.

(** The request built from the list has one intent per row, in order, with
    the row's index as identifier, its source path, its planned path as the
    destination and its kind; it asks for a file move between folders exactly
    when the planned change of some row moves it. *)
Theorem build_plan_request_spec model revision :
  let request := build_plan_request model revision in
  request_revision request = revision /\
  length (request_entries request) = length (items model) /\
  (forall i item, Z.of_nat i <= u32_max -> items model !! i = Some item ->
     exists intent, request_entries request !! i = Some intent /\
       intent_id intent = Z.of_nat i /\ intent_source intent = source_path item /\
       intent_destination intent = planned_path item /\
       (intent_kind intent = Directory <-> is_directory item = true)) /\
  (request_scope request = SameVolumeFilesOnly <->
     exists item, item ∈ items model /\ ListItem.moves (planned_change_kind item) = true).
Proof.
  simpl. split_and!; [done|apply length_imap| |].
  - intros i item Hi Hl. exists (row_intent i item). split_and!.
    + by rewrite list_lookup_imap, Hl.
    + simpl. unfold entry_id_of_row. lia.
    + done.
    + apply rename_intent_destination.
    + simpl. by destruct (is_directory item).
  - destruct (existsb _ _) eqn:Hex.
    + split; [intros _|done]. apply existsb_exists in Hex as (item & Hin & Hm). exists item.
      split; [by apply list_elem_of_In|done].
    + split; [done|]. intros (item & Hin & Hm). exfalso. rewrite <-not_true_iff_false in Hex.
      apply Hex, existsb_exists. exists item. split; [by apply list_elem_of_In|done].
Qed.

(** An active journal is kept for recovery exactly when its replay is not
    clean; so one that needs recovery is never removed. *)
Theorem cleanup_retains_exactly_unclean records :
  cleanup_decision records = Retain <-> replay_journal records <> Clean.
Proof.
  destruct (decide (records = [])) as [->|Hne]; [done|].
  assert (cleanup_decision records = if ends_in_terminal records &&
    bool_decide (replay_journal records = Clean) then RemoveTerminal else Retain) as -> by (by destruct records).
  destruct (decide (replay_journal records = Clean)) as [Hc|Hc].
  - rewrite (clean_ends_in_terminal _ Hne Hc), bool_decide_true by done.
    by split.
  - by rewrite (bool_decide_false _ Hc), andb_false_r.
Qed.

Definition example_item (name proposed : string) : LegacyListItem :=
  set_proposed_name (text proposed)
    (new_item (text "C:\" ++ text name) false 1 0 0).
Definition example_list : LegacyList :=
  mkList [example_item "a" "b"; example_item "b" "a"; example_item "c" "d"] 3 12 0 0.
Definition example_report : ExecutionReport :=
  mkReport 1 OutcomeCompleted [mkEntryExecution 2 Applied; mkEntryExecution 0 Applied].

Lemma apply_execution_report_exact_witness :
  NoDup [2%nat; 0%nat] /\
  exists l' h',
    @apply_execution_report unit example_report (example_list, mkHeap [] 1) = (Ok true, (l', h')) /\
    items l' = imap (fun i item => if bool_decide (i ∈ [2%nat; 0%nat]) then moved_item item else item)
                 (items example_list).
Proof.
  assert (NoDup [2%nat; 0%nat]) as Hn by (repeat constructor; set_solver).
  split; [exact Hn|]. exact (apply_execution_report_exact (E:=unit) example_report example_list (mkHeap [] 1) Hn).
Defined.
