(* ===== verification/FileJournal.v ===== *)
(** * FileJournal: the durable journal

    [crates/darknamer-app/src/rename/file_journal.rs] from its error types to
    the adapter [FileJournal]: creation, reopening, appending, promotion of a
    candidate, repair of a torn tail, deletion and export.  The bytes of the
    records are those of Codec.

    A file is what std::fs::File shows of it: its bytes, the cursor, the name it
    is linked under and its delete disposition.  Every call is answered by the
    next answer of a script; a call that fails may have taken effect in part.  A
    process killed inside a call leaves what a failing call leaves. *)

From S2P Require Import Prelude Collections LegacyText RenameModel Journal Codec.

(** ** Files *)

(** [io::Error]: its [raw_os_error], if it came from the system. *)
Definition IoError : Type := option Z.

(** A failing call with the number of bytes it had written; for the other calls,
    whether it had taken effect all the same. *)
Inductive IoAnswer : Type := IoDone | IoFailed (error : IoError) (written : nat).

Record OpenFile : Type := mkOpenFile {
  contents : list Z;
  cursor : nat;
  linked_as : LegacyText;
  delete_pending : bool;
  script : list IoAnswer
}.
Definition set_contents (bytes : list Z) (f : OpenFile) : OpenFile :=
  mkOpenFile bytes (cursor f) (linked_as f) (delete_pending f) (script f).
Definition set_cursor (at_ : nat) (f : OpenFile) : OpenFile :=
  mkOpenFile (contents f) at_ (linked_as f) (delete_pending f) (script f).
Definition set_linked_as (leaf : LegacyText) (f : OpenFile) : OpenFile :=
  mkOpenFile (contents f) (cursor f) leaf (delete_pending f) (script f).
Definition set_delete_pending (f : OpenFile) : OpenFile :=
  mkOpenFile (contents f) (cursor f) (linked_as f) true (script f).

Definition IO (A : Type) : Type := SE OpenFile IoError A.

(** The next answer of the system; a script that ended answers no more failures. *)
Definition next_answer (f : OpenFile) : IoAnswer * OpenFile :=
  match script f with
  | [] => (IoDone, f)
  | answer :: rest => (answer, mkOpenFile (contents f) (cursor f) (linked_as f) (delete_pending f) rest)
  end.
(** A call with this effect; a failure leaves the effect of [partial written]. *)
Definition io_call {A} (partial : nat -> OpenFile -> OpenFile) (effect : OpenFile -> OpenFile)
    (value : OpenFile -> A) : IO A := fun f =>
  let (answer, f) := next_answer f in
  match answer with
  | IoDone => (Ok (value f), effect f)
  | IoFailed error written => (Err error, partial written f)
  end.

(** Bytes written at the cursor, which moves behind them. *)
Definition write_at_cursor (bytes : list Z) (f : OpenFile) : OpenFile :=
  set_cursor (cursor f + length bytes)
    (set_contents (take (cursor f) (contents f) ++ bytes ++ drop (cursor f + length bytes) (contents f)) f).
Definition write_all (bytes : list Z) : IO unit :=
  io_call (fun written => write_at_cursor (take written bytes)) (write_at_cursor bytes) (fun _ => tt).
Definition io_flush : IO unit := io_call (fun _ f => f) (fun f => f) (fun _ => tt).
Definition sync_all : IO unit := io_call (fun _ f => f) (fun f => f) (fun _ => tt).
(** An effect that a failure has had, or not. *)
Definition whole (effect : OpenFile -> OpenFile) (written : nat) (f : OpenFile) : OpenFile :=
  if (written =? 0)%nat then f else effect f.
Definition resize_to (length : nat) (f : OpenFile) : OpenFile :=
  set_contents (resize length 0 (contents f)) f.
Definition set_len (length : nat) : IO unit := io_call (whole (resize_to length)) (resize_to length) (fun _ => tt).
Definition seek_start (offset : nat) : IO unit := io_call (fun _ f => f) (set_cursor offset) (fun _ => tt).
Definition seek_end : IO unit :=
  io_call (fun _ f => f) (fun f => set_cursor (length (contents f)) f) (fun _ => tt).
Definition stream_position : IO nat := io_call (fun _ f => f) (fun f => f) cursor.
Definition metadata_len : IO nat := io_call (fun _ f => f) (fun f => f) (fun f => length (contents f)).
(** [take(limit).read_to_end]; a failing read may have moved the cursor. *)
Definition take_bytes (limit : Z) (bytes : list Z) : list Z := take (Z.to_nat (Z.min limit (zlen bytes))) bytes.
Definition read_to_end (limit : Z) : IO (list Z) :=
  let bytes f := take_bytes limit (drop (cursor f) (contents f)) in
  io_call (fun read f => set_cursor (cursor f + read) f)
    (fun f => set_cursor (cursor f + length (bytes f)) f) bytes.
(** The link renamed without replacing another file. *)
Definition rename_noreplace (leaf : LegacyText) : IO unit :=
  io_call (whole (set_linked_as leaf)) (set_linked_as leaf) (fun _ => tt).
Definition mark_retained_file_delete : IO unit :=
  io_call (whole set_delete_pending) set_delete_pending (fun _ => tt).
(** Another leaf of the directory opened relative to it. *)
Definition open_existing_leaf : IO unit := io_call (fun _ f => f) (fun f => f) (fun _ => tt).

(** ** Errors *)

Inductive FileJournalErrorKind : Type :=
| FileIo | FileCodec (kind : JournalCodecErrorKind) | InvalidFileType | RelativeRoot | InvalidRoot | InvalidLeaf
| UnsafeCleanupState | InvalidCandidateState.
Record FileJournalError : Type := mkFileError { file_error_kind : FileJournalErrorKind; file_os_code : option Z }.
Inductive JournalOpenStage : Type := StageOpen | StageValidate | StageRead | StageDecode.
Record JournalOpenFailure : Type := mkOpenFailure {
  open_stage : JournalOpenStage; open_kind : FileJournalErrorKind; open_os_code : option Z; codec_frame : option nat
}.
Definition from_file_error (stage : JournalOpenStage) (error : FileJournalError) : JournalOpenFailure :=
  mkOpenFailure stage (file_error_kind error) (file_os_code error) None.
Definition from_codec (error : JournalCodecError) : JournalOpenFailure :=
  mkOpenFailure StageDecode (FileCodec (error_kind error)) None (Some (error_frame error)).
Definition as_file_error (failure : JournalOpenFailure) : FileJournalError :=
  mkFileError (open_kind failure) (open_os_code failure).
Definition file_error_of_io (error : IoError) : FileJournalError := mkFileError FileIo error.
Definition unsafe_cleanup_error : FileJournalError := mkFileError UnsafeCleanupState None.
Definition journal_io_may_have_appended (error : IoError) : JournalError :=
  may_have_appended (default 6 (code ← error; if (0 <=? code) && (code <=? u32_max) then Some code else None)).

(** ** The journal *)

(** A path below the journal root: the root's path and the leaf. *)
Record JournalPath : Type := mkJournalPath { path_root : LegacyText; path_leaf : LegacyText }.
#[export] Instance JournalPath_eq_dec : EqDecision JournalPath.
Proof. solve_decision. Defined.
Record JournalRoot : Type := mkJournalRoot { root_path : LegacyText; root_identity : Z }.

Record RecoveryJournalEvidence : Type := mkEvidence {
  evidence_path : JournalPath; evidence_file : OpenFile; evidence_byte_len : nat; evidence_failure : JournalOpenFailure
}.
Record ExistingJournalOpenError : Type := mkOpenError {
  error_path : JournalPath; error_failure : JournalOpenFailure; error_evidence : option RecoveryJournalEvidence
}.
Definition is_not_found (error : ExistingJournalOpenError) : bool :=
  match error_evidence error, open_os_code (error_failure error) with
  | None, Some code => (code =? 2) || (code =? 3)
  | _, _ => false
  end.

Inductive FileJournalPhase : Type :=
| Active
| Candidate (active_path : JournalPath) (active_leaf : LegacyText)
| PromotionUncertain.
Record FileJournal : Type := mkFileJournal {
  file_path : JournalPath;
  file_root_identity : Z;
  file : OpenFile;
  file_records : list JournalRecord;
  file_identity : Z;
  file_generation : Z;
  next_sequence : Z;
  byte_length : nat;
  torn_prefix : option nat;
  file_tail_issue : option JournalTailIssue;
  poisoned : bool;
  phase : FileJournalPhase
}.

Definition set_file (f : OpenFile) (j : FileJournal) : FileJournal :=
  mkFileJournal (file_path j) (file_root_identity j) f (file_records j) (file_identity j) (file_generation j)
    (next_sequence j) (byte_length j) (torn_prefix j) (file_tail_issue j) (poisoned j) (phase j).
Definition set_poisoned (p : bool) (j : FileJournal) : FileJournal :=
  mkFileJournal (file_path j) (file_root_identity j) (file j) (file_records j) (file_identity j) (file_generation j)
    (next_sequence j) (byte_length j) (torn_prefix j) (file_tail_issue j) p (phase j).
Definition set_phase (p : FileJournalPhase) (j : FileJournal) : FileJournal :=
  mkFileJournal (file_path j) (file_root_identity j) (file j) (file_records j) (file_identity j) (file_generation j)
    (next_sequence j) (byte_length j) (torn_prefix j) (file_tail_issue j) (poisoned j) p.
Definition set_path (p : JournalPath) (j : FileJournal) : FileJournal :=
  mkFileJournal p (file_root_identity j) (file j) (file_records j) (file_identity j) (file_generation j)
    (next_sequence j) (byte_length j) (torn_prefix j) (file_tail_issue j) (poisoned j) (phase j).
(** The bookkeeping after a record was synced. *)
Definition record_appended (record : JournalRecord) (frame : list Z) (j : FileJournal) : FileJournal :=
  mkFileJournal (file_path j) (file_root_identity j) (file j) (file_records j ++ [record]) (file_identity j)
    (saturating_add (file_generation j) 1) (saturating_add (next_sequence j) 1) (byte_length j + length frame)
    (torn_prefix j) (file_tail_issue j) false (phase j).
(** The bookkeeping after a torn tail was cut off. *)
Definition tail_cut (length : nat) (j : FileJournal) : FileJournal :=
  mkFileJournal (file_path j) (file_root_identity j) (file j) (file_records j) (file_identity j)
    (saturating_add (file_generation j) 1) (next_sequence j) length None None false (phase j).

(** Calls that mutate the journal and may fail. *)
Definition modify {S E} (f : S -> S) : SE S E unit := fun s => (Ok tt, f s).
Definition on_file {E A} (convert : IoError -> E) (m : IO A) : SE FileJournal E A := fun j =>
  let (r, f) := m (file j) in (map_err convert r, set_file f j).
Definition journal_io {A} (m : IO A) : SE FileJournal JournalError A := on_file journal_io_may_have_appended m.

(** ** Appending *)

Definition append (record : JournalRecord) : SE FileJournal JournalError unit := fun j =>
  if poisoned j then (Err (may_have_appended 8), j)
  else if bool_decide (is_Some (torn_prefix j)) then (Err (not_appended 7), j)
  else if MAX_JOURNAL_FRAMES <=? zlen (file_records j) then (Err (not_appended 3), j)
  else
    match encode_frame (length (file_records j)) (next_sequence j) record with
    | Err _ => (Err (not_appended 4), j)
    | Ok frame =>
        if MAX_JOURNAL_FILE_BYTES <? saturating_add (Z.of_nat (byte_length j)) (zlen frame)
        then (Err (not_appended 5), j)
        else
          (modify (set_poisoned true);;
           journal_io (write_all frame);;
           journal_io io_flush;;
           journal_io sync_all;;
           modify (record_appended record frame)) j
    end.

Definition promote_candidate : SE FileJournal JournalError unit := fun j =>
  match phase j with
  | Candidate active_path active_leaf =>
      let j := set_poisoned true j in
      match rename_noreplace active_leaf (file j) with
      | (Err error, f) => (Err (journal_io_may_have_appended error), set_phase PromotionUncertain (set_file f j))
      | (Ok _, f) => (Ok tt, set_poisoned false (set_phase Active (set_path active_path (set_file f j))))
      end
  | _ => (Ok tt, j)
  end.

Definition is_active (j : FileJournal) : bool := match phase j with Active => true | _ => false end.
Definition require_active : SE FileJournal JournalError unit := fun j =>
  if poisoned j then (Err (may_have_appended 8), j)
  else if negb (is_active j) then (Err (not_appended 9), j) else (Ok tt, j).

(** Cutting the torn tail off before the first append after reopening. *)
Definition cut_torn_tail (length : nat) : SE FileJournal JournalError unit :=
  modify (set_poisoned true);;
  journal_io (set_len length);;
  journal_io (seek_start length);;
  journal_io io_flush;;
  journal_io sync_all;;
  modify (tail_cut length).

(** The authorization is advanced in place, also when the append then fails. *)
Definition authorized_append (authorization : JournalAuthorization) (record : JournalRecord) (j : FileJournal)
  : result JournalError unit * JournalAuthorization * FileJournal :=
  let advanced j := mkAuthorization (authorized_identity authorization) (file_generation j) in
  if poisoned j then (Err (may_have_appended 8), authorization, j)
  else
    match require_active j with
    | (Err e, j) => (Err e, authorization, j)
    | (Ok _, j) =>
        if negb (authorized_identity authorization =? file_identity j)
           || negb (authorized_generation authorization =? file_generation j)
        then (Err (not_appended 2), authorization, j)
        else
          let '(cut, authorization, j) :=
            match torn_prefix j with
            | Some valid_bytes =>
                match cut_torn_tail valid_bytes j with
                | (Ok _, j) => (Ok tt, advanced j, j)
                | (Err e, j) => (Err e, authorization, j)
                end
            | None => (Ok tt, authorization, j)
            end in
          match cut with
          | Err e => (Err e, authorization, j)
          | Ok _ =>
              match append record j with
              | (Err e, j) => (Err e, authorization, j)
              | (Ok _, j) => (Ok tt, advanced j, j)
              end
          end
    end.

(** The first record: an intent, after which a candidate is promoted. *)
Definition file_begin (plan : PlanId) (steps : list JournalStep) : SE FileJournal JournalError unit := fun j =>
  if poisoned j then (Err (may_have_appended 8), j)
  else if negb (bool_decide (file_records j = [])) then (Err (not_appended 1), j)
  else (append (Intent plan steps);; promote_candidate) j.
Definition active_append (record : JournalRecord) : SE FileJournal JournalError unit :=
  require_active;; append record.
Definition file_snapshot : SE FileJournal JournalError JournalSnapshot :=
  require_active;;
  j ← SE_get;
  mret (mkJournalSnapshot (file_records j) (mkAuthorization (file_identity j) (file_generation j))).

#[export] Instance FileJournal_store : JournalStore FileJournal := {
  journal_begin := file_begin;
  journal_prepared step direction := active_append (Prepared step direction);
  journal_completed step direction := active_append (Completed step direction);
  journal_not_applied step direction := active_append (NotAppliedRecord step direction);
  journal_terminal terminal := active_append (Terminal terminal)
}.
#[export] Instance FileJournal_authorized : AuthorizedJournal FileJournal := {
  authorized_snapshot := file_snapshot;
  authorized_prepared a step direction := authorized_append a (Prepared step direction);
  authorized_completed a step direction := authorized_append a (Completed step direction);
  authorized_not_applied a step direction := authorized_append a (NotAppliedRecord step direction);
  authorized_terminal a terminal := authorized_append a (Terminal terminal)
}.

(** ** Creating *)

(** [validate_windows_leaf_name] of the leaf; the path below the root. *)
Definition child (root : JournalRoot) (leaf : LegacyText) : result FileJournalError JournalPath :=
  match validate_windows_leaf_name leaf with
  | Err _ => Err (mkFileError InvalidLeaf None)
  | Ok _ => Ok (mkJournalPath (root_path root) leaf)
  end.

(** File type and reparse attribute, from the metadata of an open file. *)
Record FileType : Type := mkFileType { is_regular : bool; is_reparse : bool }.
Definition validate_file_type (metadata : result IoError FileType) : result FileJournalError unit :=
  metadata ← map_err file_error_of_io metadata;
  if negb (is_regular metadata) || is_reparse metadata then Err (mkFileError InvalidFileType None) else Ok tt.

(** What the system answers while a journal is created: the script of the new,
    empty file, its metadata, its private state, and the clones of the root's
    handles. *)
Record CreateAnswers : Type := mkCreateAnswers {
  created : result IoError (list IoAnswer);
  created_type : result IoError FileType;
  created_private : result IoError unit;
  created_root : result IoError unit;
  created_chain : result IoError unit
}.
(** [next_file_identity() ^ root_identity.rotate_left(29)], with the next value
    of the process-wide counter. *)
Definition combined_identity (fresh root_identity : Z) : Z :=
  Z.lxor fresh (Z.lor (Z.shiftl root_identity 29 mod 2 ^ 64) (Z.shiftr root_identity 35)).

Definition create_at (root : JournalRoot) (path : JournalPath) (fresh : Z) (phase : FileJournalPhase)
    (system : CreateAnswers) : result FileJournalError FileJournal :=
  script ← map_err file_error_of_io (created system);
  _ ← validate_file_type (created_type system);
  _ ← map_err file_error_of_io (created_private system);
  _ ← map_err file_error_of_io (created_root system);
  _ ← map_err file_error_of_io (created_chain system);
  Ok (mkFileJournal path (root_identity root) (mkOpenFile [] 0 (path_leaf path) false script) []
        (combined_identity fresh (root_identity root)) 0 0 0 None None false phase).
Definition create_new (root : JournalRoot) (leaf : LegacyText) (fresh : Z) (system : CreateAnswers)
  : result FileJournalError FileJournal :=
  path ← child root leaf;
  create_at root path fresh Active system.
Definition create_candidate (root : JournalRoot) (candidate_leaf active_leaf : LegacyText) (fresh : Z)
    (system : CreateAnswers) : result FileJournalError FileJournal :=
  candidate_path ← child root candidate_leaf;
  active_path ← child root active_leaf;
  if bool_decide (candidate_path = active_path) then Err (mkFileError InvalidLeaf None)
  else create_at root candidate_path fresh (Candidate active_path active_leaf) system.

(** ** Reopening *)

(** What the system answers while a journal is opened: whether the leaf is a
    link, the file, its metadata, its private state, whether it has one link
    only, and the clones of the root's handles. *)
Record OpenAnswers : Type := mkOpenAnswers {
  leaf_is_link : result IoError bool;
  opened : result IoError OpenFile;
  opened_type : result IoError FileType;
  opened_private : result IoError unit;
  has_one_link : result IoError bool;
  opened_root : result IoError unit;
  opened_chain : result IoError unit
}.
Definition existing_evidence_error (path : JournalPath) (f : OpenFile) (byte_len : nat)
    (failure : JournalOpenFailure) : ExistingJournalOpenError :=
  mkOpenError path failure (Some (mkEvidence path f byte_len failure)).
Definition reject_final_link (is_link : result IoError bool) : result FileJournalError unit :=
  is_link ← map_err file_error_of_io is_link;
  if is_link : bool then Err (mkFileError InvalidFileType None) else Ok tt.

(** The validated file's bytes, read from its start. *)
Definition read_journal : IO (list Z) :=
  seek_start 0;; read_to_end (saturating_add MAX_JOURNAL_FILE_BYTES 1).

(** From the opened handle on, every failure retains the file as evidence. *)
Definition resume_opened (root : JournalRoot) (path : JournalPath) (fresh : Z) (system : OpenAnswers) (f : OpenFile)
  : result ExistingJournalOpenError FileJournal :=
  let evidence {A} f byte_len failure : result ExistingJournalOpenError A :=
    Err (existing_evidence_error path f byte_len failure) in
  let invalid {A} f byte_len error : result ExistingJournalOpenError A :=
    evidence f byte_len (from_file_error StageValidate error) in
  match opened_type system with
  | Err error => invalid f 0%nat (file_error_of_io error)
  | Ok metadata =>
      let byte_len := length (contents f) in
      match opened_private system, has_one_link system with
      | Err error, _ => invalid f byte_len (file_error_of_io error)
      | Ok _, Err error => invalid f byte_len (file_error_of_io error)
      | Ok _, Ok one_link =>
          if negb (is_regular metadata) || is_reparse metadata || negb one_link
          then invalid f byte_len (mkFileError InvalidFileType None)
          else if MAX_JOURNAL_FILE_BYTES <? Z.of_nat byte_len
          then invalid f byte_len (mkFileError (FileCodec FileTooLarge) None)
          else
            match read_journal f with
            | (Err error, f) => evidence f byte_len (from_file_error StageRead (file_error_of_io error))
            | (Ok bytes, f) =>
                if MAX_JOURNAL_FILE_BYTES <? zlen bytes
                then invalid f byte_len (mkFileError (FileCodec FileTooLarge) None)
                else
                  match inspect_journal_records bytes with
                  | Err error => evidence f byte_len (from_codec error)
                  | Ok inspection =>
                      match seek_end f with
                      | (Err error, f) => evidence f byte_len (from_file_error StageRead (file_error_of_io error))
                      | (Ok _, f) =>
                          let records := inspected_records inspection in
                          if u64_max <? zlen records
                          then evidence f byte_len (from_file_error StageDecode (mkFileError (FileCodec TooManyFrames) None))
                          else
                            match opened_root system, opened_chain system with
                            | Err error, _ => invalid f byte_len (file_error_of_io error)
                            | Ok _, Err error => invalid f byte_len (file_error_of_io error)
                            | Ok _, Ok _ =>
                                Ok (mkFileJournal path (root_identity root) f records
                                      (combined_identity fresh (root_identity root)) (zlen records) (zlen records)
                                      (length bytes) ((fun _ => valid_bytes inspection) <$> inspection_issue inspection)
                                      (inspection_issue inspection) false Active)
                            end
                      end
                  end
            end
      end
  end.
Definition open_existing_retained (root : JournalRoot) (leaf : LegacyText) (fresh : Z) (system : OpenAnswers)
  : result ExistingJournalOpenError FileJournal :=
  let path := mkJournalPath (root_path root) leaf in
  let unavailable {A} stage error : result ExistingJournalOpenError A :=
    Err (mkOpenError path (from_file_error stage error) None) in
  match child root leaf with
  | Err error => unavailable StageValidate error
  | Ok path =>
      match reject_final_link (leaf_is_link system) with
      | Err error => unavailable StageValidate error
      | Ok _ =>
          match opened system with
          | Err error => unavailable StageOpen (file_error_of_io error)
          | Ok f => resume_opened root path fresh system f
          end
      end
  end.
Definition open_existing (root : JournalRoot) (leaf : LegacyText) (fresh : Z) (system : OpenAnswers)
  : result FileJournalError FileJournal :=
  map_err (fun error => as_file_error (error_failure error)) (open_existing_retained root leaf fresh system).
Definition into_existing_error (failure : JournalOpenFailure) (j : FileJournal) : ExistingJournalOpenError :=
  mkOpenError (file_path j) failure (Some (mkEvidence (file_path j) (file j) (byte_length j) failure)).

(** At most one record, and an intent. *)
Definition at_most_intent (records : list JournalRecord) : bool :=
  match records with [] | [Intent _ _] => true | _ => false end.
Definition open_candidate_existing_retained (root : JournalRoot) (candidate_leaf active_leaf : LegacyText)
    (fresh : Z) (system : OpenAnswers) : result ExistingJournalOpenError FileJournal :=
  match child root active_leaf with
  | Err error =>
      Err (mkOpenError (mkJournalPath (root_path root) active_leaf) (from_file_error StageValidate error) None)
  | Ok active_path =>
      j ← open_existing_retained root candidate_leaf fresh system;
      if negb (at_most_intent (file_records j))
      then Err (into_existing_error (from_file_error StageValidate (mkFileError InvalidCandidateState None)) j)
      else Ok (set_phase (Candidate active_path active_leaf) j)
  end.
Definition open_candidate_existing (root : JournalRoot) (candidate_leaf active_leaf : LegacyText) (fresh : Z)
    (system : OpenAnswers) : result FileJournalError FileJournal :=
  map_err (fun error => as_file_error (error_failure error))
    (open_candidate_existing_retained root candidate_leaf active_leaf fresh system).

(** ** Deleting *)

Definition is_terminal (j : FileJournal) : bool :=
  match last (file_records j) with Some (Terminal _) => true | _ => false end.
Definition is_candidate (j : FileJournal) : bool := match phase j with Candidate _ _ => true | _ => false end.
Definition intact (j : FileJournal) : bool :=
  bool_decide (torn_prefix j = None) && match file_tail_issue j with None => true | Some _ => false end.
Definition is_physically_empty_candidate (j : FileJournal) : bool :=
  is_candidate j && negb (poisoned j) && (byte_length j =? 0)%nat && bool_decide (file_records j = []) && intact j.
Definition is_complete_intent_candidate (j : FileJournal) : bool :=
  is_candidate j && negb (poisoned j) && (0 <? byte_length j)%nat
  && match file_records j with [Intent _ _] => true | _ => false end && intact j.

Definition mark_delete_if_safe : SE FileJournal FileJournalError unit := fun j =>
  let safe :=
    negb (poisoned j)
    && match phase j with
       | Active =>
           intact j
           && (bool_decide (file_records j = [])
               || is_terminal j && bool_decide (replay_journal (file_records j) = Clean))
       | Candidate _ _ => is_physically_empty_candidate j
       | PromotionUncertain => false
       end in
  if negb safe then (Err unsafe_cleanup_error, j) else on_file file_error_of_io mark_retained_file_delete j.

(** The active leaf is probed relative to the root just before. *)
Definition mark_unactivated_intent_delete : SE FileJournal FileJournalError unit := fun j =>
  match phase j with
  | Candidate _ _ =>
      if negb (is_complete_intent_candidate j) then (Err unsafe_cleanup_error, j)
      else
        match open_existing_leaf (file j) with
        | (Ok _, f) => (Err unsafe_cleanup_error, set_file f j)
        | (Err (Some code), f) =>
            if (code =? 2) || (code =? 3) then on_file file_error_of_io mark_retained_file_delete (set_file f j)
            else if (code =? 32) || (code =? 33) then (Err unsafe_cleanup_error, set_file f j)
            else (Err (file_error_of_io (Some code)), set_file f j)
        | (Err None, f) => (Err (file_error_of_io None), set_file f j)
        end
  | _ => (Err unsafe_cleanup_error, j)
  end.

(** ** Exporting the exact bytes *)

Definition read_retained_bytes (byte_len : nat) : IO (list Z) :=
  if MAX_JOURNAL_FILE_BYTES <? Z.of_nat byte_len then SE_throw None
  else
    seek_start 0;;
    bytes ← read_to_end (saturating_add (Z.of_nat byte_len) 1);
    if negb (length bytes =? byte_len)%nat then SE_throw None else mret bytes.
(** The bytes written, flushed and synced. *)
Definition write_copy (bytes : list Z) : IO unit := write_all bytes;; io_flush;; sync_all.

(** Calls on the retained file and on the destination. *)
Definition on_source {O A} (m : IO A) : SE (OpenFile * O) IoError A := fun '(source, output) =>
  let (r, source) := m source in (r, (source, output)).
Definition on_output {A} (m : IO A) : SE (OpenFile * OpenFile) IoError A := fun '(source, output) =>
  let (r, output) := m output in (r, (source, output)).
(** The error of a failed copy is made anew, without a system code. *)
Definition copy_failed {S A} (m : SE S IoError A) : SE S IoError A := fun s =>
  let (r, s) := m s in (map_err (fun _ => None) r, s).

Definition copy_retained_bytes_to_file (byte_len : nat) : SE (OpenFile * OpenFile) IoError nat :=
  output_position ← on_output stream_position;
  (if negb (output_position =? 0)%nat then SE_throw None
   else
     output_len ← on_output metadata_len;
     if negb (output_len =? 0)%nat then SE_throw None
     else
       copy_failed (bytes ← on_source (read_retained_bytes byte_len); on_output (write_copy bytes));;
       mret byte_len).
(** The destination is created new, after the bytes were read. *)
Definition write_new (destination : LegacyText) (script : list IoAnswer) (bytes : list Z) (byte_len : nat)
  : SE (OpenFile * option OpenFile) IoError nat := fun '(source, _) =>
  let (r, output) := copy_failed (write_copy bytes) (mkOpenFile [] 0 destination false script) in
  (match r with Ok _ => Ok byte_len | Err e => Err e end, (source, Some output)).
Definition copy_retained_bytes (destination : LegacyText) (create : result IoError (list IoAnswer)) (byte_len : nat)
  : SE (OpenFile * option OpenFile) IoError nat :=
  bytes ← on_source (read_retained_bytes byte_len);
  script ← SE_lift create;
  write_new destination script bytes byte_len.

Definition copy_exact_with {O} (copy : nat -> SE (OpenFile * O) IoError nat) : SE (FileJournal * O) IoError nat :=
  fun '(j, output) =>
    let (position, f) := stream_position (file j) in
    let j := set_file f j in
    match position with
    | Err e => (Err e, (j, output))
    | Ok original =>
        let expected := byte_length j in
        if negb (original =? expected)%nat then (Err None, (set_poisoned true j, output))
        else
          let '(copied, (f, output)) := copy expected (file j, output) in
          match seek_start original f with
          | (Err _, f) => (Err None, (set_poisoned true (set_file f j), output))
          | (Ok _, f) => (copied, (set_file f j, output))
          end
    end.
Definition copy_exact_to_file : SE (FileJournal * OpenFile) IoError nat := copy_exact_with copy_retained_bytes_to_file.
Definition copy_exact_to_new (destination : LegacyText) (create : result IoError (list IoAnswer))
  : SE (FileJournal * option OpenFile) IoError nat :=
  copy_exact_with (copy_retained_bytes destination create).

(** The evidence of a journal that did not open is exported the same way. *)
Definition evidence_copy_exact_to_file (e : RecoveryJournalEvidence) (output : OpenFile)
  : result IoError nat * (RecoveryJournalEvidence * OpenFile) :=
  let '(r, (f, output)) := copy_retained_bytes_to_file (evidence_byte_len e) (evidence_file e, output) in
  (r, (mkEvidence (evidence_path e) f (evidence_byte_len e) (evidence_failure e), output)).
