(* ===== verification/FileJournalCorrect.v ===== *)
(** * FileJournalCorrect: the bytes on disk are the log

    The invariant of the durable journal: its file holds the frames of a list of
    records and at most a strict prefix of one more frame, and while the journal
    is not poisoned these are the records it shows.  Every operation keeps it,
    whatever the calls on the file answer. *)

From S2P Require Import Prelude Collections LegacyText RenameModel Journal Codec CodecCorrect FileJournal.

(** ** Logs *)

(** [bytes] starts with the encoding of [records], which takes [valid] bytes; the
    rest is the beginning of a next frame that was not completed. *)
Record log_bytes (bytes : list Z) (records : list JournalRecord) (valid : nat) : Prop := mkLogBytes {
  log_valid : (valid <= length bytes)%nat;
  log_encoded : encode_journal_records records = Ok (take valid bytes);
  log_size : zlen bytes <= MAX_JOURNAL_FILE_BYTES;
  log_tail : (valid < length bytes)%nat ->
    zlen records < MAX_JOURNAL_FRAMES /\
    exists record frame, encode_frame (length records) (zlen records) record = Ok frame /\
      (length bytes - valid < length frame)%nat /\ drop valid bytes = take (length bytes - valid) frame
}.

Lemma frames_rel_snoc index rs fs r f :
  frames_rel index rs fs -> frame_of (index + length rs) r f -> frames_rel index (rs ++ [r]) (fs ++ [f]).
Proof.
  revert index fs. induction rs as [|r0 rs IH]; intros index [|f0 fs] Hrel Hf; try done.
  - rewrite Nat.add_0_r in Hf. done.
  - destruct Hrel as [? Hrel]. split; [done|]. apply IH; [done|]. cbn [length] in Hf. by rewrite Nat.add_succ_comm.
Qed.
Lemma encode_frame_length index r f : encode_frame index (Z.of_nat index) r = Ok f -> (HEADER_BYTES <= length f)%nat.
Proof. intros Hf%encode_frame_Ok. by eapply frame_length. Qed.

(** A log grows by whole frames. *)
Lemma encode_journal_snoc records bytes r f :
  encode_journal_records records = Ok bytes -> encode_frame (length records) (zlen records) r = Ok f ->
  zlen records < MAX_JOURNAL_FRAMES -> zlen (bytes ++ f) <= MAX_JOURNAL_FILE_BYTES ->
  encode_journal_records (records ++ [r]) = Ok (bytes ++ f).
Proof.
  intros (fs & Hrel & -> & _ & _)%encode_journal_frames Hf%encode_frame_Ok Hn Hl.
  unfold encode_journal_records. rewrite zlen_app. change (zlen [r]) with 1.
  rewrite (proj2 (Z.ltb_ge _ _)) by lia.
  assert (concat fs ++ f = concat (fs ++ [f])) as He by (rewrite concat_app; cbn; by rewrite app_nil_r).
  rewrite He in *. apply (encode_frames_rel 0 []); [by apply frames_rel_snoc| |done].
  rewrite length_app. unfold zlen in Hn. unfold MAX_JOURNAL_FRAMES, MAX_JOURNAL_STEPS, u64_max in *. cbn [length]. lia.
Qed.
Lemma encode_journal_bound records bytes : encode_journal_records records = Ok bytes -> zlen records <= MAX_JOURNAL_FRAMES.
Proof. by intros (? & _ & _ & ? & _)%encode_journal_frames. Qed.

Lemma log_complete records bytes :
  encode_journal_records records = Ok bytes -> zlen bytes <= MAX_JOURNAL_FILE_BYTES -> log_bytes bytes records (length bytes).
Proof. intros He Hl. split; [done|by rewrite firstn_all|done|lia]. Qed.
Lemma log_empty : log_bytes [] [] 0.
Proof. by apply (log_complete [] []). Qed.
(** Cutting the tail off. *)
Lemma log_cut bytes records valid : log_bytes bytes records valid -> log_bytes (take valid bytes) records valid.
Proof.
  intros [Hv He Hl _]. assert (length (take valid bytes) = valid) as Hlen by (rewrite length_take; lia).
  split; [lia|by rewrite take_idemp|unfold zlen in *; lia|lia].
Qed.
(** A write that stopped after [written] bytes of the next frame. *)
Lemma log_partial bytes records r f written :
  encode_journal_records records = Ok bytes -> encode_frame (length records) (zlen records) r = Ok f ->
  zlen records < MAX_JOURNAL_FRAMES -> zlen (bytes ++ f) <= MAX_JOURNAL_FILE_BYTES ->
  if (length f <=? written)%nat
  then log_bytes (bytes ++ take written f) (records ++ [r]) (length (bytes ++ f))
  else log_bytes (bytes ++ take written f) records (length bytes).
Proof.
  intros He Hf Hn Hl. destruct (Nat.leb_spec (length f) written).
  - rewrite (take_ge f) by done. apply log_complete; [by apply encode_journal_snoc|done].
  - rewrite zlen_app in Hl. assert (length (bytes ++ take written f) = length bytes + written)%nat as Hlen.
    { rewrite length_app, length_take. lia. }
    split; [lia|by rewrite take_app_length|unfold zlen in *; lia|]. intros _. split; [done|]. exists r, f.
    split; [done|]. rewrite drop_app_length, Hlen. split; [lia|]. f_equal. lia.
Qed.

(** ** Inspection of a log *)

Lemma inspect_frames_skip fuel rs : forall pre fs tail done,
  frames_rel (length done) rs fs -> Forall record_ok rs -> zlen done + zlen rs <= MAX_JOURNAL_FRAMES ->
  zlen (pre ++ concat fs ++ tail) <= MAX_JOURNAL_FILE_BYTES ->
  inspect_frames (length rs + fuel) (pre ++ concat fs ++ tail) done (length pre) =
  inspect_frames fuel (pre ++ concat fs ++ tail) (done ++ rs) (length (pre ++ concat fs)).
Proof.
  induction rs as [|r rs IH]; intros pre [|f fs] tail done Hrel Hok Hn Hl; try by destruct Hrel.
  - cbn [concat length app Nat.add]. by rewrite !app_nil_r.
  - destruct Hrel as [Hf Hrel]. apply Forall_cons in Hok as [Hr Hok]. rewrite zlen_cons in Hn.
    pose proof (zlen_nonneg rs). cbn [concat length Nat.add]. rewrite <-app_assoc in *. cbn [concat] in Hl. rewrite <-?app_assoc in Hl.
    rewrite (inspect_complete (length rs + fuel) pre f (concat fs ++ tail) done r Hr Hf); [|by split; [lia|]].
    specialize (IH (pre ++ f) fs tail (done ++ [r])). rewrite <-!app_assoc in IH. cbn [app] in IH. rewrite IH; [done| |done| |done].
    + rewrite length_app. cbn [length]. by rewrite Nat.add_1_r.
    + rewrite zlen_app. change (zlen [r]) with 1. lia.
Qed.

Lemma frames_count index rs fs : frames_rel index rs fs -> (24 * length rs <= length (concat fs))%nat.
Proof.
  revert index fs. induction rs as [|r rs IH]; intros index [|f fs] Hrel; try by destruct Hrel.
  destruct Hrel as [Hf%frame_length Hrel]. apply IH in Hrel. cbn [concat length]. rewrite length_app.
  unfold HEADER_BYTES in Hf. lia.
Qed.
Lemma inspect_at_end fuel bytes records offset :
  (length bytes <= offset)%nat -> inspect_frames fuel bytes records offset = finish_inspection records None offset.
Proof. intros H. destruct fuel; [done|]. cbn [inspect_frames]. by rewrite (proj2 (Nat.ltb_ge _ _)). Qed.

(** The loop over the frames shows exactly the log. *)
Lemma inspect_log_frames bytes records valid :
  log_bytes bytes records valid -> Forall record_ok records ->
  exists issue, inspect_journal_records bytes = finish_inspection records issue valid /\
    (issue = None <-> valid = length bytes).
Proof.
  intros [Hv He Hl Htail] Hok. destruct (encode_journal_frames _ _ He) as (fs & Hrel & Hfs & Hn & _).
  pose proof (frames_count _ _ _ Hrel) as Hcount.
  assert (length (concat fs) = valid) as Hvalid by (rewrite <-Hfs, length_take; lia).
  unfold inspect_journal_records. rewrite (proj2 (Z.ltb_ge _ _)) by done.
  assert (bytes = [] ++ concat fs ++ drop valid bytes) as Hb by (cbn [app]; rewrite <-Hfs; symmetry; apply take_drop).
  pose proof (inspect_frames_skip (length bytes - length records) records [] fs (drop valid bytes) []) as Hskip.
  rewrite <-Hb in Hskip. cbn [app length] in Hskip. rewrite Hvalid in Hskip.
  replace (length records + (length bytes - length records))%nat with (length bytes) in Hskip by lia.
  rewrite Hskip by (done || (cbn; lia)). clear Hskip.
  destruct (Nat.eq_dec valid (length bytes)) as [Heq|Hne].
  - exists None. split; [apply inspect_at_end; lia|done].
  - destruct Htail as (Hroom & r & f & Hf%encode_frame_Ok & Hlt & Hdrop); [lia|].
    destruct (length bytes - length records)%nat as [|fuel] eqn:Hfuel; [lia|].
    cbn [app] in Hb. rewrite Hdrop in Hb.
    pose proof (inspect_torn fuel (concat fs) f (length bytes - valid) records r Hf) as Htorn.
    rewrite <-Hb, Hvalid in Htorn. eexists. split; [apply Htorn; [lia|done]|]. split; [done|lia].
Qed.
(** Inspection is an error when not even the first frame is whole. *)
Lemma inspect_log bytes records valid :
  log_bytes bytes records valid -> Forall record_ok records -> is_corrupt (replay_journal records) = false ->
  if bool_decide (records = []) && (0 <? length bytes)%nat
  then inspect_journal_records bytes = Err (mkCodecError 0 TruncatedFrame)
  else exists issue, inspect_journal_records bytes = Ok (mkInspection records issue valid) /\
       (issue = None <-> valid = length bytes).
Proof.
  intros Hlog Hok Hc. destruct (inspect_log_frames _ _ _ Hlog Hok) as (issue & -> & Hissue).
  pose proof (log_valid _ _ _ Hlog) as Hv. unfold finish_inspection. rewrite Hc.
  destruct (Nat.ltb_spec 0 (length bytes)) as [Hpos|Hzero].
  - case_bool_decide as Hnil; cbn [andb].
    + assert (valid = 0)%nat as ->.
      { pose proof (log_encoded _ _ _ Hlog) as He. rewrite Hnil in He. cbn in He. apply Ok_inj in He.
        apply (f_equal length) in He. rewrite length_take in He. cbn in He. lia. }
      rewrite bool_decide_true; [done|]. destruct issue; [by eexists|]. destruct Hissue as [Hi _]. specialize (Hi eq_refl). lia.
    + rewrite andb_false_r. by exists issue.
  - rewrite andb_false_r. assert (issue = None) as -> by (apply Hissue; lia). cbn [andb]. exists None. split; [done|].
    split; [lia|done].
Qed.

(** ** Calls on the file *)

Lemma io_call_spec {A} partial effect (value : OpenFile -> A) f r f' :
  io_call partial effect value f = (r, f') ->
  exists f0, contents f0 = contents f /\ cursor f0 = cursor f /\ linked_as f0 = linked_as f /\
    delete_pending f0 = delete_pending f /\
    match r with
    | Ok a => a = value f0 /\ f' = effect f0
    | Err _ => exists written, f' = partial written f0
    end.
Proof.
  unfold io_call, next_answer. destruct (script f) as [|[|error written] rest]; intros [= <- <-];
    eexists; (split; [|split; [|split; [|split; [|first [split; reflexivity|by eexists]]]]]); done.
Qed.
(** A call that leaves bytes and cursor alone. *)
Lemma io_neutral {A} (value : OpenFile -> A) f r f' :
  io_call (fun _ f => f) (fun f => f) value f = (r, f') -> contents f' = contents f /\ cursor f' = cursor f.
Proof. intros (f0 & Hc & Hn & _ & _ & Hr)%io_call_spec. destruct r; [destruct Hr as [_ ->]|destruct Hr as [_ ->]]; done. Qed.

Lemma write_all_spec bytes f r f' :
  cursor f = length (contents f) -> write_all bytes f = (r, f') ->
  match r with
  | Ok _ => contents f' = contents f ++ bytes /\ cursor f' = length (contents f')
  | Err _ => exists written, contents f' = contents f ++ take written bytes
  end.
Proof.
  intros Hend (f0 & Hc & Hn & _ & _ & Hr)%io_call_spec. destruct r as [u|e].
  - destruct Hr as [_ ->]. cbn. rewrite Hn, Hc, Hend, firstn_all, drop_ge, app_nil_r by lia. by rewrite length_app.
  - destruct Hr as [written ->]. exists written. cbn.
    by rewrite Hn, Hc, Hend, firstn_all, drop_ge, app_nil_r by (rewrite ?length_take; lia).
Qed.
Lemma write_copy_spec bytes f r f' :
  cursor f = length (contents f) -> write_copy bytes f = (r, f') ->
  match r with
  | Ok _ => contents f' = contents f ++ bytes /\ cursor f' = length (contents f')
  | Err _ => exists written, contents f' = contents f ++ take written bytes
  end.
Proof.
  intros Hend. unfold write_copy, mbind, SE_bind. destruct (write_all bytes f) as [[u|e] f1] eqn:Hw;
    apply (write_all_spec _ _ _ _ Hend) in Hw; [|by intros [= <- <-]].
  destruct Hw as [Hc Hn]. assert (contents f1 = contents f ++ take (length bytes) bytes) as Hc' by by rewrite firstn_all.
  destruct (io_flush f1) as [[u2|e] f2] eqn:Hf; apply io_neutral in Hf as [Hc2 Hn2].
  - destruct (sync_all f2) as [r3 f3] eqn:Hs. apply io_neutral in Hs as [Hc3 Hn3]. intros [= <- <-].
    rewrite Hc3, Hn3, Hc2, Hn2. destruct r3; [by split|]. by exists (length bytes).
  - intros [= <- <-]. exists (length bytes). by rewrite Hc2.
Qed.

Lemma on_file_bind {E A B} (convert : IoError -> E) (m : IO A) (k : A -> IO B) j :
  (on_file convert m ≫= fun a => on_file convert (k a)) j = on_file convert (m ≫= k) j.
Proof.
  unfold on_file, mbind, SE_bind. destruct (m (file j)) as [[a|e] f]; cbn [map_err]; [|done].
  change (file (set_file f j)) with f. by destruct (k a f) as [r f'].
Qed.

(** ** The invariant *)

Record healthy (j : FileJournal) (records : list JournalRecord) (valid : nat) : Prop := mkHealthy {
  healthy_records : file_records j = records;
  healthy_sequence : next_sequence j = zlen records;
  healthy_cursor : cursor (file j) = length (contents (file j));
  healthy_length : byte_length j = length (contents (file j));
  healthy_tail : match torn_prefix j with
                 | Some v => v = valid /\ (valid < length (contents (file j)))%nat /\ is_Some (file_tail_issue j)
                 | None => valid = length (contents (file j)) /\ file_tail_issue j = None
                 end
}.
(** The file of [j] holds the log [records], which a journal that is not poisoned
    also shows. *)
Definition logged (j : FileJournal) (records : list JournalRecord) : Prop :=
  exists valid, log_bytes (contents (file j)) records valid /\ (poisoned j = false -> healthy j records valid).

(** The log after a call that tried to append [record]: one longer exactly when
    the whole frame has reached the file. *)
Definition observed (record : JournalRecord) (records : list JournalRecord) (bytes : list Z) : list JournalRecord :=
  match encode_journal_records records, encode_frame (length records) (zlen records) record with
  | Ok base, Ok frame => if bool_decide (bytes = base ++ frame) then records ++ [record] else records
  | _, _ => records
  end.
Lemma observed_cases record records bytes :
  observed record records bytes = records \/ observed record records bytes = records ++ [record].
Proof. unfold observed. repeat case_match; auto. Qed.
(** A torn frame is never a whole one: its header tells how long it is. *)
Lemma frame_payload_length index r f : frame_of index r f ->
  length f = (HEADER_BYTES + Z.to_nat (le_value (sub (take HEADER_BYTES f) 16 20)))%nat.
Proof.
  intros (k & p & _ & Hp & ->). pose proof (length_header k (Z.of_nat index) p) as Hh.
  rewrite take_app_le, take_ge by (rewrite Hh; lia).
  destruct (sub_header k (Z.of_nat index) p) as (_ & _ & _ & _ & _ & -> & _).
  pose proof (zlen_nonneg p). rewrite le_value_bytes by (unfold MAX_JOURNAL_FRAME_BYTES in *; simpl; lia).
  rewrite length_app, Hh. unfold zlen. lia.
Qed.
Lemma torn_not_whole index r f r' g m : frame_of index r f -> frame_of index r' g -> f = take m g -> (length g <= m)%nat.
Proof.
  intros Hf Hg Heq. pose proof (frame_length _ _ _ Hf) as Hlen. rewrite Heq, length_take in Hlen.
  apply frame_payload_length in Hf, Hg. rewrite Heq, take_take, length_take, (Nat.min_l HEADER_BYTES m) in Hf by lia. lia.
Qed.
Lemma observed_same record records bytes valid : log_bytes bytes records valid -> observed record records bytes = records.
Proof.
  intros [Hv He Hl Htail]. unfold observed. rewrite He. destruct (encode_frame _ _ _) as [f|] eqn:Hf; [|done].
  case_bool_decide as Heq; [|done]. exfalso. rewrite <-(take_drop valid bytes) in Heq at 1. apply app_inv_head in Heq.
  pose proof (encode_frame_length _ _ _ Hf) as Hlen. unfold HEADER_BYTES in Hlen.
  destruct (Nat.eq_dec valid (length bytes)) as [Hend|Hne].
  - rewrite drop_ge in Heq by lia. rewrite <-Heq in Hlen. cbn in Hlen. lia.
  - destruct Htail as (_ & r' & g & Hg & Hlt & Hdrop); [lia|]. rewrite Hdrop in Heq.
    apply encode_frame_Ok in Hf, Hg. pose proof (torn_not_whole _ _ _ _ _ _ Hf Hg (eq_sym Heq)). lia.
Qed.
Lemma observed_written record records base frame written :
  encode_journal_records records = Ok base -> encode_frame (length records) (zlen records) record = Ok frame ->
  observed record records (base ++ take written frame) =
    if (length frame <=? written)%nat then records ++ [record] else records.
Proof.
  intros He Hf. unfold observed. rewrite He, Hf. destruct (Nat.leb_spec (length frame) written).
  - rewrite take_ge by done. by rewrite bool_decide_true.
  - rewrite bool_decide_false; [done|]. intros Heq%app_inv_head.
    apply (f_equal length) in Heq. rewrite length_take in Heq. lia.
Qed.

(** ** Operations keep it *)

(** What an append did: [r] is its result, [j'] the journal after it. *)
Definition append_outcome (record : JournalRecord) (records : list JournalRecord) (j j' : FileJournal)
    (r : result JournalError unit) : Prop :=
  logged j' (observed record records (contents (file j'))) /\
  match r with
  | Ok _ => observed record records (contents (file j')) = records ++ [record] /\
      poisoned j' = false /\ torn_prefix j' = None
  | Err e => (append_certainty e = MayHaveAppended /\ poisoned j' = true) \/
      (append_certainty e = NotAppended /\ observed record records (contents (file j')) = records /\ poisoned j' = poisoned j)
  end.
Lemma append_refused record records j e :
  logged j records -> (append_certainty e = MayHaveAppended -> poisoned j = true) -> append_outcome record records j j (Err e).
Proof.
  intros Hj He. destruct Hj as (valid & Hlog & Hh). split.
  - rewrite (observed_same _ _ _ _ Hlog). by exists valid.
  - destruct (append_certainty e) eqn:Hc; [right|left]; [|auto]. split; [done|]. split; [|done].
    by rewrite (observed_same _ _ _ _ Hlog).
Qed.
Lemma logged_poisoned j records valid : log_bytes (contents (file j)) records valid -> poisoned j = true -> logged j records.
Proof. intros Hlog Hp. exists valid. split; [done|]. by rewrite Hp. Qed.

Lemma append_unfold record j frame :
  poisoned j = false -> torn_prefix j = None -> zlen (file_records j) < MAX_JOURNAL_FRAMES ->
  encode_frame (length (file_records j)) (next_sequence j) record = Ok frame ->
  saturating_add (Z.of_nat (byte_length j)) (zlen frame) <= MAX_JOURNAL_FILE_BYTES ->
  append record j =
  match journal_io (write_copy frame) (set_poisoned true j) with
  | (Ok _, j) => (Ok tt, record_appended record frame j)
  | (Err e, j) => (Err e, j)
  end.
Proof.
  intros Hp Ht Hn Hf Hl. unfold append. rewrite Hp, Ht, Hf. cbn [bool_decide]. rewrite bool_decide_false by (by intros [? ?]).
  rewrite (proj2 (Z.leb_gt _ _)), (proj2 (Z.ltb_ge _ _)) by done. unfold journal_io, write_copy, on_file, mbind, SE_bind, modify.
  destruct (write_all frame _) as [[[]|e] f1]; cbn [map_err]; [|done]. change (file (set_file f1 _)) with f1.
  destruct (io_flush f1) as [[[]|e] f2]; cbn [map_err]; [|done]. change (file (set_file f2 _)) with f2.
  destruct (sync_all f2) as [[[]|e] f3]; done.
Qed.

Lemma append_logged record records j r j' :
  logged j records -> append record j = (r, j') -> append_outcome record records j j' r.
Proof.
  intros Hj. assert (forall e, (append_certainty e = MayHaveAppended -> poisoned j = true) ->
    (Err e, j) = (r, j') -> append_outcome record records j j' r) as Hrefuse.
  { intros e He [= <- <-]. by apply append_refused. }
  destruct (poisoned j) eqn:Hp; [unfold append; rewrite Hp; by apply Hrefuse|].
  destruct Hj as (valid & Hlog & Hh). destruct (Hh Hp) as [Hrec Hseq Hcur Hlen Htail].
  destruct (torn_prefix j) as [v|] eqn:Ht; [unfold append; rewrite Hp, Ht; by apply Hrefuse|].
  destruct Htail as [-> Hissue].
  destruct (Z.leb_spec MAX_JOURNAL_FRAMES (zlen (file_records j))) as [Hfull|Hroom].
  { unfold append. rewrite Hp, Ht, (proj2 (Z.leb_le _ _)) by done. by apply Hrefuse. }
  destruct (encode_frame (length (file_records j)) (next_sequence j) record) as [frame|e] eqn:Hf.
  2: { unfold append. rewrite Hp, Ht, Hf, (proj2 (Z.leb_gt _ _)) by done. by apply Hrefuse. }
  destruct (Z.ltb_spec MAX_JOURNAL_FILE_BYTES (saturating_add (Z.of_nat (byte_length j)) (zlen frame))) as [Hbig|Hfits].
  { unfold append. rewrite Hp, Ht, Hf, (proj2 (Z.leb_gt _ _)), (proj2 (Z.ltb_lt _ _)) by done. by apply Hrefuse. }
  rewrite (append_unfold record j frame) by done. rewrite Hrec, Hseq in Hf. rewrite Hrec in Hroom.
  destruct Hlog as [_ He Hsize _]. rewrite firstn_all in He.
  assert (zlen (contents (file j) ++ frame) <= MAX_JOURNAL_FILE_BYTES) as Hnew.
  { rewrite zlen_app. unfold saturating_add, usize_max, MAX_JOURNAL_FILE_BYTES in *. rewrite Hlen in Hfits. unfold zlen in *. lia. }
  pose proof (log_partial _ _ _ _ (length frame) He Hf Hroom Hnew) as Hwhole. rewrite Nat.leb_refl, firstn_all in Hwhole.
  pose proof (observed_written record records _ frame (length frame) He Hf) as Hobs. rewrite Nat.leb_refl, firstn_all in Hobs.
  unfold journal_io, on_file. change (file (set_poisoned true j)) with (file j).
  destruct (write_copy frame (file j)) as [[u|e] f1] eqn:Hw; apply write_copy_spec in Hw; try done; cbn [map_err].
  - destruct Hw as [Hc Hn]. intros [= <- <-]. unfold append_outcome. cbn [file record_appended set_file]. split.
    + rewrite Hc, Hobs. exists (length (contents f1)). cbn [file record_appended set_file]. rewrite Hc. split; [done|].
      intros _. split; cbn; try done.
      * by rewrite Hrec.
      * rewrite Hseq, zlen_app. change (zlen [record]) with 1. unfold saturating_add, usize_max, MAX_JOURNAL_FRAMES, MAX_JOURNAL_STEPS in *. lia.
      * by rewrite Hlen, Hc, length_app.
      * by rewrite Ht, Hc.
    + rewrite Hc. by rewrite Hobs.
  - destruct Hw as [written Hc]. intros [= <- <-]. unfold append_outcome. cbn [file set_file]. split.
    + rewrite Hc. rewrite (observed_written record records _ frame written He Hf).
      pose proof (log_partial _ _ _ _ written He Hf Hroom Hnew) as Hpart.
      destruct (_ <=? _)%nat; (eapply logged_poisoned; [cbn [file set_file]; rewrite Hc; exact Hpart|done]).
    + left. done.
Qed.

(** What the invariant depends on. *)
Record same_log (j j' : FileJournal) : Prop := mkSameLog {
  same_contents : contents (file j') = contents (file j);
  same_cursor : cursor (file j') = cursor (file j);
  same_records : file_records j' = file_records j;
  same_sequence : next_sequence j' = next_sequence j;
  same_length : byte_length j' = byte_length j;
  same_torn : torn_prefix j' = torn_prefix j;
  same_issue : file_tail_issue j' = file_tail_issue j
}.
Lemma same_logged j j' records :
  same_log j j' -> (poisoned j' = false -> poisoned j = false) -> logged j records -> logged j' records.
Proof.
  intros [Hc Hn Hr Hs Hl Ht Hi] Hp (valid & Hlog & Hh). exists valid. rewrite Hc. split; [done|].
  intros [? ? ? ? Htail]%Hp%Hh. split; rewrite ?Hr, ?Hs, ?Hl, ?Hn, ?Hc, ?Ht, ?Hi; done.
Qed.
Lemma whole_spec effect written f : whole effect written f = f \/ whole effect written f = effect f.
Proof. unfold whole. case_match; auto. Qed.

Lemma promote_logged j r j' :
  poisoned j = false -> promote_candidate j = (r, j') ->
  same_log j j' /\ match r with Ok _ => poisoned j' = false /\ is_candidate j' = false
                   | Err e => append_certainty e = MayHaveAppended /\ poisoned j' = true end.
Proof.
  intros Hp. unfold promote_candidate, is_candidate. destruct (phase j) as [|path leaf|] eqn:Hphase.
  - intros [= <- <-]. split; [done|]. by rewrite Hphase.
  - destruct (rename_noreplace leaf (file (set_poisoned true j))) as [[u|e] f] eqn:Hr;
      apply io_call_spec in Hr as (f0 & Hc & Hn & _ & _ & Hf); intros [= <- <-].
    + destruct Hf as [_ ->]. done.
    + destruct Hf as [written ->]. split; [|done]. destruct (whole_spec (set_linked_as leaf) written f0) as [He|He]; split; cbn; by rewrite ?He.
  - intros [= <- <-]. split; [done|]. by rewrite Hphase.
Qed.

Lemma file_begin_logged plan steps records j r j' :
  logged j records -> file_begin plan steps j = (r, j') ->
  append_outcome (Intent plan steps) records j j' r /\
  (records <> [] -> (exists e, r = Err e) /\ contents (file j') = contents (file j)).
Proof.
  intros Hj. unfold file_begin. destruct (poisoned j) eqn:Hp.
  { intros [= <- <-]. split; [by apply append_refused|]. eauto. }
  case_bool_decide as Hnil; cbn [negb].
  2: { intros [= <- <-]. split; [by apply append_refused|]. eauto. }
  unfold mbind, SE_bind. destruct (append (Intent plan steps) j) as [[[]|e] j1] eqn:Ha.
  - apply append_logged with (records := records) in Ha as (Hlog & Hobs & Hp1 & Ht1); [|done]. intros Hpr.
    destruct (promote_logged _ _ _ Hp1 Hpr) as [Hsame Hr]. split.
    + unfold append_outcome. rewrite (same_contents _ _ Hsame). split.
      * eapply same_logged; [done| |done]. done.
      * destruct r as [u|e]; [|left; done]. split; [done|]. split; [tauto|]. by rewrite (same_torn _ _ Hsame).
    + intros Hne. destruct Hj as (valid & _ & Hh). destruct (Hh Hp) as [Hrec _ _ _ _]. congruence.
  - intros [= <- <-]. split; [by apply append_logged|]. intros Hne. destruct Hj as (valid & _ & Hh).
    destruct (Hh Hp) as [Hrec _ _ _ _]. congruence.
Qed.

Lemma active_append_logged record records j r j' :
  logged j records -> active_append record j = (r, j') -> append_outcome record records j j' r.
Proof.
  intros Hj. unfold active_append, require_active, mbind, SE_bind. destruct (poisoned j) eqn:Hp.
  { intros [= <- <-]. by apply append_refused. }
  destruct (is_active j); cbn [negb]; [by apply append_logged|]. intros [= <- <-]. by apply append_refused.
Qed.

Lemma resize_cut {A} (x : A) (n : nat) l : (n <= length l)%nat -> resize n x l = take n l.
Proof. intros. by apply resize_le. Qed.
Lemma cut_logged records j valid r j' :
  log_bytes (contents (file j)) records valid -> healthy j records valid -> torn_prefix j = Some valid ->
  cut_torn_tail valid j = (r, j') ->
  match r with
  | Ok _ => contents (file j') = take valid (contents (file j)) /\ poisoned j' = false /\ healthy j' records valid /\
      torn_prefix j' = None
  | Err e => append_certainty e = MayHaveAppended /\ poisoned j' = true /\
      (contents (file j') = contents (file j) \/ contents (file j') = take valid (contents (file j)))
  end.
Proof.
  intros Hlog [Hrec Hseq Hcur Hlen _] Ht. unfold cut_torn_tail.
  assert (contents (resize_to valid (file j)) = take valid (contents (file j))) as Hres.
  { cbn. apply resize_cut, (log_valid _ _ _ Hlog). }
  unfold mbind, SE_bind, modify, journal_io, on_file. change (file (set_poisoned true j)) with (file j).
  destruct (set_len valid (file j)) as [[u1|e] f1] eqn:H1; cbn [map_err]; apply io_call_spec in H1 as (g1 & Hc1 & _ & _ & _ & H1).
  2: { destruct H1 as [w ->]. intros [= <- <-]. split; [done|]. split; [done|]. cbn [file set_file].
       destruct (whole_spec (resize_to valid) w g1) as [-> | ->]; [by left|right]. cbn. rewrite Hc1. exact Hres. }
  destruct H1 as [_ ->]. change (file (set_file ?f _)) with f.
  assert (contents (resize_to valid g1) = take valid (contents (file j))) as Hc by (cbn; rewrite Hc1; exact Hres).
  set (f1 := resize_to valid g1) in *. clearbody f1. clear g1 Hc1.
  destruct (seek_start valid f1) as [[u2|e] f2] eqn:H2; cbn [map_err]; apply io_call_spec in H2 as (g2 & Hc2 & _ & _ & _ & H2).
  2: { destruct H2 as [w ->]. intros [= <- <-]. split; [done|]. split; [done|]. right. cbn. by rewrite Hc2. }
  destruct H2 as [_ ->]. change (file (set_file ?f _)) with f. rewrite Hc in Hc2.
  assert (cursor (set_cursor valid g2) = valid) as Hn2 by done. change (contents g2) with (contents (set_cursor valid g2)) in Hc2.
  set (f2 := set_cursor valid g2) in *. clearbody f2. clear g2.
  destruct (io_flush f2) as [[u3|e] f3] eqn:H3; cbn [map_err]; apply io_neutral in H3 as [Hc3 Hn3].
  2: { intros [= <- <-]. split; [done|]. split; [done|]. right. cbn. by rewrite Hc3. }
  change (file (set_file ?f _)) with f.
  destruct (sync_all f3) as [[u4|e] f4] eqn:H4; cbn [map_err]; apply io_neutral in H4 as [Hc4 Hn4].
  2: { intros [= <- <-]. split; [done|]. split; [done|]. right. cbn. by rewrite Hc4, Hc3. }
  intros [= <- <-]. assert (contents f4 = take valid (contents (file j))) as Hfinal by by rewrite Hc4, Hc3.
  cbn [file tail_cut set_file poisoned torn_prefix]. split; [done|]. split; [done|]. split; [|done].
  pose proof (log_valid _ _ _ Hlog). assert (length (contents f4) = valid) as Hlen4 by (rewrite Hfinal, length_take; lia).
  split; cbn; rewrite ?Hn4, ?Hn3, ?Hn2, ?Hlen4; done.
Qed.

(** The append of recovery cuts a torn tail off first. *)
Lemma authorized_append_logged authorization record records j r a' j' :
  logged j records -> authorized_append authorization record j = (r, a', j') -> append_outcome record records j j' r.
Proof.
  intros Hj. unfold authorized_append. destruct (poisoned j) eqn:Hp.
  { intros [= <- <- <-]. by apply append_refused. }
  unfold require_active. rewrite Hp. destruct (is_active j); cbn [negb].
  2: { intros [= <- <- <-]. by apply append_refused. }
  destruct (_ || _). { intros [= <- <- <-]. by apply append_refused. }
  pose proof Hj as (valid & Hlog & Hh). specialize (Hh Hp). destruct (torn_prefix j) as [v|] eqn:Ht.
  2: { destruct (append record j) as [[u|e] j1] eqn:Ha; apply append_logged with (records := records) in Ha; try done;
       by intros [= <- <- <-]. }
  pose proof (healthy_tail _ _ _ Hh) as Htail. rewrite Ht in Htail. destruct Htail as (-> & Hlt & _).
  destruct (cut_torn_tail valid j) as [[u|e] j1] eqn:Hcut; apply cut_logged with (records := records) in Hcut; try done.
  - destruct Hcut as (Hc & Hp1 & Hh1 & Ht1). assert (logged j1 records) as Hj1.
    { exists valid. rewrite Hc. split; [by apply log_cut|done]. }
    destruct (append record j1) as [[u1|e] j2] eqn:Ha; pose proof (append_logged _ _ _ _ _ Hj1 Ha) as Hout.
    + by intros [= <- <- <-].
    + intros [= <- <- <-]. destruct Hout as [Hlog2 Hout]. split; [done|]. by rewrite Hp, <-Hp1.
  - destruct Hcut as (He & Hp1 & Hc). intros [= <- <- <-]. assert (log_bytes (contents (file j1)) records valid) as Hlog1.
    { destruct Hc as [-> | ->]; [done|by apply log_cut]. }
    split; [|by left]. rewrite (observed_same _ _ _ _ Hlog1). by eapply logged_poisoned.
Qed.

Lemma file_snapshot_logged records j r j' :
  logged j records -> file_snapshot j = (r, j') ->
  j' = j /\ match r with
            | Ok s => poisoned j = false /\ is_active j = true /\ snapshot_records s = records /\
                snapshot_authorization s = mkAuthorization (file_identity j) (file_generation j)
            | Err _ => True
            end.
Proof.
  intros (valid & _ & Hh). unfold file_snapshot, require_active, mbind, SE_bind. destruct (poisoned j) eqn:Hp; [by intros [= <- <-]|].
  destruct (is_active j) eqn:Ha; cbn [negb]; [|by intros [= <- <-]]. unfold SE_get. intros [= <- <-].
  split; [done|]. split; [done|]. split; [done|]. split; [|done]. by destruct (Hh eq_refl).
Qed.

(** ** Creating and reopening *)

Lemma create_at_logged root path fresh p system j :
  create_at root path fresh p system = Ok j -> logged j [] /\ poisoned j = false /\ contents (file j) = [] /\ phase j = p.
Proof.
  unfold create_at. intros (script & _ & (u & _ & (u1 & _ & (u2 & _ & (u3 & _ & [= <-])%result_bind_Ok)%result_bind_Ok)%result_bind_Ok)%result_bind_Ok)%result_bind_Ok.
  split; [|done]. exists 0%nat. split; [apply log_empty|done].
Qed.

Lemma take_bytes_all limit bytes : zlen bytes <= limit -> take_bytes limit bytes = bytes.
Proof. intros H. unfold take_bytes. rewrite Z.min_r by done. apply take_ge. unfold zlen. lia. Qed.
Lemma read_journal_spec f r f' :
  zlen (contents f) <= MAX_JOURNAL_FILE_BYTES -> read_journal f = (r, f') ->
  contents f' = contents f /\ match r with Ok bytes => bytes = contents f | Err _ => True end.
Proof.
  intros Hl. unfold read_journal, mbind, SE_bind. destruct (seek_start 0 f) as [[u|e] f1] eqn:Hs;
    apply io_call_spec in Hs as (f0 & Hc & _ & _ & _ & Hs).
  2: { intros [= <- <-]. destruct Hs as [w ->]. done. }
  destruct Hs as [_ ->]. intros Hr. apply io_call_spec in Hr as (f2 & Hc2 & Hn2 & _ & _ & Hr). cbn in Hc2, Hn2.
  destruct r as [bytes|e].
  - destruct Hr as [-> ->]. cbn. rewrite Hc2, Hn2, Hc. split; [done|]. rewrite drop_0. apply take_bytes_all.
    unfold saturating_add, usize_max, MAX_JOURNAL_FILE_BYTES in *. lia.
  - destruct Hr as [w ->]. cbn. by rewrite Hc2, Hc.
Qed.
Lemma seek_end_spec f r f' : seek_end f = (r, f') ->
  contents f' = contents f /\ match r with Ok _ => cursor f' = length (contents f') | Err _ => True end.
Proof.
  intros (f0 & Hc & _ & _ & _ & Hr)%io_call_spec. destruct r; [destruct Hr as [_ ->]|destruct Hr as [w ->]]; by cbn.
Qed.

(** What reopening a file that holds a log comes to. *)
Definition resumed (bytes : list Z) (records : list JournalRecord) (r : result ExistingJournalOpenError FileJournal) : Prop :=
  match r with
  | Ok j => logged j records /\ poisoned j = false /\ file_records j = records /\ contents (file j) = bytes
  | Err e => exists evidence, error_evidence e = Some evidence /\ contents (evidence_file evidence) = bytes
  end.
Lemma resume_logged root path fresh system f records valid :
  log_bytes (contents f) records valid -> Forall record_ok records ->
  resumed (contents f) records (resume_opened root path fresh system f).
Proof.
  intros Hlog Hok. unfold resume_opened. destruct (opened_type system) as [metadata|e]; [|by eexists].
  destruct (opened_private system); [|by eexists]. destruct (has_one_link system); [|by eexists].
  destruct (negb (is_regular metadata) || is_reparse metadata || negb a0); [by eexists|].
  destruct (_ <? _); [by eexists|]. pose proof (log_size _ _ _ Hlog) as Hsize.
  destruct (read_journal f) as [[bytes|e] f1] eqn:Hr; apply read_journal_spec in Hr as [Hc Hb]; try done.
  2: { eexists. by split. }
  subst bytes. destruct (_ <? _); [by eexists|].
  destruct (inspect_journal_records (contents f)) as [inspection|e] eqn:Hi; [|by eexists].
  destruct (inspect_log_frames _ _ _ Hlog Hok) as (issue & Hfinish & Hissue). rewrite Hfinish in Hi.
  assert (inspection = mkInspection records issue valid) as ->.
  { unfold finish_inspection in Hi. destruct (_ && _); [done|]. destruct (is_corrupt _); [done|]. by apply Ok_inj in Hi. }
  cbn [inspected_records inspection_issue valid_bytes].
  destruct (seek_end f1) as [[u|e] f2] eqn:Hs; apply seek_end_spec in Hs as [Hc2 Hn2].
  2: { eexists. split; [done|]. cbn. by rewrite Hc2. }
  destruct (_ <? _). { eexists. split; [done|]. cbn. by rewrite Hc2. }
  destruct (opened_root system); [|eexists; split; [done|cbn; by rewrite Hc2]].
  destruct (opened_chain system); [|eexists; split; [done|cbn; by rewrite Hc2]].
  rewrite Hc in Hc2. split; [|done]. exists valid. cbn [file]. rewrite Hc2. split; [done|]. intros _.
  pose proof (log_valid _ _ _ Hlog). split; cbn; rewrite ?Hn2, ?Hc2; try done.
  destruct issue as [issue|]; cbn.
  - split; [done|]. split; [|by eexists]. destruct (Nat.eq_dec valid (length (contents f))) as [Heq|]; [|lia].
    apply Hissue in Heq. done.
  - split; [|done]. by apply Hissue.
Qed.
