(* ===== verification/FileJournalGuarantees.v ===== *)
(** * FileJournalGuarantees: what a caller of the durable journal can rely on

    Over every history of a journal file, whatever its calls answer and wherever
    the process was killed: acknowledged records survive, reopening shows them,
    only settled journals are deleted, exports are exact.  An execution under the
    durable journal can be recovered from the bytes it leaves. *)

From S2P Require Import Prelude Collections LegacyText RenameModel Journal Codec CodecCorrect FileJournal FileJournalCorrect.

(** ** Calls and histories *)

Inductive FileCall : Type :=
| CallBegin (plan : PlanId) (steps : list JournalStep)
| CallAppend (record : JournalRecord)
| CallAuthorized (authorization : JournalAuthorization) (record : JournalRecord)
| CallSnapshot
| CallExport (output : OpenFile)
| CallExportNew (destination : LegacyText) (create : result IoError (list IoAnswer))
| CallDelete
| CallDeleteUnactivated.

(** The fields of an intent are in the ranges of their types, and only [begin]
    appends one. *)
Definition call_ok (call : FileCall) : Prop :=
  match call with
  | CallBegin plan steps => record_ok (Intent plan steps)
  | CallAppend (Intent _ _) | CallAuthorized _ (Intent _ _) => False
  | _ => True
  end.
(** The journal after a call, and the record it was to append with its result. *)
Definition perform (call : FileCall) (j : FileJournal) : option (JournalRecord * result JournalError unit) * FileJournal :=
  match call with
  | CallBegin plan steps => let (r, j) := journal_begin plan steps j in (Some (Intent plan steps, r), j)
  | CallAppend record => let (r, j) := active_append record j in (Some (record, r), j)
  | CallAuthorized authorization record =>
      let '(r, _, j) := authorized_append authorization record j in (Some (record, r), j)
  | CallSnapshot => let (_, j) := authorized_snapshot j in (None, j)
  | CallExport output => let '(_, (j, _)) := copy_exact_to_file (j, output) in (None, j)
  | CallExportNew destination create => let '(_, (j, _)) := copy_exact_to_new destination create (j, None) in (None, j)
  | CallDelete => let (_, j) := mark_delete_if_safe j in (None, j)
  | CallDeleteUnactivated => let (_, j) := mark_unactivated_intent_delete j in (None, j)
  end.

(** The records acknowledged so far, and the first one whose append ended with
    the certainty [MayHaveAppended]. *)
Definition account (outcome : option (JournalRecord * result JournalError unit))
    (log : list JournalRecord * option JournalRecord) : list JournalRecord * option JournalRecord :=
  match outcome with
  | None => log
  | Some (record, Ok _) => (log.1 ++ [record], log.2)
  | Some (record, Err e) =>
      match append_certainty e, log.2 with MayHaveAppended, None => (log.1, Some record) | _, _ => log end
  end.

(** The file [f] that the process finds when it opens the leaf again holds the
    bytes that the journal had left. *)
Definition finds (system : OpenAnswers) (j : FileJournal) (f : OpenFile) : Prop :=
  opened system = Ok f /\ contents f = contents (file j).

Inductive history (root : JournalRoot) : FileJournal -> list JournalRecord * option JournalRecord -> Prop :=
| history_new leaf fresh system j : create_new root leaf fresh system = Ok j -> history root j ([], None)
| history_candidate candidate active fresh system j :
    create_candidate root candidate active fresh system = Ok j -> history root j ([], None)
| history_call call j log outcome j' :
    history root j log -> call_ok call -> perform call j = (outcome, j') -> history root j' (account outcome log)
| history_reopened leaf fresh system f j log j' :
    history root j log -> finds system j f -> open_existing_retained root leaf fresh system = Ok j' ->
    history root j' (file_records j', None)
| history_reopened_candidate candidate active fresh system f j log j' :
    history root j log -> finds system j f ->
    open_candidate_existing_retained root candidate active fresh system = Ok j' ->
    history root j' (file_records j', None).

(** ** Calls that append nothing *)

Lemma set_file_same_log f j :
  contents f = contents (file j) -> cursor f = cursor (file j) -> same_log j (set_file f j).
Proof. intros Hc Hn. by split. Qed.
Lemma mark_delete_same_log {E} (convert : IoError -> E) j r j' :
  on_file convert mark_retained_file_delete j = (r, j') -> same_log j j' /\ poisoned j' = poisoned j.
Proof.
  unfold on_file. destruct (mark_retained_file_delete (file j)) as [r0 f] eqn:Hm. intros [= <- <-]. split; [|done].
  apply io_call_spec in Hm as (f0 & Hc & Hn & _ & _ & Hm).
  apply set_file_same_log; destruct r0; [destruct Hm as [_ ->]|destruct Hm as [w ->]|destruct Hm as [_ ->]|destruct Hm as [w ->]];
    try done; destruct (whole_spec set_delete_pending w f0) as [-> | ->]; done.
Qed.
Lemma delete_same_log j r j' : mark_delete_if_safe j = (r, j') -> same_log j j' /\ poisoned j' = poisoned j.
Proof. unfold mark_delete_if_safe. destruct (negb _); [by intros [= <- <-]|apply mark_delete_same_log]. Qed.
Lemma delete_unactivated_same_log j r j' :
  mark_unactivated_intent_delete j = (r, j') -> same_log j j' /\ poisoned j' = poisoned j.
Proof.
  unfold mark_unactivated_intent_delete. destruct (phase j); try (by intros [= <- <-]). destruct (negb _); [by intros [= <- <-]|].
  destruct (open_existing_leaf (file j)) as [probe f] eqn:Hp. apply io_neutral in Hp as [Hc Hn].
  pose proof (set_file_same_log f j Hc Hn) as Hsame. destruct probe as [u|[code|]]; [by intros [= <- <-]| |by intros [= <- <-]].
  destruct (_ || _).
  - intros [Hs Hp]%mark_delete_same_log. split; [|done]. destruct Hs, Hsame. split; congruence.
  - destruct (_ || _); by intros [= <- <-].
Qed.

Lemma read_retained_spec n f r f' :
  read_retained_bytes n f = (r, f') ->
  contents f' = contents f /\ match r with Ok bytes => bytes = contents f /\ n = length bytes | Err _ => True end.
Proof.
  unfold read_retained_bytes, mret, SE_ret, SE_throw.
  destruct (Z.ltb_spec MAX_JOURNAL_FILE_BYTES (Z.of_nat n)); [by intros [= <- <-]|].
  unfold mbind, SE_bind. destruct (seek_start 0 f) as [[u|e] f1] eqn:Hs; apply io_call_spec in Hs as (f0 & Hc & _ & _ & _ & Hs).
  2: { destruct Hs as [w ->]. by intros [= <- <-]. }
  destruct Hs as [_ ->]. destruct (read_to_end _ _) as [[bytes|e] f2] eqn:Hr;
    apply io_call_spec in Hr as (f3 & Hc3 & Hn3 & _ & _ & Hr); cbn in Hc3, Hn3.
  2: { destruct Hr as [w ->]. intros [= <- <-]. cbn. by rewrite Hc3, Hc. }
  destruct Hr as [-> ->]. rewrite Hc3, Hn3, Hc, drop_0.
  destruct (Nat.eqb_spec (length (take_bytes (saturating_add (Z.of_nat n) 1) (contents f))) n) as [Hlen|]; cbn [negb].
  - intros [= <- <-]. cbn. rewrite Hc3, Hc. split; [done|]. unfold take_bytes in *. rewrite length_take in Hlen.
    rewrite take_ge; [|unfold saturating_add, usize_max, MAX_JOURNAL_FILE_BYTES, zlen in *; lia].
    split; [done|]. unfold saturating_add, usize_max, MAX_JOURNAL_FILE_BYTES, zlen in *. lia.
  - intros [= <- <-]. cbn. by rewrite Hc3, Hc.
Qed.

(** A copy leaves the source's bytes alone; when it succeeds the output has them. *)
Lemma copy_to_file_spec n f output r f' output' :
  copy_retained_bytes_to_file n (f, output) = (r, (f', output')) ->
  contents f' = contents f /\ match r with Ok m => m = n /\ contents output' = contents f /\ n = length (contents f) | Err _ => True end.
Proof.
  unfold copy_retained_bytes_to_file, mret, SE_ret, SE_throw, mbind, SE_bind. unfold on_output at 1.
  destruct (stream_position output) as [[p|e] o1] eqn:Hpos; [|by intros [= <- <- <-]].
  apply io_call_spec in Hpos as (o0 & Ho & Hn & _ & _ & [-> ->]). destruct (Nat.eqb_spec (cursor o0) 0) as [Hzero|]; cbn [negb];
    [|by intros [= <- <- <-]].
  unfold on_output at 1. destruct (metadata_len o0) as [[len|e] o2] eqn:Hlen; [|by intros [= <- <- <-]].
  apply io_call_spec in Hlen as (o3 & Ho3 & Hn3 & _ & _ & [-> ->]).
  destruct (Nat.eqb_spec (length (contents o3)) 0) as [Hempty%nil_length_inv|]; cbn [negb]; [|by intros [= <- <- <-]].
  unfold copy_failed, on_source. destruct (read_retained_bytes n f) as [[bytes|e] f1] eqn:Hr;
    apply read_retained_spec in Hr as [Hc Hb]; cbn [map_err]; [|by intros [= <- <- <-]].
  destruct Hb as [-> Hlen']. unfold on_output. destruct (write_copy (contents f) o3) as [[u|e] o4] eqn:Hw; cbn [map_err];
    [|by intros [= <- <- <-]].
  intros [= <- <- <-]. split; [done|]. split; [done|]. apply write_copy_spec in Hw as [Hw _].
  - by rewrite Hw, Hempty.
  - rewrite Hempty. cbn. congruence.
Qed.
Lemma copy_new_spec destination create n f output r f' output' :
  copy_retained_bytes destination create n (f, output) = (r, (f', output')) ->
  contents f' = contents f /\
  match r with Ok m => m = n /\ n = length (contents f) /\ exists o, output' = Some o /\ contents o = contents f
  | Err _ => True end.
Proof.
  unfold copy_retained_bytes, mbind, SE_bind, on_source. destruct (read_retained_bytes n f) as [[bytes|e] f1] eqn:Hr;
    apply read_retained_spec in Hr as [Hc Hb]; [|by intros [= <- <- <-]].
  destruct Hb as [-> Hlen]. unfold SE_lift. destruct create as [script|e]; [|by intros [= <- <- <-]].
  unfold write_new, copy_failed. destruct (write_copy (contents f) (mkOpenFile [] 0 destination false script)) as [[u|e] o] eqn:Hw;
    cbn [map_err]; intros [= <- <- <-]; [|done]. split; [done|]. split; [done|]. split; [done|]. exists o. split; [done|].
  apply write_copy_spec in Hw as [Hw _]; [|done]. by rewrite Hw.
Qed.

(** An export through [copy] keeps the log: it restores the cursor or poisons. *)
Lemma copy_exact_spec {O} (copy : nat -> SE (OpenFile * O) IoError nat) (done_with : OpenFile -> O -> Prop) j output r j' output' :
  (forall n f o r f' o', copy n (f, o) = (r, (f', o')) ->
     contents f' = contents f /\ match r with Ok m => m = n /\ done_with f o' | Err _ => True end) ->
  (forall f f' o, contents f = contents f' -> done_with f o -> done_with f' o) ->
  copy_exact_with copy (j, output) = (r, (j', output')) ->
  contents (file j') = contents (file j) /\ (poisoned j' = false -> poisoned j = false /\ same_log j j') /\
  match r with Ok m => m = byte_length j /\ done_with (file j) output' | Err _ => True end.
Proof.
  intros Hcopy Hext. unfold copy_exact_with. destruct (stream_position (file j)) as [[p|e] f] eqn:Hp;
    apply io_call_spec in Hp as (f0 & Hc & Hn & _ & _ & Hp).
  2: { destruct Hp as [w ->]. intros [= <- <- <-]. split; [done|]. split; [|done]. intros. split; [done|by apply set_file_same_log]. }
  destruct Hp as [-> ->]. change (byte_length (set_file f0 j)) with (byte_length j).
  destruct (Nat.eqb_spec (cursor f0) (byte_length j)) as [Heq|]; cbn [negb]; [|by intros [= <- <- <-]].
  change (file (set_file f0 j)) with f0. destruct (copy (byte_length j) (f0, output)) as [copied [f1 o1]] eqn:Hcp.
  apply Hcopy in Hcp as [Hc1 Hdone]. destruct (seek_start (cursor f0) f1) as [[u|e] f2] eqn:Hs;
    apply io_call_spec in Hs as (f3 & Hc3 & _ & _ & _ & Hs).
  - destruct Hs as [_ ->]. intros [= <- <- <-]. cbn [file set_file contents set_cursor]. split; [congruence|]. split.
    + intros. split; [done|]. split; cbn; congruence.
    + destruct copied as [m|e]; [|done]. destruct Hdone as [-> Hd]. split; [done|]. by eapply Hext.
  - destruct Hs as [w ->]. intros [= <- <- <-]. split; [cbn; congruence|]. split; [done|done].
Qed.
Definition file_has (f : OpenFile) (output : OpenFile) : Prop := contents output = contents f.
Definition new_file_has (f : OpenFile) (output : option OpenFile) : Prop := exists o, output = Some o /\ contents o = contents f.
Lemma export_spec j output r j' output' :
  copy_exact_to_file (j, output) = (r, (j', output')) ->
  contents (file j') = contents (file j) /\ (poisoned j' = false -> poisoned j = false /\ same_log j j') /\
  match r with Ok m => m = byte_length j /\ file_has (file j) output' | Err _ => True end.
Proof.
  apply copy_exact_spec; [|unfold file_has; congruence]. intros n f o r0 f' o' H. apply copy_to_file_spec in H as [Hc H].
  split; [done|]. destruct r0; tauto.
Qed.
Lemma export_new_spec destination create j output r j' output' :
  copy_exact_to_new destination create (j, output) = (r, (j', output')) ->
  contents (file j') = contents (file j) /\ (poisoned j' = false -> poisoned j = false /\ same_log j j') /\
  match r with Ok m => m = byte_length j /\ new_file_has (file j) output' | Err _ => True end.
Proof.
  apply copy_exact_spec; [|unfold new_file_has; intros f f' o Hc (o' & ? & ?); exists o'; split; congruence].
  intros n f o r0 f' o' H. apply copy_new_spec in H as [Hc H]. split; [done|]. destruct r0; tauto.
Qed.

(** *** The log of a history *)

Lemma silent_logged j j' records :
  contents (file j') = contents (file j) -> (poisoned j' = false -> poisoned j = false /\ same_log j j') ->
  logged j records -> logged j' records.
Proof.
  intros Hc Hsame Hj. destruct (poisoned j') eqn:Hp.
  - destruct Hj as (valid & Hlog & _). rewrite <-Hc in Hlog. by eapply logged_poisoned.
  - destruct (Hsame eq_refl). by eapply same_logged.
Qed.
Lemma poisoned_refuses call j outcome j' :
  poisoned j = true -> perform call j = (outcome, j') ->
  match outcome with
  | Some (record, r) => r = Err (may_have_appended 8) /\ j' = j
  | None => poisoned j' = true
  end.
Proof.
  intros Hp. destruct call as [plan steps|record|a record| |output|destination create| |]; cbn [perform].
  - unfold journal_begin. cbn. unfold file_begin. rewrite Hp. by intros [= <- <-].
  - unfold active_append, require_active, mbind, SE_bind. rewrite Hp. by intros [= <- <-].
  - unfold authorized_append. rewrite Hp. by intros [= <- <-].
  - unfold authorized_snapshot. cbn. unfold file_snapshot, require_active, mbind, SE_bind. rewrite Hp. by intros [= <- <-].
  - destruct (copy_exact_to_file (j, output)) as [r [j1 o]] eqn:He. intros [= <- <-].
    apply export_spec in He as (_ & He & _). destruct (poisoned j1); [done|]. destruct (He eq_refl). congruence.
  - destruct (copy_exact_to_new destination create (j, None)) as [r [j1 o]] eqn:He. intros [= <- <-].
    apply export_new_spec in He as (_ & He & _). destruct (poisoned j1); [done|]. destruct (He eq_refl). congruence.
  - destruct (mark_delete_if_safe j) as [r j1] eqn:Hd. intros [= <- <-]. apply delete_same_log in Hd as [_ ->]. done.
  - destruct (mark_unactivated_intent_delete j) as [r j1] eqn:Hd. intros [= <- <-].
    apply delete_unactivated_same_log in Hd as [_ ->]. done.
Qed.
Lemma perform_logged call j records outcome j' :
  logged j records -> perform call j = (outcome, j') ->
  match outcome with
  | Some (record, r) => append_outcome record records j j' r
  | None => logged j' records /\ (poisoned j' = false -> poisoned j = false)
  end.
Proof.
  intros Hj. destruct call as [plan steps|record|a record| |output|destination create| |]; cbn [perform].
  - destruct (journal_begin plan steps j) as [r j1] eqn:Hb. intros [= <- <-]. by apply (file_begin_logged _ _ _ _ _ _ Hj Hb).
  - destruct (active_append record j) as [r j1] eqn:Ha. intros [= <- <-]. by eapply active_append_logged.
  - destruct (authorized_append a record j) as [[r a'] j1] eqn:Ha. intros [= <- <-]. by eapply authorized_append_logged.
  - destruct (authorized_snapshot j) as [r j1] eqn:Hs. intros [= <- <-]. apply (file_snapshot_logged _ _ _ _ Hj) in Hs as [-> _]. done.
  - destruct (copy_exact_to_file (j, output)) as [r [j1 o]] eqn:He. intros [= <- <-].
    apply export_spec in He as (Hc & He & _). split; [by eapply silent_logged|]. intros Hp. by destruct (He Hp).
  - destruct (copy_exact_to_new destination create (j, None)) as [r [j1 o]] eqn:He. intros [= <- <-].
    apply export_new_spec in He as (Hc & He & _). split; [by eapply silent_logged|]. intros Hp. by destruct (He Hp).
  - destruct (mark_delete_if_safe j) as [r j1] eqn:Hd. intros [= <- <-]. apply delete_same_log in Hd as [Hs Hp].
    split; [eapply same_logged; [done|congruence|done]|congruence].
  - destruct (mark_unactivated_intent_delete j) as [r j1] eqn:Hd. intros [= <- <-].
    apply delete_unactivated_same_log in Hd as [Hs Hp]. split; [eapply same_logged; [done|congruence|done]|congruence].
Qed.

Lemma called_record_ok call j record r j' : call_ok call -> perform call j = (Some (record, r), j') -> record_ok record.
Proof.
  destruct call as [plan steps|record0|a record0| |output|destination create| |]; cbn [perform call_ok]; intros Hok.
  - destruct (journal_begin plan steps j). by intros [= <- _ _].
  - destruct (active_append record0 j). intros [= <- _ _]. by destruct record0.
  - destruct (authorized_append a record0 j) as [[? ?] ?]. intros [= <- _ _]. by destruct record0.
  - by destruct (authorized_snapshot j).
  - by destruct (copy_exact_to_file _) as [? [? ?]].
  - by destruct (copy_exact_to_new _ _ _) as [? [? ?]].
  - by destruct (mark_delete_if_safe j).
  - by destruct (mark_unactivated_intent_delete j).
Qed.

(** What opening a leaf comes to when the file there holds a log. *)
Definition reopened_as (bytes : list Z) (records : list JournalRecord)
    (r : result ExistingJournalOpenError FileJournal) : Prop :=
  match r with
  | Ok j => logged j records /\ poisoned j = false /\ file_records j = records /\ contents (file j) = bytes
  | Err e => error_evidence e = None \/
      exists evidence, error_evidence e = Some evidence /\ contents (evidence_file evidence) = bytes
  end.
Lemma open_logged root leaf fresh system f records valid :
  opened system = Ok f -> log_bytes (contents f) records valid -> Forall record_ok records ->
  reopened_as (contents f) records (open_existing_retained root leaf fresh system).
Proof.
  intros Hf Hlog Hok. unfold open_existing_retained. destruct (child root leaf) as [path|e]; [|by left].
  destruct (reject_final_link _); [|by left]. rewrite Hf.
  pose proof (resume_logged root path fresh system f records valid Hlog Hok) as Hr.
  destruct (resume_opened root path fresh system f); [done|by right].
Qed.
(** Only a leaf name that was refused before the file was opened leaves no evidence. *)
Lemma open_evidence root leaf fresh system f records valid e :
  opened system = Ok f -> log_bytes (contents f) records valid -> Forall record_ok records ->
  open_existing_retained root leaf fresh system = Err e ->
  match child root leaf, reject_final_link (leaf_is_link system) with
  | Ok _, Ok _ => exists evidence, error_evidence e = Some evidence /\ contents (evidence_file evidence) = contents f
  | _, _ => error_evidence e = None
  end.
Proof.
  intros Hf Hlog Hok. unfold open_existing_retained. destruct (child root leaf) as [path|?]; [|by intros [= <-]].
  destruct (reject_final_link _); [|by intros [= <-]]. rewrite Hf. intros He.
  pose proof (resume_logged root path fresh system f records valid Hlog Hok) as Hr. by rewrite He in Hr.
Qed.
Lemma open_candidate_logged root candidate active fresh system f records valid :
  opened system = Ok f -> log_bytes (contents f) records valid -> Forall record_ok records ->
  reopened_as (contents f) records (open_candidate_existing_retained root candidate active fresh system).
Proof.
  intros Hf Hlog Hok. unfold open_candidate_existing_retained. destruct (child root active) as [path|e]; [|by left].
  pose proof (open_logged root candidate fresh system f records valid Hf Hlog Hok) as Hr.
  destruct (open_existing_retained root candidate fresh system) as [j|e]; [|done]. cbn [mbind result_bind].
  destruct (negb _).
  - right. eexists. split; [done|]. apply Hr.
  - destruct Hr as (Hj & Hp & Hrec & Hc). split; [|done]. by apply (same_logged j).
Qed.

Record history_log (j : FileJournal) (log : list JournalRecord * option JournalRecord) (records : list JournalRecord) : Prop :=
  mkHistoryLog {
  history_logged : logged j records;
  history_typed : Forall record_ok records;
  history_records : match log.2 with
                    | None => records = log.1
                    | Some pending => poisoned j = true /\ (records = log.1 \/ records = log.1 ++ [pending])
                    end
}.
Lemma history_call_log call j log records outcome j' :
  history_log j log records -> call_ok call -> perform call j = (outcome, j') ->
  exists records', history_log j' (account outcome log) records'.
Proof.
  destruct log as [acks pending]. intros [Hj Htyped Hrec] Hok Hcall. cbn [fst snd] in Hrec. destruct outcome as [[record r]|].
  2: { exists records. destruct (perform_logged _ _ _ _ _ Hj Hcall) as [Hj' Hp]. split; [done|done|]. cbn.
       destruct pending; [|done]. destruct Hrec as [Hp' Hrec]. split; [|done]. destruct (poisoned j'); [done|]. by rewrite Hp in Hp'. }
  pose proof (called_record_ok _ _ _ _ _ Hok Hcall) as Hrok. destruct (poisoned j) eqn:Hp.
  { destruct (poisoned_refuses _ _ _ _ Hp Hcall) as [-> ->]. exists records. split; [done|done|].
    destruct pending; cbn; [by split; [|destruct Hrec]|]. split; [done|]. by left. }
  destruct pending; [by destruct Hrec|]. subst records.
  destruct (perform_logged _ _ _ _ _ Hj Hcall) as [Hlog Hr]. exists (observed record acks (contents (file j'))).
  assert (Forall record_ok (observed record acks (contents (file j')))) as Htyped'.
  { destruct (observed_cases record acks (contents (file j'))) as [-> | ->]; [done|]. apply Forall_app. split; [done|by constructor]. }
  destruct r as [u|e]; cbn [account fst snd].
  - by destruct Hr as (Hobs & _).
  - destruct Hr as [[-> Hp']|(-> & Hobs & _)]; [|done]. split; [done|done|]. cbn. split; [done|]. apply observed_cases.
Qed.
Lemma history_has_log root j log : history root j log -> exists records, history_log j log records.
Proof.
  induction 1 as [leaf fresh system j Hcreate|candidate active fresh system j Hcreate|call j log outcome j' _ [records IH] Hok Hcall
    |leaf fresh system f j log j' _ [records IH] [Hf Hc] Hopen|candidate active fresh system f j log j' _ [records IH] [Hf Hc] Hopen].
  - exists []. unfold create_new in Hcreate. apply result_bind_Ok in Hcreate as (path & _ & Hcreate).
    apply create_at_logged in Hcreate as (Hj & _). by split.
  - exists []. unfold create_candidate in Hcreate. apply result_bind_Ok in Hcreate as (path & _ & Hcreate).
    apply result_bind_Ok in Hcreate as (path' & _ & Hcreate). destruct (bool_decide _); [done|].
    apply create_at_logged in Hcreate as (Hj & _). by split.
  - by eapply history_call_log.
  - destruct IH as [(valid & Hlog & _) Htyped _]. rewrite <-Hc in Hlog.
    pose proof (open_logged root leaf fresh system f records valid Hf Hlog Htyped) as Hr. rewrite Hopen in Hr.
    destruct Hr as (Hj & _ & Hrec & _). exists records. by split.
  - destruct IH as [(valid & Hlog & _) Htyped _]. rewrite <-Hc in Hlog.
    pose proof (open_candidate_logged root candidate active fresh system f records valid Hf Hlog Htyped) as Hr. rewrite Hopen in Hr.
    destruct Hr as (Hj & _ & Hrec & _). exists records. by split.
Qed.

(** ** Properties *)

(** The system answers every call while the leaf is opened, and with a regular
    file of one link. *)
Record obliging_open (root : JournalRoot) (leaf : LegacyText) (system : OpenAnswers) (f : OpenFile) : Prop := mkObliging {
  obliging_leaf : validate_windows_leaf_name leaf = Ok tt;
  obliging_link : leaf_is_link system = Ok false;
  obliging_opened : opened system = Ok f;
  obliging_type : opened_type system = Ok (mkFileType true false);
  obliging_private : opened_private system = Ok tt;
  obliging_one_link : has_one_link system = Ok true;
  obliging_root : opened_root system = Ok tt;
  obliging_chain : opened_chain system = Ok tt;
  obliging_script : script f = []
}.
Lemma read_quiet limit f : script f = [] -> exists bytes f1, (seek_start 0;; read_to_end limit) f = (Ok bytes, f1) /\ script f1 = [].
Proof.
  intros Hs. unfold mbind, SE_bind, seek_start, read_to_end, io_call, next_answer. rewrite Hs. cbn. rewrite Hs.
  eexists _, _. split; [reflexivity|done].
Qed.
Lemma obliging_reopens root leaf fresh system f records valid :
  obliging_open root leaf system f -> log_bytes (contents f) records valid -> Forall record_ok records ->
  is_corrupt (replay_journal records) = false -> (records = [] -> contents f = []) ->
  exists j, open_existing_retained root leaf fresh system = Ok j.
Proof.
  intros [Hleaf Hlink Hopen Htype Hprivate Hone Hroot Hchain Hscript] Hlog Hok Hc Hempty.
  unfold open_existing_retained, child. rewrite Hleaf, Hlink, Hopen. cbn [reject_final_link mbind result_bind map_err].
  unfold resume_opened. rewrite Htype, Hprivate, Hone. cbn [is_regular is_reparse negb orb].
  pose proof (log_size _ _ _ Hlog) as Hsize. rewrite (proj2 (Z.ltb_ge _ _)) by done.
  destruct (read_quiet (saturating_add MAX_JOURNAL_FILE_BYTES 1) f Hscript) as (bytes & f1 & Hr & Hs1).
  fold read_journal in Hr. rewrite Hr.
  apply read_journal_spec in Hr as [Hc1 ->]; [|done]. rewrite (proj2 (Z.ltb_ge _ _)) by done.
  pose proof (inspect_log _ _ _ Hlog Hok Hc) as Hi. assert (bool_decide (records = []) && (0 <? length (contents f))%nat = false) as Hneg.
  { case_bool_decide as Hnil; [|done]. rewrite Hempty by done. done. }
  rewrite Hneg in Hi. destruct Hi as (issue & -> & _). unfold seek_end, io_call, next_answer. rewrite Hs1.
  cbn [inspected_records inspection_issue valid_bytes]. pose proof (encode_journal_bound _ _ (log_encoded _ _ _ Hlog)).
  rewrite (proj2 (Z.ltb_ge _ _)) by (unfold u64_max, MAX_JOURNAL_FRAMES, MAX_JOURNAL_STEPS in *; lia).
  rewrite Hroot, Hchain. by eexists.
Qed.

(** C17: Acknowledged records survive.  Take any history of a journal file: calls of
    any kind whose system calls fail or stop half-way wherever they like,
    reopenings by later processes.  When the file is opened once more the journal
    shows exactly the records that were acknowledged, or these and the first one
    whose append was answered with the certainty [MayHaveAppended]; a journal that
    does not open hands over the untouched bytes as evidence, unless its leaf name
    was refused, as ill-formed or as a link, before the file was opened, and then
    there is no evidence; and it does open when the system answers, unless the file
    holds less than its first frame or transitions that contradict each other. *)
Theorem acknowledged_records_survive root j acks pending leaf fresh system f :
  history root j (acks, pending) -> finds system j f ->
  exists records,
    (records = acks \/ exists record, pending = Some record /\ records = acks ++ [record]) /\
    match open_existing_retained root leaf fresh system with
    | Ok reopened =>
        file_records reopened = records /\ poisoned reopened = false /\ contents (file reopened) = contents (file j)
    | Err e =>
        match child root leaf, reject_final_link (leaf_is_link system) with
        | Ok _, Ok _ =>
            exists evidence, error_evidence e = Some evidence /\ contents (evidence_file evidence) = contents (file j)
        | _, _ => error_evidence e = None
        end
    end /\
    (obliging_open root leaf system f -> is_corrupt (replay_journal records) = false ->
     (records = [] -> contents (file j) = []) ->
     exists reopened, open_existing_retained root leaf fresh system = Ok reopened).
Proof.
  intros Hhist [Hf Hc]. destruct (history_has_log _ _ _ Hhist) as (records & [(valid & Hlog & _) Htyped Hrec]).
  cbn in Hrec. rewrite <-Hc in Hlog. exists records. split; [|split].
  - destruct pending; [|by left]. destruct Hrec as [_ [-> | ->]]; [by left|right; eauto].
  - pose proof (open_logged root leaf fresh system f records valid Hf Hlog Htyped) as Hr. rewrite Hc in Hr.
    destruct (open_existing_retained root leaf fresh system) as [?|e] eqn:He; [by destruct Hr as (_ & ? & ? & ?)|].
    rewrite <-Hc. by eapply open_evidence.
  - intros Hob Hcorrupt Hempty. rewrite <-Hc in Hempty. by eapply obliging_reopens.
Qed.

(** C18: A successful append leaves nothing unsaid.  After any history, a call that
    reports its record appended leaves in the file exactly the encoding of all
    acknowledged records with this one last; the torn tail that an earlier process
    left behind is gone. *)
Theorem successful_append_is_encoding root j acks pending call record j' :
  history root j (acks, pending) -> perform call j = (Some (record, Ok tt), j') ->
  encode_journal_records (acks ++ [record]) = Ok (contents (file j')) /\
  file_records j' = acks ++ [record] /\ poisoned j' = false /\ pending = None.
Proof.
  intros Hhist Hcall. destruct (history_has_log _ _ _ Hhist) as (records & [Hj Htyped Hrec]). cbn in Hrec.
  destruct (poisoned j) eqn:Hp; [by destruct (poisoned_refuses _ _ _ _ Hp Hcall) as [[=] _]|].
  destruct pending; [by destruct Hrec|]. subst records.
  destruct (perform_logged _ _ _ _ _ Hj Hcall) as [(valid & Hlog & Hh) (Hobs & Hp' & Ht)].
  specialize (Hh Hp'). pose proof (healthy_tail _ _ _ Hh) as Htail. rewrite Ht in Htail. destruct Htail as [-> _].
  rewrite Hobs in *. split; [|split; [apply Hh|done]]. pose proof (log_encoded _ _ _ Hlog) as He. by rewrite firstn_all in He.
Qed.

(** What deleting loses nothing of: no record at all, a finished transaction, or an
    intent that never became active. *)
Definition settled (j : FileJournal) (acks : list JournalRecord) : Prop :=
  acks = [] \/ replay_journal acks = Clean \/ (is_candidate j = true /\ exists plan steps, acks = [Intent plan steps]).

(** C19: Only settled journals are deleted.  Neither of the two deletions sets the
    file's delete disposition, whatever the system answers, unless the file holds
    exactly the acknowledged records and these record nothing, a finished
    transaction, or only the intent of a candidate that was never activated; what
    recovery needs is never deleted. *)
Theorem only_settled_deleted root j acks pending r j' call :
  history root j (acks, pending) -> call = mark_delete_if_safe \/ call = mark_unactivated_intent_delete ->
  call j = (r, j') -> delete_pending (file j') = true -> delete_pending (file j) = false ->
  encode_journal_records acks = Ok (contents (file j)) /\ pending = None /\ settled j acks.
Proof.
  intros Hhist Hcall Hj' Hdel Hbefore.
  assert (j' <> j) as Hne by congruence.
  assert (poisoned j = false /\ intact j = true /\
    (file_records j = [] \/ replay_journal (file_records j) = Clean \/
     (is_candidate j = true /\ exists plan steps, file_records j = [Intent plan steps]))) as (Hp & Hintact & Hsettled).
  { destruct Hcall as [-> | ->]; revert Hj'.
    - unfold mark_delete_if_safe, is_physically_empty_candidate. destruct (poisoned j); cbn [negb andb]; [by intros [= <- <-]|].
      destruct (phase j) eqn:Hphase; [| |by intros [= <- <-]].
      + destruct (intact j); cbn [andb]; [|by intros [= <- <-]]. intros Hj'. split; [done|]. split; [done|].
        case_bool_decide; [by left|]. cbn [orb] in Hj'. destruct (is_terminal j); cbn [andb] in Hj'; [|by injection Hj' as <- <-].
        case_bool_decide; [by right; left|by injection Hj' as <- <-].
      + destruct (is_candidate j); cbn [andb]; [|by intros [= <- <-]]. destruct (byte_length j =? 0)%nat; cbn [andb]; [|by intros [= <- <-]].
        case_bool_decide; cbn [andb]; [|by intros [= <- <-]]. destruct (intact j); [|by intros [= <- <-]]. intros _. auto.
    - unfold mark_unactivated_intent_delete, is_complete_intent_candidate, is_candidate. destruct (phase j); try by intros [= <- <-].
      destruct (poisoned j); cbn [negb andb]; [by intros [= <- <-]|]. destruct (0 <? byte_length j)%nat; cbn [andb]; [|by intros [= <- <-]].
      destruct (file_records j) as [|[plan steps| | | |] [|]]; cbn [andb negb]; try by intros [= <- <-].
      destruct (intact j); cbn [negb]; [|by intros [= <- <-]]. intros _. split; [done|]. split; [done|]. right. right. eauto. }
  destruct (history_has_log _ _ _ Hhist) as (records & [(valid & Hlog & Hh) Htyped Hrec]). cbn in Hrec.
  destruct pending; [by destruct Hrec; congruence|]. subst records. specialize (Hh Hp).
  rewrite (healthy_records _ _ _ Hh) in Hsettled. split; [|done].
  unfold intact in Hintact. apply andb_true_iff in Hintact as [Ht%bool_decide_eq_true _].
  pose proof (healthy_tail _ _ _ Hh) as Htail. rewrite Ht in Htail. destruct Htail as [-> _].
  pose proof (log_encoded _ _ _ Hlog) as He. by rewrite firstn_all in He.
Qed.

(** Exports are exact and cost nothing.  An export that succeeds has written the
    bytes of the journal, all of them and no others, to the destination; whatever
    it answers, the journal's own bytes are as before, and so are the records that
    it shows and where it appends next, or it refuses every further append. *)
Theorem export_is_exact j output destination create r1 j1 output1 r2 j2 output2 :
  copy_exact_to_file (j, output) = (r1, (j1, output1)) ->
  copy_exact_to_new destination create (j, None) = (r2, (j2, output2)) ->
  contents (file j1) = contents (file j) /\ contents (file j2) = contents (file j) /\
  (poisoned j1 = false -> same_log j j1) /\ (poisoned j2 = false -> same_log j j2) /\
  (forall n, r1 = Ok n -> n = byte_length j /\ contents output1 = contents (file j)) /\
  (forall n, r2 = Ok n -> n = byte_length j /\ exists o, output2 = Some o /\ contents o = contents (file j)).
Proof.
  intros (Hc1 & Hs1 & Hr1)%export_spec (Hc2 & Hs2 & Hr2)%export_new_spec.
  split; [done|]. split; [done|]. split; [intros; by apply Hs1|]. split; [intros; by apply Hs2|].
  split; intros n ->; tauto.
Qed.

(** ** A concrete history *)

(** The calls of a process in turn. *)
Fixpoint play (calls : list FileCall) (j : FileJournal) (log : list JournalRecord * option JournalRecord)
  : FileJournal * (list JournalRecord * option JournalRecord) :=
  match calls with
  | [] => (j, log)
  | call :: calls => let (outcome, j') := perform call j in play calls j' (account outcome log)
  end.
Lemma play_history root calls : forall j log,
  history root j log -> Forall call_ok calls -> history root (play calls j log).1 (play calls j log).2.
Proof.
  induction calls as [|call calls IH]; intros j log Hj Hok; cbn [play]; [done|]. apply Forall_cons in Hok as [Hc Hok].
  destruct (perform call j) as [outcome j'] eqn:Hcall. apply IH; [|done]. by eapply history_call.
Qed.

(** The intent is synced and promoted, a preparation is synced, and the record of
    its completion stops after ten bytes. *)
Definition example_root : JournalRoot := mkJournalRoot (text "C:\state") 7.
Definition torn_script : list IoAnswer :=
  [IoDone; IoDone; IoDone; IoDone; IoDone; IoDone; IoDone; IoFailed (Some 112) 10].
Definition quiet_create (script : list IoAnswer) : CreateAnswers :=
  mkCreateAnswers (Ok script) (Ok (mkFileType true false)) (Ok tt) (Ok tt) (Ok tt).
Definition quiet_open (f : OpenFile) : OpenAnswers :=
  mkOpenAnswers (Ok false) (Ok f) (Ok (mkFileType true false)) (Ok tt) (Ok true) (Ok tt) (Ok tt).
Definition example_file : FileJournal :=
  let active := text "active.drj" in
  mkFileJournal (mkJournalPath (root_path example_root) (text "next.drj")) (root_identity example_root)
    (mkOpenFile [] 0 (text "next.drj") false torn_script) [] (combined_identity 1 7) 0 0 0 None None false
    (Candidate (mkJournalPath (root_path example_root) active) active).
Lemma example_created :
  create_candidate example_root (text "next.drj") (text "active.drj") 1 (quiet_create torn_script) = Ok example_file.
Proof. vm_compute. reflexivity. Qed.
Definition example_calls : list FileCall :=
  [CallBegin 5 [example_step]; CallAppend (Prepared 0 Forward); CallAppend (Completed 0 Forward); CallDelete].
Definition example_end : FileJournal * (list JournalRecord * option JournalRecord) := play example_calls example_file ([], None).
Lemma example_history : history example_root example_end.1 example_end.2.
Proof.
  apply play_history; [exact (history_candidate _ _ _ _ _ _ example_created)|].
  repeat constructor; vm_compute; intros; discriminate.
Qed.
Definition example_left_file : OpenFile := mkOpenFile (contents (file example_end.1)) 0 (text "active.drj") false [].
Lemma contents_open c n leaf d answers : contents (mkOpenFile c n leaf d answers) = c.
Proof. reflexivity. Qed.
#[local] Strategy opaque [example_end].
Lemma example_finds : finds (quiet_open example_left_file) example_end.1 example_left_file.
Proof. split; [reflexivity|]. unfold example_left_file. apply contents_open. Qed.

Lemma acknowledged_records_survive_witness :
  example_end.2 = ([Intent 5 [example_step]; Prepared 0 Forward], Some (Completed 0 Forward)) /\
  exists reopened, open_existing_retained example_root (text "active.drj") 2 (quiet_open example_left_file) = Ok reopened /\
    exists records, file_records reopened = records /\
      (records = example_end.2.1 \/ exists record, example_end.2.2 = Some record /\ records = example_end.2.1 ++ [record]).
Proof.
  split; [vm_compute; reflexivity|].
  destruct (acknowledged_records_survive example_root example_end.1 example_end.2.1 example_end.2.2 (text "active.drj") 2
    (quiet_open example_left_file) example_left_file example_history example_finds) as (records & Hrec & Hopen & _).
  destruct (open_existing_retained example_root (text "active.drj") 2 (quiet_open example_left_file)) as [reopened|e] eqn:He;
    [|vm_compute in He; discriminate He].
  exists reopened. split; [reflexivity|]. exists records. split; [exact (proj1 Hopen)|exact Hrec].
Defined.

(** The next process opens the torn journal and completes the step. *)
Definition example_reopened_file : FileJournal :=
  match open_existing_retained example_root (text "active.drj") 2 (quiet_open example_left_file) with
  | Ok j => j
  | Err _ => example_file
  end.
Lemma example_reopened_history :
  history example_root example_reopened_file ([Intent 5 [example_step]; Prepared 0 Forward], None).
Proof.
  exact (history_reopened example_root (text "active.drj") 2 (quiet_open example_left_file) example_left_file example_end.1
    example_end.2 example_reopened_file example_history example_finds ltac:(vm_compute; reflexivity)).
Qed.
Definition example_authorization : JournalAuthorization :=
  mkAuthorization (file_identity example_reopened_file) (file_generation example_reopened_file).
Definition example_repaired : FileJournal :=
  (perform (CallAuthorized example_authorization (Completed 0 Forward)) example_reopened_file).2.
Lemma successful_append_is_encoding_witness :
  length (contents (file example_reopened_file)) = 178%nat /\
  encode_journal_records [Intent 5 [example_step]; Prepared 0 Forward; Completed 0 Forward] =
    Ok (contents (file example_repaired)).
Proof.
  split; [vm_compute; reflexivity|].
  exact (proj1 (successful_append_is_encoding example_root example_reopened_file
    [Intent 5 [example_step]; Prepared 0 Forward] None
    (CallAuthorized example_authorization (Completed 0 Forward)) (Completed 0 Forward) example_repaired
    example_reopened_history ltac:(vm_compute; reflexivity))).
Defined.

(** An empty journal that was created and never used. *)
Lemma only_settled_deleted_witness :
  (mark_delete_if_safe example_file).1 = Ok tt /\ settled example_file [] /\
  encode_journal_records [] = Ok (contents (file example_file)).
Proof.
  split; [vm_compute; reflexivity|].
  destruct (only_settled_deleted example_root example_file [] None (Ok tt) (mark_delete_if_safe example_file).2
    mark_delete_if_safe (history_candidate _ _ _ _ _ _ example_created) (or_introl eq_refl)
    ltac:(vm_compute; reflexivity) ltac:(vm_compute; reflexivity) ltac:(vm_compute; reflexivity)) as (He & _ & Hs).
  split; [exact Hs|exact He].
Defined.

(** The torn journal exported as it is. *)
Lemma export_is_exact_witness :
  let output := mkOpenFile [] 0 (text "copy.drj") false [] in
  (copy_exact_to_file (example_reopened_file, output)).1 = Ok 178%nat /\
  contents (copy_exact_to_file (example_reopened_file, output)).2.2 = contents (file example_reopened_file).
Proof.
  intros output. split; [vm_compute; reflexivity|].
  destruct (copy_exact_to_file (example_reopened_file, output)) as [r1 [j1 o1]] eqn:H1.
  destruct (copy_exact_to_new (text "copy2.drj") (Ok []) (example_reopened_file, None)) as [r2 [j2 o2]] eqn:H2.
  destruct (export_is_exact example_reopened_file output (text "copy2.drj") (Ok []) r1 j1 o1 r2 j2 o2 H1 H2)
    as (_ & _ & _ & _ & Hr1 & _).
  apply (Hr1 178%nat). change r1 with (fst (r1, (j1, o1))). rewrite <-H1. vm_compute. reflexivity.
Defined.
