(* ===== verification/DurableExecution.v ===== *)
(** * DurableExecution: executions and recoveries on the journal file

    The durable journal with the log its file holds satisfies the laws that the
    executor and the recovery rely on, so everything proved of them holds with it.
    The end of the chain is a statement about bytes: whatever a crash leaves in the
    file, once decoded it accounts for the filesystem. *)

From stdpp Require Import gmap.
From S2P Require Import Prelude Collections LegacyText RenameModel Journal Effects.
From S2P Require Import Schedule Codec Executor Reading MemoryBackend ExecutorSafety.
From S2P Require Import ScheduleCorrect Tracking Transaction Recovery RecoveryState RecoverySafety Lifetime.
From S2P Require Import CodecCorrect FileJournal FileJournalCorrect FileJournalGuarantees.
#[local] Open Scope Z_scope.

(** ** A journal file together with its log *)

Record DurableJournal : Type := mkDurable {
  durable_file : FileJournal;
  durable_records : list JournalRecord;
  durable_logged : logged durable_file durable_records
}.

(** A call that tries to append [record]; the log is what has reached the file. *)
Definition durable_append (record : JournalRecord) (m : FileJournal -> result JournalError unit * FileJournal)
    (Hm : forall records j r j', logged j records -> m j = (r, j') -> append_outcome record records j j' r)
    (d : DurableJournal) : result JournalError unit * DurableJournal :=
  ((m (durable_file d)).1,
   mkDurable (m (durable_file d)).2 (observed record (durable_records d) (contents (file (m (durable_file d)).2)))
     (proj1 (Hm _ _ _ _ (durable_logged d) (surjective_pairing _)))).
Definition durable_authorized (record : JournalRecord)
    (m : FileJournal -> result JournalError unit * JournalAuthorization * FileJournal)
    (Hm : forall records j r a j', logged j records -> m j = (r, a, j') -> append_outcome record records j j' r)
    (d : DurableJournal) : result JournalError unit * JournalAuthorization * DurableJournal :=
  let out := m (durable_file d) in
  (out.1.1, out.1.2,
   mkDurable out.2 (observed record (durable_records d) (contents (file out.2)))
     (proj1 (Hm _ _ out.1.1 out.1.2 out.2 (durable_logged d)
        (eq_trans (surjective_pairing out) (f_equal (fun x => (x, out.2)) (surjective_pairing out.1)))))).

Lemma appends_outcome record records j j' r :
  append_outcome record records j j' r -> appends_record record records (observed record records (contents (file j'))) r.
Proof.
  intros [_ Hr]. unfold appends_record. destruct r as [u|e]; [tauto|].
  destruct Hr as [[He _]|(_ & Hobs & _)]; [|by left]. destruct (observed_cases record records (contents (file j'))); auto.
Qed.
Lemma durable_append_spec record m Hm d r d' :
  durable_append record m Hm d = (r, d') -> appends_record record (durable_records d) (durable_records d') r.
Proof. intros [= <- <-]. eapply appends_outcome, Hm; [apply durable_logged|apply surjective_pairing]. Qed.
Lemma durable_authorized_spec record m Hm d r a d' :
  durable_authorized record m Hm d = (r, a, d') -> appends_record record (durable_records d) (durable_records d') r.
Proof.
  intros [= <- <- <-]. eapply appends_outcome, Hm; [apply durable_logged|]. by rewrite <-!surjective_pairing.
Qed.

Lemma begin_outcome plan steps records j r j' :
  logged j records -> file_begin plan steps j = (r, j') -> append_outcome (Intent plan steps) records j j' r.
Proof. intros Hj Hb. by destruct (file_begin_logged _ _ _ _ _ _ Hj Hb). Qed.
Lemma active_outcome record records j r j' :
  logged j records -> active_append record j = (r, j') -> append_outcome record records j j' r.
Proof. apply active_append_logged. Qed.
Lemma authorized_outcome a record records j r a' j' :
  logged j records -> authorized_append a record j = (r, a', j') -> append_outcome record records j j' r.
Proof. apply authorized_append_logged. Qed.
Lemma snapshot_keeps j records : logged j records -> logged (file_snapshot j).2 records.
Proof. intros Hj. by destruct (file_snapshot_logged _ _ _ _ Hj (surjective_pairing _)) as [-> _]. Qed.

#[export] Instance DurableJournal_store : JournalStore DurableJournal := {
  journal_begin plan steps := durable_append (Intent plan steps) (file_begin plan steps) (begin_outcome plan steps);
  journal_prepared step direction :=
    durable_append (Prepared step direction) (active_append (Prepared step direction)) (active_outcome _);
  journal_completed step direction :=
    durable_append (Completed step direction) (active_append (Completed step direction)) (active_outcome _);
  journal_not_applied step direction :=
    durable_append (NotAppliedRecord step direction) (active_append (NotAppliedRecord step direction)) (active_outcome _);
  journal_terminal terminal :=
    durable_append (Terminal terminal) (active_append (Terminal terminal)) (active_outcome _)
}.
#[export] Instance DurableJournal_authorized : AuthorizedJournal DurableJournal := {
  authorized_snapshot d :=
    ((file_snapshot (durable_file d)).1,
     mkDurable (file_snapshot (durable_file d)).2 (durable_records d) (snapshot_keeps _ _ (durable_logged d)));
  authorized_prepared a step direction :=
    durable_authorized (Prepared step direction) (authorized_append a (Prepared step direction)) (authorized_outcome a _);
  authorized_completed a step direction :=
    durable_authorized (Completed step direction) (authorized_append a (Completed step direction)) (authorized_outcome a _);
  authorized_not_applied a step direction :=
    durable_authorized (NotAppliedRecord step direction) (authorized_append a (NotAppliedRecord step direction))
      (authorized_outcome a _);
  authorized_terminal a terminal :=
    durable_authorized (Terminal terminal) (authorized_append a (Terminal terminal)) (authorized_outcome a _)
}.

#[export] Instance DurableJournal_laws : JournalStoreLaws DurableJournal.
Proof.
  refine {| journal_records := durable_records |}.
  - intros plan steps d r d' Hd. split; [|exact (durable_append_spec _ _ _ _ _ _ Hd)]. intros Hne. injection Hd as <- <-.
    destruct d as [j records Hj]. cbn [durable_records durable_file] in *.
    destruct (file_begin_logged plan steps records j _ _ Hj (surjective_pairing _)) as [_ H].
    destruct (H Hne) as [[e ->] Hc]. exists e. split; [done|]. rewrite Hc. destruct Hj as (valid & Hlog & _).
    by eapply observed_same.
  - intros s d j r j' Hd. exact (durable_append_spec _ _ _ _ _ _ Hd).
  - intros s d j r j' Hd. exact (durable_append_spec _ _ _ _ _ _ Hd).
  - intros s d j r j' Hd. exact (durable_append_spec _ _ _ _ _ _ Hd).
  - intros t j r j' Hd. exact (durable_append_spec _ _ _ _ _ _ Hd).
Defined.
#[export] Instance DurableJournal_authorized_laws : AuthorizedJournalLaws DurableJournal.
Proof.
  split.
  - intros [j records Hj] r d' [= <- <-]. cbn [journal_records DurableJournal_laws durable_records]. split; [done|].
    destruct (file_snapshot_logged _ _ _ _ Hj (surjective_pairing (file_snapshot j))) as [_ H].
    cbn [durable_file]. destruct ((file_snapshot j).1); [tauto|done].
  - intros a s d j r a' j' Hd. exact (durable_authorized_spec _ _ _ _ _ _ _ Hd).
  - intros a s d j r a' j' Hd. exact (durable_authorized_spec _ _ _ _ _ _ _ Hd).
  - intros a s d j r a' j' Hd. exact (durable_authorized_spec _ _ _ _ _ _ _ Hd).
  - intros a t j r a' j' Hd. exact (durable_authorized_spec _ _ _ _ _ _ _ Hd).
Defined.

(** ** Histories of a transaction on its journal file *)

Section disk.
Context {B K : Type} `{HB : RenameBackend B, HK : ExecutionControl K}.
Context `{!RenameBackendLaws B, !ObservingBackend B}.
Variables (loc : PathKey -> list Z) (known : PathKey -> Prop).

Abbreviation DiskWorld := (World B DurableJournal K).

(** The process restarted: the journal is what opening the leaf yields when the
    file there holds the bytes that were left, and the filesystem is as it was.
    The fields of the journalled records are in the ranges of their types. *)
Record disk_reopened (w w' : DiskWorld) : Prop := mkDiskReopened {
  disk_typed : Forall record_ok (durable_records (journal w));
  disk_opened : exists root leaf fresh system f, finds system (durable_file (journal w)) f /\
    open_existing_retained root leaf fresh system = Ok (durable_file (journal w'));
  disk_occupant : forall k, occupant (backend w') k = occupant (backend w) k;
  disk_keys : forall p, path_key (backend w') p = path_key (backend w) p;
  disk_named : forall steps, journal_of steps w' -> endpoints_named loc known (path_key (backend w')) steps (backend w')
}.
Inductive disk_lifetime (plan : RenamePlan) (w : DiskWorld) : DiskWorld -> Prop :=
| disk_executing w' : interrupted handle (execute_with_control plan) w w' -> disk_lifetime plan w w'
| disk_recovering w1 w2 w3 :
    disk_lifetime plan w w1 -> disk_reopened w1 w2 -> interrupted handle_recovery recover w2 w3 ->
    disk_lifetime plan w w3.

Lemma logged_shown j records records' :
  logged j records -> poisoned j = false -> file_records j = records' -> records = records'.
Proof. intros (valid & _ & Hh) Hp Hr. rewrite <-Hr. symmetry. apply (healthy_records _ _ _ (Hh Hp)). Qed.
Lemma disk_reopened_records w w' : disk_reopened w w' -> durable_records (journal w') = durable_records (journal w).
Proof.
  intros [Htyped (root & leaf & fresh & system & f & [Hf Hc] & Hopen) _ _ _].
  destruct (durable_logged (journal w)) as (valid & Hlog & _). rewrite <-Hc in Hlog.
  pose proof (open_logged root leaf fresh system f _ valid Hf Hlog Htyped) as Hr. rewrite Hopen in Hr.
  destruct Hr as (_ & Hp & Hrec & _). by eapply logged_shown; [apply durable_logged| |].
Qed.
Lemma disk_lifetime_lifetime plan w w' :
  disk_lifetime plan w w' -> lifetime (J:=DurableJournal) loc known plan w w'.
Proof.
  induction 1 as [w' Hint|w1 w2 w3 _ IH Hre Hint]; [by apply life_executing|].
  eapply life_recovering; [exact IH| |exact Hint]. destruct (Hre) as [_ _ Ho Hk Hn].
  split; [exact (disk_reopened_records _ _ Hre)|done..].
Qed.

Lemma accounts_not_corrupt id steps k r : recovery_accounts id steps k r -> is_corrupt r = false.
Proof. destruct r as [|p f b [s d| |c]]; cbn; [done|done|done|by intros [_ []]]. Qed.

(** C4: What a crash leaves on disk accounts for the filesystem.  However often the
    process dies, during the execution of a plan or during any of the recoveries
    that follow, and however the system calls on the journal file fail or stop
    half-way: the bytes of the journal file decode to records that start with the
    intent of a schedule computed for the plan, the paths are occupied as after the
    first [k] moves of that same schedule, and the records account for [k], up to
    the one move they report prepared.  The only other thing the file can be is
    empty or less than its first frame, and then every path is occupied as before. *)
Theorem disk_crash_safe plan (w w' : DiskWorld) :
  durable_records (journal w) = [] ->
  plan_observed plan loc known (path_key (backend w)) (occupant (backend w))
    (answers_of (B:=B) (J:=DurableJournal) (K:=K) (path_key (backend w)) (occupant (backend w))) ->
  disk_lifetime plan w w' -> Forall record_ok (durable_records (journal w')) ->
  match inspect_journal_records (contents (file (durable_file (journal w')))) with
  | Ok inspection =>
      (contents (file (durable_file (journal w'))) = [] /\ forall x, occupant (backend w') x = occupant (backend w) x) \/
      exists steps k,
        scheduled (B:=B) (J:=DurableJournal) (K:=K) (path_key (backend w)) (occupant (backend w)) plan steps /\
        head (inspected_records inspection) = Some (Intent (plan_id plan) (map journal_step steps)) /\
        moves (path_key (backend w)) (occupant (backend w)) (take k steps) (occupant (backend w')) /\
        recovery_accounts (plan_id plan) steps k (replay_journal (inspected_records inspection))
  | Err e => e = mkCodecError 0 TruncatedFrame /\ forall x, occupant (backend w') x = occupant (backend w) x
  end.
Proof.
  intros Hj Hplan Hlife%disk_lifetime_lifetime Htyped.
  pose proof (transaction_left _ _ _ _ (lifetime_ok loc known plan _ _ Hplan w w' (untouched_start w Hj) Hlife)) as Hleft.
  change (journal_records (journal w')) with (durable_records (journal w')) in Hleft.
  destruct (durable_logged (journal w')) as (valid & Hlog & _).
  pose proof (inspect_log _ _ _ Hlog Htyped) as Hi. destruct Hleft as [[Hnil Hsame]|(steps & Hs & k & Hh & Hm & Ha)].
  - rewrite Hnil in Hi. specialize (Hi eq_refl). rewrite bool_decide_true in Hi by done.
    destruct (contents (file (durable_file (journal w')))); cbn in Hi |- *; [|rewrite Hi; auto].
    destruct Hi as (issue & -> & _). by left.
  - specialize (Hi (accounts_not_corrupt _ _ _ _ Ha)). rewrite bool_decide_false in Hi by (intros E; by rewrite E in Hh).
    destruct Hi as (issue & -> & _). right. by exists steps, k.
Qed.
End disk.

(** ** A concrete history: the swap with a torn record

    The intent and the first preparation are synced; the record of the first move
    stops after ten bytes.  The next process reopens the journal, and is killed in
    its recovery after the torn tail was cut off and one move reversed. *)

Lemma example_logged : logged example_file [].
Proof.
  destruct (history_has_log _ _ _ (history_candidate example_root _ _ _ _ _ example_created)) as (records & [Hj _ Hr]).
  cbn in Hr. by rewrite Hr in Hj.
Qed.
Definition example_disk_world : World MemoryBackend DurableJournal CancellationToken :=
  mkWorld example_backend (mkDurable example_file [] example_logged) (cancellation_token_new []).
Definition example_disk_crash : World MemoryBackend DurableJournal CancellationToken :=
  (run handle (execute_with_control example_plan) example_disk_world).2.
#[local] Strategy opaque [example_disk_crash].

Definition left_file : OpenFile :=
  mkOpenFile (contents (file (durable_file (journal example_disk_crash)))) 0 (text "active.drj") false [].
Definition reopened_file : FileJournal :=
  match open_existing_retained example_root (text "active.drj") 2 (quiet_open left_file) with
  | Ok j => j
  | Err _ => example_file
  end.
Lemma example_reopens :
  open_existing_retained example_root (text "active.drj") 2 (quiet_open left_file) = Ok reopened_file.
Proof. vm_compute. reflexivity. Qed.
Ltac computed_log records :=
  let log := eval vm_compute in records in
  replace records with log by (vm_compute; reflexivity).
Lemma example_typed : Forall record_ok (durable_records (journal example_disk_crash)).
Proof.
  computed_log (durable_records (journal example_disk_crash)).
  repeat constructor; vm_compute; intros; discriminate.
Qed.
Lemma reopen_relogged (d : DurableJournal) root leaf fresh f j :
  contents f = contents (file (durable_file d)) -> Forall record_ok (durable_records d) ->
  open_existing_retained root leaf fresh (quiet_open f) = Ok j -> logged j (durable_records d).
Proof.
  intros Hc Htyped Hopen. destruct (durable_logged d) as (valid & Hlog & _). rewrite <-Hc in Hlog.
  pose proof (open_logged root leaf fresh (quiet_open f) f _ valid eq_refl Hlog Htyped) as Hr.
  rewrite Hopen in Hr. apply Hr.
Qed.
Lemma example_left : contents left_file = contents (file (durable_file (journal example_disk_crash))).
Proof. unfold left_file. apply contents_open. Qed.
Definition example_relogged : logged reopened_file (durable_records (journal example_disk_crash)) :=
  reopen_relogged _ _ _ _ _ _ example_left example_typed example_reopens.
Definition example_disk_restart : World MemoryBackend DurableJournal CancellationToken :=
  mkWorld (backend example_disk_crash) (mkDurable reopened_file _ example_relogged) (control example_disk_crash).
Definition example_disk_second_crash : World MemoryBackend DurableJournal CancellationToken :=
  (interrupt_after handle_recovery 5 recover example_disk_restart).2.

Lemma restart_reopens (w : World MemoryBackend DurableJournal CancellationToken) root leaf fresh f j Hj :
  Forall record_ok (durable_records (journal w)) -> contents f = contents (file (durable_file (journal w))) ->
  open_existing_retained root leaf fresh (quiet_open f) = Ok j ->
  match durable_records (journal w) with
  | Intent _ steps :: _ => forallb (Lifetime.example_step (backend w)) steps
  | _ => false
  end = true ->
  disk_reopened example_loc example_known w
    (mkWorld (backend w) (mkDurable j (durable_records (journal w)) Hj) (control w)).
Proof.
  intros Htyped Hc Hopen Hnamed. split; [done| |done|done|].
  - by exists root, leaf, fresh, (quiet_open f), f.
  - intros steps Hsteps. eapply example_named, example_manifest; [|exact Hsteps]. exact Hnamed.
Qed.
Lemma example_steps_named :
  match durable_records (journal example_disk_crash) with
  | Intent _ steps :: _ => forallb (Lifetime.example_step (backend example_disk_crash)) steps
  | _ => false
  end = true.
Proof. vm_compute. reflexivity. Qed.
Lemma example_disk_reopened : disk_reopened example_loc example_known example_disk_crash example_disk_restart.
Proof.
  exact (restart_reopens example_disk_crash example_root (text "active.drj") 2 left_file reopened_file example_relogged
    example_typed example_left example_reopens example_steps_named).
Qed.
#[local] Strategy expand [example_disk_crash example_disk_second_crash].
Lemma example_disk_lifetime :
  disk_lifetime example_loc example_known example_plan example_disk_world example_disk_second_crash.
Proof.
  refine (disk_recovering _ _ _ _ example_disk_crash example_disk_restart _ _ example_disk_reopened _).
  - apply disk_executing. exact (run_interrupted handle (execute_with_control example_plan) example_disk_world).
  - exact (interrupt_after_interrupted handle_recovery 5 recover example_disk_restart).
Qed.
Lemma example_second_typed : Forall record_ok (durable_records (journal example_disk_second_crash)).
Proof.
  computed_log (durable_records (journal example_disk_second_crash)).
  repeat constructor; vm_compute; intros; discriminate.
Qed.
(** One move was done and reversed, and the file has the three records behind the
    intent: the torn one is gone. *)
Lemma disk_crash_safe_witness :
  memory_file_id (text "C:\a") (backend example_disk_second_crash) = Some 10 /\
  length (contents (file (durable_file (journal example_disk_crash)))) = 692%nat /\
  match inspect_journal_records (contents (file (durable_file (journal example_disk_second_crash)))) with
  | Ok inspection => exists steps k,
      scheduled (B:=MemoryBackend) (J:=DurableJournal) (K:=CancellationToken)
        (path_key example_backend) (occupant example_backend) example_plan steps /\
      head (inspected_records inspection) = Some (Intent 5 (map journal_step steps)) /\
      moves (path_key example_backend) (occupant example_backend) (take k steps)
        (occupant (backend example_disk_second_crash)) /\
      recovery_accounts 5 steps k (replay_journal (inspected_records inspection))
  | Err _ => False
  end.
Proof.
  split; [vm_compute; reflexivity|]. split; [vm_compute; reflexivity|].
  pose proof (disk_crash_safe example_loc example_known example_plan example_disk_world example_disk_second_crash
    eq_refl example_observed_with example_disk_lifetime example_second_typed) as H.
  destruct (inspect_journal_records _) as [inspection|e] eqn:Hi.
  - destruct H as [[H _]|H]; [vm_compute in H; discriminate H|exact H].
  - vm_compute in Hi. discriminate Hi.
Defined.
