(* ===== verification/Startup.v ===== *)
(** * Startup: the journals found when the program starts

    [crates/darknamer-app/src/windows/safe_runtime.rs] and the runtime lock of
    file_journal.rs: which of the two journal files are opened, kept, blocked or
    deleted, and whether the program may change anything.  The status texts are not
    modelled. *)

From S2P Require Import Prelude Collections LegacyText RenameModel Journal Codec CodecCorrect Executor Activation.
From S2P Require Import FileJournal FileJournalCorrect FileJournalGuarantees.

Definition ACTIVE_JOURNAL_LEAF : LegacyText := text "active.drj".
Definition CANDIDATE_JOURNAL_LEAF : LegacyText := text "candidate.drj".

(** ** The runtime lock *)

(** What the system answers while the lock leaf is acquired: opened, else created,
    then the checks of [validate_file_type] and, for a private root, of links and
    private state. *)
Record LockAnswers : Type := mkLockAnswers {
  lock_opened : result IoError unit;
  lock_created : result IoError unit;
  lock_type : result IoError FileType;
  lock_one_link : result IoError bool;
  lock_private : result IoError unit
}.
Definition acquire_runtime_lock (root : JournalRoot) (private_root : bool) (leaf : LegacyText) (system : LockAnswers)
  : result FileJournalError unit :=
  _ ← child root leaf;
  _ ← match lock_opened system with
      | Ok _ => Ok tt
      | Err (Some code) =>
          if (code =? 2) || (code =? 3) then map_err file_error_of_io (lock_created system)
          else Err (file_error_of_io (Some code))
      | Err None => Err (file_error_of_io None)
      end;
  _ ← validate_file_type (lock_type system);
  _ ← (if private_root : bool then
         one_link ← map_err file_error_of_io (lock_one_link system);
         if negb one_link then Err (file_error_of_io None) else Ok tt
       else Ok tt);
  if private_root then map_err file_error_of_io (lock_private system) else Ok tt.

(** ** The journals *)

Inductive JournalRole : Type := RoleActive | RoleCandidate.
#[export] Instance JournalRole_eq_dec : EqDecision JournalRole.
Proof. solve_decision. Defined.
Inductive StartupJournalBlock : Type :=
| Evidence (role : JournalRole) (evidence : RecoveryJournalEvidence)
| Unavailable (role : JournalRole) (path : JournalPath) (failure : JournalOpenFailure).
Definition block_role (block : StartupJournalBlock) : JournalRole :=
  match block with Evidence role _ => role | Unavailable role _ _ => role end.
Definition block_evidence (block : StartupJournalBlock) : option RecoveryJournalEvidence :=
  match block with Evidence _ evidence => Some evidence | Unavailable _ _ _ => None end.
Definition from_open_error (role : JournalRole) (error : ExistingJournalOpenError) : option StartupJournalBlock :=
  if is_not_found error then None
  else
    Some (match error_evidence error with
          | Some evidence => Evidence role evidence
          | None => Unavailable role (error_path error) (error_failure error)
          end).

(** [dropped] is the empty candidate that was closed after its deletion was set. *)
Record SafeRuntime : Type := mkRuntime {
  runtime_root : JournalRoot;
  active_journal : option FileJournal;
  staged_journal : option FileJournal;
  blocked_journals : list StartupJournalBlock;
  collision_observed : bool;
  recovery_locked : bool;
  dropped : option FileJournal
}.

(** An opened journal, or the block for one that did not open. *)
Definition open_outcome (role : JournalRole) (opened : result ExistingJournalOpenError FileJournal)
  : option FileJournal * list StartupJournalBlock :=
  match opened with
  | Ok journal => (Some journal, [])
  | Err error => (None, match from_open_error role error with Some block => [block] | None => [] end)
  end.
Definition observed_role (journal : option FileJournal) (role : JournalRole) (blocked : list StartupJournalBlock) : bool :=
  bool_decide (is_Some journal) || existsb (fun block => bool_decide (block_role block = role)) blocked.

(** From the root and the lock on; [fresh] and [fresh + 1] are the next values of
    the identity counter. *)
Definition start_runtime (root : JournalRoot) (fresh : Z) (active_system candidate_system : OpenAnswers) : SafeRuntime :=
  let (active, active_blocked) :=
    open_outcome RoleActive (open_existing_retained root ACTIVE_JOURNAL_LEAF fresh active_system) in
  let (staged, staged_blocked) :=
    open_outcome RoleCandidate
      (open_candidate_existing_retained root CANDIDATE_JOURNAL_LEAF ACTIVE_JOURNAL_LEAF (fresh + 1) candidate_system) in
  let blocked := active_blocked ++ staged_blocked in
  if observed_role active RoleActive blocked && observed_role staged RoleCandidate blocked
  then mkRuntime root active staged blocked true true None
  else
    let finish staged dropped :=
      match active with
      | None =>
          mkRuntime root None staged blocked false
            (bool_decide (is_Some staged) || negb (bool_decide (length blocked = 0%nat))) dropped
      | Some journal => mkRuntime root (Some journal) staged blocked false true dropped
      end in
    match staged with
    | Some journal =>
        if is_physically_empty_candidate journal then
          match mark_delete_if_safe journal with
          | (Err _, journal) => mkRuntime root None (Some journal) blocked false true None
          | (Ok _, journal) => finish None (Some journal)
          end
        else finish staged None
    | None => finish staged None
    end.

(** [open_private] of the root and the lock come first; every failure ends the start. *)
Definition initialize_safe_runtime_at (absolute : bool) (root : result FileJournalError JournalRoot)
    (lock_system : LockAnswers) (fresh : Z) (active_system candidate_system : OpenAnswers) : option SafeRuntime :=
  if negb absolute then None
  else
    match root with
    | Err _ => None
    | Ok root =>
        match acquire_runtime_lock root true (text "runtime.lock") lock_system with
        | Err _ => None
        | Ok _ => Some (start_runtime root fresh active_system candidate_system)
        end
    end.

(** ** Cleanup of a journal *)

Record JournalCleanup : Type := mkCleanup { retained : option FileJournal; cleanup_error : option FileJournalError }.
(** With the journal that was closed after its deletion was set. *)
Definition cleanup_file_journal (journal : FileJournal) : JournalCleanup * option FileJournal :=
  if bool_decide (cleanup_decision (file_records journal) = Retain) then (mkCleanup (Some journal) None, None)
  else
    match mark_delete_if_safe journal with
    | (Ok _, journal) => (mkCleanup None None, Some journal)
    | (Err error, journal) => (mkCleanup (Some journal) (Some error), None)
    end.

(** ** Properties *)

(** An opened file is kept with its bytes, in a journal or as evidence. *)
Definition kept_bytes (f : OpenFile) (r : result ExistingJournalOpenError FileJournal) : Prop :=
  match r with
  | Ok j => contents (file j) = contents f /\ byte_length j = length (contents f)
  | Err e => exists evidence, error_evidence e = Some evidence /\ contents (evidence_file evidence) = contents f
  end.
Lemma resume_kept root path fresh system f : kept_bytes f (resume_opened root path fresh system f).
Proof.
  unfold resume_opened. destruct (opened_type system) as [metadata|e]; [|by eexists].
  destruct (opened_private system); [|by eexists]. destruct (has_one_link system); [|by eexists].
  destruct (negb (is_regular metadata) || is_reparse metadata || negb a0); [by eexists|].
  destruct (Z.ltb_spec MAX_JOURNAL_FILE_BYTES (Z.of_nat (length (contents f)))); [by eexists|].
  destruct (read_journal f) as [[bytes|e] f1] eqn:Hr; apply read_journal_spec in Hr as [Hc Hb]; try (unfold zlen; lia).
  2: { eexists. by split. }
  subst bytes. destruct (_ <? _); [by eexists|].
  destruct (inspect_journal_records (contents f)) as [inspection|e]; [|by eexists].
  destruct (seek_end f1) as [[u|e] f2] eqn:Hs; apply seek_end_spec in Hs as [Hc2 _]; rewrite Hc in Hc2.
  2: { eexists. by split. }
  destruct (_ <? _); [by eexists|]. destruct (opened_root system); [|by eexists]. destruct (opened_chain system); [done|by eexists].
Qed.
(** The leaf that holds a file is not a link. *)
Definition finds_file (system : OpenAnswers) (f : OpenFile) : Prop := leaf_is_link system = Ok false /\ opened system = Ok f.
Lemma open_kept root leaf fresh system f :
  validate_windows_leaf_name leaf = Ok tt -> finds_file system f -> kept_bytes f (open_existing_retained root leaf fresh system).
Proof.
  intros Hleaf [Hlink Hf]. unfold open_existing_retained, child. rewrite Hleaf, Hlink, Hf. apply resume_kept.
Qed.

Lemma open_candidate_kept root candidate active fresh system f :
  validate_windows_leaf_name candidate = Ok tt -> validate_windows_leaf_name active = Ok tt -> finds_file system f ->
  kept_bytes f (open_candidate_existing_retained root candidate active fresh system).
Proof.
  intros Hc Ha Hf. unfold open_candidate_existing_retained, child at 1. rewrite Ha.
  pose proof (open_kept root candidate fresh system f Hc Hf) as Hk.
  destruct (open_existing_retained root candidate fresh system) as [j|e]; [|done]. cbn [mbind result_bind].
  destruct (negb _); [|done]. eexists. split; [done|]. apply Hk.
Qed.

(** An outcome shows the file: as the journal or as the block's evidence. *)
Definition shows (role : JournalRole) (f : OpenFile) (journal : option FileJournal) (blocked : list StartupJournalBlock) : Prop :=
  (exists j, journal = Some j /\ contents (file j) = contents f) \/
  exists evidence, Evidence role evidence ∈ blocked /\ contents (evidence_file evidence) = contents f.
Lemma outcome_shows role f opened journal blocked :
  kept_bytes f opened -> open_outcome role opened = (journal, blocked) -> shows role f journal blocked.
Proof.
  destruct opened as [j|e]; cbn [open_outcome kept_bytes].
  - intros [Hc _] [= <- <-]. left. eauto.
  - intros (evidence & He & Hc) [= <- <-]. right. exists evidence. split; [|done].
    unfold from_open_error, is_not_found. rewrite He. by left.
Qed.
Lemma shows_observed role f journal blocked : shows role f journal blocked -> observed_role journal role blocked = true.
Proof.
  unfold observed_role. intros [(j & -> & _)|(evidence & Hin & _)]; [done|]. apply orb_true_iff. right.
  apply existsb_exists. eexists. split; [by apply list_elem_of_In|]. by apply bool_decide_eq_true.
Qed.
Lemma shows_app role f journal blocked extra before :
  shows role f journal blocked -> shows role f journal (before ++ blocked ++ extra).
Proof. intros [H|(evidence & Hin & Hc)]; [by left|right]. exists evidence. split; [set_solver|done]. Qed.
Lemma shows_blocks role f blocked : shows role f None blocked -> negb (bool_decide (length blocked = 0%nat)) = true.
Proof.
  intros [(j & [=] & _)|(evidence & Hin & _)]. apply negb_true_iff, bool_decide_eq_false.
  intros Hnil%nil_length_inv. rewrite Hnil in Hin. by apply elem_of_nil in Hin.
Qed.
Lemma unobserved_none journal role blocked : observed_role journal role blocked = false -> journal = None.
Proof. unfold observed_role. destruct journal; [|done]. by rewrite bool_decide_true. Qed.

(** C20: Starting never forgets a journal.  When the active leaf holds a file, the
    program starts locked, nothing is deleted, and the bytes of the file are kept:
    in the journal that recovery will use, or as evidence of why it cannot.  A file
    at the candidate leaf is kept and locks the program the same way, unless it is
    empty and there is no active one: only then may it be deleted. *)
Theorem startup_never_forgets root fresh active_system candidate_system :
  let runtime := start_runtime root fresh active_system candidate_system in
  (forall f, finds_file active_system f ->
     recovery_locked runtime = true /\ dropped runtime = None /\
     shows RoleActive f (active_journal runtime) (blocked_journals runtime)) /\
  (forall f, finds_file candidate_system f ->
     recovery_locked runtime = true /\ shows RoleCandidate f (staged_journal runtime) (blocked_journals runtime) \/
     contents f = [] /\ is_Some (dropped runtime) /\ active_journal runtime = None).
Proof.
  cbn zeta. unfold start_runtime.
  destruct (open_outcome RoleActive _) as [active active_blocked] eqn:Ha.
  destruct (open_outcome RoleCandidate _) as [staged staged_blocked] eqn:Hs.
  set (blocked := active_blocked ++ staged_blocked).
  assert (forall f, finds_file active_system f -> shows RoleActive f active blocked) as Hactive.
  { intros f Hf. apply (shows_app _ _ _ _ staged_blocked []). eapply outcome_shows; [|exact Ha]. apply open_kept; [by vm_compute|done]. }
  assert (forall f, finds_file candidate_system f -> shows RoleCandidate f staged blocked /\
    (forall j, staged = Some j -> contents (file j) = contents f /\ byte_length j = length (contents f))) as Hcandidate.
  { intros f Hf. assert (kept_bytes f (open_candidate_existing_retained root CANDIDATE_JOURNAL_LEAF ACTIVE_JOURNAL_LEAF (fresh + 1) candidate_system))
      as Hk by (apply open_candidate_kept; [by vm_compute..|done]).
    split.
    - unfold blocked. rewrite <-(app_nil_r staged_blocked). apply shows_app. by eapply outcome_shows.
    - intros j ->. destruct (open_candidate_existing_retained _ _ _ _ _); [|done]. by injection Hs as <- _. }
  destruct (observed_role active RoleActive blocked && observed_role staged RoleCandidate blocked) eqn:Hcollision.
  { cbn. split; [by auto|]. intros f Hf. left. split; [done|]. by apply Hcandidate. }
  split.
  - intros f Hf. specialize (Hactive f Hf). rewrite (shows_observed _ _ _ _ Hactive) in Hcollision. cbn [andb] in Hcollision.
    rewrite (unobserved_none _ _ _ Hcollision). destruct active as [j|]; cbn; [auto|].
    rewrite (shows_blocks _ _ _ Hactive). auto.
  - intros f Hf. destruct (Hcandidate f Hf) as [Hshows Hlen]. rewrite (shows_observed _ _ _ _ Hshows), andb_true_r in Hcollision.
    rewrite (unobserved_none _ _ _ Hcollision). destruct staged as [j|].
    2: { left. cbn. rewrite (shows_blocks _ _ _ Hshows). auto. }
    destruct (Hlen j eq_refl) as [Hc Hb]. destruct (is_physically_empty_candidate j) eqn:Hempty; [|left; cbn; auto].
    assert (contents f = []) as Hnil.
    { unfold is_physically_empty_candidate in Hempty. rewrite !andb_true_iff, Nat.eqb_eq in Hempty. rewrite Hb in Hempty.
      apply nil_length_inv. tauto. }
    destruct (mark_delete_if_safe j) as [[u|e] j'] eqn:Hd; [right|left]; cbn; [by split|].
    apply delete_same_log in Hd as [Hsame _]. split; [done|]. left. exists j'. split; [done|].
    by rewrite (same_contents _ _ Hsame).
Qed.
(** An abandoned torn journal at the active leaf. *)
Lemma startup_never_forgets_witness :
  let runtime := start_runtime example_root 1 (quiet_open example_left_file) (quiet_open (mkOpenFile [] 0 (text "candidate.drj") false [])) in
  recovery_locked runtime = true /\ collision_observed runtime = true /\ dropped runtime = None /\
  shows RoleActive example_left_file (active_journal runtime) (blocked_journals runtime).
Proof.
  intros runtime. destruct (startup_never_forgets example_root 1 (quiet_open example_left_file)
    (quiet_open (mkOpenFile [] 0 (text "candidate.drj") false []))) as [Hactive _].
  destruct (Hactive example_left_file (conj eq_refl eq_refl)) as (Hl & Hd & Hs).
  split; [exact Hl|]. split; [vm_compute; reflexivity|]. split; [exact Hd|exact Hs].
Defined.

(** Cleanup keeps every journal that recovery needs. *)
Lemma cleanup_keeps_unfinished journal :
  file_records journal <> [] -> replay_journal (file_records journal) <> Clean ->
  cleanup_file_journal journal = (mkCleanup (Some journal) None, None).
Proof.
  intros Hne Hdirty. unfold cleanup_file_journal, cleanup_decision. destruct (file_records journal) as [|r rs] eqn:Hr; [done|].
  rewrite <-Hr in *. rewrite (bool_decide_false (_ = Clean)) by done. by rewrite andb_false_r.
Qed.
