(* ===== verification/WindowsNative.v ===== *)
(** * WindowsNative: handle-relative primitives over the native calls

    [crates/darknamer-app/src/rename/windows_native.rs]: the parsing of a local
    path, directories opened component by component, the checks of an opened
    directory, identities, normalised names and the rename without replacement.
    A function is a program over the system calls it makes, in their order; what
    the calls answer is NativeSystem's subject.  Paths follow the parsing of
    std::path on Windows, over their UTF-16 units. *)

From S2P Require Import Prelude LegacyText RenameModel Effects Codec.

(** ** System calls *)

Abbreviation Handle := Z (only parsing).
(** [std::io::Error] by its [raw_os_error], an i32. *)
Definition OsError : Type := option Z.

Record FileMetadata : Type := mkMetadata { is_dir : bool; file_attributes : Z }.
Record FileIdInfo : Type := mkFileId { volume_serial_number : Z; identifier : list Z }.

Inductive native : Type -> Type :=
| GetDriveTypeW (root : list Z) : native Z
| TryReserveExact (capacity : Z) : native bool
| GetLastError : native Z
| OpenPath (path : list Z) (access share flags : Z) : native (result OsError Handle)
| NtCreateFile (root : Handle) (name : list Z) (access share disposition options : Z) : native (Z * Handle)
| RtlNtStatusToDosErrorNoTeb (status : Z) : native Z
| GetMetadata (file : Handle) : native (result OsError FileMetadata)
| QueryCaseSensitiveInfo (file : Handle) : native (option Z)
| QueryRemoteProtocolInfo (file : Handle) : native (option Z)
| QueryFileIdInfo (file : Handle) : native (option FileIdInfo)
| GetVolumeInformationByHandleW (file : Handle) (capacity : Z) : native (bool * list Z)
| GetFinalPathNameByHandleW (file : Handle) (capacity : Z) (flags : Z) : native (Z * list Z)
| NtSetRenameInformation (source : Handle) (flags : Z) (root : Handle) (name : list Z) : native Z
| CompareStringOrdinal (left right : list Z) (ignore_case : bool) : native Z
| LCMapStringEx (source : list Z) (capacity : Z) : native (Z * list Z)
| SystemTimeNanos : native (option Z)
| ProcessId : native Z
| FetchAddCounter : native Z.

Definition ask {Er X} (e : native X) : Prog native Er X := lift_prog (call e).

Definition i32_max : Z := 2 ^ 31 - 1.
(** [io::Error::from_raw_os_error]. *)
Definition from_raw_os_error (code : Z) : OsError := Some code.
(** An error of std without a system code ([io::Error::new], [io::Error::other]). *)
Definition plain_error : OsError := None.
(** [i32::try_from(code).unwrap_or(i32::MAX)]. *)
Definition code_as_i32 (code : Z) : Z := if code <=? i32_max then code else i32_max.
(** [io::Error::last_os_error]: the code as an i32, with wrap-around. *)
Definition last_os_error {A} : Prog native OsError A :=
  code ← ask GetLastError;
  throw (from_raw_os_error (if code <=? i32_max then code else code - 2 ^ 32)).

(** ** Constants *)

Definition FILE_SHARE_READ : Z := 1.
Definition FILE_SHARE_WRITE : Z := 2.
Definition FILE_SHARE_DELETE : Z := 4.
Definition SHARE_ALL : Z := Z.lor (Z.lor FILE_SHARE_READ FILE_SHARE_WRITE) FILE_SHARE_DELETE.
Definition SHARE_READ_WRITE : Z := Z.lor FILE_SHARE_READ FILE_SHARE_WRITE.
Definition FILE_TRAVERSE : Z := 32.
Definition FILE_READ_ATTRIBUTES : Z := 128.
Definition DELETE : Z := 65536.
Definition SYNCHRONIZE : Z := 1048576.
Definition FILE_OPEN : Z := 1.
Definition FILE_DIRECTORY_FILE : Z := 1.
Definition FILE_SYNCHRONOUS_IO_NONALERT : Z := 32.
Definition FILE_OPEN_REPARSE_POINT : Z := 2097152.
Definition FILE_FLAG_OPEN_REPARSE_POINT : Z := 2097152.
Definition FILE_FLAG_BACKUP_SEMANTICS : Z := 33554432.
Definition FILE_ATTRIBUTE_DIRECTORY : Z := 16.
Definition FILE_ATTRIBUTE_REPARSE_POINT : Z := 1024.
Definition FILE_CS_FLAG_CASE_SENSITIVE_DIR : Z := 1.
Definition DRIVE_REMOVABLE : Z := 2.
Definition DRIVE_FIXED : Z := 3.
Definition FILE_NAME_NORMALIZED : Z := 0.
Definition VOLUME_NAME_NONE : Z := 4.
Definition ERROR_UNRECOGNIZED_VOLUME : Z := 1005.
Definition ERROR_FILENAME_EXCED_RANGE : Z := 206.
Definition FILESYSTEM_NAME_CAPACITY : Z := 32.
Definition MAX_NORMALIZED_FINAL_PATH_UTF16_UNITS : Z := 32768.
Definition TRAVERSE_ACCESS : Z := Z.lor (Z.lor FILE_TRAVERSE FILE_READ_ATTRIBUTES) SYNCHRONIZE.
Definition DIRECTORY_OPTIONS : Z :=
  Z.lor (Z.lor FILE_DIRECTORY_FILE FILE_OPEN_REPARSE_POINT) FILE_SYNCHRONOUS_IO_NONALERT.

(** ** Paths ([std::path] on Windows) *)

Inductive PrefixKind : Type := Disk (letter : Z) | VerbatimDisk (letter : Z) | OtherPrefix.

Definition is_valid_drive_letter (unit : Z) : bool :=
  ((65 <=? unit) && (unit <=? 90)) || ((97 <=? unit) && (unit <=? 122)).
Definition parse_drive (path : list Z) : option Z :=
  match path with
  | letter :: colon :: _ =>
      if is_valid_drive_letter letter && (colon =? COLON) then Some (ascii_upper letter) else None
  | _ => None
  end.
Definition parse_drive_exact (path : list Z) : option Z :=
  match path !! 2%nat with
  | Some unit => if is_path_separator unit then parse_drive path else None
  | None => parse_drive path
  end.
Definition std_parse_next_component (path : list Z) : list Z * list Z :=
  match position is_path_separator path with
  | Some start => (take start path, drop (S start) path)
  | None => (path, [])
  end.
Definition normalize_slash (unit : Z) : Z := if unit =? SLASH then BACKSLASH else unit.

(** The prefix of a path; only its kind matters below. *)
Definition parse_prefix (path : list Z) : option PrefixKind :=
  let normalized := map normalize_slash path in
  if starts_with normalized [BACKSLASH; BACKSLASH] then
    if starts_with path [BACKSLASH; BACKSLASH; 63; BACKSLASH] then
      if starts_with (drop 4 normalized) (text "UNC\") then Some OtherPrefix
      else match parse_drive_exact (drop 4 path) with
           | Some letter => Some (VerbatimDisk letter)
           | None => Some OtherPrefix
           end
    else if starts_with (drop 2 normalized) [DOT; BACKSLASH] then Some OtherPrefix
    else
      let (server, rest) := std_parse_next_component (drop 2 path) in
      let (share, _) := std_parse_next_component rest in
      if is_empty server || is_empty share then None else Some OtherPrefix
  else Disk <$> parse_drive path.
Definition prefix_len (kind : PrefixKind) : nat := match kind with VerbatimDisk _ => 6%nat | _ => 2%nat end.

Inductive PathComponent : Type := CurDir | ParentDir | Normal (name : list Z).
(** The components behind the root: empty ones are skipped, [.] only where the
    path is not verbatim. *)
Definition parse_single_component (verbatim : bool) (component : list Z) : option PathComponent :=
  if is_empty component then None
  else if bool_decide (component = [DOT]) then if verbatim then Some CurDir else None
  else if bool_decide (component = [DOT; DOT]) then Some ParentDir
  else Some (Normal component).
Definition body_components (verbatim : bool) (body : list Z) : list PathComponent :=
  omap (parse_single_component verbatim)
    (split_units (if verbatim then Z.eqb BACKSLASH else is_path_separator) body).

Fixpoint normal_components (components : list PathComponent) : result OsError (list (list Z)) :=
  match components with
  | [] => Ok []
  | Normal name :: rest => names ← normal_components rest; Ok (name :: names)
  | _ :: _ => Err plain_error
  end.

(** The root of a local path and the names below it. *)
Definition traversal_parts (path : list Z) : result OsError (list Z * list (list Z)) :=
  match parse_prefix path with
  | None => Err plain_error
  | Some OtherPrefix => Err (from_raw_os_error 53)
  | Some kind =>
      match drop (prefix_len kind) path with
      | unit :: body =>
          if is_path_separator unit then
            names ← normal_components (body_components (match kind with VerbatimDisk _ => true | _ => false end) body);
            Ok (take (prefix_len kind) path ++ [BACKSLASH], names)
          else Err plain_error
      | [] => Err plain_error
      end
  end.

Definition drive_type_supported (drive_type : Z) : bool :=
  (drive_type =? DRIVE_FIXED) || (drive_type =? DRIVE_REMOVABLE).
Definition reject_unsupported_drive_type (path : list Z) : Prog native OsError unit :=
  match parse_prefix path with
  | Some (Disk letter) | Some (VerbatimDisk letter) =>
      drive_type ← ask (GetDriveTypeW [letter; COLON; BACKSLASH; 0]);
      if drive_type_supported drive_type then mret tt else throw (from_raw_os_error 53)
  | _ => throw (from_raw_os_error 53)
  end.
Definition validate_safe_local_root (path : list Z) : Prog native OsError unit :=
  reject_unsupported_drive_type path;;
  lift_result ((fun _ => tt) <$> traversal_parts path).

(** ** Opening *)

Definition open_relative (parent : Handle) (leaf : list Z) (desired_access share_access disposition options : Z)
  : Prog native OsError Handle :=
  if is_empty leaf || existsb (Z.eqb 0) leaf then throw plain_error
  else if 65535 <? zlen leaf * 2 then throw plain_error
  else
    '(status, handle) ← ask (NtCreateFile parent leaf desired_access share_access disposition options);
    if status <? 0 then
      code ← ask (RtlNtStatusToDosErrorNoTeb status);
      throw (from_raw_os_error (code_as_i32 code))
    else if handle =? 0 then throw plain_error
    else mret handle.

Definition open_root_directory (path : list Z) (share : Z) : Prog native OsError Handle :=
  try_call id (OpenPath path TRAVERSE_ACCESS share (Z.lor FILE_FLAG_OPEN_REPARSE_POINT FILE_FLAG_BACKUP_SEMANTICS)).

Definition metadata (file : Handle) : Prog native OsError FileMetadata := try_call id (GetMetadata file).
Definition has_attribute (attribute : Z) (m : FileMetadata) : bool :=
  negb (Z.land (file_attributes m) attribute =? 0).

Definition validate_directory_handle (file : Handle) : Prog native OsError unit :=
  m ← metadata file;
  if is_dir m && negb (has_attribute FILE_ATTRIBUTE_REPARSE_POINT m) then mret tt else throw plain_error.

Definition case_sensitive_flags_unsupported (flags : Z) : bool :=
  negb (Z.land flags FILE_CS_FLAG_CASE_SENSITIVE_DIR =? 0).
Definition reject_case_sensitive_directory (file : Handle) : Prog native OsError unit :=
  info ← ask (QueryCaseSensitiveInfo file);
  match info with
  | None => last_os_error
  | Some flags => if case_sensitive_flags_unsupported flags then throw (from_raw_os_error 50) else mret tt
  end.

Definition unsupported_filesystem_error : OsError := from_raw_os_error ERROR_UNRECOGNIZED_VOLUME.
Definition validate_ntfs_query_result (query_result : result OsError unit) (buffer : list Z) : result OsError unit :=
  query_result ≫= fun _ =>
  match position (Z.eqb 0) buffer with
  | None => Err unsupported_filesystem_error
  | Some nul =>
      if matches_ascii_ignore_case (take nul buffer) (text "NTFS") then Ok tt else Err unsupported_filesystem_error
  end.
Definition reject_unsupported_filesystem (file : Handle) : Prog native OsError unit :=
  '(success, buffer) ← ask (GetVolumeInformationByHandleW file FILESYSTEM_NAME_CAPACITY);
  if (success : bool) then lift_result (validate_ntfs_query_result (Ok tt) buffer) else last_os_error.

Definition reject_remote_protocol_if_reported (file : Handle) : Prog native OsError unit :=
  info ← ask (QueryRemoteProtocolInfo file);
  match info with
  | Some protocol => if negb (protocol =? 0) then throw (from_raw_os_error 53) else mret tt
  | None => mret tt
  end.

(** [NativeIdentity] holds the two numbers of an [EntryIdentity]. *)
Definition file_identity (file : Handle) : Prog native OsError EntryIdentity :=
  info ← ask (QueryFileIdInfo file);
  match info with
  | None => last_os_error
  | Some info => mret (mkIdentity (volume_serial_number info) (le_value (identifier info)))
  end.

(** ** Parents *)

Record NativeParent : Type := mkNativeParent { parent_file : Handle; native_identity : EntryIdentity }.
Record NativeParentChain : Type := mkChain { chain_ancestors : list NativeParent; chain_parent : NativeParent }.

(** The checks every directory of a path passes. *)
Definition check_directory (file : Handle) : Prog native OsError unit :=
  validate_directory_handle file;;
  reject_case_sensitive_directory file;;
  reject_remote_protocol_if_reported file.

Fixpoint extend_chain (directories : list NativeParent) (components : list (list Z))
  : Prog native OsError (list NativeParent) :=
  match components with
  | [] => mret directories
  | leaf :: components =>
      match last directories with
      | None => throw plain_error
      | Some previous =>
          file ← open_relative (parent_file previous) leaf TRAVERSE_ACCESS SHARE_READ_WRITE FILE_OPEN DIRECTORY_OPTIONS;
          check_directory file;;
          identity ← file_identity file;
          extend_chain (directories ++ [mkNativeParent file identity]) components
      end
  end.

(** [NativeParentChain::open_legacy]: every directory from the drive's root to the
    parent stays open without sharing its deletion. *)
Definition open_chain (path : LegacyText) : Prog native OsError NativeParentChain :=
  if MAX_NORMALIZED_FINAL_PATH_UTF16_UNITS <=? zlen path then throw (from_raw_os_error ERROR_FILENAME_EXCED_RANGE)
  else
    reject_unsupported_drive_type path;;
    '(root, components) ← lift_result (traversal_parts path);
    capacity ← lift_result (ok_or plain_error (checked_add (zlen components) 1));
    reserved ← ask (TryReserveExact capacity);
    if negb reserved then throw plain_error
    else
      root_file ← open_root_directory root SHARE_READ_WRITE;
      check_directory root_file;;
      reject_unsupported_filesystem root_file;;
      root_identity ← file_identity root_file;
      directories ← extend_chain [mkNativeParent root_file root_identity] components;
      match last directories with
      | None => throw plain_error
      | Some parent =>
          reject_unsupported_filesystem (parent_file parent);;
          mret (mkChain (removelast directories) parent)
      end.

(** Each directory replaces the one it was opened in. *)
Fixpoint descend (file : Handle) (components : list (list Z)) (final_share : Z) : Prog native OsError Handle :=
  match components with
  | [] => mret file
  | leaf :: components =>
      let share := if bool_decide (components = []) then final_share else SHARE_ALL in
      file ← open_relative file leaf TRAVERSE_ACCESS share FILE_OPEN DIRECTORY_OPTIONS;
      check_directory file;;
      descend file components final_share
  end.
Definition open_path_with_final_share (path : list Z) (final_share : Z) : Prog native OsError NativeParent :=
  reject_unsupported_drive_type path;;
  '(root, components) ← lift_result (traversal_parts path);
  file ← open_root_directory root (if bool_decide (components = []) then final_share else SHARE_ALL);
  check_directory file;;
  file ← descend file components final_share;
  reject_unsupported_filesystem file;;
  identity ← file_identity file;
  mret (mkNativeParent file identity).
Definition open_path (path : list Z) : Prog native OsError NativeParent := open_path_with_final_share path SHARE_ALL.
Definition open_path_without_delete_share (path : list Z) : Prog native OsError NativeParent :=
  open_path_with_final_share path SHARE_READ_WRITE.
(** [NativeParent::open_legacy]. *)
Definition open_legacy (path : LegacyText) : Prog native OsError NativeParent := open_path path.

Definition open_entry (parent : NativeParent) (leaf : list Z) (delete_access : bool) : Prog native OsError Handle :=
  let access := Z.lor (Z.lor FILE_READ_ATTRIBUTES SYNCHRONIZE) (if delete_access then DELETE else 0) in
  let share := if delete_access then SHARE_READ_WRITE else SHARE_ALL in
  open_relative (parent_file parent) leaf access share FILE_OPEN
    (Z.lor FILE_OPEN_REPARSE_POINT FILE_SYNCHRONOUS_IO_NONALERT).

(** ** Normalised names *)

Definition checked_final_path_capacity (required : Z) : Prog native OsError Z :=
  if required =? 0 then last_os_error
  else if MAX_NORMALIZED_FINAL_PATH_UTF16_UNITS <? required
  then throw (from_raw_os_error ERROR_FILENAME_EXCED_RANGE)
  else mret required.
(** The attempts left to fit the path into a buffer. *)
Fixpoint final_path_attempts (attempts : nat) (file : Handle) (capacity flags : Z) : Prog native OsError (list Z) :=
  match attempts with
  | O => throw (from_raw_os_error ERROR_FILENAME_EXCED_RANGE)
  | S attempts =>
      reserved ← ask (TryReserveExact capacity);
      if negb reserved then throw plain_error
      else
        '(written, path) ← ask (GetFinalPathNameByHandleW file capacity flags);
        if written =? 0 then last_os_error
        else if written <? capacity then mret (take (Z.to_nat written) path)
        else
          capacity ← checked_final_path_capacity written;
          final_path_attempts attempts file capacity flags
  end.
Definition normalized_final_path (file : Handle) (flags : Z) : Prog native OsError (list Z) :=
  '(required, _) ← ask (GetFinalPathNameByHandleW file 0 flags);
  capacity ← checked_final_path_capacity required;
  final_path_attempts 2 file capacity flags.
Definition normalized_leaf_from_final_path (path : list Z) : Prog native OsError (list Z) :=
  match rposition (Z.eqb BACKSLASH) path with
  | None => throw plain_error
  | Some separator =>
      let leaf := drop (S separator) path in
      if is_empty leaf || (MAX_WINDOWS_LEAF_NAME_UTF16_UNITS <? zlen leaf) || existsb (Z.eqb 0) leaf
      then throw plain_error
      else
        reserved ← ask (TryReserveExact (zlen leaf));
        if negb reserved then throw plain_error else mret leaf
  end.
Definition normalized_final_leaf (file : Handle) : Prog native OsError (list Z) :=
  path ← normalized_final_path file (Z.lor FILE_NAME_NORMALIZED VOLUME_NAME_NONE);
  normalized_leaf_from_final_path path.

(** ** The rename *)

(** [RenameBuffer::new] refuses the name before the call; no flag asks for
    replacement. *)
Definition rename_noreplace (source destination_parent : Handle) (destination_leaf : list Z)
  : Prog native OsError unit :=
  if is_empty destination_leaf || (MAX_WINDOWS_LEAF_NAME_UTF16_UNITS <? zlen destination_leaf)
     || existsb (Z.eqb 0) destination_leaf
  then throw plain_error
  else
    status ← ask (NtSetRenameInformation source 0 destination_parent destination_leaf);
    if status <? 0 then
      code ← ask (RtlNtStatusToDosErrorNoTeb status);
      throw (from_raw_os_error (code_as_i32 code))
    else mret tt.
