(* ===== verification/WindowsBackend.v ===== *)
(** * WindowsBackend: the production rename backend

    [crates/darknamer-app/src/rename/windows_backend.rs]: [RenameBackend] over the
    primitives of WindowsNative, each operation a program of native calls.  A
    handle is open until the operation that opened it returns. *)

From S2P Require Import Prelude LegacyText RenameModel Effects WindowsNative.

Definition ERROR_ALREADY_EXISTS : Z := 183.

(** ** Errors *)

(** [error_code]: a code that is no u32 is reported as 1. *)
Definition error_code (error : OsError) : Z :=
  match error with Some code => if 0 <=? code then code else 1 | None => 1 end.
Definition observe_error (op : BackendOperation) (error : OsError) : BackendError :=
  mkBackendError op (error_code error) NotApplied.
Definition mutation_error (c : MutationCertainty) (error : OsError) : BackendError :=
  mkBackendError OpRename (error_code error) c.
Definition invalid_path_error (op : BackendOperation) : BackendError := mkBackendError op 123 NotApplied.
Definition is_not_found (error : OsError) : bool :=
  match error with Some code => (code =? 2) || (code =? 3) | None => false end.
Definition io_code : Prog native BackendError Z :=
  code ← ask GetLastError;
  mret (error_code (Some (if code <=? i32_max then code else code - 2 ^ 32))).
(** [.map_err(|error| observe_error(error, Observe))?]. *)
Definition observing {A} (p : Prog native OsError A) : Prog native BackendError A :=
  map_prog_err (observe_error OpObserve) p.
(** [.map_err(|error| mutation_error(error, certainty))?]. *)
Definition mutating {A} (c : MutationCertainty) (p : Prog native OsError A) : Prog native BackendError A :=
  map_prog_err (mutation_error c) p.
Definition refuse {A} (code : Z) (c : MutationCertainty) : Prog native BackendError A :=
  throw (mkBackendError OpRename code c).

(** ** Paths *)

Definition is_drive_root_separator (units : list Z) (separator : nat) : bool :=
  ((separator =? 2)%nat && bool_decide (units !! 1%nat = Some COLON))
  || ((separator =? 6)%nat && starts_with units [BACKSLASH; BACKSLASH; 63; BACKSLASH]
      && bool_decide (units !! 5%nat = Some COLON)).

Definition is_absolute (units : list Z) : bool :=
  match units with
  | first :: second :: third :: rest =>
      is_valid_drive_letter first && (second =? COLON) && is_path_separator third
      || (2 <=? length rest)%nat && is_path_separator first && is_path_separator second
  | _ => false
  end.

Definition split_absolute_path (path : LegacyText) (op : BackendOperation)
  : result BackendError (LegacyText * LegacyText) :=
  match rposition is_path_separator path with
  | None => Err (invalid_path_error op)
  | Some separator =>
      if negb (is_absolute path) || (length path <=? S separator)%nat then Err (invalid_path_error op)
      else
        let parent_end := if is_drive_root_separator path separator then S separator else separator in
        let parent := take parent_end path in
        let leaf := drop (S separator) path in
        match validate_windows_leaf_name leaf with
        | Err _ => Err (invalid_path_error op)
        | Ok _ => Ok (parent, leaf)
        end
  end.

Definition join_parent_and_leaf (parent leaf : LegacyText) : LegacyText :=
  parent ++ (if last_is is_path_separator parent then [] else [BACKSLASH]) ++ leaf.

Definition path_components (path : LegacyText) : list (list Z) :=
  List.filter (fun component => negb (is_empty component)) (split_units is_path_separator path).

Definition ordinal_equal (left right : list Z) : Prog native BackendError bool :=
  if (i32_max <? zlen left) || (i32_max <? zlen right) then throw (invalid_path_error OpObserve)
  else
    answer ← ask (CompareStringOrdinal left right true);
    if answer =? 0 then
      code ← io_code;
      throw (mkBackendError OpObserve code NotApplied)
    else mret (answer =? 2).

Fixpoint all_ordinal_equal (pairs : list (list Z * list Z)) : Prog native BackendError bool :=
  match pairs with
  | [] => mret true
  | (ancestor, candidate) :: pairs =>
      equal ← ordinal_equal ancestor candidate;
      if negb equal then mret false else all_ordinal_equal pairs
  end.
Definition windows_is_same_or_descendant (ancestor candidate : LegacyText) : Prog native BackendError bool :=
  let ancestor := path_components ancestor in
  let candidate := path_components candidate in
  if (length candidate <? length ancestor)%nat then mret false
  else all_ordinal_equal (zip ancestor candidate).

(** ** Keys *)

(** The sizing call, then the mapping. *)
Definition invariant_uppercase (units : list Z) : prog native (option (list Z)) :=
  if i32_max <? zlen units then Ret None
  else
    prog_bind (call (LCMapStringEx units 0)) (fun '(needed, _) =>
    if needed <=? 0 then Ret None
    else
      prog_bind (call (LCMapStringEx units needed)) (fun '(written, mapped) =>
      Ret (if negb (written =? needed) then None else Some mapped))).

Definition windows_path_key (path : LegacyText) : prog native PathKey :=
  prog_bind (invariant_uppercase (map (fun unit => if unit =? SLASH then BACKSLASH else unit) path))
    (fun mapped => Ret (match mapped with Some key => key | None => [65535] end)).

Definition windows_planned_entry_key (parent : EntryIdentity) (leaf : LegacyText)
  : Prog native BackendError PathKey :=
  match validate_windows_leaf_name leaf with
  | Err _ => throw (invalid_path_error OpObserve)
  | Ok _ =>
      mapped ← lift_prog (invariant_uppercase leaf);
      match mapped with
      | Some normalized_leaf => mret (entry_key_from_parts parent normalized_leaf)
      | None =>
          code ← io_code;
          throw (mkBackendError OpObserve code NotApplied)
      end
  end.

(** ** Observing *)

Definition entry_kind (m : FileMetadata) : EntryKind :=
  if has_attribute FILE_ATTRIBUTE_DIRECTORY m then Directory else File.
(** The entry behind an open handle. *)
Definition observe_handle (file : Handle) : Prog native BackendError ObservedEntry :=
  m ← observing (metadata file);
  identity ← observing (file_identity file);
  mret (mkObserved identity (entry_kind m) (has_attribute FILE_ATTRIBUTE_REPARSE_POINT m)).
(** [open_entry] whose result is matched for "not found". *)
Definition try_open_entry (parent : NativeParent) (leaf : list Z) : prog native (result OsError (option Handle)) :=
  prog_bind (open_entry parent leaf false) (fun r =>
  Ret (match r with
       | Ok file => Ok (Some file)
       | Err error => if is_not_found error then Ok None else Err error
       end)).

Definition validate_destination_parent (path : LegacyText) : Prog native BackendError EntryIdentity :=
  observing (parent ← open_legacy path; mret (native_identity parent)).
Definition windows_validate_path_environment (path : LegacyText) : Prog native BackendError unit :=
  '(parent_path, _) ← lift_result (split_absolute_path path OpObserve);
  observing (open_legacy parent_path);;
  mret tt.

Definition windows_observe (path : LegacyText) : Prog native BackendError PathSnapshot :=
  '(parent_path, leaf) ← lift_result (split_absolute_path path OpObserve);
  parent ← observing (open_legacy parent_path);
  opened ← observing (try_open_entry parent leaf);
  match opened with
  | Some file =>
      entry ← observe_handle file;
      mret (mkSnapshot (native_identity parent) (Some entry))
  | None => mret (mkSnapshot (native_identity parent) None)
  end.

Definition windows_resolve_source (path : LegacyText) : Prog native BackendError ResolvedSource :=
  '(parent_path, leaf) ← lift_result (split_absolute_path path OpObserve);
  parent ← observing (open_legacy parent_path);
  opened ← observing (try_open_entry parent leaf);
  match opened with
  | None => mret (mkResolved path (mkSnapshot (native_identity parent) None) None)
  | Some source =>
      entry ← observe_handle source;
      normalized_leaf ← observing (normalized_final_leaf source);
      match validate_windows_leaf_name normalized_leaf with
      | Err _ => throw (invalid_path_error OpObserve)
      | Ok _ =>
          entry_key ← windows_planned_entry_key (native_identity parent) normalized_leaf;
          mret (mkResolved (join_parent_and_leaf parent_path normalized_leaf)
                  (mkSnapshot (native_identity parent) (Some entry)) (Some entry_key))
      end
  end.

Definition windows_next_transaction_nonce : Prog native BackendError Z :=
  counter ← ask FetchAddCounter;
  time ← ask SystemTimeNanos;
  match time with
  | None => throw (mkBackendError OpTransactionNonce 1 NotApplied)
  | Some nanos =>
      process ← ask ProcessId;
      mret (Z.max (Z.lxor (Z.lxor nanos (Z.shiftl process 64)) counter) 1)
  end.

(** ** The move *)

Definition check_source (operation : RenameOperation) (source_leaf : list Z) (source : Handle)
  : Prog native BackendError EntryIdentity :=
  m ← mutating NotApplied (metadata source);
  if has_attribute FILE_ATTRIBUTE_REPARSE_POINT m then refuse 4390 NotApplied
  else if match op_kind operation with Some kind => negb (bool_decide (entry_kind m = kind)) | None => false end
  then refuse 1168 NotApplied
  else
    source_identity ← mutating NotApplied (file_identity source);
    if negb (bool_decide (source_identity = expected_source operation)) then refuse 1168 NotApplied
    else
      actual_source_leaf ← mutating NotApplied (normalized_final_leaf source);
      if negb (bool_decide (actual_source_leaf = source_leaf)) then refuse 1168 NotApplied
      else mret source_identity.

(** After the native rename: the destination must name what was moved. *)
Definition verify_destination (destination_parent : NativeParent) (destination_leaf : list Z)
    (source_identity : EntryIdentity) : Prog native BackendError unit :=
  destination ← mutating MayHaveApplied (open_entry destination_parent destination_leaf false);
  observed ← mutating MayHaveApplied (file_identity destination);
  if negb (bool_decide (observed = source_identity)) then refuse 1168 MayHaveApplied else mret tt.

Definition rename_with_boundaries (operation : RenameOperation)
    (before_source_open before_native_sink : Prog native OsError unit) : Prog native BackendError unit :=
  match authorization_error operation with
  | Some error => throw error
  | None =>
      '(source_parent_path, source_leaf) ← lift_result (split_absolute_path (op_source operation) OpRename);
      '(destination_parent_path, destination_leaf) ←
        lift_result (split_absolute_path (op_destination operation) OpRename);
      source_chain ← mutating NotApplied (open_chain source_parent_path);
      destination_chain ← mutating NotApplied (open_chain destination_parent_path);
      let source_parent := chain_parent source_chain in
      let destination_parent := chain_parent destination_chain in
      if negb (bool_decide (native_identity source_parent = expected_source_parent operation))
         || negb (bool_decide (native_identity destination_parent = expected_destination_parent operation))
      then refuse 1168 NotApplied
      else
        mutating NotApplied before_source_open;;
        source ← mutating NotApplied (open_entry source_parent source_leaf true);
        source_identity ← check_source operation source_leaf source;
        occupied ← mutating NotApplied (try_open_entry destination_parent destination_leaf);
        match occupied with
        | Some _ => refuse ERROR_ALREADY_EXISTS NotApplied
        | None =>
            if negb (volume (native_identity source_parent) =? volume (native_identity destination_parent))
            then refuse ERROR_NOT_SAME_DEVICE NotApplied
            else
              mutating NotApplied before_native_sink;;
              mutating NotApplied (rename_noreplace source (parent_file destination_parent) destination_leaf);;
              verify_destination destination_parent destination_leaf source_identity
        end
  end.

Definition windows_rename_no_replace (operation : RenameOperation) : Prog native BackendError unit :=
  rename_with_boundaries operation (mret tt) (mret tt).
