(* ===== verification/NativeSystem.v ===== *)
(** * NativeSystem: what the native calls do to directories

    A system is a set of states in which directories name entries and handles are
    open on them, with the documented effect of each call as laws: a handle stays
    on its entry; a handle opened without sharing deletion pins the name it was
    opened by; a rename that succeeds moves the pinned name to a free one.  Other
    processes may act before every call, in any way the pins allow. *)

From S2P Require Import Prelude Collections LegacyText RenameModel Effects Codec WindowsNative.

Definition info_identity (info : FileIdInfo) : EntryIdentity :=
  mkIdentity (volume_serial_number info) (le_value (identifier info)).

(** A name that does not reach below the directory it is looked up in. *)
Definition simple_name (name : list Z) : Prop := Forall (fun unit => unit <> BACKSLASH) name.

Class NativeSystem (W : Type) := {
  fold_name : list Z -> list Z;
  root_directory : list Z -> EntryIdentity;
  links : W -> EntryIdentity -> list Z -> option EntryIdentity;
  handle_of : W -> Z -> option EntryIdentity;
  pinned : W -> Z -> EntryIdentity -> list Z -> EntryIdentity -> Prop;
  dos_error : Z -> Z;
  others : W -> W -> Prop;
  sys : forall X, native X -> W -> X -> W -> Prop
}.
#[global] Arguments sys {W _ X} _ _ _ _.

(** Whether the answer says that the call changed a directory. *)
Definition acted {X} (e : native X) : X -> bool :=
  match e with
  | NtCreateFile _ _ _ _ disposition _ => fun answer => negb (disposition =? FILE_OPEN) && (0 <=? answer.1)
  | NtSetRenameInformation _ _ _ _ => fun status => 0 <=? status
  | _ => fun _ => false
  end.

Definition keeps {W} `{NativeSystem W} (w w' : W) : Prop :=
  (forall h i, handle_of w h = Some i -> handle_of w' h = Some i) /\
  (forall h d l i, pinned w h d l i -> pinned w' h d l i).

(** The entry [i] leaves the name [from] for the free name [to]; no other name changes. *)
Definition entry_moved {W} `{NativeSystem W} (w w' : W) (from to : EntryIdentity * list Z) (i : EntryIdentity) : Prop :=
  links w from.1 from.2 = Some i /\ links w to.1 to.2 = None /\
  links w' to.1 to.2 = Some i /\ links w' from.1 from.2 = None /\
  forall d l, (d, l) <> from -> (d, l) <> to -> links w' d l = links w d l.

Class NativeLaws (W : Type) `{NativeSystem W} := {
  pinned_link : forall (w : W) h d l i, pinned w h d l i -> links w d l = Some i;
  others_keep : forall w w' : W, others w w' -> keeps w w';
  idle_keep : forall X (e : native X) (w : W) x w', sys e w x w' -> acted e x = false -> keeps w w';
  idle_links : forall X (e : native X) (w : W) x w',
    sys e w x w' -> acted e x = false -> forall d l, links w' d l = links w d l;
  root_opened : forall path access share flags (w : W) h w',
    sys (OpenPath path access share flags) w (Ok h) w' -> traversal_parts path = Ok (path, []) ->
    handle_of w' h = Some (root_directory path);
  entry_opened : forall parent name access share options (w : W) status h w' d,
    sys (NtCreateFile parent name access share FILE_OPEN options) w (status, h) w' ->
    0 <= status -> h <> 0 -> simple_name name -> Z.land options FILE_OPEN_REPARSE_POINT <> 0 ->
    handle_of w parent = Some d ->
    exists i, links w d (fold_name name) = Some i /\ handle_of w' h = Some i /\
              (Z.land share FILE_SHARE_DELETE = 0 -> pinned w' h d (fold_name name) i);
  entry_missing : forall parent name access share options (w : W) status h w' d,
    sys (NtCreateFile parent name access share FILE_OPEN options) w (status, h) w' ->
    status < 0 -> dos_error status = 2 \/ dos_error status = 3 -> simple_name name ->
    handle_of w parent = Some d -> links w d (fold_name name) = None;
  dos_error_answer : forall status (w : W) code w',
    sys (RtlNtStatusToDosErrorNoTeb status) w code w' -> code = dos_error status;
  identity_answer : forall file (w : W) info w' i,
    sys (QueryFileIdInfo file) w (Some info) w' -> handle_of w file = Some i -> info_identity info = i;
  rename_answer : forall source parent name (w : W) status w' d l i d',
    sys (NtSetRenameInformation source 0 parent name) w status w' -> 0 <= status ->
    pinned w source d l i -> handle_of w parent = Some d' -> simple_name name ->
    (d', fold_name name) <> (d, l) ->
    entry_moved w w' (d, l) (d', fold_name name) i /\
    (forall h j, handle_of w h = Some j -> handle_of w' h = Some j)
}.

(** ** Runs *)

(** One call: whether it changed a directory, and the states around it. *)
Record NativeStep (W : Type) : Type := mkStep { step_acted : bool; before : W; after : W }.
Arguments mkStep {W} _ _ _.
Arguments step_acted {W} _.
Arguments before {W} _.
Arguments after {W} _.

Section runs.
Context {W : Type} `{NativeLaws W}.

Inductive exec {A} : prog native A -> W -> list (NativeStep W) -> A -> W -> Prop :=
| exec_ret a w : exec (Ret a) w [] a w
| exec_vis X (e : native X) k w w1 x w2 t a w' :
    others w w1 -> sys e w1 x w2 -> exec (k x) w2 t a w' ->
    exec (Vis X e k) w (mkStep (acted e x) w1 w2 :: t) a w'.

(** The calls of a run that changed a directory. *)
Definition moves (t : list (NativeStep W)) : list (NativeStep W) := List.filter step_acted t.

(** Every run of [p] from [w] ends in [Q], which sees its steps. *)
Fixpoint nwp {A} (p : prog native A) (w : W) (Q : A -> W -> list (NativeStep W) -> Prop) : Prop :=
  match p with
  | Ret a => Q a w []
  | Vis X e k =>
      forall w1 x w2, others w w1 -> sys e w1 x w2 ->
      nwp (k x) w2 (fun a w' t => Q a w' (mkStep (acted e x) w1 w2 :: t))
  end.

Lemma nwp_exec {A} (p : prog native A) w t a w' Q : exec p w t a w' -> nwp p w Q -> Q a w' t.
Proof.
  intros Hexec. revert Q. induction Hexec as [a w|X e k w w1 x w2 t a w' Ho Hs _ IH]; intros Q Hp; [done|].
  apply (IH (fun a w' t => Q a w' (mkStep (acted e x) w1 w2 :: t))). by apply Hp.
Qed.
Lemma nwp_mono {A} (p : prog native A) w Q Q' :
  nwp p w Q -> (forall a w' t, Q a w' t -> Q' a w' t) -> nwp p w Q'.
Proof.
  revert w Q Q'. induction p as [a|X e k IH]; intros w Q Q' Hp HQ; [by apply HQ|].
  intros w1 x w2 Ho Hs. eapply IH; [by apply Hp|]. intros a w' t. apply HQ.
Qed.
Lemma nwp_bind {A B} (p : prog native A) (f : A -> prog native B) w R Q :
  nwp p w R -> (forall a w1 t1, R a w1 t1 -> nwp (f a) w1 (fun b w' t2 => Q b w' (t1 ++ t2))) ->
  nwp (prog_bind p f) w Q.
Proof.
  revert w R Q. induction p as [a|X e k IH]; intros w R Q Hp Hf; [by apply (Hf a w [])|].
  intros w1 x w2 Ho Hs. eapply IH; [by apply Hp|]. intros a w3 t Ht. by apply (Hf _ _ _ Ht).
Qed.

#[export] Instance keeps_preorder : PreOrder (keeps (W := W)).
Proof. split; [by split|]. intros w1 w2 w3 [H1 H2] [H3 H4]. split; eauto. Qed.

(** A program that changes no directory, with what its result says. *)
Definition quiet {Er A} (p : Prog native Er A) (w : W)
    (R : result Er A -> W -> list (NativeStep W) -> Prop) : Prop :=
  nwp p w (fun r w' t => keeps w w' /\ moves t = [] /\ R r w' t).

Lemma moves_app t t' : moves (t ++ t') = moves t ++ moves t'.
Proof. apply List.filter_app. Qed.

Lemma quiet_mono {Er A} (p : Prog native Er A) w (R R' : result Er A -> W -> list (NativeStep W) -> Prop) :
  quiet p w R -> (forall r w' t, keeps w w' -> R r w' t -> R' r w' t) -> quiet p w R'.
Proof. intros Hp HR. eapply nwp_mono; [exact Hp|]. intros r w' t (? & ? & ?). eauto. Qed.
Lemma quiet_ret {Er A} (r : result Er A) w (R : result Er A -> W -> list (NativeStep W) -> Prop) :
  R r w [] -> quiet (Ret r) w R.
Proof. intros HR. unfold quiet. simpl. split_and!; done. Qed.
Lemma quiet_sequence {Er A B} (p : Prog native Er A) (f : A -> Prog native Er B) w
    (R : result Er A -> W -> list (NativeStep W) -> Prop) Q :
  quiet p w R ->
  (forall a w1 t1, keeps w w1 -> R (Ok a) w1 t1 -> quiet (f a) w1 (fun r w2 t2 => Q r w2 (t1 ++ t2))) ->
  (forall e w1 t1, keeps w w1 -> R (Err e) w1 t1 -> Q (Err e) w1 t1) ->
  quiet (p ≫= f) w Q.
Proof.
  intros Hp Hf He. eapply nwp_bind; [exact Hp|]. intros [a|e] w1 t1 (Hk & Hm & HR).
  - eapply nwp_mono; [by apply (Hf a w1 t1)|]. intros r w2 t2 (Hk2 & Hm2 & HQ).
    split_and!; [by etransitivity|by rewrite moves_app, Hm, Hm2|done].
  - split_and!; [done|by rewrite app_nil_r|]. rewrite app_nil_r. by apply He.
Qed.
Lemma quiet_map_error {Er Er' A} (f : Er -> Er') (p : Prog native Er A) w Q :
  quiet p w (fun r w' t => Q (map_err f r) w' t) -> quiet (map_prog_err f p) w Q.
Proof.
  intros Hp. eapply nwp_bind; [exact Hp|]. intros r w1 t1 (Hk & Hm & HQ).
  simpl. by rewrite app_nil_r.
Qed.
Lemma quiet_try_option {Er Er' A B} (g : result Er A -> result Er' B) (p : Prog native Er A) w Q :
  quiet p w (fun r w' t => Q (g r) w' t) -> quiet (prog_bind p (fun r => Ret (g r))) w Q.
Proof.
  intros Hp. eapply nwp_bind; [exact Hp|]. intros r w1 t1 (Hk & Hm & HQ).
  simpl. by rewrite app_nil_r.
Qed.
Lemma quiet_vis {Er A X} (e : native X) (k : X -> Prog native Er A) w Q :
  (forall x, acted e x = false) ->
  (forall w1 x w2, keeps w w1 -> keeps w1 w2 -> sys e w1 x w2 ->
     quiet (k x) w2 (fun r w' t => Q r w' (mkStep false w1 w2 :: t))) ->
  quiet (Vis X e k) w Q.
Proof.
  intros Hidle Hk w1 x w2 Ho Hs. rewrite Hidle.
  assert (keeps w w1) as H1 by by apply others_keep.
  assert (keeps w1 w2) as H2 by (eapply idle_keep; [exact Hs|apply Hidle]).
  eapply nwp_mono; [by apply Hk|]. intros r w' t (H3 & Hm & HQ).
  split_and!; [|done|done]. by etransitivity; [|etransitivity].
Qed.

(** ** Programs of idle calls *)

Fixpoint idle {A} (p : prog native A) : Prop :=
  match p with
  | Ret _ => True
  | Vis X e k => (forall x, acted e x = false) /\ forall x, idle (k x)
  end.
Lemma idle_quiet {Er A} (p : Prog native Er A) w : idle p -> quiet p w (fun _ _ _ => True).
Proof.
  intros Hp. revert w. induction p as [r|X e k IH]; intros w; [by apply quiet_ret|].
  destruct Hp as [He Hk]. apply quiet_vis; [done|]. intros w1 x w2 _ _ _. apply IH, Hk.
Qed.
End runs.

Lemma idle_bind {A B} (p : prog native A) (f : A -> prog native B) :
  idle p -> (forall a, idle (f a)) -> idle (prog_bind p f).
Proof. intros Hp Hf. induction p as [a|X e k IH]; simpl; [done|]. destruct Hp. split; auto. Qed.
Lemma idle_mbind {Er A B} (p : Prog native Er A) (f : A -> Prog native Er B) :
  idle p -> (forall a, idle (f a)) -> idle (p ≫= f).
Proof. intros Hp Hf. apply idle_bind; [done|]. by intros [a|e]. Qed.
Lemma idle_ask {Er X} (e : native X) : (forall x, acted e x = false) -> idle (ask (Er := Er) e).
Proof. by split. Qed.
Lemma idle_try {E E' A} (f : E' -> E) (e : native (result E' A)) :
  (forall x, acted e x = false) -> idle (try_call f e).
Proof. by split. Qed.

Create HintDb idle discriminated.
#[export] Hint Resolve idle_ask idle_try : idle.
#[export] Hint Extern 1 (forall _, acted _ _ = false) => reflexivity : idle.

(** Walks a program to its calls. *)
Ltac idle_walk :=
  repeat first
    [ progress intros
    | match goal with
      | |- idle (_ ≫= _) => apply idle_mbind
      | |- idle (prog_bind _ _) => apply idle_bind
      end
    | solve [auto with idle]
    | match goal with |- idle (mret _) => exact I | |- idle (throw _) => exact I
      | |- idle (lift_result _) => exact I | |- idle (Ret _) => exact I end
    | match goal with
      | |- idle (match ?x with _ => _ end) => destruct x
      | |- idle (let '(_, _) := ?x in _) => destruct x
      end ].

Lemma last_os_error_idle {A} : idle (last_os_error (A := A)).
Proof. unfold last_os_error. idle_walk. Qed.
Lemma metadata_idle file : idle (metadata file).
Proof. unfold metadata. idle_walk. Qed.
#[export] Hint Resolve last_os_error_idle metadata_idle : idle.
Lemma check_directory_idle file : idle (check_directory file).
Proof.
  unfold check_directory, validate_directory_handle, reject_case_sensitive_directory, reject_remote_protocol_if_reported.
  idle_walk.
Qed.
Lemma reject_unsupported_filesystem_idle file : idle (reject_unsupported_filesystem file).
Proof. unfold reject_unsupported_filesystem. idle_walk. Qed.
Lemma reject_unsupported_drive_type_idle path : idle (reject_unsupported_drive_type path).
Proof. unfold reject_unsupported_drive_type. idle_walk. Qed.
Lemma checked_final_path_capacity_idle required : idle (checked_final_path_capacity required).
Proof. unfold checked_final_path_capacity. idle_walk. Qed.
#[export] Hint Resolve checked_final_path_capacity_idle : idle.
Lemma final_path_attempts_idle attempts file capacity flags : idle (final_path_attempts attempts file capacity flags).
Proof. revert capacity. induction attempts; intros capacity; cbn [final_path_attempts]; idle_walk. Qed.
#[export] Hint Resolve final_path_attempts_idle check_directory_idle reject_unsupported_filesystem_idle
  reject_unsupported_drive_type_idle : idle.
Lemma normalized_final_leaf_idle file : idle (normalized_final_leaf file).
Proof. unfold normalized_final_leaf, normalized_final_path, normalized_leaf_from_final_path. idle_walk. Qed.
#[export] Hint Resolve normalized_final_leaf_idle : idle.
