(* ===== verification/WindowsBackendCorrect.v ===== *)
(** * WindowsBackendCorrect: what the production backend does to directories

    Against every system that meets the laws of NativeSystem, with other processes
    acting between any two calls: what opening a path establishes, what a rename
    has moved, and when an observation was true. *)

From S2P Require Import Prelude Collections LegacyText RenameModel Effects Codec WindowsNative WindowsBackend.
From S2P Require Import NativeSystem.

(** ** Paths *)

Lemma split_units_separator_free {A} (p : A -> bool) l :
  Forall (Forall (fun x => p x = false)) (split_units p l).
Proof.
  induction l as [|x l IH]; simpl; [by repeat constructor|]. destruct (p x) eqn:Hx; [by constructor|].
  destruct (split_units p l) as [|b bs]; [by repeat constructor|]. apply Forall_cons in IH as [??].
  by repeat constructor.
Qed.

Lemma normal_components_normal components names :
  normal_components components = Ok names -> components = map Normal names.
Proof.
  revert names. induction components as [|c components IH]; intros names; simpl; [by intros [= <-]|].
  destruct c as [| |name]; [done..|]. intros (names' & Hn & Heq)%result_bind_Ok. injection Heq as <-.
  simpl. by rewrite (IH _ Hn).
Qed.

Lemma body_components_simple verbatim body names :
  body_components verbatim body = map Normal names -> Forall simple_name names.
Proof.
  unfold body_components. set (p := if verbatim then _ else _).
  assert (forall unit, p unit = false -> unit <> BACKSLASH) as Hp.
  { intros unit Hu ->. subst p. by destruct verbatim. }
  pose proof (split_units_separator_free p body) as Hall. clearbody p.
  revert names. induction (split_units p body) as [|block blocks IH]; intros names; cbn [omap list_omap].
  { by destruct names. }
  apply Forall_cons in Hall as [Hb Hall].
  destruct (parse_single_component verbatim block) as [c|] eqn:Hc; [|by apply IH].
  destruct names as [|name names]; [done|]. intros Heq. injection Heq as -> Heq. constructor; [|by apply IH].
  unfold parse_single_component in Hc. destruct (is_empty block); [done|].
  destruct (bool_decide _); [by destruct verbatim|]. destruct (bool_decide _); [done|]. injection Hc as <-.
  eapply Forall_impl; [exact Hb|]. done.
Qed.

Lemma parse_drive_cases path letter :
  parse_drive path = Some letter ->
  exists unit rest, path = unit :: COLON :: rest /\ is_valid_drive_letter unit = true /\ letter = ascii_upper unit.
Proof.
  unfold parse_drive. destruct path as [|unit [|colon rest]]; [done..|].
  destruct (_ && _) eqn:Hc; [|done]. apply andb_true_iff in Hc as [Hl Hc]. apply Z.eqb_eq in Hc as ->.
  intros [= <-]. eauto.
Qed.

Lemma drive_letter_plain unit : is_valid_drive_letter unit = true -> normalize_slash unit <> BACKSLASH /\ unit <> BACKSLASH.
Proof.
  unfold is_valid_drive_letter, normalize_slash, SLASH, BACKSLASH. intros H.
  destruct (Z.eqb_spec unit 47); lia.
Qed.

Lemma parse_prefix_disk unit rest :
  is_valid_drive_letter unit = true -> parse_prefix (unit :: COLON :: rest) = Some (Disk (ascii_upper unit)).
Proof.
  intros Hu. unfold parse_prefix. cbn [map starts_with].
  destruct (drive_letter_plain unit Hu) as [Hne _]. apply Z.eqb_neq in Hne. rewrite Hne.
  cbn [andb]. unfold parse_drive. by rewrite Hu.
Qed.
Lemma parse_prefix_verbatim unit rest :
  is_valid_drive_letter unit = true -> head rest = Some BACKSLASH ->
  parse_prefix (BACKSLASH :: BACKSLASH :: 63 :: BACKSLASH :: unit :: COLON :: rest) =
    Some (VerbatimDisk (ascii_upper unit)).
Proof.
  intros Hu Hrest. destruct rest as [|x rest]; [done|]. injection Hrest as ->. unfold parse_prefix.
  cbn [map starts_with drop]. change (normalize_slash BACKSLASH) with BACKSLASH.
  change (normalize_slash COLON) with COLON. change (normalize_slash 63) with 63. simpl.
  rewrite andb_false_r. unfold parse_drive_exact. cbn. by rewrite Hu.
Qed.

Lemma parse_prefix_cases path kind :
  parse_prefix path = Some kind ->
  match kind with
  | Disk _ => exists unit rest, path = unit :: COLON :: rest /\ is_valid_drive_letter unit = true
  | VerbatimDisk _ => exists unit rest, path = BACKSLASH :: BACKSLASH :: 63 :: BACKSLASH :: unit :: COLON :: rest
                                       /\ is_valid_drive_letter unit = true
  | OtherPrefix => True
  end.
Proof.
  unfold parse_prefix. destruct (starts_with (map normalize_slash path) _); cycle 1.
  { intros (letter & (unit & rest & -> & Hu & _)%parse_drive_cases & ->)%fmap_Some. eauto. }
  destruct (starts_with path [BACKSLASH; BACKSLASH; 63; BACKSLASH]) eqn:Hv; cycle 1.
  { destruct (starts_with (drop 2 _) _); [by intros [= <-]|].
    destruct (std_parse_next_component (drop 2 path)) as [server rest].
    destruct (std_parse_next_component rest) as [share ?]. by destruct (_ || _); [|intros [= <-]]. }
  destruct (starts_with (drop 4 _) _); [by intros [= <-]|].
  destruct (parse_drive_exact (drop 4 path)) as [letter|] eqn:Hd; intros [= <-]; [|done].
  apply starts_with_spec in Hv. cbn [length] in Hv.
  assert (parse_drive (drop 4 path) = Some letter) as (unit & rest & Hpath & Hu & _)%parse_drive_cases.
  { unfold parse_drive_exact in Hd. destruct (drop 4 path !! 2%nat) as [x|]; [|done].
    by destruct (is_path_separator x). }
  rewrite Hpath in Hv. exists unit, rest. split; [exact Hv|done].
Qed.

(** The root of a path is a path of its own, and the names below it reach no further. *)
Lemma traversal_parts_root path root components :
  traversal_parts path = Ok (root, components) ->
  traversal_parts root = Ok (root, []) /\ Forall simple_name components.
Proof.
  unfold traversal_parts at 1. destruct (parse_prefix path) as [kind|] eqn:Hk; [|done].
  apply parse_prefix_cases in Hk. intros Hparts.
  assert (exists verbatim unit body,
    kind <> OtherPrefix /\ drop (prefix_len kind) path = unit :: body /\
    normal_components (body_components verbatim body) = Ok components /\
    root = take (prefix_len kind) path ++ [BACKSLASH]) as (verbatim & unit & body & Hkind & _ & Hnames & ->).
  { destruct kind; [| |done]; (destruct (drop _ path) as [|unit body]; [done|]);
      (destruct (is_path_separator unit); [|done]);
      apply result_bind_Ok in Hparts as (names & Hnames & Heq); injection Heq as <- <-;
      eexists _, unit, body; (split; [done|]); by split. }
  split; [|by eapply body_components_simple, normal_components_normal].
  destruct kind as [letter|letter|]; [| |done]; destruct Hk as (x & rest & -> & Hx);
    unfold traversal_parts; cbn [prefix_len take app].
  - rewrite parse_prefix_disk by done. done.
  - rewrite parse_prefix_verbatim by done. done.
Qed.

(** ** Where a path leads *)

Section paths.
Context {W : Type} `{NativeLaws W}.

(** The directory reached by following names. *)
Fixpoint resolves (w : W) (d : EntryIdentity) (components : list (list Z)) : option EntryIdentity :=
  match components with
  | [] => Some d
  | name :: components => links w d (fold_name name) ≫= fun i => resolves w i components
  end.
(** The path of a directory, from the root of its drive. *)
Definition names_directory (w : W) (path : LegacyText) (i : EntryIdentity) : Prop :=
  exists root components,
    traversal_parts path = Ok (root, components) /\ resolves w (root_directory root) components = Some i.

(** Every name on the way is pinned. *)
Fixpoint pinned_path (w : W) (d : EntryIdentity) (components : list (list Z)) (i : EntryIdentity) : Prop :=
  match components with
  | [] => d = i
  | name :: components => exists h j, pinned w h d (fold_name name) j /\ pinned_path w j components i
  end.

Lemma pinned_path_keeps w w' d components i : keeps w w' -> pinned_path w d components i -> pinned_path w' d components i.
Proof.
  intros [_ Hk]. revert d. induction components as [|name components IH]; intros d; [done|].
  intros (h & j & Hp & Hr). exists h, j. eauto.
Qed.
Lemma pinned_path_resolves w d components i : pinned_path w d components i -> resolves w d components = Some i.
Proof.
  revert d. induction components as [|name components IH]; intros d; [by intros ->|].
  intros (h & j & Hp & Hr). cbn [resolves]. apply pinned_link in Hp. rewrite Hp. by apply IH.
Qed.

(** ** Quiet primitives *)

Definition on_ok {Er A} (P : A -> W -> list (NativeStep W) -> Prop)
    (r : result Er A) (w : W) (t : list (NativeStep W)) : Prop :=
  match r with Ok a => P a w t | Err _ => True end.

Lemma quiet_ask {Er X A} (e : native X) (f : X -> Prog native Er A) w Q :
  (forall x, acted e x = false) ->
  (forall w1 x w2, keeps w w1 -> keeps w1 w2 -> sys e w1 x w2 ->
     quiet (f x) w2 (fun r w' t => Q r w' (mkStep false w1 w2 :: t))) ->
  quiet (ask e ≫= f) w Q.
Proof. apply quiet_vis. Qed.
Lemma quiet_try_call {Er Er' X} (g : Er' -> Er) (e : native (result Er' X)) w Q :
  (forall x, acted e x = false) ->
  (forall w1 x w2, keeps w w1 -> keeps w1 w2 -> sys e w1 x w2 -> Q (map_err g x) w2 [mkStep false w1 w2]) ->
  quiet (try_call g e) w Q.
Proof. intros Hi Hq. apply quiet_vis; [done|]. intros w1 x w2 H1 H2 Hs. apply quiet_ret. eauto. Qed.
(** Steps of which only their quietness matters. *)
Lemma quiet_idle_mbind {Er A B} (p : Prog native Er A) (f : A -> Prog native Er B) w P :
  idle p -> (forall a w1, keeps w w1 -> quiet (f a) w1 (fun r w' _ => P r w')) ->
  (forall e w1, keeps w w1 -> P (Err e) w1) ->
  quiet (p ≫= f) w (fun r w' _ => P r w').
Proof.
  intros Hp Hf He. eapply quiet_sequence; [by apply idle_quiet| |].
  - intros a w1 t1 Hk _. by apply Hf.
  - intros e w1 t1 Hk _. by apply He.
Qed.
Lemma quiet_lift {Er A} (r : result Er A) w (R : result Er A -> W -> list (NativeStep W) -> Prop) :
  R r w [] -> quiet (lift_result r) w R.
Proof. apply quiet_ret. Qed.

Definition opened (d : EntryIdentity) (leaf : list Z) (share : Z) (w0 : W) (r : result OsError Z) (w' : W)
    (t : list (NativeStep W)) : Prop :=
  match r with
  | Ok h => exists i, handle_of w' h = Some i /\
      Exists (fun step => links (before step) d (fold_name leaf) = Some i) t /\
      (Z.land share FILE_SHARE_DELETE = 0 -> pinned w' h d (fold_name leaf) i)
  | Err e => is_not_found e = true ->
      Exists (fun step => links (before step) d (fold_name leaf) = None) t /\
      forall h i, ~ pinned w0 h d (fold_name leaf) i
  end.

Lemma open_relative_spec parent leaf access share options w d :
  handle_of w parent = Some d -> simple_name leaf -> Z.land options FILE_OPEN_REPARSE_POINT <> 0 ->
  quiet (open_relative parent leaf access share FILE_OPEN options) w (opened d leaf share w).
Proof.
  intros Hd Hleaf Hoptions. unfold open_relative. destruct (_ || _); [by apply quiet_ret|].
  destruct (65535 <? _); [by apply quiet_ret|]. apply quiet_ask; [done|].
  intros w1 [status h] w2 Hk1 Hk2 Hs. pose proof (proj1 Hk1 _ _ Hd) as Hd1.
  destruct (Z.ltb_spec status 0) as [Hneg|Hpos].
  - apply quiet_ask; [done|]. intros w3 code w4 _ _ Hcode. apply dos_error_answer in Hcode as ->.
    apply quiet_ret. intros Hmissing.
    assert (dos_error status = 2 \/ dos_error status = 3) as Hcode.
    { revert Hmissing. cbn. unfold code_as_i32, i32_max. destruct (_ <=? _); [lia|done]. }
    pose proof (entry_missing _ _ _ _ _ _ _ _ _ _ Hs Hneg Hcode Hleaf Hd1) as Hnone.
    split; [by constructor|]. intros h' i Hpin. apply Hk1, pinned_link in Hpin. congruence.
  - destruct (Z.eqb_spec h 0) as [->|Hh]; [by apply quiet_ret|]. apply quiet_ret.
    destruct (entry_opened _ _ _ _ _ _ _ _ _ _ Hs Hpos Hh Hleaf Hoptions Hd1) as (i & Hl & Hi & Hpin).
    exists i. split_and!; [done|by constructor|done].
Qed.

Lemma last_os_error_spec {A} w P : quiet (last_os_error (A := A)) w (on_ok P).
Proof. unfold last_os_error. apply quiet_ask; [done|]. intros w1 code w2 _ _ _. by apply quiet_ret. Qed.

Lemma file_identity_spec file w i :
  handle_of w file = Some i -> quiet (file_identity file) w (on_ok (fun j _ _ => j = i)).
Proof.
  intros Hi. apply quiet_ask; [done|]. intros w1 [info|] w2 Hk1 _ Hs.
  - apply quiet_ret. cbn. by eapply identity_answer; [exact Hs|apply Hk1].
  - eapply quiet_mono; [apply (last_os_error_spec _ (fun _ _ _ => False))|]. by intros [j|e].
Qed.

(** ** Opened directories *)

(** An open directory whose identity was read. *)
Definition open_parent (w : W) (parent : NativeParent) : Prop :=
  handle_of w (parent_file parent) = Some (native_identity parent).
Lemma open_parent_keeps w w' parent : keeps w w' -> open_parent w parent -> open_parent w' parent.
Proof. intros Hk. apply Hk. Qed.

(** The rest of a program whose result [P] speaks of the end only. *)
Definition ends {Er A} (P : A -> W -> Prop) (r : result Er A) (w : W) : Prop :=
  match r with Ok a => P a w | Err _ => True end.

Lemma quiet_ends_mbind {Er A B} (p : Prog native Er A) (f : A -> Prog native Er B) w
    (R : A -> W -> Prop) (P : B -> W -> Prop) :
  quiet p w (fun r w' _ => ends R r w') ->
  (forall a w1, keeps w w1 -> R a w1 -> quiet (f a) w1 (fun r w' _ => ends P r w')) ->
  quiet (p ≫= f) w (fun r w' _ => ends P r w').
Proof.
  intros Hp Hf. eapply quiet_sequence; [exact Hp| |done]. intros a w1 t1 Hk HR. by apply Hf.
Qed.
Lemma quiet_ends_idle {Er A} (p : Prog native Er A) w : idle p -> quiet p w (fun r w' _ => ends (fun _ _ => True) r w').
Proof. intros Hp. eapply quiet_mono; [by apply idle_quiet|]. by intros [a|e]. Qed.

Lemma open_directory_spec parent leaf share w d :
  handle_of w parent = Some d -> simple_name leaf ->
  quiet (open_relative parent leaf TRAVERSE_ACCESS share FILE_OPEN DIRECTORY_OPTIONS) w
    (fun r w' _ => ends (fun h w' => exists i, handle_of w' h = Some i /\
       (Z.land share FILE_SHARE_DELETE = 0 -> pinned w' h d (fold_name leaf) i)) r w').
Proof.
  intros Hd Hleaf. eapply quiet_mono; [by apply (open_relative_spec _ _ _ share _ _ d)|].
  intros [h|e] w' t _; [|done]. intros (i & Hi & _ & Hpin). by exists i.
Qed.
Lemma file_identity_ends file w i :
  handle_of w file = Some i -> quiet (file_identity file) w (fun r w' _ => ends (fun j _ => j = i) r w').
Proof. intros Hi. eapply quiet_mono; [by apply file_identity_spec|]. by intros [j|e]. Qed.

Lemma open_root_spec path root components share w :
  traversal_parts path = Ok (root, components) ->
  quiet (open_root_directory root share) w (fun r w' _ => ends (fun h w' => handle_of w' h = Some (root_directory root)) r w').
Proof.
  intros [Hroot _]%traversal_parts_root. apply quiet_try_call; [done|].
  intros w1 [h|e] w2 _ _ Hs; [|done]. cbn. by eapply root_opened.
Qed.

Lemma extend_chain_spec components : forall directories previous w,
  last directories = Some previous -> open_parent w previous -> Forall simple_name components ->
  quiet (extend_chain directories components) w (fun r w' _ => ends (fun directories' w' =>
    exists parent, last directories' = Some parent /\ open_parent w' parent /\
      pinned_path w' (native_identity previous) components (native_identity parent)) r w').
Proof.
  induction components as [|leaf components IH]; intros directories previous w Hlast Hopen Hsimple.
  { apply quiet_ret. cbn. by exists previous. }
  apply Forall_cons in Hsimple as [Hleaf Hsimple]. cbn [extend_chain]. rewrite Hlast.
  eapply quiet_ends_mbind; [by apply open_directory_spec|]. intros file w1 Hk1 (i & Hi & Hpin).
  eapply quiet_ends_mbind; [apply quiet_ends_idle; auto with idle|]. intros _ w2 Hk2 _.
  eapply quiet_ends_mbind; [apply file_identity_ends, Hk2, Hi|]. intros j w3 Hk3 ->.
  eapply quiet_mono; [apply (IH _ (mkNativeParent file i)); [by rewrite last_snoc|by apply Hk3, Hk2|done]|].
  intros [directories'|e] w4 t Hk4; [|done]. intros (parent & Hl & Hp & Hpath). exists parent.
  split_and!; [done|done|]. exists file, i. split; [|done]. by apply Hk4, Hk3, Hk2, Hpin.
Qed.

(** A chain pins the whole path it was opened for. *)
Definition chain_pins (path : LegacyText) (w : W) (chain : NativeParentChain) : Prop :=
  open_parent w (chain_parent chain) /\
  exists root components, traversal_parts path = Ok (root, components) /\
    pinned_path w (root_directory root) components (native_identity (chain_parent chain)).
Lemma chain_pins_keeps path w w' chain : keeps w w' -> chain_pins path w chain -> chain_pins path w' chain.
Proof.
  intros Hk (Ho & root & components & Hp & Hpath). split; [by eapply open_parent_keeps|].
  exists root, components. split; [done|]. by eapply pinned_path_keeps.
Qed.
Lemma chain_pins_names path w chain :
  chain_pins path w chain -> names_directory w path (native_identity (chain_parent chain)).
Proof.
  intros (_ & root & components & Hp & Hpath). exists root, components. split; [done|].
  by apply pinned_path_resolves.
Qed.

Lemma open_chain_spec path w :
  quiet (open_chain path) w (fun r w' _ => ends (fun chain w' => chain_pins path w' chain) r w').
Proof.
  unfold open_chain. destruct (_ <=? _); [by apply quiet_ret|].
  eapply quiet_ends_mbind; [apply quiet_ends_idle; auto with idle|]. intros _ w1 _ _.
  destruct (traversal_parts path) as [[root components]|e] eqn:Hparts; [|by apply quiet_ret].
  destruct (traversal_parts_root _ _ _ Hparts) as [_ Hsimple].
  eapply (quiet_ends_mbind _ _ _ (fun a _ => a = (root, components))); [by apply quiet_lift|].
  intros _ w2 _ ->. eapply quiet_ends_mbind; [apply quiet_ends_idle; idle_walk|]. intros capacity w3 _ _.
  eapply quiet_ends_mbind; [apply quiet_ends_idle; auto with idle|]. intros reserved w4 _ _.
  destruct (negb reserved); [by apply quiet_ret|].
  eapply quiet_ends_mbind; [by eapply open_root_spec|]. intros root_file w5 _ Hroot.
  eapply quiet_ends_mbind; [apply quiet_ends_idle; auto with idle|]. intros _ w6 Hk6 _.
  eapply quiet_ends_mbind; [apply quiet_ends_idle; auto with idle|]. intros _ w7 Hk7 _.
  eapply quiet_ends_mbind; [apply file_identity_ends, Hk7, Hk6, Hroot|]. intros i w8 Hk8 ->.
  eapply quiet_ends_mbind.
  { apply (extend_chain_spec _ _ (mkNativeParent root_file (root_directory root))); [done| |done].
    by apply Hk8, Hk7, Hk6. }
  intros directories w9 _ (parent & Hlast & Hopen & Hpath). rewrite Hlast.
  eapply quiet_ends_mbind; [apply quiet_ends_idle; auto with idle|]. intros _ w10 Hk10 _.
  apply quiet_ret. eapply chain_pins_keeps; [exact Hk10|]. split; [done|]. by exists root, components.
Qed.

Lemma descend_spec components : forall file final_share w d,
  handle_of w file = Some d -> Forall simple_name components ->
  quiet (descend file components final_share) w
    (fun r w' _ => ends (fun h w' => exists i, handle_of w' h = Some i) r w').
Proof.
  induction components as [|leaf components IH]; intros file final_share w d Hd Hsimple.
  { apply quiet_ret. by exists d. }
  apply Forall_cons in Hsimple as [Hleaf Hsimple]. cbn [descend].
  eapply quiet_ends_mbind; [by apply open_directory_spec|]. intros h w1 Hk1 (i & Hi & _).
  eapply quiet_ends_mbind; [apply quiet_ends_idle; auto with idle|]. intros _ w2 Hk2 _.
  eapply IH; [by apply Hk2|done].
Qed.
Lemma open_path_spec path final_share w :
  quiet (open_path_with_final_share path final_share) w (fun r w' _ => ends (fun parent w' => open_parent w' parent) r w').
Proof.
  unfold open_path_with_final_share.
  eapply quiet_ends_mbind; [apply quiet_ends_idle; auto with idle|]. intros _ w1 _ _.
  destruct (traversal_parts path) as [[root components]|e] eqn:Hparts; [|by apply quiet_ret].
  destruct (traversal_parts_root _ _ _ Hparts) as [_ Hsimple].
  eapply (quiet_ends_mbind _ _ _ (fun a _ => a = (root, components))); [by apply quiet_lift|].
  intros _ w2 _ ->.
  eapply quiet_ends_mbind; [by eapply open_root_spec|]. intros root_file w3 _ Hroot.
  eapply quiet_ends_mbind; [apply quiet_ends_idle; auto with idle|]. intros _ w4 Hk4 _.
  eapply quiet_ends_mbind; [eapply descend_spec; [apply (proj1 Hk4), Hroot|done]|]. intros h w5 _ (i & Hi).
  eapply quiet_ends_mbind; [apply quiet_ends_idle; auto with idle|]. intros _ w6 Hk6 _.
  eapply quiet_ends_mbind; [apply file_identity_ends, Hk6, Hi|]. intros j w7 Hk7 ->.
  apply quiet_ret. by apply Hk7, Hk6.
Qed.
End paths.
