(* ===== verification/NativeVolume.v ===== *)
(** * NativeVolume: a volume that meets the laws of the native calls

    One drive as a list of links and a table of open handles, every call executable.
    It refuses to rename a link that another handle pins, and lets other processes
    change any link that no handle pins. *)

From S2P Require Import Prelude Collections LegacyText RenameModel Effects Codec WindowsNative WindowsBackend.
From S2P Require Import NativeSystem.

Record Link : Type := mkLink {
  link_directory : EntryIdentity; link_key : list Z; link_name : list Z; link_identity : EntryIdentity;
  link_attributes : Z
}.
Record OpenHandle : Type := mkOpenHandle {
  open_identity : EntryIdentity; open_link : option (EntryIdentity * list Z); shares_delete : bool
}.
Record Volume : Type := mkVolume { volume_links : list Link; open_handles : list OpenHandle }.

Definition ROOT : EntryIdentity := mkIdentity 7 5.
Definition volume_fold (name : list Z) : list Z := map ascii_upper name.

Definition at_link (d : EntryIdentity) (l : list Z) (k : Link) : bool :=
  bool_decide (link_directory k = d /\ link_key k = l).
Definition volume_lookup (v : Volume) (d : EntryIdentity) (l : list Z) : option EntryIdentity :=
  link_identity <$> List.find (at_link d l) (volume_links v).
Definition handle_entry (v : Volume) (h : Z) : option OpenHandle :=
  if h <=? 0 then None else open_handles v !! Z.to_nat (h - 1).
Definition volume_handle_of (v : Volume) (h : Z) : option EntryIdentity := open_identity <$> handle_entry v h.
Definition volume_pinned (v : Volume) (h : Z) (d : EntryIdentity) (l : list Z) (i : EntryIdentity) : Prop :=
  handle_entry v h = Some (mkOpenHandle i (Some (d, l)) false) /\ volume_lookup v d l = Some i.

Definition open_new (entry : OpenHandle) (v : Volume) : Z * Volume :=
  (zlen (open_handles v) + 1, mkVolume (volume_links v) (open_handles v ++ [entry])).
Definition grants_delete (share : Z) : bool := negb (Z.land share FILE_SHARE_DELETE =? 0).

Definition STATUS_INVALID_HANDLE : Z := -8.
Definition STATUS_NO_SUCH_FILE : Z := -1.
Definition STATUS_SHARING_VIOLATION : Z := -3.
Definition volume_dos_error (status : Z) : Z :=
  if status =? STATUS_NO_SUCH_FILE then 2 else if status =? STATUS_SHARING_VIOLATION then 32 else 6.

Definition attributes_of (v : Volume) (i : EntryIdentity) : Z :=
  match List.find (fun k => bool_decide (link_identity k = i)) (volume_links v) with
  | Some k => link_attributes k
  | None => FILE_ATTRIBUTE_DIRECTORY
  end.
Definition final_path (v : Volume) (h : Z) : list Z :=
  BACKSLASH :: match handle_entry v h with
               | Some (mkOpenHandle _ (Some (d, l)) _) => from_option link_name [] (List.find (at_link d l) (volume_links v))
               | _ => []
               end.

(** Another handle that pins this link. *)
Definition pinned_elsewhere (v : Volume) (source : Z) (d : EntryIdentity) (l : list Z) : bool :=
  existsb (fun '(j, entry) => negb (Z.of_nat j + 1 =? source) && negb (shares_delete entry)
                              && bool_decide (open_link entry = Some (d, l)))
    (imap pair (open_handles v)).
Definition relink (d : EntryIdentity) (l : list Z) (d' : EntryIdentity) (name : list Z) (k : Link) : Link :=
  if at_link d l k then mkLink d' (volume_fold name) name (link_identity k) (link_attributes k) else k.
Definition rename_link (source parent : Z) (name : list Z) (v : Volume) : Z * Volume :=
  match handle_entry v source, handle_entry v parent with
  | Some (mkOpenHandle i (Some (d, l)) shared), Some directory =>
      let d' := open_identity directory in
      if bool_decide (volume_lookup v d l = Some i) && bool_decide (volume_lookup v d' (volume_fold name) = None)
         && negb (pinned_elsewhere v source d l)
      then (0, mkVolume (map (relink d l d' name) (volume_links v))
                 (<[Z.to_nat (source - 1) := mkOpenHandle i (Some (d', volume_fold name)) shared]> (open_handles v)))
      else (STATUS_SHARING_VIOLATION, v)
  | _, _ => (STATUS_INVALID_HANDLE, v)
  end.

Definition volume_step {X} (e : native X) (v : Volume) : X * Volume :=
  match e in native X return X * Volume with
  | GetDriveTypeW _ => (DRIVE_FIXED, v)
  | TryReserveExact _ => (true, v)
  | GetLastError => (6, v)
  | OpenPath _ _ share _ =>
      let (h, v) := open_new (mkOpenHandle ROOT None (grants_delete share)) v in (Ok h, v)
  | NtCreateFile parent name _ share disposition _ =>
      match handle_entry v parent with
      | None => ((STATUS_INVALID_HANDLE, 0), v)
      | Some directory =>
          let d := open_identity directory in
          match volume_lookup v d (volume_fold name) with
          | Some i =>
              if disposition =? FILE_OPEN then
                let (h, v) := open_new (mkOpenHandle i (Some (d, volume_fold name)) (grants_delete share)) v in ((0, h), v)
              else ((STATUS_SHARING_VIOLATION, 0), v)
          | None => ((STATUS_NO_SUCH_FILE, 0), v)
          end
      end
  | RtlNtStatusToDosErrorNoTeb status => (volume_dos_error status, v)
  | GetMetadata file =>
      (match handle_entry v file with
       | Some entry => let attributes := attributes_of v (open_identity entry) in
           Ok (mkMetadata (negb (Z.land attributes FILE_ATTRIBUTE_DIRECTORY =? 0)) attributes)
       | None => Err (Some 6)
       end, v)
  | QueryCaseSensitiveInfo _ => (Some 0, v)
  | QueryRemoteProtocolInfo _ => (None, v)
  | QueryFileIdInfo file =>
      (entry ← handle_entry v file;
       let i := open_identity entry in
       let info := mkFileId (volume i) (le_bytes 16 (file_id i)) in
       if bool_decide (info_identity info = i) then Some info else None, v)
  | GetVolumeInformationByHandleW _ _ => ((true, text "NTFS" ++ [0]), v)
  | GetFinalPathNameByHandleW file capacity _ =>
      let path := final_path v file in
      (if zlen path <? capacity then (zlen path, path) else (zlen path + 1, []), v)
  | NtSetRenameInformation source _ parent name => rename_link source parent name v
  | CompareStringOrdinal left_ right_ _ => (if bool_decide (volume_fold left_ = volume_fold right_) then 2 else 1, v)
  | LCMapStringEx source capacity => ((zlen source, volume_fold source), v)
  | SystemTimeNanos => (Some 5, v)
  | ProcessId => (7, v)
  | FetchAddCounter => (1, v)
  end.

(** Other processes: any change of the links that leaves the pinned ones alone. *)
Definition volume_others (v v' : Volume) : Prop :=
  open_handles v' = open_handles v /\
  forall h d l i, volume_pinned v h d l i -> volume_lookup v' d l = Some i.

#[export] Instance Volume_system : NativeSystem Volume := {
  fold_name := volume_fold;
  root_directory _ := ROOT;
  links := volume_lookup;
  handle_of := volume_handle_of;
  pinned := volume_pinned;
  dos_error := volume_dos_error;
  others := volume_others;
  sys _ e v x v' := volume_step e v = (x, v')
}.

(** ** The laws *)

Lemma handle_entry_push v h entry new :
  handle_entry v h = Some entry -> handle_entry (open_new new v).2 h = Some entry.
Proof.
  unfold handle_entry, open_new. destruct (h <=? 0); [done|]. simpl. intros Hl. by apply lookup_app_l_Some.
Qed.
Lemma handle_entry_new v new : handle_entry (open_new new v).2 (open_new new v).1 = Some new.
Proof.
  unfold handle_entry, open_new. simpl. pose proof (zlen_nonneg (open_handles v)).
  destruct (Z.leb_spec (zlen (open_handles v) + 1) 0); [lia|].
  replace (Z.to_nat _) with (length (open_handles v)) by (unfold zlen in *; lia).
  by rewrite lookup_app_r, Nat.sub_diag by lia.
Qed.
Lemma volume_keeps_push v new : keeps v (open_new new v).2.
Proof.
  split.
  - intros h i (entry & He & ->)%fmap_Some. apply fmap_Some. exists entry. split; [by apply handle_entry_push|done].
  - intros h d l i [Hh Hl]. split; [by apply handle_entry_push|done].
Qed.
Lemma handle_entry_same_table v v' h : open_handles v' = open_handles v -> handle_entry v' h = handle_entry v h.
Proof. unfold handle_entry. by intros ->. Qed.

Lemma volume_idle {X} (e : native X) v x v' :
  volume_step e v = (x, v') -> acted e x = false -> v' = v \/ exists new, v' = (open_new new v).2.
Proof.
  destruct e; simpl; intros Hs Ha; try (injection Hs as <- <-; by left).
  - injection Hs as <- <-. right. by eexists.
  - destruct (handle_entry v root); [|injection Hs as <- <-; by left].
    destruct (volume_lookup v _ _); [|injection Hs as <- <-; by left].
    destruct (disposition =? FILE_OPEN); injection Hs as <- <-; [right; by eexists|by left].
  - unfold rename_link in Hs. destruct (handle_entry v source) as [[i [[d l]|] shared]|]; try (injection Hs as <- <-; by left).
    destruct (handle_entry v root) as [directory|]; [|injection Hs as <- <-; by left].
    destruct (_ && _ && _); injection Hs as <- <-; [done|by left].
Qed.

Lemma find_relink ls d l d' name d2 l2 :
  List.find (at_link d' (volume_fold name)) ls = None ->
  link_identity <$> List.find (at_link d2 l2) (map (relink d l d' name) ls) =
    if bool_decide ((d2, l2) = (d', volume_fold name)) then link_identity <$> List.find (at_link d l) ls
    else if bool_decide ((d2, l2) = (d, l)) then None
    else link_identity <$> List.find (at_link d2 l2) ls.
Proof.
  intros Hfree. induction ls as [|k ls IH]; simpl; [by repeat case_bool_decide|].
  simpl in Hfree. destruct (at_link d' (volume_fold name) k) eqn:Hk'; [done|].
  assert (relink d l d' name k =
          if at_link d l k then mkLink d' (volume_fold name) name (link_identity k) (link_attributes k) else k) as -> by done.
  destruct (at_link d l k) eqn:Hk.
  - unfold at_link at 1. simpl. destruct (decide ((d2, l2) = (d', volume_fold name))) as [Heq|Hne].
    + injection Heq as -> ->. rewrite !bool_decide_eq_true_2 by done. done.
    + rewrite (bool_decide_eq_false_2 (d' = d2 /\ _)) by naive_solver. rewrite IH by done.
      rewrite !(bool_decide_eq_false_2 (_ = (d', _))) by done.
      destruct (decide ((d2, l2) = (d, l))) as [Heq|H2]; [by rewrite !(bool_decide_eq_true_2 _ Heq)|].
      rewrite !(bool_decide_eq_false_2 _ H2).
      destruct (at_link d2 l2 k) eqn:Hk2; [|done].
      apply bool_decide_eq_true in Hk as [<- <-], Hk2 as [<- <-]. done.
  - destruct (at_link d2 l2 k) eqn:Hk2.
    + apply bool_decide_eq_true in Hk2 as [<- <-]. apply bool_decide_eq_false in Hk, Hk'.
      rewrite !bool_decide_eq_false_2 by naive_solver. done.
    + rewrite IH by done. by repeat case_bool_decide.
Qed.

Lemma rename_link_moves source parent name v status v' d l i d' :
  rename_link source parent name v = (status, v') -> 0 <= status ->
  volume_pinned v source d l i -> volume_handle_of v parent = Some d' ->
  (d', volume_fold name) <> (d, l) ->
  entry_moved v v' (d, l) (d', volume_fold name) i /\
  (forall h j, volume_handle_of v h = Some j -> volume_handle_of v' h = Some j).
Proof.
  unfold rename_link. intros Hr Hstatus [Hs Hl] (directory & Hparent & ->)%fmap_Some Hne.
  rewrite Hs, Hparent in Hr. destruct (_ && _ && _) eqn:Hc; injection Hr as <- <-; [|done].
  apply andb_true_iff in Hc as [[_ Hfree%bool_decide_eq_true]%andb_true_iff _].
  split.
  - assert (forall d2 l2, volume_lookup (mkVolume (map (relink d l (open_identity directory) name) (volume_links v)) []) d2 l2 =
      if bool_decide ((d2, l2) = (open_identity directory, volume_fold name)) then Some i
      else if bool_decide ((d2, l2) = (d, l)) then None else volume_lookup v d2 l2) as Hlinks.
    { intros d2 l2. unfold volume_lookup at 1. simpl. rewrite find_relink by (by apply fmap_None in Hfree).
      by case_bool_decide. }
    unfold entry_moved. simpl. change (volume_lookup (mkVolume ?a ?b)) with (volume_lookup (mkVolume a [])).
    split_and!; [done|done| | |].
    + rewrite Hlinks, bool_decide_eq_true_2; done.
    + rewrite Hlinks, bool_decide_eq_false_2, bool_decide_eq_true_2; [done|done|]. intros [= -> ->]. done.
    + intros d2 l2 H1 H2. rewrite Hlinks, !bool_decide_eq_false_2; done.
  - intros h j. unfold volume_handle_of, handle_entry in *. destruct (h <=? 0); [done|].
    destruct (source <=? 0); [done|]. simpl.
    destruct (decide (Z.to_nat (h - 1) = Z.to_nat (source - 1))) as [Heq|Hother].
    + rewrite Heq, Hs. intros [= <-]. rewrite list_lookup_insert_eq; [done|]. by eapply lookup_lt_Some.
    + by rewrite list_lookup_insert_ne.
Qed.

#[export] Instance Volume_laws : NativeLaws Volume.
Proof.
  split; simpl.
  - by intros v h d l i [_ Hl].
  - intros v v' [Ht Hl]. split; simpl.
    + intros h i. unfold volume_handle_of. by rewrite (handle_entry_same_table v v').
    + intros h d l i Hp. split; [|by eapply Hl]. rewrite (handle_entry_same_table v v') by done. apply Hp.
  - intros X e v x v' Hs Ha. destruct (volume_idle _ _ _ _ Hs Ha) as [->|[new ->]]; [done|apply volume_keeps_push].
  - intros X e v x v' Hs Ha d l. destruct (volume_idle _ _ _ _ Hs Ha) as [->|[new ->]]; done.
  - intros path access share flags v h v' Hs _. injection Hs as <- <-.
    pose proof (handle_entry_new v (mkOpenHandle ROOT None (grants_delete share))) as Hnew.
    unfold open_new in Hnew. simpl in Hnew. unfold volume_handle_of. by rewrite Hnew.
  - intros parent name access share options v status h v' d Hs Hpos Hh _ _ (directory & Hp & ->)%fmap_Some.
    rewrite Hp in Hs. destruct (volume_lookup v _ _) as [i|] eqn:Hl; [|injection Hs as <- <- <-; done].
    simpl in Hs. injection Hs as <- <- <-. exists i. split; [done|].
    set (new := mkOpenHandle i _ _). pose proof (handle_entry_new v new) as Hnew. split.
    + unfold volume_handle_of. unfold open_new in Hnew. simpl in Hnew. by rewrite Hnew.
    + intros Hshare. split; [|done]. unfold open_new in Hnew. simpl in Hnew. rewrite Hnew. subst new.
      unfold grants_delete. by rewrite Hshare.
  - intros parent name access share options v status h v' d Hs Hneg Hdos _ (directory & Hp & ->)%fmap_Some.
    rewrite Hp in Hs. destruct (volume_lookup v _ _) as [i|]; [|done]. simpl in Hs. injection Hs as <- <- <-. done.
  - intros status v code v' Hs. by injection Hs.
  - intros file v info v' i Hs (entry & He & ->)%fmap_Some. rewrite He in Hs. simpl in Hs.
    case_bool_decide as Hi; [|done]. by injection Hs as <- _.
  - intros source parent name v status v' d l i d' Hs Hpos Hp Hd _ Hne. by eapply rename_link_moves.
Qed.

(** ** Running a program alone *)

Fixpoint run_steps {A} (p : prog native A) (v : Volume) : A * Volume * list (NativeStep Volume) :=
  match p with
  | Ret a => (a, v, [])
  | Vis X e k =>
      let (x, v') := volume_step e v in
      let '(a, v'', t) := run_steps (k x) v' in
      (a, v'', mkStep (acted e x) v v' :: t)
  end.
Lemma run_steps_exec {A} (p : prog native A) v :
  exec p v (run_steps p v).2 (run_steps p v).1.1 (run_steps p v).1.2.
Proof.
  revert v. induction p as [a|X e k IH]; intros v; simpl; [constructor|].
  destruct (volume_step e v) as [x v'] eqn:Hs. specialize (IH x v').
  destruct (run_steps (k x) v') as [[a v''] t]. simpl in *. econstructor; [|exact Hs|exact IH].
  split; [done|]. by intros h d l i [_ Hl].
Qed.

(** C:\docs with two files. *)
Definition example_volume : Volume :=
  mkVolume [mkLink ROOT (text "DOCS") (text "docs") (mkIdentity 7 20) FILE_ATTRIBUTE_DIRECTORY;
            mkLink (mkIdentity 7 20) (text "A.TXT") (text "a.txt") (mkIdentity 7 30) 32;
            mkLink (mkIdentity 7 20) (text "B.TXT") (text "b.txt") (mkIdentity 7 31) 32] [].
