(* ===== verification/WindowsGuarantees.v ===== *)
(** * WindowsGuarantees: the contract of the production backend

    A rename moves exactly the entry it was authorised for, or nothing, and says
    which; an observation was true while it was made. *)

From S2P Require Import Prelude Collections LegacyText RenameModel Effects Codec WindowsNative WindowsBackend.
From S2P Require Import NativeSystem NativeVolume WindowsBackendCorrect.

(** ** Splitting a path *)

Lemma split_absolute_path_Ok path op parent leaf :
  split_absolute_path path op = Ok (parent, leaf) ->
  exists front unit,
    path = front ++ unit :: leaf /\ is_path_separator unit = true /\
    (parent = front \/ parent = front ++ [unit]) /\
    Forall (fun unit => is_path_separator unit = false) leaf /\ validate_windows_leaf_name leaf = Ok tt.
Proof.
  unfold split_absolute_path. destruct (rposition _ path) as [separator|] eqn:Hsep; [|done].
  destruct (_ || _); [done|].
  destruct (validate_windows_leaf_name (drop (S separator) path)) as [[]|e] eqn:Hleaf; [|done].
  intros [= <- <-].
  apply rposition_Some in Hsep as (unit & Hpath & Hunit & Hlt & Hrest).
  exists (take separator path), unit. split_and!; [done|done| |done|done].
  destruct (is_drive_root_separator path separator); [right|by left].
  rewrite (take_S_r _ _ unit); [done|]. rewrite Hpath.
  rewrite lookup_app_r by (rewrite length_take; lia). rewrite length_take.
  by replace (separator - separator `min` length path)%nat with 0%nat by lia.
Qed.
Lemma split_leaf_simple path op parent leaf : split_absolute_path path op = Ok (parent, leaf) -> simple_name leaf.
Proof.
  intros (front & unit & _ & _ & _ & Hleaf & _)%split_absolute_path_Ok. eapply Forall_impl; [exact Hleaf|].
  intros x Hx ->. done.
Qed.

Lemma split_units_app {A} (p : A -> bool) front unit rest :
  p unit = true -> split_units p (front ++ unit :: rest) = split_units p front ++ split_units p rest.
Proof.
  intros Hu. induction front as [|x front IH]; simpl; [by rewrite Hu|].
  rewrite IH. destruct (p x); [done|].
  destruct (split_units p front) as [|b bs] eqn:Hf; [|done].
  exfalso. clear -Hf. destruct front as [|y front]; simpl in Hf; [done|].
  destruct (p y); [done|]. by destruct (split_units p front).
Qed.
Lemma path_components_separator front unit rest :
  is_path_separator unit = true -> path_components (front ++ unit :: rest) = path_components front ++ path_components rest.
Proof. intros Hu. unfold path_components. by rewrite split_units_app, List.filter_app. Qed.
Lemma path_components_ends front unit :
  is_path_separator unit = true -> path_components (front ++ [unit]) = path_components front.
Proof. intros Hu. rewrite path_components_separator by done. cbn. by rewrite app_nil_r. Qed.

(** Splitting a path and joining its parent with its leaf keeps its components,
    whichever separators it is written with. *)
Theorem split_join_components path op parent leaf :
  split_absolute_path path op = Ok (parent, leaf) ->
  path_components (join_parent_and_leaf parent leaf) = path_components path.
Proof.
  intros (front & unit & -> & Hu & Hparent & _)%split_absolute_path_Ok. unfold join_parent_and_leaf.
  rewrite path_components_separator by done.
  destruct Hparent as [->| ->].
  - destruct (last_is is_path_separator front) eqn:Hlast; cbn [app]; [|by apply path_components_separator].
    unfold last_is in Hlast. destruct (last front) as [u|] eqn:Hl; [|done].
    apply last_Some in Hl as [front' ->]. rewrite <-app_assoc. cbn [app].
    by rewrite path_components_separator, path_components_ends.
  - unfold last_is. rewrite last_snoc, Hu. cbn [app]. rewrite <-app_assoc. by apply path_components_separator.
Qed.

(** ** Renames *)

Section renames.
Context {W : Type} `{NativeLaws W}.

(** What a run may have done: nothing, refused with certainty, or the one move. *)
Definition one_move (op : RenameOperation) (r : result BackendError unit) (t : list (NativeStep W)) : Prop :=
  (t = [] /\ exists e, r = Err e /\ certainty e = NotApplied) \/
  (exists w1 w2 source_parent source_leaf destination_parent destination_leaf,
     t = [mkStep true w1 w2] /\
     split_absolute_path (op_source op) OpRename = Ok (source_parent, source_leaf) /\
     split_absolute_path (op_destination op) OpRename = Ok (destination_parent, destination_leaf) /\
     names_directory w1 source_parent (expected_source_parent op) /\
     names_directory w1 destination_parent (expected_destination_parent op) /\
     entry_moved w1 w2 (expected_source_parent op, fold_name source_leaf)
       (expected_destination_parent op, fold_name destination_leaf) (expected_source op) /\
     (r = Ok tt \/ exists e, r = Err e /\ certainty e = MayHaveApplied)).

(** Steps before the move: they change nothing, and their errors are certain. *)
Lemma nwp_quiet_mbind {A B} (p : Prog native BackendError A) (f : A -> Prog native BackendError B) w R
    (P : result BackendError B -> list (NativeStep W) -> Prop) :
  quiet p w R ->
  (forall a w1 t1, keeps w w1 -> R (Ok a) w1 t1 -> nwp (f a) w1 (fun r _ t => P r (moves t))) ->
  (forall e w1 t1, R (Err e) w1 t1 -> P (Err e) []) ->
  nwp (p ≫= f) w (fun r _ t => P r (moves t)).
Proof.
  intros Hp Hf He. eapply nwp_bind; [exact Hp|]. intros [a|e] w1 t1 (Hk & Hm & HR).
  - eapply nwp_mono; [by eapply Hf|]. intros r w2 t2. by rewrite moves_app, Hm.
  - cbn. rewrite app_nil_r, Hm. by eapply He.
Qed.

Definition certain {A} (c : MutationCertainty) (r : result BackendError A) : Prop :=
  match r with Ok _ => True | Err e => certainty e = c end.
Definition certainly {A} (c : MutationCertainty) (P : A -> W -> Prop)
    (r : result BackendError A) (w : W) (_ : list (NativeStep W)) : Prop :=
  match r with Ok a => P a w | Err e => certainty e = c end.

Lemma quiet_mutating {A} c (p : Prog native OsError A) w (P : A -> W -> Prop) :
  quiet p w (fun r w' _ => ends P r w') -> quiet (mutating c p) w (certainly c P).
Proof. intros Hp. apply quiet_map_error. eapply quiet_mono; [exact Hp|]. by intros [a|e]. Qed.
Lemma quiet_refuse {A} code c w (P : A -> W -> Prop) : quiet (refuse code c) w (certainly c P).
Proof. by apply quiet_ret. Qed.
Lemma quiet_certainly_mbind {A B} c (p : Prog native BackendError A) (f : A -> Prog native BackendError B) w
    (R : A -> W -> Prop) (P : B -> W -> Prop) :
  quiet p w (certainly c R) ->
  (forall a w1, keeps w w1 -> R a w1 -> quiet (f a) w1 (certainly c P)) ->
  quiet (p ≫= f) w (certainly c P).
Proof. intros Hp Hf. eapply quiet_sequence; [exact Hp| |done]. intros a w1 t1 Hk HR. by apply Hf. Qed.
Lemma quiet_mutating_idle {A} c (p : Prog native OsError A) w :
  idle p -> quiet (mutating c p) w (certainly c (fun _ _ => True)).
Proof. intros Hp. by apply quiet_mutating, quiet_ends_idle. Qed.
Lemma open_entry_idle parent leaf delete_access : idle (open_entry parent leaf delete_access).
Proof. unfold open_entry, open_relative. idle_walk. Qed.
Lemma file_identity_idle file : idle (file_identity file).
Proof. unfold file_identity. idle_walk. Qed.

Lemma check_source_spec op source_leaf source i w :
  handle_of w source = Some i ->
  quiet (check_source op source_leaf source) w (certainly NotApplied (fun j _ => j = i /\ i = expected_source op)).
Proof.
  intros Hi. unfold check_source.
  eapply quiet_certainly_mbind; [apply quiet_mutating_idle; auto with idle|]. intros m w1 Hk1 _.
  destruct (has_attribute _ m); [apply quiet_refuse|].
  destruct (match op_kind op with Some kind => _ | None => _ end); [apply quiet_refuse|].
  eapply quiet_certainly_mbind; [apply quiet_mutating, file_identity_ends, Hk1, Hi|]. intros j w2 _ ->.
  case_bool_decide as Hexpected; cbn [negb]; [|apply quiet_refuse].
  eapply quiet_certainly_mbind; [apply quiet_mutating_idle; auto with idle|]. intros leaf w3 _ _.
  case_bool_decide; cbn [negb]; [by apply quiet_ret|apply quiet_refuse].
Qed.

Lemma verify_destination_spec parent leaf i w :
  quiet (verify_destination parent leaf i) w (certainly MayHaveApplied (fun _ _ => True)).
Proof.
  unfold verify_destination.
  eapply quiet_certainly_mbind; [apply quiet_mutating_idle, open_entry_idle|]. intros h w1 _ _.
  eapply quiet_certainly_mbind; [apply quiet_mutating_idle, file_identity_idle|]. intros j w2 _ _.
  case_bool_decide; cbn [negb]; [by apply quiet_ret|apply quiet_refuse].
Qed.

(** The source is opened so that nobody else can rename it. *)
Lemma open_source_spec parent leaf w :
  open_parent w parent -> simple_name leaf ->
  quiet (open_entry parent leaf true) w (fun r w' _ => ends (fun h w' =>
    exists i, handle_of w' h = Some i /\ pinned w' h (native_identity parent) (fold_name leaf) i) r w').
Proof.
  intros Hp Hleaf. unfold open_entry. eapply quiet_mono; [by apply open_relative_spec|].
  intros [h|e] w' t _; [|done]. intros (i & Hi & _ & Hpin). exists i. split; [done|by apply Hpin].
Qed.

(** Looking an entry up by its name. *)
Definition looked_up (d : EntryIdentity) (leaf : list Z) (w0 : W) (r : result OsError (option Z)) (w' : W)
    (t : list (NativeStep W)) : Prop :=
  match r with
  | Ok (Some h) => exists i, handle_of w' h = Some i /\
      Exists (fun step => links (before step) d (fold_name leaf) = Some i) t
  | Ok None => Exists (fun step => links (before step) d (fold_name leaf) = None) t /\
      forall h i, ~ pinned w0 h d (fold_name leaf) i
  | Err _ => True
  end.
Lemma try_open_entry_spec parent leaf w :
  open_parent w parent -> simple_name leaf ->
  quiet (try_open_entry parent leaf) w (looked_up (native_identity parent) leaf w).
Proof.
  intros Hp Hleaf. apply quiet_try_option. unfold open_entry.
  eapply quiet_mono; [by apply open_relative_spec|]. intros [h|e] w' t _; cbn.
  - intros (i & Hi & Ht & _). by exists i.
  - destruct (is_not_found e); [|done]. intros Hmissing. by apply Hmissing.
Qed.

Lemma rename_noreplace_spec source parent leaf w d l i d' :
  pinned w source d l i -> handle_of w parent = Some d' -> simple_name leaf -> (d', fold_name leaf) <> (d, l) ->
  nwp (rename_noreplace source parent leaf) w (fun r w' t =>
    match r with
    | Ok _ => exists w1 w2, moves t = [mkStep true w1 w2] /\ keeps w w1 /\
                entry_moved w1 w2 (d, l) (d', fold_name leaf) i
    | Err _ => moves t = []
    end).
Proof.
  intros Hpin Hparent Hleaf Hne. unfold rename_noreplace. destruct (_ || _); [done|].
  intros w1 status w2 Ho Hs. pose proof (others_keep _ _ Ho) as Hk.
  simpl. destruct (Z.ltb_spec status 0) as [Hneg|Hpos].
  - destruct (Z.leb_spec 0 status); [lia|]. by intros w3 code w4 _ _.
  - destruct (Z.leb_spec 0 status); [|lia]. exists w1, w2. split_and!; [done|done|].
    eapply rename_answer; [exact Hs|done|by apply Hk|by apply Hk|done|done].
Qed.

Lemma mutating_rename_spec source parent leaf w d l i d' :
  pinned w source d l i -> handle_of w parent = Some d' -> simple_name leaf -> (d', fold_name leaf) <> (d, l) ->
  nwp (mutating NotApplied (rename_noreplace source parent leaf)) w (fun r w' t =>
    match r with
    | Ok _ => exists w1 w2, moves t = [mkStep true w1 w2] /\ keeps w w1 /\
                entry_moved w1 w2 (d, l) (d', fold_name leaf) i
    | Err e => certainty e = NotApplied /\ moves t = []
    end).
Proof.
  intros. eapply nwp_bind; [by eapply rename_noreplace_spec|]. intros [[]|e] w' t Ht; cbn; rewrite app_nil_r; done.
Qed.

(** The move and its verification, once everything was checked. *)
Lemma move_spec op source source_parent destination_parent source_path source_leaf destination_path destination_leaf
    source_chain destination_chain i w :
  split_absolute_path (op_source op) OpRename = Ok (source_path, source_leaf) ->
  split_absolute_path (op_destination op) OpRename = Ok (destination_path, destination_leaf) ->
  source_parent = chain_parent source_chain -> destination_parent = chain_parent destination_chain ->
  native_identity source_parent = expected_source_parent op ->
  native_identity destination_parent = expected_destination_parent op ->
  chain_pins source_path w source_chain -> chain_pins destination_path w destination_chain ->
  pinned w source (native_identity source_parent) (fold_name source_leaf) i -> i = expected_source op ->
  (native_identity destination_parent, fold_name destination_leaf) <>
    (native_identity source_parent, fold_name source_leaf) ->
  nwp (mutating NotApplied (rename_noreplace source (parent_file destination_parent) destination_leaf);;
       verify_destination destination_parent destination_leaf i) w (fun r _ t => one_move op r (moves t)).
Proof.
  intros Hsource Hdestination -> -> Hsp Hdp Hsc Hdc Hpin -> Hne.
  eapply nwp_bind; [eapply mutating_rename_spec; [exact Hpin|apply Hdc|by eapply split_leaf_simple|exact Hne]|].
  intros [[]|e] w1 t1; cbn beta iota.
  - intros (wb & wa & Ht & Hk & Hmoved). eapply nwp_mono; [apply verify_destination_spec|].
    intros r w2 t2 (_ & Hm & Hr). right.
    exists wb, wa, source_path, source_leaf, destination_path, destination_leaf.
    rewrite moves_app, Ht, Hm. rewrite Hsp, Hdp in Hmoved. split_and!; [done..| | |done|].
    + rewrite <-Hsp. by eapply chain_pins_names, chain_pins_keeps.
    + rewrite <-Hdp. by eapply chain_pins_names, chain_pins_keeps.
    + destruct r as [[]|e]; [by left|]. right. by exists e.
  - intros [Hc Hm]. left. rewrite app_nil_r. eauto.
Qed.

Lemma nwp_certain_mbind {A B} (p : Prog native BackendError A) (f : A -> Prog native BackendError B) w R
    (P : result BackendError B -> list (NativeStep W) -> Prop) :
  quiet p w (certainly NotApplied R) ->
  (forall a w1, keeps w w1 -> R a w1 -> nwp (f a) w1 (fun r _ t => P r (moves t))) ->
  (forall e, certainty e = NotApplied -> P (Err e) []) ->
  nwp (p ≫= f) w (fun r _ t => P r (moves t)).
Proof.
  intros Hp Hf He. eapply nwp_quiet_mbind; [exact Hp| |].
  - intros a w1 t1 Hk HR. by apply Hf.
  - intros e w1 t1. apply He.
Qed.

Lemma one_move_refused op e : certainty e = NotApplied -> one_move op (Err e) [].
Proof. left. eauto. Qed.
Lemma nwp_refuse op code w : nwp (refuse code NotApplied) w (fun r _ t => one_move op r (moves t)).
Proof. by apply one_move_refused. Qed.

Lemma split_absolute_path_certain path op : match split_absolute_path path op with Ok _ => True | Err e => certainty e = NotApplied end.
Proof.
  unfold split_absolute_path. destruct (rposition _ path); [|done]. destruct (_ || _); [done|].
  by destruct (validate_windows_leaf_name _).
Qed.
Lemma quiet_split path op w :
  quiet (W := W) (lift_result (split_absolute_path path op)) w
    (certainly NotApplied (fun parts _ => split_absolute_path path op = Ok parts)).
Proof. pose proof (split_absolute_path_certain path op). apply quiet_ret. by destruct (split_absolute_path path op). Qed.

Lemma authorization_not_applied op error : authorization_error op = Some error -> certainty error = NotApplied.
Proof.
  unfold authorization_error. destruct (_ || _); [by intros [= <-]|]. destruct (_ && _); [by intros [= <-]|done].
Qed.

Lemma quiet_mutating_parent path w :
  quiet (mutating NotApplied (open_chain path)) w (certainly NotApplied (fun chain w' => chain_pins path w' chain)).
Proof. apply quiet_mutating, open_chain_spec. Qed.

Lemma quiet_occupied parent leaf w :
  open_parent w parent -> simple_name leaf ->
  quiet (mutating NotApplied (try_open_entry parent leaf)) w
    (certainly NotApplied (fun occupied _ =>
       occupied = None -> forall h i, ~ pinned w h (native_identity parent) (fold_name leaf) i)).
Proof.
  intros Hp Hleaf. apply quiet_mutating. eapply quiet_mono; [by apply try_open_entry_spec|].
  intros [[h|]|e] w' t _; cbn; [done| |done]. by intros [_ Hfree] _.
Qed.

(** The checks between the two chains and the move. *)
Lemma rename_checks_spec op source_path source_leaf destination_path destination_leaf source_chain destination_chain w :
  split_absolute_path (op_source op) OpRename = Ok (source_path, source_leaf) ->
  split_absolute_path (op_destination op) OpRename = Ok (destination_path, destination_leaf) ->
  native_identity (chain_parent source_chain) = expected_source_parent op ->
  native_identity (chain_parent destination_chain) = expected_destination_parent op ->
  chain_pins source_path w source_chain -> chain_pins destination_path w destination_chain ->
  nwp (mutating NotApplied (mret tt);;
       source ← mutating NotApplied (open_entry (chain_parent source_chain) source_leaf true);
       source_identity ← check_source op source_leaf source;
       occupied ← mutating NotApplied (try_open_entry (chain_parent destination_chain) destination_leaf);
       match occupied with
       | Some _ => refuse ERROR_ALREADY_EXISTS NotApplied
       | None =>
           if negb (volume (native_identity (chain_parent source_chain)) =?
                    volume (native_identity (chain_parent destination_chain)))
           then refuse ERROR_NOT_SAME_DEVICE NotApplied
           else
             mutating NotApplied (mret tt);;
             mutating NotApplied (rename_noreplace source (parent_file (chain_parent destination_chain)) destination_leaf);;
             verify_destination (chain_parent destination_chain) destination_leaf source_identity
       end) w (fun r _ t => one_move op r (moves t)).
Proof.
  intros Hsource Hdestination Hsp Hdp Hsc Hdc.
  eapply nwp_certain_mbind; [by apply quiet_mutating_idle| |apply one_move_refused]. intros _ w1 Hk1 _.
  pose proof (chain_pins_keeps _ _ _ _ Hk1 Hsc) as Hsc1. pose proof (chain_pins_keeps _ _ _ _ Hk1 Hdc) as Hdc1.
  clear Hsc Hdc Hk1 w.
  eapply nwp_certain_mbind.
  { apply quiet_mutating, open_source_spec; [apply Hsc1|by eapply split_leaf_simple]. }
  2: { apply one_move_refused. }
  intros source w2 Hk2 (i & Hi & Hpin).
  pose proof (chain_pins_keeps _ _ _ _ Hk2 Hsc1) as Hsc2. pose proof (chain_pins_keeps _ _ _ _ Hk2 Hdc1) as Hdc2.
  clear Hsc1 Hdc1 Hk2 w1.
  eapply nwp_certain_mbind; [by apply check_source_spec| |apply one_move_refused]. intros j w3 Hk3 [-> Hexpected].
  pose proof (chain_pins_keeps _ _ _ _ Hk3 Hsc2) as Hsc3. pose proof (chain_pins_keeps _ _ _ _ Hk3 Hdc2) as Hdc3.
  apply Hk3 in Hpin. clear Hsc2 Hdc2 Hk3 Hi w2.
  eapply nwp_certain_mbind.
  { apply quiet_occupied; [apply Hdc3|by eapply split_leaf_simple]. }
  2: { apply one_move_refused. }
  intros [h|] w4 Hk4 Hfree; [apply nwp_refuse|]. specialize (Hfree eq_refl).
  assert ((native_identity (chain_parent destination_chain), fold_name destination_leaf) <>
          (native_identity (chain_parent source_chain), fold_name source_leaf)) as Hne.
  { intros Heq. injection Heq as Hd Hl. rewrite <-Hd, <-Hl in Hpin. by apply Hfree in Hpin. }
  destruct (negb _); [apply nwp_refuse|].
  eapply nwp_certain_mbind; [by apply quiet_mutating_idle| |apply one_move_refused]. intros _ w5 Hk5 _.
  assert (keeps w3 w5) as Hk by (by etransitivity).
  eapply move_spec; [exact Hsource|exact Hdestination|reflexivity|reflexivity|done|done| | |by apply Hk|done|done];
    by eapply chain_pins_keeps.
Qed.

Lemma rename_spec op w : nwp (windows_rename_no_replace op) w (fun r _ t => one_move op r (moves t)).
Proof.
  unfold windows_rename_no_replace, rename_with_boundaries.
  destruct (authorization_error op) as [error|] eqn:Ha.
  { by apply one_move_refused, (authorization_not_applied op). }
  eapply nwp_certain_mbind; [apply quiet_split| |apply one_move_refused]. intros [source_path source_leaf] w1 _ Hs.
  eapply nwp_certain_mbind; [apply quiet_split| |apply one_move_refused].
  intros [destination_path destination_leaf] w2 _ Hd.
  eapply nwp_certain_mbind; [apply quiet_mutating_parent| |apply one_move_refused]. intros source_chain w3 _ Hsc.
  eapply nwp_certain_mbind; [apply quiet_mutating_parent| |apply one_move_refused]. intros destination_chain w4 Hk Hdc.
  case_bool_decide as Hsp; cbn [negb orb]; [|apply nwp_refuse].
  case_bool_decide as Hdp; cbn [negb orb]; [|apply nwp_refuse].
  eapply rename_checks_spec; [done|done|done|done|by eapply chain_pins_keeps|done].
Qed.

(** C9: Whatever other processes do between its calls, a rename changes no directory
    and is refused as not applied, or it makes one change: at that moment the two
    parent paths name the directories that were authorised, the source name names
    the authorised entry and the destination name is free, the entry gets the
    destination name, and no other name is touched.  After it the answer is success
    or "may have been applied", never "not applied". *)
Theorem rename_moves_one_entry op w t r w' :
  exec (windows_rename_no_replace op) w t r w' -> one_move op r (moves t).
Proof.
  intros Hexec. exact (nwp_exec _ _ _ _ _ _ Hexec (rename_spec op w)).
Qed.
End renames.

(** ** Observations *)

Section observations.
Context {W : Type} `{NativeLaws W}.

(** The directory entry was as the snapshot says, at some call of the run. *)
Definition seen (snapshot : PathSnapshot) (leaf : list Z) (t : list (NativeStep W)) : Prop :=
  Exists (fun step => links (before step) (snapshot_parent snapshot) (fold_name leaf) =
                      observed_identity <$> snapshot_entry snapshot) t.
Lemma seen_later snapshot leaf t t' : seen snapshot leaf t' -> seen snapshot leaf (t ++ t').
Proof. intros Hs. apply Exists_app. by right. Qed.
Lemma seen_before snapshot leaf t t' : seen snapshot leaf t -> seen snapshot leaf (t ++ t').
Proof. intros Hs. apply Exists_app. by left. Qed.

Lemma quiet_observing {A} (p : Prog native OsError A) w (P : A -> W -> list (NativeStep W) -> Prop) :
  quiet p w (on_ok P) -> quiet (observing p) w (on_ok P).
Proof. intros Hp. apply quiet_map_error. eapply quiet_mono; [exact Hp|]. by intros [a|e]. Qed.
Lemma quiet_on_ok_mbind {A B} (p : Prog native BackendError A) (f : A -> Prog native BackendError B) w
    (R : A -> W -> list (NativeStep W) -> Prop) P :
  quiet p w (on_ok R) ->
  (forall a w1 t1, keeps w w1 -> R a w1 t1 -> quiet (f a) w1 (on_ok (fun b w2 t2 => P b w2 (t1 ++ t2)))) ->
  quiet (p ≫= f) w (on_ok P).
Proof.
  intros Hp Hf. eapply quiet_sequence; [exact Hp| |done]. intros a w1 t1 Hk HR.
  eapply quiet_mono; [by eapply Hf|]. by intros [b|e].
Qed.
Lemma quiet_on_ok_idle {A} (p : Prog native BackendError A) w :
  idle p -> quiet p w (on_ok (fun _ (_ : W) _ => True)).
Proof. intros Hp. eapply quiet_mono; [by apply idle_quiet|]. by intros [a|e]. Qed.

Lemma quiet_open_legacy path w :
  quiet (observing (open_legacy path)) w (on_ok (fun parent w' _ => open_parent w' parent)).
Proof. apply quiet_observing. eapply quiet_mono; [apply open_path_spec|]. by intros [a|e]. Qed.

Lemma observe_handle_spec h w i :
  handle_of w h = Some i -> quiet (observe_handle h) w (on_ok (fun entry (_ : W) _ => observed_identity entry = i)).
Proof.
  intros Hi. eapply quiet_on_ok_mbind; [apply quiet_on_ok_idle, idle_bind; [apply metadata_idle|done]|].
  intros m w1 t1 Hk _. eapply quiet_on_ok_mbind; [apply quiet_observing, file_identity_spec, Hk, Hi|].
  intros j w2 t2 _ ->. by apply quiet_ret.
Qed.

Lemma invariant_uppercase_idle units : idle (invariant_uppercase units).
Proof.
  unfold invariant_uppercase. destruct (_ <? _); [done|]. split; [done|]. intros [needed buffer]. simpl.
  destruct (_ <=? _); [done|]. split; [done|]. by intros [written mapped].
Qed.

(** The looked-up entry, as far as a handle was opened on it. *)
Definition found (parent : EntryIdentity) (leaf : list Z) (opened : option Z) (w : W) (t : list (NativeStep W)) : Prop :=
  match opened with
  | Some h => exists i, handle_of w h = Some i /\
      Exists (fun step => links (before step) parent (fold_name leaf) = Some i) t
  | None => Exists (fun step => links (before step) parent (fold_name leaf) = None) t
  end.
Lemma quiet_found parent leaf w :
  open_parent w parent -> simple_name leaf ->
  quiet (observing (try_open_entry parent leaf)) w (on_ok (found (native_identity parent) leaf)).
Proof.
  intros Hp Hleaf. apply quiet_observing. eapply quiet_mono; [by apply try_open_entry_spec|].
  intros [[h|]|e] w' t _; cbn; [done| |done]. by intros [? _].
Qed.

Lemma quiet_split_ok path op w :
  quiet (W := W) (lift_result (split_absolute_path path op)) w
    (on_ok (fun parts _ t => t = [] /\ split_absolute_path path op = Ok parts)).
Proof. apply quiet_ret. by destruct (split_absolute_path path op). Qed.

(** C21: An observation changes nothing and was true: at one of its calls the directory
    that the parent handle is open on named exactly the entry it reports. *)
Theorem windows_observe_shows path w t snapshot w' :
  exec (windows_observe path) w t (Ok snapshot) w' ->
  moves t = [] /\ exists parent leaf,
    split_absolute_path path OpObserve = Ok (parent, leaf) /\ seen snapshot leaf t.
Proof.
  intros Hexec. enough (quiet (windows_observe path) w (on_ok (fun snapshot _ t => exists parent leaf,
    split_absolute_path path OpObserve = Ok (parent, leaf) /\ seen snapshot leaf t))) as Hq.
  { by destruct (nwp_exec _ _ _ _ _ _ Hexec Hq) as (_ & ? & ?). }
  clear Hexec. unfold windows_observe.
  eapply quiet_on_ok_mbind; [apply quiet_split_ok|]. intros [parent leaf] w1 t1 _ [-> Hsplit]. cbn [app].
  eapply quiet_on_ok_mbind; [apply quiet_open_legacy|]. intros directory w2 t2 _ Hopen.
  eapply quiet_on_ok_mbind; [by apply quiet_found, (split_leaf_simple _ _ _ _ Hsplit)|].
  intros [h|] w3 t3 _; cbn [found].
  - intros (i & Hi & Hseen). eapply quiet_on_ok_mbind; [by apply observe_handle_spec|].
    intros entry w4 t4 _ <-. apply quiet_ret. cbn. exists parent, leaf. split; [done|].
    apply seen_later, seen_before. exact Hseen.
  - intros Hseen. apply quiet_ret. exists parent, leaf. split; [done|]. apply seen_later, seen_before. exact Hseen.
Qed.

(** A resolved source is such an observation too; its path is the parent's with the
    name the system gives the entry, and its key is the entry key of both. *)
Theorem windows_resolve_shows path w t resolved w' :
  exec (windows_resolve_source path) w t (Ok resolved) w' ->
  moves t = [] /\ exists parent leaf,
    split_absolute_path path OpObserve = Ok (parent, leaf) /\ seen (resolved_snapshot resolved) leaf t /\
    match snapshot_entry (resolved_snapshot resolved) with
    | None => resolved_path resolved = path /\ resolved_entry_key resolved = None
    | Some _ => exists normalized mapped, validate_windows_leaf_name normalized = Ok tt /\
        resolved_path resolved = join_parent_and_leaf parent normalized /\
        resolved_entry_key resolved = Some (entry_key_from_parts (snapshot_parent (resolved_snapshot resolved)) mapped)
    end.
Proof.
  intros Hexec. enough (quiet (windows_resolve_source path) w (on_ok (fun resolved _ t => exists parent leaf,
    split_absolute_path path OpObserve = Ok (parent, leaf) /\ seen (resolved_snapshot resolved) leaf t /\
    match snapshot_entry (resolved_snapshot resolved) with
    | None => resolved_path resolved = path /\ resolved_entry_key resolved = None
    | Some _ => exists normalized mapped, validate_windows_leaf_name normalized = Ok tt /\
        resolved_path resolved = join_parent_and_leaf parent normalized /\
        resolved_entry_key resolved = Some (entry_key_from_parts (snapshot_parent (resolved_snapshot resolved)) mapped)
    end))) as Hq.
  { by destruct (nwp_exec _ _ _ _ _ _ Hexec Hq) as (_ & ? & ?). }
  clear Hexec. unfold windows_resolve_source.
  eapply quiet_on_ok_mbind; [apply quiet_split_ok|]. intros [parent leaf] w1 t1 _ [-> Hsplit]. cbn [app].
  eapply quiet_on_ok_mbind; [apply quiet_open_legacy|]. intros directory w2 t2 _ Hopen.
  eapply quiet_on_ok_mbind; [by apply quiet_found, (split_leaf_simple _ _ _ _ Hsplit)|].
  intros [h|] w3 t3 _; cbn [found].
  - intros (i & Hi & Hseen). eapply quiet_on_ok_mbind; [by apply observe_handle_spec|].
    intros entry w4 t4 _ <-.
    eapply quiet_on_ok_mbind; [apply quiet_on_ok_idle, idle_bind; [apply normalized_final_leaf_idle|done]|].
    intros normalized w5 t5 _ _.
    destruct (validate_windows_leaf_name normalized) as [[]|e] eqn:Hvalid; [|by apply quiet_ret].
    eapply (quiet_on_ok_mbind _ _ _ (fun key _ _ => exists mapped, key = entry_key_from_parts (native_identity directory) mapped)).
    { unfold windows_planned_entry_key. rewrite Hvalid. eapply quiet_on_ok_mbind; [apply quiet_on_ok_idle|].
      { apply idle_bind; [apply invariant_uppercase_idle|done]. }
      intros [mapped|] w6 t6 _ _; [by apply quiet_ret; exists mapped|].
      eapply quiet_on_ok_mbind; [apply quiet_on_ok_idle; unfold io_code; idle_walk|]. intros. by apply quiet_ret. }
    intros key w7 t7 _ (mapped & ->). apply quiet_ret. cbn. exists parent, leaf.
    split; [done|]. split; [apply seen_later, seen_before; exact Hseen|]. by exists normalized, mapped.
  - intros Hseen. apply quiet_ret. exists parent, leaf.
    split; [done|]. split; [apply seen_later, seen_before; exact Hseen|done].
Qed.
End observations.

(** ** Examples *)

Definition example_rename (destination : string) : RenameOperation :=
  mkOperation (text "C:\docs\a.txt") (text destination) (mkIdentity 7 30) (mkIdentity 7 20) (mkIdentity 7 20)
    (Some File) SameParent.
Example rename_runs :
  let run := run_steps (windows_rename_no_replace (example_rename "C:\docs\c.txt")) example_volume in
  run.1.1 = Ok tt /\ volume_lookup run.1.2 (mkIdentity 7 20) (text "C.TXT") = Some (mkIdentity 7 30).
Proof. split; by vm_compute. Qed.
Example occupied_destination_refused :
  (run_steps (windows_rename_no_replace (example_rename "C:\docs\B.txt")) example_volume).1.1 =
    Err (mkBackendError OpRename 183 NotApplied).
Proof. by vm_compute. Qed.

Lemma rename_moves_one_entry_witness :
  let run := run_steps (windows_rename_no_replace (example_rename "C:\docs\c.txt")) example_volume in
  run.1.1 = Ok tt /\ one_move (example_rename "C:\docs\c.txt") run.1.1 (moves run.2) /\ length (moves run.2) = 1%nat.
Proof.
  split; [by vm_compute|]. split; [|by vm_compute].
  exact (rename_moves_one_entry _ _ _ _ _
    (run_steps_exec (windows_rename_no_replace (example_rename "C:\docs\c.txt")) example_volume)).
Defined.

Lemma windows_observe_shows_witness :
  exists snapshot t w', exec (windows_observe (text "C:\docs\a.txt")) example_volume t (Ok snapshot) w' /\
    snapshot = mkSnapshot (mkIdentity 7 20) (Some (mkObserved (mkIdentity 7 30) File false)) /\
    (moves t = [] /\ exists parent leaf,
       split_absolute_path (text "C:\docs\a.txt") OpObserve = Ok (parent, leaf) /\ seen snapshot leaf t).
Proof.
  assert ((run_steps (windows_observe (text "C:\docs\a.txt")) example_volume).1.1 =
    Ok (mkSnapshot (mkIdentity 7 20) (Some (mkObserved (mkIdentity 7 30) File false)))) as Hr by by vm_compute.
  pose proof (run_steps_exec (windows_observe (text "C:\docs\a.txt")) example_volume) as Hexec.
  rewrite Hr in Hexec. eexists _, _, _. split; [exact Hexec|]. split; [reflexivity|].
  exact (windows_observe_shows _ _ _ _ _ Hexec).
Defined.
