(* ===== verification/Appearance.v ===== *)
(** * Appearance: themes, forced colours and the advanced appearance dialog

    [crates/darknamer-app/src/appearance_model.rs]: how the stored preference, the
    system theme and high contrast resolve to one appearance, the colours of a
    changed name, the appearance commands, the model behind the dialog, and the
    packing of an appearance into a message parameter.  A colour is a COLORREF. *)

From S2P Require Import Prelude Collections LegacyText Preview Preferences CommandCatalog.
#[local] Open Scope Z_scope.

#[export] Instance AppThemeMode_eq_dec : EqDecision AppThemeMode.
Proof. solve_decision. Defined.
#[export] Instance RailDensityPreference_eq_dec : EqDecision RailDensityPreference.
Proof. solve_decision. Defined.
#[export] Instance PreviewEmphasis_eq_dec : EqDecision PreviewEmphasis.
Proof. solve_decision. Defined.
#[export] Instance UiAppearance_eq_dec : EqDecision UiAppearance.
Proof. solve_decision. Defined.

(** ** Forced colours and themes *)

Inductive ForcedColorsState : Type := Inactive | ActiveOrUnknown.
Definition from_high_contrast_query (active : option bool) : ForcedColorsState :=
  match active with Some false => Inactive | _ => ActiveOrUnknown end.
Definition forced_custom_colors_enabled (forced : ForcedColorsState) : bool :=
  match forced with Inactive => true | ActiveOrUnknown => false end.

Inductive ResolvedTheme : Type := NativeSystem | LightTheme | DarkTheme.
#[export] Instance ResolvedTheme_eq_dec : EqDecision ResolvedTheme.
Proof. solve_decision. Defined.
Record ResolvedUiAppearance : Type := mkResolvedAppearance {
  appearance : UiAppearance;
  resolved_theme : ResolvedTheme;
  custom_colors_enabled : bool
}.

Definition owner_draw_menu_for_theme (theme : ResolvedTheme) : bool :=
  match theme with LightTheme | DarkTheme => true | NativeSystem => false end.
Definition theme_from_foreground (red green blue : Z) : ResolvedTheme :=
  let luminance := red * 299 + green * 587 + blue * 114 in
  if 128000 <=? luminance then DarkTheme else LightTheme.

Definition set_theme (t : AppThemeMode) (a : UiAppearance) : UiAppearance :=
  mkAppearance t (density a) (emphasis a) (show_separators a) (show_preview_tint a) (show_empty_safety a).
Definition set_tint (b : bool) (a : UiAppearance) : UiAppearance :=
  mkAppearance (theme a) (density a) (emphasis a) (show_separators a) b (show_empty_safety a).

Definition resolve (a : UiAppearance) (forced : ForcedColorsState) (system_theme : option ResolvedTheme)
  : ResolvedUiAppearance :=
  if negb (forced_custom_colors_enabled forced)
  then mkResolvedAppearance (set_tint false (set_theme SystemTheme a)) NativeSystem false
  else
    let '(resolved, enabled) :=
      match theme a with
      | Light => (LightTheme, true)
      | Dark => (DarkTheme, true)
      | SystemTheme =>
          match system_theme with
          | Some DarkTheme => (DarkTheme, true)
          | Some LightTheme => (LightTheme, true)
          | Some NativeSystem | None => (NativeSystem, false)
          end
      end in
    mkResolvedAppearance a resolved enabled.

Inductive DwmFrameAction : Type := NoFrameChange | SetDark (dark : bool).
Definition dwm_frame_action (theme : ResolvedTheme) (dark_frame_requested : bool) : DwmFrameAction :=
  match theme with
  | DarkTheme => SetDark true
  | LightTheme => SetDark false
  | NativeSystem => if dark_frame_requested then SetDark false else NoFrameChange
  end.

(** ** Colours *)

Record SemanticPalette : Type := mkPalette {
  surface_window : Z; surface_panel : Z; surface_workspace : Z; surface_status : Z;
  surface_drop : Z; surface_header : Z; surface_dialog : Z;
  control_normal : Z; control_hover : Z; control_pressed : Z; control_disabled : Z;
  text_primary : Z; text_secondary : Z; text_disabled : Z;
  control_outline : Z; divider_subtle : Z;
  changed_subtle : Z; changed_standard : Z; changed_strong : Z;
  warning : Z; collision : Z; preview_tint : Z; apply_keyline : Z
}.
Definition color_ref (red green blue : Z) : Z := Z.lor (Z.lor red (Z.shiftl green 8)) (Z.shiftl blue 16).
Definition PRECISION_LIGHT : SemanticPalette := {|
  surface_window := color_ref 247 248 250; surface_panel := color_ref 247 248 250;
  surface_workspace := color_ref 255 255 255; surface_status := color_ref 244 245 247;
  surface_drop := color_ref 245 248 255; surface_header := color_ref 238 240 243;
  surface_dialog := color_ref 247 248 250;
  control_normal := color_ref 255 255 255; control_hover := color_ref 240 244 250;
  control_pressed := color_ref 226 232 240; control_disabled := color_ref 235 237 240;
  text_primary := color_ref 27 29 32; text_secondary := color_ref 95 102 112;
  text_disabled := color_ref 110 117 127;
  control_outline := color_ref 177 183 192; divider_subtle := color_ref 217 221 227;
  changed_subtle := color_ref 67 86 119; changed_standard := color_ref 35 83 151;
  changed_strong := color_ref 14 67 143;
  warning := color_ref 142 83 0; collision := color_ref 169 22 33;
  preview_tint := color_ref 245 248 255; apply_keyline := color_ref 35 83 151 |}.
Definition GRAPHITE_DARK : SemanticPalette := {|
  surface_window := color_ref 20 22 25; surface_panel := color_ref 20 22 25;
  surface_workspace := color_ref 23 25 28; surface_status := color_ref 30 32 36;
  surface_drop := color_ref 32 40 51; surface_header := color_ref 38 41 46;
  surface_dialog := color_ref 26 28 32;
  control_normal := color_ref 42 45 50; control_hover := color_ref 52 57 64;
  control_pressed := color_ref 32 35 40; control_disabled := color_ref 34 37 41;
  text_primary := color_ref 242 244 247; text_secondary := color_ref 184 190 199;
  text_disabled := color_ref 150 157 167;
  control_outline := color_ref 83 89 99; divider_subtle := color_ref 55 60 67;
  changed_subtle := color_ref 167 184 210; changed_standard := color_ref 133 183 255;
  changed_strong := color_ref 174 208 255;
  warning := color_ref 255 194 92; collision := color_ref 255 137 145;
  preview_tint := color_ref 32 40 51; apply_keyline := color_ref 133 183 255 |}.
Definition semantic_palette (theme : ResolvedTheme) : option SemanticPalette :=
  match theme with
  | NativeSystem => None
  | LightTheme => Some PRECISION_LIGHT
  | DarkTheme => Some GRAPHITE_DARK
  end.

Definition prompt_custom_theme_enabled (resolved : ResolvedUiAppearance)
    (resources_complete control_theme_complete : bool) : bool :=
  custom_colors_enabled resolved && negb (bool_decide (resolved_theme resolved = NativeSystem))
  && resources_complete && control_theme_complete.

Inductive ProposedNameVisual : Type := DefaultVisual | ChangedVisual | WarningVisual | CollisionVisual.
Record ProposedNameColors : Type := mkNameColors { name_text : Z; name_background : option Z }.
Definition proposed_name_colors (resolved : ResolvedUiAppearance) (visual : ProposedNameVisual)
  : option ProposedNameColors :=
  match visual with
  | DefaultVisual => None
  | _ =>
      if negb (custom_colors_enabled resolved) then None
      else
        palette ← semantic_palette (resolved_theme resolved);
        let colour :=
          match visual with
          | WarningVisual => warning palette
          | CollisionVisual => collision palette
          | _ =>
              match emphasis (appearance resolved) with
              | Subtle => changed_subtle palette
              | Standard => changed_standard palette
              | Strong => changed_strong palette
              end
          end in
        Some (mkNameColors colour
                (if show_preview_tint (appearance resolved) then Some (preview_tint palette) else None))
  end.

Record ProposedNameVisualContext : Type := mkVisualContext {
  context_row : option nat; row_count : nat; subitem : Z; row_changed : bool;
  context_issue : PreviewRowIssue; row_selected : bool; row_focused : bool; colors_enabled : bool
}.
Definition proposed_name_visual_decision (c : ProposedNameVisualContext) : ProposedNameVisual :=
  let valid_row := match context_row c with Some row => (row <? row_count c)%nat | None => false end in
  if (subitem c =? 1) && valid_row && row_changed c && negb (row_selected c) && colors_enabled c
  then match context_issue c with
       | NoIssue => ChangedVisual
       | EmptyStem => WarningVisual
       | InvalidName _ | DuplicateDestination => CollisionVisual
       end
  else DefaultVisual.

(** ** Commands *)

Definition THEME_SYSTEM : CommandId := 36880.
Definition THEME_LIGHT : CommandId := 36881.
Definition THEME_DARK : CommandId := 36882.
Definition APPEARANCE_ADVANCED : CommandId := 36883.
Definition PREVIEW_DETAILS : CommandId := 36884.

Definition theme_mode_for_command (c : CommandId) : option AppThemeMode :=
  if c =? THEME_SYSTEM then Some SystemTheme
  else if c =? THEME_LIGHT then Some Light
  else if c =? THEME_DARK then Some Dark
  else None.
Definition theme_command_for_mode (mode : AppThemeMode) : CommandId :=
  match mode with SystemTheme => THEME_SYSTEM | Light => THEME_LIGHT | Dark => THEME_DARK end.
Definition appearance_command_allowed (c : CommandId) (worker_active : bool) : bool :=
  bool_decide (is_Some (theme_mode_for_command c)) || (c =? APPEARANCE_ADVANCED) && negb worker_active.
Definition appearance_after_theme_command (a : UiAppearance) (c : CommandId) : option UiAppearance :=
  (fun mode => set_theme mode a) <$> theme_mode_for_command c.
Definition advanced_appearance_available (worker_active confirmation_pending : bool) : bool :=
  negb worker_active && negb confirmation_pending.
Definition appearance_dialog_should_notify_cancel (armed finished : bool) : bool := armed && negb finished.

(** ** The dialog *)

Definition DEFAULT : UiAppearance := mkAppearance SystemTheme Automatic Standard true true true.

Inductive AppearanceDialogAction : Type :=
| ChooseDensity (d : RailDensityPreference)
| ChooseEmphasis (e : PreviewEmphasis)
| ShowSeparators (b : bool)
| ShowPreviewTint (b : bool)
| ShowEmptySafety (b : bool)
| ResetDefaults
| AcceptDialog
| CancelDialog.
Inductive AppearanceDialogEffect : Type :=
| NoDialogEffect | PreviewEffect (a : UiAppearance) | AcceptEffect (a : UiAppearance) | CancelEffect (a : UiAppearance).
Record AppearanceDialogModel : Type := mkDialogModel {
  original : UiAppearance; draft : UiAppearance; dialog_forced_colors : ForcedColorsState
}.
Definition new_dialog (a : UiAppearance) (forced : ForcedColorsState) : AppearanceDialogModel :=
  mkDialogModel a a forced.
Definition set_forced_colors (forced : ForcedColorsState) (m : AppearanceDialogModel) : AppearanceDialogModel :=
  mkDialogModel (original m) (draft m) forced.
Definition set_draft (a : UiAppearance) (m : AppearanceDialogModel) : AppearanceDialogModel :=
  mkDialogModel (original m) a (dialog_forced_colors m).

(** The draft the action asks for; [Accept] and [Cancel] end the dialog. *)
Definition next_draft (action : AppearanceDialogAction) (m : AppearanceDialogModel) : UiAppearance :=
  let a := draft m in
  let colours := forced_custom_colors_enabled (dialog_forced_colors m) in
  match action with
  | ChooseDensity d =>
      mkAppearance (theme a) d (emphasis a) (show_separators a) (show_preview_tint a) (show_empty_safety a)
  | ChooseEmphasis e =>
      if colours then
        mkAppearance (theme a) (density a) e (show_separators a) (show_preview_tint a) (show_empty_safety a)
      else a
  | ShowSeparators b =>
      mkAppearance (theme a) (density a) (emphasis a) b (show_preview_tint a) (show_empty_safety a)
  | ShowPreviewTint b => if colours then set_tint b a else a
  | ShowEmptySafety b =>
      mkAppearance (theme a) (density a) (emphasis a) (show_separators a) (show_preview_tint a) b
  | ResetDefaults => set_theme (theme a) DEFAULT
  | AcceptDialog | CancelDialog => a
  end.
Definition apply_action (action : AppearanceDialogAction) (m : AppearanceDialogModel)
  : AppearanceDialogEffect * AppearanceDialogModel :=
  match action with
  | AcceptDialog => (AcceptEffect (draft m), m)
  | CancelDialog => (CancelEffect (original m), set_draft (original m) m)
  | _ =>
      let next := next_draft action m in
      if bool_decide (next = draft m) then (NoDialogEffect, m) else (PreviewEffect next, set_draft next m)
  end.

(** ** Packing *)

Definition flag_bit (b : bool) : Z := if b then 1 else 0.
Definition theme_value (t : AppThemeMode) : Z := match t with SystemTheme => 0 | Light => 1 | Dark => 2 end.
Definition density_value (d : RailDensityPreference) : Z :=
  match d with Automatic => 0 | Comfortable => 1 | Compact => 2 | MenuOnly => 3 end.
Definition emphasis_value (e : PreviewEmphasis) : Z := match e with Subtle => 0 | Standard => 1 | Strong => 2 end.
Definition pack_ui_appearance (a : UiAppearance) : Z :=
  Z.lor (Z.lor (Z.lor (Z.lor (Z.lor (theme_value (theme a))
    (Z.shiftl (density_value (density a)) 2)) (Z.shiftl (emphasis_value (emphasis a)) 4))
    (Z.shiftl (flag_bit (show_separators a)) 6)) (Z.shiftl (flag_bit (show_preview_tint a)) 7))
    (Z.shiftl (flag_bit (show_empty_safety a)) 8).
(** [!0x1FF] in 32 bits. *)
Definition unpack_ui_appearance (packed : Z) : option UiAppearance :=
  if negb (Z.land packed (u32_max - 511) =? 0) then None
  else
    t ← match Z.land packed 3 with 0 => Some SystemTheme | 1 => Some Light | 2 => Some Dark | _ => None end;
    d ← match Z.land (Z.shiftr packed 2) 3 with
        | 0 => Some Automatic | 1 => Some Comfortable | 2 => Some Compact | 3 => Some MenuOnly | _ => None
        end;
    e ← match Z.land (Z.shiftr packed 4) 3 with
        | 0 => Some Subtle | 1 => Some Standard | 2 => Some Strong | _ => None
        end;
    Some (mkAppearance t d e (negb (Z.land packed 64 =? 0)) (negb (Z.land packed 128 =? 0))
            (negb (Z.land packed 256 =? 0))).

(** ** Facts *)

Lemma unpack_pack a : unpack_ui_appearance (pack_ui_appearance a) = Some a.
Proof. by destruct a as [[] [] [] [] [] []]. Qed.

(** A packed word has no bit beyond the ninth, so there are 512 candidates. *)
Lemma unpack_small packed a :
  0 <= packed <= u32_max -> unpack_ui_appearance packed = Some a -> packed < 512.
Proof.
  intros Hp. unfold unpack_ui_appearance. destruct (Z.eqb_spec (Z.land packed (u32_max - 511)) 0) as [Hz|]; [|done].
  intros _. destruct (Z.lt_ge_cases packed 512) as [|Hge]; [done|]. exfalso.
  assert (9 <= Z.log2 packed < 32) as Hlog.
  { split; [change 9 with (Z.log2 512); apply Z.log2_le_mono; lia|].
    apply Z.log2_lt_pow2; [lia|]. change (2 ^ 32) with (u32_max + 1). lia. }
  assert (Z.testbit (Z.land packed (u32_max - 511)) (Z.log2 packed) = true) as Hbit.
  { rewrite Z.land_spec, Z.bit_log2 by lia. cbn [andb].
    change (u32_max - 511) with (Z.shiftl (Z.ones 23) 9). rewrite Z.shiftl_spec by lia.
    apply Z.ones_spec_low. lia. }
  rewrite Hz in Hbit. by rewrite Z.bits_0 in Hbit.
Qed.

Definition unpacks_to_itself (packed : Z) : bool :=
  match unpack_ui_appearance packed with Some a => pack_ui_appearance a =? packed | None => true end.
Lemma all_words_canonical : forallb (fun n => unpacks_to_itself (Z.of_nat n)) (seq 0 512) = true.
Proof. by vm_compute. Qed.

(** A message parameter and an appearance determine each other: unpacking inverts
    packing, and no other word is accepted for the same appearance. *)
Theorem appearance_packing_exact packed a :
  0 <= packed <= u32_max -> unpack_ui_appearance packed = Some a <-> packed = pack_ui_appearance a.
Proof.
  intros Hp. split; [|intros ->; apply unpack_pack]. intros Hu. pose proof (unpack_small _ _ Hp Hu).
  pose proof all_words_canonical as Hall. rewrite forallb_forall in Hall.
  specialize (Hall (Z.to_nat packed)). unfold unpacks_to_itself in Hall. rewrite Z2Nat.id, Hu in Hall by lia.
  symmetry. apply Z.eqb_eq, Hall, in_seq. lia.
Qed.

(** Forced colours win over every preference: nothing app-owned is drawn. *)
Theorem forced_colors_take_precedence a system_theme visual :
  resolved_theme (resolve a ActiveOrUnknown system_theme) = NativeSystem /\
  proposed_name_colors (resolve a ActiveOrUnknown system_theme) visual = None.
Proof. split; [done|]. by destruct visual. Qed.

(** The model of an open dialog after any actions: what it was opened with is kept,
    the theme is not the dialog's to change, and cancelling returns the original. *)
Theorem appearance_dialog_keeps_original actions a forced :
  let m := fold_left (fun m action => (apply_action action m).2) actions (new_dialog a forced) in
  original m = a /\ theme (draft m) = theme a /\
  (apply_action CancelDialog m).1 = CancelEffect a /\ draft (apply_action CancelDialog m).2 = a.
Proof.
  intros m. assert (original m = a /\ theme (draft m) = theme a) as [Ho Ht].
  { subst m. generalize (eq_refl (original (new_dialog a forced))), (eq_refl (theme (draft (new_dialog a forced)))).
    change (original (new_dialog a forced)) with a at 2. change (theme (draft (new_dialog a forced))) with (theme a) at 2.
    generalize (new_dialog a forced). induction actions as [|action actions IH]; intros m Ho Ht; [done|].
    apply IH; destruct action; cbn; try case_bool_decide; cbn; try congruence.
    all: destruct (forced_custom_colors_enabled _); cbn; congruence. }
  split_and!; [done|done| |]; cbn; by rewrite Ho.
Qed.
