(* ===== verification/Presentation.v ===== *)
(** * Presentation: what the window derives from the model

    The policies of [crates/darknamer-app/src/lib.rs] between the model and the
    native window: prompt answers, the summary of a plan for its confirmation, drag
    feedback, readiness, the channels of the status line, the cancel control, the
    refresh a command asks for, and sizes as text.  A message is of any type [M]
    here; the translated sentences are not modelled. *)

From S2P Require Import Prelude Collections LegacyText ListItem WorkList Transforms RenameModel.
From S2P Require Import Preview CommandCatalog Appearance.
#[local] Open Scope Z_scope.

(** ** Prompts *)

Inductive ComboOperation : Type := AddString | SelectItem.
Inductive ComboControlError : Type := Rejected | OutOfSpace.
Definition validate_combo_result (operation : ComboOperation) (answer : Z) : result ComboControlError unit :=
  match operation with
  | AddString => if answer =? -2 then Err OutOfSpace else if answer =? -1 then Err Rejected else Ok tt
  | SelectItem => if answer =? -1 then Err Rejected else Ok tt
  end.

Inductive DirectoryPromptChoice : Type := ChooseDirect | ChooseRecurse | DirectoryCancel.
Definition DIRECTORY_DIRECT_BUTTON_ID : Z := 1001.
Definition DIRECTORY_RECURSE_BUTTON_ID : Z := 1002.
Definition APPLY_CONFIRM_BUTTON_ID : Z := 1101.
Definition DISCARD_CONFIRM_BUTTON_ID : Z := 1201.
Definition RECOVER_CONFIRM_BUTTON_ID : Z := 1202.
Definition directory_prompt_choice (answer : Z) : DirectoryPromptChoice :=
  if answer =? DIRECTORY_DIRECT_BUTTON_ID then ChooseDirect
  else if answer =? DIRECTORY_RECURSE_BUTTON_ID then ChooseRecurse
  else DirectoryCancel.
Inductive DestructivePromptChoice : Type := Confirm | DestructiveCancel.
Definition destructive_prompt_choice (answer confirm_button_id : Z) : DestructivePromptChoice :=
  if answer =? confirm_button_id then Confirm else DestructiveCancel.

(** ** The summary of a plan *)

Definition split_windows_path (path : LegacyText) : list Z * list Z :=
  match rposition is_path_separator path with
  | None => ([], path)
  | Some index =>
      let parent_end := match index with S before => if bool_decide (path !! before = Some COLON) then S index else index | O => index end in
      (take parent_end path, drop (S index) path)
  end.

Record ApplyConfirmationSummary : Type := mkSummary {
  logical_changed : Z;
  rename_only : Z;
  move_only : Z;
  move_and_rename : Z;
  common_destination_parent : option LegacyText;
  case_only : Z;
  temporary_groups : Z;
  primitive_steps : Z
}.
Definition from_counts (renames moves both : Z) (common : option LegacyText) (case_changes steps : Z)
  : option ApplyConfirmationSummary :=
  renamed_or_moved ← checked_add renames moves;
  logical ← checked_add renamed_or_moved both;
  if (logical <? case_changes) || (steps <? logical) then None
  else Some (mkSummary logical renames moves both common case_changes (steps - logical) steps).

(** The counters of the loop; [common_parent] is the first destination parent. *)
Record SummaryCounts : Type := mkSummaryCounts {
  count_rename : Z; count_move : Z; count_both : Z; count_case : Z;
  common_parent : option LegacyText; parents_match : bool
}.
Section summary.
Variable paths_equivalent : LegacyText -> LegacyText -> bool.

Definition row_moved (row : PlanRow) : bool :=
  negb (paths_equivalent (split_windows_path (row_source row)).1 (split_windows_path (row_destination row)).1).
Definition row_renamed (row : PlanRow) : bool :=
  negb (bool_decide ((split_windows_path (row_source row)).2 = (split_windows_path (row_destination row)).2)).
Definition count_row (row : PlanRow) (c : SummaryCounts) : option SummaryCounts :=
  let case_change := if paths_equivalent (row_source row) (row_destination row) then 1 else 0 in
  let destination_parent := (split_windows_path (row_destination row)).1 in
  let '(common, matching) :=
    match common_parent c with
    | None => (Some destination_parent, parents_match c)
    | Some parent =>
        if bool_decide (parent = destination_parent) then (Some parent, parents_match c) else (Some parent, false)
    end in
  match row_moved row, row_renamed row with
  | false, true =>
      Some (mkSummaryCounts (count_rename c + 1) (count_move c) (count_both c) (count_case c + case_change) common matching)
  | true, false =>
      Some (mkSummaryCounts (count_rename c) (count_move c + 1) (count_both c) (count_case c + case_change) common matching)
  | true, true =>
      Some (mkSummaryCounts (count_rename c) (count_move c) (count_both c + 1) (count_case c + case_change) common matching)
  | false, false => None
  end.
Fixpoint count_rows (rows : list PlanRow) (c : SummaryCounts) : option SummaryCounts :=
  match rows with
  | [] => Some c
  | row :: rows => c ← count_row row c; count_rows rows c
  end.
Definition from_plan (plan : RenamePlan) (steps : Z) : option ApplyConfirmationSummary :=
  c ← count_rows (plan_entries plan) (mkSummaryCounts 0 0 0 0 None true);
  from_counts (count_rename c) (count_move c) (count_both c) (if parents_match c then common_parent c else None)
    (count_case c) steps.
End summary.

(** [saturating_sub]. *)
Definition cycle_groups (s : ApplyConfirmationSummary) : Z := saturating_sub (temporary_groups s) (case_only s).

(** ** Dragging *)

Inductive DropPresentation : Type := DropInactive | DropAccepting | DropLocked | DropUnsupported | DropFull.
Record DropNegotiation : Type := mkNegotiation { drop_presentation : DropPresentation; drop_effect : Z }.
Definition DROP_EFFECT_NONE : Z := 0.
Definition DROP_EFFECT_COPY : Z := 1.
Definition drop_effect_after_admission_start (started : bool) : Z :=
  if started then DROP_EFFECT_COPY else DROP_EFFECT_NONE.
Definition negotiate_drop_effect (format_supported ui_locked : bool) (remaining_capacity source_effects : Z)
  : DropNegotiation :=
  if negb format_supported || (Z.land source_effects DROP_EFFECT_COPY =? 0)
  then mkNegotiation DropUnsupported DROP_EFFECT_NONE
  else if remaining_capacity =? 0 then mkNegotiation DropFull DROP_EFFECT_NONE
  else if ui_locked then mkNegotiation DropLocked DROP_EFFECT_NONE
  else mkNegotiation DropAccepting DROP_EFFECT_COPY.

(** ** Readiness *)

Inductive ApplyPresentation : Type := NoChanges | Ready | ApplyBlocked | Working.
Inductive EmptyStatePresentation : Type := EmptyHidden | ReadyToAdd | EmptyUnavailable.
Record PresentationLocks : Type := mkPresentationLocks {
  lock_apply : bool; lock_empty : bool; lock_worker_active : bool
}.
Inductive PreviewSynchronization : Type := Pending | Synchronized | SyncFailed.
Definition is_synchronized (s : PreviewSynchronization) : bool :=
  match s with Synchronized => true | _ => false end.
Record UiPresentation : Type := mkPresentation {
  shown_counts : PreviewCounts; apply_state : ApplyPresentation; empty_state : EmptyStatePresentation
}.
Definition derive (counts : PreviewCounts) (locks : PresentationLocks) : UiPresentation :=
  mkPresentation counts
    (if lock_worker_active locks then Working
     else if (counts_changed counts =? 0)%nat then NoChanges
     else if lock_apply locks then ApplyBlocked
     else Ready)
    (if negb (counts_total counts =? 0)%nat then EmptyHidden
     else if lock_empty locks || lock_worker_active locks then EmptyUnavailable
     else ReadyToAdd).
Definition apply_readiness_indicator_visible (a : ApplyPresentation) (forced : ForcedColorsState)
    (rails_visible : bool) : bool :=
  rails_visible && match a with Ready => true | _ => false end && forced_custom_colors_enabled forced.

(** ** The status line *)

Section status.
Context {M : Type}.

Record UiStatus : Type := mkStatus {
  status_counts : PreviewCounts;
  transient_message : option M;
  result_message : option M;
  progress_message : option M;
  recovery_message : option M;
  preview_sync_failed : bool;
  preview_notice : option M
}.
Definition default_status : UiStatus := mkStatus (mkCounts 0 0 0) None None None None false None.
Definition with_recovery (message : M) : UiStatus := mkStatus (mkCounts 0 0 0) None None None (Some message) false None.
Definition with_transient (message : M) : UiStatus := mkStatus (mkCounts 0 0 0) (Some message) None None None false None.

Inductive StatusUpdate : Type :=
| SetPreviewCounts (counts : PreviewCounts)
| SetTransient (message : M)
| SetResult (message : M)
| SetProgress (message : M)
| SetRecovery (message : M)
| ClearProgress
| ClearRecovery
| SetPreviewSyncFailed (failed : bool)
| SetPreviewNotice (notice : option M).
Definition update_status (u : StatusUpdate) (s : UiStatus) : UiStatus :=
  let '(mkStatus counts transient result progress recovery failed notice) := s in
  match u with
  | SetPreviewCounts counts => mkStatus counts transient result progress recovery failed notice
  | SetTransient message => mkStatus counts (Some message) None progress recovery failed notice
  | SetResult message => mkStatus counts transient (Some message) progress recovery failed notice
  | SetProgress message => mkStatus counts transient None (Some message) recovery failed notice
  | SetRecovery message => mkStatus counts transient result progress (Some message) failed notice
  | ClearProgress => mkStatus counts transient result None recovery failed notice
  | ClearRecovery => mkStatus counts transient result progress None failed notice
  | SetPreviewSyncFailed failed => mkStatus counts transient result progress recovery failed notice
  | SetPreviewNotice notice => mkStatus counts transient result progress recovery failed notice
  end.

(** [Option::or]. *)
Definition or_else (x y : option M) : option M := match x with Some _ => x | None => y end.
Definition message_text (preview_render_blocked empty_list : M) (s : UiStatus) : M :=
  default empty_list
    (or_else (or_else (or_else (or_else (or_else (recovery_message s) (progress_message s))
      (if preview_sync_failed s then Some preview_render_blocked else None))
      (result_message s)) (preview_notice s)) (transient_message s)).
End status.
#[global] Arguments UiStatus M : clear implicits.
#[global] Arguments StatusUpdate M : clear implicits.

(** ** Workers and the cancel control *)

Record WorkerActivity : Type := mkActivity {
  admission_active : bool; import_active : bool; plan_active : bool; apply_active : bool;
  cancellation_was_requested : bool; apply_finishing : bool
}.
Inductive ActiveWorkerKind : Type := AdmissionWork | ImportWork | PlanWork | ApplyWork.
Definition active_worker_kind (a : WorkerActivity) : option ActiveWorkerKind :=
  match admission_active a, import_active a, plan_active a, apply_active a with
  | true, false, false, false => Some AdmissionWork
  | false, true, false, false => Some ImportWork
  | false, false, true, false => Some PlanWork
  | false, false, false, true => Some ApplyWork
  | _, _, _, _ => None
  end.
Inductive CancelControlState : Type := CancelHidden | CancelEnabled | CancelRequested | CancelUnavailable.
Definition cancel_visible (s : CancelControlState) : bool := match s with CancelHidden => false | _ => true end.
Definition cancel_enabled (s : CancelControlState) : bool := match s with CancelEnabled => true | _ => false end.
Definition cancel_control_state (a : WorkerActivity) : CancelControlState :=
  match active_worker_kind a with
  | None => CancelHidden
  | Some _ =>
      if apply_finishing a then CancelUnavailable
      else if cancellation_was_requested a then CancelRequested
      else CancelEnabled
  end.

(** ** Sizes and times as text *)

Definition IEC_UNITS : list LegacyText :=
  [text "B"; text "KiB"; text "MiB"; text "GiB"; text "TiB"; text "PiB"; text "EiB"].
Definition u64_to_string (n : Z) : LegacyText := decimal_digits 20 n.
(** The [while] loop; it runs at most once per further unit. *)
Fixpoint iec_unit (fuel unit : nat) (divisor bytes : Z) : nat * Z :=
  match fuel with
  | O => (unit, divisor)
  | S fuel =>
      if (S unit <? length IEC_UNITS)%nat && (divisor * 1024 <=? bytes)
      then iec_unit fuel (S unit) (divisor * 1024) bytes
      else (unit, divisor)
  end.
(** The unit and the tenths of it that are shown. *)
Definition iec_tenths (bytes : Z) : nat * Z :=
  let '(unit, divisor) := iec_unit 6 0 1 bytes in
  let tenths := (bytes * 10 + divisor / 2) / divisor in
  if (10240 <=? tenths) && (S unit <? length IEC_UNITS)%nat
  then (S unit, (bytes * 10 + divisor * 1024 / 2) / (divisor * 1024))
  else (unit, tenths).
Definition format_iec_file_size (bytes : Z) : LegacyText :=
  if bytes <? 1024 then u64_to_string bytes ++ text " B"
  else
    let '(unit, tenths) := iec_tenths bytes in
    let name := default [] (IEC_UNITS !! unit) in
    if tenths mod 10 =? 0 then u64_to_string (tenths / 10) ++ text " " ++ name
    else u64_to_string (tenths / 10) ++ text "." ++ u64_to_string (tenths mod 10) ++ text " " ++ name.

Definition COMMA : Z := 44.
Fixpoint group_from (total index : nat) (digits : list Z) : list Z :=
  match digits with
  | [] => []
  | digit :: digits =>
      (if negb (index =? 0)%nat && (Nat.modulo (total - index) 3 =? 0)%nat then [COMMA] else [])
      ++ digit :: group_from total (S index) digits
  end.
(** The digits in groups of three that [format_exact_bytes] puts into its sentence. *)
Definition grouped_digits (bytes : Z) : LegacyText :=
  let digits := u64_to_string bytes in group_from (length digits) 0 digits.

Definition two_digits (n : Z) : LegacyText :=
  let digits := u64_to_string n in if (length digits <? 2)%nat then text "0" ++ digits else digits.
Definition format_timestamp_fallback (date time : Z * Z * Z) : LegacyText :=
  u64_to_string date.1.1 ++ text "-" ++ two_digits date.1.2 ++ text "-" ++ two_digits date.2 ++ text " "
  ++ two_digits time.1.1 ++ text ":" ++ two_digits time.1.2 ++ text ":" ++ two_digits time.2.

(** ** The effect of a command on the window *)

Inductive UiEffect : Type :=
| NoEffect
| RowsChanged (rows : list nat)
| ProposalRowsChanged (rows : list nat)
| AllRowsChanged
| ColumnsChanged (column : nat)
| AppearanceChanged
| CloseRequested.
(** [CommandOutcome] is its effect. *)
Definition outcome_ui (e : UiEffect) : UiEffect := e.
Definition outcome_model (changed : bool) (e : UiEffect) : UiEffect := if changed then e else NoEffect.
Definition command_effect_fits_policy (c : CommandId) (e : UiEffect) : bool :=
  match e with
  | NoEffect => true
  | RowsChanged _ => bool_decide (command_ui_policy c = MovedRows)
  | ProposalRowsChanged _ => match command_ui_policy c with SingleRow | AllRows => true | _ => false end
  | AllRowsChanged => bool_decide (command_ui_policy c = AllRows)
  | ColumnsChanged _ => bool_decide (command_ui_policy c = Columns)
  | AppearanceChanged => appearance_command_allowed c false
  | CloseRequested => c =? EXIT_COMMAND
  end.

(** [sort_unstable] then [dedup]. *)
Definition sorted_distinct (rows : list nat) : list nat := bs_extend rows [].
Definition changed_move_rows (before after : list nat) : list nat := sorted_distinct (before ++ after).

Record ProposalRefreshPlan : Type := mkRefreshPlan {
  refresh_rows : list nat; proposal_cells : nat; immutable_cells : nat; full_row_formats : nat
}.
Definition proposal_refresh_plan (model_rows rendered_rows : nat) (changed : list nat) : option ProposalRefreshPlan :=
  if negb (model_rows =? rendered_rows)%nat || existsb (fun row => (model_rows <=? row)%nat) changed then None
  else
    let rows := sorted_distinct changed in
    Some (mkRefreshPlan rows (length rows) 0 0).

Definition LISTVIEW_STATE_CHANGED : Z := 8.
Definition LISTVIEW_SELECTED : Z := 2.
Definition selection_command_state_changed (changed old_state new_state : Z) : bool :=
  negb (Z.land changed LISTVIEW_STATE_CHANGED =? 0)
  && negb (Z.land (Z.lxor old_state new_state) LISTVIEW_SELECTED =? 0).

(** ** Facts *)

Section facts.
Variable paths_equivalent : LegacyText -> LegacyText -> bool.

Definition changes (row : PlanRow) : bool := row_moved paths_equivalent row || row_renamed row.
Definition total_count (c : SummaryCounts) : Z := count_rename c + count_move c + count_both c.
Definition counts_ok (c : SummaryCounts) : Prop :=
  0 <= count_rename c /\ 0 <= count_move c /\ 0 <= count_both c /\ 0 <= count_case c <= total_count c.

Lemma count_row_changes row c : bool_decide (is_Some (count_row paths_equivalent row c)) = changes row.
Proof.
  unfold count_row, changes. destruct (match common_parent c with Some _ => _ | None => _ end).
  by destruct (row_moved _ row), (row_renamed row).
Qed.
Lemma count_row_total row c c' :
  count_row paths_equivalent row c = Some c' -> counts_ok c -> total_count c' = total_count c + 1 /\ counts_ok c'.
Proof.
  unfold count_row, counts_ok, total_count. destruct (match common_parent c with Some _ => _ | None => _ end).
  destruct (row_moved _ row), (row_renamed row), (paths_equivalent (row_source row) (row_destination row));
    intros [= <-]; cbn; lia.
Qed.
Lemma count_rows_spec rows c :
  counts_ok c ->
  match count_rows paths_equivalent rows c with
  | Some c' => forallb changes rows = true /\ total_count c' = total_count c + zlen rows /\ counts_ok c'
  | None => forallb changes rows = false
  end.
Proof.
  revert c. induction rows as [|row rows IH]; intros c Hc; cbn.
  { rewrite zlen_nil. split_and!; lia || done. }
  pose proof (count_row_changes row c) as Hrow. destruct (count_row paths_equivalent row c) as [c1|] eqn:E; cbn [mbind option_bind].
  - destruct (count_row_total _ _ _ E Hc) as [Ht Hc1]. rewrite bool_decide_true in Hrow by done. rewrite <-Hrow. cbn [andb].
    specialize (IH c1 Hc1). destruct (count_rows _ rows c1) as [c'|]; [|done].
    destruct IH as (? & Ht' & ?). rewrite Ht', Ht, zlen_cons. split_and!; lia || done.
  - rewrite bool_decide_false in Hrow by (by intros []). by rewrite <-Hrow.
Qed.
End facts.

(** The summary shown for confirmation exists exactly when every row of the plan
    changes its parent or its name and there are enough primitive moves; its three
    kinds are a partition of the rows and the rest of the moves are temporary. *)
Theorem summary_partitions_plan paths_equivalent plan steps :
  let rows := plan_entries plan in
  zlen rows <= usize_max ->
  match from_plan paths_equivalent plan steps with
  | Some s =>
      forallb (changes paths_equivalent) rows = true /\ zlen rows <= steps /\
      rename_only s + move_only s + move_and_rename s = zlen rows /\ logical_changed s = zlen rows /\
      temporary_groups s = steps - zlen rows /\ primitive_steps s = steps /\ 0 <= case_only s <= zlen rows
  | None => forallb (changes paths_equivalent) rows = false \/ steps < zlen rows
  end.
Proof.
  intros rows Hrows. unfold from_plan. fold rows.
  pose proof (count_rows_spec paths_equivalent rows (mkSummaryCounts 0 0 0 0 None true) ltac:(by unfold counts_ok, total_count; cbn; lia)) as H.
  destruct (count_rows _ rows _) as [c|]; cbn [mbind option_bind]; [|by left].
  destruct H as (Hall & Ht & Hr & Hm & Hb & Hcase). unfold total_count in *. cbn in Ht. unfold from_counts.
  rewrite checked_add_ok by lia. cbn [mbind option_bind]. rewrite checked_add_ok by lia. cbn [mbind option_bind].
  destruct (Z.ltb_spec (count_rename c + count_move c + count_both c) (count_case c)); [lia|]. cbn [orb].
  destruct (Z.ltb_spec steps (count_rename c + count_move c + count_both c)); [right; lia|]. cbn.
  split_and!; done || lia.
Qed.

(** ** Sizes *)

Lemma iec_unit_spec fuel unit divisor bytes :
  (unit + fuel = 6)%nat -> divisor = 1024 ^ Z.of_nat unit -> divisor <= bytes ->
  let '(u, d) := iec_unit fuel unit divisor bytes in
  d = 1024 ^ Z.of_nat u /\ d <= bytes /\ (u <= 6)%nat /\ (u = 6%nat \/ bytes < d * 1024).
Proof.
  revert unit divisor. induction fuel as [|fuel IH]; intros unit divisor Hu Hd Hle; cbn [iec_unit].
  { split_and!; [done|done|lia|left; lia]. }
  change (length IEC_UNITS) with 7%nat. destruct (Nat.ltb_spec (S unit) 7); [|lia]. cbn [andb].
  destruct (Z.leb_spec (divisor * 1024) bytes).
  - apply IH; [lia| |done]. rewrite Hd, Nat2Z.inj_succ, Z.pow_succ_r by lia. lia.
  - split_and!; [done|done|lia|by right].
Qed.

(** A size of at least 1024 bytes is shown rounded half up to a tenth of a unit,
    below 1024 of that unit unless there is none above it. *)
Theorem iec_size_rounded bytes :
  1024 <= bytes ->
  let '(unit, tenths) := iec_tenths bytes in
  let divisor := 1024 ^ Z.of_nat unit in
  (1 <= unit <= 6)%nat /\ tenths = (bytes * 10 + divisor / 2) / divisor /\ 10 <= tenths /\
  (tenths < 10240 \/ unit = 6%nat).
Proof.
  intros Hb. unfold iec_tenths. pose proof (iec_unit_spec 6 0 1 bytes eq_refl eq_refl ltac:(lia)) as H.
  destruct (iec_unit 6 0 1 bytes) as [unit d]. destruct H as (Hd & Hle & Hu & Hmax).
  assert (1 <= unit)%nat as Hpos.
  { destruct unit; [|lia]. exfalso. destruct Hmax as [|Hmax]; [done|]. subst d. cbn in *. lia. }
  assert (0 < d) as Hd0 by (subst d; apply Z.pow_pos_nonneg; lia).
  change (length IEC_UNITS) with 7%nat.
  destruct (Z.leb_spec 10240 ((bytes * 10 + d / 2) / d)) as [Hbig|Hsmall]; cbn [andb].
  - destruct (Nat.ltb_spec (S unit) 7).
    + assert (d * 1024 = 1024 ^ Z.of_nat (S unit)) as Hd' by (rewrite Hd, Nat2Z.inj_succ, Z.pow_succ_r by lia; lia).
      rewrite <-Hd'. split_and!; [lia|lia|done| |left].
      * apply Z.div_le_lower_bound; [lia|]. apply Z.mul_le_mono_pos_l with (p := d) in Hbig; [|done].
        pose proof (Z.mul_div_le (bytes * 10 + d / 2) d Hd0).
        assert (d * 1024 / 2 = d * 512) as -> by (rewrite (Z.div_unique_exact (d * 1024) 2 (d * 512)); lia).
        pose proof (Z.div_le_upper_bound d 2 d ltac:(lia) ltac:(lia)). nia.
      * destruct Hmax as [|Hmax]; [lia|]. apply Z.div_lt_upper_bound; [lia|].
        assert (d * 1024 / 2 <= d * 1024) by (apply Z.div_le_upper_bound; lia). nia.
    + assert (unit = 6)%nat as -> by lia. rewrite <-Hd. split_and!; [lia|lia|done|lia|by right].
  - rewrite <-Hd. split_and!; [lia|lia|done| |by left]. apply Z.div_le_lower_bound; [done|].
    pose proof (Z.div_pos d 2 ltac:(lia) ltac:(lia)). nia.
Qed.

(** Without its commas a grouped size is its decimal digits. *)
Theorem grouped_digits_drop_commas bytes :
  List.filter (fun unit => negb (unit =? COMMA)) (grouped_digits bytes) = u64_to_string bytes.
Proof.
  assert (Forall (fun unit => unit <> COMMA) (u64_to_string bytes)) as Hdigits.
  { unfold u64_to_string. generalize 20%nat. intros fuel. revert bytes.
    induction fuel as [|fuel IH]; intros bytes; cbn; [done|]. apply Forall_app. split.
    - by destruct (bytes <? 10).
    - apply Forall_singleton. unfold DIGIT_0, COMMA. pose proof (Z.mod_pos_bound bytes 10). lia. }
  unfold grouped_digits. generalize (length (u64_to_string bytes)), 0%nat. revert Hdigits.
  generalize (u64_to_string bytes). induction l as [|digit digits IH]; intros Hd total index; [done|].
  apply Forall_cons in Hd as [Hdigit Hd]. cbn [group_from]. rewrite List.filter_app.
  assert (List.filter (fun unit => negb (unit =? COMMA))
    (if negb (index =? 0)%nat && (Nat.modulo (total - index) 3 =? 0)%nat then [COMMA] else []) = []) as ->
    by (by case_match).
  cbn [app List.filter]. destruct (Z.eqb_spec digit COMMA) as [->|]; [done|]. cbn. by rewrite IH.
Qed.
Example sizes_as_text :
  format_iec_file_size 1048575 = text "1 MiB" /\ format_iec_file_size 1536 = text "1.5 KiB" /\
  grouped_digits 1234567 = text "1,234,567" /\ format_timestamp_fallback (2024, 1, 9) (3, 4, 5) = text "2024-01-09 03:04:05".
Proof. by vm_compute. Qed.

(** ** Status and readiness *)

(** A recovery message stays visible, whatever else is reported, until it is cleared. *)
Theorem recovery_message_stays {M} (blocked empty message : M) updates s :
  Forall (fun u => match u with SetRecovery _ | ClearRecovery => False | _ => True end) updates ->
  recovery_message s = Some message ->
  message_text blocked empty (fold_left (fun s u => update_status u s) updates s) = message.
Proof.
  intros Hu Hs. assert (recovery_message (fold_left (fun s u => update_status u s) updates s) = Some message) as Hr.
  { revert s Hs. induction Hu as [|u updates Hu _ IH]; intros s Hs; [done|]. apply IH. by destruct s, u. }
  unfold message_text. by rewrite Hr.
Qed.

(** Apply is shown as ready exactly when something would change, no lock is set and
    no worker runs; the cancel control is enabled only for a single worker that can
    still be cancelled. *)
Theorem presentation_is_conservative counts locks activity :
  (apply_state (derive counts locks) = Ready <->
     (0 < counts_changed counts)%nat /\ lock_apply locks = false /\ lock_worker_active locks = false) /\
  (cancel_enabled (cancel_control_state activity) = true ->
     is_Some (active_worker_kind activity) /\ apply_finishing activity = false /\
     cancellation_was_requested activity = false).
Proof.
  split.
  - unfold derive. cbn. destruct (lock_worker_active locks), (counts_changed counts), (lock_apply locks); cbn; naive_solver lia.
  - unfold cancel_control_state. destruct (active_worker_kind activity); [|done].
    destruct (apply_finishing activity), (cancellation_was_requested activity); naive_solver.
Qed.
