(* ===== verification/FocusNavigation.v ===== *)
(** * FocusNavigation: roving focus between the list and the command rails

    [crates/darknamer-app/src/focus_navigation.rs].  An index of a rail is a
    [usize] whose additions wrap; a rail is the list of its enabled flags. *)

From S2P Require Import Prelude.
#[local] Open Scope Z_scope.

Inductive FocusChild : Type := FocusList | LeftRail | RightRail.
#[export] Instance FocusChild_eq_dec : EqDecision FocusChild.
Proof. solve_decision. Defined.
Inductive FocusAction : Type := ActionList | ActionLeftRail (index : Z) | ActionRightRail (index : Z).
Record FocusState : Type := mkFocus { last_child : FocusChild; left_rail_index : Z; right_rail_index : Z }.

(** ** Operations *)

Definition focus_action (s : FocusState) : FocusAction :=
  match last_child s with
  | FocusList => ActionList
  | LeftRail => ActionLeftRail (left_rail_index s)
  | RightRail => ActionRightRail (right_rail_index s)
  end.
Definition record (child : FocusChild) (rail_index : option Z) (s : FocusState) : FocusState :=
  match child, rail_index with
  | LeftRail, Some index => mkFocus child index (right_rail_index s)
  | RightRail, Some index => mkFocus child (left_rail_index s) index
  | _, _ => mkFocus child (left_rail_index s) (right_rail_index s)
  end.

(** [enabled.get(index).copied().unwrap_or(false)]. *)
Definition lit (enabled : list bool) (index : Z) : bool := default false (enabled !! Z.to_nat index).
Definition any_enabled (enabled : list bool) : bool := existsb id enabled.

Definition repair_focus_index (current : Z) (enabled : list bool) : option Z :=
  if lit enabled current then Some current else Z.of_nat <$> position id enabled.
(** The index one probe of the loop looks at; the sums wrap before the remainder. *)
Definition probe (current len : Z) (forward : bool) (offset : Z) : Z :=
  if forward then usize_add current offset mod len else usize_sub (usize_add current len) offset mod len.
Definition adjacent_enabled_index (current : Z) (enabled : list bool) (forward : bool) : option Z :=
  if negb (any_enabled enabled) then None
  else
    find (lit enabled)
      (map (fun offset => probe current (zlen enabled) forward (Z.of_nat offset)) (seq 1 (length enabled))).

Definition repair (left_enabled right_enabled : list bool) (rails_visible : bool) (s : FocusState) : FocusState :=
  let left := if rails_visible then repair_focus_index (left_rail_index s) left_enabled else None in
  let right := if rails_visible then repair_focus_index (right_rail_index s) right_enabled else None in
  let child :=
    match last_child s, left, right with
    | LeftRail, None, _ => FocusList
    | RightRail, _, None => FocusList
    | child, _, _ => child
    end in
  mkFocus child (default (left_rail_index s) left) (default (right_rail_index s) right).

Definition region_available (left_enabled right_enabled : list bool) (rails_visible : bool) (child : FocusChild) : bool :=
  match child with
  | FocusList => true
  | LeftRail => rails_visible && any_enabled left_enabled
  | RightRail => rails_visible && any_enabled right_enabled
  end.
(** The regions after [last_child] in turn, itself at the end. *)
Definition regions_after (child : FocusChild) : list FocusChild :=
  match child with
  | FocusList => [LeftRail; RightRail; FocusList]
  | LeftRail => [RightRail; FocusList; LeftRail]
  | RightRail => [FocusList; LeftRail; RightRail]
  end.
Definition cycle_major (left_enabled right_enabled : list bool) (rails_visible : bool) (s : FocusState)
  : FocusChild * FocusState :=
  let s := repair left_enabled right_enabled rails_visible s in
  let child :=
    default FocusList
      (find (region_available left_enabled right_enabled rails_visible) (regions_after (last_child s))) in
  (child, mkFocus child (left_rail_index s) (right_rail_index s)).

Definition move_within_rail (forward : bool) (left_enabled right_enabled : list bool) (rails_visible : bool)
    (s : FocusState) : option (FocusChild * Z) * FocusState :=
  let s := repair left_enabled right_enabled rails_visible s in
  match last_child s with
  | FocusList => (None, s)
  | LeftRail =>
      match adjacent_enabled_index (left_rail_index s) left_enabled forward with
      | None => (None, s)
      | Some next => (Some (LeftRail, next), mkFocus LeftRail next (right_rail_index s))
      end
  | RightRail =>
      match adjacent_enabled_index (right_rail_index s) right_enabled forward with
      | None => (None, s)
      | Some next => (Some (RightRail, next), mkFocus RightRail (left_rail_index s) next)
      end
  end.

Definition active_index (child : FocusChild) (enabled : list bool) (rails_visible : bool) (s : FocusState)
  : option Z :=
  if negb rails_visible then None
  else
    match child with
    | FocusList => None
    | LeftRail => if lit enabled (left_rail_index s) then Some (left_rail_index s) else None
    | RightRail => if lit enabled (right_rail_index s) then Some (right_rail_index s) else None
    end.

(** ** Facts *)

Lemma any_enabled_position enabled :
  any_enabled enabled = true <-> exists i, position id enabled = Some i /\ enabled !! i = Some true.
Proof.
  induction enabled as [|b enabled IH]; cbn; [naive_solver|]. destruct b; cbn.
  { split; [|done]. intros _. by exists 0%nat. }
  rewrite IH. split.
  - intros (i & -> & Hi). by exists (S i).
  - intros (i & Hp & Hi). destruct (position id enabled) as [j|]; [|done]. injection Hp as <-. by exists j.
Qed.
Lemma lit_any enabled index : lit enabled index = true -> any_enabled enabled = true.
Proof.
  unfold lit, any_enabled. destruct (enabled !! Z.to_nat index) as [b|] eqn:E; [|done]. cbn. intros ->.
  apply existsb_exists. exists true. split; [|done]. apply list_elem_of_In. by eapply list_elem_of_lookup_2.
Qed.
Lemma repair_focus_index_lit current enabled :
  match repair_focus_index current enabled with
  | Some index => lit enabled index = true
  | None => any_enabled enabled = false
  end.
Proof.
  unfold repair_focus_index. destruct (lit enabled current) eqn:E; [done|].
  destruct (any_enabled enabled) eqn:Ha.
  - apply any_enabled_position in Ha as (i & -> & Hi). cbn. unfold lit. by rewrite Nat2Z.id, Hi.
  - destruct (position id enabled) as [i|] eqn:Hp; [|done]. cbn. exfalso.
    apply not_true_iff_false in Ha. apply Ha, any_enabled_position. exists i. split; [done|].
    apply position_Some in Hp as (x & Heq & Hx & Hlt & _). rewrite Heq.
    rewrite lookup_app_r by (rewrite length_take; lia). rewrite length_take, Nat.min_l, Nat.sub_diag by lia.
    cbn. by destruct x.
Qed.

Lemma repair_focus_index_None current enabled :
  repair_focus_index current enabled = None <-> any_enabled enabled = false.
Proof.
  pose proof (repair_focus_index_lit current enabled) as H.
  destruct (repair_focus_index current enabled); [|done]. apply lit_any in H. by rewrite H.
Qed.

Section turns.
Context (left_enabled right_enabled : list bool) (rails_visible : bool).
Local Abbreviation available := (region_available left_enabled right_enabled rails_visible).
Definition turn (s : FocusState) : FocusState := (cycle_major left_enabled right_enabled rails_visible s).2.

Lemma repair_child s :
  last_child (repair left_enabled right_enabled rails_visible s) =
  if available (last_child s) then last_child s else FocusList.
Proof.
  unfold repair, region_available. cbn. destruct (last_child s), rails_visible; cbn; try done.
  - pose proof (repair_focus_index_None (left_rail_index s) left_enabled).
    destruct (repair_focus_index _ _), (any_enabled _); naive_solver.
  - pose proof (repair_focus_index_None (right_rail_index s) right_enabled).
    destruct (repair_focus_index _ _), (any_enabled _); naive_solver.
Qed.
(** A rail that can take the focus has an enabled button under its index. *)
Lemma repair_lit s :
  let s' := repair left_enabled right_enabled rails_visible s in
  (available LeftRail = true -> active_index LeftRail left_enabled rails_visible s' = Some (left_rail_index s')) /\
  (available RightRail = true -> active_index RightRail right_enabled rails_visible s' = Some (right_rail_index s')).
Proof.
  unfold repair, region_available, active_index. cbn. destruct rails_visible; [|done]. cbn.
  pose proof (repair_focus_index_lit (left_rail_index s) left_enabled) as Hl.
  pose proof (repair_focus_index_lit (right_rail_index s) right_enabled) as Hr.
  split; intros Ha.
  - destruct (repair_focus_index (left_rail_index s) left_enabled); [cbn; by rewrite Hl|congruence].
  - destruct (repair_focus_index (right_rail_index s) right_enabled); [cbn; by rewrite Hr|congruence].
Qed.

Definition next_region (child : FocusChild) : FocusChild :=
  default FocusList (find available (regions_after (if available child then child else FocusList))).
Lemma turn_child s : last_child (turn s) = next_region (last_child s).
Proof. unfold turn, cycle_major, next_region. cbn -[repair]. by rewrite repair_child. Qed.
Lemma next_region_cases child :
  available (next_region child) = true /\
  forall target, available target = true ->
    target = next_region child \/ target = next_region (next_region child) \/
    target = next_region (next_region (next_region child)).
Proof.
  unfold next_region, region_available. destruct rails_visible, (any_enabled left_enabled), (any_enabled right_enabled), child;
    (split; [done|]; intros []; cbn; naive_solver).
Qed.

(** Turning through the major regions: the focus moves to a region that can take
    it, to a rail only with an enabled button under its index, and three turns come
    through every region that can. *)
Theorem cycle_major_visits s :
  (let s' := turn s in
   available (last_child s') = true /\
   match last_child s' with
   | FocusList => True
   | LeftRail => active_index LeftRail left_enabled rails_visible s' = Some (left_rail_index s')
   | RightRail => active_index RightRail right_enabled rails_visible s' = Some (right_rail_index s')
   end) /\
  forall child, available child = true ->
    child = last_child (turn s) \/ child = last_child (turn (turn s)) \/ child = last_child (turn (turn (turn s))).
Proof.
  destruct (next_region_cases (last_child s)) as [Ha Hall]. rewrite !turn_child. split; [|exact Hall].
  cbn zeta. rewrite turn_child. split; [done|]. destruct (repair_lit s) as [Hl Hr]. unfold turn.
  destruct (next_region (last_child s)); [done|by apply Hl|by apply Hr].
Qed.
End turns.

(** ** Moving within a rail *)

Lemma adjacent_spec current enabled forward next :
  adjacent_enabled_index current enabled forward = Some next <->
  exists offset : nat, (1 <= offset <= length enabled)%nat /\
    next = probe current (zlen enabled) forward (Z.of_nat offset) /\ lit enabled next = true /\
    forall earlier : nat, (1 <= earlier < offset)%nat ->
      lit enabled (probe current (zlen enabled) forward (Z.of_nat earlier)) = false.
Proof.
  unfold adjacent_enabled_index.
  assert (forall (f : nat -> Z) len start,
    find (lit enabled) (map f (seq start len)) = Some next <->
    exists offset : nat, (start <= offset < start + len)%nat /\ next = f offset /\ lit enabled next = true /\
      forall earlier : nat, (start <= earlier < offset)%nat -> lit enabled (f earlier) = false) as Hfind.
  { intros f len. induction len as [|len IH]; intros start; cbn; [split; [done|]; intros (? & ? & _); lia|].
    destruct (lit enabled (f start)) eqn:E.
    - split.
      + intros [= <-]. exists start. split_and!; [lia..|done|done|]. lia.
      + intros (offset & Hr & -> & Hlit & Hearlier). destruct (decide (offset = start)) as [->|]; [done|].
        rewrite Hearlier in E by lia. done.
    - rewrite IH. split; intros (offset & Hr & Hn & Hlit & Hearlier).
      + exists offset. split_and!; [lia..|done|done|]. intros earlier ?.
        destruct (decide (earlier = start)) as [->|]; [done|apply Hearlier; lia].
      + exists offset. destruct (decide (offset = start)) as [->|]; [congruence|].
        split_and!; [lia..|done|done|]. intros earlier ?. apply Hearlier. lia. }
  destruct (any_enabled enabled) eqn:Ha; cbn [negb].
  - rewrite Hfind. split; intros (offset & ? & ?); exists offset; (split; [lia|done]).
  - split; [done|]. intros (_ & _ & _ & H%lit_any & _). congruence.
Qed.
Lemma probe_forward current len offset :
  0 <= current < len -> 0 <= offset <= len -> 2 * len <= usize_max ->
  probe current len true offset = (current + offset) mod len.
Proof. intros. unfold probe. by rewrite usize_add_small by lia. Qed.
Lemma probe_backward current len offset :
  0 <= current < len -> 0 <= offset <= len -> 2 * len <= usize_max ->
  probe current len false offset = (current - offset) mod len.
Proof.
  intros. unfold probe. rewrite usize_add_small by lia. rewrite usize_sub_small by lia.
  replace (current + len - offset) with (current - offset + 1 * len) by lia. by rewrite Z.mod_add by lia.
Qed.

(** Moving is undone by moving back: from an enabled button the next enabled one in
    either direction leads back to it. *)
Theorem moving_within_rail_undone enabled current next forward :
  0 <= current < zlen enabled -> 2 * zlen enabled <= usize_max -> lit enabled current = true ->
  adjacent_enabled_index current enabled forward = Some next ->
  0 <= next < zlen enabled /\ lit enabled next = true /\
  adjacent_enabled_index next enabled (negb forward) = Some current.
Proof.
  intros Hc Hlen Hlit (offset & Hoffset & -> & Hnext & Hearlier)%adjacent_spec.
  set (len := zlen enabled) in *. assert (len = Z.of_nat (length enabled)) as Hl by done.
  assert (0 <= probe current len forward (Z.of_nat offset) < len) as Hrange.
  { destruct forward; [rewrite probe_forward by lia|rewrite probe_backward by lia]; apply Z.mod_pos_bound; lia. }
  split; [done|]. split; [done|]. apply adjacent_spec. fold len. exists offset. split; [done|].
  (* the way back from [offset] steps away meets the same buttons *)
  assert (forall back : nat, (1 <= back <= offset)%nat ->
    probe (probe current len forward (Z.of_nat offset)) len (negb forward) (Z.of_nat back) =
    (current + (if forward then 1 else -1) * (Z.of_nat offset - Z.of_nat back)) mod len) as Hback.
  { intros back Hb. destruct forward; cbn [negb].
    - rewrite probe_backward by lia. rewrite probe_forward by lia. rewrite Zminus_mod_idemp_l. f_equal. lia.
    - rewrite probe_forward by lia. rewrite probe_backward by lia. rewrite Zplus_mod_idemp_l. f_equal. lia. }
  split_and!; [|done|].
  - rewrite Hback by lia. rewrite Z.sub_diag, Z.mul_0_r, Z.add_0_r. by rewrite Z.mod_small.
  - intros earlier He. rewrite Hback by lia. rewrite <-(Hearlier (offset - earlier)%nat) by lia. f_equal.
    destruct forward; [rewrite probe_forward by lia|rewrite probe_backward by lia]; f_equal; lia.
Qed.
Definition example_rail : list bool := [false; true; false; true; true].
Lemma moving_within_rail_undone_witness :
  adjacent_enabled_index 4 example_rail true = Some 1 /\
  adjacent_enabled_index 1 example_rail false = Some 4.
Proof.
  assert (adjacent_enabled_index 4 example_rail true = Some 1) as H by (by vm_compute). split; [exact H|].
  refine (proj2 (proj2 (moving_within_rail_undone example_rail 4 1 true _ _ _ H)));
    [by vm_compute|by vm_compute|by vm_compute].
Defined.
