(* ===== verification/IconCache.v ===== *)
(** * IconCache: the classes of shell icons and their bounded cache

    [crates/darknamer-app/src/icon_cache.rs].  The cache is the [HashMap] of the
    interface; [char::to_lowercase] is an argument, as in [LegacyText]. *)

From S2P Require Import Prelude Collections LegacyText.
From stdpp Require Import gmap.
#[local] Open Scope Z_scope.

Definition MAX_ICON_CACHE_ENTRIES : nat := 256.

Inductive IconCacheKey : Type :=
| Directory
| FileWithoutExtension
| Extension (units : list Z).
#[export] Instance IconCacheKey_eq_dec : EqDecision IconCacheKey.
Proof. solve_decision. Defined.
#[export] Instance IconCacheKey_countable : Countable IconCacheKey.
Proof.
  refine (inj_countable'
    (fun k => match k with Directory => inl false | FileWithoutExtension => inl true | Extension e => inr e end)
    (fun k => match k with inl false => Directory | inl true => FileWithoutExtension | inr e => Extension e end) _).
  by intros [].
Defined.

Definition is_dot (unit : Z) : bool := unit =? DOT.
Definition icon_cache_key (to_lowercase : Z -> list Z) (name : LegacyText) (is_directory : bool) : IconCacheKey :=
  if is_directory then Directory
  else
    match rposition is_dot name with
    | None => FileWithoutExtension
    | Some dot =>
        if (length name <=? S dot)%nat then FileWithoutExtension
        else Extension (lowercase_units to_lowercase (drop dot name))
    end.
Definition lookup_text (key : IconCacheKey) : LegacyText :=
  match key with
  | Directory => text "folder"
  | FileWithoutExtension => text "file"
  | Extension extension => text "file" ++ extension
  end.
Definition cache_icon_index (key : IconCacheKey) (index : Z) (cache : gmap IconCacheKey Z) : gmap IconCacheKey Z :=
  let cache :=
    if bool_decide (cache !! key = None) && (MAX_ICON_CACHE_ENTRIES <=? size cache)%nat then ∅ else cache in
  <[key := index]> cache.

(** ** Facts *)

(** Names that end in the same extension share their icon, whatever comes before. *)
Theorem icon_class_is_extension to_lowercase stem extension :
  extension <> [] -> Forall (fun unit => unit <> DOT) extension ->
  icon_cache_key to_lowercase (stem ++ DOT :: extension) false =
  Extension (lowercase_units to_lowercase (DOT :: extension)).
Proof.
  intros Hne Hdots. unfold icon_cache_key. rewrite rposition_split; cycle 1.
  { by vm_compute. }
  { eapply Forall_impl; [exact Hdots|]. intros unit Hu. unfold is_dot. by apply Z.eqb_neq. }
  rewrite drop_app_length. destruct (Nat.leb_spec (length (stem ++ DOT :: extension)) (S (length stem))) as [Hle|]; [|done].
  exfalso. rewrite length_app in Hle. destruct extension; [done|]. cbn in Hle. lia.
Qed.
Lemma icon_class_is_extension_witness :
  icon_cache_key (fun c => [if (65 <=? c) && (c <=? 90) then c + 32 else c]) (text "a.tar" ++ DOT :: text "GZ") false =
  Extension (text ".gz").
Proof.
  etransitivity; [apply icon_class_is_extension; [done|repeat constructor; done]|by vm_compute].
Defined.

(** The cache never holds more than its bound, finds the icon stored last, and what
    it finds is the icon last stored under the key. *)
Theorem icon_cache_bounded (stored : list (IconCacheKey * Z)) :
  let cache := fold_left (fun cache entry => cache_icon_index entry.1 entry.2 cache) stored ∅ in
  (size cache <= MAX_ICON_CACHE_ENTRIES)%nat /\
  (forall key index, last stored = Some (key, index) -> cache !! key = Some index) /\
  (forall key index, cache !! key = Some index ->
     exists before after, stored = before ++ (key, index) :: after /\ Forall (fun entry => entry.1 <> key) after).
Proof.
  induction stored as [|[key index] stored IH] using rev_ind; cbn zeta.
  { cbn [fold_left]. split_and!; [rewrite map_size_empty; lia|done|]. intros key index. by rewrite lookup_empty. }
  rewrite fold_left_app. cbn [fold_left fst snd]. cbn zeta in IH.
  set (cache := fold_left _ stored ∅) in *. clearbody cache. destruct IH as (Hsize & _ & Hold).
  split_and!.
  - unfold cache_icon_index. destruct (cache !! key) as [previous|] eqn:E; cbn [bool_decide andb].
    + rewrite bool_decide_false by done. cbn [andb]. by rewrite map_size_insert_Some by done.
    + rewrite bool_decide_true by done. cbn [andb].
      destruct (Nat.leb_spec MAX_ICON_CACHE_ENTRIES (size cache)).
      * rewrite map_size_insert_None by apply lookup_empty. rewrite map_size_empty. unfold MAX_ICON_CACHE_ENTRIES. clear; lia.
      * rewrite map_size_insert_None by exact E. lia.
  - intros key' index' Hlast. rewrite last_snoc in Hlast. injection Hlast as <- <-.
    unfold cache_icon_index. by rewrite lookup_insert_eq.
  - intros key' index' Hfound. unfold cache_icon_index in Hfound.
    destruct (decide (key = key')) as [<-|Hne].
    + rewrite lookup_insert_eq in Hfound. injection Hfound as <-. exists stored, []. done.
    + rewrite lookup_insert_ne in Hfound by done.
      assert (cache !! key' = Some index') as Hc.
      { destruct (_ && _) in Hfound; [|done]. by rewrite lookup_empty in Hfound. }
      destruct (Hold _ _ Hc) as (before & after & -> & Hafter). exists before, (after ++ [(key, index)]).
      split; [by rewrite <-app_assoc|]. apply Forall_app. split; [done|]. by apply Forall_singleton.
Qed.
