(* ===== verification/AppState.v ===== *)
(** * AppState: the state of the window and its locks

    [AppState] of [crates/darknamer-app/src/windows.rs], as far as it decides what
    may run: the rows and their revision, the locks, the journals kept from an
    earlier run, the four workers, the preview, the session of the appearance dialog
    and what a close waits for.  With them the state queries of windows.rs and the
    sessions of prepared dialogs of windows/command_dispatch.rs. *)

From S2P Require Import Prelude Collections LegacyText ListItem WorkList AppendIndex.
From S2P Require Import RenameModel Journal Schedule Executor Planner FileJournal Startup Admission Activation.
From S2P Require Import Preview Preferences Appearance Presentation.
#[local] Open Scope Z_scope.

(** ** Worker threads

    A worker is what its closure captured, the cancellation it shares with the
    window, and, once the thread has ended, what joining it and reading its channel
    give: a panic of the thread, nothing, or the result it sent. *)

Inductive ThreadEnd (R : Type) : Type := Died | Silent | Published (r : R).
Arguments Died {R}.
Arguments Silent {R}.
Arguments Published {R} r.
Record Worker (T R : Type) : Type := mkWorker {
  task : T;
  cancellation : bool;
  thread_end : option (ThreadEnd R)
}.
Arguments mkWorker {T R} _ _ _.
Arguments task {T R} _.
Arguments cancellation {T R} _.
Arguments thread_end {T R} _.
Definition is_finished {T R} (w : Worker T R) : bool := bool_decide (is_Some (thread_end w)).
Definition cancel {T R} (w : Worker T R) : Worker T R := mkWorker (task w) true (thread_end w).
Definition ended {T R} (e : ThreadEnd R) (w : Worker T R) : Worker T R := mkWorker (task w) (cancellation w) (Some e).

Record ReadyPlan : Type := mkReadyPlan { ready_plan : RenamePlan; ready_summary : ApplyConfirmationSummary }.
Inductive ReadyPlanError : Type :=
| ReadyPlanRefused (found : list PlanIssue)
| ReadyPreflight (error : ExecuteError)
| ReadySummary.
Inductive PlanWorkerResult : Type :=
| PlanFinished (revision : ModelRevision) (ready : result ReadyPlanError ReadyPlan)
| PlanWorkCancelled
| PlanWorkPanicked.
Definition PlanWorker : Type := Worker (ModelRevision * PlanRequest) PlanWorkerResult.

Inductive ApplyWorkerResult : Type :=
| JournalCreateFailed (error : FileJournalError)
| Executed (journal : FileJournal) (execution : result ExecuteError ExecutionReport)
| ApplyWorkPanicked.
(** The task is the confirmed plan. *)
Record ApplyWorker : Type := mkApplyWorker {
  apply_thread : Worker RenamePlan ApplyWorkerResult;
  is_finishing : bool
}.

Record AdmissionTask : Type := mkAdmissionTask {
  admission_revision : ModelRevision;
  admission_paths : list LegacyText;
  admission_mode : option AdmissionMode;
  admission_capacity : nat
}.
Inductive AdmissionWorkerResult : Type :=
| NeedsDirectoryMode (revision : ModelRevision) (paths : list LegacyText) (capacity : nat) (directory : LegacyText)
| AdmissionFinished (revision : ModelRevision) (report : AdmissionReport LegacyText)
| AdmissionWorkCancelled
| AdmissionWorkPanicked.
Definition AdmissionWorker : Type := Worker AdmissionTask AdmissionWorkerResult.

Inductive ImportKind : Type := ImportNamesKind | ImportPathsKind.
Record ImportTask : Type := mkImportTask {
  import_session : Z;
  import_revision : ModelRevision;
  import_kind : ImportKind
}.
Definition ImportWorker : Type := Worker ImportTask (result IoError LegacyText).

(** ** The state *)

Record Locks : Type := mkLocks {
  mutation_locked : bool;
  recovery_locked : bool;
  close_pending : bool;
  confirmation_pending : bool;
  active_prompt : option Z;
  next_prompt_id : Z
}.
Record Journals : Type := mkJournals {
  active_journal : option FileJournal;
  staged_journal : option FileJournal;
  blocked_journals : list StartupJournalBlock;
  collision_observed : bool
}.
Record Workers : Type := mkWorkers {
  apply_worker : option ApplyWorker;
  plan_worker : option PlanWorker;
  admission_worker : option AdmissionWorker;
  import_worker : option ImportWorker
}.
Record AppearanceDialogSession : Type := mkAppearanceSession {
  appearance_session_id : Z;
  baseline : UiAppearance;
  owner_guarded : bool
}.
(** [preview] are the two preview caches. *)
Record Showing : Type := mkShowing {
  preview : PreviewState;
  preview_synchronization : PreviewSynchronization;
  shown_columns : list bool;
  ui_appearance : UiAppearance;
  appearance_dialog : option AppearanceDialogSession;
  next_appearance_dialog_id : Z
}.
(** What a close waits for: the icon worker, where there is one, and the settings
    writers, whose threads end and are then joined. *)
Record Retiring : Type := mkRetiring {
  icon_joined : option bool;
  icon_retire_requested : bool;
  writers_stopping : bool;
  writers_terminal : bool;
  writers_joined : bool
}.
(** [append_index] and [model], with the heap they live in. *)
Abbreviation Rows := (LegacyAppendIndex * (LegacyList * heap))%type.
Record AppState : Type := mkApp {
  rows : Rows;
  model_revision : Z;
  locks : Locks;
  journals : Journals;
  workers : Workers;
  showing : Showing;
  retiring : Retiring;
  journal_root : JournalRoot
}.

(** *** Assignments *)

Definition set_rows (v : Rows) (s : AppState) : AppState :=
  mkApp v (model_revision s) (locks s) (journals s) (workers s) (showing s) (retiring s) (journal_root s).
Definition set_model_revision (v : Z) (s : AppState) : AppState :=
  mkApp (rows s) v (locks s) (journals s) (workers s) (showing s) (retiring s) (journal_root s).
Definition set_locks (f : Locks -> Locks) (s : AppState) : AppState :=
  mkApp (rows s) (model_revision s) (f (locks s)) (journals s) (workers s) (showing s) (retiring s) (journal_root s).
Definition set_journals (v : Journals) (s : AppState) : AppState :=
  mkApp (rows s) (model_revision s) (locks s) v (workers s) (showing s) (retiring s) (journal_root s).
Definition set_workers (f : Workers -> Workers) (s : AppState) : AppState :=
  mkApp (rows s) (model_revision s) (locks s) (journals s) (f (workers s)) (showing s) (retiring s) (journal_root s).
Definition set_showing (f : Showing -> Showing) (s : AppState) : AppState :=
  mkApp (rows s) (model_revision s) (locks s) (journals s) (workers s) (f (showing s)) (retiring s) (journal_root s).
Definition set_retiring (f : Retiring -> Retiring) (s : AppState) : AppState :=
  mkApp (rows s) (model_revision s) (locks s) (journals s) (workers s) (showing s) (f (retiring s)) (journal_root s).

Definition set_mutation_locked (v : bool) : AppState -> AppState :=
  set_locks (fun l => mkLocks v (recovery_locked l) (close_pending l) (confirmation_pending l) (active_prompt l) (next_prompt_id l)).
Definition set_recovery_locked (v : bool) : AppState -> AppState :=
  set_locks (fun l => mkLocks (mutation_locked l) v (close_pending l) (confirmation_pending l) (active_prompt l) (next_prompt_id l)).
Definition set_close_pending (v : bool) : AppState -> AppState :=
  set_locks (fun l => mkLocks (mutation_locked l) (recovery_locked l) v (confirmation_pending l) (active_prompt l) (next_prompt_id l)).
Definition set_confirmation_pending (v : bool) : AppState -> AppState :=
  set_locks (fun l => mkLocks (mutation_locked l) (recovery_locked l) (close_pending l) v (active_prompt l) (next_prompt_id l)).
Definition set_active_prompt (v : option Z) : AppState -> AppState :=
  set_locks (fun l => mkLocks (mutation_locked l) (recovery_locked l) (close_pending l) (confirmation_pending l) v (next_prompt_id l)).
Definition set_next_prompt_id (v : Z) : AppState -> AppState :=
  set_locks (fun l => mkLocks (mutation_locked l) (recovery_locked l) (close_pending l) (confirmation_pending l) (active_prompt l) v).

Definition set_active_journal (v : option FileJournal) (s : AppState) : AppState :=
  let j := journals s in set_journals (mkJournals v (staged_journal j) (blocked_journals j) (collision_observed j)) s.
Definition set_staged_journal (v : option FileJournal) (s : AppState) : AppState :=
  let j := journals s in set_journals (mkJournals (active_journal j) v (blocked_journals j) (collision_observed j)) s.

Definition set_apply_worker (v : option ApplyWorker) : AppState -> AppState :=
  set_workers (fun w => mkWorkers v (plan_worker w) (admission_worker w) (import_worker w)).
Definition set_plan_worker (v : option PlanWorker) : AppState -> AppState :=
  set_workers (fun w => mkWorkers (apply_worker w) v (admission_worker w) (import_worker w)).
Definition set_admission_worker (v : option AdmissionWorker) : AppState -> AppState :=
  set_workers (fun w => mkWorkers (apply_worker w) (plan_worker w) v (import_worker w)).
Definition set_import_worker (v : option ImportWorker) : AppState -> AppState :=
  set_workers (fun w => mkWorkers (apply_worker w) (plan_worker w) (admission_worker w) v).

Definition set_preview (v : PreviewState) : AppState -> AppState :=
  set_showing (fun x => mkShowing v (preview_synchronization x) (shown_columns x) (ui_appearance x) (appearance_dialog x)
    (next_appearance_dialog_id x)).
Definition set_preview_synchronization (v : PreviewSynchronization) : AppState -> AppState :=
  set_showing (fun x => mkShowing (preview x) v (shown_columns x) (ui_appearance x) (appearance_dialog x)
    (next_appearance_dialog_id x)).
Definition set_shown_columns (v : list bool) : AppState -> AppState :=
  set_showing (fun x => mkShowing (preview x) (preview_synchronization x) v (ui_appearance x) (appearance_dialog x)
    (next_appearance_dialog_id x)).
Definition set_ui_appearance (v : UiAppearance) : AppState -> AppState :=
  set_showing (fun x => mkShowing (preview x) (preview_synchronization x) (shown_columns x) v (appearance_dialog x)
    (next_appearance_dialog_id x)).
Definition set_appearance_dialog (v : option AppearanceDialogSession) : AppState -> AppState :=
  set_showing (fun x => mkShowing (preview x) (preview_synchronization x) (shown_columns x) (ui_appearance x) v
    (next_appearance_dialog_id x)).
Definition set_next_appearance_dialog_id (v : Z) : AppState -> AppState :=
  set_showing (fun x => mkShowing (preview x) (preview_synchronization x) (shown_columns x) (ui_appearance x)
    (appearance_dialog x) v).

(** ** Construction *)

Definition new_app_state (runtime : SafeRuntime) (columns : list bool) (a : UiAppearance) (l : LegacyList) (h : heap)
  : AppState :=
  mkApp (index_new, (l, h)) 0
    (mkLocks false (Startup.recovery_locked runtime) false false None 0)
    (mkJournals (Startup.active_journal runtime) (Startup.staged_journal runtime) (Startup.blocked_journals runtime)
       (Startup.collision_observed runtime))
    (mkWorkers None None None None)
    (mkShowing (mkPreviewState (mkCountCache 0 0) default_issue_cache) Pending columns a None 0)
    (mkRetiring None false false true true)
    (runtime_root runtime).

(** ** Queries *)

Definition model (s : AppState) : LegacyList := (rows s).2.1.
Definition present {A} (o : option A) : bool := match o with Some _ => true | None => false end.
Definition commit_known_model_change (changed : bool) (s : AppState) : AppState :=
  set_model_revision (next_model_revision (model_revision s) changed) s.
Definition worker_activity (s : AppState) : WorkerActivity :=
  let w := workers s in
  mkActivity (present (admission_worker w)) (present (import_worker w)) (present (plan_worker w)) (present (apply_worker w))
    (match admission_worker w with Some x => cancellation x | None => false end
     || match import_worker w with Some x => cancellation x | None => false end
     || match plan_worker w with Some x => cancellation x | None => false end
     || match apply_worker w with Some x => cancellation (apply_thread x) | None => false end)
    (match apply_worker w with Some x => is_finishing x | None => false end).
Definition worker_active (s : AppState) : bool :=
  let a := worker_activity s in admission_active a || import_active a || plan_active a || apply_active a.
Definition read_only_locked (s : AppState) : bool := recovery_locked (locks s).
Definition apply_locked (s : AppState) : bool :=
  let j := journals s in
  let w := workers s in
  mutation_locked (locks s) || recovery_locked (locks s) || present (active_journal j) || present (staged_journal j)
  || negb (match blocked_journals j with [] => true | _ => false end)
  || present (apply_worker w) || present (plan_worker w) || present (admission_worker w) || present (import_worker w).
Definition drop_locked (s : AppState) : bool := apply_locked s || read_only_locked s.
Definition presentation (selected : nat) (s : AppState) : UiPresentation :=
  derive (with_selected (preview_count_cache (preview (showing s))) selected)
    (mkPresentationLocks
       (apply_locked s || has_blocker (preview_issue_cache (preview (showing s)))
        || negb (is_synchronized (preview_synchronization (showing s))))
       (read_only_locked s || mutation_locked (locks s)) (worker_active s)).
Definition can_discard_staged_intent (s : AppState) : bool :=
  let j := journals s in
  recovery_locked (locks s) && negb (collision_observed j) && negb (present (active_journal j))
  && match blocked_journals j with [] => true | _ => false end
  && match staged_journal j with Some journal => is_complete_intent_candidate journal | None => false end.
Definition can_confirm_active_recovery (s : AppState) : bool :=
  let j := journals s in
  let w := workers s in
  recovery_locked (locks s) && negb (mutation_locked (locks s)) && negb (confirmation_pending (locks s))
  && negb (close_pending (locks s)) && negb (collision_observed j) && present (active_journal j)
  && negb (present (staged_journal j)) && match blocked_journals j with [] => true | _ => false end
  && negb (present (apply_worker w)) && negb (present (plan_worker w)) && negb (present (admission_worker w))
  && negb (present (import_worker w)).
Definition can_export_recovery_journal (s : AppState) : bool :=
  let j := journals s in
  present (active_journal j) || present (staged_journal j)
  || existsb (fun block => present (block_evidence block)) (blocked_journals j).
Definition preview_details_available (selected_count : nat) (s : AppState) : bool :=
  (selected_count =? 1)%nat && negb (apply_locked s) && negb (close_pending (locks s))
  && negb (confirmation_pending (locks s)) && is_synchronized (preview_synchronization (showing s)).

(** ** Sessions of prepared dialogs *)

Record PreparedSession : Type := mkSession { session_id : Z; expected_revision : ModelRevision }.
Inductive PreparedTaskDialogPolicy : Type := Mutable | RecoveryLocked | RecoveryAllowed.
Inductive PreparedTaskDialogDisposition : Type := Accepted | Closed | Rejected | Missing.

(** [next_prompt_id.wrapping_add(1).max(1)]. *)
Definition following_id (id : Z) : Z := Z.max ((id + 1) mod 2 ^ 64) 1.
Definition begin_session (s : AppState) : PreparedSession * AppState :=
  let id := following_id (next_prompt_id (locks s)) in
  (mkSession id (model_revision s), set_active_prompt (Some id) (set_next_prompt_id id s)).
Definition begin_prepared_task_dialog (s : AppState) : option (PreparedSession * AppState) :=
  if present (active_prompt (locks s)) || confirmation_pending (locks s) then None
  else
    let '(session, s) := begin_session s in
    Some (session, set_confirmation_pending true (set_mutation_locked true s)).
Definition take_prepared_task_dialog (session : PreparedSession) (policy : PreparedTaskDialogPolicy) (s : AppState)
  : PreparedTaskDialogDisposition * AppState :=
  if negb (bool_decide (active_prompt (locks s) = Some (session_id session))) then (Missing, s)
  else
    let policy_matches :=
      match policy with
      | Mutable => negb (read_only_locked s)
      | RecoveryLocked => read_only_locked s
      | RecoveryAllowed => true
      end in
    let current :=
      confirmation_pending (locks s) && mutation_locked (locks s) && negb (worker_active s)
      && (model_revision s =? expected_revision session) && policy_matches in
    let closing := close_pending (locks s) in
    let active := worker_active s in
    let s := set_mutation_locked (closing || active) (set_confirmation_pending false (set_active_prompt None s)) in
    (if closing then Closed else if current then Accepted else Rejected, s).

(** The locks under which a file dialog or a prompt completes. *)
Record PromptCompletionLocks : Type := mkCompletionLocks {
  lock_close_pending : bool; lock_read_only : bool; lock_mutation : bool; lock_worker : bool
}.
Definition completion_locks (s : AppState) : PromptCompletionLocks :=
  mkCompletionLocks (close_pending (locks s)) (read_only_locked s) (mutation_locked (locks s)) (worker_active s).
Definition deferred_result_can_apply (active_session : option Z) (id : Z) (l : PromptCompletionLocks)
    (current expected : ModelRevision) : bool :=
  bool_decide (active_session = Some id) && negb (lock_close_pending l) && negb (lock_read_only l)
  && negb (lock_mutation l) && negb (lock_worker l) && (current =? expected).
Inductive FileDialogCompletion : Type := AcceptDialog | CancelDialog.
Inductive FileDialogSessionDisposition : Type := FileAccepted | FileCancelled | FileRejected | FileMissing.
(** With [active_session] as it is left. *)
Definition take_file_dialog_session (active_session : option Z) (id : Z) (completion : FileDialogCompletion)
    (l : PromptCompletionLocks) (current expected : ModelRevision) : FileDialogSessionDisposition * option Z :=
  if negb (bool_decide (active_session = Some id)) then (FileMissing, active_session)
  else
    (match completion with
     | CancelDialog => FileCancelled
     | AcceptDialog => if deferred_result_can_apply active_session id l current expected then FileAccepted else FileRejected
     end, None).

(** ** Redrawing the rows

    The caches are refreshed from the rows; the native list answers with the number
    of rows it shows, whether the changed cells could be set, and whether showing
    all rows anew succeeded. *)

Record Redraw : Type := mkRedraw { rendered_rows : nat; cells_applied : bool; whole_applied : bool }.

Section redraw.
(** [path_key] of the rename backend. *)
Context (path_key : LegacyText -> list Z).

(** [refresh_by] does not panic (PreviewCorrect), so its error arm is not taken. *)
Definition refresh_preview_caches (s : AppState) : AppState :=
  match refresh_preview_count_cache path_key (items (model s)) with
  | Ok p => set_preview p s
  | Err _ => s
  end.
Definition mark_preview (synchronized : bool) (s : AppState) : AppState :=
  set_preview_synchronization (if synchronized then Synchronized else SyncFailed) s.
Definition refresh_all_rows (native : Redraw) (s : AppState) : AppState :=
  mark_preview (whole_applied native) (refresh_preview_caches s).
Definition refresh_changed_rows (native : Redraw) (s : AppState) : AppState :=
  if negb (rendered_rows native =? length (items (model s)))%nat then refresh_all_rows native s
  else
    let s := refresh_preview_caches s in
    if cells_applied native then s else refresh_all_rows native s.
Definition refresh_proposal_rows (native : Redraw) (changed : list nat) (s : AppState) : AppState :=
  match proposal_refresh_plan (length (items (model s))) (rendered_rows native) changed with
  | None => refresh_all_rows native s
  | Some plan =>
      match refresh_rows plan with
      | [row] =>
          match refresh_proposal_row path_key (items (model s)) row (preview (showing s)) with
          | Ok (Some _, p) =>
              let s := set_preview p s in
              if cells_applied native then s else refresh_all_rows native s
          | Ok (None, p) => refresh_all_rows native (set_preview p s)
          | Err _ => refresh_all_rows native s
          end
      | _ =>
          let s := refresh_preview_caches s in
          if cells_applied native then s else refresh_all_rows native s
      end
  end.
End redraw.
