(* ===== verification/Workers.v ===== *)
(** * Workers: planning, applying and adding in the background

    [crates/darknamer-app/src/windows/worker.rs]: the bodies of the planning,
    applying and adding threads, and the handlers of the window that start them,
    take their results over and close the window.  What only informs the user (the
    status line, message boxes, progress texts, timing evidence) is left out; a
    native call whose outcome matters is an argument. *)

From S2P Require Import Prelude Collections LegacyText ListItem WorkList AppendIndex.
From S2P Require Import RenameModel Journal Effects Schedule Codec Executor Planner FileJournal Startup Admission Activation.
From S2P Require Import Preview Preferences Appearance Presentation AppState.
#[local] Open Scope Z_scope.

(** ** Bodies of the threads *)

Section bodies.
Context {B K : Type} `{RenameBackend B, ExecutionControl K}.

(** [before], [answers], the control and [after] are what
    [worker_cancellation.is_requested()] answers, in the order it is asked. *)
Definition plan_worker_body (revision : ModelRevision) (request : PlanRequest) (before : bool) (answers : list bool)
    (k : K) (after : bool) (b : B) : PlanWorkerResult * B :=
  if before then (PlanWorkCancelled, b)
  else
    match plan_cancellable b request answers with
    | Err PlanCancelled => (PlanWorkCancelled, b)
    | Err (PlanRefused found) => (PlanFinished revision (Err (ReadyPlanRefused found)), b)
    | Ok plan =>
        let '(requirements, w) := run handle (preflight_plan_cancellable plan) (mkWorld b (memory_journal_new 0) k) in
        let b := backend w in
        match requirements with
        | Err (mkExecuteError entry Cancelled) => (PlanWorkCancelled, b)
        | Err error => (PlanFinished revision (Err (ReadyPreflight error)), b)
        | Ok requirements =>
            let ready :=
              match from_plan (fun x y => bool_decide (path_key b x = path_key b y)) plan (Codec.primitive_steps requirements) with
              | None => Err ReadySummary
              | Some summary => Ok (mkReadyPlan plan summary)
              end in
            (if after then PlanWorkCancelled else PlanFinished revision ready, b)
        end
    end.

Definition apply_worker_body (root : JournalRoot) (fresh : Z) (system : CreateAnswers) (confirmed : RenamePlan) (k : K)
    (b : B) : ApplyWorkerResult * B :=
  match create_candidate root CANDIDATE_JOURNAL_LEAF ACTIVE_JOURNAL_LEAF fresh system with
  | Err error => (JournalCreateFailed error, b)
  | Ok journal =>
      let '(execution, w) := run handle (execute_with_control confirmed) (mkWorld b journal k) in
      (Executed (Executor.journal w) execution, backend w)
  end.
End bodies.

(** The adding thread, as a program over the calls of the admission adapter. *)
Section admission_body.
Variables (compare_paths : LegacyText -> LegacyText -> comparison) (is_absolute : LegacyText -> bool).

Fixpoint first_directory (paths : list LegacyText) : Prog (admission_effect LegacyText) AdmissionStop (option LegacyText) :=
  match paths with
  | [] => mret None
  | path :: paths =>
      poll_admission;;
      found ←
        (if is_absolute path then
           validated ← lift_prog (call (ValidatePath path));
           match validated with
           | Err _ => mret false
           | Ok _ =>
               metadata ← lift_prog (call (ReadMetadata path));
               match metadata with
               | Err _ => mret false
               | Ok metadata => mret (Admission.is_directory metadata && negb (metadata_is_reparse_point metadata))
               end
           end
         else mret false);
      if found : bool then mret (Some path) else first_directory paths
  end.
Definition admission_worker_run (task : AdmissionTask) (budget : PathBudget)
  : Prog (admission_effect LegacyText) AdmissionStop AdmissionWorkerResult :=
  poll_admission;;
  directory ←
    match admission_mode task with
    | Some _ => mret None
    | None => first_directory (take (admission_capacity task) (admission_paths task))
    end;
  match directory with
  | Some directory =>
      mret (NeedsDirectoryMode (admission_revision task) (admission_paths task) (admission_capacity task) directory)
  | None =>
      report ← collect_with_progress compare_paths is_absolute (admission_paths task) (default Direct (admission_mode task))
                 (admission_capacity task) budget;
      mret (AdmissionFinished (admission_revision task) report)
  end.
(** The two other stops would be panics. *)
Definition admission_worker_body (task : AdmissionTask) (budget : PathBudget)
  : prog (admission_effect LegacyText) AdmissionWorkerResult :=
  prog_bind (admission_worker_run task budget) (fun r =>
    Ret (match r with
         | Ok outcome => outcome
         | Err AdmissionCancelled => AdmissionWorkCancelled
         | Err _ => AdmissionWorkPanicked
         end)).
End admission_body.

(** ** Starting a thread *)

(** Setting the poll timer and spawning the thread. *)
Record Start : Type := mkStart { timer_set : bool; thread_spawned : bool }.
Definition starts (native : Start) : bool := timer_set native && thread_spawned native.

Definition start_plan_worker (native : Start) (revision : ModelRevision) (request : PlanRequest) (s : AppState) : AppState :=
  if starts native
  then set_plan_worker (Some (mkWorker (revision, request) false None)) (set_mutation_locked true s)
  else s.
(** [root_cloned]: whether the handles of the journal root could be duplicated. *)
Definition start_apply_worker (root_cloned : bool) (native : Start) (confirmed : RenamePlan) (s : AppState) : AppState :=
  if negb root_cloned then set_recovery_locked true s
  else if starts native
  then set_apply_worker (Some (mkApplyWorker (mkWorker confirmed false None) false)) (set_mutation_locked true s)
  else s.
Definition start_admission_worker (native : Start) (paths : list LegacyText) (mode : option AdmissionMode) (capacity : nat)
    (s : AppState) : bool * AppState :=
  if starts native
  then (true, set_admission_worker (Some (mkWorker (mkAdmissionTask (model_revision s) paths mode capacity) false None))
                (set_mutation_locked true s))
  else (false, s).
Definition admit_paths (native : Start) (paths : list LegacyText) (s : AppState) : bool * AppState :=
  start_admission_worker native paths None (MAX_ADMITTED_SOURCES - length (items (model s)))%nat s.
Definition start_import_worker (native : Start) (id : Z) (revision : ModelRevision) (kind : ImportKind) (s : AppState)
  : bool * AppState :=
  if present (import_worker (workers s)) then (false, s)
  else if starts native
  then (true, set_mutation_locked true (set_import_worker (Some (mkWorker (mkImportTask id revision kind) false None)) s))
  else (false, s).

(** ** Closing *)

Definition finish_if_ready (s : AppState) : bool * AppState :=
  let x := retiring s in
  if negb (writers_joined x) && negb (writers_terminal x) then (false, s)
  else (true, set_retiring (fun x => mkRetiring (icon_joined x) (icon_retire_requested x) (writers_stopping x)
                                       (writers_terminal x) true) s).
Definition close_blocked (s : AppState) : bool :=
  negb (close_pending (locks s)) || match icon_joined (retiring s) with Some joined => negb joined | None => false end
  || confirmation_pending (locks s) || present (active_prompt (locks s)) || worker_active s.
(** Whether [WM_APP_FINISH_CLOSE] is posted. *)
Definition try_finish_window_close (s : AppState) : bool * AppState :=
  if close_blocked s then (false, s) else finish_if_ready s.
Definition prepare_window_close (s : AppState) : bool := negb (close_blocked s) && writers_joined (retiring s).

Definition request_icon_retire (x : Retiring) : Retiring :=
  mkRetiring (icon_joined x) (present (icon_joined x) || icon_retire_requested x) (writers_stopping x) (writers_terminal x)
    (writers_joined x).
Definition request_preferences_shutdown (x : Retiring) : Retiring :=
  mkRetiring (icon_joined x) (icon_retire_requested x) true (writers_terminal x) (writers_joined x).
Definition cancel_plan (s : AppState) : AppState := set_plan_worker (cancel <$> plan_worker (workers s)) s.
Definition cancel_admission (s : AppState) : AppState := set_admission_worker (cancel <$> admission_worker (workers s)) s.
Definition cancel_import (s : AppState) : AppState := set_import_worker (cancel <$> import_worker (workers s)) s.
Definition cancel_apply (s : AppState) : AppState :=
  set_apply_worker ((fun w => mkApplyWorker (cancel (apply_thread w)) (is_finishing w)) <$> apply_worker (workers s)) s.
(** The first request locks the list and asks the helpers to stop. *)
Definition begin_close (s : AppState) : AppState :=
  if close_pending (locks s) then s
  else
    set_retiring (fun x => request_preferences_shutdown (request_icon_retire x))
      (set_mutation_locked true (set_close_pending true s)).
Definition request_window_close (s : AppState) : AppState :=
  let s := begin_close s in
  if confirmation_pending (locks s) then s
  else if present (admission_worker (workers s)) then cancel_admission s
  else if present (import_worker (workers s)) then cancel_import s
  else if present (plan_worker (workers s)) then cancel_plan s
  else
    match apply_worker (workers s) with
    | Some worker => if is_finishing worker then s else cancel_apply s
    | None => (try_finish_window_close s).2
    end.
Definition request_active_worker_cancel (s : AppState) : AppState :=
  if negb (cancel_enabled (cancel_control_state (worker_activity s))) then s
  else
    match active_worker_kind (worker_activity s) with
    | Some AdmissionWork => cancel_admission s
    | Some ImportWork => cancel_import s
    | Some PlanWork => cancel_plan s
    | Some ApplyWork => cancel_apply s
    | None => s
    end.

(** ** Prepared dialogs of the workers *)

Record PreparedApplyTaskDialog : Type := mkApplyDialog {
  apply_session : PreparedSession;
  apply_revision : ModelRevision;
  apply_fingerprint : PlanId;
  apply_plan : RenamePlan
}.
Record PreparedDirectoryTaskDialog : Type := mkDirectoryDialog {
  directory_session : PreparedSession;
  directory_revision : ModelRevision;
  directory_paths : list LegacyText;
  directory_capacity : nat
}.
Inductive PreparedWorkerTaskDialog : Type :=
| ApplyDialog (d : PreparedApplyTaskDialog)
| DirectoryDialog (d : PreparedDirectoryTaskDialog).

(** ** Planning *)

Definition preview_is_ready_for_apply (s : AppState) : bool := is_synchronized (preview_synchronization (showing s)).
Definition apply_changes (native : Start) (s : AppState) : AppState :=
  if negb (preview_is_ready_for_apply s) then s
  else if has_blocker (preview_issue_cache (preview (showing s))) then s
  else if apply_locked s then s
  else start_plan_worker native (model_revision s) (build_plan_request (model s) (model_revision s)) s.
Definition handle_ready_plan (revision : ModelRevision) (plan : result ReadyPlanError ReadyPlan) (s : AppState)
  : option PreparedWorkerTaskDialog * AppState :=
  match plan with
  | Err _ => (None, s)
  | Ok ready =>
      if negb (preview_is_ready_for_apply s) then (None, s)
      else
        let plan := ready_plan ready in
        match plan_entries plan with
        | [] => (None, s)
        | _ :: _ =>
            match begin_prepared_task_dialog s with
            | None => (None, s)
            | Some (session, s) => (Some (ApplyDialog (mkApplyDialog session revision (plan_id plan) plan)), s)
            end
        end
  end.
Definition handle_plan_completion (s : AppState) : option PreparedWorkerTaskDialog * AppState :=
  match plan_worker (workers s) with
  | None => (None, s)
  | Some worker =>
      match thread_end worker with
      | None => (None, s)
      | Some joined =>
          let s := set_mutation_locked false (set_plan_worker None s) in
          if close_pending (locks s) then (None, (try_finish_window_close s).2)
          else
            match joined with
            | Published (PlanFinished revision plan) =>
                let '(prepared, s) := handle_ready_plan revision plan s in
                if close_pending (locks s) then (None, (try_finish_window_close s).2) else (prepared, s)
            | _ => (None, s)
            end
      end
  end.

(** ** Applying *)

Section applying.
Context (path_key : LegacyText -> list Z).

(** [answer] is the button, [None] when the dialog failed. *)
Definition run_prepared_apply_task_dialog (d : PreparedApplyTaskDialog) (answer : option Z) (root_cloned : bool) (native : Start)
    (s : AppState) : AppState :=
  let '(disposition, s) := take_prepared_task_dialog (apply_session d) Mutable s in
  match disposition with
  | Closed => (try_finish_window_close s).2
  | Rejected | Missing => s
  | Accepted =>
      match answer with
      | None => s
      | Some answer =>
          match destructive_prompt_choice answer APPLY_CONFIRM_BUTTON_ID with
          | DestructiveCancel => s
          | Confirm =>
              if negb (preview_is_ready_for_apply s) then s
              else if apply_locked s then s
              else if negb (model_revision s =? apply_revision d)
                      || negb (plan_revision (apply_plan d) =? apply_revision d)
                      || negb (plan_id (apply_plan d) =? apply_fingerprint d) then s
              else
                match confirm_presented (apply_plan d) (plan_id (apply_plan d)) (plan_revision (apply_plan d)) with
                | Err _ => s
                | Ok confirmed => start_apply_worker root_cloned native confirmed s
                end
          end
      end
  end.

(** The journal is cleaned up, and kept with the lock when that is not possible. *)
Definition retain_or_clean (journal : FileJournal) (s : AppState) : AppState :=
  let cleanup := (cleanup_file_journal journal).1 in
  set_active_journal (retained cleanup)
    (set_recovery_locked (present (cleanup_error cleanup) || present (retained cleanup)) s).
Definition keep_locked (journal : FileJournal) (s : AppState) : AppState :=
  set_active_journal (Some journal) (set_recovery_locked true s).
Definition handle_completed_execution (redraw : Redraw) (journal : FileJournal)
    (execution : result ExecuteError ExecutionReport) (s : AppState) : AppState :=
  match execution with
  | Err _ => retain_or_clean journal s
  | Ok report =>
      match report_outcome report with
      | OutcomeCompleted =>
          let changed := match report_entries report with [] => false | _ => true end in
          match @apply_execution_report Empty_set report (rows s).2 with
          | (Ok true, st) =>
              retain_or_clean journal
                (refresh_all_rows path_key redraw (commit_known_model_change changed (set_rows ((rows s).1, st) s)))
          | (_, st) => keep_locked journal (set_rows ((rows s).1, st) s)
          end
      | OutcomeRolledBack _ => retain_or_clean journal s
      | OutcomeRecoveryRequired _ _ => keep_locked journal s
      end
  end.
(** [joined] is how the thread ended. *)
Definition finalize_apply_worker (redraw : Redraw) (joined : ThreadEnd ApplyWorkerResult) (s : AppState) : AppState :=
  let s := set_mutation_locked false s in
  match joined with
  | Published (Executed journal execution) => handle_completed_execution redraw journal execution s
  | Published (JournalCreateFailed _) | Published ApplyWorkPanicked | Died | Silent => set_recovery_locked true s
  end.
Definition handle_apply_completion (redraw : Redraw) (s : AppState) : AppState :=
  match apply_worker (workers s) with
  | None => s
  | Some worker =>
      match thread_end (apply_thread worker) with
      | None => s
      | Some joined =>
          let s := finalize_apply_worker redraw joined (set_apply_worker None s) in
          if close_pending (locks s) then (try_finish_window_close s).2 else s
      end
  end.
End applying.

(** ** Adding *)

Section adding.
Variables (path_key : LegacyText -> list Z) (compare_windows : LegacyText -> LegacyText -> comparison).

Definition run_prepared_directory_task_dialog (d : PreparedDirectoryTaskDialog) (answer : option Z) (native : Start)
    (s : AppState) : AppState :=
  let '(disposition, s) := take_prepared_task_dialog (directory_session d) Mutable s in
  match disposition with
  | Closed => (try_finish_window_close s).2
  | Rejected | Missing => s
  | Accepted =>
      if negb (model_revision s =? directory_revision d) then s
      else
        match directory_prompt_choice <$> answer with
        | None | Some DirectoryCancel => s
        | Some ChooseDirect => (start_admission_worker native (directory_paths d) (Some Direct) (directory_capacity d) s).2
        | Some ChooseRecurse => (start_admission_worker native (directory_paths d) (Some Recurse) (directory_capacity d) s).2
        end
  end.
Definition handle_admission_completion (redraw : Redraw) (s : AppState) : option PreparedWorkerTaskDialog * AppState :=
  match admission_worker (workers s) with
  | None => (None, s)
  | Some worker =>
      match thread_end worker with
      | None => (None, s)
      | Some joined =>
          let s := set_mutation_locked false (set_admission_worker None s) in
          if close_pending (locks s) then (None, (try_finish_window_close s).2)
          else
            match joined with
            | Published (NeedsDirectoryMode revision paths capacity _) =>
                if negb (model_revision s =? revision) then (None, s)
                else
                  match begin_prepared_task_dialog s with
                  | None => (None, s)
                  | Some (session, s) =>
                      (Some (DirectoryDialog (mkDirectoryDialog session revision paths capacity)), s)
                  end
            | Published (AdmissionFinished revision report) =>
                if negb (model_revision s =? revision) then (None, s)
                else
                  let '(appended, st) := append_batch_indexed compare_windows (report_items report) (rows s) in
                  let s := set_rows st s in
                  match appended with
                  | Ok appended =>
                      (None, refresh_all_rows path_key redraw (commit_known_model_change (0 <? appended)%nat s))
                  | Err _ => (None, s)
                  end
            | _ => (None, s)
            end
      end
  end.
End adding.
