(* ===== verification/RecoveryUi.v ===== *)
(** * RecoveryUi: recovering, discarding and exporting kept journals

    [crates/darknamer-app/src/windows/recovery_ui.rs]: the confirmed recovery at
    startup, the discarding of a candidate that was never activated, and the export
    of the kept journals; without their messages. *)

From S2P Require Import Prelude Collections LegacyText ListItem WorkList AppendIndex.
From S2P Require Import RenameModel Journal Effects Executor Recovery Codec FileJournal Startup.
From S2P Require Import Presentation AppState Workers.
#[local] Open Scope Z_scope.

(** ** The confirmed recovery of the active journal *)

Section recovering.
Context {B : Type} `{RenameBackend B}.

(** With the filesystem; an [Err] of the program would be a panic. *)
Definition recover_confirmed_active_journal (b : B) (s : AppState) : AppState * B :=
  if negb (can_confirm_active_recovery s) then (s, b)
  else
    match active_journal (journals s) with
    | None => (s, b)
    | Some journal =>
        let '(outcome, w) := run handle_recovery recover (mkWorld b journal tt) in
        let journal := Executor.journal w in
        let s := set_active_journal None s in
        (match outcome with
         | Ok (Recovered _ _) | Ok NotRequired =>
             let cleanup := (cleanup_file_journal journal).1 in
             let s := set_active_journal (retained cleanup) s in
             set_recovery_locked
               (present (cleanup_error cleanup) || present (active_journal (journals s)) || present (staged_journal (journals s))
                || negb (match blocked_journals (journals s) with [] => true | _ => false end)) s
         | Ok (Blocked _ _) | Ok (RecoveryIncomplete _ _) | Err _ => keep_locked journal s
         end, backend w)
    end.

(** [confirm_startup_recovery] up to its dialog, and after it. *)
Definition open_startup_recovery (s : AppState) : bool * AppState :=
  if negb (can_confirm_active_recovery s) then (false, s)
  else (true, set_confirmation_pending true (set_mutation_locked true s)).
Definition close_startup_recovery (answer : option Z) (b : B) (s : AppState) : AppState * B :=
  let s := set_confirmation_pending false (set_mutation_locked false s) in
  if close_pending (locks s) then (s, b)
  else
    match answer with
    | None => (s, b)
    | Some answer =>
        match destructive_prompt_choice answer RECOVER_CONFIRM_BUTTON_ID with
        | DestructiveCancel => (s, b)
        | Confirm => if negb (can_confirm_active_recovery s) then (s, b) else recover_confirmed_active_journal b s
        end
    end.
End recovering.

(** ** What was shown when a dialog was prepared *)

#[export] Instance JournalOpenStage_eq_dec : EqDecision JournalOpenStage.
Proof. solve_decision. Defined.
#[export] Instance JournalCodecErrorKind_eq_dec : EqDecision JournalCodecErrorKind.
Proof. solve_decision. Defined.
#[export] Instance FileJournalErrorKind_eq_dec : EqDecision FileJournalErrorKind.
Proof. solve_decision. Defined.
#[export] Instance JournalOpenFailure_eq_dec : EqDecision JournalOpenFailure.
Proof. solve_decision. Defined.

Record ValidJournalSnapshot : Type := mkValidSnapshot {
  snapshot_path : JournalPath; snapshot_byte_len : nat; snapshot_of_records : list JournalRecord
}.
#[export] Instance ValidJournalSnapshot_eq_dec : EqDecision ValidJournalSnapshot.
Proof. solve_decision. Defined.
Inductive BlockedJournalSnapshot : Type :=
| BlockedEvidence (role : JournalRole) (path : JournalPath) (byte_len : nat) (failure : JournalOpenFailure)
| BlockedUnavailable (role : JournalRole).
#[export] Instance BlockedJournalSnapshot_eq_dec : EqDecision BlockedJournalSnapshot.
Proof. solve_decision. Defined.
Record RecoveryExportSnapshot : Type := mkExportSnapshot {
  snapshot_active : option ValidJournalSnapshot;
  snapshot_staged : option ValidJournalSnapshot;
  snapshot_blocked : list BlockedJournalSnapshot
}.
#[export] Instance RecoveryExportSnapshot_eq_dec : EqDecision RecoveryExportSnapshot.
Proof. solve_decision. Defined.

Definition valid_journal_snapshot (j : FileJournal) : ValidJournalSnapshot :=
  mkValidSnapshot (file_path j) (byte_length j) (file_records j).
Definition blocked_snapshot (block : StartupJournalBlock) : BlockedJournalSnapshot :=
  match block_evidence block with
  | None => BlockedUnavailable (block_role block)
  | Some e => BlockedEvidence (block_role block) (evidence_path e) (evidence_byte_len e) (evidence_failure e)
  end.
Definition recovery_export_snapshot (s : AppState) : RecoveryExportSnapshot :=
  let j := journals s in
  mkExportSnapshot (valid_journal_snapshot <$> active_journal j) (valid_journal_snapshot <$> staged_journal j)
    (map blocked_snapshot (blocked_journals j)).

(** ** Exporting *)

Record PreparedRecoveryExport : Type := mkPreparedExport {
  export_session : PreparedSession;
  export_snapshot : RecoveryExportSnapshot
}.
Definition prepare_recovery_export (s : AppState) : option PreparedRecoveryExport * AppState :=
  if negb (can_export_recovery_journal s) then (None, s)
  else
    let snapshot := recovery_export_snapshot s in
    match begin_prepared_task_dialog s with
    | None => (None, s)
    | Some (session, s) => (Some (mkPreparedExport session snapshot), s)
    end.

(** [create_new_file(leaf).and_then(..)]: the journal as it is left, and the copy. *)
Definition export_valid_journal (created : result IoError OpenFile) (j : FileJournal)
  : result IoError nat * FileJournal :=
  match created with
  | Err e => (Err e, j)
  | Ok output => let '(r, (j, _)) := copy_exact_to_file (j, output) in (r, j)
  end.
Definition export_blocked (created : result IoError OpenFile) (block : StartupJournalBlock)
  : option (result IoError nat) * StartupJournalBlock :=
  match block with
  | Unavailable _ _ _ => (None, block)
  | Evidence role e =>
      match created with
      | Err error => (Some (Err error), block)
      | Ok output => let '(r, (e, _)) := evidence_copy_exact_to_file e output in (Some r, Evidence role e)
      end
  end.
(** What creating the files of the export answers. *)
Record ExportAnswers : Type := mkExportAnswers {
  active_created : result IoError OpenFile;
  staged_created : result IoError OpenFile;
  blocked_created : JournalRole -> result IoError OpenFile
}.
Definition failed_copy (r : result IoError nat) : nat := match r with Ok _ => 0 | Err _ => 1 end.
(** The failures, and the state with the journals' file positions. *)
Definition perform_recovery_export (system : ExportAnswers) (s : AppState) : nat * AppState :=
  let j := journals s in
  let active := export_valid_journal (active_created system) <$> active_journal j in
  let staged := export_valid_journal (staged_created system) <$> staged_journal j in
  let blocked := map (fun block => export_blocked (blocked_created system (block_role block)) block) (blocked_journals j) in
  ((match active with Some (r, _) => failed_copy r | None => 0 end
    + match staged with Some (r, _) => failed_copy r | None => 0 end
    + foldr Nat.add 0 (map (fun x => match x.1 with Some r => failed_copy r | None => 1 end) blocked))%nat,
   set_journals (mkJournals (snd <$> active) (snd <$> staged) (map snd blocked) (collision_observed j)) s).
(** [system] is [None] when no directory was chosen. *)
Definition run_prepared_recovery_export (d : PreparedRecoveryExport) (system : option ExportAnswers) (s : AppState)
  : option nat * AppState :=
  let '(disposition, s) := take_prepared_task_dialog (export_session d) RecoveryAllowed s in
  match disposition with
  | Closed => (None, (try_finish_window_close s).2)
  | Accepted | Rejected | Missing =>
      match system with
      | None => (None, s)
      | Some system =>
          match disposition with
          | Accepted =>
              if negb (can_export_recovery_journal s) || negb (bool_decide (recovery_export_snapshot s = export_snapshot d))
              then (None, s)
              else let '(failures, s) := perform_recovery_export system s in (Some failures, s)
          | _ => (None, s)
          end
      end
  end.

(** ** Discarding *)

Record PreparedDiscardTaskDialog : Type := mkPreparedDiscard {
  discard_session : PreparedSession;
  discard_snapshot : ValidJournalSnapshot
}.
Definition prepare_discard_staged_journal (s : AppState) : option PreparedDiscardTaskDialog * AppState :=
  if negb (can_discard_staged_intent s) then (None, s)
  else
    match staged_journal (journals s) with
    | None => (None, s)
    | Some staged =>
        match begin_prepared_task_dialog s with
        | None => (None, s)
        | Some (session, s) => (Some (mkPreparedDiscard session (valid_journal_snapshot staged)), s)
        end
    end.
(** [fresh] and [fresh + 1] are the next values of the identity counter. *)
Definition rediscover_after_staged_discard (fresh : Z) (active_system candidate_system : OpenAnswers) (s : AppState)
  : AppState :=
  let root := journal_root s in
  let (active, active_blocked) :=
    open_outcome RoleActive (open_existing_retained root ACTIVE_JOURNAL_LEAF fresh active_system) in
  let (staged, staged_blocked) :=
    open_outcome RoleCandidate
      (open_candidate_existing_retained root CANDIDATE_JOURNAL_LEAF ACTIVE_JOURNAL_LEAF (fresh + 1) candidate_system) in
  let blocked := active_blocked ++ staged_blocked in
  let active_observed := observed_role active RoleActive blocked in
  let candidate_observed := observed_role staged RoleCandidate blocked in
  set_recovery_locked (active_observed || candidate_observed)
    (set_journals (mkJournals active staged blocked (active_observed && candidate_observed)) s).
Definition run_prepared_discard_task_dialog (d : PreparedDiscardTaskDialog) (answer : option Z) (fresh : Z)
    (active_system candidate_system : OpenAnswers) (s : AppState) : AppState :=
  let '(disposition, s) := take_prepared_task_dialog (discard_session d) RecoveryLocked s in
  match disposition with
  | Closed | Rejected | Missing => s
  | Accepted =>
      match answer with
      | None => s
      | Some answer =>
          match destructive_prompt_choice answer DISCARD_CONFIRM_BUTTON_ID with
          | DestructiveCancel => s
          | Confirm =>
              match staged_journal (journals s) with
              | None => s
              | Some staged =>
                  if negb (can_discard_staged_intent s)
                     || negb (bool_decide (valid_journal_snapshot staged = discard_snapshot d)) then s
                  else
                    match mark_unactivated_intent_delete staged with
                    | (Err _, staged) => set_recovery_locked true (set_staged_journal (Some staged) s)
                    | (Ok _, _) =>
                        rediscover_after_staged_discard fresh active_system candidate_system (set_staged_journal None s)
                    end
              end
          end
      end
  end.
