(* ===== verification/Dispatch.v ===== *)
(** * Dispatch: commands, prompts, file dialogs and imports

    [crates/darknamer-app/src/windows/command_dispatch.rs], with the completion of
    the import thread of windows/worker.rs and the sessions of
    windows/appearance_dialog.rs.  A command works on the rows with the operations
    of the list; dialogs return what the user chose as an argument.  Selection,
    clipboard, messages and the saving of settings are left out. *)

From S2P Require Import Prelude Collections LegacyText ListItem WorkList Transforms AppendIndex Ordering.
From S2P Require Import RenameModel FileJournal Startup Admission Activation.
From S2P Require Import Preview Preferences CommandCatalog Appearance Presentation AppState Workers RecoveryUi.
#[local] Open Scope Z_scope.

Definition EXPORT_RECOVERY_JOURNAL : CommandId := 36864.
Definition DISCARD_STAGED_JOURNAL : CommandId := 36865.
Definition SHOW_RECOVERY_STATUS : CommandId := 36866.
Definition LANGUAGE_SYSTEM : CommandId := 36896.
Definition LANGUAGE_KOREAN : CommandId := 36897.
Definition LANGUAGE_ENGLISH : CommandId := 36898.
Definition LANGUAGE_JAPANESE : CommandId := 36899.
(** [LanguagePreference::from_command]. *)
Definition language_for_command (c : CommandId) : option LanguagePreference :=
  if c =? LANGUAGE_SYSTEM then Some SystemLanguage
  else if c =? LANGUAGE_KOREAN then Some Korean
  else if c =? LANGUAGE_ENGLISH then Some English
  else if c =? LANGUAGE_JAPANESE then Some Japanese
  else None.

(** ** Numbers typed by the user *)

(** [char::is_whitespace]. *)
Definition is_whitespace (c : Z) : bool :=
  (9 <=? c) && (c <=? 13) || (c =? 32) || (c =? 133) || (c =? 160) || (c =? 5760)
  || (8192 <=? c) && (c <=? 8202) || (c =? 8232) || (c =? 8233) || (c =? 8239) || (c =? 8287) || (c =? 12288).
Fixpoint trim_start (s : list Z) : list Z :=
  match s with
  | [] => []
  | c :: rest => if is_whitespace c then trim_start rest else s
  end.
Definition i64_max : Z := 2 ^ 63 - 1.
Definition saturate_i64 (n : Z) : Z := Z.max (- 2 ^ 63) (Z.min n i64_max).
(** The digits read, and whether there was one. *)
Fixpoint read_digits (s : list Z) (found : bool) (number : Z) : bool * Z :=
  match s with
  | c :: rest =>
      if (DIGIT_0 <=? c) && (c <=? DIGIT_9)
      then read_digits rest true (saturate_i64 (saturate_i64 (number * 10) + (c - DIGIT_0)))
      else (found, number)
  | [] => (found, number)
  end.
Definition MINUS : Z := 45.
Definition PLUS : Z := 43.
Definition legacy_atoi (t : LegacyText) : Z :=
  let s := trim_start (to_string_lossy t) in
  let '(sign, s) :=
    match s with
    | c :: rest => if c =? MINUS then (-1, rest) else if c =? PLUS then (1, rest) else (1, s)
    | [] => (1, s)
    end in
  let '(found, number) := read_digits s false 0 in
  if negb found then 0
  else
    let value := saturate_i64 (number * sign) in
    if (- 2 ^ 31 <=? value) && (value <=? 2 ^ 31 - 1) then value
    else if sign <? 0 then - 2 ^ 31 else 2 ^ 31 - 1.

(** ** Prepared actions *)

Inductive PromptContinuation : Type :=
| ContinueManualChange (row : nat)
| ContinueReplace | ContinuePrefix | ContinueSuffix | ContinueExtensionAdd | ContinueExtensionReplace
| ContinuePadDigits | ContinueSequence | ContinueDeletePosition | ContinueDeleteDelimited | ContinueSort.
Record PreparedPrompt : Type := mkPrompt { prompt_session : PreparedSession; continuation : PromptContinuation }.
Record PromptResult : Type := mkPromptResult { value_one : LegacyText; value_two : LegacyText; choice : nat }.

Inductive PreparedFileDialogKind : Type :=
| AddFilesKind (remaining_count : nat) (remaining_path_bytes : Z)
| SaveTextKind (saved : LegacyText) (names : bool)
| ImportNamesFile | ImportPathsFile | UnifyDestinationParentKind | ExportRecoveryJournalKind.
Record PreparedFileDialog : Type := mkFileDialog { file_session : PreparedSession; file_kind : PreparedFileDialogKind }.
(** What was chosen; [NamesChosen] and [PathsChosen] name a file to import. *)
Inductive PreparedFileDialogSelection : Type :=
| SelectionCancelled
| AddFilesChosen (paths : list LegacyText)
| UnifyChosen (parent : LegacyText)
| SaveChosen
| NamesChosen
| PathsChosen
| ExportDirectoryChosen.

Inductive PreparedAppearanceAction : Type :=
| FocusExisting (id : Z)
| CreateAppearance (session : PreparedSession) (id : Z) (appearance : UiAppearance).

Inductive PreparedCommandAction : Type :=
| PromptAction (p : PreparedPrompt)
| FileDialogAction (d : PreparedFileDialog)
| DiscardAction (d : PreparedDiscardTaskDialog)
| ExportAction (d : PreparedRecoveryExport)
| AppearanceAction (a : PreparedAppearanceAction)
| DetailsAction (session : PreparedSession).

Definition continuation_of (c : CommandId) (selected : list nat) (l : LegacyList) : option PromptContinuation :=
  if c =? MANUAL_CHANGE then
    row ← head selected;
    _ ← items l !! row;
    Some (ContinueManualChange row)
  else if c =? REPLACE then Some ContinueReplace
  else if c =? PREFIX then Some ContinuePrefix
  else if c =? SUFFIX then Some ContinueSuffix
  else if c =? EXT_ADD then Some ContinueExtensionAdd
  else if c =? EXT_REPLACE then Some ContinueExtensionReplace
  else if c =? PAD_DIGITS then Some ContinuePadDigits
  else if c =? SEQUENCE then Some ContinueSequence
  else if c =? DELETE_POSITION then Some ContinueDeletePosition
  else if c =? DELETE_DELIMITED then Some ContinueDeleteDelimited
  else if c =? SORT then Some ContinueSort
  else None.
Definition prepare_prompt_command (selected : list nat) (c : CommandId) (s : AppState) : option PreparedPrompt * AppState :=
  match continuation_of c selected (model s) with
  | None => (None, s)
  | Some k => let '(session, s) := begin_session s in (Some (mkPrompt session k), s)
  end.

(** The path budget that the listed sources leave. *)
Fixpoint reserve_sources (rows : list LegacyListItem) (budget : PathBudget) : PathBudget :=
  match rows with
  | [] => budget
  | row :: rows =>
      match reserve_utf16_units (zlen (source_path row)) budget with
      | (Exhausted, budget) => budget
      | (Reserved, budget) => reserve_sources rows budget
      end
  end.
Definition file_dialog_kind (c : CommandId) (l : LegacyList) : option PreparedFileDialogKind :=
  if c =? ADD_FILES then
    Some (AddFilesKind (MAX_ADMITTED_SOURCES - length (items l))
            (remaining_bytes (reserve_sources (items l) path_budget_new)))
  else if c =? SAVE_NAMES then Some (SaveTextKind (export_names l) true)
  else if c =? SAVE_PATHS then Some (SaveTextKind (export_paths l) false)
  else if c =? IMPORT_NAMES then Some ImportNamesFile
  else if c =? IMPORT_PATHS then Some ImportPathsFile
  else if (c =? UNIFY_PATH) && negb (bool_decide (items l = [])) && negb (existsb ListItem.is_directory (items l))
  then Some UnifyDestinationParentKind
  else None.
Definition prepare_file_dialog_command (c : CommandId) (s : AppState) : option PreparedFileDialog * AppState :=
  match file_dialog_kind c (model s) with
  | None => (None, s)
  | Some kind => let '(session, s) := begin_session s in (Some (mkFileDialog session kind), s)
  end.

Definition following_dialog_id (id : Z) : Z := Z.max ((id + 1) mod 2 ^ 32) 1.
Definition prepare_appearance_dialog (s : AppState) : option PreparedAppearanceAction * AppState :=
  match appearance_dialog (showing s) with
  | Some session => (Some (FocusExisting (appearance_session_id session)), s)
  | None =>
      if negb (advanced_appearance_available (worker_active s) (confirmation_pending (locks s))) then (None, s)
      else
        let id := following_dialog_id (next_appearance_dialog_id (showing s)) in
        let '(session, s) := begin_session s in
        (Some (CreateAppearance session id (ui_appearance (showing s))), s)
  end.

Definition recovery_command_allowed (c : CommandId) : bool :=
  appearance_command_allowed c false
  || (c =? VERSION) || (c =? EXPORT_RECOVERY_JOURNAL) || (c =? DISCARD_STAGED_JOURNAL) || (c =? SHOW_RECOVERY_STATUS)
  || (c =? EXIT_COMMAND).

(** ** Changing the rows *)

Section dispatch.
Variables (path_key : LegacyText -> list Z) (compare_windows : LegacyText -> LegacyText -> comparison).

Definition on_model {E A} (m : Cmd E A) (s : AppState) : result E A * AppState :=
  let '(r, st) := m (rows s).2 in (r, set_rows ((rows s).1, st) s).
Definition model_outcome (changed : bool) (e : UiEffect) (s : AppState) : UiEffect * AppState :=
  (outcome_model changed e, commit_known_model_change changed s).
Definition proposal_outcome (changed : list nat) (s : AppState) : UiEffect * AppState :=
  model_outcome (negb (bool_decide (changed = []))) (ProposalRowsChanged changed) s.
Definition proposal_mutation {E} (m : Cmd E (list nat)) (s : AppState) : UiEffect * AppState :=
  match on_model m s with
  | (Ok changed, s) => proposal_outcome changed s
  | (Err _, s) => (NoEffect, s)
  end.
(** A row command whose result tells whether a row changed. *)
Definition row_mutation {E A} (m : Cmd E A) (changed : A -> bool) (e : A -> UiEffect) (s : AppState) : UiEffect * AppState :=
  match on_model m s with
  | (Ok a, s) => model_outcome (changed a) (e a) s
  | (Err _, s) => (NoEffect, s)
  end.

Definition apply_command_outcome (native : Redraw) (e : UiEffect) (s : AppState) : AppState :=
  match e with
  | NoEffect | ColumnsChanged _ | AppearanceChanged => s
  | RowsChanged _ => refresh_changed_rows path_key native s
  | ProposalRowsChanged rows => refresh_proposal_rows path_key native rows s
  | AllRowsChanged => refresh_all_rows path_key native s
  | CloseRequested => request_window_close s
  end.

Definition toggle_column (index : nat) (s : AppState) : AppState :=
  set_shown_columns (alter negb index (shown_columns (showing s))) s.
Definition command_effect (selected : list nat) (native : Start) (c : CommandId) (s : AppState) : option UiEffect * AppState :=
  let some (x : UiEffect * AppState) := (Some x.1, x.2) in
  if c =? APPLY then (Some NoEffect, apply_changes native s)
  else if c =? RESET then some (proposal_mutation reset_proposals_changed s)
  else if c =? RESET_PATH then
    some (row_mutation reset_destination_parents (fun changed => negb (bool_decide (changed = []))) (fun _ => AllRowsChanged) s)
  else if c =? CLEAR_LIST then some (row_mutation (@clear Empty_set) (fun x => x) (fun _ => AllRowsChanged) s)
  else if c =? DELETE_SELECTED_COMMAND then
    some (row_mutation (@remove_rows Empty_set selected) (fun removed => negb (removed =? 0)%nat) (fun _ => AllRowsChanged) s)
  else if c =? MOVE_UP then
    some (row_mutation (@move_rows_earlier_changed Empty_set selected) rows_changed
            (fun m => RowsChanged (changed_move_rows selected (moved_rows m))) s)
  else if c =? MOVE_DOWN then
    some (row_mutation (@move_rows_later_changed Empty_set selected) rows_changed
            (fun m => RowsChanged (changed_move_rows selected (moved_rows m))) s)
  else if c =? CLEAR_NAME then some (proposal_mutation clear_name_changed s)
  else if c =? KEEP_DIGITS then some (proposal_mutation keep_ascii_digits_changed s)
  else if c =? EXT_DELETE then some (proposal_mutation delete_extension_changed s)
  else if c =? PARENT_PREFIX then some (proposal_mutation prefix_parent_folder_changed s)
  else if c =? PARENT_SUFFIX then some (proposal_mutation suffix_parent_folder_changed s)
  else if (SHOW_FULL_PATH <=? c) && (c <=? SHOW_CREATED) then
    let index := Z.to_nat (c - SHOW_FULL_PATH) in (Some (ColumnsChanged index), toggle_column index s)
  else if (c =? THEME_SYSTEM) || (c =? THEME_LIGHT) || (c =? THEME_DARK) then
    match appearance_after_theme_command (ui_appearance (showing s)) c with
    | None => (None, s)
    | Some a =>
        if bool_decide (a = ui_appearance (showing s)) then (Some NoEffect, s)
        else (Some AppearanceChanged, set_ui_appearance a s)
    end
  else if c =? EXIT_COMMAND then (Some CloseRequested, s)
  else (Some NoEffect, s).

Definition dispatch_command (selected : list nat) (redraw : Redraw) (native : Start) (c : CommandId) (s : AppState)
  : option PreparedCommandAction * AppState :=
  if present (active_prompt (locks s)) then
    (None, if (c =? EXIT_COMMAND) && present (import_worker (workers s)) then request_window_close s else s)
  else if present (appearance_dialog (showing s)) then
    let '(action, s) := prepare_appearance_dialog s in (AppearanceAction <$> action, s)
  else if present (language_for_command c) then (None, s)
  else if read_only_locked s && negb (recovery_command_allowed c) then (None, s)
  else if mutation_locked (locks s) && negb ((c =? VERSION) || (c =? EXIT_COMMAND))
          && negb (appearance_command_allowed c (worker_active s)) then (None, s)
  else
    match prepare_prompt_command selected c s with
    | (Some prompt, s) => (Some (PromptAction prompt), s)
    | (None, s) =>
        match prepare_file_dialog_command c s with
        | (Some dialog, s) => (Some (FileDialogAction dialog), s)
        | (None, s) =>
            if c =? DISCARD_STAGED_JOURNAL then
              let '(d, s) := prepare_discard_staged_journal s in (DiscardAction <$> d, s)
            else if c =? EXPORT_RECOVERY_JOURNAL then
              let '(d, s) := prepare_recovery_export s in (ExportAction <$> d, s)
            else if c =? APPEARANCE_ADVANCED then
              let '(action, s) := prepare_appearance_dialog s in (AppearanceAction <$> action, s)
            else if c =? PREVIEW_DETAILS then
              if negb (preview_details_available (length selected) s) then (None, s)
              else
                match items (model s) !! default 0%nat (head selected) with
                | None => (None, s)
                | Some _ =>
                    match begin_prepared_task_dialog s with
                    | None => (None, s)
                    | Some (session, s) => (Some (DetailsAction session), s)
                    end
                end
            else
              match command_effect selected native c s with
              | (None, s) => (None, s)
              | (Some e, s) => (None, apply_command_outcome redraw e s)
              end
        end
    end.

(** ** Completing a prompt *)

Definition sort_modes : list LegacySortMode :=
  [NameAscending; NameDescending; FullPathAscending; FullPathDescending; SizeAscending; SizeDescending;
   ModifiedAscending; ModifiedDescending; CreatedAscending; CreatedDescending].
Definition finish_pad_digits_command (r : PromptResult) (s : AppState) : UiEffect * AppState :=
  let width := legacy_atoi (value_one r) in
  if width <=? 0 then (NoEffect, s)
  else if (choice r =? 0)%nat then proposal_mutation (pad_last_digit_run_changed width) s
  else proposal_mutation (pad_first_digit_run_changed width) s.
Definition finish_sequence_command (r : PromptResult) (s : AppState) : UiEffect * AppState :=
  let width := legacy_atoi (value_one r) in
  if width <=? 0 then (NoEffect, s)
  else
    let mode :=
      match choice r with
      | 0%nat => Append
      | 1%nat => Prepend
      | 2%nat => AppendRestartPerFolder
      | _ => PrependRestartPerFolder
      end in
    proposal_mutation (add_sequence_by_changed compare_windows width (legacy_atoi (value_two r)) mode) s.
Definition finish_delete_position_command (r : PromptResult) (s : AppState) : UiEffect * AppState :=
  let start := legacy_atoi (value_one r) in
  let end_ := legacy_atoi (value_two r) in
  if (start <? 0) || (end_ <? 0) then (NoEffect, s)
  else if (choice r =? 0)%nat && (0 <? end_) && (end_ <? start) then (NoEffect, s)
  else if (choice r =? 1)%nat && negb (start =? 0) then (NoEffect, s)
  else
    let '(changed, s) :=
      if (choice r =? 0)%nat then on_model (delete_front_range_changed (Z.to_nat start) (Z.to_nat end_)) s
      else on_model (delete_last_changed (Z.to_nat end_)) s in
    proposal_outcome (match changed with Ok changed => changed | Err _ => [] end) s.
Definition finish_delete_delimited_command (r : PromptResult) (s : AppState) : UiEffect * AppState :=
  let '(changed, s) := on_model (delete_first_delimited_changed (value_one r) (value_two r)) s in
  proposal_outcome (match changed with Ok changed => changed | Err _ => [] end) s.
Definition finish_sort_command (choice : nat) (s : AppState) : UiEffect * AppState :=
  match sort_modes !! choice with
  | None => (NoEffect, s)
  | Some mode =>
      row_mutation (@sort_by_with_semantics_changed compare_windows Empty_set mode SafeActualSize) (fun x => x) (fun _ => AllRowsChanged) s
  end.
Definition finish_prompt_command (k : PromptContinuation) (r : PromptResult) (s : AppState) : UiEffect * AppState :=
  match k with
  | ContinueManualChange row => row_mutation (manual_change_changed row (value_one r)) (fun x => x) (fun _ => ProposalRowsChanged [row]) s
  | ContinueReplace => proposal_mutation (replace_complete_changed (value_one r) (value_two r)) s
  | ContinuePrefix => proposal_mutation (prefix_complete_changed (value_one r)) s
  | ContinueSuffix => proposal_mutation (suffix_before_extension_changed (value_one r)) s
  | ContinueExtensionAdd => proposal_mutation (add_extension_changed (value_one r)) s
  | ContinueExtensionReplace => proposal_mutation (replace_extension_changed (value_one r)) s
  | ContinuePadDigits => finish_pad_digits_command r s
  | ContinueSequence => finish_sequence_command r s
  | ContinueDeletePosition => finish_delete_position_command r s
  | ContinueDeleteDelimited => finish_delete_delimited_command r s
  | ContinueSort => finish_sort_command (choice r) s
  end.
(** [result] is [None] when the prompt was cancelled or failed. *)
Definition run_prepared_prompt (redraw : Redraw) (p : PreparedPrompt) (r : option PromptResult) (s : AppState) : AppState :=
  let session := prompt_session p in
  let current :=
    deferred_result_can_apply (active_prompt (locks s)) (session_id session) (completion_locks s) (model_revision s)
      (expected_revision session) in
  if negb (bool_decide (active_prompt (locks s) = Some (session_id session))) then s
  else
    let s := set_active_prompt None s in
    let close s := if close_pending (locks s) then (try_finish_window_close s).2 else s in
    match r with
    | None => close s
    | Some r =>
        if negb current then close s
        else let '(e, s) := finish_prompt_command (continuation p) r s in apply_command_outcome redraw e s
    end.

(** ** File dialogs *)

Definition finish_file_dialog_session (session : PreparedSession) (completion : FileDialogCompletion)
    (finish : AppState -> AppState) (s : AppState) : bool * AppState :=
  let '(disposition, active) :=
    take_file_dialog_session (active_prompt (locks s)) (session_id session) completion (completion_locks s) (model_revision s)
      (expected_revision session) in
  let s := set_active_prompt active s in
  let '(accepted, s) := match disposition with FileAccepted => (true, finish s) | _ => (false, s) end in
  (accepted, if close_pending (locks s) then (try_finish_window_close s).2 else s).
Definition file_dialog_session_is_current (session : PreparedSession) (s : AppState) : bool :=
  deferred_result_can_apply (active_prompt (locks s)) (session_id session) (completion_locks s) (model_revision s)
    (expected_revision session).
Definition start_selected_import (native : Start) (session : PreparedSession) (kind : ImportKind) (s : AppState) : AppState :=
  if negb (file_dialog_session_is_current session s) then
    let s := if bool_decide (active_prompt (locks s) = Some (session_id session)) then set_active_prompt None s else s in
    (try_finish_window_close s).2
  else
    match start_import_worker native (session_id session) (expected_revision session) kind s with
    | (true, s) => s
    | (false, s) => (try_finish_window_close (set_active_prompt None s)).2
    end.
(** The dialog was current when it opened.  [valid_parent]: the answer of
    [validate_destination_parent] for the chosen folder. *)
Definition run_prepared_file_dialog (redraw : Redraw) (native : Start) (valid_parent : bool) (d : PreparedFileDialog)
    (selection : PreparedFileDialogSelection) (s : AppState) : AppState :=
  let session := file_session d in
  let accept finish := (finish_file_dialog_session session AcceptDialog finish s).2 in
  match selection with
  | SelectionCancelled | ExportDirectoryChosen => (finish_file_dialog_session session CancelDialog (fun s => s) s).2
  | AddFilesChosen paths => accept (fun s => (admit_paths native paths s).2)
  | UnifyChosen parent =>
      if negb (file_dialog_session_is_current session s) || negb valid_parent then accept (fun s => s)
      else
        accept (fun s =>
          let '(e, s) :=
            row_mutation (unify_destination_parent_changed parent) (fun changed => negb (bool_decide (changed = [])))
              (fun _ => AllRowsChanged) s in
          apply_command_outcome redraw e s)
  | SaveChosen => accept (fun s => s)
  | NamesChosen => start_selected_import native session ImportNamesKind s
  | PathsChosen => start_selected_import native session ImportPathsKind s
  end.

(** ** Imports *)

Definition finish_import_worker_result (redraw : Redraw) (native : Start) (id : Z) (revision : ModelRevision) (kind : ImportKind)
    (cancelled : bool) (r : result IoError LegacyText) (s : AppState) : AppState :=
  let '(disposition, active) :=
    take_file_dialog_session (active_prompt (locks s)) id (if cancelled then CancelDialog else AcceptDialog)
      (completion_locks s) (model_revision s) revision in
  let s := set_active_prompt active s in
  match disposition with
  | FileAccepted =>
      match r with
      | Err _ => s
      | Ok imported =>
          match kind with
          | ImportNamesKind =>
              match on_model (import_names_changed imported) s with
              | (Ok changed, s) => let '(e, s) := proposal_outcome changed s in apply_command_outcome redraw e s
              | (Err _, s) => s
              end
          | ImportPathsKind =>
              let remaining := (MAX_ADMITTED_SOURCES - length (items (model s)))%nat in
              (admit_paths native (take remaining (bounded_import_lines imported (S remaining)).1) s).2
          end
      end
  | _ => s
  end.
(** What joining the thread and reading its channel give. *)
Definition import_outcome (joined : ThreadEnd (result IoError LegacyText)) : result IoError LegacyText :=
  match joined with Published r => r | Died | Silent => Err None end.
Definition handle_import_completion (redraw : Redraw) (native : Start) (s : AppState) : AppState :=
  match import_worker (workers s) with
  | None => s
  | Some worker =>
      match thread_end worker with
      | None => s
      | Some joined =>
          let s := set_import_worker None s in
          let w := workers s in
          let s :=
            set_mutation_locked
              (close_pending (locks s) || present (admission_worker w) || present (plan_worker w) || present (apply_worker w)) s in
          let t := task worker in
          (try_finish_window_close
             (finish_import_worker_result redraw native (import_session t) (import_revision t) (import_kind t)
                (cancellation worker) (import_outcome joined) s)).2
      end
  end.

(** ** The details dialog and the appearance dialog *)

Definition run_prepared_preview_details (session : PreparedSession) (s : AppState) : AppState :=
  let '(disposition, s) := take_prepared_task_dialog session Mutable s in
  match disposition with Closed => (try_finish_window_close s).2 | _ => s end.

(** [created]: the window was made.  With whether it is armed next. *)
Definition run_prepared_appearance_action (a : PreparedAppearanceAction) (created : bool) (s : AppState) : bool * AppState :=
  match a with
  | FocusExisting _ => (false, s)
  | CreateAppearance session id appearance =>
      if negb (bool_decide (active_prompt (locks s) = Some (session_id session))) then (false, s)
      else
        let current :=
          negb (close_pending (locks s)) && negb (worker_active s) && negb (confirmation_pending (locks s))
          && (model_revision s =? expected_revision session) && negb (present (appearance_dialog (showing s))) in
        let s := set_active_prompt None s in
        if negb created || negb current
        then (false, if close_pending (locks s) then (try_finish_window_close s).2 else s)
        else
          (true, set_appearance_dialog (Some (mkAppearanceSession id appearance false)) (set_next_appearance_dialog_id id s))
  end.
(** After the window was shown: it stays when it accepted its session and nothing
    changed meanwhile. *)
Definition guard_appearance_dialog (id : Z) (expected : ModelRevision) (armed : bool) (s : AppState) : AppState :=
  match appearance_dialog (showing s) with
  | Some session =>
      if negb (appearance_session_id session =? id) || owner_guarded session then s
      else if negb armed || close_pending (locks s) || worker_active s || confirmation_pending (locks s)
              || negb (model_revision s =? expected)
      then
        let s := set_appearance_dialog None s in
        if close_pending (locks s) then (try_finish_window_close s).2 else s
      else set_appearance_dialog (Some (mkAppearanceSession id (baseline session) true)) s
  | None => s
  end.
Definition handle_appearance_preview (packed id : Z) (s : AppState) : AppState :=
  match appearance_dialog (showing s) with
  | Some session =>
      if negb (appearance_session_id session =? id) || negb ((0 <=? packed) && (packed <=? u32_max)) then s
      else match unpack_ui_appearance packed with Some a => set_ui_appearance a s | None => s end
  | None => s
  end.
Definition APPEARANCE_FINISH_ACCEPTED : Z := 2147483648.
Definition finish_appearance_dialog (packed id : Z) (s : AppState) : AppState :=
  match appearance_dialog (showing s) with
  | Some session =>
      if negb (appearance_session_id session =? id) || negb ((0 <=? packed) && (packed <=? u32_max)) then s
      else
        let accepted := negb (Z.land packed APPEARANCE_FINISH_ACCEPTED =? 0) in
        match unpack_ui_appearance (Z.land packed (u32_max - APPEARANCE_FINISH_ACCEPTED)) with
        | None => s
        | Some a =>
            set_ui_appearance (if accepted then a else baseline session) (set_appearance_dialog None s)
        end
  | None => s
  end.
Definition cancel_appearance_dialog (s : AppState) : AppState :=
  match appearance_dialog (showing s) with
  | Some session => set_ui_appearance (baseline session) (set_appearance_dialog None s)
  | None => s
  end.
End dispatch.
