(* ===== verification/Selection.v ===== *)
(** * Selection: the selected rows across a sort

    [SelectionSnapshot] and [SelectionRowIndex] of
    [crates/darknamer-app/src/windows/command_dispatch.rs]: a row is remembered by its
    source path and how many rows before it have the same path, and found again after
    the rows were sorted. *)

From S2P Require Import Prelude Collections LegacyText ListItem.
From stdpp Require Import gmap.

Record SelectionToken : Type := mkSelectionToken { token_path : LegacyText; token_occurrence : nat }.
#[export] Instance SelectionToken_eq_dec : EqDecision SelectionToken.
Proof. solve_decision. Defined.
#[export] Instance SelectionToken_countable : Countable SelectionToken.
Proof.
  refine (inj_countable' (fun t => (token_path t, token_occurrence t)) (fun x => mkSelectionToken x.1 x.2) _). by intros [].
Defined.

(** The loop of [capture], with the occurrences counted so far. *)
Fixpoint capture_from (rows : list LegacyListItem) (occurrences : gmap LegacyText nat) : list SelectionToken :=
  match rows with
  | [] => []
  | item :: rows =>
      let occurrence := default 0 (occurrences !! source_path item) in
      mkSelectionToken (source_path item) occurrence
        :: capture_from rows (<[source_path item := S occurrence]> occurrences)
  end.
Definition capture (rows : list LegacyListItem) : list SelectionToken := capture_from rows ∅.
Definition snapshot_token (snapshot : list SelectionToken) (row : nat) : option SelectionToken := snapshot !! row.
Definition snapshot_tokens (snapshot : list SelectionToken) (rows : list nat) : list SelectionToken :=
  omap (snapshot_token snapshot) rows.

(** Collecting into the map keeps the last row of a token. *)
Fixpoint index_tokens (tokens : list SelectionToken) (row : nat) (by_token : gmap SelectionToken nat)
  : gmap SelectionToken nat :=
  match tokens with
  | [] => by_token
  | token :: tokens => index_tokens tokens (S row) (<[token := row]> by_token)
  end.
Definition build_row_index (rows : list LegacyListItem) : gmap SelectionToken nat := index_tokens (capture rows) 0 ∅.
Definition index_row (by_token : gmap SelectionToken nat) (token : SelectionToken) : option nat := by_token !! token.
Definition index_rows (by_token : gmap SelectionToken nat) (tokens : list SelectionToken) : list nat :=
  omap (index_row by_token) tokens.

(** What [finish_sort_command] does with the selection, from the rows before to the
    rows after. *)
Definition selection_after_sort (before after : list LegacyListItem) (selected : list nat) : list nat :=
  index_rows (build_row_index after) (snapshot_tokens (capture before) selected).

(** ** Tokens identify rows *)

Definition occurrences (p : LegacyText) (rows : list LegacyListItem) : nat :=
  length (filter (fun item => source_path item = p) rows).
Lemma capture_from_lookup rows : forall seen i,
  capture_from rows seen !! i =
  (fun item => mkSelectionToken (source_path item)
     (default 0 (seen !! source_path item) + occurrences (source_path item) (take i rows))) <$> rows !! i.
Proof.
  induction rows as [|item rows IH]; intros seen [|i]; cbn [capture_from lookup list_lookup take]; try done.
  { unfold occurrences. cbn. by rewrite Nat.add_0_r. }
  rewrite IH. destruct (rows !! i) as [other|]; [|done]. cbn [fmap option_fmap option_map]. do 2 f_equal. unfold occurrences.
  rewrite filter_cons. destruct (decide (source_path item = source_path other)) as [E|E].
  - rewrite E, lookup_insert_eq. cbn [length default]. unfold default. cbn. lia.
  - by rewrite lookup_insert_ne.
Qed.
Lemma capture_lookup rows i :
  capture rows !! i = (fun item => mkSelectionToken (source_path item) (occurrences (source_path item) (take i rows))) <$> rows !! i.
Proof. unfold capture. rewrite capture_from_lookup. destruct (rows !! i); [|done]. cbn. by rewrite lookup_empty. Qed.
Lemma occurrences_app p l l' : occurrences p (l ++ l') = occurrences p l + occurrences p l'.
Proof. unfold occurrences. by rewrite filter_app, length_app. Qed.
Lemma occurrences_before p rows i item : rows !! i = Some item -> source_path item = p ->
  occurrences p (take (S i) rows) = S (occurrences p (take i rows)).
Proof.
  intros Hi Hp. rewrite (take_S_r _ _ _ Hi), occurrences_app. unfold occurrences at 2.
  rewrite filter_cons_True by done. cbn. lia.
Qed.
Lemma occurrences_take p rows i j : i <= j -> occurrences p (take i rows) <= occurrences p (take j rows).
Proof.
  intros Hij. replace (take i rows) with (take i (take j rows)) by (rewrite take_take; f_equal; lia).
  rewrite <-(take_drop i (take j rows)) at 2. rewrite occurrences_app. lia.
Qed.
Lemma capture_injective rows i j t : capture rows !! i = Some t -> capture rows !! j = Some t -> i = j.
Proof.
  rewrite !capture_lookup. destruct (rows !! i) as [a|] eqn:Hi; [|done]. destruct (rows !! j) as [b|] eqn:Hj; [|done].
  cbn. intros <- [= Hp Ho]. rewrite Hp in Ho.
  destruct (Nat.lt_total i j) as [Hlt|[->|Hlt]]; [|done|].
  - pose proof (occurrences_before (source_path a) _ _ _ Hi eq_refl).
    pose proof (occurrences_take (source_path a) rows (S i) j Hlt). lia.
  - pose proof (occurrences_before (source_path a) _ _ _ Hj Hp).
    pose proof (occurrences_take (source_path a) rows (S j) i Hlt). lia.
Qed.
(** Every number below the occurrences of a path is a row of that path. *)
Lemma occurrence_found p rows : forall k, k < occurrences p rows ->
  exists i item, rows !! i = Some item /\ source_path item = p /\ occurrences p (take i rows) = k.
Proof.
  induction rows as [|item rows IH] using rev_ind; intros k Hk; [cbn in Hk; lia|].
  rewrite occurrences_app in Hk. destruct (decide (k < occurrences p rows)) as [Hlt|Hge].
  - destruct (IH k Hlt) as (i & other & Hi & Hp & Ho). pose proof (lookup_lt_Some _ _ _ Hi).
    exists i, other. split; [by apply lookup_app_l_Some|]. split; [done|]. by rewrite take_app_le by lia.
  - unfold occurrences in Hk at 2. rewrite filter_cons in Hk. destruct (decide (source_path item = p)) as [Hp|Hp]; [|cbn in Hk; lia].
    cbn in Hk. exists (length rows), item. split; [by rewrite lookup_app_r, Nat.sub_diag|]. split; [done|].
    rewrite take_app_length. lia.
Qed.
Lemma index_tokens_lookup tokens : forall row by_token t i,
  (forall j k, tokens !! j = Some t -> tokens !! k = Some t -> j = k) ->
  tokens !! i = Some t -> index_tokens tokens row by_token !! t = Some (row + i).
Proof.
  assert (Hout : forall tokens row by_token t, t ∉ tokens -> index_tokens tokens row by_token !! t = by_token !! t).
  { clear tokens. induction tokens as [|u tokens IH]; intros row by_token t Ht; [done|]. apply not_elem_of_cons in Ht as [Hu Ht]. cbn.
    rewrite IH by done. by apply lookup_insert_ne. }
  induction tokens as [|u tokens IH]; intros row by_token t i Huniq Hi; [done|]. destruct i as [|i]; cbn in *.
  - injection Hi as ->. rewrite Hout; [by rewrite lookup_insert_eq, Nat.add_0_r|].
    intros [k Hk]%list_elem_of_lookup_1. by specialize (Huniq 0 (S k) eq_refl Hk).
  - rewrite (IH (S row) _ t i); [f_equal; lia| |done]. intros j k Hj Hk. by specialize (Huniq (S j) (S k) Hj Hk) as [= ->].
Qed.
Lemma build_row_index_lookup rows t i : capture rows !! i = Some t -> build_row_index rows !! t = Some i.
Proof. intros Hi. eapply (index_tokens_lookup _ 0); [|done]. intros j k. apply capture_injective. Qed.

(** The snapshot of a selected row is its token, and the index finds it again. *)
Lemma occurrences_perm p rows rows' : rows ≡ₚ rows' -> occurrences p rows = occurrences p rows'.
Proof. intros HP. unfold occurrences. by rewrite HP. Qed.
Lemma token_row_after before after i item : before ≡ₚ after -> before !! i = Some item ->
  exists t j item', capture before !! i = Some t /\ capture after !! j = Some t /\
    after !! j = Some item' /\ source_path item' = source_path item.
Proof.
  intros HP Hi. destruct (occurrence_found (source_path item) after (occurrences (source_path item) (take i before)))
    as (j & item' & Hj & Hp & Ho).
  { rewrite <-(occurrences_perm _ _ _ HP). pose proof (occurrences_before _ _ _ _ Hi eq_refl).
    pose proof (occurrences_take (source_path item) before (S i) (length before) (lookup_lt_Some _ _ _ Hi)).
    rewrite firstn_all in H0. lia. }
  exists (mkSelectionToken (source_path item) (occurrences (source_path item) (take i before))), j, item'.
  rewrite !capture_lookup, Hi, Hj. cbn. by rewrite Hp, Ho.
Qed.

(** After a sort the selection holds the same rows: as many, none twice, and each with
    the source path it had. *)
Theorem selection_follows_sort before after selected : before ≡ₚ after ->
  Forall (fun row => row < length before) selected -> NoDup selected ->
  Forall2 (fun row row' => exists item item', before !! row = Some item /\ after !! row' = Some item' /\
             source_path item' = source_path item)
    selected (selection_after_sort before after selected) /\
  NoDup (selection_after_sort before after selected).
Proof.
  intros HP Hin Hnd. enough (Hall : exists rows', selection_after_sort before after selected = rows' /\
    Forall2 (fun row row' => exists item item' t, before !! row = Some item /\ after !! row' = Some item' /\
      source_path item' = source_path item /\ capture before !! row = Some t /\ capture after !! row' = Some t) selected rows').
  { destruct Hall as (rows' & -> & Hall). split; [eapply Forall2_impl; [exact Hall|naive_solver]|].
    clear -Hall Hnd. induction Hall as [|i j iis jjs (? & ? & t & _ & _ & _ & Hb & Ha) Hall IH]; [constructor|].
    apply NoDup_cons in Hnd as [Hni Hnd]. constructor; [|by apply IH]. intros Hj. apply Hni.
    apply list_elem_of_lookup in Hj as [k Hk]. destruct (Forall2_lookup_r _ _ _ _ _ Hall Hk) as (i' & Hi' & ? & ? & t' & _ & _ & _ & Hb' & Ha').
    rewrite Ha in Ha'. injection Ha' as <-. rewrite (capture_injective _ _ _ _ Hb Hb').
    by eapply list_elem_of_lookup_2. }
  clear Hnd. induction Hin as [|i selected Hi Hin (rows' & E & IH)]; [by exists []|].
  destruct (lookup_lt_is_Some_2 _ _ Hi) as [item Hitem].
  destruct (token_row_after _ _ _ _ HP Hitem) as (t & j & item' & Hb & Ha & Hj & Hp).
  exists (j :: rows'). split; [|constructor; [naive_solver|done]].
  unfold selection_after_sort, index_rows, snapshot_tokens in *. cbn. unfold snapshot_token at 1. rewrite Hb. cbn.
  unfold index_row at 1. rewrite (build_row_index_lookup _ _ _ Ha). by rewrite E.
Qed.
