(* ===== verification/Workflow.v ===== *)
(** * Workflow: the window as a state machine

    What the message loop of [crates/darknamer-app/src/windows/application.rs] may
    dispatch to the window, one [Event] each: a command, a drop, a request to close,
    the end of a worker's thread and the message that takes its result over, the
    return of the innermost dialog.  A modal dialog runs a loop of its own, so other
    events come between its opening and its return.  [step] performs an event with
    the handlers of Workers, Dispatch and RecoveryUi; what the user or the system
    answers is part of the event. *)

From S2P Require Import Prelude Collections LegacyText ListItem WorkList AppendIndex.
From S2P Require Import RenameModel Journal Effects Executor Planner FileJournal Startup Recovery Admission Activation.
From S2P Require Import Preview Preferences CommandCatalog Appearance Presentation AppState Workers RecoveryUi Dispatch.
#[local] Open Scope Z_scope.

(** ** Dialogs *)

(** A dialog that is open, or a window of the appearance dialog that is being made. *)
Inductive Dialog : Type :=
| PromptOpen (p : PreparedPrompt)
| FilesOpen (d : PreparedFileDialog)
| DiscardOpen (d : PreparedDiscardTaskDialog)
| ExportOpen (d : PreparedRecoveryExport)
| DetailsOpen (session : PreparedSession)
| ApplyOpen (d : PreparedApplyTaskDialog)
| DirectoryOpen (d : PreparedDirectoryTaskDialog)
| AppearanceCreating (a : PreparedAppearanceAction)
| AppearanceArming (id : Z) (expected : ModelRevision)
| RecoveryOpen.

(** What ends it. *)
Inductive Reply : Type :=
| PromptReply (r : option PromptResult)
| FilesReply (valid_parent : bool) (selection : PreparedFileDialogSelection)
| ButtonReply (answer : option Z)
| DiscardReply (answer : option Z) (fresh : Z) (active_system candidate_system : OpenAnswers)
| ApplyReply (answer : option Z) (root_cloned : bool)
| ExportReply (system : option ExportAnswers)
| WindowReply (success : bool).

Definition dialog_of_action (a : PreparedCommandAction) : Dialog :=
  match a with
  | PromptAction p => PromptOpen p
  | FileDialogAction d => FilesOpen d
  | DiscardAction d => DiscardOpen d
  | ExportAction d => ExportOpen d
  | AppearanceAction a => AppearanceCreating a
  | DetailsAction session => DetailsOpen session
  end.
Definition dialog_of_worker (d : PreparedWorkerTaskDialog) : Dialog :=
  match d with
  | ApplyDialog d => ApplyOpen d
  | DirectoryDialog d => DirectoryOpen d
  end.

Section workflow.
Context {B K : Type} `{RenameBackend B, ExecutionControl K}.
Variable compare_windows : LegacyText -> LegacyText -> comparison.

Record Window : Type := mkWindow {
  app : AppState;
  files : B;
  dialogs : list Dialog;
  destroyed : bool
}.
Definition with_app (s : AppState) (w : Window) : Window := mkWindow s (files w) (dialogs w) (destroyed w).
Definition opening (d : option Dialog) (s : AppState) (w : Window) : Window :=
  mkWindow s (files w) (match d with Some d => d :: dialogs w | None => dialogs w end) (destroyed w).

(** The window of a run that opened its journals: [l] and [h] the new list and its
    heap, [icons] whether the icon worker was started, [writers] whether the settings
    writers were. *)
Definition first_state (runtime : SafeRuntime) (columns : list bool) (a : UiAppearance) (l : LegacyList) (h : heap)
    (icons writers : bool) : AppState :=
  set_retiring (fun _ => mkRetiring (if icons then Some false else None) false false (negb writers) (negb writers))
    (new_app_state runtime columns a l h).
Definition first_window (runtime : SafeRuntime) (columns : list bool) (a : UiAppearance) (l : LegacyList) (h : heap)
    (icons writers : bool) (b : B) : Window :=
  let '(asks, s) := open_startup_recovery (first_state runtime columns a l h icons writers) in
  mkWindow s b (if asks : bool then [RecoveryOpen] else []) false.

(** ** Returning from a dialog *)

Definition after_dialog (native : Start) (redraw : Redraw) (d : Dialog) (r : Reply) (rest : list Dialog) (w : Window)
  : option Window :=
  let s := app w in
  let returned s := Some (mkWindow s (files w) rest (destroyed w)) in
  let key := path_key (files w) in
  match d, r with
  | PromptOpen p, PromptReply r => returned (run_prepared_prompt key compare_windows redraw p r s)
  | FilesOpen d, FilesReply valid_parent selection =>
      returned (run_prepared_file_dialog key redraw native valid_parent d selection s)
  | DiscardOpen d, DiscardReply answer fresh active_system candidate_system =>
      returned (run_prepared_discard_task_dialog d answer fresh active_system candidate_system s)
  | ExportOpen d, ExportReply system => returned (run_prepared_recovery_export d system s).2
  | DetailsOpen session, ButtonReply _ => returned (run_prepared_preview_details session s)
  | ApplyOpen d, ApplyReply answer root_cloned => returned (run_prepared_apply_task_dialog d answer root_cloned native s)
  | DirectoryOpen d, ButtonReply answer => returned (run_prepared_directory_task_dialog d answer native s)
  | AppearanceCreating a, WindowReply created =>
      let '(arming, s) := run_prepared_appearance_action a created s in
      Some (mkWindow s (files w)
              (match a with
               | CreateAppearance session id _ =>
                   if arming then AppearanceArming id (expected_revision session) :: rest else rest
               | FocusExisting _ => rest
               end) (destroyed w))
  | AppearanceArming id expected, WindowReply armed => returned (guard_appearance_dialog id expected armed s)
  | RecoveryOpen, ButtonReply answer =>
      let '(s, b) := close_startup_recovery answer (files w) s in Some (mkWindow s b rest (destroyed w))
  | _, _ => None
  end.

(** ** The threads *)

(** A running thread ends with what [f] makes of its task. *)
Definition end_thread {T R} (f : T -> ThreadEnd R * B) (worker : option (Worker T R)) : option (Worker T R * B) :=
  w ← worker;
  match thread_end w with
  | Some _ => None
  | None => let '(e, b) := f (task w) in Some (ended e w, b)
  end.

Definition apply_thread_run (root : JournalRoot) (fresh : Z) (system : CreateAnswers) (k : K) (b : B) (confirmed : RenamePlan)
  : ThreadEnd ApplyWorkerResult * B :=
  let '(r, b) := apply_worker_body root fresh system confirmed k b in (Published r, b).
(** A thread that panics after [calls] calls, as [catch_unwind] or the join sees it, in
    a build whose panics unwind; a release build is aborted instead. *)
Definition apply_thread_panic (root : JournalRoot) (fresh : Z) (system : CreateAnswers) (k : K) (calls : nat) (caught : bool)
    (b : B) (confirmed : RenamePlan) : ThreadEnd ApplyWorkerResult * B :=
  (if caught then Published ApplyWorkPanicked else Died,
   match create_candidate root CANDIDATE_JOURNAL_LEAF ACTIVE_JOURNAL_LEAF fresh system with
   | Err _ => b
   | Ok journal => backend (interrupt_after handle calls (execute_with_control confirmed) (mkWorld b journal k)).2
   end).
Definition plan_thread_run (before : bool) (answers : list bool) (k : K) (after : bool) (b : B)
    (t : ModelRevision * PlanRequest) : ThreadEnd PlanWorkerResult * B :=
  let '(r, b) := plan_worker_body t.1 t.2 before answers k after b in (Published r, b).

(** ** Events *)

Inductive Event : Type :=
| Command (selected : list nat) (redraw : Redraw) (native : Start) (c : CommandId)
| CancelPressed
| CloseWindow
| FinishClose
| PathsDropped (native : Start) (paths : list LegacyText)
| PlanThreadEnds (before : bool) (answers : list bool) (k : K) (after : bool)
| PlanThreadPanics (caught : bool)
| ApplyFinishing
| ApplyThreadEnds (fresh : Z) (system : CreateAnswers) (k : K)
| ApplyThreadPanics (fresh : Z) (system : CreateAnswers) (k : K) (calls : nat) (caught : bool)
| AdmissionThreadEnds (e : ThreadEnd AdmissionWorkerResult)
| ImportThreadEnds (e : ThreadEnd (result IoError LegacyText))
| PlanComplete
| ApplyComplete (redraw : Redraw)
| AdmissionComplete (redraw : Redraw)
| ImportComplete (redraw : Redraw) (native : Start)
| DialogReturns (native : Start) (redraw : Redraw) (r : Reply)
| AppearancePreviewed (packed id : Z)
| AppearanceFinished (packed id : Z)
| IconWorkerJoined
| SettingsWritersEnded
| FilesChanged (b : B).

Definition command (selected : list nat) (redraw : Redraw) (native : Start) (c : CommandId) (w : Window) : Window :=
  let '(a, s) := dispatch_command (path_key (files w)) selected redraw native c (app w) in
  opening (dialog_of_action <$> a) s w.
Definition close_window (s : AppState) : AppState := request_window_close (cancel_appearance_dialog s).
Definition drop_paths (native : Start) (paths : list LegacyText) (s : AppState) : AppState :=
  if drop_locked s then s else (admit_paths native paths s).2.
Definition icon_worker_joined (s : AppState) : AppState :=
  if icon_retire_requested (retiring s)
  then
    let s := set_retiring (fun x => mkRetiring (Some true) true (writers_stopping x) (writers_terminal x) (writers_joined x)) s in
    if close_pending (locks s) then (try_finish_window_close s).2 else s
  else s.
Definition settings_writers_ended (s : AppState) : AppState :=
  if writers_stopping (retiring s)
  then
    (try_finish_window_close
       (set_retiring (fun x => mkRetiring (icon_joined x) (icon_retire_requested x) true true (writers_joined x)) s)).2
  else s.

Definition live_step (w : Window) (e : Event) : Window :=
  let s := app w in
  let key := path_key (files w) in
  let plan_ends f :=
    match end_thread f (plan_worker (workers s)) with
    | Some (worker, b) => mkWindow (set_plan_worker (Some worker) s) b (dialogs w) (destroyed w)
    | None => w
    end in
  let apply_ends f :=
    match apply_worker (workers s) with
    | Some worker =>
        match end_thread f (Some (apply_thread worker)) with
        | Some (thread, b) =>
            mkWindow (set_apply_worker (Some (mkApplyWorker thread (is_finishing worker))) s) b (dialogs w) (destroyed w)
        | None => w
        end
    | None => w
    end in
  match e with
  | Command selected redraw native c => command selected redraw native c w
  | CancelPressed => with_app (request_active_worker_cancel s) w
  | CloseWindow => with_app (close_window s) w
  | FinishClose => mkWindow s (files w) (dialogs w) (prepare_window_close s)
  | PathsDropped native paths => with_app (drop_paths native paths s) w
  | PlanThreadEnds before answers k after => plan_ends (plan_thread_run before answers k after (files w))
  | PlanThreadPanics caught => plan_ends (fun _ => (if caught then Published PlanWorkPanicked else Died, files w))
  | ApplyFinishing =>
      with_app (set_apply_worker ((fun x => mkApplyWorker (apply_thread x) true) <$> apply_worker (workers s)) s) w
  | ApplyThreadEnds fresh system k => apply_ends (apply_thread_run (journal_root s) fresh system k (files w))
  | ApplyThreadPanics fresh system k calls caught =>
      apply_ends (apply_thread_panic (journal_root s) fresh system k calls caught (files w))
  | AdmissionThreadEnds e =>
      match end_thread (fun _ => (e, files w)) (admission_worker (workers s)) with
      | Some (worker, _) => with_app (set_admission_worker (Some worker) s) w
      | None => w
      end
  | ImportThreadEnds e =>
      match end_thread (fun _ => (e, files w)) (import_worker (workers s)) with
      | Some (worker, _) => with_app (set_import_worker (Some worker) s) w
      | None => w
      end
  | PlanComplete => let '(d, s) := handle_plan_completion s in opening (dialog_of_worker <$> d) s w
  | ApplyComplete redraw => with_app (handle_apply_completion key redraw s) w
  | AdmissionComplete redraw =>
      let '(d, s) := handle_admission_completion key compare_windows redraw s in opening (dialog_of_worker <$> d) s w
  | ImportComplete redraw native => with_app (handle_import_completion key redraw native s) w
  | DialogReturns native redraw r =>
      match dialogs w with
      | d :: rest => default w (after_dialog native redraw d r rest w)
      | [] => w
      end
  | AppearancePreviewed packed id => with_app (handle_appearance_preview packed id s) w
  | AppearanceFinished packed id => with_app (finish_appearance_dialog packed id s) w
  | IconWorkerJoined => with_app (icon_worker_joined s) w
  | SettingsWritersEnded => with_app (settings_writers_ended s) w
  | FilesChanged b => mkWindow s b (dialogs w) (destroyed w)
  end.
Definition step (w : Window) (e : Event) : Window := if destroyed w then w else live_step w e.
Definition steps (w : Window) (events : list Event) : Window := foldl step w events.
End workflow.
