(* ===== verification/WorkflowCorrect.v ===== *)
(** * WorkflowCorrect: what the window guarantees

    The invariant of the window's locks, workers, dialogs and kept journals, and what
    it gives: one thing runs at a time, only a plan of the rows as they are is
    executed and only after it was confirmed, and a window closes when nothing runs. *)

From S2P Require Import Prelude Collections LegacyText ListItem WorkList Transforms AppendIndex.
From S2P Require Import RenameModel Journal Effects Executor Planner FileJournal Startup Recovery Admission Activation.
From S2P Require Import Preview Preferences CommandCatalog Appearance Presentation AppState Workers RecoveryUi Dispatch.
From S2P Require Import Workflow.
#[local] Open Scope Z_scope.

(** ** Changes that leave the locks alone *)

(** Only what is shown and what a close waits for may differ. *)
Definition inert (s s' : AppState) : Prop := exists v x,
  s' = mkApp (rows s) (model_revision s) (locks s) (journals s) (workers s) v x (journal_root s).
(** The rows and their revision may differ too. *)
Definition edits (s s' : AppState) : Prop := exists r rev v x,
  s' = mkApp r rev (locks s) (journals s) (workers s) v x (journal_root s).

#[export] Instance inert_preorder : PreOrder inert.
Proof.
  split.
  - intros []. by eexists _, _.
  - intros s1 s2 s3 (v & x & ->) (v' & x' & ->). by exists v', x'.
Qed.
#[export] Instance edits_preorder : PreOrder edits.
Proof.
  split.
  - intros []. by eexists _, _, _, _.
  - intros s1 s2 s3 (r & rev & v & x & ->) (r' & rev' & v' & x' & ->). by eexists _, _, _, _.
Qed.
#[export] Instance inert_edits : subrelation inert edits.
Proof. intros s s' (v & x & ->). by eexists _, _, _, _. Qed.

Create HintDb window.
#[export] Hint Extern 5 (inert ?s ?s) => reflexivity : window.
#[export] Hint Extern 5 (edits ?s ?s) => reflexivity : window.
#[export] Hint Extern 9 (edits _ _) => apply inert_edits : window.

Lemma inert_showing f s : inert s (set_showing f s).
Proof. by eexists _, _. Qed.
Lemma inert_retiring f s : inert s (set_retiring f s).
Proof. by eexists _, _. Qed.
Lemma edits_rows r s : edits s (set_rows r s).
Proof. by eexists _, _, _, _. Qed.
Lemma edits_revision changed s : edits s (commit_known_model_change changed s).
Proof. by eexists _, _, _, _. Qed.
#[export] Hint Resolve inert_showing inert_retiring edits_rows edits_revision : window.

(** A chain of changes: one function at a time, the last first. *)
Ltac window_steps :=
  repeat (first
    [ progress eauto 2 with window
    | match goal with
      | |- ?R ?s (?f ?x) => etransitivity; [|solve [eauto 2 with window]]
      | |- context [match ?x with _ => _ end] => destruct x eqn:?; simplify_eq/=
      end ]).

Section redrawing.
Variable path_key : LegacyText -> list Z.

Lemma inert_finish s : inert s (try_finish_window_close s).2.
Proof. unfold try_finish_window_close, finish_if_ready. case_match; [reflexivity|]. case_match; [reflexivity|apply inert_retiring]. Qed.
Lemma inert_caches s : inert s (refresh_preview_caches path_key s).
Proof. unfold refresh_preview_caches. case_match; [apply inert_showing|reflexivity]. Qed.
Lemma inert_all native s : inert s (refresh_all_rows path_key native s).
Proof. unfold refresh_all_rows. etransitivity; [apply inert_caches|apply inert_showing]. Qed.
Lemma inert_changed native s : inert s (refresh_changed_rows path_key native s).
Proof.
  unfold refresh_changed_rows. case_match; [apply inert_all|]. case_match; [apply inert_caches|].
  etransitivity; [apply inert_caches|apply inert_all].
Qed.
Lemma inert_proposals native changed s : inert s (refresh_proposal_rows path_key native changed s).
Proof.
  assert (Hrest : forall s, inert s (let s := refresh_preview_caches path_key s in
    if cells_applied native then s else refresh_all_rows path_key native s)).
  { intros s1; cbv zeta; destruct (cells_applied native); [apply inert_caches|]. etransitivity; [apply inert_caches|apply inert_all]. }
  unfold refresh_proposal_rows. destruct (proposal_refresh_plan _ _ _) as [plan|]; [|apply inert_all].
  destruct (refresh_rows plan) as [|row [|? ?]]; [apply Hrest| |apply Hrest].
  destruct (refresh_proposal_row _ _ _ _) as [[[?|] p]|?];
    [|etransitivity; [apply inert_showing|apply inert_all]|apply inert_all].
  cbn. case_match; [apply inert_showing|]. etransitivity; [apply inert_showing|apply inert_all].
Qed.
End redrawing.
#[export] Hint Resolve inert_finish inert_caches inert_all inert_changed inert_proposals : window.

Lemma edits_on_model {E A} (m : Cmd E A) s : edits s (on_model m s).2.
Proof. unfold on_model. case_match. apply edits_rows. Qed.
Lemma edits_row_mutation {E A} (m : Cmd E A) changed e s : edits s (row_mutation m changed e s).2.
Proof.
  unfold row_mutation. pose proof (edits_on_model m s) as Hm. destruct (on_model m s) as [[a|] s']; cbn in *; [|done].
  etransitivity; [done|apply edits_revision].
Qed.
Lemma edits_proposal_outcome changed s : edits s (proposal_outcome changed s).2.
Proof. apply edits_revision. Qed.
Lemma edits_proposal_mutation {E} (m : Cmd E (list nat)) s : edits s (proposal_mutation m s).2.
Proof.
  unfold proposal_mutation. pose proof (edits_on_model m s) as Hm. destruct (on_model m s) as [[a|] s']; cbn in *; [|done].
  etransitivity; [done|apply edits_revision].
Qed.
#[export] Hint Resolve edits_on_model edits_row_mutation edits_proposal_outcome edits_proposal_mutation : window.

(** ** The invariant *)

Definition worker_count (w : Workers) : nat :=
  (Nat.b2n (present (admission_worker w)) + Nat.b2n (present (import_worker w)) + Nat.b2n (present (plan_worker w))
   + Nat.b2n (present (apply_worker w)))%nat.
Definition kept (j : Journals) : bool :=
  present (active_journal j) || present (staged_journal j) || negb (match blocked_journals j with [] => true | _ => false end).

Definition dialog_session (d : Dialog) : list Z :=
  match d with
  | PromptOpen p => [session_id (prompt_session p)]
  | FilesOpen d => [session_id (file_session d)]
  | DiscardOpen d => [session_id (discard_session d)]
  | ExportOpen d => [session_id (export_session d)]
  | DetailsOpen session => [session_id session]
  | ApplyOpen d => [session_id (apply_session d)]
  | DirectoryOpen d => [session_id (directory_session d)]
  | AppearanceCreating (CreateAppearance session _ _) => [session_id session]
  | AppearanceCreating (FocusExisting _) | AppearanceArming _ _ | RecoveryOpen => []
  end.
Definition confirming (d : Dialog) : bool :=
  match d with
  | DiscardOpen _ | ExportOpen _ | DetailsOpen _ | ApplyOpen _ | DirectoryOpen _ | RecoveryOpen => true
  | PromptOpen _ | FilesOpen _ | AppearanceCreating _ | AppearanceArming _ _ => false
  end.
Definition confirmations (d : list Dialog) : nat := sum_list_with (fun d => Nat.b2n (confirming d)) d.
Definition sessions (d : list Dialog) (w : Workers) : list Z :=
  concat (map dialog_session d) ++ match import_worker w with Some x => [import_session (task x)] | None => [] end.

Lemma present_fmap {X Y} (f : X -> Y) o : present (f <$> o) = present o.
Proof. by destruct o. Qed.
Ltac further := cbn; unfold worker_count, sessions; cbn; rewrite ?present_fmap; try done.

Section invariant.
Context {B K : Type} `{RenameBackend B, ExecutionControl K}.

(** [plan] is what the planner returned for the rows [l] at [revision]. *)
Definition planned (l : LegacyList) (revision : ModelRevision) (plan : RenamePlan) : Prop :=
  exists (b : B) answers, plan_cancellable b (build_plan_request l revision) answers = Ok plan.
Definition plan_worker_ok (l : LegacyList) (revision : ModelRevision) (x : PlanWorker) : Prop :=
  task x = (revision, build_plan_request l revision) /\
  forall r ready, thread_end x = Some (Published (PlanFinished r (Ok ready))) ->
    r = revision /\ planned l revision (ready_plan ready).
(** A thread that reported an execution ran the executor on its plan. *)
Definition apply_worker_ok (root : JournalRoot) (l : LegacyList) (revision : ModelRevision) (x : ApplyWorker) : Prop :=
  planned l revision (task (apply_thread x)) /\
  forall journal execution, thread_end (apply_thread x) = Some (Published (Executed journal execution)) ->
    exists fresh system (k : K) (b b' : B),
      apply_worker_body root fresh system (task (apply_thread x)) k b = (Executed journal execution, b').
Definition dialog_ok (l : LegacyList) (revision : ModelRevision) (d : Dialog) : Prop :=
  match d with ApplyOpen d => planned l revision (apply_plan d) | _ => True end.

Record ok (d : list Dialog) (s : AppState) : Prop := {
  ok_one : (worker_count (workers s) <= 1)%nat;
  ok_working : worker_count (workers s) = 1%nat ->
    mutation_locked (locks s) = true /\ recovery_locked (locks s) = false /\ confirmation_pending (locks s) = false;
  ok_confirmed : confirmation_pending (locks s) = true -> mutation_locked (locks s) = true;
  ok_kept : kept (journals s) = true -> recovery_locked (locks s) = true;
  ok_sessions : sessions d (workers s) = match active_prompt (locks s) with Some id => [id] | None => [] end;
  ok_confirming : confirmations d = Nat.b2n (confirmation_pending (locks s));
  ok_plan : forall x, plan_worker (workers s) = Some x -> plan_worker_ok (model s) (model_revision s) x;
  ok_apply : forall x, apply_worker (workers s) = Some x ->
    apply_worker_ok (journal_root s) (model s) (model_revision s) x;
  ok_dialogs : Forall (dialog_ok (model s) (model_revision s)) d
}.

Definition idle (s : AppState) : Prop :=
  worker_count (workers s) = 0%nat /\ confirmation_pending (locks s) = false.

Lemma worker_active_count s : worker_active s = negb (worker_count (workers s) =? 0)%nat.
Proof. unfold worker_active, worker_activity. by destruct (workers s) as [[] [] [] []]. Qed.
Lemma no_worker (w : Workers) : worker_count w = 0%nat -> w = mkWorkers None None None None.
Proof. destruct w as [[] [] [] []]; cbn; by intros. Qed.

Lemma ok_unlocked d s : ok d s -> mutation_locked (locks s) = false -> idle s.
Proof.
  intros [Hone Hw Hc _ _ _ _ _ _] Hl. split.
  - destruct (worker_count (workers s)) as [|[|?]] eqn:E; [done| |lia]. destruct Hw as [? _]; [done|congruence].
  - destruct (confirmation_pending (locks s)) eqn:E; [|done]. specialize (Hc eq_refl). congruence.
Qed.
Lemma ok_inert d s s' : ok d s -> inert s s' -> ok d s'.
Proof. intros [] (v & x & ->). by split. Qed.
Lemma unconfirmed_ok l rev d : confirmations d = 0%nat -> Forall (dialog_ok l rev) d.
Proof. induction d as [|[]]; cbn; intros; constructor; cbn; try done; try lia; apply IHd; unfold confirmations; lia. Qed.
Lemma ok_edits d s s' : ok d s -> idle s -> edits s s' -> ok d s'.
Proof.
  intros [] [Hw Hc] (r & rev & v & x & ->). split; cbn in *; try done.
  - by rewrite (no_worker _ Hw).
  - by rewrite (no_worker _ Hw).
  - apply unconfirmed_ok. rewrite ok_confirming0, Hc. done.
Qed.

(** *** Sessions *)

Lemma ok_begin_session d s dlg :
  ok d s -> active_prompt (locks s) = None -> dialog_session dlg = [session_id (begin_session s).1] ->
  confirming dlg = false -> ok (dlg :: d) (begin_session s).2.
Proof.
  intros [] Ha Hs Hc. unfold begin_session in *. cbn in *. split; cbn in *; try done.
  - unfold sessions in *. cbn. rewrite Hs. rewrite Ha in ok_sessions0. by rewrite <-app_assoc, ok_sessions0.
  - unfold confirmations in *. cbn. by rewrite Hc.
  - constructor; [|done]. by destruct dlg.
Qed.
Lemma ok_begin_task d s session s' dlg :
  ok d s -> worker_count (workers s) = 0%nat -> begin_prepared_task_dialog s = Some (session, s') ->
  dialog_session dlg = [session_id session] -> confirming dlg = true ->
  dialog_ok (model s) (model_revision s) dlg -> ok (dlg :: d) s'.
Proof.
  intros [] Hw Hb Hs Hc Hd. unfold begin_prepared_task_dialog, begin_session in Hb.
  destruct (active_prompt (locks s)) eqn:Ha; [done|]. destruct (confirmation_pending (locks s)) eqn:Hp; [done|].
  injection Hb as <- <-. split; cbn in *; try done; try lia.
  - unfold sessions in *. cbn. rewrite Hs. by rewrite <-app_assoc, ok_sessions0.
  - unfold confirmations in *. cbn. by rewrite Hc, ok_confirming0.
  - by constructor.
Qed.
(** What closing the innermost dialog finds. *)
Lemma ok_top dlg d s : ok (dlg :: d) s -> forall id, dialog_session dlg = [id] ->
  active_prompt (locks s) = Some id /\ import_worker (workers s) = None /\ concat (map dialog_session d) = [].
Proof.
  intros Hok id Hs. pose proof (ok_sessions _ _ Hok) as H'. unfold sessions in H'. cbn in H'. rewrite Hs in H'.
  destruct (active_prompt (locks s)); [|done]. cbn in H'. injection H' as -> H'.
  apply app_eq_nil in H' as [-> H']. by destruct (import_worker (workers s)).
Qed.
Lemma ok_top_confirming dlg d s : ok (dlg :: d) s -> confirming dlg = true ->
  confirmation_pending (locks s) = true /\ mutation_locked (locks s) = true /\ worker_count (workers s) = 0%nat
  /\ confirmations d = 0%nat.
Proof.
  intros [] Hc. unfold confirmations in *. cbn in *. rewrite Hc in ok_confirming0. cbn in ok_confirming0.
  destruct (confirmation_pending (locks s)); [|done]. split; [done|]. split; [auto|].
  split; [|cbn in *; lia]. destruct (worker_count (workers s)) as [|[|]]; [done| |lia]. by destruct ok_working0 as (_ & _ & ?).
Qed.
(** The session of a prompt ends, whatever follows. *)
Lemma ok_end_session dlg d s id : ok (dlg :: d) s -> dialog_session dlg = [id] -> confirming dlg = false ->
  ok d (set_active_prompt None s).
Proof.
  intros Hok Hs Hc. destruct (ok_top _ _ _ Hok _ Hs) as (Ha & Hi & Hd). destruct Hok. split; cbn in *; try done.
  - unfold sessions. by rewrite Hd, Hi.
  - unfold confirmations in *. cbn in *. by rewrite Hc in ok_confirming0.
  - by inversion ok_dialogs0.
Qed.
Lemma ok_take d s dlg session policy disposition s' :
  ok (dlg :: d) s -> dialog_session dlg = [session_id session] -> confirming dlg = true ->
  take_prepared_task_dialog session policy s = (disposition, s') ->
  ok d s' /\ idle s' /\ model s' = model s /\ model_revision s' = model_revision s /\ journals s' = journals s
  /\ workers s' = workers s /\ recovery_locked (locks s') = recovery_locked (locks s) /\ journal_root s' = journal_root s
  /\ (disposition = Accepted -> close_pending (locks s) = false /\ mutation_locked (locks s') = false
        /\ expected_revision session = model_revision s).
Proof.
  intros Hok Hs Hc Ht. destruct (ok_top _ _ _ Hok _ Hs) as (Ha & Hi & Hd).
  destruct (ok_top_confirming _ _ _ Hok Hc) as (Hp & Hl & Hw & Hn).
  unfold take_prepared_task_dialog in Ht. rewrite Ha, bool_decide_true in Ht by done. cbn in Ht.
  rewrite Hp, Hl, worker_active_count, Hw in Ht. injection Ht as <- <-. cbn.
  split; [|split; [by split|]].
  - destruct Hok. split; cbn in *; try done; try (by intros; lia); try lia.
    + unfold sessions. by rewrite Hd, Hi.
    + by inversion ok_dialogs0.
  - do 6 (split; [done|]). intros Hacc. destruct (close_pending (locks s)); [done|]. split; [done|]. split; [done|].
    destruct (model_revision s =? expected_revision session) eqn:E; [|done]. lia.
Qed.

(** *** Starting *)

Definition unlocked (s : AppState) : Prop := mutation_locked (locks s) = false /\ recovery_locked (locks s) = false.
Lemma apply_unlocked s : apply_locked s = false -> unlocked s /\ worker_count (workers s) = 0%nat.
Proof.
  unfold apply_locked, unlocked, worker_count. intros H'. repeat (apply orb_false_elim in H' as [H' ?]).
  split; [done|]. destruct (workers s) as [[] [] [] []]; done.
Qed.
Lemma ok_start_plan d s native : ok d s -> apply_locked s = false ->
  ok d (start_plan_worker native (model_revision s) (build_plan_request (model s) (model_revision s)) s).
Proof.
  intros Hok Hl. destruct (apply_unlocked _ Hl) as [[Hm Hr] Hw]. destruct (ok_unlocked _ _ Hok Hm) as [_ Hc].
  unfold start_plan_worker. case_match; [|done]. pose proof (no_worker _ Hw) as Ew. destruct Hok.
  split; cbn in *; rewrite ?Ew in *; cbn in *; try done; try lia.
  intros x [= <-]. by split.
Qed.
Lemma ok_start_apply d s root_cloned native confirmed : ok d s -> apply_locked s = false ->
  planned (model s) (model_revision s) confirmed -> ok d (start_apply_worker root_cloned native confirmed s).
Proof.
  intros Hok Hl Hp. destruct (apply_unlocked _ Hl) as [[Hm Hr] Hw]. destruct (ok_unlocked _ _ Hok Hm) as [_ Hc].
  pose proof (no_worker _ Hw) as Ew. unfold start_apply_worker. destruct root_cloned; cbn; [case_match|];
    [|done|]; destruct Hok; split; cbn in *; rewrite ?Ew in *; cbn in *; try done; try lia.
  intros x [= <-]. by split.
Qed.
Lemma ok_start_admission d s native paths mode capacity : ok d s -> unlocked s ->
  ok d (start_admission_worker native paths mode capacity s).2.
Proof.
  intros Hok [Hm Hr]. destruct (ok_unlocked _ _ Hok Hm) as [Hw Hc]. pose proof (no_worker _ Hw) as Ew.
  unfold start_admission_worker. case_match; [|done].
  destruct Hok; split; cbn in *; rewrite ?Ew in *; cbn in *; try done; try lia.
Qed.
Lemma ok_start_import d s native session dlg kind :
  ok (dlg :: d) s -> dialog_session dlg = [session_id session] -> confirming dlg = false ->
  ok d (start_selected_import native session kind s).
Proof.
  intros Hok Hs Hc. destruct (ok_top _ _ _ Hok _ Hs) as (Ha & Hi & Hd).
  pose proof (ok_end_session _ _ _ _ Hok Hs Hc) as Hend.
  unfold start_selected_import. rewrite Ha, bool_decide_true by done.
  assert (Hfin : ok d (try_finish_window_close (set_active_prompt None s)).2).
  { eapply ok_inert; [exact Hend|apply inert_finish]. }
  destruct (file_dialog_session_is_current session s) eqn:Hcur; [|exact Hfin].
  unfold start_import_worker. rewrite Hi. cbn [present].
  destruct (starts native); [|exact Hfin].
  unfold file_dialog_session_is_current, deferred_result_can_apply in Hcur. cbn in Hcur.
  repeat (apply andb_prop in Hcur as [Hcur ?]). rewrite !negb_true_iff in *.
  destruct (ok_unlocked _ _ Hok) as [Hw Hp]; [done|]. pose proof (no_worker _ Hw) as Ew.
  destruct Hend; split; cbn in *; rewrite ?Ew in *; cbn in *; try done; try lia.
  unfold sessions. by rewrite Hd, Ha.
Qed.

(** *** Cancelling and closing *)

(** The same workers, further on. *)
Lemma ok_threads d s f : ok d s -> worker_count (f (workers s)) = worker_count (workers s) ->
  sessions [] (f (workers s)) = sessions [] (workers s) ->
  (forall x, plan_worker (f (workers s)) = Some x -> plan_worker_ok (model s) (model_revision s) x) ->
  (forall x, apply_worker (f (workers s)) = Some x -> apply_worker_ok (journal_root s) (model s) (model_revision s) x) ->
  ok d (set_workers f s).
Proof.
  intros [] Hc Hs Hp Ha. split; cbn; rewrite ?Hc; try done.
  rewrite <-ok_sessions0. unfold sessions in *. cbn in Hs. by rewrite Hs.
Qed.
Lemma ok_cancel_admission d s : ok d s -> ok d (cancel_admission s).
Proof. intros Hok. pose proof Hok as []. apply ok_threads; further. Qed.
Lemma ok_cancel_import d s : ok d s -> ok d (cancel_import s).
Proof. intros Hok. pose proof Hok as []. apply ok_threads; further. by destruct (import_worker (workers s)). Qed.
Lemma ok_cancel_plan d s : ok d s -> ok d (cancel_plan s).
Proof.
  intros Hok. pose proof Hok as []. apply ok_threads; further.
  destruct (plan_worker (workers s)) eqn:E; cbn; [|done]. intros x [= <-]. by specialize (ok_plan0 _ eq_refl).
Qed.
Lemma ok_cancel_apply d s : ok d s -> ok d (cancel_apply s).
Proof.
  intros Hok. pose proof Hok as []. apply ok_threads; further.
  destruct (apply_worker (workers s)) eqn:E; cbn; [|done]. intros x [= <-]. by specialize (ok_apply0 _ eq_refl).
Qed.
Hint Resolve ok_cancel_admission ok_cancel_import ok_cancel_plan ok_cancel_apply : window.
Lemma ok_begin_close d s : ok d s -> ok d (begin_close s).
Proof.
  intros Hok. unfold begin_close. destruct (close_pending (locks s)); [done|]. destruct Hok; split; cbn; try done.
  intros Hc. by destruct (ok_working0 Hc) as (_ & ? & ?).
Qed.
Lemma ok_finish d s : ok d s -> ok d (try_finish_window_close s).2.
Proof. intros Hok. eapply ok_inert; [done|apply inert_finish]. Qed.
Lemma ok_finish_if d s : ok d s -> ok d (if close_pending (locks s) then (try_finish_window_close s).2 else s).
Proof. case_match; [apply ok_finish|done]. Qed.
Lemma ok_request_close d s : ok d s -> ok d (request_window_close s).
Proof.
  intros Hok%ok_begin_close. unfold request_window_close. repeat case_match; auto with window. by apply ok_finish.
Qed.
Lemma ok_worker_cancel d s : ok d s -> ok d (request_active_worker_cancel s).
Proof. intros Hok. unfold request_active_worker_cancel. repeat case_match; auto with window. Qed.
Lemma inert_cancel_appearance s : inert s (cancel_appearance_dialog s).
Proof. unfold cancel_appearance_dialog. case_match; [by eexists _, _|reflexivity]. Qed.

(** *** Taking results over *)

Lemma only_plan w x : (worker_count w <= 1)%nat -> plan_worker w = Some x -> w = mkWorkers None (Some x) None None.
Proof. destruct w as [[] [] [] []]; cbn; intros; simplify_eq; try lia; done. Qed.
Lemma only_apply w x : (worker_count w <= 1)%nat -> apply_worker w = Some x -> w = mkWorkers (Some x) None None None.
Proof. destruct w as [[] [] [] []]; cbn; intros; simplify_eq; try lia; done. Qed.
Lemma only_admission w x : (worker_count w <= 1)%nat -> admission_worker w = Some x -> w = mkWorkers None None (Some x) None.
Proof. destruct w as [[] [] [] []]; cbn; intros; simplify_eq; try lia; done. Qed.
Lemma only_import w x : (worker_count w <= 1)%nat -> import_worker w = Some x -> w = mkWorkers None None None (Some x).
Proof. destruct w as [[] [] [] []]; cbn; intros; simplify_eq; try lia; done. Qed.

(** The worker is gone and the list is unlocked. *)
Lemma ok_worker_gone d s locked : ok d s -> worker_count (workers s) = 1%nat -> import_worker (workers s) = None ->
  let s' := set_mutation_locked locked (set_workers (fun _ => mkWorkers None None None None) s) in
  ok d s' /\ idle s' /\ recovery_locked (locks s) = false /\ kept (journals s) = false.
Proof.
  intros [] Hc Hi. destruct (ok_working0 Hc) as (Hm & Hr & Hp). split; [|split; [done|split; [done|]]].
  - split; cbn; try done; try lia; try congruence. rewrite <-ok_sessions0. unfold sessions. by rewrite Hi.
  - destruct (kept (journals s)); [|done]. by rewrite ok_kept0 in Hr.
Qed.

Definition opened (o : option Dialog) (d : list Dialog) : list Dialog := match o with Some x => x :: d | None => d end.

Lemma ok_plan_completion d s :
  ok d s -> ok (opened (dialog_of_worker <$> (handle_plan_completion s).1) d) (handle_plan_completion s).2.
Proof.
  intros Hok. unfold handle_plan_completion. destruct (plan_worker (workers s)) as [x|] eqn:Ex; [|done].
  destruct (thread_end x) as [joined|] eqn:Ej; [|done].
  pose proof (ok_plan _ _ Hok x Ex) as [_ Hplan]. pose proof (only_plan _ _ (ok_one _ _ Hok) Ex) as Ew.
  destruct (ok_worker_gone d s false Hok) as (Hok' & [Hw' Hp'] & _ & _); [by rewrite Ew..|].
  assert (Es : set_plan_worker None s = set_workers (fun _ => mkWorkers None None None None) s).
  { unfold set_plan_worker, set_workers. by rewrite Ew. }
  rewrite Es. set (s' := set_mutation_locked false _) in *.
  assert (planned (model s') (model_revision s') = planned (model s) (model_revision s)) as Ep by done. clearbody s'. clear Es.
  destruct (close_pending (locks s')) eqn:Hcl; [by apply ok_finish|].
  destruct joined as [| |[r ready| |]]; try done. unfold handle_ready_plan.
  destruct ready as [ready|]; [|by rewrite Hcl].
  specialize (Hplan _ _ Ej) as [-> Hplan].
  destruct (preview_is_ready_for_apply s'); cbn; [|by rewrite Hcl]. destruct (plan_entries _); [by rewrite Hcl|].
  destruct (begin_prepared_task_dialog s') as [[session s'']|] eqn:Hb; [|by rewrite Hcl].
  destruct (close_pending (locks s'')) eqn:Hcl''.
  - unfold begin_prepared_task_dialog, begin_session in Hb. case_match; [done|]. injection Hb as <- <-. cbn in *. congruence.
  - cbn. eapply ok_begin_task; try done. cbn. by rewrite Ep.
Qed.

Lemma idle_edits s s' : idle s -> edits s s' -> idle s'.
Proof. by intros ? (? & ? & ? & ? & ->). Qed.
Lemma kept_edits s s' : edits s s' -> kept (journals s') = kept (journals s).
Proof. by intros (? & ? & ? & ? & ->). Qed.
Lemma ok_keep_locked d s j : ok d s -> idle s -> ok d (keep_locked j s).
Proof. intros [] [Hw Hc]. split; cbn; try done. by rewrite Hw. Qed.
Lemma ok_lock_recovery d s : ok d s -> idle s -> ok d (set_recovery_locked true s).
Proof. intros [] [Hw Hc]. split; cbn; try done. by rewrite Hw. Qed.
Lemma ok_retain_or_clean d s j : ok d s -> idle s -> kept (journals s) = false -> ok d (retain_or_clean j s).
Proof.
  intros [] [Hw Hc] Hk. unfold kept in Hk. apply orb_false_elim in Hk as [[_ Hk]%orb_false_elim Hb].
  split; cbn; try done; [by rewrite Hw|]. unfold kept. cbn. rewrite Hk, Hb, !orb_false_r. intros ->. apply orb_true_r.
Qed.
Lemma ok_apply_completion d s key redraw : ok d s -> ok d (handle_apply_completion key redraw s).
Proof.
  intros Hok. unfold handle_apply_completion. destruct (apply_worker (workers s)) as [x|] eqn:Ex; [|done].
  destruct (thread_end (apply_thread x)) as [joined|] eqn:Ej; [|done].
  pose proof (only_apply _ _ (ok_one _ _ Hok) Ex) as Ew.
  destruct (ok_worker_gone d s false Hok) as (Hok' & Hidle & Hr & Hk); [by rewrite Ew..|].
  apply ok_finish_if. unfold finalize_apply_worker.
  assert (Es : set_apply_worker None s = set_workers (fun _ => mkWorkers None None None None) s).
  { unfold set_apply_worker, set_workers. by rewrite Ew. }
  rewrite Es. set (s' := set_mutation_locked false _) in *.
  assert (kept (journals s') = false) as Hk' by done. clearbody s'. clear Es Hk.
  destruct joined as [| |[e|j execution|]]; auto using ok_lock_recovery.
  unfold handle_completed_execution. destruct execution as [report|e]; [|by apply ok_retain_or_clean].
  destruct (report_outcome report); [|by apply ok_retain_or_clean|by apply ok_keep_locked].
  assert (Hrows : forall r, ok d (set_rows r s') /\ idle (set_rows r s')).
  { intros r. split; [by eapply ok_edits, edits_rows|done]. }
  destruct (apply_execution_report report _) as [[[]|] st]; try (apply ok_keep_locked; apply Hrows).
  assert (Hed : forall changed, edits s'
    (refresh_all_rows key redraw (commit_known_model_change changed (set_rows ((rows s').1, st) s')))).
  { intros changed. etransitivity; [apply edits_rows|]. etransitivity; [apply edits_revision|]. apply inert_edits, inert_all. }
  apply ok_retain_or_clean; [by eapply ok_edits|by eapply idle_edits|by erewrite kept_edits].
Qed.
Lemma ok_admission_completion d s key compare redraw :
  ok d s -> ok (opened (dialog_of_worker <$> (handle_admission_completion key compare redraw s).1) d)
              (handle_admission_completion key compare redraw s).2.
Proof.
  intros Hok. unfold handle_admission_completion. destruct (admission_worker (workers s)) as [x|] eqn:Ex; [|done].
  destruct (thread_end x) as [joined|] eqn:Ej; [|done].
  pose proof (only_admission _ _ (ok_one _ _ Hok) Ex) as Ew.
  destruct (ok_worker_gone d s false Hok) as (Hok' & Hidle & _ & _); [by rewrite Ew..|].
  assert (Es : set_admission_worker None s = set_workers (fun _ => mkWorkers None None None None) s).
  { unfold set_admission_worker, set_workers. by rewrite Ew. }
  rewrite Es. set (s' := set_mutation_locked false _) in *. clearbody s'. clear Es.
  destruct (close_pending (locks s')); [by apply ok_finish|].
  destruct joined as [| |[r paths capacity dir|r report| |]]; try done; case_match; try done.
  - destruct (begin_prepared_task_dialog s') as [[session s'']|] eqn:Hb; [|done].
    cbn. eapply ok_begin_task; try done. apply Hidle.
  - destruct (append_batch_indexed _ _ _) as [[n|] st]; cbn; eapply ok_edits; try done; [|apply edits_rows].
    etransitivity; [apply edits_rows|]. etransitivity; [apply edits_revision|]. apply inert_edits, inert_all.
Qed.

(** *** Dialogs that return *)

Variables (key : LegacyText -> list Z) (compare : LegacyText -> LegacyText -> comparison).

Lemma ok_outcome d s redraw e : ok d s -> ok d (apply_command_outcome key redraw e s).
Proof. intros Hok. destruct e; cbn; [..|by apply ok_request_close]; try done; eapply ok_inert; eauto with window. Qed.
Lemma edits_outcome {E} (m : Cmd E (list nat)) f s :
  edits s (let '(changed, s) := on_model m s in proposal_outcome (f changed) s).2.
Proof.
  pose proof (edits_on_model m s) as Hm. destruct (on_model m s). etransitivity; [apply Hm|apply edits_proposal_outcome].
Qed.
Lemma edits_finish_prompt k r s : edits s (finish_prompt_command compare k r s).2.
Proof.
  destruct k; cbn [finish_prompt_command]; try solve [apply edits_row_mutation|apply edits_proposal_mutation].
  - unfold finish_pad_digits_command. do 2 (case_match; [solve [reflexivity|apply edits_proposal_mutation]|]).
    apply edits_proposal_mutation.
  - unfold finish_sequence_command. case_match; [reflexivity|apply edits_proposal_mutation].
  - unfold finish_delete_position_command. destruct (_ || _); [reflexivity|].
    destruct (choice r =? 0)%nat; cbn [andb];
      repeat match goal with |- context [if ?c then (NoEffect, _) else _] => destruct c; [reflexivity|] end;
      apply (edits_outcome _ (fun changed => match changed with Ok changed => changed | Err _ => [] end)).
  - apply (edits_outcome _ (fun changed => match changed with Ok changed => changed | Err _ => [] end)).
  - unfold finish_sort_command. case_match; [apply edits_row_mutation|reflexivity].
Qed.

Lemma can_apply_unlocked active id s expected :
  deferred_result_can_apply active id (completion_locks s) (model_revision s) expected = true ->
  unlocked s /\ close_pending (locks s) = false /\ expected = model_revision s.
Proof.
  unfold deferred_result_can_apply, unlocked. cbn. intros H'. repeat (apply andb_prop in H' as [H' ?]).
  rewrite !negb_true_iff in *. repeat split; try done. lia.
Qed.
Lemma ok_prompt d s redraw p r : ok (PromptOpen p :: d) s -> ok d (run_prepared_prompt key compare redraw p r s).
Proof.
  intros Hok. pose proof (ok_end_session _ _ _ _ Hok eq_refl eq_refl) as Hend.
  destruct (ok_top _ _ _ Hok _ eq_refl) as (Ha & _ & _).
  unfold run_prepared_prompt. rewrite Ha, bool_decide_true by done. cbn [negb].
  pose proof (ok_finish_if _ _ Hend) as Hfin. destruct r as [r|]; [|exact Hfin].
  destruct (deferred_result_can_apply _ _ _ _ _) eqn:Hcur; [|exact Hfin]. cbn [negb].
  apply can_apply_unlocked in Hcur as ([Hm _] & _ & _). pose proof (ok_unlocked _ _ Hend Hm) as Hidle.
  pose proof (edits_finish_prompt (continuation p) r (set_active_prompt None s)) as Hed.
  destruct (finish_prompt_command _ _ _ _) as [e s']. apply ok_outcome, (ok_edits _ _ _ Hend Hidle Hed).
Qed.
Lemma ok_file_session d s dlg session completion finish :
  ok (dlg :: d) s -> dialog_session dlg = [session_id session] -> confirming dlg = false ->
  (forall s', ok d s' -> unlocked s' -> ok d (finish s')) ->
  ok d (finish_file_dialog_session session completion finish s).2.
Proof.
  intros Hok Hs Hc Hf. pose proof (ok_end_session _ _ _ _ Hok Hs Hc) as Hend.
  destruct (ok_top _ _ _ Hok _ Hs) as (Ha & _ & _).
  unfold finish_file_dialog_session, take_file_dialog_session. rewrite Ha, bool_decide_true by done. cbn [negb].
  destruct completion; [|by apply ok_finish_if].
  destruct (deferred_result_can_apply _ _ _ _ _) eqn:Hcur; [|by apply ok_finish_if].
  apply can_apply_unlocked in Hcur as (Hu & _ & _). apply ok_finish_if. by apply Hf.
Qed.
Lemma ok_admit_paths d s native paths : ok d s -> unlocked s -> ok d (admit_paths native paths s).2.
Proof. apply ok_start_admission. Qed.
Lemma ok_files d s redraw native valid_parent dlg selection :
  ok (FilesOpen dlg :: d) s -> ok d (run_prepared_file_dialog key redraw native valid_parent dlg selection s).
Proof.
  intros Hok. unfold run_prepared_file_dialog.
  assert (Hfin : forall completion finish, (forall s', ok d s' -> unlocked s' -> ok d (finish s')) ->
    ok d (finish_file_dialog_session (file_session dlg) completion finish s).2).
  { intros completion finish. by eapply ok_file_session. }
  destruct selection; try (apply Hfin; intros s' ??; done); try (by eapply ok_start_import).
  - apply Hfin. intros s' ??. by apply ok_admit_paths.
  - case_match; apply Hfin; intros s' Hs' [Hm _]; [done|].
    pose proof (ok_unlocked _ _ Hs' Hm) as Hidle.
    match goal with |- context [row_mutation ?m ?c ?e s'] =>
      pose proof (edits_row_mutation m c e s') as Hed; destruct (row_mutation m c e s') as [eff s''] end.
    apply ok_outcome. by eapply ok_edits.
Qed.

Lemma ok_import_completion d s redraw native : ok d s -> ok d (handle_import_completion key redraw native s).
Proof.
  intros Hok. unfold handle_import_completion. destruct (import_worker (workers s)) as [x|] eqn:Ex; [|done].
  destruct (thread_end x) as [joined|]; [|done]. apply ok_finish.
  pose proof (only_import _ _ (ok_one _ _ Hok) Ex) as Ew.
  unfold set_import_worker, set_workers. cbn. rewrite Ew. cbn. rewrite !orb_false_r.
  match goal with |- ok d (finish_import_worker_result _ _ _ _ _ _ _ _ ?s1) => set (s' := s1) end.
  assert (Hs : active_prompt (locks s') = Some (import_session (task x)) /\ ok d (set_active_prompt None s')).
  { subst s'. cbn. pose proof Hok as []. rewrite Ew in *. destruct ok_working0 as (Hm & Hr & Hp); [done|].
    unfold sessions in *. cbn in *. destruct (active_prompt (locks s)) as [id|]; [|by destruct (concat _)].
    destruct (concat (map dialog_session d)) as [|? [|]] eqn:Hd; cbn in *; try done. injection ok_sessions0 as ->.
    split; [done|]. split; cbn; try done; try lia; try congruence. unfold sessions. by rewrite Hd. }
  clearbody s'. destruct Hs as [Ha Hend].
  unfold finish_import_worker_result, take_file_dialog_session. rewrite Ha, bool_decide_true by done. cbn [negb].
  destruct (cancellation x); [done|]. destruct (deferred_result_can_apply _ _ _ _ _) eqn:Hcur; [|done].
  apply can_apply_unlocked in Hcur as ([Hm Hr] & _ & _). pose proof (ok_unlocked _ _ Hend Hm) as Hidle.
  destruct (import_outcome joined) as [imported|]; [|done].
  destruct (import_kind (task x)); [|by apply ok_admit_paths].
  pose proof (edits_on_model (import_names_changed imported) (set_active_prompt None s')) as Hed.
  destruct (on_model _ _) as [[changed|] s'']; [|exact (ok_edits _ _ _ Hend Hidle Hed)].
  destruct (proposal_outcome changed s'') as [e s3] eqn:Eo. apply ok_outcome.
  eapply (ok_edits _ _ _ Hend Hidle). etransitivity; [apply Hed|]. change s3 with (e, s3).2. rewrite <-Eo.
  apply edits_proposal_outcome.
Qed.

Lemma ok_apply_dialog d s dlg answer root_cloned native :
  ok (ApplyOpen dlg :: d) s -> ok d (run_prepared_apply_task_dialog dlg answer root_cloned native s).
Proof.
  intros Hok. unfold run_prepared_apply_task_dialog.
  pose proof (ok_dialogs _ _ Hok) as Hd. apply Forall_cons in Hd as [Hd _].
  destruct (take_prepared_task_dialog _ _ _) as [disposition s'] eqn:Ht.
  apply (ok_take d _ (ApplyOpen dlg)) in Ht as (Hok' & Hidle & Hm & Hrev & _); try done.
  destruct disposition; try done; [|by apply ok_finish].
  destruct answer as [answer|]; [|done]. destruct (destructive_prompt_choice _ _); [|done].
  destruct (preview_is_ready_for_apply s'); cbn [negb]; [|done]. destruct (apply_locked s') eqn:Hl; [done|].
  destruct (_ || _); [done|]. destruct (confirm_presented _ _ _) as [confirmed|] eqn:Hc; [|done].
  apply ok_start_apply; try done. rewrite Hm, Hrev. unfold confirm_presented in Hc.
  repeat (case_match; [done|]). by injection Hc as <-.
Qed.
Lemma ok_directory_dialog d s dlg answer native :
  ok (DirectoryOpen dlg :: d) s -> ok d (run_prepared_directory_task_dialog dlg answer native s).
Proof.
  intros Hok. unfold run_prepared_directory_task_dialog.
  destruct (take_prepared_task_dialog _ _ _) as [disposition s'] eqn:Ht. pose proof Ht as Ht'.
  apply (ok_take d _ (DirectoryOpen dlg)) in Ht as (Hok' & _ & _ & _ & _ & _ & Hr & _ & Hacc); try done.
  destruct disposition; try done; [|by apply ok_finish]. destruct (Hacc eq_refl) as (_ & Hm & _).
  assert (unlocked s') as Hu.
  { split; [done|]. unfold take_prepared_task_dialog, read_only_locked in Ht'. case_match; [done|].
    destruct (close_pending (locks s)); [done|]. rewrite Hr. destruct (recovery_locked (locks s)); [|done].
    rewrite andb_false_r in Ht'. done. }
  case_match; [done|]. destruct (directory_prompt_choice <$> answer) as [[]|]; try done; by apply ok_start_admission.
Qed.
Lemma ok_details_dialog d s session :
  ok (DetailsOpen session :: d) s -> ok d (run_prepared_preview_details session s).
Proof.
  intros Hok. unfold run_prepared_preview_details. destruct (take_prepared_task_dialog _ _ _) as [disposition s'] eqn:Ht.
  apply (ok_take d _ (DetailsOpen session)) in Ht as (Hok' & _); try done. destruct disposition; try done. by apply ok_finish.
Qed.

(** What was found at startup locks the list. *)
Definition found (journal : option FileJournal) (blocked : list StartupJournalBlock) : bool :=
  present journal || negb (match blocked with [] => true | _ => false end).
Lemma outcome_observed role opened journal blocked before after :
  open_outcome role opened = (journal, blocked) -> found journal blocked = true ->
  observed_role journal role (before ++ blocked ++ after) = true.
Proof.
  unfold open_outcome, found, observed_role. destruct opened as [j|e]; [by intros [= <- <-]|].
  unfold from_open_error. destruct (is_not_found e); intros [= <- <-]; [done|]. intros _.
  rewrite !existsb_app. cbn. case_match; cbn; by rewrite bool_decide_true, orb_true_r.
Qed.
Lemma found_app a s blocked blocked' collision : kept (mkJournals a s (blocked ++ blocked') collision) = found a blocked || found s blocked'.
Proof. unfold kept, found. cbn. destruct a, s, blocked, blocked'; done. Qed.

Lemma ok_rediscover d s fresh active_system candidate_system : ok d s -> idle s ->
  ok d (rediscover_after_staged_discard fresh active_system candidate_system s).
Proof.
  intros [] [Hw Hc]. unfold rediscover_after_staged_discard.
  destruct (open_outcome RoleActive _) as [active ab] eqn:Ea. destruct (open_outcome RoleCandidate _) as [staged sb] eqn:Es.
  split; cbn -[observed_role]; try done; [by rewrite Hw|]. rewrite found_app. intros [Hf|Hf]%orb_prop.
  - pose proof (outcome_observed _ _ _ _ [] sb Ea Hf : observed_role _ _ (ab ++ sb) = true) as ->. done.
  - pose proof (outcome_observed _ _ _ _ ab [] Es Hf) as E. rewrite app_nil_r in E. by rewrite E, orb_true_r.
Qed.
Lemma ok_discard_dialog d s dlg answer fresh active_system candidate_system :
  ok (DiscardOpen dlg :: d) s ->
  ok d (run_prepared_discard_task_dialog dlg answer fresh active_system candidate_system s).
Proof.
  intros Hok. unfold run_prepared_discard_task_dialog.
  destruct (take_prepared_task_dialog _ _ _) as [disposition s'] eqn:Ht. pose proof Ht as Ht'.
  apply (ok_take d _ (DiscardOpen dlg)) in Ht as (Hok' & Hidle & _ & _ & _ & _ & Hr & _); try done.
  destruct disposition; try done. destruct answer as [answer|]; [|done]. destruct (destructive_prompt_choice _ _); [|done].
  destruct (staged_journal (journals s')) as [staged|]; [|done]. case_match; [done|].
  destruct (mark_unactivated_intent_delete staged) as [[|] j].
  - assert (Hnone : ok d (set_recovery_locked true (set_staged_journal None s'))).
    { apply ok_lock_recovery; [|done]. destruct Hok'; split; cbn; try done. intros Hk. apply ok_kept0. revert Hk. unfold kept. cbn.
      destruct (present (active_journal _)), (present (staged_journal _)); done. }
    pose proof (ok_rediscover _ _ fresh active_system candidate_system Hnone) as Hre. exact (Hre Hidle).
  - destruct Hok', Hidle as [Hw _]. split; cbn; try done. by rewrite Hw.
Qed.

Lemma ok_export_dialog d s dlg system : ok (ExportOpen dlg :: d) s -> ok d (run_prepared_recovery_export dlg system s).2.
Proof.
  intros Hok. unfold run_prepared_recovery_export.
  destruct (take_prepared_task_dialog _ _ _) as [disposition s'] eqn:Ht.
  apply (ok_take d _ (ExportOpen dlg)) in Ht as (Hok' & _); try done.
  destruct disposition; try (by apply ok_finish); destruct system as [system|]; try done. case_match; [done|].
  cbn. destruct Hok'; split; cbn; try done. intros Hk. apply ok_kept0. revert Hk. unfold kept. cbn. rewrite !present_fmap.
  by destruct (blocked_journals (journals s')).
Qed.

Lemma ok_appearance_action d s a created :
  ok (AppearanceCreating a :: d) s ->
  let '(arming, s') := run_prepared_appearance_action a created s in
  ok (match a with
      | CreateAppearance session id _ => if arming then AppearanceArming id (expected_revision session) :: d else d
      | FocusExisting _ => d
      end) s'.
Proof.
  intros Hok. destruct a as [id|session id a]; cbn [run_prepared_appearance_action].
  { destruct Hok; split; try done. by inversion ok_dialogs0. }
  destruct (ok_top _ _ _ Hok _ eq_refl) as (Ha & _ & _). rewrite Ha, bool_decide_true by done. cbn [negb].
  pose proof (ok_end_session _ _ _ _ Hok eq_refl eq_refl) as Hend.
  destruct (negb created || _); [apply (ok_finish_if _ _ Hend)|].
  eapply (ok_inert _ (set_active_prompt None s)); [|by eexists _, _]. destruct Hend; split; try done. by constructor.
Qed.
Lemma ok_arming d s id expected armed :
  ok (AppearanceArming id expected :: d) s -> ok d (guard_appearance_dialog id expected armed s).
Proof.
  intros Hok. assert (ok d s) as Hd. { destruct Hok; split; try done. by inversion ok_dialogs0. }
  unfold guard_appearance_dialog. repeat case_match; try done; eapply ok_inert; try done; try by eexists _, _.
  etransitivity; [|apply inert_finish]. by eexists _, _.
Qed.
Lemma ok_recover d s (b : B) : ok d s -> idle s -> ok d (recover_confirmed_active_journal b s).1.
Proof.
  intros Hok Hidle. unfold recover_confirmed_active_journal. case_match; [done|]. case_match; [|done].
  destruct (run handle_recovery recover _) as [outcome w]. cbn.
  assert (Hkeep : forall j, ok d (keep_locked j (set_active_journal None s))).
  { intros j. destruct Hok, Hidle as [Hw Hc]. split; cbn; try done. by rewrite Hw. }
  destruct outcome as [[]|]; try done; destruct Hok, Hidle as [Hw Hc]; split; cbn; try done; try (by rewrite Hw);
    unfold kept; cbn; rewrite <-!orb_assoc; intros ->; apply orb_true_r.
Qed.

(** *** Commands *)

(** The commands a locked list still takes. *)
Definition quiet_command (c : CommandId) : Prop :=
  c = VERSION \/ c = EXIT_COMMAND \/ c = APPEARANCE_ADVANCED \/ c = THEME_SYSTEM \/ c = THEME_LIGHT \/ c = THEME_DARK.
Lemma quiet_allowed c worker : appearance_command_allowed c worker = true -> quiet_command c.
Proof.
  unfold appearance_command_allowed, theme_mode_for_command, quiet_command. intros [H'|H']%orb_prop.
  - apply bool_decide_eq_true in H' as [mode Hm]. repeat (case_match; [lia|]). done.
  - apply andb_prop in H' as [? _]. lia.
Qed.
Lemma quiet_prepares c selected l : quiet_command c -> continuation_of c selected l = None /\ file_dialog_kind c l = None.
Proof. by intros [->|[->|[->|[->|[->| ->]]]]]. Qed.
Lemma quiet_effect c selected native s : quiet_command c -> inert s (command_effect selected native c s).2.
Proof.
  intros [->|[->|[->|[->|[->| ->]]]]]; try reflexivity.
  all: unfold command_effect; cbn -[bool_decide set_theme]; case_match; [reflexivity|]; by eexists _, _.
Qed.
Lemma ok_apply_changes d s native : ok d s -> ok d (apply_changes native s).
Proof. intros Hok. unfold apply_changes. repeat (case_match; [done|]). by apply ok_start_plan. Qed.
Lemma command_effect_edits selected native c s :
  (command_effect selected native c s).2 = apply_changes native s \/ edits s (command_effect selected native c s).2.
Proof.
  unfold command_effect.
  repeat match goal with |- context [if c =? ?k then _ else _] => destruct (c =? k); [first [by left|right; cbn; first
    [apply edits_proposal_mutation|apply edits_row_mutation|reflexivity]]|] end.
  destruct (_ && _); [right; by eexists _, _, _, _|]. destruct (_ || _ || _).
  - destruct (appearance_after_theme_command _ _); [|right; reflexivity].
    case_match; right; [reflexivity|by eexists _, _, _, _].
  - case_match; right; reflexivity.
Qed.
Lemma ok_prepare_appearance d s : ok d s -> active_prompt (locks s) = None ->
  ok (opened (dialog_of_action <$> (AppearanceAction <$> (prepare_appearance_dialog s).1)) d) (prepare_appearance_dialog s).2.
Proof.
  intros Hok Ha. unfold prepare_appearance_dialog. case_match.
  - cbn. destruct Hok; split; try done. by constructor.
  - case_match; [done|].
    exact (ok_begin_session d s (AppearanceCreating (CreateAppearance (begin_session s).1
      (following_dialog_id (next_appearance_dialog_id (showing s))) (ui_appearance (showing s)))) Hok Ha eq_refl eq_refl).
Qed.
Lemma ok_begin_unlocked d s session s' dlg : ok d s -> mutation_locked (locks s) = false ->
  begin_prepared_task_dialog s = Some (session, s') -> dialog_session dlg = [session_id session] -> confirming dlg = true ->
  match dlg with ApplyOpen _ => False | _ => True end -> ok (dlg :: d) s'.
Proof. intros Hok Hm Hb Hs Hc Hd. eapply ok_begin_task; try done; [by apply (ok_unlocked _ _ Hok)|by destruct dlg]. Qed.
Lemma ok_dispatch d s selected redraw native c :
  ok d s -> ok (opened (dialog_of_action <$> (dispatch_command key selected redraw native c s).1) d)
              (dispatch_command key selected redraw native c s).2.
Proof.
  intros Hok. unfold dispatch_command.
  destruct (active_prompt (locks s)) as [id|] eqn:Ha; cbn [present].
  { cbn. case_match; [by apply ok_request_close|done]. }
  pose proof (ok_prepare_appearance _ _ Hok Ha) as Happ.
  pose proof (fun session s' dlg => ok_begin_unlocked d s session s' dlg Hok) as Htask.
  destruct (present (appearance_dialog (showing s))).
  { destruct (prepare_appearance_dialog s). exact Happ. }
  case_match; [done|]. case_match; [done|].
  destruct (mutation_locked (locks s) && _ && _) eqn:Hlock; [done|].
  assert (Hq : mutation_locked (locks s) = false \/ quiet_command c).
  { destruct (mutation_locked (locks s)); [right|by left]. cbn in Hlock.
    apply andb_false_iff in Hlock as [Hl|Hl]; apply negb_false_iff in Hl; [|by eapply quiet_allowed].
    unfold quiet_command. apply orb_prop in Hl as [?|?]; lia. }
  clear Hlock. unfold prepare_prompt_command, prepare_file_dialog_command.
  destruct (continuation_of c selected (model s)) as [k|].
  { exact (ok_begin_session d s (PromptOpen (mkPrompt (begin_session s).1 k)) Hok Ha eq_refl eq_refl). }
  destruct (file_dialog_kind c (model s)) as [k|].
  { exact (ok_begin_session d s (FilesOpen (mkFileDialog (begin_session s).1 k)) Hok Ha eq_refl eq_refl). }
  destruct (Z.eqb_spec c DISCARD_STAGED_JOURNAL) as [->|_].
  { destruct Hq as [Hm|Hq]; [|by repeat destruct Hq as [Hq|Hq]]. unfold prepare_discard_staged_journal.
    destruct (can_discard_staged_intent s); [|done]. destruct (staged_journal (journals s)); [|done]. cbn [negb].
    destruct (begin_prepared_task_dialog s) as [[session s']|] eqn:Hb; [|done]. by eapply Htask. }
  destruct (Z.eqb_spec c EXPORT_RECOVERY_JOURNAL) as [->|_].
  { destruct Hq as [Hm|Hq]; [|by repeat destruct Hq as [Hq|Hq]]. unfold prepare_recovery_export.
    destruct (can_export_recovery_journal s); [|done]. cbn [negb].
    destruct (begin_prepared_task_dialog s) as [[session s']|] eqn:Hb; [|done]. by eapply Htask. }
  destruct (c =? APPEARANCE_ADVANCED). { destruct (prepare_appearance_dialog s). exact Happ. }
  destruct (Z.eqb_spec c PREVIEW_DETAILS) as [->|_].
  { destruct Hq as [Hm|Hq]; [|by repeat destruct Hq as [Hq|Hq]].
    destruct (preview_details_available _ s); [|done]. cbn [negb]. destruct (items (model s) !! _); [|done].
    destruct (begin_prepared_task_dialog s) as [[session s']|] eqn:Hb; [|done]. by eapply Htask. }
  assert (Heff : ok d (command_effect selected native c s).2).
  { destruct Hq as [Hm|Hq]; [|by eapply ok_inert, quiet_effect].
    destruct (command_effect_edits selected native c s) as [->|Hed]; [by apply ok_apply_changes|].
    by eapply ok_edits, Hed; [|apply (ok_unlocked _ _ Hok)]. }
  destruct (command_effect selected native c s) as [[e|] s']; [by apply ok_outcome|done].
Qed.

(** *** The whole window *)

Lemma plan_body_planned l revision before answers (k : K) after (b : B) r ready b' :
  plan_worker_body revision (build_plan_request l revision) before answers k after b = (PlanFinished r (Ok ready), b') ->
  r = revision /\ planned l revision (ready_plan ready).
Proof.
  unfold plan_worker_body. destruct before; [done|].
  destruct (plan_cancellable _ _ _) as [plan|[]] eqn:Hp; [|done|done].
  destruct (run handle _ _) as [[requirements|e] w].
  - destruct after; [done|]. case_match; [|done]. intros [= <- <- _]. split; [done|]. by exists b, answers.
  - case_match. case_match; done.
Qed.
Lemma ok_plan_thread d s x e :
  ok d s -> plan_worker (workers s) = Some x ->
  (forall r ready, e = Published (PlanFinished r (Ok ready)) -> r = model_revision s /\
     planned (model s) (model_revision s) (ready_plan ready)) ->
  ok d (set_plan_worker (Some (ended e x)) s).
Proof.
  intros Hok Hx He. apply ok_threads; [done|cbn; unfold worker_count; by rewrite Hx|done| |apply Hok].
  cbn. intros x' [= <-]. split; [apply (ok_plan _ _ Hok _ Hx)|]. cbn. intros r ready [= ->]. by apply He.
Qed.
Lemma ok_apply_thread d s x e :
  ok d s -> apply_worker (workers s) = Some x ->
  (forall journal execution, e = Published (Executed journal execution) -> exists fresh system (k : K) (b b' : B),
     apply_worker_body (journal_root s) fresh system (task (apply_thread x)) k b = (Executed journal execution, b')) ->
  ok d (set_apply_worker (Some (mkApplyWorker (ended e (apply_thread x)) (is_finishing x))) s).
Proof.
  intros Hok Hx He. apply ok_threads; [done|cbn; unfold worker_count; by rewrite Hx|done|apply Hok|].
  cbn. intros x' [= <-]. split; [apply (ok_apply _ _ Hok _ Hx)|]. cbn. intros j execution [= ->]. by apply He.
Qed.
End invariant.
#[export] Hint Resolve ok_finish ok_request_close ok_worker_cancel : window.

Section window.
Context {B K : Type} `{RenameBackend B, ExecutionControl K}.
Variable compare_windows : LegacyText -> LegacyText -> comparison.
Notation window_ok w := (ok (B:=B) (K:=K) (dialogs w) (app w)).

Lemma ok_after_dialog native redraw dlg r rest (w w' : Window (B:=B)) :
  ok (B:=B) (K:=K) (dlg :: rest) (app w) -> after_dialog compare_windows native redraw dlg r rest w = Some w' -> window_ok w'.
Proof.
  intros Hok. destruct dlg, r; cbn; intros Hw; try done; try (injection Hw as <-; cbn).
  - by apply ok_prompt.
  - by apply ok_files.
  - by apply ok_discard_dialog.
  - by apply ok_export_dialog.
  - by apply ok_details_dialog.
  - by apply ok_apply_dialog.
  - by apply ok_directory_dialog.
  - pose proof (ok_appearance_action _ _ _ success Hok) as Ha.
    destruct (run_prepared_appearance_action a success (app w)). injection Hw as <-. exact Ha.
  - by apply ok_arming.
  - assert (Hok' : ok (B:=B) (K:=K) rest (close_startup_recovery answer (files w) (app w)).1);
      [|destruct (close_startup_recovery _ _ _); by injection Hw as <-].
    clear Hw. unfold close_startup_recovery.
    destruct (ok_top_confirming _ _ _ Hok eq_refl) as (Hp & Hm & Hw & Hn).
    assert (ok (B:=B) (K:=K) rest (set_confirmation_pending false (set_mutation_locked false (app w)))) as Hok'.
    { destruct Hok; split; cbn; try done; try (by rewrite Hw). by inversion ok_dialogs0. }
    destruct (close_pending _); [done|]. destruct answer as [answer|]; [|done].
    destruct (destructive_prompt_choice _ _); [|done]. case_match; [done|].
    exact (ok_recover _ _ (files w) Hok' (conj Hw eq_refl)).
Qed.
Lemma ok_live_step (w : Window (B:=B)) (e : Event (B:=B) (K:=K)) : window_ok w -> window_ok (live_step compare_windows w e).
Proof.
  intros Hok. destruct e; cbn [live_step].
  - unfold command. pose proof (ok_dispatch (path_key (files w)) _ _ selected redraw native c Hok) as Hd.
    destruct (dispatch_command _ _ _ _ _ _) as [a s']. by destruct a.
  - cbn. by apply ok_worker_cancel.
  - cbn. apply ok_request_close. eapply ok_inert, inert_cancel_appearance. done.
  - done.
  - cbn. unfold drop_paths, drop_locked. case_match eqn:Hl; [done|]. apply orb_false_elim in Hl as [Hl _].
    apply ok_admit_paths; [done|]. by apply apply_unlocked.
  - destruct (plan_worker (workers (app w))) as [x|] eqn:Hx; [|done]. cbn [end_thread]. cbn.
    destruct (thread_end x); [done|]. destruct (plan_thread_run _ _ _ _ _ _) as [e' b] eqn:Hr. cbn.
    apply ok_plan_thread; try done. intros r ready ->. pose proof (ok_plan _ _ Hok _ Hx) as [Ht _]. rewrite Ht in Hr.
    unfold plan_thread_run in Hr. destruct (plan_worker_body _ _ _ _ _ _ _) as [res b0] eqn:Hb. injection Hr as -> ->.
    by eapply plan_body_planned.
  - destruct (plan_worker (workers (app w))) as [x|] eqn:Hx; [|done]. cbn.
    destruct (thread_end x); [done|]. cbn. apply ok_plan_thread; try done. by destruct caught.
  - cbn. apply ok_threads; further; try apply Hok. intros x.
    destruct (apply_worker (workers (app w))) as [y|] eqn:Hy; [|done]. intros [= <-]. apply (ok_apply _ _ Hok _ Hy).
  - destruct (apply_worker (workers (app w))) as [x|] eqn:Hx; [|done]. cbn.
    destruct (thread_end (apply_thread x)); [done|]. destruct (apply_thread_run _ _ _ _ _ _) as [e' b] eqn:Hr. cbn.
    apply ok_apply_thread; try done. intros j execution ->. unfold apply_thread_run in Hr.
    destruct (apply_worker_body _ _ _ _ _ _) as [res b0] eqn:Hb. injection Hr as -> ->. by eexists _, _, _, _, _.
  - destruct (apply_worker (workers (app w))) as [x|] eqn:Hx; [|done]. cbn.
    destruct (thread_end (apply_thread x)); [done|]. cbn. apply ok_apply_thread; try done. by destruct caught.
  - destruct (admission_worker (workers (app w))) as [x|] eqn:Hx; [|done]. cbn.
    destruct (thread_end x); [done|]. cbn. apply ok_threads; try apply Hok; further. by rewrite Hx.
  - destruct (import_worker (workers (app w))) as [x|] eqn:Hx; [|done]. cbn.
    destruct (thread_end x); [done|]. cbn. apply ok_threads; try apply Hok; further; by rewrite Hx.
  - pose proof (ok_plan_completion _ _ Hok) as Hp. destruct (handle_plan_completion _) as [a s']. by destruct a.
  - cbn. by apply ok_apply_completion.
  - pose proof (ok_admission_completion _ _ (path_key (files w)) compare_windows redraw Hok) as Hp.
    destruct (handle_admission_completion _ _ _ _) as [a s']. by destruct a.
  - cbn. by apply ok_import_completion.
  - destruct (dialogs w) as [|dlg rest] eqn:Hd; [by rewrite Hd|].
    destruct (after_dialog _ _ _ _ _ _ _) as [w'|] eqn:Ha; cbn; [by eapply ok_after_dialog|by rewrite Hd].
  - cbn. eapply ok_inert; [done|]. unfold handle_appearance_preview. repeat case_match; solve [reflexivity|by eexists _, _].
  - cbn. eapply ok_inert; [done|]. unfold finish_appearance_dialog. repeat case_match; solve [reflexivity|by eexists _, _].
  - cbn. unfold icon_worker_joined. case_match; [|done].
    case_match; eapply ok_inert; try done; [|by eexists _, _]. etransitivity; [|apply inert_finish]. by eexists _, _.
  - cbn. unfold settings_writers_ended. case_match; [|done]. eapply ok_inert; [done|].
    etransitivity; [|apply inert_finish]. by eexists _, _.
  - done.
Qed.
Lemma ok_steps (events : list (Event (B:=B) (K:=K))) : forall (w : Window (B:=B)),
  window_ok w -> window_ok (steps compare_windows w events).
Proof.
  induction events as [|e events IH]; intros w Hok; [done|]. apply IH. unfold step. case_match; [done|]. by apply ok_live_step.
Qed.
End window.
