(* ===== verification/WorkflowGuarantees.v ===== *)
(** * WorkflowGuarantees: what the window guarantees to the user's files

    One thing runs at a time; an apply runs only the plan of the rows as they are,
    after the user confirmed it; nothing else moves files; a list that is unlocked
    again stands for a settled disk; and a window closes only when nothing runs. *)

From S2P Require Import Prelude Collections LegacyText ListItem WorkList Transforms AppendIndex.
From S2P Require Import RenameModel Journal Effects Executor MemoryBackend Reading Schedule ExecutorSafety Transaction.
From S2P Require Import Planner FileJournal FileJournalCorrect FileJournalGuarantees DurableExecution Startup Recovery Admission Activation.
From S2P Require Import Preview Preferences CommandCatalog Appearance Presentation AppState Workers RecoveryUi Dispatch.
From S2P Require Import Workflow WorkflowCorrect.
#[local] Open Scope Z_scope.

(** ** Executing on a journal file

    A run on a journal file is the run on the file with its log. *)

Lemma match_pair {X Y Z} (m : X * Y) (f : X -> Y -> Z) : (let '(x, y) := m in f x y) = f m.1 m.2.
Proof. by destruct m. Qed.

Section forget.
Context {B K : Type} `{RenameBackend B, ExecutionControl K}.

Definition forget (w : World B DurableJournal K) : World B FileJournal K :=
  mkWorld (backend w) (durable_file (Executor.journal w)) (control w).
Lemma forget_handle X (e : effect X) (w : World B DurableJournal K) :
  handle X e (forget w) = ((handle X e w).1, forget (handle X e w).2).
Proof.
  destruct w as [b [j records Hj] k].
  destruct e; cbn -[file_begin active_append]; unfold on_control, on_backend, on_journal; cbn -[file_begin active_append]; try done;
    first [by match goal with |- context [let '(_, _) := ?m in _] => destruct m end
          |etransitivity; [apply match_pair|reflexivity]].
Qed.
Lemma forget_run {A} (p : prog effect A) : forall w : World B DurableJournal K,
  run handle p (forget w) = ((run handle p w).1, forget (run handle p w).2).
Proof.
  induction p as [a|X e k IH]; intros w; [done|]. cbn [run]. rewrite forget_handle.
  destruct (handle X e w) as [x w']. cbn. apply IH.
Qed.
End forget.

(** An execution is settled when it moved every entry of a schedule of its plan, or
    nothing. *)
Definition settled {B} `{RenameBackendLaws B} (K : Type) `{ExecutionControl K} (plan : RenamePlan) (b b' : B) : Prop :=
  (forall k, occupant b' k = occupant b k) \/
  exists steps, scheduled (B:=B) (J:=DurableJournal) (K:=K) (path_key b) (occupant b) plan steps /\
    moves (path_key b) (occupant b) steps (occupant b').

Section bodies.
Context {B K : Type} `{HB : RenameBackend B, !RenameBackendLaws B, HK : ExecutionControl K}.

Lemma apply_body_settles root fresh system plan (k : K) (b b' : B) journal execution :
  apply_worker_body root fresh system plan k b = (Executed journal execution, b') ->
  match execution with
  | Err _ => forall k, occupant b' k = occupant b k
  | Ok report =>
      match report_outcome report with
      | OutcomeCompleted | OutcomeRolledBack _ => settled K plan b b'
      | OutcomeRecoveryRequired _ _ => True
      end
  end.
Proof.
  unfold apply_worker_body. destruct (create_candidate _ _ _ _ _) as [j|e] eqn:Hcreate; [|done].
  assert (logged j []) as Hj.
  { unfold create_candidate in Hcreate.
    destruct (child root CANDIDATE_JOURNAL_LEAF) as [c|]; [|done]. destruct (child root ACTIVE_JOURNAL_LEAF) as [a|]; [|done].
    cbn in Hcreate. destruct (bool_decide (c = a)); [done|]. by apply create_at_logged in Hcreate as (? & _). }
  change (mkWorld b j k) with (forget (mkWorld b (mkDurable j [] Hj) k)).
  set (w := mkWorld b (mkDurable j [] Hj) k). assert (journal_records (Executor.journal w) = []) as Hw by done.
  rewrite forget_run. destruct (run handle _ w) as [r w'] eqn:Hr. cbn. intros [= _ <- <-].
  pose proof (execute_safe _ _ plan w (untouched_start w Hw)) as Hs.
  apply (safe_run _ _ _ _ _ _ _ Hs) in Hr as [Hpost _]. destruct r as [report|e].
  - destruct Hpost as (steps & Hsched & Hout & _). unfold outcome_ok in Hout. destruct (report_outcome report) as [|f|f fs]; [| |done].
    + destruct Hout as [[_ Hm] _]. rewrite take_ge in Hm by done. right. by exists steps.
    + destruct Hout as [[_ Hm] _]. left. intros q. symmetry. apply Hm.
  - destruct Hpost as (_ & _ & Hv). intros q. symmetry. apply Hv.
Qed.
Lemma preflight_quiet plan : quiet (preflight_plan_cancellable plan).
Proof. unfold preflight_plan_cancellable, check_capacity. quiet_walk. Qed.
Lemma plan_body_moves_nothing revision request before answers (k : K) after (b : B) :
  forall q, occupant (plan_worker_body revision request before answers k after b).2 q = occupant b q.
Proof.
  unfold plan_worker_body. destruct before; [done|]. destruct (plan_cancellable _ _ _) as [plan|[]]; [|done|done].
  set (w := mkWorld b (memory_journal_new 0) k). assert (journal_records (Executor.journal w) = []) as Hw by done.
  pose proof (quiet_safe (path_key b) (occupant b) _ w (preflight_quiet plan) (untouched_start w Hw)) as Hs.
  destruct (run handle _ w) as [r w'] eqn:Hr. apply (safe_run _ _ _ _ _ _ _ Hs) in Hr as [(_ & _ & Hv) _].
  intros q. destruct r as [requirements|[entry []]]; cbn; symmetry; apply Hv.
Qed.
End bodies.

(** ** Who starts an apply *)

Definition calm (s s' : AppState) : Prop := apply_worker (workers s) = None -> apply_worker (workers s') = None.
#[export] Instance calm_preorder : PreOrder calm.
Proof. split; [by intros s ?|]. intros s1 s2 s3 H1 H2 H'. auto. Qed.
#[export] Instance edits_calm : subrelation edits calm.
Proof. intros s s' (r & rev & v & x & ->) Hn. exact Hn. Qed.
#[export] Instance inert_calm : subrelation inert calm.
Proof. intros s s' (v & x & ->) Hn. exact Hn. Qed.

Lemma calm_same s s' : workers s' = workers s -> calm s s'.
Proof. by intros E; unfold calm; rewrite E. Qed.
Lemma calm_cancel_apply s : calm s (cancel_apply s).
Proof. unfold calm, cancel_apply. cbn. by intros ->. Qed.
Lemma calm_begin_task s session s' : begin_prepared_task_dialog s = Some (session, s') -> calm s s'.
Proof. unfold begin_prepared_task_dialog, begin_session. case_match; [done|]. intros [= _ <-] Hn; exact Hn. Qed.
Lemma calm_take session policy s disposition s' : take_prepared_task_dialog session policy s = (disposition, s') -> calm s s'.
Proof. unfold take_prepared_task_dialog. case_match; intros [= _ <-] Hn; exact Hn. Qed.

Create HintDb calm.
#[export] Hint Resolve calm_cancel_apply : calm.
(** An assignment that leaves the applying worker, or removes it. *)
#[export] Hint Extern 3 (calm ?s (_ ?s)) => solve [let Hn := fresh in intros Hn; first [exact Hn|reflexivity]] : calm.
(** Peels one assignment at a time off the state reached. *)
Ltac calm_walk :=
  repeat first
    [ reflexivity
    | progress cbn [fst snd]
    | match goal with
      | H : begin_prepared_task_dialog ?s = Some (_, ?s') |- calm _ ?s' => transitivity s; [|exact (calm_begin_task _ _ _ H)]
      | H : take_prepared_task_dialog _ _ ?s = (_, ?s') |- calm _ ?s' => transitivity s; [|exact (calm_take _ _ _ _ _ H)]
      | H : match ?x with _ => _ end = (_, ?s') |- calm _ ?s' => destruct x eqn:?; simplify_eq; cbn [fst snd] in *
      | |- calm _ (match ?x with _ => _ end) => destruct x eqn:?; simplify_eq; cbn [fst snd] in *
      | |- calm _ (match ?x with _ => _ end).2 => destruct x eqn:?; simplify_eq; cbn [fst snd] in *
      | |- calm _ (match ?x with _ => _ end).1 => destruct x eqn:?; simplify_eq; cbn [fst snd] in *
      | |- calm _ (?f ?x) => transitivity x; [|solve [auto 2 with calm]]
      | |- calm _ (?f ?x).2 => transitivity x; [|solve [auto 2 with calm]]
      | |- calm _ (?f ?x).1 => transitivity x; [|solve [auto 2 with calm]]
      end ].

Lemma calm_finish s : calm s (try_finish_window_close s).2.
Proof. apply inert_calm, inert_finish. Qed.
#[export] Hint Resolve calm_finish : calm.
Lemma calm_all key redraw s : calm s (refresh_all_rows key redraw s).
Proof. apply inert_calm, inert_all. Qed.
#[export] Hint Resolve calm_all : calm.

Lemma calm_begin_close s : calm s (begin_close s).
Proof. unfold begin_close. calm_walk. Qed.
#[export] Hint Resolve calm_begin_close : calm.
Lemma calm_close s : calm s (request_window_close s).
Proof.
  unfold request_window_close, cancel_admission, cancel_import, cancel_plan. transitivity (begin_close s); [apply calm_begin_close|].
  set (s' := begin_close s). clearbody s'. calm_walk.
Qed.
Lemma calm_worker_cancel s : calm s (request_active_worker_cancel s).
Proof. unfold request_active_worker_cancel, cancel_admission, cancel_import, cancel_plan. calm_walk. Qed.
#[export] Hint Resolve calm_close calm_worker_cancel : calm.
Lemma calm_outcome key redraw e s : calm s (apply_command_outcome key redraw e s).
Proof. destruct e; cbn; try reflexivity; [..|apply calm_close]; apply inert_calm; eauto with window. Qed.
#[export] Hint Resolve calm_outcome : calm.
Lemma calm_start_admission native paths mode capacity s : calm s (start_admission_worker native paths mode capacity s).2.
Proof. unfold start_admission_worker. case_match; cbn [fst snd]; calm_walk. Qed.
Lemma calm_admit native paths s : calm s (admit_paths native paths s).2.
Proof. apply calm_start_admission. Qed.
#[export] Hint Resolve calm_start_admission calm_admit : calm.
Lemma calm_start_plan native revision request s : calm s (start_plan_worker native revision request s).
Proof. unfold start_plan_worker. calm_walk. Qed.
Lemma calm_keep_locked j s : calm s (keep_locked j s).
Proof. by intros Hn. Qed.
Lemma calm_retain_or_clean j s : calm s (retain_or_clean j s).
Proof. by intros Hn. Qed.
#[export] Hint Resolve calm_start_plan calm_keep_locked calm_retain_or_clean : calm.

Lemma calm_plan_completion s : calm s (handle_plan_completion s).2.
Proof. unfold handle_plan_completion, handle_ready_plan. calm_walk. Qed.
Lemma calm_apply_completion key redraw s : calm s (handle_apply_completion key redraw s).
Proof. intros Hn. unfold handle_apply_completion. rewrite Hn. exact Hn. Qed.
Lemma calm_admission_completion key compare redraw s : calm s (handle_admission_completion key compare redraw s).2.
Proof. unfold handle_admission_completion. calm_walk. Qed.

Section handlers.
Variables (key : LegacyText -> list Z) (compare : LegacyText -> LegacyText -> comparison).

Lemma calm_file_session session completion finish s :
  (forall s, calm s (finish s)) -> calm s (finish_file_dialog_session session completion finish s).2.
Proof.
  intros Hf. unfold finish_file_dialog_session. destruct (take_file_dialog_session _ _ _ _ _ _) as [disposition active].
  assert (Hclose : forall s', calm s s' -> calm s (if close_pending (locks s') then (try_finish_window_close s').2 else s')).
  { intros s' Hs. transitivity s'; [done|]. calm_walk. }
  destruct disposition; apply Hclose; [|calm_walk..]. transitivity (set_active_prompt active s); [calm_walk|apply Hf].
Qed.
Lemma calm_import redraw native id revision kind cancelled r s :
  calm s (finish_import_worker_result key redraw native id revision kind cancelled r s).
Proof.
  unfold finish_import_worker_result. destruct (take_file_dialog_session _ _ _ _ _ _) as [disposition active].
  transitivity (set_active_prompt active s); [by intros Hn|]. set (s' := set_active_prompt active s). clearbody s'.
  destruct disposition; try reflexivity. destruct r as [imported|]; [|reflexivity].
  destruct kind; [|apply calm_admit].
  pose proof (edits_on_model (import_names_changed imported) s') as Hed.
  destruct (on_model _ s') as [[changed|] s1]; [|by apply edits_calm].
  pose proof (edits_proposal_outcome changed s1) as Hed'. destruct (proposal_outcome changed s1) as [e s2].
  transitivity s2; [|apply calm_outcome]. apply edits_calm. by transitivity s1.
Qed.
Lemma calm_import_completion redraw native s : calm s (handle_import_completion key redraw native s).
Proof.
  unfold handle_import_completion. case_match; [|reflexivity]. case_match; [|reflexivity].
  etransitivity; [|apply calm_finish]. etransitivity; [|apply calm_import]. by intros Hn.
Qed.
Lemma calm_prepare_appearance s : calm s (prepare_appearance_dialog s).2.
Proof. unfold prepare_appearance_dialog, begin_session. calm_walk. Qed.
Lemma calm_dispatch selected redraw native c s : calm s (dispatch_command key selected redraw native c s).2.
Proof.
  unfold dispatch_command. pose proof (calm_prepare_appearance s) as Happ.
  destruct (present (active_prompt (locks s))); [calm_walk|].
  destruct (present (appearance_dialog (showing s))); [destruct (prepare_appearance_dialog s); exact Happ|].
  destruct (present (language_for_command c)); [reflexivity|]. destruct (read_only_locked s && _); [reflexivity|].
  destruct (mutation_locked (locks s) && _ && _); [reflexivity|].
  unfold prepare_prompt_command, prepare_file_dialog_command, begin_session.
  destruct (continuation_of c selected (model s)); [calm_walk|]. destruct (file_dialog_kind c (model s)); [calm_walk|].
  destruct (c =? DISCARD_STAGED_JOURNAL); [unfold prepare_discard_staged_journal; calm_walk|].
  destruct (c =? EXPORT_RECOVERY_JOURNAL); [unfold prepare_recovery_export; calm_walk|].
  destruct (c =? APPEARANCE_ADVANCED); [destruct (prepare_appearance_dialog s); exact Happ|].
  destruct (c =? PREVIEW_DETAILS); [calm_walk|].
  assert (calm s (command_effect selected native c s).2) as He.
  { destruct (command_effect_edits selected native c s) as [->|He]; [|by apply edits_calm].
    unfold apply_changes. calm_walk. }
  destruct (command_effect selected native c s) as [[e|] s']; [|done]. cbn in *. transitivity s'; [done|apply calm_outcome].
Qed.
Lemma calm_prompt redraw p r s : calm s (run_prepared_prompt key compare redraw p r s).
Proof.
  unfold run_prepared_prompt. case_match; [reflexivity|]. destruct r as [r|]; [|calm_walk]. case_match; [calm_walk|].
  pose proof (edits_finish_prompt compare (continuation p) r (set_active_prompt None s)) as Hed.
  destruct (finish_prompt_command _ _ _ _) as [e s']. transitivity s'; [|apply calm_outcome].
  apply edits_calm in Hed. by intros Hn; apply Hed.
Qed.
Lemma calm_files redraw native valid_parent dlg selection s :
  calm s (run_prepared_file_dialog key redraw native valid_parent dlg selection s).
Proof.
  unfold run_prepared_file_dialog.
  assert (Himport : forall kind, calm s (start_selected_import native (file_session dlg) kind s)).
  { intros kind. unfold start_selected_import, start_import_worker. calm_walk. }
  destruct selection; try apply Himport; try (apply calm_file_session; intros s'; first [reflexivity|apply calm_admit]).
  case_match; apply calm_file_session; intros s'; [reflexivity|].
  match goal with |- context [row_mutation ?m ?c ?e s'] =>
    pose proof (edits_row_mutation m c e s') as Hed; destruct (row_mutation m c e s') as [eff s''] end.
  transitivity s''; [by apply edits_calm|apply calm_outcome].
Qed.
Lemma calm_discard dlg answer fresh active_system candidate_system s :
  calm s (run_prepared_discard_task_dialog dlg answer fresh active_system candidate_system s).
Proof. unfold run_prepared_discard_task_dialog, rediscover_after_staged_discard. calm_walk. Qed.
Lemma calm_export dlg system s : calm s (run_prepared_recovery_export dlg system s).2.
Proof. unfold run_prepared_recovery_export, perform_recovery_export. calm_walk. Qed.
End handlers.

(** ** Starting *)

Lemma runtime_locks root fresh active_system candidate_system :
  let r := start_runtime root fresh active_system candidate_system in
  kept (mkJournals (Startup.active_journal r) (Startup.staged_journal r) (Startup.blocked_journals r)
          (Startup.collision_observed r)) = true -> Startup.recovery_locked r = true.
Proof.
  cbv zeta. unfold start_runtime. destruct (open_outcome RoleActive _) as [active ab].
  destruct (open_outcome RoleCandidate _) as [staged sb]. case_match; [done|].
  assert (Hb : forall (o : option FileJournal), kept (mkJournals None o (ab ++ sb) false) = true ->
    bool_decide (is_Some o) || negb (bool_decide (length (ab ++ sb) = 0%nat)) = true).
  { intros [j|]; [by rewrite bool_decide_true by eauto|]. unfold kept. cbn. by destruct (ab ++ sb). }
  destruct staged as [j|]; [destruct (is_physically_empty_candidate j); [destruct (mark_delete_if_safe j) as [[|] j']|]|];
    destruct active; cbn -[kept]; first [done|apply Hb].
Qed.

Section window.
Context {B K : Type} `{HB : RenameBackend B, HK : ExecutionControl K}.
Variable compare_windows : LegacyText -> LegacyText -> comparison.

(** A window reached from a start. *)
Inductive reachable : Window (B:=B) -> Prop :=
| reach root fresh active_system candidate_system columns a l h icons writers b (events : list (Event (B:=B) (K:=K))) :
    reachable (steps compare_windows
      (first_window (start_runtime root fresh active_system candidate_system) columns a l h icons writers b) events).

Lemma reachable_ok w : reachable w -> ok (B:=B) (K:=K) (dialogs w) (app w).
Proof.
  intros []. apply ok_steps. unfold first_window, open_startup_recovery.
  assert (Hok : ok (B:=B) (K:=K) []
    (first_state (start_runtime root fresh active_system candidate_system) columns a l h icons writers)).
  { split; cbn; try done; try lia. apply runtime_locks. }
  destruct (can_confirm_active_recovery _); cbn; [|done].
  destruct Hok; split; cbn in *; try done. by constructor.
Qed.
Lemma reachable_step w (e : Event (B:=B) (K:=K)) : reachable w -> reachable (step compare_windows w e).
Proof.
  intros [root fresh active_system candidate_system columns a l h icons writers b events].
  change (reachable (steps compare_windows (steps compare_windows
    (first_window (start_runtime root fresh active_system candidate_system) columns a l h icons writers b) events) [e])).
  unfold steps at 1 2. rewrite <-foldl_app. constructor.
Qed.

(** Closing a dialog other than the one that asks about a plan starts no apply. *)
Lemma calm_after_dialog native redraw dlg r rest (w w' : Window (B:=B)) :
  after_dialog compare_windows native redraw dlg r rest w = Some w' -> (forall d, dlg <> ApplyOpen d) -> calm (app w) (app w').
Proof.
  intros Ha Hd. destruct dlg, r; cbn in Ha; try done; try (injection Ha as <-; cbn).
  - apply calm_prompt.
  - apply calm_files.
  - apply calm_discard.
  - apply calm_export.
  - unfold run_prepared_preview_details. calm_walk.
  - by destruct (Hd d).
  - unfold run_prepared_directory_task_dialog. calm_walk.
  - destruct (run_prepared_appearance_action a success (app w)) as [arming s'] eqn:E. injection Ha as <-. cbn.
    change s' with (arming, s').2. rewrite <-E. unfold run_prepared_appearance_action. calm_walk.
  - unfold guard_appearance_dialog. calm_walk.
  - destruct (close_startup_recovery answer (files w) (app w)) as [s' b'] eqn:E. injection Ha as <-. cbn.
    change s' with (s', b').1. rewrite <-E. unfold close_startup_recovery, recover_confirmed_active_journal. calm_walk.
Qed.
Lemma calm_step (w : Window (B:=B)) (e : Event (B:=B) (K:=K)) :
  (forall native redraw r d rest, e = DialogReturns native redraw r -> dialogs w <> ApplyOpen d :: rest) ->
  calm (app w) (app (live_step compare_windows w e)).
Proof.
  intros He. destruct e; cbn [live_step].
  - unfold command. pose proof (calm_dispatch (path_key (files w)) selected redraw native c (app w)) as Hd.
    by destruct (dispatch_command _ _ _ _ _ _).
  - apply calm_worker_cancel.
  - unfold close_window. cbn. transitivity (cancel_appearance_dialog (app w)); [|apply calm_close].
    apply inert_calm, inert_cancel_appearance.
  - reflexivity.
  - cbn. unfold drop_paths. calm_walk.
  - destruct (end_thread _ _) as [[x b]|]; [by intros Hn|reflexivity].
  - destruct (end_thread _ _) as [[x b]|]; [by intros Hn|reflexivity].
  - cbn. intros Hn. cbn. by rewrite Hn.
  - intros Hn. by rewrite Hn.
  - intros Hn. by rewrite Hn.
  - destruct (end_thread _ _) as [[x b]|]; [by intros Hn|reflexivity].
  - destruct (end_thread _ _) as [[x b]|]; [by intros Hn|reflexivity].
  - pose proof (calm_plan_completion (app w)) as Hp. by destruct (handle_plan_completion _).
  - apply calm_apply_completion.
  - pose proof (calm_admission_completion (path_key (files w)) compare_windows redraw (app w)) as Hp.
    by destruct (handle_admission_completion _ _ _ _).
  - apply calm_import_completion.
  - destruct (dialogs w) as [|dlg rest] eqn:Hd; [reflexivity|].
    destruct (after_dialog _ _ _ _ _ _ _) as [w'|] eqn:Ha; [|reflexivity]. cbn.
    eapply calm_after_dialog; [done|]. intros d ->. by eapply He.
  - cbn. unfold handle_appearance_preview. calm_walk.
  - cbn. unfold finish_appearance_dialog. calm_walk.
  - cbn. unfold icon_worker_joined. calm_walk.
  - cbn. unfold settings_writers_ended. calm_walk.
  - reflexivity.
Qed.

(** ** Properties *)

(** C8: The window does one thing at a time.  In every window reached from a start,
    at most one worker exists, and while one does the list is locked, no recovery is
    pending and no confirmation is open; an open confirmation locks the list; a
    journal kept from an earlier run locks everything until it is recovered or
    discarded; the session that is open belongs to exactly one dialog or to the
    import worker; and the number of confirmations open is one or none, as the state
    says. *)
Theorem window_invariant w : reachable w ->
  (worker_count (workers (app w)) <= 1)%nat /\
  (worker_active (app w) = true -> mutation_locked (locks (app w)) = true /\ recovery_locked (locks (app w)) = false
     /\ confirmation_pending (locks (app w)) = false) /\
  (confirmation_pending (locks (app w)) = true -> mutation_locked (locks (app w)) = true) /\
  (kept (journals (app w)) = true -> recovery_locked (locks (app w)) = true) /\
  sessions (dialogs w) (workers (app w)) = match active_prompt (locks (app w)) with Some id => [id] | None => [] end /\
  confirmations (dialogs w) = Nat.b2n (confirmation_pending (locks (app w))).
Proof.
  intros Hw. pose proof (reachable_ok _ Hw) as []. split; [done|]. split; [|done].
  rewrite worker_active_count. intros Hn. apply ok_working. destruct (worker_count (workers (app w))) as [|[|]]; [done..|lia].
Qed.

(** C7: An apply needs the user's confirmation.  Whatever happens to a reachable
    window, an applying worker comes into being only when the user presses the
    confirming button of a dialog about a plan; the worker executes that plan, which
    the planner returned for the rows as they are now; and no journal is kept, no
    recovery is pending and no close was requested. *)
Theorem apply_needs_confirmation w (e : Event (B:=B) (K:=K)) x : reachable w ->
  apply_worker (workers (app w)) = None -> apply_worker (workers (app (step compare_windows w e))) = Some x ->
  exists native redraw d rest,
    e = DialogReturns native redraw (ApplyReply (Some APPLY_CONFIRM_BUTTON_ID) true) /\ dialogs w = ApplyOpen d :: rest /\
    task (apply_thread x) = apply_plan d /\
    planned (B:=B) (model (app w)) (model_revision (app w)) (apply_plan d) /\
    recovery_locked (locks (app w)) = false /\ kept (journals (app w)) = false /\ close_pending (locks (app w)) = false.
Proof.
  intros Hw Hn Hx. pose proof (reachable_ok _ Hw) as Hok. unfold step in Hx. destruct (destroyed w); [congruence|].
  assert (Hcalm : calm (app w) (app (live_step compare_windows w e)) -> False) by (intros Hc; rewrite (Hc Hn) in Hx; done).
  assert (exists native redraw r d rest, e = DialogReturns native redraw r /\ dialogs w = ApplyOpen d :: rest)
    as (native & redraw & r & d & rest & -> & Hd).
  { destruct e; try (destruct Hcalm; apply calm_step; congruence).
    destruct (dialogs w) as [|[] rest] eqn:Hd; try (destruct Hcalm; apply calm_step; congruence). by eexists _, _, _, _, _. }
  cbn in Hx. rewrite Hd in *. destruct r; cbn in Hx; try congruence.
  destruct (ok_top_confirming _ _ _ Hok eq_refl) as (Hp & _). pose proof (ok_dialogs _ _ Hok) as Hpl.
  apply Forall_cons in Hpl as [Hpl _]. unfold run_prepared_apply_task_dialog in Hx.
  destruct (take_prepared_task_dialog _ _ _) as [disposition s'] eqn:Ht.
  pose proof (calm_take _ _ _ _ _ Ht Hn) as Hn'.
  apply (ok_take (B:=B) (K:=K) rest _ (ApplyOpen d)) in Ht as (Hok' & _ & _ & _ & Hj & _ & Hr & _ & Hacc); try done.
  destruct disposition; try congruence; [|by rewrite (calm_finish _ Hn') in Hx].
  destruct answer as [answer|]; [|congruence]. destruct (destructive_prompt_choice _ _) eqn:Hc; [|congruence].
  destruct (negb (preview_is_ready_for_apply s')); [congruence|]. destruct (apply_locked s') eqn:Hl; [congruence|].
  destruct (_ || _); [congruence|]. destruct (confirm_presented _ _ _) as [confirmed|] eqn:Hconf; [|congruence].
  unfold start_apply_worker in Hx. destruct root_cloned; cbn in Hx; [|congruence]. destruct (starts native); [|congruence].
  cbn in Hx. injection Hx as <-. cbn. unfold confirm_presented in Hconf. repeat (case_match; [done|]). injection Hconf as <-.
  unfold destructive_prompt_choice in Hc. destruct (Z.eqb_spec answer APPLY_CONFIRM_BUTTON_ID) as [->|]; [|done].
  destruct (apply_unlocked _ Hl) as [[_ Hr'] _]. destruct (Hacc eq_refl) as (Hcl & _ & _).
  eexists _, _, _, _. split; [done|]. split; [done|]. split; [done|]. split; [done|].
  rewrite <-Hr. split; [done|]. split; [|done].
  destruct (kept (journals (app w))) eqn:Hk; [|done]. pose proof (ok_kept _ _ Hok Hk). congruence.
Qed.
End window.

Section files.
Context {B K : Type} `{HB : RenameBackend B, !RenameBackendLaws B, HK : ExecutionControl K}.
Variable compare_windows : LegacyText -> LegacyText -> comparison.

(** A returning dialog touches the files only when it is the confirmed recovery. *)
Lemma dialog_files native redraw dlg r rest (w w' : Window (B:=B)) :
  after_dialog compare_windows native redraw dlg r rest w = Some w' ->
  files w' = files w \/
  dlg = RecoveryOpen /\ r = ButtonReply (Some RECOVER_CONFIRM_BUTTON_ID) /\
  recovery_locked (locks (app w)) = true /\ is_Some (active_journal (journals (app w))).
Proof.
  intros Ha. destruct dlg, r; cbn in Ha; try done; try (left; by injection Ha as <-).
  - left. destruct (run_prepared_appearance_action _ _ _) as [arming s']. cbn in Ha. by inversion Ha.
  - destruct (close_startup_recovery _ _ _) as [s' b'] eqn:Hc. injection Ha as <-. cbn. unfold close_startup_recovery in Hc.
    destruct (close_pending _); [left; by simplify_eq|]. destruct answer as [answer|]; [|left; by simplify_eq].
    unfold destructive_prompt_choice in Hc. destruct (Z.eqb_spec answer RECOVER_CONFIRM_BUTTON_ID) as [->|]; [|left; by simplify_eq].
    unfold recover_confirmed_active_journal in Hc.
    destruct (can_confirm_active_recovery _) eqn:Hcan; cbn [negb] in Hc; [|left; by simplify_eq]. right.
    unfold can_confirm_active_recovery in Hcan. repeat (apply andb_prop in Hcan as [Hcan ?]). cbn in *.
    split; [done|]. split; [done|]. split; [done|]. by destruct (active_journal (journals (app w))).
Qed.

Lemma dialog_lives native redraw dlg r rest (w w' : Window (B:=B)) :
  after_dialog compare_windows native redraw dlg r rest w = Some w' -> destroyed w' = destroyed w.
Proof.
  intros Ha. destruct dlg, r; cbn in Ha; try done; try (by injection Ha as <-).
  - destruct (run_prepared_appearance_action _ _ _) as [arming s']. by inversion Ha.
  - destruct (close_startup_recovery _ _ _) as [s' b']. by inversion Ha.
Qed.

(** C5: Only a confirmed plan or a confirmed recovery touches the files.  When a step
    of a reachable window changes what occupies some path, then either another program
    did it, or it is the run of the applying thread, to its end or to where it
    panicked, and its plan is the one the planner returned for the rows as they are,
    with the list locked; or the user pressed the confirming button of the recovery
    offered at startup, with the active journal of the earlier run at hand. *)
Theorem files_only_confirmed w (e : Event (B:=B) (K:=K)) q : reachable (K:=K) compare_windows w ->
  occupant (files (step compare_windows w e)) q <> occupant (files w) q ->
  (exists b, e = FilesChanged b) \/
  (exists x, apply_worker (workers (app w)) = Some x /\
     planned (B:=B) (model (app w)) (model_revision (app w)) (task (apply_thread x)) /\
     mutation_locked (locks (app w)) = true /\
     match e with ApplyThreadEnds _ _ _ | ApplyThreadPanics _ _ _ _ _ => True | _ => False end) \/
  (exists native redraw rest, e = DialogReturns native redraw (ButtonReply (Some RECOVER_CONFIRM_BUTTON_ID)) /\
     dialogs w = RecoveryOpen :: rest /\ recovery_locked (locks (app w)) = true /\
     is_Some (active_journal (journals (app w)))).
Proof.
  intros Hw Hq. pose proof (reachable_ok _ _ Hw) as Hok. unfold step in Hq. destruct (destroyed w); [done|].
  assert (Hrun : forall x, apply_worker (workers (app w)) = Some x ->
    planned (B:=B) (model (app w)) (model_revision (app w)) (task (apply_thread x)) /\ mutation_locked (locks (app w)) = true).
  { intros x Hx. split; [apply (ok_apply _ _ Hok _ Hx)|].
    pose proof (only_apply _ _ (ok_one _ _ Hok) Hx) as Ew. apply (ok_working _ _ Hok). by rewrite Ew. }
  destruct e; cbn [live_step] in Hq; try (by cbn in Hq).
  - unfold command in Hq. by destruct (dispatch_command _ _ _ _ _ _).
  - destruct (plan_worker (workers (app w))) as [x|]; [|done]. cbn in Hq. destruct (thread_end x); [done|].
    unfold plan_thread_run in Hq. destruct (plan_worker_body _ _ _ _ _ _ _) as [r b] eqn:Hb. cbn in Hq.
    destruct Hq. change b with (r, b).2. rewrite <-Hb. apply plan_body_moves_nothing.
  - destruct (plan_worker (workers (app w))) as [x|]; [|done]. cbn in Hq. by destruct (thread_end x).
  - destruct (apply_worker (workers (app w))) as [x|] eqn:Hx; [|done]. right. left. exists x. by destruct (Hrun x eq_refl).
  - destruct (apply_worker (workers (app w))) as [x|] eqn:Hx; [|done]. right. left. exists x. by destruct (Hrun x eq_refl).
  - destruct (admission_worker (workers (app w))) as [x|]; [|done]. cbn in Hq. by destruct (thread_end x).
  - destruct (import_worker (workers (app w))) as [x|]; [|done]. cbn in Hq. by destruct (thread_end x).
  - by destruct (handle_plan_completion _).
  - by destruct (handle_admission_completion _ _ _ _).
  - destruct (dialogs w) as [|dlg rest] eqn:Hd; [done|].
    destruct (after_dialog _ _ _ _ _ _ _) as [w'|] eqn:Ha; [|done]. cbn in Hq.
    destruct (dialog_files _ _ _ _ _ _ _ Ha) as [E|(-> & -> & ? & ?)]; [by rewrite E in Hq|]. right. right. by eexists _, _, _.
  - left. by exists b.
Qed.

(** What the window makes of an execution: unlocked only when it is settled. *)
Lemma calm_finalize key redraw joined s : calm s (finalize_apply_worker key redraw joined s).
Proof.
  unfold finalize_apply_worker, handle_completed_execution. destruct joined as [| |[e|j [report|e]|]]; try by intros Hn.
  destruct (report_outcome report); try by intros Hn. calm_walk.
Qed.
Lemma locks_finish s : locks (if close_pending (locks s) then (try_finish_window_close s).2 else s) = locks s.
Proof. case_match; [|done]. by destruct (inert_finish s) as (v & x & ->). Qed.
Lemma completion_settled s key redraw x joined :
  apply_worker (workers s) = Some x -> thread_end (apply_thread x) = Some joined ->
  apply_worker (workers (handle_apply_completion key redraw s)) = None /\
  (recovery_locked (locks (handle_apply_completion key redraw s)) = false ->
   exists journal execution, joined = Published (Executed journal execution) /\
     match execution with
     | Ok (mkReport _ (OutcomeRecoveryRequired _ _) _) => False
     | _ => True
     end).
Proof.
  intros Hx Ht. unfold handle_apply_completion. rewrite Hx, Ht. split.
  - assert (Hf : forall s', calm s' (if close_pending (locks s') then (try_finish_window_close s').2 else s')) by (intros; calm_walk).
    apply Hf, calm_finalize. done.
  - rewrite locks_finish. unfold finalize_apply_worker. destruct joined as [| |[e|j execution|]]; try done. intros Hr.
    exists j, execution. split; [done|]. destruct execution as [[p [] rows]|e]; done.
Qed.

(** C6: A list that is unlocked again stands for a settled disk.  When the applying
    thread of a reachable window runs to its end and the window takes its result over,
    and recovery is not locked after that, then the plan, which the planner returned
    for those rows, was carried out completely or nothing was moved, and no journal is
    kept. *)
Theorem unlocked_means_settled w x fresh system (k : K) redraw : reachable (K:=K) compare_windows w ->
  destroyed w = false -> apply_worker (workers (app w)) = Some x -> thread_end (apply_thread x) = None ->
  let w' := steps compare_windows w [ApplyThreadEnds fresh system k; ApplyComplete redraw] in
  recovery_locked (locks (app w')) = false ->
  planned (B:=B) (model (app w)) (model_revision (app w)) (task (apply_thread x)) /\
  settled K (task (apply_thread x)) (files w) (files w') /\ apply_worker (workers (app w')) = None /\
  kept (journals (app w')) = false.
Proof.
  intros Hw Hl Hx Ht w' Hr. subst w'.
  assert (Hk : kept (journals (app (steps compare_windows w [ApplyThreadEnds fresh system k; ApplyComplete redraw]))) = false).
  { pose proof (reachable_ok _ _ (reachable_step _ _ (ApplyComplete redraw)
      (reachable_step _ _ (ApplyThreadEnds fresh system k) Hw))) as Hok.
    destruct (kept _) eqn:E; [|done]. pose proof (ok_kept _ _ Hok E) as E'. cbn in Hr. congruence. }
  split; [apply (ok_apply _ _ (reachable_ok _ _ Hw) _ Hx)|]. rewrite Hk.
  destruct (apply_worker_body (journal_root (app w)) fresh system (task (apply_thread x)) k (files w)) as [r b] eqn:Hb.
  set (s := set_apply_worker (Some (mkApplyWorker (ended (Published r) (apply_thread x)) (is_finishing x))) (app w)).
  assert (E : steps compare_windows w [ApplyThreadEnds fresh system k; ApplyComplete redraw] =
    mkWindow (handle_apply_completion (path_key b) redraw s) b (dialogs w) false).
  { unfold steps, step. cbn [foldl]. rewrite Hl. cbn [live_step]. rewrite Hx. unfold end_thread. cbn [mbind option_bind].
    rewrite Ht. unfold apply_thread_run. rewrite Hb. cbn [destroyed]. by rewrite Hl. }
  rewrite E in *. cbn [app files] in *. destruct (completion_settled s (path_key b) redraw _ _ eq_refl eq_refl) as [Hnone Hset].
  split; [|by split]. destruct (Hset Hr) as (j & execution & Hj & Hex). injection Hj as ->.
  apply apply_body_settles in Hb. destruct execution as [[p [] rows]|e]; cbn in Hb; try done. by left.
Qed.

(** C36: A window closes only when nothing runs.  The step that destroys a reachable
    window is the message posted for a requested close, and then no worker exists, no
    session and no confirmation is open, and the icon worker and the settings writers
    were joined. *)
Theorem window_closes_idle w (e : Event (B:=B) (K:=K)) : reachable (K:=K) compare_windows w ->
  destroyed w = false -> destroyed (step compare_windows w e) = true ->
  e = FinishClose /\ close_pending (locks (app w)) = true /\ worker_count (workers (app w)) = 0%nat /\
  active_prompt (locks (app w)) = None /\ concat (map dialog_session (dialogs w)) = [] /\ confirmations (dialogs w) = 0%nat /\
  icon_joined (retiring (app w)) <> Some false /\ writers_joined (retiring (app w)) = true.
Proof.
  intros Hw Hl Hd. pose proof (reachable_ok _ _ Hw) as Hok. unfold step in Hd. rewrite Hl in Hd.
  assert (e = FinishClose) as ->.
  { destruct e; try done; cbn [live_step] in Hd.
    - unfold command in Hd. destruct (dispatch_command _ _ _ _ _ _). cbn in Hd. congruence.
    - cbn in Hd. congruence.
    - cbn in Hd. congruence.
    - cbn in Hd. congruence.
    - destruct (end_thread _ _) as [[x b]|]; cbn in Hd; congruence.
    - destruct (end_thread _ _) as [[x b]|]; cbn in Hd; congruence.
    - cbn in Hd. congruence.
    - destruct (apply_worker _); [destruct (end_thread _ _) as [[x b]|]|]; cbn in Hd; congruence.
    - destruct (apply_worker _); [destruct (end_thread _ _) as [[x b]|]|]; cbn in Hd; congruence.
    - destruct (end_thread _ _) as [[x b]|]; cbn in Hd; congruence.
    - destruct (end_thread _ _) as [[x b]|]; cbn in Hd; congruence.
    - destruct (handle_plan_completion _). cbn in Hd. congruence.
    - cbn in Hd. congruence.
    - destruct (handle_admission_completion _ _ _ _). cbn in Hd. congruence.
    - cbn in Hd. congruence.
    - destruct (dialogs w) as [|dlg rest]; [congruence|].
      destruct (after_dialog _ _ _ _ _ _ _) as [w'|] eqn:Ha; cbn in Hd; [|congruence]. apply dialog_lives in Ha. congruence.
    - cbn in Hd. congruence.
    - cbn in Hd. congruence.
    - cbn in Hd. congruence.
    - cbn in Hd. congruence.
    - cbn in Hd. congruence. }
  split; [done|]. cbn in Hd. unfold prepare_window_close, close_blocked in Hd.
  apply andb_prop in Hd as [Hb Hj]. apply negb_true_iff in Hb. repeat (apply orb_false_elim in Hb as [Hb ?]).
  apply negb_false_iff in Hb.
  assert (active_prompt (locks (app w)) = None) as Ha by (by destruct (active_prompt _)).
  pose proof Hok as []. rewrite Ha in ok_sessions. apply app_eq_nil in ok_sessions as [Hs _].
  split; [done|]. split; [|split; [done|split; [done|split; [|split; [|done]]]]].
  - rewrite worker_active_count in *. by destruct (worker_count _).
  - rewrite ok_confirming. by destruct (confirmation_pending _).
  - by intros E; rewrite E in *.
Qed.
End files.

(** ** A session: two files are swapped *)

Definition no_journal : OpenAnswers :=
  mkOpenAnswers (Err (Some 2)) (Err (Some 2)) (Ok (mkFileType true false)) (Ok tt) (Ok true) (Ok tt) (Ok tt).
Definition swap_list : LegacyList := mkList [example_item "a" "b"; example_item "b" "a"] 2 8 0 0.
Definition compare_lengths (left_ right_ : LegacyText) : comparison := Z.compare (zlen left_) (zlen right_).
Definition shown : Redraw := mkRedraw 0 true true.
Definition started : Start := mkStart true true.
Definition confirmed_reply : Event (B:=MemoryBackend) (K:=CancellationToken) :=
  DialogReturns started shown (ApplyReply (Some APPLY_CONFIRM_BUTTON_ID) true).
Definition thread_ends : Event (B:=MemoryBackend) (K:=CancellationToken) :=
  ApplyThreadEnds 3 (quiet_create []) (cancellation_token_new []).
Definition swap_events : list (Event (B:=MemoryBackend) (K:=CancellationToken)) :=
  [Command [1%nat] shown started MOVE_UP; Command [] shown started APPLY;
   PlanThreadEnds false [] (cancellation_token_new []) false; PlanComplete; confirmed_reply; thread_ends; ApplyComplete shown].
Definition window_after (events : list (Event (B:=MemoryBackend) (K:=CancellationToken))) : Window :=
  steps compare_lengths
    (first_window (start_runtime example_root 1 no_journal no_journal) [true; true; true; true] DEFAULT swap_list
       (mkHeap [] 100) true true example_backend) events.
Lemma window_reachable events : reachable (K:=CancellationToken) compare_lengths (window_after events).
Proof. constructor. Defined.
Definition swap_window (n : nat) : Window := window_after (take n swap_events).

Lemma window_invariant_witness : mutation_locked (locks (app (swap_window 3))) = true.
Proof.
  destruct (window_invariant _ (swap_window 3) (window_reachable _)) as (_ & H & _). apply H. vm_compute. reflexivity.
Defined.
Lemma apply_needs_confirmation_witness :
  exists x d, apply_worker (workers (app (step compare_lengths (swap_window 4) confirmed_reply))) = Some x /\
    task (apply_thread x) = apply_plan d /\ head (dialogs (swap_window 4)) = Some (ApplyOpen d).
Proof.
  destruct (apply_worker (workers (app (step compare_lengths (swap_window 4) confirmed_reply)))) as [x|] eqn:Hx;
    [|vm_compute in Hx; discriminate].
  destruct (apply_needs_confirmation compare_lengths (swap_window 4) confirmed_reply x (window_reachable _))
    as (native & redraw & d & rest & _ & Hd & Ht & _); [vm_compute; reflexivity|exact Hx|].
  exists x, d. split; [reflexivity|]. split; [exact Ht|]. rewrite Hd. reflexivity.
Defined.
Lemma files_only_confirmed_witness : is_Some (apply_worker (workers (app (swap_window 5)))).
Proof.
  destruct (files_only_confirmed compare_lengths (swap_window 5) thread_ends (path_key example_backend (text "C:\a"))
    (window_reachable _)) as [(b & H)|[(x & H & _)|(native & redraw & rest & H & _)]].
  - vm_compute. discriminate.
  - discriminate H.
  - exists x. exact H.
  - discriminate H.
Defined.
Lemma unlocked_means_settled_witness :
  let w := steps compare_lengths (swap_window 5) [thread_ends; ApplyComplete shown] in
  exists plan, settled CancellationToken plan (files (swap_window 5)) (files w) /\
    memory_file_id (text "C:\a") (files (swap_window 5)) = Some 10 /\ memory_file_id (text "C:\a") (files w) = Some 11.
Proof.
  cbv zeta. destruct (apply_worker (workers (app (swap_window 5)))) as [x|] eqn:Hx; [|vm_compute in Hx; discriminate].
  assert ((x' ← apply_worker (workers (app (swap_window 5))); Some (thread_end (apply_thread x'))) = Some None) as Ht
    by (vm_compute; reflexivity).
  rewrite Hx in Ht. injection Ht as Ht.
  exists (task (apply_thread x)). split; [|vm_compute; split; reflexivity].
  destruct (unlocked_means_settled compare_lengths (swap_window 5) x 3 (quiet_create []) (cancellation_token_new []) shown
    (window_reachable _)) as (_ & H & _); [vm_compute; reflexivity|exact Hx|exact Ht|vm_compute; reflexivity|exact H].
Defined.
Lemma window_closes_idle_witness :
  destroyed (window_after [CloseWindow; IconWorkerJoined; SettingsWritersEnded; FinishClose]) = true /\
  worker_count (workers (app (window_after [CloseWindow; IconWorkerJoined; SettingsWritersEnded]))) = 0%nat.
Proof.
  split; [vm_compute; reflexivity|].
  refine (proj1 (proj2 (proj2 (window_closes_idle compare_lengths
    (window_after [CloseWindow; IconWorkerJoined; SettingsWritersEnded]) FinishClose (window_reachable _) _ _))));
    vm_compute; reflexivity.
Defined.

(** A close that was requested while a plan was being made locks the list, and the
    completion of the plan unlocks it again, although the window still waits for its
    icon worker: dropped paths are then accepted and their worker delays the close.
    The completion of an import keeps the lock. *)
Lemma closing_list_unlocks :
  let w := window_after (take 2 swap_events ++
    [CloseWindow; PlanThreadEnds false [] (cancellation_token_new []) false; PlanComplete;
     PathsDropped started [text "C:\c"]]) in
  close_pending (locks (app w)) = true /\ destroyed w = false /\ is_Some (admission_worker (workers (app w))).
Proof. vm_compute. repeat split. by eexists. Qed.
